(* ===== verification/_CoqProject ===== *)
-Q . S2P
Prelude.v
GoStd.v
GoPath.v
Sha256.v
GoBytes.v
GoNum.v
LmDigest.v
LmTrie.v
LmLayer.v
LmMerkle.v
LmCache.v
LmResolver.v
LmAdapter.v
LmHasher.v
LmDedup.v
LmWorkers.v
LmDiff.v
LmSerial.v
LmProvenance.v
LmWal.v
LmEngine.v
LmSingleflight.v
FsLayer.v
FsChunk.v
FsCache.v
FsAccess.v
FsOverlay.v
FsMerkle.v
FsProcessor.v
DsTypes.v
DsPrune.v
DsFilter.v
DsWalk.v
DsDiff.v
DsClassify.v
DsHasher.v
DsView.v
DsBatch.v
DsPipeline.v
DsEngine.v
LbTypes.v
LbState.v
LbGraph.v
LbAttrs.v
LbHeap.v
LbOps.v
LbValues.v
LbLaws.v
LbMarshal.v
LbDefinition.v
LbSample.v
DpPruner.v
DpSpec.v
DpPrune.v
CsStore.v
CsLaws.v
CsWrite.v
FwEvent.v
FwStage.v
FwPipeline.v
FwSnapshot.v
FwWatch.v
FwMount.v
ExTypes.v
ExTransform.v
ExImage.v
ExLaws.v
ExExport.v
