(* ===== verification/Prelude.v ===== *)
(** * Verification of the core of bons-ci

    The repository [bons-ci] is a container build service.  Its own core logic, apart from the
    glue around containerd, BuildKit and registries, is in seven packages, which this library
    models:

    - [src/pkg/layermerkle] computes, for each build step (a vertex), the Merkle root of the
      files that the step read, and hashes each file once however many steps read it through
      however many overlay layers;
    - [src/pkg/fshash] is a second, event-driven engine with the same aim, with its own layer
      store, caches, overlay interpreter and Merkle trees;
    - [src/internal/dirsync] compares two directory trees and removes from a merged tree what
      the upper one does not change; [src/pkg/dirpruner] removes from one directory what a
      filter does not keep;
    - [src/core/content] builds content stores out of content stores: copies to several,
      fallbacks, events;
    - [src/pkg/fswatch] reads file accesses from the kernel, tells the overlay layer of each, and
      passes them through filters, transformers and a handler;
    - [src/client/llb] is the client that describes builds: immutable states with metadata, the
      operations that they are the outputs of, and their serialization as a definition.

    ** How layermerkle works, and where it is modelled

    An [Engine] ([engine.go]) receives access events from a file-system watcher, queues them
    and hands each to a worker.  A worker calls [VertexProcessor.Process] ([deduplicator.go]):
    [DeduplicationEngine.Resolve] looks the file up in a hash cache under the top layer, joins
    or starts a singleflight call, asks a resolver which layer owns the file, looks it up under
    that layer, hashes it if need be and fills the cache; the result goes to the builder of the
    vertex, which [FinalizeVertex] seals into a tree and stores in the forest.  Forests are
    compared, serialized and exported, and a persistent cache survives restarts.

    - [LmDigest] ([internal/digest]), [LmTrie] ([internal/trie]), [LmLayer] ([event.go],
      [layer.go], [errors.go], [fanwatch.go]): identifiers, the path trie, the data model.
    - [LmMerkle] ([merkle.go]): builder, root, forest.  The root depends only on the set of
      files and binds their contents up to a hash collision.
    - [LmCache] ([cache.go]): the interface [HashCache] with its laws [HashCacheLaws], which the
      clients' theorems use, and the four implementations, which discharge them; the sharded
      cache refines lists of recent entries.
    - [LmResolver] ([resolver.go], [ringcache.go], [whiteout.go]): the owner of a path, with and
      without stat caches, and the OCI variant.  [LmAdapter] ([adapter.go]): whiteout names,
      merged paths.  [LmHasher] ([hasher.go], [hardlink.go], [inode_*.go]): the interface
      [FileHasher] and its implementations.
    - [LmDedup] ([deduplicator.go], [hooks.go]): [Resolve] and [Process], call by call, over the
      three interfaces.  Deduplication is transparent.
    - [LmWorkers]: the same code under concurrent workers, each access to what they share being
      a step.  Any interleaving gives the answers of the file system and the roots of the files
      read; every worker returns; a worker alone does what [LmDedup] says.
    - [LmSingleflight] ([internal/singleflight]): [Group.Do] by itself, for any function.
    - [LmEngine] ([engine.go], [batch.go]): [Start], [Stop], [Submit], dispatch loop and workers
      as steps.  Events are accounted for, [Stop] drains, one worker keeps the order.
    - [LmDiff] ([diff.go]), [LmSerial] ([serial.go]), [LmProvenance] ([provenance.go],
      [warmer.go]): comparison, round trip, export and cache warming.
    - [LmWal] ([persistent.go]): the log as bytes, cut and failing writes, recovery.

    ** How fshash works, and where it is modelled

    A [Processor] ([processor.go]) keeps a layer store and a chain for each registered layer;
    workers interpret each access event as an overlay mutation, and the deduplicator decides to
    compute, reuse, skip or exclude; [Finalize] builds the tree of the hashes recorded for a
    layer.

    - [FsLayer] ([internal/core], [layer]): events, chains, the store, visibility and staleness.
    - [FsChunk] ([chunk]): hashers and the buffer pool.
    - [FsCache] ([cache]): the hand-linked cache, refined to lists of recent entries.
    - [FsAccess] ([access]): Bloom filter, tracker, deduplicator.
    - [FsOverlay] ([overlay]): markers, mutations, the visibility checker.
    - [FsMerkle] ([merkle]): trees, their verification, inclusion proofs.
    - [FsProcessor] ([processor.go], [options.go], [hooks.go]): the orchestrator, its runs, and
      submission and shutdown as steps.

    ** How dirsync works, and where it is modelled

    A [DirsyncEngine] ([engine.go]) runs a walker, which goes through the lower and the upper
    directory together and reports the entries that only the lower one has and the ones that
    both have; a pipeline, whose goroutines compare the common files by content; and a batcher,
    which collects the removals and runs them on the merged directory.

    - [DsTypes] ([types.go], [errors.go], [helpers.go], [handler.go], [actions.go]): entries, paths,
      errors and handlers.
    - [DsPrune] ([pruning_set.go]): the set of the topmost removals.  [DsFilter] ([filter.go]).
    - [DsView] ([merged_view.go]): the merged directory and what [Remove] does to a disk.
    - [DsWalk] ([walker.go], [classifier.go]): the walk, with one call for each entry; the fuel is
      the depth of the lower tree, of which each level of the recursion takes one.
    - [DsDiff]: the difference of two trees by lookup, which the walk delivers.  [DsClassify]:
      every path is reported in its class, once, and all reaches the two streams.
    - [DsHasher] ([hasher.go], [pool.go]): the comparison of two files in sequence and by segments;
      any interleaving of the segments gives the sequential answer when no read fails.
    - [DsBatch] ([batcher.go], [batcher_goroutine.go]): submission, flushes and the goroutines of
      a batch as steps.  [DsPipeline] ([pipeline.go], [hash_pipeline.go]): the entries of a run,
      each step of one at the scheduler's choice.
    - [DsEngine] ([engine.go]): the composition; the merged directory after a run.

    ** How dirpruner works, and where it is modelled

    A [Pruner] ([pruner.go]) walks the directory below the required paths.  What the filter keeps
    stays, with the directories above it; the topmost entries that hold nothing kept become jobs,
    which workers submit to a batcher of dirsync.

    - [DpPruner]: the walk, the workers as steps, observers and options, over dirsync's filters,
      views and batchers.  The fuel of the walk is the depth of the tree.
    - [DpSpec]: the entries that are spared, and removals that lie in each other.
    - [DpPrune]: what a run leaves of a disk, also when its context ends or a listing fails.

    ** How the content stores work, and where they are modelled

    - [CsStore] ([event], [writer], [store/composite], [store/middleware], [store/noop]): the
      interface as a record of operations, over any state, and every operation of the composites.
      Calls that run in goroutines run in an order that a scheduler, [GoSched], chooses.  A walk
      of a fanout is a run of steps of its goroutines, and the listing of each store is what it
      was at the start.  The adapters between the two versions of the interface, which have the
      same types, are the identity but for the options they forget.
    - [CsLaws]: what a composite reads is the union of its parts, for any nesting.
    - [CsWrite]: deletion, the writers of fallbacks, walks, lost options.

    ** How fswatch works, and where it is modelled

    A watcher ([watcher_linux.go]) reads records of fanotify and sends events.  A [Pipeline]
    ([pipeline.go]) receives them, drops those that its filters reject, and gives each of the others
    to a worker, which transforms it and hands it to the handler.  The transformers tell the
    layer, the process and the snapshot of an event.

    - [FwEvent] ([event.go], [overlay.go], [overlay_parser.go], [errors.go]): masks, overlays, the
      parser of the kernel's table of mounts.  [FwMount]: the parser reads back what the kernel
      writes.
    - [FwStage] ([filter.go], [transform.go], [handler.go], [options.go]): the stages.  An event is a
      value; a transformer or handler also changes a state, of any type.
    - [FwPipeline] ([pipeline.go]): a run as steps.  Its outcome does not depend on the schedule,
      and it ends.
    - [FwSnapshot] ([snapshot]): overlays of snapshots, their ancestors (the fuel is one more than
      the number of known snapshots), the enrichers and their caches.
    - [FwWatch] ([internal/sys], [watcher_linux.go]): the buffers of the kernel (the fuel is their
      length), and the loop that reads them.

    ** How llb works, and where it is modelled

    A [State] ([state.go]) is a value with an output, metadata and options, and each option of
    [meta.go] makes a new one.  An [Output] belongs to a [Vertex], an operation with inputs that
    are outputs again.  [State.Marshal] walks the vertices from the output of the state, each
    marshalled after its inputs, and ends with an operation that names the output.

    - [LbTypes] ([constraints.go], [platform.go], [marshal.go]): messages, constraints and
      definitions.
    - [LbState] ([state.go], [meta.go], [transformer.go]): states, options and getters.
    - [LbGraph] ([output.go], [visitor.go], [marshalVertex]): the class [LLBGraph] of the methods
      of vertices and outputs, its laws [LLBGraphLaws], and the traversals over any instance.
    - [LbAttrs] (values in [ops]): attributes, cells, numbers.  [LbHeap] (constructors in [ops],
      [async.go]): the vertices as objects of a heap, with the fields that calls change.
    - [LbOps] (methods in [ops]): [Validate], [Inputs], [Marshal], [Vertex] and [ToInput].  The
      instance [go_ops n] lets calls nest [n] deep.  [LbLaws]: it is lawful over the heaps that
      constructors build, for client functions without effects, when [n] is above the rank of
      the vertex, which is twice its place in the order of construction.
    - [LbValues]: what the computed values are.
    - [LbMarshal] ([state.go], [sourcemap.go], [strategy.go], [builder.go]):
      [State.Marshal], source maps, strategies and graph builders.  The states that describe
      source files are marshalled too; their nesting is bounded by a second number.
    - [LbDefinition] ([ops/definitionop]): a definition as a graph again, and the round trip.
    - [LbSample]: a small graph, at which the theorems are applied.

    ** Shared files

    This file has the tactics and the lemmas on lists and sorting by a key.  [GoStd] models what
    the code uses of Go and its standard library, [GoPath] lexical paths, and [Sha256] computes
    SHA-256, so that witnesses compute real digests.  [GoBytes]: integers as bytes.

    ** Conventions

    - A struct is a record, a method that mutates its receiver a function that returns the new
      one, a [(T, error)] result a value of [result T], and a wrapped error a value that keeps
      what it wraps.  A panic is [None], or a flag of the state where the process goes on to be
      observed.
    - [uint32] and [uint64] values are [N] reduced modulo their width where they can wrap around:
      the FNV hashes, the filter positions, the log's length prefixes.  Counters are unbounded.
    - What Go leaves open is a parameter: the order of a map is a class [GoRange], [sort.Slice]
      a class [GoSort]; theorems hold for every instance.  So are third-party functions and the
      operating system: BLAKE3 and XXH3 ([ThirdPartyHashes]), the floating-point sizing of the
      filter ([BloomSizing]), [encoding/gob] ([GobCodec]), [encoding/json], what [os.Lstat] and
      reading a file answer, the clock.  The laws assumed of them are their documentation's.
    - A mutex makes a critical section one step; what a goroutine does between two of them
      is another.  Theorems about concurrency quantify over lists of steps, in which the
      scheduler picks any enabled one.
    - A loop that is not structural takes fuel that is shown to be enough: the length of the
      path for the walk up its ancestors ([FsLayer.opaque_above]), the number of leaves for the
      levels of a tree ([FsMerkle.build_loop]), the number of bytes for the records of a log
      ([LmWal.readWAL_loop]), 65 for the bits of a word, the depth of a tree for a walk of it
      ([DsWalk]), the rank of an output for the calls below it ([LbLaws]).
    - The objects of [llb] are numbered cells of a heap.  A method called through an interface
      is a call of the class, so that one instance says how deep calls nest.

    ** Where the code does not do what it says

    Some theorems state such behaviour: the roots do not bind file names; a cached hit names the
    wrong owner and stacks that share a top layer share entries; an opaque marker hides its own
    layer; [AccessEventFromEnriched] rejects every event; [Submit] panics when it races with
    [Stop] or [Close]; a finalization loses the accesses it overtakes; the log forgets deleted
    layers and what follows a torn record; inclusion proofs fail on lone nodes; a write event
    reuses the old hash.  In dirsync, an upper file that replaces a lower directory is removed
    from the merged tree; a collapsed removal takes along what the filter excludes; after a
    cancellation a batch can wait for ever; a failing read can count as equality; a cancelled
    run reports no error.  In llb, the outputs of an exec's writable mounts collide; the default
    strategy leaves out the last operation; a relative [Dir] option used twice joins twice; the
    least integer has no digits; a nested solve with many caches panics.  The pruner removes a
    directory that it cannot read.  The adapters of content stores lose the options of a writer,
    and a fallback reports the errors of its secondary when it closes.  In fswatch, filters for a
    layer or an attribute reject everything, since they run before the transformers; the first
    middleware is the outermost; the prefix of the root lets nothing pass; names that begin with
    two dots count as outside; a record of another version leaks the descriptors before it.

    ** Not modelled

    In these packages: text reports, logging and metric hooks ([report.go], [sloghook.go],
    [otel], [prometheus]), the command [lminspect], test helpers, [ContextGroup] of the
    singleflight package, which nothing calls, and the streaming of [HashReader], which is its
    result on the whole content.  In [LmWorkers] an access to a cache or resolver is atomic,
    though a resolver takes its own mutex more than once.  In dirsync, the batcher over io_uring
    and the handlers that only log.  In llb, callers that wait for each other in one
    asynchronous output, and the waiting of a gate for its approver; the list of options that
    a state carries is a value, though slices that share an array could overwrite one another;
    the locations that the collector of source maps gets during the traversal are added after
    it, in the same order.

    In dirpruner the disk is what it was at the start for the whole walk, though workers already
    remove; the constructor of the pattern filter, which is called with arguments that it does not
    have, is a parameter.  In fswatch, the comparison of two attributes that are maps, which
    panics, is not modelled; [strings.ToLower] is a class; a call of the transformers or of the
    handler is one step; the calls to the kernel are given by what they answer.

    The rest of the repository is input and output around other systems: the content stores of
    registries, B2 and the local disk, the snapshotter, converters, executors, the plugins, tracing,
    the web site and the build images. *)
From stdpp Require Export base tactics strings gmap fin_maps list sorting.
From Stdlib.Strings Require Export Ascii Byte.
From Stdlib Require Export ZArith NArith Lia.

Set Default Goal Selector "!".

Declare Scope go_scope.
Delimit Scope go_scope with go.

(** ** Automation *)

Create HintDb godb.

(** Splits the first [match] or [if] whose scrutinee is visible, keeping its equation. *)
Ltac go_case :=
  match goal with
  | |- context [match ?x with _ => _ end] => destruct x eqn:?
  | H : context [match ?x with _ => _ end] |- _ => destruct x eqn:?
  end.

(** Closes the goals that are left after a case analysis of executable code. *)
Ltac go_crush :=
  repeat first [ progress simplify_eq/= | go_case | case_decide ];
  try (done || lia || naive_solver).

(** ** Sorting by a string key *)

Section key_order.
Context {A : Type} (key : A → string).

Definition key_le (x y : A) : Prop := String.le (key x) (key y).

#[export] Instance key_le_dec : RelDecision key_le.
Proof. intros x y. unfold key_le. apply _. Defined.

#[export] Instance key_le_trans : Transitive key_le.
Proof. intros x y z. unfold key_le. by transitivity (key y). Qed.

#[export] Instance key_le_total : Total key_le.
Proof. intros x y. unfold key_le. apply (total String.le). Qed.

(** Two lists sorted by a key, permutations of one another, are equal as soon as no two
    different elements share a key. *)
Lemma key_sorted_unique (l1 l2 : list A) :
  (∀ x y, x ∈ l1 → y ∈ l1 → key x = key y → x = y) →
  StronglySorted key_le l1 → StronglySorted key_le l2 → l1 ≡ₚ l2 → l1 = l2.
Proof.
  intros Hinj H1 H2 Hp.
  apply (StronglySorted_unique_strong key_le); [| done..].
  intros x y Hx Hy Hxy Hyx. apply Hinj; [done | by rewrite Hp |].
  unfold key_le in *. by apply (anti_symm String.le).
Qed.
End key_order.

(** A list without repeated keys has no two different elements under one key. *)
Lemma NoDup_key_inj {A B} (key : A → B) (l : list A) :
  NoDup (key <$> l) → ∀ x y, x ∈ l → y ∈ l → key x = key y → x = y.
Proof.
  induction l as [|a l IH]; intros Hnd x y Hx Hy Hk; [by apply elem_of_nil in Hx |].
  rewrite fmap_cons, NoDup_cons in Hnd. destruct Hnd as [Ha Hnd].
  assert (∀ z, z ∈ l → key z ≠ key a) as Hz.
  { intros z Hz Heq. apply Ha. rewrite <- Heq. by apply list_elem_of_fmap_2. }
  apply elem_of_cons in Hx as [->|Hx]; apply elem_of_cons in Hy as [->|Hy];
    [done | by destruct (Hz y) | by destruct (Hz x) | by apply IH].
Qed.

Lemma map_to_list_NoDup_keys `{FinMap K M} {A} (m : M A) :
  NoDup (fst <$> map_to_list m).
Proof. apply NoDup_fst_map_to_list. Qed.

(** ** Folds that do not depend on order or multiplicity *)

Section fold_set.
Context {A B : Type} (f : B → A → B).

Lemma foldl_perm (l1 l2 : list A) (b : B) :
  (∀ x y b, x ∈ l1 → y ∈ l1 → f (f b x) y = f (f b y) x) →
  l1 ≡ₚ l2 → foldl f b l1 = foldl f b l2.
Proof.
  intros Hc Hp. revert b Hc.
  induction Hp as [|x l1 l2 Hp IH|x y l|l1 l2 l3 Hp1 IH1 Hp2 IH2]; intros b Hc; simpl.
  - done.
  - apply IH. intros u v b' Hu Hv. apply Hc; by right.
  - rewrite Hc; [done | |]; rewrite ?elem_of_cons; auto.
  - rewrite IH1 by done. apply IH2. intros u v b' Hu Hv. apply Hc; by rewrite Hp1.
Qed.

Lemma foldl_absorb (l : list A) (x : A) (b : B) :
  (∀ x y b, x ∈ l → y ∈ l → f (f b x) y = f (f b y) x) →
  (∀ x b, x ∈ l → f (f b x) x = f b x) →
  x ∈ l → f (foldl f b l) x = foldl f b l.
Proof.
  intros Hc Hi Hx. pose proof Hx as Hx'.
  apply list_elem_of_split in Hx as (l1 & l2 & ->).
  assert (l1 ++ x :: l2 ≡ₚ (l1 ++ l2) ++ [x]) as Hp.
  { rewrite <- Permutation_middle. apply Permutation_cons_append. }
  rewrite (foldl_perm _ _ b Hc Hp), foldl_app. simpl. by apply Hi.
Qed.

Lemma foldl_remove_dups `{EqDecision A} (l : list A) (b : B) :
  (∀ x y b, x ∈ l → y ∈ l → f (f b x) y = f (f b y) x) →
  (∀ x b, x ∈ l → f (f b x) x = f b x) →
  foldl f b (remove_dups l) = foldl f b l.
Proof.
  revert b. induction l as [|x l IH]; intros b Hc Hi; [done |]. simpl.
  assert (∀ b, foldl f b (remove_dups l) = foldl f b l) as IH'.
  { intros b'. apply IH; intros; [apply Hc | apply Hi]; by right. }
  destruct (decide_rel (∈) x l) as [Hx|Hx]; [| by simpl; rewrite IH'].
  rewrite IH'. apply list_elem_of_split in Hx as (l1 & l2 & ->).
  assert (l1 ++ x :: l2 ≡ₚ x :: l1 ++ l2) as Hp by (by rewrite Permutation_middle).
  assert (∀ b, foldl f b (l1 ++ x :: l2) = foldl f b (x :: l1 ++ l2)) as E.
  { intros b'. apply foldl_perm; [| done]. intros; apply Hc; by right. }
  change (foldl f b (x :: l1 ++ x :: l2)) with (foldl f (f b x) (l1 ++ x :: l2)).
  rewrite !E. simpl. by rewrite Hi by by left.
Qed.

(** The fold only sees the set of elements. *)
Lemma foldl_set_eq `{EqDecision A} (l1 l2 : list A) (b : B) :
  (∀ x y b, x ∈ l1 → y ∈ l1 → f (f b x) y = f (f b y) x) →
  (∀ x b, x ∈ l1 → f (f b x) x = f b x) →
  (∀ x, x ∈ l1 ↔ x ∈ l2) → foldl f b l1 = foldl f b l2.
Proof.
  intros Hc Hi Hs.
  rewrite <- (foldl_remove_dups l1), <- (foldl_remove_dups l2).
  - apply foldl_perm.
    + intros x y b'. rewrite !elem_of_remove_dups. apply Hc.
    + apply NoDup_Permutation; [apply NoDup_remove_dups .. |].
      intros x. by rewrite !elem_of_remove_dups.
  - intros x y b'. rewrite <- !Hs. apply Hc.
  - intros x b'. rewrite <- !Hs. apply Hi.
  - done.
  - done.
Qed.
End fold_set.

(** ** Concatenations of blocks *)

(** Two sequences of blocks with pairwise equal lengths are equal when their concatenations
    are. *)
Lemma concat_blocks_inj {A} (l1 l2 : list (list A)) :
  Forall2 (λ x y, length x = length y) l1 l2 → concat l1 = concat l2 → l1 = l2.
Proof.
  induction 1 as [|x y l1 l2 Hxy H IH]; [done |]. simpl.
  intros [-> Hc]%app_inj_1; [| done]. by rewrite IH.
Qed.

(** A disjunction whose second side does not depend on the element leaves the list. *)
Lemma Forall_or_const {A} (P : A → Prop) (C : Prop) (l : list A) :
  Forall (λ x, P x ∨ C) l → Forall P l ∨ C.
Proof. induction 1 as [|x l [Hx|Hx] _ [IH|IH]]; auto. Qed.

Lemma Forall2_or_const {A B} (P : A → B → Prop) (C : Prop) (l : list A) (k : list B) :
  Forall2 (λ x y, P x y ∨ C) l k → Forall2 P l k ∨ C.
Proof. induction 1 as [|x y l k [Hx|Hx] _ [IH|IH]]; auto. Qed.

Lemma Forall2_conj {A B} (P Q : A → B → Prop) (l : list A) (k : list B) :
  Forall2 P l k → Forall2 Q l k → Forall2 (λ x y, P x y ∧ Q x y) l k.
Proof. induction 1; inversion_clear 1; constructor; auto. Qed.

Lemma filter_all {A} (P : A → Prop) `{∀ x, Decision (P x)} (l : list A) :
  Forall P l → filter P l = l.
Proof.
  induction 1 as [|x l Hx Hl IH]; [done |]. rewrite filter_cons, decide_True by done. by rewrite IH.
Qed.

(** A filter only looks at the elements of its list. *)
Lemma forallb_pointwise {A} (f g : A → bool) (l : list A) : (∀ x, f x = g x) → forallb f l = forallb g l.
Proof. intros H. induction l as [|x l IH]; simpl; [done |]. by rewrite H, IH. Qed.

Lemma filter_ext_in {A} (P Q : A → Prop) `{∀ x, Decision (P x), ∀ x, Decision (Q x)} (l : list A) :
  (∀ x, x ∈ l → P x ↔ Q x) → filter P l = filter Q l.
Proof.
  induction l as [|x l IH]; intros HPQ; [done |]. rewrite !filter_cons.
  rewrite (IH ltac:(intros y Hy; apply HPQ; by right)). apply decide_ext. apply HPQ. by left.
Qed.

(** ** The middle of a list *)

(** Lists cut at the place an update changes. *)
Lemma list_split {A} (l : list A) (i : nat) (x : A) :
  l !! i = Some x → ∃ l1 l2, l = l1 ++ x :: l2 ∧ i = length l1.
Proof.
  intros Hx. exists (take i l), (drop (S i) l). split; [by rewrite take_drop_middle |].
  rewrite length_take. apply lookup_lt_Some in Hx. lia.
Qed.

Lemma insert_middle {A} (l1 l2 : list A) (x y : A) : <[length l1 := y]> (l1 ++ x :: l2) = l1 ++ y :: l2.
Proof. by rewrite insert_app_r_alt, Nat.sub_diag by lia. Qed.

Lemma alter_middle {A} (f : A → A) (l1 l2 : list A) (x : A) :
  alter f (length l1) (l1 ++ x :: l2) = l1 ++ f x :: l2.
Proof. by rewrite alter_app_r_alt, Nat.sub_diag by lia. Qed.

Lemma mjoin_middle {A B} (f : A → list B) (l1 l2 : list A) (x : A) :
  mjoin (f <$> (l1 ++ x :: l2)) = mjoin (f <$> l1) ++ f x ++ mjoin (f <$> l2).
Proof. by rewrite fmap_app, join_app. Qed.

Lemma fmap_middle {A B} (f : A → B) (l1 l2 : list A) (x : A) :
  f <$> (l1 ++ x :: l2) = (f <$> l1) ++ f x :: (f <$> l2).
Proof. by rewrite fmap_app. Qed.
