(* ===== verification/GoStd.v ===== *)
(** * GoStd: what the modelled packages use of Go and its standard library

    Strings are byte sequences ([string]), byte slices are [list byte], machine
    integers are [N] reduced modulo their width.  The functions follow the packages
    [strings], [path], [path/filepath] (on Unix), [sort], [errors] and [encoding/hex].
    [sort.Slice] and the iteration order of a Go map leave freedom to the
    implementation, so each is a class with its documented contract as laws, and the
    client theorems hold for every lawful instance. *)
From S2P Require Import Prelude.

(** ** Errors and results *)

(** A Go [error]: a value made by [errors.New], compared by identity; a value made by
    [fmt.Errorf] with a [%w] verb, which wraps another; one without; or the value of
    [errors.Join], which wraps several. *)
Inductive error :=
  | ESentinel (name : string)
  | EWrap (msg : list string) (inner : error)
  | EText (msg : list string)
  | EJoin (errs : list error).

#[export] Instance error_eq_dec : EqDecision error.
Proof.
  refine (fix go e1 e2 : {e1 = e2} + {e1 ≠ e2} :=
    match e1, e2 with
    | ESentinel n1, ESentinel n2 => cast_if (decide (n1 = n2))
    | EWrap m1 i1, EWrap m2 i2 => cast_if_and (decide (m1 = m2)) (go i1 i2)
    | EText m1, EText m2 => cast_if (decide (m1 = m2))
    | EJoin l1, EJoin l2 =>
        cast_if ((fix go_list l1 l2 : {l1 = l2} + {l1 ≠ l2} :=
          match l1, l2 with
          | [], [] => left eq_refl
          | x1 :: l1, x2 :: l2 => cast_if_and (go x1 x2) (go_list l1 l2)
          | _, _ => right _
          end) l1 l2)
    | _, _ => right _
    end); clear go; try clear go_list; congruence.
Defined.

(** [errors.Is] *)
Fixpoint errors_is (e target : error) : bool :=
  bool_decide (e = target)
  || match e with
     | EWrap _ inner => errors_is inner target
     | EJoin errs => existsb (λ e, errors_is e target) errs
     | _ => false
     end.

(** [errors.Join] of non-nil errors: nil when there is none *)
Definition errors_join (errs : list error) : option error :=
  match errs with [] => None | _ => Some (EJoin errs) end.

Definition io_EOF : error := ESentinel "EOF".
Definition io_ErrUnexpectedEOF : error := ESentinel "unexpected EOF".
Definition fs_ErrNotExist : error := ESentinel "file does not exist".
Definition ctx_Canceled : error := ESentinel "context canceled".
Definition ctx_DeadlineExceeded : error := ESentinel "context deadline exceeded".

(** A pair [(value, err)] of which exactly one is meaningful. *)
Inductive result (A : Type) :=
  | Ok (a : A)
  | Err (e : error).
Arguments Ok {A} _.
Arguments Err {A} _.

#[export] Instance result_eq_dec `{EqDecision A} : EqDecision (result A).
Proof. solve_decision. Defined.

(** The answers [ctx.Err()] gives, poll after poll. *)
Definition context := nat → option error.
Definition ctx_background : context := λ _, None.

(** ** Strings *)

Definition go_slash : ascii := "/".
Definition go_nul : ascii := "000".

Definition char_str (c : ascii) : string := String c EmptyString.

(** [strings.HasPrefix(s, p)] *)
Definition has_prefix (s p : string) : bool := String.prefix p s.

(** [s[n:]] *)
Fixpoint str_drop (n : nat) (s : string) : string :=
  match n, s with
  | S n', String _ s' => str_drop n' s'
  | _, _ => s
  end.

(** [s[:n]] *)
Fixpoint str_take (n : nat) (s : string) : string :=
  match n, s with
  | S n', String c s' => String c (str_take n' s')
  | _, _ => EmptyString
  end.

(** [strings.TrimPrefix(s, p)] *)
Definition trim_prefix (s p : string) : string :=
  if has_prefix s p then str_drop (String.length p) s else s.

(** [strings.IndexByte(s, c)], [None] for -1 *)
Fixpoint index_byte (s : string) (c : ascii) : option nat :=
  match s with
  | EmptyString => None
  | String a s' => if decide (a = c) then Some 0 else S <$> index_byte s' c
  end.

(** [strings.Split(s, sep)] for a separator of one byte *)
Fixpoint str_split (c : ascii) (s : string) : list string :=
  match s with
  | EmptyString => [EmptyString]
  | String a s' =>
      if decide (a = c) then EmptyString :: str_split c s'
      else match str_split c s' with
           | h :: t => String a h :: t
           | [] => [char_str a]
           end
  end.

(** [strings.Join(l, sep)] *)
Fixpoint str_join (sep : string) (l : list string) : string :=
  match l with
  | [] => EmptyString
  | [x] => x
  | x :: l' => x +:+ sep +:+ str_join sep l'
  end.

(** The encodings in UTF-8 of the code points [unicode.IsSpace] holds of. *)
Definition utf8_spaces : list string :=
  [char_str "009"; char_str "010"; char_str "011"; char_str "012"; char_str "013";
   char_str " "; String "194" (char_str "133"); String "194" (char_str "160");
   String "225" (String "154" (char_str "128"))]
  ++ ((λ c, String "226" (String "128" (char_str c))) <$>
        ["128"; "129"; "130"; "131"; "132"; "133"; "134"; "135"; "136"; "137"; "138";
         "168"; "169"; "175"]%char)
  ++ [String "226" (String "129" (char_str "159"));
      String "227" (String "128" (char_str "128"))].

Fixpoint trim_left_fuel (fuel : nat) (spaces : list string) (s : string) : string :=
  match fuel, List.find (has_prefix s) spaces with
  | S fuel', Some sp => trim_left_fuel fuel' spaces (trim_prefix s sp)
  | _, _ => s
  end.

(** [strings.TrimSpace(s)] *)
Definition trim_space (s : string) : string :=
  let l := trim_left_fuel (String.length s) utf8_spaces s in
  String.rev (trim_left_fuel (String.length l) (String.rev <$> utf8_spaces) (String.rev l)).

(** ** Paths ([path] and, on Unix, [path/filepath]) *)

(** The element loop of [path.Clean]; [stack] holds the kept elements, last first. *)
Definition clean_step (rooted : bool) (stack : list string) (elem : string) : list string :=
  if decide (elem = EmptyString ∨ elem = ".") then stack
  else if decide (elem = "..") then
    match stack with
    | top :: rest => if decide (top = "..") then elem :: stack else rest
    | [] => if rooted then [] else [elem]
    end
  else elem :: stack.

Definition path_clean (p : string) : string :=
  if decide (p = EmptyString) then "."
  else
    let rooted := has_prefix p "/" in
    let s := str_join "/" (reverse (foldl (clean_step rooted) [] (str_split go_slash p))) in
    if rooted then "/" +:+ s
    else if decide (s = EmptyString) then "." else s.

(** [filepath.Split]: the directory with its trailing slash, and the file *)
Fixpoint path_split (p : string) : string * string :=
  match p with
  | EmptyString => (EmptyString, EmptyString)
  | String a p' =>
      let '(d, f) := path_split p' in
      if decide (d = EmptyString)
      then if decide (a = go_slash) then (char_str a, f) else (EmptyString, String a f)
      else (String a d, f)
  end.

(** [filepath.Join] *)
Fixpoint path_join (elems : list string) : string :=
  match elems with
  | [] => EmptyString
  | e :: rest =>
      if decide (e = EmptyString) then path_join rest
      else path_clean (str_join "/" elems)
  end.

(** [filepath.Dir] *)
Definition path_dir (p : string) : string := path_clean (path_split p).1.

Fixpoint strip_trailing_slashes (p : string) : string :=
  match p with
  | EmptyString => EmptyString
  | String a p' =>
      let q := strip_trailing_slashes p' in
      if decide (q = EmptyString ∧ a = go_slash) then EmptyString else String a q
  end.

(** [filepath.Base] *)
Definition path_base (p : string) : string :=
  if decide (p = EmptyString) then "."
  else
    let f := (path_split (strip_trailing_slashes p)).2 in
    if decide (f = EmptyString) then "/" else f.

(** ** Machine integers and bytes *)

Definition u32 (x : N) : N := (x mod 2 ^ 32)%N.
Definition u64 (x : N) : N := (x mod 2 ^ 64)%N.

(** [uint64(b)] for the bytes of a string, in order *)
Definition str_bytes (s : string) : list byte := String.list_byte_of_string s.

(** [string(b)] *)
Definition bytes_str (b : list byte) : string := String.string_of_list_byte b.

#[export] Instance byte_eq_dec : EqDecision byte := Byte.byte_eq_dec.

(** One FNV-1a step, at the width [u] wraps to. *)
Definition fnv_step (u : N → N) (prime h : N) (b : byte) : N :=
  u (N.lxor h (Byte.to_N b) * prime)%N.

(** [hex.EncodeToString] *)
Definition hex_digit (n : N) : ascii :=
  ascii_of_N (if (n <? 10)%N then 48 + n else 87 + n)%N.

Fixpoint hex_encode (b : list byte) : string :=
  match b with
  | [] => EmptyString
  | x :: b' =>
      String (hex_digit (Byte.to_N x / 16)) (String (hex_digit (Byte.to_N x mod 16)) (hex_encode b'))
  end.

(** ** What the language leaves open *)

(** [sort.Slice(l, λ i j, key l[i] < key l[j])]: sorted by the key, not stable. *)
Class GoSort := {
  sort_slice {A : Type} : (A → string) → list A → list A;
  sort_slice_perm {A : Type} (key : A → string) l : sort_slice key l ≡ₚ l;
  sort_slice_sorted {A : Type} (key : A → string) l :
    StronglySorted (key_le key) (sort_slice key l);
}.

(** The order in which [for k, v := range m] visits a map. *)
Class GoRange := {
  map_range `{Countable K} {A : Type} : gmap K A → list (K * A);
  map_range_perm `{Countable K} {A : Type} (m : gmap K A) : map_range m ≡ₚ map_to_list m;
}.

(** The instances the witnesses run with: merge sort, and the order of [map_to_list] or
    its reverse. *)
#[export] Instance goSort_merge : GoSort.
Proof.
  refine {| sort_slice A key l := merge_sort (key_le key) l |}.
  - intros. apply merge_sort_Permutation.
  - intros. apply (StronglySorted_merge_sort _).
Defined.

#[export] Instance goRange_list : GoRange.
Proof. refine {| map_range K EK CK A m := map_to_list m |}. done. Defined.

Definition goRange_rev : GoRange.
Proof.
  refine {| map_range K EK CK A m := reverse (map_to_list m) |}.
  intros. apply reverse_Permutation.
Defined.

(** [sort.Strings]: a total order, so every implementation gives the same slice. *)
Definition sort_strings (l : list string) : list string := merge_sort String.le l.

(** ** Lemmas on sorting and iteration *)

Lemma sort_slice_unique `{GoSort} {A} (key : A → string) (l1 l2 : list A) :
  NoDup (key <$> l1) → l1 ≡ₚ l2 → sort_slice key l1 = sort_slice key l2.
Proof.
  intros Hnd Hp. apply (key_sorted_unique key).
  - intros x y Hx Hy. apply (NoDup_key_inj key l1 Hnd).
    + by rewrite sort_slice_perm in Hx.
    + by rewrite sort_slice_perm in Hy.
  - apply sort_slice_sorted.
  - apply sort_slice_sorted.
  - by rewrite !sort_slice_perm.
Qed.

Lemma elem_of_sort_slice `{GoSort} {A} (key : A → string) (l : list A) x :
  x ∈ sort_slice key l ↔ x ∈ l.
Proof. by rewrite sort_slice_perm. Qed.

Lemma sort_slice_length `{GoSort} {A} (key : A → string) (l : list A) :
  length (sort_slice key l) = length l.
Proof. by rewrite sort_slice_perm. Qed.

Lemma sort_slice_NoDup_key `{GoSort} {A} (key : A → string) (l : list A) :
  NoDup (key <$> l) → NoDup (key <$> sort_slice key l).
Proof. by rewrite sort_slice_perm. Qed.

Lemma elem_of_map_range `{GoRange} `{Countable K} {A} (m : gmap K A) k x :
  (k, x) ∈ map_range m ↔ m !! k = Some x.
Proof. by rewrite map_range_perm, elem_of_map_to_list. Qed.

Lemma map_range_NoDup `{GoRange} `{Countable K} {A} (m : gmap K A) : NoDup (map_range m).
Proof. rewrite map_range_perm. apply NoDup_map_to_list. Qed.

Lemma map_range_NoDup_keys `{GoRange} `{Countable K} {A} (m : gmap K A) : NoDup (fst <$> map_range m).
Proof. rewrite map_range_perm. apply NoDup_fst_map_to_list. Qed.

Lemma map_range_length `{GoRange} `{Countable K} {A} (m : gmap K A) : length (map_range m) = size m.
Proof. by rewrite map_range_perm, length_map_to_list. Qed.

Lemma sort_strings_perm l : sort_strings l ≡ₚ l.
Proof. apply merge_sort_Permutation. Qed.

Lemma sort_strings_sorted l : StronglySorted String.le (sort_strings l).
Proof. apply (StronglySorted_merge_sort _). Qed.

(** ** Lemmas on strings *)

Lemma str_app_nil_r (s : string) : s +:+ EmptyString = s.
Proof. induction s as [|a s IH]; [done |]. change (String a (s +:+ EmptyString) = String a s). by rewrite IH. Qed.

Lemma str_app_assoc (s1 s2 s3 : string) : (s1 +:+ s2) +:+ s3 = s1 +:+ s2 +:+ s3.
Proof.
  induction s1 as [|a s1 IH]; [done |].
  change (String a ((s1 +:+ s2) +:+ s3) = String a (s1 +:+ s2 +:+ s3)). by rewrite IH.
Qed.

Lemma str_length_app (s1 s2 : string) :
  String.length (s1 +:+ s2) = String.length s1 + String.length s2.
Proof.
  induction s1 as [|a s1 IH]; [done |].
  change (S (String.length (s1 +:+ s2)) = S (String.length s1 + String.length s2)).
  by rewrite IH.
Qed.

(** The bytes of a string that is a [char] are the ones of the code. *)
Definition char_in (c : ascii) (s : string) : Prop := c ∈ String.list_ascii_of_string s.

#[export] Instance char_in_dec c s : Decision (char_in c s).
Proof. unfold char_in. apply _. Defined.

Lemma char_in_cons c a s : char_in c (String a s) ↔ c = a ∨ char_in c s.
Proof. unfold char_in. simpl. by rewrite elem_of_cons. Qed.

Lemma char_in_nil c : ¬ char_in c EmptyString.
Proof. unfold char_in. simpl. apply not_elem_of_nil. Qed.

Lemma char_in_app c s1 s2 : char_in c (s1 +:+ s2) ↔ char_in c s1 ∨ char_in c s2.
Proof.
  induction s1 as [|a s1 IH].
  - change (EmptyString +:+ s2) with s2. split; [by right |].
    intros [H|H]; [by apply char_in_nil in H | done].
  - change (String a s1 +:+ s2) with (String a (s1 +:+ s2)). rewrite !char_in_cons, IH. tauto.
Qed.

Lemma index_byte_None s c : index_byte s c = None ↔ ¬ char_in c s.
Proof.
  induction s as [|a s IH]; simpl; [split; [intros _; apply char_in_nil | done] |].
  rewrite char_in_cons. case_decide as Ha; [naive_solver |].
  destruct (index_byte s c); simpl; naive_solver.
Qed.

Lemma index_byte_app s1 s2 c :
  ¬ char_in c s1 → index_byte (s1 +:+ String c s2) c = Some (String.length s1).
Proof.
  induction s1 as [|a s1 IH]; intros Hc.
  - change (EmptyString +:+ String c s2) with (String c s2). simpl. by rewrite decide_True.
  - change (String a s1 +:+ String c s2) with (String a (s1 +:+ String c s2)).
    rewrite char_in_cons in Hc. simpl. rewrite decide_False by naive_solver.
    rewrite IH by naive_solver. done.
Qed.

Lemma str_split_char_eq c s1 t1 s2 t2 :
  ¬ char_in c s1 → ¬ char_in c s2 → s1 +:+ String c t1 = s2 +:+ String c t2 →
  s1 = s2 ∧ t1 = t2.
Proof.
  revert s2. induction s1 as [|a s1 IH]; intros [|b s2] H1 H2 E.
  - by injection E.
  - injection E as -> E. exfalso. apply H2, char_in_cons. by left.
  - injection E as -> E. exfalso. apply H1, char_in_cons. by left.
  - injection E as -> E. rewrite char_in_cons in H1, H2.
    destruct (IH s2) as [-> ->]; naive_solver.
Qed.

Lemma u64_add_l a b : u64 (u64 a + b) = u64 (a + b).
Proof. unfold u64. by rewrite N.Div0.add_mod_idemp_l. Qed.

Lemma str_take_app s1 s2 : str_take (String.length s1) (s1 +:+ s2) = s1.
Proof.
  induction s1 as [|a s1 IH]; [by destruct s2 |].
  change (String a s1 +:+ s2) with (String a (s1 +:+ s2)). simpl. by rewrite IH.
Qed.

Lemma str_drop_app s1 s2 : str_drop (String.length s1) (s1 +:+ s2) = s2.
Proof.
  induction s1 as [|a s1 IH]; [done |].
  change (String a s1 +:+ s2) with (String a (s1 +:+ s2)). simpl. done.
Qed.

Lemma has_prefix_app p s : has_prefix (p +:+ s) p = true.
Proof.
  unfold has_prefix. induction p as [|a p IH].
  - change (EmptyString +:+ s) with s. by destruct s.
  - change (String a p +:+ s) with (String a (p +:+ s)). simpl.
    destruct (ascii_dec a a); [done | congruence].
Qed.

Lemma has_prefix_inv s p : has_prefix s p = true → ∃ t, s = p +:+ t.
Proof.
  unfold has_prefix. revert s. induction p as [|a p IH]; intros s; [by exists s |].
  destruct s as [|b s]; simpl; [done |].
  destruct (ascii_dec a b) as [->|]; [| done].
  intros [t ->]%IH. by exists t.
Qed.

Lemma has_prefix_cons a s b p :
  has_prefix (String a s) (String b p) = bool_decide (b = a) && has_prefix s p.
Proof.
  unfold has_prefix. cbn [String.prefix].
  destruct (ascii_dec b a); [by rewrite bool_decide_true | by rewrite bool_decide_false].
Qed.

Lemma has_prefix_nil s : has_prefix s EmptyString = true.
Proof. by destruct s. Qed.

Lemma trim_prefix_app p s : trim_prefix (p +:+ s) p = s.
Proof. unfold trim_prefix. by rewrite has_prefix_app, str_drop_app. Qed.

Lemma str_split_nonempty c s : str_split c s ≠ [].
Proof. destruct s; simpl; [done |]. case_decide; [done |]. by destruct (str_split c s). Qed.

Lemma str_split_no_sep c s x : x ∈ str_split c s → ¬ char_in c x.
Proof.
  revert x. induction s as [|a s IH]; intros x; simpl.
  - rewrite list_elem_of_singleton. intros ->. apply char_in_nil.
  - case_decide as Ha.
    + rewrite elem_of_cons. intros [->|Hx]; [apply char_in_nil | by apply IH].
    + destruct (str_split c s) as [|h t] eqn:Es; [by apply str_split_nonempty in Es |].
      rewrite elem_of_cons. intros [->|Hx].
      * rewrite char_in_cons. intros [->|Hc]; [done |]. by apply (IH h); [left |].
      * apply IH. by right.
Qed.

Lemma str_join_cons sep x l :
  l ≠ [] → str_join sep (x :: l) = x +:+ sep +:+ str_join sep l.
Proof. by destruct l. Qed.

Lemma str_join_split c s : str_join (char_str c) (str_split c s) = s.
Proof.
  induction s as [|a s IH]; simpl; [done |].
  pose proof (str_split_nonempty c s) as Hne.
  case_decide as Ha.
  - subst a. rewrite str_join_cons by done. rewrite IH. done.
  - destruct (str_split c s) as [|h t] eqn:Es; [done |].
    destruct t as [|h2 t]; simpl in *; by rewrite <- IH.
Qed.

Lemma str_split_no_char c s : ¬ char_in c s → str_split c s = [s].
Proof.
  induction s as [|a s IH]; simpl; [done |]. rewrite char_in_cons. intros Hc.
  rewrite decide_False by naive_solver. rewrite IH by naive_solver. done.
Qed.

Lemma str_split_app c s1 s2 :
  ¬ char_in c s1 → str_split c (s1 +:+ String c s2) = s1 :: str_split c s2.
Proof.
  induction s1 as [|a s1 IH]; intros Hc.
  - change (EmptyString +:+ String c s2) with (String c s2). simpl. by rewrite decide_True.
  - change (String a s1 +:+ String c s2) with (String a (s1 +:+ String c s2)).
    rewrite char_in_cons in Hc. simpl. rewrite decide_False by naive_solver.
    rewrite IH by naive_solver. done.
Qed.

Lemma str_split_join c (l : list string) :
  l ≠ [] → Forall (λ x, ¬ char_in c x) l → str_split c (str_join (char_str c) l) = l.
Proof.
  intros Hne Hl. induction l as [|x l IH]; [done |].
  apply Forall_cons in Hl as [Hx Hl]. destruct l as [|y l].
  - simpl. by apply str_split_no_char.
  - rewrite str_join_cons by done.
    change (char_str c +:+ str_join (char_str c) (y :: l))
      with (String c (str_join (char_str c) (y :: l))).
    rewrite str_split_app by done. by rewrite IH.
Qed.

(** ** Lemmas on hexadecimal *)

(** The value of a lower-case hexadecimal digit, the inverse of [hex_digit]. *)
Definition hex_value (a : ascii) : N :=
  let n := N_of_ascii a in (if n <? 58 then n - 48 else n - 87)%N.

Fixpoint hex_decode (s : string) : list N :=
  match s with
  | String a (String b s') => (hex_value a * 16 + hex_value b)%N :: hex_decode s'
  | _ => []
  end.

Lemma hex_decode_encode b : hex_decode (hex_encode b) = Byte.to_N <$> b.
Proof.
  induction b as [|x b IH]; [done |].
  change (hex_decode (hex_encode (x :: b)))
    with ((hex_value (hex_digit (Byte.to_N x / 16)) * 16
           + hex_value (hex_digit (Byte.to_N x mod 16)))%N :: hex_decode (hex_encode b)).
  rewrite IH, fmap_cons. f_equal. by destruct x.
Qed.

#[export] Instance hex_encode_inj : Inj (=) (=) hex_encode.
Proof.
  intros b1 b2 H. apply (f_equal hex_decode) in H. rewrite !hex_decode_encode in H.
  revert H. apply list_fmap_eq_inj. intros x y Hxy.
  apply (f_equal Byte.of_N) in Hxy. rewrite !Byte.of_to_N in Hxy. by simplify_eq.
Qed.

Lemma hex_encode_length b : String.length (hex_encode b) = 2 * length b.
Proof. induction b as [|x b IH]; simpl; [done |]. rewrite IH. lia. Qed.

Lemma sort_strings_unique l1 l2 : l1 ≡ₚ l2 → sort_strings l1 = sort_strings l2.
Proof.
  intros Hp. apply (StronglySorted_unique String.le); [apply sort_strings_sorted .. |].
  by rewrite !sort_strings_perm.
Qed.

#[export] Instance str_bytes_inj : Inj (=) (=) str_bytes.
Proof.
  intros s1 s2 H. unfold str_bytes in H.
  rewrite <- (String.string_of_list_byte_of_string s1), H.
  apply String.string_of_list_byte_of_string.
Qed.

Lemma str_bytes_length s : length (str_bytes s) = String.length s.
Proof.
  unfold str_bytes, String.list_byte_of_string. rewrite List.length_map.
  induction s as [|a s IH]; [done |]. simpl. by rewrite IH.
Qed.

Lemma str_bytes_app s1 s2 : str_bytes (s1 +:+ s2) = str_bytes s1 ++ str_bytes s2.
Proof.
  unfold str_bytes, String.list_byte_of_string. rewrite <- List.map_app. f_equal.
  induction s1 as [|a s1 IH]; [done |]. simpl. by f_equal.
Qed.

(** ** Maps built by a loop over a slice *)

Lemma index_lookup {A} (key : A → string) (l : list A) (m : gmap string A) k :
  foldl (λ (m : gmap string A) x, <[key x := x]> m) m l !! k
  = match last (filter (λ x, key x = k) l) with Some x => Some x | None => m !! k end.
Proof.
  revert m. induction l as [|x l IH] using rev_ind; intros m; [done |].
  rewrite foldl_app, filter_app, filter_cons, filter_nil. simpl.
  destruct (decide (key x = k)) as [<-|Hne].
  - by rewrite lookup_insert_eq, last_snoc.
  - by rewrite lookup_insert_ne, app_nil_r, IH.
Qed.

Lemma index_unique {A} (key : A → string) (l : list A) k x :
  NoDup (key <$> l) → foldl (λ (m : gmap string A) x, <[key x := x]> m) ∅ l !! k = Some x ↔ x ∈ l ∧ key x = k.
Proof.
  intros Hnd. rewrite index_lookup, lookup_empty. split.
  - destruct (last _) as [y|] eqn:Hl; [| done]. intros [= ->].
    apply last_Some in Hl as [l' Hl]. assert (x ∈ filter (λ x, key x = k) l) as Hx.
    { rewrite Hl. apply elem_of_app. right. by left. }
    apply list_elem_of_filter in Hx. tauto.
  - intros [Hx <-]. destruct (last _) as [y|] eqn:Hl.
    + f_equal. apply last_Some in Hl as [l' Hl].
      assert (y ∈ filter (λ y, key y = key x) l) as Hy by (rewrite Hl; apply elem_of_app; right; by left).
      apply list_elem_of_filter in Hy as [Hk Hy]. by apply (NoDup_key_inj key l Hnd).
    + apply last_None in Hl. assert (x ∈ filter (λ y, key y = key x) l) as Hy by by apply list_elem_of_filter.
      rewrite Hl in Hy. by apply elem_of_nil in Hy.
Qed.

Lemma rev_app_chars s1 s2 c : char_in c (String.rev_app s1 s2) ↔ char_in c s1 ∨ char_in c s2.
Proof.
  revert s2. induction s1 as [|a s1 IH]; intros s2; simpl.
  - split; [by right |]. intros [H|H]; [by apply char_in_nil in H | done].
  - rewrite IH, !char_in_cons. tauto.
Qed.

Lemma rev_chars s c : char_in c (String.rev s) ↔ char_in c s.
Proof.
  unfold String.rev. rewrite rev_app_chars. split; [| by left].
  intros [H|H]; [done | by apply char_in_nil in H].
Qed.
