(* ===== verification/GoPath.v ===== *)
(** * GoPath: lexical paths

    [filepath.Rel], and what the path functions of [GoStd] do on clean paths: a clean path is
    written [abs_path l] or [rel_path l] from its list [l] of segments, and joining, splitting
    and cleaning act on the list. *)
From S2P Require Import Prelude GoStd.

(** The components [filepath.Rel] compares. *)
Definition rel_comps (p : string) : list string :=
  if decide (p = ".") then []
  else if decide (p = "/") then [EmptyString] else str_split go_slash p.

(** Drops the common prefix of two lists of components. *)
Fixpoint drop_common (base targ : list string) : list string * list string :=
  match base, targ with
  | b :: base', t :: targ' => if decide (b = t) then drop_common base' targ' else (base, targ)
  | _, _ => (base, targ)
  end.

Definition is_rooted (p : string) : bool := has_prefix p "/".

(** [filepath.Rel] *)
Definition path_rel (basepath targpath : string) : result string :=
  let base := path_clean basepath in
  let targ := path_clean targpath in
  if decide (targ = base) then Ok "."
  else if decide (is_rooted base ≠ is_rooted targ)
  then Err (EText ["Rel: can't make relative to"; targpath; basepath])
  else
    let '(rb, rt) := drop_common (rel_comps base) (if decide (targ = "/") then [EmptyString] else str_split go_slash targ) in
    if decide (head rb = Some "..")
    then Err (EText ["Rel: can't make relative to"; targpath; basepath])
    else Ok (str_join "/" (((λ _, "..") <$> rb) ++ rt)).

(** ** Clean paths *)

(** A path segment: not empty, not a dot element, without slashes. *)
Definition seg (s : string) : Prop :=
  s ≠ EmptyString ∧ s ≠ "." ∧ s ≠ ".." ∧ ¬ char_in go_slash s.

#[export] Instance seg_dec s : Decision (seg s).
Proof. unfold seg. apply _. Defined.

Definition rel_path (l : list string) : string := str_join "/" l.
Definition abs_path (l : list string) : string := "/" +:+ rel_path l.

(** The components of a path that cleaning does not drop. *)
Definition segs (p : string) : list string := filter (λ s, s ≠ EmptyString ∧ s ≠ ".") (str_split go_slash p).

Lemma str_split_cat c s1 s2 : str_split c (s1 +:+ String c s2) = str_split c s1 ++ str_split c s2.
Proof.
  induction s1 as [|a s1 IH].
  - change (EmptyString +:+ String c s2) with (String c s2). simpl. by rewrite decide_True.
  - change (String a s1 +:+ String c s2) with (String a (s1 +:+ String c s2)). simpl.
    case_decide; rewrite IH; [done |].
    pose proof (str_split_nonempty c s1). by destruct (str_split c s1).
Qed.

Lemma segs_cat s1 s2 : segs (s1 +:+ "/" +:+ s2) = segs s1 ++ segs s2.
Proof. unfold segs. change ("/" +:+ s2) with (String go_slash s2). by rewrite str_split_cat, filter_app. Qed.

Lemma filter_segs l : Forall seg l → filter (λ s, s ≠ EmptyString ∧ s ≠ ".") l = l.
Proof. intros Hl. apply filter_all. eapply Forall_impl; [done |]. intros s (He & Hd & _). done. Qed.

Lemma segs_rel l : Forall seg l → segs (rel_path l) = l.
Proof.
  intros Hl. destruct l as [|x l]; [done |]. unfold segs, rel_path.
  rewrite (str_split_join go_slash); [by apply filter_segs | done |].
  eapply Forall_impl; [done |]. intros s Hs. apply Hs.
Qed.

Lemma rel_path_inj l1 l2 : Forall seg l1 → Forall seg l2 → rel_path l1 = rel_path l2 → l1 = l2.
Proof. intros H1 H2 E. apply (f_equal segs) in E. by rewrite !segs_rel in E. Qed.

Lemma segs_abs l : Forall seg l → segs (abs_path l) = l.
Proof. intros Hl. change (abs_path l) with (EmptyString +:+ "/" +:+ rel_path l). by rewrite segs_cat, segs_rel. Qed.

Lemma clean_steps r st l :
  Forall seg (filter (λ s, s ≠ EmptyString ∧ s ≠ ".") l) →
  foldl (clean_step r) st l = reverse (filter (λ s, s ≠ EmptyString ∧ s ≠ ".") l) ++ st.
Proof.
  revert st. induction l as [|x l IH]; intros st Hl; [done |]. rewrite filter_cons in Hl |- *. simpl.
  unfold clean_step at 2. case_decide as Hx.
  - apply Forall_cons in Hl as [(He & Hd & Hdd & _) Hl]. rewrite !decide_False by naive_solver.
    rewrite IH, reverse_cons, <- app_assoc by done. done.
  - rewrite decide_True; [by apply IH |]. destruct (decide (x = EmptyString)); [by left |].
    right. apply dec_stable. naive_solver.
Qed.

Lemma rel_path_ne x l : seg x → rel_path (x :: l) ≠ EmptyString.
Proof.
  intros (He & _). unfold rel_path. destruct l; [done |]. rewrite str_join_cons by done. by destruct x.
Qed.

(** Cleaning only looks at these components. *)
Lemma path_clean_segs p l :
  p ≠ EmptyString → segs p = l → Forall seg l →
  path_clean p = if is_rooted p then abs_path l else if decide (l = []) then "." else rel_path l.
Proof.
  intros Hp Hs Hl. unfold path_clean. rewrite decide_False by done.
  rewrite clean_steps by (unfold segs in Hs; by rewrite Hs).
  fold (segs p). rewrite Hs, app_nil_r, reverse_involutive. fold (is_rooted p) (rel_path l).
  destruct (is_rooted p); [done |]. destruct l as [|x l]; [done |].
  apply Forall_cons in Hl as [Hx _]. by rewrite decide_False by (by apply rel_path_ne).
Qed.

Lemma is_rooted_abs l s : is_rooted (abs_path l +:+ s) = true.
Proof. apply (has_prefix_app "/" (rel_path l +:+ s)). Qed.

Lemma is_rooted_abs_path l : is_rooted (abs_path l) = true.
Proof. apply (has_prefix_app "/" (rel_path l)). Qed.

Lemma is_rooted_seg x s : seg x → is_rooted (x +:+ s) = false.
Proof.
  intros (He & _ & _ & Hs). destruct x as [|a x]; [done |].
  destruct (is_rooted _) eqn:E; [| done]. apply has_prefix_inv in E as [t E].
  injection E as -> _. exfalso. apply Hs, char_in_cons. by left.
Qed.

Lemma is_rooted_rel x l s : seg x → is_rooted (rel_path (x :: l) +:+ s) = false.
Proof.
  intros Hx. unfold rel_path. destruct l; [by apply is_rooted_seg |].
  rewrite str_join_cons by done. rewrite str_app_assoc. by apply is_rooted_seg.
Qed.

Lemma abs_path_ne l : abs_path l ≠ EmptyString.
Proof. done. Qed.

Lemma clean_abs l : Forall seg l → path_clean (abs_path l) = abs_path l.
Proof. intros Hl. by rewrite (path_clean_segs _ l), is_rooted_abs_path by (done || by apply segs_abs). Qed.

Lemma clean_rel l : l ≠ [] → Forall seg l → path_clean (rel_path l) = rel_path l.
Proof.
  intros Hn Hl. destruct l as [|x l]; [done |].
  pose proof (Forall_cons_1 _ _ _ Hl) as [Hx _].
  rewrite (path_clean_segs _ (x :: l)); [| by apply rel_path_ne | by apply segs_rel | done].
  pose proof (is_rooted_rel x l EmptyString Hx) as Hr. rewrite str_app_nil_r in Hr. by rewrite Hr.
Qed.

(** Joining to an absolute path appends segments. *)
Lemma join_abs d x l :
  Forall seg d → x ≠ EmptyString → segs x = l → Forall seg l →
  path_join [abs_path d; x] = abs_path (d ++ l).
Proof.
  intros Hd Hx Hs Hl. cbn [path_join]. rewrite decide_False by done.
  change (str_join "/" [abs_path d; x]) with (abs_path d +:+ "/" +:+ x).
  rewrite (path_clean_segs _ (d ++ l)).
  - by rewrite is_rooted_abs.
  - done.
  - by rewrite segs_cat, segs_abs, Hs.
  - by apply Forall_app.
Qed.

Lemma join_abs_rel d l :
  Forall seg d → l ≠ [] → Forall seg l → path_join [abs_path d; rel_path l] = abs_path (d ++ l).
Proof.
  intros Hd Hn Hl. apply join_abs; [done | | by apply segs_rel | done].
  destruct l; [done |]. apply Forall_cons in Hl as [? ?]. by apply rel_path_ne.
Qed.

(** ** Splitting off the last segment *)

Lemma path_split_no_slash n : ¬ char_in go_slash n → path_split n = (EmptyString, n).
Proof.
  induction n as [|a n IH]; simpl; [done |]. rewrite char_in_cons. intros Hn.
  rewrite IH by naive_solver. rewrite decide_True by done. by rewrite decide_False by naive_solver.
Qed.

Lemma path_split_app s n : ¬ char_in go_slash n → path_split (s +:+ "/" +:+ n) = (s +:+ "/", n).
Proof.
  intros Hn. induction s as [|a s IH].
  - simpl. rewrite path_split_no_slash by done. done.
  - change (String a s +:+ "/" +:+ n) with (String a (s +:+ "/" +:+ n)). cbn [path_split].
    rewrite IH. rewrite decide_False; [done |]. by destruct s.
Qed.

Lemma rel_path_app l n : l ≠ [] → rel_path (l ++ [n]) = rel_path l +:+ "/" +:+ n.
Proof.
  intros Hl. unfold rel_path. induction l as [|x l IH]; [done |].
  destruct l as [|y l]; [done |]. rewrite <- app_comm_cons, !str_join_cons by (by destruct l).
  rewrite IH by done. by rewrite !str_app_assoc.
Qed.

Lemma path_split_rel l n :
  seg n → path_split (rel_path (l ++ [n])) = (if decide (l = []) then EmptyString else rel_path l +:+ "/", n).
Proof.
  intros (_ & _ & _ & Hn). case_decide as Hl; [subst; by apply path_split_no_slash |].
  rewrite rel_path_app by done. by apply path_split_app.
Qed.

Lemma path_dir_rel l n :
  Forall seg l → seg n → path_dir (rel_path (l ++ [n])) = if decide (l = []) then "." else rel_path l.
Proof.
  intros Hl Hn. unfold path_dir. rewrite path_split_rel by done. case_decide as Hl0; [done |]. cbn [fst].
  destruct l as [|x l]; [done |]. pose proof (Forall_cons_1 _ _ _ Hl) as [Hx _].
  rewrite (path_clean_segs _ (x :: l)).
  - by rewrite is_rooted_rel.
  - pose proof (rel_path_ne x l Hx). by destruct (rel_path (x :: l)).
  - change "/" with ("/" +:+ EmptyString). rewrite segs_cat, segs_rel by done. apply app_nil_r.
  - done.
Qed.

Lemma abs_path_app l n : abs_path (l ++ [n]) = (if decide (l = []) then EmptyString else abs_path l) +:+ "/" +:+ n.
Proof.
  case_decide as Hl; [by subst |]. unfold abs_path. rewrite rel_path_app by done.
  by rewrite !str_app_assoc.
Qed.

Lemma strip_no_trailing s n : n ≠ EmptyString → ¬ char_in go_slash n →
  strip_trailing_slashes (s +:+ n) = s +:+ n.
Proof.
  intros Hn Hc. assert (strip_trailing_slashes n = n) as E.
  { clear s. induction n as [|a n IH]; [done |]. rewrite char_in_cons in Hc. simpl.
    destruct n as [|b n]; [| rewrite IH by naive_solver; by rewrite decide_False by naive_solver].
    simpl. by rewrite decide_False by naive_solver. }
  induction s as [|a s IH]; [done |].
  change (String a s +:+ n) with (String a (s +:+ n)). simpl. rewrite IH.
  rewrite decide_False; [done |]. intros [H0 _]. by destruct s, n.
Qed.

Lemma path_base_abs l n : seg n → path_base (abs_path (l ++ [n])) = n.
Proof.
  intros Hn. pose proof Hn as (He & _ & _ & Hc). rewrite abs_path_app. unfold path_base.
  set (s := if decide (l = []) then EmptyString else abs_path l).
  rewrite decide_False by (by destruct s). rewrite <- str_app_assoc, strip_no_trailing by done.
  rewrite str_app_assoc, path_split_app by done. cbn [snd]. by rewrite decide_False.
Qed.

(** ** Relative paths *)

Lemma abs_path_inj l1 l2 : Forall seg l1 → Forall seg l2 → abs_path l1 = abs_path l2 → l1 = l2.
Proof. intros H1 H2 E. apply (f_equal segs) in E. by rewrite !segs_abs in E. Qed.

Lemma abs_path_root l : Forall seg l → abs_path l = "/" ↔ l = [].
Proof. intros Hl. split; [intros E; by apply (abs_path_inj l []) | by intros ->]. Qed.

Lemma rel_comps_abs l : Forall seg l → rel_comps (abs_path l) = EmptyString :: l.
Proof.
  intros Hl. unfold rel_comps. rewrite decide_False by done. case_decide as Hr.
  - apply abs_path_root in Hr as ->; done.
  - change (abs_path l) with (EmptyString +:+ String go_slash (rel_path l)).
    rewrite str_split_app by apply char_in_nil. unfold rel_path.
    rewrite (str_split_join go_slash); [done | by intros -> |].
    eapply Forall_impl; [done |]. intros s Hs. apply Hs.
Qed.

Lemma drop_common_spec b t :
  ∃ p, b = p ++ (drop_common b t).1 ∧ t = p ++ (drop_common b t).2.
Proof.
  revert t. induction b as [|x b IH]; intros [|y t]; simpl; try (by exists []).
  case_decide as E; [| by exists []]. subst y. destruct (IH t) as (p & E1 & E2).
  exists (x :: p). simpl. by rewrite <- E1, <- E2.
Qed.

Lemma drop_common_app d l : drop_common d (d ++ l) = ([], l).
Proof. induction d as [|x d IH]; simpl; [by destruct l | by rewrite decide_True by done]. Qed.

Lemma path_rel_abs d l :
  Forall seg d → Forall seg l →
  path_rel (abs_path d) (abs_path l) =
    if decide (l = d) then Ok "."
    else Ok (str_join "/" (((λ _, "..") <$> (drop_common d l).1) ++ (drop_common d l).2)).
Proof.
  intros Hd Hl. unfold path_rel. rewrite !clean_abs by done.
  destruct (decide (l = d)) as [->|Hne]; [by rewrite decide_True by done |].
  rewrite decide_False by (intros E; by apply abs_path_inj in E).
  rewrite !is_rooted_abs_path, decide_False by naive_solver.
  assert ((if decide (abs_path l = "/") then [EmptyString] else str_split go_slash (abs_path l))
    = EmptyString :: l) as ->.
  { pose proof (rel_comps_abs l Hl) as E. unfold rel_comps in E. by rewrite decide_False in E by done. }
  rewrite rel_comps_abs by done. cbn [drop_common]. rewrite decide_True by done.
  destruct (drop_common_spec d l) as (p & E1 & E2). destruct (drop_common d l) as [rb rt]. simpl in *.
  rewrite decide_False; [done |]. destruct rb as [|b rb]; [done |]. intros [= ->].
  rewrite E1, Forall_app, Forall_cons in Hd. destruct Hd as (_ & (_ & _ & ? & _) & _). done.
Qed.

(** Every absolute path cleans to a list of segments. *)
Lemma clean_steps_segs l st :
  Forall seg st → Forall (λ x, ¬ char_in go_slash x) l → Forall seg (foldl (clean_step true) st l).
Proof.
  revert st. induction l as [|x l IH]; intros st Hst Hl; [done |]. apply Forall_cons in Hl as [Hx Hl].
  simpl. apply IH; [| done]. unfold clean_step. case_decide as H1; [done |]. case_decide as H2.
  - destruct st as [|top rest]; [done |]. apply Forall_cons in Hst as [(_ & _ & Ht & _) Hr].
    by rewrite decide_False by done.
  - constructor; [| done]. unfold seg. naive_solver.
Qed.

Lemma clean_rooted p : is_rooted p = true → ∃ l, Forall seg l ∧ path_clean p = abs_path l.
Proof.
  intros Hr. unfold path_clean. rewrite decide_False by (by intros ->). fold (is_rooted p). rewrite Hr.
  eexists. split; [| done]. apply Forall_reverse, clean_steps_segs; [done |].
  apply Forall_forall. intros x. apply str_split_no_sep.
Qed.

Lemma path_rel_below d l :
  Forall seg d → Forall seg l →
  path_rel (abs_path d) (abs_path (d ++ l)) = Ok (if decide (l = []) then "." else rel_path l).
Proof.
  intros Hd Hl. rewrite path_rel_abs by (done || by apply Forall_app). rewrite drop_common_app. simpl.
  destruct l as [|x l]; [by rewrite app_nil_r, !decide_True by done |].
  rewrite !decide_False; [done | done |]. intros E. apply (f_equal length) in E.
  rewrite length_app in E. simpl in E. lia.
Qed.

Lemma has_prefix_seg s n t : has_prefix n s = true → has_prefix (n +:+ t) s = true.
Proof. intros [u ->]%has_prefix_inv. rewrite str_app_assoc. apply has_prefix_app. Qed.

(** ** Joining to a relative directory *)

Lemma join_dir a l m :
  a ≠ EmptyString → segs a = l → is_rooted a = false → Forall seg l → seg m →
  path_join [a; m] = rel_path (l ++ [m]).
Proof.
  intros Ha Hs Hr Hl Hm. cbn [path_join]. rewrite decide_False by done.
  change (str_join "/" [a; m]) with (a +:+ "/" +:+ m).
  assert (segs m = [m]) as Hsm by (apply (segs_rel [m]); by constructor).
  rewrite (path_clean_segs _ (l ++ [m])).
  - assert (is_rooted (a +:+ "/" +:+ m) = false) as ->.
    { destruct a as [|c a]; [done |]. destruct (is_rooted (String c a +:+ _)) eqn:E; [| done].
      apply has_prefix_inv in E as [t E]. injection E as -> _.
      change (String "/" a) with ("/" +:+ a) in Hr. unfold is_rooted in Hr. by rewrite has_prefix_app in Hr. }
    rewrite decide_False; [done |]. by destruct l.
  - by destruct a.
  - by rewrite segs_cat, Hs, Hsm.
  - apply Forall_app. split; [done |]. by constructor.
Qed.

Lemma join_single m : seg m → path_join [m] = m.
Proof.
  intros Hm. cbn [path_join str_join]. rewrite decide_False by apply Hm.
  apply (clean_rel [m]); [done |]. by constructor.
Qed.

Lemma join_empty_seg m : seg m → path_join [EmptyString; m] = rel_path [m].
Proof. intros Hm. change (path_join [m] = m). by apply join_single. Qed.

(** The directory part that [filepath.Split] or [filepath.Dir] gives. *)
Lemma join_split_dir l m :
  Forall seg l → seg m →
  path_join [if decide (l = []) then EmptyString else rel_path l +:+ "/"; m] = rel_path (l ++ [m]).
Proof.
  intros Hl Hm. case_decide as Hn; [subst; by apply join_empty_seg |].
  destruct l as [|x l]; [done |]. pose proof (Forall_cons_1 _ _ _ Hl) as [Hx _].
  apply join_dir; [| | by apply is_rooted_rel | done | done].
  - pose proof (rel_path_ne x l Hx). by destruct (rel_path (x :: l)).
  - change "/" with ("/" +:+ EmptyString). rewrite segs_cat, segs_rel by done. apply app_nil_r.
Qed.

Lemma join_clean_dir l m :
  Forall seg l → seg m →
  path_join [if decide (l = []) then "." else rel_path l; m] = rel_path (l ++ [m]).
Proof.
  intros Hl Hm. case_decide as Hn; [subst; apply join_dir; [done | vm_compute; reflexivity | vm_compute; reflexivity | done | done] |].
  destruct l as [|x l]; [done |]. pose proof (Forall_cons_1 _ _ _ Hl) as [Hx _].
  pose proof (is_rooted_rel x l EmptyString Hx) as Hr. rewrite str_app_nil_r in Hr.
  apply join_dir; [by apply rel_path_ne | by apply segs_rel | done | done | done].
Qed.

(** [filepath.Join] of an absolute directory, a relative one and a name. *)
Lemma join_abs3 d a l m :
  Forall seg d → (a = EmptyString → l = []) → segs a = l → Forall seg l → seg m →
  path_join [abs_path d; a; m] = abs_path (d ++ l ++ [m]).
Proof.
  intros Hd Ha Hs Hl Hm. cbn [path_join]. rewrite decide_False by done.
  change (str_join "/" [abs_path d; a; m]) with (abs_path d +:+ "/" +:+ a +:+ "/" +:+ m).
  assert (segs m = [m]) as Hsm by (apply (segs_rel [m]); by constructor).
  rewrite (path_clean_segs _ (d ++ l ++ [m])).
  - by rewrite is_rooted_abs.
  - done.
  - by rewrite !segs_cat, segs_abs, Hs, Hsm.
  - rewrite !Forall_app. split_and!; [done | done |]. by constructor.
Qed.

Lemma seg_prefix p n : seg n → ¬ char_in go_slash p → String.length p ≥ 3 → seg (p +:+ n).
Proof.
  intros (He & Hd & Hdd & Hs) Hp Hlen. split_and!.
  - intros E. apply (f_equal String.length) in E. rewrite str_length_app in E. simpl in E. lia.
  - intros E. apply (f_equal String.length) in E. rewrite str_length_app in E. simpl in E. lia.
  - intros E. apply (f_equal String.length) in E. rewrite str_length_app in E. simpl in E. lia.
  - rewrite char_in_app. tauto.
Qed.

Lemma prefix_of_dots s t : has_prefix (str_join "/" (s :: t)) ".." = has_prefix s ".." ∨ String.length s < 2.
Proof.
  destruct (decide (String.length s < 2)) as [|Hs]; [by right | left].
  destruct s as [|a [|b s]]; [simpl in Hs; lia .. |].
  assert (∀ u, has_prefix (String a (String b u)) ".." = has_prefix (String a (String b EmptyString)) "..") as E
    by (intros u; by rewrite !has_prefix_cons, !has_prefix_nil).
  destruct t as [|x t]; [done |]. rewrite str_join_cons by done.
  rewrite (E s). apply (E (s +:+ "/" +:+ str_join "/" (x :: t))).
Qed.

Lemma rel_dots x l : seg x → has_prefix (rel_path (x :: l)) ".." = has_prefix x "..".
Proof.
  intros (He & Hd & Hdd & Hs). destruct (prefix_of_dots x l) as [E|E]; [done |].
  destruct x as [|a [|b x]]; [done | | simpl in E; lia].
  assert (∀ u, has_prefix (String a u) ".." = false) as Hf.
  { intros u. rewrite has_prefix_cons, bool_decide_false; [done |]. by intros <-. }
  unfold rel_path.
  rewrite Hf. destruct l; [apply Hf |]. rewrite str_join_cons by done. apply Hf.
Qed.
