(* ===== verification/Sha256.v ===== *)
(** * Sha256: the function [crypto/sha256] computes (FIPS 180-4)

    The engines hash with Go's standard library.  The theorems about trees and caches hold
    for any hash function, through the class [HashFn]; this file gives the instance the
    code runs with, so that witnesses compute real digests. *)
From S2P Require Import Prelude GoStd.

(** What the clients may assume of a hash function: a fixed, non-zero digest length. *)
Class HashFn := {
  hash_fn : list byte → list byte;
  hash_len : nat;
  hash_fn_length b : length (hash_fn b) = hash_len;
  hash_len_pos : 0 < hash_len;
}.

(** A pair of different inputs under one digest, one among the inputs [P] and one among the
    inputs [Q]: what a theorem about digests exhibits when its other conclusion fails.  Any
    function with digests of a fixed length has collisions somewhere; the inputs are those that
    the two computations hash. *)
Definition collision_between (h : list byte → list byte) (P Q : list byte → Prop) : Prop :=
  ∃ x y, P x ∧ Q y ∧ x ≠ y ∧ h x = h y.

Local Open Scope N_scope.

Definition sha_rotr (x n : N) : N := N.lor (N.shiftr x n) (u32 (N.shiftl x (32 - n))).

(** The constants are the first fractional bits of cube and square roots of the first primes
    (FIPS 180-4, 4.2.2 and 5.3.3), and are computed as such. *)
Definition is_prime (n : N) : bool :=
  forallb (λ d, negb (n mod N.of_nat d =? 0)) (seq 2 (N.to_nat (N.sqrt n) - 1)).

Definition primes_upto (n : nat) : list N :=
  List.filter is_prime (N.of_nat <$> seq 2 (n - 1)).

(** The integer cube root, one bit at a time. *)
Fixpoint cbrt_bits (bits : nat) (x r : N) : N :=
  match bits with
  | O => r
  | S b => let r' := r + 2 ^ N.of_nat b in cbrt_bits b x (if r' * r' * r' <=? x then r' else r)
  end.

Definition sha_K : list N :=
  Eval vm_compute in (λ p, u32 (cbrt_bits 36 (p * 2 ^ 96) 0)) <$> primes_upto 311.

Record sha_state := ShaState { sa : N; sb : N; sc : N; sd : N; se : N; sf : N; sg : N; sh : N }.

Definition sha_init : sha_state :=
  Eval vm_compute in
  match (λ p, u32 (N.sqrt (p * 2 ^ 64))) <$> primes_upto 19 with
  | [a; b; c; d; e; f; g; h] => ShaState a b c d e f g h
  | _ => ShaState 0 0 0 0 0 0 0 0
  end.

Definition sha_round (s : sha_state) (kw : N * N) : sha_state :=
  let e := se s in let a := sa s in
  let S1 := N.lxor (N.lxor (sha_rotr e 6) (sha_rotr e 11)) (sha_rotr e 25) in
  let ch := N.lxor (N.land e (sf s)) (N.land (N.lxor e 0xffffffff) (sg s)) in
  let t1 := u32 (sh s + S1 + ch + kw.1 + kw.2) in
  let S0 := N.lxor (N.lxor (sha_rotr a 2) (sha_rotr a 13)) (sha_rotr a 22) in
  let maj := N.lxor (N.lxor (N.land a (sb s)) (N.land a (sc s))) (N.land (sb s) (sc s)) in
  ShaState (u32 (t1 + S0 + maj)) a (sb s) (sc s) (u32 (sd s + t1)) e (sf s) (sg s).

(** The message schedule, last word first. *)
Fixpoint sha_extend (n : nat) (w : list N) : list N :=
  match n with
  | O => w
  | S n' =>
      let x := nth 14 w 0 in let y := nth 1 w 0 in
      let s0 := N.lxor (N.lxor (sha_rotr x 7) (sha_rotr x 18)) (N.shiftr x 3) in
      let s1 := N.lxor (N.lxor (sha_rotr y 17) (sha_rotr y 19)) (N.shiftr y 10) in
      sha_extend n' (u32 (nth 15 w 0 + s0 + nth 6 w 0 + s1) :: w)
  end.

Definition sha_block (s : sha_state) (w : list N) : sha_state :=
  let r := foldl sha_round s (zip sha_K (reverse (sha_extend 48 (reverse w)))) in
  ShaState (u32 (sa s + sa r)) (u32 (sb s + sb r)) (u32 (sc s + sc r)) (u32 (sd s + sd r))
           (u32 (se s + se r)) (u32 (sf s + sf r)) (u32 (sg s + sg r)) (u32 (sh s + sh r)).

Fixpoint sha_words (n : nat) (b : list byte) : list N * list byte :=
  match n, b with
  | S n', b0 :: b1 :: b2 :: b3 :: b' =>
      let '(ws, rest) := sha_words n' b' in
      (((Byte.to_N b0 * 256 + Byte.to_N b1) * 256 + Byte.to_N b2) * 256 + Byte.to_N b3 :: ws, rest)
  | _, _ => ([], b)
  end.

Definition byte_of_N (x : N) : byte :=
  match Byte.of_N (x mod 256) with Some b => b | None => "000"%byte end.

(** The [n] low-order bytes of [x], most significant first. *)
Fixpoint be_bytes (n : nat) (x : N) : list byte :=
  match n with
  | O => []
  | S n' => be_bytes n' (x / 256) ++ [byte_of_N x]
  end.

Definition sha_pad (b : list byte) : list byte :=
  let l := length b in
  b ++ ["128"%byte] ++ replicate ((119 - l mod 64) mod 64) "000"%byte
    ++ be_bytes 8 (N.of_nat l * 8).

Fixpoint sha_blocks (fuel : nat) (s : sha_state) (b : list byte) : sha_state :=
  match fuel, b with
  | S fuel', _ :: _ => let '(ws, rest) := sha_words 16 b in sha_blocks fuel' (sha_block s ws) rest
  | _, _ => s
  end.

(** [sha256.Sum256] *)
Definition sha256 (b : list byte) : list byte :=
  let p := sha_pad b in
  let s := sha_blocks (length p) sha_init p in
  be_bytes 4 (sa s) ++ be_bytes 4 (sb s) ++ be_bytes 4 (sc s) ++ be_bytes 4 (sd s)
  ++ be_bytes 4 (se s) ++ be_bytes 4 (sf s) ++ be_bytes 4 (sg s) ++ be_bytes 4 (sh s).

Lemma be_bytes_length n x : length (be_bytes n x) = n.
Proof.
  revert x. induction n as [|n IH]; intros x; simpl; [done |].
  rewrite length_app, IH. simpl. lia.
Qed.

Lemma sha256_length b : length (sha256 b) = 32%nat.
Proof. unfold sha256. by rewrite !length_app, !be_bytes_length. Qed.

#[export] Instance sha256_hash : HashFn := {|
  hash_fn := sha256; hash_len := 32; hash_fn_length := sha256_length;
  hash_len_pos := Nat.lt_0_succ 31 |}.

Example sha256_abc :
  hex_encode (sha256 (str_bytes "abc"))
  = "ba7816bf8f01cfea414140de5dae2223b00361a396177a9cb410ff61f20015ad".
Proof. vm_compute. reflexivity. Qed.

Example sha256_two_blocks :
  hex_encode (sha256 (str_bytes "abcdbcdecdefdefgefghfghighijhijkijkljklmklmnlmnomnopnopq"))
  = "248d6a61d20638b8e5c026930c3e6039a33ce45964ff2167f6ecedd419db06c1".
Proof. vm_compute. reflexivity. Qed.
