(* ===== verification/GoBytes.v ===== *)
(** * GoBytes: integers as bytes

    [encoding/binary.LittleEndian], and how integers lie in memory on the platforms that the code
    runs on. *)
From S2P Require Import Prelude GoStd Sha256.

(** The low [k] bytes of [x], little end first ([binary.LittleEndian.PutUint32] for [k = 4]) *)
Fixpoint le_bytes (k : nat) (x : N) : list byte :=
  match k with 0 => [] | S k' => byte_of_N x :: le_bytes k' (x / 256) end.

(** [binary.LittleEndian.Uint32] *)
Fixpoint le_value (b : list byte) : N :=
  match b with [] => 0 | x :: b' => Byte.to_N x + 256 * le_value b' end.

Lemma byte_of_N_to (x : N) : Byte.to_N (byte_of_N x) = (x mod 256)%N.
Proof.
  unfold byte_of_N. assert (x mod 256 < 256)%N as Hx by (apply N.mod_lt; lia).
  destruct (Byte.of_N (x mod 256)) as [b|] eqn:E; simpl.
  - by apply Byte.to_of_N in E.
  - apply Byte.of_N_None_iff in E. lia.
Qed.

Lemma le_bytes_length k x : length (le_bytes k x) = k.
Proof. revert x. induction k as [|k IH]; intros x; simpl; [done | by rewrite IH]. Qed.

Lemma le_value_bytes k x : (x < 256 ^ N.of_nat k)%N → le_value (le_bytes k x) = x.
Proof.
  revert x. induction k as [|k IH]; intros x Hx; cbn [le_bytes le_value].
  { simpl in Hx. lia. }
  rewrite byte_of_N_to, IH.
  - pose proof (N.div_mod x 256). lia.
  - rewrite Nat2N.inj_succ, N.pow_succ_r' in Hx. apply N.Div0.div_lt_upper_bound. lia.
Qed.
