(* ===== verification/GoNum.v ===== *)
(** * GoNum: machine integers and decimal numbers

    The wrap-around of [int64], and what [strconv] writes and reads. *)
From S2P Require Import Prelude GoStd.

(** [buf[i] = byte('0' + n%b)] while [n > 0], backwards in a buffer with [room] bytes left;
    [None] is an index out of range. *)
Fixpoint format_loop (room : nat) (b n : N) (buf : string) : option (nat * string) :=
  if (0 <? n)%N then
    match room with
    | 0 => None
    | S room => format_loop room b (n / b) (String (ascii_of_N (48 + n mod b)) buf)
    end
  else Some (room, buf).

(** A signed 64-bit integer wraps around. *)
Definition i64 (n : Z) : Z := ((n + 2 ^ 63) mod 2 ^ 64 - 2 ^ 63)%Z.

(** [strconv.FormatInt(n, b)]; 65 digits are enough for any 64-bit integer. *)
Definition strconv_FormatInt (b : N) (n : Z) : string :=
  if decide (n = 0%Z) then "0"
  else
    let digits := match format_loop 64 b (Z.abs_N n) EmptyString with Some (_, s) => s | None => EmptyString end in
    if decide (n < 0)%Z then "-" +:+ digits else digits.

Definition strconv_Itoa : Z → string := strconv_FormatInt 10.

(** ** Reading *)

(** The digits of [strconv.ParseUint]; [None] at another byte *)
Fixpoint parse_digits (s : string) (n : N) : option N :=
  match s with
  | EmptyString => Some n
  | String a s => if ((48 <=? N_of_ascii a) && (N_of_ascii a <=? 57))%N then parse_digits s (10 * n + (N_of_ascii a - 48)) else None
  end.

(** [strconv.ParseInt(s, 10, 64)], and on 64-bit platforms [strconv.Atoi]; [None] for either error *)
Definition ParseInt (s : string) : option Z :=
  let '(neg, t) := match s with
                   | String a t => if decide (a = "-"%char) then (true, t) else if decide (a = "+"%char) then (false, t) else (false, s)
                   | EmptyString => (false, s)
                   end in
  if decide (t = EmptyString) then None
  else match parse_digits t 0 with
       | None => None
       | Some n => let z := if neg : bool then (- Z.of_N n)%Z else Z.of_N n in
                   if decide (- 2 ^ 63 ≤ z < 2 ^ 63)%Z then Some z else None
       end.

(** ** Lemmas *)

(** The value of decimal digits, after the ones that give [acc] *)
Fixpoint decimal (s : string) (acc : N) : N :=
  match s with EmptyString => acc | String a s => decimal s (10 * acc + (N_of_ascii a - 48)) end.

Fixpoint digits (s : string) : bool :=
  match s with EmptyString => true | String a s => (48 <=? N_of_ascii a)%N && (N_of_ascii a <=? 57)%N && digits s end.

Lemma format_loop_decimal room n buf k s : digits buf = true → format_loop room 10 n buf = Some (k, s) →
  digits s = true ∧ (s = buf ∨ (0 < n)%N) ∧ decimal s 0 = decimal buf n.
Proof.
  revert n buf. induction room as [|room IH]; intros n buf Hb; simpl; (destruct (N.ltb_spec 0 n) as [Hn|Hn]; [| intros [= _ <-]; assert (n = 0)%N as -> by lia; auto]); [done |].
  set (a := ascii_of_N (48 + n mod 10)). assert (n mod 10 < 10)%N as Hm by (by apply N.mod_lt).
  assert (N_of_ascii a = 48 + n mod 10)%N as Ea by (apply N_ascii_embedding; lia).
  intros Hf. destruct (IH (n / 10)%N (String a buf)) as (Hd & Hs & Hv).
  - cbn [digits]. rewrite Ea, Hb, andb_true_r. apply andb_true_iff. split; apply N.leb_le; clear -Hm; revert Hm; generalize (n mod 10)%N; lia.
  - done.
  - split_and!; [done | by right |]. rewrite Hv. cbn [decimal]. rewrite Ea. f_equal. rewrite (N.div_mod' n 10) at 3. clear. generalize (n / 10)%N (n mod 10)%N. lia.
Qed.

Lemma format_loop_fits r j n buf :
  (n < 10 ^ N.of_nat r)%N → ∃ k s, format_loop (r + j) 10 n buf = Some (k, s) ∧ j ≤ k.
Proof.
  revert n buf. induction r as [|r IH]; intros n buf Hn.
  - assert (n = 0)%N as -> by (simpl in Hn; lia). exists j, buf. split; [by destruct j | done].
  - cbn [Nat.add format_loop]. destruct (N.ltb_spec 0 n) as [Hpos|Hz]; [| by exists (S (r + j)), buf; split; [| lia]].
    apply IH. apply N.Div0.div_lt_upper_bound. rewrite Nat2N.inj_succ, N.pow_succ_r' in Hn. lia.
Qed.

Lemma i64_range n : (- 2 ^ 63 ≤ i64 n < 2 ^ 63)%Z.
Proof. unfold i64. pose proof (Z.mod_pos_bound (n + 2 ^ 63) (2 ^ 64)). lia. Qed.

Lemma parse_digits_decimal s n : digits s = true → parse_digits s n = Some (decimal s n).
Proof. revert n. induction s as [|a s IH]; intros n; [done |]. cbn [digits parse_digits decimal]. intros [-> Hs]%andb_true_iff. by apply IH. Qed.

(** What is written is read back. *)
Lemma ParseInt_Itoa n : (- 2 ^ 63 ≤ n < 2 ^ 63)%Z → ParseInt (strconv_Itoa n) = Some n.
Proof.
  intros Hn. unfold strconv_Itoa, strconv_FormatInt. case_decide as Hz; [by subst n |].
  destruct (format_loop_fits 20 44 (Z.abs_N n) EmptyString) as (k & s & E & _); [lia |]. change 64 with (20 + 44). rewrite E.
  destruct (format_loop_decimal _ _ EmptyString _ _ eq_refl E) as (Hd & Hs & Hv). simpl in Hv.
  assert (s ≠ EmptyString) as Hne by (intros ->; simpl in Hv; lia).
  unfold ParseInt. case_decide as Hneg.
  - change ("-" +:+ s) with (String "-" s). cbn [fst snd]. rewrite decide_True by done. rewrite decide_False by done.
    rewrite parse_digits_decimal by done. rewrite Hv. rewrite decide_True by lia. f_equal. lia.
  - destruct s as [|a s]; [done |]. assert (a ≠ "-"%char ∧ a ≠ "+"%char) as [H1 H2].
    { cbn [digits] in Hd. apply andb_true_iff in Hd as [Hd _]. split; intros ->; vm_compute in Hd; discriminate Hd. }
    rewrite (decide_False _ _ H1), (decide_False _ _ H2), decide_False by done. rewrite parse_digits_decimal by done. rewrite Hv.
    rewrite decide_True by lia. f_equal. lia.
Qed.
