(* ===== verification/LmDigest.v ===== *)
(** * LmDigest: [pkg/layermerkle/internal/digest]

    A digest is the string [<algorithm>:<hex>].  The package parses and prints it; the
    rest of layermerkle uses it as layer, vertex and file identity. *)
From S2P Require Import Prelude GoStd Sha256.

Definition SHA256 : string := "sha256".

(** [isHexRune] *)
Definition isHexRune (c : ascii) : bool :=
  let n := N_of_ascii c in
  ((48 <=? n) && (n <=? 57) || (97 <=? n) && (n <=? 102))%N.

(** [newDigest] *)
Definition newDigest (algorithm : string) (sum : list byte) : string :=
  algorithm +:+ ":" +:+ hex_encode sum.

Definition NewDigestFromBytes (algorithm : string) (sum : list byte) : string :=
  newDigest algorithm sum.

Section digest_of.
Context `{HashFn}.

Definition FromBytes (b : list byte) : string :=
  let h := hash_fn b in newDigest SHA256 h.

Definition FromString (s : string) : string := FromBytes (str_bytes s).
End digest_of.

Definition ErrDigest (msg : string) (d : string) : error := EText [msg; d].

(** [Digest.Validate].  A byte outside ASCII decodes to a rune that is no hexadecimal
    digit, so ranging over the runes of [hex] accepts what ranging over its bytes does. *)
Definition Digest_Validate (d : string) : result unit :=
  match index_byte d ":" with
  | None | Some O => Err (ErrDigest "invalid format (missing ':')" d)
  | Some colon =>
      let algo := str_take colon d in
      if decide (algo = EmptyString) then Err (ErrDigest "empty algorithm" d)
      else
        let hex := str_drop (S colon) d in
        if decide (String.length hex = 0) then Err (ErrDigest "empty hex" d)
        else if forallb isHexRune (String.list_ascii_of_string hex) then Ok tt
        else Err (ErrDigest "invalid hex character" d)
  end.

(** [Digest.Algorithm] *)
Definition Digest_Algorithm (d : string) : string :=
  match index_byte d ":" with
  | Some (S _ as i) => str_take i d
  | _ => EmptyString
  end.

(** [Digest.Hex] *)
Definition Digest_Hex (d : string) : string :=
  match index_byte d ":" with
  | Some i => str_drop (S i) d
  | None => d
  end.

(** ** Lemmas *)

Lemma isHexRune_hex_encode b :
  forallb isHexRune (String.list_ascii_of_string (hex_encode b)) = true.
Proof.
  induction b as [|x b IH]; [done |].
  change (isHexRune (hex_digit (Byte.to_N x / 16))
          && (isHexRune (hex_digit (Byte.to_N x mod 16))
              && forallb isHexRune (String.list_ascii_of_string (hex_encode b))) = true).
  rewrite IH. by destruct x.
Qed.

Lemma isHexRune_no_colon s :
  forallb isHexRune (String.list_ascii_of_string s) = true → ¬ char_in ":" s.
Proof.
  unfold char_in. induction s as [|a s IH]; simpl; [intros _; apply not_elem_of_nil |].
  intros [Ha Hs]%andb_true_iff. rewrite elem_of_cons. intros [<-|Hin]; [done | by apply IH].
Qed.

Lemma newDigest_index algorithm sum :
  ¬ char_in ":" algorithm →
  index_byte (newDigest algorithm sum) ":" = Some (String.length algorithm).
Proof. apply index_byte_app. Qed.

Lemma newDigest_drop algorithm sum :
  str_drop (S (String.length algorithm)) (newDigest algorithm sum) = hex_encode sum.
Proof.
  unfold newDigest. induction algorithm as [|a l IH]; [done |]. exact IH.
Qed.

#[export] Instance newDigest_inj algorithm : Inj (=) (=) (newDigest algorithm).
Proof.
  intros s1 s2 H. apply hex_encode_inj. by rewrite <- !(newDigest_drop algorithm), H.
Qed.

Lemma newDigest_length algorithm sum :
  String.length (newDigest algorithm sum) = String.length algorithm + 1 + 2 * length sum.
Proof. unfold newDigest. rewrite !str_length_app, hex_encode_length. simpl. lia. Qed.

Lemma newDigest_valid algorithm sum :
  algorithm ≠ EmptyString → ¬ char_in ":" algorithm → sum ≠ [] →
  Digest_Validate (newDigest algorithm sum) = Ok tt.
Proof.
  intros Ha Hc Hs. unfold Digest_Validate. rewrite newDigest_index by done.
  destruct (String.length algorithm) as [|n] eqn:El; [by destruct algorithm |].
  rewrite <- El. rewrite decide_False by (unfold newDigest; by rewrite str_take_app).
  rewrite newDigest_drop, hex_encode_length.
  rewrite decide_False by (destruct sum; simpl; [done | lia]).
  by rewrite isHexRune_hex_encode.
Qed.

(** What a valid digest looks like. *)
Lemma Digest_Validate_inv d :
  Digest_Validate d = Ok tt →
  ∃ algo hex, d = algo +:+ String ":" hex ∧ algo ≠ EmptyString ∧ ¬ char_in ":" algo
              ∧ hex ≠ EmptyString ∧ ¬ char_in ":" hex.
Proof.
  unfold Digest_Validate. intros H.
  assert (∀ s i, index_byte s ":" = Some i →
            ∃ h, s = str_take i s +:+ String ":" h ∧ ¬ char_in ":" (str_take i s)
                 ∧ str_drop (S i) s = h) as Hix.
  { clear. induction s as [|a s IH]; intros i; simpl; [done |]. case_decide as Ha.
    - intros [= <-]. subst a. exists s. simpl. split_and!; [done | apply char_in_nil | by destruct s].
    - destruct (index_byte s ":") as [j|] eqn:Ej; simpl; [| done]. intros [= <-].
      destruct (IH j eq_refl) as (h & Hs & Hc & Hd). exists h. simpl.
      change (String a (str_take j s) +:+ String ":" h)
        with (String a (str_take j s +:+ String ":" h)).
      rewrite <- Hs. split_and!; [done | | done]. rewrite char_in_cons. naive_solver. }
  destruct (index_byte d ":") as [[|n]|] eqn:Ei; [done | | done].
  destruct (Hix _ _ Ei) as (h & Hd & Hc & Hdrop).
  case_decide as Ha; [done |]. case_decide as Hl; [done |].
  destruct (forallb _ _) eqn:Hf; [| done].
  exists (str_take (S n) d), h. split_and!; [done | done | done | |].
  - intros ->. by rewrite Hdrop in Hl.
  - rewrite Hdrop in Hf. by apply isHexRune_no_colon.
Qed.
