(* ===== verification/LmTrie.v ===== *)
(** * LmTrie: [pkg/layermerkle/internal/trie]

    A trie over path segments.  A node keeps its children in a Go map, so [Node] nests a
    [gmap]; insertion mutates through pointers nobody else holds, so it is a function from
    the old node to the new one.  Theorems: what a lookup sees after an insertion, the
    independence of insertion order, and what [Walk] visits. *)
From S2P Require Import Prelude GoStd.

(** [Node] *)
Inductive Node := mkNode {
  nd_Segment : string;
  nd_Hash : list byte;
  nd_IsDir : bool;
  nd_children : gmap string Node;
}.

(** [NewRoot] *)
Definition NewRoot : Node := mkNode EmptyString [] true ∅.

Definition nd_set_children (n : Node) (m : gmap string Node) : Node :=
  mkNode (nd_Segment n) (nd_Hash n) (nd_IsDir n) m.

(** [Node.insert] *)
Fixpoint node_insert (segments : list string) (hash : list byte) (n : Node) : Node :=
  match segments with
  | [] => n
  | seg :: rest =>
      let child :=
        match nd_children n !! seg with
        | Some c => c
        | None => mkNode seg [] (1 <? length segments) ∅
        end in
      let child' :=
        match rest with
        | [] => mkNode (nd_Segment child) hash false (nd_children child)
        | _ => node_insert rest hash
                 (mkNode (nd_Segment child) (nd_Hash child) true (nd_children child))
        end in
      nd_set_children n (<[seg := child']> (nd_children n))
  end.

(** [splitPath] *)
Definition splitPath (p : string) : list string :=
  if decide (p = EmptyString ∨ p = ".") then [] else str_split go_slash p.

(** [Node.Insert] *)
Definition node_Insert (filePath : string) (hash : list byte) (n : Node) : Node :=
  let filePath := path_clean filePath in
  let segments := splitPath filePath in
  node_insert segments hash n.

(** [Node.Len] *)
Fixpoint node_Len (n : Node) : nat :=
  if negb (nd_IsDir n) then 1
  else map_fold (λ _ c total, total + node_Len c) 0 (nd_children n).

(** [sortedKeys] *)
Definition sortedKeys {A} (m : gmap string A) : list string :=
  sort_strings (map_to_list m).*1.

Definition sorted_values {A} (m : gmap string A) : list A :=
  omap (λ k, m !! k) (sortedKeys m).

(** [Node.SortedChildren] *)
Definition node_SortedChildren (n : Node) : list Node := sorted_values (nd_children n).

(** Calls [steps] in order, threading the callback's state, until one answers [false]. *)
Fixpoint run_until {S : Type} (steps : list (S → S * bool)) (s : S) : S * bool :=
  match steps with
  | [] => (s, true)
  | f :: rest => let '(s', go_on) := f s in if go_on then run_until rest s' else (s', false)
  end.

Definition child_path (prefix key : string) : string :=
  if decide (prefix = EmptyString) then key else prefix +:+ "/" +:+ key.

(** [Node.walk] *)
Fixpoint node_walk {S : Type} (fn : string → Node → S → S * bool)
    (prefix : string) (n : Node) : S → S * bool :=
  run_until (sorted_values (map_imap (λ key child,
    let fullPath := child_path prefix key in
    Some (λ s, let '(s', go_on) := fn fullPath child s in
               if negb go_on then (s', false)
               else if nd_IsDir child then node_walk fn fullPath child s'
               else (s', true))) (nd_children n))).

(** [Node.Walk] *)
Definition node_Walk {S : Type} (fn : string → Node → S → S * bool) (n : Node) (s : S) : S :=
  (node_walk fn EmptyString n s).1.

(** ** Specification functions *)

(** The file at a path, seen from the root. *)
Fixpoint node_file (n : Node) (p : list string) : option (list byte) :=
  match p with
  | [] => if nd_IsDir n then None else Some (nd_Hash n)
  | seg :: rest =>
      if nd_IsDir n then nd_children n !! seg ≫= λ c, node_file c rest else None
  end.

(** Every node below [n], in the order [Walk] reaches them. *)
Fixpoint node_list (prefix : string) (n : Node) : list (string * Node) :=
  concat (sorted_values (map_imap (λ key child,
    let fullPath := child_path prefix key in
    Some ((fullPath, child) :: if nd_IsDir child then node_list fullPath child else []))
    (nd_children n))).

Fixpoint node_height (n : Node) : nat :=
  S (map_fold (λ _ c h, node_height c `max` h) 0 (nd_children n)).

(** Neither path is a prefix of the other. *)
Definition apart (p q : list string) : Prop := ¬ p `prefix_of` q ∧ ¬ q `prefix_of` p.

(** ** Insertion *)

Definition node_set_dir (d : bool) (n : Node) : Node :=
  mkNode (nd_Segment n) (nd_Hash n) d (nd_children n).

Definition node_set_file (h : list byte) (n : Node) : Node :=
  mkNode (nd_Segment n) h false (nd_children n).

Definition child_or_new (seg : string) (d : bool) (n : Node) : Node :=
  default (mkNode seg [] d ∅) (nd_children n !! seg).

Lemma node_insert_one seg h n :
  node_insert [seg] h n =
  nd_set_children n (<[seg := node_set_file h (child_or_new seg false n)]> (nd_children n)).
Proof. unfold child_or_new. simpl. by destruct (nd_children n !! seg). Qed.

Lemma node_insert_more seg rest h n :
  rest ≠ [] →
  node_insert (seg :: rest) h n =
  nd_set_children n
    (<[seg := node_insert rest h (node_set_dir true (child_or_new seg true n))]> (nd_children n)).
Proof.
  intros Hr. destruct rest as [|r rest]; [done |]. unfold child_or_new.
  simpl. by destruct (nd_children n !! seg).
Qed.

Lemma node_insert_IsDir p h n : nd_IsDir (node_insert p h n) = nd_IsDir n.
Proof. by destruct p. Qed.

Lemma node_insert_Segment p h n : nd_Segment (node_insert p h n) = nd_Segment n.
Proof. by destruct p. Qed.

Lemma node_set_dir_id n : nd_IsDir n = true → node_set_dir true n = n.
Proof. destruct n; simpl. by intros ->. Qed.

Lemma nd_set_children_twice n m m' :
  nd_set_children (nd_set_children n m) m' = nd_set_children n m'.
Proof. done. Qed.

Lemma nd_children_set n m : nd_children (nd_set_children n m) = m.
Proof. done. Qed.

Lemma apart_cons s t p q : apart (s :: p) (t :: q) ↔ s ≠ t ∨ apart p q.
Proof.
  unfold apart. destruct (decide (s = t)) as [->|Hne].
  - split.
    + intros [H1 H2]. right. split; intros H; [apply H1 | apply H2]; by apply prefix_cons.
    + intros [?|[H1 H2]]; [done |]. split; intros H%prefix_cons_inv_2; auto.
  - split; [by left |]. intros _. split; intros ?%prefix_cons_inv_1; congruence.
Qed.

Lemma apart_nil_l q : ¬ apart [] q.
Proof. intros [H _]. apply H, prefix_nil. Qed.

Lemma apart_nil_r p : ¬ apart p [].
Proof. intros [_ H]. apply H, prefix_nil. Qed.

Lemma apart_sym p q : apart p q → apart q p.
Proof. unfold apart. tauto. Qed.

(** One insertion under key [seg], whatever is left of the path. *)
Lemma node_insert_cons seg rest h n :
  ∃ g : option Node → Node,
    node_insert (seg :: rest) h n
    = nd_set_children n (<[seg := g (nd_children n !! seg)]> (nd_children n))
    ∧ ∀ n', node_insert (seg :: rest) h n'
            = nd_set_children n' (<[seg := g (nd_children n' !! seg)]> (nd_children n')).
Proof.
  destruct (decide (rest = [])) as [->|Hr].
  - exists (λ o, node_set_file h (default (mkNode seg [] false ∅) o)).
    split; [| intros n']; apply node_insert_one.
  - exists (λ o, node_insert rest h (node_set_dir true (default (mkNode seg [] true ∅) o))).
    split; [| intros n']; by apply node_insert_more.
Qed.

Lemma node_insert_comm p q h1 h2 n :
  apart p q → node_insert p h1 (node_insert q h2 n) = node_insert q h2 (node_insert p h1 n).
Proof.
  revert q n. induction p as [|s p IH]; intros q n Hap; [by apply apart_nil_l in Hap |].
  destruct q as [|t q]; [by apply apart_nil_r in Hap |].
  destruct (decide (s = t)) as [->|Hne].
  - apply apart_cons in Hap as [?|Hap]; [done |].
    assert (p ≠ []) by (intros ->; by apply apart_nil_l in Hap).
    assert (q ≠ []) by (intros ->; by apply apart_nil_r in Hap).
    rewrite !node_insert_more by done. unfold child_or_new.
    rewrite !nd_children_set, !nd_set_children_twice, !lookup_insert_eq, !insert_insert_eq. simpl.
    rewrite (node_set_dir_id (node_insert p h1 _)) by (by rewrite node_insert_IsDir).
    rewrite (node_set_dir_id (node_insert q h2 _)) by (by rewrite node_insert_IsDir).
    by rewrite IH.
  - destruct (node_insert_cons s p h1 n) as (g1 & _ & E1).
    destruct (node_insert_cons t q h2 n) as (g2 & _ & E2).
    rewrite !E1, !E2, !nd_children_set, !nd_set_children_twice.
    rewrite !lookup_insert_ne by done. f_equal. by apply insert_insert_ne.
Qed.

Lemma node_insert_same p h1 h2 n : node_insert p h1 (node_insert p h2 n) = node_insert p h1 n.
Proof.
  revert n. induction p as [|s p IH]; intros n; [done |].
  destruct (decide (p = [])) as [->|Hp].
  - rewrite !node_insert_one. unfold child_or_new.
    by rewrite !nd_children_set, !nd_set_children_twice, lookup_insert_eq, insert_insert_eq.
  - rewrite !node_insert_more by done. unfold child_or_new.
    rewrite !nd_children_set, !nd_set_children_twice, lookup_insert_eq, insert_insert_eq. simpl.
    rewrite (node_set_dir_id (node_insert p h2 _)) by (by rewrite node_insert_IsDir).
    by rewrite IH.
Qed.

(** Insertion of a batch of files. *)
Definition node_insert_all (l : list (list string * list byte)) (n : Node) : Node :=
  foldl (λ n x, node_insert x.1 x.2 n) n l.

(** A batch with one hash per path and no file that is also a directory. *)
Definition consistent (l : list (list string * list byte)) : Prop :=
  ∀ x y, x ∈ l → y ∈ l → x = y ∨ apart x.1 y.1.

Lemma node_insert_all_set (l1 l2 : list (list string * list byte)) n :
  consistent l1 → (∀ x, x ∈ l1 ↔ x ∈ l2) → node_insert_all l1 n = node_insert_all l2 n.
Proof.
  intros Hc Hs. unfold node_insert_all. apply foldl_set_eq; [apply _ | | | done].
  - intros x y b Hx Hy. destruct (Hc x y Hx Hy) as [->|Hap]; [done |].
    by apply node_insert_comm, apart_sym.
  - intros x b _. apply node_insert_same.
Qed.

Lemma node_file_nil n : nd_IsDir n = true → node_file n [] = None.
Proof. simpl. by intros ->. Qed.

(** What a lookup sees after an insertion: the file, nothing on the way to it or under it,
    and every unrelated path as before. *)
Lemma node_insert_file n p h q :
  nd_IsDir n = true → p ≠ [] →
  (∀ r, r `prefix_of` p → r ≠ p → node_file n r = None) →
  node_file (node_insert p h n) q =
    if decide (p = q) then Some h
    else if decide (p `prefix_of` q ∨ q `prefix_of` p) then None
    else node_file n q.
Proof.
  revert n q. induction p as [|s p IH]; intros n q Hdir Hp Hpre; [done |].
  destruct q as [|t q].
  { rewrite decide_False by done. rewrite decide_True by (right; apply prefix_nil).
    apply node_file_nil. by rewrite node_insert_IsDir. }
  assert (∀ m, node_file (nd_set_children n m) (t :: q) = m !! t ≫= λ c, node_file c q) as Hlk.
  { intros m. simpl. by rewrite Hdir. }
  destruct (decide (s = t)) as [->|Hne].
  2: { destruct (node_insert_cons s p h n) as (g & -> & _).
       rewrite Hlk, lookup_insert_ne by done.
       rewrite decide_False by congruence.
       rewrite decide_False by (intros [?%prefix_cons_inv_1|?%prefix_cons_inv_1]; congruence).
       simpl. by rewrite Hdir. }
  destruct (decide (p = [])) as [->|Hpn].
  - rewrite node_insert_one, Hlk, lookup_insert_eq. simpl.
    destruct q as [|u q]; simpl.
    + by rewrite decide_True.
    + rewrite decide_False by done. rewrite decide_True; [done |].
      left. apply prefix_cons, prefix_nil.
  - rewrite node_insert_more, Hlk, lookup_insert_eq by done. simpl.
    set (c := child_or_new t true n).
    assert (nd_IsDir c = true ∧ ∀ r, r ≠ [] → node_file c r = node_file n (t :: r)) as [Hcd Hcf].
    { unfold c, child_or_new. specialize (Hpre [t]). simpl in Hpre |- *. rewrite Hdir in *.
      destruct (nd_children n !! t) as [c0|] eqn:Ec; simpl in *.
      - split; [| done]. destruct (nd_IsDir c0) eqn:Ed; [done |].
        exfalso. assert (Some (nd_Hash c0) = None) as E0; [| done].
        apply Hpre; [apply prefix_cons, prefix_nil | congruence].
      - split; [done |]. intros r Hr. by destruct r. }
    rewrite node_set_dir_id by done. rewrite IH; [| done | done |].
    2: { intros r Hr1 Hr2. destruct (decide (r = [])) as [->|Hr].
         - simpl. by rewrite Hcd.
         - rewrite Hcf by done. apply Hpre; [by apply prefix_cons | congruence]. }
    destruct (decide (p = q)) as [->|Hpq]; [by rewrite !decide_True |].
    rewrite (decide_False (P := t :: p = t :: q)) by congruence.
    destruct (decide (p `prefix_of` q ∨ q `prefix_of` p)) as [Hq|Hq].
    + rewrite decide_True; [done |].
      destruct Hq; [left | right]; by apply prefix_cons.
    + rewrite decide_False
        by (intros [?%prefix_cons_inv_2|?%prefix_cons_inv_2]; naive_solver).
      rewrite Hcf; [simpl; by rewrite Hdir |].
      intros ->. apply Hq. right. apply prefix_nil.
Qed.

(** ** Iteration in key order *)

Definition sorted_entries {A} (m : gmap string A) : list (string * A) :=
  omap (λ k, (k,.) <$> m !! k) (sortedKeys m).

Lemma sortedKeys_elem {A} (m : gmap string A) k : k ∈ sortedKeys m ↔ is_Some (m !! k).
Proof.
  unfold sortedKeys. rewrite sort_strings_perm, list_elem_of_fmap. split.
  - intros ([k' x] & -> & Hx%elem_of_map_to_list). by exists x.
  - intros [x Hx]. exists (k, x). by rewrite elem_of_map_to_list.
Qed.

Lemma sortedKeys_NoDup {A} (m : gmap string A) : NoDup (sortedKeys m).
Proof. unfold sortedKeys. rewrite sort_strings_perm. apply NoDup_fst_map_to_list. Qed.

Lemma sortedKeys_sorted {A} (m : gmap string A) : StronglySorted String.le (sortedKeys m).
Proof. apply sort_strings_sorted. Qed.

(** Whatever order the map is ranged over in, the sorted keys are the same. *)
Lemma sortedKeys_range `{GoRange} {A} (m : gmap string A) :
  sort_strings (map_range m).*1 = sortedKeys m.
Proof. apply sort_strings_unique. by rewrite map_range_perm. Qed.

Lemma sortedKeys_dom {A B} (m : gmap string A) (m' : gmap string B) :
  (∀ k, is_Some (m !! k) ↔ is_Some (m' !! k)) → sortedKeys m = sortedKeys m'.
Proof.
  intros Hd. apply (StronglySorted_unique String.le); [apply sortedKeys_sorted .. |].
  apply NoDup_Permutation; [apply sortedKeys_NoDup .. |].
  intros k. by rewrite !sortedKeys_elem.
Qed.

Lemma sorted_values_imap {A B} (f : string → A → B) (m : gmap string A) :
  sorted_values (map_imap (λ k x, Some (f k x)) m) = (λ '(k, x), f k x) <$> sorted_entries m.
Proof.
  unfold sorted_values, sorted_entries.
  rewrite (sortedKeys_dom (map_imap (λ k x, Some (f k x)) m) m).
  2: { intros k. rewrite map_lookup_imap. destruct (m !! k); simpl; [by split; eexists | done]. }
  induction (sortedKeys m) as [|k l IH]; [done |]. csimpl.
  rewrite map_lookup_imap. destruct (m !! k); csimpl; by rewrite IH.
Qed.

Lemma sorted_values_entries {A} (m : gmap string A) : sorted_values m = (sorted_entries m).*2.
Proof.
  unfold sorted_values, sorted_entries. induction (sortedKeys m) as [|k l IH]; [done |].
  csimpl. destruct (m !! k); csimpl; by rewrite IH.
Qed.

Lemma sorted_entries_elem {A} (m : gmap string A) k x :
  (k, x) ∈ sorted_entries m ↔ m !! k = Some x.
Proof.
  unfold sorted_entries. rewrite list_elem_of_omap. split.
  - intros (k' & Hk & Hx). destruct (m !! k') eqn:E; simplify_eq/=. done.
  - intros Hx. exists k. rewrite sortedKeys_elem, Hx. by eauto.
Qed.

Lemma sorted_entries_keys {A} (m : gmap string A) : (sorted_entries m).*1 = sortedKeys m.
Proof.
  unfold sorted_entries. assert (∀ k, k ∈ sortedKeys m → is_Some (m !! k)) as Hk.
  { intros k. apply sortedKeys_elem. }
  induction (sortedKeys m) as [|k l IH]; [done |]. csimpl.
  destruct (Hk k) as [x ->]; [by left |]. csimpl. rewrite IH; [done |].
  intros k' Hk'. apply Hk. by right.
Qed.

Lemma sorted_entries_perm {A} (m : gmap string A) : sorted_entries m ≡ₚ map_to_list m.
Proof.
  apply NoDup_Permutation.
  - apply (NoDup_fmap_1 fst). rewrite sorted_entries_keys. apply sortedKeys_NoDup.
  - apply NoDup_map_to_list.
  - intros [k x]. by rewrite sorted_entries_elem, elem_of_map_to_list.
Qed.

(** ** Induction on tries *)

Lemma map_fold_max_ge (f : Node → nat) (m : gmap string Node) k c :
  m !! k = Some c → f c ≤ map_fold (λ _ c h, f c `max` h) 0 m.
Proof.
  intros Hk. rewrite <- (insert_delete_id m k c Hk).
  rewrite map_fold_insert_L; [lia | | by rewrite lookup_delete_eq].
  intros. lia.
Qed.

Lemma node_height_child n k c : nd_children n !! k = Some c → node_height c < node_height n.
Proof.
  intros Hk. destruct n as [s h d m]. simpl in *.
  apply (map_fold_max_ge node_height) in Hk. lia.
Qed.

Lemma node_ind_children (P : Node → Prop) :
  (∀ n, (∀ k c, nd_children n !! k = Some c → P c) → P n) → ∀ n, P n.
Proof.
  intros HP. assert (∀ h n, node_height n < h → P n) as H.
  { induction h as [|h IH]; intros n Hn; [lia |]. apply HP. intros k c Hk. apply IH.
    apply node_height_child in Hk. lia. }
  intros n. apply (H (S (node_height n))). lia.
Qed.

(** ** Walk *)

Definition node_list_entry (prefix : string) (kc : string * Node) : list (string * Node) :=
  let p := child_path prefix kc.1 in
  (p, kc.2) :: if nd_IsDir kc.2 then node_list p kc.2 else [].

Lemma node_list_eq prefix n :
  node_list prefix n = concat (node_list_entry prefix <$> sorted_entries (nd_children n)).
Proof.
  destruct n as [s h d m]. simpl. f_equal.
  etransitivity; [apply (sorted_values_imap (λ key child, node_list_entry prefix (key, child))) |].
  apply list_fmap_ext. by intros _ [k c] _.
Qed.

Lemma node_walk_eq {S} (fn : string → Node → S → S * bool) prefix n :
  node_walk fn prefix n
  = run_until ((λ '(key, child) s,
      let '(s', go_on) := fn (child_path prefix key) child s in
      if negb go_on then (s', false)
      else if nd_IsDir child then node_walk fn (child_path prefix key) child s'
      else (s', true)) <$> sorted_entries (nd_children n)).
Proof. destruct n as [s h d m]. simpl. f_equal. apply sorted_values_imap. Qed.

Lemma run_until_app {S} (l1 l2 : list (S → S * bool)) s :
  run_until (l1 ++ l2) s
  = let '(s', go_on) := run_until l1 s in if go_on then run_until l2 s' else (s', false).
Proof.
  revert s. induction l1 as [|f l1 IH]; intros s; simpl; [done |].
  destruct (f s) as [s' []]; [apply IH | done].
Qed.

(** [Walk] calls the callback on exactly the nodes of [node_list], in that order, and stops
    at the first [false]. *)
Lemma node_walk_list {S} (fn : string → Node → S → S * bool) n : ∀ prefix s,
  node_walk fn prefix n s = run_until ((λ x, fn x.1 x.2) <$> node_list prefix n) s.
Proof.
  induction n as [n IH] using node_ind_children. intros prefix s.
  rewrite node_walk_eq, node_list_eq.
  assert (∀ k c, (k, c) ∈ sorted_entries (nd_children n) → ∀ prefix s,
    node_walk fn prefix c s = run_until ((λ x, fn x.1 x.2) <$> node_list prefix c) s) as IH'.
  { intros k c Hkc%sorted_entries_elem. by apply (IH k). }
  clear IH. revert s. induction (sorted_entries (nd_children n)) as [|[k c] l IHl]; intros s; [done |].
  rewrite !fmap_cons, concat_cons, fmap_app. unfold node_list_entry at 1. csimpl.
  destruct (fn (child_path prefix k) c s) as [s' []]; simpl; [| done].
  rewrite run_until_app. destruct (nd_IsDir c); simpl.
  - rewrite (IH' k c) by (by left). destruct (run_until _ s') as [s2 []]; [| done].
    apply IHl. intros k' c' Hin. apply (IH' k'). by right.
  - apply IHl. intros k' c' Hin. apply (IH' k'). by right.
Qed.

(** ** Len *)

Lemma node_Len_dir n :
  nd_IsDir n = true → node_Len n = sum_list (node_Len <$> (sorted_entries (nd_children n)).*2).
Proof.
  destruct n as [s h d m]. simpl. intros ->. simpl.
  rewrite map_fold_foldr, sorted_entries_perm.
  induction (map_to_list m) as [|[k c] l IH]; csimpl; [done |]. rewrite IH. lia.
Qed.

Lemma node_Len_files n : ∀ prefix,
  nd_IsDir n = true →
  node_Len n = length (filter (λ x, nd_IsDir x.2 = false) (node_list prefix n)).
Proof.
  induction n as [n IH] using node_ind_children. intros prefix Hd.
  rewrite node_Len_dir, node_list_eq by done.
  assert (∀ k c, (k, c) ∈ sorted_entries (nd_children n) → ∀ prefix, nd_IsDir c = true →
    node_Len c = length (filter (λ x, nd_IsDir x.2 = false) (node_list prefix c))) as IH'.
  { intros k c Hkc%sorted_entries_elem. by apply (IH k). }
  clear IH. induction (sorted_entries (nd_children n)) as [|[k c] l IHl]; [done |].
  rewrite !fmap_cons. simpl. rewrite IHl by (intros k' c' Hin; apply (IH' k'); by right).
  rewrite filter_cons. simpl. destruct (nd_IsDir c) eqn:Ec.
  - rewrite decide_False by done. rewrite filter_app, length_app.
    by rewrite <- (IH' k c) by (by left || done).
  - rewrite decide_True by done. simpl. destruct c as [? ? [] ?]; [done |]. simpl. lia.
Qed.

(** ** A batch in an empty trie *)

Lemma node_insert_all_IsDir l n : nd_IsDir (node_insert_all l n) = nd_IsDir n.
Proof.
  unfold node_insert_all. revert n. induction l as [|x l IH]; intros n; [done |].
  simpl. by rewrite IH, node_insert_IsDir.
Qed.

Lemma consistent_app_l l1 l2 : consistent (l1 ++ l2) → consistent l1.
Proof. intros Hc x y Hx Hy. apply Hc; apply elem_of_app; by left. Qed.

(** A consistent batch of non-empty paths: the trie holds exactly its files. *)
Lemma node_insert_all_file l q h :
  consistent l → Forall (λ x, x.1 ≠ []) l →
  node_file (node_insert_all l NewRoot) q = Some h ↔ (q, h) ∈ l.
Proof.
  revert q h. induction l as [|[p hp] l IH] using rev_ind; intros q h Hc Hne.
  { simpl. split; [| by intros ?%elem_of_nil].
    destruct q as [|s q]; simpl; [done |]. by rewrite lookup_empty. }
  apply Forall_app in Hne as [Hne [Hp _]%Forall_cons]. simpl in Hp.
  assert (∀ q h, node_file (node_insert_all l NewRoot) q = Some h ↔ (q, h) ∈ l) as IH'.
  { intros. apply IH; [by eapply consistent_app_l | done]. }
  assert (∀ q h, (q, h) ∈ l → (q, h) = (p, hp) ∨ apart q p) as Hap.
  { intros q' h' Hin. apply (Hc (q', h') (p, hp)); apply elem_of_app; [by left | right].
    by apply list_elem_of_singleton. }
  unfold node_insert_all in *. rewrite foldl_app. simpl.
  rewrite node_insert_file; [| by apply node_insert_all_IsDir | done |].
  2: { intros r Hr1 Hr2. destruct (node_file _ r) as [h'|] eqn:Hf; [| done].
       apply IH', Hap in Hf as [[= -> ->]|[Hf _]]; [done | by destruct Hf]. }
  rewrite elem_of_app, list_elem_of_singleton. case_decide as Hpq.
  - subst q. split; [intros [= ->]; by right |].
    intros [Hin|[= ->]]; [| done]. apply Hap in Hin as [[= ->]|[Hf _]]; [done | by destruct Hf].
  - case_decide as Hpre.
    + split; [done |]. intros [Hin|[= -> ->]]; [| done].
      apply Hap in Hin as [[= -> ->]|[H1 H2]]; [done | by destruct Hpre].
    + rewrite IH'. naive_solver.
Qed.

Lemma sorted_entries_singleton {A} k (x : A) : sorted_entries (<[k := x]> ∅) = [(k, x)].
Proof.
  apply Permutation_singleton_r. rewrite sorted_entries_perm.
  by rewrite insert_empty, map_to_list_singleton.
Qed.

#[export] Instance apart_dec p q : Decision (apart p q).
Proof. unfold apart. apply _. Defined.

#[export] Instance consistent_dec l : Decision (consistent l).
Proof.
  refine (cast_if (decide (Forall (λ x, Forall (λ y, x = y ∨ apart x.1 y.1) l) l)));
    unfold consistent; rewrite Forall_forall in *; setoid_rewrite Forall_forall in f || setoid_rewrite Forall_forall in n;
    naive_solver.
Defined.
