(* ===== verification/LmLayer.v ===== *)
(** * LmLayer: the data model of layermerkle

    [event.go] (identities, layer stacks, events, requests and results), [layer.go] (the
    layer registry and the stack key), [errors.go], and [fanwatch.go] (events decoded from
    the attributes of a fanwatch event).  Layer, vertex and file identities are digests,
    that is strings; a [time.Time] is its Unix nanoseconds. *)
From S2P Require Import Prelude GoStd LmDigest.

(** ** errors.go *)

Definition ErrLayerNotFound : error := ESentinel "layermerkle: layer not found".
Definition ErrPathEscapes : error := ESentinel "layermerkle: path escapes layer root".
Definition ErrHashFailed : error := ESentinel "layermerkle: hash computation failed".
Definition ErrInvalidLayerStack : error := ESentinel "layermerkle: invalid layer stack".
Definition ErrVertexClosed : error := ESentinel "layermerkle: vertex is already finalized".
Definition ErrEventDropped : error := ESentinel "layermerkle: event dropped".
Definition ErrWhiteout : error :=
  ESentinel "layermerkle: file is a whiteout (deleted in this layer)".
Definition ErrEngineNotRunning : error := ESentinel "layermerkle: engine is not running".

(** ** event.go *)

Abbreviation LayerID := string (only parsing).
Abbreviation VertexID := string (only parsing).
Abbreviation FileHash := string (only parsing).
Abbreviation LayerStack := (list string) (only parsing).

(** [LayerStack.Top] *)
Definition LayerStack_Top (ls : LayerStack) : LayerID :=
  if decide (length ls = 0) then EmptyString else default EmptyString (ls !! (length ls - 1)).

(** [LayerStack.Contains] *)
Definition LayerStack_Contains (ls : LayerStack) (id : LayerID) : bool :=
  existsb (λ l, bool_decide (l = id)) ls.

(** [LayerStack.Valid] *)
Definition LayerStack_Valid (ls : LayerStack) : bool := 0 <? length ls.

Record AccessEvent := {
  ev_VertexID : VertexID;
  ev_LayerStack : LayerStack;
  ev_RelPath : string;
  ev_AbsPath : string;
  ev_Mask : N;
  ev_PID : Z;
  ev_Timestamp : Z;
}.

(** [AccessEvent.IsReadAccess] *)
Definition IsReadAccess (e : AccessEvent) : bool :=
  let readMask := N.lor (N.lor (N.lor 0x1 0x20) 0x1000) 0x10 in
  negb (N.land (ev_Mask e) readMask =? 0)%N.

Record HashRequest := {
  req_VertexID : VertexID;
  req_LayerStack : LayerStack;
  req_RelPath : string;
  req_AbsPath : string;
}.

Record HashResult := {
  res_VertexID : VertexID;
  res_RelPath : string;
  res_Hash : FileHash;
  res_OwnerLayerID : LayerID;
  res_FromCache : bool;
  res_Err : option error;
}.

(** [shortDigest] *)
Definition shortDigest (d : string) : string :=
  if 19 <? String.length d then str_take 19 d else d.

(** ** layer.go *)

Record LayerInfo := {
  li_ID : LayerID;
  li_DiffPath : string;
  li_ChainID : string;
  li_Labels : gmap string string;
}.

(** [LayerInfo.DiffFilePath] *)
Definition DiffFilePath (l : LayerInfo) (relPath : string) : string :=
  path_join [li_DiffPath l; relPath].

Definition whiteoutName (relPath : string) : string :=
  let '(dir, name) := path_split relPath in path_join [dir; ".wh." +:+ name].

Definition opaqueWhiteoutName (dir : string) : string := path_join [dir; ".wh..wh..opq"].

(** [LayerRegistry] is its map; [NewLayerRegistry] is [∅]. *)
Definition LayerRegistry := gmap string LayerInfo.

(** [LayerRegistry.Register], of a pointer that may be nil *)
Definition registry_Register (r : LayerRegistry) (info : option LayerInfo) : result LayerRegistry :=
  match info with
  | None => Err (EText ["layermerkle: Register: info.ID must not be empty"])
  | Some info =>
      if decide (li_ID info = EmptyString)
      then Err (EText ["layermerkle: Register: info.ID must not be empty"])
      else if decide (li_DiffPath info = EmptyString)
      then Err (EText ["layermerkle: Register: DiffPath must not be empty"; li_ID info])
      else Ok (<[li_ID info := info]> (r : gmap string LayerInfo))
  end.

Definition registry_Unregister (r : LayerRegistry) (id : LayerID) : LayerRegistry :=
  delete id (r : gmap string LayerInfo).

Definition registry_Get (r : LayerRegistry) (id : LayerID) : option LayerInfo :=
  (r : gmap string LayerInfo) !! id.

(** [LayerRegistry.ResolveStack] *)
Fixpoint registry_ResolveStack (r : LayerRegistry) (stack : LayerStack)
    : list LayerInfo * list error :=
  match stack with
  | [] => ([], [])
  | id :: rest =>
      let '(infos, errs) := registry_ResolveStack r rest in
      match registry_Get r id with
      | None => (infos, EWrap [id] ErrLayerNotFound :: errs)
      | Some l => (l :: infos, errs)
      end
  end.

Definition registry_Len (r : LayerRegistry) : nat := size (r : gmap string LayerInfo).

Definition NewLayerStackKey (stack : LayerStack) : string := str_join "|" stack.

(** ** fanwatch.go *)

(** A value of type [any] in an attribute map: a string, or something else. *)
Inductive attr_value := AttrString (s : string) | AttrOther.

Record EnrichedEventSource := {
  src_Mask : N;
  src_PID : Z;
  src_Path : string;
  src_Timestamp : Z;
  src_Attr : gmap string attr_value;
}.

Definition AttrVertexID : string := "layermerkle.vertex.id".
Definition AttrLayerStack : string := "layermerkle.layer.stack".
Definition AttrRelPath : string := "layermerkle.rel.path".

(** [v, _ := src.GetAttr(key).(string)] *)
Definition attr_string (src : EnrichedEventSource) (key : string) : string :=
  match src_Attr src !! key with Some (AttrString s) => s | _ => EmptyString end.

(** [normalizeRelPath] (resolver.go) *)
Definition normalizeRelPath (p : string) : string := trim_prefix (path_clean p) "/".

(** The loop of [parseLayerStack]; [stack] is what was appended so far. *)
Fixpoint parseLayerStack_loop (parts : list string) (stack : LayerStack) : result LayerStack :=
  match parts with
  | [] => if decide (length stack = 0) then Err ErrInvalidLayerStack else Ok stack
  | p :: rest =>
      let p := trim_space p in
      if decide (p = EmptyString) then parseLayerStack_loop rest stack
      else match Digest_Validate p with
           | Err _ => Err ErrInvalidLayerStack
           | Ok _ => parseLayerStack_loop rest (stack ++ [p])
           end
  end.

Definition parseLayerStack (raw : string) : result LayerStack :=
  parseLayerStack_loop (str_split ":" raw) [].

Definition EncodeLayerStack (stack : LayerStack) : string := str_join ":" stack.

Definition AccessEventFromEnriched (src : EnrichedEventSource) : result AccessEvent :=
  let vertexStr := attr_string src AttrVertexID in
  let stackStr := attr_string src AttrLayerStack in
  let relPath := attr_string src AttrRelPath in
  if decide (vertexStr = EmptyString ∨ stackStr = EmptyString ∨ relPath = EmptyString)
  then Err ErrInvalidLayerStack
  else match parseLayerStack stackStr with
       | Err e => Err e
       | Ok stack => Ok {|
           ev_VertexID := vertexStr; ev_LayerStack := stack;
           ev_RelPath := normalizeRelPath relPath; ev_AbsPath := src_Path src;
           ev_Mask := src_Mask src; ev_PID := src_PID src; ev_Timestamp := src_Timestamp src |}
       end.

Definition AccessEventAttrs (vertexID : VertexID) (stack : LayerStack) (relPath : string)
    : gmap string attr_value :=
  <[AttrVertexID := AttrString vertexID]> (<[AttrLayerStack := AttrString (EncodeLayerStack stack)]>
    (<[AttrRelPath := AttrString relPath]> ∅)).

(** ** Lemmas *)

Lemma str_drop_chars n s c : char_in c (str_drop n s) → char_in c s.
Proof.
  revert n. induction s as [|a s IH]; intros [|n]; simpl; try done.
  intros H%IH. apply char_in_cons. by right.
Qed.

Lemma trim_left_chars fuel spaces s c : char_in c (trim_left_fuel fuel spaces s) → char_in c s.
Proof.
  revert s. induction fuel as [|fuel IH]; intros s; simpl; [done |].
  destruct (List.find _ _) as [sp|]; [| done]. intros H%IH. unfold trim_prefix in H.
  destruct (has_prefix s sp); [by apply str_drop_chars in H | done].
Qed.

Lemma trim_space_chars s c : char_in c (trim_space s) → char_in c s.
Proof.
  unfold trim_space. rewrite rev_chars. intros H%trim_left_chars.
  rewrite rev_chars in H. by apply trim_left_chars in H.
Qed.

Lemma Validate_no_colon d : ¬ char_in ":" d → Digest_Validate d ≠ Ok tt.
Proof. intros H. unfold Digest_Validate. apply index_byte_None in H. by rewrite H. Qed.

Lemma LayerStack_Top_last ls : LayerStack_Top ls = default EmptyString (last ls).
Proof.
  unfold LayerStack_Top. case_decide as Hl.
  - by destruct ls.
  - rewrite last_lookup. do 2 f_equal. lia.
Qed.

Lemma NewLayerStackKey_inj (s1 s2 : LayerStack) :
  s1 ≠ [] → s2 ≠ [] →
  Forall (λ id, ¬ char_in "|" id) s1 → Forall (λ id, ¬ char_in "|" id) s2 →
  NewLayerStackKey s1 = NewLayerStackKey s2 → s1 = s2.
Proof.
  intros Hn1 Hn2 H1 H2 H. apply (f_equal (str_split "|")) in H. unfold NewLayerStackKey in H.
  by rewrite !(str_split_join "|") in H.
Qed.

(** ** Properties *)

Lemma parseLayerStack_rejects raw : parseLayerStack raw = Err ErrInvalidLayerStack.
Proof.
  unfold parseLayerStack.
  assert (∀ parts, (∀ p, p ∈ parts → ¬ char_in ":" p) →
    parseLayerStack_loop parts [] = Err ErrInvalidLayerStack) as H.
  { induction parts as [|p rest IH]; intros Hp; [done |]. simpl.
    case_decide as Ht; [apply IH; set_solver |].
    destruct (Digest_Validate (trim_space p)) as [[]|] eqn:Hv; [| done].
    exfalso. apply (Validate_no_colon (trim_space p)); [| done].
    intros Hc%trim_space_chars. by apply (Hp p); [left |]. }
  apply H. intros p. apply str_split_no_sep.
Qed.

(** No fanwatch event is ever decoded.  A digest contains a colon, [EncodeLayerStack]
    joins digests with colons and [parseLayerStack] splits at colons, so no part is a valid
    digest: [AccessEventFromEnriched] rejects every event, in particular the ones whose
    attributes were made by [AccessEventAttrs]. *)
Theorem AccessEventFromEnriched_rejects (src : EnrichedEventSource) :
  AccessEventFromEnriched src = Err ErrInvalidLayerStack.
Proof.
  unfold AccessEventFromEnriched. case_decide; [done |]. by rewrite parseLayerStack_rejects.
Qed.
