(* ===== verification/LmMerkle.v ===== *)
(** * LmMerkle: [pkg/layermerkle/merkle.go]

    The per-vertex Merkle tree: the builder that collects hash results, the tree computed
    from its trie, the root digest, and the forest of finished trees. *)
From S2P Require Import Prelude GoStd Sha256 LmDigest LmTrie LmLayer.

Record MerkleLeaf := {
  leaf_RelPath : string;
  leaf_Hash : FileHash;
  leaf_OwnerLayerID : LayerID;
  leaf_FromCache : bool;
}.

#[export] Instance MerkleLeaf_eq_dec : EqDecision MerkleLeaf.
Proof. solve_decision. Defined.

Inductive MerkleNode := mkMerkleNode {
  mn_Path : string;
  mn_Hash : list byte;
  mn_Children : list MerkleNode;
  mn_Leaf : option MerkleLeaf;
}.

(** [MerkleNode.IsLeaf] *)
Definition mn_IsLeaf (n : MerkleNode) : bool := match mn_Leaf n with Some _ => true | None => false end.

(** [MerkleNode.HexHash] *)
Definition mn_HexHash (n : MerkleNode) : string := hex_encode (mn_Hash n).

Record MerkleTree := {
  mt_VertexID : VertexID;
  mt_LayerStack : LayerStack;
  mt_Root : string;
  mt_RootNode : option MerkleNode;
  mt_Leaves : list MerkleLeaf;
  mt_LeafCount : nat;
  mt_CacheHitCount : nat;
  mt_FinalizedAt : Z;
}.

Record MerkleTreeBuilder := {
  mb_vertexID : VertexID;
  mb_layerStack : LayerStack;
  mb_root : Node;
  mb_leaves : list MerkleLeaf;
  mb_hitCount : nat;
}.

Definition NewMerkleTreeBuilder (vertexID : VertexID) (stack : LayerStack) : MerkleTreeBuilder :=
  {| mb_vertexID := vertexID; mb_layerStack := stack; mb_root := NewRoot;
     mb_leaves := []; mb_hitCount := 0 |}.

(** [MerkleTreeBuilder.Add] *)
Definition builder_Add (b : MerkleTreeBuilder) (r : HashResult) : MerkleTreeBuilder :=
  if decide (res_Err r ≠ None ∨ res_Hash r = EmptyString) then b
  else
    let leaf := {| leaf_RelPath := res_RelPath r; leaf_Hash := res_Hash r;
                   leaf_OwnerLayerID := res_OwnerLayerID r; leaf_FromCache := res_FromCache r |} in
    {| mb_vertexID := mb_vertexID b; mb_layerStack := mb_layerStack b;
       mb_root := node_Insert (res_RelPath r) (str_bytes (res_Hash r)) (mb_root b);
       mb_leaves := mb_leaves b ++ [leaf];
       mb_hitCount := if res_FromCache r then S (mb_hitCount b) else mb_hitCount b |}.

Section hashing.
Context `{HashFn}.

(** [hashChildren] *)
Definition hashChildren (children : list MerkleNode) : list byte :=
  if decide (length children = 0) then []
  else hash_fn (concat (mn_Hash <$> children)).

Definition empty_leaf (path : string) : MerkleLeaf :=
  {| leaf_RelPath := path; leaf_Hash := EmptyString; leaf_OwnerLayerID := EmptyString;
     leaf_FromCache := false |}.

(** [buildMerkleNode]; the ignored third argument is left out *)
Fixpoint buildMerkleNode (path : string) (n : Node) : MerkleNode :=
  let children := sorted_values (map_imap (λ _ child,
    let childPath := child_path path (nd_Segment child) in
    Some (if negb (nd_IsDir child)
          then mkMerkleNode childPath (nd_Hash child) [] (Some (empty_leaf childPath))
          else let inner := buildMerkleNode childPath child in
               mkMerkleNode childPath (mn_Hash inner) (mn_Children inner) None))
    (nd_children n)) in
  mkMerkleNode path (hashChildren children) children None.

(** [computeRootDigest] *)
Definition computeRootDigest (root : option MerkleNode) : string :=
  match root with
  | None => EmptyString
  | Some root =>
      if decide (length (mn_Hash root) = 0) then EmptyString
      else NewDigestFromBytes SHA256 (mn_Hash root)
  end.

(** [MerkleTreeBuilder.Finalize], at time [now] *)
Definition builder_Finalize `{GoSort} (b : MerkleTreeBuilder) (now : Z) : MerkleTree :=
  let leaves := sort_slice leaf_RelPath (mb_leaves b) in
  let rootNode := buildMerkleNode EmptyString (mb_root b) in
  let root := computeRootDigest (Some rootNode) in
  {| mt_VertexID := mb_vertexID b; mt_LayerStack := mb_layerStack b; mt_Root := root;
     mt_RootNode := Some rootNode; mt_Leaves := leaves; mt_LeafCount := length leaves;
     mt_CacheHitCount := mb_hitCount b; mt_FinalizedAt := now |}.
End hashing.

(** ** MerkleForest: the map [trees], from vertex to tree *)

Definition MerkleForest := gmap string MerkleTree.

Definition NewMerkleForest : MerkleForest := ∅.

Definition forest_Add (f : MerkleForest) (t : MerkleTree) : MerkleForest :=
  <[mt_VertexID t := t]> (f : gmap string MerkleTree).

Definition forest_Get (f : MerkleForest) (vertexID : VertexID) : option MerkleTree :=
  (f : gmap string MerkleTree) !! vertexID.

(** [MerkleForest.All] *)
Definition forest_All `{GoSort, GoRange} (f : MerkleForest) : list MerkleTree :=
  sort_slice mt_VertexID (map_range (f : gmap string MerkleTree)).*2.

Definition forest_Len (f : MerkleForest) : nat := size (f : gmap string MerkleTree).

(** Every tree is stored under its own vertex. *)
Definition forest_wf (f : MerkleForest) : Prop :=
  ∀ v t, (f : gmap string MerkleTree) !! v = Some t → mt_VertexID t = v.

(** ** The builder and its trie *)

Definition accepted (r : HashResult) : Prop := res_Err r = None ∧ res_Hash r ≠ EmptyString.

#[export] Instance accepted_dec r : Decision (accepted r).
Proof. unfold accepted. apply _. Defined.

Definition result_leaf (r : HashResult) : MerkleLeaf :=
  {| leaf_RelPath := res_RelPath r; leaf_Hash := res_Hash r;
     leaf_OwnerLayerID := res_OwnerLayerID r; leaf_FromCache := res_FromCache r |}.

(** What the results contribute to the trie: the segments of the cleaned path, and the
    bytes of the hash. *)
Definition result_file (r : HashResult) : list string * list byte :=
  (splitPath (path_clean (res_RelPath r)), str_bytes (res_Hash r)).

Definition files_of (rs : list HashResult) : list (list string * list byte) :=
  result_file <$> filter accepted rs.

Definition builder_run (v : VertexID) (st : LayerStack) (rs : list HashResult) : MerkleTreeBuilder :=
  foldl builder_Add (NewMerkleTreeBuilder v st) rs.

Lemma builder_Add_accepted b r :
  builder_Add b r =
    if decide (accepted r) then
      {| mb_vertexID := mb_vertexID b; mb_layerStack := mb_layerStack b;
         mb_root := node_insert (result_file r).1 (result_file r).2 (mb_root b);
         mb_leaves := mb_leaves b ++ [result_leaf r];
         mb_hitCount := if res_FromCache r then S (mb_hitCount b) else mb_hitCount b |}
    else b.
Proof.
  unfold builder_Add, accepted. case_decide as H; case_decide as H'; try done.
  - exfalso. tauto.
  - exfalso. destruct (res_Err r); naive_solver.
Qed.

Lemma builder_foldl rs b :
  foldl builder_Add b rs =
    {| mb_vertexID := mb_vertexID b; mb_layerStack := mb_layerStack b;
       mb_root := node_insert_all (files_of rs) (mb_root b);
       mb_leaves := mb_leaves b ++ (result_leaf <$> filter accepted rs);
       mb_hitCount := mb_hitCount b
         + length (filter (λ r, res_FromCache r = true) (filter accepted rs)) |}.
Proof.
  unfold files_of. revert b. induction rs as [|r rs IH]; intros b.
  { destruct b; simpl. by rewrite app_nil_r, Nat.add_0_r. }
  simpl. rewrite IH, builder_Add_accepted, filter_cons.
  destruct (decide (accepted r)) as [Hr|Hr]; [| done].
  rewrite !fmap_cons, filter_cons. simpl. rewrite <- app_assoc. simpl. f_equal.
  destruct (res_FromCache r); simpl; [| done].
  lia.
Qed.

Lemma builder_run_eq v st rs :
  builder_run v st rs =
    {| mb_vertexID := v; mb_layerStack := st;
       mb_root := node_insert_all (files_of rs) NewRoot;
       mb_leaves := result_leaf <$> filter accepted rs;
       mb_hitCount := length (filter (λ r, res_FromCache r = true) (filter accepted rs)) |}.
Proof. unfold builder_run. by rewrite builder_foldl. Qed.

(** ** The hash of a trie *)

Section trie_hash.
Context `{HashFn}.

Definition merkle_child (path : string) (child : Node) : MerkleNode :=
  let childPath := child_path path (nd_Segment child) in
  if negb (nd_IsDir child)
  then mkMerkleNode childPath (nd_Hash child) [] (Some (empty_leaf childPath))
  else let inner := buildMerkleNode childPath child in
       mkMerkleNode childPath (mn_Hash inner) (mn_Children inner) None.

Lemma buildMerkleNode_eq path n :
  buildMerkleNode path n =
    let children := (merkle_child path ∘ snd) <$> sorted_entries (nd_children n) in
    mkMerkleNode path (hashChildren children) children None.
Proof.
  destruct n as [s h d m]. simpl.
  rewrite (sorted_values_imap (λ _ c, merkle_child path c)).
  assert ((λ '(k, x), merkle_child path x) <$> sorted_entries m
          = (merkle_child path ∘ snd) <$> sorted_entries m) as ->; [| done].
  apply list_fmap_ext. by intros _ [k c] _.
Qed.

(** The bytes a node contributes to its parent. *)
Fixpoint node_hash (n : Node) : list byte :=
  if negb (nd_IsDir n) then nd_Hash n
  else
    let hs := sorted_values (node_hash <$> nd_children n) in
    if decide (length hs = 0) then [] else hash_fn (concat hs).

Lemma sorted_values_fmap {A B} (f : A → B) (m : gmap string A) :
  sorted_values (f <$> m) = (f ∘ snd) <$> sorted_entries m.
Proof.
  assert (f <$> m = map_imap (λ _ x, Some (f x)) m) as ->.
  { apply map_eq. intros k. rewrite lookup_fmap, map_lookup_imap. by destruct (m !! k). }
  rewrite sorted_values_imap. apply list_fmap_ext. by intros _ [k c] _.
Qed.

Lemma node_hash_eq n :
  node_hash n =
    if nd_IsDir n then
      if decide (sorted_entries (nd_children n) = []) then []
      else hash_fn (concat ((node_hash ∘ snd) <$> sorted_entries (nd_children n)))
    else nd_Hash n.
Proof.
  destruct n as [s h [] m]; simpl; [| done]. rewrite sorted_values_fmap, length_fmap.
  destruct (sorted_entries m) as [|x l]; simpl; repeat case_decide; done.
Qed.

Lemma merkle_child_hash path c :
  (∀ p, nd_IsDir c = true → mn_Hash (buildMerkleNode p c) = node_hash c) →
  mn_Hash (merkle_child path c) = node_hash c.
Proof.
  intros Hc. unfold merkle_child. destruct (nd_IsDir c) eqn:Hd; simpl; [by apply Hc |].
  by rewrite node_hash_eq, Hd.
Qed.

Lemma buildMerkleNode_hash n : ∀ path,
  nd_IsDir n = true → mn_Hash (buildMerkleNode path n) = node_hash n.
Proof.
  induction n as [n IH] using node_ind_children. intros path Hd.
  rewrite buildMerkleNode_eq, node_hash_eq, Hd. simpl. unfold hashChildren.
  rewrite length_fmap. destruct (sorted_entries (nd_children n)) as [|x l] eqn:El; [done |].
  rewrite !decide_False by done. do 2 f_equal. rewrite <- list_fmap_compose.
  rewrite <- El. apply list_fmap_ext. intros i [k c] Hi. simpl.
  apply merkle_child_hash. intros p Hcd. apply (IH k); [| done].
  apply sorted_entries_elem. rewrite list_elem_of_lookup. eauto.
Qed.

(** Same files at the same places, with hashes of the same length. *)
Inductive same_shape : Node → Node → Prop :=
  | SameShape n1 n2 :
      nd_IsDir n1 = nd_IsDir n2 →
      (nd_IsDir n1 = false → length (nd_Hash n1) = length (nd_Hash n2)) →
      (∀ k, option_Forall2 same_shape (nd_children n1 !! k) (nd_children n2 !! k)) →
      same_shape n1 n2.

Lemma same_shape_root : same_shape NewRoot NewRoot.
Proof. constructor; [done | done |]. intros k. simpl. rewrite lookup_empty. constructor. Qed.

Lemma same_shape_inv n1 n2 :
  same_shape n1 n2 →
  nd_IsDir n1 = nd_IsDir n2
  ∧ (nd_IsDir n1 = false → length (nd_Hash n1) = length (nd_Hash n2))
  ∧ ∀ k, option_Forall2 same_shape (nd_children n1 !! k) (nd_children n2 !! k).
Proof. by destruct 1. Qed.

Lemma same_shape_insert p h1 h2 n1 n2 :
  length h1 = length h2 → same_shape n1 n2 →
  same_shape (node_insert p h1 n1) (node_insert p h2 n2).
Proof.
  intros Hh. revert n1 n2. induction p as [|s p IH]; intros n1 n2 Hs; [done |].
  destruct Hs as [n1 n2 Hd Hl Hc].
  assert (∀ d, same_shape (child_or_new s d n1) (child_or_new s d n2)) as Hcn.
  { intros d. unfold child_or_new. destruct (Hc s); simpl; [done |].
    constructor; [done | done |]. intros k. simpl. rewrite lookup_empty. constructor. }
  assert (∀ c1 c2, same_shape c1 c2 →
    same_shape (nd_set_children n1 (<[s := c1]> (nd_children n1)))
               (nd_set_children n2 (<[s := c2]> (nd_children n2)))) as Hset.
  { intros c1 c2 Hcc. constructor; [done | done |]. intros k. simpl.
    destruct (decide (s = k)) as [->|Hne].
    - rewrite !lookup_insert_eq. by constructor.
    - rewrite !lookup_insert_ne by done. apply Hc. }
  destruct (decide (p = [])) as [->|Hp].
  - rewrite !node_insert_one. apply Hset.
    destruct (Hcn false) as [c1 c2 Hd' Hl' Hc']. by constructor.
  - rewrite !node_insert_more by done. apply Hset, IH.
    destruct (Hcn true) as [c1 c2 Hd' Hl' Hc']. by constructor.
Qed.

Lemma same_shape_entries (m1 m2 : gmap string Node) :
  (∀ k, option_Forall2 same_shape (m1 !! k) (m2 !! k)) →
  Forall2 (λ x y, x.1 = y.1 ∧ same_shape x.2 y.2) (sorted_entries m1) (sorted_entries m2).
Proof.
  intros Hm. unfold sorted_entries. rewrite (sortedKeys_dom m1 m2).
  2: { intros k. destruct (Hm k); by rewrite ?is_Some_alt. }
  induction (sortedKeys m2) as [|k l IH]; [constructor |]. csimpl.
  destruct (Hm k) as [c1 c2 Hc|]; csimpl; [| done]. by constructor.
Qed.

Lemma node_hash_length n1 n2 : same_shape n1 n2 → length (node_hash n1) = length (node_hash n2).
Proof.
  intros [n1' n2' Hd Hl Hc]. rewrite !node_hash_eq, <- Hd.
  destruct (nd_IsDir n1') eqn:E; [| by apply Hl].
  apply same_shape_entries in Hc. destruct Hc; simpl; [done |].
  by rewrite !hash_fn_length.
Qed.

(** Related entry lists relate the values under each key. *)
Lemma sorted_entries_related {A B} (R : A → B → Prop) m1 m2 k x y :
  Forall2 (λ u v, u.1 = v.1 ∧ R u.2 v.2) (sorted_entries m1) (sorted_entries m2) →
  m1 !! k = Some x → m2 !! k = Some y → R x y.
Proof.
  intros Hr Hx Hy. apply sorted_entries_elem, list_elem_of_lookup in Hx as [i Hi].
  destruct (Forall2_lookup_l _ _ _ _ _ Hr Hi) as ([k' y'] & Hi' & Hk & HR). simpl in *. subst k'.
  assert (m2 !! k = Some y') as E; [| by simplify_eq].
  apply sorted_entries_elem. rewrite list_elem_of_lookup. eauto.
Qed.

(** The inputs that hashing a trie feeds to the hash function *)
Inductive hashed : Node → list byte → Prop :=
  | hashed_here n :
      nd_IsDir n = true → sorted_entries (nd_children n) ≠ [] →
      hashed n (concat ((node_hash ∘ snd) <$> sorted_entries (nd_children n)))
  | hashed_below n k c b : nd_children n !! k = Some c → hashed c b → hashed n b.

Lemma collision_below n1 n2 k c1 c2 :
  nd_children n1 !! k = Some c1 → nd_children n2 !! k = Some c2 →
  collision_between hash_fn (hashed c1) (hashed c2) → collision_between hash_fn (hashed n1) (hashed n2).
Proof. intros H1 H2 (x & y & Hx & Hy & Hne & E). exists x, y. split_and!; [by eapply hashed_below.. | done | done]. Qed.

(** Equal digests of equally shaped tries: equal files, or a collision of the hash. *)
Lemma node_hash_inj n1 : ∀ n2,
  same_shape n1 n2 → node_hash n1 = node_hash n2 →
  (∀ q, node_file n1 q = node_file n2 q) ∨ collision_between hash_fn (hashed n1) (hashed n2).
Proof.
  induction n1 as [n1 IH] using node_ind_children. intros n2 (Hd & Hl & Hc)%same_shape_inv Hh.
  rewrite !node_hash_eq, <- Hd in Hh. destruct (nd_IsDir n1) eqn:E.
  2: { left. intros [|s q]; simpl; by rewrite <- Hd, E, ?Hh. }
  pose proof (same_shape_entries _ _ Hc) as Hent.
  assert (Forall2 (λ x y, x.1 = y.1 ∧ node_hash x.2 = node_hash y.2)
            (sorted_entries (nd_children n1)) (sorted_entries (nd_children n2))
          ∨ collision_between hash_fn (hashed n1) (hashed n2)) as [Heq|Hcol]; [| | by right].
  { set (c1 := (node_hash ∘ snd) <$> sorted_entries (nd_children n1)) in *.
    set (c2 := (node_hash ∘ snd) <$> sorted_entries (nd_children n2)) in *.
    destruct (decide (concat c1 = concat c2)) as [Hcc|Hcc].
    - left. apply concat_blocks_inj in Hcc.
      + assert (Forall2 (=) c1 c2) as Hc12%Forall2_fmap_1 by (by rewrite Hcc).
        apply Forall2_conj; [| exact Hc12].
        eapply Forall2_impl; [exact Hent | tauto].
      + apply Forall2_fmap_2. eapply Forall2_impl; [exact Hent |].
        intros x y [_ Hxy]. by apply node_hash_length.
    - right. exists (concat c1), (concat c2). destruct (nd_IsDir n2) eqn:E2; [| congruence]. split_and!; [| | done |].
      + constructor; [done |]. intros En. apply Hcc. unfold c1, c2. rewrite En in *. by inversion Hent.
      + constructor; [done |]. intros En. apply Hcc. unfold c1, c2. rewrite En in *. by inversion Hent.
      + by destruct Hent. }
  assert (Forall (λ x, ∀ y q, nd_children n2 !! x.1 = Some y → node_file x.2 q = node_file y q)
            (sorted_entries (nd_children n1)) ∨ collision_between hash_fn (hashed n1) (hashed n2)) as [Hf|Hcol]; [| | by right].
  { apply Forall_or_const, Forall_forall. intros [k x] Hx%sorted_entries_elem. simpl.
    pose proof (Hc k) as Hk. rewrite Hx in Hk. inversion Hk as [? y Hxy Hx' Hy|]; subst.
    destruct (IH k x Hx y Hxy) as [Hq|Hq]; [| | right; by eapply collision_below].
    - by eapply (sorted_entries_related (λ x y, node_hash x = node_hash y)).
    - left. intros y' q Hy'. by simplify_eq. }
  left. intros [|s q]; simpl; rewrite <- Hd, E; [done |].
  pose proof (Hc s) as Hs. rewrite Forall_forall in Hf.
  destruct (nd_children n1 !! s) as [x|] eqn:Ex, (nd_children n2 !! s) as [y|] eqn:Ey;
    inversion Hs; simpl; [| done].
  apply (Hf (s, x)); [by apply sorted_entries_elem | done].
Qed.
End trie_hash.

(** ** Roots *)

Section roots.
Context `{HashFn, GoSort}.

Lemma node_hash_root_length n :
  nd_IsDir n = true → node_hash n = [] ∨ length (node_hash n) = hash_len.
Proof.
  intros Hd. rewrite node_hash_eq, Hd. case_decide; [by left | right].
  apply hash_fn_length.
Qed.

Lemma computeRootDigest_inj n1 n2 :
  nd_IsDir n1 = true → nd_IsDir n2 = true →
  computeRootDigest (Some (buildMerkleNode EmptyString n1))
    = computeRootDigest (Some (buildMerkleNode EmptyString n2)) →
  node_hash n1 = node_hash n2.
Proof.
  intros H1 H2. unfold computeRootDigest. rewrite !buildMerkleNode_hash by done.
  destruct (node_hash n1) as [|b1 h1], (node_hash n2) as [|b2 h2]; simpl;
    [done | done | done |].
  intros E%newDigest_inj. done.
Qed.

Lemma finalize_root v st rs now :
  mt_Root (builder_Finalize (builder_run v st rs) now)
  = computeRootDigest (Some (buildMerkleNode EmptyString (node_insert_all (files_of rs) NewRoot))).
Proof. by rewrite builder_run_eq. Qed.

Lemma files_same_shape rs1 rs2 :
  Forall2 (λ r1 r2, res_RelPath r1 = res_RelPath r2
                    ∧ String.length (res_Hash r1) = String.length (res_Hash r2)) rs1 rs2 →
  ∀ n1 n2, same_shape n1 n2 →
  same_shape (node_insert_all (result_file <$> rs1) n1) (node_insert_all (result_file <$> rs2) n2).
Proof.
  induction 1 as [|r1 r2 rs1 rs2 [Hp Hl] Hrs IH]; intros n1 n2 Hn; [done |].
  csimpl. apply IH. unfold result_file. simpl. rewrite Hp.
  apply same_shape_insert; [| done]. by rewrite !str_bytes_length.
Qed.
End roots.

(** ** Properties *)

(** C6: the root depends only on the set of accessed files, if they are consistent: no path has
    two hashes, and none is both a file and a directory above another one.  Two vertices whose
    accepted results name the same (path, hash) pairs, in any order and with any repetitions, then
    get the same root digest; layer stacks, owners, cache hits and times do not matter. *)
Theorem finalize_root_deterministic `{HashFn, GoSort} v1 v2 st1 st2 rs1 rs2 now1 now2 :
  consistent (files_of rs1) → (∀ x, x ∈ files_of rs1 ↔ x ∈ files_of rs2) →
  mt_Root (builder_Finalize (builder_run v1 st1 rs1) now1)
  = mt_Root (builder_Finalize (builder_run v2 st2 rs2) now2).
Proof. intros Hc Hs. rewrite !finalize_root. by rewrite (node_insert_all_set _ _ _ Hc Hs). Qed.

(** The root binds the contents.  If two runs over the same sequence of paths end in the
    same root, then every file had the same hash in both, or two different inputs of the hash
    function with one digest are exhibited among those the two runs hash. *)
Theorem finalize_root_binds_hashes `{HashFn, GoSort} v1 v2 st1 st2 rs1 rs2 now1 now2 :
  Forall accepted rs1 → Forall accepted rs2 →
  Forall2 (λ r1 r2, res_RelPath r1 = res_RelPath r2
                    ∧ String.length (res_Hash r1) = String.length (res_Hash r2)) rs1 rs2 →
  consistent (files_of rs1) → consistent (files_of rs2) →
  Forall (λ r, splitPath (path_clean (res_RelPath r)) ≠ []) rs1 →
  mt_Root (builder_Finalize (builder_run v1 st1 rs1) now1)
  = mt_Root (builder_Finalize (builder_run v2 st2 rs2) now2) →
  res_Hash <$> rs1 = res_Hash <$> rs2
  ∨ collision_between hash_fn (hashed (node_insert_all (files_of rs1) NewRoot))
      (hashed (node_insert_all (files_of rs2) NewRoot)).
Proof.
  intros Ha1 Ha2 Hsame Hc1 Hc2 Hne. rewrite !finalize_root. intros Hroot.
  apply computeRootDigest_inj in Hroot; [| by rewrite node_insert_all_IsDir ..].
  assert (∀ rs, Forall accepted rs → files_of rs = result_file <$> rs) as Hfs.
  { intros rs Hrs. unfold files_of. by rewrite filter_all. }
  rewrite !Hfs in * by done.
  assert (∀ rs, Forall (λ r, splitPath (path_clean (res_RelPath r)) ≠ []) rs →
            Forall (λ x, x.1 ≠ []) (result_file <$> rs)) as Hnf.
  { intros rs Hrs. apply Forall_fmap. eapply Forall_impl; [exact Hrs | done]. }
  apply node_hash_inj in Hroot as [Hf|Hcol]; [left | by right | by apply files_same_shape, same_shape_root].
  apply list_eq_Forall2, Forall2_fmap_2, Forall2_same_length_lookup_2;
    [by apply Forall2_length in Hsame |].
  intros i r1 r2 Hi1 Hi2.
  destruct (Forall2_lookup_lr _ _ _ _ _ _ Hsame Hi1 Hi2) as [Hp _].
  assert (Forall (λ r, splitPath (path_clean (res_RelPath r)) ≠ []) rs2) as Hne2.
  { apply Forall_forall. intros r [j Hj]%list_elem_of_lookup.
    destruct (Forall2_lookup_r _ _ _ _ _ Hsame Hj) as (r' & Hr' & <- & _).
    by apply (Forall_lookup_1 _ _ _ _ Hne Hr'). }
  assert (node_file (node_insert_all (result_file <$> rs1) NewRoot) (result_file r1).1
          = Some (result_file r1).2) as E1.
  { apply node_insert_all_file; [done | by apply Hnf |]. rewrite <- surjective_pairing.
    apply list_elem_of_fmap_2. rewrite list_elem_of_lookup. eauto. }
  assert (node_file (node_insert_all (result_file <$> rs2) NewRoot) (result_file r2).1
          = Some (result_file r2).2) as E2.
  { apply node_insert_all_file; [done | by apply Hnf |]. rewrite <- surjective_pairing.
    apply list_elem_of_fmap_2. rewrite list_elem_of_lookup. eauto. }
  assert ((result_file r1).1 = (result_file r2).1) as Hp' by (simpl; by rewrite Hp).
  rewrite Hp', Hf, E2 in E1. injection E1 as E1. by apply str_bytes_inj.
Qed.

(** The sealed tree.  Its leaves are the accepted results, sorted by path; the leaf
    count and the hit count are theirs, so hits never exceed leaves. *)
Theorem finalize_leaves `{HashFn, GoSort} v st rs now :
  let t := builder_Finalize (builder_run v st rs) now in
  mt_VertexID t = v ∧ mt_LayerStack t = st
  ∧ mt_Leaves t ≡ₚ result_leaf <$> filter accepted rs
  ∧ StronglySorted (key_le leaf_RelPath) (mt_Leaves t)
  ∧ mt_LeafCount t = length (filter accepted rs)
  ∧ mt_CacheHitCount t = length (filter (λ l, leaf_FromCache l = true) (mt_Leaves t))
  ∧ mt_CacheHitCount t ≤ mt_LeafCount t.
Proof.
  simpl. rewrite builder_run_eq. simpl.
  assert (∀ l, length (filter (λ r, res_FromCache r = true) l)
               = length (filter (λ l, leaf_FromCache l = true) (result_leaf <$> l))) as Hf.
  { induction l as [|r l IH]; [done |]. rewrite fmap_cons, !filter_cons. simpl.
    destruct (res_FromCache r); simpl; by rewrite IH. }
  assert (length (filter (λ r, res_FromCache r = true) (filter accepted rs))
          ≤ length (filter accepted rs)) as Hle by apply length_filter.
  split_and!; [done | done | apply sort_slice_perm | apply sort_slice_sorted | | |].
  - by rewrite sort_slice_length, length_fmap.
  - by rewrite sort_slice_perm.
  - by rewrite sort_slice_length, length_fmap.
Qed.

(** The root does not bind the names.  [hashChildren] concatenates the hashes of the
    children and nothing else, so two vertices that read one file each, with the same
    contents under different names, get the same root. *)
Theorem finalize_root_ignores_names `{HashFn, GoSort} v1 v2 st1 st2 r1 r2 s1 s2 now1 now2 :
  accepted r1 → accepted r2 → res_Hash r1 = res_Hash r2 →
  splitPath (path_clean (res_RelPath r1)) = [s1] →
  splitPath (path_clean (res_RelPath r2)) = [s2] →
  mt_Root (builder_Finalize (builder_run v1 st1 [r1]) now1)
  = mt_Root (builder_Finalize (builder_run v2 st2 [r2]) now2).
Proof.
  intros Ha1 Ha2 Hh Hs1 Hs2. rewrite !finalize_root. unfold computeRootDigest.
  rewrite !buildMerkleNode_hash by (by rewrite node_insert_all_IsDir).
  unfold files_of. rewrite !filter_all by (by constructor).
  assert (∀ s h, node_hash (node_insert [s] h NewRoot) = hash_fn h) as E.
  { intros s h. rewrite node_insert_one, node_hash_eq. simpl.
    rewrite sorted_entries_singleton, decide_False by done. simpl. by rewrite app_nil_r. }
  csimpl. unfold node_insert_all. simpl. by rewrite Hs1, Hs2, Hh, !E.
Qed.

(** ** The forest *)

Lemma forest_Add_wf f t : forest_wf f → forest_wf (forest_Add f t).
Proof.
  unfold forest_wf, forest_Add. intros Hf v t'. destruct (decide (mt_VertexID t = v)) as [<-|Hne].
  - rewrite lookup_insert_eq. by intros [= ->].
  - rewrite lookup_insert_ne by done. apply Hf.
Qed.

Lemma forest_keys `{GoRange} f :
  forest_wf f →
  mt_VertexID <$> (map_range (f : gmap string MerkleTree)).*2
  = (map_range (f : gmap string MerkleTree)).*1.
Proof.
  intros Hf. rewrite <- list_fmap_compose. apply list_fmap_ext. intros i [v t] Hi. simpl.
  apply Hf. apply elem_of_map_range. rewrite list_elem_of_lookup. eauto.
Qed.

Lemma forest_All_elem `{GoSort, GoRange} f t :
  t ∈ forest_All f ↔ ∃ v, forest_Get f v = Some t.
Proof.
  unfold forest_All, forest_Get. rewrite elem_of_sort_slice, list_elem_of_fmap. split.
  - intros ([v t'] & -> & Hv%elem_of_map_range). by exists v.
  - intros [v Hv]. exists (v, t). by rewrite elem_of_map_range.
Qed.

(** [All] lists a forest in vertex order, each tree once, and its answer does not depend
    on the order the map is ranged over nor on the sorting algorithm. *)
Theorem forest_All_spec (S1 S2 : GoSort) (R1 R2 : GoRange) f :
  forest_wf f →
  forest_All (H := S1) (H0 := R1) f = forest_All (H := S2) (H0 := R2) f
  ∧ StronglySorted (key_le mt_VertexID) (forest_All (H := S1) (H0 := R1) f)
  ∧ NoDup (mt_VertexID <$> forest_All (H := S1) (H0 := R1) f)
  ∧ (∀ t, t ∈ forest_All (H := S1) (H0 := R1) f ↔ forest_Get f (mt_VertexID t) = Some t)
  ∧ length (forest_All (H := S1) (H0 := R1) f) = forest_Len f.
Proof.
  intros Hf.
  assert (∀ (S : GoSort) (R : GoRange), NoDup (mt_VertexID <$> forest_All (H := S) (H0 := R) f)) as Hnd.
  { intros S R. unfold forest_All. apply sort_slice_NoDup_key.
    rewrite forest_keys by done. apply map_range_NoDup_keys. }
  assert (∀ (S : GoSort) (R : GoRange) t, t ∈ forest_All (H := S) (H0 := R) f
            ↔ forest_Get f (mt_VertexID t) = Some t) as Hel.
  { intros S R t. rewrite forest_All_elem. split; [| by eexists].
    intros [v Hv]. by rewrite (Hf v t Hv). }
  split_and!; [| apply sort_slice_sorted | apply Hnd | apply Hel |].
  - apply (key_sorted_unique mt_VertexID).
    + intros x y Hx Hy. by apply (NoDup_key_inj _ _ (Hnd S1 R1)).
    + apply sort_slice_sorted.
    + apply sort_slice_sorted.
    + apply NoDup_Permutation; [by eapply NoDup_fmap_1, Hnd .. |].
      intros t. by rewrite !Hel.
  - unfold forest_All, forest_Len. by rewrite sort_slice_length, length_fmap, map_range_length.
Qed.

(** ** Witnesses *)

Definition sample_result (path hash : string) (cached : bool) : HashResult :=
  {| res_VertexID := "sha256:00"; res_RelPath := path; res_Hash := hash;
     res_OwnerLayerID := "sha256:aa"; res_FromCache := cached; res_Err := None |}.

Lemma finalize_root_deterministic_witness :
  mt_Root (builder_Finalize (builder_run "v1" ["l1"]
    [sample_result "usr/lib/a.so" "sha256:01" false; sample_result "etc//hosts" "sha256:02" false]) 1)
  = mt_Root (builder_Finalize (builder_run "v2" ["l1"; "l2"]
    [sample_result "etc/hosts" "sha256:02" true; sample_result "usr/lib/a.so" "sha256:01" false;
     sample_result "etc/./hosts" "sha256:02" true]) 2).
Proof.
  apply finalize_root_deterministic.
  - apply (bool_decide_eq_true_1 _). vm_compute. reflexivity.
  - intros x.
    assert (files_of [sample_result "usr/lib/a.so" "sha256:01" false;
                      sample_result "etc//hosts" "sha256:02" false]
            = [(["usr"; "lib"; "a.so"], str_bytes "sha256:01"); (["etc"; "hosts"], str_bytes "sha256:02")])
      as -> by (vm_compute; reflexivity).
    assert (files_of [sample_result "etc/hosts" "sha256:02" true;
                      sample_result "usr/lib/a.so" "sha256:01" false;
                      sample_result "etc/./hosts" "sha256:02" true]
            = [(["etc"; "hosts"], str_bytes "sha256:02"); (["usr"; "lib"; "a.so"], str_bytes "sha256:01");
               (["etc"; "hosts"], str_bytes "sha256:02")])
      as -> by (vm_compute; reflexivity).
    rewrite !elem_of_cons. tauto.
Defined.

Lemma finalize_root_binds_hashes_witness :
  let rs := [sample_result "etc/hosts" "sha256:02" false; sample_result "usr/lib/a.so" "sha256:01" false] in
  res_Hash <$> rs = res_Hash <$> rs
  ∨ collision_between hash_fn (hashed (node_insert_all (files_of rs) NewRoot))
      (hashed (node_insert_all (files_of rs) NewRoot)).
Proof.
  intros rs. apply (finalize_root_binds_hashes "v1" "v2" ["l1"] ["l2"] rs rs 1 2).
  - repeat constructor; done.
  - repeat constructor; done.
  - repeat constructor; done.
  - apply (bool_decide_eq_true_1 _). vm_compute. reflexivity.
  - apply (bool_decide_eq_true_1 _). vm_compute. reflexivity.
  - repeat constructor; vm_compute; done.
  - vm_compute. reflexivity.
Defined.

Lemma finalize_root_ignores_names_witness :
  mt_Root (builder_Finalize (builder_run "v1" ["l1"] [sample_result "passwd" "sha256:01" false]) 1)
  = mt_Root (builder_Finalize (builder_run "v2" ["l1"] [sample_result "shadow" "sha256:01" false]) 2)
  ∧ mt_Root (builder_Finalize (builder_run "v1" ["l1"] [sample_result "passwd" "sha256:01" false]) 1)
    ≠ EmptyString.
Proof.
  split; [| vm_compute; discriminate].
  apply (finalize_root_ignores_names _ _ _ _ _ _ "passwd" "shadow");
    [by split | by split | done | vm_compute; reflexivity | vm_compute; reflexivity].
Defined.

Definition sample_tree (v : VertexID) (leaves : list MerkleLeaf) (root : string) : MerkleTree :=
  {| mt_VertexID := v; mt_LayerStack := ["sha256:aa"]; mt_Root := root; mt_RootNode := None;
     mt_Leaves := leaves; mt_LeafCount := length leaves; mt_CacheHitCount := 0;
     mt_FinalizedAt := 0 |}.

Definition sample_forest : MerkleForest :=
  forest_Add (forest_Add NewMerkleForest (sample_tree "v2" [] "r2")) (sample_tree "v1" [] "r1").

Lemma sample_forest_wf : forest_wf sample_forest.
Proof.
  apply forest_Add_wf, forest_Add_wf. intros v t Hv. by vm_compute in Hv.
Qed.

Lemma forest_All_spec_witness :
  mt_VertexID <$> forest_All sample_forest = ["v1"; "v2"]
  ∧ forest_All sample_forest = forest_All (H0 := goRange_rev) sample_forest.
Proof.
  split; [vm_compute; reflexivity |].
  exact (proj1 (forest_All_spec goSort_merge goSort_merge goRange_list goRange_rev _ sample_forest_wf)).
Defined.
