(* ===== verification/LmCache.v ===== *)
(** * LmCache: [pkg/layermerkle/cache.go]

    The hash caches.  A shard is a Go map from keys to elements of a [container/list]; an
    element is named by an id, as a pointer would, so that the map and the list can disagree
    and the invariant [shard_wf] says that they do not.  [HashCache] is the interface the
    rest of the package uses and [HashCacheLaws] what it relies on.  Counters are unbounded,
    and the clock is an argument of the operations that read it. *)
From S2P Require Import Prelude GoStd LmLayer.

Record CacheStats := {
  cs_Hits : Z; cs_Misses : Z; cs_Evictions : Z; cs_Capacity : Z; cs_Used : Z;
}.

Record cacheKey := { ck_layerID : LayerID; ck_relPath : string }.

#[export] Instance cacheKey_eq_dec : EqDecision cacheKey.
Proof. solve_decision. Defined.

#[export] Instance cacheKey_countable : Countable cacheKey.
Proof.
  by apply (inj_countable' (λ k, (ck_layerID k, ck_relPath k))
    (λ p, {| ck_layerID := p.1; ck_relPath := p.2 |})); intros [].
Defined.

Record cacheEntry := { ce_key : cacheKey; ce_hash : FileHash; ce_createdAt : Z }.

(** ** The interface *)

(** The interface [HashCache]: [Get] and [Set] may read the clock [now]. *)
Class HashCache (C : Type) := {
  hc_Get : Z → LayerID → string → C → option FileHash * C;
  hc_Set : Z → LayerID → string → FileHash → C → C;
  hc_Delete : LayerID → string → C → C;
  hc_DeleteLayer : LayerID → C → C;
  hc_Len : C → Z;
  hc_Stats : C → CacheStats;
}.

(** What a cache promises: it may forget, but it only returns what was last set.
    [hc_view] is what it could return. *)
Class HashCacheLaws (C : Type) `{HashCache C} := {
  hc_inv : C → Prop;
  hc_view : C → cacheKey → option FileHash;
  hc_Get_inv now l p c : hc_inv c → hc_inv (hc_Get now l p c).2;
  hc_Get_sound now l p c h : hc_inv c → (hc_Get now l p c).1 = Some h →
    hc_view c {| ck_layerID := l; ck_relPath := p |} = Some h;
  hc_Get_view now l p c k h : hc_inv c → hc_view (hc_Get now l p c).2 k = Some h →
    hc_view c k = Some h;
  hc_Set_inv now l p h c : hc_inv c → hc_inv (hc_Set now l p h c);
  hc_Set_view now l p h c k h' : hc_inv c → hc_view (hc_Set now l p h c) k = Some h' →
    (k = {| ck_layerID := l; ck_relPath := p |} ∧ h' = h) ∨
    (k ≠ {| ck_layerID := l; ck_relPath := p |} ∧ hc_view c k = Some h');
  hc_Delete_inv l p c : hc_inv c → hc_inv (hc_Delete l p c);
  hc_Delete_view l p c k h : hc_inv c → hc_view (hc_Delete l p c) k = Some h →
    k ≠ {| ck_layerID := l; ck_relPath := p |} ∧ hc_view c k = Some h;
  hc_DeleteLayer_inv l c : hc_inv c → hc_inv (hc_DeleteLayer l c);
  hc_DeleteLayer_view l c k h : hc_inv c → hc_view (hc_DeleteLayer l c) k = Some h →
    ck_layerID k ≠ l ∧ hc_view c k = Some h;
}.

(** ** container/list *)

(** The elements from front to back, each with its identity, and the next fresh identity. *)
Record lru_list := { ll_elems : list (nat * cacheEntry); ll_next : nat }.

Definition ll_New : lru_list := {| ll_elems := []; ll_next := 0 |}.

Definition ll_Len (l : lru_list) : nat := length (ll_elems l).

Definition ll_Value (el : nat) (l : lru_list) : option cacheEntry :=
  (λ r, r.2.2) <$> list_find (λ x, x.1 = el) (ll_elems l).

Definition ll_Remove (el : nat) (l : lru_list) : lru_list :=
  {| ll_elems := filter (λ x, x.1 ≠ el) (ll_elems l); ll_next := ll_next l |}.

Definition ll_MoveToFront (el : nat) (l : lru_list) : lru_list :=
  match ll_Value el l with
  | None => l
  | Some e => {| ll_elems := (el, e) :: ll_elems (ll_Remove el l); ll_next := ll_next l |}
  end.

Definition ll_PushFront (e : cacheEntry) (l : lru_list) : nat * lru_list :=
  (ll_next l, {| ll_elems := (ll_next l, e) :: ll_elems l; ll_next := S (ll_next l) |}).

Definition ll_Back (l : lru_list) : option (nat * cacheEntry) := last (ll_elems l).

(** The assignment to the [hash] field of the entry of [el] *)
Definition ll_set_hash (el : nat) (h : FileHash) (l : lru_list) : lru_list :=
  {| ll_elems := (λ x, if decide (x.1 = el)
       then (x.1, {| ce_key := ce_key x.2; ce_hash := h; ce_createdAt := ce_createdAt x.2 |})
       else x) <$> ll_elems l;
     ll_next := ll_next l |}.

(** ** cacheShard *)

Record cacheShard := {
  sh_entries : gmap cacheKey nat;
  sh_lru : lru_list;
  sh_cap : Z;
  sh_evicted : Z;
}.

Definition sh_update (s : cacheShard) (m : gmap cacheKey nat) (l : lru_list) : cacheShard :=
  {| sh_entries := m; sh_lru := l; sh_cap := sh_cap s; sh_evicted := sh_evicted s |}.

(** [cacheShard.get] *)
Definition shard_get (k : cacheKey) (s : cacheShard) : option FileHash * cacheShard :=
  match sh_entries s !! k with
  | None => (None, s)
  | Some el =>
      let lru := ll_MoveToFront el (sh_lru s) in
      (ce_hash <$> ll_Value el lru, sh_update s (sh_entries s) lru)
  end.

(** [cacheShard.evictOldest] *)
Definition shard_evictOldest (s : cacheShard) : cacheShard :=
  match ll_Back (sh_lru s) with
  | None => s
  | Some (el, entry) =>
      {| sh_entries := delete (ce_key entry) (sh_entries s);
         sh_lru := ll_Remove el (sh_lru s);
         sh_cap := sh_cap s; sh_evicted := sh_evicted s + 1 |}
  end.

(** [cacheShard.set] *)
Definition shard_set (now : Z) (k : cacheKey) (h : FileHash) (s : cacheShard) : cacheShard :=
  match sh_entries s !! k with
  | Some el => sh_update s (sh_entries s) (ll_set_hash el h (ll_MoveToFront el (sh_lru s)))
  | None =>
      let s := if decide (sh_cap s ≤ Z.of_nat (ll_Len (sh_lru s)))%Z then shard_evictOldest s else s in
      let entry := {| ce_key := k; ce_hash := h; ce_createdAt := now |} in
      let '(el, lru) := ll_PushFront entry (sh_lru s) in
      sh_update s (<[k := el]> (sh_entries s)) lru
  end.

(** [cacheShard.delete] *)
Definition shard_delete (k : cacheKey) (s : cacheShard) : cacheShard :=
  match sh_entries s !! k with
  | None => s
  | Some el => sh_update s (delete k (sh_entries s)) (ll_Remove el (sh_lru s))
  end.

(** The body of the loop of [DeleteLayer] over the shards. *)
Definition shard_DeleteLayer `{GoRange} (layerID : LayerID) (s : cacheShard) : cacheShard :=
  foldl (λ s '(k, el), if decide (ck_layerID k = layerID)
           then sh_update s (delete k (sh_entries s)) (ll_Remove el (sh_lru s)) else s)
    s (map_range (sh_entries s)).

(** ** shardedLRUCache *)

Record shardedLRUCache := {
  slc_shards : list cacheShard;
  slc_capacity : Z;
  slc_hits : Z;
  slc_misses : Z;
}.

Definition NewShardedLRUCache (totalCapacity : Z) : shardedLRUCache :=
  let perShard := Z.quot totalCapacity 256 in
  let perShard := if decide (perShard < 1)%Z then 1%Z else perShard in
  {| slc_shards := replicate 256
       {| sh_entries := ∅; sh_lru := ll_New; sh_cap := perShard; sh_evicted := 0 |};
     slc_capacity := perShard; slc_hits := 0; slc_misses := 0 |}.

Definition fnv32 (s : string) : N :=
  foldl (fnv_step u32 16777619) 2166136261%N (str_bytes s).

(** [shardedLRUCache.shard]: the index of the owning shard *)
Definition slc_shard (k : cacheKey) : nat :=
  let h := fnv32 (ck_layerID k +:+ char_str go_nul +:+ ck_relPath k) in
  N.to_nat (N.land h 0xff).

Definition slc_update (c : shardedLRUCache) (i : nat) (s : cacheShard) : shardedLRUCache :=
  {| slc_shards := <[i := s]> (slc_shards c); slc_capacity := slc_capacity c;
     slc_hits := slc_hits c; slc_misses := slc_misses c |}.

(** The index is below 256 and there are 256 shards: the lookup does not fail. *)
Definition slc_at (c : shardedLRUCache) (i : nat) : cacheShard :=
  default {| sh_entries := ∅; sh_lru := ll_New; sh_cap := 0; sh_evicted := 0 |} (slc_shards c !! i).

Definition slc_Get (layerID : LayerID) (relPath : string) (c : shardedLRUCache)
    : option FileHash * shardedLRUCache :=
  let k := {| ck_layerID := layerID; ck_relPath := relPath |} in
  let '(r, s) := shard_get k (slc_at c (slc_shard k)) in
  let c := slc_update c (slc_shard k) s in
  (r, {| slc_shards := slc_shards c; slc_capacity := slc_capacity c;
         slc_hits := if r is Some _ then slc_hits c + 1 else slc_hits c;
         slc_misses := if r is Some _ then slc_misses c else slc_misses c + 1 |}).

Definition slc_Set (now : Z) (layerID : LayerID) (relPath : string) (h : FileHash)
    (c : shardedLRUCache) : shardedLRUCache :=
  let k := {| ck_layerID := layerID; ck_relPath := relPath |} in
  slc_update c (slc_shard k) (shard_set now k h (slc_at c (slc_shard k))).

Definition slc_Delete (layerID : LayerID) (relPath : string) (c : shardedLRUCache)
    : shardedLRUCache :=
  let k := {| ck_layerID := layerID; ck_relPath := relPath |} in
  slc_update c (slc_shard k) (shard_delete k (slc_at c (slc_shard k))).

Definition slc_DeleteLayer `{GoRange} (layerID : LayerID) (c : shardedLRUCache) : shardedLRUCache :=
  {| slc_shards := shard_DeleteLayer layerID <$> slc_shards c; slc_capacity := slc_capacity c;
     slc_hits := slc_hits c; slc_misses := slc_misses c |}.

Definition slc_Len (c : shardedLRUCache) : Z :=
  foldl (λ total s, total + Z.of_nat (ll_Len (sh_lru s)))%Z 0%Z (slc_shards c).

Definition slc_Stats (c : shardedLRUCache) : CacheStats :=
  {| cs_Hits := slc_hits c; cs_Misses := slc_misses c;
     cs_Evictions := foldl (λ n s, n + sh_evicted s)%Z 0%Z (slc_shards c);
     cs_Capacity := slc_capacity c * 256; cs_Used := slc_Len c |}.

#[export] Instance shardedLRU_cache `{GoRange} : HashCache shardedLRUCache := {|
  hc_Get _ l p c := slc_Get l p c; hc_Set := slc_Set; hc_Delete := slc_Delete;
  hc_DeleteLayer := slc_DeleteLayer; hc_Len := slc_Len; hc_Stats := slc_Stats |}.

(** ** NoopHashCache *)

Inductive NoopHashCache := mkNoop.

#[export] Instance noop_cache : HashCache NoopHashCache := {|
  hc_Get _ _ _ c := (None, c); hc_Set _ _ _ _ c := c; hc_Delete _ _ c := c;
  hc_DeleteLayer _ c := c; hc_Len _ := 0%Z;
  hc_Stats _ := {| cs_Hits := 0; cs_Misses := 0; cs_Evictions := 0; cs_Capacity := 0; cs_Used := 0 |}
|}.

(** ** InstrumentedHashCache *)

Section instrumented.
Context {C W : Type} `{HashCache C}.

(** The hooks, nil when absent, act on the state [W] of their closures. *)
Record InstrumentedHashCache := {
  ic_inner : C;
  ic_onHit : option (LayerID → string → W → W);
  ic_onMiss : option (LayerID → string → W → W);
  ic_onSet : option (LayerID → string → FileHash → W → W);
  ic_world : W;
}.

Definition ic_with (c : InstrumentedHashCache) (inner : C) (w : W) : InstrumentedHashCache :=
  {| ic_inner := inner; ic_onHit := ic_onHit c; ic_onMiss := ic_onMiss c;
     ic_onSet := ic_onSet c; ic_world := w |}.

Definition ic_Get (now : Z) (l : LayerID) (p : string) (c : InstrumentedHashCache)
    : option FileHash * InstrumentedHashCache :=
  let '(r, inner) := hc_Get now l p (ic_inner c) in
  let hook := if r is Some _ then ic_onHit c else ic_onMiss c in
  (r, ic_with c inner (match hook with Some f => f l p (ic_world c) | None => ic_world c end)).

Definition ic_Set (now : Z) (l : LayerID) (p : string) (h : FileHash)
    (c : InstrumentedHashCache) : InstrumentedHashCache :=
  ic_with c (hc_Set now l p h (ic_inner c))
    (match ic_onSet c with Some f => f l p h (ic_world c) | None => ic_world c end).

#[export] Instance instrumented_cache : HashCache InstrumentedHashCache := {|
  hc_Get := ic_Get; hc_Set := ic_Set;
  hc_Delete l p c := ic_with c (hc_Delete l p (ic_inner c)) (ic_world c);
  hc_DeleteLayer l c := ic_with c (hc_DeleteLayer l (ic_inner c)) (ic_world c);
  hc_Len c := hc_Len (ic_inner c); hc_Stats c := hc_Stats (ic_inner c) |}.
End instrumented.
Arguments InstrumentedHashCache : clear implicits.

(** ** TTLHashCache *)

Section ttl.
Context {C : Type} `{HashCache C}.

Record TTLHashCache := { tc_inner : C; tc_ttl : Z; tc_times : gmap string Z }.

Definition NewTTLHashCache (inner : C) (ttl : Z) : TTLHashCache :=
  {| tc_inner := inner; tc_ttl := ttl; tc_times := ∅ |}.

Definition tc_with (c : TTLHashCache) (inner : C) (times : gmap string Z) : TTLHashCache :=
  {| tc_inner := inner; tc_ttl := tc_ttl c; tc_times := times |}.

(** [fmt.Sprintf("%s\x00%s", layerID, relPath)] *)
Definition tc_key (l : LayerID) (p : string) : string := l +:+ char_str go_nul +:+ p.

Definition tc_Get (now : Z) (l : LayerID) (p : string) (c : TTLHashCache)
    : option FileHash * TTLHashCache :=
  let k := tc_key l p in
  let stale := match tc_times c !! k with Some t => bool_decide (tc_ttl c < now - t)%Z | None => false end in
  if stale then (None, tc_with c (hc_Delete l p (tc_inner c)) (delete k (tc_times c)))
  else let '(r, inner) := hc_Get now l p (tc_inner c) in (r, tc_with c inner (tc_times c)).

Definition tc_Set (now : Z) (l : LayerID) (p : string) (h : FileHash) (c : TTLHashCache)
    : TTLHashCache :=
  tc_with c (hc_Set now l p h (tc_inner c)) (<[tc_key l p := now]> (tc_times c)).

#[export] Instance ttl_cache : HashCache TTLHashCache := {|
  hc_Get := tc_Get; hc_Set := tc_Set;
  hc_Delete l p c := tc_with c (hc_Delete l p (tc_inner c)) (tc_times c);
  hc_DeleteLayer l c := tc_with c (hc_DeleteLayer l (tc_inner c)) (tc_times c);
  hc_Len c := hc_Len (tc_inner c); hc_Stats c := hc_Stats (tc_inner c) |}.
End ttl.
Arguments TTLHashCache : clear implicits.

(** ** The reference: a list of keys and hashes, most recently used first *)

Abbreviation lru_ref := (list (cacheKey * FileHash)).

Definition ref_lookup (k : cacheKey) (r : lru_ref) : option FileHash :=
  (λ x, x.2.2) <$> list_find (λ x, x.1 = k) r.

Definition ref_delete (k : cacheKey) (r : lru_ref) : lru_ref := filter (λ x, x.1 ≠ k) r.

Definition ref_get (k : cacheKey) (r : lru_ref) : option FileHash * lru_ref :=
  match ref_lookup k r with
  | None => (None, r)
  | Some h => (Some h, (k, h) :: ref_delete k r)
  end.

(** The last entry makes room when the list is full and the key is new. *)
Definition ref_set (cap : Z) (k : cacheKey) (h : FileHash) (r : lru_ref) : lru_ref :=
  match ref_lookup k r with
  | Some _ => (k, h) :: ref_delete k r
  | None => (k, h) :: (if decide (cap ≤ Z.of_nat (length r))%Z then take (pred (length r)) r else r)
  end.

Definition ref_DeleteLayer (l : LayerID) (r : lru_ref) : lru_ref :=
  filter (λ x, ck_layerID x.1 ≠ l) r.

Definition entry_kv (e : cacheEntry) : cacheKey * FileHash := (ce_key e, ce_hash e).

Definition shard_abs (s : cacheShard) : lru_ref := (λ x, entry_kv x.2) <$> ll_elems (sh_lru s).

(** ** The invariant of a shard *)

Definition shard_ids (s : cacheShard) : list (nat * cacheKey) :=
  (λ x, (x.1, ce_key x.2)) <$> ll_elems (sh_lru s).

(** The map holds exactly the elements of the list, under their keys. *)
Record shard_wf (s : cacheShard) : Prop := {
  wf_ids : NoDup (shard_ids s).*1;
  wf_keys : NoDup (shard_ids s).*2;
  wf_map : ∀ k i, sh_entries s !! k = Some i ↔ (i, k) ∈ shard_ids s;
  wf_next : ∀ i k, (i, k) ∈ shard_ids s → i < ll_next (sh_lru s);
}.

Definition shard_bounded (s : cacheShard) : Prop :=
  (1 ≤ sh_cap s)%Z ∧ (Z.of_nat (ll_Len (sh_lru s)) ≤ sh_cap s)%Z.

(** ** Lists searched and filtered by a key *)

Lemma list_find_key {A B} `{EqDecision B} (f : A → B) (l : list A) (x : A) :
  NoDup (f <$> l) → x ∈ l → (λ r, r.2) <$> list_find (λ y, f y = f x) l = Some x.
Proof.
  intros Hnd Hx. destruct (list_find_elem_of (λ y, f y = f x) l x Hx eq_refl) as [[j y] Hy].
  rewrite Hy. csimpl. apply list_find_Some in Hy as (Hy & Hk & _). f_equal.
  apply (NoDup_key_inj f l Hnd); [by eapply list_elem_of_lookup_2 | done | done].
Qed.

Lemma filter_fmap_comm {A B} (f : A → B) (P : A → Prop) (Q : B → Prop)
    `{∀ x, Decision (P x), ∀ y, Decision (Q y)} (l : list A) :
  (∀ x, x ∈ l → (P x ↔ Q (f x))) → f <$> filter P l = filter Q (f <$> l).
Proof.
  induction l as [|x l IH]; intros HPQ; [done |].
  rewrite fmap_cons, !filter_cons.
  assert (f <$> filter P l = filter Q (f <$> l)) as E by (apply IH; intros; apply HPQ; by right).
  destruct (decide (P x)) as [HP|HP], (decide (Q (f x))) as [HQ|HQ];
    [by rewrite fmap_cons, E | | | done];
    exfalso; rewrite (HPQ x) in HP by (by left); done.
Qed.

Lemma filter_last {A B} `{EqDecision B} (f : A → B) (l : list A) (x : A) :
  NoDup (f <$> l) → last l = Some x → filter (λ y, f y ≠ f x) l = take (pred (length l)) l.
Proof.
  intros Hnd [l' ->]%last_Some. rewrite fmap_app, NoDup_app in Hnd. destruct Hnd as (_ & Hnd & _).
  rewrite filter_app, filter_cons, decide_False, filter_nil, app_nil_r by naive_solver.
  rewrite length_app, Nat.add_1_r, Nat.pred_succ, take_app_length.
  apply filter_all, Forall_forall. intros y Hy Heq. apply (Hnd (f y)); [by apply list_elem_of_fmap_2 |].
  rewrite Heq. by left.
Qed.

(** ** The invariant through the list operations *)

Lemma elem_ids (s : cacheShard) i e : (i, e) ∈ ll_elems (sh_lru s) → (i, ce_key e) ∈ shard_ids s.
Proof. intros H. apply list_elem_of_fmap. by exists (i, e). Qed.

Lemma shard_ids_fst s : (shard_ids s).*1 = (ll_elems (sh_lru s)).*1.
Proof. unfold shard_ids. by rewrite <- list_fmap_compose. Qed.

Lemma shard_abs_fst s : (shard_abs s).*1 = (shard_ids s).*2.
Proof. unfold shard_ids, shard_abs. by rewrite <- !list_fmap_compose. Qed.

Lemma ll_Value_elem s i e :
  shard_wf s → (i, e) ∈ ll_elems (sh_lru s) → ll_Value i (sh_lru s) = Some e.
Proof.
  intros Hwf He. pose proof (wf_ids _ Hwf) as Hnd. rewrite shard_ids_fst in Hnd.
  pose proof (list_find_key fst _ _ Hnd He) as Hf. unfold ll_Value. csimpl in *.
  by destruct (list_find _ _) as [[? []]|]; simplify_eq/=.
Qed.

Lemma ref_lookup_elem k h (r : lru_ref) :
  NoDup r.*1 → ref_lookup k r = Some h ↔ (k, h) ∈ r.
Proof.
  intros Hnd. unfold ref_lookup. split.
  - destruct (list_find _ _) as [[j [k' h']]|] eqn:Hf; [| done]. intros [= <-].
    apply list_find_Some in Hf as (Hj & Hk & _). simpl in Hk. subst.
    by eapply list_elem_of_lookup_2.
  - intros He. pose proof (list_find_key fst _ _ Hnd He) as Hf. csimpl in *.
    by destruct (list_find _ _) as [[? []]|]; simplify_eq/=.
Qed.

(** The map answers as a search in the list of recent keys does. *)
Lemma shard_lookup s k :
  shard_wf s →
  match sh_entries s !! k with
  | Some i => ∃ e, (i, e) ∈ ll_elems (sh_lru s) ∧ ce_key e = k ∧
                   ref_lookup k (shard_abs s) = Some (ce_hash e)
  | None => ref_lookup k (shard_abs s) = None
  end.
Proof.
  intros Hwf. assert (NoDup (shard_abs s).*1) as Hnd.
  { rewrite shard_abs_fst. apply (wf_keys _ Hwf). }
  destruct (sh_entries s !! k) as [i|] eqn:Hk.
  - apply (wf_map _ Hwf), list_elem_of_fmap in Hk as ([j e] & [= -> ->] & He).
    exists e. split_and!; [done | done |]. apply ref_lookup_elem; [done |].
    apply list_elem_of_fmap. by exists (j, e).
  - destruct (ref_lookup k (shard_abs s)) as [h|] eqn:Hr; [| done].
    apply ref_lookup_elem, list_elem_of_fmap in Hr as ([i e] & [= -> ->] & He); [| done].
    apply elem_ids, (wf_map _ Hwf) in He. congruence.
Qed.

Lemma id_iff_key s k i x :
  shard_wf s → sh_entries s !! k = Some i → x ∈ ll_elems (sh_lru s) →
  x.1 = i ↔ ce_key x.2 = k.
Proof.
  intros Hwf Hk Hx. destruct x as [j e]. simpl. apply elem_ids, (wf_map _ Hwf) in Hx.
  split; [intros -> | intros <-; congruence].
  apply (wf_map _ Hwf) in Hk, Hx.
  pose proof (NoDup_key_inj fst _ (wf_ids _ Hwf) _ _ Hk Hx eq_refl). congruence.
Qed.

(** Removing the element of a key is the same, seen from the map and from the list. *)
Lemma remove_abs s k i :
  shard_wf s → sh_entries s !! k = Some i →
  (λ x, entry_kv x.2) <$> ll_elems (ll_Remove i (sh_lru s)) = ref_delete k (shard_abs s).
Proof.
  intros Hwf Hk. apply filter_fmap_comm. intros x Hx. by rewrite (id_iff_key s k i).
Qed.

Lemma remove_wf s k i ev :
  shard_wf s → sh_entries s !! k = Some i →
  shard_wf {| sh_entries := delete k (sh_entries s); sh_lru := ll_Remove i (sh_lru s);
              sh_cap := sh_cap s; sh_evicted := ev |}.
Proof.
  intros Hwf Hk.
  assert ((λ x, (x.1, ce_key x.2)) <$> ll_elems (ll_Remove i (sh_lru s))
          = filter (λ x, x.2 ≠ k) (shard_ids s)) as E.
  { apply filter_fmap_comm. intros x Hx. by rewrite (id_iff_key s k i). }
  split; unfold shard_ids; cbn [sh_entries sh_lru]; rewrite ?E; cbn [ll_Remove ll_next].
  - eapply sublist_NoDup; [apply (wf_ids _ Hwf) | apply fmap_sublist, sublist_filter].
  - eapply sublist_NoDup; [apply (wf_keys _ Hwf) | apply fmap_sublist, sublist_filter].
  - intros k' i'. rewrite lookup_delete_Some, list_elem_of_filter, (wf_map _ Hwf). naive_solver.
  - intros i' k' [_ He]%list_elem_of_filter. by eapply wf_next.
Qed.

Lemma perm_wf s lru :
  shard_wf s →
  (λ x, (x.1, ce_key x.2)) <$> ll_elems lru ≡ₚ shard_ids s → ll_next lru = ll_next (sh_lru s) →
  shard_wf (sh_update s (sh_entries s) lru).
Proof.
  intros Hwf Hp Hn. split; unfold shard_ids; simpl; setoid_rewrite Hp; rewrite ?Hn; apply Hwf.
Qed.

Lemma push_wf s k h now :
  shard_wf s → sh_entries s !! k = None →
  let e := {| ce_key := k; ce_hash := h; ce_createdAt := now |} in
  shard_wf (sh_update s (<[k := ll_next (sh_lru s)]> (sh_entries s)) (ll_PushFront e (sh_lru s)).2).
Proof.
  intros Hwf Hk e.
  assert (∀ i, (i, k) ∉ shard_ids s) as Hnk.
  { intros i Hi. apply (wf_map _ Hwf) in Hi. congruence. }
  assert (∀ k, (ll_next (sh_lru s), k) ∉ shard_ids s) as Hni.
  { intros k' Hi. apply (wf_next _ Hwf) in Hi. lia. }
  assert (shard_ids (sh_update s (<[k := ll_next (sh_lru s)]> (sh_entries s))
    (ll_PushFront e (sh_lru s)).2) = (ll_next (sh_lru s), k) :: shard_ids s) as E by done.
  split; rewrite ?E, ?fmap_cons; cbn [fst snd sh_update sh_entries sh_lru ll_PushFront ll_next].
  - apply NoDup_cons. split; [| apply (wf_ids _ Hwf)].
    intros ([i k'] & Heq & Hi)%list_elem_of_fmap. simplify_eq/=. by apply (Hni k').
  - apply NoDup_cons. split; [| apply (wf_keys _ Hwf)].
    intros ([i k'] & Heq & Hi)%list_elem_of_fmap. simplify_eq/=. by apply (Hnk i).
  - intros k' i. rewrite lookup_insert_Some, elem_of_cons, (wf_map _ Hwf). split.
    + intros [[-> ->]|[Hne Hi]]; [by left | by right].
    + intros [[= -> ->]|Hi]; [by left |]. right. split; [| done]. intros ->. by apply (Hnk i).
  - intros i k' [[= -> ->]|Hi]%elem_of_cons; [lia |]. apply (wf_next _ Hwf) in Hi. lia.
Qed.

Lemma ids_set_hash el h l :
  (λ x, (x.1, ce_key x.2)) <$> ll_elems (ll_set_hash el h l)
  = (λ x, (x.1, ce_key x.2)) <$> ll_elems l.
Proof.
  simpl. rewrite <- list_fmap_compose. apply list_fmap_ext. intros _ [i e] _. simpl.
  by case_decide.
Qed.

Lemma filter_NoDup_perm {A B} `{EqDecision B} (f : A → B) (l : list A) (x : A) :
  NoDup (f <$> l) → x ∈ l → x :: filter (λ y, f y ≠ f x) l ≡ₚ l.
Proof.
  intros Hnd (l1 & l2 & ->)%list_elem_of_split. rewrite fmap_app, fmap_cons in Hnd.
  apply NoDup_app in Hnd as (_ & Hd & Hnd). apply NoDup_cons in Hnd as [Hn _].
  rewrite filter_app, filter_cons, decide_False by naive_solver.
  rewrite !filter_all, Permutation_middle; [done | |]; apply Forall_forall; intros y Hy Heq.
  - apply Hn. rewrite <- Heq. by apply list_elem_of_fmap_2.
  - apply (Hd (f y)); [by apply list_elem_of_fmap_2 |]. rewrite Heq. by left.
Qed.

Lemma MoveToFront_eq s k i e :
  shard_wf s → sh_entries s !! k = Some i → (i, e) ∈ ll_elems (sh_lru s) →
  ll_elems (ll_MoveToFront i (sh_lru s)) = (i, e) :: ll_elems (ll_Remove i (sh_lru s))
  ∧ ll_next (ll_MoveToFront i (sh_lru s)) = ll_next (sh_lru s)
  ∧ ll_elems (ll_MoveToFront i (sh_lru s)) ≡ₚ ll_elems (sh_lru s).
Proof.
  intros Hwf Hk He. unfold ll_MoveToFront. rewrite (ll_Value_elem s i e) by done.
  split_and!; [done | done |]. apply (filter_NoDup_perm fst _ (i, e)); [| done].
  rewrite <- shard_ids_fst. apply (wf_ids _ Hwf).
Qed.

(** ** The operations of a shard against the reference *)

Lemma shard_get_ref s k :
  shard_wf s →
  shard_wf (shard_get k s).2 ∧
  (ref_get k (shard_abs s)) = ((shard_get k s).1, shard_abs (shard_get k s).2) ∧
  sh_cap (shard_get k s).2 = sh_cap s ∧
  ll_Len (sh_lru (shard_get k s).2) = ll_Len (sh_lru s).
Proof.
  intros Hwf. pose proof (shard_lookup s k Hwf) as Hl. unfold shard_get, ref_get.
  destruct (sh_entries s !! k) as [i|] eqn:Hk; [| by rewrite Hl].
  destruct Hl as (e & He & <- & ->). cbn [fst snd].
  destruct (MoveToFront_eq _ _ _ _ Hwf Hk He) as (Hel & Hn & Hp).
  split_and!; [| | done | by apply Permutation_length].
  - apply perm_wf; [done | by apply fmap_Permutation | done].
  - rewrite <- (remove_abs s (ce_key e) i) by done.
    unfold ll_Value, shard_abs. cbn [sh_lru sh_update]. rewrite Hel. csimpl. by case_decide.
Qed.

Lemma shard_delete_ref s k :
  shard_wf s →
  shard_wf (shard_delete k s) ∧ shard_abs (shard_delete k s) = ref_delete k (shard_abs s) ∧
  sh_cap (shard_delete k s) = sh_cap s ∧
  ll_Len (sh_lru (shard_delete k s)) ≤ ll_Len (sh_lru s).
Proof.
  intros Hwf. pose proof (shard_lookup s k Hwf) as Hl. unfold shard_delete.
  destruct (sh_entries s !! k) as [i|] eqn:Hk.
  - split_and!; [by apply remove_wf | by apply remove_abs | done |].
    apply length_filter.
  - split_and!; [done | | done | done]. symmetry. apply filter_all, Forall_forall.
    intros [k' h] Hk' Heq. simpl in Heq. subst k'. apply ref_lookup_elem in Hk'; [congruence |].
    rewrite shard_abs_fst. apply (wf_keys _ Hwf).
Qed.

Lemma shard_evict_ref s :
  shard_wf s →
  shard_wf (shard_evictOldest s) ∧
  shard_abs (shard_evictOldest s) = take (pred (length (shard_abs s))) (shard_abs s) ∧
  sh_cap (shard_evictOldest s) = sh_cap s ∧
  ll_Len (sh_lru (shard_evictOldest s)) = pred (ll_Len (sh_lru s)) ∧
  (∀ k, sh_entries s !! k = None → sh_entries (shard_evictOldest s) !! k = None).
Proof.
  intros Hwf. unfold shard_evictOldest, ll_Back.
  destruct (last (ll_elems (sh_lru s))) as [[i e]|] eqn:Hl.
  - assert (sh_entries s !! ce_key e = Some i) as Hk.
    { apply (wf_map _ Hwf), elem_ids. apply last_Some in Hl as [l ->]. apply elem_of_app.
      right. by left. }
    assert (NoDup (ll_elems (sh_lru s)).*1) as Hnd.
    { rewrite <- shard_ids_fst. apply (wf_ids _ Hwf). }
    assert (ll_elems (ll_Remove i (sh_lru s))
      = take (pred (length (ll_elems (sh_lru s)))) (ll_elems (sh_lru s))) as E.
    { apply (filter_last fst _ (i, e)); done. }
    split_and!; [by apply remove_wf | | done | |].
    + unfold shard_abs. cbn [sh_lru]. by rewrite E, fmap_take, length_fmap.
    + unfold ll_Len. cbn [sh_lru]. rewrite E, length_take. lia.
    + intros k Hn. apply lookup_delete_None. by right.
  - apply last_None in Hl. unfold shard_abs, ll_Len. by rewrite Hl.
Qed.

Lemma ref_set_update cap s k h i e :
  shard_wf s → sh_entries s !! k = Some i → (i, e) ∈ ll_elems (sh_lru s) → ce_key e = k →
  ref_lookup k (shard_abs s) = Some (ce_hash e) →
  (λ x, entry_kv x.2) <$> ll_elems (ll_set_hash i h (ll_MoveToFront i (sh_lru s)))
  = ref_set cap k h (shard_abs s).
Proof.
  intros Hwf Hk He Hek Hr. unfold ref_set. rewrite Hr, <- (remove_abs s k i) by done.
  destruct (MoveToFront_eq _ _ _ _ Hwf Hk He) as (Hel & _ & _).
  unfold ll_set_hash. rewrite Hel. csimpl. rewrite decide_True by done. f_equal; [by rewrite <- Hek |].
  rewrite <- list_fmap_compose. apply list_fmap_ext. intros j x Hx. simpl.
  rewrite decide_False; [done |].
  apply list_elem_of_lookup_2, list_elem_of_filter in Hx. apply Hx.
Qed.

Lemma shard_abs_length s : length (shard_abs s) = ll_Len (sh_lru s).
Proof. apply length_fmap. Qed.

Lemma shard_set_ref now s k h :
  shard_wf s → shard_bounded s →
  shard_wf (shard_set now k h s) ∧
  shard_abs (shard_set now k h s) = ref_set (sh_cap s) k h (shard_abs s) ∧
  shard_bounded (shard_set now k h s) ∧ sh_cap (shard_set now k h s) = sh_cap s.
Proof.
  intros Hwf [Hc Hb]. pose proof (shard_lookup s k Hwf) as Hl. unfold shard_set.
  destruct (sh_entries s !! k) as [i|] eqn:Hk.
  - destruct Hl as (e & He & Hek & Hr).
    destruct (MoveToFront_eq _ _ _ _ Hwf Hk He) as (_ & Hn & Hp).
    split_and!; [| by eapply ref_set_update | | done].
    + apply perm_wf; [done | | done]. rewrite ids_set_hash. by apply fmap_Permutation.
    + split; [done |]. unfold ll_Len in *. simpl. by rewrite length_fmap, Hp.
  - unfold ref_set. rewrite Hl, shard_abs_length. case_decide as Hfull.
    + destruct (shard_evict_ref s Hwf) as (Hwf' & Ha & Hcap & Hlen & Hno).
      pose proof (push_wf _ k h now Hwf' (Hno k Hk)) as Hpush. simpl in *.
      split_and!; [done | | | done].
      * trans ((k, h) :: shard_abs (shard_evictOldest s)); [done |].
        by rewrite Ha, shard_abs_length.
      * split; simpl; rewrite Hcap; [done |].
        unfold ll_Len in *. simpl. rewrite Hlen. lia.
    + pose proof (push_wf _ k h now Hwf Hk) as Hpush. simpl in *.
      split_and!; [done | done | | done]. split; [done |]. unfold ll_Len in *. simpl. lia.
Qed.

Lemma DeleteLayer_step_ref s k i :
  shard_wf s → sh_entries s !! k = Some i →
  let s' := sh_update s (delete k (sh_entries s)) (ll_Remove i (sh_lru s)) in
  shard_wf s' ∧ shard_abs s' = ref_delete k (shard_abs s) ∧ sh_cap s' = sh_cap s ∧
  ll_Len (sh_lru s') ≤ ll_Len (sh_lru s).
Proof. intros Hwf Hk. split_and!; [by apply remove_wf | by apply remove_abs | done | apply length_filter]. Qed.

Lemma foldl_inv {A B} (f : A → B → A) (P : list B → A → Prop) (l : list B) (a : A) :
  P l a → (∀ x l' a, P (x :: l') a → P l' (f a x)) → P [] (foldl f a l).
Proof. intros Ha Hs. revert a Ha. induction l as [|x l IH]; intros a Ha; simpl; eauto. Qed.

(** One shard of [DeleteLayer], whatever the order in which the map is visited. *)
Lemma shard_DeleteLayer_ref `{GoRange} l s :
  shard_wf s →
  shard_wf (shard_DeleteLayer l s) ∧
  shard_abs (shard_DeleteLayer l s) = ref_DeleteLayer l (shard_abs s) ∧
  sh_cap (shard_DeleteLayer l s) = sh_cap s ∧
  ll_Len (sh_lru (shard_DeleteLayer l s)) ≤ ll_Len (sh_lru s).
Proof.
  intros Hwf. unfold shard_DeleteLayer. set (f := λ (s : cacheShard) '(k, el), _).
  pose (P := λ (todo : list (cacheKey * nat)) s',
    shard_wf s' ∧ ref_DeleteLayer l (shard_abs s') = ref_DeleteLayer l (shard_abs s) ∧
    sh_cap s' = sh_cap s ∧ ll_Len (sh_lru s') ≤ ll_Len (sh_lru s) ∧
    NoDup todo.*1 ∧ (∀ k i, (k, i) ∈ todo → sh_entries s' !! k = Some i) ∧
    (∀ x, x ∈ shard_abs s' → ck_layerID x.1 = l → x.1 ∈ todo.*1)).
  destruct (foldl_inv f P (map_range (sh_entries s)) s) as (Hwf' & Ha & Hcap & Hlen & _ & _ & Hx).
  - split_and!; [done | done | done | done | apply map_range_NoDup_keys | |].
    + intros k i. apply elem_of_map_range.
    + intros x Hx _. apply (list_elem_of_fmap_2 fst) in Hx. rewrite shard_abs_fst in Hx.
      apply list_elem_of_fmap in Hx as ([i k] & Heq & Hi). apply (wf_map _ Hwf) in Hi.
      simplify_eq/=. apply elem_of_map_range in Hi. by apply (list_elem_of_fmap_2 fst) in Hi.
  - intros [k i] todo s' (Hwf' & Ha & Hcap & Hlen & Hnd & Hin & Hx). simpl in Hnd.
    apply NoDup_cons in Hnd as [Hk Hnd].
    assert (sh_entries s' !! k = Some i) as Hki by (apply Hin; by left).
    unfold f. case_decide as Hl.
    + destruct (DeleteLayer_step_ref s' k i Hwf' Hki) as (Hw & Hab & Hcp & Hln).
      split_and!; [done | | by rewrite Hcp | lia | done | |].
      * rewrite Hab, <- Ha. unfold ref_DeleteLayer, ref_delete. rewrite list_filter_filter.
        apply list_filter_iff. intros x. naive_solver.
      * intros k' i' Hk'. simpl. apply lookup_delete_Some. split.
        -- intros <-. apply Hk. by apply (list_elem_of_fmap_2 fst) in Hk'.
        -- apply Hin. by right.
      * intros x Hxa Hxl. rewrite Hab in Hxa. apply list_elem_of_filter in Hxa as [Hne Hxa].
        specialize (Hx x Hxa Hxl). simpl in Hx. by apply elem_of_cons in Hx as [?|?].
    + split_and!; [done | done | done | done | done | |].
      * intros k' i' Hk'. apply Hin. by right.
      * intros x Hxa Hxl. specialize (Hx x Hxa Hxl). simpl in Hx.
        apply elem_of_cons in Hx as [Heq|?]; [by rewrite Heq in Hxl | done].
  - split_and!; [done | | done | done]. rewrite <- Ha. symmetry. apply filter_all, Forall_forall.
    intros x Hxa Hxl. specialize (Hx x Hxa Hxl). by apply elem_of_nil in Hx.
Qed.

(** ** The sharded cache *)

(** Every shard is well formed and within its capacity, and holds only keys it owns. *)
Record slc_wf (c : shardedLRUCache) : Prop := {
  slc_wf_count : length (slc_shards c) = 256;
  slc_wf_shard : ∀ i s, slc_shards c !! i = Some s →
    shard_wf s ∧ shard_bounded s ∧ sh_cap s = slc_capacity c ∧
    ∀ k, k ∈ (shard_abs s).*1 → slc_shard k = i;
}.

(** The recent keys of shard [i], and what the cache holds under [k]. *)
Definition slc_ref (c : shardedLRUCache) (i : nat) : lru_ref := shard_abs (slc_at c i).

Definition slc_view (c : shardedLRUCache) (k : cacheKey) : option FileHash :=
  ref_lookup k (slc_ref c (slc_shard k)).

Lemma slc_shard_lt k : slc_shard k < 256.
Proof.
  unfold slc_shard. set (h := fnv32 _). change 0xff%N with (N.ones 8). rewrite N.land_ones.
  assert (h mod 2 ^ 8 < 2 ^ 8)%N by (apply N.mod_lt; lia). change (2 ^ 8)%N with 256%N in *. lia.
Qed.

Lemma slc_at_lookup c i : slc_wf c → i < 256 → slc_shards c !! i = Some (slc_at c i).
Proof.
  intros Hwf Hi. rewrite <- (slc_wf_count _ Hwf) in Hi.
  apply lookup_lt_is_Some in Hi as [s Hs]. unfold slc_at. by rewrite Hs.
Qed.

Lemma slc_at_update c i j s :
  slc_wf c → i < 256 → slc_at (slc_update c i s) j = if decide (i = j) then s else slc_at c j.
Proof.
  intros Hwf Hi. unfold slc_at, slc_update. simpl. case_decide as Hij.
  - subst j. rewrite list_lookup_insert_eq; [done |]. by rewrite (slc_wf_count _ Hwf).
  - by rewrite list_lookup_insert_ne.
Qed.

(** Replacing a shard by a well-formed one with no new keys of other shards. *)
Lemma slc_update_wf c i s :
  slc_wf c → i < 256 → shard_wf s → shard_bounded s → sh_cap s = slc_capacity c →
  (∀ k, k ∈ (shard_abs s).*1 → slc_shard k = i) → slc_wf (slc_update c i s).
Proof.
  intros Hwf Hi Hs Hb Hc Hk. split; simpl; [rewrite length_insert; apply Hwf |].
  intros j s' Hj. apply list_lookup_insert_Some in Hj as [(-> & <- & _)|(_ & Hj)]; [done |].
  by apply (slc_wf_shard _ Hwf).
Qed.

Lemma slc_at_wf c i :
  slc_wf c → i < 256 →
  shard_wf (slc_at c i) ∧ shard_bounded (slc_at c i) ∧ sh_cap (slc_at c i) = slc_capacity c ∧
  ∀ k, k ∈ (slc_ref c i).*1 → slc_shard k = i.
Proof. intros Hwf Hi. by apply (slc_wf_shard _ Hwf), slc_at_lookup. Qed.

Lemma New_wf n : slc_wf (NewShardedLRUCache n).
Proof.
  split; [done |]. intros i s Hs. apply lookup_replicate in Hs as [-> Hi].
  split_and!; [split; simpl | split; simpl; [case_decide; lia |] | done | intros k Hk].
  - constructor.
  - constructor.
  - intros k j. rewrite lookup_empty. split; [done | intros Hx; by apply elem_of_nil in Hx].
  - intros j k Hx. by apply elem_of_nil in Hx.
  - unfold ll_Len. simpl. case_decide; lia.
  - by apply elem_of_nil in Hk.
Qed.

Lemma ref_keys_sub (r r' : lru_ref) k h i :
  (∀ x, x ∈ r' → x = (k, h) ∨ x ∈ r) → slc_shard k = i →
  (∀ k, k ∈ r.*1 → slc_shard k = i) → ∀ k, k ∈ r'.*1 → slc_shard k = i.
Proof.
  intros Hr Hk Hall k' (x & -> & Hx)%list_elem_of_fmap. destruct (Hr x Hx) as [->|Hx']; [done |].
  by apply Hall, list_elem_of_fmap_2.
Qed.

Lemma ref_lookup_None_nin k (r : lru_ref) : ref_lookup k r = None → k ∉ r.*1.
Proof.
  unfold ref_lookup. intros Hf ([k' h] & -> & Hx)%list_elem_of_fmap.
  apply fmap_None, list_find_None in Hf. rewrite Forall_forall in Hf. by apply (Hf _ Hx).
Qed.

Lemma elem_of_ref_delete k x (r : lru_ref) : x ∈ ref_delete k r ↔ x.1 ≠ k ∧ x ∈ r.
Proof. unfold ref_delete. by rewrite list_elem_of_filter. Qed.

Lemma elem_of_ref_get k (r : lru_ref) : NoDup r.*1 → ∀ x, x ∈ (ref_get k r).2 ↔ x ∈ r.
Proof.
  intros Hnd x. unfold ref_get. destruct (ref_lookup k r) as [h|] eqn:Hr; [| done]. simpl.
  apply ref_lookup_elem in Hr; [| done]. rewrite elem_of_cons, elem_of_ref_delete.
  destruct x as [k' h']. simpl. split; [intros [[= -> ->]|[_ ?]]; done |]. intros Hx.
  destruct (decide (k' = k)) as [->|]; [left | by right].
  apply (NoDup_key_inj fst r Hnd); done.
Qed.

Lemma elem_of_ref_set cap k h (r : lru_ref) x :
  x ∈ ref_set cap k h r → x = (k, h) ∨ (x.1 ≠ k ∧ x ∈ r).
Proof.
  unfold ref_set. destruct (ref_lookup k r) as [h'|] eqn:Hr.
  - rewrite elem_of_cons, elem_of_ref_delete. tauto.
  - apply ref_lookup_None_nin in Hr. rewrite elem_of_cons. intros [?|Hx]; [by left | right].
    assert (x ∈ r) as Hxr.
    { case_decide; [| done]. apply elem_of_take in Hx as (j & Hj & _).
      by eapply list_elem_of_lookup_2. }
    split; [| done]. intros <-. apply Hr. by apply list_elem_of_fmap_2.
Qed.

(** What an operation does to the shard of its key, and to no other. *)
Definition slc_local (c c' : shardedLRUCache) (k : cacheKey) (r : lru_ref) : Prop :=
  slc_wf c' ∧ slc_capacity c' = slc_capacity c ∧
  ∀ j, slc_ref c' j = if decide (j = slc_shard k) then r else slc_ref c j.

Lemma slc_update_local c k s :
  slc_wf c → shard_wf s → shard_bounded s → sh_cap s = slc_capacity c →
  (∀ k', k' ∈ (shard_abs s).*1 → slc_shard k' = slc_shard k) →
  slc_local c (slc_update c (slc_shard k) s) k (shard_abs s).
Proof.
  intros Hwf Hs Hb Hc Hk. split_and!; [by apply slc_update_wf, Hk; try apply slc_shard_lt | done |].
  intros j. unfold slc_ref. rewrite slc_at_update by (done || apply slc_shard_lt).
  repeat case_decide; congruence.
Qed.

Lemma slc_ref_NoDup c i : slc_wf c → i < 256 → NoDup (slc_ref c i).*1.
Proof.
  intros Hwf Hi. unfold slc_ref. rewrite shard_abs_fst.
  apply wf_keys. by apply slc_at_wf.
Qed.

Section slc_ops.
Context (c : shardedLRUCache) (Hwf : slc_wf c) (l : LayerID) (p : string).
Let k := {| ck_layerID := l; ck_relPath := p |}.
Let r := slc_ref c (slc_shard k).

Lemma slc_Get_local :
  (slc_Get l p c).1 = (ref_get k r).1 ∧ slc_local c (slc_Get l p c).2 k (ref_get k r).2.
Proof.
  destruct (slc_at_wf c (slc_shard k) Hwf (slc_shard_lt k)) as (Hs & [Hb1 Hb2] & Hc & Hk).
  destruct (shard_get_ref _ k Hs) as (Hs' & Hr & Hc' & Hl).
  unfold slc_Get. fold k. destruct (shard_get k _) as [res s'] eqn:Hg. simpl in *.
  unfold r, slc_ref. rewrite Hr. simpl. split; [done |].
  destruct (slc_update_local c k s') as (Hw & Hcp & Href); [done | done | | by rewrite Hc' | |].
  - split; rewrite ?Hc', ?Hl; done.
  - assert (shard_abs s' = (ref_get k r).2) as -> by (unfold r, slc_ref; by rewrite Hr).
    apply (ref_keys_sub r _ k EmptyString); [| done | done].
    intros x. rewrite elem_of_ref_get by (by apply slc_ref_NoDup, slc_shard_lt). by right.
  - split_and!; [by destruct Hw | done | done].
Qed.

Lemma slc_Set_local now h :
  slc_local c (slc_Set now l p h c) k (ref_set (slc_capacity c) k h r).
Proof.
  destruct (slc_at_wf c (slc_shard k) Hwf (slc_shard_lt k)) as (Hs & Hb & Hc & Hk).
  destruct (shard_set_ref now _ k h Hs Hb) as (Hs' & Hr & Hb' & Hc').
  unfold slc_Set. fold k. unfold r, slc_ref. rewrite <- Hc, <- Hr.
  apply slc_update_local; [done | done | done | by rewrite Hc' |]. rewrite Hr.
  apply (ref_keys_sub r _ k h); [| done | done]. intros x Hx%elem_of_ref_set. tauto.
Qed.

Lemma slc_Delete_local : slc_local c (slc_Delete l p c) k (ref_delete k r).
Proof.
  destruct (slc_at_wf c (slc_shard k) Hwf (slc_shard_lt k)) as (Hs & [Hb1 Hb2] & Hc & Hk).
  destruct (shard_delete_ref _ k Hs) as (Hs' & Hr & Hc' & Hl).
  unfold slc_Delete. fold k. unfold r, slc_ref. rewrite <- Hr.
  apply slc_update_local; [done | done | | by rewrite Hc' |].
  - split; rewrite ?Hc'; [done | lia].
  - rewrite Hr. apply (ref_keys_sub r _ k EmptyString); [| done | done].
    intros x [_ Hx]%elem_of_ref_delete. by right.
Qed.
End slc_ops.

Lemma slc_DeleteLayer_ref `{GoRange} c l :
  slc_wf c →
  slc_wf (slc_DeleteLayer l c) ∧ slc_capacity (slc_DeleteLayer l c) = slc_capacity c ∧
  ∀ j, j < 256 → slc_ref (slc_DeleteLayer l c) j = ref_DeleteLayer l (slc_ref c j).
Proof.
  intros Hwf. split_and!; [split; simpl; [rewrite length_fmap; apply Hwf |] | done |].
  - intros i s Hi. apply list_lookup_fmap_Some in Hi as (s0 & -> & Hi).
    destruct (slc_wf_shard _ Hwf i s0 Hi) as (Hs & [Hb1 Hb2] & Hc & Hk).
    destruct (shard_DeleteLayer_ref l s0 Hs) as (Hs' & Hr & Hc' & Hl).
    split_and!; [done | split; rewrite ?Hc'; [done | lia] | by rewrite Hc' |].
    rewrite Hr. intros k (x & -> & [_ Hx]%list_elem_of_filter)%list_elem_of_fmap.
    by apply Hk, list_elem_of_fmap_2.
  - intros j Hj. unfold slc_ref, slc_at at 1. simpl. rewrite list_lookup_fmap.
    rewrite (slc_at_lookup c j) by done. simpl. apply shard_DeleteLayer_ref. by apply slc_at_wf.
Qed.

(** ** The laws *)

Lemma slc_view_elem c k h :
  slc_wf c → slc_view c k = Some h ↔ (k, h) ∈ slc_ref c (slc_shard k).
Proof. intros Hwf. by apply ref_lookup_elem, slc_ref_NoDup, slc_shard_lt. Qed.

(** A local operation that adds at most [(k, h)] gives a view with at most that added. *)
Lemma slc_local_view c c' k r k' h' (P : cacheKey * FileHash → Prop) :
  slc_wf c → slc_local c c' k r →
  (∀ x, x ∈ r → P x ∨ (x.1 ≠ k ∧ x ∈ slc_ref c (slc_shard k))) →
  slc_view c' k' = Some h' → P (k', h') ∨ (k' ≠ k ∧ slc_view c k' = Some h').
Proof.
  intros Hwf (Hwf' & _ & Href) HP. rewrite !slc_view_elem, Href by done. case_decide as Hs.
  - rewrite Hs. intros [?|[? ?]]%HP; [by left | by right].
  - intros Hx. right. split; [congruence | done].
Qed.

#[export] Program Instance shardedLRU_laws `{GoRange} : HashCacheLaws shardedLRUCache := {|
  hc_inv := slc_wf; hc_view := slc_view |}.
Next Obligation. intros ? now l p c Hwf. by apply slc_Get_local. Qed.
Next Obligation.
  intros ? now l p c h Hwf. simpl. rewrite (proj1 (slc_Get_local c Hwf l p)).
  unfold ref_get, slc_view. by destruct (ref_lookup _ _).
Qed.
Next Obligation.
  intros ? now l p c k h Hwf Hv. destruct (slc_Get_local c Hwf l p) as [_ Hl].
  set (k0 := {| ck_layerID := l; ck_relPath := p |}) in *.
  pose proof (slc_ref_NoDup c _ Hwf (slc_shard_lt k0)) as Hnd.
  destruct (slc_local_view _ _ _ _ k h (λ x, x ∈ slc_ref c (slc_shard k0) ∧ x.1 = k0) Hwf Hl)
    as [[Hx Heq]|[_ ?]]; [| done | | done].
  - intros x Hx%elem_of_ref_get; [| done]. destruct (decide (x.1 = k0)); tauto.
  - simpl in Heq. subst k. by apply slc_view_elem.
Qed.
Next Obligation. intros ? now l p h c Hwf. by apply slc_Set_local. Qed.
Next Obligation.
  intros ? now l p h c k h' Hwf Hv.
  eapply (slc_local_view _ _ _ _ k h' (λ x, x = (_, h)) Hwf) in Hv as [Hx|Hx];
    [left; naive_solver | by right | by apply slc_Set_local |].
  intros x. apply elem_of_ref_set.
Qed.
Next Obligation. intros ? l p c Hwf. by apply slc_Delete_local. Qed.
Next Obligation.
  intros ? l p c k h Hwf Hv.
  eapply (slc_local_view _ _ _ _ k h (λ _, False) Hwf) in Hv as [[]|Hx];
    [done | by apply slc_Delete_local |].
  intros x. rewrite elem_of_ref_delete. tauto.
Qed.
Next Obligation. intros ? l c Hwf. by apply slc_DeleteLayer_ref. Qed.
Next Obligation.
  intros ? l c k h Hwf. destruct (slc_DeleteLayer_ref c l Hwf) as (Hwf' & _ & Href). simpl.
  rewrite !slc_view_elem, Href by (done || apply slc_shard_lt).
  unfold ref_DeleteLayer. by rewrite list_elem_of_filter.
Qed.

#[export] Program Instance noop_laws : HashCacheLaws NoopHashCache := {|
  hc_inv _ := True; hc_view _ _ := None |}.
Solve All Obligations with (simpl; naive_solver).

Section wrapper_laws.
Context {C W : Type} `{HashCacheLaws C}.

#[export] Program Instance instrumented_laws : HashCacheLaws (InstrumentedHashCache C W) := {|
  hc_inv c := hc_inv (ic_inner c); hc_view c := hc_view (ic_inner c) |}.
Next Obligation.
  intros now l p c Hi. apply (hc_Get_inv now l p) in Hi. simpl. unfold ic_Get.
  by destruct (hc_Get _ _ _ _).
Qed.
Next Obligation.
  intros now l p c h Hi. simpl. unfold ic_Get. intros Hg. apply (hc_Get_sound now l p); [done |].
  by destruct (hc_Get _ _ _ _).
Qed.
Next Obligation.
  intros now l p c k h Hi. pose proof (hc_Get_view now l p (ic_inner c) k h Hi) as Hv. simpl.
  unfold ic_Get. by destruct (hc_Get _ _ _ _).
Qed.
Next Obligation. intros. by apply hc_Set_inv. Qed.
Next Obligation. intros * Hi Hv. exact (hc_Set_view _ _ _ _ _ _ _ Hi Hv). Qed.
Next Obligation. intros. by apply hc_Delete_inv. Qed.
Next Obligation. intros * Hi Hv. exact (hc_Delete_view _ _ _ _ _ Hi Hv). Qed.
Next Obligation. intros. by apply hc_DeleteLayer_inv. Qed.
Next Obligation. intros * Hi Hv. exact (hc_DeleteLayer_view _ _ _ _ Hi Hv). Qed.

#[export] Program Instance ttl_laws : HashCacheLaws (TTLHashCache C) := {|
  hc_inv c := hc_inv (tc_inner c); hc_view c := hc_view (tc_inner c) |}.
Next Obligation.
  intros now l p c Hi. pose proof (hc_Get_inv now l p _ Hi). simpl. unfold tc_Get.
  case_match; [by apply hc_Delete_inv |]. by destruct (hc_Get _ _ _ _).
Qed.
Next Obligation.
  intros now l p c h Hi. simpl. unfold tc_Get. case_match; [done |]. intros Hg.
  apply (hc_Get_sound now l p); [done |]. by destruct (hc_Get _ _ _ _).
Qed.
Next Obligation.
  intros now l p c k h Hi. pose proof (hc_Get_view now l p (tc_inner c) k h Hi) as Hv. simpl.
  unfold tc_Get. case_match; [| by destruct (hc_Get _ _ _ _)].
  intros Hd. exact (proj2 (hc_Delete_view _ _ _ _ _ Hi Hd)).
Qed.
Next Obligation. intros. by apply hc_Set_inv. Qed.
Next Obligation. intros * Hi Hv. exact (hc_Set_view _ _ _ _ _ _ _ Hi Hv). Qed.
Next Obligation. intros. by apply hc_Delete_inv. Qed.
Next Obligation. intros * Hi Hv. exact (hc_Delete_view _ _ _ _ _ Hi Hv). Qed.
Next Obligation. intros. by apply hc_DeleteLayer_inv. Qed.
Next Obligation. intros * Hi Hv. exact (hc_DeleteLayer_view _ _ _ _ Hi Hv). Qed.
End wrapper_laws.

(** ** Histories *)

Inductive cache_op :=
  | OpGet (now : Z) (l : LayerID) (p : string)
  | OpSet (now : Z) (l : LayerID) (p : string) (h : FileHash)
  | OpDelete (l : LayerID) (p : string)
  | OpDeleteLayer (l : LayerID).

Definition cache_do `{HashCache C} (c : C) (op : cache_op) : C :=
  match op with
  | OpGet now l p => (hc_Get now l p c).2
  | OpSet now l p h => hc_Set now l p h c
  | OpDelete l p => hc_Delete l p c
  | OpDeleteLayer l => hc_DeleteLayer l c
  end.

Definition cache_run `{HashCache C} (ops : list cache_op) (c : C) : C := foldl cache_do c ops.

Abbreviation key_of l p := {| ck_layerID := l; ck_relPath := p |}.

(** The last [Set] of every key that no [Delete] or [DeleteLayer] followed, with its time. *)
Definition history_step (m : gmap cacheKey (Z * FileHash)) (op : cache_op)
    : gmap cacheKey (Z * FileHash) :=
  match op with
  | OpGet _ _ _ => m
  | OpSet now l p h => <[key_of l p := (now, h)]> m
  | OpDelete l p => delete (key_of l p) m
  | OpDeleteLayer l => filter (λ x, ck_layerID x.1 ≠ l) m
  end.

Definition last_set (ops : list cache_op) : gmap cacheKey (Z * FileHash) := foldl history_step ∅ ops.

Definition op_layer (op : cache_op) : LayerID :=
  match op with OpGet _ l _ | OpSet _ l _ _ | OpDelete l _ | OpDeleteLayer l => l end.

(** What the cache could return is in the history. *)
Lemma view_in_history `{HashCacheLaws C} ops (c : C) :
  hc_inv c → (∀ k, hc_view c k = None) →
  hc_inv (cache_run ops c) ∧
  ∀ k h, hc_view (cache_run ops c) k = Some h → ∃ t, last_set ops !! k = Some (t, h).
Proof.
  intros Hi He. induction ops as [|op ops [IHi IH]] using rev_ind.
  { split; [done |]. intros k h. simpl. by rewrite He. }
  unfold cache_run, last_set in *. rewrite !foldl_app. simpl.
  set (c' := foldl cache_do c ops) in *. set (m := foldl history_step ∅ ops) in *.
  destruct op as [now l p|now l p h0|l p|l]; simpl.
  - split; [by apply hc_Get_inv |]. intros k h Hv. by apply IH, (hc_Get_view now l p).
  - split; [by apply hc_Set_inv |]. intros k h Hv.
    apply hc_Set_view in Hv as [[-> ->]|[Hne Hv]]; [| | done].
    + exists now. by rewrite lookup_insert_eq.
    + rewrite lookup_insert_ne by congruence. by apply IH.
  - split; [by apply hc_Delete_inv |]. intros k h Hv.
    apply hc_Delete_view in Hv as [Hne Hv]; [| done].
    rewrite lookup_delete_ne by congruence. by apply IH.
  - split; [by apply hc_DeleteLayer_inv |]. intros k h Hv.
    apply hc_DeleteLayer_view in Hv as [Hne Hv]; [| done]. apply IH in Hv as [t Ht].
    exists t. by apply map_lookup_filter_Some.
Qed.

(** A hash cache never lies.  Whatever was done before, a hash that [Get] returns is the
    one last [Set] under that layer and path, and neither the path nor the layer was deleted
    since.  The statement is about the interface: it holds for the sharded LRU cache and for
    every wrapper around it. *)
Theorem cache_never_lies `{HashCacheLaws C} (c : C) (ops : list cache_op) now l p h :
  hc_inv c → (∀ k, hc_view c k = None) →
  (hc_Get now l p (cache_run ops c)).1 = Some h →
  ∃ t, last_set ops !! key_of l p = Some (t, h).
Proof.
  intros Hi He Hg. destruct (view_in_history ops c Hi He) as [Hi' Hv].
  apply Hv. by apply (hc_Get_sound now).
Qed.

Lemma tc_key_inj l p l' p' :
  ¬ char_in go_nul l → ¬ char_in go_nul l' → tc_key l p = tc_key l' p' → l = l' ∧ p = p'.
Proof. intros Hl Hl'. unfold tc_key. simpl. by apply str_split_char_eq. Qed.

(** The time kept for a key is that of its last [Set]. *)
Lemma ttl_times `{HashCacheLaws C} ops (inner : C) ttl :
  hc_inv inner → (∀ k, hc_view inner k = None) →
  Forall (λ op, ¬ char_in go_nul (op_layer op)) ops →
  let c := cache_run ops (NewTTLHashCache inner ttl) in
  tc_ttl c = ttl ∧
  ∀ k h, hc_view c k = Some h → ¬ char_in go_nul (ck_layerID k) ∧
    ∃ t, last_set ops !! k = Some (t, h) ∧ tc_times c !! tc_key (ck_layerID k) (ck_relPath k) = Some t.
Proof.
  intros Hi He. induction ops as [|op ops IH] using rev_ind; intros Hn.
  { split; [done |]. intros k h. simpl. by rewrite He. }
  apply Forall_app in Hn as [Hn Hop]. apply Forall_cons in Hop as [Hop _].
  destruct (view_in_history (H0 := ttl_laws) ops (NewTTLHashCache inner ttl) Hi He) as [Hinv _].
  destruct (IH Hn) as [IHt IHv]. clear IH. unfold cache_run, last_set in *. rewrite !foldl_app. simpl in *.
  set (c := foldl cache_do _ ops) in *. set (m := foldl history_step ∅ ops) in *.
  destruct op as [now l p|now l p h0|l p|l]; cbn [cache_do history_step op_layer] in *.
  - split; [simpl; unfold tc_Get; case_match; [done |]; by destruct (hc_Get _ _ _ _) |].
    intros k h Hv. pose proof (hc_Get_view (HashCacheLaws := ttl_laws) now l p c k h Hinv Hv) as Hv0.
    destruct (IHv k h Hv0) as (Hk & t & Hm & Ht). split; [done |]. exists t. split; [done |].
    simpl in *. unfold tc_Get in *. destruct (match _ !! _ with Some _ => _ | None => _ end);
      [| by destruct (hc_Get _ _ _ _)].
    simpl in *. apply hc_Delete_view in Hv as [Hne _]; [| done].
    rewrite lookup_delete_ne; [done |]. intros Heq. apply Hne.
    apply tc_key_inj in Heq as [-> ->]; [by destruct k | done | done].
  - split; [done |]. intros k h Hv.
    apply (hc_Set_view (HashCacheLaws := ttl_laws) now l p h0 c _ _ Hinv) in Hv as [[-> ->]|[Hne Hv]].
    + split; [done |]. exists now. simpl. by rewrite !lookup_insert_eq.
    + destruct (IHv k h Hv) as (Hk & t & Hm & Ht). split; [done |]. exists t. simpl.
      rewrite !lookup_insert_ne; [done | | by congruence].
      intros Heq. apply Hne. apply tc_key_inj in Heq as [-> ->]; [by destruct k | done | done].
  - split; [done |]. intros k h Hv. apply (hc_Delete_view (HashCacheLaws := ttl_laws) l p c _ _ Hinv) in Hv as [Hne Hv].
    destruct (IHv k h Hv) as (Hk & t & Hm & Ht). split; [done |]. exists t.
    by rewrite lookup_delete_ne by congruence.
  - split; [done |]. intros k h Hv. apply (hc_DeleteLayer_view (HashCacheLaws := ttl_laws) l c _ _ Hinv) in Hv as [Hne Hv].
    destruct (IHv k h Hv) as (Hk & t & Hm & Ht). split; [done |]. exists t.
    split; [by apply map_lookup_filter_Some | done].
Qed.

(** The TTL wrapper never returns a stale hash: a hash that [Get] returns at time [now]
    was last set at most [ttl] before, for layer identifiers without NUL bytes (the wrapper
    joins layer and path with one). *)
Theorem ttl_never_stale `{HashCacheLaws C} (inner : C) ttl (ops : list cache_op) now l p h :
  hc_inv inner → (∀ k, hc_view inner k = None) →
  Forall (λ op, ¬ char_in go_nul (op_layer op)) ops →
  (hc_Get now l p (cache_run ops (NewTTLHashCache inner ttl))).1 = Some h →
  ∃ t, last_set ops !! key_of l p = Some (t, h) ∧ (now - t ≤ ttl)%Z.
Proof.
  intros Hi He Hn Hg.
  destruct (view_in_history (H0 := ttl_laws) ops (NewTTLHashCache inner ttl) Hi He) as [Hinv _].
  destruct (ttl_times ops inner ttl Hi He Hn) as [Httl Ht].
  destruct (Ht (key_of l p) h) as (_ & t & Hm & Htm); [by apply (hc_Get_sound now) |].
  exists t. split; [done |]. simpl in Hg, Htm. unfold tc_Get in Hg. rewrite Htm, Httl in Hg.
  case_bool_decide; [done | lia].
Qed.

(** ** The sharded cache against the reference *)

Definition ref_cap (totalCapacity : Z) : Z := Z.max 1 (Z.quot totalCapacity 256).

(** What an operation does to the reference of shard [j]. *)
Definition ref_do (cap : Z) (j : nat) (r : lru_ref) (op : cache_op) : lru_ref :=
  match op with
  | OpGet _ l p => if decide (j = slc_shard (key_of l p)) then (ref_get (key_of l p) r).2 else r
  | OpSet _ l p h => if decide (j = slc_shard (key_of l p)) then ref_set cap (key_of l p) h r else r
  | OpDelete l p => if decide (j = slc_shard (key_of l p)) then ref_delete (key_of l p) r else r
  | OpDeleteLayer l => ref_DeleteLayer l r
  end.

Definition ref_run (cap : Z) (j : nat) (ops : list cache_op) : lru_ref := foldl (ref_do cap j) [] ops.

Lemma New_capacity n : slc_capacity (NewShardedLRUCache n) = ref_cap n.
Proof. unfold NewShardedLRUCache, ref_cap. simpl. case_decide; lia. Qed.

Lemma New_ref n j : slc_ref (NewShardedLRUCache n) j = [].
Proof.
  unfold slc_ref, slc_at, NewShardedLRUCache. cbn [slc_shards].
  destruct (replicate 256 _ !! j) as [s|] eqn:Hs; [| done].
  by apply lookup_replicate in Hs as [-> _].
Qed.

Lemma run_ref `{GoRange} n ops :
  let c := cache_run ops (NewShardedLRUCache n) in
  slc_wf c ∧ slc_capacity c = ref_cap n ∧ ∀ j, slc_ref c j = ref_run (ref_cap n) j ops.
Proof.
  induction ops as [|op ops (Hwf & Hcap & IH)] using rev_ind.
  { split_and!; [apply New_wf | apply New_capacity | apply New_ref]. }
  unfold cache_run, ref_run in *. rewrite foldl_app. simpl.
  set (c := foldl cache_do _ ops) in *.
  assert (∀ c' k r, slc_local c c' k r → (∀ j, slc_ref c' j = foldl (ref_do (ref_cap n) j) [] (ops ++ [op])) →
    slc_wf c' ∧ slc_capacity c' = ref_cap n ∧
    ∀ j, slc_ref c' j = foldl (ref_do (ref_cap n) j) [] (ops ++ [op])) as Hfin.
  { intros c' k r (Hw & Hc & _) Href. split_and!; [done | by rewrite Hc | done]. }
  destruct op as [now l p|now l p h|l p|l]; simpl.
  - destruct (slc_Get_local c Hwf l p) as [_ Hl]. apply (Hfin _ _ _ Hl). intros j.
    rewrite foldl_app. simpl. destruct Hl as (_ & _ & ->). rewrite !IH. by case_decide; subst.
  - pose proof (slc_Set_local c Hwf l p now h) as Hl. apply (Hfin _ _ _ Hl). intros j.
    rewrite foldl_app. simpl. destruct Hl as (_ & _ & ->). rewrite !IH, Hcap. by case_decide; subst.
  - pose proof (slc_Delete_local c Hwf l p) as Hl. apply (Hfin _ _ _ Hl). intros j.
    rewrite foldl_app. simpl. destruct Hl as (_ & _ & ->). rewrite !IH. by case_decide; subst.
  - destruct (slc_DeleteLayer_ref c l Hwf) as (Hw & _ & Hr). split_and!; [done | done |].
    intros j. rewrite foldl_app. simpl. rewrite <- IH. destruct (decide (j < 256)) as [Hj|Hj]; [by apply Hr |].
    assert (∀ c', slc_wf c' → slc_ref c' j = []) as Hnil.
    { intros c' Hw'. unfold slc_ref, slc_at. rewrite lookup_ge_None_2; [done |].
      rewrite (slc_wf_count _ Hw'). lia. }
    by rewrite !Hnil.
Qed.

(** C22: the sharded cache is a least-recently-used cache.  After any operations each shard
    holds, in this order, what a recency list of [max 1 (capacity/256)] entries would hold
    after the operations on its keys (a hit or an update moves to the front, a new key evicts
    the last entry of a full shard and no other), and [Get] answers what the list answers. *)
Theorem slc_refines_lru (R : GoRange) (n : Z) (ops : list cache_op) :
  let c := cache_run ops (NewShardedLRUCache n) in
  (∀ j, slc_ref c j = ref_run (ref_cap n) j ops) ∧
  (∀ now l p, (hc_Get now l p c).1
     = (ref_get (key_of l p) (ref_run (ref_cap n) (slc_shard (key_of l p)) ops)).1).
Proof.
  intros c. destruct (run_ref n ops) as (Hwf & _ & Href). split; [done |].
  intros now l p. rewrite <- Href. by apply slc_Get_local.
Qed.

Lemma foldl_add_bound {A} (f : A → Z) (b : Z) (l : list A) (a : Z) :
  Forall (λ x, f x ≤ b)%Z l → (foldl (λ t x, t + f x) a l ≤ a + b * Z.of_nat (length l))%Z.
Proof.
  revert a. induction l as [|x l IH]; intros a Hl; cbn [foldl length]; [lia |].
  apply Forall_cons in Hl as [Hx Hl]. specialize (IH (a + f x)%Z Hl). lia.
Qed.

Definition is_get (op : cache_op) : bool := match op with OpGet _ _ _ => true | _ => false end.

Lemma run_hits `{GoRange} n ops :
  let c := cache_run ops (NewShardedLRUCache n) in
  (slc_hits c + slc_misses c = Z.of_nat (length (filter is_get ops)))%Z.
Proof.
  induction ops as [|op ops IH] using rev_ind; [done |].
  unfold cache_run in *. rewrite foldl_app, filter_app, length_app. simpl in *.
  set (c := foldl cache_do _ ops) in *.
  destruct op; simpl; try lia.
  unfold slc_Get. destruct (shard_get _ _) as [[h|] s]; simpl; lia.
Qed.

(** The bounds of the sharded cache.  Whatever is done, it holds at most the capacity
    that [Stats] reports, which is 256 times [max 1 (totalCapacity/256)]; [Used] is [Len], and
    the hits and misses add up to the number of [Get] calls. *)
Theorem slc_bounds (R : GoRange) (n : Z) (ops : list cache_op) :
  let c := cache_run ops (NewShardedLRUCache n) in
  let st := hc_Stats c in
  (cs_Used st = hc_Len c)%Z ∧ (cs_Used st ≤ cs_Capacity st)%Z ∧
  cs_Capacity st = (256 * Z.max 1 (Z.quot n 256))%Z ∧
  (cs_Hits st + cs_Misses st = Z.of_nat (length (filter is_get ops)))%Z.
Proof.
  intros c st. destruct (run_ref n ops) as (Hwf & Hcap & _). fold c in Hwf, Hcap.
  split_and!; [done | | simpl; unfold ref_cap in Hcap; lia | apply run_hits].
  simpl. unfold slc_Len.
  assert (Forall (λ s, Z.of_nat (ll_Len (sh_lru s)) ≤ slc_capacity c)%Z (slc_shards c)) as Hf.
  { apply Forall_lookup. intros i s Hs. destruct (slc_wf_shard _ Hwf i s Hs) as (_ & [_ Hb] & <- & _).
    done. }
  pose proof (foldl_add_bound _ _ _ 0 Hf) as Hb. rewrite (slc_wf_count _ Hwf) in Hb. lia.
Qed.

Lemma option_eq_iff {A} (x y : option A) : (∀ a, x = Some a ↔ y = Some a) → x = y.
Proof.
  intros Hxy. destruct x as [a|]; [symmetry; by apply Hxy |]. destruct y as [a|]; [| done].
  by apply Hxy.
Qed.

(** Deletion is exact.  [DeleteLayer], in whatever order it visits its maps, removes the
    entries of that layer and no other, and [Delete] the one entry. *)
Theorem slc_delete_exact (R : GoRange) (c : shardedLRUCache) (l : LayerID) (p : string) :
  slc_wf c → ∀ k,
  slc_view (slc_DeleteLayer l c) k
    = (if decide (ck_layerID k = l) then None else slc_view c k) ∧
  slc_view (slc_Delete l p c) k = (if decide (k = key_of l p) then None else slc_view c k).
Proof.
  intros Hwf k. destruct (slc_DeleteLayer_ref c l Hwf) as (Hw & _ & Hr).
  destruct (slc_Delete_local c Hwf l p) as (Hw' & _ & Hr'). pose proof (slc_shard_lt k) as Hlt.
  split; apply option_eq_iff; intros h; rewrite slc_view_elem by done.
  - rewrite Hr by done. unfold ref_DeleteLayer. rewrite list_elem_of_filter, <- slc_view_elem by done.
    simpl. case_decide; naive_solver.
  - rewrite Hr'. case_decide as Hs.
    + rewrite elem_of_ref_delete, <- Hs, <- slc_view_elem by done. simpl. case_decide; naive_solver.
    + rewrite <- slc_view_elem by done. case_decide; [by subst k | done].
Qed.

(** ** Witnesses *)

Definition sample_ops : list cache_op :=
  [OpSet 10 "sha256:aa" "etc/hosts" "h1"; OpGet 11 "sha256:aa" "etc/hosts";
   OpSet 12 "sha256:aa" "etc/hosts" "h2"; OpSet 13 "sha256:bb" "etc/hosts" "h3";
   OpDeleteLayer "sha256:bb"].

Lemma New_view_empty n k : slc_view (NewShardedLRUCache n) k = None.
Proof. unfold slc_view. by rewrite New_ref. Qed.

Lemma cache_never_lies_witness :
  (hc_Get 20 "sha256:aa" "etc/hosts" (cache_run sample_ops (NewShardedLRUCache 512))).1 = Some "h2"
  ∧ (hc_Get 20 "sha256:bb" "etc/hosts" (cache_run sample_ops (NewShardedLRUCache 512))).1 = None
  ∧ ∃ t, last_set sample_ops !! key_of "sha256:aa" "etc/hosts" = Some (t, "h2").
Proof.
  split_and!; [vm_compute; reflexivity | vm_compute; reflexivity |].
  apply (cache_never_lies (NewShardedLRUCache 512) sample_ops 20);
    [apply New_wf | apply New_view_empty | vm_compute; reflexivity].
Defined.

Lemma ttl_never_stale_witness :
  let run now := (hc_Get now "sha256:aa" "etc/hosts"
    (cache_run sample_ops (NewTTLHashCache (NewShardedLRUCache 512) 5))).1 in
  run 18%Z = None ∧ run 17%Z = Some "h2" ∧
  ∃ t, last_set sample_ops !! key_of "sha256:aa" "etc/hosts" = Some (t, "h2") ∧ (17 - t ≤ 5)%Z.
Proof.
  split_and!; [vm_compute; reflexivity | vm_compute; reflexivity |].
  apply (ttl_never_stale (NewShardedLRUCache 512) 5 sample_ops 17);
    [apply New_wf | apply New_view_empty | | vm_compute; reflexivity].
  apply (bool_decide_eq_true_1 _). vm_compute. reflexivity.
Defined.

Lemma slc_delete_exact_witness :
  let c := slc_Set 1 "sha256:aa" "f" "h1" (slc_Set 2 "sha256:bb" "f" "h2" (NewShardedLRUCache 0)) in
  slc_view c (key_of "sha256:bb" "f") = Some "h2" ∧
  slc_view (slc_DeleteLayer "sha256:aa" c) (key_of "sha256:bb" "f") = Some "h2" ∧
  slc_view (slc_DeleteLayer "sha256:aa" c) (key_of "sha256:aa" "f") = None.
Proof.
  set (c := slc_Set 1 _ _ _ _). assert (slc_wf c) as Hwf.
  { apply slc_Set_local, slc_Set_local, New_wf. }
  split_and!; [vm_compute; reflexivity | |];
    rewrite (proj1 (slc_delete_exact _ c "sha256:aa" "f" Hwf _)); vm_compute; reflexivity.
Defined.
