(* ===== verification/LmResolver.v ===== *)
(** * LmResolver: [pkg/layermerkle/resolver.go], [ringcache.go] and [whiteout.go]

    Which layer of a stack owns a path.  The file system is what [os.Lstat] says of it: the
    argument [lstat] tells whether a path exists.  A resolver with a cache threads it through
    its calls; the registry is shared and passed alongside.  A context is polled once per
    layer, so the number of the poll is the position in the walk. *)
From S2P Require Import Prelude GoStd GoPath LmLayer.

Inductive StatResult := StatUnknown | StatPresent | StatAbsent | StatWhiteout.

#[export] Instance StatResult_eq_dec : EqDecision StatResult.
Proof. solve_decision. Defined.

Record statKey := { sk_layerID : LayerID; sk_relPath : string }.

#[export] Instance statKey_eq_dec : EqDecision statKey.
Proof. solve_decision. Defined.

#[export] Instance statKey_countable : Countable statKey.
Proof.
  by apply (inj_countable' (λ k, (sk_layerID k, sk_relPath k))
    (λ p, {| sk_layerID := p.1; sk_relPath := p.2 |})); intros [].
Defined.

(** [OverlayResolver.fsStat] *)
Definition fsStat (lstat : string → bool) (info : LayerInfo) (relPath : string) : StatResult :=
  let opaqueDir := path_dir relPath in
  if lstat (path_join [li_DiffPath info; opaqueWhiteoutName opaqueDir]) then StatWhiteout
  else if lstat (path_join [li_DiffPath info; whiteoutName relPath]) then StatWhiteout
  else if lstat (path_join [li_DiffPath info; relPath]) then StatPresent
  else StatAbsent.

(** The walk every [FindOwnerLayer] makes, from the top of the stack (the list is reversed)
    to its bottom: [step] answers for one layer, [None] to go on. *)
Fixpoint find_owner {S : Type} (ctx : context) (poll : nat)
    (step : LayerID → S → option (result LayerID) * S) (layers : list LayerID) (s : S)
    : result LayerID * S :=
  match layers with
  | [] => (Err ErrLayerNotFound, s)
  | layerID :: rest =>
      match ctx poll with
      | Some e => (Err e, s)
      | None =>
          match step layerID s with
          | (Some r, s) => (r, s)
          | (None, s) => find_owner ctx (Datatypes.S poll) step rest s
          end
      end
  end.

(** The [switch] on the result of [statInLayer]. *)
Definition stat_answer (layerID : LayerID) (r : result StatResult) : option (result LayerID) :=
  match r with
  | Err _ => None
  | Ok StatPresent => Some (Ok layerID)
  | Ok StatWhiteout => Some (Err ErrWhiteout)
  | Ok _ => None
  end.

(** ** OverlayResolver *)

Record OverlayResolver := {
  or_statCache : gmap statKey StatResult;
  or_cacheSize : Z;
}.

Definition NewOverlayResolver (cacheCapacity : Z) : OverlayResolver :=
  let cacheCapacity := if decide (cacheCapacity ≤ 0)%Z then 100000%Z else cacheCapacity in
  {| or_statCache := ∅; or_cacheSize := cacheCapacity |}.

(** [OverlayResolver.statInLayer] *)
Definition overlay_statInLayer (lstat : string → bool) (reg : LayerRegistry)
    (layerID : LayerID) (relPath : string) (r : OverlayResolver)
    : result StatResult * OverlayResolver :=
  let k := {| sk_layerID := layerID; sk_relPath := relPath |} in
  match or_statCache r !! k with
  | Some res => (Ok res, r)
  | None =>
      match registry_Get reg layerID with
      | None => (Err ErrLayerNotFound, r)
      | Some info =>
          let res := fsStat lstat info relPath in
          (Ok res,
           if decide (Z.of_nat (size (or_statCache r)) < or_cacheSize r)%Z
           then {| or_statCache := <[k := res]> (or_statCache r); or_cacheSize := or_cacheSize r |}
           else r)
      end
  end.

Definition overlay_FindOwnerLayer (lstat : string → bool) (reg : LayerRegistry) (ctx : context)
    (stack : LayerStack) (relPath : string) (r : OverlayResolver)
    : result LayerID * OverlayResolver :=
  find_owner ctx 0 (λ layerID r,
      let '(res, r) := overlay_statInLayer lstat reg layerID relPath r in
      (stat_answer layerID res, r)) (reverse stack) r.

Definition overlay_DiffAbsPath (lstat : string → bool) (reg : LayerRegistry)
    (layerID : LayerID) (relPath : string) (r : OverlayResolver) : result string * OverlayResolver :=
  match registry_Get reg layerID with
  | None => (Err ErrLayerNotFound, r)
  | Some info =>
      match overlay_statInLayer lstat reg layerID relPath r with
      | (Err e, r) => (Err e, r)
      | (Ok res, r) =>
          (if decide (res = StatWhiteout) then Err ErrWhiteout
           else if decide (res ≠ StatPresent) then Err ErrLayerNotFound
           else Ok (DiffFilePath info relPath), r)
      end
  end.

(** [OverlayResolver.InvalidateLayer]: deleting while ranging visits every key. *)
Definition overlay_InvalidateLayer `{GoRange} (layerID : LayerID) (r : OverlayResolver)
    : OverlayResolver :=
  {| or_statCache := foldl (λ m '(k, _), if decide (sk_layerID k = layerID) then delete k m else m)
       (or_statCache r) (map_range (or_statCache r));
     or_cacheSize := or_cacheSize r |}.

(** ** StaticResolver: its map [ownership] *)

Definition NewStaticResolver `{GoRange} (ownership : gmap string LayerID) : gmap string LayerID :=
  foldl (λ (cp : gmap string string) '(k, v), <[normalizeRelPath k := v]> cp) ∅ (map_range ownership).

Definition static_FindOwnerLayer (s : gmap string LayerID) (relPath : string) : result LayerID :=
  match s !! normalizeRelPath relPath with
  | None => Err ErrLayerNotFound
  | Some id => Ok id
  end.

Definition static_DiffAbsPath (reg : LayerRegistry) (layerID : LayerID) (relPath : string)
    : result string :=
  match registry_Get reg layerID with
  | None => Err ErrLayerNotFound
  | Some info => Ok (DiffFilePath info relPath)
  end.

(** ** RingStatCache *)

Record statRingEntry := { re_key : statKey; re_result : StatResult; re_valid : bool }.

(** The zero value of a slot. *)
Definition ring_empty : statRingEntry :=
  {| re_key := {| sk_layerID := EmptyString; sk_relPath := EmptyString |};
     re_result := StatUnknown; re_valid := false |}.

Record RingStatCache := {
  rc_slots : list statRingEntry;
  rc_hand : nat;
  rc_cap : nat;
  rc_hits : Z;
  rc_misses : Z;
  rc_evicted : Z;
}.

Definition NewRingStatCache (capacity : Z) : RingStatCache :=
  let capacity := Z.to_nat (if decide (capacity < 4)%Z then 4%Z else capacity) in
  {| rc_slots := replicate capacity ring_empty; rc_hand := 0; rc_cap := capacity;
     rc_hits := 0; rc_misses := 0; rc_evicted := 0 |}.

Definition ring_match (k : statKey) (e : statRingEntry) : Prop := re_valid e = true ∧ re_key e = k.

#[export] Instance ring_match_dec k e : Decision (ring_match k e).
Proof. unfold ring_match. apply _. Defined.

Definition ring_Get (layerID : LayerID) (relPath : string) (r : RingStatCache)
    : option StatResult * RingStatCache :=
  let k := {| sk_layerID := layerID; sk_relPath := relPath |} in
  match list_find (ring_match k) (rc_slots r) with
  | Some (_, e) =>
      (Some (re_result e),
       {| rc_slots := rc_slots r; rc_hand := rc_hand r; rc_cap := rc_cap r;
          rc_hits := rc_hits r + 1; rc_misses := rc_misses r; rc_evicted := rc_evicted r |})
  | None =>
      (None,
       {| rc_slots := rc_slots r; rc_hand := rc_hand r; rc_cap := rc_cap r;
          rc_hits := rc_hits r; rc_misses := rc_misses r + 1; rc_evicted := rc_evicted r |})
  end.

(** The hand is below the number of slots ([ring_wf]): the lookup does not fail. *)
Definition ring_Set (layerID : LayerID) (relPath : string) (res : StatResult) (r : RingStatCache)
    : RingStatCache :=
  let k := {| sk_layerID := layerID; sk_relPath := relPath |} in
  match list_find (ring_match k) (rc_slots r) with
  | Some (i, e) =>
      {| rc_slots := <[i := {| re_key := re_key e; re_result := res; re_valid := re_valid e |}]> (rc_slots r);
         rc_hand := rc_hand r; rc_cap := rc_cap r;
         rc_hits := rc_hits r; rc_misses := rc_misses r; rc_evicted := rc_evicted r |}
  | None =>
      let old := default ring_empty (rc_slots r !! rc_hand r) in
      {| rc_slots := <[rc_hand r := {| re_key := k; re_result := res; re_valid := true |}]> (rc_slots r);
         rc_hand := (rc_hand r + 1) mod rc_cap r; rc_cap := rc_cap r;
         rc_hits := rc_hits r; rc_misses := rc_misses r;
         rc_evicted := if re_valid old then rc_evicted r + 1 else rc_evicted r |}
  end.

Definition ring_InvalidateLayer (layerID : LayerID) (r : RingStatCache) : RingStatCache :=
  {| rc_slots := (λ e, if decide (re_valid e = true ∧ sk_layerID (re_key e) = layerID)
       then {| re_key := re_key e; re_result := re_result e; re_valid := false |} else e) <$> rc_slots r;
     rc_hand := rc_hand r; rc_cap := rc_cap r;
     rc_hits := rc_hits r; rc_misses := rc_misses r; rc_evicted := rc_evicted r |}.

Definition ring_Stats (r : RingStatCache) : Z * Z * Z := (rc_hits r, rc_misses r, rc_evicted r).

Definition ring_Len (r : RingStatCache) : nat :=
  foldl (λ n e, if re_valid e then S n else n) 0 (rc_slots r).

(** ** OverlayResolverWithRingCache: its ring *)

(** [OverlayResolverWithRingCache.statInLayer] *)
Definition ringres_statInLayer (lstat : string → bool) (reg : LayerRegistry)
    (layerID : LayerID) (relPath : string) (c : RingStatCache) : result StatResult * RingStatCache :=
  match ring_Get layerID relPath c with
  | (Some cached, c) => (Ok cached, c)
  | (None, c) =>
      match registry_Get reg layerID with
      | None => (Err ErrLayerNotFound, c)
      | Some info =>
          let res := fsStat lstat info relPath in
          (Ok res, ring_Set layerID relPath res c)
      end
  end.

Definition ringres_FindOwnerLayer (lstat : string → bool) (reg : LayerRegistry) (ctx : context)
    (stack : LayerStack) (relPath : string) (c : RingStatCache) : result LayerID * RingStatCache :=
  find_owner ctx 0 (λ layerID c,
      let '(res, c) := ringres_statInLayer lstat reg layerID relPath c in
      (stat_answer layerID res, c)) (reverse stack) c.

(** [DiffAbsPath] of the ring resolver reads the registry only, as the static one does. *)
Definition ringres_DiffAbsPath (reg : LayerRegistry) (layerID : LayerID) (relPath : string)
    : result string :=
  match registry_Get reg layerID with
  | None => Err ErrLayerNotFound
  | Some info => Ok (DiffFilePath info relPath)
  end.

(** ** OCICompliantResolver *)

Definition hasFileWhiteout (lstat : string → bool) (diffPath relPath : string) : bool :=
  let '(dir, name) := path_split relPath in
  lstat (path_join [diffPath; dir; ".wh." +:+ name]).

(** The proper ancestors of a path, from [depth] segments on, shortest first. *)
Definition ancestors (segments : list string) : list string :=
  (λ depth, str_join "/" (take depth segments)) <$> seq 1 (length segments - 1).

Definition ancestorIsOpaque (lstat : string → bool) (diffPath relPath : string) : bool :=
  existsb (λ ancestor, lstat (path_join [diffPath; ancestor; ".wh..wh..opq"]))
    (ancestors (str_split go_slash relPath)).

(** One layer of the walk of [OCICompliantResolver.FindOwnerLayer]. *)
Definition oci_step (lstat : string → bool) (reg : LayerRegistry) (relPath : string)
    (layerID : LayerID) : option (result LayerID) :=
  match registry_Get reg layerID with
  | None => None
  | Some info =>
      if hasFileWhiteout lstat (li_DiffPath info) relPath then Some (Err ErrWhiteout)
      else if ancestorIsOpaque lstat (li_DiffPath info) relPath then Some (Err ErrWhiteout)
      else if lstat (path_join [li_DiffPath info; relPath]) then Some (Ok layerID)
      else None
  end.

Definition oci_FindOwnerLayer (lstat : string → bool) (reg : LayerRegistry) (ctx : context)
    (stack : LayerStack) (relPath : string) : result LayerID :=
  (find_owner ctx 0 (λ layerID (_ : unit), (oci_step lstat reg relPath layerID, tt)) (reverse stack) tt).1.

(** ** WhiteoutIndex *)

Record WhiteoutIndex := {
  wi_fileWhiteouts : gset string;
  wi_opaqueDirectories : gset string;
}.

(** The visitor of [BuildWhiteoutIndex]; the error is the one [filepath.Walk] passes. *)
Definition index_visit (diffPath : string) (idx : WhiteoutIndex) (visit : string * option error)
    : WhiteoutIndex :=
  let '(path, err) := visit in
  match err, path_rel diffPath path with
  | None, Ok rel =>
      let name := path_base path in
      let dir := path_dir rel in
      if decide (name = ".wh..wh..opq") then
        {| wi_fileWhiteouts := wi_fileWhiteouts idx;
           wi_opaqueDirectories := {[ dir ]} ∪ wi_opaqueDirectories idx |}
      else if has_prefix name ".wh." && negb (has_prefix name ".wh..wh.") then
        let orig := trim_prefix name ".wh." in
        let maskedPath := if decide (dir = ".") then orig else dir +:+ "/" +:+ orig in
        {| wi_fileWhiteouts := {[ maskedPath ]} ∪ wi_fileWhiteouts idx;
           wi_opaqueDirectories := wi_opaqueDirectories idx |}
      else idx
  | _, _ => idx
  end.

(** [walk] is what [filepath.Walk] visits; the visitor never fails, so the walk does not. *)
Definition BuildWhiteoutIndex (diffPath : string) (walk : list (string * option error))
    : WhiteoutIndex :=
  foldl (index_visit diffPath) {| wi_fileWhiteouts := ∅; wi_opaqueDirectories := ∅ |} walk.

(** [WhiteoutIndex.IsMasked] *)
Definition IsMasked (idx : WhiteoutIndex) (relPath : string) : bool :=
  if decide (relPath ∈ wi_fileWhiteouts idx) then true
  else existsb (λ ancestor, bool_decide (ancestor ∈ wi_opaqueDirectories idx))
         (ancestors (str_split go_slash relPath)).

Definition FileWhiteoutCount (idx : WhiteoutIndex) : nat := size (wi_fileWhiteouts idx).
Definition OpaqueDirectoryCount (idx : WhiteoutIndex) : nat := size (wi_opaqueDirectories idx).

(** ** Truthful stat caches *)

(** What a layer answers for a path, without any cache. *)
Definition layer_stat (lstat : string → bool) (reg : LayerRegistry) (p : string) (l : LayerID)
    : result StatResult :=
  match registry_Get reg l with
  | None => Err ErrLayerNotFound
  | Some info => Ok (fsStat lstat info p)
  end.

(** The walk over the layers with no cache: the reference of both resolvers. *)
Definition owner_spec (lstat : string → bool) (reg : LayerRegistry) (ctx : context)
    (stack : LayerStack) (p : string) : result LayerID :=
  (find_owner ctx 0 (λ l (_ : unit), (stat_answer l (layer_stat lstat reg p l), tt))
     (reverse stack) tt).1.

Definition overlay_truthful (lstat : string → bool) (reg : LayerRegistry) (r : OverlayResolver) : Prop :=
  ∀ k v, or_statCache r !! k = Some v → layer_stat lstat reg (sk_relPath k) (sk_layerID k) = Ok v.

Definition ring_truthful (lstat : string → bool) (reg : LayerRegistry) (c : RingStatCache) : Prop :=
  ∀ e, e ∈ rc_slots c → re_valid e = true →
    layer_stat lstat reg (sk_relPath (re_key e)) (sk_layerID (re_key e)) = Ok (re_result e).

(** Two walks whose steps answer alike, the first keeping an invariant. *)
Lemma find_owner_sim {S T} (I : S → Prop) ctx n (f : LayerID → S → option (result LayerID) * S)
    (g : LayerID → T → option (result LayerID) * T) layers s t :
  (∀ l s, I s → I (f l s).2) → (∀ l s t, I s → (f l s).1 = (g l t).1) →
  I s → (find_owner ctx n f layers s).1 = (find_owner ctx n g layers t).1
        ∧ I (find_owner ctx n f layers s).2.
Proof.
  intros HI Hfg. revert n s t. induction layers as [|l layers IH]; intros n s t Hs; [done |]. simpl.
  destruct (ctx n); [done |]. specialize (HI l s Hs). specialize (Hfg l s t Hs).
  destruct (f l s) as [[a|] s'], (g l t) as [[b|] t']; simplify_eq/=; [done | by apply IH].
Qed.

Lemma overlay_stat_ok lstat reg l p r :
  overlay_truthful lstat reg r →
  (overlay_statInLayer lstat reg l p r).1 = layer_stat lstat reg p l
  ∧ overlay_truthful lstat reg (overlay_statInLayer lstat reg l p r).2.
Proof.
  intros Hr. unfold overlay_statInLayer. destruct (or_statCache r !! _) as [v|] eqn:Hk.
  - split; [| done]. by apply Hr in Hk.
  - unfold layer_stat. destruct (registry_Get reg l) as [info|] eqn:Hg; [| done]. split; [done |]. simpl.
    case_decide; [| done]. intros k v. simpl. rewrite lookup_insert_Some.
    intros [[<- <-]|[_ Hv]]; [| by apply Hr]. unfold layer_stat. simpl. by rewrite Hg.
Qed.

Lemma ring_find_Some k c i e :
  list_find (ring_match k) (rc_slots c) = Some (i, e) →
  rc_slots c !! i = Some e ∧ re_valid e = true ∧ re_key e = k.
Proof. intros (Hi & [Hv Hk] & _)%list_find_Some. done. Qed.

Lemma ring_Set_truthful lstat reg l p v c :
  ring_truthful lstat reg c → layer_stat lstat reg p l = Ok v → ring_truthful lstat reg (ring_Set l p v c).
Proof.
  intros Hc Hv. unfold ring_Set. destruct (list_find _ _) as [[i e]|] eqn:Hf; intros e' He' Hval.
  - apply ring_find_Some in Hf as (Hi & _ & Hk). simpl in He'.
    apply list_elem_of_lookup in He' as [j Hj].
    apply list_lookup_insert_Some in Hj as [(_ & <- & _)|(_ & Hj)]; [simpl; by rewrite Hk |].
    apply Hc; [by eapply list_elem_of_lookup_2 | done].
  - simpl in He'. apply list_elem_of_lookup in He' as [j Hj].
    apply list_lookup_insert_Some in Hj as [(_ & <- & _)|(_ & Hj)]; [done |].
    apply Hc; [by eapply list_elem_of_lookup_2 | done].
Qed.

Lemma ringres_stat_ok lstat reg l p c :
  ring_truthful lstat reg c →
  (ringres_statInLayer lstat reg l p c).1 = layer_stat lstat reg p l
  ∧ ring_truthful lstat reg (ringres_statInLayer lstat reg l p c).2.
Proof.
  intros Hc. unfold ringres_statInLayer, ring_Get.
  destruct (list_find _ _) as [[i e]|] eqn:Hf.
  - apply ring_find_Some in Hf as (Hi & Hv & Hk). split; [| done].
    apply list_elem_of_lookup_2 in Hi. specialize (Hc e Hi Hv). by rewrite Hk in Hc.
  - unfold layer_stat. destruct (registry_Get reg l) as [info|] eqn:Hg; [| done].
    split; [done |]. simpl. apply ring_Set_truthful; [done |]. unfold layer_stat. by rewrite Hg.
Qed.

(** Queries one after the other on the same resolver. *)
Fixpoint run_queries {S Q A : Type} (f : Q → S → A * S) (qs : list Q) (s : S) : list A * S :=
  match qs with
  | [] => ([], s)
  | q :: qs => let '(a, s) := f q s in let '(l, s) := run_queries f qs s in (a :: l, s)
  end.

Lemma run_queries_spec {S Q A} (I : S → Prop) (f : Q → S → A * S) (g : Q → A) qs s :
  (∀ q s, I s → (f q s).1 = g q ∧ I (f q s).2) → I s →
  (run_queries f qs s).1 = g <$> qs ∧ I (run_queries f qs s).2.
Proof.
  intros Hf. revert s. induction qs as [|q qs IH]; intros s Hs; [done |]. csimpl.
  destruct (Hf q s Hs) as [E Hs']. destruct (f q s) as [a s']. simpl in *.
  destruct (IH s' Hs') as [E' Hs'']. destruct (run_queries f qs s'). simpl in *. by subst.
Qed.

(** C21: the stat caches are transparent.  On a file system and registry that do not change,
    the resolver with the bounded map and the one with the ring, of any capacities, answer any
    sequence of queries as a walk over the layers with no cache does. *)
Theorem stat_caches_transparent (lstat : string → bool) (reg : LayerRegistry)
    (cap1 cap2 : Z) (queries : list (context * LayerStack * string)) :
  let answers := (λ '(ctx, stack, p), owner_spec lstat reg ctx stack p) <$> queries in
  (run_queries (λ '(ctx, stack, p), overlay_FindOwnerLayer lstat reg ctx stack p) queries
     (NewOverlayResolver cap1)).1 = answers ∧
  (run_queries (λ '(ctx, stack, p), ringres_FindOwnerLayer lstat reg ctx stack p) queries
     (NewRingStatCache cap2)).1 = answers.
Proof.
  intros answers. split.
  - apply (run_queries_spec (overlay_truthful lstat reg)); [| by intros k v; simpl; rewrite lookup_empty].
    intros [[ctx stack] p] s Hs. apply find_owner_sim; [| | done];
      intros l s' **; pose proof (overlay_stat_ok lstat reg l p s') as Hok;
      destruct (overlay_statInLayer _ _ _ _ _); simpl in *; naive_solver.
  - apply (run_queries_spec (ring_truthful lstat reg)).
    + intros [[ctx stack] p] s Hs. apply find_owner_sim; [| | done];
        intros l s' **; pose proof (ringres_stat_ok lstat reg l p s') as Hok;
        destruct (ringres_statInLayer _ _ _ _ _); simpl in *; naive_solver.
    + intros e He Hv. simpl in He. apply elem_of_replicate in He as [-> _]. done.
Qed.

(** ** Who owns a path *)

(** The layers above do not answer. *)
Definition passes (dec : LayerID → option (result LayerID)) (ls : list LayerID) : Prop :=
  Forall (λ l, dec l = None) ls.

Lemma find_owner_background (dec : LayerID → option (result LayerID)) n ls :
  let res := (find_owner ctx_background n (λ l (_ : unit), (dec l, tt)) ls tt).1 in
  (∃ upper l lower r, ls = upper ++ l :: lower ∧ passes dec upper ∧ dec l = Some r ∧ res = r)
  ∨ (passes dec ls ∧ res = Err ErrLayerNotFound).
Proof.
  revert n. induction ls as [|l ls IH]; intros n; simpl; [right; split; [constructor | done] |].
  destruct (dec l) as [r|] eqn:Hd; simpl.
  - left. exists [], l, ls, r. split_and!; [done | constructor | done | done].
  - destruct (IH (S n)) as [(upper & l' & lower & r & -> & Hp & Hr & E)|[Hp E]].
    + left. exists (l :: upper), l', lower, r. split_and!; [done | by constructor | done | done].
    + right. split; [by constructor | done].
Qed.

Lemma owner_split (dec : LayerID → option (result LayerID)) (stack : LayerStack) res :
  (∀ l r, dec l = Some r → r = Ok l ∨ r = Err ErrWhiteout) →
  res = (find_owner ctx_background 0 (λ l (_ : unit), (dec l, tt)) (reverse stack) tt).1 →
  (∃ lower l upper, stack = lower ++ l :: upper ∧ passes dec upper ∧ dec l = Some res ∧
     (res = Ok l ∨ res = Err ErrWhiteout))
  ∨ (passes dec stack ∧ res = Err ErrLayerNotFound).
Proof.
  intros Hdec ->. destruct (find_owner_background dec 0 (reverse stack))
    as [(upper & l & lower & r & E & Hp & Hr & ->)|[Hp ->]].
  - left. exists (reverse lower), l, (reverse upper). split_and!; [| by apply Forall_reverse | done | by apply Hdec].
    apply (f_equal reverse) in E. rewrite reverse_involutive in E. rewrite E.
    by rewrite reverse_app, reverse_cons, <- app_assoc.
  - right. split; [| done]. apply Forall_reverse in Hp. by rewrite reverse_involutive in Hp.
Qed.

(** The owner of a path.  Without cancellation, [OverlayResolver] returns the topmost
    layer that has the path or hides it, all layers above being unregistered or without it:
    that layer when its diff has the path and no whiteout for it, [ErrWhiteout] when it has a
    whiteout; [ErrLayerNotFound] when no layer of the stack has either. *)
Theorem owner_is_topmost (lstat : string → bool) (reg : LayerRegistry) (stack : LayerStack)
    (p : string) (r : OverlayResolver) :
  overlay_truthful lstat reg r →
  let pass := passes (λ l, stat_answer l (layer_stat lstat reg p l)) in
  match (overlay_FindOwnerLayer lstat reg ctx_background stack p r).1 with
  | Ok l => ∃ lower upper, stack = lower ++ l :: upper ∧ pass upper ∧
              layer_stat lstat reg p l = Ok StatPresent
  | Err e => (e = ErrWhiteout ∧ ∃ lower l upper, stack = lower ++ l :: upper ∧ pass upper ∧
               layer_stat lstat reg p l = Ok StatWhiteout)
             ∨ (e = ErrLayerNotFound ∧ pass stack)
  end.
Proof.
  intros Hr pass. set (res := (overlay_FindOwnerLayer _ _ _ _ _ _).1).
  assert (res = owner_spec lstat reg ctx_background stack p) as E.
  { apply (find_owner_sim (overlay_truthful lstat reg)); [| | done];
      intros l s **; pose proof (overlay_stat_ok lstat reg l p s) as Hok;
      destruct (overlay_statInLayer _ _ _ _ _); simpl in *; naive_solver. }
  apply owner_split in E as [(lower & l & upper & Hs & Hp & Hl & Hres)|[Hp ->]]; [| by right |].
  - destruct (layer_stat lstat reg p l) as [[]|] eqn:Hst; simplify_eq/=.
    + rewrite <- Hl. by exists lower, upper.
    + rewrite <- Hl. left. split; [done |]. by exists lower, l, upper.
  - intros l r' Hl. unfold stat_answer in Hl. repeat case_match; naive_solver.
Qed.

(** The bounded map never grows past its size. *)
Definition overlay_bounded (r : OverlayResolver) : Prop :=
  (Z.of_nat (size (or_statCache r)) ≤ or_cacheSize r)%Z.

Lemma overlay_stat_bounded lstat reg l p r :
  overlay_bounded r →
  overlay_bounded (overlay_statInLayer lstat reg l p r).2
  ∧ or_cacheSize (overlay_statInLayer lstat reg l p r).2 = or_cacheSize r.
Proof.
  intros Hr. unfold overlay_statInLayer. destruct (or_statCache r !! _) as [v|] eqn:Hk; [done |].
  destruct (registry_Get reg l); [| done]. simpl. case_decide; [| done]. split; [| done].
  unfold overlay_bounded in *. simpl. rewrite map_size_insert_None by done. lia.
Qed.

(** ** The ring *)

Record ring_wf (r : RingStatCache) : Prop := {
  ring_wf_length : length (rc_slots r) = rc_cap r;
  ring_wf_cap : 4 ≤ rc_cap r;
  ring_wf_hand : rc_hand r < rc_cap r;
  ring_wf_keys : ∀ i j e e', rc_slots r !! i = Some e → rc_slots r !! j = Some e' →
    re_valid e = true → re_valid e' = true → re_key e = re_key e' → i = j;
}.

(** What the ring holds under a key. *)
Definition ring_lookup (k : statKey) (r : RingStatCache) : option StatResult :=
  (λ x, re_result x.2) <$> list_find (ring_match k) (rc_slots r).

Lemma ring_lookup_iff k r v :
  ring_wf r → ring_lookup k r = Some v ↔
  ∃ i e, rc_slots r !! i = Some e ∧ re_valid e = true ∧ re_key e = k ∧ re_result e = v.
Proof.
  intros Hwf. unfold ring_lookup. split.
  - destruct (list_find _ _) as [[i e]|] eqn:Hf; [| done]. intros [= <-].
    apply ring_find_Some in Hf as (Hi & Hv & Hk). by exists i, e.
  - intros (i & e & Hi & Hv & Hk & <-).
    destruct (list_find_elem_of (ring_match k) (rc_slots r) e) as [[j e'] Hf];
      [by eapply list_elem_of_lookup_2 | done |]. rewrite Hf. simpl.
    apply ring_find_Some in Hf as (Hj & Hv' & Hk').
    assert (i = j) as -> by (eapply (ring_wf_keys _ Hwf); [apply Hi | apply Hj | ..]; congruence).
    by simplify_eq.
Qed.

Lemma ring_lookup_None k r i e :
  list_find (ring_match k) (rc_slots r) = None → rc_slots r !! i = Some e → re_valid e = true → re_key e ≠ k.
Proof.
  intros Hn Hi Hv Hk. apply list_find_None in Hn. rewrite Forall_lookup in Hn.
  by apply (Hn i e Hi).
Qed.

Lemma New_ring_wf c : ring_wf (NewRingStatCache c).
Proof.
  split; simpl; [by rewrite length_replicate | case_decide; lia | case_decide; lia |].
  intros i j e e' [-> _]%lookup_replicate _. done.
Qed.

Lemma ring_Set_wf l p v r : ring_wf r → ring_wf (ring_Set l p v r).
Proof.
  intros Hwf. unfold ring_Set. set (k := {| sk_layerID := l; sk_relPath := p |}).
  destruct (list_find _ _) as [[i0 e0]|] eqn:Hf.
  - apply ring_find_Some in Hf as (Hi0 & Hv0 & Hk0).
    split; simpl; [by rewrite length_insert, ring_wf_length | by apply ring_wf_cap | by apply ring_wf_hand |].
    intros i j e e' Hi Hj Hv Hv' Hk.
    apply list_lookup_insert_Some in Hi as [(-> & <- & _)|(Hni & Hi)];
      apply list_lookup_insert_Some in Hj as [(-> & <- & _)|(Hnj & Hj)]; simpl in *;
      [done | | | by eapply (ring_wf_keys _ Hwf)].
    + by apply (ring_wf_keys _ Hwf i j e0 e').
    + by apply (ring_wf_keys _ Hwf i j e e0).
  - pose proof (ring_wf_cap _ Hwf) as Hc.
    split; simpl; [by rewrite length_insert, ring_wf_length | done | apply Nat.mod_upper_bound; lia |].
    intros i j e e' Hi Hj Hv Hv' Hk.
    apply list_lookup_insert_Some in Hi as [(<- & <- & _)|(Hni & Hi)];
      apply list_lookup_insert_Some in Hj as [(<- & <- & _)|(Hnj & Hj)]; simpl in *;
      [done | | | by eapply (ring_wf_keys _ Hwf)].
    + by destruct (ring_lookup_None _ _ _ _ Hf Hj Hv').
    + by destruct (ring_lookup_None _ _ _ _ Hf Hi Hv).
Qed.

Lemma ring_Invalidate_wf l r : ring_wf r → ring_wf (ring_InvalidateLayer l r).
Proof.
  intros Hwf. split; simpl; [by rewrite length_fmap, ring_wf_length | by apply ring_wf_cap | by apply ring_wf_hand |].
  intros i j e e' Hi Hj Hv Hv' Hk.
  apply list_lookup_fmap_Some in Hi as (x & -> & Hx). apply list_lookup_fmap_Some in Hj as (y & -> & Hy).
  repeat case_decide; simplify_eq/=. by apply (ring_wf_keys _ Hwf i j x y).
Qed.

Abbreviation skey l p := {| sk_layerID := l; sk_relPath := p |}.

Lemma ring_Set_same l p v r : ring_wf r → ring_lookup (skey l p) (ring_Set l p v r) = Some v.
Proof.
  intros Hwf. apply ring_lookup_iff; [by apply ring_Set_wf |]. unfold ring_Set.
  destruct (list_find _ _) as [[i0 e0]|] eqn:Hf.
  - apply ring_find_Some in Hf as (Hi0 & Hv0 & Hk0). eexists i0, _. simpl.
    rewrite list_lookup_insert_eq by (by eapply lookup_lt_Some). by split_and!.
  - eexists (rc_hand r), _. simpl.
    rewrite list_lookup_insert_eq; [by split_and! |].
    rewrite (ring_wf_length _ Hwf). apply (ring_wf_hand _ Hwf).
Qed.

(** Another key is untouched, unless a new key takes its slot, the one at the hand. *)
Lemma ring_Set_other l p v r k :
  ring_wf r → k ≠ skey l p →
  (ring_lookup (skey l p) r = None → ∀ e, rc_slots r !! rc_hand r = Some e → ¬ ring_match k e) →
  ring_lookup k (ring_Set l p v r) = ring_lookup k r.
Proof.
  intros Hwf Hne Hhand. apply option_eq. intros w.
  rewrite !ring_lookup_iff by (done || by apply ring_Set_wf). unfold ring_Set.
  destruct (list_find _ _) as [[i0 e0]|] eqn:Hf; simpl.
  - apply ring_find_Some in Hf as (Hi0 & Hv0 & Hk0). split.
    + intros (i & e & [(-> & <- & _)|(_ & Hi)]%list_lookup_insert_Some & Hv & Hk & Hr); [simpl in *; congruence |].
      by exists i, e.
    + intros (i & e & Hi & Hv & Hk & Hr). exists i, e.
      rewrite list_lookup_insert_ne by congruence. by split_and!.
  - assert (ring_lookup (skey l p) r = None) as Hnone by (unfold ring_lookup; by rewrite Hf).
    split.
    + intros (i & e & [(<- & <- & _)|(_ & Hi)]%list_lookup_insert_Some & Hv & Hk & Hr); [simpl in *; congruence |].
      by exists i, e.
    + intros (i & e & Hi & Hv & Hk & Hr). exists i, e.
      rewrite list_lookup_insert_ne; [by split_and! |]. intros <-. by apply (Hhand Hnone e).
Qed.

Lemma ring_Invalidate_lookup l r k :
  ring_wf r →
  ring_lookup k (ring_InvalidateLayer l r) = if decide (sk_layerID k = l) then None else ring_lookup k r.
Proof.
  intros Hwf. apply option_eq. intros v. rewrite ring_lookup_iff by (by apply ring_Invalidate_wf).
  assert (∀ i e, rc_slots (ring_InvalidateLayer l r) !! i = Some e → re_valid e = true →
    rc_slots r !! i = Some e ∧ sk_layerID (re_key e) ≠ l) as Hinv.
  { intros i e (x & -> & Hx)%list_lookup_fmap_Some Hv. case_decide; [done |]. naive_solver. }
  case_decide as Hl.
  - split; [| done]. intros (i & e & Hi & Hv & <- & _). by apply Hinv in Hi as [_ ?].
  - rewrite ring_lookup_iff by done. split; intros (i & e & Hi & Hv & Hk & Hr); exists i, e.
    + apply Hinv in Hi as [Hi _]; [by split_and! | done].
    + simpl. rewrite list_lookup_fmap, Hi. simpl. rewrite decide_False by naive_solver. by split_and!.
Qed.

Lemma foldl_count_le {A} (f : A → bool) (l : list A) n :
  foldl (λ n e, if f e then S n else n) n l ≤ n + length l.
Proof.
  revert n. induction l as [|x l IH]; intros n; simpl; [lia |].
  specialize (IH (if f x then S n else n)). destruct (f x); lia.
Qed.

(** The ring is a cache of bounded size.  In a ring built by [NewRingStatCache] and any
    operations: no more entries are valid than its capacity; [Get] changes nothing that can be
    looked up; [Set] makes its key map to its result and changes no other key, except the one
    in the slot at the hand when its own key is new; [InvalidateLayer] removes exactly the
    entries of that layer. *)
Theorem ring_spec (r : RingStatCache) (l : LayerID) (p : string) (v : StatResult) (k : statKey) :
  ring_wf r →
  (ring_wf (ring_Get l p r).2 ∧ ring_wf (ring_Set l p v r) ∧ ring_wf (ring_InvalidateLayer l r)) ∧
  ring_Len r ≤ rc_cap r ∧
  (ring_Get l p r).1 = ring_lookup (skey l p) r ∧
  ring_lookup k (ring_Get l p r).2 = ring_lookup k r ∧
  ring_lookup (skey l p) (ring_Set l p v r) = Some v ∧
  (k ≠ skey l p →
   (ring_lookup (skey l p) r = None → ∀ e, rc_slots r !! rc_hand r = Some e → ¬ ring_match k e) →
   ring_lookup k (ring_Set l p v r) = ring_lookup k r) ∧
  ring_lookup k (ring_InvalidateLayer l r)
    = (if decide (sk_layerID k = l) then None else ring_lookup k r).
Proof.
  intros Hwf. assert (rc_slots (ring_Get l p r).2 = rc_slots r ∧ rc_cap (ring_Get l p r).2 = rc_cap r
    ∧ rc_hand (ring_Get l p r).2 = rc_hand r ∧ (ring_Get l p r).1 = ring_lookup (skey l p) r) as (E1 & E2 & E3 & E4).
  { unfold ring_Get, ring_lookup. by destruct (list_find _ _) as [[]|]. }
  split_and!; [| by apply ring_Set_wf | by apply ring_Invalidate_wf | | done | | by apply ring_Set_same |
    intros; by apply ring_Set_other | by apply ring_Invalidate_lookup].
  - destruct Hwf. split; rewrite ?E1, ?E2, ?E3; done.
  - rewrite <- (ring_wf_length _ Hwf). apply (foldl_count_le re_valid _ 0).
  - unfold ring_lookup. by rewrite E1.
Qed.

(** Slot [i] keeps its entry while the hand is [m] slots past it. *)
Lemma ring_Set_keeps l p v r i e m :
  ring_wf r → rc_slots r !! i = Some e → re_valid e = true → re_key e ≠ skey l p →
  rc_hand r = (i + m) mod rc_cap r → 1 ≤ m < rc_cap r →
  rc_slots (ring_Set l p v r) !! i = Some e ∧ rc_cap (ring_Set l p v r) = rc_cap r ∧
  ∃ m', rc_hand (ring_Set l p v r) = (i + m') mod rc_cap r ∧ m ≤ m' ≤ S m.
Proof.
  intros Hwf Hi Hv Hk Hh Hm. pose proof (lookup_lt_Some _ _ _ Hi) as Hlt.
  rewrite (ring_wf_length _ Hwf) in Hlt. unfold ring_Set.
  destruct (list_find _ _) as [[i0 e0]|] eqn:Hf; simpl.
  - apply ring_find_Some in Hf as (Hi0 & Hv0 & Hk0).
    rewrite list_lookup_insert_ne by congruence. split_and!; [done | done |]. exists m. split; [done | lia].
  - assert (rc_hand r ≠ i) as Hne.
    { rewrite Hh. intros E. assert (i + m < rc_cap r ∨ rc_cap r ≤ i + m) as [Hc|Hc] by lia.
      - rewrite Nat.mod_small in E by done. lia.
      - replace (i + m) with (i + m - rc_cap r + 1 * rc_cap r) in E by lia.
        rewrite Nat.Div0.mod_add, Nat.mod_small in E by lia. lia. }
    rewrite list_lookup_insert_ne by done. split_and!; [done | done |]. exists (S m). split; [| lia].
    rewrite Hh, Nat.Div0.add_mod_idemp_l. f_equal. lia.
Qed.

(** The eviction order of the ring is first in, first out: an entry added to the cache
    survives any [Set]s of other keys as long as they are fewer than its capacity, whether it
    is looked up in between or not. *)
Theorem ring_fifo (r : RingStatCache) (l : LayerID) (p : string) (v : StatResult)
    (sets : list (LayerID * string * StatResult)) :
  ring_wf r → ring_lookup (skey l p) r = None →
  Forall (λ x, skey x.1.1 x.1.2 ≠ skey l p) sets → length sets < rc_cap r →
  ring_lookup (skey l p)
    (foldl (λ r x, ring_Set x.1.1 x.1.2 x.2 r) (ring_Set l p v r) sets) = Some v.
Proof.
  intros Hwf Hnone Hsets Hlen. pose proof (ring_wf_hand _ Hwf) as Hhand.
  set (e := {| re_key := skey l p; re_result := v; re_valid := true |}).
  assert (ring_wf (ring_Set l p v r) ∧ rc_slots (ring_Set l p v r) !! rc_hand r = Some e ∧
    rc_cap (ring_Set l p v r) = rc_cap r ∧ rc_hand (ring_Set l p v r) = (rc_hand r + 1) mod rc_cap r)
    as (Hw & He & Hc & Hh).
  { split; [by apply ring_Set_wf |]. unfold ring_Set, ring_lookup in *.
    destruct (list_find _ _) as [[]|]; [done |]. split_and!; [| done | done]. simpl.
    apply list_lookup_insert_eq. by rewrite (ring_wf_length _ Hwf). }
  revert Hw He Hh Hc. generalize (ring_Set l p v r) as r'. intros r' Hw He Hh Hc.
  rewrite <- Hc in Hh, Hlen. clear Hc.
  assert (∀ m, 1 ≤ m → m + length sets ≤ rc_cap r' → rc_hand r' = (rc_hand r + m) mod rc_cap r' →
    ring_lookup (skey l p) (foldl (λ r x, ring_Set x.1.1 x.1.2 x.2 r) r' sets) = Some v) as Hgo.
  { clear Hh Hlen. revert r' Hw He. induction Hsets as [|[[l' p'] v'] sets Hx Hsets IH]; intros r' Hw He m Hm Hb Hh.
    - apply ring_lookup_iff; [done |]. by exists (rc_hand r), e.
    - simpl in *. destruct (ring_Set_keeps l' p' v' r' (rc_hand r) e m) as (He' & Hc' & m' & Hh' & Hm');
        [done | done | done | by simpl; congruence | done | lia |].
      apply (IH _ (ring_Set_wf _ _ _ _ Hw) He' m'); rewrite ?Hc'; [lia | lia | done]. }
  apply (Hgo 1); [lia | lia | done].
Qed.

(** ** Whiteouts on clean paths *)

Definition opq : string := ".wh..wh..opq".

Lemma seg_opq : seg opq.
Proof. apply (bool_decide_eq_true_1 _). vm_compute. reflexivity. Qed.

Lemma seg_wh n : seg n → seg (".wh." +:+ n).
Proof.
  intros Hn. apply seg_prefix; [done | | vm_compute; lia].
  apply (bool_decide_eq_true_1 _). vm_compute. reflexivity.
Qed.

(** A layer whose diff directory is [/d], and a path with directory [l] and name [n]. *)
Section clean.
Context (lstat : string → bool) (d l : list string) (n : string).
Context (Hd : Forall seg d) (Hl : Forall seg l) (Hn : seg n).

(** Existence of the path made of segments below the diff directory. *)
Definition below (x : list string) : bool := lstat (abs_path (d ++ x)).

Let Hln : Forall seg (l ++ [n]).
Proof. apply Forall_app. split; [done |]. by constructor. Qed.

Lemma join_below m : seg m → lstat (path_join [abs_path d; rel_path (l ++ [m])]) = below (l ++ [m]).
Proof.
  intros Hm. rewrite join_abs_rel; [done | done | by destruct l |].
  apply Forall_app. split; [done |]. by constructor.
Qed.

Lemma fsStat_clean info :
  li_DiffPath info = abs_path d →
  fsStat lstat info (rel_path (l ++ [n])) =
    if below (l ++ [opq]) then StatWhiteout
    else if below (l ++ [".wh." +:+ n]) then StatWhiteout
    else if below (l ++ [n]) then StatPresent else StatAbsent.
Proof.
  intros Hi. unfold fsStat, opaqueWhiteoutName, whiteoutName. rewrite Hi, path_dir_rel, path_split_rel by done.
  rewrite join_clean_dir by (done || apply seg_opq).
  rewrite (join_split_dir l (".wh." +:+ n)) by (done || by apply seg_wh).
  by rewrite !join_below by (done || apply seg_opq || by apply seg_wh).
Qed.

Lemma hasFileWhiteout_clean :
  hasFileWhiteout lstat (abs_path d) (rel_path (l ++ [n])) = below (l ++ [".wh." +:+ n]).
Proof.
  unfold hasFileWhiteout. rewrite path_split_rel by done.
  rewrite (join_abs3 d _ l); [done | done | | | done | by apply seg_wh].
  - case_decide; [done |]. intros E. by destruct (rel_path l).
  - case_decide; [by subst |]. change "/" with ("/" +:+ EmptyString).
    rewrite segs_cat, segs_rel by done. apply app_nil_r.
Qed.

Lemma split_rel : str_split go_slash (rel_path (l ++ [n])) = l ++ [n].
Proof.
  apply (str_split_join go_slash); [by destruct l |].
  eapply Forall_impl; [exact Hln |]. intros s Hs. apply Hs.
Qed.

Lemma ancestors_rel : ancestors (l ++ [n]) = (λ k, rel_path (take k l)) <$> seq 1 (length l).
Proof.
  unfold ancestors. rewrite length_app. cbn [length]. rewrite Nat.add_sub.
  apply list_fmap_ext. intros i k Hk. apply lookup_seq in Hk as [-> Hk].
  by rewrite take_app_le by lia.
Qed.

Lemma ancestorIsOpaque_clean :
  ancestorIsOpaque lstat (abs_path d) (rel_path (l ++ [n])) =
    existsb (λ k, below (take k l ++ [opq])) (seq 1 (length l)).
Proof.
  unfold ancestorIsOpaque. rewrite split_rel, ancestors_rel.
  assert (∀ ks, (∀ k, k ∈ ks → 1 ≤ k) →
    existsb (λ ancestor, lstat (path_join [abs_path d; ancestor; ".wh..wh..opq"])) ((λ k, rel_path (take k l)) <$> ks)
    = existsb (λ k, below (take k l ++ [opq])) ks) as Hks.
  { intros ks. induction ks as [|k ks IH]; intros Hk; [done |].
    rewrite fmap_cons. cbn [existsb]. rewrite IH by (intros; apply Hk; by right). f_equal.
    assert (Forall seg (take k l)) as Ht by by apply Forall_take.
    rewrite (join_abs3 d _ (take k l)); [done | done | | by apply segs_rel | done | apply seg_opq].
    intros E. destruct (take k l) as [|x t] eqn:Ex; [done |]. exfalso.
    apply Forall_cons in Ht as [Hx _]. by apply (rel_path_ne x t). }
  apply Hks. intros k Hk. apply elem_of_seq in Hk. lia.
Qed.

Lemma oci_step_clean reg id info :
  registry_Get reg id = Some info → li_DiffPath info = abs_path d →
  oci_step lstat reg (rel_path (l ++ [n])) id =
    if below (l ++ [".wh." +:+ n]) then Some (Err ErrWhiteout)
    else if existsb (λ k, below (take k l ++ [opq])) (seq 1 (length l)) then Some (Err ErrWhiteout)
    else if below (l ++ [n]) then Some (Ok id) else None.
Proof.
  intros Hg Hi. unfold oci_step. rewrite Hg, Hi, hasFileWhiteout_clean, ancestorIsOpaque_clean.
  by rewrite join_below.
Qed.
End clean.

Lemma existsb_ext_false {A} (f : A → bool) (l : list A) :
  existsb f l = false ↔ ∀ x, x ∈ l → f x = false.
Proof.
  induction l as [|x l IH]; simpl; [split; [intros _ y Hy; by apply elem_of_nil in Hy | done] |].
  rewrite orb_false_iff, IH. split.
  - intros [Hx Hl] y [->|Hy]%elem_of_cons; [done | by apply Hl].
  - intros Hf. split; [apply Hf; by left | intros y Hy; apply Hf; by right].
Qed.

(** The two resolvers on one layer.  The OCI resolver looks for opaque markers in every
    ancestor directory but the root of the layer, the overlay resolver only in the parent
    directory, the root included.  So on a path of two segments they agree; on a longer path
    the OCI resolver sees the markers of the higher ancestors too, and answers as the overlay
    resolver when there are none; for a file at the root only the overlay resolver sees the
    marker of the root. *)
Theorem oci_against_overlay (lstat : string → bool) (reg : LayerRegistry) (id : LayerID)
    (info : LayerInfo) (d l : list string) (n : string) :
  registry_Get reg id = Some info → li_DiffPath info = abs_path d →
  Forall seg d → Forall seg l → seg n →
  let p := rel_path (l ++ [n]) in
  let overlay := stat_answer id (layer_stat lstat reg p id) in
  let oci := oci_step lstat reg p id in
  let higher := existsb (λ k, below lstat d (take k l ++ [opq])) (seq 1 (length l - 1)) in
  (l ≠ [] → oci = if higher then Some (Err ErrWhiteout) else overlay) ∧
  (l = [] → overlay = if below lstat d [opq] then Some (Err ErrWhiteout) else oci).
Proof.
  intros Hg Hi Hd Hl Hn p overlay oci higher. unfold overlay, layer_stat, oci, p.
  rewrite Hg, (fsStat_clean _ d), (oci_step_clean _ d _ _ Hd Hl Hn reg id info) by done. split.
  - intros Hne. assert (seq 1 (length l) = seq 1 (length l - 1) ++ [length l]) as ->.
    { destruct l; [done |]. simpl length. rewrite Nat.sub_succ, Nat.sub_0_r, seq_S. done. }
    rewrite existsb_app. fold higher. simpl. rewrite firstn_all, orb_false_r.
    destruct (below lstat d (l ++ [opq])), (below lstat d (l ++ [".wh." +:+ n])), higher,
      (below lstat d (l ++ [n])); done.
  - intros ->. simpl. destruct (below lstat d [opq]); [done |].
    destruct (below lstat d [".wh." +:+ n]); [done |]. by destruct (below lstat d [n]).
Qed.

(** An opaque marker hides the files of its own layer.  The comment of the code says that
    a marker masks the entries of lower layers; but when the top layer holds the path and a
    marker in its parent directory (a directory that was replaced), both resolvers report
    [ErrWhiteout], as if the file were deleted. *)
Theorem opaque_hides_own_layer (lstat : string → bool) (reg : LayerRegistry) (id : LayerID)
    (info : LayerInfo) (d l : list string) (n : string) (lower : LayerStack) (r : OverlayResolver) :
  registry_Get reg id = Some info → li_DiffPath info = abs_path d →
  Forall seg d → Forall seg l → seg n → l ≠ [] →
  overlay_truthful lstat reg r →
  below lstat d (l ++ [n]) = true → below lstat d (l ++ [opq]) = true →
  let p := rel_path (l ++ [n]) in
  lstat (DiffFilePath info p) = true ∧
  (overlay_FindOwnerLayer lstat reg ctx_background (lower ++ [id]) p r).1 = Err ErrWhiteout ∧
  oci_FindOwnerLayer lstat reg ctx_background (lower ++ [id]) p = Err ErrWhiteout.
Proof.
  intros Hg Hi Hd Hl Hn Hne Hr Hfile Hopq p. split_and!.
  - unfold DiffFilePath, p. by rewrite Hi, (join_below lstat d l n Hd Hl Hn n Hn).
  - unfold overlay_FindOwnerLayer. rewrite reverse_snoc. simpl.
    pose proof (overlay_stat_ok lstat reg id p r Hr) as [E _].
    destruct (overlay_statInLayer _ _ _ _ _) as [res r']. simpl in *. subst res.
    unfold layer_stat, p. rewrite Hg, (fsStat_clean _ d), Hopq by done. done.
  - unfold oci_FindOwnerLayer. rewrite reverse_snoc. simpl. unfold p.
    rewrite (oci_step_clean _ d _ _ Hd Hl Hn reg id info Hg Hi).
    destruct (below lstat d (l ++ [".wh." +:+ n])); [done |].
    assert (existsb (λ k, below lstat d (take k l ++ [opq])) (seq 1 (length l)) = true) as ->; [| done].
    apply existsb_exists. exists (length l). rewrite firstn_all. split; [| done].
    apply in_seq. destruct l; [done |]. simpl. lia.
Qed.

(** ** The whiteout index *)

Definition empty_index : WhiteoutIndex := {| wi_fileWhiteouts := ∅; wi_opaqueDirectories := ∅ |}.

Lemma index_visit_elem diff idx v p q :
  (p ∈ wi_fileWhiteouts (index_visit diff idx v) ↔
     p ∈ wi_fileWhiteouts idx ∨ p ∈ wi_fileWhiteouts (index_visit diff empty_index v)) ∧
  (q ∈ wi_opaqueDirectories (index_visit diff idx v) ↔
     q ∈ wi_opaqueDirectories idx ∨ q ∈ wi_opaqueDirectories (index_visit diff empty_index v)).
Proof.
  destruct v as [path err]. unfold index_visit, empty_index.
  destruct err; [simpl; set_solver |]. destruct (path_rel diff path) as [rel|]; [| simpl; set_solver].
  cbn zeta. case_decide; [simpl; set_solver |]. destruct (_ && _); simpl; set_solver.
Qed.

Lemma index_elem diff walk p q :
  (p ∈ wi_fileWhiteouts (BuildWhiteoutIndex diff walk) ↔
     ∃ v, v ∈ walk ∧ p ∈ wi_fileWhiteouts (index_visit diff empty_index v)) ∧
  (q ∈ wi_opaqueDirectories (BuildWhiteoutIndex diff walk) ↔
     ∃ v, v ∈ walk ∧ q ∈ wi_opaqueDirectories (index_visit diff empty_index v)).
Proof.
  unfold BuildWhiteoutIndex. fold empty_index. induction walk as [|v walk IH] using rev_ind.
  - simpl. split; (split; [set_solver | intros (v & Hv & _); by apply elem_of_nil in Hv]).
  - rewrite foldl_app. cbn [foldl].
    destruct (index_visit_elem diff (foldl (index_visit diff) empty_index walk) v p q) as [E1 E2].
    destruct IH as [IH1 IH2]. rewrite E1, E2, IH1, IH2.
    setoid_rewrite elem_of_app. setoid_rewrite list_elem_of_singleton. naive_solver.
Qed.

Lemma index_visit_below d y m :
  Forall seg d → Forall seg y → seg m →
  index_visit (abs_path d) empty_index (abs_path (d ++ y ++ [m]), None) =
    if decide (m = opq) then
      {| wi_fileWhiteouts := ∅; wi_opaqueDirectories := {[ if decide (y = []) then "." else rel_path y ]} |}
    else if has_prefix m ".wh." && negb (has_prefix m ".wh..wh.") then
      {| wi_fileWhiteouts := {[ rel_path (y ++ [trim_prefix m ".wh."]) ]}; wi_opaqueDirectories := ∅ |}
    else empty_index.
Proof.
  intros Hd Hy Hm. unfold index_visit. rewrite path_rel_below by
    (done || (apply Forall_app; split; [done | by constructor])).
  destruct (decide (y ++ [m] = [])) as [E|_]; [by destruct y |].
  rewrite app_assoc, path_base_abs, path_dir_rel by done.
  change ".wh..wh..opq" with opq. unfold empty_index. cbn [wi_fileWhiteouts wi_opaqueDirectories].
  case_decide as Hopq; [by rewrite union_empty_r_L |]. destruct (_ && _); [| done].
  rewrite union_empty_r_L. do 2 f_equal. destruct (decide (y = [])) as [->|Hne].
  - by rewrite decide_True.
  - rewrite decide_False, rel_path_app; [done | done |]. intros E.
    apply (f_equal segs) in E. rewrite segs_rel in E by done. vm_compute in E. done.
Qed.

Lemma index_visit_root d :
  Forall seg d → (∀ d' b, d = d' ++ [b] → has_prefix b ".wh." = false) →
  index_visit (abs_path d) empty_index (abs_path d, None) = empty_index.
Proof.
  intros Hd Hb. unfold index_visit. pose proof (path_rel_below d [] Hd (Forall_nil_2 _)) as E.
  rewrite app_nil_r, decide_True in E by done. rewrite E. clear E.
  assert (has_prefix (path_base (abs_path d)) ".wh." = false) as Hp.
  { destruct d as [|b d' _] using rev_ind; [vm_compute; done |]. apply Forall_app in Hd as [_ Hd].
    apply Forall_cons in Hd as [Hbs _]. rewrite path_base_abs by done. by apply (Hb d'). }
  rewrite decide_False by (intros E; by rewrite E in Hp). by rewrite Hp.
Qed.

(** The walk visits the diff directory and exactly what exists below it, without errors. *)
Definition walk_of (lstat : string → bool) (d : list string) (walk : list (string * option error)) : Prop :=
  (∀ v, v ∈ walk → ∃ x, Forall seg x ∧ v = (abs_path (d ++ x), None)) ∧
  (∀ x, x ≠ [] → Forall seg x → (abs_path (d ++ x), None) ∈ walk ↔ below lstat d x = true).

Lemma rel_path_inj_ne l1 l2 :
  l1 ≠ [] → l2 ≠ [] → Forall (λ s, ¬ char_in go_slash s) l1 → Forall (λ s, ¬ char_in go_slash s) l2 →
  rel_path l1 = rel_path l2 → l1 = l2.
Proof.
  intros Hn1 Hn2 H1 H2 E. apply (f_equal (str_split go_slash)) in E. unfold rel_path in E.
  by rewrite !(str_split_join go_slash) in E.
Qed.

Section index.
Context (lstat : string → bool) (d : list string) (walk : list (string * option error)).
Context (Hd : Forall seg d) (Hwalk : walk_of lstat d walk).
Context (Hbase : ∀ d' b, d = d' ++ [b] → has_prefix b ".wh." = false).

Lemma seg_no_slash s : seg s → ¬ char_in go_slash s.
Proof. intros Hs. apply Hs. Qed.

Lemma index_file l n :
  Forall seg l → seg n → has_prefix n ".wh." = false →
  rel_path (l ++ [n]) ∈ wi_fileWhiteouts (BuildWhiteoutIndex (abs_path d) walk)
  ↔ below lstat d (l ++ [".wh." +:+ n]) = true.
Proof.
  intros Hl Hn Hp. rewrite (proj1 (index_elem _ _ _ EmptyString)). destruct Hwalk as [Hw1 Hw2].
  assert (Forall (λ s, ¬ char_in go_slash s) (l ++ [n])) as Hln.
  { apply Forall_app. split; [by eapply Forall_impl, seg_no_slash | by repeat constructor; apply Hn]. }
  split.
  - intros (v & Hv & Hin). destruct (Hw1 v Hv) as (x & Hx & ->).
    destruct x as [|m y _] using rev_ind; [rewrite app_nil_r, index_visit_root in Hin by done; set_solver |].
    apply Forall_app in Hx as [Hy Hm]. apply Forall_cons in Hm as [Hm _].
    rewrite index_visit_below in Hin by done. case_decide; [set_solver |].
    destruct (has_prefix m ".wh." && _) eqn:Hwh; [| set_solver].
    apply andb_true_iff in Hwh as [Hwh _]. cbn in Hin. apply elem_of_singleton in Hin.
    apply has_prefix_inv in Hwh as [t ->]. rewrite trim_prefix_app in Hin.
    apply rel_path_inj_ne in Hin; [| by destruct l | by destruct y | done |].
    + apply app_inj_tail in Hin as [-> ->]. apply Hw2; [by destruct y | | done].
      apply Forall_app. split; [done | by constructor].
    + apply Forall_app. split; [by eapply Forall_impl, seg_no_slash |].
      constructor; [| constructor]. intros Hc. apply (seg_no_slash _ Hm), char_in_app. by right.
  - intros Hb. exists (abs_path (d ++ l ++ [".wh." +:+ n]), None). split.
    + apply Hw2; [by destruct l | | done]. apply Forall_app. split; [done |].
      constructor; [by apply seg_wh | done].
    + rewrite index_visit_below by (done || by apply seg_wh).
      rewrite decide_False.
      * rewrite has_prefix_app, trim_prefix_app.
        assert (has_prefix (".wh." +:+ n) ".wh..wh." = false) as ->; [| set_solver].
        destruct (has_prefix (_ +:+ n) _) eqn:E; [| done]. apply has_prefix_inv in E as [t E].
        change (".wh..wh." +:+ t) with (".wh." +:+ ".wh." +:+ t) in E.
        apply (f_equal (str_drop (String.length ".wh."))) in E. rewrite !str_drop_app in E. subst n. by rewrite has_prefix_app in Hp.
      * intros E. change opq with (".wh." +:+ ".wh." +:+ ".opq") in E.
        apply (f_equal (str_drop (String.length ".wh."))) in E. rewrite !str_drop_app in E. subst n. by rewrite has_prefix_app in Hp.
Qed.

Lemma index_opaque l :
  l ≠ [] → Forall seg l →
  rel_path l ∈ wi_opaqueDirectories (BuildWhiteoutIndex (abs_path d) walk)
  ↔ below lstat d (l ++ [opq]) = true.
Proof.
  intros Hne Hl. rewrite (proj2 (index_elem _ _ EmptyString _)). destruct Hwalk as [Hw1 Hw2]. split.
  - intros (v & Hv & Hin). destruct (Hw1 v Hv) as (x & Hx & ->).
    destruct x as [|m y _] using rev_ind; [rewrite app_nil_r, index_visit_root in Hin by done; set_solver |].
    apply Forall_app in Hx as [Hy Hm]. apply Forall_cons in Hm as [Hm _].
    rewrite index_visit_below in Hin by done. case_decide as E; [| destruct (_ && _); set_solver].
    subst m. cbn in Hin. apply elem_of_singleton in Hin. apply (f_equal segs) in Hin. rewrite segs_rel in Hin by done.
    case_decide; [vm_compute in Hin; done |]. rewrite segs_rel in Hin by done. subst y.
    apply Hw2; [by destruct l | | done]. apply Forall_app. split; [done | by constructor].
  - intros Hb. exists (abs_path (d ++ l ++ [opq]), None). split.
    + apply Hw2; [by destruct l | | done]. apply Forall_app. split; [done |].
      constructor; [apply seg_opq | done].
    + rewrite index_visit_below by (done || apply seg_opq). rewrite decide_True by done.
      rewrite decide_False by done. set_solver.
Qed.
End index.

Lemma existsb_fmap {A B} (f : A → B) (g : B → bool) (l : list A) :
  existsb g (f <$> l) = existsb (λ x, g (f x)) l.
Proof. induction l as [|x l IH]; [done |]. rewrite fmap_cons. cbn [existsb]. by rewrite IH. Qed.

Lemma existsb_eq_on {A} (f g : A → bool) (l : list A) :
  (∀ x, x ∈ l → f x = g x) → existsb f l = existsb g l.
Proof.
  induction l as [|x l IH]; intros Hfg; [done |]. cbn [existsb].
  rewrite (Hfg x) by (by left). f_equal. apply IH. intros y Hy. apply Hfg. by right.
Qed.

(** The whiteout index answers as the file system does.  The index built from a complete
    walk of a diff directory masks a path exactly when the OCI resolver finds a whiteout for
    it, for every path whose name is not itself that of a whiteout. *)
Theorem whiteout_index_agrees (lstat : string → bool) (d : list string)
    (walk : list (string * option error)) (l : list string) (n : string) :
  Forall seg d → Forall seg l → seg n → has_prefix n ".wh." = false →
  (∀ d' b, d = d' ++ [b] → has_prefix b ".wh." = false) →
  walk_of lstat d walk →
  let p := rel_path (l ++ [n]) in
  IsMasked (BuildWhiteoutIndex (abs_path d) walk) p
  = hasFileWhiteout lstat (abs_path d) p || ancestorIsOpaque lstat (abs_path d) p.
Proof.
  intros Hd Hl Hn Hp Hb Hw p. unfold IsMasked, p.
  rewrite hasFileWhiteout_clean, ancestorIsOpaque_clean, split_rel by done.
  rewrite (decide_ext _ _ _ _ (index_file lstat d walk Hd Hw Hb l n Hl Hn Hp)).
  rewrite (ancestors_rel l n), existsb_fmap.
  case_decide as E; [by rewrite E |]. apply not_true_is_false in E. rewrite E. simpl.
  apply existsb_eq_on. intros k Hk. apply elem_of_seq in Hk.
  assert (take k l ≠ []) as Hne by (destruct l, k; simpl in *; done || lia).
  assert (Forall seg (take k l)) as Hf by by apply Forall_take.
  pose proof (index_opaque lstat d walk Hd Hw Hb (take k l) Hne Hf) as Ho.
  case_bool_decide as Hx; [symmetry; by apply Ho |].
  symmetry. apply not_true_is_false. by rewrite <- Ho.
Qed.

(** ** Witnesses *)

Definition sample_layer (id diff : string) : LayerInfo :=
  {| li_ID := id; li_DiffPath := diff; li_ChainID := EmptyString; li_Labels := ∅ |}.

Definition sample_registry : LayerRegistry :=
  <["base" := sample_layer "base" "/l/base"]> (<["top" := sample_layer "top" "/l/top"]> ∅).

(** The base has [usr/a] and [usr/b]; the top layer replaced [usr] by a directory with [c]. *)
Definition sample_fs (p : string) : bool :=
  bool_decide (p ∈ ["/l/base/usr/a"; "/l/base/usr/b"; "/l/base/etc/hosts"; "/l/top/usr/c";
                    "/l/top/usr/.wh..wh..opq"; "/l/top/etc/.wh.hosts"; "/l/base/bin"]).

Lemma owner_is_topmost_witness :
  let find p := (overlay_FindOwnerLayer sample_fs sample_registry ctx_background ["base"; "top"] p
                   (NewOverlayResolver 0)).1 in
  find "bin" = Ok "base" ∧ find "etc/hosts" = Err ErrWhiteout ∧ find "etc/passwd" = Err ErrLayerNotFound ∧
  ∃ lower upper, ["base"; "top"] = lower ++ "base" :: upper ∧
    passes (λ l, stat_answer l (layer_stat sample_fs sample_registry "bin" l)) upper ∧
    layer_stat sample_fs sample_registry "bin" "base" = Ok StatPresent.
Proof.
  split_and!; [vm_compute; reflexivity .. |].
  assert (overlay_truthful sample_fs sample_registry (NewOverlayResolver 0)) as Ht
    by (intros k v Hv; simpl in Hv; by rewrite lookup_empty in Hv).
  pose proof (owner_is_topmost sample_fs sample_registry ["base"; "top"] "bin" _ Ht) as H.
  assert ((overlay_FindOwnerLayer sample_fs sample_registry ctx_background ["base"; "top"] "bin"
             (NewOverlayResolver 0)).1 = Ok "base") as E by (vm_compute; reflexivity).
  rewrite E in H. exact H.
Defined.

Lemma ring_spec_witness :
  let r := ring_Set "l1" "a" StatPresent (NewRingStatCache 4) in
  ring_lookup (skey "l2" "b") (ring_Set "l2" "b" StatAbsent r) = Some StatAbsent ∧
  ring_lookup (skey "l1" "a") (ring_Set "l2" "b" StatAbsent r) = Some StatPresent ∧
  ring_lookup (skey "l1" "a") (ring_InvalidateLayer "l1" r) = None.
Proof.
  set (r := ring_Set _ _ _ _).
  assert (ring_wf r) as Hw by apply ring_Set_wf, New_ring_wf.
  destruct (ring_spec r "l2" "b" StatAbsent (skey "l1" "a") Hw) as (_ & _ & _ & _ & H1 & H2 & _).
  destruct (ring_spec r "l1" "b" StatAbsent (skey "l1" "a") Hw) as (_ & _ & _ & _ & _ & _ & H3).
  split_and!; [exact H1 | | rewrite H3; reflexivity].
  rewrite H2; [vm_compute; reflexivity | discriminate |].
  intros _ e He [Hv _]. vm_compute in He. by simplify_eq.
Defined.

Lemma ring_fifo_witness :
  ring_lookup (skey "l" "a")
    (foldl (λ r x, ring_Set x.1.1 x.1.2 x.2 r) (ring_Set "l" "a" StatPresent (NewRingStatCache 0))
       [("l", "b", StatAbsent); ("l", "c", StatAbsent); ("l", "d", StatPresent)]) = Some StatPresent
  ∧ ring_lookup (skey "l" "a")
    (foldl (λ r x, ring_Set x.1.1 x.1.2 x.2 r) (ring_Set "l" "a" StatPresent (NewRingStatCache 0))
       [("l", "b", StatAbsent); ("l", "c", StatAbsent); ("l", "d", StatPresent); ("l", "e", StatPresent)])
     = None.
Proof.
  split; [| vm_compute; reflexivity].
  apply ring_fifo; [apply New_ring_wf | vm_compute; reflexivity | | vm_compute; lia].
  repeat constructor; discriminate.
Defined.

Lemma seg_all_dec l : bool_decide (Forall seg l) = true → Forall seg l.
Proof. apply bool_decide_eq_true_1. Qed.

Lemma oci_against_overlay_witness :
  oci_step sample_fs sample_registry "usr/c" "top"
  = stat_answer "top" (layer_stat sample_fs sample_registry "usr/c" "top").
Proof.
  destruct (oci_against_overlay sample_fs sample_registry "top" (sample_layer "top" "/l/top")
    ["l"; "top"] ["usr"] "c") as [H _];
    [reflexivity | reflexivity | apply seg_all_dec; vm_compute; reflexivity ..
    | apply (bool_decide_eq_true_1 _); vm_compute; reflexivity |].
  exact (H ltac:(done)).
Defined.

Lemma opaque_hides_own_layer_witness :
  sample_fs "/l/top/usr/c" = true ∧
  (overlay_FindOwnerLayer sample_fs sample_registry ctx_background ["base"; "top"] "usr/c"
     (NewOverlayResolver 0)).1 = Err ErrWhiteout ∧
  oci_FindOwnerLayer sample_fs sample_registry ctx_background ["base"; "top"] "usr/c" = Err ErrWhiteout.
Proof.
  apply (opaque_hides_own_layer sample_fs sample_registry "top" (sample_layer "top" "/l/top")
    ["l"; "top"] ["usr"] "c" ["base"] (NewOverlayResolver 0));
    [reflexivity | reflexivity | apply seg_all_dec; vm_compute; reflexivity ..
    | apply (bool_decide_eq_true_1 _); vm_compute; reflexivity | done | | |].
  - intros k v Hv. simpl in Hv. by rewrite lookup_empty in Hv.
  - vm_compute. reflexivity.
  - vm_compute. reflexivity.
Defined.

Definition tiny_fs (p : string) : bool := bool_decide (p = "/l/usr/.wh..wh..opq").

Lemma tiny_walk :
  walk_of tiny_fs ["l"] [("/l", None); ("/l/usr/.wh..wh..opq", None)].
Proof.
  split.
  - intros v [->|[->|Hv]%elem_of_cons]%elem_of_cons; [exists [] | exists ["usr"; opq] | by apply elem_of_nil in Hv];
      (split; [apply seg_all_dec; vm_compute; reflexivity | vm_compute; reflexivity]).
  - intros x Hne Hx. unfold below, tiny_fs. rewrite bool_decide_eq_true.
    rewrite elem_of_cons, list_elem_of_singleton. split.
    + intros [E|E]; apply (f_equal fst) in E; [| done]. exfalso. apply Hne.
      change (abs_path (["l"] ++ x) = abs_path ["l"]) in E. apply abs_path_inj in E;
        [by injection E | apply Forall_app; split; [| done] |]; apply seg_all_dec; vm_compute; reflexivity.
    + intros ->. by right.
Qed.

Lemma whiteout_index_agrees_witness :
  IsMasked (BuildWhiteoutIndex "/l" [("/l", None); ("/l/usr/.wh..wh..opq", None)]) "usr/lib/x"
  = hasFileWhiteout tiny_fs "/l" "usr/lib/x" || ancestorIsOpaque tiny_fs "/l" "usr/lib/x".
Proof.
  apply (whiteout_index_agrees tiny_fs ["l"] _ ["usr"; "lib"] "x");
    [apply seg_all_dec; vm_compute; reflexivity .. | apply (bool_decide_eq_true_1 _); vm_compute; reflexivity
    | vm_compute; reflexivity | | apply tiny_walk].
  intros d' b E. destruct d' as [|? d']; [| by destruct d'].
  injection E as <-. vm_compute. reflexivity.
Defined.
