(* ===== verification/LmAdapter.v ===== *)
(** * LmAdapter: the path part of [pkg/layermerkle/adapter.go]

    Classification of whiteout names, the opaque markers to look for, and the resolver that
    turns a path of the merged view into a relative one.  [ConvertAndSubmit] is in [LmEngine],
    with the engine it submits to. *)
From S2P Require Import Prelude GoStd GoPath LmLayer LmResolver.

(** ** Whiteout classification *)

Inductive WhiteoutType := WhiteoutNone | WhiteoutFile | WhiteoutOpaque | WhiteoutMetadata.

#[export] Instance WhiteoutType_eq_dec : EqDecision WhiteoutType.
Proof. solve_decision. Defined.

Definition whiteoutPrefix : string := ".wh.".
Definition opaqueMarker : string := ".wh..wh..opq".
Definition metaWhiteoutPfx : string := ".wh..wh.".

Definition ClassifyWhiteout (name : string) : WhiteoutType :=
  if decide (name = opaqueMarker) then WhiteoutOpaque
  else if has_prefix name metaWhiteoutPfx then WhiteoutMetadata
  else if has_prefix name whiteoutPrefix then WhiteoutFile
  else WhiteoutNone.

(** [OriginalName]; [None] stands for the pair of the empty string and false. *)
Definition OriginalName (name : string) : option string :=
  if negb (has_prefix name whiteoutPrefix) then None
  else
    let orig := trim_prefix name whiteoutPrefix in
    if decide (orig = EmptyString) then None
    else if has_prefix orig ".wh." then None
    else Some orig.

Definition IsWhiteoutPath (relPath : string) : bool :=
  existsb (λ segment, negb (bool_decide (ClassifyWhiteout segment = WhiteoutNone)))
    (str_split go_slash relPath).

(** The loop of [OpaqueWhiteoutPaths], for [i] from the argument down to 1. *)
Fixpoint opaque_paths (parts : list string) (i : nat) : list string :=
  match i with
  | O => []
  | S i' => (str_join "/" (take i parts) +:+ "/" +:+ opaqueMarker) :: opaque_paths parts i'
  end.

Definition OpaqueWhiteoutPaths (relPath : string) : list string :=
  let parts := str_split go_slash (path_dir relPath) in
  opaque_paths parts (length parts) ++ [opaqueMarker].

(** ** MergedPathResolver: its cleaned directory *)

Definition NewMergedPathResolver (mergedDir : string) : string := path_clean mergedDir.

(** [MergedPathResolver.RelPath] *)
Definition merged_RelPath (mergedDir absPath : string) : result string :=
  let abs := path_clean absPath in
  match path_rel mergedDir abs with
  | Err _ => Err (EWrap [absPath; mergedDir] ErrPathEscapes)
  | Ok rel =>
      if has_prefix rel ".." then Err (EWrap [absPath; mergedDir] ErrPathEscapes) else Ok rel
  end.

(** [MergedPathResolver.BuildAccessEvent] *)
Definition BuildAccessEvent (mergedDir : string) (vertexID : VertexID) (stack : LayerStack)
    (absPath : string) (mask : N) (pid : Z) (ts : Z) : result AccessEvent :=
  match merged_RelPath mergedDir absPath with
  | Err e => Err e
  | Ok rel => Ok {| ev_VertexID := vertexID; ev_LayerStack := stack; ev_RelPath := rel;
                    ev_AbsPath := absPath; ev_Mask := mask; ev_PID := pid; ev_Timestamp := ts |}
  end.

(** ** Lemmas *)

Lemma has_prefix_strip p s t : has_prefix (p +:+ s) (p +:+ t) = has_prefix s t.
Proof.
  destruct (has_prefix s t) eqn:E.
  - apply has_prefix_inv in E as [u ->]. rewrite <- str_app_assoc. apply has_prefix_app.
  - destruct (has_prefix (p +:+ s) _) eqn:E'; [| done]. apply has_prefix_inv in E' as [u E'].
    apply (f_equal (str_drop (String.length p))) in E'. rewrite str_app_assoc, !str_drop_app in E'.
    by rewrite E', has_prefix_app in E.
Qed.

(** [OriginalName] inverts the naming of whiteouts.  It answers with a name exactly when
    the argument is a per-file whiteout of that non-empty name; and the whiteout that
    [whiteoutName] gives a path names that path's file again. *)
Theorem whiteout_names (name orig : string) (l : list string) (n : string) :
  (OriginalName name = Some orig ↔
    ClassifyWhiteout name = WhiteoutFile ∧ name = ".wh." +:+ orig ∧ orig ≠ EmptyString) ∧
  (Forall seg l → seg n → has_prefix n ".wh." = false →
    OriginalName (path_split (whiteoutName (rel_path (l ++ [n])))).2 = Some n).
Proof.
  assert (∀ o, o ≠ EmptyString → has_prefix o ".wh." = false → OriginalName (".wh." +:+ o) = Some o) as Hsome.
  { intros o Ho Hp. unfold OriginalName, whiteoutPrefix. rewrite has_prefix_app, trim_prefix_app. simpl.
    by rewrite decide_False, Hp. }
  split; [split |].
  - unfold OriginalName. destruct (has_prefix name whiteoutPrefix) eqn:Hp; [| done].
    apply has_prefix_inv in Hp as [o ->]. rewrite trim_prefix_app. simpl.
    case_decide as Ho; [done |]. destruct (has_prefix o ".wh.") eqn:Hw; [done |]. intros [= <-].
    split_and!; [| done | done]. unfold ClassifyWhiteout, opaqueMarker, metaWhiteoutPfx, whiteoutPrefix.
    change ".wh..wh." with (".wh." +:+ ".wh."). rewrite has_prefix_strip, Hw, has_prefix_app.
    rewrite decide_False; [done |]. intros E. change ".wh..wh..opq" with (".wh." +:+ (".wh." +:+ ".opq")) in E.
    apply (f_equal (str_drop 4)) in E. change 4 with (String.length ".wh.") in E.
    rewrite !str_drop_app in E. by rewrite E, has_prefix_app in Hw.
  - intros (Hc & -> & Ho). apply Hsome; [done |]. unfold ClassifyWhiteout, metaWhiteoutPfx in Hc.
    change ".wh..wh." with (".wh." +:+ ".wh.") in Hc. rewrite has_prefix_strip in Hc.
    case_decide; [done |]. by destruct (has_prefix orig ".wh.").
  - intros Hl Hn Hp. unfold whiteoutName. rewrite path_split_rel by done.
    rewrite (join_split_dir l (".wh." +:+ n)) by (done || by apply seg_wh).
    rewrite path_split_rel by by apply seg_wh. simpl. apply Hsome; [apply Hn | done].
Qed.

Lemma opaque_paths_seq l i :
  Forall seg l → i ≤ length l →
  opaque_paths l i = (λ k, rel_path (take k l ++ [opq])) <$> reverse (seq 1 i).
Proof.
  intros Hl. induction i as [|i IH]; intros Hi; [done |]. rewrite seq_S, reverse_app, fmap_app.
  cbn [opaque_paths reverse]. rewrite IH by lia. cbn [fmap list_fmap app].
  change (reverse [1 + i]) with [S i]. rewrite fmap_cons. simpl app. f_equal.
  rewrite rel_path_app; [done |]. destruct l; [simpl in Hi; lia | done].
Qed.

(** The opaque markers to look for.  For a path below the root, [OpaqueWhiteoutPaths]
    lists the marker of every ancestor directory, the deepest first, and the marker of the
    root last; [IsWhiteoutPath] tells whether some segment is a whiteout name. *)
Theorem opaque_paths_spec (l : list string) (n : string) :
  Forall seg l → seg n → l ≠ [] →
  OpaqueWhiteoutPaths (rel_path (l ++ [n]))
    = ((λ k, rel_path (take k l ++ [opq])) <$> reverse (seq 1 (length l))) ++ [opq] ∧
  (IsWhiteoutPath (rel_path (l ++ [n])) = true ↔
    ∃ s, s ∈ l ++ [n] ∧ has_prefix s ".wh." = true).
Proof.
  intros Hl Hn Hne. split.
  - unfold OpaqueWhiteoutPaths. rewrite path_dir_rel, decide_False by done.
    assert (str_split go_slash (rel_path l) = l) as ->.
    { apply (str_split_join go_slash); [done |]. eapply Forall_impl; [done |]. apply seg_no_slash. }
    by rewrite opaque_paths_seq.
  - unfold IsWhiteoutPath. rewrite split_rel by done. rewrite existsb_exists.
    assert (∀ s, negb (bool_decide (ClassifyWhiteout s = WhiteoutNone)) = true ↔ has_prefix s ".wh." = true) as Hc.
    { intros s. rewrite negb_true_iff, bool_decide_eq_false. unfold ClassifyWhiteout, opaqueMarker, metaWhiteoutPfx, whiteoutPrefix.
      case_decide as E; [subst; split; [vm_compute | ]; done |].
      destruct (has_prefix s ".wh..wh.") eqn:Hm.
      - apply has_prefix_inv in Hm as [t ->]. change (".wh..wh." +:+ t) with (".wh." +:+ ".wh." +:+ t).
        rewrite has_prefix_app. by split.
      - destruct (has_prefix s ".wh."); naive_solver. }
    split; intros (s & Hs & Hp); exists s; (split; [by apply list_elem_of_In | by apply Hc]).
Qed.

(** [RelPath] never lets a path escape.  For absolute directories and paths, cleaned to
    segments [d] and [l]: it succeeds only when [l] extends [d], with the remaining segments
    as the result; it fails with [ErrPathEscapes] when [l] does not extend [d], and also,
    against its comment, on a path that is inside but whose first remaining segment begins
    with two dots. *)
Theorem merged_RelPath_spec (mergedDir absPath : string) :
  is_rooted mergedDir = true → is_rooted absPath = true →
  ∃ d l, Forall seg d ∧ Forall seg l ∧
    path_clean mergedDir = abs_path d ∧ path_clean absPath = abs_path l ∧
    match merged_RelPath (NewMergedPathResolver mergedDir) absPath with
    | Ok rel => ∃ l', l = d ++ l' ∧ rel = (if decide (l' = []) then "." else rel_path l')
    | Err e => errors_is e ErrPathEscapes = true ∧
        (¬ d `prefix_of` l ∨ ∃ s l', l = d ++ s :: l' ∧ has_prefix s ".." = true)
    end.
Proof.
  intros (d & Hd & Ed)%clean_rooted (l & Hl & El)%clean_rooted. exists d, l.
  split_and!; [done .. |]. unfold merged_RelPath, NewMergedPathResolver. rewrite Ed, El.
  rewrite path_rel_abs by done. case_decide as Heq.
  - subst l. simpl. exists []. by rewrite app_nil_r.
  - destruct (drop_common_spec d l) as (c & E1 & E2).
    destruct (drop_common d l) as [rb rt] eqn:Hdc. cbn [fst snd] in *.
    destruct rb as [|b rb].
    + rewrite app_nil_r in E1. subst c. cbn [fmap list_fmap app].
      destruct rt as [|s rt]; [by rewrite app_nil_r in E2 |].
      assert (seg s) as Hs by (rewrite E2, Forall_app, Forall_cons in Hl; tauto).
      fold (rel_path (s :: rt)). rewrite rel_dots by done. destruct (has_prefix s "..") eqn:Hp.
      * split; [by vm_compute |]. right. by exists s, rt.
      * exists (s :: rt). by rewrite decide_False.
    + assert (has_prefix (str_join "/" (((λ _, "..") <$> b :: rb) ++ rt)) ".." = true) as ->.
      { cbn [fmap list_fmap app]. destruct (prefix_of_dots ".." (((λ _, "..") <$> rb) ++ rt)) as [->|E];
          [by vm_compute | vm_compute in E; lia]. }
      split; [by vm_compute |]. left. intros [l' ->]. by rewrite drop_common_app in Hdc.
Qed.

Lemma whiteout_names_witness :
  OriginalName ".wh.hosts" = Some "hosts" ∧ OriginalName ".wh..wh.plnk" = None ∧
  OriginalName (path_split (whiteoutName "etc/hosts")).2 = Some "hosts".
Proof.
  split_and!; [vm_compute; reflexivity .. |].
  apply (proj2 (whiteout_names ".wh.hosts" "hosts" ["etc"] "hosts"));
    [apply seg_all_dec; vm_compute; reflexivity | apply (bool_decide_eq_true_1 _); vm_compute; reflexivity
    | vm_compute; reflexivity].
Defined.

Lemma opaque_paths_spec_witness :
  OpaqueWhiteoutPaths "usr/lib/x" = ["usr/lib/.wh..wh..opq"; "usr/.wh..wh..opq"; ".wh..wh..opq"].
Proof.
  apply (opaque_paths_spec ["usr"; "lib"] "x");
    [apply seg_all_dec; vm_compute; reflexivity | apply (bool_decide_eq_true_1 _); vm_compute; reflexivity | done].
Defined.

Lemma merged_RelPath_spec_witness :
  merged_RelPath (NewMergedPathResolver "/run/merged/") "/run/merged/usr/./a" = Ok "usr/a" ∧
  merged_RelPath (NewMergedPathResolver "/run/merged/") "/run/merged/../x"
    = Err (EWrap ["/run/merged/../x"; "/run/merged"] ErrPathEscapes) ∧
  merged_RelPath (NewMergedPathResolver "/run/merged/") "/run/merged/..data/x"
    = Err (EWrap ["/run/merged/..data/x"; "/run/merged"] ErrPathEscapes) ∧
  ∃ d l, Forall seg d ∧ Forall seg l ∧ path_clean "/run/merged/" = abs_path d ∧
    path_clean "/run/merged/usr/./a" = abs_path l ∧ ∃ l', l = d ++ l' ∧ "usr/a" = (if decide (l' = []) then "." else rel_path l').
Proof.
  split_and!; [vm_compute; reflexivity .. |].
  exact (merged_RelPath_spec "/run/merged/" "/run/merged/usr/./a" eq_refl eq_refl).
Defined.
