(* ===== verification/LmHasher.v ===== *)
(** * LmHasher: [pkg/layermerkle/hasher.go], [hardlink.go] and [internal/hash/pool.go]

    The file hashers.  [FileHasher] is their interface; a hasher may keep state.  What the
    operating system says of a file when it is opened and read, and of its inode, are
    arguments. *)
From S2P Require Import Prelude GoStd Sha256 LmDigest LmLayer.

(** [FileHasher]; the context is polled from position 0. *)
Class FileHasher (H : Type) := {
  fh_Hash : context → string → H → result FileHash * H;
  fh_Algorithm : H → string;
}.

(** ** internal/hash: a pooled hash is reset before use, so it hashes what it is given *)

Definition SumBytes `{HashFn} (b : list byte) : list byte := hash_fn b.

(** Opening and reading a file. *)
Inductive file_read :=
  | OpenNotExist
  | OpenError (msg : string)
  | ReadError (msg : string)
  | ReadAll (content : list byte).

(** ** SHA256Hasher *)

Definition hashFile `{HashFn} (fs : string → file_read) (absPath : string) : result FileHash :=
  match fs absPath with
  | OpenNotExist => Err (EWrap [absPath] ErrWhiteout)
  | OpenError msg => Err (EWrap ["open"; absPath; msg] ErrHashFailed)
  | ReadError msg => Err (EWrap ["read"; absPath; msg] ErrHashFailed)
  | ReadAll content => Ok (NewDigestFromBytes SHA256 (SumBytes content))
  end.

Record SHA256Hasher := { sha_fs : string → file_read }.

Definition sha_Hash `{HashFn} (ctx : context) (absPath : string) (h : SHA256Hasher)
    : result FileHash * SHA256Hasher :=
  match ctx 0 with
  | Some e => (Err e, h)
  | None => (hashFile (sha_fs h) absPath, h)
  end.

#[export] Instance sha_hasher `{HashFn} : FileHasher SHA256Hasher := {|
  fh_Hash := sha_Hash; fh_Algorithm _ := "sha256" |}.

(** ** HasherChain *)

Fixpoint chain_Hash_loop `{FileHasher H} (ctx : context) (absPath : string) (lastErr : option error)
    (c : list H) : result FileHash * list H :=
  match c with
  | [] => (match lastErr with None => Ok EmptyString | Some e => Err e end, [])
  | h :: rest =>
      match fh_Hash ctx absPath h with
      | (Ok d, h) => (Ok d, h :: rest)
      | (Err e, h) => let '(r, rest) := chain_Hash_loop ctx absPath (Some e) rest in (r, h :: rest)
      end
  end.

Definition chain_Algorithm `{FileHasher H} (c : list H) : string :=
  match c with [] => "none" | h :: _ => fh_Algorithm h end.

#[export] Instance hasher_chain `{FileHasher H} : FileHasher (list H) := {|
  fh_Hash ctx p c := chain_Hash_loop ctx p None c; fh_Algorithm := chain_Algorithm |}.

(** ** HardLinkAwareHasher *)

Record InodeKey := { ik_Dev : N; ik_Inode : N }.

#[export] Instance InodeKey_eq_dec : EqDecision InodeKey.
Proof. solve_decision. Defined.

#[export] Instance InodeKey_countable : Countable InodeKey.
Proof.
  by apply (inj_countable' (λ k, (ik_Dev k, ik_Inode k)) (λ p, {| ik_Dev := p.1; ik_Inode := p.2 |})); intros [].
Defined.

(** What [Lstat] reports: an error, or a FileInfo with or without a Stat_t. *)
Inductive stat_info := StatError (e : error) | StatSys (dev ino : N) | StatNoSys.

(** [inodeFromFileInfo] of inode_linux.go *)
Definition inodeFromFileInfo_linux (info : stat_info) : InodeKey :=
  match info with
  | StatSys dev ino => {| ik_Dev := dev; ik_Inode := ino |}
  | _ => {| ik_Dev := 0; ik_Inode := 0 |}
  end.

(** [inodeFromFileInfo] of inode_other.go *)
Definition inodeFromFileInfo_other (_ : stat_info) : InodeKey := {| ik_Dev := 0; ik_Inode := 0 |}.

Definition readInode (inodeFromFileInfo : stat_info → InodeKey) (lstat : string → stat_info)
    (absPath : string) : result InodeKey :=
  match lstat absPath with
  | StatError e => Err (EWrap ["lstat"; absPath] e)
  | info => Ok (inodeFromFileInfo info)
  end.

Record HardLinkAwareHasher (H : Type) := { hl_inner : H; hl_inodeMap : gmap InodeKey FileHash }.
Arguments hl_inner {H}.
Arguments hl_inodeMap {H}.

Definition NewHardLinkAwareHasher {H} (inner : H) : HardLinkAwareHasher H :=
  {| hl_inner := inner; hl_inodeMap := ∅ |}.

(** [HardLinkAwareHasher.Hash]; [inode_of] is [readInode] on the platform and file system. *)
Definition hl_Hash `{FileHasher H} (inode_of : string → result InodeKey) (ctx : context)
    (absPath : string) (h : HardLinkAwareHasher H) : result FileHash * HardLinkAwareHasher H :=
  match inode_of absPath with
  | Err _ =>
      let '(r, inner) := fh_Hash ctx absPath (hl_inner h) in
      (r, {| hl_inner := inner; hl_inodeMap := hl_inodeMap h |})
  | Ok inode =>
      match hl_inodeMap h !! inode with
      | Some cached => (Ok cached, h)
      | None =>
          match fh_Hash ctx absPath (hl_inner h) with
          | (Err e, inner) => (Err e, {| hl_inner := inner; hl_inodeMap := hl_inodeMap h |})
          | (Ok hash, inner) => (Ok hash, {| hl_inner := inner; hl_inodeMap := <[inode := hash]> (hl_inodeMap h) |})
          end
      end
  end.

Definition hl_InvalidateAll {H} (h : HardLinkAwareHasher H) : HardLinkAwareHasher H :=
  {| hl_inner := hl_inner h; hl_inodeMap := ∅ |}.

Definition hl_InodeCacheLen {H} (h : HardLinkAwareHasher H) : nat := size (hl_inodeMap h).

(** ** What clients may assume of a hasher on a file system that does not change *)

(** A hasher is faithful to [f] under [I] when, without cancellation, it answers [f] and keeps
    [I]. *)
Definition hasher_faithful `{FileHasher H} (I : H → Prop) (f : string → result FileHash) : Prop :=
  ∀ p h, I h → (fh_Hash ctx_background p h).1 = f p ∧ I (fh_Hash ctx_background p h).2.

Lemma sha_faithful `{HashFn} fs : hasher_faithful (λ h, sha_fs h = fs) (hashFile fs).
Proof. intros p h <-. done. Qed.

(** Hashing through the inode cache is transparent.  When files that share an inode have
    the same hash (hard links), any sequence of [Hash] calls on the hard-link-aware hasher
    answers what the inner hasher answers. *)
Theorem hardlink_transparent `{FileHasher H} (I : H → Prop) (f : string → result FileHash)
    (inode_of : string → result InodeKey) (inner : H) (paths : list string) (p : string) :
  hasher_faithful I f → I inner →
  (∀ p q i, inode_of p = Ok i → inode_of q = Ok i → f p = f q) →
  let h := foldl (λ h q, (hl_Hash inode_of ctx_background q h).2) (NewHardLinkAwareHasher inner) paths in
  (hl_Hash inode_of ctx_background p h).1 = f p.
Proof.
  intros Hf HI Hlink.
  pose (J := λ h : HardLinkAwareHasher H, I (hl_inner h) ∧
    ∀ i v, hl_inodeMap h !! i = Some v → ∀ q, inode_of q = Ok i → f q = Ok v).
  assert (∀ q h, J h → (hl_Hash inode_of ctx_background q h).1 = f q
                       ∧ J (hl_Hash inode_of ctx_background q h).2) as Hstep.
  { intros q h [HIh Hm]. unfold hl_Hash. destruct (Hf q (hl_inner h) HIh) as [E HI'].
    destruct (fh_Hash ctx_background q (hl_inner h)) as [r inner'] eqn:Hh. simpl in E, HI'. subst r.
    destruct (inode_of q) as [i|] eqn:Hi; [| by split].
    destruct (hl_inodeMap h !! i) as [v|] eqn:Hv; [split; [symmetry; by eapply Hm | by split] |].
    destruct (f q) as [v|e] eqn:Hq; [| by split]. split; [done |]. split; [done |]. simpl.
    intros j w. rewrite lookup_insert_Some. intros [[<- <-]|[_ Hw]] q' Hq'; [| by eapply Hm].
    rewrite <- Hq. by eapply Hlink. }
  intros h. apply Hstep. unfold h. assert (J (NewHardLinkAwareHasher inner)) as HJ.
  { split; [done |]. intros i v. simpl. by rewrite lookup_empty. }
  revert HJ. generalize (NewHardLinkAwareHasher inner) as h0. clear h.
  induction paths as [|q paths IH]; intros h0 HJ; [done |]. by apply IH, Hstep.
Qed.

(** On platforms other than Linux the hard-link-aware hasher confuses files.  There every
    existing file has the same inode key, so once one file was hashed, every other file gets
    the hash of that one, until [InvalidateAll]. *)
Theorem hardlink_other_confuses `{FileHasher H} (lstat : string → stat_info) (h : HardLinkAwareHasher H)
    (ctx ctx' : context) (p q : string) (d : FileHash) :
  (∀ e, lstat p ≠ StatError e) → (∀ e, lstat q ≠ StatError e) →
  let inode_of := readInode inodeFromFileInfo_other lstat in
  (hl_Hash inode_of ctx p h).1 = Ok d →
  (hl_Hash inode_of ctx' q (hl_Hash inode_of ctx p h).2).1 = Ok d.
Proof.
  intros Hp Hq inode_of.
  assert (∀ r, (∀ e, lstat r ≠ StatError e) → inode_of r = Ok {| ik_Dev := 0; ik_Inode := 0 |}) as Hi.
  { intros r Hr. unfold inode_of, readInode, inodeFromFileInfo_other. destruct (lstat r) eqn:E; [by destruct (Hr e) | done | done]. }
  unfold hl_Hash. rewrite (Hi p Hp), (Hi q Hq).
  destruct (hl_inodeMap h !! _) as [v|] eqn:Hv; [intros [= ->]; cbn; by rewrite Hv |].
  destruct (fh_Hash ctx p (hl_inner h)) as [[v|e] inner]; [| done]. intros [= ->]. cbn.
  by rewrite lookup_insert_eq.
Qed.

Definition chain_first_ok (rs : list (result FileHash)) (r : result FileHash) : Prop :=
  match r with
  | Ok d => (rs = [] ∧ d = EmptyString) ∨
            ∃ l1 l2, rs = l1 ++ Ok d :: l2 ∧ Forall (λ x, ∃ e, x = Err e) l1
  | Err e => last rs = Some (Err e) ∧ Forall (λ x, ∃ e, x = Err e) rs
  end.

Lemma chain_loop `{FileHasher H} (ctx : context) (p : string) (c : list H) e0 :
  let rs := (λ h, (fh_Hash ctx p h).1) <$> c in
  match (chain_Hash_loop ctx p (Some e0) c).1 with
  | Ok d => ∃ l1 l2, rs = l1 ++ Ok d :: l2 ∧ Forall (λ x, ∃ e, x = Err e) l1
  | Err e => last (Err e0 :: rs) = Some (Err e) ∧ Forall (λ x, ∃ e, x = Err e) rs
  end.
Proof.
  revert e0. induction c as [|h c IH]; intros e0; csimpl; [by split |].
  destruct (fh_Hash ctx p h) as [[d|e] h'] eqn:E; simpl.
  - eexists [], _. split; [done | constructor].
  - specialize (IH e). destruct (chain_Hash_loop ctx p (Some e) c) as [[d|e'] c']; simpl in *.
    + destruct IH as (l1 & l2 & -> & Hl). exists (Err e :: l1), l2. split; [done |]. constructor; eauto.
    + destruct IH as [Hl Ha]. split; [done |]. constructor; eauto.
Qed.

(** A chain of hashers answers the first success, and the last error when all fail; but
    the empty chain succeeds, with the empty hash. *)
Theorem chain_spec `{FileHasher H} (ctx : context) (p : string) (c : list H) :
  chain_first_ok ((λ h, (fh_Hash ctx p h).1) <$> c) (fh_Hash ctx p c).1.
Proof.
  cbn [fh_Hash hasher_chain]. destruct c as [|h c]; [by left |]. cbn [chain_Hash_loop]. csimpl.
  destruct (fh_Hash ctx p h) as [[d|e] h'] eqn:E; simpl.
  - right. eexists [], _. split; [done | constructor].
  - pose proof (chain_loop ctx p c e) as Hl.
    destruct (chain_Hash_loop ctx p (Some e) c) as [[d|e'] c']; simpl in *.
    + destruct Hl as (l1 & l2 & E1 & Hl). right. exists (Err e :: l1), l2. rewrite E1.
      split; [done |]. constructor; eauto.
    + destruct Hl as [Hl Ha]. split; [done |]. constructor; eauto.
Qed.

(** ** Witnesses *)

Definition two_files (p : string) : file_read :=
  if decide (p = "/a" ∨ p = "/a2") then ReadAll (str_bytes "hello")
  else if decide (p = "/b") then ReadAll (str_bytes "world") else OpenNotExist.

Definition two_inodes (p : string) : stat_info :=
  if decide (p = "/a" ∨ p = "/a2") then StatSys 1 7
  else if decide (p = "/b") then StatSys 1 8 else StatError (ESentinel "not exist").

Lemma hardlink_transparent_witness :
  let inode_of := readInode inodeFromFileInfo_linux two_inodes in
  (hl_Hash inode_of ctx_background "/a2"
     (foldl (λ h q, (hl_Hash inode_of ctx_background q h).2)
        (NewHardLinkAwareHasher {| sha_fs := two_files |}) ["/a"; "/b"; "/c"])).1
  = hashFile two_files "/a2".
Proof.
  apply (hardlink_transparent (λ h, sha_fs h = two_files)); [apply sha_faithful | done |].
  intros p q i. unfold readInode, two_inodes, hashFile, two_files.
  repeat case_decide; try done; intros [= <-]; done.
Defined.

Lemma hardlink_other_confuses_witness :
  let inode_of := readInode inodeFromFileInfo_other two_inodes in
  let h := NewHardLinkAwareHasher {| sha_fs := two_files |} in
  hashFile two_files "/a" ≠ hashFile two_files "/b" ∧
  (hl_Hash inode_of ctx_background "/b" (hl_Hash inode_of ctx_background "/a" h).2).1
    = hashFile two_files "/a".
Proof.
  split; [vm_compute; discriminate |].
  change (hashFile two_files "/a") with (Ok (NewDigestFromBytes SHA256 (sha256 (str_bytes "hello")))).
  apply hardlink_other_confuses; [intros e; vm_compute; discriminate .. | reflexivity].
Defined.
