(* ===== verification/LmDedup.v ===== *)
(** * LmDedup: [pkg/layermerkle/deduplicator.go] and [hooks.go]

    The deduplication engine, over any cache, hasher and resolver (the interfaces
    [HashCache], [FileHasher] and [LayerFileResolver]), and the vertex processor that collects
    its results into trees.  Hooks act on a state [W] of their own.  The engine is modelled
    call by call: a [Do] of the singleflight group without a concurrent call of the same key
    runs its function (concurrent workers are the subject of [LmWorkers]). *)
From S2P Require Import Prelude GoStd GoPath Sha256 LmDigest LmLayer LmTrie LmMerkle LmCache LmResolver LmHasher.

(** ** The interface [LayerFileResolver] *)

Class LayerFileResolver (R : Type) := {
  lr_FindOwnerLayer : context → LayerStack → string → R → result LayerID * R;
  lr_DiffAbsPath : LayerID → string → R → result string * R;
}.

(** A resolver with what it reads: the file system and the registry. *)
Record fs_resolver (S : Type) := {
  fr_lstat : string → bool; fr_registry : LayerRegistry; fr_state : S;
}.
Arguments fr_lstat {S}.
Arguments fr_registry {S}.
Arguments fr_state {S}.

Definition fr_with {S A} (r : fs_resolver S) (x : A * S) : A * fs_resolver S :=
  (x.1, {| fr_lstat := fr_lstat r; fr_registry := fr_registry r; fr_state := x.2 |}).

#[export] Instance overlay_resolver : LayerFileResolver (fs_resolver OverlayResolver) := {|
  lr_FindOwnerLayer ctx stack p r :=
    fr_with r (overlay_FindOwnerLayer (fr_lstat r) (fr_registry r) ctx stack p (fr_state r));
  lr_DiffAbsPath l p r := fr_with r (overlay_DiffAbsPath (fr_lstat r) (fr_registry r) l p (fr_state r)) |}.

#[export] Instance ring_resolver : LayerFileResolver (fs_resolver RingStatCache) := {|
  lr_FindOwnerLayer ctx stack p r :=
    fr_with r (ringres_FindOwnerLayer (fr_lstat r) (fr_registry r) ctx stack p (fr_state r));
  lr_DiffAbsPath l p r := (ringres_DiffAbsPath (fr_registry r) l p, r) |}.

(** ** hooks.go *)

Inductive hook_event :=
  | OnCacheHit (req : HashRequest) (res : HashResult)
  | OnHashStart (req : HashRequest)
  | OnHashComplete (req : HashRequest) (h : FileHash)
  | OnHashError (req : HashRequest) (e : error)
  | OnEventDropped (ev : AccessEvent) (reason : error)
  | OnVertexFinalized (tree : MerkleTree).

(** [EngineHook] and [HookChain]: an event goes to every hook, in order. *)
Definition EngineHook (W : Type) := hook_event → W → W.
Definition HookChain (W : Type) := list (EngineHook W).

Definition chain_fire {W} (c : HookChain W) (ev : hook_event) (w : W) : W :=
  foldl (λ w h, h ev w) w c.

Record CountingSnapshot := {
  cnt_CacheHits : Z; cnt_HashStarts : Z; cnt_HashErrors : Z; cnt_Dropped : Z; cnt_Finalized : Z;
}.

(** The methods of [CountingHook]; [OnHashComplete] is the one of the embedded [NoopHook]. *)
Definition CountingHook (ev : hook_event) (s : CountingSnapshot) : CountingSnapshot :=
  let '(Build_CountingSnapshot hits starts errors dropped finalized) := s in
  match ev with
  | OnCacheHit _ _ => Build_CountingSnapshot (hits + 1) starts errors dropped finalized
  | OnHashStart _ => Build_CountingSnapshot hits (starts + 1) errors dropped finalized
  | OnHashComplete _ _ => s
  | OnHashError _ _ => Build_CountingSnapshot hits starts (errors + 1) dropped finalized
  | OnEventDropped _ _ => Build_CountingSnapshot hits starts errors (dropped + 1) finalized
  | OnVertexFinalized _ => Build_CountingSnapshot hits starts errors dropped (finalized + 1)
  end.

(** ** DeduplicationEngine *)

Section engine.
Context {C H R W : Type} `{HashCache C, FileHasher H, LayerFileResolver R}.

Record DeduplicationEngine := {
  de_cache : C; de_hasher : H; de_resolver : R; de_hooks : HookChain W; de_world : W;
}.

Definition de_set_cache (c : C) (e : DeduplicationEngine) : DeduplicationEngine :=
  {| de_cache := c; de_hasher := de_hasher e; de_resolver := de_resolver e;
     de_hooks := de_hooks e; de_world := de_world e |}.
Definition de_set_hasher (h : H) (e : DeduplicationEngine) : DeduplicationEngine :=
  {| de_cache := de_cache e; de_hasher := h; de_resolver := de_resolver e;
     de_hooks := de_hooks e; de_world := de_world e |}.
Definition de_set_resolver (r : R) (e : DeduplicationEngine) : DeduplicationEngine :=
  {| de_cache := de_cache e; de_hasher := de_hasher e; de_resolver := r;
     de_hooks := de_hooks e; de_world := de_world e |}.
Definition de_fire (ev : hook_event) (e : DeduplicationEngine) : DeduplicationEngine :=
  {| de_cache := de_cache e; de_hasher := de_hasher e; de_resolver := de_resolver e;
     de_hooks := de_hooks e; de_world := chain_fire (de_hooks e) ev (de_world e) |}.

Definition NewDeduplicationEngine (cache : C) (hasher : H) (resolver : R) (hooks : HookChain W) (w : W)
    : DeduplicationEngine :=
  {| de_cache := cache; de_hasher := hasher; de_resolver := resolver; de_hooks := hooks; de_world := w |}.

Definition ok_result (req : HashRequest) (h : FileHash) (owner : LayerID) (cached : bool) : HashResult :=
  {| res_VertexID := req_VertexID req; res_RelPath := req_RelPath req; res_Hash := h;
     res_OwnerLayerID := owner; res_FromCache := cached; res_Err := None |}.

Definition err_result (req : HashRequest) (e : error) : HashResult :=
  {| res_VertexID := req_VertexID req; res_RelPath := req_RelPath req; res_Hash := EmptyString;
     res_OwnerLayerID := EmptyString; res_FromCache := false; res_Err := Some e |}.

(** [if topLayer != ownerLayer { e.cache.Set(topLayer, relPath, h) }] *)
Definition set_top (now : Z) (req : HashRequest) (ownerLayer : LayerID) (h : FileHash)
    (e : DeduplicationEngine) : DeduplicationEngine :=
  let topLayer := LayerStack_Top (req_LayerStack req) in
  if decide (topLayer ≠ ownerLayer)
  then de_set_cache (hc_Set now topLayer (req_RelPath req) h (de_cache e)) e else e.

(** [DeduplicationEngine.resolve], with the clock at [now] *)
Definition dedup_resolve (now : Z) (ctx : context) (req : HashRequest) (e : DeduplicationEngine)
    : result HashResult * DeduplicationEngine :=
  match lr_FindOwnerLayer ctx (req_LayerStack req) (req_RelPath req) (de_resolver e) with
  | (Err err, r) =>
      let e := de_set_resolver r e in
      (Err (if errors_is err ErrWhiteout then ErrWhiteout
            else EWrap ["resolve owner for"; req_RelPath req] err), e)
  | (Ok ownerLayer, r) =>
      let e := de_set_resolver r e in
      match hc_Get now ownerLayer (req_RelPath req) (de_cache e) with
      | (Some h, c) =>
          let res := ok_result req h ownerLayer true in
          let e := set_top now req ownerLayer h (de_set_cache c e) in
          (Ok res, de_fire (OnCacheHit req res) e)
      | (None, c) =>
          let e := de_set_cache c e in
          match lr_DiffAbsPath ownerLayer (req_RelPath req) (de_resolver e) with
          | (Err err, r) =>
              (Err (EWrap ["diff abs path"; req_RelPath req; ownerLayer] err), de_set_resolver r e)
          | (Ok absPath, r) =>
              let e := de_fire (OnHashStart req) (de_set_resolver r e) in
              match fh_Hash ctx absPath (de_hasher e) with
              | (Err err, h') =>
                  (Err (EWrap ["hash"; absPath] err), de_fire (OnHashError req err) (de_set_hasher h' e))
              | (Ok h, h') =>
                  let e := de_fire (OnHashComplete req h) (de_set_hasher h' e) in
                  let e := de_set_cache (hc_Set now ownerLayer (req_RelPath req) h (de_cache e)) e in
                  (Ok (ok_result req h ownerLayer false), set_top now req ownerLayer h e)
              end
          end
      end
  end.

(** [DeduplicationEngine.Resolve] *)
Definition dedup_Resolve (now : Z) (ctx : context) (req : HashRequest) (e : DeduplicationEngine)
    : HashResult * DeduplicationEngine :=
  if negb (LayerStack_Valid (req_LayerStack req))
  then (err_result req (EWrap ["empty stack for"; req_RelPath req] ErrInvalidLayerStack), e)
  else
    let topLayer := LayerStack_Top (req_LayerStack req) in
    match hc_Get now topLayer (req_RelPath req) (de_cache e) with
    | (Some h, c) =>
        let res := ok_result req h topLayer true in
        (res, de_fire (OnCacheHit req res) (de_set_cache c e))
    | (None, c) =>
        match dedup_resolve now ctx req (de_set_cache c e) with
        | (Err err, e) => (err_result req err, e)
        | (Ok res, e) => (res, e)
        end
    end.
End engine.
Arguments DeduplicationEngine : clear implicits.

(** [singleflightKey] *)
Definition singleflightKey (stack : LayerStack) (relPath : string) : string :=
  NewLayerStackKey stack +:+ char_str go_nul +:+ relPath.

(** ** VertexProcessor *)

Section processor.
Context {C H R W : Type} `{HashCache C, FileHasher H, LayerFileResolver R} `{HashFn, GoSort, GoRange}.

Record VertexProcessor := {
  vp_engine : DeduplicationEngine C H R W;
  vp_forest : MerkleForest;
  vp_builders : gmap string MerkleTreeBuilder;
  vp_trees : list MerkleTree; (** what [onTree] was called with *)
}.

Definition NewVertexProcessor (engine : DeduplicationEngine C H R W) (forest : MerkleForest)
    : VertexProcessor :=
  {| vp_engine := engine; vp_forest := forest; vp_builders := ∅; vp_trees := [] |}.

(** [getOrCreateBuilder]: the builder that the map holds afterwards *)
Definition getOrCreateBuilder (vertexID : VertexID) (stack : LayerStack) (vp : VertexProcessor)
    : MerkleTreeBuilder :=
  default (NewMerkleTreeBuilder vertexID stack) (vp_builders vp !! vertexID).

Definition event_request (ev : AccessEvent) : HashRequest :=
  {| req_VertexID := ev_VertexID ev; req_LayerStack := ev_LayerStack ev;
     req_RelPath := ev_RelPath ev; req_AbsPath := ev_AbsPath ev |}.

(** [VertexProcessor.Process] *)
Definition vp_Process (now : Z) (ctx : context) (ev : AccessEvent) (vp : VertexProcessor)
    : HashResult * VertexProcessor :=
  let '(res, engine) := dedup_Resolve now ctx (event_request ev) (vp_engine vp) in
  match res_Err res with
  | Some _ => (res, {| vp_engine := engine; vp_forest := vp_forest vp;
                       vp_builders := vp_builders vp; vp_trees := vp_trees vp |})
  | None =>
      let b := getOrCreateBuilder (ev_VertexID ev) (ev_LayerStack ev) vp in
      (res, {| vp_engine := engine; vp_forest := vp_forest vp;
               vp_builders := <[ev_VertexID ev := builder_Add b res]> (vp_builders vp);
               vp_trees := vp_trees vp |})
  end.

(** [VertexProcessor.FinalizeVertex], at time [now] *)
Definition vp_FinalizeVertex (now : Z) (vertexID : VertexID) (vp : VertexProcessor)
    : result MerkleTree * VertexProcessor :=
  match vp_builders vp !! vertexID with
  | None => (Err (EWrap [vertexID] ErrVertexClosed), vp)
  | Some b =>
      let tree := builder_Finalize b now in
      (Ok tree, {| vp_engine := vp_engine vp; vp_forest := forest_Add (vp_forest vp) tree;
                   vp_builders := delete vertexID (vp_builders vp);
                   vp_trees := vp_trees vp ++ [tree] |})
  end.

Definition vp_ActiveVertexIDs (vp : VertexProcessor) : list VertexID :=
  (map_range (vp_builders vp)).*1.
End processor.
Arguments VertexProcessor : clear implicits.

(** ** The ideal result, with no caches *)

(** A resolver is faithful to [owner] and [path] when, without cancellation, it answers them
    and keeps its invariant. *)
Definition resolver_faithful `{LayerFileResolver R} (I : R → Prop)
    (owner : LayerStack → string → result LayerID) (path : LayerID → string → result string) : Prop :=
  ∀ r, I r →
    (∀ stack p, (lr_FindOwnerLayer ctx_background stack p r).1 = owner stack p
                ∧ I (lr_FindOwnerLayer ctx_background stack p r).2) ∧
    (∀ l p, (lr_DiffAbsPath l p r).1 = path l p ∧ I (lr_DiffAbsPath l p r).2).

(** The owner of a path is also the owner when the layers above it are left out. *)
Definition owner_local (owner : LayerStack → string → result LayerID) : Prop :=
  ∀ stack p o, owner stack p = Ok o →
    ∃ lower upper, stack = lower ++ o :: upper ∧ owner (lower ++ [o]) p = Ok o.

(** Layers identified by their chain: every layer stands on one stack, and so do the layers of
    that stack. *)
Definition layer_chain (chain : LayerID → LayerStack) : Prop :=
  ∀ l lower o upper, chain l = lower ++ o :: upper → chain o = lower ++ [o].

Definition ideal_hash (owner : LayerStack → string → result LayerID)
    (path : LayerID → string → result string) (f : string → result FileHash)
    (stack : LayerStack) (p : string) : result FileHash :=
  match owner stack p with
  | Err err => Err (if errors_is err ErrWhiteout then ErrWhiteout else EWrap ["resolve owner for"; p] err)
  | Ok o =>
      match path o p with
      | Err err => Err (EWrap ["diff abs path"; p; o] err)
      | Ok a => match f a with Err err => Err (EWrap ["hash"; a] err) | Ok h => Ok h end
      end
  end.

(** A result as a hash or an error. *)
Definition outcome (r : HashResult) : result FileHash :=
  match res_Err r with Some e => Err e | None => Ok (res_Hash r) end.

Section transparent.
Context {C H R W : Type} `{HashCacheLaws C, FileHasher H, LayerFileResolver R}.
Context (IH : H → Prop) (f : string → result FileHash) (Hf : hasher_faithful IH f).
Context (IR : R → Prop) (owner : LayerStack → string → result LayerID)
  (path : LayerID → string → result string) (Hr : resolver_faithful IR owner path).
Context (Hlocal : owner_local owner) (chain : LayerID → LayerStack) (Hchain : layer_chain chain).

Let ideal := ideal_hash owner path f.

Definition cache_justified (c : C) : Prop :=
  hc_inv c ∧ ∀ l p h, hc_view c (key_of l p) = Some h → ideal (chain l) p = Ok h.

Definition engine_ok (e : DeduplicationEngine C H R W) : Prop :=
  cache_justified (de_cache e) ∧ IH (de_hasher e) ∧ IR (de_resolver e).

Lemma engine_ok_intro e :
  cache_justified (de_cache e) → IH (de_hasher e) → IR (de_resolver e) → engine_ok e.
Proof. done. Qed.

Lemma justified_Get now l p c : cache_justified c → cache_justified (hc_Get now l p c).2.
Proof.
  intros [Hi Hv]. split; [by apply hc_Get_inv |]. intros l' p' h Hh. apply Hv. by eapply hc_Get_view.
Qed.

Lemma justified_Set now l p h c :
  cache_justified c → ideal (chain l) p = Ok h → cache_justified (hc_Set now l p h c).
Proof.
  intros [Hi Hv] Hh. split; [by apply hc_Set_inv |]. intros l' p' h' Hs.
  apply hc_Set_view in Hs as [[E ->]|[_ Hs]]; [| by apply Hv | done]. by simplify_eq.
Qed.

(** The owner's entry is justified by the same file. *)
Lemma ideal_owner l p o : owner (chain l) p = Ok o → ideal (chain o) p = ideal (chain l) p.
Proof.
  intros Ho. destruct (Hlocal _ _ _ Ho) as (lower & upper & E & Ho').
  apply Hchain in E. unfold ideal, ideal_hash. by rewrite E, Ho, Ho'.
Qed.

Definition chain_request (req : HashRequest) : Prop :=
  req_LayerStack req ≠ [] ∧ req_LayerStack req = chain (LayerStack_Top (req_LayerStack req)).

Lemma set_top_ok now req o h e :
  engine_ok e → chain_request req → ideal (req_LayerStack req) (req_RelPath req) = Ok h →
  engine_ok (set_top now req o h e).
Proof.
  intros (Hc & Hh & Hrs) [_ Hreq] Hi. unfold set_top. case_decide; [| done].
  apply engine_ok_intro; [| done | done]. apply justified_Set; [done |]. by rewrite <- Hreq.
Qed.

Lemma resolve_ok now req e :
  engine_ok e → chain_request req →
  engine_ok (dedup_resolve now ctx_background req e).2 ∧
  match (dedup_resolve now ctx_background req e).1 with
  | Err err => ideal (req_LayerStack req) (req_RelPath req) = Err err
  | Ok res => ideal (req_LayerStack req) (req_RelPath req) = Ok (res_Hash res) ∧ res_Err res = None
  end.
Proof.
  intros (Hc & Hh & Hrs) Hreq. pose proof Hreq as [_ Hstack].
  set (stack := req_LayerStack req) in *. set (p := req_RelPath req).
  unfold dedup_resolve. fold stack p.
  destruct (Hr _ Hrs) as [Hfind _]. destruct (Hfind stack p) as [Eo Hrs'].
  destruct (lr_FindOwnerLayer ctx_background stack p (de_resolver e)) as [[o|err] r]; simpl in Eo, Hrs'.
  2: { split; [by apply engine_ok_intro |]. unfold ideal, ideal_hash. by rewrite <- Eo. }
  assert (ideal (chain o) p = ideal stack p) as Eio.
  { rewrite Hstack. apply ideal_owner. by rewrite <- Hstack. }
  cbn [de_set_resolver de_cache de_resolver de_hasher].
  pose proof (justified_Get now o p _ Hc) as Hc'.
  destruct (hc_Get now o p (de_cache e)) as [[h|] c] eqn:Hg; simpl in Hc'.
  - assert (ideal stack p = Ok h) as Eh.
    { rewrite <- Eio. destruct Hc as [Hi Hv]. apply Hv, (hc_Get_sound now); [done |]. by rewrite Hg. }
    split; [| by split]. apply (set_top_ok now req o h); [by apply engine_ok_intro | done | done].
  - destruct (Hr _ Hrs') as [_ Hpath]. destruct (Hpath o p) as [Ep Hrs''].
    change (de_resolver (de_set_cache c (de_set_resolver r e))) with r.
    destruct (lr_DiffAbsPath o p r) as [[a|err] r']; simpl in Ep, Hrs''.
    2: { split; [by apply engine_ok_intro |]. unfold ideal, ideal_hash. by rewrite <- Eo, <- Ep. }
    destruct (Hf a _ Hh) as [Ef Hh'].
    set (e1 := de_fire _ _). change (de_hasher e1) with (de_hasher e).
    destruct (fh_Hash ctx_background a (de_hasher e)) as [[h|err] h']; simpl in Ef, Hh'.
    2: { split; [by apply engine_ok_intro |]. unfold ideal, ideal_hash. by rewrite <- Eo, <- Ep, <- Ef. }
    assert (ideal stack p = Ok h) as Eh by (unfold ideal, ideal_hash; by rewrite <- Eo, <- Ep, <- Ef).
    split; [| by split]. apply set_top_ok; [| done | done].
    apply engine_ok_intro; [| done | done]. apply justified_Set; [done | by rewrite Eio].
Qed.

Lemma Resolve_ok now req e :
  engine_ok e → chain_request req →
  engine_ok (dedup_Resolve now ctx_background req e).2 ∧
  outcome (dedup_Resolve now ctx_background req e).1 = ideal (req_LayerStack req) (req_RelPath req).
Proof.
  intros He Hreq. pose proof He as (Hc & Hh & Hrs). pose proof Hreq as [Hne Hstack]. unfold dedup_Resolve.
  assert (LayerStack_Valid (req_LayerStack req) = true) as ->.
  { unfold LayerStack_Valid. destruct (req_LayerStack req); done. }
  cbn [negb]. set (top := LayerStack_Top _) in *. set (p := req_RelPath req).
  pose proof (justified_Get now top p _ Hc) as Hc'.
  destruct (hc_Get now top p (de_cache e)) as [[h|] c] eqn:Hg; simpl in Hc'.
  - split; [by apply engine_ok_intro |]. unfold outcome. simpl. rewrite Hstack. symmetry.
    destruct Hc as [Hi Hv]. apply Hv, (hc_Get_sound now); [done |]. by rewrite Hg.
  - assert (engine_ok (de_set_cache c e)) as He' by by apply engine_ok_intro.
    destruct (resolve_ok now req _ He' Hreq) as [He'' Hres].
    destruct (dedup_resolve _ _ _ _) as [[res|err] e']; simpl in *; (split; [done |]); unfold outcome.
    + destruct Hres as [Hi ->]. symmetry. exact Hi.
    + symmetry. exact Hres.
Qed.
Lemma run_outcomes e (reqs : list (Z * HashRequest)) :
  engine_ok e → Forall (λ x, chain_request x.2) reqs →
  outcome <$> (run_queries (λ x e, dedup_Resolve x.1 ctx_background x.2 e) reqs e).1
  = (λ x, ideal (req_LayerStack x.2) (req_RelPath x.2)) <$> reqs.
Proof.
  intros Hok Hreqs. revert e Hok. induction Hreqs as [|[now req] reqs Hreq _ IHr]; intros e Hok; [done |].
  csimpl. destruct (Resolve_ok now req e Hok Hreq) as [Hok' Ho].
  destruct (dedup_Resolve now ctx_background req e) as [r e']. simpl in *.
  specialize (IHr e' Hok'). destruct (run_queries _ reqs e') as [rs e'']. csimpl. by f_equal.
Qed.
End transparent.

(** C1: deduplication is transparent.  On a file system that does not change, any sequence of
    [Resolve] calls whose contexts live, over any lawful cache and from an empty one, answers each
    request with the hash of the file in the topmost layer that has it, or with the error of the
    step that fails, as an engine without caches would; provided that each request's layer stack
    is the one its top layer determines, since the cache knows the top layer only (for stacks
    that share a top layer see [second_request_from_cache]). *)
Theorem dedup_transparent {C H R W : Type} `{HashCacheLaws C, FileHasher H, LayerFileResolver R}
    (IH : H → Prop) (f : string → result FileHash) (IR : R → Prop)
    (owner : LayerStack → string → result LayerID) (path : LayerID → string → result string)
    (chain : LayerID → LayerStack) (e : DeduplicationEngine C H R W) (reqs : list (Z * HashRequest)) :
  hasher_faithful IH f → resolver_faithful IR owner path → owner_local owner → layer_chain chain →
  hc_inv (de_cache e) → (∀ k, hc_view (de_cache e) k = None) →
  IH (de_hasher e) → IR (de_resolver e) →
  Forall (λ x, chain_request chain x.2) reqs →
  outcome <$> (run_queries (λ x e, dedup_Resolve x.1 ctx_background x.2 e) reqs e).1
  = (λ x, ideal_hash owner path f (req_LayerStack x.2) (req_RelPath x.2)) <$> reqs.
Proof.
  intros Hf Hr Hl Hch Hi He Hh Hrs Hreqs.
  apply (run_outcomes IH f Hf IR owner path Hr Hl chain Hch); [| done].
  apply engine_ok_intro; [split; [done |] | done | done]. intros l p h. by rewrite He.
Qed.

(** ** The overlay resolver is faithful *)

Definition overlay_path (lstat : string → bool) (reg : LayerRegistry) (l : LayerID) (p : string)
    : result string :=
  match registry_Get reg l with
  | None => Err ErrLayerNotFound
  | Some info =>
      match fsStat lstat info p with
      | StatWhiteout => Err ErrWhiteout
      | StatPresent => Ok (DiffFilePath info p)
      | _ => Err ErrLayerNotFound
      end
  end.

Definition fs_resolver_ok (lstat : string → bool) (reg : LayerRegistry)
    (r : fs_resolver OverlayResolver) : Prop :=
  fr_lstat r = lstat ∧ fr_registry r = reg ∧ overlay_truthful lstat reg (fr_state r).

Lemma overlay_find_spec lstat reg ctx stack p r :
  overlay_truthful lstat reg r →
  (overlay_FindOwnerLayer lstat reg ctx stack p r).1 = owner_spec lstat reg ctx stack p ∧
  overlay_truthful lstat reg (overlay_FindOwnerLayer lstat reg ctx stack p r).2.
Proof.
  intros Hr. apply find_owner_sim; [| | done];
    intros l s **; pose proof (overlay_stat_ok lstat reg l p s) as Hok;
    destruct (overlay_statInLayer _ _ _ _ _); simpl in *; naive_solver.
Qed.

Lemma overlay_faithful lstat reg :
  resolver_faithful (fs_resolver_ok lstat reg)
    (owner_spec lstat reg ctx_background) (overlay_path lstat reg).
Proof.
  intros [ls rg r] (Hls & Hrg & Hr). simpl in *. subst ls rg. split.
  - intros stack p. destruct (overlay_find_spec lstat reg ctx_background stack p r Hr) as [E Ht].
    split; [done |]. by split_and!.
  - intros l p. unfold overlay_DiffAbsPath, overlay_path.
    destruct (registry_Get reg l) as [info|] eqn:Hg; [| by split].
    destruct (overlay_stat_ok lstat reg l p r Hr) as [E Ht]. unfold layer_stat in E. rewrite Hg in E.
    destruct (overlay_statInLayer lstat reg l p r) as [[res|err] r']; simpl in *; [| done].
    injection E as ->. split; [| by split_and!]. by destruct (fsStat lstat info p).
Qed.

Lemma stat_answer_cases l x r : stat_answer l x = Some r → r = Ok l ∨ r = Err ErrWhiteout.
Proof. unfold stat_answer. repeat case_match; naive_solver. Qed.

Lemma owner_spec_local lstat reg : owner_local (owner_spec lstat reg ctx_background).
Proof.
  intros stack p o Ho.
  destruct (owner_split (λ l, stat_answer l (layer_stat lstat reg p l)) stack (Ok o)
    (λ l r, stat_answer_cases l _ r) (eq_sym Ho))
    as [(lower & l & upper & -> & _ & Hl & [[= <-]|?])|[_ ?]]; [| done | done].
  exists lower, upper. split; [done |]. unfold owner_spec. rewrite reverse_snoc. simpl. by rewrite Hl.
Qed.

(** ** What the second of two requests gets *)

Lemma slc_Get_after_Set now l p h c :
  slc_wf c → (slc_Get l p (slc_Set now l p h c)).1 = Some h.
Proof.
  intros Hwf. destruct (slc_Set_local c Hwf l p now h) as (Hw & _ & Href).
  rewrite (proj1 (slc_Get_local _ Hw l p)), Href, decide_True by done.
  unfold ref_get, ref_set. destruct (ref_lookup (key_of l p) (slc_ref c _)); unfold ref_lookup; csimpl;
    by case_decide.
Qed.

Lemma slc_Get_after_Get l p h c :
  slc_wf c → (slc_Get l p c).1 = Some h → (slc_Get l p (slc_Get l p c).2).1 = Some h.
Proof.
  intros Hwf. destruct (slc_Get_local c Hwf l p) as (E & Hw & _ & Href). rewrite E.
  rewrite (proj1 (slc_Get_local _ Hw l p)), Href, decide_True by done.
  unfold ref_get. destruct (ref_lookup (key_of l p) (slc_ref c _)) as [h'|] eqn:Hl; [| done]. simpl.
  intros [= <-]. unfold ref_lookup. csimpl. by case_decide.
Qed.

Section second.
Context {H R W : Type} `{FileHasher H, LayerFileResolver R, GoRange}.

(** After a successful [Resolve], the top layer's entry is in the sharded cache. *)
Lemma Resolve_caches_top now ctx req (e : DeduplicationEngine shardedLRUCache H R W) :
  slc_wf (de_cache e) → res_Err (dedup_Resolve now ctx req e).1 = None →
  (slc_Get (LayerStack_Top (req_LayerStack req)) (req_RelPath req)
     (de_cache (dedup_Resolve now ctx req e).2)).1 = Some (res_Hash (dedup_Resolve now ctx req e).1).
Proof.
  intros Hwf. unfold dedup_Resolve. destruct (negb _); [done |].
  set (top := LayerStack_Top _). set (p := req_RelPath req). cbn [hc_Get shardedLRU_cache].
  destruct (slc_Get_local (de_cache e) Hwf top p) as (Eg & Hw & _).
  destruct (slc_Get top p (de_cache e)) as [[h|] c] eqn:Hg.
  { intros _. simpl. pose proof (slc_Get_after_Get top p h _ Hwf) as Ha. rewrite Hg in Ha. by apply Ha. }
  simpl in Hw. unfold dedup_resolve.
  destruct (lr_FindOwnerLayer _ _ _ _) as [[o|err] r]; [| done]. cbn [hc_Get shardedLRU_cache].
  change (de_cache (de_set_resolver r (de_set_cache c e))) with c. fold p.
  destruct (slc_Get_local c Hw o p) as (Eo & Hw' & _).
  destruct (slc_Get o p c) as [[h|] c'] eqn:Ho; simpl in Hw'.
  - intros _. cbn [de_cache de_fire]. unfold set_top. case_decide as Ht; cbn [de_cache de_set_cache].
    + by apply slc_Get_after_Set.
    + fold top in Ht. subst o.
      pose proof (slc_Get_after_Get top p h _ Hw) as Ha. rewrite Ho in Ha. by apply Ha.
  - destruct (lr_DiffAbsPath _ _ _) as [[a|err] r']; [| done].
    destruct (fh_Hash _ _ _) as [[h|err] h']; [| done]. intros _. simpl.
    unfold set_top. case_decide as Ht; cbn [de_cache de_set_cache].
    + apply slc_Get_after_Set. by apply slc_Set_local.
    + fold top in Ht. subst o. by apply slc_Get_after_Set.
Qed.

(** The cache is keyed by the top layer alone.  With the sharded cache, once a request
    succeeded, any request for the same path on any other stack with the same top layer gets
    the hash of the first without looking at its own layers; and such a cached answer names
    the top layer as the owner of the file, whichever layer owns it. *)
Theorem second_request_from_cache now now' ctx ctx' req req'
    (e : DeduplicationEngine shardedLRUCache H R W) :
  slc_wf (de_cache e) →
  let first := dedup_Resolve now ctx req e in
  let second := dedup_Resolve now' ctx' req' first.2 in
  res_Err first.1 = None → req_LayerStack req' ≠ [] →
  LayerStack_Top (req_LayerStack req') = LayerStack_Top (req_LayerStack req) →
  req_RelPath req' = req_RelPath req →
  second.1 = ok_result req' (res_Hash first.1) (LayerStack_Top (req_LayerStack req')) true ∧
  de_hasher second.2 = de_hasher first.2 ∧ de_resolver second.2 = de_resolver first.2.
Proof.
  intros Hwf first second Hok Hne Htop Hp. pose proof (Resolve_caches_top now ctx req e Hwf Hok) as Hc.
  unfold second, dedup_Resolve.
  assert (LayerStack_Valid (req_LayerStack req') = true) as ->.
  { unfold LayerStack_Valid. destruct (req_LayerStack req'); done. }
  cbn [negb hc_Get shardedLRU_cache]. rewrite Htop, Hp. fold first in Hc.
  destruct (slc_Get _ _ _) as [[h|] c]; [| done]. simpl in Hc. injection Hc as ->. done.
Qed.
End second.

(** ** Keys of coalesced requests *)

(** requests that the singleflight group coalesces are the same request, for non-empty
    stacks of layer identifiers without bars and NUL bytes (digests have neither). *)
Lemma singleflightKey_inj (s1 s2 : LayerStack) (p1 p2 : string) :
  s1 ≠ [] → s2 ≠ [] →
  Forall (λ id, ¬ char_in "|" id ∧ ¬ char_in go_nul id) s1 →
  Forall (λ id, ¬ char_in "|" id ∧ ¬ char_in go_nul id) s2 →
  singleflightKey s1 p1 = singleflightKey s2 p2 → s1 = s2 ∧ p1 = p2.
Proof.
  intros Hn1 Hn2 H1 H2 E.
  assert (∀ s, Forall (λ id, ¬ char_in "|" id ∧ ¬ char_in go_nul id) s → ¬ char_in go_nul (NewLayerStackKey s)) as Hnul.
  { intros s Hs. unfold NewLayerStackKey. induction Hs as [|id s [_ Hid] Hs IH]; [apply char_in_nil |].
    destruct s as [|id' s]; [done |]. rewrite str_join_cons by done. rewrite !char_in_app.
    intros [?|[Hc|?]]; [done | | done]. apply char_in_cons in Hc as [Hc|Hc]; [done | by apply char_in_nil in Hc]. }
  apply str_split_char_eq in E as [E ->]; [| by apply Hnul ..].
  split; [| done]. apply NewLayerStackKey_inj; [done | done | | | done];
    (eapply Forall_impl; [eassumption |]; by intros id []).
Qed.

(** ** Vertices *)

(** Events processed one after the other, each at its time. *)
Definition vp_run {C H R W} `{HashCache C, FileHasher H, LayerFileResolver R}
    (evs : list (Z * AccessEvent)) (vp : VertexProcessor C H R W)
    : list HashResult * VertexProcessor C H R W :=
  run_queries (λ x vp, vp_Process x.1 ctx_background x.2 vp) evs vp.

(** The successful results of a vertex, each with the stack of its event. *)
Definition vertex_results (v : VertexID) (evs : list (Z * AccessEvent)) (rs : list HashResult)
    : list (LayerStack * HashResult) :=
  omap (λ '((_, ev), r), if decide (ev_VertexID ev = v ∧ res_Err r = None)
                          then Some (ev_LayerStack ev, r) else None) (zip evs rs).

Section vertices.
Context {C H R W : Type} `{HashCache C, FileHasher H, LayerFileResolver R}.

Lemma run_queries_length {S Q A} (f : Q → S → A * S) qs s : length (run_queries f qs s).1 = length qs.
Proof.
  revert s. induction qs as [|q qs IH]; intros s; [done |]. simpl. destruct (f q s) as [a s'].
  specialize (IH s'). destruct (run_queries f qs s'). simpl in *. by f_equal.
Qed.

(** What the builder of [v] becomes. *)
Definition vertex_builder (v : VertexID) (b : option MerkleTreeBuilder)
    (l : list (LayerStack * HashResult)) : option MerkleTreeBuilder :=
  foldl (λ b x, Some (builder_Add (default (NewMerkleTreeBuilder v x.1) b) x.2)) b l.

Lemma vp_run_builders v evs (vp : VertexProcessor C H R W) :
  vp_builders (vp_run evs vp).2 !! v
  = vertex_builder v (vp_builders vp !! v) (vertex_results v evs (vp_run evs vp).1)
  ∧ vp_forest (vp_run evs vp).2 = vp_forest vp ∧ vp_trees (vp_run evs vp).2 = vp_trees vp.
Proof.
  revert vp. unfold vp_run. induction evs as [|[now ev] evs IH]; intros vp; [done |]. cbn [run_queries fst snd].
  destruct (vp_Process now ctx_background ev vp) as [r vp'] eqn:Hp. specialize (IH vp').
  destruct (run_queries _ evs vp') as [rs vp'']. cbn [fst snd] in *.
  destruct IH as (IHb & IHf & IHt). rewrite IHb, IHf, IHt. unfold vertex_results. csimpl.
  unfold vp_Process in Hp. destruct (dedup_Resolve _ _ _ _) as [r' e'].
  destruct (res_Err r') eqn:He; injection Hp as <- <-; cbn [vp_builders vp_forest vp_trees]; (split; [| done]).
  - rewrite decide_False by (intros [_ ?]; congruence). done.
  - case_decide as Hv; [destruct Hv as [Hv _] | assert (ev_VertexID ev ≠ v) by tauto].
    + rewrite Hv, lookup_insert_eq. unfold getOrCreateBuilder. done.
    + by rewrite lookup_insert_ne.
Qed.

Lemma vertex_builder_run v st r l :
  vertex_builder v None ((st, r) :: l) = Some (builder_run v st (r :: l.*2)).
Proof.
  unfold vertex_builder, builder_run. simpl. generalize (builder_Add (NewMerkleTreeBuilder v st) r) as b.
  induction l as [|[st' r'] l IH]; intros b; [done |]. simpl. apply IH.
Qed.

Context `{HashFn, GoSort}.

Lemma forest_Get_finalized f v st rs now :
  let tree := builder_Finalize (builder_run v st rs) now in
  forest_Get (forest_Add f tree) v = Some tree.
Proof.
  intros tree. unfold forest_Get, forest_Add.
  assert (mt_VertexID tree = v) as -> by (unfold tree; by rewrite builder_run_eq).
  apply lookup_insert_eq.
Qed.

(** A finished vertex holds its own accesses and nothing else.  After any events on a new
    processor, [FinalizeVertex] returns, stores in the forest and passes to the callback the
    tree built from exactly the successful results of that vertex, in order, whatever the
    other vertices did; and it fails with [ErrVertexClosed], changing nothing, when the vertex
    has no successful result. *)
Theorem vertex_tree (e : DeduplicationEngine C H R W) (f : MerkleForest) (evs : list (Z * AccessEvent))
    (v : VertexID) (now : Z) :
  let '(rs, vp) := vp_run evs (NewVertexProcessor e f) in
  match vertex_results v evs rs with
  | [] => vp_FinalizeVertex now v vp = (Err (EWrap [v] ErrVertexClosed), vp)
  | (st, r) :: l =>
      let tree := builder_Finalize (builder_run v st (r :: l.*2)) now in
      (vp_FinalizeVertex now v vp).1 = Ok tree ∧
      forest_Get (vp_forest (vp_FinalizeVertex now v vp).2) v = Some tree ∧
      vp_trees (vp_FinalizeVertex now v vp).2 = [tree] ∧
      (vp_FinalizeVertex now v (vp_FinalizeVertex now v vp).2).1 = Err (EWrap [v] ErrVertexClosed)
  end.
Proof.
  destruct (vp_run evs (NewVertexProcessor e f)) as [rs vp] eqn:Hrun.
  destruct (vp_run_builders v evs (NewVertexProcessor e f)) as (Hb & Hf & Ht). rewrite Hrun in Hb, Hf, Ht.
  simpl in Hb, Ht. rewrite lookup_empty in Hb. unfold vp_FinalizeVertex.
  destruct (vertex_results v evs rs) as [|[st r] l] eqn:Hv; [by rewrite Hb |].
  rewrite vertex_builder_run in Hb. rewrite Hb, Ht. cbn [fst snd vp_forest vp_trees vp_builders].
  rewrite lookup_delete_eq. split_and!; [done | | done | done].
  apply forest_Get_finalized.
Qed.

(** A finished vertex can be reopened.  [ErrVertexClosed] is documented for operations on
    a finalized vertex, but an access that arrives after [FinalizeVertex] and resolves starts
    a new builder under the same vertex, and a second [FinalizeVertex] succeeds and replaces
    the stored tree by one that has that access only. *)
Theorem finalized_vertex_reopens (vp : VertexProcessor C H R W) (ev : AccessEvent) (now : Z) :
  vp_builders vp !! ev_VertexID ev = None →
  let '(r, vp') := vp_Process now ctx_background ev vp in
  res_Err r = None →
  let tree := builder_Finalize (builder_run (ev_VertexID ev) (ev_LayerStack ev) [r]) now in
  (vp_FinalizeVertex now (ev_VertexID ev) vp').1 = Ok tree ∧
  forest_Get (vp_forest (vp_FinalizeVertex now (ev_VertexID ev) vp').2) (ev_VertexID ev) = Some tree.
Proof.
  intros Hn. destruct (vp_Process now ctx_background ev vp) as [r vp'] eqn:Hp. intros Hok tree.
  unfold vp_Process in Hp. destruct (dedup_Resolve _ _ _ _) as [r' e'].
  destruct (res_Err r') eqn:He; injection Hp as <- <-; [congruence |].
  unfold vp_FinalizeVertex. cbn [vp_builders]. rewrite lookup_insert_eq.
  unfold getOrCreateBuilder. rewrite Hn. simpl. split; [done |].
  apply (forest_Get_finalized _ (ev_VertexID ev) (ev_LayerStack ev) [r']).
Qed.
End vertices.

Lemma Resolve_relpath {C H R W} `{HashCache C, FileHasher H, LayerFileResolver R} now ctx req
    (e : DeduplicationEngine C H R W) :
  res_RelPath (dedup_Resolve now ctx req e).1 = req_RelPath req.
Proof.
  unfold dedup_Resolve. destruct (negb _); [done |]. destruct (hc_Get _ _ _ _) as [[h|] c]; [done |].
  destruct (dedup_resolve _ _ _ _) as [[res|err] e'] eqn:Hr; [| done].
  unfold dedup_resolve in Hr. repeat case_match; simplify_eq/=; done.
Qed.

Section same_root.
Context {C H R W : Type} `{HashCacheLaws C, FileHasher H, LayerFileResolver R}.
Context (IH : H → Prop) (f : string → result FileHash) (Hf : hasher_faithful IH f).
Context (IR : R → Prop) (owner : LayerStack → string → result LayerID)
  (path : LayerID → string → result string) (Hr : resolver_faithful IR owner path).
Context (Hlocal : owner_local owner) (chain : LayerID → LayerStack) (Hchain : layer_chain chain).

(** The files that the accesses of a vertex read: segments of the path, and hash. *)
Definition ideal_files (evs : list (Z * AccessEvent)) : list (list string * list byte) :=
  omap (λ x, match ideal_hash owner path f (ev_LayerStack x.2) (ev_RelPath x.2) with
             | Ok h => if decide (h ≠ EmptyString)
                       then Some (splitPath (path_clean (ev_RelPath x.2)), str_bytes h) else None
             | Err _ => None
             end) evs.

(** The accesses of a vertex *)
Definition of_vertex (v : VertexID) (evs : list (Z * AccessEvent)) : list (Z * AccessEvent) :=
  filter (λ x, ev_VertexID x.2 = v) evs.

Lemma run_files v evs (e : DeduplicationEngine C H R W) fo :
  engine_ok IH f IR owner path chain e →
  Forall (λ x, chain_request chain (event_request x.2)) evs →
  files_of (vertex_results v evs (vp_run evs (NewVertexProcessor e fo)).1).*2 = ideal_files (of_vertex v evs).
Proof.
  intros He Hevs.
  assert (∀ vp : VertexProcessor C H R W, engine_ok IH f IR owner path chain (vp_engine vp) →
    files_of (vertex_results v evs (vp_run evs vp).1).*2 = ideal_files (of_vertex v evs)) as Hgo; [| by apply Hgo].
  clear He. induction Hevs as [|[now ev] evs Hreq Hevs IHe]; intros vp He; [done |].
  unfold vp_run in *. cbn [run_queries fst snd] in *.
  destruct (vp_Process now ctx_background ev vp) as [r vp'] eqn:Hp.
  pose proof (Resolve_ok IH f Hf IR owner path Hr Hlocal chain Hchain now (event_request ev) (vp_engine vp) He Hreq)
    as [He' Ho]. pose proof (Resolve_relpath now ctx_background (event_request ev) (vp_engine vp)) as Hrel.
  unfold vp_Process in Hp.
  destruct (dedup_Resolve now ctx_background (event_request ev) (vp_engine vp)) as [r' e'].
  assert (r' = r ∧ vp_engine vp' = e') as [-> Ee] by (destruct (res_Err r'); simplify_eq/=; done).
  simpl in He', Ho, Hrel. specialize (IHe vp'). rewrite Ee in IHe. specialize (IHe He').
  destruct (run_queries _ evs vp') as [rs vp'']. cbn [fst snd] in *.
  unfold vertex_results, ideal_files, of_vertex in *. csimpl. rewrite filter_cons. cbn [snd] in *.
  destruct (decide (ev_VertexID ev = v)) as [Hv|Hv]; [| by rewrite decide_False by tauto].
  csimpl. rewrite <- Ho. unfold outcome. destruct (res_Err r) eqn:Herr.
  - rewrite decide_False by (intros [_ ?]; congruence). done.
  - rewrite decide_True by done. csimpl. unfold files_of in *. rewrite filter_cons.
    rewrite (decide_ext (accepted r) (res_Hash r ≠ EmptyString)) by (unfold accepted; tauto).
    case_decide; [| done]. csimpl. rewrite IHe. unfold result_file. by rewrite Hrel.
Qed.

Lemma run_root `{HashFn, GoSort} v evs (e : DeduplicationEngine C H R W) fo now :
  engine_ok IH f IR owner path chain e →
  Forall (λ x, chain_request chain (event_request x.2)) evs →
  ideal_files (of_vertex v evs) ≠ [] →
  ∃ t, (vp_FinalizeVertex now v (vp_run evs (NewVertexProcessor e fo)).2).1 = Ok t ∧
    mt_Root t = computeRootDigest (Some (buildMerkleNode EmptyString
      (node_insert_all (ideal_files (of_vertex v evs)) NewRoot))).
Proof.
  intros He Hevs Hne. pose proof (run_files v evs e fo He Hevs) as Hfiles.
  destruct (vp_run_builders v evs (NewVertexProcessor e fo)) as (Hb & _ & _). simpl in Hb. rewrite lookup_empty in Hb.
  destruct (vertex_results v evs (vp_run evs (NewVertexProcessor e fo)).1) as [|[st r] l] eqn:Hv.
  { by rewrite <- Hfiles in Hne. }
  rewrite vertex_builder_run in Hb. unfold vp_FinalizeVertex. rewrite Hb. eexists. split; [done |].
  by rewrite finalize_root, <- Hfiles.
Qed.
End same_root.

(** The root of a vertex is a function of the set of files its accesses read. *)
Lemma same_roots `{HashFn, GoSort}
    {C1 H1 R1 W1 C2 H2 R2 W2 : Type} `{HashCacheLaws C1, FileHasher H1, LayerFileResolver R1}
    `{HashCacheLaws C2, FileHasher H2, LayerFileResolver R2}
    (I1 : H1 → Prop) (J1 : R1 → Prop) (I2 : H2 → Prop) (J2 : R2 → Prop)
    (f : string → result FileHash) (owner : LayerStack → string → result LayerID)
    (path : LayerID → string → result string) (chain : LayerID → LayerStack)
    (e1 : DeduplicationEngine C1 H1 R1 W1) (e2 : DeduplicationEngine C2 H2 R2 W2)
    (evs1 evs2 : list (Z * AccessEvent)) (v1 v2 : VertexID) (fo1 fo2 : MerkleForest) (now1 now2 : Z) :
  hasher_faithful I1 f → resolver_faithful J1 owner path →
  hasher_faithful I2 f → resolver_faithful J2 owner path →
  owner_local owner → layer_chain chain →
  engine_ok I1 f J1 owner path chain e1 → engine_ok I2 f J2 owner path chain e2 →
  Forall (λ x, chain_request chain (event_request x.2)) evs1 →
  Forall (λ x, chain_request chain (event_request x.2)) evs2 →
  let files := λ v evs, ideal_files f owner path (of_vertex v evs) in
  files v1 evs1 ≠ [] → consistent (files v1 evs1) → (∀ x, x ∈ files v1 evs1 ↔ x ∈ files v2 evs2) →
  ∃ t1 t2,
    (vp_FinalizeVertex now1 v1 (vp_run evs1 (NewVertexProcessor e1 fo1)).2).1 = Ok t1 ∧
    (vp_FinalizeVertex now2 v2 (vp_run evs2 (NewVertexProcessor e2 fo2)).2).1 = Ok t2 ∧
    mt_Root t1 = mt_Root t2.
Proof.
  intros Hf1 Hr1 Hf2 Hr2 Hl Hch He1 He2 Hev1 Hev2 files Hne Hc Hs.
  assert (files v2 evs2 ≠ []) as Hne2.
  { destruct (files v1 evs1) as [|x l]; [done |]. intros E. rewrite E in Hs.
    assert (x ∈ x :: l) as Hx by by left. apply Hs in Hx. by apply elem_of_nil in Hx. }
  destruct (run_root I1 f Hf1 J1 owner path Hr1 Hl chain Hch v1 evs1 e1 fo1 now1 He1 Hev1 Hne) as (t1 & Ht1 & E1).
  destruct (run_root I2 f Hf2 J2 owner path Hr2 Hl chain Hch v2 evs2 e2 fo2 now2 He2 Hev2 Hne2) as (t2 & Ht2 & E2).
  exists t1, t2. split_and!; [done | done |]. rewrite E1, E2.
  by rewrite (node_insert_all_set _ _ _ Hc Hs).
Qed.

(** The same accesses give the same root.  Two engines, with whatever lawful caches,
    faithful hashers and resolvers of the same file system, process two lists of accesses of
    any vertices, in any order and with any repetitions; if a vertex of the one and a vertex of
    the other read the same files, their finished trees have the same root. *)
Theorem same_accesses_same_root `{HashFn, GoSort}
    {C1 H1 R1 W1 C2 H2 R2 W2 : Type} `{HashCacheLaws C1, FileHasher H1, LayerFileResolver R1}
    `{HashCacheLaws C2, FileHasher H2, LayerFileResolver R2}
    (I1 : H1 → Prop) (J1 : R1 → Prop) (I2 : H2 → Prop) (J2 : R2 → Prop)
    (f : string → result FileHash) (owner : LayerStack → string → result LayerID)
    (path : LayerID → string → result string) (chain : LayerID → LayerStack)
    (e1 : DeduplicationEngine C1 H1 R1 W1) (e2 : DeduplicationEngine C2 H2 R2 W2)
    (evs1 evs2 : list (Z * AccessEvent)) (v1 v2 : VertexID) (fo1 fo2 : MerkleForest) (now1 now2 : Z) :
  hasher_faithful I1 f → resolver_faithful J1 owner path →
  hasher_faithful I2 f → resolver_faithful J2 owner path →
  owner_local owner → layer_chain chain →
  engine_ok I1 f J1 owner path chain e1 → engine_ok I2 f J2 owner path chain e2 →
  Forall (λ x, chain_request chain (event_request x.2)) evs1 →
  Forall (λ x, chain_request chain (event_request x.2)) evs2 →
  let files := λ v evs, ideal_files f owner path (of_vertex v evs) in
  files v1 evs1 ≠ [] → consistent (files v1 evs1) → (∀ x, x ∈ files v1 evs1 ↔ x ∈ files v2 evs2) →
  ∃ t1 t2,
    (vp_FinalizeVertex now1 v1 (vp_run evs1 (NewVertexProcessor e1 fo1)).2).1 = Ok t1 ∧
    (vp_FinalizeVertex now2 v2 (vp_run evs2 (NewVertexProcessor e2 fo2)).2).1 = Ok t2 ∧
    mt_Root t1 = mt_Root t2.
Proof.
  intros Hf1 Hr1 Hf2 Hr2 Hl Hch He1 He2 Hev1 Hev2 files Hne Hc Hs.
  by eapply same_roots.
Qed.

(** ** What the hooks count *)

Definition no_counts : CountingSnapshot := Build_CountingSnapshot 0 0 0 0 0.

(** The results of requests, by kind: served from a cache, hashed, failed. *)
Definition count_results (P : HashResult → bool) (rs : list HashResult) : Z :=
  Z.of_nat (length (filter (λ r, P r) rs)).

Definition is_cached (r : HashResult) : bool := match res_Err r with None => res_FromCache r | _ => false end.
Definition is_hashed (r : HashResult) : bool := match res_Err r with None => negb (res_FromCache r) | _ => false end.

(** The counting hook accounts for every answer.  After any requests, [CacheHits] is the
    number of results served from the cache, and [HashStarts] less [HashErrors] the number of
    results that were hashed. *)
Theorem hooks_account {C H R} `{HashCache C, FileHasher H, LayerFileResolver R}
    (cache : C) (hasher : H) (resolver : R) (reqs : list (Z * context * HashRequest)) :
  let '(rs, e) := run_queries (λ x e, dedup_Resolve x.1.1 x.1.2 x.2 e) reqs
    (NewDeduplicationEngine cache hasher resolver [CountingHook] no_counts) in
  cnt_CacheHits (de_world e) = count_results is_cached rs ∧
  (cnt_HashStarts (de_world e) - cnt_HashErrors (de_world e) = count_results is_hashed rs)%Z.
Proof.
  set (e0 := NewDeduplicationEngine _ _ _ _ _).
  assert (∀ (e : DeduplicationEngine C H R CountingSnapshot), de_hooks e = [CountingHook] →
    let '(rs, e') := run_queries (λ x e, dedup_Resolve x.1.1 x.1.2 x.2 e) reqs e in
    cnt_CacheHits (de_world e') = (cnt_CacheHits (de_world e) + count_results is_cached rs)%Z ∧
    (cnt_HashStarts (de_world e') - cnt_HashErrors (de_world e')
     = cnt_HashStarts (de_world e) - cnt_HashErrors (de_world e) + count_results is_hashed rs)%Z) as Hgo.
  2: { specialize (Hgo e0 eq_refl). destruct (run_queries _ reqs e0). done. }
  induction reqs as [|[[now ctx] req] reqs IHr]; intros e He; simpl; [unfold count_results; simpl; lia |].
  assert (∀ r e', dedup_Resolve now ctx req e = (r, e') → de_hooks e' = [CountingHook] ∧
    cnt_CacheHits (de_world e') = (cnt_CacheHits (de_world e) + if is_cached r then 1 else 0)%Z ∧
    (cnt_HashStarts (de_world e') - cnt_HashErrors (de_world e')
     = cnt_HashStarts (de_world e) - cnt_HashErrors (de_world e) + if is_hashed r then 1 else 0)%Z) as Hstep.
  { intros r e' Hres. unfold dedup_Resolve, dedup_resolve, set_top in Hres.
    destruct e as [cc hh rr hk [a b c d g]]. simpl in He. subst hk.
    repeat case_match; simplify_eq/=; (split; [done | lia]). }
  destruct (dedup_Resolve now ctx req e) as [r e'] eqn:Hres. destruct (Hstep r e' eq_refl) as (Hh & E1 & E2).
  specialize (IHr e' Hh). destruct (run_queries _ reqs e') as [rs e'']. destruct IHr as [E3 E4].
  unfold count_results in *. rewrite !filter_cons. rewrite E3, E1, E4, E2.
  destruct (is_cached r) eqn:Hc, (is_hashed r) eqn:Hd; simpl; repeat case_decide; simpl; try lia.
Qed.

(** ** Witnesses *)

Definition sample_files (p : string) : file_read :=
  if sample_fs p then ReadAll (str_bytes p) else OpenNotExist.

Definition sample_resolver : fs_resolver OverlayResolver :=
  {| fr_lstat := sample_fs; fr_registry := sample_registry; fr_state := NewOverlayResolver 0 |}.

Definition sample_engine : DeduplicationEngine shardedLRUCache SHA256Hasher (fs_resolver OverlayResolver) CountingSnapshot :=
  NewDeduplicationEngine (NewShardedLRUCache 0) {| sha_fs := sample_files |} sample_resolver
    [CountingHook] no_counts.

Definition sample_chain (l : LayerID) : LayerStack :=
  if decide (l = "top") then ["base"; "top"] else if decide (l = "base") then ["base"] else [].

Definition sample_request (v : VertexID) (stack : LayerStack) (p : string) : HashRequest :=
  {| req_VertexID := v; req_LayerStack := stack; req_RelPath := p; req_AbsPath := EmptyString |}.

Definition sample_event (v : VertexID) (stack : LayerStack) (p : string) : AccessEvent :=
  {| ev_VertexID := v; ev_LayerStack := stack; ev_RelPath := p; ev_AbsPath := EmptyString;
     ev_Mask := 1; ev_PID := 1; ev_Timestamp := 0 |}.

Lemma sample_chain_ok : layer_chain sample_chain.
Proof.
  intros l lower o upper. unfold sample_chain at 1. repeat case_decide; subst; intros E.
  - destruct lower as [|x [|y [|]]]; simplify_eq/=; vm_compute; reflexivity.
  - destruct lower as [|x [|]]; simplify_eq/=; vm_compute; reflexivity.
  - by destruct lower.
Qed.

Lemma sample_resolver_ok : fs_resolver_ok sample_fs sample_registry sample_resolver.
Proof. split_and!; [done | done |]. intros k v Hv. simpl in Hv. by rewrite lookup_empty in Hv. Qed.

Lemma sample_engine_ok :
  engine_ok (λ h, sha_fs h = sample_files) (hashFile sample_files)
    (fs_resolver_ok sample_fs sample_registry) (owner_spec sample_fs sample_registry ctx_background)
    (overlay_path sample_fs sample_registry) sample_chain sample_engine.
Proof.
  apply engine_ok_intro; [split | done | apply sample_resolver_ok]; [apply New_wf |].
  intros l p h Hv. cbn in Hv. by rewrite New_view_empty in Hv.
Qed.

Lemma dedup_transparent_witness :
  outcome <$> (run_queries (λ x e, dedup_Resolve x.1 ctx_background x.2 e)
    [(1, sample_request "v" ["base"; "top"] "bin"); (2, sample_request "v" ["base"] "bin");
     (3, sample_request "w" ["base"; "top"] "bin"); (4, sample_request "w" ["base"; "top"] "etc/hosts")]%Z
    sample_engine).1
  = [Ok (FromString "/l/base/bin"); Ok (FromString "/l/base/bin"); Ok (FromString "/l/base/bin");
     Err ErrWhiteout].
Proof.
  rewrite (dedup_transparent _ _ _ _ _ sample_chain _ _ (sha_faithful sample_files)
    (overlay_faithful sample_fs sample_registry) (owner_spec_local _ _) sample_chain_ok).
  - vm_compute. reflexivity.
  - apply New_wf.
  - apply New_view_empty.
  - done.
  - apply sample_resolver_ok.
  - repeat constructor; done.
Defined.

(** Two stacks with one top layer, and the file only in the base of the second. *)
Lemma second_request_from_cache_witness :
  let first := dedup_Resolve 1 ctx_background (sample_request "v" ["base"; "top"] "bin") sample_engine in
  let second := dedup_Resolve 2 ctx_background (sample_request "w" ["other"; "top"] "bin") first.2 in
  second.1 = ok_result (sample_request "w" ["other"; "top"] "bin") (FromString "/l/base/bin") "top" true ∧
  owner_spec sample_fs sample_registry ctx_background ["other"; "top"] "bin" = Err ErrLayerNotFound.
Proof.
  intros first second. split; [| vm_compute; reflexivity].
  destruct (second_request_from_cache 1 2 ctx_background ctx_background
    (sample_request "v" ["base"; "top"] "bin") (sample_request "w" ["other"; "top"] "bin") sample_engine)
    as [E _]; [apply New_wf | vm_compute; reflexivity | done | reflexivity | reflexivity |].
  unfold second, first. rewrite E. vm_compute. reflexivity.
Defined.

Lemma finalized_vertex_reopens_witness :
  let vp := NewVertexProcessor sample_engine NewMerkleForest in
  let '(r, vp') := vp_Process 1 ctx_background (sample_event "v" ["base"; "top"] "bin") vp in
  res_Err r = None ∧
  (vp_FinalizeVertex 1 "v" vp').1 = Ok (builder_Finalize (builder_run "v" ["base"; "top"] [r]) 1).
Proof.
  intros vp. pose proof (finalized_vertex_reopens vp (sample_event "v" ["base"; "top"] "bin") 1 eq_refl) as Hf.
  destruct (vp_Process _ _ _ vp) as [r vp'] eqn:Hp.
  assert (res_Err r = None) as Hr.
  { apply (f_equal fst) in Hp. simpl in Hp. subst r. vm_compute. reflexivity. }
  split; [exact Hr | exact (proj1 (Hf Hr))].
Defined.

Lemma same_accesses_same_root_witness :
  ∃ t1 t2,
    (vp_FinalizeVertex 9 "v" (vp_run [(1, sample_event "v" ["base"; "top"] "bin");
        (2, sample_event "v" ["base"; "top"] "gone"); (3, sample_event "w" ["base"; "top"] "etc/hosts")]%Z (NewVertexProcessor sample_engine NewMerkleForest)).2).1 = Ok t1 ∧
    (vp_FinalizeVertex 9 "w" (vp_run [(1, sample_event "w" ["base"] "bin");
        (2, sample_event "w" ["base"; "top"] "./bin")]%Z (NewVertexProcessor sample_engine NewMerkleForest)).2).1 = Ok t2 ∧
    mt_Root t1 = mt_Root t2.
Proof.
  apply (same_accesses_same_root (λ h, sha_fs h = sample_files) (fs_resolver_ok sample_fs sample_registry)
    (λ h, sha_fs h = sample_files) (fs_resolver_ok sample_fs sample_registry)
    (hashFile sample_files) (owner_spec sample_fs sample_registry ctx_background)
    (overlay_path sample_fs sample_registry) sample_chain);
    [apply sha_faithful | apply overlay_faithful | apply sha_faithful | apply overlay_faithful
    | apply owner_spec_local | apply sample_chain_ok | apply sample_engine_ok | apply sample_engine_ok
    | repeat constructor; done | repeat constructor; done | | |].
  - vm_compute. discriminate.
  - apply (bool_decide_eq_true_1 _). vm_compute. reflexivity.
  - intros x.
    assert (∀ l1 l2 : list (list string * list byte), l1 = take 1 l2 → l2 = l1 ++ l1 → x ∈ l1 ↔ x ∈ l2) as Hs
      by (intros l1 l2 _ ->; rewrite elem_of_app; tauto).
    apply Hs; vm_compute; reflexivity.
Defined.
