(* ===== verification/LmWorkers.v ===== *)
(** * LmWorkers: concurrent processing ([pkg/layermerkle/deduplicator.go] under the workers of [engine.go])

    [LmDedup] processes one event after the other; here any number of workers process events
    at the same time.  A worker is an event and the place it has reached in
    [VertexProcessor.Process]; one step takes it to its next access to what the workers share:
    the cache, the singleflight group, the resolver, the hasher, the map of builders and the
    builders themselves, which are named by their address.  An access is atomic, as each of
    these has its own mutex.  [FinalizeVertex] has two steps, since it seals the builder after
    it released the mutex of the map. *)
From S2P Require Import Prelude GoStd GoPath Sha256 LmDigest LmLayer LmTrie LmMerkle LmCache LmResolver LmHasher LmDedup.

(** ** The places of a worker *)

Inductive phase :=
  | PhTop                                                       (* the lookup under the top layer *)
  | PhDo                                                        (* [group.Do] *)
  | PhWait (c : nat)                                            (* [wg.Wait] of call [c] *)
  | PhFind (c : nat)                                            (* [resolve], leading call [c] *)
  | PhLook (c : nat) (o : LayerID)
  | PhPath (c : nat) (o : LayerID)
  | PhHash (c : nat) (o : LayerID) (a : string)
  | PhSet (c : nat) (o : LayerID) (h : FileHash)
  | PhSetTop (c : nat) (o : LayerID) (h : FileHash) (cached : bool)
  | PhFn (c : nat) (v : result HashResult)                      (* the assignment of [c.val], [wg.Done] *)
  | PhDelete (c : nat) (v : result HashResult)
  | PhBuilder (res : HashResult)                                (* back in [Process] *)
  | PhAdd (a : nat) (res : HashResult)
  | PhEnd (res : HashResult).

(** A call of the group, with the request that started it *)
Record dcall := { dc_req : HashRequest; dc_val : option (result HashResult) }.

Section workers.
Context {C H R W : Type} `{HashCache C, FileHasher H, LayerFileResolver R} `{HashFn, GoSort}.

Record WorkerPool := {
  wp_engine : DeduplicationEngine C H R W;
  wp_m : gmap string nat;
  wp_calls : list dcall;
  wp_builders : gmap string nat;
  wp_heap : list MerkleTreeBuilder;
  wp_forest : MerkleForest;
  wp_trees : list MerkleTree;
  wp_workers : list (AccessEvent * phase);
  wp_sealing : list nat;                       (* calls of [FinalizeVertex] between their steps *)
}.

Definition NewWorkerPool (e : DeduplicationEngine C H R W) (f : MerkleForest) : WorkerPool :=
  {| wp_engine := e; wp_m := ∅; wp_calls := []; wp_builders := ∅; wp_heap := []; wp_forest := f; wp_trees := [];
     wp_workers := []; wp_sealing := [] |}.

(** What [Resolve] makes of what [group.Do] returned *)
Definition returned (req : HashRequest) (v : result HashResult) : HashResult :=
  match v with Err err => err_result req err | Ok res => res end.

(** The steps that use the engine's cache, resolver and hasher *)
Definition engine_phase (now : Z) (ctx : context) (req : HashRequest) (ph : phase) (e : DeduplicationEngine C H R W)
    : option (phase * DeduplicationEngine C H R W) :=
  let p := req_RelPath req in
  match ph with
  | PhTop =>
      if negb (LayerStack_Valid (req_LayerStack req))
      then Some (PhBuilder (err_result req (EWrap ["empty stack for"; p] ErrInvalidLayerStack)), e)
      else
        let topLayer := LayerStack_Top (req_LayerStack req) in
        Some match hc_Get now topLayer p (de_cache e) with
             | (Some h, c) =>
                 let res := ok_result req h topLayer true in
                 (PhBuilder res, de_fire (OnCacheHit req res) (de_set_cache c e))
             | (None, c) => (PhDo, de_set_cache c e)
             end
  | PhFind c =>
      Some match lr_FindOwnerLayer ctx (req_LayerStack req) p (de_resolver e) with
           | (Err err, r) =>
               (PhFn c (Err (if errors_is err ErrWhiteout then ErrWhiteout else EWrap ["resolve owner for"; p] err)),
                de_set_resolver r e)
           | (Ok o, r) => (PhLook c o, de_set_resolver r e)
           end
  | PhLook c o =>
      Some match hc_Get now o p (de_cache e) with
           | (Some h, c') => (PhSetTop c o h true, de_set_cache c' e)
           | (None, c') => (PhPath c o, de_set_cache c' e)
           end
  | PhPath c o =>
      Some match lr_DiffAbsPath o p (de_resolver e) with
           | (Err err, r) => (PhFn c (Err (EWrap ["diff abs path"; p; o] err)), de_set_resolver r e)
           | (Ok a, r) => (PhHash c o a, de_set_resolver r e)
           end
  | PhHash c o a =>
      let e := de_fire (OnHashStart req) e in
      Some match fh_Hash ctx a (de_hasher e) with
           | (Err err, h') => (PhFn c (Err (EWrap ["hash"; a] err)), de_fire (OnHashError req err) (de_set_hasher h' e))
           | (Ok h, h') => (PhSet c o h, de_fire (OnHashComplete req h) (de_set_hasher h' e))
           end
  | PhSet c o h => Some (PhSetTop c o h false, de_set_cache (hc_Set now o p h (de_cache e)) e)
  | PhSetTop c o h cached =>
      let res := ok_result req h o cached in
      let e := set_top now req o h e in
      Some (PhFn c (Ok res), if cached then de_fire (OnCacheHit req res) e else e)
  | _ => None
  end.

Definition request_key (req : HashRequest) : string := singleflightKey (req_LayerStack req) (req_RelPath req).

(** The steps of [group.Do] *)
Definition group_phase (req : HashRequest) (ph : phase) (m : gmap string nat) (calls : list dcall)
    : option (phase * gmap string nat * list dcall) :=
  match ph with
  | PhDo =>
      match m !! request_key req with
      | Some c => Some (PhWait c, m, calls)
      | None => Some (PhFind (length calls), <[request_key req := length calls]> m,
                      calls ++ [{| dc_req := req; dc_val := None |}])
      end
  | PhWait c => v ← calls !! c ≫= dc_val; Some (PhBuilder (returned req v), m, calls)
  | PhFn c v => Some (PhDelete c v, m, alter (λ x, {| dc_req := dc_req x; dc_val := Some v |}) c calls)
  | PhDelete c v => Some (PhBuilder (returned req v), delete (request_key req) m, calls)
  | _ => None
  end.

(** The steps of [Process] after [Resolve] *)
Definition builder_phase (ev : AccessEvent) (ph : phase) (builders : gmap string nat) (heap : list MerkleTreeBuilder)
    : option (phase * gmap string nat * list MerkleTreeBuilder) :=
  match ph with
  | PhBuilder res =>
      match res_Err res with
      | Some _ => Some (PhEnd res, builders, heap)
      | None =>
          match builders !! ev_VertexID ev with
          | Some a => Some (PhAdd a res, builders, heap)
          | None => Some (PhAdd (length heap) res, <[ev_VertexID ev := length heap]> builders,
                          heap ++ [NewMerkleTreeBuilder (ev_VertexID ev) (ev_LayerStack ev)])
          end
      end
  | PhAdd a res => Some (PhEnd res, builders, alter (λ b, builder_Add b res) a heap)
  | _ => None
  end.

Definition pool_with (s : WorkerPool) (e : DeduplicationEngine C H R W) (m : gmap string nat) (calls : list dcall)
    (builders : gmap string nat) (heap : list MerkleTreeBuilder) (workers : list (AccessEvent * phase)) : WorkerPool :=
  {| wp_engine := e; wp_m := m; wp_calls := calls; wp_builders := builders; wp_heap := heap;
     wp_forest := wp_forest s; wp_trees := wp_trees s; wp_workers := workers; wp_sealing := wp_sealing s |}.

(** One step of worker [i].  [None]: it waits, or has returned. *)
Definition worker_step (i : nat) (now : Z) (ctx : context) (s : WorkerPool) : option WorkerPool :=
  '(ev, ph) ← wp_workers s !! i;
  let req := event_request ev in
  match engine_phase now ctx req ph (wp_engine s) with
  | Some (ph, e) =>
      Some (pool_with s e (wp_m s) (wp_calls s) (wp_builders s) (wp_heap s) (<[i := (ev, ph)]> (wp_workers s)))
  | None =>
      match group_phase req ph (wp_m s) (wp_calls s) with
      | Some (ph, m, calls) =>
          Some (pool_with s (wp_engine s) m calls (wp_builders s) (wp_heap s) (<[i := (ev, ph)]> (wp_workers s)))
      | None =>
          '(ph, builders, heap) ← builder_phase ev ph (wp_builders s) (wp_heap s);
          Some (pool_with s (wp_engine s) (wp_m s) (wp_calls s) builders heap (<[i := (ev, ph)]> (wp_workers s)))
      end
  end.

(** The two steps of [FinalizeVertex] *)
Definition Finalize_take (v : VertexID) (s : WorkerPool) : result unit * WorkerPool :=
  match wp_builders s !! v with
  | None => (Err (EWrap [v] ErrVertexClosed), s)
  | Some a =>
      (Ok tt, {| wp_engine := wp_engine s; wp_m := wp_m s; wp_calls := wp_calls s; wp_builders := delete v (wp_builders s);
                 wp_heap := wp_heap s; wp_forest := wp_forest s; wp_trees := wp_trees s; wp_workers := wp_workers s;
                 wp_sealing := wp_sealing s ++ [a] |})
  end.

Definition Finalize_seal (j : nat) (now : Z) (s : WorkerPool) : option WorkerPool :=
  a ← wp_sealing s !! j; b ← wp_heap s !! a;
  let tree := builder_Finalize b now in
  Some {| wp_engine := wp_engine s; wp_m := wp_m s; wp_calls := wp_calls s; wp_builders := wp_builders s;
          wp_heap := wp_heap s; wp_forest := forest_Add (wp_forest s) tree; wp_trees := wp_trees s ++ [tree];
          wp_workers := wp_workers s; wp_sealing := delete j (wp_sealing s) |}.

Inductive pool_action :=
  | WNew (ev : AccessEvent)                          (* the dispatch loop starts a worker *)
  | WStep (i : nat) (now : Z) (ctx : context)
  | WTake (v : VertexID)
  | WSeal (j : nat) (now : Z).

Definition pool_step (a : pool_action) (s : WorkerPool) : option WorkerPool :=
  match a with
  | WNew ev => Some (pool_with s (wp_engine s) (wp_m s) (wp_calls s) (wp_builders s) (wp_heap s) (wp_workers s ++ [(ev, PhTop)]))
  | WStep i now ctx => worker_step i now ctx s
  | WTake v => Some (Finalize_take v s).2
  | WSeal j now => Finalize_seal j now s
  end.

Fixpoint pool_run (l : list pool_action) (s : WorkerPool) : option WorkerPool :=
  match l with
  | [] => Some s
  | a :: l => pool_step a s ≫= pool_run l
  end.
End workers.
Arguments WorkerPool : clear implicits.

(** ** Every interleaving answers as the file system does *)

Section answers.
Context {C H R W : Type} `{HashCacheLaws C, FileHasher H, LayerFileResolver R} `{HashFn, GoSort}.
Context (IH : H → Prop) (f : string → result FileHash) (Hf : hasher_faithful IH f).
Context (IR : R → Prop) (owner : LayerStack → string → result LayerID)
  (path : LayerID → string → result string) (Hr : resolver_faithful IR owner path).
Context (Hlocal : owner_local owner) (chain : LayerID → LayerStack) (Hchain : layer_chain chain).
Implicit Types s : WorkerPool C H R W.

Let ideal := ideal_hash owner path f.
Let wanted (req : HashRequest) := ideal (req_LayerStack req) (req_RelPath req).

(** Requests on the stack of their top layer, whose identifiers hold neither separator *)
Definition plain_request (req : HashRequest) : Prop :=
  chain_request chain req ∧ Forall (λ id, ¬ char_in "|" id ∧ ¬ char_in go_nul id) (req_LayerStack req).

Definition same_file (r1 r2 : HashRequest) : Prop :=
  req_LayerStack r1 = req_LayerStack r2 ∧ req_RelPath r1 = req_RelPath r2.

Lemma request_key_inj r1 r2 : plain_request r1 → plain_request r2 → request_key r1 = request_key r2 → same_file r1 r2.
Proof. intros [[? _] ?] [[? _] ?] E. by apply singleflightKey_inj in E. Qed.

Definition value_ok (req : HashRequest) (v : result HashResult) : Prop :=
  match v with
  | Err err => wanted req = Err err
  | Ok res => wanted req = Ok (res_Hash res) ∧ res_Err res = None ∧ res_RelPath res = req_RelPath req
  end.

Definition answer_ok (req : HashRequest) (res : HashResult) : Prop :=
  outcome res = wanted req ∧ res_RelPath res = req_RelPath req.

Lemma value_answer r1 r2 v : same_file r1 r2 → value_ok r1 v → answer_ok r2 (returned r2 v).
Proof.
  unfold same_file, value_ok, answer_ok, wanted. intros [E1 E2]. rewrite E1, E2.
  destruct v as [res|err]; cbn [returned]; [| done]. intros (Hw & He & Hp). by rewrite Hw, Hp; unfold outcome; rewrite He.
Qed.

Definition leads (calls : list dcall) (req : HashRequest) (c : nat) : Prop :=
  ∃ call, calls !! c = Some call ∧ dc_req call = req.

(** What is known of a worker at each place *)
Definition phase_ok (calls : list dcall) (req : HashRequest) (ph : phase) : Prop :=
  let own o := owner (req_LayerStack req) (req_RelPath req) = Ok o in
  match ph with
  | PhTop | PhDo => True
  | PhWait c => ∃ call, calls !! c = Some call ∧ same_file (dc_req call) req
  | PhFind c => leads calls req c
  | PhLook c o | PhPath c o => leads calls req c ∧ own o
  | PhHash c o a => leads calls req c ∧ own o ∧ path o (req_RelPath req) = Ok a
  | PhSet c o h | PhSetTop c o h _ => leads calls req c ∧ own o ∧ wanted req = Ok h
  | PhFn c v | PhDelete c v => leads calls req c ∧ value_ok req v
  | PhBuilder res | PhEnd res => answer_ok req res
  | PhAdd _ res => answer_ok req res ∧ res_Err res = None
  end.

(** Calls keep their request. *)
Definition calls_le (l1 l2 : list dcall) : Prop :=
  ∀ c call, l1 !! c = Some call → ∃ call', l2 !! c = Some call' ∧ dc_req call' = dc_req call.

Lemma phase_ok_le l1 l2 req ph : calls_le l1 l2 → phase_ok l1 req ph → phase_ok l2 req ph.
Proof.
  intros Hle. assert (∀ c, leads l1 req c → leads l2 req c) as Hl.
  { intros c (call & Hc & <-). destruct (Hle c call Hc) as (call' & ? & ?). by exists call'. }
  destruct ph; cbn [phase_ok]; try done; [| apply Hl |..]; try (intros []; split; [by apply Hl | done]).
  intros (call & Hc & Hs). destruct (Hle c call Hc) as (call' & ? & E). exists call'. by rewrite E.
Qed.

Record group_ok (m : gmap string nat) (calls : list dcall) : Prop := {
  go_map k c : m !! k = Some c → ∃ call, calls !! c = Some call ∧ request_key (dc_req call) = k;
  go_calls : Forall (λ call, plain_request (dc_req call) ∧ ∀ v, dc_val call = Some v → value_ok (dc_req call) v) calls;
}.

Record pool_ok s : Prop := {
  po_engine : engine_ok IH f IR owner path chain (wp_engine s);
  po_group : group_ok (wp_m s) (wp_calls s);
  po_workers : Forall (λ w, plain_request (event_request w.1) ∧ phase_ok (wp_calls s) (event_request w.1) w.2) (wp_workers s);
}.

Lemma engine_phase_ok now req calls ph ph' (e e' : DeduplicationEngine C H R W) :
  engine_phase now ctx_background req ph e = Some (ph', e') → plain_request req →
  engine_ok IH f IR owner path chain e → phase_ok calls req ph →
  engine_ok IH f IR owner path chain e' ∧ phase_ok calls req ph'.
Proof.
  intros E [Hreq _] (Hc & Hh & Hrs). pose proof Hreq as [Hne Hstack].
  assert (∀ l h, (hc_Get now l (req_RelPath req) (de_cache e)).1 = Some h → ideal (chain l) (req_RelPath req) = Ok h) as Hhit.
  { intros l h Hg. destruct Hc as [Hi Hv]. by apply Hv, (hc_Get_sound now). }
  assert (∀ o, owner (req_LayerStack req) (req_RelPath req) = Ok o → ideal (chain o) (req_RelPath req) = wanted req) as Hown.
  { intros o Ho. unfold wanted. rewrite Hstack in Ho |- *. by apply ideal_owner. }
  destruct (Hr _ Hrs) as [Hfind Hpath]. unfold engine_phase in E.
  destruct ph as [| |c|c|c o|c o|c o a|c o h|c o h cached|c v|c v|res|a res|res]; cbn [phase_ok]; try done.
  - assert (LayerStack_Valid (req_LayerStack req) = true) as Hval by (unfold LayerStack_Valid; by destruct (req_LayerStack req)).
    rewrite Hval in E. cbn [negb] in E. set (top := LayerStack_Top (req_LayerStack req)) in *.
    pose proof (justified_Get f owner path chain now top (req_RelPath req) _ Hc) as Hc'. specialize (Hhit top).
    destruct (hc_Get now top _ _) as [[h|] c] eqn:Hg; injection E as <- <-; intros _; (split; [by split_and! |]); [| done].
    split; [| done]. unfold wanted. rewrite Hstack. symmetry. by apply Hhit.
  - destruct (Hfind (req_LayerStack req) (req_RelPath req)) as [Eo Hrs'].
    destruct (lr_FindOwnerLayer _ _ _ _) as [[o|err] r]; injection E as <- <-; intros Hl; simpl in Eo, Hrs';
      (split; [by split_and! |]); (split; [done |]); [done |].
    cbn [value_ok]. unfold wanted, ideal, ideal_hash. by rewrite <- Eo.
  - pose proof (justified_Get f owner path chain now o (req_RelPath req) _ Hc) as Hc'. specialize (Hhit o).
    destruct (hc_Get now o _ _) as [[h|] c'] eqn:Hg; injection E as <- <-; intros [Hl Ho]; (split; [by split_and! |]); [| done].
    split_and!; [done | done |]. rewrite <- (Hown o Ho). by apply Hhit.
  - destruct (Hpath o (req_RelPath req)) as [Ep Hrs'].
    destruct (lr_DiffAbsPath _ _ _) as [[a|err] r]; injection E as <- <-; intros [Hl Ho]; simpl in Ep, Hrs';
      (split; [by split_and! |]); [done |]. split; [done |].
    cbn [value_ok]. unfold wanted, ideal, ideal_hash. by rewrite Ho, <- Ep.
  - destruct (Hf a _ Hh) as [Ef Hh']. change (de_hasher (de_fire _ e)) with (de_hasher e) in E.
    destruct (fh_Hash _ _ _) as [[h|err] h']; injection E as <- <-; intros (Hl & Ho & Ha); simpl in Ef, Hh';
      (split; [by split_and! |]); (split; [done |]).
    + split; [done |]. unfold wanted, ideal, ideal_hash. by rewrite Ho, Ha, <- Ef.
    + cbn [value_ok]. unfold wanted, ideal, ideal_hash. by rewrite Ho, Ha, <- Ef.
  - injection E as <- <-. intros (Hl & Ho & Hw). split; [| by split_and!].
    apply engine_ok_intro; [| done | done]. apply justified_Set; [done |]. rewrite <- Hw. by apply Hown.
  - injection E as <- <-. intros (Hl & Ho & Hw). split; [| by split_and!].
    assert (engine_ok IH f IR owner path chain (set_top now req o h e)) as Hs by by apply set_top_ok.
    by destruct cached.
Qed.

Lemma group_phase_ok req ph ph' m m' calls calls' :
  group_phase req ph m calls = Some (ph', m', calls') → plain_request req → group_ok m calls → phase_ok calls req ph →
  group_ok m' calls' ∧ phase_ok calls' req ph' ∧ calls_le calls calls'.
Proof.
  intros E Hreq [Hm Hcs]. unfold group_phase in E.
  assert (calls_le calls calls) as Hrefl by (intros c call Hc; by exists call).
  destruct ph as [| |c|c|c o|c o|c o a|c o h|c o h cached|c v|c v|res|a res|res]; cbn [phase_ok]; try done.
  - intros _. destruct (m !! request_key req) as [c|] eqn:Hk; injection E as <- <- <-.
    + split; [done |]. split; [| done]. destruct (Hm _ _ Hk) as (call & Hc & Ek). exists call. split; [done |].
      apply request_key_inj; [| done | done]. rewrite Forall_lookup in Hcs. by apply (Hcs c).
    + set (new := {| dc_req := req; dc_val := None |}).
      assert (calls_le calls (calls ++ [new])) as Hle.
      { intros c call Hc. exists call. split; [| done]. by apply lookup_app_l_Some. }
      assert ((calls ++ [new]) !! length calls = Some new) as Hnew by by apply list_lookup_middle.
      split; [| split; [by exists new | done]]. split.
      * intros k c. destruct (decide (k = request_key req)) as [->|Hne].
        { rewrite lookup_insert_eq. intros [= <-]. by exists new. }
        rewrite lookup_insert_ne by done. intros Hkc. destruct (Hm _ _ Hkc) as (call & Hc & Ek).
        exists call. split; [| done]. by apply lookup_app_l_Some.
      * apply Forall_app. split; [done |]. by apply Forall_singleton.
  - intros (call & Hc & Hs). destruct (calls !! c ≫= dc_val) as [v|] eqn:Hv; [| done]. injection E as <- <- <-.
    split; [done |]. split; [| done]. rewrite Hc in Hv. rewrite Forall_lookup in Hcs. destruct (Hcs c call Hc) as [_ Hok].
    by eapply value_answer, Hok.
  - intros [(call & Hc & El) Hv]. injection E as <- <- <-.
    set (done v0 := λ x : dcall, {| dc_req := dc_req x; dc_val := Some v0 |}).
    assert (calls_le calls (alter (done v) c calls)) as Hle.
    { intros c' call' Hc'. destruct (decide (c' = c)) as [->|Hne].
      - exists (done v call'). by rewrite list_lookup_alter_eq, Hc'.
      - exists call'. by rewrite list_lookup_alter_ne. }
    split; [| split; [| done]].
    + split.
      * intros k c' Hk. destruct (Hm _ _ Hk) as (call' & Hc' & Ek). destruct (Hle _ _ Hc') as (call'' & ? & E). exists call''. by rewrite E.
      * rewrite Forall_lookup. intros c' call' Hc'. rewrite Forall_lookup in Hcs.
        destruct (decide (c' = c)) as [->|Hne]; [| rewrite list_lookup_alter_ne in Hc' by done; by apply (Hcs c')].
        rewrite list_lookup_alter_eq, Hc in Hc'. injection Hc' as <-. destruct (Hcs c call Hc) as [Hp _].
        split; [done |]. cbn. intros v' [= <-]. by rewrite El.
    + split; [| done]. destruct (Hle c call Hc) as (call' & ? & E). exists call'. by rewrite E.
  - intros [Hl Hv]. injection E as <- <- <-. split; [| split; [| done]].
    + split; [| done]. intros k c' Hk. apply lookup_delete_Some in Hk as [_ Hk]. by apply Hm.
    + by eapply value_answer.
Qed.

Lemma builder_phase_ok calls ev ph ph' bs bs' heap heap' :
  builder_phase ev ph bs heap = Some (ph', bs', heap') → phase_ok calls (event_request ev) ph →
  phase_ok calls (event_request ev) ph'.
Proof.
  intros E. unfold builder_phase in E. destruct ph; cbn [phase_ok]; try done.
  - destruct (res_Err res) eqn:Herr; [by injection E as <- <- <- |].
    destruct (bs !! _); by injection E as <- <- <-.
  - injection E as <- <- <-. by intros [].
Qed.

(** ** The steps of a pool *)

(** What one worker's step does to the others: nothing. *)
Inductive stepped (i : nat) (now : Z) (ctx : context) (ev : AccessEvent) (ph : phase) s : WorkerPool C H R W → Prop :=
  | stepped_engine ph' e' : engine_phase now ctx (event_request ev) ph (wp_engine s) = Some (ph', e') →
      stepped i now ctx ev ph s
        (pool_with s e' (wp_m s) (wp_calls s) (wp_builders s) (wp_heap s) (<[i := (ev, ph')]> (wp_workers s)))
  | stepped_group ph' m' calls' : group_phase (event_request ev) ph (wp_m s) (wp_calls s) = Some (ph', m', calls') →
      stepped i now ctx ev ph s
        (pool_with s (wp_engine s) m' calls' (wp_builders s) (wp_heap s) (<[i := (ev, ph')]> (wp_workers s)))
  | stepped_builder ph' bs' heap' : builder_phase ev ph (wp_builders s) (wp_heap s) = Some (ph', bs', heap') →
      stepped i now ctx ev ph s
        (pool_with s (wp_engine s) (wp_m s) (wp_calls s) bs' heap' (<[i := (ev, ph')]> (wp_workers s))).

Lemma worker_step_inv i now ctx s s' :
  worker_step i now ctx s = Some s' → ∃ ev ph, wp_workers s !! i = Some (ev, ph) ∧ stepped i now ctx ev ph s s'.
Proof.
  unfold worker_step. destruct (wp_workers s !! i) as [[ev ph]|] eqn:Hi; [| done]. cbn [mbind option_bind].
  intros E. exists ev, ph. split; [done |]. destruct (engine_phase _ _ _ _ _) as [[ph' e']|] eqn:E1.
  { injection E as <-. by apply stepped_engine. }
  destruct (group_phase _ _ _ _) as [[[ph' m'] calls']|] eqn:E2.
  { injection E as <-. by apply stepped_group. }
  destruct (builder_phase _ _ _ _) as [[[ph' bs'] heap']|] eqn:E3; [| done].
  injection E as <-. by apply stepped_builder.
Qed.

(** The actions the theorems are about: requests as above, no cancelled context *)
Definition allowed (a : pool_action) : Prop :=
  match a with
  | WNew ev => plain_request (event_request ev)
  | WStep _ _ ctx => ctx = ctx_background
  | _ => True
  end.

Lemma Forall_workers_insert (Q : AccessEvent * phase → Prop) ws i ev ph :
  Forall Q ws → Q (ev, ph) → Forall Q (<[i := (ev, ph)]> ws).
Proof. intros. by apply Forall_insert. Qed.

Lemma pool_ok_step a s s' : allowed a → pool_step a s = Some s' → pool_ok s → pool_ok s'.
Proof.
  intros Ha E [He Hg Hw]. destruct a as [ev|i now ctx|v|j now]; cbn [pool_step allowed] in *.
  - injection E as <-. split; [done | done |]. cbn. apply Forall_app. split; [done |]. by apply Forall_singleton.
  - subst ctx. apply worker_step_inv in E as (ev & ph & Hi & Hst). pose proof Hw as Hw'.
    rewrite Forall_lookup in Hw'. destruct (Hw' i _ Hi) as [Hreq Hph]. cbn [fst snd] in *. destruct Hst as [ph' e' E|ph' m' calls' E|ph' bs' heap' E].
    + destruct (engine_phase_ok _ _ _ _ _ _ _ E Hreq He Hph) as [He' Hph']. split; [done | done |].
      by apply Forall_workers_insert.
    + destruct (group_phase_ok _ _ _ _ _ _ _ E Hreq Hg Hph) as (Hg' & Hph' & Hle). split; [done | done |]. cbn.
      apply Forall_workers_insert; [| done]. eapply Forall_impl; [exact Hw |]. intros [ev0 ph0] [? ?].
      split; [done |]. by eapply phase_ok_le.
    + split; [done | done |]. cbn. apply Forall_workers_insert; [done |]. split; [done |]. by eapply builder_phase_ok.
  - injection E as <-. unfold Finalize_take. by destruct (wp_builders s !! v).
  - unfold Finalize_seal in E. destruct (wp_sealing s !! j) as [a|]; [| done]. cbn [mbind option_bind] in E.
    destruct (wp_heap s !! a); [| done]. by injection E as <-.
Qed.

Lemma pool_run_inv (Q : WorkerPool C H R W → Prop) (A : pool_action → Prop) l s s' :
  (∀ a s s', A a → pool_step a s = Some s' → Q s → Q s') → Forall A l → pool_run l s = Some s' → Q s → Q s'.
Proof.
  intros Hstep Hl. revert s. induction Hl as [|a l Ha Hl IHl]; intros s; cbn [pool_run]; [by intros [= <-] |].
  destruct (pool_step a s) as [s1|] eqn:E; [| done]. cbn [mbind option_bind]. intros Hrun Hq.
  by apply (IHl s1 Hrun), (Hstep a s).
Qed.

Lemma NewPool_ok e fo : engine_ok IH f IR owner path chain e → pool_ok (NewWorkerPool e fo).
Proof. intros He. split; [done | | constructor]. split; cbn [NewWorkerPool wp_m wp_calls]; [intros k c Hk; by rewrite lookup_empty in Hk | constructor]. Qed.

(** The workers of a run are those that were started. *)
Definition started (l : list pool_action) : list AccessEvent :=
  omap (λ a, match a with WNew ev => Some ev | _ => None end) l.

Lemma pool_run_started l s s' : pool_run l s = Some s' → (wp_workers s').*1 = (wp_workers s).*1 ++ started l.
Proof.
  revert s. induction l as [|a l IHl]; intros s; cbn [pool_run]; [intros [= <-]; by rewrite app_nil_r |].
  destruct (pool_step a s) as [s1|] eqn:E; [| done]. cbn [mbind option_bind]. intros ->%IHl.
  destruct a as [ev|i now ctx|v|j now]; cbn [pool_step] in E.
  - injection E as <-. cbn. by rewrite fmap_app, <- app_assoc.
  - apply worker_step_inv in E as (ev & ph & Hi & Hst).
    assert (∀ ph', (<[i := (ev, ph')]> (wp_workers s)).*1 = (wp_workers s).*1) as Hsame.
    { intros ph'. rewrite list_fmap_insert. apply list_insert_id. by rewrite list_lookup_fmap, Hi. }
    by destruct Hst; cbn [pool_with wp_workers]; rewrite Hsame.
  - injection E as <-. unfold Finalize_take. by destruct (wp_builders s !! v).
  - unfold Finalize_seal in E. destruct (wp_sealing s !! j) as [a|]; [| done]. cbn [mbind option_bind] in E.
    destruct (wp_heap s !! a); [| done]. by injection E as <-.
Qed.

(** ** What the builders hold *)

(** The successful results of the workers of a vertex that have returned *)
Definition ended (v : VertexID) (ws : list (AccessEvent * phase)) : list HashResult :=
  omap (λ w, match w.2 with
             | PhEnd res => if decide (ev_VertexID w.1 = v ∧ res_Err res = None) then Some res else None
             | _ => None
             end) ws.

Record builders_ok s : Prop := {
  bo_log v a : wp_builders s !! v = Some a →
    ∃ st log, wp_heap s !! a = Some (builder_run v st log) ∧ log ≡ₚ ended v (wp_workers s);
  bo_none v : wp_builders s !! v = None → ended v (wp_workers s) = [];
  bo_add ev a res : (ev, PhAdd a res) ∈ wp_workers s → wp_builders s !! ev_VertexID ev = Some a ∧ res_Err res = None;
}.

Definition not_final (a : pool_action) : Prop := match a with WTake _ | WSeal _ _ => False | _ => True end.

(** The phases at which a worker touches no builder *)
Definition resolving (ph : phase) : bool :=
  match ph with PhBuilder _ | PhAdd _ _ | PhEnd _ => false | _ => true end.

Lemma engine_phase_kind now ctx req ph ph' (e e' : DeduplicationEngine C H R W) :
  engine_phase now ctx req ph e = Some (ph', e') →
  resolving ph = true ∧ (resolving ph' = true ∨ ∃ res, ph' = PhBuilder res).
Proof.
  unfold engine_phase. intros E. destruct ph; try done; (split; [done |]); repeat case_match; simplify_eq/=;
    first [by left | right; by eexists].
Qed.

Lemma group_phase_kind req ph ph' m m' calls calls' :
  group_phase req ph m calls = Some (ph', m', calls') →
  resolving ph = true ∧ (resolving ph' = true ∨ ∃ res, ph' = PhBuilder res).
Proof.
  unfold group_phase. intros E. destruct ph; try done; (split; [done |]);
    [case_match | destruct (calls !! c ≫= dc_val); [| done] | |]; simplify_eq/=.
  all: try (by left). all: try (right; by eexists).
Qed.

Definition end_of (v : VertexID) (w : AccessEvent * phase) : list HashResult := ended v [w].

Lemma ended_app v ws1 ws2 : ended v (ws1 ++ ws2) = ended v ws1 ++ ended v ws2.
Proof. apply omap_app. Qed.

Lemma ended_middle v ws1 ws2 w : ended v (ws1 ++ w :: ws2) = ended v ws1 ++ end_of v w ++ ended v ws2.
Proof. rewrite ended_app. change (w :: ws2) with ([w] ++ ws2). by rewrite ended_app. Qed.

Lemma elem_of_middle {A} (l1 l2 : list A) x y : x ∈ l1 ++ y :: l2 ↔ x = y ∨ x ∈ l1 ++ l2.
Proof. rewrite !elem_of_app, elem_of_cons. tauto. Qed.

(** A worker that moves between places without a builder changes nothing here. *)
Lemma builders_ok_move s s' i ev ph ph' :
  wp_builders s' = wp_builders s → wp_heap s' = wp_heap s → wp_workers s !! i = Some (ev, ph) →
  wp_workers s' = <[i := (ev, ph')]> (wp_workers s) →
  (∀ v, end_of v (ev, ph) = []) → (∀ v, end_of v (ev, ph') = []) → (∀ a res, ph' ≠ PhAdd a res) →
  builders_ok s → builders_ok s'.
Proof.
  intros Eb Eh Hi Ew He He' Hna [Hl Hn Ha]. apply list_split in Hi as (l1 & l2 & E & ->).
  rewrite E, insert_middle in Ew.
  assert (∀ v, ended v (wp_workers s') = ended v (wp_workers s)) as Hend by (intros v; by rewrite Ew, E, !ended_middle, He, He').
  split.
  - intros v a. rewrite Eb, Eh, Hend. apply Hl.
  - intros v. rewrite Eb, Hend. apply Hn.
  - intros ev' a res. rewrite Eb, Ew, elem_of_middle. intros [[= _ <-]|Hin]; [by destruct (Hna a res) |].
    apply (Ha ev' a res). rewrite E, elem_of_middle. by right.
Qed.

Lemma builder_run_snoc v st log res : builder_Add (builder_run v st log) res = builder_run v st (log ++ [res]).
Proof. unfold builder_run. by rewrite foldl_app. Qed.

Lemma builder_run_vertex v st log : mb_vertexID (builder_run v st log) = v.
Proof. by rewrite builder_run_eq. Qed.

(** Two vertices have two builders. *)
Lemma builders_distinct s v v' a : builders_ok s → wp_builders s !! v = Some a → wp_builders s !! v' = Some a → v = v'.
Proof.
  intros [Hl _ _] E E'. destruct (Hl v a E) as (st & log & H1' & _). destruct (Hl v' a E') as (st' & log' & H2' & _).
  rewrite H1' in H2'. injection H2' as Hb. apply (f_equal mb_vertexID) in Hb. by rewrite !builder_run_vertex in Hb.
Qed.

Lemma end_of_add v ev a res : end_of v (ev, PhAdd a res) = [].
Proof. done. Qed.

Lemma end_of_end v ev res : end_of v (ev, PhEnd res) = if decide (ev_VertexID ev = v ∧ res_Err res = None) then [res] else [].
Proof. unfold end_of, ended. csimpl. by case_decide. Qed.

Lemma builders_ok_builder s i ev ph ph' bs' heap' :
  wp_workers s !! i = Some (ev, ph) → builder_phase ev ph (wp_builders s) (wp_heap s) = Some (ph', bs', heap') →
  builders_ok s →
  builders_ok (pool_with s (wp_engine s) (wp_m s) (wp_calls s) bs' heap' (<[i := (ev, ph')]> (wp_workers s))).
Proof.
  intros Hi E Hok. pose proof Hok as [Hl Hn Ha]. unfold builder_phase in E. destruct ph as [| | | | | | | | | | |res|a res|]; try done.
  - destruct (res_Err res) eqn:Herr.
    { injection E as <- <- <-. eapply (builders_ok_move s); [done | done | exact Hi | done | done | | done | done].
      intros v. rewrite end_of_end, decide_False; [done |]. intros []. congruence. }
    destruct (wp_builders s !! ev_VertexID ev) as [a|] eqn:Ea; injection E as <- <- <-;
      apply list_split in Hi as (l1 & l2 & Ew & ->); rewrite Ew, insert_middle; rewrite Ew in Hl, Hn, Ha.
    + split; cbn [pool_with wp_builders wp_heap wp_workers].
      * intros v a'. rewrite ended_middle. specialize (Hl v a'). by rewrite ended_middle in Hl.
      * intros v. rewrite ended_middle. specialize (Hn v). by rewrite ended_middle in Hn.
      * intros ev' a' res'. rewrite elem_of_middle. intros [[= -> -> ->]|Hin]; [done |]. apply Ha. rewrite elem_of_middle. by right.
    + split; cbn [pool_with wp_builders wp_heap wp_workers].
      * intros v a'. rewrite ended_middle. destruct (decide (v = ev_VertexID ev)) as [->|Hv].
        -- rewrite lookup_insert_eq. intros [= <-]. exists (ev_LayerStack ev), []. rewrite list_lookup_middle by done.
           split; [done |]. specialize (Hn _ Ea). rewrite ended_middle in Hn. cbn [end_of ended omap list_omap app snd] in *. by rewrite Hn.
        -- rewrite lookup_insert_ne by done. intros Hv'. destruct (Hl v a' Hv') as (st & log & Hh & Hp).
           exists st, log. rewrite ended_middle in Hp. split; [by apply lookup_app_l_Some | done].
      * intros v Hv. rewrite ended_middle. apply lookup_insert_None in Hv as [Hv _]. specialize (Hn v Hv). by rewrite ended_middle in Hn.
      * intros ev' a' res'. rewrite elem_of_middle. intros [[= -> -> ->]|Hin]; [by rewrite lookup_insert_eq |].
        destruct (Ha ev' a' res') as [Hb He]; [rewrite elem_of_middle; by right |]. split; [| done].
        rewrite lookup_insert_ne; [done |]. congruence.
  - injection E as <- <- <-. destruct (Ha ev a res) as [Eb Herr]; [by eapply list_elem_of_lookup_2 |].
    destruct (Hl _ _ Eb) as (st & log & Hh & Hp). pose proof Hi as Hi'.
    apply list_split in Hi as (l1 & l2 & Ew & ->). rewrite Ew, insert_middle.
    split; cbn [pool_with wp_builders wp_heap wp_workers].
    + intros v a' Ea'. destruct (decide (v = ev_VertexID ev)) as [->|Hv].
      * assert (a' = a) as -> by congruence. exists st, (log ++ [res]).
        rewrite list_lookup_alter_eq, Hh. cbn [fmap option_fmap option_map]. rewrite builder_run_snoc. split; [done |].
        rewrite ended_middle, end_of_end, decide_True by done. rewrite Ew, ended_middle, end_of_add in Hp. rewrite Hp.
        solve_Permutation.
      * rewrite list_lookup_alter_ne by (intros ->; by apply Hv, (builders_distinct s _ _ a')).
        destruct (Hl v a' Ea') as (st' & log' & Hh' & Hp'). exists st', log'. split; [done |].
        rewrite ended_middle, end_of_end, decide_False by (by intros [<- _]). by rewrite Ew, ended_middle, end_of_add in Hp'.
    + intros v Hv. rewrite ended_middle, end_of_end, decide_False by (intros [<- _]; congruence).
      specialize (Hn v Hv). by rewrite Ew, ended_middle, end_of_add in Hn.
    + intros ev' a' res'. rewrite elem_of_middle. intros [[=]|Hin]. apply Ha. rewrite Ew, elem_of_middle. by right.
Qed.

Lemma builders_ok_step a s s' : not_final a → pool_step a s = Some s' → builders_ok s → builders_ok s'.
Proof.
  intros Ha E Hok. destruct a as [ev|i now ctx|v|j now]; cbn [pool_step not_final] in *; [| | done..].
  - injection E as <-. destruct Hok as [Hl Hn Hadd].
    assert (∀ v, ended v (wp_workers s ++ [(ev, PhTop)]) = ended v (wp_workers s)) as He
      by (intros v; rewrite ended_app; apply app_nil_r).
    split; cbn [pool_with wp_builders wp_heap wp_workers]; [intros v a; rewrite He; apply Hl | intros v; rewrite He; apply Hn |].
    intros ev' a res. rewrite elem_of_app, list_elem_of_singleton. intros [?|[=]]. by apply Hadd.
  - apply worker_step_inv in E as (ev & ph & Hi & [ph' e' E|ph' m' calls' E|ph' bs' heap' E]).
    + apply engine_phase_kind in E as [Hk Hk']. eapply (builders_ok_move s); [done | done | exact Hi | done | | | | done].
      * by destruct ph.
      * destruct Hk' as [?|[? ->]]; [by destruct ph' | done].
      * intros a res ->. by destruct Hk' as [?|[? ?]].
    + apply group_phase_kind in E as [Hk Hk']. eapply (builders_ok_move s); [done | done | exact Hi | done | | | | done].
      * by destruct ph.
      * destruct Hk' as [?|[? ->]]; [by destruct ph' | done].
      * intros a res ->. by destruct Hk' as [?|[? ?]].
    + by eapply builders_ok_builder.
Qed.

Lemma NewPool_builders e fo : builders_ok (NewWorkerPool e fo).
Proof.
  split; cbn [NewWorkerPool wp_builders wp_heap wp_workers].
  - intros v a Hv. by rewrite lookup_empty in Hv.
  - done.
  - by intros ev a res ?%not_elem_of_nil.
Qed.

(** ** The tree of a vertex *)

Definition at_end (ph : phase) : bool := match ph with PhEnd _ => true | _ => false end.

(** The files that the accesses of [v] read *)
Definition vertex_files (v : VertexID) (evs : list AccessEvent) : list (list string * list byte) :=
  ideal_files f owner path (of_vertex v ((λ ev, (0%Z, ev)) <$> evs)).

(** The root of a set of files: the tree of a trie that holds them *)
Definition reference_root (files : list (list string * list byte)) : string :=
  computeRootDigest (Some (buildMerkleNode EmptyString (node_insert_all files NewRoot))).

Lemma ended_files v ws :
  Forall (λ w, (plain_request (event_request w.1) ∧ ∃ calls, phase_ok calls (event_request w.1) w.2) ∧ at_end w.2 = true) ws →
  files_of (ended v ws) = vertex_files v ws.*1.
Proof.
  unfold vertex_files, of_vertex. induction 1 as [|[ev ph] ws [[_ [calls Hph]] He] _ IHws]; [done |].
  rewrite fmap_cons, fmap_cons, filter_cons. cbn [fst snd] in *. destruct ph as [| | | | | | | | | | | | |res]; try done.
  cbn [phase_ok] in Hph. destruct Hph as [Ho Hp]. cbn [event_request req_RelPath] in Hp.
  change ((ev, PhEnd res) :: ws) with ([(ev, PhEnd res)] ++ ws). rewrite ended_app.
  change (ended v [(ev, PhEnd res)]) with (end_of v (ev, PhEnd res)). rewrite end_of_end.
  unfold files_of in *. rewrite filter_app, fmap_app, IHws.
  destruct (decide (ev_VertexID ev = v)) as [Hv|Hv]; [| by rewrite decide_False by (by intros [? _])].
  unfold ideal_files. csimpl. unfold wanted, ideal in Ho. cbn [event_request req_LayerStack req_RelPath] in Ho.
  rewrite <- Ho. unfold outcome. destruct (res_Err res) as [err|] eqn:Herr.
  - by rewrite decide_False by (intros [_ [=]]).
  - rewrite decide_True by done. rewrite filter_cons, filter_nil.
    rewrite (decide_ext (accepted res) (res_Hash res ≠ EmptyString)) by (unfold accepted; tauto).
    case_decide; [| done]. csimpl. unfold result_file. by rewrite Hp.
Qed.

(** The tree of a vertex whose workers have all returned *)
Lemma pool_tree s v :
  pool_ok s → builders_ok s → Forall (λ w, at_end w.2 = true) (wp_workers s) → vertex_files v (wp_workers s).*1 ≠ [] →
  consistent (vertex_files v (wp_workers s).*1) →
  ∃ a st log, wp_builders s !! v = Some a ∧ wp_heap s !! a = Some (builder_run v st log) ∧
    ∀ now, mt_Root (builder_Finalize (builder_run v st log) now) = reference_root (vertex_files v (wp_workers s).*1).
Proof.
  intros [_ _ Hw] [Hl Hn _] Hend Hne Hc.
  assert (files_of (ended v (wp_workers s)) = vertex_files v (wp_workers s).*1) as Hf'.
  { apply ended_files. rewrite Forall_forall in Hw, Hend |- *. intros w Hin. destruct (Hw w Hin) as [? ?].
    split; [split; [done | by eexists] | by apply Hend]. }
  destruct (wp_builders s !! v) as [a|] eqn:Ea.
  2: { specialize (Hn v Ea). rewrite Hn in Hf'. by rewrite <- Hf' in Hne. }
  destruct (Hl v a Ea) as (st & log & Hh & Hp). exists a, st, log. split; [done |]. split; [done |]. intros now.
  rewrite finalize_root. unfold reference_root. do 3 f_equal. symmetry. apply node_insert_all_set; [done |].
  intros x. rewrite <- Hf'. unfold files_of. by rewrite Hp.
Qed.
End answers.

(** C2: any interleaving of the workers gives the tree of the files.  On a file system that does
    not change, for accesses with a live context whose layer stack is the one that their top layer
    determines, and with no finalization while the workers run, whatever the schedule of the
    workers, each at its own access to the cache, the singleflight group, the resolver, the hasher
    and the builders, over any lawful cache: every worker that has returned answers with the hash
    of the file in the topmost layer that has it, or the error of the step that fails; and when
    all have returned, [FinalizeVertex] seals, for each vertex whose accesses read some file and
    take no path for both a file and a directory, a tree whose root is that of the set of these
    files. *)
Theorem concurrent_root {C H R W : Type} `{HashCacheLaws C, FileHasher H, LayerFileResolver R} `{HashFn, GoSort}
    (IH : H → Prop) (f : string → result FileHash) (IR : R → Prop) (owner : LayerStack → string → result LayerID)
    (path : LayerID → string → result string) (chain : LayerID → LayerStack)
    (e : DeduplicationEngine C H R W) (fo : MerkleForest) (l : list pool_action) (s : WorkerPool C H R W) :
  hasher_faithful IH f → resolver_faithful IR owner path → owner_local owner → layer_chain chain →
  engine_ok IH f IR owner path chain e → Forall (λ a, allowed chain a ∧ not_final a) l →
  pool_run l (NewWorkerPool e fo) = Some s →
  (∀ ev res, (ev, PhEnd res) ∈ wp_workers s →
     outcome res = ideal_hash owner path f (ev_LayerStack ev) (ev_RelPath ev)) ∧
  (Forall (λ w, at_end w.2 = true) (wp_workers s) → ∀ v now,
     let files := vertex_files f owner path v (started l) in
     files ≠ [] → consistent files →
     ∃ s1 s2 t, Finalize_take v s = (Ok tt, s1) ∧ Finalize_seal 0 now s1 = Some s2 ∧ wp_trees s2 = wp_trees s ++ [t] ∧
       forest_Get (wp_forest s2) v = Some t ∧ mt_Root t = reference_root files).
Proof.
  intros Hf Hr Hl Hch He Hal Hrun.
  assert (pool_ok IH f IR owner path chain s) as Hok.
  { eapply (pool_run_inv _ (λ a, allowed chain a ∧ not_final a)); [| exact Hal | exact Hrun | by apply NewPool_ok].
    intros a s0 s1 [Ha _]. by apply (pool_ok_step IH f Hf IR owner path Hr Hl chain Hch a). }
  assert (builders_ok s) as Hb.
  { eapply (pool_run_inv _ (λ a, allowed chain a ∧ not_final a)); [| exact Hal | exact Hrun | apply NewPool_builders].
    intros a s0 s1 [_ Ha]. by apply (builders_ok_step a). }
  assert (wp_sealing s = []) as Hsl.
  { eapply (pool_run_inv (λ s, wp_sealing s = []) (λ a, allowed chain a ∧ not_final a)); [| exact Hal | exact Hrun | done].
    intros [ev|i now ctx|v|j now] s0 s1 [_ Ha] E Hs0; cbn [pool_step not_final] in *; [by injection E as <- | | done..].
    by apply worker_step_inv in E as (ev & ph & _ & []). }
  pose proof (pool_run_started _ _ _ Hrun) as Hst. cbn in Hst. split.
  - intros ev res Hin. pose proof (po_workers _ _ _ _ _ _ _ Hok) as Hw. rewrite Forall_forall in Hw.
    destruct (Hw _ Hin) as [_ [Ho _]]. exact Ho.
  - intros Hend v now files Hne Hc. unfold files in *. rewrite <- Hst in *.
    destruct (pool_tree IH f IR owner path chain s v Hok Hb Hend Hne Hc) as (a & st & log & Ea & Hh & Hroot).
    unfold Finalize_take. rewrite Ea. do 3 eexists. split; [done |]. rewrite Hsl. unfold Finalize_seal.
    cbn [wp_sealing app lookup list_lookup mbind option_bind wp_heap]. rewrite Hh. split; [reflexivity |]. cbn [wp_trees wp_forest]. split; [done |]. split; [| apply Hroot].
    apply forest_Get_finalized.
Qed.

(** ** Every worker returns *)

Definition phase_weight (ph : phase) : nat :=
  match ph with
  | PhTop => 12 | PhDo => 11 | PhFind _ => 10 | PhLook _ _ => 9 | PhPath _ _ => 8 | PhHash _ _ _ => 7 | PhSet _ _ _ => 6
  | PhSetTop _ _ _ _ => 5 | PhFn _ _ => 4 | PhDelete _ _ => 3 | PhWait _ => 3 | PhBuilder _ => 2 | PhAdd _ _ => 1 | PhEnd _ => 0
  end.

(** The call that a worker is running *)
Definition leading (ph : phase) : option nat :=
  match ph with
  | PhFind c | PhLook c _ | PhPath c _ | PhHash c _ _ | PhSet c _ _ | PhSetTop c _ _ _ | PhFn c _ => Some c
  | _ => None
  end.

Section progress.
Context {C H R W : Type} `{HashCache C, FileHasher H, LayerFileResolver R} `{HashFn, GoSort}.
Implicit Types s : WorkerPool C H R W.

Definition pool_work s : nat := sum_list_with (λ w, phase_weight w.2) (wp_workers s).

(** A call without a value is being run. *)
Record leaders_ok s : Prop := {
  lo_map k c : wp_m s !! k = Some c → is_Some (wp_calls s !! c);
  lo_wait ev c : (ev, PhWait c) ∈ wp_workers s → is_Some (wp_calls s !! c);
  lo_lead c call : wp_calls s !! c = Some call → dc_val call = None →
    ∃ w, w ∈ wp_workers s ∧ leading w.2 = Some c;
}.

Definition is_step (a : pool_action) : Prop := match a with WStep _ _ _ => True | _ => False end.

Lemma engine_phase_lead now ctx req ph ph' (e e' : DeduplicationEngine C H R W) :
  engine_phase now ctx req ph e = Some (ph', e') →
  phase_weight ph' < phase_weight ph ∧ leading ph' = leading ph ∧ ∀ c, ph' ≠ PhWait c.
Proof. unfold engine_phase. intros E. destruct ph; try done; repeat case_match; simplify_eq/=; (split_and!; [lia | done..]). Qed.

Lemma builder_phase_lead ev ph ph' bs bs' heap heap' :
  builder_phase ev ph bs heap = Some (ph', bs', heap') →
  phase_weight ph' < phase_weight ph ∧ leading ph' = leading ph ∧ ∀ c, ph' ≠ PhWait c.
Proof. unfold builder_phase. intros E. destruct ph; try done; repeat case_match; simplify_eq/=; (split_and!; [lia | done..]). Qed.

Lemma pool_work_step i now ctx s s' : worker_step i now ctx s = Some s' → pool_work s' < pool_work s.
Proof.
  intros (ev & ph & Hi & Hst)%worker_step_inv. unfold pool_work.
  assert (∀ ph', phase_weight ph' < phase_weight ph →
    sum_list_with (λ w : AccessEvent * phase, phase_weight w.2) (<[i := (ev, ph')]> (wp_workers s))
    < sum_list_with (λ w : AccessEvent * phase, phase_weight w.2) (wp_workers s)) as Hlt.
  { intros ph' Hlt. apply list_split in Hi as (l1 & l2 & -> & ->). rewrite insert_middle, !sum_list_with_app. simpl. lia. }
  destruct Hst as [ph' e' E|ph' m' calls' E|ph' bs' heap' E]; cbn [pool_with wp_workers]; apply Hlt.
  - by apply engine_phase_lead in E as (? & _).
  - unfold group_phase in E. destruct ph; try done; [case_match | destruct (wp_calls s !! c ≫= dc_val); [| done] | |];
      simplify_eq/=; lia.
  - by apply builder_phase_lead in E as (? & _).
Qed.

(** Moving a worker keeps the others' places, and its own as long as it leads the same call. *)
Lemma lead_insert (ws : list (AccessEvent * phase)) i ev ph ph' c :
  ws !! i = Some (ev, ph) → (leading ph = Some c → leading ph' = Some c) →
  (∃ w, w ∈ ws ∧ leading w.2 = Some c) → ∃ w, w ∈ <[i := (ev, ph')]> ws ∧ leading w.2 = Some c.
Proof.
  intros Hi Hl (w & Hin & Hw). apply list_split in Hi as (l1 & l2 & -> & ->). rewrite insert_middle.
  apply elem_of_middle in Hin as [-> | Hin]; [exists (ev, ph') | exists w]; rewrite elem_of_middle; (split; [tauto |]); [by apply Hl | done].
Qed.

Lemma leaders_ok_move s s' i ev ph ph' :
  (∀ k c, wp_m s' !! k = Some c → is_Some (wp_calls s' !! c)) →
  (∀ c, is_Some (wp_calls s !! c) → is_Some (wp_calls s' !! c)) →
  (∀ c call, wp_calls s' !! c = Some call → dc_val call = None →
     leading ph' = Some c ∨ (leading ph = Some c → leading ph' = Some c) ∧ wp_calls s !! c = Some call) →
  wp_workers s !! i = Some (ev, ph) → wp_workers s' = <[i := (ev, ph')]> (wp_workers s) →
  (∀ c, ph' = PhWait c → is_Some (wp_calls s' !! c)) → leaders_ok s → leaders_ok s'.
Proof.
  intros Hm' Hsome Hl Hi Ew Hnw [Hm Hw Hld]. split; [done | rewrite Ew..].
  - intros ev' c Hin. apply list_elem_of_lookup in Hin as [j Hj]. apply list_lookup_insert_Some in Hj as [(<- & [= <- ->] & _)|[_ Hj]].
    + by apply Hnw.
    + eapply Hsome, Hw, list_elem_of_lookup_2, Hj.
  - intros c call Hc Hv. destruct (Hl c call Hc Hv) as [Hlead|[Hlead Hc']].
    + exists (ev, ph'). split; [| done]. eapply list_elem_of_lookup_2, (list_lookup_insert_eq _ i), lookup_lt_Some, Hi.
    + eapply lead_insert; [exact Hi | exact Hlead | by eapply Hld].
Qed.

Lemma leaders_ok_group s i ev ph ph' m' calls' :
  wp_workers s !! i = Some (ev, ph) → group_phase (event_request ev) ph (wp_m s) (wp_calls s) = Some (ph', m', calls') →
  leaders_ok s →
  leaders_ok (pool_with s (wp_engine s) m' calls' (wp_builders s) (wp_heap s) (<[i := (ev, ph')]> (wp_workers s))).
Proof.
  intros Hi E Hok. pose proof Hok as [Hm Hw Hld]. unfold group_phase in E. destruct ph; try done.
  - destruct (wp_m s !! _) as [c|] eqn:Em; injection E as <- <- <-.
    { apply (leaders_ok_move s _ i ev PhDo (PhWait c)); cbn [pool_with wp_m wp_calls wp_workers];
        [apply Hm | done | intros c' call Hc _; right; by split | done | done | | done]. intros ? [= <-]. by eapply Hm. }
    apply (leaders_ok_move s _ i ev PhDo (PhFind (length (wp_calls s)))); cbn [pool_with wp_m wp_calls wp_workers];
      [| | | done | done | done | done].
    + intros k c Hk. apply lookup_insert_Some in Hk as [[_ <-]|[_ Hk]]; [rewrite list_lookup_middle by done; by eexists |].
      destruct (Hm k c Hk) as [call Hc]. exists call. by apply lookup_app_l_Some.
    + intros c [call Hc]. exists call. by apply lookup_app_l_Some.
    + intros c call Hc _. apply lookup_app_Some in Hc as [Hc|[Hle Hc]]; [right; by split | left]. cbn [leading].
      apply list_lookup_singleton_Some in Hc as [Hc _]. f_equal. lia.
  - destruct (wp_calls s !! c ≫= dc_val) as [v|]; [| done]. injection E as <- <- <-.
    by apply (leaders_ok_move s _ i ev (PhWait c) (PhBuilder (returned (event_request ev) v)));
      cbn [pool_with wp_m wp_calls wp_workers]; [apply Hm | done | intros c' call Hc _; right; by split | ..].
  - injection E as <- <- <-.
    apply (leaders_ok_move s _ i ev (PhFn c v) (PhDelete c v)); cbn [pool_with wp_m wp_calls wp_workers];
      [| | | done | done | done | done].
    + intros k c' Hk. apply Hm in Hk as [call Hc]. apply lookup_lt_is_Some. rewrite length_alter. by eapply lookup_lt_Some.
    + intros c' [call Hc]. apply lookup_lt_is_Some. rewrite length_alter. by eapply lookup_lt_Some.
    + intros c' call Hc Hv. right. destruct (decide (c' = c)) as [->|Hne].
      * rewrite list_lookup_alter_eq in Hc. destruct (wp_calls s !! c); [| done]. by injection Hc as <-.
      * rewrite list_lookup_alter_ne in Hc by done. split; [intros [= ->]; done | done].
  - injection E as <- <- <-.
    apply (leaders_ok_move s _ i ev (PhDelete c v) (PhBuilder (returned (event_request ev) v)));
      cbn [pool_with wp_m wp_calls wp_workers]; [| done | intros c' call Hc _; right; by split | done | done | done | done].
    intros k c' Hk. apply lookup_delete_Some in Hk as [_ Hk]. by eapply Hm.
Qed.

Lemma leaders_ok_step a s s' : pool_step a s = Some s' → leaders_ok s → leaders_ok s'.
Proof.
  intros E Hok. pose proof Hok as [Hm Hw Hl]. destruct a as [ev|i now ctx|v|j now]; cbn [pool_step] in E.
  - injection E as <-. split; cbn [pool_with wp_workers wp_calls wp_m]; [done | |].
    + intros ev' c. rewrite elem_of_app, list_elem_of_singleton. intros [?|[=]]. by eapply Hw.
    + intros c call Hc Hv. destruct (Hl c call Hc Hv) as (w & ? & ?). exists w. rewrite elem_of_app. by split; [left |].
  - apply worker_step_inv in E as (ev & ph & Hi & [ph' e' E|ph' m' calls' E|ph' bs' heap' E]).
    + apply engine_phase_lead in E as (_ & El & Hnw). eapply (leaders_ok_move s); [done | done | | exact Hi | done | | done].
      * intros c call Hc _. right. by rewrite El.
      * intros c ->. by destruct (Hnw c).
    + by eapply leaders_ok_group.
    + apply builder_phase_lead in E as (_ & El & Hnw). eapply (leaders_ok_move s); [done | done | | exact Hi | done | | done].
      * intros c call Hc _. right. by rewrite El.
      * intros c ->. by destruct (Hnw c).
  - injection E as <-. unfold Finalize_take. by destruct (wp_builders s !! v).
  - unfold Finalize_seal in E. destruct (wp_sealing s !! j) as [a|]; [| done]. cbn [mbind option_bind] in E.
    destruct (wp_heap s !! a); [| done]. by injection E as <-.
Qed.

Lemma NewPool_leaders e fo : leaders_ok (NewWorkerPool e fo).
Proof.
  split; cbn [NewWorkerPool wp_m wp_calls wp_workers].
  - intros k c Hk. by rewrite lookup_empty in Hk.
  - by intros ev c ?%not_elem_of_nil.
  - intros c call Hc. by rewrite lookup_nil in Hc.
Qed.

(** A worker that neither waits nor has returned can go on. *)
Lemma phase_enabled s i ev ph now ctx :
  wp_workers s !! i = Some (ev, ph) → at_end ph = false → (∀ c, ph ≠ PhWait c) → is_Some (worker_step i now ctx s).
Proof.
  intros Hi He Hw. unfold worker_step. rewrite Hi. cbn [mbind option_bind].
  assert (is_Some (engine_phase now ctx (event_request ev) ph (wp_engine s)) ∨
    is_Some (group_phase (event_request ev) ph (wp_m s) (wp_calls s)) ∨
    is_Some (builder_phase ev ph (wp_builders s) (wp_heap s))) as Hen.
  { destruct ph; try done; try (by left; eexists).
    - left. cbn. destruct (negb _); by eexists.
    - right. left. cbn. destruct (wp_m s !! _); by eexists.
    - by destruct (Hw c).
    - right. left. by eexists.
    - right. left. by eexists.
    - right. right. cbn. destruct (res_Err res); [by eexists |]. destruct (wp_builders s !! _); by eexists.
    - right. right. by eexists. }
  destruct (engine_phase _ _ _ _ _) as [[? ?]|]; [by eexists |].
  destruct (group_phase _ _ _ _) as [[[? ?] ?]|]; [by eexists |].
  destruct (builder_phase _ _ _ _) as [[[? ?] ?]|]; [by eexists |]. by destruct Hen as [[]|[[]|[]]].
Qed.

(** Some worker can go on as long as one has not returned. *)
Lemma pool_progress s (now : Z) (ctx : context) :
  leaders_ok s → ¬ Forall (λ w, at_end w.2 = true) (wp_workers s) → ∃ i, is_Some (worker_step i now ctx s).
Proof.
  intros [Hm Hw Hl] Hne.
  assert (∃ w, w ∈ wp_workers s ∧ at_end w.2 = false) as ([ev ph] & Hin & He).
  { apply not_Forall_Exists in Hne; [| apply _]. apply Exists_exists in Hne as (w & Hin & He). exists w. split; [done |].
    cbn in He. by destruct (at_end w.2). }
  assert ((∃ c, ph = PhWait c) ∨ ∀ c, ph ≠ PhWait c) as [[c ->]|Hnw] by (destruct ph; first [by right | by left; eexists]).
  2: { apply list_elem_of_lookup in Hin as [i Hi]. exists i. by eapply phase_enabled. }
  destruct (Hw ev c Hin) as [call Hc]. destruct (dc_val call) as [v|] eqn:Hv.
  - apply list_elem_of_lookup in Hin as [i Hi]. exists i. unfold worker_step. rewrite Hi. cbn.
    rewrite Hc. cbn. rewrite Hv. by eexists.
  - destruct (Hl c call Hc Hv) as ([ev' ph'] & Hin' & Hlead). apply list_elem_of_lookup in Hin' as [i Hi]. exists i.
    cbn in Hlead. eapply phase_enabled; [exact Hi | by destruct ph' | intros c' ->; done].
Qed.

Lemma pool_drains s (now : Z) (ctx : context) :
  leaders_ok s → ∃ l s', Forall is_step l ∧ pool_run l s = Some s' ∧ Forall (λ w, at_end w.2 = true) (wp_workers s').
Proof.
  remember (pool_work s) as n eqn:En. revert s En. induction n as [n IHn] using lt_wf_ind. intros s -> Hok.
  destruct (decide (Forall (λ w, at_end w.2 = true) (wp_workers s))) as [Hd|Hd]; [by exists [], s |].
  destruct (pool_progress s now ctx Hok Hd) as [i [s1 Hs1]].
  destruct (IHn (pool_work s1)) with (s := s1) as (l & s' & Hl & Hrun & Hd'); [by eapply pool_work_step | done | |].
  - by apply (leaders_ok_step (WStep i now ctx) s).
  - exists (WStep i now ctx :: l), s'. split; [by constructor |]. split; [| done]. cbn. by rewrite Hs1.
Qed.

Lemma pool_bounded l s s' : Forall is_step l → pool_run l s = Some s' → length l ≤ pool_work s.
Proof.
  intros Hl. revert s. induction Hl as [|a l Ha Hl IHl]; intros s; cbn [pool_run]; [intros _; simpl; lia |].
  destruct (pool_step a s) as [s1|] eqn:E; [| done]. cbn [mbind option_bind]. intros Hrun%IHl.
  destruct a as [|i now ctx| |]; try done. cbn [pool_step] in E. apply pool_work_step in E. simpl. lia.
Qed.
End progress.

(** C3: every worker returns.  From any state that any schedule reaches, finalizations
    included, some worker can go on as long as one has not returned, nobody waiting for ever
    for a coalesced call; all can return without a new event; and no schedule of theirs is
    longer than twelve steps for each worker. *)
Theorem concurrent_returns {C H R W : Type} `{HashCache C, FileHasher H, LayerFileResolver R} `{HashFn, GoSort}
    (e : DeduplicationEngine C H R W) (fo : MerkleForest) (l : list pool_action) (s : WorkerPool C H R W) (now : Z) (ctx : context) :
  pool_run l (NewWorkerPool e fo) = Some s →
  (¬ Forall (λ w, at_end w.2 = true) (wp_workers s) → ∃ i, is_Some (worker_step i now ctx s)) ∧
  (∃ l' s', Forall is_step l' ∧ pool_run l' s = Some s' ∧ Forall (λ w, at_end w.2 = true) (wp_workers s')) ∧
  (∀ l' s', Forall is_step l' → pool_run l' s = Some s' → length l' ≤ 12 * length (wp_workers s)).
Proof.
  intros Hrun. assert (leaders_ok s) as Hok.
  { eapply (pool_run_inv _ (λ _, True)); [| by apply Forall_true | exact Hrun | apply NewPool_leaders].
    intros a s0 s1 _. apply leaders_ok_step. }
  split; [by apply pool_progress |]. split; [by eapply pool_drains |]. intros l' s' Hl' Hrun'.
  pose proof (pool_bounded l' s s' Hl' Hrun') as Hle. etransitivity; [exact Hle |]. unfold pool_work.
  clear. induction (wp_workers s) as [|[ev ph] ws IHws]; [simpl; lia |]. simpl in *.
  assert (phase_weight ph ≤ 12) by (destruct ph; simpl; lia). lia.
Qed.

(** ** One worker alone *)

Section alone.
Context {C H R W : Type} `{HashCache C, FileHasher H, LayerFileResolver R} `{HashFn, GoSort}.
Implicit Types s : WorkerPool C H R W.

(** Each vertex in the map has a builder of its own. *)
Definition heap_ok (bs : gmap string nat) (heap : list MerkleTreeBuilder) : Prop :=
  ∀ v a, bs !! v = Some a → ∃ b, heap !! a = Some b ∧ mb_vertexID b = v.

Lemma builder_Add_vertex b res : mb_vertexID (builder_Add b res) = mb_vertexID b.
Proof. unfold builder_Add. by case_decide. Qed.

Lemma heap_ok_new bs heap v st :
  heap_ok bs heap → heap_ok (<[v := length heap]> bs) (heap ++ [NewMerkleTreeBuilder v st]).
Proof.
  intros Hok v' a. destruct (decide (v' = v)) as [->|Hv].
  - rewrite lookup_insert_eq. intros [= <-]. rewrite list_lookup_middle by done. by eexists.
  - rewrite lookup_insert_ne by done. intros (b & Hb & ?)%Hok. exists b. split; [by apply lookup_app_l_Some | done].
Qed.

Lemma heap_ok_add bs heap a res : heap_ok bs heap → heap_ok bs (alter (λ b, builder_Add b res) a heap).
Proof.
  intros Hok v a' (b & Hb & Hbv)%Hok. destruct (decide (a' = a)) as [->|Hne].
  - exists (builder_Add b res). by rewrite list_lookup_alter_eq, Hb, builder_Add_vertex.
  - exists b. by rewrite list_lookup_alter_ne.
Qed.

Lemma heap_ok_step a s s' : pool_step a s = Some s' → heap_ok (wp_builders s) (wp_heap s) → heap_ok (wp_builders s') (wp_heap s').
Proof.
  intros E Hok. destruct a as [ev|i now ctx|v|j now]; cbn [pool_step] in E.
  - by injection E as <-.
  - apply worker_step_inv in E as (ev & ph & Hi & [ph' e' E|ph' m' calls' E|ph' bs' heap' E]); [done..|].
    cbn [pool_with wp_builders wp_heap]. unfold builder_phase in E. destruct ph; try done.
    + destruct (res_Err res); [by injection E as <- <- <- |].
      destruct (wp_builders s !! ev_VertexID ev); injection E as <- <- <-; [done | by apply heap_ok_new].
    + injection E as <- <- <-. by apply heap_ok_add.
  - injection E as <-. unfold Finalize_take. destruct (wp_builders s !! v); [| done].
    intros v' a. cbn [snd wp_builders wp_heap]. intros [_ Hv']%lookup_delete_Some. by apply Hok.
  - unfold Finalize_seal in E. destruct (wp_sealing s !! j) as [a|]; [| done]. cbn [mbind option_bind] in E.
    destruct (wp_heap s !! a); [| done]. by injection E as <-.
Qed.

(** The builders of the processor under the two steps of a worker *)
Definition live_builders (bs : gmap string nat) (heap : list MerkleTreeBuilder) : gmap string MerkleTreeBuilder :=
  omap (λ a, heap !! a) bs.

Lemma live_builders_new bs heap v st :
  heap_ok bs heap →
  live_builders (<[v := length heap]> bs) (heap ++ [NewMerkleTreeBuilder v st]) = <[v := NewMerkleTreeBuilder v st]> (live_builders bs heap).
Proof.
  intros Hok. apply map_eq. intros v'. unfold live_builders. rewrite lookup_omap. destruct (decide (v' = v)) as [->|Hv].
  - rewrite !lookup_insert_eq. cbn. by rewrite list_lookup_middle.
  - rewrite !lookup_insert_ne, lookup_omap by done. destruct (bs !! v') as [a|] eqn:Ea; [cbn | done].
    destruct (Hok _ _ Ea) as (b & Hb & _). rewrite Hb. by apply lookup_app_l_Some.
Qed.

Lemma live_builders_add bs heap v a b res :
  heap_ok bs heap → bs !! v = Some a → heap !! a = Some b →
  live_builders bs (alter (λ b, builder_Add b res) a heap) = <[v := builder_Add b res]> (live_builders bs heap).
Proof.
  intros Hok Ea Hb. destruct (Hok _ _ Ea) as (b1 & Hb1 & Hbv). apply map_eq. intros v'. unfold live_builders. rewrite lookup_omap.
  destruct (decide (v' = v)) as [->|Hv].
  - rewrite Ea, lookup_insert_eq. cbn. by rewrite list_lookup_alter_eq, Hb.
  - rewrite lookup_insert_ne, lookup_omap by done. destruct (bs !! v') as [a'|] eqn:Ea'; [cbn | done].
    rewrite list_lookup_alter_ne; [done |]. intros <-. destruct (Hok _ _ Ea') as (b2 & Hb2 & Hbv2). congruence.
Qed.

(** The vertex processor that a pool is, its builders at their addresses *)
Definition pool_vp s : VertexProcessor C H R W :=
  {| vp_engine := wp_engine s; vp_forest := wp_forest s; vp_builders := live_builders (wp_builders s) (wp_heap s);
     vp_trees := wp_trees s |}.

Context (i : nat) (now : Z) (ctx : context) (ev : AccessEvent) (ws : list (AccessEvent * phase)) (s0 : WorkerPool C H R W).
Context (Hi : i < length ws).

(** The pool with worker [i] at a place *)
Definition pool_at (ph : phase) (e : DeduplicationEngine C H R W) (m : gmap string nat) (calls : list dcall)
    (bs : gmap string nat) (heap : list MerkleTreeBuilder) : WorkerPool C H R W :=
  pool_with s0 e m calls bs heap (<[i := (ev, ph)]> ws).

(** The steps of worker [i] alone *)
Definition runs s s' : Prop := ∃ k, pool_run (replicate k (WStep i now ctx)) s = Some s'.

Lemma runs_refl s : runs s s.
Proof. by exists 0. Qed.

Lemma runs_step s s1 s' : worker_step i now ctx s = Some s1 → runs s1 s' → runs s s'.
Proof. intros E [k Hk]. exists (S k). cbn. by rewrite E. Qed.

Lemma runs_trans s s1 s' : runs s s1 → runs s1 s' → runs s s'.
Proof.
  intros [k Hk]. revert s Hk. induction k as [|k IHk]; intros s; cbn; [by intros [= ->] |].
  destruct (worker_step i now ctx s) as [s2|] eqn:E; [| done]. cbn. intros Hk Hr. eapply runs_step; [exact E | by apply IHk].
Qed.

Lemma pool_at_step ph e m calls bs heap :
  worker_step i now ctx (pool_at ph e m calls bs heap)
  = match engine_phase now ctx (event_request ev) ph e with
    | Some (ph, e) => Some (pool_at ph e m calls bs heap)
    | None =>
        match group_phase (event_request ev) ph m calls with
        | Some (ph, m, calls) => Some (pool_at ph e m calls bs heap)
        | None => '(ph, bs, heap) ← builder_phase ev ph bs heap; Some (pool_at ph e m calls bs heap)
        end
    end.
Proof.
  unfold worker_step, pool_at. cbn [pool_with wp_workers wp_engine wp_m wp_calls wp_builders wp_heap].
  rewrite list_lookup_insert_eq by done. cbn [mbind option_bind].
  destruct (engine_phase _ _ _ _ _) as [[? ?]|]; [unfold pool_with; by rewrite list_insert_insert_eq |].
  destruct (group_phase _ _ _ _) as [[[? ?] ?]|]; [unfold pool_with; by rewrite list_insert_insert_eq |].
  destruct (builder_phase _ _ _ _) as [[[? ?] ?]|]; [cbn; unfold pool_with; by rewrite list_insert_insert_eq | done].
Qed.

Lemma runs_engine ph ph' e e' m calls bs heap s' :
  engine_phase now ctx (event_request ev) ph e = Some (ph', e') →
  runs (pool_at ph' e' m calls bs heap) s' → runs (pool_at ph e m calls bs heap) s'.
Proof. intros E. eapply runs_step. by rewrite pool_at_step, E. Qed.

Lemma runs_group ph ph' e m m' calls calls' bs heap s' :
  group_phase (event_request ev) ph m calls = Some (ph', m', calls') →
  runs (pool_at ph' e m' calls' bs heap) s' → runs (pool_at ph e m calls bs heap) s'.
Proof.
  intros E. eapply runs_step. rewrite pool_at_step.
  assert (engine_phase now ctx (event_request ev) ph e = None) as -> by by destruct ph. by rewrite E.
Qed.

Lemma runs_builder ph ph' e m calls bs bs' heap heap' s' :
  builder_phase ev ph bs heap = Some (ph', bs', heap') →
  runs (pool_at ph' e m calls bs' heap') s' → runs (pool_at ph e m calls bs heap) s'.
Proof.
  intros E. eapply runs_step. rewrite pool_at_step.
  assert (engine_phase now ctx (event_request ev) ph e = None) as -> by by destruct ph.
  assert (group_phase (event_request ev) ph m calls = None) as -> by by destruct ph. by rewrite E.
Qed.

(** [dedup_resolve] from the place of the leader to that of the result *)
Lemma alone_resolve c e m calls bs heap :
  ∃ v, runs (pool_at (PhFind c) e m calls bs heap)
         (pool_at (PhFn c v) (dedup_resolve now ctx (event_request ev) e).2 m calls bs heap) ∧
       v = (dedup_resolve now ctx (event_request ev) e).1.
Proof.
  set (req := event_request ev). unfold dedup_resolve.
  destruct (lr_FindOwnerLayer ctx (req_LayerStack req) (req_RelPath req) (de_resolver e)) as [[o|err] r] eqn:E1; cycle 1.
  { eexists. split; [| done]. eapply runs_engine; [cbn [engine_phase]; fold req; by rewrite E1 | apply runs_refl]. }
  destruct (hc_Get now o (req_RelPath req) (de_cache (de_set_resolver r e))) as [[h|] c'] eqn:E2.
  { eexists. split; [| done]. eapply runs_engine; [cbn [engine_phase]; fold req; by rewrite E1 |].
    eapply runs_engine; [cbn [engine_phase]; fold req; by rewrite E2 |].
    eapply runs_engine; [done | apply runs_refl]. }
  destruct (lr_DiffAbsPath o (req_RelPath req) (de_resolver (de_set_cache c' (de_set_resolver r e)))) as [[a|err] r'] eqn:E3; cycle 1.
  { eexists. split; [| done]. eapply runs_engine; [cbn [engine_phase]; fold req; by rewrite E1 |].
    eapply runs_engine; [cbn [engine_phase]; fold req; by rewrite E2 |].
    eapply runs_engine; [cbn [engine_phase]; fold req; by rewrite E3 | apply runs_refl]. }
  set (e1 := de_fire (OnHashStart req) _).
  destruct (fh_Hash ctx a (de_hasher e1)) as [[h|err] h'] eqn:E4; (eexists; split; [| done]);
    (eapply runs_engine; [cbn [engine_phase]; fold req; by rewrite E1 |]);
    (eapply runs_engine; [cbn [engine_phase]; fold req; by rewrite E2 |]);
    (eapply runs_engine; [cbn [engine_phase]; fold req; by rewrite E3 |]);
    (eapply runs_engine; [cbn [engine_phase]; fold req; fold e1; by rewrite E4 |]).
  - eapply runs_engine; [done |]. eapply runs_engine; [done | apply runs_refl].
  - apply runs_refl.
Qed.

(** [dedup_Resolve], when no call of the key is running: the group is left as it was *)
Lemma alone_Resolve e m calls bs heap :
  m !! request_key (event_request ev) = None →
  ∃ calls', runs (pool_at PhTop e m calls bs heap)
    (pool_at (PhBuilder (dedup_Resolve now ctx (event_request ev) e).1) (dedup_Resolve now ctx (event_request ev) e).2 m calls' bs heap).
Proof.
  intros Hm. set (req := event_request ev) in *. unfold dedup_Resolve.
  destruct (negb (LayerStack_Valid (req_LayerStack req))) eqn:Hval.
  { eexists. eapply runs_engine; [cbn [engine_phase]; fold req; by rewrite Hval | apply runs_refl]. }
  destruct (hc_Get now (LayerStack_Top (req_LayerStack req)) (req_RelPath req) (de_cache e)) as [[h|] c] eqn:Hg.
  { eexists. eapply runs_engine; [cbn [engine_phase]; fold req; by rewrite Hval, Hg | apply runs_refl]. }
  set (calls1 := calls ++ [{| dc_req := req; dc_val := None |}]).
  destruct (alone_resolve (length calls) (de_set_cache c e) (<[request_key req := length calls]> m) calls1 bs heap) as (v & Hrun & Ev).
  fold req in Hrun, Ev. destruct (dedup_resolve now ctx req (de_set_cache c e)) as [v' e'] eqn:Er. cbn [fst snd] in *. subst v'.
  assert (PhBuilder (returned req v) = PhBuilder (match v with Ok res => (res, e') | Err err => (err_result req err, e') end).1) as Eb
    by by destruct v.
  assert (e' = (match v with Ok res => (res, e') | Err err => (err_result req err, e') end).2) as Ee by by destruct v.
  exists (alter (λ x, {| dc_req := dc_req x; dc_val := Some v |}) (length calls) calls1).
  rewrite <- Eb, <- Ee.
  eapply runs_engine; [cbn [engine_phase]; fold req; by rewrite Hval, Hg |].
  eapply runs_group; [cbn [group_phase]; fold req; by rewrite Hm |].
  eapply runs_trans; [exact Hrun |].
  eapply runs_group; [done |]. eapply runs_group; [done |]. fold req.
  rewrite delete_insert_id by done. apply runs_refl.
Qed.
(** [getOrCreateBuilder] and [Add] *)
Lemma alone_builder res e m calls bs heap :
  heap_ok bs heap →
  ∃ bs' heap', runs (pool_at (PhBuilder res) e m calls bs heap) (pool_at (PhEnd res) e m calls bs' heap') ∧
    live_builders bs' heap' =
      match res_Err res with
      | Some _ => live_builders bs heap
      | None =>
          <[ev_VertexID ev := builder_Add
              (default (NewMerkleTreeBuilder (ev_VertexID ev) (ev_LayerStack ev)) (live_builders bs heap !! ev_VertexID ev)) res]>
            (live_builders bs heap)
      end.
Proof.
  intros Hok. destruct (res_Err res) as [err|] eqn:Herr.
  { exists bs, heap. split; [| done]. eapply runs_builder; [cbn; by rewrite Herr | apply runs_refl]. }
  destruct (bs !! ev_VertexID ev) as [a|] eqn:Ea.
  - destruct (Hok _ _ Ea) as (b & Hb & Hbv). do 2 eexists. split.
    + eapply runs_builder; [cbn; by rewrite Herr, Ea |]. eapply runs_builder; [done | apply runs_refl].
    + rewrite (live_builders_add _ _ _ _ b) by done. do 2 f_equal. unfold live_builders. rewrite lookup_omap, Ea. cbn. by rewrite Hb.
  - do 2 eexists. split.
    + eapply runs_builder; [cbn; by rewrite Herr, Ea |]. eapply runs_builder; [done | apply runs_refl].
    + rewrite (live_builders_add _ _ (ev_VertexID ev) _ (NewMerkleTreeBuilder (ev_VertexID ev) (ev_LayerStack ev)));
        [| by apply heap_ok_new | apply lookup_insert_eq | by apply list_lookup_middle].
      rewrite live_builders_new, insert_insert_eq by done. do 2 f_equal. unfold live_builders. by rewrite lookup_omap, Ea.
Qed.
End alone.

(** A worker alone does what [Process] does.  From any state that any schedule reaches, a
    worker that starts while no call of its key is running, and runs by itself, returns the
    result of [Process] on the vertex processor that the pool is, leaves the processor that
    [Process] leaves, and the singleflight group and the other workers as they were. *)
Theorem worker_alone {C H R W : Type} `{HashCache C, FileHasher H, LayerFileResolver R} `{HashFn, GoSort}
    (e : DeduplicationEngine C H R W) (fo : MerkleForest) (l : list pool_action) (s : WorkerPool C H R W)
    (i : nat) (now : Z) (ctx : context) (ev : AccessEvent) :
  pool_run l (NewWorkerPool e fo) = Some s → wp_workers s !! i = Some (ev, PhTop) →
  wp_m s !! request_key (event_request ev) = None →
  ∃ k s', pool_run (replicate k (WStep i now ctx)) s = Some s' ∧
    let '(res, vp) := vp_Process now ctx ev (pool_vp s) in
    pool_vp s' = vp ∧ wp_workers s' = <[i := (ev, PhEnd res)]> (wp_workers s) ∧ wp_m s' = wp_m s.
Proof.
  intros Hrun Hi Hm. assert (heap_ok (wp_builders s) (wp_heap s)) as Hok.
  { eapply (pool_run_inv (λ s, heap_ok (wp_builders s) (wp_heap s)) (λ _, True)); [| by apply Forall_true | exact Hrun |].
    - intros a s1 s2 _. apply heap_ok_step.
    - intros v a Hv. cbn [NewWorkerPool wp_builders] in Hv. by rewrite lookup_empty in Hv. }
  pose proof (lookup_lt_Some _ _ _ Hi) as Hlt.
  assert (s = pool_at i ev (wp_workers s) s PhTop (wp_engine s) (wp_m s) (wp_calls s) (wp_builders s) (wp_heap s)) as Es.
  { unfold pool_at, pool_with. rewrite list_insert_id by done. by destruct s. }
  destruct (alone_Resolve i now ctx ev (wp_workers s) s Hlt (wp_engine s) (wp_m s) (wp_calls s) (wp_builders s) (wp_heap s) Hm)
    as (calls' & Hres). rewrite <- Es in Hres.
  unfold vp_Process. cbn [pool_vp vp_engine].
  destruct (dedup_Resolve now ctx (event_request ev) (wp_engine s)) as [res e'] eqn:Er. cbn [fst snd] in Hres.
  destruct (alone_builder i now ctx ev (wp_workers s) s Hlt res e' (wp_m s) calls' (wp_builders s) (wp_heap s) Hok)
    as (bs' & heap' & Hb & Eb). destruct (runs_trans i now ctx _ _ _ Hres Hb) as [k Hk].
  exists k. eexists. split; [exact Hk |]. unfold pool_vp, getOrCreateBuilder. cbn. fold (live_builders bs' heap'). rewrite Eb.
  by destruct (res_Err res).
Qed.

(** [FinalizeVertex] loses the accesses it overtakes.  A worker that has fetched the builder
    of its vertex and has not added its result yet is overtaken by a finalization: the worker
    reports success, the sealed tree does not have the access, and no builder is left that
    has it. *)
Theorem finalize_overtakes {C H R W : Type} `{HashCache C, FileHasher H, LayerFileResolver R} `{HashFn, GoSort}
    (s : WorkerPool C H R W) (i a : nat) (ev : AccessEvent) (res : HashResult) (b : MerkleTreeBuilder) (now now' : Z) (ctx : context) :
  wp_workers s !! i = Some (ev, PhAdd a res) → wp_builders s !! ev_VertexID ev = Some a → wp_heap s !! a = Some b →
  ∃ s', pool_run [WTake (ev_VertexID ev); WSeal (length (wp_sealing s)) now; WStep i now' ctx] s = Some s' ∧
    wp_workers s' !! i = Some (ev, PhEnd res) ∧ wp_trees s' = wp_trees s ++ [builder_Finalize b now] ∧
    wp_builders s' !! ev_VertexID ev = None.
Proof.
  intros Hi Ea Hb. cbn [pool_run pool_step]. unfold Finalize_take. rewrite Ea. cbn [snd mbind option_bind].
  unfold Finalize_seal. cbn [wp_sealing wp_heap]. rewrite list_lookup_middle by done. cbn [mbind option_bind].
  rewrite Hb. cbn [mbind option_bind]. unfold worker_step. cbn [wp_workers]. rewrite Hi. cbn.
  eexists. split; [done |]. cbn. split; [| split; [done |]].
  - eapply list_lookup_insert_eq, lookup_lt_Some, Hi.
  - apply lookup_delete_eq.
Qed.

(** ** Witnesses *)

(** Two workers on one file: the second joins the call of the first. *)
Definition sample_schedule : list pool_action :=
  [WNew (sample_event "v" ["base"; "top"] "bin"); WNew (sample_event "w" ["base"; "top"] "bin")] ++
  ((λ i, WStep i 1 ctx_background) <$> [0; 1; 0; 1; 0; 0; 0; 0; 0; 0; 0; 1; 0; 0; 1; 0; 1]).

Definition sample_pool : WorkerPool shardedLRUCache SHA256Hasher (fs_resolver OverlayResolver) CountingSnapshot :=
  NewWorkerPool sample_engine NewMerkleForest.

Lemma sample_allowed : Forall (λ a, allowed sample_chain a ∧ not_final a) sample_schedule.
Proof.
  apply Forall_app. split.
  - repeat constructor; apply (bool_decide_eq_true_1 _); vm_compute; reflexivity.
  - apply Forall_fmap, Forall_true. by intros i.
Qed.

Lemma pool_fact {A} (g : WorkerPool shardedLRUCache SHA256Hasher (fs_resolver OverlayResolver) CountingSnapshot → A) l s (a : A) :
  pool_run l sample_pool = Some s → g <$> pool_run l sample_pool = Some a → g s = a.
Proof. intros ->. by intros [= ->]. Qed.

Lemma concurrent_root_witness :
  ∃ s s1 s2 t, pool_run sample_schedule sample_pool = Some s ∧ Finalize_take "w" s = (Ok tt, s1) ∧
    Finalize_seal 0 7 s1 = Some s2 ∧ forest_Get (wp_forest s2) "w" = Some t ∧
    mt_Root t = reference_root [(["bin"], str_bytes (FromString "/l/base/bin"))].
Proof.
  assert (is_Some (pool_run sample_schedule sample_pool)) as [s Es].
  { apply (bool_decide_eq_true_1 _). vm_compute. reflexivity. }
  destruct (concurrent_root (λ h, sha_fs h = sample_files) (hashFile sample_files)
    (fs_resolver_ok sample_fs sample_registry) (owner_spec sample_fs sample_registry ctx_background)
    (overlay_path sample_fs sample_registry) sample_chain sample_engine NewMerkleForest sample_schedule s)
    as [_ Hend]; [apply sha_faithful | apply overlay_faithful | apply owner_spec_local | apply sample_chain_ok | apply sample_engine_ok
    | apply sample_allowed | exact Es |].
  destruct (Hend) with (v := "w") (now := 7%Z) as (s1 & s2 & t & E1 & E2 & _ & E3 & E4).
  - assert (forallb (λ w, at_end w.2) (wp_workers s) = true) as Hb.
    { apply (pool_fact (λ s, forallb (λ w, at_end w.2) (wp_workers s)) _ _ _ Es). vm_compute. reflexivity. }
    rewrite Forall_forall. intros w Hw. rewrite forallb_forall in Hb. by apply Hb, list_elem_of_In.
  - vm_compute. discriminate.
  - apply (bool_decide_eq_true_1 _). vm_compute. reflexivity.
  - exists s, s1, s2, t. do 4 (split; [done |]). rewrite E4. vm_compute. reflexivity.
Defined.

(** The state in which the second worker waits for the first *)
Lemma concurrent_returns_witness :
  ∃ s l' s', pool_run (take 6 sample_schedule) sample_pool = Some s ∧ Forall is_step l' ∧ pool_run l' s = Some s' ∧
    Forall (λ w, at_end w.2 = true) (wp_workers s') ∧ length l' ≤ 24.
Proof.
  assert (is_Some (pool_run (take 6 sample_schedule) sample_pool)) as [s Es].
  { apply (bool_decide_eq_true_1 _). vm_compute. reflexivity. }
  destruct (concurrent_returns sample_engine NewMerkleForest _ s 1 ctx_background Es) as (_ & (l' & s' & Hl & Hrun & Hend) & Hb).
  exists s, l', s'. do 4 (split; [done |]). specialize (Hb l' s' Hl Hrun).
  assert (length (wp_workers s) = 2) as E; [| rewrite E in Hb; lia].
  apply (pool_fact (λ s, length (wp_workers s)) _ _ _ Es). vm_compute. reflexivity.
Defined.

Lemma worker_alone_witness :
  ∃ s k s', pool_run (take 1 sample_schedule) sample_pool = Some s ∧
    pool_run (replicate k (WStep 0 1 ctx_background)) s = Some s' ∧
    pool_vp s' = (vp_Process 1 ctx_background (sample_event "v" ["base"; "top"] "bin") (pool_vp s)).2.
Proof.
  assert (is_Some (pool_run (take 1 sample_schedule) sample_pool)) as [s Es].
  { apply (bool_decide_eq_true_1 _). vm_compute. reflexivity. }
  destruct (worker_alone sample_engine NewMerkleForest _ s 0 1 ctx_background (sample_event "v" ["base"; "top"] "bin") Es)
    as (k & s' & Hk & Hvp).
  - apply (pool_fact (λ s, wp_workers s !! 0) _ _ _ Es). vm_compute. reflexivity.
  - apply (pool_fact (λ s, wp_m s !! request_key (event_request (sample_event "v" ["base"; "top"] "bin"))) _ _ _ Es).
    vm_compute. reflexivity.
  - exists s, k, s'. split; [done |]. split; [done |]. destruct (vp_Process _ _ _ _). by destruct Hvp as [-> _].
Defined.
