(* ===== verification/LmDiff.v ===== *)
(** * LmDiff: [pkg/layermerkle/diff.go]

    The comparison of two forests and of the leaves of two trees.  A loop over a map that
    appends to several slices is one traversal in the order [map_range], and each slice the
    list of what the loop appends to it, in that order. *)
From S2P Require Import Prelude GoStd LmLayer LmMerkle.

Record FileChange := {
  fc_RelPath : string; fc_BeforeHash : FileHash; fc_AfterHash : FileHash; fc_OwnerLayerID : LayerID;
}.

Record FileDiff := {
  fd_Added : list FileChange; fd_Removed : list FileChange;
  fd_Modified : list FileChange; fd_Unchanged : list FileChange;
}.

Record TreeChange := {
  tc_VertexID : VertexID; tc_Before : MerkleTree; tc_After : MerkleTree; tc_FileDiff : option FileDiff;
}.

Record ForestDiff := {
  d_Added : list MerkleTree; d_Removed : list MerkleTree;
  d_Changed : list TreeChange; d_Unchanged : list MerkleTree;
}.

(** [ForestDiff.IsIdentical] *)
Definition IsIdentical (d : ForestDiff) : bool :=
  (length (d_Added d) =? 0) && (length (d_Removed d) =? 0) && (length (d_Changed d) =? 0).

(** The loop of [itoa]: digits are prepended while [n > 0]. *)
Fixpoint itoa_loop (fuel : nat) (n : N) (buf : string) : string :=
  match fuel with
  | O => buf
  | S fuel =>
      if (0 <? n)%N
      then itoa_loop fuel (n / 10) (String (ascii_of_N (48 + n mod 10)) buf) else buf
  end.

(** Lengths of slices are below 2^63, which has fewer than 20 digits: the buffer is enough. *)
Definition itoa (n : N) : string :=
  if (n =? 0)%N then "0" else itoa_loop 20 n EmptyString.

Definition ForestDiff_Summary (d : ForestDiff) : string :=
  let len {A} (l : list A) := itoa (N.of_nat (length l)) in
  "ForestDiff{" +:+ "added=" +:+ len (d_Added d) +:+ " removed=" +:+ len (d_Removed d)
  +:+ " changed=" +:+ len (d_Changed d) +:+ " unchanged=" +:+ len (d_Unchanged d) +:+ "}".

Definition indexTrees (trees : list MerkleTree) : gmap string MerkleTree :=
  foldl (λ (m : gmap string MerkleTree) t, <[mt_VertexID t := t]> m) ∅ trees.

Definition indexLeaves (leaves : list MerkleLeaf) : gmap string MerkleLeaf :=
  foldl (λ (m : gmap string MerkleLeaf) l, <[leaf_RelPath l := l]> m) ∅ leaves.

Definition sortTrees `{GoSort} (trees : list MerkleTree) : list MerkleTree := sort_slice mt_VertexID trees.
Definition sortChanges `{GoSort} (changes : list TreeChange) : list TreeChange := sort_slice tc_VertexID changes.
Definition sortFileChanges `{GoSort} (fc : list FileChange) : list FileChange := sort_slice fc_RelPath fc.

(** [Diff] *)
Definition Diff `{GoSort, GoRange} (a b : MerkleForest) : ForestDiff :=
  let aAll := indexTrees (forest_All a) in
  let bAll := indexTrees (forest_All b) in
  let bRange := map_range bAll in
  let aRange := map_range aAll in
  {| d_Added := sortTrees (omap (λ '(id, bTree),
       match aAll !! id with None => Some bTree | Some _ => None end) bRange);
     d_Removed := sortTrees (omap (λ '(id, aTree),
       match bAll !! id with None => Some aTree | Some _ => None end) aRange);
     d_Changed := sortChanges (omap (λ '(id, bTree),
       match aAll !! id with
       | Some aTree => if decide (mt_Root aTree = mt_Root bTree) then None
           else Some {| tc_VertexID := id; tc_Before := aTree; tc_After := bTree; tc_FileDiff := None |}
       | None => None
       end) bRange);
     d_Unchanged := sortTrees (omap (λ '(id, bTree),
       match aAll !! id with
       | Some aTree => if decide (mt_Root aTree = mt_Root bTree) then Some bTree else None
       | None => None
       end) bRange) |}.

(** [diffLeaves] *)
Definition diffLeaves `{GoSort, GoRange} (before after : MerkleTree) : FileDiff :=
  let beforeIdx := indexLeaves (mt_Leaves before) in
  let afterIdx := indexLeaves (mt_Leaves after) in
  let afterRange := map_range afterIdx in
  let beforeRange := map_range beforeIdx in
  let both (same : bool) := omap (λ '(path, afterLeaf),
    match beforeIdx !! path with
    | Some beforeLeaf =>
        if decide (bool_decide (leaf_Hash beforeLeaf = leaf_Hash afterLeaf) = same)
        then Some {| fc_RelPath := path; fc_BeforeHash := leaf_Hash beforeLeaf;
                     fc_AfterHash := leaf_Hash afterLeaf; fc_OwnerLayerID := leaf_OwnerLayerID afterLeaf |}
        else None
    | None => None
    end) afterRange in
  {| fd_Added := sortFileChanges (omap (λ '(path, afterLeaf),
       match beforeIdx !! path with
       | None => Some {| fc_RelPath := path; fc_BeforeHash := EmptyString;
                         fc_AfterHash := leaf_Hash afterLeaf; fc_OwnerLayerID := EmptyString |}
       | Some _ => None
       end) afterRange);
     fd_Removed := sortFileChanges (omap (λ '(path, beforeLeaf),
       match afterIdx !! path with
       | None => Some {| fc_RelPath := path; fc_BeforeHash := leaf_Hash beforeLeaf;
                         fc_AfterHash := EmptyString; fc_OwnerLayerID := EmptyString |}
       | Some _ => None
       end) beforeRange);
     fd_Modified := sortFileChanges (both false);
     fd_Unchanged := sortFileChanges (both true) |}.

(** [TreeChange.ComputeFileDiff]: the diff is computed once and kept. *)
Definition ComputeFileDiff `{GoSort, GoRange} (tc : TreeChange) : FileDiff * TreeChange :=
  match tc_FileDiff tc with
  | Some d => (d, tc)
  | None =>
      let d := diffLeaves (tc_Before tc) (tc_After tc) in
      (d, {| tc_VertexID := tc_VertexID tc; tc_Before := tc_Before tc; tc_After := tc_After tc;
             tc_FileDiff := Some d |})
  end.

(** ** Lemmas *)

(** The list of a loop over a map keeps the keys distinct, and its elements. *)
Lemma omap_range_elem `{GoRange} {A B} (m : gmap string A) (g : string * A → option B) y :
  y ∈ omap g (map_range m) ↔ ∃ k x, m !! k = Some x ∧ g (k, x) = Some y.
Proof.
  rewrite list_elem_of_omap. split.
  - intros ([k x] & Hx%elem_of_map_range & Hg). by exists k, x.
  - intros (k & x & Hx & Hg). exists (k, x). by rewrite elem_of_map_range.
Qed.

Lemma omap_NoDup_keys {A B} (g : string * A → option B) (key : B → string) (l : list (string * A)) :
  (∀ k x y, (k, x) ∈ l → g (k, x) = Some y → key y = k) → NoDup l.*1 → NoDup (key <$> omap g l).
Proof.
  induction l as [|[k x] l IH]; intros Hk Hnd; [constructor |].
  rewrite fmap_cons in Hnd. apply NoDup_cons in Hnd as [Hn Hnd]. csimpl.
  assert (NoDup (key <$> omap g l)) as Hl by (apply IH; [intros; eapply Hk; [by right | done] | done]).
  destruct (g (k, x)) as [y|] eqn:Hg; [| done]. csimpl. apply NoDup_cons. split; [| done].
  intros (z & Hz & Hin)%list_elem_of_fmap. apply list_elem_of_omap in Hin as ([k' x'] & Hin & Hg').
  apply Hn. rewrite (Hk k x y) in Hz by (done || by left).
  rewrite (Hk k' x' z) in Hz by (done || by right). subst k'. by apply (list_elem_of_fmap_2 fst) in Hin.
Qed.

Lemma omap_range_NoDup `{GoRange} {A B} (m : gmap string A) (g : string * A → option B) (key : B → string) :
  (∀ k x y, m !! k = Some x → g (k, x) = Some y → key y = k) → NoDup (key <$> omap g (map_range m)).
Proof.
  intros Hk. apply omap_NoDup_keys; [| apply map_range_NoDup_keys].
  intros k x y Hx%elem_of_map_range. by apply Hk.
Qed.

(** Sorting what a loop over a map collected gives one list, whatever the orders. *)
Lemma sorted_omap_unique (S1 S2 : GoSort) (R1 R2 : GoRange) {A B} (m : gmap string A)
    (g : string * A → option B) (key : B → string) :
  (∀ k x y, m !! k = Some x → g (k, x) = Some y → key y = k) →
  @sort_slice S1 B key (omap g (@map_range R1 _ _ _ _ m))
  = @sort_slice S2 B key (omap g (@map_range R2 _ _ _ _ m)).
Proof.
  intros Hk.
  assert (∀ (S : GoSort) (R : GoRange), NoDup (key <$> sort_slice key (omap g (map_range m)))) as Hnd
    by (intros S R; by apply sort_slice_NoDup_key, omap_range_NoDup).
  apply (key_sorted_unique key).
  - intros x y Hx Hy. by apply (NoDup_key_inj _ _ (Hnd S1 R1)).
  - apply sort_slice_sorted.
  - apply sort_slice_sorted.
  - apply NoDup_Permutation; [by eapply NoDup_fmap_1, Hnd .. |].
    intros y. by rewrite !elem_of_sort_slice, !omap_range_elem.
Qed.

Lemma forest_All_index `{GoSort, GoRange} f :
  forest_wf f → indexTrees (forest_All f) = f.
Proof.
  intros Hf. apply map_eq. intros v. apply option_eq. intros t. unfold indexTrees.
  rewrite index_unique.
  - rewrite forest_All_elem. split; [intros [[v' Hv] <-]; by rewrite (Hf _ _ Hv) |].
    intros Hv. split; [by eexists | by apply Hf].
  - unfold forest_All. apply sort_slice_NoDup_key. rewrite forest_keys by done. apply map_range_NoDup_keys.
Qed.

Lemma list_nil_elem {A} (l : list A) : l = [] ↔ ∀ x, x ∉ l.
Proof.
  split; [intros -> x Hx; by apply elem_of_nil in Hx |].
  destruct l as [|x l]; [done |]. intros Hl. destruct (Hl x). by left.
Qed.

Section diff_elems.
Context `{GoSort, GoRange} (a b : gmap string MerkleTree) (Ha : forest_wf a) (Hb : forest_wf b).

Lemma Diff_Added t : t ∈ d_Added (Diff a b) ↔ b !! mt_VertexID t = Some t ∧ a !! mt_VertexID t = None.
Proof.
  unfold Diff, sortTrees. cbn [d_Added]. rewrite elem_of_sort_slice, !forest_All_index, omap_range_elem by done.
  split.
  - intros (v & t' & Hv & Hg). destruct (a !! v) eqn:Hav; [done |]. injection Hg as ->.
    by rewrite (Hb v t Hv).
  - intros [Hv Hav]. exists (mt_VertexID t), t. by rewrite Hav.
Qed.

Lemma Diff_Removed t : t ∈ d_Removed (Diff a b) ↔ a !! mt_VertexID t = Some t ∧ b !! mt_VertexID t = None.
Proof.
  unfold Diff, sortTrees. cbn [d_Removed]. rewrite elem_of_sort_slice, !forest_All_index, omap_range_elem by done.
  split.
  - intros (v & t' & Hv & Hg). destruct (b !! v) eqn:Hbv; [done |]. injection Hg as ->.
    by rewrite (Ha v t Hv).
  - intros [Hv Hbv]. exists (mt_VertexID t), t. by rewrite Hbv.
Qed.

Lemma Diff_Changed c :
  c ∈ d_Changed (Diff a b) ↔ a !! tc_VertexID c = Some (tc_Before c) ∧ b !! tc_VertexID c = Some (tc_After c) ∧
    mt_Root (tc_Before c) ≠ mt_Root (tc_After c) ∧ tc_FileDiff c = None.
Proof.
  unfold Diff, sortChanges. cbn [d_Changed]. rewrite elem_of_sort_slice, !forest_All_index, omap_range_elem by done.
  split.
  - intros (v & t' & Hv & Hg). destruct (a !! v) eqn:Hav; [| done]. case_decide; [done |]. by injection Hg as <-.
  - destruct c as [v t t' o]. simpl. intros (Hav & Hv & Hne & ->). exists v, t'. by rewrite Hav, decide_False.
Qed.

Lemma Diff_Unchanged t :
  t ∈ d_Unchanged (Diff a b) ↔ b !! mt_VertexID t = Some t ∧
    ∃ t', a !! mt_VertexID t = Some t' ∧ mt_Root t' = mt_Root t.
Proof.
  unfold Diff, sortTrees. cbn [d_Unchanged]. rewrite elem_of_sort_slice, !forest_All_index, omap_range_elem by done.
  split.
  - intros (v & t' & Hv & Hg). destruct (a !! v) as [ta|] eqn:Hav; [| done]. case_decide; [| done].
    injection Hg as ->. rewrite (Hb v t Hv). split; [done |]. by exists ta.
  - intros (Hv & t' & Hav & Hr). exists (mt_VertexID t), t. by rewrite Hav, decide_True.
Qed.

Lemma Diff_identical :
  IsIdentical (Diff a b) = true ↔ ∀ v, (mt_Root <$> a !! v) = (mt_Root <$> b !! v).
Proof.
  unfold IsIdentical. rewrite !andb_true_iff, !Nat.eqb_eq, !length_zero_iff_nil, !list_nil_elem.
  setoid_rewrite Diff_Added. setoid_rewrite Diff_Removed. setoid_rewrite Diff_Changed. split.
  - intros [[HA HR] HC] v. destruct (a !! v) as [ta|] eqn:Hav, (b !! v) as [tb|] eqn:Hbv; [| | | done]; simpl.
    + f_equal. destruct (decide (mt_Root ta = mt_Root tb)) as [|Hne]; [done |]. exfalso.
      by apply (HC {| tc_VertexID := v; tc_Before := ta; tc_After := tb; tc_FileDiff := None |}).
    + exfalso. apply (HR ta). by rewrite (Ha v ta Hav).
    + exfalso. apply (HA tb). by rewrite (Hb v tb Hbv).
  - intros Heq. split_and!.
    + intros t [Hbt Hat]. specialize (Heq (mt_VertexID t)). by rewrite Hbt, Hat in Heq.
    + intros t [Hat Hbt]. specialize (Heq (mt_VertexID t)). by rewrite Hbt, Hat in Heq.
    + intros c (Hat & Hbt & Hne & _). specialize (Heq (tc_VertexID c)). rewrite Hbt, Hat in Heq.
      simpl in Heq. congruence.
Qed.
End diff_elems.

Lemma Diff_unique (S1 S2 : GoSort) (R1 R2 : GoRange) (a b : gmap string MerkleTree) :
  forest_wf a → forest_wf b → @Diff S1 R1 a b = @Diff S2 R2 a b.
Proof.
  intros Ha Hb. unfold Diff, sortTrees, sortChanges. rewrite !forest_All_index by done.
  f_equal; apply sorted_omap_unique; intros k x y Hx; repeat case_match; intros; simplify_eq/=; eauto.
Qed.

(** The diff of two forests is a partition.  Every tree of the second forest is added,
    changed or unchanged according to the first one's tree of the same vertex, every tree of
    the first whose vertex is gone is removed, and nothing else is listed; the lists are sorted
    by vertex, and depend neither on the order in which maps are visited nor on the sorting
    algorithm; and [IsIdentical] holds exactly when the forests have the same vertices with
    the same roots. *)
Theorem Diff_spec (S1 S2 : GoSort) (R1 R2 : GoRange) (a b : MerkleForest) :
  forest_wf a → forest_wf b →
  let d := @Diff S1 R1 a b in
  d = @Diff S2 R2 a b ∧
  (∀ t, t ∈ d_Added d ↔ forest_Get b (mt_VertexID t) = Some t ∧ forest_Get a (mt_VertexID t) = None) ∧
  (∀ t, t ∈ d_Removed d ↔ forest_Get a (mt_VertexID t) = Some t ∧ forest_Get b (mt_VertexID t) = None) ∧
  (∀ c, c ∈ d_Changed d ↔ forest_Get a (tc_VertexID c) = Some (tc_Before c) ∧
     forest_Get b (tc_VertexID c) = Some (tc_After c) ∧
     mt_Root (tc_Before c) ≠ mt_Root (tc_After c) ∧ tc_FileDiff c = None) ∧
  (∀ t, t ∈ d_Unchanged d ↔ forest_Get b (mt_VertexID t) = Some t ∧
     ∃ t', forest_Get a (mt_VertexID t) = Some t' ∧ mt_Root t' = mt_Root t) ∧
  StronglySorted (key_le mt_VertexID) (d_Added d) ∧ StronglySorted (key_le tc_VertexID) (d_Changed d) ∧
  (IsIdentical d = true ↔ ∀ v, (mt_Root <$> forest_Get a v) = (mt_Root <$> forest_Get b v)).
Proof.
  intros Ha Hb d. split_and!.
  - by apply Diff_unique.
  - intros t. by apply Diff_Added.
  - intros t. by apply Diff_Removed.
  - intros c. by apply Diff_Changed.
  - intros t. by apply Diff_Unchanged.
  - apply sort_slice_sorted.
  - apply sort_slice_sorted.
  - by apply Diff_identical.
Qed.

(** The diff of two trees' leaves is a partition by path.  A path of only one tree is
    added or removed; a path of both is modified or unchanged as its hashes differ or not,
    with both hashes and the owner in the second tree; where a path was accessed several times
    the last leaf counts; and the lists do not depend on map order or sorting algorithm. *)
Theorem diffLeaves_spec (S1 S2 : GoSort) (R1 R2 : GoRange) (before after : MerkleTree) :
  let d := @diffLeaves S1 R1 before after in
  let at_ := λ t p, last (filter (λ l, leaf_RelPath l = p) (mt_Leaves t)) in
  d = @diffLeaves S2 R2 before after ∧
  ∀ c, let p := fc_RelPath c in
  (c ∈ fd_Added d ↔ at_ before p = None ∧ ∃ l, at_ after p = Some l ∧
     c = {| fc_RelPath := p; fc_BeforeHash := EmptyString; fc_AfterHash := leaf_Hash l; fc_OwnerLayerID := EmptyString |}) ∧
  (c ∈ fd_Removed d ↔ at_ after p = None ∧ ∃ l, at_ before p = Some l ∧
     c = {| fc_RelPath := p; fc_BeforeHash := leaf_Hash l; fc_AfterHash := EmptyString; fc_OwnerLayerID := EmptyString |}) ∧
  (c ∈ fd_Modified d ++ fd_Unchanged d ↔ ∃ l l', at_ before p = Some l ∧ at_ after p = Some l' ∧
     c = {| fc_RelPath := p; fc_BeforeHash := leaf_Hash l; fc_AfterHash := leaf_Hash l';
            fc_OwnerLayerID := leaf_OwnerLayerID l' |}) ∧
  (c ∈ fd_Modified d → fc_BeforeHash c ≠ fc_AfterHash c) ∧
  (c ∈ fd_Unchanged d → fc_BeforeHash c = fc_AfterHash c).
Proof.
  intros d at_.
  assert (∀ t p, indexLeaves (mt_Leaves t) !! p = at_ t p) as Hidx.
  { intros t p. unfold indexLeaves. rewrite index_lookup, lookup_empty. unfold at_. by destruct (last _). }
  split.
  - unfold d, diffLeaves, sortFileChanges.
    f_equal; apply sorted_omap_unique; intros k x y _; repeat case_match; intros; by simplify_eq/=.
  - intros c p. unfold d, diffLeaves, sortFileChanges. cbn [fd_Added fd_Removed fd_Modified fd_Unchanged].
    rewrite elem_of_app, !elem_of_sort_slice, !omap_range_elem. setoid_rewrite Hidx.
    destruct c as [q h h' o]. cbn [fc_RelPath fc_BeforeHash fc_AfterHash fc_OwnerLayerID] in *. subst p.
    split_and!.
    + split; [intros (k & l & Hl & Hg) | intros (Hn & l & Hl & Hg); exists q, l; rewrite Hn; naive_solver].
      destruct (at_ before k) eqn:Hb; naive_solver.
    + split; [intros (k & l & Hl & Hg) | intros (Hn & l & Hl & Hg); exists q, l; rewrite Hn; naive_solver].
      destruct (at_ after k) eqn:Hb; naive_solver.
    + split.
      * intros [(k & l & Hl & Hg)|(k & l & Hl & Hg)]; destruct (at_ before k) eqn:Hb; try done;
          case_decide; naive_solver.
      * intros (l & l' & Hl & Hl' & Hg). destruct (bool_decide (leaf_Hash l = leaf_Hash l')) eqn:Hs;
          [right | left]; exists q, l'; rewrite Hl, Hs; naive_solver.
    + intros (k & l & Hl & Hg). destruct (at_ before k) eqn:Hb; [| done]. case_decide as Hs; [| done].
      apply bool_decide_eq_false in Hs. naive_solver.
    + intros (k & l & Hl & Hg). destruct (at_ before k) eqn:Hb; [| done]. case_decide as Hs; [| done].
      apply bool_decide_eq_true in Hs. naive_solver.
Qed.

Lemma Diff_spec_witness :
  let a := forest_Add NewMerkleForest (sample_tree "v1" [] "r1") in
  d_Added (Diff a sample_forest) = [sample_tree "v2" [] "r2"] ∧
  d_Unchanged (Diff a sample_forest) = [sample_tree "v1" [] "r1"] ∧
  d_Changed (Diff a sample_forest) = [] ∧
  ForestDiff_Summary (Diff a sample_forest) = "ForestDiff{added=1 removed=0 changed=0 unchanged=1}" ∧
  Diff a sample_forest = Diff (H0 := goRange_rev) a sample_forest.
Proof.
  intros a. split_and!; [vm_compute; reflexivity .. |].
  apply (Diff_spec goSort_merge goSort_merge goRange_list goRange_rev a sample_forest);
    [| apply sample_forest_wf].
  apply forest_Add_wf. intros v t Hv. by vm_compute in Hv.
Defined.
