(* ===== verification/LmSerial.v ===== *)
(** * LmSerial: [pkg/layermerkle/serial.go]

    Forests and trees as wire values.  [encoding/json] turns a wire value into bytes and back:
    a pair of functions into a type [B] of byte strings, arguments of the definitions, of which
    the round-trip theorem uses that what was encoded decodes to the same value.  The text
    rendering ([PrettyPrintTree]) is not modelled, its helpers are. *)
From S2P Require Import Prelude GoStd LmDigest LmLayer LmMerkle.

Record wireLeaf := { wl_RelPath : string; wl_Hash : string; wl_OwnerLayerID : string; wl_FromCache : bool }.

Record wireTree := {
  wt_VertexID : string; wt_LayerStack : list string; wt_Root : string; wt_Leaves : list wireLeaf;
  wt_LeafCount : nat; wt_CacheHitCount : nat; wt_FinalizedAt : Z;
}.

Record wireForest := { wf_Version : Z; wf_Trees : list wireTree }.

Definition forestWireVersion : Z := 1.

Definition treeToWire (t : MerkleTree) : wireTree :=
  {| wt_VertexID := mt_VertexID t; wt_LayerStack := mt_LayerStack t; wt_Root := mt_Root t;
     wt_Leaves := (λ leaf, {| wl_RelPath := leaf_RelPath leaf; wl_Hash := leaf_Hash leaf;
       wl_OwnerLayerID := leaf_OwnerLayerID leaf; wl_FromCache := leaf_FromCache leaf |}) <$> mt_Leaves t;
     wt_LeafCount := mt_LeafCount t; wt_CacheHitCount := mt_CacheHitCount t;
     wt_FinalizedAt := mt_FinalizedAt t |}.

(** The loop over the stack: the first invalid digest fails. *)
Fixpoint wire_stack (l : list string) : result LayerStack :=
  match l with
  | [] => Ok []
  | s :: rest =>
      match Digest_Validate s with
      | Err e => Err (EWrap ["layermerkle: invalid layer digest"; s] e)
      | Ok _ => match wire_stack rest with Err e => Err e | Ok stack => Ok (s :: stack) end
      end
  end.

Definition wireToTree (wt : wireTree) : result MerkleTree :=
  match wire_stack (wt_LayerStack wt) with
  | Err e => Err e
  | Ok stack =>
      Ok {| mt_VertexID := wt_VertexID wt; mt_LayerStack := stack; mt_Root := wt_Root wt;
            mt_RootNode := None;
            mt_Leaves := (λ wl, {| leaf_RelPath := wl_RelPath wl; leaf_Hash := wl_Hash wl;
              leaf_OwnerLayerID := wl_OwnerLayerID wl; leaf_FromCache := wl_FromCache wl |}) <$> wt_Leaves wt;
            mt_LeafCount := wt_LeafCount wt; mt_CacheHitCount := wt_CacheHitCount wt;
            mt_FinalizedAt := wt_FinalizedAt wt |}
  end.

(** The loop of [UnmarshalForest] over the trees. *)
Fixpoint add_wire_trees (trees : list wireTree) (forest : MerkleForest) : result MerkleForest :=
  match trees with
  | [] => Ok forest
  | wt :: rest =>
      match wireToTree wt with
      | Err e => Err e
      | Ok tree => add_wire_trees rest (forest_Add forest tree)
      end
  end.

Section json.
Context {B : Type} (enc_forest : wireForest → result B) (dec_forest : B → result wireForest).
Context (enc_tree : wireTree → result B) (dec_tree : B → result wireTree).

Definition MarshalForest `{GoSort, GoRange} (forest : MerkleForest) : result B :=
  enc_forest {| wf_Version := forestWireVersion; wf_Trees := treeToWire <$> forest_All forest |}.

Definition UnmarshalForest (data : B) : result MerkleForest :=
  match dec_forest data with
  | Err e => Err (EWrap ["layermerkle: unmarshal forest"] e)
  | Ok wf =>
      if decide (wf_Version wf ≠ forestWireVersion)
      then Err (EText ["layermerkle: unsupported wire version"])
      else add_wire_trees (wf_Trees wf) NewMerkleForest
  end.

Definition MarshalTree (tree : MerkleTree) : result B := enc_tree (treeToWire tree).

Definition UnmarshalTree (data : B) : result MerkleTree :=
  match dec_tree data with
  | Err e => Err (EWrap ["layermerkle: unmarshal tree"] e)
  | Ok wt => wireToTree wt
  end.
End json.

(** [lastSlash]; [None] for -1 *)
Fixpoint lastSlash (s : string) : option nat :=
  match s with
  | EmptyString => None
  | String c s' =>
      match lastSlash s' with
      | Some i => Some (S i)
      | None => if decide (c = go_slash) then Some 0 else None
      end
  end.

(** [sortStrings]: the inner loop moves [x] down past the greater elements before it.  The
    sorted prefix is kept last element first. *)
Fixpoint sink (x : string) (prefix : list string) : list string :=
  match prefix with
  | [] => [x]
  | y :: rest => if decide (¬ String.le y x) then y :: sink x rest else x :: prefix
  end.

Definition sortStrings (ss : list string) : list string := reverse (foldl (λ p x, sink x p) [] ss).

(** ** Round trips *)

Definition forget_root (t : MerkleTree) : MerkleTree :=
  {| mt_VertexID := mt_VertexID t; mt_LayerStack := mt_LayerStack t; mt_Root := mt_Root t;
     mt_RootNode := None; mt_Leaves := mt_Leaves t; mt_LeafCount := mt_LeafCount t;
     mt_CacheHitCount := mt_CacheHitCount t; mt_FinalizedAt := mt_FinalizedAt t |}.

Lemma wire_stack_ok l :
  Forall (λ s, Digest_Validate s = Ok tt) l → wire_stack l = Ok l.
Proof. induction 1 as [|s l Hs Hl IH]; simpl; [done |]. by rewrite Hs, IH. Qed.

Lemma tree_roundtrip t :
  Forall (λ s, Digest_Validate s = Ok tt) (mt_LayerStack t) → wireToTree (treeToWire t) = Ok (forget_root t).
Proof.
  intros Ht. unfold wireToTree. simpl. rewrite wire_stack_ok by done. unfold forget_root. do 2 f_equal.
  rewrite <- list_fmap_compose. rewrite <- (list_fmap_id (mt_Leaves t)) at 2.
  apply list_fmap_ext. by intros _ [] _.
Qed.

Lemma add_wire_trees_ok ts (f : gmap string MerkleTree) :
  Forall (λ t, Forall (λ s, Digest_Validate s = Ok tt) (mt_LayerStack t)) ts →
  add_wire_trees (treeToWire <$> ts) f
  = Ok (foldl (λ (m : gmap string MerkleTree) t, <[mt_VertexID t := t]> m) f (forget_root <$> ts)).
Proof.
  intros Hts. revert f. induction Hts as [|t ts Ht Hts IH]; intros f; [done |]. csimpl.
  rewrite tree_roundtrip by done. apply IH.
Qed.

(** Forests survive serialization.  With an encoder and decoder that invert each other on
    wire values, unmarshalling what [MarshalForest] wrote gives back the forest, tree for tree,
    without the interior nodes; for trees whose layer identifiers are valid digests. *)
Theorem forest_roundtrip `{GoSort, GoRange} {B} (enc : wireForest → result B) (dec : B → result wireForest)
    (f : MerkleForest) (data : B) :
  (∀ wf b, enc wf = Ok b → dec b = Ok wf) → forest_wf f →
  (∀ v t, forest_Get f v = Some t → Forall (λ s, Digest_Validate s = Ok tt) (mt_LayerStack t)) →
  MarshalForest enc f = Ok data →
  UnmarshalForest dec data = Ok (forget_root <$> (f : gmap string MerkleTree)).
Proof.
  intros Hcodec Hf Hvalid Henc. unfold UnmarshalForest. rewrite (Hcodec _ _ Henc). cbn [wf_Version wf_Trees].
  rewrite decide_False by naive_solver. rewrite add_wire_trees_ok.
  2: { apply Forall_forall. intros t [v Hv]%forest_All_elem. by apply (Hvalid v). }
  f_equal. apply map_eq. intros v. apply option_eq. intros t.
  assert (NoDup (mt_VertexID <$> (forget_root <$> forest_All f))) as Hnd.
  { rewrite <- list_fmap_compose. change (mt_VertexID ∘ forget_root) with mt_VertexID.
    unfold forest_All. apply sort_slice_NoDup_key. rewrite forest_keys by done. apply map_range_NoDup_keys. }
  unfold NewMerkleForest. rewrite (index_unique mt_VertexID) by done.
  rewrite list_elem_of_fmap, lookup_fmap, fmap_Some. split.
  - intros [(t' & -> & [v' Hv]%forest_All_elem) <-]. exists t'. simpl. by rewrite (Hf _ _ Hv).
  - intros (t' & Hv & ->). split; [exists t'; split; [done |]; apply forest_All_elem; by exists v | simpl; by apply Hf].
Qed.

Lemma UnmarshalForest_version {B} (dec : B → result wireForest) data wf :
  dec data = Ok wf → wf_Version wf ≠ 1%Z →
  UnmarshalForest dec data = Err (EText ["layermerkle: unsupported wire version"]).
Proof. intros Hd Hv. unfold UnmarshalForest. by rewrite Hd, decide_True. Qed.

(** ** The hand-written sort *)

Lemma sink_perm x p : sink x p ≡ₚ x :: p.
Proof.
  induction p as [|y p IH]; simpl; [done |]. case_decide; [| done]. rewrite IH. apply Permutation_swap.
Qed.

Lemma sink_sorted x p :
  StronglySorted (flip String.le) p → StronglySorted (flip String.le) (sink x p).
Proof.
  induction 1 as [|y p Hp IH Hy]; simpl; [repeat constructor |]. case_decide as Hx.
  - constructor; [done |]. rewrite sink_perm. constructor; [| done].
    unfold flip. by destruct (total String.le x y).
  - constructor; [by constructor |]. constructor; [done |].
    eapply Forall_impl; [exact Hy |]. intros z Hz. unfold flip in *. by transitivity y.
Qed.

Lemma StronglySorted_reverse {A} (R : relation A) (l : list A) :
  StronglySorted (flip R) l → StronglySorted R (reverse l).
Proof.
  induction 1 as [|x l Hl IH Hx]; [constructor |]. rewrite reverse_cons.
  apply StronglySorted_app. split_and!; [| done | repeat constructor].
  intros y z Hy ->%list_elem_of_singleton. rewrite elem_of_reverse in Hy.
  rewrite Forall_forall in Hx. by apply Hx.
Qed.

(** The insertion sort of serial.go sorts as [sort.Strings] does. *)
Lemma sortStrings_correct (ss : list string) : sortStrings ss = sort_strings ss.
Proof.
  assert (sortStrings ss ≡ₚ ss ∧ StronglySorted String.le (sortStrings ss)) as [Hp Hs].
  { unfold sortStrings. assert (∀ p, StronglySorted (flip String.le) p →
      foldl (λ p x, sink x p) p ss ≡ₚ ss ++ p ∧ StronglySorted (flip String.le) (foldl (λ p x, sink x p) p ss)) as Hgo.
    { induction ss as [|x ss IH]; intros p Hp; [done |]. simpl.
      destruct (IH (sink x p) (sink_sorted x p Hp)) as [E Hs]. split; [| done].
      rewrite E, sink_perm. by rewrite Permutation_middle. }
    destruct (Hgo [] (SSorted_nil _)) as [E Hs]. rewrite app_nil_r in E. split; [by rewrite reverse_Permutation |].
    by apply StronglySorted_reverse. }
  apply (StronglySorted_unique String.le); [done | apply sort_strings_sorted | by rewrite Hp, sort_strings_perm].
Qed.

(** ** Witness: a codec into wire values themselves *)

Lemma forest_roundtrip_witness :
  UnmarshalForest (λ b : wireForest, Ok b)
    {| wf_Version := 1; wf_Trees := treeToWire <$> forest_All
         (forest_Add NewMerkleForest (sample_tree "v1" [] "r1")) |}
  = Ok (forget_root <$> (forest_Add NewMerkleForest (sample_tree "v1" [] "r1") : gmap string MerkleTree)).
Proof.
  apply (forest_roundtrip (λ wf, Ok wf)); [by intros wf b [= ->] | | | reflexivity].
  - apply forest_Add_wf. intros v t Hv. by vm_compute in Hv.
  - intros v t Hv. unfold forest_Get, forest_Add in Hv.
    apply lookup_insert_Some in Hv as [[_ <-]|[_ Hv]]; [| by vm_compute in Hv].
    apply (bool_decide_eq_true_1 _). vm_compute. reflexivity.
Defined.
