(* ===== verification/LmProvenance.v ===== *)
(** * LmProvenance: [pkg/layermerkle/provenance.go] and [warmer.go]

    The export of a forest as a provenance record, the comparison of two records, and the
    warming of a hash cache from a record or a forest.  A hit rate is the exact ratio that the
    code rounds to a [float64]. *)
From Stdlib Require Import QArith.
From S2P Require Import Prelude GoStd Sha256 LmLayer LmMerkle LmCache LmResolver LmHasher LmDedup.

Record OCIProvenanceFile := {
  pf_RelPath : string; pf_ContentDigest : string; pf_OwnerLayer : string; pf_FromCache : bool;
}.

Record OCIProvenanceVertex := {
  pv_VertexDigest : string; pv_MerkleRoot : string; pv_LayerStack : list string;
  pv_FinalizedAt : Z; pv_LeafCount : Z; pv_CacheHitRate : Q; pv_Files : list OCIProvenanceFile;
}.

Record OCIProvenance := {
  p_SchemaVersion : Z; p_MediaType : string; p_CreatedAt : Z; p_BuildID : string;
  p_Vertices : list OCIProvenanceVertex; p_TotalFiles : Z; p_TotalCacheHits : Z;
}.

Definition OCIProvenanceMediaType : string := "application/vnd.layermerkle.provenance.v1+json".

Record exportProvenanceConfig := { ec_buildID : string; ec_includeFiles : bool; ec_sortByRelPath : bool }.

Definition WithProvenanceBuildID (id : string) (c : exportProvenanceConfig) : exportProvenanceConfig :=
  {| ec_buildID := id; ec_includeFiles := ec_includeFiles c; ec_sortByRelPath := ec_sortByRelPath c |}.

Definition WithProvenanceFiles (include : bool) (c : exportProvenanceConfig) : exportProvenanceConfig :=
  {| ec_buildID := ec_buildID c; ec_includeFiles := include; ec_sortByRelPath := ec_sortByRelPath c |}.

(** [MerkleTree.CacheHitRate] *)
Definition CacheHitRate (t : MerkleTree) : Q :=
  if (mt_LeafCount t =? 0)%nat then 0%Q
  else (inject_Z (Z.of_nat (mt_CacheHitCount t)) / inject_Z (Z.of_nat (mt_LeafCount t)))%Q.

Definition treeToProvenanceVertex `{GoSort} (t : MerkleTree) (cfg : exportProvenanceConfig)
    : OCIProvenanceVertex :=
  {| pv_VertexDigest := mt_VertexID t; pv_MerkleRoot := mt_Root t; pv_LayerStack := mt_LayerStack t;
     pv_FinalizedAt := mt_FinalizedAt t; pv_LeafCount := Z.of_nat (mt_LeafCount t);
     pv_CacheHitRate := CacheHitRate t;
     pv_Files :=
       if ec_includeFiles cfg then
         let leaves := if ec_sortByRelPath cfg then sort_slice leaf_RelPath (mt_Leaves t) else mt_Leaves t in
         (λ l, {| pf_RelPath := leaf_RelPath l; pf_ContentDigest := leaf_Hash l;
                  pf_OwnerLayer := leaf_OwnerLayerID l; pf_FromCache := leaf_FromCache l |}) <$> leaves
       else [] |}.

(** [ExportProvenance], at time [now] *)
Definition ExportProvenance `{GoSort, GoRange} (now : Z) (forest : MerkleForest)
    (opts : list (exportProvenanceConfig → exportProvenanceConfig)) : OCIProvenance :=
  let cfg := foldl (λ cfg o, o cfg)
    {| ec_buildID := EmptyString; ec_includeFiles := true; ec_sortByRelPath := true |} opts in
  foldl (λ p t,
      {| p_SchemaVersion := p_SchemaVersion p; p_MediaType := p_MediaType p;
         p_CreatedAt := p_CreatedAt p; p_BuildID := p_BuildID p;
         p_Vertices := p_Vertices p ++ [treeToProvenanceVertex t cfg];
         p_TotalFiles := p_TotalFiles p + Z.of_nat (mt_LeafCount t);
         p_TotalCacheHits := p_TotalCacheHits p + Z.of_nat (mt_CacheHitCount t) |})%Z
    {| p_SchemaVersion := 2; p_MediaType := OCIProvenanceMediaType; p_CreatedAt := now;
       p_BuildID := ec_buildID cfg; p_Vertices := []; p_TotalFiles := 0; p_TotalCacheHits := 0 |}
    (forest_All forest).

(** ** DiffProvenance *)

Record ProvenanceDiffResult := {
  pd_AddedVertices : list string; pd_RemovedVertices : list string; pd_ChangedVertices : list string;
  pd_NewFiles : Z; pd_RemovedFiles : Z;
}.

Definition indexProvenanceVertices (p : OCIProvenance) : gmap string OCIProvenanceVertex :=
  foldl (λ (m : gmap string OCIProvenanceVertex) v, <[pv_VertexDigest v := v]> m) ∅ (p_Vertices p).

(** The first loop of [DiffProvenance], over the vertices of the second record. *)
Definition diff_b_step (aIndex : gmap string OCIProvenanceVertex) (r : ProvenanceDiffResult)
    (kv : string * OCIProvenanceVertex) : ProvenanceDiffResult :=
  let '(digest, bVtx) := kv in
  match aIndex !! digest with
  | Some aVtx =>
      if decide (pv_MerkleRoot aVtx = pv_MerkleRoot bVtx) then r
      else
        let newFiles := (pd_NewFiles r + (pv_LeafCount bVtx - pv_LeafCount aVtx))%Z in
        {| pd_AddedVertices := pd_AddedVertices r; pd_RemovedVertices := pd_RemovedVertices r;
           pd_ChangedVertices := pd_ChangedVertices r ++ [digest];
           pd_NewFiles := if (newFiles <? 0)%Z then 0%Z else newFiles;
           pd_RemovedFiles := if (newFiles <? 0)%Z then (pd_RemovedFiles r + - newFiles)%Z else pd_RemovedFiles r |}
  | None =>
      {| pd_AddedVertices := pd_AddedVertices r ++ [digest]; pd_RemovedVertices := pd_RemovedVertices r;
         pd_ChangedVertices := pd_ChangedVertices r;
         pd_NewFiles := pd_NewFiles r + pv_LeafCount bVtx; pd_RemovedFiles := pd_RemovedFiles r |}
  end.

(** The second loop, over the vertices of the first record. *)
Definition diff_a_step (bIndex : gmap string OCIProvenanceVertex) (r : ProvenanceDiffResult)
    (kv : string * OCIProvenanceVertex) : ProvenanceDiffResult :=
  let '(digest, aVtx) := kv in
  match bIndex !! digest with
  | Some _ => r
  | None =>
      {| pd_AddedVertices := pd_AddedVertices r; pd_RemovedVertices := pd_RemovedVertices r ++ [digest];
         pd_ChangedVertices := pd_ChangedVertices r; pd_NewFiles := pd_NewFiles r;
         pd_RemovedFiles := pd_RemovedFiles r + pv_LeafCount aVtx |}
  end.

Definition DiffProvenance `{GoRange} (a b : OCIProvenance) : ProvenanceDiffResult :=
  let aIndex := indexProvenanceVertices a in
  let bIndex := indexProvenanceVertices b in
  let r := foldl (diff_b_step aIndex)
    {| pd_AddedVertices := []; pd_RemovedVertices := []; pd_ChangedVertices := [];
       pd_NewFiles := 0; pd_RemovedFiles := 0 |} (map_range bIndex) in
  let r := foldl (diff_a_step bIndex) r (map_range aIndex) in
  {| pd_AddedVertices := sort_strings (pd_AddedVertices r);
     pd_RemovedVertices := sort_strings (pd_RemovedVertices r);
     pd_ChangedVertices := sort_strings (pd_ChangedVertices r);
     pd_NewFiles := pd_NewFiles r; pd_RemovedFiles := pd_RemovedFiles r |}.

(** ** warmer.go *)

Record WarmResult := { wr_Warmed : Z; wr_Skipped : Z; wr_Vertices : Z }.

Section warmer.
Context {C : Type} `{HashCache C}.

(** One file of a vertex: its owner layer, path and hash. *)
Definition warm_file (reg : LayerRegistry) (now : Z) (s : WarmResult * C) (f : string * string * string)
    : WarmResult * C :=
  let '(owner, relPath, hash) := f in
  let '(r, c) := s in
  let skipped := {| wr_Warmed := wr_Warmed r; wr_Skipped := wr_Skipped r + 1; wr_Vertices := wr_Vertices r |} in
  if decide (owner = EmptyString ∨ hash = EmptyString) then (skipped, c)
  else match registry_Get reg owner with
       | None => (skipped, c)
       | Some _ =>
           ({| wr_Warmed := wr_Warmed r + 1; wr_Skipped := wr_Skipped r; wr_Vertices := wr_Vertices r |},
            hc_Set now owner relPath hash c)
       end.

(** The loop over the vertices, which polls the context before each of them. *)
Fixpoint warm_vertices (reg : LayerRegistry) (now : Z) (ctx : context) (poll : nat)
    (vertices : list (list (string * string * string))) (s : WarmResult * C)
    : result unit * (WarmResult * C) :=
  match vertices with
  | [] => (Ok tt, s)
  | files :: rest =>
      match ctx poll with
      | Some e => (Err e, s)
      | None =>
          let '(r, c) := s in
          let r := {| wr_Warmed := wr_Warmed r; wr_Skipped := wr_Skipped r; wr_Vertices := wr_Vertices r + 1 |} in
          warm_vertices reg now ctx (S poll) rest (foldl (warm_file reg now) (r, c) files)
      end
  end.

Definition no_warm : WarmResult := {| wr_Warmed := 0; wr_Skipped := 0; wr_Vertices := 0 |}.

(** [CacheWarmer.Warm] *)
Definition Warm (reg : LayerRegistry) (now : Z) (ctx : context) (p : OCIProvenance) (c : C)
    : result unit * (WarmResult * C) :=
  warm_vertices reg now ctx 0
    ((λ v, (λ f, (pf_OwnerLayer f, pf_RelPath f, pf_ContentDigest f)) <$> pv_Files v) <$> p_Vertices p)
    (no_warm, c).

(** [CacheWarmer.WarmFromForest] *)
Definition WarmFromForest `{GoSort, GoRange} (reg : LayerRegistry) (now : Z) (ctx : context)
    (forest : MerkleForest) (c : C) : result unit * (WarmResult * C) :=
  warm_vertices reg now ctx 0
    ((λ t, (λ l, (leaf_OwnerLayerID l, leaf_RelPath l, leaf_Hash l)) <$> mt_Leaves t) <$> forest_All forest)
    (no_warm, c).
End warmer.

(** ** The order of the first loop *)

Definition pv_sample (d root : string) (n : Z) : OCIProvenanceVertex :=
  {| pv_VertexDigest := d; pv_MerkleRoot := root; pv_LayerStack := []; pv_FinalizedAt := 0;
     pv_LeafCount := n; pv_CacheHitRate := 0; pv_Files := [] |}.

Definition provenance_of (vs : list OCIProvenanceVertex) : OCIProvenance :=
  {| p_SchemaVersion := 2; p_MediaType := OCIProvenanceMediaType; p_CreatedAt := 0; p_BuildID := EmptyString;
     p_Vertices := vs; p_TotalFiles := 0; p_TotalCacheHits := 0 |}.

(** The file counts of [DiffProvenance] depend on the order in which Go visits a map.  The
    running count of new files is clamped at zero after each vertex, so for the same two
    records (one vertex lost five files, another gained five) two runs report different
    counts; the vertex lists are the same. *)
Theorem DiffProvenance_order :
  ∃ a b : OCIProvenance,
    let r1 := @DiffProvenance goRange_list a b in
    let r2 := @DiffProvenance goRange_rev a b in
    pd_ChangedVertices r1 = pd_ChangedVertices r2 ∧
    (pd_NewFiles r1, pd_RemovedFiles r1) ≠ (pd_NewFiles r2, pd_RemovedFiles r2).
Proof.
  exists (provenance_of [pv_sample "v1" "r1" 5; pv_sample "v2" "r2" 1]),
         (provenance_of [pv_sample "v1" "r3" 0; pv_sample "v2" "r4" 6]).
  split; [vm_compute; reflexivity |]. vm_compute. discriminate.
Qed.

(** What a vertex of the second record adds: to the changed list, to the added list, and to
    the net file count. *)
Definition b_changed (aI : gmap string OCIProvenanceVertex) (x : string * OCIProvenanceVertex) : bool :=
  match aI !! x.1 with Some v => negb (bool_decide (pv_MerkleRoot v = pv_MerkleRoot x.2)) | None => false end.

Definition b_added (aI : gmap string OCIProvenanceVertex) (x : string * OCIProvenanceVertex) : bool :=
  match aI !! x.1 with Some _ => false | None => true end.

Definition b_net (aI : gmap string OCIProvenanceVertex) (x : string * OCIProvenanceVertex) : Z :=
  match aI !! x.1 with
  | Some v => if b_changed aI x then pv_LeafCount x.2 - pv_LeafCount v else 0
  | None => pv_LeafCount x.2
  end.

Definition net_files (r : ProvenanceDiffResult) : Z := pd_NewFiles r - pd_RemovedFiles r.

(** [cond_keys b d] is the key [d] when the condition holds. *)
Definition cond_keys (b : bool) (d : string) : list string := if b then [d] else [].

Lemma filter_fst_cons {A} (P : string * A → bool) (x : string * A) l :
  (filter P (x :: l)).*1 = cond_keys (P x) x.1 ++ (filter P l).*1.
Proof. rewrite filter_cons. unfold cond_keys. destruct (P x) eqn:E; case_decide as H; try done; by rewrite E in H. Qed.

Lemma diff_b_step_parts aI r x :
  let r' := diff_b_step aI r x in
  pd_AddedVertices r' = pd_AddedVertices r ++ cond_keys (b_added aI x) x.1 ∧
  pd_ChangedVertices r' = pd_ChangedVertices r ++ cond_keys (b_changed aI x) x.1 ∧
  pd_RemovedVertices r' = pd_RemovedVertices r ∧ net_files r' = (net_files r + b_net aI x)%Z.
Proof.
  destruct x as [d v]. unfold diff_b_step, b_added, b_net, b_changed, cond_keys, net_files. cbn [fst snd].
  destruct (aI !! d) as [w|]; [case_decide as Hr|].
  - rewrite bool_decide_true by done. cbn. rewrite !app_nil_r. split_and!; try done. lia.
  - rewrite bool_decide_false by done. cbn. rewrite !app_nil_r. split_and!; try done.
    destruct (_ <? 0)%Z; cbn; lia.
  - cbn. rewrite !app_nil_r. split_and!; try done. lia.
Qed.

Lemma diff_b_parts aI l r :
  let r' := foldl (diff_b_step aI) r l in
  pd_AddedVertices r' = pd_AddedVertices r ++ (filter (λ x, b_added aI x) l).*1 ∧
  pd_ChangedVertices r' = pd_ChangedVertices r ++ (filter (λ x, b_changed aI x) l).*1 ∧
  pd_RemovedVertices r' = pd_RemovedVertices r ∧
  net_files r' = (net_files r + foldr (λ x n, b_net aI x + n) 0 l)%Z.
Proof.
  revert r. induction l as [|x l IH]; intros r; cbn [foldl foldr].
  { rewrite !filter_nil, !app_nil_r. split_and!; try done. lia. }
  destruct (IH (diff_b_step aI r x)) as (-> & -> & -> & ->).
  destruct (diff_b_step_parts aI r x) as (-> & -> & -> & ->).
  rewrite !filter_fst_cons, !app_assoc. split_and!; try done. lia.
Qed.

Lemma diff_a_step_parts bI r x :
  let r' := diff_a_step bI r x in
  pd_AddedVertices r' = pd_AddedVertices r ∧ pd_ChangedVertices r' = pd_ChangedVertices r ∧
  pd_RemovedVertices r' = pd_RemovedVertices r ++ cond_keys (b_added bI x) x.1 ∧
  net_files r' = (net_files r - (if b_added bI x then pv_LeafCount x.2 else 0))%Z.
Proof.
  destruct x as [d v]. unfold diff_a_step, b_added, cond_keys, net_files. cbn [fst snd].
  destruct (bI !! d); cbn; rewrite ?app_nil_r; split_and!; try done; lia.
Qed.

Lemma diff_a_parts bI l r :
  let r' := foldl (diff_a_step bI) r l in
  pd_AddedVertices r' = pd_AddedVertices r ∧ pd_ChangedVertices r' = pd_ChangedVertices r ∧
  pd_RemovedVertices r' = pd_RemovedVertices r ++ (filter (λ x, b_added bI x) l).*1 ∧
  net_files r' = (net_files r - foldr (λ x n, (if b_added bI x then pv_LeafCount x.2 else 0) + n) 0 l)%Z.
Proof.
  revert r. induction l as [|x l IH]; intros r; cbn [foldl foldr].
  { rewrite !filter_nil, !app_nil_r. split_and!; try done. lia. }
  destruct (IH (diff_a_step bI r x)) as (-> & -> & -> & ->).
  destruct (diff_a_step_parts bI r x) as (-> & -> & -> & ->).
  rewrite !filter_fst_cons, !app_assoc. split_and!; try done. lia.
Qed.

Lemma foldr_sum_perm {A} (f : A → Z) (l1 l2 : list A) :
  l1 ≡ₚ l2 → foldr (λ x n, f x + n)%Z 0%Z l1 = foldr (λ x n, f x + n)%Z 0%Z l2.
Proof. induction 1; simpl; lia. Qed.

(** Apart from those counts the comparison is deterministic.  For any two orders of the
    maps, [DiffProvenance] lists the same added, removed and changed vertices, and the
    difference of its two counts is the same: the net number of files. *)
Theorem DiffProvenance_net (R1 R2 : GoRange) (a b : OCIProvenance) :
  let r1 := @DiffProvenance R1 a b in
  let r2 := @DiffProvenance R2 a b in
  pd_AddedVertices r1 = pd_AddedVertices r2 ∧ pd_RemovedVertices r1 = pd_RemovedVertices r2 ∧
  pd_ChangedVertices r1 = pd_ChangedVertices r2 ∧ net_files r1 = net_files r2.
Proof.
  set (aI := indexProvenanceVertices a). set (bI := indexProvenanceVertices b).
  set (r0 := {| pd_AddedVertices := []; pd_RemovedVertices := []; pd_ChangedVertices := [];
                pd_NewFiles := 0; pd_RemovedFiles := 0 |}).
  assert (∀ R : GoRange,
    pd_AddedVertices (DiffProvenance a b) = sort_strings (filter (λ x, b_added aI x) (map_to_list bI)).*1 ∧
    pd_RemovedVertices (DiffProvenance a b) = sort_strings (filter (λ x, b_added bI x) (map_to_list aI)).*1 ∧
    pd_ChangedVertices (DiffProvenance a b) = sort_strings (filter (λ x, b_changed aI x) (map_to_list bI)).*1 ∧
    net_files (DiffProvenance a b) = (foldr (λ x n, b_net aI x + n) 0 (map_to_list bI)
      - foldr (λ x n, (if b_added bI x then pv_LeafCount x.2 else 0) + n) 0 (map_to_list aI))%Z) as HR.
  { intros R. destruct (diff_b_parts aI (map_range bI) r0) as (E1 & E2 & E3 & E4).
    destruct (diff_a_parts bI (map_range aI) (foldl (diff_b_step aI) r0 (map_range bI))) as (F1 & F2 & F3 & F4).
    unfold DiffProvenance. fold aI bI r0. unfold net_files in *. cbn [pd_AddedVertices pd_RemovedVertices pd_ChangedVertices pd_NewFiles pd_RemovedFiles].
    rewrite F1, F2, F3, F4, E1, E2, E3, E4. cbn [r0 pd_AddedVertices pd_RemovedVertices pd_ChangedVertices pd_NewFiles pd_RemovedFiles app].
    split_and!.
    - apply sort_strings_unique. by rewrite map_range_perm.
    - apply sort_strings_unique. by rewrite map_range_perm.
    - apply sort_strings_unique. by rewrite map_range_perm.
    - rewrite (foldr_sum_perm (b_net aI) _ _ (map_range_perm bI)),
        (foldr_sum_perm (λ x, if b_added bI x then pv_LeafCount x.2 else 0%Z) _ _ (map_range_perm aI)). lia. }
  destruct (HR R1) as (E1 & E2 & E3 & E4), (HR R2) as (F1 & F2 & F3 & F4).
  split_and!; congruence.
Qed.

(** ** Warming *)

Section warm_ok.
Context {C : Type} `{HashCacheLaws C}.
Context (owner : LayerStack → string → result LayerID) (path : LayerID → string → result string)
  (f : string → result FileHash) (chain : LayerID → LayerStack).

(** A recorded file is current when hashing it now would give the recorded hash. *)
Definition current_file (x : string * string * string) : Prop :=
  ideal_hash owner path f (chain x.1.1) x.1.2 = Ok x.2.

Lemma warm_files_ok reg now files s :
  cache_justified f owner path chain s.2 → Forall current_file files →
  let s' := foldl (warm_file reg now) s files in
  cache_justified f owner path chain s'.2 ∧
  (wr_Warmed s'.1 + wr_Skipped s'.1 = wr_Warmed s.1 + wr_Skipped s.1 + Z.of_nat (length files))%Z ∧
  wr_Vertices s'.1 = wr_Vertices s.1.
Proof.
  intros Hc Hfs. revert s Hc. induction Hfs as [|x files Hx Hfs IH]; intros s Hc; cbn [foldl length]; [split_and!; [done | lia | done] |].
  destruct x as [[o p] h], s as [r c]. simpl in Hc, Hx. unfold current_file in Hx. simpl in Hx.
  assert (cache_justified f owner path chain (warm_file reg now (r, c) (o, p, h)).2 ∧
    (wr_Warmed (warm_file reg now (r, c) (o, p, h)).1 + wr_Skipped (warm_file reg now (r, c) (o, p, h)).1
     = wr_Warmed r + wr_Skipped r + 1)%Z ∧
    wr_Vertices (warm_file reg now (r, c) (o, p, h)).1 = wr_Vertices r) as (Hc' & Hn & Hv).
  { unfold warm_file. case_decide; [split_and!; [done | simpl; lia | done] |].
    destruct (registry_Get reg o); simpl; split_and!; [| lia | done | done | lia | done].
    by apply justified_Set. }
  destruct (IH _ Hc') as (Hc'' & Hn' & Hv'). split_and!; [done | | by rewrite Hv', Hv]. simpl in *. lia.
Qed.

Lemma warm_vertices_ok reg now ctx n vs s :
  cache_justified f owner path chain s.2 → Forall (Forall current_file) vs →
  let '(r, s') := warm_vertices reg now ctx n vs s in
  cache_justified f owner path chain s'.2 ∧
  (r = Ok tt → (wr_Warmed s'.1 + wr_Skipped s'.1
     = wr_Warmed s.1 + wr_Skipped s.1 + Z.of_nat (length (concat vs)))%Z ∧
     wr_Vertices s'.1 = (wr_Vertices s.1 + Z.of_nat (length vs))%Z).
Proof.
  intros Hc Hvs. revert n s Hc. induction Hvs as [|files vs Hfs Hvs IH]; intros n s Hc; cbn [warm_vertices].
  { split; [done |]. intros _. simpl. lia. }
  destruct (ctx n); [by split |]. destruct s as [r c]. simpl in Hc.
  set (s1 := ({| wr_Warmed := wr_Warmed r; wr_Skipped := wr_Skipped r; wr_Vertices := wr_Vertices r + 1 |}, c)).
  destruct (warm_files_ok reg now files s1 Hc Hfs) as (Hc' & Hn & Hv).
  specialize (IH (S n) _ Hc'). destruct (warm_vertices _ _ _ _ _ _) as [res s']. destruct IH as [Hc'' IH].
  split; [done |]. intros Hr. destruct (IH Hr) as [E1 E2]. cbn [concat length fst snd] in *.
  rewrite length_app. rewrite E1, E2, Hn, Hv. simpl. lia.
Qed.
End warm_ok.

(** Warming is sound.  When the recorded files are current, a cache that only held current
    hashes still does after [Warm] (cancelled or not), so an engine started on it answers as
    one that hashes every file; and without cancellation every recorded file of every vertex
    is counted, as warmed or skipped. *)
Theorem Warm_sound {C : Type} `{HashCacheLaws C} (owner : LayerStack → string → result LayerID)
    (path : LayerID → string → result string) (f : string → result FileHash)
    (chain : LayerID → LayerStack) (reg : LayerRegistry) (now : Z) (ctx : context)
    (p : OCIProvenance) (c : C) :
  cache_justified f owner path chain c →
  Forall (λ v, Forall (λ x, current_file owner path f chain (pf_OwnerLayer x, pf_RelPath x, pf_ContentDigest x))
                (pv_Files v)) (p_Vertices p) →
  let '(r, (w, c')) := Warm reg now ctx p c in
  cache_justified f owner path chain c' ∧
  (r = Ok tt →
    (wr_Warmed w + wr_Skipped w = Z.of_nat (length (concat (pv_Files <$> p_Vertices p))))%Z ∧
    wr_Vertices w = Z.of_nat (length (p_Vertices p))).
Proof.
  intros Hc Hp. unfold Warm. set (vs := (λ v, _ <$> pv_Files v) <$> p_Vertices p).
  assert (Forall (Forall (current_file owner path f chain)) vs) as Hvs.
  { apply Forall_fmap. eapply Forall_impl; [exact Hp |]. intros v Hv. by apply Forall_fmap. }
  pose proof (warm_vertices_ok owner path f chain reg now ctx 0 vs (no_warm, c) Hc Hvs) as Hw.
  destruct (warm_vertices _ _ _ _ _ _) as [r [w c']]. destruct Hw as [Hc' Hw]. split; [done |].
  intros Hr. destruct (Hw Hr) as [E1 E2]. cbn [fst snd no_warm wr_Warmed wr_Skipped wr_Vertices] in E1, E2. rewrite E1, E2. unfold vs. rewrite length_fmap. split; [| lia].
  assert (∀ l : list OCIProvenanceVertex, length (concat ((λ v, (λ x, (pf_OwnerLayer x, pf_RelPath x, pf_ContentDigest x)) <$> pv_Files v) <$> l))
    = length (concat (pv_Files <$> l))) as ->; [| lia].
  induction l as [|v l IH]; [done |]. csimpl. by rewrite !length_app, length_fmap, IH.
Qed.

Lemma Warm_sound_witness :
  let file := {| pf_RelPath := "bin"; pf_ContentDigest := LmDigest.FromString "/l/base/bin";
                 pf_OwnerLayer := "base"; pf_FromCache := false |} in
  let p := provenance_of [{| pv_VertexDigest := "v"; pv_MerkleRoot := "r"; pv_LayerStack := [];
    pv_FinalizedAt := 0; pv_LeafCount := 1; pv_CacheHitRate := 0; pv_Files := [file] |}] in
  let '(r, (w, c')) := Warm sample_registry 1 ctx_background p (NewShardedLRUCache 0) in
  r = Ok tt ∧ (wr_Warmed w, wr_Skipped w) = (1, 0)%Z ∧
  cache_justified (hashFile sample_files) (owner_spec sample_fs sample_registry ctx_background)
    (overlay_path sample_fs sample_registry) sample_chain c'.
Proof.
  intros file p.
  pose proof (Warm_sound (owner_spec sample_fs sample_registry ctx_background)
    (overlay_path sample_fs sample_registry) (hashFile sample_files) sample_chain sample_registry 1
    ctx_background p (NewShardedLRUCache 0)) as Hw.
  destruct (Warm sample_registry 1 ctx_background p (NewShardedLRUCache 0)) as [r [w c']] eqn:E.
  assert (r = Ok tt ∧ (wr_Warmed w, wr_Skipped w) = (1, 0)%Z) as [Hr Hc].
  { apply (f_equal (λ x, (x.1, (wr_Warmed x.2.1, wr_Skipped x.2.1)))) in E. cbn [fst snd] in E.
    vm_compute in E. injection E as <- E1 E2. split; [done |]. f_equal; symmetry; assumption. }
  split_and!; [exact Hr | exact Hc |]. apply Hw.
  - apply sample_engine_ok.
  - repeat constructor.
Defined.
