(* ===== verification/LmWal.v ===== *)
(** * LmWal: [pkg/layermerkle/persistent.go]

    The persistent cache: an in-memory cache and an append-only log of records
    [length; payload].  The file is its bytes and the offset at which the process reads and
    writes; the operating system may cut a write short or fail it, as an environment
    [wal_env] says operation by operation.  The payload encoding is [encoding/gob], a codec
    whose law is that what it encodes it decodes. *)
From S2P Require Import Prelude GoStd Sha256 GoBytes LmLayer LmCache.

(** ** Bytes, files, gob *)



Record os_file := { of_data : list byte; of_off : nat; of_open : bool }.

(** A write of [b] at the offset.  A fault [Some k] lets [k] bytes reach the file and returns
    an error. *)
Definition file_Write (fault : option nat) (b : list byte) (f : os_file) : result unit * os_file :=
  if of_open f then
    let w := match fault with None => b | Some k => take k b end in
    (match fault with None => Ok tt | Some _ => Err (ESentinel "write") end,
     {| of_data := take (of_off f) (of_data f) ++ w ++ drop (of_off f + length w) (of_data f);
        of_off := of_off f + length w; of_open := true |})
  else (Err (ESentinel "file already closed"), f).

(** [io.ReadFull] of [n] bytes; [rd] says at which offsets reading fails. *)
Definition file_ReadFull (rd : nat → option error) (n : nat) (f : os_file) : result (list byte) * os_file :=
  match rd (of_off f) with
  | Some e => (Err e, f)
  | None =>
      let b := take n (drop (of_off f) (of_data f)) in
      (if decide (length b = n) then Ok b
       else match b with [] => Err io_EOF | _ => Err io_ErrUnexpectedEOF end,
       {| of_data := of_data f; of_off := of_off f + length b; of_open := of_open f |})
  end.

Definition file_Seek (off : nat) (f : os_file) : os_file :=
  {| of_data := of_data f; of_off := off; of_open := of_open f |}.

Record walEntry := {
  we_LayerID : string; we_RelPath : string; we_Hash : string; we_Deleted : bool; we_TS : Z;
}.

(** [gob.NewEncoder(&buf).Encode(e)] and [gob.NewDecoder(bytes.NewReader(b)).Decode(&e)] *)
Class GobCodec (A : Type) := {
  gob_Encode : A → result (list byte);
  gob_Decode : list byte → result A;
  gob_law e p : gob_Encode e = Ok p → gob_Decode p = Ok e ∧ p ≠ [];
}.

(** What the operating system does during one operation. *)
Record wal_env := {
  env_now : Z; env_hdr : option nat; env_payload : option nat; env_read : nat → option error;
  env_tmpCreate : option error; env_tmpClose : option error;
  env_sync : option error; env_close : option error;
}.

Definition env_fine (now : Z) : wal_env :=
  {| env_now := now; env_hdr := None; env_payload := None; env_read := λ _, None;
     env_tmpCreate := None; env_tmpClose := None; env_sync := None; env_close := None |}.

(** ** The operations *)

Section wal.
Context `{GobCodec walEntry} {C : Type} `{HashCache C}.

(** [writeWALEntry] *)
Definition writeWALEntry (env : wal_env) (e : walEntry) (f : os_file) : result unit * os_file :=
  match gob_Encode e with
  | Err err => (Err err, f)
  | Ok buf =>
      let lenBuf := le_bytes 4 (u32 (N.of_nat (length buf))) in
      match file_Write (env_hdr env) lenBuf f with
      | (Err err, f) => (Err err, f)
      | (Ok _, f) => file_Write (env_payload env) buf f
      end
  end.

(** The loop of [readWAL].  Each turn that goes on reads at least five bytes, so the length of
    the file bounds their number ([readWAL_fuel]). *)
Fixpoint readWAL_loop (fuel : nat) (rd : nat → option error) (f : os_file)
    (entries : list walEntry) (count : Z) : result (list walEntry * Z) :=
  match fuel with
  | 0 => Ok (entries, count)
  | S fuel =>
      match file_ReadFull rd 4 f with
      | (Err err, _) =>
          if decide (err = io_EOF ∨ err = io_ErrUnexpectedEOF) then Ok (entries, count) else Err err
      | (Ok lenBuf, f) =>
          let entryLen := le_value lenBuf in
          if decide (entryLen = 0 ∨ 2 ^ 20 < entryLen)%N then Ok (entries, count)
          else
            match file_ReadFull rd (N.to_nat entryLen) f with
            | (Err _, _) => Ok (entries, count)
            | (Ok payload, f) =>
                match gob_Decode payload with
                | Err _ => Ok (entries, count)
                | Ok e => readWAL_loop fuel rd f (entries ++ [e]) (count + 1)%Z
                end
            end
      end
  end.

Definition readWAL (rd : nat → option error) (f : os_file) : result (list walEntry * Z) :=
  readWAL_loop (S (length (of_data f))) rd (file_Seek 0 f) [] 0.

Record PersistentHashCache := {
  pc_inner : C;
  pc_walFile : option os_file;
  pc_walPath : string;
  pc_walCount : Z;
  pc_compactAt : Z;
}.

Definition pc_with_inner (c : PersistentHashCache) (inner : C) : PersistentHashCache :=
  {| pc_inner := inner; pc_walFile := pc_walFile c; pc_walPath := pc_walPath c;
     pc_walCount := pc_walCount c; pc_compactAt := pc_compactAt c |}.

Definition pc_with_wal (c : PersistentHashCache) (f : os_file) (n : Z) : PersistentHashCache :=
  {| pc_inner := pc_inner c; pc_walFile := Some f; pc_walPath := pc_walPath c;
     pc_walCount := n; pc_compactAt := pc_compactAt c |}.

(** One entry of the replay loop. *)
Definition replay_entry (now : Z) (inner : C) (e : walEntry) : C :=
  if we_Deleted e then hc_Delete (we_LayerID e) (we_RelPath e) inner
  else hc_Set now (we_LayerID e) (we_RelPath e) (we_Hash e) inner.

(** [openAndReplay], given what [os.OpenFile] found *)
Definition openAndReplay (env : wal_env) (opened : result (list byte)) (c : PersistentHashCache)
    : result PersistentHashCache :=
  match opened with
  | Err err => Err err
  | Ok data =>
      let f := {| of_data := data; of_off := 0; of_open := true |} in
      match readWAL (env_read env) f with
      | Err err => Err (EWrap ["replay WAL"] err)
      | Ok (entries, count) =>
          let c := pc_with_inner c (foldl (replay_entry (env_now env)) (pc_inner c) entries) in
          Ok (pc_with_wal c (file_Seek (length data) f) count)
      end
  end.

(** [compact]: the temporary file is made, closed and removed; the log stays as it is. *)
Definition compact (env : wal_env) (c : PersistentHashCache) : result unit * PersistentHashCache :=
  match env_tmpCreate env with
  | Some err => (Err (EWrap ["persistent cache compact: create tmp"] err), c)
  | None =>
      match env_tmpClose env with
      | Some err => (Err err, c)
      | None =>
          (Ok tt, {| pc_inner := pc_inner c; pc_walFile := pc_walFile c; pc_walPath := pc_walPath c;
                     pc_walCount := 0; pc_compactAt := pc_compactAt c |})
      end
  end.

(** [maybeCompactLocked] *)
Definition maybeCompactLocked (env : wal_env) (c : PersistentHashCache) : PersistentHashCache :=
  if decide (pc_walCount c < pc_compactAt c)%Z then c else (compact env c).2.

(** [appendWAL] *)
Definition appendWAL (env : wal_env) (e : walEntry) (c : PersistentHashCache) : PersistentHashCache :=
  match pc_walFile c with
  | None => c
  | Some f =>
      match writeWALEntry env e f with
      | (Err _, f) => pc_with_wal c f (pc_walCount c)
      | (Ok _, f) => maybeCompactLocked env (pc_with_wal c f (pc_walCount c + 1)%Z)
      end
  end.

Definition set_entry (now : Z) (l : LayerID) (p : string) (h : FileHash) : walEntry :=
  {| we_LayerID := l; we_RelPath := p; we_Hash := h; we_Deleted := false; we_TS := now |}.

Definition delete_entry (now : Z) (l : LayerID) (p : string) : walEntry :=
  {| we_LayerID := l; we_RelPath := p; we_Hash := EmptyString; we_Deleted := true; we_TS := now |}.

Definition pc_Get (now : Z) (l : LayerID) (p : string) (c : PersistentHashCache)
    : option FileHash * PersistentHashCache :=
  let '(h, inner) := hc_Get now l p (pc_inner c) in (h, pc_with_inner c inner).

(** [Set], in its two steps: the in-memory cache, then the log *)
Definition pc_Set_inner (now : Z) (l : LayerID) (p : string) (h : FileHash) (c : PersistentHashCache) :=
  pc_with_inner c (hc_Set now l p h (pc_inner c)).

Definition pc_Set (env : wal_env) (l : LayerID) (p : string) (h : FileHash) (c : PersistentHashCache) :=
  appendWAL env (set_entry (env_now env) l p h) (pc_Set_inner (env_now env) l p h c).

Definition pc_Delete (env : wal_env) (l : LayerID) (p : string) (c : PersistentHashCache) :=
  appendWAL env (delete_entry (env_now env) l p) (pc_with_inner c (hc_Delete l p (pc_inner c))).

Definition pc_DeleteLayer (env : wal_env) (l : LayerID) (c : PersistentHashCache) :=
  maybeCompactLocked env (pc_with_inner c (hc_DeleteLayer l (pc_inner c))).

Definition pc_Close (env : wal_env) (c : PersistentHashCache) : result unit * PersistentHashCache :=
  match pc_walFile c with
  | None => (Ok tt, c)
  | Some f =>
      if of_open f then
        match env_sync env with
        | Some err => (Err (EWrap ["persistent cache: sync WAL"] err), c)
        | None =>
            (match env_close env with Some err => Err err | None => Ok tt end,
             pc_with_wal c {| of_data := of_data f; of_off := of_off f; of_open := false |} (pc_walCount c))
        end
      else (Err (EWrap ["persistent cache: sync WAL"] (ESentinel "file already closed")), c)
  end.
End wal.
Arguments PersistentHashCache _ : clear implicits.

(** [NewPersistentHashCache] *)
Definition NewPersistentHashCache `{GobCodec walEntry, GoRange} (env : wal_env) (opened : result (list byte))
    (walPath : string) (capacity compactionThreshold : Z) : result (PersistentHashCache shardedLRUCache) :=
  let compactionThreshold := if decide (compactionThreshold ≤ 0)%Z then 100000%Z else compactionThreshold in
  match openAndReplay env opened {| pc_inner := NewShardedLRUCache capacity; pc_walFile := None;
          pc_walPath := walPath; pc_walCount := 0; pc_compactAt := compactionThreshold |} with
  | Err err => Err (EWrap ["persistent cache: open"; walPath] err)
  | Ok c => Ok c
  end.

(** ** Reading what was written *)

Section records.
Context `{GobCodec walEntry}.

Notation no_fault := (λ _ : nat, None).

(** The record of an entry *)
Definition wal_record (e : walEntry) : list byte :=
  match gob_Encode e with
  | Ok p => le_bytes 4 (u32 (N.of_nat (length p))) ++ p
  | Err _ => []
  end.

Definition wal_bytes (es : list walEntry) : list byte := concat (wal_record <$> es).

(** The entry encodes, within the limit that [readWAL] accepts. *)
Definition fits (e : walEntry) : Prop :=
  ∃ p, gob_Encode e = Ok p ∧ (N.of_nat (length p) ≤ 2 ^ 20)%N.

Lemma fits_record e : fits e →
  ∃ p, wal_record e = le_bytes 4 (N.of_nat (length p)) ++ p ∧ gob_Decode p = Ok e ∧
    (0 < N.of_nat (length p) ≤ 2 ^ 20)%N.
Proof.
  intros (p & Hp & Hl). exists p. unfold wal_record. rewrite Hp. destruct (gob_law e p Hp) as [Hd Hn].
  unfold u32. rewrite N.mod_small by lia. split_and!; [done | done | | done].
  destruct p; [done | simpl; lia].
Qed.

Lemma ReadFull_app n f b rest :
  drop (of_off f) (of_data f) = b ++ rest → length b = n →
  file_ReadFull no_fault n f =
    (Ok b, {| of_data := of_data f; of_off := of_off f + n; of_open := of_open f |}).
Proof.
  intros Hd <-. unfold file_ReadFull. rewrite Hd, take_app_length. by rewrite decide_True by done.
Qed.

(** A whole record is read and the loop goes on behind it. *)
Lemma loop_record fuel f e rest es n :
  fits e → drop (of_off f) (of_data f) = wal_record e ++ rest →
  readWAL_loop (S fuel) no_fault f es n =
  readWAL_loop fuel no_fault
    {| of_data := of_data f; of_off := of_off f + length (wal_record e); of_open := of_open f |} (es ++ [e]) (n + 1).
Proof.
  intros (p & Hr & Hd & Hl)%fits_record Hf. rewrite Hr in Hf |- *. cbn [readWAL_loop].
  rewrite <- app_assoc in Hf. rewrite (ReadFull_app 4 f _ _ Hf) by apply le_bytes_length.
  rewrite le_value_bytes by (simpl; lia).
  rewrite decide_False by lia. rewrite Nat2N.id.
  erewrite (ReadFull_app (length p) _ p rest); [| | done].
  - rewrite Hd. cbn [of_data of_off of_open]. by rewrite length_app, le_bytes_length, Nat.add_assoc.
  - cbn [of_data of_off]. rewrite <- drop_drop, Hf.
    apply drop_app_length'. by rewrite le_bytes_length.
Qed.

Lemma loop_short_header fuel f es n :
  length (drop (of_off f) (of_data f)) < 4 → readWAL_loop fuel no_fault f es n = Ok (es, n).
Proof.
  intros Hl. destruct fuel as [|fuel]; [done |]. cbn [readWAL_loop]. unfold file_ReadFull at 1.
  rewrite take_ge by lia. rewrite decide_False by lia.
  destruct (drop _ _); rewrite decide_True by auto; done.
Qed.

(** A header that announces more than is left ends the replay. *)
Lemma loop_short_payload fuel f es n hdr rest :
  drop (of_off f) (of_data f) = hdr ++ rest → length hdr = 4 → (N.of_nat (length rest) < le_value hdr)%N →
  readWAL_loop fuel no_fault f es n = Ok (es, n).
Proof.
  intros Hf Hh Hl. destruct fuel as [|fuel]; [done |]. cbn [readWAL_loop].
  rewrite (ReadFull_app 4 f _ _ Hf Hh). case_decide; [done |].
  unfold file_ReadFull. cbn [of_data of_off]. rewrite <- drop_drop, Hf.
  rewrite (drop_app_length' hdr rest 4) by done. rewrite take_ge by lia. rewrite decide_False by lia.
  by destruct rest.
Qed.

(** A record cut short ends the replay. *)
Lemma loop_partial fuel f e k es n :
  fits e → drop (of_off f) (of_data f) = take k (wal_record e) → k < length (wal_record e) →
  readWAL_loop fuel no_fault f es n = Ok (es, n).
Proof.
  intros (p & Hr & Hd & Hl)%fits_record Hf Hk. rewrite Hr in Hf, Hk.
  rewrite length_app, le_bytes_length in Hk. destruct (decide (k < 4)) as [H4|H4].
  { apply loop_short_header. rewrite Hf, length_take. lia. }
  rewrite take_app, le_bytes_length, (take_ge (le_bytes _ _)) in Hf by (rewrite le_bytes_length; lia).
  apply (loop_short_payload _ _ _ _ _ _ Hf); [apply le_bytes_length |].
  rewrite le_value_bytes by (simpl; lia). rewrite length_take. lia.
Qed.

Lemma record_length e : fits e → 4 < length (wal_record e).
Proof.
  intros (p & -> & _ & Hp)%fits_record. rewrite length_app, le_bytes_length. lia.
Qed.

(** The loop over whole records followed by anything: it consumes the records. *)
Lemma loop_records fuel f l rest es n :
  Forall fits l → drop (of_off f) (of_data f) = wal_bytes l ++ rest → length l ≤ fuel →
  readWAL_loop fuel no_fault f es n =
  readWAL_loop (fuel - length l) no_fault
    {| of_data := of_data f; of_off := of_off f + length (wal_bytes l); of_open := of_open f |}
    (es ++ l) (n + Z.of_nat (length l)).
Proof.
  intros Hl. revert fuel f es n. induction Hl as [|e l He Hl IH]; intros fuel f es n Hf Hfuel.
  { simpl. rewrite Nat.sub_0_r, Nat.add_0_r, Z.add_0_r, app_nil_r. by destruct f. }
  destruct fuel as [|fuel]; [simpl in Hfuel; lia |].
  unfold wal_bytes in Hf. csimpl in Hf. rewrite <- app_assoc in Hf.
  rewrite (loop_record _ _ _ _ _ _ He Hf). rewrite IH; cbn [of_data of_off of_open length].
  - cbn [Nat.sub]. rewrite <- app_assoc. unfold wal_bytes. csimpl.
    rewrite length_app, Nat.add_assoc, Nat2Z.inj_succ, <- Z.add_1_l, Z.add_assoc. done.
  - rewrite <- drop_drop, Hf. by rewrite drop_app_length.
  - simpl in Hfuel. lia.
Qed.

Lemma wal_bytes_app l1 l2 : wal_bytes (l1 ++ l2) = wal_bytes l1 ++ wal_bytes l2.
Proof. unfold wal_bytes. by rewrite fmap_app, concat_app. Qed.

Lemma wal_bytes_ge l : Forall fits l → length l ≤ length (wal_bytes l).
Proof.
  induction 1 as [|e l He Hl IH]; [done |]. unfold wal_bytes in *. csimpl. rewrite length_app.
  apply record_length in He. lia.
Qed.

(** Whole records, then a tail at which the loop stops. *)
Lemma readWAL_records l rest off op :
  Forall fits l →
  (∀ fuel f es n, drop (of_off f) (of_data f) = rest → readWAL_loop fuel no_fault f es n = Ok (es, n)) →
  readWAL no_fault {| of_data := wal_bytes l ++ rest; of_off := off; of_open := op |}
  = Ok (l, Z.of_nat (length l)).
Proof.
  intros Hl Hrest. unfold readWAL, file_Seek. cbn [of_data of_open].
  rewrite (loop_records _ _ l rest); [| done | done |].
  - cbn [of_data of_off of_open]. apply Hrest. cbn [of_data of_off]. by apply drop_app_length'.
  - rewrite length_app. pose proof (wal_bytes_ge l Hl). lia.
Qed.
End records.

(** ** Recovery *)

Section recovery.
Context `{GobCodec walEntry}.

(** C10: recovery after a crash.  When a log of records is cut at any byte, replay gives exactly
    the records that are whole before the cut, in order, and no error; an uncut log gives
    all. *)
Theorem wal_recovers_prefix (es : list walEntry) (n : nat) :
  Forall fits es →
  ∃ m, readWAL (λ _, None) {| of_data := take n (wal_bytes es); of_off := 0; of_open := true |}
         = Ok (take m es, Z.of_nat (length (take m es))) ∧
    length (wal_bytes (take m es)) ≤ n ∧
    (m = length es ∨ m < length es ∧ n < length (wal_bytes (take (S m) es))).
Proof.
  intros Hes.
  assert (∃ l e k, take n (wal_bytes es) = wal_bytes l ++ take k (default [] (wal_record <$> e)) ∧
    length (wal_bytes l) ≤ n ∧ l `prefix_of` es ∧
    match e with
    | None => l = es
    | Some e => es !! length l = Some e ∧ k < length (wal_record e) ∧
        n < length (wal_bytes (l ++ [e]))
    end) as (l & e & k & Ht & Hn & [l' Hp] & He).
  { clear Hes. revert n. induction es as [|e es IH]; intros n.
    { exists [], None, 0. split_and!; [unfold wal_bytes; simpl; by rewrite take_nil | simpl; lia | done | done]. }
    unfold wal_bytes in *. csimpl. destruct (decide (n < length (wal_record e))) as [Hlt|Hge].
    - exists [], (Some e), n. simpl. rewrite take_app_le by lia. split_and!; try done; [lia | by exists (e :: es) |].
      rewrite app_nil_r. lia.
    - destruct (IH (n - length (wal_record e))) as (l & e' & k & Ht & Hn & [l' Hp] & He).
      exists (e :: l), e', k. csimpl. rewrite length_app, take_app_ge, Ht, app_assoc by lia.
      split_and!; [done | lia | exists l'; by rewrite Hp |]. destruct e' as [e'|]; [| by rewrite He].
      destruct He as (? & ? & Hlt). split_and!; [done .. |]. rewrite length_app. lia. }
  exists (length l). subst es. rewrite take_app_length. rewrite Ht. apply Forall_app in Hes as [Hl Hl'].
  split; [| split; [done |]].
  - apply readWAL_records; [done |]. intros fuel f es n' Hf. destruct e as [e|]; simpl in Hf.
    + destruct He as (He & Hk & _). apply (loop_partial _ _ e k); [| done | done].
      rewrite lookup_app_r, Nat.sub_diag in He by lia. destruct l'; [done |]. simplify_eq/=. by inversion Hl'.
    + apply loop_short_header. rewrite Hf, length_take. simpl. lia.
  - destruct e as [e|].
    + right. destruct He as (He & _ & Hlt). rewrite lookup_app_r, Nat.sub_diag in He by lia.
      destruct l' as [|x l']; [done |]. simplify_eq/=. rewrite length_app. split; [simpl; lia |].
      replace (S (length l)) with (length (l ++ [e])) by (rewrite length_app; simpl; lia).
      by rewrite (cons_middle e l l'), app_assoc, take_app_length.
    + left. by rewrite He at 1.
Qed.

(** A record cut in its header hides the next one.  When only the first byte of a record
    reached the file and the process goes on, the record appended behind it is lost to every
    later replay, although its own write succeeded: nothing truncates the torn tail. *)
Theorem wal_torn_header (es : list walEntry) (e e' : walEntry) :
  Forall fits es → fits e → fits e' → length (wal_record e') < 260 →
  readWAL (λ _, None) {| of_data := wal_bytes es ++ take 1 (wal_record e) ++ wal_record e';
                         of_off := 0; of_open := true |}
  = Ok (es, Z.of_nat (length es)).
Proof.
  intros Hes He He' Hlen. apply readWAL_records; [done |]. intros fuel f es' n Hf.
  apply fits_record in He as (p & Hp & _ & Hl), He' as (p' & Hp' & _ & Hl').
  rewrite Hp, Hp' in Hf. rewrite Hp', length_app, le_bytes_length in Hlen.
  remember (N.of_nat (length p')) as k eqn:Ek. destruct p' as [|b p']; [simpl in *; lia |].
  cbn [le_bytes take app] in Hf.
  assert (k < 256)%N as Hk by lia.
  rewrite (N.div_small k 256) in Hf by done.
  change (byte_of_N (0 / 256)) with x00 in Hf. change (byte_of_N (0 / 256 / 256)) with x00 in Hf.
  change (byte_of_N 0) with x00 in Hf.
  apply (loop_short_payload _ _ _ _ [byte_of_N (N.of_nat (length p)); byte_of_N k; x00; x00] (x00 :: b :: p') Hf);
    [done |].
  cbn [le_value]. rewrite !byte_of_N_to, (N.mod_small k) by done.
  change (Byte.to_N x00) with 0%N. cbn [length] in *. generalize (N.of_nat (length p) mod 256)%N. lia.
Qed.
End recovery.

(** ** Runs of a persistent cache *)

Inductive pc_op :=
  | PGet (l : LayerID) (p : string)
  | PSet (l : LayerID) (p : string) (h : FileHash)
  | PDelete (l : LayerID) (p : string)
  | PDeleteLayer (l : LayerID).

Section runs.
Context `{GobCodec walEntry} {C : Type} `{HashCache C}.

Definition pc_do (c : PersistentHashCache C) (eo : wal_env * pc_op) : PersistentHashCache C :=
  match eo.2 with
  | PGet l p => (pc_Get (env_now eo.1) l p c).2
  | PSet l p h => pc_Set eo.1 l p h c
  | PDelete l p => pc_Delete eo.1 l p c
  | PDeleteLayer l => pc_DeleteLayer eo.1 l c
  end.

Definition pc_run (ops : list (wal_env * pc_op)) (c : PersistentHashCache C) : PersistentHashCache C :=
  foldl pc_do c ops.

(** The entry an operation logs, and the cache operation that its replay does. *)
Definition op_entry (eo : wal_env * pc_op) : option walEntry :=
  match eo.2 with
  | PSet l p h => Some (set_entry (env_now eo.1) l p h)
  | PDelete l p => Some (delete_entry (env_now eo.1) l p)
  | PGet _ _ | PDeleteLayer _ => None
  end.

Definition op_replay (now : Z) (eo : wal_env * pc_op) : option cache_op :=
  match eo.2 with
  | PSet l p h => Some (OpSet now l p h)
  | PDelete l p => Some (OpDelete l p)
  | PGet _ _ | PDeleteLayer _ => None
  end.

(** The log of an open cache: its bytes, with the offset at their end. *)
Definition wal_at (c : PersistentHashCache C) (data : list byte) : Prop :=
  pc_walFile c = Some {| of_data := data; of_off := length data; of_open := true |}.

Definition writes_ok (env : wal_env) : Prop := env_hdr env = None ∧ env_payload env = None.

Lemma file_append data b f :
  f = {| of_data := data; of_off := length data; of_open := true |} →
  file_Write None b f = (Ok tt, {| of_data := data ++ b; of_off := length (data ++ b); of_open := true |}).
Proof.
  intros ->. unfold file_Write. cbn [of_open of_data of_off].
  by rewrite take_ge, (drop_ge data), app_nil_r, length_app by lia.
Qed.

Lemma compact_wal env c data : wal_at c data → wal_at (compact env c).2 data.
Proof. unfold compact, wal_at. destruct (env_tmpCreate env), (env_tmpClose env); done. Qed.

Lemma maybeCompact_wal env (c : PersistentHashCache C) data :
  wal_at c data → wal_at (maybeCompactLocked env c) data.
Proof. unfold maybeCompactLocked. case_decide; [done |]. apply compact_wal. Qed.

Lemma maybeCompact_inner env (c : PersistentHashCache C) :
  pc_inner (maybeCompactLocked env c) = pc_inner c.
Proof.
  unfold maybeCompactLocked, compact. case_decide; [done |].
  by destruct (env_tmpCreate env), (env_tmpClose env).
Qed.

Lemma appendWAL_inner env e (c : PersistentHashCache C) : pc_inner (appendWAL env e c) = pc_inner c.
Proof.
  unfold appendWAL. destruct (pc_walFile c) as [f|]; [| done].
  destruct (writeWALEntry env e f) as [[?|?] f']; [| done]. by rewrite maybeCompact_inner.
Qed.

Lemma appendWAL_wal env e (c : PersistentHashCache C) data :
  wal_at c data → writes_ok env → fits e → wal_at (appendWAL env e c) (data ++ wal_record e).
Proof.
  intros Hf [Hh Hp] (p & He & Hl). unfold appendWAL, writeWALEntry, wal_record. rewrite Hf, He, Hh, Hp.
  rewrite (file_append data) by done. rewrite (file_append (data ++ _)) by done.
  rewrite <- app_assoc. by apply maybeCompact_wal.
Qed.

Lemma run_wal c data ops :
  wal_at c data → Forall (λ eo, writes_ok eo.1) ops → Forall fits (omap op_entry ops) →
  wal_at (pc_run ops c) (data ++ wal_bytes (omap op_entry ops)).
Proof.
  intros Hc Hok. revert c data Hc. unfold pc_run.
  induction Hok as [|[env op] ops Ho Hok IH]; intros c data Hc Hfit.
  { unfold wal_bytes. simpl. by rewrite app_nil_r. }
  unfold wal_bytes in *. cbn [foldl]. destruct op as [l p|l p h|l p|l]; csimpl in *.
  - apply IH; [| done]. unfold pc_do, pc_Get. simpl. by destruct (hc_Get _ _ _ _).
  - apply Forall_cons in Hfit as [He Hfit]. rewrite app_assoc. apply IH; [| done].
    by apply appendWAL_wal.
  - apply Forall_cons in Hfit as [He Hfit]. rewrite app_assoc. apply IH; [| done].
    by apply appendWAL_wal.
  - apply IH; [| done]. by apply maybeCompact_wal.
Qed.

Lemma replay_ops now (inner : C) ops :
  foldl (replay_entry now) inner (omap op_entry ops) = cache_run (omap (op_replay now) ops) inner.
Proof.
  revert inner. induction ops as [|[env op] ops IH]; intros inner; [done |].
  destruct op; csimpl; apply IH.
Qed.
End runs.

Lemma openAndReplay_ok `{GobCodec walEntry} {C : Type} `{HashCache C} env es (c : PersistentHashCache C) :
  Forall fits es → env_read env = (λ _, None) →
  ∃ c', openAndReplay env (Ok (wal_bytes es)) c = Ok c' ∧
    pc_inner c' = foldl (replay_entry (env_now env)) (pc_inner c) es ∧ wal_at c' (wal_bytes es).
Proof.
  intros Hes Hrd. unfold openAndReplay. rewrite Hrd.
  assert (readWAL (λ _, None) {| of_data := wal_bytes es; of_off := 0; of_open := true |}
    = Ok (es, Z.of_nat (length es))) as ->.
  { rewrite <- (app_nil_r (wal_bytes es)). apply readWAL_records; [done |].
    intros fuel f es' n Hf. apply loop_short_header. rewrite Hf. simpl. lia. }
  eexists. split_and!; [done | done | done].
Qed.

Lemma New_ok `{GobCodec walEntry, GoRange} env es path cap thr :
  Forall fits es → env_read env = (λ _, None) →
  ∃ c, NewPersistentHashCache env (Ok (wal_bytes es)) path cap thr = Ok c ∧
    pc_inner c = foldl (replay_entry (env_now env)) (NewShardedLRUCache cap) es ∧ wal_at c (wal_bytes es).
Proof.
  intros Hes Hrd. unfold NewPersistentHashCache.
  set (c0 := {| pc_inner := NewShardedLRUCache cap |}).
  destruct (openAndReplay_ok env es c0 Hes Hrd) as (c & -> & Hi & Hw). by exists c.
Qed.

(** C9: a restart keeps what was set and deleted.  A cache is opened on a new file, used (with
    any operations, compactions included, as long as no write fails), and opened again on what
    is in the file: the new cache is an empty one on which the same [Set]s and [Delete]s were
    done in the same order, so that a hash it returns is the one last [Set] for that file and
    not [Delete]d since. *)
Theorem wal_restart `{GobCodec walEntry, GoRange} (env env' : wal_env) (path : string)
    (cap cap' thr thr' : Z) (ops : list (wal_env * pc_op)) :
  env_read env = (λ _, None) → env_read env' = (λ _, None) →
  Forall (λ eo, writes_ok eo.1) ops → Forall fits (omap op_entry ops) →
  ∃ c c' f,
    NewPersistentHashCache env (Ok []) path cap thr = Ok c ∧
    pc_walFile (pc_run ops c) = Some f ∧
    NewPersistentHashCache env' (Ok (of_data f)) path cap' thr' = Ok c' ∧
    pc_inner c' = cache_run (omap (op_replay (env_now env')) ops) (NewShardedLRUCache cap') ∧
    ∀ now l p h, (pc_Get now l p c').1 = Some h →
      ∃ t, last_set (omap (op_replay (env_now env')) ops) !! key_of l p = Some (t, h).
Proof.
  intros Hr Hr' Hok Hfit.
  destruct (New_ok env [] path cap thr) as (c & Hc & _ & Hw); [done | done |].
  destruct (New_ok env' (omap op_entry ops) path cap' thr' Hfit Hr') as (c' & Hc' & Hi & _).
  rewrite replay_ops in Hi. eexists c, c', _. split_and!.
  - exact Hc.
  - exact (run_wal c _ ops Hw Hok Hfit).
  - exact Hc'.
  - done.
  - intros now l p h. unfold pc_Get. rewrite Hi.
    destruct (hc_Get now l p (cache_run _ _)) as [res inner] eqn:Hg. simpl. intros ->.
    destruct (@view_in_history _ shardedLRU_cache shardedLRU_laws (omap (op_replay (env_now env')) ops) (NewShardedLRUCache cap') (New_wf _)
      (New_view_empty _)) as [Hinv Hv].
    apply Hv, (@hc_Get_sound _ _ shardedLRU_laws now l p); [done |]. by rewrite Hg.
Qed.

Lemma slc_Set_Get now l p h c : slc_wf c → (slc_Get l p (slc_Set now l p h c)).1 = Some h.
Proof.
  intros Hwf. destruct (slc_Set_local c Hwf l p now h) as (Hw & _ & Href).
  rewrite (proj1 (slc_Get_local _ Hw l p)), Href, decide_True by done.
  assert (∀ r cap, ref_lookup (key_of l p) (ref_set cap (key_of l p) h r) = Some h) as E.
  { intros r cap. unfold ref_set, ref_lookup. destruct (list_find _ r); cbn; by rewrite decide_True. }
  unfold ref_get. by rewrite E.
Qed.

(** The steps of the two theorems below, from a cache opened on a new file: the log after
    [Set], and the hash that a restart on a log ending with a [Set] gives. *)
Lemma restart_last_set `{GobCodec walEntry, GoRange} env path cap thr es t l p h c' now :
  env_read env = (λ _, None) → Forall fits (es ++ [set_entry t l p h]) →
  NewPersistentHashCache env (Ok (wal_bytes (es ++ [set_entry t l p h]))) path cap thr = Ok c' →
  (pc_Get now l p c').1 = Some h.
Proof.
  intros Hr Hfit Hc'. destruct (New_ok env _ path cap thr Hfit Hr) as (c2 & Hc2 & Hi & _).
  rewrite Hc2 in Hc'. injection Hc' as <-. unfold pc_Get. rewrite Hi, foldl_app. cbn [foldl].
  set (c3 := foldl _ _ es). assert (slc_wf c3) as Hwf.
  { subst c3. assert (slc_wf (NewShardedLRUCache cap)) as H1 by apply New_wf. revert H1.
    clear. generalize (NewShardedLRUCache cap). induction es as [|e es IH]; intros c Hc; [done |]. cbn [foldl].
    apply IH. unfold replay_entry. destruct (we_Deleted e); [by apply slc_Delete_local | by apply slc_Set_local]. }
  unfold replay_entry at 1. simpl.
  pose proof (slc_Set_Get (env_now env) l p h c3 Hwf) as Hg. by destruct (slc_Get _ _ _).
Qed.

(** Deleting a layer is forgotten by a restart.  [DeleteLayer] logs nothing and the
    compaction it asks for rewrites nothing: the memory no longer has the file, the log still
    has it, and the cache opened next answers with the deleted hash. *)
Theorem wal_DeleteLayer_undone `{GobCodec walEntry, GoRange} (env : wal_env) (path : string)
    (cap thr : Z) (l : LayerID) (p : string) (h : FileHash) :
  env_read env = (λ _, None) → writes_ok env → fits (set_entry (env_now env) l p h) →
  ∃ c c' f,
    NewPersistentHashCache env (Ok []) path cap thr = Ok c ∧
    let c1 := (compact env (pc_DeleteLayer env l (pc_Set env l p h c))).2 in
    (pc_Get (env_now env) l p c1).1 = None ∧
    pc_walFile c1 = Some f ∧
    NewPersistentHashCache env (Ok (of_data f)) path cap thr = Ok c' ∧
    (pc_Get (env_now env) l p c').1 = Some h.
Proof.
  intros Hr Hok Hfit. destruct (New_ok env [] path cap thr) as (c & Hc & Hi & Hw); [done | done |].
  set (es := [] ++ [set_entry (env_now env) l p h]).
  assert (Forall fits es) as Hes by (by constructor).
  destruct (New_ok env es path cap thr Hes Hr) as (c' & Hc' & _ & _).
  assert (wal_at (pc_Set env l p h c) (wal_bytes es)) as Hw1.
  { unfold es. rewrite wal_bytes_app. unfold wal_bytes at 2. csimpl. rewrite app_nil_r.
    apply (appendWAL_wal _ _ _ (wal_bytes [])); done. }
  eexists c, c', _. split; [exact Hc |]. split_and!.
  - unfold pc_Get.
    assert (pc_inner (compact env (pc_DeleteLayer env l (pc_Set env l p h c))).2 =
      slc_DeleteLayer l (slc_Set (env_now env) l p h (pc_inner c))) as ->.
    { unfold compact. destruct (env_tmpCreate env), (env_tmpClose env); cbn [snd];
        cbn [pc_inner]; unfold pc_DeleteLayer; rewrite maybeCompact_inner;
        cbn [pc_inner pc_with_inner]; unfold pc_Set; by rewrite appendWAL_inner. }
    assert (slc_wf (slc_Set (env_now env) l p h (pc_inner c))) as Hwf.
    { rewrite Hi. simpl. apply slc_Set_local, New_wf. }
    destruct (hc_Get _ l p _) as [[x|] inner] eqn:Hg; [| done].
    assert (slc_view (slc_DeleteLayer l (slc_Set (env_now env) l p h (pc_inner c))) (key_of l p) = Some x) as Hv.
    { apply (@hc_Get_sound _ _ shardedLRU_laws (env_now env) l p);
        [by apply (@hc_DeleteLayer_inv _ _ shardedLRU_laws l) | by rewrite Hg]. }
    by apply (@hc_DeleteLayer_view _ _ shardedLRU_laws l _ (key_of l p)) in Hv as [Hne _].
  - apply compact_wal, maybeCompact_wal. exact Hw1.
  - exact Hc'.
  - exact (restart_last_set env path cap thr [] (env_now env) l p h c' _ Hr Hes Hc').
Qed.

(** Two goroutines that [Set] one file leave memory and log in different orders.  The
    in-memory update and the append are two steps, and only the append is under the mutex:
    after the steps memory 1, memory 2, log 2, log 1 the cache answers the second hash, and the
    cache opened next answers the first. *)
Theorem wal_set_race `{GobCodec walEntry, GoRange} (env : wal_env) (path : string) (cap thr : Z)
    (l : LayerID) (p : string) (h1 h2 : FileHash) :
  env_read env = (λ _, None) → writes_ok env →
  fits (set_entry (env_now env) l p h1) → fits (set_entry (env_now env) l p h2) →
  ∃ c c' f,
    NewPersistentHashCache env (Ok []) path cap thr = Ok c ∧
    let c1 := pc_Set_inner (env_now env) l p h2 (pc_Set_inner (env_now env) l p h1 c) in
    let c2 := appendWAL env (set_entry (env_now env) l p h1)
                (appendWAL env (set_entry (env_now env) l p h2) c1) in
    (pc_Get (env_now env) l p c2).1 = Some h2 ∧
    pc_walFile c2 = Some f ∧
    NewPersistentHashCache env (Ok (of_data f)) path cap thr = Ok c' ∧
    (pc_Get (env_now env) l p c').1 = Some h1.
Proof.
  intros Hr Hok Hf1 Hf2. destruct (New_ok env [] path cap thr) as (c & Hc & Hi & Hw); [done | done |].
  set (es := [set_entry (env_now env) l p h2] ++ [set_entry (env_now env) l p h1]).
  assert (Forall fits es) as Hes by (by repeat constructor).
  destruct (New_ok env es path cap thr Hes Hr) as (c' & Hc' & _ & _).
  eexists c, c', _. split; [exact Hc |]. split_and!.
  - unfold pc_Get. rewrite !appendWAL_inner. cbn [pc_inner pc_Set_inner pc_with_inner]. rewrite Hi.
    cbn [foldl]. pose proof (slc_Set_Get (env_now env) l p h2 (slc_Set (env_now env) l p h1 (NewShardedLRUCache cap))) as Hg.
    destruct (hc_Get _ l p _) as [x inner] eqn:E. simpl in E. rewrite E in Hg. apply Hg. apply slc_Set_local, New_wf.
  - apply (appendWAL_wal _ _ _ (wal_bytes [set_entry (env_now env) l p h2])); [| done | done].
    unfold wal_bytes. csimpl. rewrite app_nil_r. apply (appendWAL_wal _ _ _ (wal_bytes [])); done.
  - unfold es in Hc'. rewrite wal_bytes_app in Hc'. unfold wal_bytes at 2 in Hc'. csimpl in Hc'.
    rewrite app_nil_r in Hc'. exact Hc'.
  - exact (restart_last_set env path cap thr [_] (env_now env) l p h1 c' _ Hr Hes Hc').
Qed.

(** ** Witnesses, with a codec that writes the bits of stdpp's encoding of an entry *)

#[export] Instance walEntry_eq_dec : EqDecision walEntry.
Proof. solve_decision. Defined.

#[export] Instance walEntry_countable : Countable walEntry.
Proof.
  by apply (inj_countable' (λ e, (we_LayerID e, we_RelPath e, we_Hash e, we_Deleted e, we_TS e))
    (λ x, let '(l, p, h, d, t) := x in
      {| we_LayerID := l; we_RelPath := p; we_Hash := h; we_Deleted := d; we_TS := t |})); intros [].
Defined.

Fixpoint pos_bytes (p : positive) : list byte :=
  match p with xH => [x01] | xO p => x02 :: pos_bytes p | xI p => x03 :: pos_bytes p end.

Fixpoint bytes_pos (b : list byte) : option positive :=
  match b with
  | [x01] => Some xH
  | x02 :: b => xO <$> bytes_pos b
  | x03 :: b => xI <$> bytes_pos b
  | _ => None
  end.

Lemma bytes_pos_bytes p : bytes_pos (pos_bytes p) = Some p.
Proof. induction p as [p IH|p IH|]; simpl; [by rewrite IH | by rewrite IH | done]. Qed.

#[export] Instance sample_codec : GobCodec walEntry.
Proof.
  refine {| gob_Encode e := Ok (pos_bytes (encode e));
            gob_Decode b := match bytes_pos b ≫= decode with Some e => Ok e | None => Err (ESentinel "gob") end |}.
  intros e p [= <-]. rewrite bytes_pos_bytes. simpl. rewrite decode_encode. split; [done |].
  by destruct (encode e).
Defined.

Lemma fits_sample e : (N.of_nat (length (pos_bytes (encode e))) <=? 2 ^ 20)%N = true → fits e.
Proof. intros He%N.leb_le. by exists (pos_bytes (encode e)). Qed.

Definition sample_entries : list walEntry :=
  [set_entry 1 "base" "etc/hosts" "h1"; delete_entry 2 "base" "etc/hosts"; set_entry 3 "top" "bin" "h2"].

Lemma sample_entries_fit : Forall fits sample_entries.
Proof. repeat constructor; apply fits_sample; vm_compute; reflexivity. Qed.

Lemma wal_recovers_prefix_witness :
  let n := length (wal_bytes sample_entries) - 1 in
  readWAL (λ _, None) {| of_data := take n (wal_bytes sample_entries); of_off := 0; of_open := true |}
  = Ok (take 2 sample_entries, 2%Z).
Proof.
  intros n. destruct (wal_recovers_prefix sample_entries n sample_entries_fit) as (m & Hm & Hn & Hmax).
  assert (m = 2) as ->; [| exact Hm]. destruct Hmax as [->|[Hlt Hmax]].
  - exfalso. revert Hn. apply Nat.lt_nge. vm_compute. repeat constructor.
  - destruct m as [|[|[|m]]]; [| | done | simpl in Hlt; lia]; exfalso; revert Hmax; apply Nat.le_ngt;
      apply Nat.leb_le; vm_compute; reflexivity.
Defined.

Lemma wal_torn_header_witness :
  let e := set_entry 4 "top" "lib" "h3" in
  let e' := set_entry 5 "t" "l" "h" in
  readWAL (λ _, None) {| of_data := wal_bytes sample_entries ++ take 1 (wal_record e) ++ wal_record e';
                         of_off := 0; of_open := true |} = Ok (sample_entries, 3%Z).
Proof.
  apply (wal_torn_header sample_entries (set_entry 4 "top" "lib" "h3") (set_entry 5 "t" "l" "h")).
  - apply sample_entries_fit.
  - apply fits_sample. vm_compute. reflexivity.
  - apply fits_sample. vm_compute. reflexivity.
  - apply Nat.ltb_lt. vm_compute. reflexivity.
Defined.

Definition sample_pc_ops : list (wal_env * pc_op) :=
  [(env_fine 1, PSet "base" "etc/hosts" "h1"); (env_fine 2, PGet "base" "etc/hosts");
   (env_fine 3, PDelete "base" "etc/hosts"); (env_fine 4, PSet "base" "etc/hosts" "h2")].

Lemma wal_restart_witness :
  ∃ c c' f,
    NewPersistentHashCache (env_fine 0) (Ok []) "/wal" 512 2 = Ok c ∧
    pc_walFile (pc_run sample_pc_ops c) = Some f ∧
    NewPersistentHashCache (env_fine 9) (Ok (of_data f)) "/wal" 512 2 = Ok c' ∧
    (pc_Get 9 "base" "etc/hosts" c').1 = Some "h2".
Proof.
  destruct (wal_restart (env_fine 0) (env_fine 9) "/wal" 512 512 2 2 sample_pc_ops)
    as (c & c' & f & Hc & Hf & Hc' & Hi & _).
  - done.
  - done.
  - by repeat constructor.
  - repeat constructor; apply fits_sample; vm_compute; reflexivity.
  - exists c, c', f. split_and!; [exact Hc | exact Hf | exact Hc' |]. unfold pc_Get. rewrite Hi.
    vm_compute. reflexivity.
Defined.

Lemma wal_DeleteLayer_undone_witness :
  ∃ c c' f,
    NewPersistentHashCache (env_fine 0) (Ok []) "/wal" 512 1 = Ok c ∧
    let c1 := (compact (env_fine 0) (pc_DeleteLayer (env_fine 0) "base" (pc_Set (env_fine 0) "base" "bin" "h1" c))).2 in
    (pc_Get 0 "base" "bin" c1).1 = None ∧ pc_walFile c1 = Some f ∧
    NewPersistentHashCache (env_fine 0) (Ok (of_data f)) "/wal" 512 1 = Ok c' ∧
    (pc_Get 0 "base" "bin" c').1 = Some "h1".
Proof.
  apply (wal_DeleteLayer_undone (env_fine 0) "/wal" 512 1 "base" "bin" "h1");
    [done | done | apply fits_sample; vm_compute; reflexivity].
Defined.

Lemma wal_set_race_witness :
  ∃ c c' f,
    NewPersistentHashCache (env_fine 0) (Ok []) "/wal" 512 0 = Ok c ∧
    let c1 := pc_Set_inner 0 "base" "bin" "h2" (pc_Set_inner 0 "base" "bin" "h1" c) in
    let c2 := appendWAL (env_fine 0) (set_entry 0 "base" "bin" "h1")
                (appendWAL (env_fine 0) (set_entry 0 "base" "bin" "h2") c1) in
    (pc_Get 0 "base" "bin" c2).1 = Some "h2" ∧ pc_walFile c2 = Some f ∧
    NewPersistentHashCache (env_fine 0) (Ok (of_data f)) "/wal" 512 0 = Ok c' ∧
    (pc_Get 0 "base" "bin" c').1 = Some "h1".
Proof.
  apply (wal_set_race (env_fine 0) "/wal" 512 0 "base" "bin" "h1" "h2");
    [done | done | apply fits_sample; vm_compute; reflexivity ..].
Defined.
