(* ===== verification/LmEngine.v ===== *)
(** * LmEngine: [pkg/layermerkle/engine.go], [batch.go] and the submitting half of [adapter.go]

    The engine's goroutines as a labelled step function: callers of [Start], [Stop] and
    [Submit], the dispatch loop and the workers.  Every action is one atomic step of one
    goroutine, chosen by the scheduler; what the contexts say is chosen with it.  [Submit] has
    two steps, since it reads the state under the mutex and sends after releasing it.  Each
    [Start] makes a channel and a semaphore, named by their number.  Processing an event is a
    call of [Process] of the processor that runs beside the others: a thread of type [T] that
    makes its steps on the shared state [P], and may have to wait for another one ([LmWorkers]
    has the steps of the concrete processor).  The lists of submitted, done and dropped events are the record the theorems speak
    about; [e_dropped] is also the sequence of [OnEventDropped] calls. *)
From S2P Require Import Prelude GoStd Sha256 GoBytes LmDigest LmLayer LmMerkle LmCache LmResolver LmHasher LmDedup LmWorkers LmWal.

(** ** Configuration *)

Record engineConfig := {
  cfg_workers : Z; cfg_eventBufSize : Z; cfg_cacheCapacity : Z; cfg_statCacheSize : Z;
}.

(** [defaultEngineConfig], given [runtime.NumCPU()] *)
Definition defaultEngineConfig (numCPU : Z) : engineConfig :=
  {| cfg_workers := numCPU; cfg_eventBufSize := 4096; cfg_cacheCapacity := 128000;
     cfg_statCacheSize := 200000 |}.

Definition EngineOption := engineConfig → engineConfig.

Definition WithWorkers (n : Z) : EngineOption := λ c,
  if decide (0 < n)%Z
  then {| cfg_workers := n; cfg_eventBufSize := cfg_eventBufSize c; cfg_cacheCapacity := cfg_cacheCapacity c;
          cfg_statCacheSize := cfg_statCacheSize c |}
  else c.

Definition WithEventBufferSize (n : Z) : EngineOption := λ c,
  if decide (0 < n)%Z
  then {| cfg_workers := cfg_workers c; cfg_eventBufSize := n; cfg_cacheCapacity := cfg_cacheCapacity c;
          cfg_statCacheSize := cfg_statCacheSize c |}
  else c.

Definition WithCacheCapacity (n : Z) : EngineOption := λ c,
  if decide (0 < n)%Z
  then {| cfg_workers := cfg_workers c; cfg_eventBufSize := cfg_eventBufSize c; cfg_cacheCapacity := n;
          cfg_statCacheSize := cfg_statCacheSize c |}
  else c.

(** The configuration part of [NewEngine] *)
Definition NewEngine_cfg (numCPU : Z) (opts : list EngineOption) : engineConfig :=
  foldl (λ c o, o c) (defaultEngineConfig numCPU) opts.

(** ** The running engine *)

(** A channel of events, and whether it was closed. *)
Record event_chan := { ch_queue : list AccessEvent; ch_closed : bool }.

(** A call of [Submit] between its two steps: what it read under the mutex. *)
Record submitter := { su_ev : AccessEvent; su_running : bool; su_ch : option nat }.

(** The places of a dispatch loop: not yet at its [range], waiting for an event of a channel,
    or holding one while it waits for a slot of its semaphore. *)
Inductive dispatcher :=
  | DStart
  | DRange (ch : nat)
  | DHold (ch : nat) (ev : AccessEvent).

Record Engine (P T : Type) := {
  e_cfg : engineConfig;
  e_running : bool;
  e_chans : list event_chan;               (* made by [Start], the last is [eventCh] *)
  e_submitters : list submitter;
  e_disps : list (nat * dispatcher);       (* with the number of their semaphore *)
  e_workers : list (nat * (AccessEvent * T));  (* with the semaphore whose slot they hold *)
  e_stopping : nat;                        (* calls of [Stop] in [wg.Wait] *)
  e_proc : P;
  e_panicked : bool;
  e_submitted : list AccessEvent;
  e_accepted : list AccessEvent;
  e_done : list AccessEvent;
  e_dropped : list (AccessEvent * error);
}.
Arguments e_cfg {P T}.
Arguments e_running {P T}.
Arguments e_chans {P T}.
Arguments e_submitters {P T}.
Arguments e_disps {P T}.
Arguments e_workers {P T}.
Arguments e_stopping {P T}.
Arguments e_proc {P T}.
Arguments e_panicked {P T}.
Arguments e_submitted {P T}.
Arguments e_accepted {P T}.
Arguments e_done {P T}.
Arguments e_dropped {P T}.

Inductive action :=
  | AStart
  | AStop
  | AStopReturn
  | ASubmit (ev : AccessEvent)
  | AProceed (i : nat) (ctxErr : option error)
  | ADispatch (i : nat) (ctxErr : option error)
  | AWork (i : nat).

Section engine.
(** A call of [processor.Process]: the thread it begins with, and a step of a thread on the
    processor's state, after which it goes on or has returned; [None]: the thread is blocked. *)
Context {P T : Type} (begin : AccessEvent → T) (pstep : T → P → option (option T * P)).

Definition NewEngine (numCPU : Z) (opts : list EngineOption) (p : P) : Engine P T :=
  {| e_cfg := NewEngine_cfg numCPU opts; e_running := false; e_chans := []; e_submitters := [];
     e_disps := []; e_workers := []; e_stopping := 0; e_proc := p; e_panicked := false;
     e_submitted := []; e_accepted := []; e_done := []; e_dropped := [] |}.

(** [e.eventCh]: nil before the first [Start] *)
Definition eventCh (e : Engine P T) : option nat :=
  match e_chans e with [] => None | _ => Some (pred (length (e_chans e))) end.

(** [Start]: an error, and no change, when running *)
Definition Start (e : Engine P T) : result unit * Engine P T :=
  if e_running e then (Err (EText ["layermerkle: engine already running"]), e)
  else
    (Ok tt,
     {| e_cfg := e_cfg e; e_running := true;
        e_chans := e_chans e ++ [{| ch_queue := []; ch_closed := false |}];
        e_submitters := e_submitters e; e_disps := e_disps e ++ [(length (e_chans e), DStart)];
        e_workers := e_workers e; e_stopping := e_stopping e; e_proc := e_proc e;
        e_panicked := e_panicked e; e_submitted := e_submitted e; e_accepted := e_accepted e;
        e_done := e_done e; e_dropped := e_dropped e |}).

(** [Stop], up to [wg.Wait] *)
Definition Stop (e : Engine P T) : Engine P T :=
  if e_running e then
    {| e_cfg := e_cfg e; e_running := false;
       e_chans := match eventCh e with
         | Some c => alter (λ ch, {| ch_queue := ch_queue ch; ch_closed := true |}) c (e_chans e)
         | None => e_chans e
         end;
       e_submitters := e_submitters e; e_disps := e_disps e; e_workers := e_workers e;
       e_stopping := S (e_stopping e); e_proc := e_proc e; e_panicked := e_panicked e;
       e_submitted := e_submitted e; e_accepted := e_accepted e; e_done := e_done e;
       e_dropped := e_dropped e |}
  else e.

(** [wg.Wait] returns: every dispatch loop and every worker is gone. *)
Definition Stop_return (e : Engine P T) : option (Engine P T) :=
  match e_stopping e, e_disps e, e_workers e with
  | S n, [], [] =>
      Some {| e_cfg := e_cfg e; e_running := e_running e; e_chans := e_chans e;
        e_submitters := e_submitters e; e_disps := []; e_workers := []; e_stopping := n;
        e_proc := e_proc e; e_panicked := e_panicked e; e_submitted := e_submitted e;
        e_accepted := e_accepted e; e_done := e_done e; e_dropped := e_dropped e |}
  | _, _, _ => None
  end.

(** The first step of [Submit] *)
Definition Submit_begin (ev : AccessEvent) (e : Engine P T) : Engine P T :=
  {| e_cfg := e_cfg e; e_running := e_running e; e_chans := e_chans e;
     e_submitters := e_submitters e ++ [{| su_ev := ev; su_running := e_running e; su_ch := eventCh e |}];
     e_disps := e_disps e; e_workers := e_workers e; e_stopping := e_stopping e; e_proc := e_proc e;
     e_panicked := e_panicked e; e_submitted := e_submitted e ++ [ev]; e_accepted := e_accepted e;
     e_done := e_done e; e_dropped := e_dropped e |}.

(** How the second step of [Submit] ends. *)
Inductive submit_outcome := Sent (ch : nat) | Dropped (reason : error) | SendOnClosed.

(** The guard and the [select] of [Submit].  [ctxErr] is the error of the context when the
    [select] takes its case.  A nil channel is never ready; a closed one panics. *)
Definition submit_select (e : Engine P T) (su : submitter) (ctxErr : option error) : submit_outcome :=
  if su_running su then
    match ctxErr with
    | Some err => Dropped err
    | None =>
        match su_ch su with
        | None => Dropped ErrEventDropped
        | Some c =>
            match e_chans e !! c with
            | None => Dropped ErrEventDropped
            | Some ch =>
                if ch_closed ch then SendOnClosed
                else if decide (Z.of_nat (length (ch_queue ch)) < cfg_eventBufSize (e_cfg e))%Z then Sent c
                else Dropped ErrEventDropped
            end
        end
    end
  else Dropped ErrEngineNotRunning.

Definition push (ev : AccessEvent) (ch : event_chan) : event_chan :=
  {| ch_queue := ch_queue ch ++ [ev]; ch_closed := ch_closed ch |}.

(** The second step of [Submit], by the caller at place [i] *)
Definition Submit_proceed (i : nat) (ctxErr : option error) (e : Engine P T) : option (Engine P T) :=
  match e_submitters e !! i with
  | None => None
  | Some su =>
      let outcome := submit_select e su ctxErr in
      Some {| e_cfg := e_cfg e; e_running := e_running e;
        e_chans := match outcome with Sent c => alter (push (su_ev su)) c (e_chans e) | _ => e_chans e end;
        e_submitters := delete i (e_submitters e); e_disps := e_disps e; e_workers := e_workers e;
        e_stopping := e_stopping e; e_proc := e_proc e;
        e_panicked := match outcome with SendOnClosed => true | _ => e_panicked e end;
        e_submitted := e_submitted e;
        e_accepted := match outcome with Sent _ => e_accepted e ++ [su_ev su] | _ => e_accepted e end;
        e_done := e_done e;
        e_dropped := match outcome with
          | Dropped reason => e_dropped e ++ [(su_ev su, reason)]
          | _ => e_dropped e
          end |}
  end.

Definition with_disps (e : Engine P T) (chans : list event_chan) (disps : list (nat * dispatcher))
    (workers : list (nat * (AccessEvent * T))) (dropped : list (AccessEvent * error)) : Engine P T :=
  {| e_cfg := e_cfg e; e_running := e_running e; e_chans := chans; e_submitters := e_submitters e;
     e_disps := disps; e_workers := workers; e_stopping := e_stopping e; e_proc := e_proc e;
     e_panicked := e_panicked e; e_submitted := e_submitted e; e_accepted := e_accepted e;
     e_done := e_done e; e_dropped := dropped |}.

(** One step of the dispatch loop at place [i].  [ctxErr] is what [ctx.Err()] says to an event
    just received.  [None]: the loop is blocked. *)
Definition dispatchLoop (i : nat) (ctxErr : option error) (e : Engine P T) : option (Engine P T) :=
  match e_disps e !! i with
  | None => None
  | Some (sem, DStart) =>
      match eventCh e with
      | None => None
      | Some c => Some (with_disps e (e_chans e) (<[i := (sem, DRange c)]> (e_disps e)) (e_workers e) (e_dropped e))
      end
  | Some (sem, DRange c) =>
      match e_chans e !! c with
      | None => None
      | Some ch =>
          match ch_queue ch with
          | ev :: q =>
              let chans := <[c := {| ch_queue := q; ch_closed := ch_closed ch |}]> (e_chans e) in
              match ctxErr with
              | Some err => Some (with_disps e chans (e_disps e) (e_workers e) (e_dropped e ++ [(ev, err)]))
              | None => Some (with_disps e chans (<[i := (sem, DHold c ev)]> (e_disps e)) (e_workers e) (e_dropped e))
              end
          | [] =>
              if ch_closed ch then
                Some (with_disps e (e_chans e) (delete i (e_disps e)) (e_workers e) (e_dropped e))
              else None
          end
      end
  | Some (sem, DHold c ev) =>
      if decide (Z.of_nat (length (filter (λ w, w.1 = sem) (e_workers e))) < cfg_workers (e_cfg e))%Z
      then Some (with_disps e (e_chans e) (<[i := (sem, DRange c)]> (e_disps e)) (e_workers e ++ [(sem, (ev, begin ev))]) (e_dropped e))
      else None
  end.

(** One step of the goroutine of a worker: a step of its [Process]; when that returns, the
    deferred calls free its slot. *)
Definition worker_run (i : nat) (e : Engine P T) : option (Engine P T) :=
  '(sem, (ev, t)) ← e_workers e !! i;
  '(t', p) ← pstep t (e_proc e);
  Some {| e_cfg := e_cfg e; e_running := e_running e; e_chans := e_chans e;
    e_submitters := e_submitters e; e_disps := e_disps e;
    e_workers := match t' with Some t' => <[i := (sem, (ev, t'))]> (e_workers e) | None => delete i (e_workers e) end;
    e_stopping := e_stopping e; e_proc := p; e_panicked := e_panicked e;
    e_submitted := e_submitted e; e_accepted := e_accepted e;
    e_done := match t' with Some _ => e_done e | None => e_done e ++ [ev] end;
    e_dropped := e_dropped e |}.

(** A step of the process.  A panic ends it. *)
Definition engine_step (a : action) (e : Engine P T) : option (Engine P T) :=
  if e_panicked e then None
  else
    match a with
    | AStart => Some (Start e).2
    | AStop => Some (Stop e)
    | AStopReturn => Stop_return e
    | ASubmit ev => Some (Submit_begin ev e)
    | AProceed i o => Submit_proceed i o e
    | ADispatch i o => dispatchLoop i o e
    | AWork i => worker_run i e
    end.

Fixpoint engine_run (l : list action) (e : Engine P T) : option (Engine P T) :=
  match l with
  | [] => Some e
  | a :: l => engine_step a e ≫= engine_run l
  end.
End engine.

(** ** Callers of [Submit]: batch.go, [Feed], [PipelineAdapter] *)

Section submitting.
Context {S : Type} (Submit : AccessEvent → S → result unit * S).

Record BatchResult := { br_Submitted : Z; br_Dropped : Z; br_Errors : list (option error) }.

(** The body of the loop of [SubmitBatch] *)
Definition batch_step (x : BatchResult * S) (ev : AccessEvent) : BatchResult * S :=
  let '(r, s) := x in
  if IsReadAccess ev then
    match Submit ev s with
    | (Err err, s) =>
        ({| br_Submitted := br_Submitted r; br_Dropped := br_Dropped r + 1; br_Errors := br_Errors r ++ [Some err] |}, s)
    | (Ok _, s) =>
        ({| br_Submitted := br_Submitted r + 1; br_Dropped := br_Dropped r; br_Errors := br_Errors r ++ [None] |}, s)
    end
  else
    ({| br_Submitted := br_Submitted r; br_Dropped := br_Dropped r + 1; br_Errors := br_Errors r ++ [None] |}, s).

Definition SubmitBatch (events : list AccessEvent) (s : S) : BatchResult * S :=
  foldl batch_step ({| br_Submitted := 0; br_Dropped := 0; br_Errors := [] |}, s) events.

(** [Feed] on a source of events: [done k] says that the turn [k] takes the context's case.
    The errors are what [onErr] receives. *)
Fixpoint Feed (done : nat → bool) (k : nat) (events : list AccessEvent) (s : S) : list error * S :=
  if done k then ([], s)
  else
    match events with
    | [] => ([], s)
    | ev :: events =>
        if IsReadAccess ev then
          let '(r, s) := Submit ev s in
          let '(errs, s) := Feed done (k + 1) events s in
          (match r with Err err => err :: errs | Ok _ => errs end, s)
        else Feed done (k + 1) events s
    end.

(** [ConvertAndSubmit], with the errors that [onErr] receives *)
Definition ConvertAndSubmit (dropOnFull : bool) (src : EnrichedEventSource) (s : S)
    : result unit * (list error * S) :=
  match AccessEventFromEnriched src with
  | Err _ => (Ok tt, ([], s))
  | Ok ev =>
      if IsReadAccess ev then
        match Submit ev s with
        | (Err err, s) => (if dropOnFull then Ok tt else Err err, ([err], s))
        | (Ok _, s) => (Ok tt, ([], s))
        end
      else (Ok tt, ([], s))
  end.
End submitting.

(** [CacheKeyEncoder.Encode] *)
Definition CacheKeyEncoder_Encode (layerID : LayerID) (relPath : string) : list byte :=
  sha256 (str_bytes layerID ++ [x00] ++ str_bytes relPath).

(** [CacheKeyEncoder.HexString], of the buffer that [Encode] filled *)
Definition CacheKeyEncoder_HexString (buf : list byte) : string := hex_encode buf.

(** [makeFixedCacheKey]: four little-endian words of the digest *)
Definition sum_words (sum : list byte) : list N :=
  [le_value (take 8 (drop 0 sum)); le_value (take 8 (drop 8 sum));
   le_value (take 8 (drop 16 sum)); le_value (take 8 (drop 24 sum))].

Definition makeFixedCacheKey (layerID : LayerID) (relPath : string) : list N :=
  sum_words (sha256 (str_bytes layerID ++ [x00] ++ str_bytes relPath)).

(** [fixedCacheKey.shardIndex] *)
Definition shardIndex (k : list N) : N := N.land (default 0%N (k !! 0)) 0xff.

(** ** Accounting *)

Definition held (d : nat * dispatcher) : list AccessEvent :=
  match d.2 with DHold _ ev => [ev] | _ => [] end.

(** The events of the workers *)
Definition at_work {P T} (e : Engine P T) : list AccessEvent := (λ w, w.2.1) <$> e_workers e.

(** The events that were accepted and are not settled: queued, held by a loop, in a worker. *)
Definition in_flight {P T} (e : Engine P T) : list AccessEvent :=
  mjoin (ch_queue <$> e_chans e) ++ mjoin (held <$> e_disps e) ++ at_work e.

Lemma close_queues (c : nat) (l : list event_chan) :
  ch_queue <$> alter (λ ch, {| ch_queue := ch_queue ch; ch_closed := true |}) c l = ch_queue <$> l.
Proof. revert c. induction l as [|x l IH]; intros [|c]; csimpl; [done .. | by rewrite IH]. Qed.

Section accounting.
Context {P T : Type} (begin : AccessEvent → T) (pstep : T → P → option (option T * P)).

(** Every submitted event is in one place, or settled in one way. *)
Definition ledger (e : Engine P T) : Prop :=
  e_submitted e ≡ₚ (su_ev <$> e_submitters e) ++ in_flight e ++ e_done e ++ (e_dropped e).*1.

Ltac eng := unfold ledger, in_flight, at_work, with_disps, Submit_begin in *;
  cbn [e_cfg e_running e_chans e_submitters e_disps e_workers e_stopping e_proc e_panicked e_submitted
       e_accepted e_done e_dropped snd fst] in *.

Ltac cut_at H :=
  let l1 := fresh "l1" in let l2 := fresh "l2" in let E := fresh "E" in
  apply list_split in H as (l1 & l2 & E & ->); rewrite ?E in *;
  rewrite ?insert_middle, ?alter_middle, ?delete_middle, ?mjoin_middle, ?fmap_middle, ?fmap_app, ?join_app in *.

Lemma ledger_step a e e' :
  engine_step begin pstep a e = Some e' → ledger e → e_panicked e' = false → ledger e'.
Proof.
  unfold engine_step. destruct (e_panicked e) eqn:Hpan; [done |].
  intros He Hl Hpan'. destruct a as [| | |ev|i o|i o|i]; simplify_eq/=.
  - unfold Start. destruct (e_running e); [done |]. eng. rewrite Hl, !fmap_app, !join_app. cbn. solve_Permutation.
  - unfold Stop. destruct (e_running e); [| done]. eng. destruct (eventCh e); by rewrite ?close_queues.
  - unfold Stop_return in He. destruct (e_stopping e), (e_disps e) eqn:E1, (e_workers e) eqn:E2; simplify_eq.
    eng. by rewrite Hl, E1, E2.
  - eng. rewrite Hl, fmap_app. cbn. solve_Permutation.
  - unfold Submit_proceed in He. destruct (e_submitters e !! i) as [su|] eqn:Hi; simplify_eq/=.
    destruct (submit_select e su o) as [c|reason|] eqn:Ho; [| |done]; eng.
    + assert (∃ ch, e_chans e !! c = Some ch) as [ch Hc].
      { unfold submit_select in Ho. repeat case_match; simplify_eq. by eexists. }
      cut_at Hc. cut_at Hi. rewrite Hl. cbn [push ch_queue]. solve_Permutation.
    + cut_at Hi. rewrite Hl. cbn. solve_Permutation.
  - unfold dispatchLoop in He. destruct (e_disps e !! i) as [[sem [|c|c ev]]|] eqn:Hi; [| | |done].
    + destruct (eventCh e); simplify_eq. eng. cut_at Hi. rewrite Hl. cbn. solve_Permutation.
    + destruct (e_chans e !! c) as [ch|] eqn:Hc; [| done]. destruct (ch_queue ch) as [|ev q] eqn:Hq.
      * destruct (ch_closed ch); simplify_eq. eng. cut_at Hi. rewrite Hl. cbn. solve_Permutation.
      * destruct o as [err|]; simplify_eq; eng; cut_at Hc; rewrite Hq in Hl; rewrite Hl; cbn [ch_queue].
        -- cbn. solve_Permutation.
        -- cut_at Hi. cbn. solve_Permutation.
    + case_decide; simplify_eq. eng. cut_at Hi. rewrite Hl. cbn. solve_Permutation.
  - unfold worker_run in He. destruct (e_workers e !! i) as [[sem [ev t]]|] eqn:Hi; [| done]. simpl in He.
    destruct (pstep t (e_proc e)) as [[[t'|] p]|]; simplify_eq/=; eng; cut_at Hi; rewrite Hl; cbn; solve_Permutation.
Qed.

(** The bounds of the two channels. *)
Record bounded (cfg : engineConfig) (e : Engine P T) : Prop := {
  bd_cfg : e_cfg e = cfg;
  bd_sem sem : (Z.of_nat (length (filter (λ w, w.1 = sem) (e_workers e))) ≤ cfg_workers cfg)%Z;
  bd_buf : Forall (λ ch, Z.of_nat (length (ch_queue ch)) ≤ cfg_eventBufSize cfg)%Z (e_chans e);
}.

Lemma Forall_middle {A} (Q : A → Prop) (l1 l2 : list A) (x y : A) :
  Forall Q (l1 ++ x :: l2) → Q y → Forall Q (l1 ++ y :: l2).
Proof. rewrite !Forall_app, !Forall_cons. tauto. Qed.

Lemma bounded_step cfg a e e' :
  (0 ≤ cfg_eventBufSize cfg)%Z → engine_step begin pstep a e = Some e' → bounded cfg e → bounded cfg e'.
Proof.
  unfold engine_step. destruct (e_panicked e) eqn:Hpan; [done |].
  intros Hcfg He [Hc Hs Hb]. destruct a as [| | |ev|i o|i o|i]; simplify_eq/=.
  - unfold Start. destruct (e_running e); constructor; eng; try done.
    apply Forall_app. split; [done |]. repeat constructor. done.
  - unfold Stop. destruct (e_running e); constructor; eng; try done.
    destruct (eventCh e); [| done]. apply Forall_alter; [done |]. by intros.
  - unfold Stop_return in He. destruct (e_stopping e), (e_disps e) eqn:E1, (e_workers e) eqn:E2; simplify_eq.
    constructor; eng; done.
  - by constructor; eng.
  - unfold Submit_proceed in He. destruct (e_submitters e !! i) as [su|] eqn:Hi; simplify_eq/=.
    constructor; eng; try done. destruct (submit_select e su o) as [c|reason|] eqn:Ho; [|done..].
    unfold submit_select in Ho. repeat case_match; simplify_eq.
    match goal with H : e_chans e !! _ = Some _ |- _ => cut_at H end.
    apply (Forall_middle _ _ _ _ _ Hb). cbn. rewrite length_app. simpl. lia.
  - unfold dispatchLoop in He. destruct (e_disps e !! i) as [[sem [|c|c ev]]|] eqn:Hi; [| | |done].
    + destruct (eventCh e); simplify_eq. constructor; eng; done.
    + destruct (e_chans e !! c) as [ch|] eqn:Hch; [| done]. destruct (ch_queue ch) as [|ev q] eqn:Hq.
      * destruct (ch_closed ch); simplify_eq. constructor; eng; done.
      * destruct o as [err|]; simplify_eq; constructor; eng; try done;
          (cut_at Hch; apply (Forall_middle _ _ _ _ _ Hb); cbn;
           apply Forall_app in Hb as [_ Hb]; apply Forall_cons in Hb as [Hb _]; rewrite Hq in Hb; simpl in Hb; lia).
    + case_decide as Hw; simplify_eq. constructor; eng; try done. intros sem'. rewrite filter_app, length_app.
      specialize (Hs sem'). rewrite filter_cons, filter_nil. case_decide; simpl in *; subst; lia.
  - unfold worker_run in He. destruct (e_workers e !! i) as [[sem [ev t]]|] eqn:Hi; [| done]. simpl in He.
    destruct (pstep t (e_proc e)) as [[[t'|] p]|]; simplify_eq/=; constructor; eng; try done; intros sem'; specialize (Hs sem'); cut_at Hi;
      rewrite !filter_app, !length_app, !filter_cons in *; simpl in *; case_decide; simpl in *; lia.
Qed.

(** The options that set the configuration. *)
Definition config_option (o : EngineOption) : Prop :=
  ∃ m, o = WithWorkers m ∨ o = WithEventBufferSize m ∨ o = WithCacheCapacity m.

Lemma cfg_positive n opts :
  (1 ≤ n)%Z → Forall config_option opts →
  (1 ≤ cfg_workers (NewEngine_cfg n opts))%Z ∧ (1 ≤ cfg_eventBufSize (NewEngine_cfg n opts))%Z ∧
  (1 ≤ cfg_cacheCapacity (NewEngine_cfg n opts))%Z.
Proof.
  intros Hn Ho. unfold NewEngine_cfg. assert (∀ c,
    (1 ≤ cfg_workers c)%Z ∧ (1 ≤ cfg_eventBufSize c)%Z ∧ (1 ≤ cfg_cacheCapacity c)%Z →
    let c' := foldl (λ c o, o c) c opts in
    (1 ≤ cfg_workers c')%Z ∧ (1 ≤ cfg_eventBufSize c')%Z ∧ (1 ≤ cfg_cacheCapacity c')%Z) as Hf.
  { induction Ho as [|o opts (m & [->|[->| ->]]) Ho IH]; intros c Hc; [done | ..]; cbn [foldl]; apply IH;
      unfold WithWorkers, WithEventBufferSize, WithCacheCapacity; case_decide; simpl in *; lia. }
  apply Hf. simpl. lia.
Qed.

(** An invariant of the steps holds after a run. *)
Lemma run_inv (Q : Engine P T → Prop) l e e' :
  (∀ a e e', engine_step begin pstep a e = Some e' → Q e → Q e') →
  engine_run begin pstep l e = Some e' → Q e → Q e'.
Proof.
  intros Hstep. revert e. induction l as [|a l IH]; intros e; simpl; [by intros [= ->] |].
  destruct (engine_step begin pstep a e) as [e1|] eqn:E; [| done]. simpl. intros Hrun Hq.
  by apply (IH e1 Hrun), (Hstep a e).
Qed.

Lemma engine_run_app l1 l2 e : engine_run begin pstep (l1 ++ l2) e = engine_run begin pstep l1 e ≫= engine_run begin pstep l2.
Proof.
  revert e. induction l1 as [|a l1 IH]; intros e; [done |]. simpl. destruct (engine_step begin pstep a e); [apply IH | done].
Qed.

Lemma run_ledger l e e' :
  engine_run begin pstep l e = Some e' → ledger e → e_panicked e' = false → ledger e'.
Proof.
  revert e. induction l as [|a l IH]; intros e; simpl; [by intros [= ->] |].
  destruct (engine_step begin pstep a e) as [e1|] eqn:E; [| done]. simpl. intros Hrun Hq Hpan.
  apply (IH e1 Hrun); [| done]. apply (ledger_step a e e1 E Hq). destruct (e_panicked e1) eqn:Hp1; [| done].
  destruct l as [|b l]; [simpl in Hrun; injection Hrun as ->; congruence |]. simpl in Hrun. unfold engine_step in Hrun.
  rewrite Hp1 in Hrun. discriminate.
Qed.
End accounting.

(** ** One start: draining and order *)

Section single_start.
Context {P T : Type} (begin : AccessEvent → T) (pstep : T → P → option (option T * P)).

Ltac eng := unfold ledger, in_flight, at_work, with_disps, Submit_begin in *;
  cbn [e_cfg e_running e_chans e_submitters e_disps e_workers e_stopping e_proc e_panicked e_submitted
       e_accepted e_done e_dropped snd fst] in *.

(** The events behind the channel, in the order in which they will reach the processor. *)
Definition line (e : Engine P T) : list AccessEvent :=
  at_work e ++ mjoin (held <$> e_disps e) ++ mjoin (ch_queue <$> e_chans e).

(** An engine that was started at most once has at most one dispatch loop; it ends only on a
    closed and empty channel. *)
Definition started_once (e : Engine P T) : Prop :=
  length (e_chans e) ≤ 1 →
  Forall (λ w, w.1 = 0) (e_workers e) ∧
  match e_chans e with
  | ch :: _ =>
      ch_closed ch = negb (e_running e) ∧
      ((∃ d, e_disps e = [(0, d)] ∧ match d with DStart => True | DRange c => c = 0 | DHold c _ => c = 0 end)
       ∨ e_disps e = [] ∧ ch_queue ch = [] ∧ ch_closed ch = true)
  | [] => e_running e = false ∧ e_disps e = [] ∧ e_workers e = []
  end.

(** Nothing is in the line that was not accepted, and with one worker it is in order. *)
Definition in_order (e : Engine P T) : Prop :=
  length (e_chans e) ≤ 1 → cfg_workers (e_cfg e) = 1%Z →
  length (e_workers e) ≤ 1 ∧ e_done e ++ line e `sublist_of` e_accepted e.

Lemma single_lookup {A} (i : nat) (x y : A) : [x] !! i = Some y → i = 0 ∧ y = x.
Proof. destruct i as [|i]; [by intros [= ->] | done]. Qed.

Lemma step_chans a (e e' : Engine P T) :
  engine_step begin pstep a e = Some e' → length (e_chans e) ≤ length (e_chans e').
Proof.
  unfold engine_step. destruct (e_panicked e); [done |]. intros He. destruct a as [| | |ev|i o|i o|i]; simplify_eq/=.
  - unfold Start. destruct (e_running e); [done |]. eng. rewrite length_app. lia.
  - unfold Stop. destruct (e_running e); [| done]. eng. destruct (eventCh e); [| done]. by rewrite length_alter.
  - unfold Stop_return in He. destruct (e_stopping e), (e_disps e), (e_workers e); by simplify_eq.
  - done.
  - unfold Submit_proceed in He. destruct (e_submitters e !! i) as [su|]; simplify_eq/=.
    destruct (submit_select e su o); by rewrite ?length_alter.
  - unfold dispatchLoop in He. repeat case_match; simplify_eq; eng; by rewrite ?length_insert.
  - unfold worker_run in He. destruct (e_workers e !! i) as [[sem [ev t]]|]; [| done]. simpl in He.
    by destruct (pstep t (e_proc e)) as [[t' p]|]; simplify_eq/=.
Qed.

Lemma started_once_step a e e' :
  engine_step begin pstep a e = Some e' → started_once e → started_once e'.
Proof.
  intros He Hs Hlen. assert (length (e_chans e) ≤ 1) as Hlen1.
  { etrans; [by eapply step_chans | done]. }
  specialize (Hs Hlen1). destruct Hs as [Hw Hs]. unfold engine_step in He. destruct (e_panicked e); [done |].
  destruct a as [| | |ev|i o|i o|i]; simplify_eq/=.
  - unfold Start in *. destruct (e_running e) eqn:Hr; [simpl; split; [done |]; by rewrite Hr |]. eng. rewrite length_app in Hlen. simpl in Hlen.
    destruct (e_chans e) as [|c l]; [| simpl in Hlen; lia]. destruct Hs as (_ & -> & ->). simpl.
    split_and!; [constructor | done | left; by eexists].
  - unfold Stop in *. destruct (e_running e) eqn:Hr; [| split; [done |]; by rewrite Hr]. eng. unfold eventCh in *.
    destruct (e_chans e) as [|c [|c' l]]; [naive_solver | | simpl in Hlen1; lia]. simpl.
    destruct Hs as [Hc [Hd|(? & ? & ?)]]; [| naive_solver]. split_and!; [done | done | by left].
  - unfold Stop_return in He. destruct (e_stopping e), (e_disps e), (e_workers e); simplify_eq. eng. done.
  - done.
  - unfold Submit_proceed in He. destruct (e_submitters e !! i) as [su|]; simplify_eq/=.
    destruct (submit_select e su o) as [c|reason|] eqn:Ho; [|done..]. split; [done |].
    destruct (e_chans e) as [|ch [|ch' l]] eqn:Hch; [naive_solver | | simpl in Hlen1; lia].
    assert (c = 0 ∧ ch_closed ch = false) as [-> Hop].
    { unfold submit_select in Ho. rewrite Hch in Ho. repeat case_match; simplify_eq.
      match goal with H : [_] !! _ = Some _ |- _ => apply single_lookup in H as [-> ->] end. done. }
    simpl. destruct Hs as [Hc [Hd|(? & ? & ?)]]; [| congruence]. split; [done |]. by left.
  - unfold dispatchLoop in He. destruct (e_disps e !! i) as [[sem d]|] eqn:Hi; [| done].
    destruct (e_chans e) as [|ch [|ch' l]] eqn:Hch; [destruct Hs as (_ & Hd & _); by rewrite Hd in Hi | | simpl in Hlen1; lia].
    destruct Hs as [Hc [(d' & Hd & Hd')|(Hd & _)]]; [| by rewrite Hd in Hi].
    rewrite Hd in Hi. apply single_lookup in Hi as [-> [= -> ->]]. destruct d' as [|c|c ev].
    + unfold eventCh in He. rewrite Hch in He. simplify_eq. eng. rewrite Hd. simpl.
      split_and!; [done | done | left; by eexists].
    + subst c. simpl in He. destruct (ch_queue ch) as [|ev q] eqn:Hq.
      * destruct (ch_closed ch) eqn:Hcl; simplify_eq. eng. rewrite ?Hch, ?Hd. simpl. rewrite <- Hc.
        split_and!; [done | done |]. by right.
      * destruct o; simplify_eq; eng; simpl; (split_and!; [done | done |]); rewrite ?Hd; left; by eexists.
    + subst c. case_decide; simplify_eq. eng. rewrite ?Hch, ?Hd. simpl.
      split_and!; [| done | left; by eexists]. apply Forall_app. split; [done |]. by repeat constructor.
  - unfold worker_run in He. destruct (e_workers e !! i) as [[sem [ev t]]|] eqn:Hi; [| done]. simpl in He.
    destruct (pstep t (e_proc e)) as [[t' p]|]; simplify_eq/=. eng.
    apply list_split in Hi as (l1 & l2 & E & ->). rewrite E in *.
    apply Forall_app in Hw as [Hw1 Hw2]. apply Forall_cons in Hw2 as [Hw Hw2].
    split; [destruct t'; rewrite ?insert_middle, ?delete_middle; apply Forall_app; (split; [done |]); [by constructor | done] |]. destruct (e_chans e); [| done].
    destruct Hs as (_ & _ & Hs). by destruct l1.
Qed.

Lemma filter_zero (l : list (nat * (AccessEvent * T))) :
  Forall (λ w, w.1 = 0) l → filter (λ w, w.1 = 0) l = l.
Proof. apply filter_all. Qed.

Lemma in_order_step a e e' :
  engine_step begin pstep a e = Some e' → started_once e → in_order e → in_order e'.
Proof.
  intros He Hs Ho Hlen Hcfg. assert (length (e_chans e) ≤ 1) as Hlen1.
  { etrans; [by eapply step_chans | done]. }
  specialize (Hs Hlen1). destruct Hs as [Hw Hs]. unfold in_order, line, at_work in *.
  unfold engine_step in He. destruct (e_panicked e); [done |].
  destruct a as [| | |ev|i o|i o|i]; simplify_eq/=.
  - unfold Start in *. destruct (e_running e) eqn:Hr; [by apply Ho |]. eng. specialize (Ho Hlen1 Hcfg).
    destruct Ho as [Hn Ho]. split; [done |]. rewrite !fmap_app, !join_app. cbn. by rewrite !app_nil_r.
  - unfold Stop in *. destruct (e_running e) eqn:Hr; [| by apply Ho]. eng. specialize (Ho Hlen1 Hcfg).
    destruct (eventCh e); by rewrite ?close_queues.
  - unfold Stop_return in He. destruct (e_stopping e), (e_disps e) eqn:E1, (e_workers e) eqn:E2; simplify_eq. eng. by apply Ho.
  - by apply Ho.
  - unfold Submit_proceed in He. destruct (e_submitters e !! i) as [su|]; simplify_eq/=. eng. specialize (Ho Hlen1 Hcfg).
    destruct (submit_select e su o) as [c|reason|] eqn:Hsel; [|done..].
    destruct (e_chans e) as [|ch [|ch' l]] eqn:Hch; [| | simpl in Hlen1; lia].
    { unfold submit_select in Hsel. rewrite Hch in Hsel. repeat case_match; simplify_eq. }
    assert (c = 0) as ->.
    { unfold submit_select in Hsel. rewrite Hch in Hsel. repeat case_match; simplify_eq.
      match goal with H : [_] !! _ = Some _ |- _ => apply single_lookup in H as [-> ->] end. done. }
    destruct Ho as [Hn Ho]. split; [done |].
    csimpl in *. rewrite app_nil_r in *. rewrite !app_assoc in *. by apply sublist_app.
  - unfold dispatchLoop in He. destruct (e_disps e !! i) as [[sem d]|] eqn:Hi; [| done].
    destruct (e_chans e) as [|ch [|ch' l]] eqn:Hch; [destruct Hs as (_ & Hd & _); by rewrite Hd in Hi | | simpl in Hlen1; lia].
    destruct Hs as [Hc [(d' & Hd & Hd')|(Hd & _)]]; [| by rewrite Hd in Hi].
    rewrite Hd in Hi. apply single_lookup in Hi as [-> [= -> ->]]. rewrite Hd in Ho.
    destruct d' as [|c|c ev].
    + unfold eventCh in He. rewrite Hch in He. simplify_eq. eng. rewrite ?Hch, ?Hd. by apply Ho.
    + subst c. simpl in He. destruct (ch_queue ch) as [|ev q] eqn:Hq.
      * destruct (ch_closed ch) eqn:Hcl; simplify_eq. eng. rewrite ?Hch, ?Hd. by apply Ho.
      * destruct o; simplify_eq; eng; specialize (Ho Hlen1 Hcfg); rewrite ?Hd; csimpl in *; rewrite ?Hq in Ho.
        -- destruct Ho as [Hn Ho]. split; [done |]. etrans; [| exact Ho]. rewrite !app_nil_r. apply sublist_app; [done |]. apply sublist_app; [done |].
           by apply sublist_cons.
        -- done.
    + subst c. case_decide as Hn; simplify_eq. eng. specialize (Ho Hlen1 Hcfg). rewrite filter_zero, Hcfg in Hn by done.
      destruct (e_workers e) as [|w ws]; [| simpl in Hn; lia]. rewrite ?Hch, ?Hd. csimpl in *.
      split; [simpl; lia | apply Ho].
  - unfold worker_run in He. destruct (e_workers e !! i) as [[sem [ev t]]|] eqn:Hi; [| done]. simpl in He.
    destruct (pstep t (e_proc e)) as [[t' p]|]; simplify_eq/=. eng.
    specialize (Ho Hlen1 Hcfg). destruct (e_workers e) as [|w ws] eqn:Hws; [done |].
    destruct Ho as [Hn Ho]. destruct ws; [| simpl in Hn; lia]. apply single_lookup in Hi as [-> <-].
    destruct t'; (split; [simpl; lia |]); csimpl in *; [done |]. by rewrite <- app_assoc.
Qed.

(** ** Draining terminates *)

(** What the engine needs of its processor: an invariant of the running calls and the state
    under which some call can make a step, and a number of steps that each call still makes,
    at most [most] at its beginning. *)
Record process_laws (Inv : list T → P → Prop) (cost : T → nat) (most : nat) : Prop := {
  pr_begin ts p ev : Inv ts p → Inv (ts ++ [begin ev]) p;
  pr_step l1 t l2 p t' p' : Inv (l1 ++ t :: l2) p → pstep t p = Some (t', p') → Inv (l1 ++ option_list t' ++ l2) p';
  pr_progress ts p : Inv ts p → ts ≠ [] → ∃ t, t ∈ ts ∧ is_Some (pstep t p);
  pr_begin_cost ev : cost (begin ev) ≤ most;
  pr_step_cost t p t' p' : pstep t p = Some (Some t', p') → cost t' < cost t;
}.

Context (Inv : list T → P → Prop) (cost : T → nat) (most : nat) (Laws : process_laws Inv cost most).

(** The running calls of an engine *)
Definition calls (e : Engine P T) : list T := (λ w, w.2.2) <$> e_workers e.

Lemma calls_step a e e' : engine_step begin pstep a e = Some e' → Inv (calls e) (e_proc e) → Inv (calls e') (e_proc e').
Proof.
  unfold engine_step, calls. destruct (e_panicked e); [done |]. intros He Hi. destruct a as [| | |ev|i o|i o|i]; simplify_eq/=.
  - unfold Start. by destruct (e_running e).
  - unfold Stop. by destruct (e_running e).
  - unfold Stop_return in He. destruct (e_stopping e), (e_disps e), (e_workers e); by simplify_eq.
  - done.
  - unfold Submit_proceed in He. destruct (e_submitters e !! i); by simplify_eq.
  - unfold dispatchLoop in He. destruct (e_disps e !! i) as [[sem [|c|c ev]]|]; [| | |done].
    + destruct (eventCh e); by simplify_eq.
    + destruct (e_chans e !! c) as [ch|]; [| done]. destruct (ch_queue ch) as [|ev q]; [destruct (ch_closed ch); by simplify_eq |].
      destruct o; by simplify_eq.
    + case_decide; simplify_eq. eng. rewrite fmap_app. by apply (pr_begin _ _ _ Laws).
  - unfold worker_run in He. destruct (e_workers e !! i) as [[sem [ev t]]|] eqn:Hw; [| done]. simpl in He.
    destruct (pstep t (e_proc e)) as [[t' p]|] eqn:Hs; simplify_eq/=. eng. apply list_split in Hw as (l1 & l2 & E & ->).
    rewrite E, fmap_app in Hi. apply (pr_step _ _ _ Laws _ _ _ _ _ _ Hi) in Hs.
    destruct t'; rewrite E, ?insert_middle, ?delete_middle, fmap_app; exact Hs.
Qed.

(** The steps that the engine takes by itself. *)
Definition internal (a : action) : bool :=
  match a with ADispatch _ _ | AWork _ => true | _ => false end.

Definition disp_weight (d : nat * dispatcher) : nat :=
  match d.2 with DStart => 2 | DRange _ => 1 | DHold _ _ => most + 3 end.

Lemma disp_weight_hold sem c ev : disp_weight (sem, DHold c ev) = most + 3.
Proof. done. Qed.

Definition total {A} (w : A → nat) (l : list A) : nat := foldr (λ x n, w x + n) 0 l.

(** A bound of the internal steps left to a stopped engine. *)
Definition work_left (e : Engine P T) : nat :=
  total (λ ch, (most + 4) * length (ch_queue ch)) (e_chans e) + total disp_weight (e_disps e)
  + total (λ w, 1 + cost w.2.2) (e_workers e).

Lemma total_app {A} (w : A → nat) (l1 l2 : list A) : total w (l1 ++ l2) = total w l1 + total w l2.
Proof. induction l1 as [|x l1 IH]; simpl; lia. Qed.

Lemma internal_step a e e' :
  internal a = true → engine_step begin pstep a e = Some e' →
  work_left e' < work_left e ∧ e_running e' = e_running e ∧ e_stopping e' = e_stopping e ∧
  e_cfg e' = e_cfg e ∧ e_panicked e' = false ∧ length (e_chans e') = length (e_chans e).
Proof.
  unfold engine_step, work_left. destruct (e_panicked e) eqn:Hpan; [done |].
  intros Ha He. destruct a as [| | |ev|i o|i o|i]; simplify_eq/=.
  - unfold dispatchLoop in He. destruct (e_disps e !! i) as [[sem [|c|c ev]]|] eqn:Hi; [| | |done];
      apply list_split in Hi as (l1 & l2 & E & ->).
    + destruct (eventCh e); simplify_eq. eng. rewrite E, insert_middle, !total_app. simpl. split_and!; try done. lia.
    + destruct (e_chans e !! c) as [ch|] eqn:Hc; [| done]. apply list_split in Hc as (k1 & k2 & E' & ->).
      destruct (ch_queue ch) as [|ev q] eqn:Hq.
      * destruct (ch_closed ch); simplify_eq. eng. rewrite E, delete_middle, !total_app. simpl. split_and!; try done. lia.
      * destruct o; simplify_eq; eng; rewrite E, E', ?insert_middle, !total_app, !length_app; simpl; rewrite Hq, ?disp_weight_hold; simpl;
          rewrite ?Nat.mul_succ_r; split_and!; try done; lia.
    + case_decide; simplify_eq. eng. rewrite E, insert_middle, !total_app. simpl. rewrite disp_weight_hold. pose proof (pr_begin_cost _ _ _ Laws ev).
      split_and!; try done. lia.
  - unfold worker_run in He. destruct (e_workers e !! i) as [[sem [ev t]]|] eqn:Hi; [| done]. simpl in He.
    destruct (pstep t (e_proc e)) as [[t' p]|] eqn:Hs; simplify_eq/=.
    apply list_split in Hi as (l1 & l2 & E & ->). eng. rewrite E. destruct t' as [t'|].
    + apply (pr_step_cost _ _ _ Laws) in Hs. rewrite insert_middle, !total_app. simpl. split_and!; try done. lia.
    + rewrite delete_middle, !total_app. simpl. split_and!; try done. lia.
Qed.

(** A stopped engine with work left can take an internal step. *)
Lemma stopped_progress e :
  started_once e → Inv (calls e) (e_proc e) → length (e_chans e) = 1 → e_running e = false → e_panicked e = false →
  (1 ≤ cfg_workers (e_cfg e))%Z → (e_disps e ≠ [] ∨ e_workers e ≠ []) →
  ∃ a e', internal a = true ∧ engine_step begin pstep a e = Some e'.
Proof.
  intros Hs Hinv Hlen Hr Hpan Hcfg Hd. destruct Hs as [Hw Hs]; [lia |].
  destruct (e_chans e) as [|ch [|ch' l]] eqn:Hch; simplify_eq/=. destruct Hs as [Hc Hs]. rewrite Hr in Hc. simpl in Hc.
  destruct (decide (e_workers e = [])) as [Hws|Hws].
  - destruct Hd as [Hd|]; [| done]. destruct Hs as [(d & Hds & Hd')|(? & ?)]; [| done].
    exists (ADispatch 0 None). unfold engine_step, dispatchLoop. rewrite Hpan, Hds. simpl.
    destruct d as [|c|c ev].
    + unfold eventCh. rewrite Hch. by eexists.
    + subst c. rewrite Hch. simpl. rewrite Hc. destruct (ch_queue ch); by eexists.
    + rewrite Hws, decide_True by (simpl; lia). by eexists.
  - destruct (pr_progress _ _ _ Laws _ _ Hinv) as (t & Ht & [[t' p] Hst]); [unfold calls; by destruct (e_workers e) |].
    apply list_elem_of_fmap in Ht as ([sem [ev t0]] & -> & [i Hi]%list_elem_of_lookup).
    exists (AWork i). unfold engine_step, worker_run. rewrite Hpan, Hi. simpl in *. rewrite Hst. by eexists.
Qed.

Lemma stopped_drains e :
  started_once e → Inv (calls e) (e_proc e) → length (e_chans e) = 1 → e_running e = false → e_panicked e = false →
  (1 ≤ cfg_workers (e_cfg e))%Z →
  ∃ l e', Forall (λ a, internal a = true) l ∧ engine_run begin pstep l e = Some e' ∧ e_disps e' = [] ∧ e_workers e' = [].
Proof.
  remember (work_left e) as n eqn:Hn. revert e Hn. induction (lt_wf n) as [n _ IH]. intros e -> Hs Hinv Hlen Hr Hpan Hcfg.
  assert ((e_disps e = [] ∧ e_workers e = []) ∨ (e_disps e ≠ [] ∨ e_workers e ≠ [])) as [[Hd Hw]|Hd].
  { destruct (e_disps e), (e_workers e); naive_solver. }
  { exists [], e. by split_and!. }
  destruct (stopped_progress e Hs Hinv Hlen Hr Hpan Hcfg Hd) as (a & e1 & Ha & He1).
  destruct (internal_step a e e1 Ha He1) as (Hlt & Hr1 & Hst & Hc1 & Hp1 & Hl1).
  destruct (IH _ Hlt e1 eq_refl) as (l & e2 & Hl & He2 & Hd2 & Hw2);
    [by eapply started_once_step | by eapply calls_step | by rewrite Hl1 | by rewrite Hr1 | done | by rewrite Hc1 |].
  exists (a :: l), e2. simpl. rewrite He1. simpl. split_and!; try done. by constructor.
Qed.

(** What the internal steps leave as it is. *)
Lemma internal_run l e e' :
  Forall (λ a, internal a = true) l → engine_run begin pstep l e = Some e' → e_panicked e = false →
  e_running e' = e_running e ∧ e_stopping e' = e_stopping e ∧ e_cfg e' = e_cfg e ∧ e_panicked e' = false
  ∧ length (e_chans e') = length (e_chans e).
Proof.
  intros Hl. revert e. induction Hl as [|a l Ha Hl IH]; intros e; simpl; [by intros [= ->] |].
  destruct (engine_step begin pstep a e) as [e1|] eqn:E; [| done]. simpl. intros Hrun Hp.
  destruct (internal_step a e e1 Ha E) as (_ & H1 & H2 & H3 & H4 & H5).
  destruct (IH e1 Hrun H4) as (-> & -> & -> & -> & ->). by rewrite H5.
Qed.

Lemma internal_bounded l e e' :
  Forall (λ a, internal a = true) l → engine_run begin pstep l e = Some e' → length l ≤ work_left e.
Proof.
  intros Hl. revert e. induction Hl as [|a l Ha Hl IH]; intros e; simpl; [lia |].
  destruct (engine_step begin pstep a e) as [e1|] eqn:E; [| done]. simpl. intros Hrun%IH.
  destruct (internal_step a e e1 Ha E) as [Hlt _]. lia.
Qed.
End single_start.

(** ** The theorems on the running engine *)

Section engine_theorems.
Context {P T : Type} (begin : AccessEvent → T) (pstep : T → P → option (option T * P)) (n : Z) (opts : list EngineOption) (p : P).

Lemma New_started_once : started_once (NewEngine (T := T) n opts p).
Proof. intros _. by split. Qed.

Lemma run_bounded l e :
  (1 ≤ n)%Z → Forall config_option opts → engine_run begin pstep l (NewEngine n opts p) = Some e →
  bounded (NewEngine_cfg n opts) e.
Proof.
  intros Hn Ho Hrun. destruct (cfg_positive n opts Hn Ho) as (Hw & Hb & _). eapply run_inv; [| exact Hrun |].
  - intros a e1 e2 He. apply (bounded_step begin pstep _ a); [lia | done].
  - constructor; try done. intros sem. simpl. lia.
Qed.

(** C19: no event is lost, duplicated or invented.  In every state that is reached by any
    interleaving of starts, stops, submissions, dispatch loops and steps of the workers without a
    panic, each submitted event is in exactly one place: still in its [Submit], queued, held by a
    dispatch loop, in a worker whose [Process] has not returned, processed, or reported dropped.
    At most [workers] events are processed at a time for each start, and no channel exceeds its
    buffer. *)
Theorem engine_accounts (l : list action) (e : Engine P T) :
  (1 ≤ n)%Z → Forall config_option opts → engine_run begin pstep l (NewEngine n opts p) = Some e →
  (e_panicked e = false → ledger e) ∧
  (∀ sem, Z.of_nat (length (filter (λ w, w.1 = sem) (e_workers e))) ≤ cfg_workers (NewEngine_cfg n opts))%Z ∧
  Forall (λ ch, Z.of_nat (length (ch_queue ch)) ≤ cfg_eventBufSize (NewEngine_cfg n opts))%Z (e_chans e).
Proof.
  intros Hn Ho Hrun. destruct (run_bounded l e Hn Ho Hrun) as [_ Hs Hbuf].
  split_and!; [| done | done]. apply (run_ledger begin pstep l _ _ Hrun). apply perm_nil.
Qed.

(** C20: [Stop] returns, and nothing is left behind.  Take an engine that was started once and is
    stopping, that has not panicked, and whose processor's calls never block each other for ever,
    as those of the vertex processor do not ([processor_laws]).
    From any state it can reach, its loop and workers make at most [work_left] steps; after any
    of them, either one of them can go on, or [wg.Wait] returns and every event that was submitted
    was processed, or reported dropped, or is still between the two steps of its [Submit]. *)
Theorem engine_Stop_drains Inv cost most (l : list action) (e : Engine P T) :
  process_laws begin pstep Inv cost most → Inv [] p →
  (1 ≤ n)%Z → Forall config_option opts → engine_run begin pstep l (NewEngine n opts p) = Some e →
  length (e_chans e) = 1 → e_running e = false → e_panicked e = false → 0 < e_stopping e →
  (∀ l' e', Forall (λ a, internal a = true) l' → engine_run begin pstep l' e = Some e' →
    length l' ≤ work_left cost most e ∧
    ((∃ a e'', internal a = true ∧ engine_step begin pstep a e' = Some e'') ∨
     ∃ e'', Stop_return e' = Some e'' ∧ e_submitted e'' ≡ₚ (su_ev <$> e_submitters e'') ++ e_done e'' ++ (e_dropped e'').*1)) ∧
  ∃ l' e', Forall (λ a, internal a = true) l' ∧ engine_run begin pstep l' e = Some e' ∧ is_Some (Stop_return e').
Proof.
  intros Laws Hinit Hn Ho Hrun Hlen Hr Hpan Hst.
  destruct (cfg_positive n opts Hn Ho) as (Hw & _). rewrite <- (bd_cfg _ _ (run_bounded l e Hn Ho Hrun)) in Hw.
  assert (∀ l e, engine_run begin pstep l (NewEngine n opts p) = Some e → started_once e ∧ Inv (calls e) (e_proc e)) as Hinv.
  { intros l0 e0 Hrun0. split.
    - eapply run_inv; [| exact Hrun0 | apply New_started_once]. intros a0 e1 e2. apply started_once_step.
    - eapply (run_inv begin pstep (λ e, Inv (calls e) (e_proc e))); [| exact Hrun0 | exact Hinit]. intros a0 e1 e2. by eapply calls_step. }
  destruct (Hinv l e Hrun) as [Hso Hcalls]. split.
  - intros l' e' Hl' He'. split; [by eapply internal_bounded |].
    destruct (internal_run begin pstep Inv cost most Laws l' e e' Hl' He' Hpan) as (Hr' & Hst' & Hc' & Hp' & Hlen').
    assert (engine_run begin pstep (l ++ l') (NewEngine n opts p) = Some e') as Hrun' by by rewrite engine_run_app, Hrun.
    destruct (Hinv _ _ Hrun') as [Hso' Hcalls'].
    destruct (decide (e_disps e' = [])) as [Hd|Hd], (decide (e_workers e' = [])) as [Hwk|Hwk].
    2-4: left; apply (stopped_progress begin pstep Inv cost most Laws); (congruence || (by rewrite Hc') || auto).
    right. pose proof (run_ledger begin pstep _ _ _ Hrun' (perm_nil _) Hp') as Hled.
    destruct Hso' as [_ Hso']; [lia |]. unfold ledger, in_flight, at_work in Hled. rewrite Hd, Hwk in Hled.
    destruct (e_chans e') as [|ch [|? ?]] eqn:Hch; simpl in Hlen'; [lia | | lia].
    destruct Hso' as [_ [(d & Hd' & _)|(_ & Hq & _)]]; [by rewrite Hd in Hd' |]. csimpl in Hled. rewrite Hq in Hled.
    unfold Stop_return. rewrite Hd, Hwk. destruct (e_stopping e') as [|k]; [lia |]. by eexists.
  - destruct (stopped_drains begin pstep Inv cost most Laws e Hso Hcalls Hlen Hr Hpan Hw) as (l' & e' & Hl & He' & Hd & Hwk).
    destruct (internal_run begin pstep Inv cost most Laws l' e e' Hl He' Hpan) as (_ & Hst' & _).
    exists l', e'. split_and!; try done. unfold Stop_return. rewrite Hd, Hwk. destruct (e_stopping e'); [lia | by eexists].
Qed.

(** One worker keeps the order.  An engine with one worker, started once, processes the
    accepted events in the order in which they were accepted, skipping only dropped ones: what
    was processed, what the worker has, what the loop holds and what is queued follow one
    another in the order of acceptance. *)
Theorem engine_one_worker (l : list action) (e : Engine P T) :
  engine_run begin pstep l (NewEngine n opts p) = Some e → length (e_chans e) ≤ 1 →
  cfg_workers (e_cfg e) = 1%Z →
  e_done e ++ line e `sublist_of` e_accepted e.
Proof.
  intros Hrun Hlen Hcfg.
  assert (started_once e ∧ in_order e) as [_ Ho]; [| by apply Ho].
  eapply (run_inv begin pstep (λ e, started_once e ∧ in_order e)); [| exact Hrun |].
  - intros a e1 e2 He [H1 H2]. split; [by apply (started_once_step begin pstep a e1) | by apply (in_order_step begin pstep a e1)].
  - split; [apply New_started_once |]. intros _ _. simpl. split; [lia | done].
Qed.
End engine_theorems.

(** ** The vertex processor under the engine *)

Section processor.
Context {C H R W : Type} `{HashCache C, FileHasher H, LayerFileResolver R} `{HashFn, GoSort} (now : Z) (ctx : context).
Notation pool := (WorkerPool C H R W).
Implicit Types s : pool.

(** A pool seen with certain workers only; the engine keeps the workers itself. *)
Definition with_workers (ws : list (AccessEvent * phase)) s : pool :=
  pool_with s (wp_engine s) (wp_m s) (wp_calls s) (wp_builders s) (wp_heap s) ws.

(** [processor.Process] as a thread: the place it has reached, as [LmWorkers] has it. *)
Definition process_begin (ev : AccessEvent) : AccessEvent * phase := (ev, PhTop).

Definition process_step (t : AccessEvent * phase) s : option (option (AccessEvent * phase) * pool) :=
  s' ← worker_step 0 now ctx (with_workers [t] s);
  t' ← wp_workers s' !! 0;
  Some (if at_end t'.2 then None else Some t', with_workers [] s').

(** Calls that have not returned, with someone at work on each coalesced call without a value *)
Definition process_inv (ts : list (AccessEvent * phase)) s : Prop :=
  leaders_ok (with_workers ts s) ∧ Forall (λ t, at_end t.2 = false) ts.

(** The step of one worker is the step of its thread. *)
Lemma worker_step_thread l1 t l2 s :
  worker_step (length l1) now ctx (with_workers (l1 ++ t :: l2) s)
  = s' ← worker_step 0 now ctx (with_workers [t] s); t' ← wp_workers s' !! 0; Some (with_workers (l1 ++ t' :: l2) s').
Proof.
  unfold worker_step. cbn [with_workers pool_with wp_workers]. rewrite list_lookup_middle by done. destruct t as [ev ph].
  cbn [lookup list_lookup mbind option_bind wp_engine wp_m wp_calls wp_builders wp_heap].
  destruct (engine_phase _ _ _ _ _) as [[ph' e']|]; [cbn; by rewrite insert_middle |].
  destruct (group_phase _ _ _ _) as [[[ph' m'] calls']|]; [cbn; by rewrite insert_middle |].
  destruct (builder_phase _ _ _ _) as [[[ph' bs'] heap']|]; [cbn; by rewrite insert_middle | done].
Qed.

Lemma process_step_worker l1 t l2 s t' s' :
  process_step t s = Some (t', s') →
  ∃ t1, t' = (if at_end t1.2 then None else Some t1)
    ∧ worker_step (length l1) now ctx (with_workers (l1 ++ t :: l2) s) = Some (with_workers (l1 ++ t1 :: l2) s').
Proof.
  unfold process_step. rewrite worker_step_thread. destruct (worker_step 0 now ctx (with_workers [t] s)) as [s1|]; [| done].
  cbn [mbind option_bind]. destruct (wp_workers s1 !! 0) as [t1|]; [| done]. intros [= <- <-]. by exists t1.
Qed.

Lemma leaders_ok_ended l1 t l2 s : at_end t.2 = true → leaders_ok (with_workers (l1 ++ t :: l2) s) → leaders_ok (with_workers (l1 ++ l2) s).
Proof.
  intros He [Hm Hw Hl]. cbn [with_workers pool_with wp_workers wp_calls wp_m] in *. split; cbn [with_workers pool_with wp_workers wp_calls wp_m].
  - exact Hm.
  - intros ev c Hin. apply (Hw ev). rewrite elem_of_app in *. rewrite elem_of_cons. tauto.
  - intros c call Hc Hv. destruct (Hl c call Hc Hv) as (w & Hin & Hlead). exists w. split; [| done].
    apply elem_of_middle in Hin as [->|Hin]; [by destruct t as [? []] | done].
Qed.

(** The laws that [Stop] relies on hold of the vertex processor: its calls never wait for each
    other for ever, and each makes at most twelve steps. *)
Lemma processor_laws : process_laws process_begin process_step process_inv (λ t, phase_weight t.2) 12.
Proof.
  split.
  - intros ts s ev [Hok Hne]. split; [by apply (leaders_ok_step (WNew ev) (with_workers ts s)) |]. apply Forall_app_2; [done |]. by repeat constructor.
  - intros l1 t l2 s t' s' [Hok Hne] Hs. destruct (process_step_worker l1 t l2 s t' s' Hs) as (t1 & -> & Hw).
    apply (leaders_ok_step (WStep (length l1) now ctx)) in Hw; [| done].
    apply Forall_app in Hne as [Hn1 [_ Hn2]%Forall_cons]. destruct (at_end t1.2) eqn:He; simpl.
    + split; [by eapply leaders_ok_ended | by apply Forall_app].
    + split; [done |]. apply Forall_app. split; [done |]. by constructor.
  - intros ts s [Hok Hne] Hts. destruct (pool_progress _ now ctx Hok) as [i [s' Hs]].
    { cbn [with_workers pool_with wp_workers]. intros Hall. destruct ts as [|t ts]; [done |].
      apply Forall_cons in Hne as [He _]. apply Forall_cons in Hall as [He' _]. congruence. }
    destruct (worker_step_inv _ _ _ _ _ Hs) as (ev & ph & Hi & _). cbn [with_workers pool_with wp_workers] in Hi.
    exists (ev, ph). split; [by eapply list_elem_of_lookup_2 |].
    apply list_split in Hi as (l1 & l2 & -> & ->). rewrite worker_step_thread in Hs. unfold process_step.
    destruct (worker_step 0 now ctx (with_workers [(ev, ph)] s)) as [s1|]; [| done]. cbn [mbind option_bind] in *.
    destruct (wp_workers s1 !! 0); [by eexists | done].
  - intros ev. simpl. lia.
  - intros t s t' s' Hs. destruct (process_step_worker [] t [] s (Some t') s' Hs) as (t1 & E & Hw).
    destruct (at_end t1.2); [done |]. injection E as ->. apply pool_work_step in Hw.
    unfold pool_work in Hw. cbn in Hw. lia.
Qed.

Lemma processor_start e fo : process_inv [] (NewWorkerPool (C := C) (H := H) (R := R) (W := W) e fo).
Proof. split; [exact (NewPool_leaders e fo) | constructor]. Qed.
End processor.

(** ** Panics and restarts *)

Section races.
Context {P T : Type} (begin : AccessEvent → T) (pstep : T → P → option (option T * P)) (n : Z) (opts : list EngineOption) (p : P).

(** A caller that is not interrupted: both steps of [Submit] together, or one step that is not
    of [Submit]. *)
Inductive undisturbed : list action → Prop :=
  | undisturbed_submit ev o : undisturbed [ASubmit ev; AProceed 0 o]
  | undisturbed_other a : (∀ ev, a ≠ ASubmit ev) → (∀ i o, a ≠ AProceed i o) → undisturbed [a].

(** The channel of a running engine is open. *)
Definition open_when_running (e : Engine P T) : Prop :=
  e_running e = true → last (ch_closed <$> e_chans e) = Some false.

Lemma closed_alter f c (l : list event_chan) :
  (∀ ch, ch_closed (f ch) = ch_closed ch) → ch_closed <$> alter f c l = ch_closed <$> l.
Proof. intros Hf. revert c. induction l as [|x l IH]; intros [|c]; csimpl; [done .. | by rewrite Hf | by rewrite IH]. Qed.

Lemma closed_insert c ch ch' (l : list event_chan) :
  l !! c = Some ch → ch_closed ch' = ch_closed ch → ch_closed <$> <[c := ch']> l = ch_closed <$> l.
Proof.
  intros Hc Hcl. apply list_split in Hc as (l1 & l2 & -> & ->).
  by rewrite insert_middle, !fmap_middle, Hcl.
Qed.

Lemma proceed_open i o e e' :
  Submit_proceed i o e = Some e' → open_when_running e → open_when_running e'.
Proof.
  unfold Submit_proceed, open_when_running. destruct (e_submitters e !! i); [| done].
  intros [= <-]. cbn [e_running e_chans]. destruct (submit_select e _ o); [| done | done].
  by rewrite closed_alter.
Qed.

Lemma other_open a e e' :
  engine_step begin pstep a e = Some e' → (∀ ev, a ≠ ASubmit ev) → (∀ i o, a ≠ AProceed i o) →
  open_when_running e → open_when_running e' ∧ e_panicked e' = e_panicked e ∧ e_submitters e' = e_submitters e.
Proof.
  unfold engine_step, open_when_running. intros He Ha Hp Ho. destruct (e_panicked e) eqn:Hpan; [done |].
  destruct a as [| | |ev|i o|i o|i]; simplify_eq/=; try (by destruct (Ha ev)); try (by destruct (Hp i o)).
  - unfold Start. destruct (e_running e) eqn:Hr; simpl; (split_and!; [| congruence | done]); [intros _; by apply Ho |].
    intros _. by rewrite fmap_app, last_app.
  - unfold Stop. destruct (e_running e) eqn:Hr; simpl; (split_and!; [congruence | congruence | done]).
  - unfold Stop_return in He. repeat case_match; by simplify_eq/=.
  - unfold dispatchLoop in He. repeat case_match; simplify_eq; split_and!; try done;
      cbn [with_disps e_running e_chans]; intros Hr; first [by apply Ho | erewrite closed_insert; [by apply Ho | eassumption | done]].
  - unfold worker_run in He. destruct (e_workers e !! i) as [[sem [ev t]]|]; [| done]. simpl in He.
    by destruct (pstep t (e_proc e)) as [[t' p1]|]; simplify_eq/=.
Qed.

Lemma block_safe b e e' :
  undisturbed b → engine_run begin pstep b e = Some e' →
  e_panicked e = false ∧ e_submitters e = [] ∧ open_when_running e →
  e_panicked e' = false ∧ e_submitters e' = [] ∧ open_when_running e'.
Proof.
  intros Hb Hrun (Hp & Hs & Ho). destruct Hb as [ev o|a Ha Ha'].
  - assert (Submit_proceed 0 o (Submit_begin ev e) = Some e') as E.
    { revert Hrun. unfold engine_run, engine_step. rewrite Hp. cbn [mbind option_bind].
      change (e_panicked (Submit_begin ev e)) with (e_panicked e). rewrite Hp.
      by destruct (Submit_proceed 0 o (Submit_begin ev e)). }
    split_and!; [| | by apply (proceed_open 0 o (Submit_begin ev e))].
    + unfold Submit_proceed in E. simpl in E. rewrite Hs in E. simpl in E. simplify_eq. simpl. rewrite Hp.
      destruct (submit_select _ _ o) eqn:Hsel; [done | done |]. exfalso.
      unfold submit_select, eventCh in Hsel. simpl in Hsel. destruct (e_running e) eqn:Hr; [| done].
      specialize (Ho Hr). destruct o; [done |]. rewrite fmap_last in Ho.
      destruct (e_chans e) as [|c l] eqn:Hch; [done |].
      assert ((c :: l) !! pred (length (c :: l)) = last (c :: l)) as El by (by rewrite last_lookup).
      rewrite El in Hsel. destruct (last (c :: l)) as [ch|]; [| done]. simpl in Ho. injection Ho as Ho.
      rewrite Ho in Hsel. by case_decide.
    + unfold Submit_proceed in E. simpl in E. rewrite Hs in E. simpl in E. by simplify_eq.
  - simpl in Hrun. destruct (engine_step begin pstep a e) as [e1|] eqn:E; simplify_eq/=.
    destruct (other_open a e e' E Ha Ha' Ho) as (Ho' & Hp' & Hs'). by rewrite Hp', Hs'.
Qed.

(** [Submit] panics when it races with [Stop].  [Submit] sends after it released the
    mutex: a [Stop] in between closes the channel, and the send on it ends the process.  When no
    other call comes between the two steps of a [Submit], nothing ever panics. *)
Theorem engine_Submit_panics :
  (∀ ev, ∃ e, engine_run begin pstep [AStart; ASubmit ev; AStop; AProceed 0 None] (NewEngine n opts p) = Some e ∧
    e_panicked e = true) ∧
  (∀ blocks e, Forall undisturbed blocks →
    engine_run begin pstep (concat blocks) (NewEngine n opts p) = Some e → e_panicked e = false).
Proof.
  split; [intros ev; eexists; split; [vm_compute; reflexivity | reflexivity] |].
  intros blocks e Hb Hrun.
  assert (∀ e0, e_panicked e0 = false ∧ e_submitters e0 = [] ∧ open_when_running e0 →
    engine_run begin pstep (concat blocks) e0 = Some e → e_panicked e = false) as Hgen;
    [| by apply (Hgen (NewEngine n opts p))].
  clear Hrun. induction Hb as [|b blocks Hb Hbs IH]; intros e0 Hinv; simpl; [intros [= <-]; apply Hinv |].
  rewrite engine_run_app. destruct (engine_run begin pstep b e0) as [e1|] eqn:E; [| done]. simpl.
  apply IH. by apply (block_safe b e0).
Qed.

(** A restart can lose events for good.  The dispatch loop reads [e.eventCh] when it starts
    to run.  When a [Stop] and a second [Start] come before that, both loops read the second
    channel: the event accepted into the first stays there, not processed and not reported
    dropped, and both [Stop]s return. *)
Theorem engine_restart_loses (ev : AccessEvent) :
  (1 ≤ n)%Z → Forall config_option opts →
  ∃ e, engine_run begin pstep
    [AStart; ASubmit ev; AProceed 0 None; AStop; AStart; ADispatch 0 None; ADispatch 1 None; AStop;
     ADispatch 0 None; ADispatch 0 None; AStopReturn; AStopReturn] (NewEngine n opts p) = Some e ∧
    e_accepted e = [ev] ∧ e_done e = [] ∧ e_dropped e = [] ∧ e_panicked e = false ∧
    e_disps e = [] ∧ e_workers e = [] ∧ e_stopping e = 0 ∧
    ch_queue <$> e_chans e = [[ev]; []].
Proof.
  intros Hn Ho. destruct (cfg_positive n opts Hn Ho) as (_ & Hb & _).
  unfold NewEngine. destruct (NewEngine_cfg n opts) as [w b c s]. simpl in Hb.
  destruct b as [|b|b]; [lia | | lia]. eexists. split; [vm_compute; reflexivity |]. by split_and!.
Qed.
End races.

(** ** Batches, feeds, keys *)

(** A batch result adds up.  Every event of the batch is counted once, as submitted or as
    dropped, and has one entry in [Errors]; an entry is an error exactly when the event was a
    read access and its [Submit] failed; write-class events reach no [Submit], the others do in
    order. *)
Theorem SubmitBatch_counts {S : Type} (Submit : AccessEvent → S → result unit * S)
    (events : list AccessEvent) (s : S) :
  let '(r, s') := SubmitBatch Submit events s in
  (br_Submitted r + br_Dropped r = Z.of_nat (length events))%Z ∧
  length (br_Errors r) = length events ∧
  br_Submitted r = Z.of_nat (length (filter (λ x, IsReadAccess x.1 = true ∧ x.2 = None) (zip events (br_Errors r)))) ∧
  Forall (λ x, IsReadAccess x.1 = false → x.2 = None) (zip events (br_Errors r)) ∧
  s' = foldl (λ s ev, (Submit ev s).2) s (filter (λ ev, IsReadAccess ev = true) events).
Proof.
  unfold SubmitBatch. induction events as [|ev events IH] using rev_ind; [done |].
  rewrite foldl_app. cbn [foldl]. destruct (foldl _ _ events) as [r s'].
  destruct IH as (Hn & Hl & Hs & Hf & ->). unfold batch_step.
  rewrite filter_app, foldl_app, length_app, filter_cons, filter_nil.
  destruct (IsReadAccess ev) eqn:Hr; cbn [decide].
  - rewrite decide_True by done. cbn [foldl]. destruct (Submit ev _) as [[?|err] s'']; cbn [br_Submitted br_Dropped br_Errors snd];
      rewrite length_app, zip_with_app by done; cbn [zip_with];
      rewrite filter_app, length_app, filter_cons, filter_nil, Forall_app; cbn [fst snd]; [rewrite decide_True by done | rewrite decide_False by (intros [_ ?]; done)]; cbn [length];
      (split_and!; [lia | lia | lia | done | apply Forall_singleton; simpl; congruence | done]).
  - rewrite decide_False by done. cbn [foldl br_Submitted br_Dropped br_Errors].
    rewrite length_app, zip_with_app by done. cbn [zip_with].
    rewrite filter_app, length_app, filter_cons, filter_nil, Forall_app. cbn [fst snd]. rewrite decide_False by (intros [? _]; congruence). cbn [length].
    split_and!; [lia | lia | lia | done | by apply Forall_singleton | done].
Qed.

(** The pipeline adapter submits nothing: no source is decoded ([parseLayerStack_rejects]). *)
Lemma ConvertAndSubmit_never {S : Type} (Submit : AccessEvent → S → result unit * S) dropOnFull src s :
  ConvertAndSubmit Submit dropOnFull src s = (Ok tt, ([], s)).
Proof.
  unfold ConvertAndSubmit, AccessEventFromEnriched. case_decide; [done |]. by rewrite parseLayerStack_rejects.
Qed.

Lemma le_value_bound b : (le_value b < 256 ^ N.of_nat (length b))%N.
Proof.
  induction b as [|x b IH]; [simpl; lia |]. cbn [le_value length].
  rewrite Nat2N.inj_succ, N.pow_succ_r'. pose proof (Byte.to_N_bounded x). lia.
Qed.

Lemma le_value_inj b1 b2 : length b1 = length b2 → le_value b1 = le_value b2 → b1 = b2.
Proof.
  revert b2. induction b1 as [|x b1 IH]; intros [|y b2]; simpl; intros Hl He; try done.
  pose proof (Byte.to_N_bounded x). pose proof (Byte.to_N_bounded y).
  assert (Byte.to_N x = Byte.to_N y ∧ le_value b1 = le_value b2) as [Hx Hb] by lia.
  rewrite (IH b2) by (done || lia). f_equal.
  assert (Some x = Some y) as [= ->]; [| done]. by rewrite <- !Byte.of_to_N, Hx.
Qed.

Lemma sum_words_inj b1 b2 : length b1 = 32 → length b2 = 32 → sum_words b1 = sum_words b2 → b1 = b2.
Proof.
  assert (∀ b : list byte, length b = 32 →
    b = take 8 (drop 0 b) ++ take 8 (drop 8 b) ++ take 8 (drop 16 b) ++ take 8 (drop 24 b)) as Hsplit.
  { intros b Hb. do 33 (destruct b as [|? b]; [done || (exfalso; simpl in Hb; lia) |]). exfalso. simpl in Hb. lia. }
  intros L1 L2. unfold sum_words. intros [= E1 E2 E3 E4]. rewrite (Hsplit _ L1), (Hsplit _ L2).
  apply le_value_inj in E1, E2, E3, E4; [| by rewrite !length_take, !length_drop, L1, L2 ..]. congruence.
Qed.

(** The bytes hashed for a key *)
Definition key_input (layerID : LayerID) (relPath : string) : list byte :=
  str_bytes (layerID +:+ char_str go_nul +:+ relPath).

(** Fixed cache keys identify what they key.  The four words fit 64 bits, the shard index
    is below 256, and two keys are equal only for the same layer and path, unless the two
    inputs collide under SHA-256 (layer digests hold no NUL, which separates the two). *)
Theorem makeFixedCacheKey_spec (l1 l2 : LayerID) (p1 p2 : string) :
  ¬ char_in go_nul l1 → ¬ char_in go_nul l2 →
  Forall (λ w, w < 2 ^ 64)%N (makeFixedCacheKey l1 p1) ∧
  (shardIndex (makeFixedCacheKey l1 p1) < 256)%N ∧
  (makeFixedCacheKey l1 p1 = makeFixedCacheKey l2 p2 →
    l1 = l2 ∧ p1 = p2 ∨ key_input l1 p1 ≠ key_input l2 p2 ∧ sha256 (key_input l1 p1) = sha256 (key_input l2 p2)).
Proof.
  intros H1 H2. split_and!.
  - unfold makeFixedCacheKey, sum_words. set (b := sha256 _). assert (∀ k, le_value (take 8 (drop k b)) < 2 ^ 64)%N as Hw.
    { intros k. eapply N.lt_le_trans; [apply le_value_bound |]. rewrite length_take.
      change (2 ^ 64)%N with (256 ^ 8)%N. apply N.pow_le_mono_r; lia. }
    by repeat constructor.
  - unfold shardIndex. change 0xff%N with (N.ones 8). rewrite N.land_ones. apply N.mod_lt. done.
  - assert (∀ l p, makeFixedCacheKey l p = sum_words (sha256 (key_input l p))) as Hk
      by (intros l p; unfold key_input; by rewrite !str_bytes_app).
    rewrite !Hk. intros Hw. pose proof (sum_words_inj _ _ (sha256_length _) (sha256_length _) Hw) as Hs.
    destruct (decide (key_input l1 p1 = key_input l2 p2)) as [E|E]; [left | by right].
    apply (inj str_bytes) in E. by apply str_split_char_eq in E.
Qed.

(** ** Witnesses: a processor that lists the paths it saw, under a lock *)

(** A thread has the lock or waits for it; the state is the list, and whether the lock is taken. *)
Definition sample_begin (ev : AccessEvent) : string * bool := (ev_RelPath ev, false).

Definition sample_pstep (t : string * bool) (p : list string * bool) : option (option (string * bool) * (list string * bool)) :=
  if t.2 then Some (None, (p.1 ++ [t.1], false)) else if p.2 then None else Some (Some (t.1, true), (p.1, true)).

Definition sample_inv (ts : list (string * bool)) (p : list string * bool) : Prop :=
  length (filter (λ t, t.2 = true) ts) = if p.2 then 1 else 0.

Lemma sample_laws : process_laws sample_begin sample_pstep sample_inv (λ t, if t.2 then 1 else 2) 2.
Proof.
  unfold sample_inv. split.
  - intros ts p ev H. by rewrite filter_app, app_nil_r.
  - intros l1 [x []] l2 [seen busy] t' p' H; unfold sample_pstep; simpl; [| destruct busy; [done |]]; intros [= <- <-]; simpl in *;
      rewrite !filter_app, !length_app, ?filter_cons in *; simpl in *; try destruct busy; lia.
  - intros ts [seen busy] H Hne. simpl in H. destruct busy.
    + destruct (filter _ ts) as [|t l] eqn:E; [done |]. assert (t ∈ filter (λ t, t.2 = true) ts) as Ht by (rewrite E; by left).
      apply list_elem_of_filter in Ht as [Hl Ht]. exists t. split; [done |]. unfold sample_pstep. rewrite Hl. by eexists.
    + destruct ts as [|[x l] ts]; [done |]. exists (x, l). split; [by left |]. unfold sample_pstep. simpl. destruct l; by eexists.
  - done.
  - intros [x []] [seen busy] t' p'; unfold sample_pstep; simpl; [done |]. destruct busy; [done |]. intros [= <- <-]. simpl. lia.
Qed.

Definition sample_ev (p : string) : AccessEvent := sample_event "v" ["base"; "top"] p.

Definition sample_actions : list action :=
  [AStart; ASubmit (sample_ev "a"); AProceed 0 None; ASubmit (sample_ev "b"); ADispatch 0 None;
   ADispatch 0 None; AProceed 0 None; ADispatch 0 None; ASubmit (sample_ev "c"); AStop].

Lemma sample_options : Forall config_option [WithWorkers 1; WithEventBufferSize 2; WithWorkers 0].
Proof. repeat constructor; [exists 1%Z | exists 2%Z | exists 0%Z]; tauto. Qed.

Lemma engine_accounts_witness :
  ∃ e, engine_run sample_begin sample_pstep sample_actions
         (NewEngine 4 [WithWorkers 1; WithEventBufferSize 2; WithWorkers 0] ([], false)) = Some e ∧
    ledger e ∧ (su_ev <$> e_submitters e) = [sample_ev "c"] ∧ line e = [sample_ev "a"; sample_ev "b"].
Proof.
  eexists. split; [vm_compute; reflexivity |]. split; [| by vm_compute].
  apply (engine_accounts sample_begin sample_pstep 4 [WithWorkers 1; WithEventBufferSize 2; WithWorkers 0] ([], false) sample_actions);
    [lia | apply sample_options | vm_compute; reflexivity | reflexivity].
Defined.

Lemma engine_Stop_drains_witness :
  ∃ e, engine_run sample_begin sample_pstep sample_actions
         (NewEngine 4 [WithWorkers 1; WithEventBufferSize 2; WithWorkers 0] ([], false)) = Some e ∧
    work_left (λ t : string * bool, if t.2 then 1 else 2) 2 e = 10 ∧
    ∃ l' e', Forall (λ a, internal a = true) l' ∧ engine_run sample_begin sample_pstep l' e = Some e' ∧ is_Some (Stop_return e').
Proof.
  eexists. split; [vm_compute; reflexivity |]. split; [vm_compute; reflexivity |].
  refine (proj2 (engine_Stop_drains sample_begin sample_pstep 4 [WithWorkers 1; WithEventBufferSize 2; WithWorkers 0] ([], false)
    sample_inv (λ t, if t.2 then 1 else 2) 2 sample_actions _ sample_laws _ _ sample_options _ _ _ _ _));
    [reflexivity | lia | vm_compute; reflexivity | reflexivity | reflexivity | reflexivity | vm_compute; lia].
Defined.

Lemma engine_one_worker_witness :
  ∃ e, engine_run sample_begin sample_pstep (sample_actions ++ [AWork 0; AWork 0; ADispatch 0 None])
         (NewEngine 4 [WithWorkers 1; WithEventBufferSize 2; WithWorkers 0] ([], false)) = Some e ∧
    e_done e ++ line e = [sample_ev "a"; sample_ev "b"] ∧ e_done e ++ line e `sublist_of` e_accepted e.
Proof.
  eexists. split; [vm_compute; reflexivity |]. split; [vm_compute; reflexivity |].
  apply (engine_one_worker sample_begin sample_pstep 4 [WithWorkers 1; WithEventBufferSize 2; WithWorkers 0] ([], false)
    (sample_actions ++ [AWork 0; AWork 0; ADispatch 0 None])); [vm_compute; reflexivity | vm_compute; lia | reflexivity].
Defined.

Lemma engine_restart_loses_witness :
  ∃ e, engine_run sample_begin sample_pstep
    [AStart; ASubmit (sample_ev "a"); AProceed 0 None; AStop; AStart; ADispatch 0 None; ADispatch 1 None; AStop;
     ADispatch 0 None; ADispatch 0 None; AStopReturn; AStopReturn] (NewEngine 4 [] ([], false)) = Some e ∧
    e_accepted e = [sample_ev "a"] ∧ e_done e = [] ∧ e_dropped e = [] ∧ e_panicked e = false ∧
    e_disps e = [] ∧ e_workers e = [] ∧ e_stopping e = 0 ∧ ch_queue <$> e_chans e = [[sample_ev "a"]; []].
Proof. apply (engine_restart_loses sample_begin sample_pstep 4 [] ([], false) (sample_ev "a")); [lia | constructor]. Defined.

Lemma makeFixedCacheKey_spec_witness :
  (shardIndex (makeFixedCacheKey "sha256:aa" "etc/hosts") < 256)%N ∧
  (makeFixedCacheKey "sha256:aa" "etc/hosts" = makeFixedCacheKey "sha256:aa" "etc/hosts" →
    "sha256:aa" = "sha256:aa" ∧ "etc/hosts" = "etc/hosts" ∨ key_input "sha256:aa" "etc/hosts" ≠ key_input "sha256:aa" "etc/hosts" ∧
      sha256 (key_input "sha256:aa" "etc/hosts") = sha256 (key_input "sha256:aa" "etc/hosts")).
Proof.
  apply (makeFixedCacheKey_spec "sha256:aa" "sha256:aa" "etc/hosts" "etc/hosts");
    apply (bool_decide_eq_true_1 _); vm_compute; reflexivity.
Defined.
