(* ===== verification/LmSingleflight.v ===== *)
(** * LmSingleflight: [pkg/layermerkle/internal/singleflight/singleflight.go] and its users

    [Group.Do] as a labelled step function over any number of concurrent callers.  A caller
    comes with a request of some type [R], of which [key] is the key; what its [fn] may return
    is a relation [produces].  One action is one critical section under the mutex, the
    execution of [fn] with the [Done] that follows it, or one wake-up.  Calls are numbered, as
    pointers would be. *)
From S2P Require Import Prelude GoStd LmLayer LmCache LmHasher LmDedup LmWal LmEngine.

(** [call]: the request of the caller that created it (not in the code), and the result once
    [wg.Done] was called. *)
Record sf_call (R V : Type) := { sc_req : R; sc_val : option V }.
Arguments sc_req {R V}.
Arguments sc_val {R V}.

(** Where a caller of [Do] is: before the lock, waiting for a call, running its [fn], between
    [wg.Done] and the [delete], or back with a value and the flag [shared]. *)
Inductive sf_caller (R V : Type) :=
  | SfEnter (r : R)
  | SfWait (r : R) (c : nat)
  | SfRun (r : R) (c : nat)
  | SfDelete (r : R) (c : nat)
  | SfReturned (r : R) (v : V) (shared : bool).
Arguments SfEnter {R V}.
Arguments SfWait {R V}.
Arguments SfRun {R V}.
Arguments SfDelete {R V}.
Arguments SfReturned {R V}.

Record Group (R V : Type) := {
  g_m : gmap string nat;
  g_calls : list (sf_call R V);
  g_callers : list (sf_caller R V);
}.
Arguments g_m {R V}.
Arguments g_calls {R V}.
Arguments g_callers {R V}.
Arguments Build_Group {R V}.

Inductive sf_action (R V : Type) :=
  | ACall (r : R)
  | ALock (i : nat)
  | AFn (i : nat) (v : V)
  | AWake (i : nat)
  | ADelete (i : nat).
Arguments ACall {R V}.
Arguments ALock {R V}.
Arguments AFn {R V}.
Arguments AWake {R V}.
Arguments ADelete {R V}.

Section group.
Context {R V : Type} (key : R → string) (produces : R → V → bool).

Definition NewGroup : Group R V := {| g_m := ∅; g_calls := []; g_callers := [] |}.

(** The first critical section of [Do] *)
Definition Do_lock (i : nat) (g : Group R V) : option (Group R V) :=
  match g_callers g !! i with
  | Some (SfEnter r) =>
      match g_m g !! key r with
      | Some c => Some {| g_m := g_m g; g_calls := g_calls g; g_callers := <[i := SfWait r c]> (g_callers g) |}
      | None =>
          let c := length (g_calls g) in
          Some {| g_m := <[key r := c]> (g_m g);
                  g_calls := g_calls g ++ [{| sc_req := r; sc_val := None |}];
                  g_callers := <[i := SfRun r c]> (g_callers g) |}
      end
  | _ => None
  end.

(** [c.val, c.err = fn(); c.wg.Done()] *)
Definition Do_fn (i : nat) (v : V) (g : Group R V) : option (Group R V) :=
  match g_callers g !! i with
  | Some (SfRun r c) =>
      if produces r v then
        Some {| g_m := g_m g;
                g_calls := alter (λ x, {| sc_req := sc_req x; sc_val := Some v |}) c (g_calls g);
                g_callers := <[i := SfDelete r c]> (g_callers g) |}
      else None
  | _ => None
  end.

(** [c.wg.Wait()] returns *)
Definition Do_wake (i : nat) (g : Group R V) : option (Group R V) :=
  match g_callers g !! i with
  | Some (SfWait r c) =>
      match g_calls g !! c ≫= sc_val with
      | Some v => Some {| g_m := g_m g; g_calls := g_calls g; g_callers := <[i := SfReturned r v true]> (g_callers g) |}
      | None => None
      end
  | _ => None
  end.

(** The second critical section, and the return of the leader *)
Definition Do_delete (i : nat) (g : Group R V) : option (Group R V) :=
  match g_callers g !! i with
  | Some (SfDelete r c) =>
      match g_calls g !! c ≫= sc_val with
      | Some v =>
          Some {| g_m := delete (key r) (g_m g); g_calls := g_calls g;
                  g_callers := <[i := SfReturned r v false]> (g_callers g) |}
      | None => None
      end
  | _ => None
  end.

Definition sf_step (a : sf_action R V) (g : Group R V) : option (Group R V) :=
  match a with
  | ACall r => Some {| g_m := g_m g; g_calls := g_calls g; g_callers := g_callers g ++ [SfEnter r] |}
  | ALock i => Do_lock i g
  | AFn i v => Do_fn i v g
  | AWake i => Do_wake i g
  | ADelete i => Do_delete i g
  end.

Fixpoint sf_run (l : list (sf_action R V)) (g : Group R V) : option (Group R V) :=
  match l with
  | [] => Some g
  | a :: l => sf_step a g ≫= sf_run l
  end.

(** ** Invariant *)

(** The leader of call [c] for request [r], and whether it has the result. *)
Definition leads (g : Group R V) (i : nat) (r : R) (c : nat) (o : option V) : Prop :=
  g_calls g !! c = Some {| sc_req := r; sc_val := o |} ∧
  match o with
  | None => g_callers g !! i = Some (SfRun r c)
  | Some _ => g_callers g !! i = Some (SfDelete r c)
  end.

Record sf_inv (g : Group R V) : Prop := {
  inv_m k c : g_m g !! k = Some c → ∃ i r o, leads g i r c o ∧ key r = k;
  inv_run i r c : g_callers g !! i = Some (SfRun r c) → g_m g !! key r = Some c ∧ leads g i r c None;
  inv_del i r c : g_callers g !! i = Some (SfDelete r c) → g_m g !! key r = Some c ∧ ∃ v, leads g i r c (Some v);
  inv_one i j r r' c c' o o' : leads g i r c o → leads g j r' c' o' → key r = key r' → i = j;
  inv_wait i r c : g_callers g !! i = Some (SfWait r c) →
    ∃ r' o, g_calls g !! c = Some {| sc_req := r'; sc_val := o |} ∧ key r' = key r ∧
      (o = None → ∃ j, leads g j r' c None);
  inv_ret i r v sh : g_callers g !! i = Some (SfReturned r v sh) →
    ∃ c r', g_calls g !! c = Some {| sc_req := r'; sc_val := Some v |} ∧ key r' = key r ∧ (sh = false → r' = r);
  inv_val c r v : g_calls g !! c = Some {| sc_req := r; sc_val := Some v |} → produces r v = true;
}.

Lemma inv_New : sf_inv NewGroup.
Proof.
  split; unfold leads; cbn [g_calls g_callers g_m NewGroup]; try done.
  by intros i j r r' c c' o o' [Hc _].
Qed.

(** A leader is at one place and knows its call. *)
Lemma leads_fun g i r c o r' c' o' : leads g i r c o → leads g i r' c' o' → r = r' ∧ c = c' ∧ o = o'.
Proof. intros [H1 H2] [H3 H4]. destruct o, o'; simplify_eq; done. Qed.

Lemma not_leading g i r c o x :
  leads g i r c o → g_callers g !! i = Some x →
  match x with SfEnter _ | SfWait _ _ | SfReturned _ _ _ => False | _ => True end.
Proof. intros [_ H1] H2. destruct o; simplify_eq; done. Qed.

(** A step that only moves a caller which leads nothing keeps the leaders. *)
Lemma leads_move g m i x y j r c o :
  g_callers g !! i = Some x →
  match x with SfEnter _ | SfWait _ _ | SfReturned _ _ _ => True | _ => False end →
  match y with SfEnter _ | SfWait _ _ | SfReturned _ _ _ => True | _ => False end →
  leads {| g_m := m; g_calls := g_calls g; g_callers := <[i := y]> (g_callers g) |} j r c o ↔ leads g j r c o.
Proof.
  intros Hi Hx Hy. unfold leads. cbn [g_calls g_callers].
  assert (∀ z, match z with SfRun _ _ | SfDelete _ _ => True | _ => False end →
    <[i := y]> (g_callers g) !! j = Some z ↔ g_callers g !! j = Some z) as Hz.
  { intros z Hz. destruct (decide (i = j)) as [<-|Hne]; [| by rewrite list_lookup_insert_ne].
    rewrite list_lookup_insert_eq, Hi by (by eapply lookup_lt_Some).
    split; intros [= <-]; [destruct y | destruct x]; done. }
  destruct o; by rewrite Hz.
Qed.

Lemma lock_wait_inv g i r c :
  g_callers g !! i = Some (SfEnter r) → g_m g !! key r = Some c → sf_inv g →
  sf_inv {| g_m := g_m g; g_calls := g_calls g; g_callers := <[i := SfWait r c]> (g_callers g) |}.
Proof.
  intros Hi Hm [H1 H2 H3 H4 H5 H6 H7].
  assert (∀ j r' c' o, leads {| g_m := g_m g; g_calls := g_calls g; g_callers := <[i := SfWait r c]> (g_callers g) |} j r' c' o
    ↔ leads g j r' c' o) as HL by (intros; by eapply leads_move).
  split; cbn [g_m g_calls g_callers].
  - intros k c' Hk. destruct (H1 k c' Hk) as (j & r' & o & Hl & <-). exists j, r', o. by rewrite HL.
  - intros j r' c' Hj. apply list_lookup_insert_Some in Hj as [(_ & ? & _)|(_ & Hj)]; [done |].
    rewrite HL. by apply H2.
  - intros j r' c' Hj. apply list_lookup_insert_Some in Hj as [(_ & ? & _)|(_ & Hj)]; [done |].
    setoid_rewrite HL. by apply H3.
  - intros j j' r1 r2 c1 c2 o1 o2. rewrite !HL. apply H4.
  - intros j r' c' Hj. setoid_rewrite HL. apply list_lookup_insert_Some in Hj as [(<- & [= <- <-] & _)|(_ & Hj)]; [| by apply (H5 j)].
    destruct (H1 _ _ Hm) as (j & r1 & o & Hl & Hk). exists r1, o. destruct Hl as [Hc Hl].
    split_and!; [done | done |]. intros ->. by exists j.
  - intros j r' v sh Hj. apply list_lookup_insert_Some in Hj as [(_ & ? & _)|(_ & Hj)]; [done |]. by apply (H6 j r' v sh).
  - done.
Qed.

Lemma lock_new_inv g i r :
  g_callers g !! i = Some (SfEnter r) → g_m g !! key r = None → sf_inv g →
  sf_inv {| g_m := <[key r := length (g_calls g)]> (g_m g);
            g_calls := g_calls g ++ [{| sc_req := r; sc_val := None |}];
            g_callers := <[i := SfRun r (length (g_calls g))]> (g_callers g) |}.
Proof.
  intros Hi Hm [H1 H2 H3 H4 H5 H6 H7].
  set (g' := {| g_m := <[key r := length (g_calls g)]> (g_m g) |}).
  assert (∀ c x, g_calls g !! c = Some x → g_calls g' !! c = Some x) as Hkeep.
  { intros c x Hc. by apply lookup_app_l_Some. }
  assert (∀ c x, g_calls g' !! c = Some x → g_calls g !! c = Some x ∨ c = length (g_calls g) ∧ x = {| sc_req := r; sc_val := None |}) as Hnew.
  { intros c x Hc. apply lookup_app_Some in Hc as [Hc|[Hc1 Hc2]]; [by left | right].
    destruct (c - length (g_calls g)) as [|d] eqn:E; simpl in Hc2; [| done]. simplify_eq. split; [lia | done]. }
  assert (∀ j r' c o, leads g j r' c o → leads g' j r' c o) as HL1.
  { intros j r' c o Hl. pose proof (not_leading g j r' c o) as Hn. destruct Hl as [Hc Hl]. split; [by apply Hkeep |].
    destruct (decide (i = j)) as [<-|Hne]; [by destruct (Hn (SfEnter r)) |].
    unfold g'. cbn [g_callers]. by rewrite list_lookup_insert_ne. }
  assert (∀ j r' c o, leads g' j r' c o → leads g j r' c o ∨ j = i ∧ r' = r ∧ c = length (g_calls g) ∧ o = None) as HL2.
  { intros j r' c o [Hc Hl]. unfold g' in Hl. cbn [g_callers] in Hl.
    destruct (decide (i = j)) as [<-|Hne].
    - rewrite list_lookup_insert_eq in Hl by (by eapply lookup_lt_Some). right. by destruct o; simplify_eq.
    - rewrite list_lookup_insert_ne in Hl by done. left. split; [| done].
      destruct (Hnew _ _ Hc) as [?|[-> [= -> ->]]]; [done |].
      exfalso. destruct (H2 _ _ _ Hl) as [_ [Hc' _]]. apply lookup_lt_Some in Hc'. lia. }
  split.
  - intros k c Hk. cbn [g' g_m] in Hk. apply lookup_insert_Some in Hk as [[<- <-]|[Hne Hk]].
    + exists i, r, None. split; [| done]. split; [by apply list_lookup_middle |].
      apply list_lookup_insert_eq. by eapply lookup_lt_Some.
    + destruct (H1 k c Hk) as (j & r' & o & Hl & <-). exists j, r', o. split; [by apply HL1 | done].
  - intros j r' c Hj. apply list_lookup_insert_Some in Hj as [(<- & [= <- <-] & ?)|(Hne & Hj)].
    + split; [apply lookup_insert_eq |]. split; [by apply list_lookup_middle | by apply list_lookup_insert_eq].
    + destruct (H2 _ _ _ Hj) as [Hk Hl]. split; [| by apply HL1]. apply lookup_insert_Some. right.
      split; [intros E; by rewrite E, Hk in Hm | done].
  - intros j r' c Hj. apply list_lookup_insert_Some in Hj as [(_ & ? & _)|(Hne & Hj)]; [done |].
    destruct (H3 _ _ _ Hj) as [Hk [v Hl]]. split; [| exists v; by apply HL1]. apply lookup_insert_Some. right.
    split; [intros E; by rewrite E, Hk in Hm | done].
  - assert (∀ j r' c o, leads g j r' c o → key r ≠ key r') as Hfresh.
    { intros j r' c o [Hc Hl] E. rewrite E in Hm. destruct o.
      - destruct (H3 _ _ _ Hl) as [Hk _]. by rewrite Hk in Hm.
      - destruct (H2 _ _ _ Hl) as [Hk _]. by rewrite Hk in Hm. }
    intros j j' r1 r2 c1 c2 o1 o2 Hl1%HL2 Hl2%HL2 E.
    destruct Hl1 as [Hl1|(-> & -> & -> & ->)], Hl2 as [Hl2|(-> & -> & -> & ->)]; [by eapply H4 | | | done].
    + by destruct (Hfresh _ _ _ _ Hl1).
    + by destruct (Hfresh _ _ _ _ Hl2).
  - intros j r' c Hj. apply list_lookup_insert_Some in Hj as [(_ & ? & _)|(Hne & Hj)]; [done |].
    destruct (H5 _ _ _ Hj) as (r1 & o & Hc & Hk & Ho). exists r1, o. split_and!; [by apply Hkeep | done |].
    intros E. destruct (Ho E) as [j' Hl]. exists j'. by apply HL1.
  - intros j r' v sh Hj. apply list_lookup_insert_Some in Hj as [(_ & ? & _)|(Hne & Hj)]; [done |].
    destruct (H6 _ _ _ _ Hj) as (c & r1 & Hc & Hk & Hsh). exists c, r1. split_and!; [by apply Hkeep | done | done].
  - intros c r' v Hc. destruct (Hnew _ _ Hc) as [Hc'|[_ ?]]; [by eapply H7 | done].
Qed.

Lemma fn_inv g i r c v :
  g_callers g !! i = Some (SfRun r c) → produces r v = true → sf_inv g →
  sf_inv {| g_m := g_m g;
            g_calls := alter (λ x, {| sc_req := sc_req x; sc_val := Some v |}) c (g_calls g);
            g_callers := <[i := SfDelete r c]> (g_callers g) |}.
Proof.
  intros Hi Hv [H1 H2 H3 H4 H5 H6 H7]. destruct (H2 _ _ _ Hi) as [Hm Hlead].
  set (g' := {| g_m := g_m g |}).
  assert (g_calls g' !! c = Some {| sc_req := r; sc_val := Some v |}) as Hc'.
  { unfold g'. cbn [g_calls]. rewrite list_lookup_alter_eq. destruct Hlead as [-> _]. done. }
  assert (∀ c0, c0 ≠ c → g_calls g' !! c0 = g_calls g !! c0) as Hother.
  { intros c0 Hne. by apply list_lookup_alter_ne. }
  assert (∀ j r' o, leads g j r' c o → j = i) as Huniq.
  { intros j r' o Hl. apply (H4 _ _ _ _ _ _ _ _ Hl Hlead). destruct Hl as [Hl _], Hlead as [Hl' _]. by simplify_eq. }
  assert (∀ j r' c0 o, j ≠ i → leads g' j r' c0 o ↔ leads g j r' c0 o) as HLne.
  { intros j r' c0 o Hj. unfold leads, g'. cbn [g_callers]. rewrite !list_lookup_insert_ne by done. fold g'.
    destruct (decide (c0 = c)) as [->|Hne]; [| by rewrite <- (Hother c0) by done].
    split; intros [Hc Hl]; exfalso; apply Hj.
    - destruct o.
      + destruct (H3 _ _ _ Hl) as [_ [w Hw]]. by apply (Huniq _ r' (Some w)).
      + destruct (H2 _ _ _ Hl) as [_ Hw]. by apply (Huniq _ r' None).
    - by apply (Huniq j r' o). }
  assert (leads g' i r c (Some v)) as HLi.
  { split; [done |]. unfold g'. cbn [g_callers]. apply list_lookup_insert_eq. by eapply lookup_lt_Some. }
  assert (∀ r' c0 o, leads g' i r' c0 o → r' = r ∧ c0 = c ∧ o = Some v) as HLi'.
  { intros r' c0 o Hl. by destruct (leads_fun _ _ _ _ _ _ _ _ Hl HLi) as (-> & -> & ->). }
  split.
  - intros k c0 Hk. destruct (H1 _ _ Hk) as (j & r' & o & Hl & <-). destruct (decide (j = i)) as [->|Hne].
    + destruct (leads_fun _ _ _ _ _ _ _ _ Hl Hlead) as (-> & -> & ->). by exists i, r, (Some v).
    + exists j, r', o. by rewrite HLne.
  - intros j r' c0 Hj. apply list_lookup_insert_Some in Hj as [(<- & ? & _)|(Hne & Hj)]; [done |].
    rewrite HLne by done. by apply H2.
  - intros j r' c0 Hj. apply list_lookup_insert_Some in Hj as [(<- & [= <- <-] & _)|(Hne & Hj)].
    + split; [done | by exists v].
    + setoid_rewrite HLne; [| done]. by apply H3.
  - assert (∀ j r' c0 o, leads g' j r' c0 o → ∃ c1 o1, leads g j r' c1 o1) as Hback.
    { intros j r' c0 o Hl. destruct (decide (j = i)) as [->|Hne].
      - destruct (HLi' _ _ _ Hl) as (-> & _ & _). by exists c, None.
      - exists c0, o. by apply HLne. }
    intros j j' r1 r2 c1 c2 o1 o2 Hl1 Hl2 E.
    destruct (Hback _ _ _ _ Hl1) as (d1 & p1 & Hl1'), (Hback _ _ _ _ Hl2) as (d2 & p2 & Hl2'). by eapply H4.
  - intros j r' c0 Hj. apply list_lookup_insert_Some in Hj as [(<- & ? & _)|(Hne & Hj)]; [done |].
    destruct (H5 _ _ _ Hj) as (r1 & o & Hc & Hk & Ho). destruct (decide (c0 = c)) as [->|Hnc].
    + exists r, (Some v). destruct Hlead as [Hl _]. simplify_eq. done.
    + exists r1, o. rewrite Hother by done. split_and!; [done | done |]. intros E. destruct (Ho E) as [j' Hl].
      exists j'. destruct (decide (j' = i)) as [->|Hne']; [| by apply HLne].
      destruct (leads_fun _ _ _ _ _ _ _ _ Hl Hlead) as (_ & ? & _). done.
  - intros j r' w sh Hj. apply list_lookup_insert_Some in Hj as [(<- & ? & _)|(Hne & Hj)]; [done |].
    destruct (H6 _ _ _ _ Hj) as (c0 & r1 & Hc & Hk & Hsh). exists c0, r1.
    destruct (decide (c0 = c)) as [->|Hnc]; [destruct Hlead as [Hl _]; by rewrite Hl in Hc |].
    by rewrite Hother.
  - intros c0 r' w Hc. destruct (decide (c0 = c)) as [->|Hnc]; [by rewrite Hc' in Hc; simplify_eq |].
    rewrite Hother in Hc by done. by eapply H7.
Qed.

Lemma wake_inv g i r c v :
  g_callers g !! i = Some (SfWait r c) → g_calls g !! c ≫= sc_val = Some v → sf_inv g →
  sf_inv {| g_m := g_m g; g_calls := g_calls g; g_callers := <[i := SfReturned r v true]> (g_callers g) |}.
Proof.
  intros Hi Hv [H1 H2 H3 H4 H5 H6 H7].
  assert (∀ j r' c' o, leads {| g_m := g_m g; g_calls := g_calls g; g_callers := <[i := SfReturned r v true]> (g_callers g) |} j r' c' o
    ↔ leads g j r' c' o) as HL by (intros; by eapply leads_move).
  split; cbn [g_m g_calls g_callers].
  - intros k c' Hk. destruct (H1 k c' Hk) as (j & r' & o & Hl & <-). exists j, r', o. by rewrite HL.
  - intros j r' c' Hj. apply list_lookup_insert_Some in Hj as [(_ & ? & _)|(_ & Hj)]; [done |].
    rewrite HL. by apply H2.
  - intros j r' c' Hj. apply list_lookup_insert_Some in Hj as [(_ & ? & _)|(_ & Hj)]; [done |].
    setoid_rewrite HL. by apply H3.
  - intros j j' r1 r2 c1 c2 o1 o2. rewrite !HL. apply H4.
  - intros j r' c' Hj. setoid_rewrite HL. apply list_lookup_insert_Some in Hj as [(_ & ? & _)|(_ & Hj)]; [done |].
    by apply (H5 j).
  - intros j r' w sh Hj. apply list_lookup_insert_Some in Hj as [(<- & [= <- <- <-] & _)|(_ & Hj)]; [| by apply (H6 j r' w sh)].
    destruct (H5 _ _ _ Hi) as (r1 & o & Hc & Hk & _). rewrite Hc in Hv. simpl in Hv. subst o. by exists c, r1.
  - done.
Qed.

Lemma delete_inv g i r c v :
  g_callers g !! i = Some (SfDelete r c) → g_calls g !! c ≫= sc_val = Some v → sf_inv g →
  sf_inv {| g_m := delete (key r) (g_m g); g_calls := g_calls g;
            g_callers := <[i := SfReturned r v false]> (g_callers g) |}.
Proof.
  intros Hi Hv [H1 H2 H3 H4 H5 H6 H7]. destruct (H3 _ _ _ Hi) as [Hm [v' Hlead]].
  set (g' := {| g_m := delete (key r) (g_m g) |}).
  assert (∀ j r' c0 o, leads g' j r' c0 o ↔ j ≠ i ∧ leads g j r' c0 o) as HL.
  { intros j r' c0 o. unfold leads, g'. cbn [g_calls g_callers]. destruct (decide (j = i)) as [->|Hne].
    - rewrite list_lookup_insert_eq by (by eapply lookup_lt_Some). destruct o; naive_solver.
    - rewrite !list_lookup_insert_ne by done. naive_solver. }
  assert (∀ j r' c0 o, leads g j r' c0 o → j ≠ i → key r' ≠ key r) as Hkey.
  { intros j r' c0 o Hl Hne E. apply Hne. by apply (H4 _ _ _ _ _ _ _ _ Hl Hlead). }
  split.
  - intros k c0 Hk. cbn [g' g_m] in Hk. apply lookup_delete_Some in Hk as [Hne Hk]. destruct (H1 _ _ Hk) as (j & r' & o & Hl & <-).
    exists j, r', o. rewrite HL. split_and!; [| done | done]. intros ->.
    destruct (leads_fun _ _ _ _ _ _ _ _ Hl Hlead) as (-> & _). done.
  - intros j r' c0 Hj. apply list_lookup_insert_Some in Hj as [(_ & ? & _)|(Hne & Hj)]; [done |].
    destruct (H2 _ _ _ Hj) as [Hk Hl]. rewrite HL. split; [| done]. cbn [g' g_m]. apply lookup_delete_Some.
    split; [apply not_eq_sym; by apply (Hkey _ _ _ _ Hl) | done].
  - intros j r' c0 Hj. apply list_lookup_insert_Some in Hj as [(_ & ? & _)|(Hne & Hj)]; [done |].
    destruct (H3 _ _ _ Hj) as [Hk [w Hl]]. split; [| exists w; by apply HL]. cbn [g' g_m]. apply lookup_delete_Some.
    split; [apply not_eq_sym; by apply (Hkey _ _ _ _ Hl) | done].
  - intros j j' r1 r2 c1 c2 o1 o2 [_ Hl1]%HL [_ Hl2]%HL. by eapply H4.
  - intros j r' c0 Hj. apply list_lookup_insert_Some in Hj as [(_ & ? & _)|(Hne & Hj)]; [done |].
    destruct (H5 _ _ _ Hj) as (r1 & o & Hc & Hk & Ho). exists r1, o. split_and!; [done | done |].
    intros E. destruct (Ho E) as [j' Hl]. exists j'. apply HL. split; [| done]. intros ->.
    by destruct (leads_fun _ _ _ _ _ _ _ _ Hl Hlead) as (_ & _ & ?).
  - intros j r' w sh Hj. apply list_lookup_insert_Some in Hj as [(<- & [= <- <- <-] & _)|(_ & Hj)]; [| by apply (H6 j r' w sh)].
    destruct Hlead as [Hc _]. rewrite Hc in Hv. simpl in Hv. simplify_eq. by exists c, r.
  - done.
Qed.

Lemma step_inv a g g' : sf_step a g = Some g' → sf_inv g → sf_inv g'.
Proof.
  intros Hs Hg. destruct a as [r|i|i v|i|i]; simpl in Hs.
  - injection Hs as <-. destruct Hg as [H1 H2 H3 H4 H5 H6 H7].
    set (g' := {| g_m := g_m g |}).
    assert (∀ j x, g_callers g' !! j = Some x → g_callers g !! j = Some x ∨ x = SfEnter r) as Hnew.
    { intros j x Hj. apply lookup_app_Some in Hj as [Hj|[_ Hj]]; [by left |]. right.
      by apply list_lookup_singleton_Some in Hj as [_ <-]. }
    assert (∀ j r' c o, leads g' j r' c o ↔ leads g j r' c o) as HL.
    { intros j r' c o. unfold leads. split; intros [Hc Hl]; (split; [done |]); destruct o;
        try (by apply lookup_app_l_Some); by destruct (Hnew _ _ Hl) as [?|?]. }
    split; try done.
    + intros k c Hk. destruct (H1 _ _ Hk) as (j & r' & o & Hl & <-). exists j, r', o. by rewrite HL.
    + intros j r' c Hj. rewrite HL. destruct (Hnew _ _ Hj) as [Hj'|?]; [by apply H2 | done].
    + intros j r' c Hj. setoid_rewrite HL. destruct (Hnew _ _ Hj) as [Hj'|?]; [by apply H3 | done].
    + intros j j' r1 r2 c1 c2 o1 o2. rewrite !HL. apply H4.
    + intros j r' c Hj. setoid_rewrite HL. destruct (Hnew _ _ Hj) as [Hj'|?]; [by apply (H5 j) | done].
    + intros j r' w sh Hj. destruct (Hnew _ _ Hj) as [Hj'|?]; [by apply (H6 j r' w sh) | done].
  - unfold Do_lock in Hs. destruct (g_callers g !! i) as [[r| | | |]|] eqn:Hi; [| done..].
    destruct (g_m g !! key r) as [c|] eqn:Hm; simplify_eq; [by apply lock_wait_inv | by apply lock_new_inv].
  - unfold Do_fn in Hs. destruct (g_callers g !! i) as [[| |r c| |]|] eqn:Hi; [done | done | | done..].
    destruct (produces r v) eqn:Hp; simplify_eq. by apply fn_inv.
  - unfold Do_wake in Hs. destruct (g_callers g !! i) as [[|r c| | |]|] eqn:Hi; [done | | done..].
    destruct (g_calls g !! c ≫= sc_val) as [v|] eqn:Hv; simplify_eq. by apply (wake_inv g i r c v).
  - unfold Do_delete in Hs. destruct (g_callers g !! i) as [[| | |r c|]|] eqn:Hi; [done.. | | done | done].
    destruct (g_calls g !! c ≫= sc_val) as [v|] eqn:Hv; simplify_eq. by apply (delete_inv g i r c v).
Qed.

Lemma run_sf_inv l g g' : sf_run l g = Some g' → sf_inv g → sf_inv g'.
Proof.
  revert g. induction l as [|a l IH]; intros g; simpl; [by intros [= ->] |].
  destruct (sf_step a g) as [g1|] eqn:E; [| done]. simpl. intros Hr Hg. by apply (IH g1 Hr), (step_inv a g).
Qed.

(** The requests in a state are those of the calls. *)
Definition caller_req (c : sf_caller R V) : R :=
  match c with
  | SfEnter r | SfWait r _ | SfRun r _ | SfDelete r _ | SfReturned r _ _ => r
  end.

Definition requests_ok (Q : R → Prop) (g : Group R V) : Prop :=
  Forall (λ c, Q (caller_req c)) (g_callers g) ∧ Forall (λ c, Q (sc_req c)) (g_calls g).

Lemma requests_move Q g m i x y :
  requests_ok Q g → g_callers g !! i = Some x → caller_req y = caller_req x →
  requests_ok Q {| g_m := m; g_calls := g_calls g; g_callers := <[i := y]> (g_callers g) |}.
Proof.
  intros [H1 H2] Hi E. split; [| done]. apply Forall_insert; [done |]. rewrite E.
  rewrite Forall_lookup in H1. by apply (H1 i).
Qed.

Lemma run_requests Q l g g' :
  Forall (λ a, match a with ACall r => Q r | _ => True end) l → sf_run l g = Some g' →
  requests_ok Q g → requests_ok Q g'.
Proof.
  intros Hl. revert g. induction Hl as [|a l Ha Hl IH]; intros g; simpl; [by intros [= ->] |].
  destruct (sf_step a g) as [g1|] eqn:E; [| done]. simpl. intros Hr Hg. apply (IH g1 Hr). clear IH Hr.
  destruct a as [r|i|i v|i|i]; simpl in E.
  - injection E as <-. destruct Hg as [H1 H2]. split; [| done]. apply Forall_app. split; [done | by constructor].
  - unfold Do_lock in E. destruct (g_callers g !! i) as [[r| | | |]|] eqn:Hi; [| done..].
    destruct (g_m g !! key r) as [c|] eqn:Hm; simplify_eq; [by eapply requests_move |].
    destruct (requests_move Q g (g_m g) i _ (SfRun r (length (g_calls g))) Hg Hi) as [H1 H2]; [done |].
    split; [done |]. apply Forall_app. split; [done |]. constructor; [| constructor]. simpl.
    destruct Hg as [Hg _]. rewrite Forall_lookup in Hg. by apply (Hg _ _ Hi).
  - unfold Do_fn in E. destruct (g_callers g !! i) as [[| |r c| |]|] eqn:Hi; [done | done | | done..].
    destruct (produces r v) eqn:Hp; simplify_eq.
    destruct (requests_move Q g (g_m g) i _ (SfDelete r c) Hg Hi) as [H1 H2]; [done |].
    split; [done |]. cbn [g_calls]. apply Forall_alter; [done |]. by intros.
  - unfold Do_wake in E. destruct (g_callers g !! i) as [[|r c| | |]|] eqn:Hi; [done | | done..].
    destruct (g_calls g !! c ≫= sc_val) as [v|] eqn:Hv; simplify_eq. by eapply requests_move.
  - unfold Do_delete in E. destruct (g_callers g !! i) as [[| | |r c|]|] eqn:Hi; [done.. | | done | done].
    destruct (g_calls g !! c ≫= sc_val) as [v|] eqn:Hv; simplify_eq. by eapply requests_move.
Qed.
End group.

(** ** Returning *)

Section returning.
Context {R V : Type} (key : R → string) (produces : R → V → bool).

Definition is_call (a : sf_action R V) : bool := match a with ACall _ => true | _ => false end.

Definition is_returned (c : sf_caller R V) : bool := match c with SfReturned _ _ _ => true | _ => false end.

Definition caller_weight (c : sf_caller R V) : nat :=
  match c with SfEnter _ => 3 | SfRun _ _ => 2 | SfWait _ _ => 1 | SfDelete _ _ => 1 | SfReturned _ _ _ => 0 end.

(** A bound of the steps left to the callers that are in [Do]. *)
Definition steps_left (g : Group R V) : nat := total caller_weight (g_callers g).

Lemma total_insert {A} (w : A → nat) (l : list A) i x y :
  l !! i = Some x → total w (<[i := y]> l) + w x = total w l + w y.
Proof.
  intros Hi. apply list_split in Hi as (l1 & l2 & -> & ->). rewrite insert_middle, !total_app. simpl. lia.
Qed.

Lemma step_decreases a g g' :
  is_call a = false → sf_step key produces a g = Some g' → steps_left g' < steps_left g.
Proof.
  intros Ha Hs. unfold steps_left. destruct a as [r|i|i v|i|i]; simpl in Hs; [done | ..].
  - unfold Do_lock in Hs. destruct (g_callers g !! i) as [[r| | | |]|] eqn:Hi; [| done..].
    destruct (g_m g !! key r) as [c|]; simplify_eq; cbn [g_callers];
      [pose proof (total_insert caller_weight _ _ _ (SfWait r c) Hi) as E
      |pose proof (total_insert caller_weight _ _ _ (SfRun r (length (g_calls g))) Hi) as E]; simpl in E; lia.
  - unfold Do_fn in Hs. destruct (g_callers g !! i) as [[| |r c| |]|] eqn:Hi; [done | done | | done..].
    destruct (produces r v); simplify_eq. cbn [g_callers].
    pose proof (total_insert caller_weight _ _ _ (SfDelete r c) Hi) as E. simpl in E. lia.
  - unfold Do_wake in Hs. destruct (g_callers g !! i) as [[|r c| | |]|] eqn:Hi; [done | | done..].
    destruct (g_calls g !! c ≫= sc_val) as [v|]; simplify_eq. cbn [g_callers].
    pose proof (total_insert caller_weight _ _ _ (SfReturned r v true) Hi) as E. simpl in E. lia.
  - unfold Do_delete in Hs. destruct (g_callers g !! i) as [[| | |r c|]|] eqn:Hi; [done.. | | done | done].
    destruct (g_calls g !! c ≫= sc_val) as [v|]; simplify_eq. cbn [g_callers].
    pose proof (total_insert caller_weight _ _ _ (SfReturned r v false) Hi) as E. simpl in E. lia.
Qed.

(** A caller that has not returned can move, or waits for one that can. *)
Lemma sf_progress g i x :
  (∀ r, ∃ v, produces r v = true) → sf_inv key produces g →
  g_callers g !! i = Some x → is_returned x = false →
  ∃ a g', is_call a = false ∧ sf_step key produces a g = Some g'.
Proof.
  intros Htot [H1 H2 H3 H4 H5 H6 H7] Hi Hx.
  assert (∀ j r c, g_callers g !! j = Some (SfRun r c) →
    ∃ a g', is_call a = false ∧ sf_step key produces a g = Some g') as Hrun.
  { intros j r c Hj. destruct (Htot r) as [v Hv]. exists (AFn j v). simpl. unfold Do_fn. rewrite Hj, Hv. by eexists. }
  destruct x as [r|r c|r c|r c|r v sh]; [| | by eapply Hrun | | done].
  - exists (ALock i). simpl. unfold Do_lock. rewrite Hi. destruct (g_m g !! key r); by eexists.
  - destruct (H5 _ _ _ Hi) as (r' & [v|] & Hc & Hk & Ho).
    + exists (AWake i). simpl. unfold Do_wake. rewrite Hi, Hc. by eexists.
    + destruct (Ho eq_refl) as [j [_ Hj]]. by eapply Hrun.
  - exists (ADelete i). simpl. unfold Do_delete. rewrite Hi. destruct (H3 _ _ _ Hi) as [_ [v [Hc _]]].
    rewrite Hc. by eexists.
Qed.

Lemma sf_all_return g :
  (∀ r, ∃ v, produces r v = true) → sf_inv key produces g →
  ∃ l g', Forall (λ a, is_call a = false) l ∧ sf_run key produces l g = Some g' ∧
    Forall (λ c, is_returned c = true) (g_callers g').
Proof.
  intros Htot. remember (steps_left g) as n eqn:Hn. revert g Hn.
  induction (lt_wf n) as [n _ IH]. intros g -> Hinv.
  destruct (decide (Forall (λ c, is_returned c = true) (g_callers g))) as [Hall|Hall].
  { exists [], g. split_and!; [constructor | done | done]. }
  apply not_Forall_Exists, Exists_exists in Hall as (x & [i Hi]%list_elem_of_lookup_1 & Hx); [| apply _].
  destruct (sf_progress g i x Htot Hinv Hi) as (a & g1 & Ha & Hs); [by apply not_true_is_false |].
  destruct (IH _ (step_decreases a g g1 Ha Hs) g1 eq_refl) as (l & g2 & Hl & Hr & Hret);
    [by apply (step_inv key produces a g) |].
  exists (a :: l), g2. simpl. rewrite Hs. split_and!; [by constructor | done | done].
Qed.

(** C23: [Do] coalesces correctly.  In every state reached by any interleaving of callers: for
    each key at most one [fn] runs; a caller that ran its own [fn] returns that result; one
    that shared returns what the [fn] of a caller with the same key produced. *)
Theorem Do_coalesces (l : list (sf_action R V)) (g : Group R V) :
  sf_run key produces l NewGroup = Some g →
  (∀ i j r r' c c', g_callers g !! i = Some (SfRun r c) → g_callers g !! j = Some (SfRun r' c') →
    key r = key r' → i = j) ∧
  (∀ i r v shared, g_callers g !! i = Some (SfReturned r v shared) →
    ∃ r', key r' = key r ∧ produces r' v = true ∧ (shared = false → r' = r)).
Proof.
  intros Hrun. destruct (run_sf_inv key produces l NewGroup g Hrun (inv_New key produces)) as [H1 H2 H3 H4 H5 H6 H7].
  split.
  - intros i j r r' c c' Hi Hj E. destruct (H2 _ _ _ Hi) as [_ Hl], (H2 _ _ _ Hj) as [_ Hl'].
    by apply (H4 _ _ _ _ _ _ _ _ Hl Hl').
  - intros i r v sh Hi. destruct (H6 _ _ _ _ Hi) as (c & r' & Hc & Hk & Hsh). exists r'.
    split_and!; [done | by apply (H7 c) | done].
Qed.

(** Every caller of [Do] returns.  From any reachable state, when each [fn] returns
    something, the callers that are in [Do] can all return without a new call, and every
    schedule of theirs ends within [steps_left] steps: nobody waits for ever. *)
Theorem Do_returns (l : list (sf_action R V)) (g : Group R V) :
  (∀ r, ∃ v, produces r v = true) → sf_run key produces l NewGroup = Some g →
  (∃ l' g', Forall (λ a, is_call a = false) l' ∧ sf_run key produces l' g = Some g' ∧
    Forall (λ c, is_returned c = true) (g_callers g')) ∧
  (∀ l' g', Forall (λ a, is_call a = false) l' → sf_run key produces l' g = Some g' → length l' ≤ steps_left g).
Proof.
  intros Htot Hrun. split.
  - apply sf_all_return; [done |]. by apply (run_sf_inv key produces l NewGroup g Hrun), inv_New.
  - clear Hrun. intros l' g' Hl. revert g. induction Hl as [|a l' Ha Hl IH]; intros g; simpl; [lia |].
    destruct (sf_step key produces a g) as [g1|] eqn:E; [| done]. simpl. intros Hr%IH.
    apply step_decreases in E; [lia | done].
Qed.

(** A call can get a result that is older than itself.  [wg.Done] comes before the [delete],
    outside the mutex: a caller that begins after the [fn] of another has finished, but before
    the [delete], does not run its own [fn] and returns the finished result. *)
Theorem Do_stale_join (r r' : R) (v : V) :
  key r = key r' → produces r v = true →
  ∃ g1 g2, sf_run key produces [ACall r; ALock 0; AFn 0 v] NewGroup = Some g1 ∧
    g_callers g1 = [SfDelete r 0] ∧
    sf_run key produces [ACall r'; ALock 1; AWake 1] g1 = Some g2 ∧
    g_callers g2 = [SfDelete r 0; SfReturned r' v true].
Proof.
  intros Hk Hv. eexists _, _. split_and!.
  - cbn. unfold Do_lock. cbn. rewrite lookup_empty. cbn. unfold Do_fn. cbn. rewrite Hv. reflexivity.
  - reflexivity.
  - cbn. unfold Do_lock. cbn. rewrite <- Hk, lookup_insert_eq. reflexivity.
  - reflexivity.
Qed.
End returning.

(** ** The users of the group *)

Section dedup_group.
Context {C H R W : Type} `{HashCache C, FileHasher H, LayerFileResolver R}.

(** [Resolve] calls [Do] with this key, *)
Definition dedup_key (req : HashRequest) : string := singleflightKey (req_LayerStack req) (req_RelPath req).

(** and its [fn] returns a result that carries the vertex and the path of its own request. *)
Definition result_for (req : HashRequest) (res : HashResult) : bool :=
  bool_decide (res_VertexID res = req_VertexID req ∧ res_RelPath res = req_RelPath req).

Lemma dedup_resolve_for now ctx req (e e' : DeduplicationEngine C H R W) res :
  dedup_resolve now ctx req e = (Ok res, e') → result_for req res = true.
Proof.
  intros Hr. apply bool_decide_eq_true. unfold dedup_resolve in Hr. repeat case_match; by simplify_eq/=.
Qed.

(** A coalesced result is for the right file and may name the wrong vertex.  Concurrent
    [Resolve] calls share a [HashResult] only when they are for the same layer stack and path
    (identifiers without the separators of the key), but the shared value is the leader's,
    pointer and all: a second vertex that asks for the same file at the same time gets a
    result whose [VertexID] is that of the first. *)
Theorem dedup_coalesced_results :
  (∀ now ctx req (e e' : DeduplicationEngine C H R W) res,
    dedup_resolve now ctx req e = (Ok res, e') → result_for req res = true) ∧
  (∀ l g i req res shared,
    Forall (λ a, match a with ACall r => req_LayerStack r ≠ [] ∧
      Forall (λ id, ¬ char_in "|" id ∧ ¬ char_in go_nul id) (req_LayerStack r) | _ => True end) l →
    sf_run dedup_key result_for l NewGroup = Some g →
    g_callers g !! i = Some (SfReturned req res shared) →
    res_RelPath res = req_RelPath req ∧
    (∃ req', req_LayerStack req' = req_LayerStack req ∧ res_VertexID res = req_VertexID req')) ∧
  (∀ req req' res, req_LayerStack req = req_LayerStack req' → req_RelPath req = req_RelPath req' →
    req_VertexID req ≠ req_VertexID req' → result_for req res = true →
    ∃ g, sf_run dedup_key result_for [ACall req; ACall req'; ALock 0; ALock 1; AFn 0 res; AWake 1] NewGroup = Some g ∧
      g_callers g !! 1 = Some (SfReturned req' res true) ∧ res_VertexID res ≠ req_VertexID req').
Proof.
  split_and!; [intros; by eapply dedup_resolve_for | |].
  - intros l g i req res shared Hl Hrun Hi.
    destruct (run_sf_inv dedup_key result_for l NewGroup g Hrun (inv_New _ _)) as [_ _ _ _ _ H6 H7].
    set (ok := λ r, req_LayerStack r ≠ [] ∧
      Forall (λ id, ¬ char_in "|" id ∧ ¬ char_in go_nul id) (req_LayerStack r)).
    destruct (run_requests dedup_key result_for ok l NewGroup g Hl Hrun) as [Hq Hc]; [by split |].
    destruct (H6 _ _ _ _ Hi) as (c & req' & Hcall & Hk & _).
    pose proof (H7 _ _ _ Hcall) as [Hv Hp]%bool_decide_eq_true.
    destruct (proj1 (Forall_lookup _ _) Hq _ _ Hi) as [Hn Ho], (proj1 (Forall_lookup _ _) Hc _ _ Hcall) as [Hn' Ho'].
    apply singleflightKey_inj in Hk as [Es Ep]; [| done..]. split; [by rewrite Hp |]. by exists req'.
  - intros req req' res Hs Hp Hv Hr.
    assert (dedup_key req = dedup_key req') as Hk by (unfold dedup_key; by rewrite Hs, Hp).
    eexists. split_and!.
    + cbn. unfold Do_lock at 1. cbn. rewrite lookup_empty. cbn. unfold Do_lock. cbn.
      rewrite <- Hk, lookup_insert_eq. cbn. unfold Do_fn. cbn. rewrite Hr. reflexivity.
    + reflexivity.
    + apply bool_decide_eq_true in Hr as [-> _]. done.
Qed.
End dedup_group.

(** ** Witnesses: requests are keys, results numbers *)

Definition sample_produces (r : string) (n : nat) : bool := bool_decide (String.length r = n).

Definition sample_sf : list (sf_action string nat) :=
  [ACall "lib"; ACall "lib"; ACall "bin"; ALock 0; ALock 1; ALock 2; AFn 0 3; AWake 1].

Lemma Do_coalesces_witness :
  ∃ g, sf_run id sample_produces sample_sf NewGroup = Some g ∧
    g_callers g = [SfDelete "lib" 0; SfReturned "lib" 3 true; SfRun "bin" 1] ∧
    ∃ r', id r' = "lib" ∧ sample_produces r' 3 = true ∧ (true = false → r' = "lib").
Proof.
  assert (∃ g, sf_run id sample_produces sample_sf NewGroup = Some g ∧
    g_callers g = [SfDelete "lib" 0; SfReturned "lib" 3 true; SfRun "bin" 1]) as (g & E & Hc).
  { eexists. split; [vm_compute; reflexivity | reflexivity]. }
  exists g. split_and!; [done | done |].
  apply (proj2 (Do_coalesces id sample_produces sample_sf g E) 1 "lib" 3 true). by rewrite Hc.
Defined.

Lemma Do_returns_witness :
  ∃ g, sf_run id sample_produces sample_sf NewGroup = Some g ∧ steps_left g = 3 ∧
    ∃ l' g', Forall (λ a, is_call a = false) l' ∧ sf_run id sample_produces l' g = Some g' ∧
      Forall (λ c, is_returned c = true) (g_callers g').
Proof.
  eexists. split; [vm_compute; reflexivity |]. split; [reflexivity |].
  apply (Do_returns id sample_produces sample_sf); [| vm_compute; reflexivity].
  intros r. exists (String.length r). by apply bool_decide_eq_true.
Defined.

Lemma Do_stale_join_witness :
  ∃ g1 g2, sf_run id sample_produces [ACall "lib"; ALock 0; AFn 0 3] NewGroup = Some g1 ∧
    g_callers g1 = [SfDelete "lib" 0] ∧
    sf_run id sample_produces [ACall "lib"; ALock 1; AWake 1] g1 = Some g2 ∧
    g_callers g2 = [SfDelete "lib" 0; SfReturned "lib" 3 true].
Proof. apply (Do_stale_join id sample_produces "lib" "lib" 3); vm_compute; reflexivity. Defined.
