(* ===== verification/FsLayer.v ===== *)
(** * FsLayer: [pkg/fshash/internal/core] and [pkg/fshash/layer]

    The domain types of the access-tracking engine, layer chains, the layer store and the
    resolver that says which file of which layer a chain shows.  A layer identifier is the
    string it wraps, zero when empty.  A Go set [map[string]struct{}] is a map to [unit], so that
    listing it goes through the order in which Go visits a map. *)
From S2P Require Import Prelude GoStd GoPath.

(** ** internal/core/types.go *)

Abbreviation FsLayerID := string (only parsing).
Abbreviation FsVertexID := string (only parsing).

Definition IsZero (id : FsLayerID) : bool := bool_decide (id = EmptyString).

(** [AccessOp]; the zero value is not an operation *)
Inductive AccessOp := OpNone | OpRead | OpWrite | OpClose | OpDelete | OpUnknown (n : N).

Record FsAccessEvent := {
  fe_LayerID : FsLayerID;
  fe_VertexID : FsVertexID;
  fe_Path : string;
  fe_Op : AccessOp;
  fe_Offset : N;
  fe_Count : N;
  fe_Data : option (list byte);      (* None: a nil slice *)
  fe_Timestamp : Z;
}.

Definition HasRange (e : FsAccessEvent) : bool := (0 <? fe_Count e)%N.

Definition FsErrLayerNotFound : error := ESentinel "fshash: layer not found".
Definition FsErrLayerExists : error := ESentinel "fshash: layer already exists".
Definition FsErrTreeEmpty : error := ESentinel "fshash: tree has no leaves".
Definition FsErrInvalidEvent : error := ESentinel "fshash: invalid access event".
Definition FsErrClosed : error := ESentinel "fshash: processor is closed".

(** [AccessEvent.Validate] *)
Definition event_Validate (e : FsAccessEvent) : result unit :=
  if IsZero (fe_LayerID e) then Err (EWrap ["missing layer ID"] FsErrInvalidEvent)
  else if decide (fe_Path e = EmptyString) then Err (EWrap ["missing file path"] FsErrInvalidEvent)
  else match fe_Op e with
       | OpNone => Err (EWrap ["missing access operation"] FsErrInvalidEvent)
       | _ => Ok tt
       end.

Record FsFileHash := {
  fh_Path : string;
  fh_Hash : list byte;
  fh_Algorithm : string;
  fh_LayerID : FsLayerID;
  fh_Size : Z;
}.

Inductive Action := ActionCompute | ActionReuse | ActionSkip | ActionExclude.

#[export] Instance Action_eq_dec : EqDecision Action.
Proof. solve_decision. Defined.

(** [DeduplicationResult]; the zero hash when there is none *)
Record DeduplicationResult := {
  dr_Event : FsAccessEvent;
  dr_Action : Action;
  dr_CachedHash : option FsFileHash;
  dr_SourceLayer : FsLayerID;
}.

Record ProcessorStats := {
  ps_EventsReceived : N; ps_EventsComputed : N; ps_EventsReused : N; ps_EventsSkipped : N;
  ps_EventsExcluded : N; ps_CacheHits : N; ps_CacheMisses : N; ps_LayersRegistered : N; ps_TreesFinalized : N;
}.

(** ** layer/chain.go *)

Record Chain := { c_layers : list FsLayerID; c_index : gmap string nat }.

(** The index: the last position of an identifier wins. *)
Definition NewChain (layers : list FsLayerID) : Chain :=
  {| c_layers := layers;
     c_index := foldl (λ (m : gmap string nat) x, <[x.2 := x.1]> m) ∅ (imap (λ i l, (i, l)) layers) |}.

Definition chain_Depth (c : Chain) : nat := length (c_layers c).
Definition chain_Contains (c : Chain) (id : FsLayerID) : bool := bool_decide (is_Some (c_index c !! id)).

(** [Position]; [None] for -1 *)
Definition chain_Position (c : Chain) (id : FsLayerID) : option nat := c_index c !! id.

Definition chain_Top (c : Chain) : FsLayerID := default EmptyString (last (c_layers c)).
Definition chain_Bottom (c : Chain) : FsLayerID := default EmptyString (head (c_layers c)).

Definition chain_Above (c : Chain) (id : FsLayerID) : list FsLayerID :=
  match chain_Position c id with
  | None => []
  | Some pos => if decide (length (c_layers c) - 1 ≤ pos) then [] else drop (pos + 1) (c_layers c)
  end.

Definition chain_Freeze (c : Chain) : Chain := NewChain (c_layers c).

(** [ChainBuilder] is its slice. *)
Definition builder_Push (id : FsLayerID) (b : list FsLayerID) : list FsLayerID := b ++ [id].
Definition builder_Build (b : list FsLayerID) : Chain := NewChain b.

(** ** layer/store.go *)

Record manifest := {
  mf_parentID : FsLayerID;
  mf_modified : gmap string unit;
  mf_deleted : gmap string unit;
  mf_opaque : gmap string unit;
}.

(** [memStore] *)
Abbreviation memStore := (gmap string manifest) (only parsing).

Definition store_Register (id parentID : FsLayerID) (s : memStore) : result unit * memStore :=
  if IsZero id then (Err (EWrap ["layer ID must not be empty"] FsErrInvalidEvent), s)
  else
    match s !! id with
    | Some _ => (Err (EWrap [id] FsErrLayerExists), s)
    | None =>
        if negb (IsZero parentID) && bool_decide (s !! parentID = None)
        then (Err (EWrap ["parent"; parentID] FsErrLayerNotFound), s)
        else (Ok tt, <[id := {| mf_parentID := parentID; mf_modified := ∅; mf_deleted := ∅; mf_opaque := ∅ |}]> s)
    end.

Definition getManifest (id : FsLayerID) (s : memStore) : result manifest :=
  match s !! id with Some m => Ok m | None => Err (EWrap [id] FsErrLayerNotFound) end.

(** An update of the manifest of [id] *)
Definition with_manifest (f : manifest → manifest) (id : FsLayerID) (s : memStore) : result unit * memStore :=
  match getManifest id s with
  | Err e => (Err e, s)
  | Ok m => (Ok tt, <[id := f m]> s)
  end.

Definition store_MarkModified (id : FsLayerID) (path : string) : memStore → result unit * memStore :=
  with_manifest (λ m, {| mf_parentID := mf_parentID m; mf_modified := <[path := tt]> (mf_modified m);
    mf_deleted := mf_deleted m; mf_opaque := mf_opaque m |}) id.

Definition store_MarkDeleted (id : FsLayerID) (path : string) : memStore → result unit * memStore :=
  with_manifest (λ m, {| mf_parentID := mf_parentID m; mf_modified := mf_modified m;
    mf_deleted := <[path := tt]> (mf_deleted m); mf_opaque := mf_opaque m |}) id.

Definition store_MarkOpaque (id : FsLayerID) (dir : string) : memStore → result unit * memStore :=
  with_manifest (λ m, {| mf_parentID := mf_parentID m; mf_modified := mf_modified m;
    mf_deleted := mf_deleted m; mf_opaque := <[dir := tt]> (mf_opaque m) |}) id.

(** The field of the manifest of [id], empty without a manifest *)
Definition in_manifest (f : manifest → gmap string unit) (id : FsLayerID) (path : string) (s : memStore) : bool :=
  match getManifest id s with Err _ => false | Ok m => bool_decide (f m !! path = Some tt) end.

Definition store_IsModified := in_manifest mf_modified.
Definition store_IsDeleted := in_manifest mf_deleted.
Definition store_IsOpaque := in_manifest mf_opaque.

Definition manifest_paths `{GoRange} (f : manifest → gmap string unit) (id : FsLayerID) (s : memStore) : list string :=
  match getManifest id s with Err _ => [] | Ok m => (map_range (f m)).*1 end.

Definition store_ModifiedPaths `{GoRange} := manifest_paths mf_modified.
Definition store_DeletedPaths `{GoRange} := manifest_paths mf_deleted.
Definition store_OpaqueDirs `{GoRange} := manifest_paths mf_opaque.

Definition store_Parent (id : FsLayerID) (s : memStore) : result FsLayerID :=
  match getManifest id s with Err e => Err e | Ok m => Ok (mf_parentID m) end.

Definition store_Exists (id : FsLayerID) (s : memStore) : bool := bool_decide (is_Some (s !! id)).

(** The loop of [OwnerOf], from the top *)
Fixpoint owner_loop (s : memStore) (path : string) (rev_chain : list FsLayerID) : option FsLayerID :=
  match rev_chain with
  | [] => None
  | l :: rest => if store_IsModified l path s then Some l else owner_loop s path rest
  end.

Definition store_OwnerOf (chain : list FsLayerID) (path : string) (s : memStore) : FsLayerID * bool :=
  match owner_loop s path (reverse chain) with
  | Some l => (l, true)
  | None => (default EmptyString (head chain), false)
  end.

(** ** layer/resolver.go *)

Fixpoint any_modified (s : memStore) (path : string) (above : list FsLayerID) : bool :=
  match above with
  | [] => false
  | l :: rest => if store_IsModified l path s then true else any_modified s path rest
  end.

Definition NeedsRehash (s : memStore) (chain : Chain) (path : string) (cachedLayerID : FsLayerID) : bool :=
  match chain_Position chain cachedLayerID with
  | None => true
  | Some _ => any_modified s path (chain_Above chain cachedLayerID)
  end.

Definition ResolveOwner (s : memStore) (chain : Chain) (path : string) : FsLayerID * bool :=
  store_OwnerOf (c_layers chain) path s.

(** The inner loop of [IsFileVisible]: the index of the last slash, [None] for -1 *)
Fixpoint last_slash (s : string) : option nat :=
  match s with
  | EmptyString => None
  | String a s' =>
      match last_slash s' with
      | Some i => Some (S i)
      | None => if decide (a = go_slash) then Some 0 else None
      end
  end.

(** The loop over the ancestors: each turn shortens the path, so its length is enough fuel. *)
Fixpoint opaque_above (fuel : nat) (s : memStore) (lid : FsLayerID) (ancestor : string) : bool :=
  match fuel with
  | 0 => false
  | S fuel =>
      match last_slash ancestor with
      | None => false
      | Some slash =>
          let dir := if decide (0 < slash) then str_take slash ancestor else "/" in
          if store_IsOpaque lid dir s then true
          else if decide (dir = "/") then false
          else opaque_above fuel s lid dir
      end
  end.

(** The layers above the owner, from the top: none deletes the path or hides an ancestor. *)
Fixpoint visible_loop (s : memStore) (path : string) (uppers : list FsLayerID) : bool :=
  match uppers with
  | [] => true
  | lid :: rest =>
      if store_IsDeleted lid path s then false
      else if opaque_above (S (String.length path)) s lid path then false
      else visible_loop s path rest
  end.

Definition IsFileVisible (s : memStore) (chain : Chain) (path : string) : bool :=
  let layers := c_layers chain in
  match layers with
  | [] => false
  | _ =>
      let '(owner, _) := store_OwnerOf layers path s in
      let ownerPos := default 0 (chain_Position chain owner) in
      visible_loop s path (reverse (drop (S ownerPos) layers))
  end.

(** ** Chains *)

Lemma index_spec (layers : list FsLayerID) (n : nat) (m : gmap string nat) id :
  NoDup layers →
  foldl (λ (m : gmap string nat) x, <[x.2 := x.1]> m) m (imap (λ i l, (n + i, l)) layers) !! id
  = match list_find (λ l, l = id) layers with Some x => Some (n + x.1) | None => m !! id end.
Proof.
  revert n m. induction layers as [|l layers IH]; intros n m Hnd; [done |].
  apply NoDup_cons in Hnd as [Hl Hnd]. cbn [imap foldl]. rewrite Nat.add_0_r.
  rewrite (imap_ext _ (λ i l, (S n + i, l))) by (intros; unfold compose; f_equal; lia). rewrite IH by done.
  cbn [list_find snd fst]. case_decide as Hid.
  - subst l. assert (list_find (λ l, l = id) layers = None) as ->.
    { apply list_find_None, Forall_forall. intros x Hx ->. done. }
    by rewrite lookup_insert_eq, Nat.add_0_r.
  - destruct (list_find _ layers) as [[i x]|]; csimpl; [f_equal; lia |]. by rewrite lookup_insert_ne.
Qed.

(** In a chain without repetitions the position is the index. *)
Lemma Position_spec (layers : list FsLayerID) id i :
  NoDup layers → chain_Position (NewChain layers) id = Some i ↔ layers !! i = Some id.
Proof.
  intros Hnd. unfold chain_Position, NewChain. cbn [c_index].
  pose proof (index_spec layers 0 ∅ id Hnd) as E. cbn [Nat.add] in E. rewrite E, lookup_empty.
  destruct (list_find (λ l, l = id) layers) as [[j x]|] eqn:F.
  - apply list_find_Some in F as (Hj & -> & Hlt). cbn [fst]. split; [by intros [= <-] |].
    intros Hi. f_equal. by apply (NoDup_lookup layers j i id).
  - split; [done |]. intros Hi. apply list_find_None in F.
    rewrite Forall_lookup in F. by destruct (F _ _ Hi).
Qed.

Lemma Position_split (lower upper : list FsLayerID) id :
  NoDup (lower ++ id :: upper) → chain_Position (NewChain (lower ++ id :: upper)) id = Some (length lower).
Proof. intros Hnd. apply Position_spec; [done |]. by rewrite list_lookup_middle. Qed.

Lemma Above_split (lower upper : list FsLayerID) id :
  NoDup (lower ++ id :: upper) → chain_Above (NewChain (lower ++ id :: upper)) id = upper.
Proof.
  intros Hnd. unfold chain_Above. rewrite Position_split by done. cbn [c_layers NewChain]. rewrite length_app.
  simpl. case_decide as H.
  - destruct upper; [done | simpl in H; lia].
  - rewrite Nat.add_1_r, <- Nat.add_1_r, <- drop_drop, drop_app_length. done.
Qed.

Lemma any_modified_false s path above :
  any_modified s path above = false ↔ Forall (λ l, store_IsModified l path s = false) above.
Proof.
  induction above as [|l above IH]; cbn [any_modified]; [done |]. rewrite Forall_cons.
  destruct (store_IsModified l path s); naive_solver.
Qed.

(** A cached hash is reused only when nothing above it changed the file.  [NeedsRehash]
    says no exactly when the layer of the hash is in the chain and no layer above it modified
    the path. *)
Theorem NeedsRehash_spec (s : memStore) (layers : list FsLayerID) (path : string) (cached : FsLayerID) :
  NoDup layers →
  NeedsRehash s (NewChain layers) path cached = false ↔
  ∃ lower upper, layers = lower ++ cached :: upper ∧
    Forall (λ l, store_IsModified l path s = false) upper.
Proof.
  intros Hnd. unfold NeedsRehash. split.
  - destruct (chain_Position _ cached) as [i|] eqn:Hp; [| done]. intros Ha.
    apply Position_spec in Hp; [| done]. exists (take i layers), (drop (S i) layers).
    split; [by rewrite take_drop_middle |]. rewrite <- (take_drop_middle layers i cached) in Hnd, Ha by done.
    rewrite Above_split in Ha by done. by apply any_modified_false.
  - intros (lower & upper & -> & Hup). rewrite Position_split, Above_split by done. by apply any_modified_false.
Qed.

(** ** Owners *)

(** The layer whose version of a path a chain shows: the topmost that modified it, else the
    bottom. *)
Definition owns (s : memStore) (path : string) (lower : list FsLayerID) (owner : FsLayerID)
    (upper : list FsLayerID) : Prop :=
  (store_IsModified owner path s = true ∨ lower = [] ∧ store_IsModified owner path s = false) ∧
  Forall (λ x, store_IsModified x path s = false) upper.

Lemma owner_loop_skip s path l1 l2 :
  Forall (λ x, store_IsModified x path s = false) l1 → owner_loop s path (l1 ++ l2) = owner_loop s path l2.
Proof. induction 1 as [|x l1 Hx H IH]; [done |]. simpl. by rewrite Hx. Qed.

Lemma OwnerOf_owns s path lower owner upper :
  owns s path lower owner upper → (store_OwnerOf (lower ++ owner :: upper) path s).1 = owner.
Proof.
  intros [Ho Hup]. unfold store_OwnerOf. rewrite reverse_app, reverse_cons, <- !app_assoc.
  rewrite owner_loop_skip by (by apply Forall_reverse). simpl.
  destruct Ho as [->|[-> ->]]; done.
Qed.

Lemma owner_exists s path layers :
  layers ≠ [] → ∃ lower owner upper, layers = lower ++ owner :: upper ∧ owns s path lower owner upper.
Proof.
  intros Hne. induction layers as [|x l IH] using rev_ind; [done |]. clear Hne.
  destruct (store_IsModified x path s) eqn:Hx.
  { exists l, x, []. split; [done |]. by split; [left |]. }
  destruct l as [|y l]; [exists [], x, []; split; [done |]; split; [by right | constructor] |].
  destruct IH as (lower & owner & upper & E & Ho & Hup); [done |]. exists lower, owner, (upper ++ [x]).
  rewrite E, <- app_assoc. split; [done |]. split; [done |]. apply Forall_app. by repeat constructor.
Qed.

(** ** Ancestors *)

Lemma last_slash_None s : ¬ char_in go_slash s → last_slash s = None.
Proof.
  induction s as [|a s IH]; intros Hs; [done |]. cbn [last_slash].
  rewrite char_in_cons in Hs. rewrite IH by tauto. apply decide_False. intros ->. tauto.
Qed.

Lemma last_slash_app s n :
  ¬ char_in go_slash n → last_slash (s +:+ "/" +:+ n) = Some (String.length s).
Proof.
  intros Hn. induction s as [|a s IH]; cbn [String.app last_slash String.length].
  - change ("" +:+ "/" +:+ n) with (String go_slash n). cbn [last_slash]. by rewrite last_slash_None.
  - change (String a s +:+ "/" +:+ n) with (String a (s +:+ "/" +:+ n)). cbn [last_slash]. by rewrite IH.
Qed.

(** The directories above the path with the given segments, [rooted] or relative. *)
Definition dir_path (rooted : bool) (l : list string) : string :=
  if rooted then abs_path l else rel_path l.

Definition proper_prefix (ys xs : list string) : Prop := ∃ zs, zs ≠ [] ∧ xs = ys ++ zs.

Definition is_ancestor (rooted : bool) (xs : list string) (d : string) : Prop :=
  ∃ ys, proper_prefix ys xs ∧ (rooted = false → ys ≠ []) ∧ d = dir_path rooted ys.

Lemma proper_prefix_snoc ys xs n : proper_prefix ys (xs ++ [n]) ↔ ys = xs ∨ proper_prefix ys xs.
Proof.
  split.
  - intros (zs & Hz & E). destruct zs as [|z zs _] using rev_ind; [done |]. rewrite app_assoc in E.
    apply app_inj_tail in E as [-> _]. destruct zs as [|z' zs]; [left; by rewrite app_nil_r |].
    right. by exists (z' :: zs).
  - intros [->|(zs & Hz & ->)]; [by exists [n] |]. exists (zs ++ [n]). rewrite app_assoc. by destruct zs.
Qed.

Lemma rel_not_root l : l ≠ [] → Forall seg l → rel_path l ≠ "/".
Proof.
  intros Hl Hs E. destruct l as [|x l]; [done |]. apply Forall_cons in Hs as [Hx _].
  pose proof (is_rooted_rel x l EmptyString Hx) as Hr. rewrite E in Hr. done.
Qed.

Lemma dir_path_snoc rooted l n :
  l ≠ [] → dir_path rooted (l ++ [n]) = dir_path rooted l +:+ "/" +:+ n.
Proof.
  intros Hl. unfold dir_path. destruct rooted; [| by apply rel_path_app].
  rewrite abs_path_app. by rewrite decide_False by done.
Qed.

Lemma dir_path_length rooted l : Forall seg l → length l ≤ String.length (dir_path rooted l).
Proof.
  intros Hl. assert (length l ≤ String.length (rel_path l)) as Hr.
  { induction l as [|n l IH] using rev_ind; [done |]. apply Forall_app in Hl as [Hl [Hn _]%Forall_cons].
    destruct (decide (l = [])) as [->|Hne].
    - simpl. destruct Hn as [Hn _]. destruct n; [done | simpl; lia].
    - rewrite rel_path_app by done. rewrite length_app, !str_length_app. specialize (IH Hl). simpl. lia. }
  destruct rooted; cbn [dir_path]; [unfold abs_path; rewrite str_length_app; lia | done].
Qed.

Lemma dir_path_pos rooted l : l ≠ [] → Forall seg l → 0 < String.length (dir_path rooted l).
Proof. intros Hne Hl. pose proof (dir_path_length rooted l Hl). destruct l; [done | simpl in *; lia]. Qed.

(** The loop over the ancestors finds an opaque one exactly when there is one. *)
Lemma opaque_above_spec fuel s lid rooted xs :
  Forall seg xs → xs ≠ [] → length xs < fuel →
  opaque_above fuel s lid (dir_path rooted xs) = true ↔
  ∃ d, is_ancestor rooted xs d ∧ store_IsOpaque lid d s = true.
Proof.
  intros Hseg Hne. revert fuel. induction xs as [|n xs IH] using rev_ind; intros fuel Hf; [done |].
  apply Forall_app in Hseg as [Hseg [Hn _]%Forall_cons]. rewrite length_app in Hf. simpl in Hf.
  destruct fuel as [|fuel]; [lia |]. cbn [opaque_above]. pose proof Hn as (Hn1 & _ & _ & Hns).
  destruct (decide (xs = [])) as [->|Hxs].
  - destruct rooted; cbn [dir_path app].
    + unfold abs_path. cbn [rel_path str_join].
      change ("/" +:+ n) with (EmptyString +:+ "/" +:+ n). rewrite last_slash_app by done. cbn [String.length].
      rewrite decide_False by lia. destruct (store_IsOpaque lid "/" s) eqn:Ho.
      * split; [| done]. intros _. exists "/". split; [| done]. exists []. split_and!; [by exists [n] | done | done].
      * rewrite decide_True by done. split; [done |]. intros (d & (ys & (zs & Hz & E) & _ & ->) & Hd).
        destruct ys as [|y ys]; [change (dir_path true []) with "/" in Hd; congruence |]. destruct ys; [| by destruct ys].
        destruct zs; [done | by destruct zs].
    + cbn [rel_path str_join]. rewrite last_slash_None by done. split; [done |].
      intros (d & (ys & (zs & Hz & E) & Hys & ->) & _). specialize (Hys eq_refl).
      destruct ys as [|y ys]; [done |]. destruct zs; [done |]. destruct ys; simpl in E; [done | by destruct ys].
  - rewrite dir_path_snoc, last_slash_app by done. rewrite decide_True by (by apply dir_path_pos).
    rewrite str_take_app. destruct (store_IsOpaque lid (dir_path rooted xs) s) eqn:Ho.
    + split; [| done]. intros _. exists (dir_path rooted xs). split; [| done]. exists xs.
      split_and!; [by exists [n] | done | done].
    + rewrite decide_False.
      * rewrite (IH Hseg Hxs fuel) by lia. split; intros (d & (ys & Hp & Hys & ->) & Hd).
        -- eexists. split; [| exact Hd]. exists ys. split_and!; [| done | done]. apply proper_prefix_snoc. by right.
        -- apply proper_prefix_snoc in Hp as [->|Hp]; [by rewrite Ho in Hd |].
           eexists. split; [| exact Hd]. by exists ys.
      * destruct rooted; cbn [dir_path]; [by rewrite abs_path_root | by apply rel_not_root].
Qed.

(** ** Visibility *)

Lemma drop_S_middle {A} (l1 l2 : list A) (x : A) : drop (S (length l1)) (l1 ++ x :: l2) = l2.
Proof. rewrite cons_middle, app_assoc. apply drop_app_length'. rewrite length_app. simpl. lia. Qed.

Lemma visible_loop_spec s rooted xs uppers :
  Forall seg xs → xs ≠ [] →
  visible_loop s (dir_path rooted xs) uppers = true ↔
  Forall (λ l, store_IsDeleted l (dir_path rooted xs) s = false ∧
    ∀ d, is_ancestor rooted xs d → store_IsOpaque l d s = false) uppers.
Proof.
  intros Hseg Hne. induction uppers as [|l uppers IH]; cbn [visible_loop]; [done |]. rewrite Forall_cons, <- IH.
  destruct (store_IsDeleted l _ s); [naive_solver |].
  destruct (opaque_above _ s l _) eqn:Ho.
  - apply opaque_above_spec in Ho as (d & Hd & Hop); [| done | done |].
    + split; [done |]. intros [[_ Hall] _]. by rewrite Hall in Hop.
    + pose proof (dir_path_length rooted xs Hseg). lia.
  - split; [| tauto]. intros Hv. split_and!; [done | | done]. intros d Hd.
    destruct (store_IsOpaque l d s) eqn:Hop; [| done].
    assert (opaque_above (S (String.length (dir_path rooted xs))) s l (dir_path rooted xs) = true) as E; [| congruence].
    apply opaque_above_spec; [done | done | | by exists d]. pose proof (dir_path_length rooted xs Hseg). lia.
Qed.

Lemma IsFileVisible_owned (s : memStore) (rooted : bool) (xs : list string)
    (lower : list FsLayerID) (owner : FsLayerID) (upper : list FsLayerID) :
  NoDup (lower ++ owner :: upper) → Forall seg xs → xs ≠ [] →
  owns s (dir_path rooted xs) lower owner upper →
  IsFileVisible s (NewChain (lower ++ owner :: upper)) (dir_path rooted xs) = true ↔
  Forall (λ l, store_IsDeleted l (dir_path rooted xs) s = false ∧
    ∀ d, is_ancestor rooted xs d → store_IsOpaque l d s = false) upper.
Proof.
  intros Hnd Hseg Hne Ho. unfold IsFileVisible. cbn [c_layers NewChain].
  destruct (lower ++ owner :: upper) as [|l0 ls] eqn:E; [by destruct lower |]. rewrite <- E in *. clear E l0 ls.
  pose proof (OwnerOf_owns _ _ _ _ _ Ho) as E. destruct (store_OwnerOf _ _ s) as [o found]. simpl in E. subst o.
  rewrite Position_split by done. change (default 0 (Some (length lower))) with (length lower).
  rewrite drop_S_middle. rewrite visible_loop_spec by done. by rewrite Forall_reverse.
Qed.

(** A file of the top layer is visible. *)
Lemma IsFileVisible_top s lower l path :
  NoDup (lower ++ [l]) → store_IsModified l path s = true → IsFileVisible s (NewChain (lower ++ [l])) path = true.
Proof.
  intros Hnd Hm. unfold IsFileVisible. cbn [c_layers NewChain].
  destruct (lower ++ [l]) as [|l0 ls] eqn:E; [by destruct lower |]. rewrite <- E in *. clear E l0 ls.
  assert (owns s path lower l []) as Ho by (split; [by left | constructor]).
  pose proof (OwnerOf_owns _ _ _ _ _ Ho) as E. destruct (store_OwnerOf _ _ s) as [o found]. simpl in E. subst o.
  rewrite Position_split by done. change (default 0 (Some (length lower))) with (length lower).
  by rewrite drop_S_middle.
Qed.

(** The visibility of a file in a chain.  With [owner] the topmost layer that modified the
    path (the bottom layer when none did), the file is visible exactly when no layer above the
    owner deleted this path or made one of its directories opaque.  The directories of a
    relative path are its non-empty proper prefixes, those of an absolute path its proper
    prefixes with the root. *)
Theorem IsFileVisible_spec (s : memStore) (rooted : bool) (xs : list string)
    (lower : list FsLayerID) (owner : FsLayerID) (upper : list FsLayerID) :
  NoDup (lower ++ owner :: upper) → Forall seg xs → xs ≠ [] →
  owns s (dir_path rooted xs) lower owner upper →
  IsFileVisible s (NewChain (lower ++ owner :: upper)) (dir_path rooted xs) = true ↔
  Forall (λ l, store_IsDeleted l (dir_path rooted xs) s = false ∧
    ∀ d, is_ancestor rooted xs d → store_IsOpaque l d s = false) upper.
Proof. apply IsFileVisible_owned. Qed.

(** A mark changes only the set it is made in, at its own path. *)
Lemma in_with_same f g id s l p :
  (∀ m, g (f m) !! p = g m !! p) → in_manifest g l p (with_manifest f id s).2 = in_manifest g l p s.
Proof.
  intros Hf. unfold in_manifest, with_manifest, getManifest. destruct (s !! id) as [m|] eqn:E; [| done]. cbn [snd].
  destruct (decide (l = id)) as [->|Hl]; [| by rewrite lookup_insert_ne]. by rewrite lookup_insert_eq, E, Hf.
Qed.

(** What the visibility check does not see.  A whiteout of a directory hides only the
    directory's own path, so that the files below it stay visible; and an opaque marker at the
    root of a layer, which names the directory ["."], hides no relative path. *)
Theorem visibility_gaps (s : memStore) (lower upper : list FsLayerID) (top : FsLayerID) (xs ys : list string) :
  NoDup (lower ++ top :: upper) → lower ≠ [] → Forall seg (xs ++ ys) → xs ≠ [] → ys ≠ [] →
  let path := rel_path (xs ++ ys) in
  IsFileVisible s (NewChain (lower ++ top :: upper)) path = true →
  let s' := (store_MarkOpaque top "." (store_MarkDeleted top (rel_path xs) s).2).2 in
  IsFileVisible s' (NewChain (lower ++ top :: upper)) path = true.
Proof.
  intros Hnd Hlow Hseg Hxs Hys path Hv s'.
  assert (rel_path xs ≠ path) as Hp.
  { intros E. apply (f_equal segs) in E. unfold path in E. apply Forall_app in Hseg as [H1 H2].
    rewrite !segs_rel in E by (try apply Forall_app; done). apply (f_equal length) in E.
    rewrite length_app in E. destruct ys; simpl in E; [done | lia]. }
  assert (∀ l p, store_IsModified l p s' = store_IsModified l p s) as Hm.
  { intros l p. unfold s', store_MarkOpaque, store_MarkDeleted, store_IsModified. by rewrite !in_with_same. }
  assert (∀ l, store_IsDeleted l path s' = store_IsDeleted l path s) as Hd.
  { intros l. unfold s', store_MarkOpaque, store_MarkDeleted, store_IsDeleted.
    rewrite !in_with_same; [done | intros m; cbn [mf_deleted] | done]. by rewrite lookup_insert_ne. }
  assert (∀ l d, d ≠ "." → store_IsOpaque l d s' = store_IsOpaque l d s) as Ho.
  { intros l d Hdot. unfold s', store_MarkOpaque, store_MarkDeleted, store_IsOpaque.
    rewrite !in_with_same; [done | done | intros m; cbn [mf_opaque]]. by rewrite lookup_insert_ne. }
  assert (lower ++ top :: upper ≠ []) as Hne by (by destruct lower).
  destruct (owner_exists s path _ Hne) as (lo & o & up & E & Ho'). clear Hne.
  rewrite E in Hv, Hnd |- *. assert (owns s' path lo o up) as Ho''.
  { destruct Ho' as [H1 H2]. split; [by rewrite Hm |]. eapply Forall_impl; [exact H2 |]. intros x. by rewrite Hm. }
  assert (xs ++ ys ≠ []) as Hne by (by destruct xs).
  apply (IsFileVisible_owned s false (xs ++ ys)) in Hv; [| done..].
  apply (IsFileVisible_owned s' false (xs ++ ys)); [done.. |].
  eapply Forall_impl; [exact Hv |]. intros l [Hdel Hop]. cbn [dir_path] in *. rewrite Hd. split; [done |].
  intros d Ha. rewrite Ho; [by apply Hop |]. destruct Ha as (zs & (ws & _ & Ez) & Hz & ->). cbn [dir_path].
  specialize (Hz eq_refl). assert (Forall seg zs) as Hsz by (rewrite Ez in Hseg; by apply Forall_app in Hseg as [? _]).
  intros Edot. apply (f_equal segs) in Edot. rewrite segs_rel in Edot by done. by destruct zs.
Qed.

(** ** Witnesses *)

Definition sample_chain3 : list FsLayerID := ["base"; "mid"; "top"].

Definition sample_store : memStore :=
  (store_MarkModified "mid" "usr/lib/x"
    (store_Register "top" "mid" (store_Register "mid" "base" (store_Register "base" EmptyString ∅).2).2).2).2.

Lemma sample_chain3_NoDup : NoDup sample_chain3.
Proof. apply (bool_decide_eq_true_1 _). vm_compute. reflexivity. Qed.

Lemma sample_segs : Forall seg ["usr"; "lib"; "x"].
Proof. apply (bool_decide_eq_true_1 _). vm_compute. reflexivity. Qed.

Lemma NeedsRehash_spec_witness :
  NeedsRehash sample_store (NewChain sample_chain3) "usr/lib/x" "base" = true ∧
  NeedsRehash sample_store (NewChain sample_chain3) "usr/lib/x" "mid" = false ∧
  ∃ lower upper, sample_chain3 = lower ++ "mid" :: upper ∧
    Forall (λ l, store_IsModified l "usr/lib/x" sample_store = false) upper.
Proof.
  split; [vm_compute; reflexivity |]. split; [vm_compute; reflexivity |].
  apply (NeedsRehash_spec sample_store sample_chain3 "usr/lib/x" "mid"); [apply sample_chain3_NoDup |].
  vm_compute. reflexivity.
Defined.

Lemma IsFileVisible_spec_witness :
  let s := (store_MarkOpaque "top" "usr" sample_store).2 in
  IsFileVisible s (NewChain sample_chain3) "usr/lib/x" = false ∧
  (IsFileVisible s (NewChain (["base"] ++ "mid" :: ["top"])) (dir_path false ["usr"; "lib"; "x"]) = true ↔
   Forall (λ l, store_IsDeleted l "usr/lib/x" s = false ∧
     ∀ d, is_ancestor false ["usr"; "lib"; "x"] d → store_IsOpaque l d s = false) ["top"]).
Proof.
  intros s. split; [vm_compute; reflexivity |].
  apply (IsFileVisible_spec s false ["usr"; "lib"; "x"] ["base"] "mid" ["top"]);
    [apply sample_chain3_NoDup | apply sample_segs | done |].
  split; [left; vm_compute; reflexivity | repeat constructor].
Defined.

Lemma visibility_gaps_witness :
  let s' := (store_MarkOpaque "top" "." (store_MarkDeleted "top" "usr/lib" sample_store).2).2 in
  store_IsDeleted "top" "usr/lib" s' = true ∧ store_IsOpaque "top" "." s' = true ∧
  IsFileVisible s' (NewChain sample_chain3) "usr/lib/x" = true.
Proof.
  intros s'. split; [vm_compute; reflexivity |]. split; [vm_compute; reflexivity |].
  apply (visibility_gaps sample_store ["base"; "mid"] [] "top" ["usr"; "lib"] ["x"]);
    [apply sample_chain3_NoDup | done | apply sample_segs | done | done | vm_compute; reflexivity].
Defined.
