(* ===== verification/FsChunk.v ===== *)
(** * FsChunk: [pkg/fshash/chunk]

    The content hashers and the buffer pool.  SHA-256 is computed; BLAKE3 and XXH3 come from
    third-party packages and are operations of a class, with the sizes their documentation
    gives.  A panic is [None].  A [sync.Pool] is the list of the buffers put back: [Get] may
    take any of them, or none, for the runtime may drop them. *)
From S2P Require Import Prelude GoStd Sha256 GoBytes.

(** ** chunk/hasher.go *)

(** [Algorithm] is a string. *)
Definition SHA256 : string := "sha256".
Definition BLAKE3 : string := "blake3".
Definition XXH3 : string := "xxh3".

(** [github.com/zeebo/blake3] and [github.com/zeebo/xxh3] *)
Class ThirdPartyHashes := {
  blake3_sum : list byte → list byte;
  xxh3_hash : list byte → N;
  blake3_sum_length b : length (blake3_sum b) = 32;
  xxh3_hash_bound b : (xxh3_hash b < 2 ^ 64)%N;
}.

Record Hasher := { hs_Hash : list byte → list byte; hs_Algorithm : string; hs_Size : nat }.

Definition uint64ToBytes (v : N) : list byte :=
  [byte_of_N (N.shiftr v 56); byte_of_N (N.shiftr v 48); byte_of_N (N.shiftr v 40); byte_of_N (N.shiftr v 32);
   byte_of_N (N.shiftr v 24); byte_of_N (N.shiftr v 16); byte_of_N (N.shiftr v 8); byte_of_N v].

Definition sha256Hasher : Hasher := {| hs_Hash := sha256; hs_Algorithm := SHA256; hs_Size := 32 |}.

Definition blake3Hasher `{ThirdPartyHashes} : Hasher :=
  {| hs_Hash := blake3_sum; hs_Algorithm := BLAKE3; hs_Size := 32 |}.

Definition xxh3Hasher `{ThirdPartyHashes} : Hasher :=
  {| hs_Hash data := uint64ToBytes (xxh3_hash data); hs_Algorithm := XXH3; hs_Size := 8 |}.

(** [None]: the panic of an unknown algorithm *)
Definition NewHasher `{ThirdPartyHashes} (algo : string) : option Hasher :=
  if decide (algo = SHA256) then Some sha256Hasher
  else if decide (algo = BLAKE3) then Some blake3Hasher
  else if decide (algo = XXH3) then Some xxh3Hasher
  else None.

(** The hash function of an algorithm, with its digest size *)
Definition HashFn_of `{ThirdPartyHashes} (algo : string) : option HashFn :=
  if decide (algo = SHA256) then Some sha256_hash
  else if decide (algo = BLAKE3) then
    Some {| hash_fn := blake3_sum; hash_len := 32; hash_fn_length := blake3_sum_length; hash_len_pos := Nat.lt_0_succ 31 |}
  else if decide (algo = XXH3) then
    Some {| hash_fn data := uint64ToBytes (xxh3_hash data); hash_len := 8; hash_fn_length _ := eq_refl;
            hash_len_pos := Nat.lt_0_succ 7 |}
  else None.

(** [HashReader] of a reader, the bytes it delivers or the error it ends with *)
Definition HashReader (h : Hasher) (r : result (list byte)) : result (list byte) :=
  match r with Err e => Err e | Ok data => Ok (hs_Hash h data) end.

(** ** chunk/pool.go *)

(** The sizes are binary numbers: their unary form is never computed. *)
Definition sizeSmall : N := 4 * 1024.
Definition sizeMedium : N := 32 * 1024.
Definition sizeLarge : N := 64 * 1024.

(** The buffers of a tier: each is known by the content left in it. *)
Record Pool := { p_small : list (list byte); p_medium : list (list byte); p_large : list (list byte) }.

(** [sync.Pool.Get]: the buffer the runtime picks, [None] when it makes a new one *)
Definition tier_Get (size : N) (pick : option nat) (tier : list (list byte)) : list byte * list (list byte) :=
  let fresh := (replicate (N.to_nat size) x00, tier) in
  match pick with
  | None => fresh
  | Some i => match tier !! i with Some b => (b, delete i tier) | None => fresh end
  end.

Definition pool_Get (pick : option nat) (size : Z) (p : Pool) : list byte * Pool :=
  if decide (size ≤ Z.of_N sizeSmall)%Z then
    let '(b, t) := tier_Get sizeSmall pick (p_small p) in
    (b, {| p_small := t; p_medium := p_medium p; p_large := p_large p |})
  else if decide (size ≤ Z.of_N sizeMedium)%Z then
    let '(b, t) := tier_Get sizeMedium pick (p_medium p) in
    (b, {| p_small := p_small p; p_medium := t; p_large := p_large p |})
  else if decide (size ≤ Z.of_N sizeLarge)%Z then
    let '(b, t) := tier_Get sizeLarge pick (p_large p) in
    (b, {| p_small := p_small p; p_medium := p_medium p; p_large := t |})
  else (replicate (Z.to_nat size) x00, p).

(** [Put] of a buffer whose array holds the given bytes: [cap(buf)] is their number, and the
    slice put back is extended to the whole array. *)
Definition pool_Put (array : list byte) (p : Pool) : Pool :=
  let cap := N.of_nat (length array) in
  if decide (cap = sizeSmall) then {| p_small := array :: p_small p; p_medium := p_medium p; p_large := p_large p |}
  else if decide (cap = sizeMedium) then {| p_small := p_small p; p_medium := array :: p_medium p; p_large := p_large p |}
  else if decide (cap = sizeLarge) then {| p_small := p_small p; p_medium := p_medium p; p_large := array :: p_large p |}
  else p.

Definition NewPool : Pool := {| p_small := []; p_medium := []; p_large := [] |}.

(** ** Digest sizes *)

(** The big-endian value of bytes *)
Definition be_value (l : list byte) : N := foldl (λ acc b, 256 * acc + Byte.to_N b)%N 0%N l.

Lemma uint64ToBytes_value v : (v < 2 ^ 64)%N → be_value (uint64ToBytes v) = v.
Proof.
  intros Hv. unfold be_value, uint64ToBytes. cbn [foldl]. rewrite !byte_of_N_to, !N.shiftr_div_pow2.
  assert (∀ x, x = 256 * (x / 256) + x mod 256)%N as Hd by (intros x; by apply N.div_mod).
  assert (∀ k, v / 2 ^ (k + 8) = v / 2 ^ k / 256)%N as Hs
    by (intros k; by rewrite N.pow_add_r, N.Div0.div_div).
  assert (v / 2 ^ 56 = v / 2 ^ 48 / 256 ∧ v / 2 ^ 48 = v / 2 ^ 40 / 256 ∧ v / 2 ^ 40 = v / 2 ^ 32 / 256 ∧
    v / 2 ^ 32 = v / 2 ^ 24 / 256 ∧ v / 2 ^ 24 = v / 2 ^ 16 / 256 ∧ v / 2 ^ 16 = v / 2 ^ 8 / 256 ∧ v / 2 ^ 8 = v / 256)%N
    as (E7 & E6 & E5 & E4 & E3 & E2 & E1)
    by (split_and!; [apply (Hs 48%N) | apply (Hs 40%N) | apply (Hs 32%N) | apply (Hs 24%N) | apply (Hs 16%N) | apply (Hs 8%N) | done]).
  assert (v / 2 ^ 56 < 256)%N as Hb by (apply N.Div0.div_lt_upper_bound; exact Hv).
  rewrite (N.mod_small (v / 2 ^ 56)) by done.
  pose proof (Hd v). pose proof (Hd (v / 2 ^ 8)%N). pose proof (Hd (v / 2 ^ 16)%N). pose proof (Hd (v / 2 ^ 24)%N).
  pose proof (Hd (v / 2 ^ 32)%N). pose proof (Hd (v / 2 ^ 40)%N). pose proof (Hd (v / 2 ^ 48)%N).
  rewrite E7 in *. clear E7. lia.
Qed.

(** Every hasher returns digests of the size it announces, and the bytes of an XXH3 sum are
    its big-endian encoding, from which the sum is read back; an algorithm the package does not
    know is a panic. *)
Theorem NewHasher_spec (T : ThirdPartyHashes) (algo : string) (data : list byte) :
  match NewHasher algo with
  | Some h => hs_Algorithm h = algo ∧ length (hs_Hash h data) = hs_Size h ∧
      (algo = XXH3 → be_value (hs_Hash h data) = xxh3_hash data)
  | None => algo ≠ SHA256 ∧ algo ≠ BLAKE3 ∧ algo ≠ XXH3
  end.
Proof.
  unfold NewHasher. destruct (decide (algo = SHA256)) as [->|H1].
  { split_and!; [done | apply sha256_length | done]. }
  destruct (decide (algo = BLAKE3)) as [->|H2].
  { split_and!; [done | apply blake3_sum_length | done]. }
  destruct (decide (algo = XXH3)) as [->|H3]; [| done].
  split_and!; [done | done |]. intros _. apply uint64ToBytes_value, xxh3_hash_bound.
Qed.

(** The two views of an algorithm agree. *)
Lemma NewHasher_HashFn (T : ThirdPartyHashes) algo h :
  NewHasher algo = Some h →
  ∃ F, HashFn_of algo = Some F ∧ (∀ data, hash_fn (HashFn := F) data = hs_Hash h data) ∧ hash_len (HashFn := F) = hs_Size h.
Proof.
  unfold NewHasher, HashFn_of.
  repeat case_decide; intros [= <-]; match goal with |- ∃ F, Some ?f = Some F ∧ _ => by exists f end.
Qed.

(** ** The pool *)

(** The buffers of a tier have the size of the tier. *)
Definition pool_ok (p : Pool) : Prop :=
  Forall (λ b, N.of_nat (length b) = sizeSmall) (p_small p) ∧
  Forall (λ b, N.of_nat (length b) = sizeMedium) (p_medium p) ∧
  Forall (λ b, N.of_nat (length b) = sizeLarge) (p_large p).

Lemma tier_Get_ok size pick tier :
  Forall (λ b : list byte, N.of_nat (length b) = size) tier →
  N.of_nat (length (tier_Get size pick tier).1) = size ∧
  Forall (λ b, N.of_nat (length b) = size) (tier_Get size pick tier).2.
Proof.
  intros Ht. unfold tier_Get. destruct pick as [i|]; [destruct (tier !! i) eqn:E |]; cbn [fst snd].
  - rewrite Forall_lookup in Ht. split; [by eapply Ht |]. apply Forall_delete. by apply Forall_lookup.
  - rewrite length_replicate. split; [lia | done].
  - rewrite length_replicate. split; [lia | done].
Qed.

(** A buffer from the pool is at least as long as asked for, whatever was put back before. *)
Lemma pool_Get_ok pick size p :
  pool_ok p → (size ≤ Z.of_nat (length (pool_Get pick size p).1))%Z ∧ pool_ok (pool_Get pick size p).2.
Proof.
  intros (Hs & Hm & Hl). unfold pool_Get. repeat case_decide.
  - pose proof (tier_Get_ok sizeSmall pick _ Hs) as [E Ht]. destruct (tier_Get _ _ _). cbn [fst snd] in *. split; [lia | done].
  - pose proof (tier_Get_ok sizeMedium pick _ Hm) as [E Ht]. destruct (tier_Get _ _ _). cbn [fst snd] in *. split; [lia | done].
  - pose proof (tier_Get_ok sizeLarge pick _ Hl) as [E Ht]. destruct (tier_Get _ _ _). cbn [fst snd] in *. split; [lia | done].
  - cbn [fst snd]. rewrite length_replicate. split; [lia | done].
Qed.

Lemma pool_Put_ok array p : pool_ok p → pool_ok (pool_Put array p).
Proof.
  intros (Hs & Hm & Hl). unfold pool_Put. cbv zeta. repeat case_decide; split_and!; try done; by constructor.
Qed.
