(* ===== verification/FsCache.v ===== *)
(** * FsCache: [pkg/fshash/cache/store.go]

    The sharded hash cache of the access engine.  A shard is a Go map into a doubly linked list
    whose links the code sets by hand: the nodes are a heap from addresses to nodes, and [head],
    [tail], [prev] and [next] are optional addresses.  The theorems relate a shard to the list
    of its entries, most recent first. *)
From S2P Require Import Prelude GoStd FsLayer.

Record lruEntry := {
  le_key : string;
  le_value : FsFileHash;
  le_prev : option nat;
  le_next : option nat;
}.

Record shard := {
  s_entries : gmap string nat;
  s_heap : gmap nat lruEntry;
  s_fresh : nat;                    (* the next address *)
  s_head : option nat;
  s_tail : option nat;
  s_capacity : Z;
  s_hits : N;
  s_misses : N;
  s_evicts : N;
}.

Definition newShard (capacity : Z) : shard :=
  {| s_entries := ∅; s_heap := ∅; s_fresh := 0; s_head := None; s_tail := None; s_capacity := capacity;
     s_hits := 0; s_misses := 0; s_evicts := 0 |}.

Definition with_links (s : shard) (heap : gmap nat lruEntry) (hd tl : option nat) : shard :=
  {| s_entries := s_entries s; s_heap := heap; s_fresh := s_fresh s; s_head := hd; s_tail := tl;
     s_capacity := s_capacity s; s_hits := s_hits s; s_misses := s_misses s; s_evicts := s_evicts s |}.

Definition with_entries (s : shard) (m : gmap string nat) : shard :=
  {| s_entries := m; s_heap := s_heap s; s_fresh := s_fresh s; s_head := s_head s; s_tail := s_tail s;
     s_capacity := s_capacity s; s_hits := s_hits s; s_misses := s_misses s; s_evicts := s_evicts s |}.

Definition with_counts (s : shard) (hits misses evicts : N) : shard :=
  {| s_entries := s_entries s; s_heap := s_heap s; s_fresh := s_fresh s; s_head := s_head s; s_tail := s_tail s;
     s_capacity := s_capacity s; s_hits := hits; s_misses := misses; s_evicts := evicts |}.

Definition set_prev (a : option nat) (n : lruEntry) : lruEntry :=
  {| le_key := le_key n; le_value := le_value n; le_prev := a; le_next := le_next n |}.
Definition set_next (a : option nat) (n : lruEntry) : lruEntry :=
  {| le_key := le_key n; le_value := le_value n; le_prev := le_prev n; le_next := a |}.
Definition set_value (v : FsFileHash) (n : lruEntry) : lruEntry :=
  {| le_key := le_key n; le_value := v; le_prev := le_prev n; le_next := le_next n |}.

(** [addToFront] of the node at [a] *)
Definition addToFront (a : nat) (s : shard) : shard :=
  let heap := alter (λ n, set_next (s_head s) (set_prev None n)) a (s_heap s) in
  let heap := match s_head s with Some h => alter (set_prev (Some a)) h heap | None => heap end in
  with_links s heap (Some a) (match s_tail s with None => Some a | Some t => Some t end).

(** [removeEntry] of the node at [a] *)
Definition removeEntry (a : nat) (s : shard) : shard :=
  match s_heap s !! a with
  | None => s
  | Some n =>
      let '(heap, hd) := match le_prev n with
        | Some p => (alter (set_next (le_next n)) p (s_heap s), s_head s)
        | None => (s_heap s, le_next n)
        end in
      let '(heap, tl) := match le_next n with
        | Some x => (alter (set_prev (le_prev n)) x heap, s_tail s)
        | None => (heap, le_prev n)
        end in
      with_links s (alter (λ n, set_next None (set_prev None n)) a heap) hd tl
  end.

Definition moveToFront (a : nat) (s : shard) : shard :=
  if decide (s_head s = Some a) then s else addToFront a (removeEntry a s).

Definition evictLRU (s : shard) : shard :=
  match s_tail s with
  | None => s
  | Some victim =>
      let s := removeEntry victim s in
      match s_heap s !! victim with
      | None => s
      | Some n =>
          with_counts (with_entries s (delete (le_key n) (s_entries s))) (s_hits s) (s_misses s) (s_evicts s + 1)
      end
  end.

Definition fshard_get (key : string) (s : shard) : option FsFileHash * shard :=
  match s_entries s !! key with
  | None => (None, with_counts s (s_hits s) (s_misses s + 1) (s_evicts s))
  | Some a =>
      let s := moveToFront a (with_counts s (s_hits s + 1) (s_misses s) (s_evicts s)) in
      (le_value <$> s_heap s !! a, s)
  end.

Definition fshard_put (key : string) (value : FsFileHash) (s : shard) : shard :=
  match s_entries s !! key with
  | Some a => moveToFront a (with_links s (alter (set_value value) a (s_heap s)) (s_head s) (s_tail s))
  | None =>
      let a := s_fresh s in
      let s :=
        {| s_entries := <[key := a]> (s_entries s);
           s_heap := <[a := {| le_key := key; le_value := value; le_prev := None; le_next := None |}]> (s_heap s);
           s_fresh := S a; s_head := s_head s; s_tail := s_tail s; s_capacity := s_capacity s;
           s_hits := s_hits s; s_misses := s_misses s; s_evicts := s_evicts s |} in
      let s := addToFront a s in
      if decide (s_capacity s < Z.of_nat (size (s_entries s)))%Z then evictLRU s else s
  end.

(** [removeEntry] and [delete] of a key, nothing when it has no entry *)
Definition fshard_invalidate (key : string) (s : shard) : shard :=
  match s_entries s !! key with
  | None => s
  | Some a => let s := removeEntry a s in with_entries s (delete key (s_entries s))
  end.

Definition invalidateByPrefix `{GoRange} (prefix : string) (s : shard) : shard :=
  let toDelete := filter (λ key, has_prefix key prefix = true) (map_range (s_entries s)).*1 in
  foldl (λ s key, fshard_invalidate key s) s toDelete.

Definition fshard_size (s : shard) : nat := size (s_entries s).

(** ** ShardedStore *)

Record ShardedStore := { ss_shards : list shard; ss_shardMask : N }.

(** [for n < uint64(shardCount) { n <<= 1 }]: at most 63 turns for an [int] *)
Fixpoint round_up (fuel : nat) (n target : N) : N :=
  match fuel with
  | 0 => n
  | S fuel => if (n <? target)%N then round_up fuel (u64 (N.shiftl n 1)) target else n
  end.

Definition NewShardedStore (shardCount maxEntries : Z) : ShardedStore :=
  let shardCount := if decide (shardCount ≤ 0)%Z then 16%Z else shardCount in
  let maxEntries := if decide (maxEntries ≤ 0)%Z then 65536%Z else maxEntries in
  let n := round_up 64 1 (Z.to_N shardCount) in
  let perShard := Z.quot maxEntries (Z.of_N n) in
  let perShard := if decide (perShard < 16)%Z then 16%Z else perShard in
  {| ss_shards := replicate (N.to_nat n) (newShard perShard); ss_shardMask := n - 1 |}.

Definition compositeKey (layerID : FsLayerID) (path : string) : string :=
  layerID +:+ char_str go_nul +:+ path.

Definition fnvHash (s : string) : N :=
  foldl (fnv_step u64 1099511628211) 14695981039346656037%N (str_bytes s).

(** The index of the shard of a key *)
Definition getShard (ss : ShardedStore) (key : string) : nat :=
  N.to_nat (N.land (fnvHash key) (ss_shardMask ss)).

Definition with_shard (ss : ShardedStore) (i : nat) (s : shard) : ShardedStore :=
  {| ss_shards := <[i := s]> (ss_shards ss); ss_shardMask := ss_shardMask ss |}.

Definition store_Get (layerID : FsLayerID) (path : string) (ss : ShardedStore) : option FsFileHash * ShardedStore :=
  let key := compositeKey layerID path in
  match ss_shards ss !! getShard ss key with
  | None => (None, ss)
  | Some s => let '(r, s) := fshard_get key s in (r, with_shard ss (getShard ss key) s)
  end.

Definition store_Put (layerID : FsLayerID) (path : string) (hash : FsFileHash) (ss : ShardedStore) : ShardedStore :=
  let key := compositeKey layerID path in
  match ss_shards ss !! getShard ss key with
  | None => ss
  | Some s => with_shard ss (getShard ss key) (fshard_put key hash s)
  end.

Definition store_Invalidate (layerID : FsLayerID) (path : string) (ss : ShardedStore) : ShardedStore :=
  let key := compositeKey layerID path in
  match ss_shards ss !! getShard ss key with
  | None => ss
  | Some s => with_shard ss (getShard ss key) (fshard_invalidate key s)
  end.

Definition store_InvalidateLayer `{GoRange} (layerID : FsLayerID) (ss : ShardedStore) : ShardedStore :=
  {| ss_shards := invalidateByPrefix (layerID +:+ char_str go_nul) <$> ss_shards ss; ss_shardMask := ss_shardMask ss |}.

Record Stats := { st_Hits : N; st_Misses : N; st_Evictions : N; st_Size : Z; st_ShardCount : nat }.

Definition store_Stats (ss : ShardedStore) : Stats :=
  foldl (λ st s, {| st_Hits := st_Hits st + s_hits s; st_Misses := st_Misses st + s_misses s;
                    st_Evictions := st_Evictions st + s_evicts s;
                    st_Size := st_Size st + Z.of_nat (size (s_entries s)); st_ShardCount := st_ShardCount st |})
    {| st_Hits := 0; st_Misses := 0; st_Evictions := 0; st_Size := 0; st_ShardCount := length (ss_shards ss) |}
    (ss_shards ss).

(** ** The linked list *)

(** An entry of the list: its address, its key and its value. *)
Abbreviation cell := (nat * (string * FsFileHash))%type.

Definition hd_or (r : list cell) (q : option nat) : option nat :=
  match r with [] => q | x :: _ => Some x.1 end.

Definition last_or (r : list cell) (p : option nat) : option nat :=
  match last r with None => p | Some x => Some x.1 end.

(** [linked heap p r q]: the cells [r] are in the heap, linked one to the next, the first with
    [prev = p] and the last with [next = q]. *)
Fixpoint linked (heap : gmap nat lruEntry) (p : option nat) (r : list cell) (q : option nat) : Prop :=
  match r with
  | [] => True
  | x :: r' =>
      heap !! x.1 = Some {| le_key := x.2.1; le_value := x.2.2; le_prev := p; le_next := hd_or r' q |} ∧
      linked heap (Some x.1) r' q
  end.

Lemma hd_or_app r1 r2 q : hd_or (r1 ++ r2) q = hd_or r1 (hd_or r2 q).
Proof. by destruct r1. Qed.

Lemma last_or_cons x r p : last_or (x :: r) p = last_or r (Some x.1).
Proof. unfold last_or. rewrite last_cons. by destruct (last r). Qed.

Lemma last_or_snoc r x p : last_or (r ++ [x]) p = Some x.1.
Proof. unfold last_or. by rewrite last_snoc. Qed.

Lemma last_or_app r1 r2 p : last_or (r1 ++ r2) p = last_or r2 (last_or r1 p).
Proof. unfold last_or. rewrite last_app. by destruct (last r2), (last r1). Qed.

Lemma linked_app heap p r1 r2 q :
  linked heap p (r1 ++ r2) q ↔ linked heap p r1 (hd_or r2 q) ∧ linked heap (last_or r1 p) r2 q.
Proof.
  revert p. induction r1 as [|x r1 IH]; intros p; simpl; [tauto |].
  rewrite IH, hd_or_app, last_or_cons. tauto.
Qed.

(** A change of a node that is not a cell of the list. *)
Lemma linked_frame heap p r q a f :
  a ∉ r.*1 → linked (alter f a heap) p r q ↔ linked heap p r q.
Proof.
  revert p. induction r as [|x r IH]; intros p Ha; [done |]. cbn [linked]. rewrite fmap_cons, not_elem_of_cons in Ha.
  destruct Ha as [Hne Ha]. rewrite lookup_alter_ne by done. by rewrite IH.
Qed.

Lemma linked_insert heap p r q a n :
  a ∉ r.*1 → linked (<[a := n]> heap) p r q ↔ linked heap p r q.
Proof.
  revert p. induction r as [|x r IH]; intros p Ha; [done |]. cbn [linked]. rewrite fmap_cons, not_elem_of_cons in Ha.
  destruct Ha as [Hne Ha]. rewrite lookup_insert_ne by done. by rewrite IH.
Qed.

(** New ends. *)
Lemma linked_set_next heap p r x q q' :
  NoDup (r ++ [x]).*1 → linked heap p (r ++ [x]) q →
  linked (alter (set_next q') x.1 heap) p (r ++ [x]) q'.
Proof.
  rewrite fmap_app. intros (_ & Hx & _)%NoDup_app. rewrite !linked_app. cbn [linked hd_or].
  intros [Hr [Hl _]]. rewrite linked_frame.
  - split_and!; [done | by rewrite lookup_alter_eq, Hl | done].
  - intros Hin. apply (Hx _ Hin). by left.
Qed.

Lemma linked_set_prev heap p p' x r q :
  NoDup (x :: r).*1 → linked heap p (x :: r) q → linked (alter (set_prev p') x.1 heap) p' (x :: r) q.
Proof.
  rewrite fmap_cons, NoDup_cons. intros [Hx _] [Hl Hr]. cbn [linked].
  split; [by rewrite lookup_alter_eq, Hl |]. by rewrite linked_frame.
Qed.

(** The list of a shard. *)
Record list_of (s : shard) (r : list cell) : Prop := {
  lo_linked : linked (s_heap s) None r None;
  lo_head : s_head s = hd_or r None;
  lo_tail : s_tail s = last_or r None;
  lo_nodup : NoDup r.*1;
}.

(** [addToFront] of a node that is not in the list. *)
Lemma addToFront_list s r a n :
  list_of s r → s_heap s !! a = Some n → a ∉ r.*1 →
  list_of (addToFront a s) ((a, (le_key n, le_value n)) :: r).
Proof.
  intros [Hl Hh Ht Hn] Ha Hnin. unfold addToFront. rewrite Hh, Ht.
  assert (∀ heap, heap !! a = Some (set_next (hd_or r None) (set_prev None n)) → linked heap (Some a) r None →
    list_of (with_links s heap (Some a) (match last_or r None with None => Some a | Some t => Some t end))
      ((a, (le_key n, le_value n)) :: r)) as Hfin.
  { intros heap Hheap Hlr. split; cbn [s_heap s_head s_tail with_links].
    - cbn [linked fst snd]. by rewrite Hheap.
    - done.
    - rewrite last_or_cons. unfold last_or. by destruct (last r).
    - by rewrite fmap_cons, NoDup_cons. }
  destruct r as [|x r]; cbn [hd_or].
  - apply Hfin; [by rewrite lookup_alter_eq, Ha | done].
  - rewrite fmap_cons, not_elem_of_cons in Hnin. destruct Hnin as [Hne Hnin]. apply Hfin.
    + rewrite lookup_alter_ne by done. by rewrite lookup_alter_eq, Ha.
    + apply (linked_set_prev _ None); [done |]. apply linked_frame; [| done]. by rewrite fmap_cons, not_elem_of_cons.
Qed.

(** [removeEntry] of a cell of the list. *)
Lemma removeEntry_list s r1 r2 a k v :
  list_of s (r1 ++ (a, (k, v)) :: r2) →
  list_of (removeEntry a s) (r1 ++ r2) ∧
  s_heap (removeEntry a s) !! a = Some {| le_key := k; le_value := v; le_prev := None; le_next := None |} ∧
  a ∉ (r1 ++ r2).*1.
Proof.
  intros [Hl Hh Ht Hn].
  assert (NoDup (a :: (r1 ++ r2).*1)) as [Ha Hn']%NoDup_cons.
  { rewrite !fmap_app in *. cbn [fmap list_fmap fst] in Hn. by rewrite Permutation_middle. }
  apply linked_app in Hl as [Hl1 [Hla Hl2]]. cbn [fst snd] in *.
  pose proof Ha as Ha'. rewrite fmap_app, not_elem_of_app in Ha'. destruct Ha' as [Ha1 Ha2].
  pose proof Hn' as Hd. rewrite fmap_app, NoDup_app in Hd. destruct Hd as (Hn1 & Hd & Hn2).
  unfold removeEntry. rewrite Hla. cbn [le_prev le_next].
  rewrite hd_or_app in Hh. cbn [hd_or] in Hh. rewrite last_or_app, last_or_cons in Ht.
  (* the heap after both neighbours are relinked *)
  assert (∃ heap, linked heap None r1 (hd_or r2 None) ∧ linked heap (last_or r1 None) r2 None ∧ heap !! a = s_heap s !! a ∧
    (let '(heap1, hd) := match last_or r1 None with
       | Some p => (alter (set_next (hd_or r2 None)) p (s_heap s), s_head s)
       | None => (s_heap s, hd_or r2 None) end in
     let '(heap2, tl) := match hd_or r2 None with
       | Some x => (alter (set_prev (last_or r1 None)) x heap1, s_tail s)
       | None => (heap1, last_or r1 None) end in
     with_links s (alter (λ n, set_next None (set_prev None n)) a heap2) hd tl)
    = with_links s (alter (λ n, set_next None (set_prev None n)) a heap) (hd_or (r1 ++ r2) None) (last_or (r1 ++ r2) None))
    as (heap & Hr1 & Hr2 & Hka & ->).
  { destruct r1 as [|y r1 _] using rev_ind; destruct r2 as [|x r2]; cbn [hd_or app].
    - eexists. split_and!; [done | done | reflexivity | done].
    - exists (alter (set_prev None) x.1 (s_heap s)). split_and!; [done | by apply (linked_set_prev _ (Some a)) | | ].
      + apply lookup_alter_ne. intros E. apply Ha2. rewrite <- E. by left.
      + rewrite Ht, !last_or_cons. done.
    - exists (alter (set_next None) y.1 (s_heap s)). rewrite last_or_snoc, app_nil_r.
      split_and!; [by apply (linked_set_next _ _ _ _ (Some a)) | done | | ].
      + apply lookup_alter_ne. intros E. apply Ha1. rewrite <- E, fmap_app. apply elem_of_app. right. by left.
      + rewrite Hh, last_or_snoc, hd_or_app. by destruct r1.
    - rewrite last_or_snoc. exists (alter (set_prev (Some y.1)) x.1 (alter (set_next (Some x.1)) y.1 (s_heap s))).
      assert (x.1 ∉ (r1 ++ [y]).*1) as Hx1 by (intros Hin; apply (Hd _ Hin); by left).
      assert (y.1 ∉ (x :: r2).*1) as Hy2.
      { apply Hd. rewrite fmap_app. apply elem_of_app. right. by left. }
      split_and!.
      + apply linked_frame; [done |]. by apply (linked_set_next _ _ _ _ (Some a)).
      + apply (linked_set_prev _ (Some a)); [done |]. by apply linked_frame.
      + rewrite !lookup_alter_ne; [done | |].
        * intros E. apply Ha1. rewrite <- E, fmap_app. apply elem_of_app. right. by left.
        * intros E. apply Ha2. rewrite <- E. by left.
      + rewrite Hh, Ht, hd_or_app, last_or_app, !last_or_cons, hd_or_app. by destruct r1. }
  split_and!; [| | done].
  - split; cbn [s_heap s_head s_tail with_links]; [| done..].
    apply linked_app. rewrite !linked_frame by done. done.
  - cbn [s_heap with_links]. by rewrite lookup_alter_eq, Hka, Hla.
Qed.

Lemma moveToFront_list s r1 r2 a k v :
  list_of s (r1 ++ (a, (k, v)) :: r2) → list_of (moveToFront a s) ((a, (k, v)) :: r1 ++ r2).
Proof.
  intros Hl. unfold moveToFront. case_decide as Hh.
  - destruct r1 as [|y r1]; [done |]. exfalso. destruct Hl as [_ E _ Hn]. rewrite Hh in E. simpl in E. injection E as E.
    cbn [app] in Hn. rewrite fmap_cons, NoDup_cons in Hn. destruct Hn as [Hy _]. apply Hy.
    rewrite <- E, fmap_app. apply elem_of_app. right. by left.
  - destruct (removeEntry_list _ _ _ _ _ _ Hl) as (Hl' & Ha & Hnin).
    apply (addToFront_list _ _ _ _ Hl' Ha Hnin).
Qed.

(** ** The reference: the entries, most recent first *)

Abbreviation fref := (list (string * FsFileHash)).

Definition fref_lookup (k : string) (l : fref) : option FsFileHash :=
  (λ x, x.2.2) <$> list_find (λ x, x.1 = k) l.
Definition fref_remove (k : string) (l : fref) : fref := filter (λ x, x.1 ≠ k) l.

Definition fref_get (k : string) (l : fref) : option FsFileHash * fref :=
  match fref_lookup k l with
  | None => (None, l)
  | Some v => (Some v, (k, v) :: fref_remove k l)
  end.

(** A new entry evicts the last one of a full list. *)
Definition fref_put (cap : nat) (k : string) (v : FsFileHash) (l : fref) : fref :=
  match fref_lookup k l with
  | Some _ => (k, v) :: fref_remove k l
  | None => take cap ((k, v) :: l)
  end.

Definition fref_prefix (p : string) (l : fref) : fref := filter (λ x, has_prefix x.1 p = false) l.

Lemma fref_lookup_split k v (l1 l2 : fref) : k ∉ l1.*1 → fref_lookup k (l1 ++ (k, v) :: l2) = Some v.
Proof.
  intros Hk. unfold fref_lookup. rewrite list_find_app_r.
  - cbn [list_find]. by rewrite decide_True.
  - apply list_find_None, Forall_forall. intros x Hx E. apply Hk. rewrite <- E. by apply list_elem_of_fmap_2.
Qed.

Lemma fref_lookup_None k (l : fref) : k ∉ l.*1 → fref_lookup k l = None.
Proof.
  intros Hk. unfold fref_lookup. assert (list_find (λ x, x.1 = k) l = None) as ->; [| done].
  apply list_find_None, Forall_forall. intros x Hx E. apply Hk. rewrite <- E. by apply list_elem_of_fmap_2.
Qed.

Lemma fref_remove_id k (l : fref) : k ∉ l.*1 → fref_remove k l = l.
Proof.
  intros Hk. apply filter_all, Forall_forall. intros x Hx E. apply Hk. rewrite <- E. by apply list_elem_of_fmap_2.
Qed.

Lemma fref_remove_split k v (l1 l2 : fref) :
  k ∉ l1.*1 → k ∉ l2.*1 → fref_remove k (l1 ++ (k, v) :: l2) = l1 ++ l2.
Proof.
  intros H1 H2. assert (fref_remove k ((k, v) :: l2) = fref_remove k l2) as E.
  { unfold fref_remove. rewrite filter_cons, decide_False; [done |]. intros Hne. by apply Hne. }
  transitivity (fref_remove k l1 ++ fref_remove k ((k, v) :: l2)); [apply filter_app |].
  by rewrite E, !fref_remove_id.
Qed.

(** ** A shard and its list *)

Definition keys_of (r : list cell) : list (string * nat) := (λ x, (x.2.1, x.1)) <$> r.

Record shard_ok (s : shard) (r : list cell) : Prop := {
  so_list : list_of s r;
  so_entries : s_entries s = list_to_map (keys_of r);
  so_keys : NoDup (keys_of r).*1;
  so_fresh : Forall (λ x, x.1 < s_fresh s) r;
  so_cap : (Z.of_nat (length r) ≤ s_capacity s)%Z;
}.

Lemma keys_of_perm r r' : r ≡ₚ r' → NoDup (keys_of r).*1 →
  NoDup (keys_of r').*1 ∧ (list_to_map (keys_of r) : gmap string nat) = list_to_map (keys_of r').
Proof.
  intros Hp Hn. assert (keys_of r ≡ₚ keys_of r') as Hk by (unfold keys_of; by rewrite Hp).
  split; [by rewrite <- Hk | by apply list_to_map_proper].
Qed.

Lemma keys_abs r : (keys_of r).*1 = r.*2.*1.
Proof. unfold keys_of. rewrite <- !list_fmap_compose. done. Qed.

Lemma keys_cells r a k : (k, a) ∈ keys_of r ↔ ∃ v, (a, (k, v)) ∈ r.
Proof.
  unfold keys_of. rewrite list_elem_of_fmap. split.
  - intros ([b [k' v]] & E & Hx). simpl in E. simplify_eq. by exists v.
  - intros [v Hv]. by exists (a, (k, v)).
Qed.

(** The map finds the cell of a key, and only that. *)
Lemma shard_find s r k a :
  shard_ok s r → s_entries s !! k = Some a →
  ∃ r1 v r2, r = r1 ++ (a, (k, v)) :: r2 ∧ k ∉ r1.*2.*1 ∧ k ∉ r2.*2.*1.
Proof.
  intros [_ He Hk _ _] Ha. rewrite He in Ha. apply elem_of_list_to_map_2, keys_cells in Ha as [v Hv].
  apply list_elem_of_split in Hv as (r1 & r2 & ->). exists r1, v, r2. split; [done |].
  rewrite keys_abs, !fmap_app in Hk. cbn in Hk. apply NoDup_app in Hk as (_ & Hd & [Hk _]%NoDup_cons).
  split; [| done]. intros Hin. apply (Hd _ Hin). by left.
Qed.

Lemma shard_none s r k : shard_ok s r → s_entries s !! k = None → k ∉ r.*2.*1.
Proof.
  intros [_ He Hk _ _] Ha Hin. rewrite He in Ha. rewrite <- keys_abs in Hin.
  apply not_elem_of_list_to_map_2 in Ha. done.
Qed.

(** Reordering the cells keeps what the map and the bounds say. *)
Lemma shard_ok_perm s s' r r' :
  shard_ok s r → r ≡ₚ r' → list_of s' r' →
  s_entries s' = s_entries s → s_fresh s' = s_fresh s → s_capacity s' = s_capacity s → shard_ok s' r'.
Proof.
  intros [_ He Hk Hf Hc] Hp Hl He' Hf' Hc'. destruct (keys_of_perm r r' Hp Hk) as [Hk' Hm].
  split; [done | by rewrite He', He | done | |].
  - rewrite Hf'. by rewrite <- Hp.
  - rewrite Hc'. by rewrite <- Hp.
Qed.

Lemma links_entries a s :
  s_entries (removeEntry a s) = s_entries s ∧ s_fresh (removeEntry a s) = s_fresh s ∧
  s_capacity (removeEntry a s) = s_capacity s ∧ s_entries (addToFront a s) = s_entries s ∧
  s_fresh (addToFront a s) = s_fresh s ∧ s_capacity (addToFront a s) = s_capacity s.
Proof.
  unfold addToFront, removeEntry. destruct (s_heap s !! a) as [n|]; [| by split_and!].
  by destruct (le_prev n), (le_next n).
Qed.

Lemma move_entries a s :
  s_entries (moveToFront a s) = s_entries s ∧ s_fresh (moveToFront a s) = s_fresh s ∧
  s_capacity (moveToFront a s) = s_capacity s.
Proof.
  unfold moveToFront. case_decide; [done |].
  destruct (links_entries a s) as (E1 & E2 & E3 & _), (links_entries a (removeEntry a s)) as (_ & _ & _ & F1 & F2 & F3).
  by rewrite F1, F2, F3.
Qed.

Lemma counts_ok s r h m e : shard_ok s r → shard_ok (with_counts s h m e) r.
Proof. intros [[H1 H2 H3 H4] H5 H6 H7 H8]. by split; [split | ..]. Qed.

Lemma fshard_get_ref key s r :
  shard_ok s r → ∃ r', shard_ok (fshard_get key s).2 r' ∧
    ((fshard_get key s).1, r'.*2) = fref_get key r.*2 ∧ s_capacity (fshard_get key s).2 = s_capacity s.
Proof.
  intros Hs. unfold fshard_get, fref_get. destruct (s_entries s !! key) as [a|] eqn:Ha.
  - destruct (shard_find s r key a Hs Ha) as (r1 & v & r2 & -> & Hk1 & Hk2).
    set (s1 := with_counts s _ _ _). assert (shard_ok s1 (r1 ++ (a, (key, v)) :: r2)) as Hs1 by by apply counts_ok.
    destruct (move_entries a s1) as (E1 & E2 & E3).
    pose proof (moveToFront_list _ _ _ _ _ _ (so_list _ _ Hs1)) as Hl.
    exists ((a, (key, v)) :: r1 ++ r2). cbn [fst snd]. split_and!.
    + apply (shard_ok_perm s1 _ _ _ Hs1); [by rewrite Permutation_middle | done | done | done | done].
    + rewrite fmap_app. cbn [fmap list_fmap fst snd].
      rewrite fref_lookup_split, fref_remove_split by done.
      destruct (lo_linked _ _ Hl) as [Hn _]. cbn [fst snd] in Hn. rewrite Hn. cbn. by rewrite fmap_app.
    + by rewrite E3.
  - exists r. cbn [fst snd]. split_and!; [by apply counts_ok | | done].
    by rewrite fref_lookup_None by by eapply shard_none.
Qed.

Lemma fshard_invalidate_ref key s r :
  shard_ok s r → ∃ r', shard_ok (fshard_invalidate key s) r' ∧ r'.*2 = fref_remove key r.*2 ∧
    s_capacity (fshard_invalidate key s) = s_capacity s ∧ (∀ x, x ∈ r' → x ∈ r).
Proof.
  intros Hs. unfold fshard_invalidate. destruct (s_entries s !! key) as [a|] eqn:Ha.
  - destruct (shard_find s r key a Hs Ha) as (r1 & v & r2 & -> & Hk1 & Hk2).
    destruct (removeEntry_list _ _ _ _ _ _ (so_list _ _ Hs)) as (Hl & _ & _).
    destruct (links_entries a s) as (E1 & E2 & E3 & _). exists (r1 ++ r2). split_and!.
    + assert (r1 ++ (a, (key, v)) :: r2 ≡ₚ (a, (key, v)) :: r1 ++ r2) as Hp by by rewrite Permutation_middle.
      destruct Hs as [_ He Hk Hf Hc]. destruct (keys_of_perm _ _ Hp Hk) as [Hk' Hm].
      cbn [keys_of fmap list_fmap fst snd] in Hk', Hm. apply NoDup_cons in Hk' as [Hnin Hk'].
      destruct Hl as [L1 L2 L3 L4]. split; [split; done | | done | |].
      * cbn [with_entries s_entries]. rewrite E1, He, Hm. cbn [list_to_map foldr uncurry fst snd].
        rewrite delete_insert_id; [done |]. by apply not_elem_of_list_to_map_1.
      * cbn [with_entries s_fresh]. rewrite E2. rewrite Hp in Hf. by apply Forall_cons in Hf as [_ Hf].
      * cbn [with_entries s_capacity]. rewrite E3. rewrite Hp in Hc. simpl in Hc. lia.
    + rewrite !fmap_app. cbn [fmap list_fmap fst snd]. by rewrite fref_remove_split.
    + done.
    + intros x. rewrite !elem_of_app, elem_of_cons. tauto.
  - exists r. split_and!; [done | | done | done]. by rewrite fref_remove_id by by eapply shard_none.
Qed.

Lemma evictLRU_ok s r a k v :
  list_of s (r ++ [(a, (k, v))]) → s_entries s = list_to_map (keys_of (r ++ [(a, (k, v))])) →
  NoDup (keys_of (r ++ [(a, (k, v))])).*1 → Forall (λ x, x.1 < s_fresh s) (r ++ [(a, (k, v))]) →
  (Z.of_nat (length r) ≤ s_capacity s)%Z →
  shard_ok (evictLRU s) r ∧ s_capacity (evictLRU s) = s_capacity s.
Proof.
  intros Hl He Hk Hf Hc. unfold evictLRU. destruct (removeEntry_list s r [] a k v Hl) as (Hl' & Hh & _).
  rewrite (lo_tail _ _ Hl), last_or_snoc. cbn [fst]. rewrite Hh. rewrite app_nil_r in Hl'.
  destruct (links_entries a s) as (E1 & E2 & E3 & _). split; [| done].
  assert (r ++ [(a, (k, v))] ≡ₚ (a, (k, v)) :: r) as Hp by by rewrite Permutation_app_comm.
  destruct (keys_of_perm _ _ Hp Hk) as [Hk' Hm]. cbn [keys_of fmap list_fmap fst snd] in Hk', Hm.
  apply NoDup_cons in Hk' as [Hnin Hk']. destruct Hl' as [L1 L2 L3 L4].
  split; [split; done | | done | |].
  - cbn [with_counts with_entries s_entries le_key]. rewrite E1, He, Hm. cbn [list_to_map foldr uncurry fst snd].
    rewrite delete_insert_id; [done |]. by apply not_elem_of_list_to_map_1.
  - cbn [with_counts with_entries s_fresh]. rewrite E2. apply Forall_app in Hf. tauto.
  - cbn [with_counts with_entries s_capacity]. by rewrite E3.
Qed.

Lemma fshard_put_ref key v s r :
  shard_ok s r → ∃ r', shard_ok (fshard_put key v s) r' ∧
    r'.*2 = fref_put (Z.to_nat (s_capacity s)) key v r.*2 ∧ s_capacity (fshard_put key v s) = s_capacity s.
Proof.
  intros Hs. unfold fshard_put, fref_put. destruct (s_entries s !! key) as [a|] eqn:Ha.
  - destruct (shard_find s r key a Hs Ha) as (r1 & v0 & r2 & -> & Hk1 & Hk2).
    set (s1 := with_links s _ _ _).
    assert (list_of s1 (r1 ++ (a, (key, v)) :: r2)) as Hl1.
    { destruct (so_list _ _ Hs) as [Hl Hh Ht Hn]. split; cbn [s1 with_links s_heap s_head s_tail].
      - apply linked_app in Hl as [H1 [H2 H3]]. cbn [fst snd] in *.
        rewrite fmap_app in Hn. cbn [fmap list_fmap fst] in Hn. apply NoDup_app in Hn as (_ & Hd & [Hna _]%NoDup_cons).
        apply linked_app. cbn [linked hd_or fst snd]. split_and!.
        + apply linked_frame; [| done]. intros Hin. apply (Hd _ Hin). by left.
        + by rewrite lookup_alter_eq, H2.
        + by apply linked_frame.
      - rewrite Hh, !hd_or_app. done.
      - rewrite Ht, !last_or_app, !last_or_cons. done.
      - rewrite fmap_app in *. done. }
    destruct (move_entries a s1) as (E1 & E2 & E3). pose proof (moveToFront_list _ _ _ _ _ _ Hl1) as Hl.
    exists ((a, (key, v)) :: r1 ++ r2). split_and!; [| | done].
    + destruct Hs as [_ He Hk Hf Hc].
      assert (shard_ok s1 (r1 ++ (a, (key, v)) :: r2)) as Hs1.
      { split; [done | | | |].
        - cbn [s1 with_links s_entries]. rewrite He. f_equal. unfold keys_of. by rewrite !fmap_app.
        - unfold keys_of in *. rewrite !fmap_app in *. done.
        - apply Forall_app in Hf as [Hf1 [Hf2 Hf3]%Forall_cons]. apply Forall_app. split; [done |]. by constructor.
        - rewrite length_app in *. done. }
      apply (shard_ok_perm s1 _ _ _ Hs1); [by rewrite Permutation_middle | done | done | done | done].
    + rewrite !fmap_app. cbn [fmap list_fmap fst snd]. rewrite fref_lookup_split, fref_remove_split by done.
      by rewrite fmap_app.
  - pose proof (shard_none s r key Hs Ha) as Hnk. rewrite fref_lookup_None by done.
    destruct Hs as [Hl He Hk Hf Hc]. set (a := s_fresh s). set (s1 := {| s_entries := <[key := a]> (s_entries s) |}).
    assert (a ∉ r.*1) as Hnin.
    { intros Hin. apply list_elem_of_fmap in Hin as (x & E & Hx). rewrite Forall_forall in Hf.
      specialize (Hf _ Hx). unfold a in E. lia. }
    assert (list_of s1 r) as Hl1.
    { destruct Hl as [L1 L2 L3 L4]. split; [| done ..]. by apply linked_insert. }
    pose proof (addToFront_list s1 r a _ Hl1 (lookup_insert_eq _ _ _) Hnin) as Hl2. cbn [le_key le_value] in Hl2.
    destruct (links_entries a s1) as (_ & _ & _ & E1 & E2 & E3).
    set (s2 := addToFront a s1) in *. set (r2 := (a, (key, v)) :: r) in *.
    assert (s_entries s2 = list_to_map (keys_of r2)) as He2 by (rewrite E1; cbn; by rewrite He).
    assert (NoDup (keys_of r2).*1) as Hk2 by (rewrite keys_abs in *; apply NoDup_cons; done).
    assert (Forall (λ x, x.1 < s_fresh s2) r2) as Hf2.
    { rewrite E2. cbn [s1 s_fresh]. constructor; [simpl; lia |]. eapply Forall_impl; [exact Hf |]. intros x Hx. cbv beta in *. unfold a. lia. }
    assert (size (s_entries s2) = S (length r)) as Hsz.
    { rewrite He2, map_size_list_to_map by done. unfold keys_of, r2. by rewrite length_fmap. }
    rewrite Hsz, E3. cbn [s1 s_capacity]. case_decide as Hcap.
    + destruct (exists_last (l := r2)) as (r3 & [b [k' v']] & E); [done |].
      assert (length r3 = length r) as Hlen.
      { apply (f_equal length) in E. unfold r2 in E. rewrite length_app in E. simpl in E. lia. }
      rewrite E in *.
      destruct (evictLRU_ok s2 r3 b k' v') as [Hok Hcp]; [done.. | rewrite Hlen, E3; cbn [s1 s_capacity]; lia |].
      exists r3. split_and!; [done | | by rewrite Hcp, E3].
      change ((key, v) :: r.*2) with (r2.*2). rewrite E, fmap_app.
      rewrite take_app_length'; [done |]. rewrite length_fmap, Hlen. lia.
    + exists r2. split_and!; [| | done].
      * split; [done | done | done | done |]. rewrite E3. cbn [s1 s_capacity r2 length]. lia.
      * rewrite take_ge; [done |]. cbn [length]. rewrite length_fmap. lia.
Qed.

Lemma invalidate_all_ref keys s r :
  shard_ok s r → ∃ r', shard_ok (foldl (λ s key, fshard_invalidate key s) s keys) r' ∧
    r'.*2 = filter (λ x, x.1 ∉ keys) r.*2 ∧
    s_capacity (foldl (λ s key, fshard_invalidate key s) s keys) = s_capacity s.
Proof.
  revert s r. induction keys as [|k keys IH]; intros s r Hs; cbn [foldl].
  { exists r. split_and!; [done | | done]. symmetry. apply filter_all, Forall_forall. intros x _. apply not_elem_of_nil. }
  destruct (fshard_invalidate_ref k s r Hs) as (r1 & Hs1 & E1 & Hc1 & _).
  destruct (IH _ _ Hs1) as (r2 & Hs2 & E2 & Hc2). exists r2. split_and!; [done | | by rewrite Hc2].
  rewrite E2, E1. unfold fref_remove. rewrite list_filter_filter. apply list_filter_iff.
  intros x. rewrite not_elem_of_cons. tauto.
Qed.

Lemma invalidateByPrefix_ref `{GoRange} p s r :
  shard_ok s r → ∃ r', shard_ok (invalidateByPrefix p s) r' ∧ r'.*2 = fref_prefix p r.*2 ∧
    s_capacity (invalidateByPrefix p s) = s_capacity s.
Proof.
  intros Hs. unfold invalidateByPrefix. destruct (invalidate_all_ref (filter (λ key, has_prefix key p = true) (map_range (s_entries s)).*1) s r Hs)
    as (r' & Hs' & E & Hc). exists r'. split_and!; [done | | done]. rewrite E. unfold fref_prefix.
  apply filter_ext_in. intros x Hx.
  assert (x.1 ∈ (map_range (s_entries s)).*1) as Hin.
  { rewrite map_range_perm. destruct Hs as [_ He Hk _ _]. rewrite He, map_to_list_to_map by done.
    rewrite keys_abs. by apply list_elem_of_fmap_2. }
  rewrite list_elem_of_filter. destruct (has_prefix x.1 p); naive_solver.
Qed.

Lemma compositeKey_prefix l l' p :
  ¬ char_in go_nul l → ¬ char_in go_nul l' →
  has_prefix (compositeKey l' p) (l +:+ char_str go_nul) = bool_decide (l = l').
Proof.
  intros Hl Hl'. apply eq_true_iff_eq. rewrite bool_decide_eq_true. unfold compositeKey. split.
  - intros (t & E)%has_prefix_inv. rewrite str_app_assoc in E. by apply str_split_char_eq in E as [-> _].
  - intros ->. rewrite <- str_app_assoc. apply has_prefix_app.
Qed.

Lemma fref_lookup_cons k k' v (l : fref) :
  fref_lookup k ((k', v) :: l) = if decide (k' = k) then Some v else fref_lookup k l.
Proof.
  unfold fref_lookup. cbn [list_find fst]. case_decide; [done |]. by destruct (list_find _ l).
Qed.

Lemma fref_lookup_prefix k p (l : fref) :
  fref_lookup k (fref_prefix p l) = if has_prefix k p then None else fref_lookup k l.
Proof.
  induction l as [|[k' v] l IH]; [by destruct (has_prefix k p) |].
  unfold fref_prefix in *. rewrite filter_cons. cbn [fst]. rewrite (fref_lookup_cons k k' v l).
  destruct (decide (k' = k)) as [->|Hne].
  - destruct (has_prefix k p); [by rewrite decide_False |]. by rewrite decide_True, fref_lookup_cons, decide_True by done.
  - case_decide; [| done]. by rewrite fref_lookup_cons, decide_False.
Qed.

Lemma fref_get_lookup k l : (fref_get k l).1 = fref_lookup k l.
Proof. unfold fref_get. by destruct (fref_lookup k l). Qed.

Lemma fref_lookup_mem k v l : fref_lookup k l = Some v → (k, v) ∈ l.
Proof.
  induction l as [|[k' v'] l IH]; [done |]. rewrite fref_lookup_cons, elem_of_cons.
  case_decide; [intros [= ->]; left; congruence | right; by apply IH].
Qed.

Lemma fref_lookup_None_inv k l : fref_lookup k l = None → k ∉ l.*1.
Proof.
  induction l as [|[k' v'] l IH]; [intros _; apply not_elem_of_nil |]. rewrite fref_lookup_cons, fmap_cons, not_elem_of_cons.
  case_decide; [done |]. intros E. split; [cbn [fst]; congruence | by apply IH].
Qed.

Lemma fref_get_miss k l : (fref_get k l).1 = None → (fref_get k l).2 = l.
Proof. unfold fref_get. by destruct (fref_lookup k l). Qed.

Lemma fref_get_mem k l x : x ∈ (fref_get k l).2 → x ∈ l.
Proof.
  unfold fref_get. destruct (fref_lookup k l) as [v|] eqn:E; cbn [snd]; [| done].
  rewrite elem_of_cons. intros [->|Hx]; [by apply fref_lookup_mem | by apply list_elem_of_filter in Hx as [_ Hx]].
Qed.

(** ** The store *)

Inductive fs_op :=
  | FGet (l : FsLayerID) (p : string)
  | FPut (l : FsLayerID) (p : string) (h : FsFileHash)
  | FInvalidate (l : FsLayerID) (p : string)
  | FInvalidateLayer (l : FsLayerID).

Definition fs_do `{GoRange} (ss : ShardedStore) (op : fs_op) : ShardedStore :=
  match op with
  | FGet l p => (store_Get l p ss).2
  | FPut l p h => store_Put l p h ss
  | FInvalidate l p => store_Invalidate l p ss
  | FInvalidateLayer l => store_InvalidateLayer l ss
  end.

Definition fs_run `{GoRange} (ops : list fs_op) (ss : ShardedStore) : ShardedStore := foldl fs_do ss ops.

(** The shard of a key in a store of [n] shards *)
Definition key_shard (n : N) (key : string) : nat := N.to_nat (N.land (fnvHash key) (n - 1)).

(** What an operation does to the reference of shard [j]. *)
Definition fref_do (n : N) (cap : nat) (j : nat) (r : fref) (op : fs_op) : fref :=
  match op with
  | FGet l p => if decide (key_shard n (compositeKey l p) = j) then (fref_get (compositeKey l p) r).2 else r
  | FPut l p h => if decide (key_shard n (compositeKey l p) = j) then fref_put cap (compositeKey l p) h r else r
  | FInvalidate l p => if decide (key_shard n (compositeKey l p) = j) then fref_remove (compositeKey l p) r else r
  | FInvalidateLayer l => fref_prefix (l +:+ char_str go_nul) r
  end.

Definition fref_run (n : N) (cap : nat) (j : nat) (ops : list fs_op) : fref := foldl (fref_do n cap j) [] ops.

(** The number of shards: a power of two that holds the count. *)
Definition shard_number (shardCount : Z) : N :=
  round_up 64 1 (Z.to_N (if decide (shardCount ≤ 0)%Z then 16%Z else shardCount)).

Definition shard_capacity (shardCount maxEntries : Z) : Z :=
  Z.max 16 (Z.quot (if decide (maxEntries ≤ 0)%Z then 65536%Z else maxEntries) (Z.of_N (shard_number shardCount))).

Lemma round_up_pow fuel k target :
  (target ≤ 2 ^ 63)%N → (k ≤ 63)%N → (63 - k < N.of_nat fuel)%N →
  ∃ j, round_up fuel (2 ^ k) target = (2 ^ j)%N ∧ (j ≤ 63)%N ∧ (target ≤ 2 ^ j)%N.
Proof.
  intros Ht. revert k. induction fuel as [|fuel IH]; intros k Hk Hf; [lia |]. cbn [round_up].
  destruct (N.ltb_spec (2 ^ k) target) as [Hlt|Hge]; [| by exists k].
  assert (k ≠ 63)%N as Hne by (intros ->; lia).
  assert (u64 (N.shiftl (2 ^ k) 1) = 2 ^ (k + 1))%N as ->.
  { unfold u64. rewrite N.shiftl_mul_pow2, <- N.pow_add_r. apply N.mod_small. apply N.pow_lt_mono_r; lia. }
  apply IH; lia.
Qed.

Lemma shard_number_spec shardCount :
  (shardCount < 2 ^ 63)%Z → ∃ j, shard_number shardCount = (2 ^ j)%N ∧ (j ≤ 63)%N ∧
    (Z.max 1 shardCount ≤ Z.of_N (shard_number shardCount))%Z.
Proof.
  intros Hs. unfold shard_number. set (t := Z.to_N _).
  destruct (round_up_pow 64 0 t) as (j & E & Hj & Ht); [| lia | lia |].
  { unfold t. case_decide; lia. }
  change (2 ^ 0)%N with 1%N in E. rewrite E. exists j. split_and!; [done | done |].
  unfold t in Ht. case_decide; lia.
Qed.

Lemma key_shard_lt j key : key_shard (2 ^ j) key < N.to_nat (2 ^ j).
Proof.
  unfold key_shard. rewrite <- N.pred_sub, <- N.ones_equiv, N.land_ones.
  pose proof (N.mod_lt (fnvHash key) (2 ^ j)). pose proof (N.pow_nonzero 2 j). lia.
Qed.

(** A store whose shards hold the given lists. *)
Record store_rep (ss : ShardedStore) (n : N) (cap : Z) (ref : nat → fref) : Prop := {
  sr_mask : ss_shardMask ss = (n - 1)%N;
  sr_count : length (ss_shards ss) = N.to_nat n;
  sr_shards j s : ss_shards ss !! j = Some s →
    s_capacity s = cap ∧ ∃ r, shard_ok s r ∧ r.*2 = ref j;
}.

Lemma shard_capacity_max shardCount maxEntries :
  (let perShard := Z.quot (if decide (maxEntries ≤ 0) then 65536 else maxEntries) (Z.of_N (shard_number shardCount)) in
   if decide (perShard < 16) then 16 else perShard)%Z = shard_capacity shardCount maxEntries.
Proof.
  unfold shard_capacity. generalize (Z.quot (if decide (maxEntries ≤ 0)%Z then 65536%Z else maxEntries)
    (Z.of_N (shard_number shardCount))). intros q. cbv zeta. case_decide; lia.
Qed.

Lemma store_rep_New shardCount maxEntries :
  (shardCount < 2 ^ 63)%Z →
  store_rep (NewShardedStore shardCount maxEntries) (shard_number shardCount)
    (shard_capacity shardCount maxEntries) (λ _, []).
Proof.
  intros Hs. destruct (shard_number_spec shardCount Hs) as (j & E & Hj & Hn).
  unfold NewShardedStore. fold (shard_number shardCount). split; cbn [ss_shardMask ss_shards].
  - done.
  - by rewrite length_replicate.
  - intros i s Hi. apply lookup_replicate in Hi as [-> _]. unfold newShard. cbn [s_capacity].
    pose proof (shard_capacity_max shardCount maxEntries) as Hcap. cbv zeta in Hcap.
    rewrite Hcap.
    split; [done |]. exists []. split; [| done]. split; cbn [s_entries s_fresh s_capacity]; try constructor; try done.
    + constructor.
    + unfold shard_capacity. cbn [length]. lia.
Qed.

(** An operation on the shard of a key. *)
Lemma store_rep_shard ss j0 cap ref ref' key s s' r' :
  store_rep ss (2 ^ j0) cap ref → ss_shards ss !! getShard ss key = Some s →
  shard_ok s' r' → s_capacity s' = s_capacity s →
  (∀ j, ref' j = if decide (key_shard (2 ^ j0) key = j) then r'.*2 else ref j) →
  store_rep (with_shard ss (getShard ss key) s') (2 ^ j0) cap ref'.
Proof.
  intros [Hm Hc Hs] Hk Hs' Hcap Href.
  assert (getShard ss key = key_shard (2 ^ j0) key) as E by (unfold getShard, key_shard; by rewrite Hm).
  split; cbn [with_shard ss_shards ss_shardMask]; [done | by rewrite length_insert |].
  intros j s1 Hj. rewrite Href. apply list_lookup_insert_Some in Hj as [(<- & <- & _)|(Hne & Hj)].
  - destruct (Hs _ _ Hk) as [Hcs _]. split; [by rewrite Hcap |]. exists r'. split; [done |].
    by rewrite decide_True.
  - destruct (Hs _ _ Hj) as [Hcs Hr]. split; [done |]. by rewrite decide_False by congruence.
Qed.

Lemma store_shard_exists ss j0 cap ref key :
  store_rep ss (2 ^ j0) cap ref → ∃ s r, ss_shards ss !! getShard ss key = Some s ∧ shard_ok s r ∧
    s_capacity s = cap ∧ r.*2 = ref (key_shard (2 ^ j0) key).
Proof.
  intros [Hm Hc Hs].
  assert (getShard ss key = key_shard (2 ^ j0) key) as E by (unfold getShard, key_shard; by rewrite Hm).
  destruct (lookup_lt_is_Some_2 (ss_shards ss) (getShard ss key)) as [s Hk].
  { rewrite Hc, E. apply key_shard_lt. }
  destruct (Hs _ _ Hk) as (Hcs & r & Hr & Er). exists s, r. rewrite <- E. done.
Qed.

Lemma fs_do_rep `{GoRange} ss j0 cap ref op :
  store_rep ss (2 ^ j0) cap ref →
  store_rep (fs_do ss op) (2 ^ j0) cap (λ j, fref_do (2 ^ j0) (Z.to_nat cap) j (ref j) op).
Proof.
  intros Hss. destruct op as [l p|l p h|l p|l]; cbn [fs_do fref_do].
  - destruct (store_shard_exists ss j0 cap ref (compositeKey l p) Hss) as (s & r & Hk & Hok & Hcap & Er).
    unfold store_Get. rewrite Hk. destruct (fshard_get_ref (compositeKey l p) s r Hok) as (r' & Hok' & Eg & Hc').
    destruct (fshard_get _ s) as [res s']. cbn [fst snd] in *. eapply store_rep_shard; [done | done | done | done |].
    intros j. case_decide as Hj; [| done]. by rewrite <- Hj, <- Er, <- Eg.
  - destruct (store_shard_exists ss j0 cap ref (compositeKey l p) Hss) as (s & r & Hk & Hok & Hcap & Er).
    unfold store_Put. rewrite Hk. destruct (fshard_put_ref (compositeKey l p) h s r Hok) as (r' & Hok' & Ep & Hc').
    eapply store_rep_shard; [done | done | done | done |].
    intros j. case_decide as Hj; [| done]. by rewrite <- Hj, <- Er, Ep, Hcap.
  - destruct (store_shard_exists ss j0 cap ref (compositeKey l p) Hss) as (s & r & Hk & Hok & Hcap & Er).
    unfold store_Invalidate. rewrite Hk. destruct (fshard_invalidate_ref (compositeKey l p) s r Hok) as (r' & Hok' & Ei & Hc' & _).
    eapply store_rep_shard; [done | done | done | done |].
    intros j. case_decide as Hj; [| done]. by rewrite <- Hj, <- Er, Ei.
  - destruct Hss as [Hm Hc Hs]. split; cbn [store_InvalidateLayer ss_shards ss_shardMask]; [done | by rewrite length_fmap |].
    intros j s Hj. apply list_lookup_fmap_Some in Hj as (s0 & -> & Hj). destruct (Hs _ _ Hj) as (Hcs & r & Hok & Er).
    destruct (invalidateByPrefix_ref (l +:+ char_str go_nul) s0 r Hok) as (r' & Hok' & Ep & Hc').
    split; [by rewrite Hc' |]. exists r'. by rewrite Ep, Er.
Qed.

Lemma fs_run_rep `{GoRange} shardCount maxEntries ops j0 :
  (shardCount < 2 ^ 63)%Z → shard_number shardCount = (2 ^ j0)%N →
  store_rep (fs_run ops (NewShardedStore shardCount maxEntries)) (2 ^ j0) (shard_capacity shardCount maxEntries)
    (λ j, fref_run (2 ^ j0) (Z.to_nat (shard_capacity shardCount maxEntries)) j ops).
Proof.
  intros Hs E. induction ops as [|op ops IH] using rev_ind.
  - cbn. rewrite <- E. by apply store_rep_New.
  - unfold fs_run, fref_run in *. rewrite foldl_app. cbn [foldl].
    pose proof (fs_do_rep _ _ _ _ op IH) as [H1 H2 H3]. split; [done | done |]. intros j s Hj.
    destruct (H3 j s Hj) as (Hc & r & Hok & Er). split; [done |]. exists r. split; [done |].
    by rewrite Er, foldl_app.
Qed.

Lemma store_Get_ref ss j0 cap ref l p :
  store_rep ss (2 ^ j0) cap ref →
  getShard ss (compositeKey l p) < length (ss_shards ss) ∧
  (store_Get l p ss).1 = (fref_get (compositeKey l p) (ref (key_shard (2 ^ j0) (compositeKey l p)))).1.
Proof.
  intros Hrep. destruct (store_shard_exists ss j0 _ _ (compositeKey l p) Hrep) as (s & r & Hk & Hok & Hcap & Er).
  split; [by eapply lookup_lt_Some |]. unfold store_Get. rewrite Hk.
  destruct (fshard_get_ref (compositeKey l p) s r Hok) as (r' & _ & Eg & _).
  destruct (fshard_get _ s) as [res s']. cbn [fst snd] in *. by rewrite <- Er, <- Eg.
Qed.

(** The last value put under a key *)
Definition last_put (ops : list fs_op) (k : string) : option FsFileHash :=
  foldl (λ acc op, match op with
    | FPut l p h => if decide (compositeKey l p = k) then Some h else acc
    | _ => acc
    end) None ops.

Lemma fref_put_mem cap k v x l :
  x ∈ fref_put cap k v l → x = (k, v) ∨ x ∈ l ∧ x.1 ≠ k.
Proof.
  unfold fref_put. destruct (fref_lookup k l) eqn:E.
  - rewrite elem_of_cons. intros [->|Hx]; [by left |]. right. apply list_elem_of_filter in Hx. tauto.
  - intros (i & Hx & _)%elem_of_take. apply list_elem_of_lookup_2, elem_of_cons in Hx as [->|Hx]; [by left |]. right. split; [done |].
    intros <-. apply fref_lookup_None_inv in E. apply E. by apply list_elem_of_fmap_2.
Qed.

Lemma fref_run_last n cap j ops x :
  x ∈ fref_run n cap j ops → key_shard n x.1 = j ∧ last_put ops x.1 = Some x.2.
Proof.
  induction ops as [|op ops IH] using rev_ind; [by intros ?%not_elem_of_nil |].
  unfold fref_run, last_put in *. rewrite !foldl_app. cbn [foldl]. set (r := foldl _ [] ops) in *.
  destruct op as [l p|l p h|l p|l]; cbn [fref_do].
  - case_decide; [| done]. intros Hx. apply IH. by apply fref_get_mem in Hx.
  - case_decide as Hj.
    + intros [->|[Hx Hne]]%fref_put_mem; cbn [fst snd]; [by rewrite decide_True |].
      rewrite decide_False by congruence. by apply IH.
    + intros Hx. destruct (IH Hx) as [Hs Hl]. split; [done |]. rewrite decide_False; [done |]. intros E. by rewrite E in Hj.
  - case_decide; [| done]. intros Hx. apply IH. by apply list_elem_of_filter in Hx as [_ Hx].
  - intros Hx. apply IH. by apply list_elem_of_filter in Hx as [_ Hx].
Qed.

(** What the cache answers was the last value put under the key. *)
Lemma store_Get_last `{GoRange} shardCount maxEntries ops l p h :
  (shardCount < 2 ^ 63)%Z →
  (store_Get l p (fs_run ops (NewShardedStore shardCount maxEntries))).1 = Some h →
  last_put ops (compositeKey l p) = Some h.
Proof.
  intros Hs. destruct (shard_number_spec shardCount Hs) as (j0 & E & _).
  destruct (store_Get_ref _ _ _ _ l p (fs_run_rep shardCount maxEntries ops j0 Hs E)) as [_ ->].
  rewrite fref_get_lookup. intros Hl. by apply fref_lookup_mem, fref_run_last in Hl as [_ Hl].
Qed.

(** A miss changes no answer. *)
Lemma store_Get_miss `{GoRange} shardCount maxEntries ops l p :
  (shardCount < 2 ^ 63)%Z →
  let ss := fs_run ops (NewShardedStore shardCount maxEntries) in
  (store_Get l p ss).1 = None → ∀ l' p', (store_Get l' p' (store_Get l p ss).2).1 = (store_Get l' p' ss).1.
Proof.
  intros Hs ss Hm l' p'. destruct (shard_number_spec shardCount Hs) as (j0 & E & _).
  pose proof (fs_run_rep shardCount maxEntries ops j0 Hs E) as Hrep. fold ss in Hrep.
  destruct (store_Get_ref _ _ _ _ l' p' Hrep) as [_ ->].
  pose proof (fs_do_rep ss j0 _ _ (FGet l p) Hrep) as Hrep'. cbn [fs_do] in Hrep'.
  destruct (store_Get_ref _ _ _ _ l' p' Hrep') as [_ ->]. cbn [fref_do].
  destruct (store_Get_ref _ _ _ _ l p Hrep) as [_ Em]. rewrite Hm in Em. symmetry in Em.
  case_decide as Hk; [| done]. by rewrite <- Hk, fref_get_miss.
Qed.

(** C24: the hand-linked cache is a least-recently-used cache.  After any operations, whatever
    the order in which Go visits the maps, the links of every shard are those of a doubly
    linked list, and the list holds what a recency list of the shard's capacity would hold;
    [Get] answers what the list answers; the number of shards is a power of two, so that the
    masked hash is always the index of a shard; [InvalidateLayer] forgets the hashes of its
    layer and no others (layer ids hold no NUL, which separates them from the path). *)
Theorem fs_cache_refines (R : GoRange) (shardCount maxEntries : Z) (ops : list fs_op) :
  (shardCount < 2 ^ 63)%Z →
  let n := shard_number shardCount in
  let cap := Z.to_nat (shard_capacity shardCount maxEntries) in
  let ss := fs_run ops (NewShardedStore shardCount maxEntries) in
  (∀ j s, ss_shards ss !! j = Some s → ∃ r, list_of s r ∧ r.*2 = fref_run n cap j ops ∧
    length r = size (s_entries s) ∧ length r ≤ cap) ∧
  (∀ l p, getShard ss (compositeKey l p) < length (ss_shards ss) ∧
    (store_Get l p ss).1 = (fref_get (compositeKey l p) (fref_run n cap (key_shard n (compositeKey l p)) ops)).1) ∧
  (∀ l l' p, ¬ char_in go_nul l → ¬ char_in go_nul l' →
    (store_Get l' p (store_InvalidateLayer l ss)).1 = if decide (l = l') then None else (store_Get l' p ss).1).
Proof.
  intros Hs n cap ss. destruct (shard_number_spec shardCount Hs) as (j0 & E & _).
  pose proof (fs_run_rep shardCount maxEntries ops j0 Hs E) as Hrep. fold ss in Hrep. subst n. rewrite E. split_and!.
  - intros j s Hj. destruct (sr_shards _ _ _ _ Hrep j s Hj) as (Hc & r & [Hl He Hk Hf Hcap] & Er).
    exists r. split_and!; [done | done | |].
    + rewrite He, map_size_list_to_map by done. unfold keys_of. by rewrite length_fmap.
    + unfold cap. lia.
  - intros l p. by apply (store_Get_ref _ _ _ _ _ _ Hrep).
  - intros l l' p Hl Hl'. destruct (store_Get_ref _ _ _ _ l' p Hrep) as [_ ->].
    destruct (store_Get_ref _ _ _ _ l' p (fs_do_rep ss j0 _ _ (FInvalidateLayer l) Hrep)) as [_ Eg].
    cbn [fs_do fref_do] in Eg. rewrite Eg, !fref_get_lookup, fref_lookup_prefix, compositeKey_prefix by done.
    by case_decide; [rewrite bool_decide_eq_true_2 | rewrite bool_decide_eq_false_2].
Qed.

(** ** Witness *)

Definition fs_hash (p : string) (l : FsLayerID) : FsFileHash :=
  {| fh_Path := p; fh_Hash := str_bytes p; fh_Algorithm := "sha256"; fh_LayerID := l; fh_Size := 1 |}.

Definition sample_fs_ops : list fs_op :=
  [FPut "base" "a" (fs_hash "a" "base"); FPut "base" "b" (fs_hash "b" "base"); FGet "base" "a";
   FPut "top" "a" (fs_hash "a" "top"); FInvalidateLayer "base"].

Lemma fs_cache_refines_witness :
  let ss := fs_run sample_fs_ops (NewShardedStore 3 0) in
  length (ss_shards ss) = 4 ∧ (store_Get "base" "a" ss).1 = None ∧
  (store_Get "top" "a" ss).1 = Some (fs_hash "a" "top") ∧
  (∀ j s, ss_shards ss !! j = Some s → ∃ r, list_of s r ∧
     r.*2 = fref_run 4 16384 j sample_fs_ops ∧ length r = size (s_entries s) ∧ length r ≤ 16384).
Proof.
  split_and!; [vm_compute; reflexivity | vm_compute; reflexivity | vm_compute; reflexivity |].
  apply (fs_cache_refines _ 3 0 sample_fs_ops). lia.
Defined.
