(* ===== verification/FsAccess.v ===== *)
(** * FsAccess: [pkg/fshash/access]

    The deduplicator of the access engine: a Bloom filter of the session's accesses, a tracker of
    the hashes of each layer, and [Process], which decides for each event whether to compute,
    reuse, skip or exclude.  The sizes of the filter come from floating-point formulas; the two
    results are operations of the class [BloomSizing].  An index out of range, a panic of the
    program, is [None]. *)
From Stdlib Require Import QArith.
From S2P Require Import Prelude GoStd GoPath FsLayer FsCache.
#[local] Open Scope nat_scope.

(** ** access/filter.go *)

Record BloomFilter := {
  bf_bits : list N;
  bf_k : N;
  bf_m : N;
  bf_n : N;
  bf_mask : N;
}.

(** The floating-point formulas of [NewBloomFilter]: the number of bits
    [uint(-n ln(p) / ln(2)^2)] and the number of hashes [uint(m / n * ln 2)] *)
Class BloomSizing := {
  bits_for : N → Q → N;
  hashes_for : N → N → N;
}.

Definition default_items (expectedItems : N) : N := if decide (expectedItems = 0)%N then 1024%N else expectedItems.
Definition default_rate (fpRate : Q) : Q := if Qle_bool fpRate 0 || Qle_bool 1 fpRate then 1 # 1000 else fpRate.

(** The loop [for p < m { p <<= 1 }] is that of the cache's shard count. *)
Definition NewBloomFilter `{BloomSizing} (expectedItems : N) (fpRate : Q) : BloomFilter :=
  let expectedItems := default_items expectedItems in
  let fpRate := default_rate fpRate in
  let m := round_up 64 1 (bits_for expectedItems fpRate) in
  let k := hashes_for m expectedItems in
  let k := if (k <? 1)%N then 1%N else k in
  let words := (m / 64)%N in
  let words := if decide (words = 0)%N then 1%N else words in
  {| bf_bits := replicate (N.to_nat words) 0%N; bf_k := k; bf_m := m; bf_n := 0; bf_mask := m - 1 |}.

Definition dualHash (layerID : FsLayerID) (path : string) : N * N :=
  let key := layerID +:+ char_str go_nul +:+ path in
  foldl (λ h b, (fnv_step u64 1099511628211 h.1 b, fnv_step u64 1099511628211 h.2 b))
    (14695981039346656037, 2166136261)%N (str_bytes key).

(** [(h1 + uint64(i)*h2) & bf.mask] *)
Definition bloom_pos (mask h1 h2 i : N) : N := N.land (u64 (h1 + u64 (i * h2))) mask.

Definition bit_of (pos : N) : N := N.shiftl 1 (pos mod 64).

(** The loops of [Test], [Add] and [TestAndAdd], [n] turns from index [i] *)
Fixpoint test_loop (bits : list N) (mask h1 h2 i : N) (n : nat) : option bool :=
  match n with
  | 0 => Some true
  | S n =>
      let pos := bloom_pos mask h1 h2 i in
      match bits !! N.to_nat (pos / 64) with
      | None => None
      | Some w => if decide (N.land w (bit_of pos) = 0)%N then Some false else test_loop bits mask h1 h2 (i + 1) n
      end
  end.

Fixpoint add_loop (bits : list N) (mask h1 h2 i : N) (n : nat) : option (list N) :=
  match n with
  | 0 => Some bits
  | S n =>
      let pos := bloom_pos mask h1 h2 i in
      match bits !! N.to_nat (pos / 64) with
      | None => None
      | Some w => add_loop (<[N.to_nat (pos / 64) := N.lor w (bit_of pos)]> bits) mask h1 h2 (i + 1) n
      end
  end.

Fixpoint test_add_loop (present : bool) (bits : list N) (mask h1 h2 i : N) (n : nat) : option (bool * list N) :=
  match n with
  | 0 => Some (present, bits)
  | S n =>
      let pos := bloom_pos mask h1 h2 i in
      match bits !! N.to_nat (pos / 64) with
      | None => None
      | Some w =>
          let present := if decide (N.land w (bit_of pos) = 0)%N then false else present in
          test_add_loop present (<[N.to_nat (pos / 64) := N.lor w (bit_of pos)]> bits) mask h1 h2 (i + 1) n
      end
  end.

Definition with_bits (bf : BloomFilter) (bits : list N) (n : N) : BloomFilter :=
  {| bf_bits := bits; bf_k := bf_k bf; bf_m := bf_m bf; bf_n := n; bf_mask := bf_mask bf |}.

Definition bloom_Test (layerID : FsLayerID) (path : string) (bf : BloomFilter) : option bool :=
  let '(h1, h2) := dualHash layerID path in
  test_loop (bf_bits bf) (bf_mask bf) h1 h2 0 (N.to_nat (bf_k bf)).

Definition bloom_Add (layerID : FsLayerID) (path : string) (bf : BloomFilter) : option BloomFilter :=
  let '(h1, h2) := dualHash layerID path in
  bits ← add_loop (bf_bits bf) (bf_mask bf) h1 h2 0 (N.to_nat (bf_k bf));
  Some (with_bits bf bits (u64 (bf_n bf + 1))).

Definition TestAndAdd (layerID : FsLayerID) (path : string) (bf : BloomFilter) : option (bool * BloomFilter) :=
  let '(h1, h2) := dualHash layerID path in
  r ← test_add_loop true (bf_bits bf) (bf_mask bf) h1 h2 0 (N.to_nat (bf_k bf));
  Some (r.1, with_bits bf r.2 (u64 (bf_n bf + 1))).

Definition bloom_Reset (bf : BloomFilter) : BloomFilter :=
  with_bits bf ((λ _, 0%N) <$> bf_bits bf) 0.

Definition bloom_Count (bf : BloomFilter) : N := bf_n bf.

(** The loop of [popcount] clears the lowest set bit: a word has at most 64. *)
Fixpoint popcount_loop (fuel : nat) (x count : N) : N :=
  match fuel with
  | 0 => count
  | S fuel => if decide (x = 0)%N then count else popcount_loop fuel (N.land x (x - 1)) (count + 1)
  end.

Definition popcount (x : N) : N := popcount_loop 65 x 0.

(** [FillRatio], the two numbers of its quotient *)
Definition FillRatio (bf : BloomFilter) : N * N :=
  (foldl (λ acc w, u64 (acc + popcount w)) 0%N (bf_bits bf), bf_m bf).

(** ** access/tracker.go *)

(** The files of each layer; a manifest is its map. *)
Abbreviation Tracker := (gmap string (gmap string FsFileHash)) (only parsing).

Definition tracker_Record (layerID : FsLayerID) (hash : FsFileHash) (t : Tracker) : Tracker :=
  <[layerID := <[fh_Path hash := hash]> (default ∅ (t !! layerID))]> t.

Definition tracker_FileHashes `{GoRange} (layerID : FsLayerID) (t : Tracker) : list FsFileHash :=
  match t !! layerID with None => [] | Some m => (map_range m).*2 end.

Definition tracker_Count (layerID : FsLayerID) (t : Tracker) : nat :=
  match t !! layerID with None => 0 | Some m => size m end.

Definition tracker_HasFile (layerID : FsLayerID) (path : string) (t : Tracker) : bool :=
  match t !! layerID with None => false | Some m => bool_decide (is_Some (m !! path)) end.

Definition tracker_Clear (layerID : FsLayerID) (t : Tracker) : Tracker := delete layerID t.
Definition tracker_ClearAll (t : Tracker) : Tracker := ∅.

(** ** access/dedup.go *)

(** The layer store and the cache are those the processor shares with it. *)
Record Deduplicator := {
  d_layers : memStore;
  d_cache : ShardedStore;
  d_filter : BloomFilter;
  d_tracker : Tracker;
  d_received : N;
  d_computed : N;
  d_reused : N;
  d_skipped : N;
  d_excluded : N;
}.

Definition NewDeduplicator `{BloomSizing} (layers : memStore) (cache : ShardedStore) (expectedItems : N) (fpRate : Q)
    : Deduplicator :=
  {| d_layers := layers; d_cache := cache; d_filter := NewBloomFilter expectedItems fpRate; d_tracker := ∅;
     d_received := 0; d_computed := 0; d_reused := 0; d_skipped := 0; d_excluded := 0 |}.

Definition with_layers (d : Deduplicator) (s : memStore) : Deduplicator :=
  {| d_layers := s; d_cache := d_cache d; d_filter := d_filter d; d_tracker := d_tracker d; d_received := d_received d;
     d_computed := d_computed d; d_reused := d_reused d; d_skipped := d_skipped d; d_excluded := d_excluded d |}.

Definition with_cache (d : Deduplicator) (c : ShardedStore) : Deduplicator :=
  {| d_layers := d_layers d; d_cache := c; d_filter := d_filter d; d_tracker := d_tracker d; d_received := d_received d;
     d_computed := d_computed d; d_reused := d_reused d; d_skipped := d_skipped d; d_excluded := d_excluded d |}.

Definition with_filter (d : Deduplicator) (f : BloomFilter) : Deduplicator :=
  {| d_layers := d_layers d; d_cache := d_cache d; d_filter := f; d_tracker := d_tracker d; d_received := d_received d;
     d_computed := d_computed d; d_reused := d_reused d; d_skipped := d_skipped d; d_excluded := d_excluded d |}.

Definition with_tracker (d : Deduplicator) (t : Tracker) : Deduplicator :=
  {| d_layers := d_layers d; d_cache := d_cache d; d_filter := d_filter d; d_tracker := t; d_received := d_received d;
     d_computed := d_computed d; d_reused := d_reused d; d_skipped := d_skipped d; d_excluded := d_excluded d |}.

(** [Add(1)] on the counter of an action, and on [received] *)
Definition count_received (d : Deduplicator) : Deduplicator :=
  {| d_layers := d_layers d; d_cache := d_cache d; d_filter := d_filter d; d_tracker := d_tracker d;
     d_received := u64 (d_received d + 1); d_computed := d_computed d; d_reused := d_reused d;
     d_skipped := d_skipped d; d_excluded := d_excluded d |}.

Definition count_action (a : Action) (d : Deduplicator) : Deduplicator :=
  let n b x := if decide (a = b) then u64 (x + 1) else x in
  {| d_layers := d_layers d; d_cache := d_cache d; d_filter := d_filter d; d_tracker := d_tracker d;
     d_received := d_received d; d_computed := n ActionCompute (d_computed d); d_reused := n ActionReuse (d_reused d);
     d_skipped := n ActionSkip (d_skipped d); d_excluded := n ActionExclude (d_excluded d) |}.

(** Step 2: the first cached hash from the bottom of the chain *)
Fixpoint cache_walk (path : string) (layers : list FsLayerID) (ss : ShardedStore) : option FsFileHash * ShardedStore :=
  match layers with
  | [] => (None, ss)
  | lid :: rest =>
      match store_Get lid path ss with
      | (Some h, ss) => (Some h, ss)
      | (None, ss) => cache_walk path rest ss
      end
  end.

Definition dedup_result (event : FsAccessEvent) (a : Action) : DeduplicationResult :=
  {| dr_Event := event; dr_Action := a; dr_CachedHash := None; dr_SourceLayer := EmptyString |}.

Definition Process (event : FsAccessEvent) (chain : Chain) (d : Deduplicator)
    : option (DeduplicationResult * Deduplicator) :=
  let d := count_received d in
  if negb (IsFileVisible (d_layers d) chain (fe_Path event))
  then Some (dedup_result event ActionExclude, count_action ActionExclude d)
  else
    '(present, filter) ← TestAndAdd (fe_LayerID event) (fe_Path event) (d_filter d);
    let d := with_filter d filter in
    if (present : bool) then Some (dedup_result event ActionSkip, count_action ActionSkip d)
    else
      let '(hit, cache) := cache_walk (fe_Path event) (c_layers chain) (d_cache d) in
      let d := with_cache d cache in
      let compute := Some (dedup_result event ActionCompute, count_action ActionCompute d) in
      match hit with
      | Some h =>
          if negb (NeedsRehash (d_layers d) chain (fe_Path event) (fh_LayerID h))
          then
            let d := count_action ActionReuse d in
            Some ({| dr_Event := event; dr_Action := ActionReuse; dr_CachedHash := Some h;
                     dr_SourceLayer := fh_LayerID h |},
                  with_tracker d (tracker_Record (fe_LayerID event) h (d_tracker d)))
          else compute
      | None => compute
      end.

Definition RecordComputed (hash : FsFileHash) (d : Deduplicator) : Deduplicator :=
  let d := with_cache d (store_Put (fh_LayerID hash) (fh_Path hash) hash (d_cache d)) in
  with_tracker d (tracker_Record (fh_LayerID hash) hash (d_tracker d)).

Definition dedup_FileHashes `{GoRange} (layerID : FsLayerID) (d : Deduplicator) : list FsFileHash :=
  tracker_FileHashes layerID (d_tracker d).

Definition ResetSession (d : Deduplicator) : Deduplicator := with_filter d (bloom_Reset (d_filter d)).

Definition dedup_Stats (d : Deduplicator) : ProcessorStats :=
  {| ps_EventsReceived := d_received d; ps_EventsComputed := d_computed d; ps_EventsReused := d_reused d;
     ps_EventsSkipped := d_skipped d; ps_EventsExcluded := d_excluded d; ps_CacheHits := 0; ps_CacheMisses := 0;
     ps_LayersRegistered := 0; ps_TreesFinalized := 0 |}.

(** ** The filter *)

(** Bit [q] of the words *)
Definition bit_at (bits : list N) (q : N) : bool :=
  match bits !! N.to_nat (q / 64) with None => false | Some w => N.testbit w (q mod 64) end.

(** The positions of a key: [n] of them, from index [i] *)
Fixpoint positions (mask h1 h2 i : N) (n : nat) : list N :=
  match n with
  | 0 => []
  | S n => bloom_pos mask h1 h2 i :: positions mask h1 h2 (i + 1) n
  end.

Definition key_positions (bf : BloomFilter) (x : FsLayerID * string) : list N :=
  positions (bf_mask bf) (dualHash x.1 x.2).1 (dualHash x.1 x.2).2 0 (N.to_nat (bf_k bf)).

(** Every masked number is a bit of the words. *)
Definition in_range (mask : N) (bits : list N) : Prop := ∀ x, N.to_nat (N.land x mask / 64) < length bits.

Lemma testbit_bit_of p k : (k < 64)%N → N.testbit (bit_of p) k = bool_decide (p mod 64 = k)%N.
Proof.
  intros Hk. unfold bit_of. rewrite N.shiftl_1_l, N.pow2_bits_eqb.
  destruct (N.eqb_spec (p mod 64) k); [by rewrite bool_decide_eq_true_2 | by rewrite bool_decide_eq_false_2].
Qed.

Lemma land_bit_of w p : N.land w (bit_of p) = 0%N ↔ N.testbit w (p mod 64) = false.
Proof.
  split.
  - intros E. apply (f_equal (λ x, N.testbit x (p mod 64))) in E. rewrite N.land_spec, N.bits_0 in E.
    rewrite testbit_bit_of, bool_decide_eq_true_2, andb_true_r in E; [done | done | by apply N.mod_lt].
  - intros E. apply N.bits_inj_0. intros k. rewrite N.land_spec. unfold bit_of.
    rewrite N.shiftl_1_l, N.pow2_bits_eqb. destruct (N.eqb_spec (p mod 64) k) as [<-|]; [by rewrite E | by rewrite andb_false_r].
Qed.

Lemma bit_at_set bits p w q :
  bits !! N.to_nat (p / 64) = Some w →
  bit_at (<[N.to_nat (p / 64) := N.lor w (bit_of p)]> bits) q = bool_decide (q = p) || bit_at bits q.
Proof.
  intros Hw. unfold bit_at. destruct (decide (q / 64 = p / 64)%N) as [E|Hne].
  - rewrite E, list_lookup_insert_eq by (by eapply lookup_lt_Some). rewrite Hw, N.lor_spec.
    rewrite testbit_bit_of by (by apply N.mod_lt). rewrite orb_comm. f_equal. apply bool_decide_ext.
    pose proof (N.div_mod q 64). pose proof (N.div_mod p 64). rewrite E in *. split; [lia | by intros ->].
  - rewrite list_lookup_insert_ne by lia. rewrite bool_decide_eq_false_2; [done |]. by intros ->.
Qed.

Lemma in_range_lookup mask bits h1 h2 i :
  in_range mask bits → ∃ w, bits !! N.to_nat (bloom_pos mask h1 h2 i / 64) = Some w.
Proof. intros H. apply lookup_lt_is_Some_2, H. Qed.

Lemma in_range_set mask bits k w : in_range mask bits → in_range mask (<[k := w]> bits).
Proof. intros H x. rewrite length_insert. apply H. Qed.

Lemma bit_at_lookup bits p w : bits !! N.to_nat (p / 64) = Some w → bit_at bits p = N.testbit w (p mod 64).
Proof. unfold bit_at. by intros ->. Qed.

Lemma test_loop_spec bits mask h1 h2 i n :
  in_range mask bits → test_loop bits mask h1 h2 i n = Some (forallb (bit_at bits) (positions mask h1 h2 i n)).
Proof.
  intros Hr. revert i. induction n as [|n IH]; intros i; [done |]. cbn [test_loop positions forallb].
  destruct (in_range_lookup mask bits h1 h2 i Hr) as [w Hw]. rewrite Hw, (bit_at_lookup _ _ _ Hw), IH.
  case_decide as Hb; rewrite land_bit_of in Hb; [by rewrite Hb |]. apply not_false_is_true in Hb. by rewrite Hb.
Qed.

Lemma add_loop_spec bits mask h1 h2 i n :
  in_range mask bits → ∃ bits', add_loop bits mask h1 h2 i n = Some bits' ∧ length bits' = length bits ∧
    ∀ q, bit_at bits' q = bool_decide (q ∈ positions mask h1 h2 i n) || bit_at bits q.
Proof.
  revert i bits. induction n as [|n IH]; intros i bits Hr; cbn [add_loop positions].
  { exists bits. split_and!; [done | done |]. intros q. by rewrite bool_decide_eq_false_2 by apply not_elem_of_nil. }
  destruct (in_range_lookup mask bits h1 h2 i Hr) as [w Hw]. rewrite Hw.
  destruct (IH (i + 1)%N (<[N.to_nat (bloom_pos mask h1 h2 i / 64) := N.lor w (bit_of (bloom_pos mask h1 h2 i))]> bits))
    as (bits' & E & Hl & Hb); [by apply in_range_set |].
  exists bits'. split_and!; [done | by rewrite Hl, length_insert |]. intros q.
  rewrite Hb, bit_at_set by done. rewrite orb_assoc. f_equal. rewrite <- bool_decide_or. apply bool_decide_ext.
  rewrite elem_of_cons. tauto.
Qed.

(** The test interleaved with the setting gives what the test before it gives. *)
Lemma test_add_loop_spec present bits mask h1 h2 i n :
  in_range mask bits →
  test_add_loop present bits mask h1 h2 i n =
  bits' ← add_loop bits mask h1 h2 i n; Some (present && forallb (bit_at bits) (positions mask h1 h2 i n), bits').
Proof.
  revert i bits present. induction n as [|n IH]; intros i bits present Hr; cbn [test_add_loop add_loop positions forallb].
  { by rewrite andb_true_r. }
  destruct (in_range_lookup mask bits h1 h2 i Hr) as [w Hw]. rewrite Hw, (bit_at_lookup _ _ _ Hw).
  rewrite IH by by apply in_range_set. destruct (add_loop _ _ _ _ _ _) as [bits'|]; [| done]. cbn.
  case_decide as Hb; rewrite land_bit_of in Hb.
  - rewrite Hb. cbn. by rewrite andb_false_r.
  - apply not_false_is_true in Hb. rewrite Hb. cbn. do 3 f_equal. apply forallb_pointwise. intros q. rewrite bit_at_set by done.
    destruct (decide (q = bloom_pos mask h1 h2 i)) as [->|Hne]; [| by rewrite bool_decide_eq_false_2].
    by rewrite (bit_at_lookup _ _ _ Hw), Hb, orb_true_r.
Qed.

(** The operations of a session *)
Inductive bloom_op := BAdd (l : FsLayerID) (p : string) | BTestAndAdd (l : FsLayerID) (p : string) | BReset.

Definition bloom_do (bf : BloomFilter) (op : bloom_op) : option BloomFilter :=
  match op with
  | BAdd l p => bloom_Add l p bf
  | BTestAndAdd l p => snd <$> TestAndAdd l p bf
  | BReset => Some (bloom_Reset bf)
  end.

Definition bloom_run (ops : list bloom_op) (bf : BloomFilter) : option BloomFilter :=
  foldl (λ r op, bf ← r; bloom_do bf op) (Some bf) ops.

(** The keys added since the last reset *)
Definition added_keys (ops : list bloom_op) : list (FsLayerID * string) :=
  foldl (λ acc op, match op with BAdd l p | BTestAndAdd l p => acc ++ [(l, p)] | BReset => [] end) [] ops.

(** A filter that holds the given keys. *)
Record bloom_holds (bf : BloomFilter) (keys : list (FsLayerID * string)) : Prop := {
  bh_range : in_range (bf_mask bf) (bf_bits bf);
  bh_bits q : bit_at (bf_bits bf) q = bool_decide (Exists (λ x, q ∈ key_positions bf x) keys);
  bh_count : bf_n bf = u64 (N.of_nat (length keys));
}.

Lemma Test_eq l p bf : in_range (bf_mask bf) (bf_bits bf) →
  bloom_Test l p bf = Some (forallb (bit_at (bf_bits bf)) (key_positions bf (l, p))).
Proof.
  intros Hr. unfold bloom_Test, key_positions. cbn [fst snd].
  destruct (dualHash l p) as [h1 h2]. by rewrite test_loop_spec.
Qed.

Lemma Test_holds l p bf keys : bloom_holds bf keys →
  bloom_Test l p bf = Some (bool_decide (Forall (λ q, Exists (λ x, q ∈ key_positions bf x) keys) (key_positions bf (l, p)))).
Proof.
  intros [Hr Hb _]. rewrite Test_eq by done. f_equal. apply eq_true_iff_eq.
  rewrite forallb_forall, bool_decide_eq_true, Forall_forall. setoid_rewrite <- list_elem_of_In.
  split; intros H q Hq; specialize (H q Hq); [rewrite Hb in H | rewrite Hb]; by apply bool_decide_eq_true in H || apply bool_decide_eq_true.
Qed.

Lemma Add_holds l p bf keys : bloom_holds bf keys →
  ∃ bf', bloom_Add l p bf = Some bf' ∧ bloom_holds bf' (keys ++ [(l, p)]) ∧
    bf_mask bf' = bf_mask bf ∧ bf_k bf' = bf_k bf.
Proof.
  intros [Hr Hb Hn]. unfold bloom_Add. destruct (dualHash l p) as [h1 h2] eqn:Eh.
  destruct (add_loop_spec (bf_bits bf) (bf_mask bf) h1 h2 0 (N.to_nat (bf_k bf)) Hr) as (bits' & -> & Hl & Hb').
  eexists. split; [done |]. split; [| done]. split; cbn [with_bits bf_bits bf_mask bf_n].
  - intros x. rewrite Hl. apply Hr.
  - intros q. rewrite Hb', Hb, <- bool_decide_or. apply bool_decide_ext.
    change (key_positions (with_bits bf bits' (u64 (bf_n bf + 1)))) with (key_positions bf).
    assert (key_positions bf (l, p) = positions (bf_mask bf) h1 h2 0 (N.to_nat (bf_k bf))) as <-
      by (unfold key_positions; cbn [fst snd]; by rewrite Eh).
    rewrite Exists_app, Exists_cons, Exists_nil. tauto.
  - rewrite Hn, length_app. by rewrite Nat2N.inj_add, u64_add_l.
Qed.

Lemma TestAndAdd_eq l p bf : in_range (bf_mask bf) (bf_bits bf) →
  TestAndAdd l p bf = b ← bloom_Test l p bf; bf' ← bloom_Add l p bf; Some (b, bf').
Proof.
  intros Hr. rewrite Test_eq by done. unfold TestAndAdd, bloom_Add, key_positions. cbn [fst snd].
  destruct (dualHash l p) as [h1 h2]. rewrite test_add_loop_spec by done. by destruct (add_loop _ _ _ _ _ _).
Qed.

Lemma Reset_holds bf keys : bloom_holds bf keys →
  bloom_holds (bloom_Reset bf) [] ∧ bf_mask (bloom_Reset bf) = bf_mask bf ∧ bf_k (bloom_Reset bf) = bf_k bf.
Proof.
  intros [Hr _ _]. split; [| done]. split; cbn [bloom_Reset with_bits bf_bits bf_mask bf_n].
  - intros x. rewrite length_fmap. apply Hr.
  - intros q. unfold bit_at. rewrite list_lookup_fmap. rewrite bool_decide_eq_false_2 by (by intros ?%Exists_nil).
    destruct (bf_bits bf !! _); cbn [fmap option_fmap option_map]; [apply N.bits_0 | done].
  - done.
Qed.

Lemma New_holds `{BloomSizing} items rate :
  (bits_for (default_items items) (default_rate rate) ≤ 2 ^ 63)%N → bloom_holds (NewBloomFilter items rate) [].
Proof.
  intros Hm. unfold NewBloomFilter. set (b := bits_for _ _) in *.
  destruct (round_up_pow 64 0 b) as (j & E & Hj & _); [done | lia | lia |].
  change (2 ^ 0)%N with 1%N in E. rewrite E. split; cbn [bf_mask bf_bits bf_n].
  - intros x. rewrite length_replicate. rewrite <- N.pred_sub, <- N.ones_equiv, N.land_ones.
    pose proof (N.mod_lt x (2 ^ j) ltac:(by apply N.pow_nonzero)) as Hlt.
    case_decide as Hw.
    + apply N.div_small_iff in Hw; [| done]. rewrite N.div_small by (by apply (N.lt_trans _ (2 ^ j))). simpl. lia.
    + destruct (N.le_gt_cases 6 j) as [Hj6|Hj6].
      * assert (2 ^ j = 2 ^ (j - 6) * 64)%N as Ep.
        { change 64%N with (2 ^ 6)%N. rewrite <- N.pow_add_r. f_equal. lia. }
        rewrite Ep in *. rewrite N.div_mul by done.
        assert (x mod (2 ^ (j - 6) * 64) / 64 < 2 ^ (j - 6))%N as Hd
          by (apply N.Div0.div_lt_upper_bound; by rewrite (N.mul_comm 64)).
        clear - Hd. lia.
      * exfalso. apply Hw, N.div_small. change 64%N with (2 ^ 6)%N. apply N.pow_lt_mono_r; lia.
  - intros q. rewrite bool_decide_eq_false_2 by (by intros ?%Exists_nil). unfold bit_at.
    destruct (replicate _ _ !! _) as [w|] eqn:Hw; [| done]. apply lookup_replicate in Hw as [-> _]. apply N.bits_0.
  - done.
Qed.

Lemma bloom_run_holds `{BloomSizing} items rate ops :
  (bits_for (default_items items) (default_rate rate) ≤ 2 ^ 63)%N →
  ∃ bf, bloom_run ops (NewBloomFilter items rate) = Some bf ∧ bloom_holds bf (added_keys ops).
Proof.
  intros Hm. induction ops as [|op ops IH] using rev_ind.
  { exists (NewBloomFilter items rate). split; [done | by apply New_holds]. }
  destruct IH as (bf & E & Hh). unfold bloom_run, added_keys in *. rewrite !foldl_app. cbn [foldl]. rewrite E. cbn [mbind option_bind].
  destruct op as [l p|l p|]; cbn [bloom_do].
  - destruct (Add_holds l p _ _ Hh) as (bf' & Ea & Hh' & _). by exists bf'.
  - destruct (Add_holds l p _ _ Hh) as (bf' & Ea & Hh' & _).
    rewrite TestAndAdd_eq by apply Hh. rewrite (Test_holds _ _ _ _ Hh), Ea. cbn. by exists bf'.
  - exists (bloom_Reset bf). split; [done |]. by eapply Reset_holds.
Qed.

(** What the session filter answers.  After any additions and resets no index has been out
    of range; [Test] is true exactly when each position of the key is one of the positions of the
    keys added since the last reset, so a key that was added always tests true; [TestAndAdd]
    answers what [Test] would have answered and leaves what [Add] would have left. *)
Theorem bloom_spec (S : BloomSizing) (items : N) (rate : Q) (ops : list bloom_op) :
  (bits_for (default_items items) (default_rate rate) ≤ 2 ^ 63)%N →
  ∃ bf, bloom_run ops (NewBloomFilter items rate) = Some bf ∧
    bloom_Count bf = u64 (N.of_nat (length (added_keys ops))) ∧
    ∀ l p,
      bloom_Test l p bf = Some (bool_decide (Forall (λ q, Exists (λ x, q ∈ key_positions bf x) (added_keys ops))
        (key_positions bf (l, p)))) ∧
      ((l, p) ∈ added_keys ops → bloom_Test l p bf = Some true) ∧
      (∃ bf', bloom_Add l p bf = Some bf' ∧ TestAndAdd l p bf = b ← bloom_Test l p bf; Some (b, bf')).
Proof.
  intros Hm. destruct (bloom_run_holds items rate ops Hm) as (bf & E & Hh). exists bf.
  split_and!; [done | apply Hh |]. intros l p. rewrite (Test_holds _ _ _ _ Hh). split_and!; [done | |].
  - intros Hin. f_equal. apply bool_decide_eq_true_2, Forall_forall. intros q Hq.
    apply Exists_exists. by exists (l, p).
  - destruct (Add_holds l p _ _ Hh) as (bf' & Ea & _). exists bf'. split; [done |].
    rewrite TestAndAdd_eq by apply Hh. by rewrite (Test_holds _ _ _ _ Hh), Ea.
Qed.

(** ** The deduplicator *)

(** What happens to a deduplicator: the store it shares with the processor may change between
    two of its calls. *)
Inductive dedup_op :=
  | DProcess (e : FsAccessEvent) (c : Chain)
  | DRecord (h : FsFileHash)
  | DReset
  | DLayers (s : memStore).

Definition dedup_do (d : Deduplicator) (op : dedup_op) : option Deduplicator :=
  match op with
  | DProcess e c => snd <$> Process e c d
  | DRecord h => Some (RecordComputed h d)
  | DReset => Some (ResetSession d)
  | DLayers s => Some (with_layers d s)
  end.

Definition dedup_run (ops : list dedup_op) (d : Deduplicator) : option Deduplicator :=
  foldl (λ r op, d ← r; dedup_do d op) (Some d) ops.

(** The hash last recorded for a path of a layer *)
Definition last_recorded (ops : list dedup_op) (l : FsLayerID) (p : string) : option FsFileHash :=
  foldl (λ acc op, match op with
    | DRecord h => if decide (fh_LayerID h = l ∧ fh_Path h = p) then Some h else acc
    | _ => acc
    end) None ops.

(** The first cached hash from the bottom of the chain, with the layer it is cached for *)
Fixpoint first_cached (path : string) (layers : list FsLayerID) (ss : ShardedStore) : option (FsLayerID * FsFileHash) :=
  match layers with
  | [] => None
  | lid :: rest =>
      match (store_Get lid path ss).1 with
      | Some h => Some (lid, h)
      | None => first_cached path rest ss
      end
  end.

Lemma first_cached_split path layers ss lid h :
  first_cached path layers ss = Some (lid, h) →
  ∃ lower upper, layers = lower ++ lid :: upper ∧ (store_Get lid path ss).1 = Some h ∧
    Forall (λ l, (store_Get l path ss).1 = None) lower.
Proof.
  induction layers as [|l layers IH]; [done |]. cbn [first_cached]. destruct (store_Get l path ss).1 as [h'|] eqn:E.
  - intros [= <- <-]. by exists [], layers.
  - intros (lower & upper & -> & Hg & Hl)%IH. exists (l :: lower), upper. by repeat constructor.
Qed.

Lemma first_cached_middle path lower l upper h ss :
  Forall (λ x, (store_Get x path ss).1 = None) lower → (store_Get l path ss).1 = Some h →
  first_cached path (lower ++ l :: upper) ss = Some (l, h).
Proof. intros Hl Hg. induction Hl as [|x lower Hx Hl IH]; cbn [first_cached app]; [by rewrite Hg | by rewrite Hx]. Qed.

Lemma last_recorded_key ops l p h : last_recorded ops l p = Some h → fh_LayerID h = l ∧ fh_Path h = p.
Proof.
  induction ops as [|op ops IH] using rev_ind; [done |]. unfold last_recorded in *. rewrite foldl_app. cbn [foldl].
  destruct op; [done | | done | done]. case_decide; [by intros [= <-] | done].
Qed.

Section dedup.
Context `{BloomSizing} `{GoRange}.
Context (layers0 : memStore) (shardCount maxEntries : Z) (items : N) (rate : Q).
Hypothesis Hshards : (shardCount < 2 ^ 63)%Z.
Hypothesis Hbits : (bits_for (default_items items) (default_rate rate) ≤ 2 ^ 63)%N.

Definition dedup0 : Deduplicator := NewDeduplicator layers0 (NewShardedStore shardCount maxEntries) items rate.

(** The cache is what some operations made of it; the values put are the recorded hashes. *)
Record dedup_inv (ops : list dedup_op) (cops : list fs_op) (d : Deduplicator) : Prop := {
  di_cache : d_cache d = fs_run cops (NewShardedStore shardCount maxEntries);
  di_puts : omap (λ op, match op with FPut l p h => Some (l, p, h) | _ => None end) cops
    = omap (λ op, match op with DRecord h => Some (fh_LayerID h, fh_Path h, h) | _ => None end) ops;
  di_filter : ∃ keys, bloom_holds (d_filter d) keys;
  di_stats : d_received d = u64 (d_computed d + d_reused d + d_skipped d + d_excluded d);
}.

Lemma cache_walk_spec path layers cops :
  let ss := fs_run cops (NewShardedStore shardCount maxEntries) in
  (cache_walk path layers ss).1 = snd <$> first_cached path layers ss ∧
  ∃ gets, (cache_walk path layers ss).2 = fs_run (cops ++ gets) (NewShardedStore shardCount maxEntries) ∧
    Forall (λ op, match op with FGet _ _ => True | _ => False end) gets.
Proof.
  revert cops. induction layers as [|l layers IH]; intros cops ss.
  { split; [done |]. exists []. by rewrite app_nil_r. }
  cbn [cache_walk first_cached].
  assert (∀ r, fs_run (cops ++ [FGet l path]) r = (store_Get l path (fs_run cops r)).2) as Es
    by (intros r; unfold fs_run; by rewrite foldl_app).
  pose proof (store_Get_miss shardCount maxEntries cops l path Hshards) as Hm. fold ss in Hm. cbn zeta in Hm.
  specialize (Es (NewShardedStore shardCount maxEntries)). fold ss in Es.
  destruct (store_Get l path ss) as [[h|] ss'] eqn:E; cbn [fst snd] in *.
  - split; [done |]. exists [FGet l path]. split; [by rewrite Es | by repeat constructor].
  - specialize (IH (cops ++ [FGet l path])). cbn zeta in IH. rewrite Es in IH.
    destruct IH as (E1 & gets & E2 & Hg). split.
    + rewrite E1. f_equal. clear -Hm. specialize (Hm eq_refl).
      induction layers as [|l' layers IH]; [done |]. cbn [first_cached]. by rewrite Hm, IH.
    + exists (FGet l path :: gets). rewrite E2, <- app_assoc. split; [done |]. by constructor.
Qed.

Lemma omap_gets cops gets :
  Forall (λ op, match op with FGet _ _ => True | _ => False end) gets →
  omap (λ op, match op with FPut l p h => Some (l, p, h) | _ => None end) (cops ++ gets)
  = omap (λ op, match op with FPut l p h => Some (l, p, h) | _ => None end) cops.
Proof.
  intros Hg. rewrite omap_app. assert (omap (λ op, match op with FPut l p h => Some (l, p, h) | _ => None end) gets = []) as ->;
    [| apply app_nil_r]. induction Hg as [|op gets Hop Hg IH]; [done |]. by destruct op.
Qed.

(** The decision [Process] documents *)
Definition expected_action (d : Deduplicator) (chain : Chain) (e : FsAccessEvent) (seen : bool) : Action :=
  if IsFileVisible (d_layers d) chain (fe_Path e) then
    if seen then ActionSkip
    else match first_cached (fe_Path e) (c_layers chain) (d_cache d) with
         | Some (_, h) => if NeedsRehash (d_layers d) chain (fe_Path e) (fh_LayerID h) then ActionCompute else ActionReuse
         | None => ActionCompute
         end
  else ActionExclude.

Lemma count_stats a d :
  d_received d = u64 (d_computed d + d_reused d + d_skipped d + d_excluded d) →
  let d' := count_action a (count_received d) in
  d_received d' = u64 (d_computed d' + d_reused d' + d_skipped d' + d_excluded d').
Proof.
  intros E. cbn [count_action count_received d_received d_computed d_reused d_skipped d_excluded].
  rewrite E, u64_add_l. set (c := d_computed d). set (r := d_reused d). set (s := d_skipped d). set (x := d_excluded d).
  destruct a; repeat first [rewrite decide_True by done | rewrite decide_False by done].
  - replace (u64 (c + 1) + r + s + x)%N with (u64 (c + 1) + (r + s + x))%N by lia. rewrite u64_add_l. f_equal. lia.
  - replace (c + u64 (r + 1) + s + x)%N with (u64 (r + 1) + (c + s + x))%N by lia. rewrite u64_add_l. f_equal. lia.
  - replace (c + r + u64 (s + 1) + x)%N with (u64 (s + 1) + (c + r + x))%N by lia. rewrite u64_add_l. f_equal. lia.
  - replace (c + r + s + u64 (x + 1))%N with (u64 (x + 1) + (c + r + s))%N by lia. rewrite u64_add_l. f_equal. lia.
Qed.

Lemma Process_cases ops cops d e c :
  dedup_inv ops cops d →
  ∃ seen r d' cops', bloom_Test (fe_LayerID e) (fe_Path e) (d_filter d) = Some seen ∧ Process e c d = Some (r, d') ∧
    dedup_inv (ops ++ [DProcess e c]) cops' d' ∧ dr_Event r = e ∧ dr_Action r = expected_action d c e seen ∧
    d_layers d' = d_layers d ∧
    (dr_Action r = ActionReuse → dr_CachedHash r = snd <$> first_cached (fe_Path e) (c_layers c) (d_cache d)).
Proof.
  intros [Hc Hp [keys Hf] Hs]. unfold Process, expected_action. cbn zeta.
  change (d_layers (count_received d)) with (d_layers d). change (d_filter (count_received d)) with (d_filter d).
  pose proof (Test_holds (fe_LayerID e) (fe_Path e) _ _ Hf) as Ht. set (seen := bool_decide _) in Ht. rewrite Ht.
  assert (∀ x, omap (λ op, match op with DRecord h => Some (fh_LayerID h, fh_Path h, h) | _ => None end) (ops ++ [DProcess e x])
    = omap (λ op, match op with DRecord h => Some (fh_LayerID h, fh_Path h, h) | _ => None end) ops) as Ho
    by (intros x; by rewrite omap_app, app_nil_r).
  exists seen. destruct (IsFileVisible _ _ _); cbn [negb].
  2:{ do 2 eexists. exists cops. split_and!; [done | done | | done | done | done | done].
      split; [done | by rewrite Ho | by exists keys |]. by apply (count_stats ActionExclude). }
  rewrite TestAndAdd_eq by apply Hf. rewrite Ht. destruct (Add_holds (fe_LayerID e) (fe_Path e) _ _ Hf) as (bf' & -> & Hf' & _).
  cbn [mbind option_bind]. destruct seen.
  { do 2 eexists. exists cops. split_and!; [done | done | | done | done | done | done].
    split; [done | by rewrite Ho | by eexists |]. by apply (count_stats ActionSkip). }
  change (d_cache (with_filter (count_received d) bf')) with (d_cache d).
  pose proof (cache_walk_spec (fe_Path e) (c_layers c) cops) as (Ew & gets & Ew2 & Hg). cbn zeta in *. rewrite <- Hc in *.
  destruct (cache_walk _ _ _) as [hit ss]. cbn [fst snd] in *. subst hit.
  assert (∀ a t, dedup_inv (ops ++ [DProcess e c]) (cops ++ gets)
    (with_tracker (count_action a (with_cache (with_filter (count_received d) bf') ss)) t)) as Hinv.
  { intros a t. split; [done | by rewrite Ho, omap_gets | by eexists |]. by apply (count_stats a). }
  destruct (first_cached _ _ _) as [[lid h]|]; cbn [fmap option_fmap option_map snd].
  - change (d_layers (with_cache (with_filter (count_received d) bf') ss)) with (d_layers d).
    destruct (NeedsRehash _ _ _ _); cbn [negb]; do 2 eexists; exists (cops ++ gets).
    + split_and!; [done | done | apply (Hinv ActionCompute (d_tracker d)) | done | done | done | done].
    + split_and!; [done | done | apply (Hinv ActionReuse) | done | done | done | done].
  - do 2 eexists; exists (cops ++ gets).
    split_and!; [done | done | apply (Hinv ActionCompute (d_tracker d)) | done | done | done | done].
Qed.

Lemma dedup_run_inv ops : ∃ d cops, dedup_run ops dedup0 = Some d ∧ dedup_inv ops cops d.
Proof.
  induction ops as [|op ops IH] using rev_ind.
  { exists dedup0, []. split; [done |]. split; [done | done | exists []; by apply New_holds | done]. }
  destruct IH as (d & cops & E & Hd). unfold dedup_run in *. rewrite foldl_app. cbn [foldl]. rewrite E.
  cbn [mbind option_bind]. destruct op as [e c|h| |s]; cbn [dedup_do].
  - destruct (Process_cases ops cops d e c Hd) as (seen & r & d' & cops' & _ & -> & Hd' & _). by exists d', cops'.
  - destruct Hd as [Hc Hp Hf Hs]. exists (RecordComputed h d), (cops ++ [FPut (fh_LayerID h) (fh_Path h) h]).
    split; [done |]. split; [| by rewrite !omap_app, Hp | done | done].
    unfold fs_run. rewrite foldl_app. cbn [foldl fs_do RecordComputed with_tracker with_cache d_cache].
    by rewrite Hc.
  - destruct Hd as [Hc Hp [keys Hf] Hs]. exists (ResetSession d), cops. split; [done |].
    split; [done | by rewrite omap_app, app_nil_r | exists []; by eapply Reset_holds | done].
  - destruct Hd as [Hc Hp Hf Hs]. exists (with_layers d s), cops. split; [done |].
    split; [done | by rewrite omap_app, app_nil_r | done | done].
Qed.

(** What the cache answers is the last recorded hash, when no layer id holds a NUL. *)
Lemma last_put_recorded ops cops l p :
  omap (λ op, match op with FPut l p h => Some (l, p, h) | _ => None end) cops
    = omap (λ op, match op with DRecord h => Some (fh_LayerID h, fh_Path h, h) | _ => None end) ops →
  (∀ h, DRecord h ∈ ops → ¬ char_in go_nul (fh_LayerID h)) → ¬ char_in go_nul l →
  last_put cops (compositeKey l p) = last_recorded ops l p.
Proof.
  intros E Hn Hl.
  pose (f := λ (acc : option FsFileHash) (x : FsLayerID * string * FsFileHash),
    if decide (compositeKey x.1.1 x.1.2 = compositeKey l p) then Some x.2 else acc).
  assert (last_put cops (compositeKey l p) = foldl f None
    (omap (λ op, match op with FPut l p h => Some (l, p, h) | _ => None end) cops)) as ->.
  { unfold last_put. generalize (@None FsFileHash). clear. induction cops as [|op cops IH]; intros acc; [done |].
    destruct op; cbn; by rewrite IH. }
  rewrite E. unfold last_recorded. generalize (@None FsFileHash). clear E cops.
  induction ops as [|op ops IH]; intros acc; [done |].
  assert (∀ h, DRecord h ∈ ops → ¬ char_in go_nul (fh_LayerID h)) as Hn' by (intros h Hh; apply Hn; by right).
  destruct op as [e c|h| |s]; cbn; rewrite IH by done; [done | | done | done]. f_equal. unfold f. cbn [fst snd].
  apply decide_ext. split; [| by intros [-> ->]]. unfold compositeKey.
  intros Ek. apply str_split_char_eq in Ek; [done | | done]. apply Hn. by left.
Qed.

End dedup.

(** [Process] as far as it depends on the filter alone *)
Lemma Process_total e c d :
  (∃ keys, bloom_holds (d_filter d) keys) →
  ∃ r d', Process e c d = Some (r, d') ∧ d_layers d' = d_layers d ∧
    (∃ keys, bloom_holds (d_filter d') keys ∧
      (IsFileVisible (d_layers d) c (fe_Path e) = true → (fe_LayerID e, fe_Path e) ∈ keys)) ∧
    (d_tracker d' = d_tracker d ∨
     ∃ h, (cache_walk (fe_Path e) (c_layers c) (d_cache d)).1 = Some h ∧
       d_tracker d' = tracker_Record (fe_LayerID e) h (d_tracker d)).
Proof.
  intros [keys Hf]. unfold Process. cbn zeta.
  change (d_layers (count_received d)) with (d_layers d). change (d_filter (count_received d)) with (d_filter d).
  destruct (IsFileVisible _ _ _); cbn [negb].
  2:{ do 2 eexists. split; [done |]. split; [done |]. split; [by exists keys | by left]. }
  rewrite TestAndAdd_eq by apply Hf. rewrite (Test_holds _ _ _ _ Hf).
  destruct (Add_holds (fe_LayerID e) (fe_Path e) _ _ Hf) as (bf' & -> & Hf' & _). cbn [mbind option_bind].
  assert (∃ keys', bloom_holds bf' keys' ∧ (true = true → (fe_LayerID e, fe_Path e) ∈ keys')) as Hk.
  { exists (keys ++ [(fe_LayerID e, fe_Path e)]). split; [done |]. intros _. apply elem_of_app. right. by left. }
  destruct (bool_decide _).
  { do 2 eexists. split; [done |]. split; [done |]. split; [done | by left]. }
  change (d_cache (with_filter (count_received d) bf')) with (d_cache d).
  destruct (cache_walk (fe_Path e) (c_layers c) (d_cache d)) as [[h|] ss] eqn:Ew.
  - destruct (negb _); do 2 eexists; (split; [done |]; split; [done |]; split; [done |]).
    + right. by exists h.
    + by left.
  - do 2 eexists. split; [done |]. split; [done |]. split; [done | by left].
Qed.

(** An access of this session is excluded or skipped. *)
Lemma Process_seen e c d keys :
  bloom_holds (d_filter d) keys → (fe_LayerID e, fe_Path e) ∈ keys →
  ∃ r d', Process e c d = Some (r, d') ∧ (dr_Action r = ActionExclude ∨ dr_Action r = ActionSkip) ∧
    d_tracker d' = d_tracker d ∧ d_cache d' = d_cache d.
Proof.
  intros Hf Hin. unfold Process. cbn zeta.
  change (d_layers (count_received d)) with (d_layers d). change (d_filter (count_received d)) with (d_filter d).
  destruct (IsFileVisible _ _ _); cbn [negb].
  2:{ do 2 eexists. split; [done |]. split; [by left | done]. }
  rewrite TestAndAdd_eq by apply Hf. rewrite (Test_holds _ _ _ _ Hf).
  destruct (Add_holds (fe_LayerID e) (fe_Path e) _ _ Hf) as (bf' & -> & _). cbn [mbind option_bind].
  rewrite bool_decide_eq_true_2.
  - do 2 eexists. split; [done |]. split; [by right | done].
  - apply Forall_forall. intros q Hq. apply Exists_exists. by eexists.
Qed.

(** ** What a session answers and counts *)

(** The answers of the calls of [Process], in order *)
Definition dedup_results (ops : list dedup_op) (d : Deduplicator) : option (Deduplicator * list DeduplicationResult) :=
  foldl (λ acc op, '(d, rs) ← acc;
    match op with
    | DProcess e c => '(r, d) ← Process e c d; Some (d, rs ++ [r])
    | _ => d ← dedup_do d op; Some (d, rs)
    end) (Some (d, [])) ops.

(** The layers as they are now, and the accesses of visible files since the last reset: no
    state of the deduplicator is looked at. *)
Definition session (ops : list dedup_op) (layers0 : memStore) : memStore * list (FsLayerID * string) :=
  foldl (λ st op, match op with
    | DProcess e c => (st.1, if IsFileVisible st.1 c (fe_Path e) then st.2 ++ [(fe_LayerID e, fe_Path e)] else st.2)
    | DRecord _ => st
    | DReset => (st.1, [])
    | DLayers s => (s, st.2)
    end) (layers0, []) ops.

Definition processed (ops : list dedup_op) : list FsAccessEvent :=
  omap (λ op, match op with DProcess e _ => Some e | _ => None end) ops.

(** How many of the results have an action, modulo the width of the counters *)
Definition tally (a : Action) (rs : list DeduplicationResult) : N :=
  u64 (N.of_nat (length (filter (λ r, dr_Action r = a) rs))).

Definition counter (a : Action) (d : Deduplicator) : N :=
  match a with
  | ActionCompute => d_computed d
  | ActionReuse => d_reused d
  | ActionSkip => d_skipped d
  | ActionExclude => d_excluded d
  end.

Lemma tally_snoc a rs r : tally a (rs ++ [r]) = if decide (dr_Action r = a) then u64 (tally a rs + 1) else tally a rs.
Proof.
  unfold tally. rewrite filter_app, length_app, filter_cons, filter_nil. case_decide; cbn [length].
  - rewrite u64_add_l. f_equal. lia.
  - by rewrite Nat.add_0_r.
Qed.

(** What a call of [Process] does to the counters and to the filter *)
Lemma Process_effect e c d keys :
  bloom_holds (d_filter d) keys →
  ∃ r d', Process e c d = Some (r, d') ∧ dr_Event r = e ∧ d_layers d' = d_layers d ∧
    bloom_holds (d_filter d')
      (if IsFileVisible (d_layers d) c (fe_Path e) then keys ++ [(fe_LayerID e, fe_Path e)] else keys) ∧
    d_received d' = u64 (d_received d + 1) ∧
    ∀ a, counter a d' = if decide (dr_Action r = a) then u64 (counter a d + 1) else counter a d.
Proof.
  intros Hf. unfold Process. cbn zeta.
  change (d_layers (count_received d)) with (d_layers d). change (d_filter (count_received d)) with (d_filter d).
  destruct (IsFileVisible _ _ _); cbn [negb]; [| by do 2 eexists; split_and!; [done.. | intros []]].
  rewrite TestAndAdd_eq by apply Hf. rewrite (Test_holds _ _ _ _ Hf).
  destruct (Add_holds (fe_LayerID e) (fe_Path e) _ _ Hf) as (bf' & -> & Hf' & _). cbn [mbind option_bind].
  destruct (bool_decide _); [by do 2 eexists; split_and!; [done.. | intros []] |].
  destruct (cache_walk _ _ _) as [[h|] ss]; [destruct (NeedsRehash _ _ _ _); cbn [negb] |];
    by do 2 eexists; split_and!; [done.. | intros []].
Qed.

Section results.
Context `{BloomSizing} `{GoRange}.
Context (layers0 : memStore) (shardCount maxEntries : Z) (items : N) (rate : Q).
Hypothesis Hshards : (shardCount < 2 ^ 63)%Z.
Hypothesis Hbits : (bits_for (default_items items) (default_rate rate) ≤ 2 ^ 63)%N.

Notation start := (dedup0 layers0 shardCount maxEntries items rate).

Lemma dedup_results_inv ops :
  ∃ d rs, dedup_results ops start = Some (d, rs) ∧ dedup_run ops start = Some d ∧
    dr_Event <$> rs = processed ops ∧ d_layers d = (session ops layers0).1 ∧
    bloom_holds (d_filter d) (session ops layers0).2 ∧ d_received d = u64 (N.of_nat (length rs)) ∧
    ∀ a, counter a d = tally a rs.
Proof.
  induction ops as [|op ops IH] using rev_ind.
  { exists start, []. split_and!; [done.. | by apply New_holds | done | by intros []]. }
  destruct IH as (d & rs & E & Er & Ee & El & Hf & Hr & Hc).
  unfold dedup_results, dedup_run, session, processed in *. rewrite !foldl_app, omap_app. cbn [foldl omap list_omap].
  rewrite E, Er, <- Ee. cbn [mbind option_bind]. destruct op as [e c|h| |s]; cbn [dedup_do mbind option_bind].
  - destruct (Process_effect e c d _ Hf) as (r & d' & -> & Hev & Hl' & Hf' & Hr' & Hc'). exists d', (rs ++ [r]).
    rewrite fmap_app. cbn [fmap list_fmap fst snd]. rewrite Hev, Hl', El in *. split_and!; [done.. | |].
    + rewrite Hr', Hr, u64_add_l, length_app. f_equal. simpl. lia.
    + intros a. by rewrite Hc', tally_snoc, Hc.
  - exists (RecordComputed h d), rs. rewrite app_nil_r. by split_and!.
  - exists (ResetSession d), rs. rewrite app_nil_r. split_and!; [done.. | by eapply Reset_holds | done | done].
  - exists (with_layers d s), rs. rewrite app_nil_r. by split_and!.
Qed.
End results.

(** C29: the decision for an event, and the counters.  After any calls and changes of the layers,
    no index of the filter has been out of range, each call of [Process] was answered for its
    event, [EventsReceived] is the number of the answers and each other counter the number of
    those with its action (modulo the width of the counters).  The next event is excluded exactly
    when its file is not visible in the layers as they are now; it is skipped exactly when it is
    visible and each of its filter positions is one of some visible access since the last reset,
    which every such access satisfies and a fresh one may by a collision; and it is reused exactly
    when neither holds and the lowest hash cached for the chain is valid, which is the answer.
    Otherwise it is to be computed. *)
Theorem Process_decides (S : BloomSizing) (R : GoRange) (layers0 : memStore) (shardCount maxEntries : Z) (items : N)
    (rate : Q) (ops : list dedup_op) :
  (shardCount < 2 ^ 63)%Z → (bits_for (default_items items) (default_rate rate) ≤ 2 ^ 63)%N →
  ∃ d rs, dedup_results ops (dedup0 layers0 shardCount maxEntries items rate) = Some (d, rs) ∧
    dr_Event <$> rs = processed ops ∧
    (let st := dedup_Stats d in
     ps_EventsReceived st = u64 (N.of_nat (length rs)) ∧ ps_EventsComputed st = tally ActionCompute rs ∧
     ps_EventsReused st = tally ActionReuse rs ∧ ps_EventsSkipped st = tally ActionSkip rs ∧
     ps_EventsExcluded st = tally ActionExclude rs) ∧
    ∀ e c, ∃ r d', Process e c d = Some (r, d') ∧ dr_Event r = e ∧
      let '(layers, seen) := session ops layers0 in
      let at_ := key_positions (d_filter d) in
      let visible := IsFileVisible layers c (fe_Path e) in
      let collides := ∀ q, q ∈ at_ (fe_LayerID e, fe_Path e) → ∃ k, k ∈ seen ∧ q ∈ at_ k in
      (dr_Action r = ActionExclude ↔ visible = false) ∧
      (dr_Action r = ActionSkip ↔ visible = true ∧ collides) ∧
      ((fe_LayerID e, fe_Path e) ∈ seen → collides) ∧
      (dr_Action r = ActionReuse ↔ visible = true ∧ ¬ collides ∧
        ∃ l h, first_cached (fe_Path e) (c_layers c) (d_cache d) = Some (l, h) ∧
          NeedsRehash layers c (fe_Path e) (fh_LayerID h) = false ∧ dr_CachedHash r = Some h).
Proof.
  intros Hs Hb. destruct (dedup_results_inv layers0 shardCount maxEntries items rate Hb ops)
    as (d & rs & E & Er & Ee & El & Hf & Hr & Hc). exists d, rs.
  split; [done |]. split; [done |]. split.
  { split_and!; [done | apply (Hc ActionCompute) | apply (Hc ActionReuse) | apply (Hc ActionSkip) | apply (Hc ActionExclude)]. }
  intros e c. destruct (dedup_run_inv layers0 shardCount maxEntries items rate Hs Hb ops) as (d1 & cops & E1 & Hd).
  rewrite Er in E1. injection E1 as <-. destruct (Process_cases _ _ _ _ Hs Hb ops cops d e c Hd)
    as (seen & r & d' & cops' & Ht & Ep & _ & Hev & Ea & _ & Hcached). exists r, d'. split; [done |]. split; [done |].
  destruct (session ops layers0) as [layers keys]. cbn [fst snd] in *. cbn zeta. subst layers.
  rewrite (Test_holds _ _ _ _ Hf) in Ht. injection Ht as Ht.
  set (collides := ∀ q, _ → _). assert (seen = true ↔ collides) as Hseen.
  { rewrite <- Ht, bool_decide_eq_true, Forall_forall. unfold collides. by setoid_rewrite Exists_exists. }
  clearbody collides. assert ((fe_LayerID e, fe_Path e) ∈ keys → seen = true) as Hin.
  { intros Hin. rewrite <- Ht. apply bool_decide_eq_true_2, Forall_forall. intros q Hq. apply Exists_exists. by eexists. }
  rewrite <- Hseen. clear Hseen Hc Hf Ht. rewrite Ea. rewrite Ea in Hcached. unfold expected_action in *.
  destruct (IsFileVisible _ _ _); [| by repeat split; naive_solver].
  destruct seen; [by split_and!; naive_solver |]. destruct (first_cached _ _ _) as [[l h]|]; [| by split_and!; naive_solver].
  destruct (NeedsRehash _ _ _ _) eqn:Hre; split_and!; [naive_solver congruence.. |].
  split; [intros _ | done]. split; [done |]. split; [done |]. exists l, h. split_and!; [done.. | by apply Hcached].
Qed.

(** C30: a reused hash is not stale.  When [Process] reuses a hash, it is the hash last recorded
    for the path in a layer of the chain, and no layer above that one modified the path.  (Layer
    ids hold no NUL; chains have no repetition.) *)
Theorem reuse_sound (S : BloomSizing) (R : GoRange) (layers0 : memStore) (shardCount maxEntries : Z) (items : N)
    (rate : Q) (ops : list dedup_op) (d d' : Deduplicator) (e : FsAccessEvent) (layers : list FsLayerID)
    (r : DeduplicationResult) :
  (shardCount < 2 ^ 63)%Z → (bits_for (default_items items) (default_rate rate) ≤ 2 ^ 63)%N →
  (∀ h, DRecord h ∈ ops → ¬ char_in go_nul (fh_LayerID h)) →
  NoDup layers → Forall (λ l, ¬ char_in go_nul l) layers →
  dedup_run ops (dedup0 layers0 shardCount maxEntries items rate) = Some d →
  Process e (NewChain layers) d = Some (r, d') → dr_Action r = ActionReuse →
  ∃ lower l upper h, layers = lower ++ l :: upper ∧ dr_CachedHash r = Some h ∧
    fh_LayerID h = l ∧ fh_Path h = fe_Path e ∧ last_recorded ops l (fe_Path e) = Some h ∧
    Forall (λ x, store_IsModified x (fe_Path e) (d_layers d) = false) upper.
Proof.
  intros Hs Hb Hn Hnd Hl E Hp Ha.
  destruct (dedup_run_inv layers0 shardCount maxEntries items rate Hs Hb ops) as (d1 & cops & E1 & Hd).
  rewrite E in E1. injection E1 as <-.
  destruct (Process_cases _ _ _ _ Hs Hb ops cops d e (NewChain layers) Hd)
    as (seen & r1 & d1 & cops' & _ & Ep & _ & _ & Ea & _ & Hr). rewrite Hp in Ep. injection Ep as <- <-.
  rewrite (Hr Ha). rewrite Ha in Ea. unfold expected_action in Ea. cbn [c_layers NewChain] in *.
  destruct (IsFileVisible _ _ _); [| done]. destruct seen; [done |].
  destruct (first_cached (fe_Path e) layers (d_cache d)) as [[l h]|] eqn:Ef; [| done].
  destruct (NeedsRehash _ _ _ _) eqn:Hre; [done |].
  apply first_cached_split in Ef as (lower & upper & -> & Hg & Hlow).
  assert (¬ char_in go_nul l) as Hnl by (rewrite Forall_app, Forall_cons in Hl; tauto).
  rewrite (di_cache _ _ _ _ _ Hd) in Hg. apply store_Get_last in Hg; [| done].
  rewrite (last_put_recorded ops cops l (fe_Path e) (di_puts _ _ _ _ _ Hd) Hn Hnl) in Hg.
  destruct (last_recorded_key _ _ _ _ Hg) as [Hh1 Hh2].
  exists lower, l, upper, h. split_and!; [done | done | done | done | done |].
  unfold NeedsRehash in Hre. rewrite Hh1, Position_split, Above_split in Hre by done. by apply any_modified_false.
Qed.

(** A stale hash low in the chain hides the fresh one above it.  While the lowest cached
    hash of a path belongs to a layer below one that modified the path, [Process] never reuses,
    whatever the cache holds for the layers above. *)
Theorem stale_bottom_blocks_reuse (d d' : Deduplicator) (e : FsAccessEvent) (r : DeduplicationResult)
    (lower upper : list FsLayerID) (l m : FsLayerID) (h : FsFileHash) (S : BloomSizing) (R : GoRange)
    (layers0 : memStore) (shardCount maxEntries : Z) (items : N) (rate : Q) (ops : list dedup_op) :
  (shardCount < 2 ^ 63)%Z → (bits_for (default_items items) (default_rate rate) ≤ 2 ^ 63)%N →
  dedup_run ops (dedup0 layers0 shardCount maxEntries items rate) = Some d →
  NoDup (lower ++ l :: upper) →
  Forall (λ x, (store_Get x (fe_Path e) (d_cache d)).1 = None) lower →
  (store_Get l (fe_Path e) (d_cache d)).1 = Some h → fh_LayerID h = l →
  m ∈ upper → store_IsModified m (fe_Path e) (d_layers d) = true →
  Process e (NewChain (lower ++ l :: upper)) d = Some (r, d') → dr_Action r ≠ ActionReuse.
Proof.
  intros Hs Hb E Hnd Hlow Hg Hh Hm Hmod Hp.
  destruct (dedup_run_inv layers0 shardCount maxEntries items rate Hs Hb ops) as (d1 & cops & E1 & Hd).
  rewrite E in E1. injection E1 as <-.
  destruct (Process_cases _ _ _ _ Hs Hb ops cops d e (NewChain (lower ++ l :: upper)) Hd) as (seen & r1 & d1 & cops' & _ & Ep & _ & _ & Ea & _).
  rewrite Hp in Ep. injection Ep as <- <-. rewrite Ea. unfold expected_action. cbn [c_layers NewChain].
  destruct (IsFileVisible _ _ _); [| done]. destruct seen; [done |].
  rewrite (first_cached_middle _ _ _ _ h) by done. unfold NeedsRehash. rewrite Hh, Position_split, Above_split by done.
  destruct (any_modified _ _ _) eqn:Hany; [done |]. apply any_modified_false in Hany.
  rewrite Forall_forall in Hany. by rewrite (Hany _ Hm) in Hmod.
Qed.

(** ** Witnesses *)

Definition sample_sizing : BloomSizing := {| bits_for n _ := 14 * n; hashes_for m n := 7 * m / (10 * n) |}%N.

Lemma bloom_spec_witness :
  let _ := sample_sizing in
  ∃ bf, bloom_run [BAdd "l" "a"; BReset; BTestAndAdd "l" "b"] (NewBloomFilter 8 (1 # 1000)) = Some bf ∧
    bloom_Test "l" "b" bf = Some true ∧ bloom_Test "l" "a" bf = Some false.
Proof.
  intros S. destruct (bloom_spec S 8 (1 # 1000) [BAdd "l" "a"; BReset; BTestAndAdd "l" "b"]) as (bf & E & _ & Hbf);
    [vm_compute; discriminate |].
  exists bf. split; [done |]. destruct (Hbf "l" "b") as (_ & Hb & _). destruct (Hbf "l" "a") as (Ha & _). split.
  - apply Hb. by left.
  - assert ((bf ← bloom_run [BAdd "l" "a"; BReset; BTestAndAdd "l" "b"] (NewBloomFilter 8 (1 # 1000)); bloom_Test "l" "a" bf)
      = Some false) as Et by (vm_compute; reflexivity). by rewrite E in Et.
Defined.

Definition fs_event (l : FsLayerID) (p : string) (op : AccessOp) (data : option (list byte)) : FsAccessEvent :=
  {| fe_LayerID := l; fe_VertexID := "v"; fe_Path := p; fe_Op := op; fe_Offset := 0; fe_Count := 0; fe_Data := data;
     fe_Timestamp := 0 |}.

Definition sample_layers2 : memStore := (store_Register "top" "base" (store_Register "base" EmptyString ∅).2).2.
Definition sample_modified2 : memStore := (store_MarkModified "top" "f" sample_layers2).2.

Definition sample_dedup_ops : list dedup_op := [DRecord (fs_hash "f" "base"); DRecord (fs_hash "f" "top"); DLayers sample_modified2].

(** An access and its repetition, which is skipped; the hidden file of another layer is excluded. *)
Lemma Process_decides_witness :
  let _ := sample_sizing in
  let e := fs_event "top" "f" OpRead None in
  let ops := [DRecord (fs_hash "f" "base"); DProcess e (NewChain ["base"; "top"])] in
  ∃ d rs, dedup_results ops (dedup0 sample_layers2 1 0 8 (1 # 1000)) = Some (d, rs) ∧ dr_Event <$> rs = [e] ∧
    ps_EventsReused (dedup_Stats d) = tally ActionReuse rs ∧
    ∃ r d', Process e (NewChain ["base"; "top"]) d = Some (r, d') ∧ dr_Action r = ActionSkip.
Proof.
  intros S e ops. destruct (Process_decides S _ sample_layers2 1 0 8 (1 # 1000) ops)
    as (d & rs & E & Ee & (_ & _ & Hu & _) & H); [lia | vm_compute; discriminate |].
  exists d, rs. split; [done |]. split; [exact Ee |]. split; [exact Hu |].
  destruct (H e (NewChain ["base"; "top"])) as (r & d' & Ep & _ & _ & Hskip & Hin & _). exists r, d'. split; [done |].
  apply Hskip. split; [vm_compute; reflexivity |]. apply Hin. vm_compute. left.
Defined.

Lemma reuse_sound_witness :
  let _ := sample_sizing in
  ∃ d r d', dedup_run [DRecord (fs_hash "f" "base")] (dedup0 sample_layers2 1 0 8 (1 # 1000)) = Some d ∧
    Process (fs_event "top" "f" OpRead None) (NewChain ["base"; "top"]) d = Some (r, d') ∧
    dr_Action r = ActionReuse ∧
    ∃ lower l upper h, ["base"; "top"] = lower ++ l :: upper ∧ dr_CachedHash r = Some h ∧ fh_LayerID h = l ∧
      fh_Path h = "f" ∧ last_recorded [DRecord (fs_hash "f" "base")] l "f" = Some h ∧
      Forall (λ x, store_IsModified x "f" (d_layers d) = false) upper.
Proof.
  intros S.
  set (d := RecordComputed (fs_hash "f" "base") (dedup0 sample_layers2 1 0 8 (1 # 1000))).
  destruct (Process (fs_event "top" "f" OpRead None) (NewChain ["base"; "top"]) d) as [[r d']|] eqn:Ep; [| by vm_compute in Ep].
  exists d, r, d'. split; [done |]. split; [done |].
  assert (dr_Action r = ActionReuse) as Ha.
  { assert (dr_Action <$> (fst <$> Process (fs_event "top" "f" OpRead None) (NewChain ["base"; "top"]) d) = Some ActionReuse) as E
      by (vm_compute; reflexivity). rewrite Ep in E. by injection E. }
  split; [done |].
  apply (reuse_sound S _ sample_layers2 1 0 8 (1 # 1000) [DRecord (fs_hash "f" "base")] d d' (fs_event "top" "f" OpRead None)
    ["base"; "top"] r); [lia | vm_compute; discriminate | | | | done | done | done].
  - intros h Hh%list_elem_of_singleton. assert (h = fs_hash "f" "base") as -> by congruence. apply (bool_decide_eq_true_1 _). vm_compute. reflexivity.
  - apply (bool_decide_eq_true_1 _). vm_compute. reflexivity.
  - apply (bool_decide_eq_true_1 _). vm_compute. reflexivity.
Defined.

Lemma stale_bottom_blocks_reuse_witness :
  let _ := sample_sizing in
  ∃ d r d', dedup_run sample_dedup_ops (dedup0 sample_layers2 1 0 8 (1 # 1000)) = Some d ∧
    (store_Get "top" "f" (d_cache d)).1 = Some (fs_hash "f" "top") ∧
    Process (fs_event "top" "f" OpRead None) (NewChain ([] ++ "base" :: ["top"])) d = Some (r, d') ∧
    dr_Action r ≠ ActionReuse.
Proof.
  intros S. set (d := with_layers (RecordComputed (fs_hash "f" "top") (RecordComputed (fs_hash "f" "base")
    (dedup0 sample_layers2 1 0 8 (1 # 1000)))) sample_modified2).
  destruct (Process (fs_event "top" "f" OpRead None) (NewChain ([] ++ "base" :: ["top"])) d) as [[r d']|] eqn:Ep;
    [| by vm_compute in Ep].
  exists d, r, d'. split; [done |]. split; [vm_compute; reflexivity |]. split; [done |].
  apply (stale_bottom_blocks_reuse d d' (fs_event "top" "f" OpRead None) r [] ["top"] "base" "top" (fs_hash "f" "base") S _
    sample_layers2 1 0 8 (1 # 1000) sample_dedup_ops);
    [lia | vm_compute; discriminate | done | | constructor | vm_compute; reflexivity | done | by left |
     vm_compute; reflexivity | done].
  apply (bool_decide_eq_true_1 _). vm_compute. reflexivity.
Defined.
