(* ===== verification/FsOverlay.v ===== *)
(** * FsOverlay: [pkg/fshash/overlay]

    The parser of overlay markers, the interpreter that turns access events into mutations, and
    the chain visibility checker.  The interpreter's hooks are optional callbacks that act on a
    state [W] of their own. *)
From S2P Require Import Prelude GoStd GoPath FsLayer.

(** ** overlay/types.go *)

Inductive EntryKind := EntryRegular | EntryWhiteout | EntryOpaque | EntryCopyUp.

Record OverlayEntry := {
  oe_RawPath : string;
  oe_TargetPath : string;
  oe_Kind : EntryKind;
  oe_LayerID : FsLayerID;
}.

Inductive MutationKind := MutationModified | MutationDeleted | MutationOpaqued | MutationRenamed.

Record Mutation := {
  mu_Kind : MutationKind;
  mu_Path : string;
  mu_LayerID : FsLayerID;
  mu_TargetPath : string;
}.

(** ** overlay/hooks.go and options.go *)

Record InterpreterHooks (W : Type) := {
  OnWhiteoutDetected : option (OverlayEntry → W → W);
  OnOpaqueDetected : option (OverlayEntry → W → W);
  OnCopyUpDetected : option (OverlayEntry → W → W);
  OnMutationEmitted : option (Mutation → W → W);
}.
Arguments OnWhiteoutDetected {W}.
Arguments OnOpaqueDetected {W}.
Arguments OnCopyUpDetected {W}.
Arguments OnMutationEmitted {W}.

Definition fire {W A} (f : option (A → W → W)) (a : A) (w : W) : W :=
  match f with Some f => f a w | None => w end.

Definition no_overlay_hooks {W} : InterpreterHooks W :=
  {| OnWhiteoutDetected := None; OnOpaqueDetected := None; OnCopyUpDetected := None; OnMutationEmitted := None |}.

Record overlay_config (W : Type) := {
  oc_whiteoutPrefix : string;
  oc_opaqueMarker : string;
  oc_hooks : InterpreterHooks W;
}.
Arguments oc_whiteoutPrefix {W}.
Arguments oc_opaqueMarker {W}.
Arguments oc_hooks {W}.

Definition defaultWhiteoutPrefix : string := ".wh.".
Definition defaultOpaqueMarker : string := ".wh..wh..opq".

Definition overlay_defaultConfig {W} : overlay_config W :=
  {| oc_whiteoutPrefix := defaultWhiteoutPrefix; oc_opaqueMarker := defaultOpaqueMarker; oc_hooks := no_overlay_hooks |}.

Definition WithWhiteoutPrefix {W} (prefix : string) (c : overlay_config W) : overlay_config W :=
  {| oc_whiteoutPrefix := prefix; oc_opaqueMarker := oc_opaqueMarker c; oc_hooks := oc_hooks c |}.

Definition WithOpaqueMarker {W} (marker : string) (c : overlay_config W) : overlay_config W :=
  {| oc_whiteoutPrefix := oc_whiteoutPrefix c; oc_opaqueMarker := marker; oc_hooks := oc_hooks c |}.

Definition WithInterpreterHooks {W} (hooks : InterpreterHooks W) (c : overlay_config W) : overlay_config W :=
  {| oc_whiteoutPrefix := oc_whiteoutPrefix c; oc_opaqueMarker := oc_opaqueMarker c; oc_hooks := hooks |}.

(** ** overlay/parser.go *)

Record Parser := { pa_whiteoutPrefix : string; pa_opaqueMarker : string }.

Definition NewParser {W} (opts : list (overlay_config W → overlay_config W)) : Parser :=
  let cfg := foldl (λ c opt, opt c) overlay_defaultConfig opts in
  {| pa_whiteoutPrefix := oc_whiteoutPrefix cfg; pa_opaqueMarker := oc_opaqueMarker cfg |}.

Definition Parse (p : Parser) (path : string) (layerID : FsLayerID) : OverlayEntry :=
  let base := path_base path in
  let dir := path_dir path in
  if decide (base = pa_opaqueMarker p)
  then {| oe_RawPath := path; oe_TargetPath := dir; oe_Kind := EntryOpaque; oe_LayerID := layerID |}
  else if has_prefix base (pa_whiteoutPrefix p)
  then
    let targetBase := trim_prefix base (pa_whiteoutPrefix p) in
    let targetPath := if decide (dir = "." ∨ dir = "/") then path_join [dir; targetBase] else path_join [dir; targetBase] in
    {| oe_RawPath := path; oe_TargetPath := targetPath; oe_Kind := EntryWhiteout; oe_LayerID := layerID |}
  else {| oe_RawPath := path; oe_TargetPath := path; oe_Kind := EntryRegular; oe_LayerID := layerID |}.

Definition parser_IsWhiteout (p : Parser) (path : string) : bool :=
  let base := path_base path in
  has_prefix base (pa_whiteoutPrefix p) && negb (bool_decide (base = pa_opaqueMarker p)).

Definition parser_IsOpaque (p : Parser) (path : string) : bool := bool_decide (path_base path = pa_opaqueMarker p).

Definition WhiteoutTarget (p : Parser) (path : string) : string :=
  if parser_IsWhiteout p path
  then path_join [path_dir path; trim_prefix (path_base path) (pa_whiteoutPrefix p)]
  else path.

(** ** overlay/interpreter.go *)

Record Interpreter (W : Type) := { in_parser : Parser; in_hooks : InterpreterHooks W }.
Arguments in_parser {W}.
Arguments in_hooks {W}.

Definition NewInterpreter {W} (opts : list (overlay_config W → overlay_config W)) : Interpreter W :=
  let cfg := foldl (λ c opt, opt c) overlay_defaultConfig opts in
  {| in_parser := NewParser opts; in_hooks := oc_hooks cfg |}.

Definition Interpret {W} (i : Interpreter W) (event : FsAccessEvent) (w : W) : list Mutation * W :=
  let entry := Parse (in_parser i) (fe_Path event) (fe_LayerID event) in
  let mutation k := {| mu_Kind := k; mu_Path := oe_TargetPath entry; mu_LayerID := oe_LayerID entry; mu_TargetPath := EmptyString |} in
  let '(mutations, w) := match oe_Kind entry with
    | EntryWhiteout => ([mutation MutationDeleted], fire (OnWhiteoutDetected (in_hooks i)) entry w)
    | EntryOpaque => ([mutation MutationOpaqued], fire (OnOpaqueDetected (in_hooks i)) entry w)
    | EntryRegular => ([mutation MutationModified], w)
    | EntryCopyUp => ([], w)
    end in
  (mutations, foldl (λ w m, fire (OnMutationEmitted (in_hooks i)) m w) w mutations).

(** ** overlay/visibility.go *)

(** The loop over the parts of the path: the directories whose opacity it asks for.  The answers
    change nothing. *)
Fixpoint opaque_scan (rooted : bool) (currentPath : string) (parts : list string) : list string :=
  match parts with
  | [] | [_] => []
  | part :: rest =>
      if decide (part = EmptyString ∧ currentPath = EmptyString) then opaque_scan rooted currentPath rest
      else
        let currentPath :=
          if decide (currentPath = EmptyString) then (if rooted then "/" +:+ part else part)
          else if decide (currentPath = "/") then "/" +:+ part else currentPath +:+ "/" +:+ part in
        currentPath :: opaque_scan rooted currentPath rest
  end.

(** The loop from the layer down to the base *)
Fixpoint checker_loop (s : memStore) (path : string) (down : list FsLayerID) : bool :=
  match down with
  | [] => true
  | lid :: rest =>
      if store_IsDeleted lid path s then false
      else
        let _ := (λ dir, store_IsOpaque lid dir s) <$> opaque_scan (has_prefix path "/") EmptyString (str_split go_slash path) in
        checker_loop s path rest
  end.

Definition IsVisible (s : memStore) (chain : Chain) (layerID : FsLayerID) (path : string) : bool :=
  match chain_Position chain layerID with
  | None => false
  | Some pos => checker_loop s path (reverse (take (S pos) (c_layers chain)))
  end.

Definition VisiblePaths (s : memStore) (chain : Chain) (layerID : FsLayerID) (paths : list string) : list string :=
  filter (λ p, IsVisible s chain layerID p = true) paths.

(** ** Paths of markers *)

(** The directory of the given segments, ["/"] or ["."] when there are none *)
Definition dir_name (rooted : bool) (l : list string) : string :=
  if rooted then abs_path l else if decide (l = []) then "." else rel_path l.

Lemma path_base_rel l n : seg n → path_base (rel_path (l ++ [n])) = n.
Proof.
  intros Hn. pose proof Hn as (He & _ & _ & Hc). unfold path_base.
  assert (rel_path (l ++ [n]) ≠ EmptyString ∧ strip_trailing_slashes (rel_path (l ++ [n])) = rel_path (l ++ [n])) as [Hne Hs].
  { destruct (decide (l = [])) as [->|Hl].
    - split; [done |]. cbn [app rel_path str_join]. by apply (strip_no_trailing EmptyString).
    - rewrite rel_path_app by done. split; [by destruct (rel_path l) |].
      rewrite <- str_app_assoc. by apply strip_no_trailing. }
  rewrite decide_False by done. rewrite Hs, path_split_rel by done. cbn [snd]. by rewrite decide_False.
Qed.

Lemma path_base_dir rooted l n : seg n → path_base (dir_path rooted (l ++ [n])) = n.
Proof. intros Hn. destruct rooted; [by apply path_base_abs | by apply path_base_rel]. Qed.

Lemma path_dir_abs l n : Forall seg l → seg n → path_dir (abs_path (l ++ [n])) = abs_path l.
Proof.
  intros Hl (He & _ & _ & Hn). unfold path_dir. rewrite abs_path_app, path_split_app by done. cbn [fst].
  case_decide as Hl0; [by subst |]. rewrite (path_clean_segs _ l).
  - by rewrite is_rooted_abs.
  - by destruct (abs_path l) eqn:E.
  - change (abs_path l +:+ "/") with (abs_path l +:+ "/" +:+ EmptyString).
    rewrite segs_cat, segs_abs by done. cbn. by rewrite app_nil_r.
  - done.
Qed.

Lemma path_dir_name rooted l n : Forall seg l → seg n → path_dir (dir_path rooted (l ++ [n])) = dir_name rooted l.
Proof. intros Hl Hn. destruct rooted; [by apply path_dir_abs | by apply path_dir_rel]. Qed.

Lemma join_dir_name rooted l n : Forall seg l → seg n → path_join [dir_name rooted l; n] = dir_path rooted (l ++ [n]).
Proof.
  intros Hl Hn. destruct rooted; cbn [dir_name dir_path]; [| by apply join_clean_dir].
  apply (join_abs_rel l [n]); [done | done | by constructor].
Qed.

Lemma join_dir_empty rooted l : Forall seg l → path_join [dir_name rooted l; EmptyString] = dir_name rooted l.
Proof.
  intros Hl. assert (dir_name rooted l ≠ EmptyString ∧ segs (dir_name rooted l) = l ∧ (rooted = false → ∀ t, is_rooted (dir_name rooted l +:+ t) = false)) as (Hne & Hs & Hr).
  { destruct rooted; cbn [dir_name]; [split_and!; [done | by apply segs_abs | done] |].
    case_decide as Hl0; [by subst |]. split_and!; [| by apply segs_rel |].
    - destruct l as [|x l]; [done |]. apply rel_path_ne. by apply Forall_cons in Hl as [? _].
    - intros _ t. destruct l as [|x l]; [done |]. apply is_rooted_rel. by apply Forall_cons in Hl as [? _]. }
  cbn [path_join str_join]. rewrite decide_False by done. rewrite (path_clean_segs _ l); [| | | done].
  - destruct rooted; cbn [str_join]; [by rewrite is_rooted_abs |]. by rewrite Hr by done.
  - by destruct (dir_name rooted l).
  - rewrite segs_cat, Hs. cbn. by rewrite app_nil_r.
Qed.

Lemma wh_base_seg n : seg n → seg (".wh." +:+ n).
Proof.
  intros (He & _ & _ & Hc). split_and!; [done | done | done |]. rewrite char_in_app. intros [H|H]; [| done].
  revert H. apply (bool_decide_eq_true_1 _). vm_compute. reflexivity.
Qed.

Lemma wh_bare_seg : seg ".wh." ∧ seg ".wh..wh..opq".
Proof. split; apply (bool_decide_eq_true_1 _); vm_compute; reflexivity. Qed.

(** The mutations of an event at a path, as pairs *)
Definition mutations_of (l : FsLayerID) (path : string) (e : FsAccessEvent) : list (MutationKind * string * FsLayerID) :=
  (λ m, (mu_Kind m, mu_Path m, mu_LayerID m)) <$>
  (Interpret (NewInterpreter (W := unit) [])
    {| fe_LayerID := l; fe_VertexID := fe_VertexID e; fe_Path := path; fe_Op := fe_Op e; fe_Offset := fe_Offset e;
       fe_Count := fe_Count e; fe_Data := fe_Data e; fe_Timestamp := fe_Timestamp e |} tt).1.

Lemma mutations_of_eq l path e :
  mutations_of l path e =
  let en := Parse (NewParser (W := unit) []) path l in
  match oe_Kind en with
  | EntryWhiteout => [(MutationDeleted, oe_TargetPath en, l)]
  | EntryOpaque => [(MutationOpaqued, oe_TargetPath en, l)]
  | EntryRegular => [(MutationModified, oe_TargetPath en, l)]
  | EntryCopyUp => []
  end.
Proof.
  unfold mutations_of, Interpret. cbn [fe_Path fe_LayerID in_parser NewInterpreter].
  assert (oe_LayerID (Parse (NewParser (W := unit) []) path l) = l) as E
    by (unfold Parse; case_decide; [done |]; by destruct (has_prefix _ _)).
  cbn zeta. rewrite E. by destruct (oe_Kind _).
Qed.

Lemma Parse_whiteout (q : Parser) rooted d n l :
  pa_whiteoutPrefix q = ".wh." → pa_opaqueMarker q = ".wh..wh..opq" → Forall seg d → seg n → n ≠ ".wh..opq" →
  let en := Parse q (dir_path rooted (d ++ [".wh." +:+ n])) l in
  oe_Kind en = EntryWhiteout ∧ oe_TargetPath en = dir_path rooted (d ++ [n]).
Proof.
  intros E1 E2 Hd Hn Hne. unfold Parse. rewrite E1, E2. rewrite path_base_dir, path_dir_name by (done || by apply wh_base_seg).
  rewrite decide_False by (intros E; apply Hne; by injection E).
  rewrite has_prefix_app, trim_prefix_app. rewrite join_dir_name by done. by case_decide.
Qed.

(** What an access event means.  A plain name is a modification of its own path, whatever
    the operation of the event; a whiteout [.wh.n] deletes [n] beside it; the opaque marker makes
    its directory opaque; and the bare name [.wh.] deletes the directory that holds it. *)
Theorem Interpret_spec (rooted : bool) (d : list string) (n : string) (l : FsLayerID) (e : FsAccessEvent) :
  Forall seg d → seg n →
  (has_prefix n ".wh." = false →
    mutations_of l (dir_path rooted (d ++ [n])) e = [(MutationModified, dir_path rooted (d ++ [n]), l)]) ∧
  (n ≠ ".wh..opq" →
    mutations_of l (dir_path rooted (d ++ [".wh." +:+ n])) e = [(MutationDeleted, dir_path rooted (d ++ [n]), l)]) ∧
  mutations_of l (dir_path rooted (d ++ [".wh..wh..opq"])) e = [(MutationOpaqued, dir_name rooted d, l)] ∧
  mutations_of l (dir_path rooted (d ++ [".wh."])) e = [(MutationDeleted, dir_name rooted d, l)].
Proof.
  intros Hd Hn. destruct wh_bare_seg as [Hb Ho]. rewrite !mutations_of_eq. unfold Parse.
  cbn [NewParser foldl overlay_defaultConfig pa_opaqueMarker pa_whiteoutPrefix oc_opaqueMarker oc_whiteoutPrefix].
  unfold defaultOpaqueMarker, defaultWhiteoutPrefix.
  rewrite !path_base_dir by (done || by apply wh_base_seg).
  rewrite !path_dir_name by (done || by apply wh_base_seg). split_and!.
  - intros Hp. rewrite decide_False by (by intros ->). by rewrite Hp.
  - intros Hne. rewrite decide_False by (intros E; apply Hne; by injection E).
    rewrite has_prefix_app, trim_prefix_app. rewrite join_dir_name by done. by case_decide.
  - done.
  - rewrite decide_False by done. change (has_prefix ".wh." ".wh.") with true.
    change (trim_prefix ".wh." ".wh.") with EmptyString. rewrite join_dir_empty by done. by case_decide.
Qed.

(** ** Visibility *)

Lemma checker_loop_spec s path down :
  checker_loop s path down = true ↔ Forall (λ l, store_IsDeleted l path s = false) down.
Proof.
  induction down as [|l down IH]; cbn [checker_loop]; [done |]. rewrite Forall_cons, <- IH.
  destruct (store_IsDeleted l path s); naive_solver.
Qed.

Lemma IsVisible_split s lower l upper path :
  NoDup (lower ++ l :: upper) →
  IsVisible s (NewChain (lower ++ l :: upper)) l path = true ↔
  Forall (λ x, store_IsDeleted x path s = false) (lower ++ [l]).
Proof.
  intros Hnd. unfold IsVisible. rewrite Position_split by done. rewrite checker_loop_spec, Forall_reverse.
  cbn [c_layers NewChain]. rewrite cons_middle, app_assoc, take_app_length'; [done |]. rewrite length_app. simpl. lia.
Qed.

(** The visibility checker of the package only looks at whiteouts of the path itself, from
    the layer down to the base.  So it disagrees with the resolver on the same store: a file
    re-created in a layer above its whiteout is visible to the resolver and not to the checker,
    and a file below an opaque directory is visible to the checker and not to the resolver. *)
Theorem IsVisible_spec (s : memStore) (lower upper : list FsLayerID) (l : FsLayerID) (path : string) :
  NoDup (lower ++ l :: upper) →
  (IsVisible s (NewChain (lower ++ l :: upper)) l path = true ↔
   Forall (λ x, store_IsDeleted x path s = false) (lower ++ [l])) ∧
  (∀ m, m ∈ lower → upper = [] → store_IsDeleted m path s = true → store_IsModified l path s = true →
    IsVisible s (NewChain (lower ++ l :: upper)) l path = false ∧
    IsFileVisible s (NewChain (lower ++ l :: upper)) path = true) ∧
  (∀ rooted xs b rest d, upper = [] → lower = b :: rest → path = dir_path rooted xs → Forall seg xs → xs ≠ [] →
    Forall (λ x, store_IsModified x path s = false ∧ store_IsDeleted x path s = false) (lower ++ [l]) →
    is_ancestor rooted xs d → store_IsOpaque l d s = true →
    IsVisible s (NewChain (lower ++ l :: upper)) l path = true ∧
    IsFileVisible s (NewChain (lower ++ l :: upper)) path = false).
Proof.
  intros Hnd. split; [by apply IsVisible_split |]. split.
  - intros m Hm -> Hdel Hmod. split.
    + apply not_true_iff_false. rewrite IsVisible_split by done. rewrite Forall_forall. intros H.
      rewrite H in Hdel; [done |]. apply elem_of_app. by left.
    + apply IsFileVisible_top; [done | done].
  - intros rooted xs b rest d -> -> -> Hseg Hne Hall Hanc Hop. rewrite IsVisible_split by done. split.
    { eapply Forall_impl; [exact Hall |]. intros x Hx. apply Hx. }
    assert (owns s (dir_path rooted xs) [] b (rest ++ [l])) as Ho.
    { change (((b :: rest) ++ [l])) with (b :: (rest ++ [l])) in Hall. apply Forall_cons in Hall as [[Hb _] Hrest].
      split; [by right |]. eapply Forall_impl; [exact Hrest |]. intros x Hx. apply Hx. }
    apply not_true_iff_false. change ((b :: rest) ++ [l]) with ([] ++ b :: (rest ++ [l])) in *.
    rewrite IsFileVisible_owned by done. rewrite Forall_app, Forall_singleton. intros [_ [_ H]]. by rewrite H in Hop.
Qed.

(** ** Witnesses *)

Lemma Interpret_spec_witness :
  let e := {| fe_LayerID := "top"; fe_VertexID := "v"; fe_Path := "usr/.wh.lib"; fe_Op := OpClose; fe_Offset := 0%N;
              fe_Count := 0%N; fe_Data := None; fe_Timestamp := 0%Z |} in
  mutations_of "top" "usr/.wh.lib" e = [(MutationDeleted, "usr/lib", "top")] ∧
  mutations_of "top" "usr/.wh." e = [(MutationDeleted, "usr", "top")] ∧
  mutations_of "top" "usr/.wh..wh..opq" e = [(MutationOpaqued, "usr", "top")].
Proof.
  intros e. destruct (Interpret_spec false ["usr"] "lib" "top" e) as (_ & H2 & H3 & H4).
  - apply (bool_decide_eq_true_1 _). vm_compute. reflexivity.
  - apply (bool_decide_eq_true_1 _). vm_compute. reflexivity.
  - split; [by apply H2 |]. split; [exact H4 | exact H3].
Defined.

(** A file deleted in the middle layer and written again in the top one; below it a directory
    made opaque by the top layer *)
Definition recreated_store : memStore :=
  (store_MarkOpaque "top" "etc" (store_MarkModified "top" "f" (store_MarkDeleted "mid" "f" sample_store).2).2).2.

Lemma IsVisible_spec_witness :
  (IsVisible recreated_store (NewChain sample_chain3) "top" "f" = false ∧
   IsFileVisible recreated_store (NewChain sample_chain3) "f" = true) ∧
  (IsVisible recreated_store (NewChain sample_chain3) "top" "etc/x" = true ∧
   IsFileVisible recreated_store (NewChain sample_chain3) "etc/x" = false).
Proof.
  destruct (IsVisible_spec recreated_store ["base"; "mid"] [] "top" "f") as (_ & H & _); [apply sample_chain3_NoDup |].
  destruct (IsVisible_spec recreated_store ["base"; "mid"] [] "top" "etc/x") as (_ & _ & H'); [apply sample_chain3_NoDup |].
  split.
  - apply (H "mid"); [by right; left | done | vm_compute; reflexivity | vm_compute; reflexivity].
  - apply (H' false ["etc"; "x"] "base" ["mid"] "etc"); [done | done | done | | done | | | vm_compute; reflexivity].
    + apply (bool_decide_eq_true_1 _). vm_compute. reflexivity.
    + apply (bool_decide_eq_true_1 _). vm_compute. reflexivity.
    + exists ["etc"]. split_and!; [by exists ["x"] | done | done].
Defined.
