(* ===== verification/FsMerkle.v ===== *)
(** * FsMerkle: [pkg/fshash/merkle]

    The Merkle tree over the recorded file hashes, and its inclusion proofs.  The hash is any
    instance of [HashFn]; [sort.Slice] is any sort by path ([GoSort]). *)
From stdpp Require Import pretty.
From S2P Require Import Prelude GoStd Sha256 FsLayer.

(** ** merkle/node.go *)

Inductive NodeKind := NodeLeaf | NodeBranch.

#[export] Instance NodeKind_eq_dec : EqDecision NodeKind.
Proof. solve_decision. Defined.

Inductive FsNode :=
  MkNode (kind : NodeKind) (hash : list byte) (path : string) (children : list FsNode) (layer : FsLayerID) (depth : nat).

Definition n_Kind (n : FsNode) : NodeKind := let 'MkNode k _ _ _ _ _ := n in k.
Definition n_Hash (n : FsNode) : list byte := let 'MkNode _ h _ _ _ _ := n in h.
Definition n_Path (n : FsNode) : string := let 'MkNode _ _ p _ _ _ := n in p.
Definition n_Children (n : FsNode) : list FsNode := let 'MkNode _ _ _ c _ _ := n in c.
Definition n_Depth (n : FsNode) : nat := let 'MkNode _ _ _ _ _ d := n in d.

Definition IsLeaf (n : FsNode) : bool := bool_decide (n_Kind n = NodeLeaf).

Fixpoint node_LeafCount (n : FsNode) : nat :=
  if IsLeaf n then 1 else let 'MkNode _ _ _ children _ _ := n in foldl (λ count child, count + node_LeafCount child) 0 children.

(** [walk]: the visitor keeps a state [W]; [false] stops the whole walk *)
Fixpoint node_walk {W} (fn : FsNode → nat → W → bool * W) (n : FsNode) (depth : nat) (w : W) : bool * W :=
  match fn n depth w with
  | (false, w) => (false, w)
  | (true, w) =>
      let 'MkNode _ _ _ children _ _ := n in
      (fix walk_all (l : list FsNode) (w : W) : bool * W :=
        match l with
        | [] => (true, w)
        | child :: rest =>
            match node_walk fn child (depth + 1) w with
            | (false, w) => (false, w)
            | (true, w) => walk_all rest w
            end
        end) children w
  end.

Definition Walk {W} (fn : FsNode → nat → W → bool * W) (n : FsNode) (w : W) : W := (node_walk fn n 0 w).2.

(** ** merkle/tree.go *)

Record Tree := { t_branchingFactor : nat; t_leaves : list FsNode; t_root : option FsNode; t_built : bool }.

(** [treeConfig] after the options: a factor below 2 is ignored *)
Definition WithBranchingFactor (n : Z) (b : nat) : nat := if decide (2 ≤ n)%Z then Z.to_nat n else b.

Definition NewTree (opts : list (nat → nat)) : Tree :=
  {| t_branchingFactor := foldl (λ b opt, opt b) 2 opts; t_leaves := []; t_root := None; t_built := false |}.

Definition with_leaves (t : Tree) (leaves : list FsNode) (root : option FsNode) (built : bool) : Tree :=
  {| t_branchingFactor := t_branchingFactor t; t_leaves := leaves; t_root := root; t_built := built |}.

Definition tree_Insert (path : string) (hash : list byte) (layerID : FsLayerID) (t : Tree) : Tree :=
  with_leaves t (t_leaves t ++ [MkNode NodeLeaf hash path [] layerID 0]) (t_root t) false.

Definition InsertSubtree (node : FsNode) (t : Tree) : Tree :=
  with_leaves t (t_leaves t ++ [node]) (t_root t) false.

Section merkle.
Context `{Hfn : HashFn}.

Definition combineNodes (children : list FsNode) (depth : nat) : FsNode :=
  MkNode NodeBranch (hash_fn (concat (n_Hash <$> children))) EmptyString children EmptyString depth.

(** The groups of a level: [currentLevel[i:end]] for [i] by steps of the branching factor.  Each
    group takes at least one node, so the length of the level is enough fuel. *)
Fixpoint groups_loop {A} (fuel b : nat) (level : list A) : list (list A) :=
  match fuel, level with
  | S fuel, _ :: _ => take b level :: groups_loop fuel b (drop b level)
  | _, _ => []
  end.

Definition groups {A} (b : nat) (level : list A) : list (list A) := groups_loop (length level) b level.

(** [for len(currentLevel) > 1]: a level is shorter than the one before, so the number of leaves
    is enough fuel ([build_loop_total]). *)
Fixpoint build_loop (fuel b depth : nat) (level : list FsNode) : option FsNode :=
  if decide (1 < length level) then
    match fuel with
    | 0 => None
    | S fuel => build_loop fuel b (depth + 1) ((λ g, combineNodes g (depth + 1)) <$> groups b level)
    end
  else head level.

(** [None]: out of fuel *)
Definition Build `{GoSort} (t : Tree) : option (result FsNode * Tree) :=
  match t_leaves t with
  | [] => Some (Err FsErrTreeEmpty, t)
  | _ =>
      let leaves := sort_slice n_Path (t_leaves t) in
      root ← build_loop (length leaves) (t_branchingFactor t) 0 leaves;
      Some (Ok root, with_leaves t leaves (Some root) true)
  end.

(** [Root]: nil when not built *)
Definition Root (t : Tree) : option (list byte) := n_Hash <$> t_root t.
Definition RootNode (t : Tree) : option FsNode := t_root t.
Definition tree_LeafCount (t : Tree) : nat := length (t_leaves t).

(** [verifyNode]: the depth of the first branch that does not match *)
Fixpoint verifyNode (n : FsNode) : result unit :=
  let 'MkNode kind hash _ children _ depth := n in
  match kind with
  | NodeLeaf => Ok tt
  | NodeBranch =>
      if decide (hash = hash_fn (concat (n_Hash <$> children))) then
        (fix verify_all (l : list FsNode) : result unit :=
          match l with
          | [] => Ok tt
          | child :: rest => match verifyNode child with Err e => Err e | Ok _ => verify_all rest end
          end) children
      else Err (EText ["fshash: branch hash mismatch at depth"; pretty (N.of_nat depth)])
  end.

Definition tree_Verify (t : Tree) : result unit :=
  match t_root t with None => Err FsErrTreeEmpty | Some root => verifyNode root end.

(** ** merkle/proof.go *)

Record Proof := {
  pf_Path : string;
  pf_LeafHash : list byte;
  pf_Siblings : list (list byte);
  pf_Directions : list bool;
}.

(** [Proof.Verify] with the hasher [fn] *)
Definition proof_step (fn : list byte → list byte) (current : list byte) (x : list byte * bool) : list byte :=
  fn (if x.2 then current ++ x.1 else x.1 ++ current).

Definition proof_Verify (p : Proof) (rootHash : list byte) (fn : list byte → list byte) : bool :=
  if decide (length (pf_Siblings p) = length (pf_Directions p))
  then bool_decide (foldl (proof_step fn) (pf_LeafHash p) (zip (pf_Siblings p) (pf_Directions p)) = rootHash)
  else false.

(** The siblings in the group of the target, at [localIdx] *)
Definition siblings (localIdx : nat) (children : list FsNode) : list (list byte * bool) :=
  omap id (imap (λ j child, if decide (j = localIdx) then None else Some (n_Hash child, bool_decide (localIdx < j))) children).

(** The loop over the groups of a level, from the group that starts at [i] *)
Fixpoint collect (b i idx : nat) (gs : list (list FsNode)) : list (list byte * bool) :=
  match gs with
  | [] => []
  | children :: gs =>
      (if decide (i ≤ idx < i + length children) then siblings (idx - i) children else []) ++ collect b (i + b) idx gs
  end.

Fixpoint proof_loop (fuel b idx : nat) (level : list FsNode) : option (list (list byte * bool)) :=
  if decide (1 < length level) then
    match fuel with
    | 0 => None
    | S fuel =>
        rest ← proof_loop fuel b (idx / b) ((λ g, combineNodes g 0) <$> groups b level);
        Some (collect b 0 idx (groups b level) ++ rest)
    end
  else Some [].

(** [Some None]: nil; [None]: out of fuel *)
Definition GenerateProof (path : string) (t : Tree) : option (option Proof) :=
  match t_root t with
  | None => Some None
  | Some _ =>
      match list_find (λ leaf, n_Path leaf = path) (t_leaves t) with
      | None => Some None
      | Some (leafIdx, leaf) =>
          steps ← proof_loop (length (t_leaves t)) (t_branchingFactor t) leafIdx (t_leaves t);
          Some (Some {| pf_Path := path; pf_LeafHash := n_Hash leaf; pf_Siblings := steps.*1; pf_Directions := steps.*2 |})
      end
  end.
End merkle.

(** ** Groups *)

Lemma groups_loop_concat {A} fuel b (l : list A) : 0 < b → length l ≤ fuel → concat (groups_loop fuel b l) = l.
Proof.
  intros Hb. revert l. induction fuel as [|fuel IH]; intros [|x l] Hl; simpl in Hl; [done | lia | done |].
  cbn [groups_loop concat]. rewrite IH; [apply take_drop |]. rewrite length_drop. simpl. lia.
Qed.

Lemma groups_concat {A} b (l : list A) : 0 < b → concat (groups b l) = l.
Proof. intros Hb. by apply groups_loop_concat. Qed.

Lemma groups_loop_length {A} fuel b (l : list A) :
  2 ≤ b → length l ≤ fuel → 2 * length (groups_loop fuel b l) ≤ length l + 1 ∧
  (l ≠ [] → 0 < length (groups_loop fuel b l)).
Proof.
  intros Hb. revert l. induction fuel as [|fuel IH]; intros [|x l] Hl; simpl in Hl; [by split; [simpl; lia |] | lia | by split; [simpl; lia |] |].
  cbn [groups_loop length]. destruct (IH (drop b (x :: l))) as [H1 _]; [rewrite length_drop; simpl; lia |].
  rewrite length_drop in H1. simpl in H1. split; [| lia].
  destruct (decide (length l + 1 < b)); [| lia].
  rewrite (drop_ge (x :: l)) in * by (simpl; lia). assert (groups_loop fuel b (@nil A) = []) as -> by by destruct fuel.
  simpl. lia.
Qed.

Lemma groups_length {A} b (l : list A) :
  2 ≤ b → 2 * length (groups b l) ≤ length l + 1 ∧ (l ≠ [] → 0 < length (groups b l)).
Proof. intros Hb. by apply groups_loop_length. Qed.

Lemma groups_loop_fmap {A B} (f : A → B) fuel b (l : list A) :
  groups_loop fuel b (f <$> l) = (λ g : list A, f <$> g) <$> groups_loop fuel b l.
Proof.
  revert l. induction fuel as [|fuel IH]; intros [|x l]; [done.. |].
  rewrite fmap_cons. cbn [groups_loop]. rewrite <- fmap_cons, <- fmap_take, <- fmap_drop, IH. done.
Qed.

Lemma groups_fmap {A B} (f : A → B) b (l : list A) : groups b (f <$> l) = (λ g : list A, f <$> g) <$> groups b l.
Proof. unfold groups. by rewrite length_fmap, groups_loop_fmap. Qed.

Lemma groups_loop_same_length {A} fuel b (l1 l2 : list A) :
  length l1 = length l2 → length (groups_loop fuel b l1) = length (groups_loop fuel b l2).
Proof.
  revert l1 l2. induction fuel as [|fuel IH]; intros [|x l1] [|y l2] Hl; try done. cbn [groups_loop length].
  f_equal. apply IH. rewrite !length_drop. simpl in *. lia.
Qed.

Lemma groups_same_length {A} b (l1 l2 : list A) : length l1 = length l2 → length (groups b l1) = length (groups b l2).
Proof. intros Hl. unfold groups. rewrite Hl. by apply groups_loop_same_length. Qed.

Lemma concat_concat {A} (gs : list (list (list A))) : concat (concat gs) = concat (@concat A <$> gs).
Proof. induction gs as [|g gs IH]; [done |]. cbn [concat fmap list_fmap]. by rewrite concat_app, IH. Qed.

(** Lists that differ and have equal images differ at elements with equal images. *)
Lemma fmap_neq_lookup {A B} `{EqDecision A} (f : A → B) (l1 l2 : list A) :
  f <$> l1 = f <$> l2 → l1 ≠ l2 → ∃ x y, x ∈ l1 ∧ y ∈ l2 ∧ x ≠ y ∧ f x = f y.
Proof.
  revert l2. induction l1 as [|x l1 IH]; intros [|y l2] E Hne; try done. rewrite !fmap_cons in E. injection E as E1 E2.
  destruct (decide (x = y)) as [->|Hxy].
  - destruct (IH l2 E2) as (a & b & Ha & Hb & Hab & Ef); [by intros -> |]. exists a, b. by rewrite !elem_of_cons; auto.
  - exists x, y. rewrite !elem_of_cons. auto.
Qed.

(** ** The hashes of the levels *)

Section hashes.
Context `{Hfn : HashFn}.

Definition next (b : nat) (hs : list (list byte)) : list (list byte) := (hash_fn ∘ @concat byte) <$> groups b hs.

(** The root hash of a list of hashes, and the inputs hashed on the way *)
Fixpoint root_of (fuel b : nat) (hs : list (list byte)) : option (list byte) :=
  if decide (1 < length hs) then
    match fuel with 0 => None | S fuel => root_of fuel b (next b hs) end
  else head hs.

Fixpoint tree_inputs (fuel b : nat) (hs : list (list byte)) : list (list byte) :=
  if decide (1 < length hs) then
    match fuel with 0 => [] | S fuel => (@concat byte <$> groups b hs) ++ tree_inputs fuel b (next b hs) end
  else [].

Lemma next_length b hs : 2 ≤ b → 1 < length hs → 0 < length (next b hs) < length hs.
Proof.
  intros Hb Hl. unfold next. rewrite length_fmap. destruct (groups_length b hs Hb) as [H1 H2].
  assert (hs ≠ []) as Hne by (intros ->; simpl in Hl; lia). specialize (H2 Hne). lia.
Qed.

Lemma level_hash b d lv :
  n_Hash <$> ((λ g, combineNodes g d) <$> groups b lv) = next b (n_Hash <$> lv).
Proof. unfold next. rewrite groups_fmap, <- !list_fmap_compose. done. Qed.

Lemma build_loop_hash fuel b d lv : n_Hash <$> build_loop fuel b d lv = root_of fuel b (n_Hash <$> lv).
Proof.
  revert d lv. induction fuel as [|fuel IH]; intros d lv; cbn [build_loop root_of]; rewrite length_fmap;
    case_decide; try done; try by destruct lv.
  by rewrite IH, level_hash.
Qed.

Lemma build_loop_total fuel b d lv : 2 ≤ b → lv ≠ [] → length lv ≤ fuel → is_Some (build_loop fuel b d lv).
Proof.
  intros Hb. revert d lv. induction fuel as [|fuel IH]; intros d lv Hne Hl; cbn [build_loop]; case_decide; try lia.
  - by destruct lv.
  - pose proof (next_length b (n_Hash <$> lv) Hb) as Hn. rewrite <- (level_hash b (d + 1)), !length_fmap in Hn.
    specialize (Hn H). apply IH; [| rewrite length_fmap; lia].
    intros E. apply (f_equal length) in E. rewrite length_fmap in E. simpl in E. lia.
  - by destruct lv as [|x lv].
Qed.

(** What holds of the nodes of a level and is passed on to branches holds of the root. *)
Lemma build_loop_ind (P : list FsNode → Prop) fuel b d lv root :
  (∀ l d, P l → P ((λ g, combineNodes g d) <$> groups b l)) →
  build_loop fuel b d lv = Some root → P lv → P [root].
Proof.
  intros HP. revert d lv. induction fuel as [|fuel IH]; intros d lv; cbn [build_loop]; case_decide as Hd; try done.
  - destruct lv as [|x [|y lv]]; simpl in *; try lia; [done |]. by intros [= <-].
  - intros Hb Hl. by apply (IH _ _ Hb), HP.
  - destruct lv as [|x [|y lv]]; simpl in *; try lia; [done |]. by intros [= <-].
Qed.

Lemma verify_branch g d : verifyNode (combineNodes g d) = Ok tt ↔ Forall (λ n, verifyNode n = Ok tt) g.
Proof.
  cbn [verifyNode combineNodes]. rewrite decide_True by done. clear d.
  induction g as [|n g IH]; [done |]. rewrite Forall_cons, <- IH. destruct (verifyNode n) as [[]|]; naive_solver.
Qed.

Lemma LeafCount_branch g d : node_LeafCount (combineNodes g d) = sum_list_with node_LeafCount g.
Proof.
  cbn [node_LeafCount combineNodes]. unfold IsLeaf. cbn [n_Kind]. rewrite bool_decide_eq_false_2 by done.
  assert (∀ a, foldl (λ count child, count + node_LeafCount child) a g = a + sum_list_with node_LeafCount g) as E; [| by rewrite E].
  induction g as [|n g IH]; intros a; cbn [foldl sum_list_with]; [lia |]. rewrite IH. lia.
Qed.

Lemma LeafCount_level b d lv : 0 < b →
  sum_list_with node_LeafCount ((λ g, combineNodes g d) <$> groups b lv) = sum_list_with node_LeafCount lv.
Proof.
  intros Hb. rewrite <- (groups_concat b lv) at 2 by done. generalize (groups b lv). intros gs.
  induction gs as [|g gs IH]; [done |]. rewrite fmap_cons. cbn [concat sum_list_with]. rewrite sum_list_with_app.
  by rewrite IH, LeafCount_branch.
Qed.

(** ** The root binds the hashes *)

Lemma next_inj b hs1 hs2 :
  0 < b → length hs1 = length hs2 →
  Forall (λ h, length h = hash_len) hs1 → Forall (λ h, length h = hash_len) hs2 →
  next b hs1 = next b hs2 →
  hs1 = hs2 ∨ collision_between hash_fn (λ x, x ∈ @concat byte <$> groups b hs1) (λ x, x ∈ @concat byte <$> groups b hs2).
Proof.
  intros Hb Hl H1 H2 En. unfold next in En. rewrite !list_fmap_compose in En.
  set (g1 := @concat byte <$> groups b hs1) in *. set (g2 := @concat byte <$> groups b hs2) in *.
  destruct (decide (g1 = g2)) as [Eg|Hne].
  - left. apply concat_blocks_inj.
    + apply Forall2_same_length_lookup_2; [done |]. intros i x y Hx Hy.
      by rewrite (Forall_lookup_1 _ _ _ _ H1 Hx), (Forall_lookup_1 _ _ _ _ H2 Hy).
    + rewrite <- (groups_concat b hs1), <- (groups_concat b hs2) by done. rewrite !concat_concat. by f_equal.
  - right. destruct (fmap_neq_lookup hash_fn g1 g2 En Hne) as (x & y & Hx & Hy & Hxy & E). by exists x, y.
Qed.

Lemma root_inj fuel b hs1 hs2 :
  2 ≤ b → length hs1 = length hs2 → length hs1 ≤ fuel →
  Forall (λ h, length h = hash_len) hs1 → Forall (λ h, length h = hash_len) hs2 →
  root_of fuel b hs1 = root_of fuel b hs2 →
  hs1 = hs2 ∨ collision_between hash_fn (λ x, x ∈ tree_inputs fuel b hs1) (λ x, x ∈ tree_inputs fuel b hs2).
Proof.
  intros Hb. revert hs1 hs2. induction fuel as [|fuel IH]; intros hs1 hs2 Hl Hf H1 H2; cbn [root_of tree_inputs];
    rewrite <- Hl; case_decide as Hd; try lia.
  - destruct hs1, hs2; simpl in *; try lia. by left.
  - intros Er.
    assert (∀ hs, Forall (λ h : list byte, length h = hash_len) (next b hs)) as Hn
      by (intros hs; apply Forall_fmap, Forall_forall; intros g _; apply hash_fn_length).
    assert (length (next b hs1) = length (next b hs2)) as Hln.
    { unfold next. rewrite !length_fmap. by apply groups_same_length. }
    destruct (IH (next b hs1) (next b hs2)) as [En|Hc]; [done | pose proof (next_length b hs1 Hb Hd); lia | done | done | done | |].
    + apply next_inj in En as [En|(x & y & Hx & Hy & Hxy)]; [by left | right | lia | done | done | done].
      exists x, y. rewrite !elem_of_app. tauto.
    + right. destruct Hc as (x & y & Hx & Hy & Hxy). exists x, y. rewrite !elem_of_app. tauto.
  - destruct hs1 as [|x [|? ?]], hs2 as [|y [|? ?]]; simpl in *; try lia; [by left |]. intros [= ->]. by left.
Qed.
End hashes.

(** ** Inclusion proofs in binary trees *)

Lemma groups_loop_fuel {A} fuel b (l : list A) : 0 < b → length l ≤ fuel → groups_loop fuel b l = groups b l.
Proof.
  intros Hb. unfold groups. remember (length l) as n eqn:En. assert (length l ≤ n) as Hn by lia. clear En.
  revert fuel n Hn. induction l as [l IH] using (induction_ltof1 _ (@length A)). intros fuel n Hn Hf.
  destruct fuel as [|fuel], n as [|n]; destruct l as [|x l]; simpl in Hn, Hf; try done; try lia.
  cbn [groups_loop]. f_equal. apply IH; unfold ltof; rewrite ?length_drop; cbn [length]; lia.
Qed.

Lemma groups2_cons {A} (x y : A) l : groups 2 (x :: y :: l) = [x; y] :: groups 2 l.
Proof. transitivity ([x; y] :: groups_loop (S (length l)) 2 l); [done |]. f_equal. apply groups_loop_fuel; lia. Qed.

Section list_pairs.
Context {A : Type} (P : list A → Prop).
Hypothesis Hnil : P [].
Hypothesis Hone : ∀ x, P [x].
Hypothesis Htwo : ∀ x y l, P l → P (x :: y :: l).

Lemma list_pair_ind l : P l.
Proof.
  assert (P l ∧ ∀ x, P (x :: l)) as [H _]; [| done].
  induction l as [|y l [IH1 IH2]]; [done |]. split; [done |]. intros x. by apply Htwo.
Qed.
End list_pairs.

Section proofs.
Context `{Hfn : HashFn}.

(** The sibling of index [i] and the side it is on *)
Definition sib_at (hs : list (list byte)) (i : nat) : list (list byte * bool) :=
  if Nat.even i
  then match hs !! S i with Some s => [(s, true)] | None => [] end
  else match hs !! pred i with Some s => [(s, false)] | None => [] end.

Lemma sib_at_cons2 x y hs i : sib_at (x :: y :: hs) (S (S i)) = sib_at hs i.
Proof.
  unfold sib_at. change (Nat.even (S (S i))) with (Nat.even i). destruct (Nat.even i) eqn:E; [done |].
  by destruct i as [|i].
Qed.

Lemma collect_before b off idx gs : 0 < b → idx < off → collect b off idx gs = [].
Proof.
  intros Hb. revert off. induction gs as [|g gs IH]; intros off Hi; [done |]. cbn [collect].
  rewrite decide_False by lia. apply IH. lia.
Qed.

Lemma collect_sib lv : ∀ off i, i < length lv →
  collect 2 off (off + i) (groups 2 lv) = sib_at (n_Hash <$> lv) i.
Proof.
  induction lv as [|x|x y lv IH] using list_pair_ind; intros off i Hi; simpl in Hi; [lia | |].
  - destruct i as [|i]; [| lia]. cbn [groups groups_loop length take drop collect].
    rewrite decide_True by (simpl; lia). rewrite Nat.add_0_r, Nat.sub_diag. done.
  - rewrite groups2_cons. cbn [collect length]. destruct i as [|[|i]].
    + rewrite decide_True by lia. rewrite Nat.add_0_r, Nat.sub_diag, collect_before by lia. done.
    + rewrite decide_True by lia. replace (off + 1 - off) with 1 by lia. rewrite collect_before by lia. done.
    + rewrite decide_False by lia. rewrite !fmap_cons, sib_at_cons2. cbn [app].
      replace (off + S (S i)) with (off + 2 + i) by lia. apply IH. lia.
Qed.

(** The parent of index [i] hashes it with its sibling. *)
Lemma next_lookup hs : ∀ i h, hs !! i = Some h →
  next 2 hs !! (i / 2) = Some (hash_fn (match sib_at hs i with
    | (s, true) :: _ => h ++ s | (s, false) :: _ => s ++ h | [] => h end)).
Proof.
  unfold next. induction hs as [|x|x y hs IH] using list_pair_ind; intros i h Hi; [done | |].
  - destruct i as [|i]; [| done]. injection Hi as ->. cbn. by rewrite app_nil_r.
  - rewrite groups2_cons, fmap_cons. destruct i as [|[|i]].
    + injection Hi as ->. cbn. by rewrite app_nil_r.
    + injection Hi as ->. cbn. by rewrite app_nil_r.
    + rewrite sib_at_cons2. replace (S (S i) / 2) with (S (i / 2)); [by apply IH |].
      replace (S (S i)) with (i + 1 * 2) by lia. rewrite Nat.div_add by done. lia.
Qed.

Lemma next2_length hs : length (next 2 hs) = (length hs + 1) / 2.
Proof.
  unfold next. rewrite length_fmap. induction hs as [|x|x y hs IH] using list_pair_ind; [done | done |].
  rewrite groups2_cons. cbn [length]. rewrite IH. replace (S (S (length hs)) + 1) with (length hs + 1 + 1 * 2) by lia.
  rewrite Nat.div_add by done. lia.
Qed.

(** The steps of the proof for index [i], and the number of levels in which the node on the way
    up is alone in its group *)
Fixpoint proof_of (fuel : nat) (hs : list (list byte)) (i : nat) : list (list byte * bool) :=
  if decide (1 < length hs) then
    match fuel with 0 => [] | S fuel => sib_at hs i ++ proof_of fuel (next 2 hs) (i / 2) end
  else [].

Definition lone (n i : nat) : bool := Nat.even i && bool_decide (S i = n).

Fixpoint lone_levels (fuel n i : nat) : nat :=
  if decide (1 < n) then
    match fuel with 0 => 0 | S fuel => (if lone n i then 1 else 0) + lone_levels fuel ((n + 1) / 2) (i / 2) end
  else 0.

(** The inputs that verifying a proof hashes *)
Fixpoint proof_inputs (current : list byte) (steps : list (list byte * bool)) : list (list byte) :=
  match steps with
  | [] => []
  | x :: steps => (if x.2 then current ++ x.1 else x.1 ++ current) :: proof_inputs (proof_step hash_fn current x) steps
  end.

Lemma proof_loop_of fuel lv i : i < length lv → length lv ≤ fuel →
  proof_loop fuel 2 i lv = Some (proof_of fuel (n_Hash <$> lv) i).
Proof.
  revert lv i. induction fuel as [|fuel IH]; intros lv i Hi Hf; cbn [proof_loop proof_of]; rewrite length_fmap;
    case_decide as Hd; try lia; [| done].
  rewrite IH.
  - pose proof (collect_sib lv 0 i Hi) as Ec. rewrite Nat.add_0_l in Ec. cbn. by rewrite level_hash, Ec.
  - rewrite <- (length_fmap n_Hash), level_hash, next2_length, length_fmap.
    apply Nat.Div0.div_lt_upper_bound. pose proof (Nat.div_mod_eq (length lv + 1) 2). pose proof (Nat.mod_upper_bound (length lv + 1) 2). lia.
  - rewrite <- (length_fmap n_Hash), level_hash. pose proof (next_length 2 (n_Hash <$> lv)) as Hn. rewrite length_fmap in Hn. lia.
Qed.

Lemma sib_lone hs i h : hs !! i = Some h →
  if lone (length hs) i then sib_at hs i = [] else ∃ s d, sib_at hs i = [(s, d)] ∧ s ∈ hs.
Proof.
  intros Hi. apply lookup_lt_Some in Hi as Hl. unfold lone, sib_at. destruct (Nat.even i) eqn:Ev; cbn [andb].
  - case_bool_decide as Hn.
    + by rewrite lookup_ge_None_2 by lia.
    + destruct (lookup_lt_is_Some_2 hs (S i)) as [s Hs]; [lia |]. rewrite Hs. exists s, true. split; [done |].
      by eapply list_elem_of_lookup_2.
  - destruct (lookup_lt_is_Some_2 hs (pred i)) as [s Hs]; [lia |]. rewrite Hs. exists s, false. split; [done |].
    by eapply list_elem_of_lookup_2.
Qed.

Lemma proof_complete fuel hs i h r :
  length hs ≤ fuel → hs !! i = Some h → root_of fuel 2 hs = Some r →
  lone_levels fuel (length hs) i = 0 → foldl (proof_step hash_fn) h (proof_of fuel hs i) = r.
Proof.
  revert hs i h. induction fuel as [|fuel IH]; intros hs i h Hf Hi; apply lookup_lt_Some in Hi as Hl; [lia |].
  cbn [root_of proof_of lone_levels]. case_decide as Hd.
  - intros Hr Hlone. pose proof (sib_lone hs i h Hi) as Hs. pose proof (next_lookup hs i h Hi) as Hn.
    destruct (lone (length hs) i); [lia |]. destruct Hs as (s & d & Es & _). rewrite Es in *. rewrite foldl_app. cbn [foldl].
    apply IH; [pose proof (next_length 2 hs); lia | | done | by rewrite next2_length].
    rewrite Hn. by destruct d.
  - intros Hr _. destruct hs as [|x [|? ?]]; simpl in *; try lia. destruct i; [| lia]. by injection Hr as <-; injection Hi as <-.
Qed.

Lemma group_input hs : ∀ i h, hs !! i = Some h →
  match sib_at hs i with (s, true) :: _ => h ++ s | (s, false) :: _ => s ++ h | [] => h end ∈ @concat byte <$> groups 2 hs.
Proof.
  induction hs as [|x|x y hs IH] using list_pair_ind; intros i h Hi; [done | |].
  - destruct i as [|i]; [| done]. injection Hi as ->. cbn. rewrite app_nil_r. by left.
  - rewrite groups2_cons, fmap_cons. destruct i as [|[|i]].
    + injection Hi as ->. cbn. rewrite app_nil_r. by left.
    + injection Hi as ->. cbn. rewrite app_nil_r. by left.
    + rewrite sib_at_cons2. right. by apply IH.
Qed.

Lemma iter_hash_succ k (y : list byte) : Nat.iter k hash_fn (hash_fn y) = Nat.iter (S k) hash_fn y.
Proof. by rewrite Nat.iter_succ_r. Qed.

(** What an accepted proof shows: the leaf hash is the tree's, hashed once more for each lone
    level, or an input of the verification collides with an input of the tree. *)
Lemma proof_sound fuel hs i x y r :
  length hs ≤ fuel → hs !! i = Some y → Forall (λ h, length h = hash_len) hs → length x = hash_len →
  root_of fuel 2 hs = Some r → foldl (proof_step hash_fn) x (proof_of fuel hs i) = r →
  let k := lone_levels fuel (length hs) i in
  (x = Nat.iter k hash_fn y ∧ ∀ j, j < k → Nat.iter j hash_fn y ∈ tree_inputs fuel 2 hs) ∨
  collision_between hash_fn (λ u, u ∈ proof_inputs x (proof_of fuel hs i)) (λ u, u ∈ tree_inputs fuel 2 hs).
Proof.
  revert hs i x y. induction fuel as [|fuel IH]; intros hs i x y Hf Hi Hall Hx; apply lookup_lt_Some in Hi as Hl; [lia |].
  cbn [root_of proof_of lone_levels tree_inputs]. case_decide as Hd.
  2:{ intros Hr Hp. left. destruct hs as [|z [|? ?]]; simpl in *; try lia. destruct i; [| lia].
      injection Hr as ->. injection Hi as ->. split; [done | lia]. }
  intros Hr Hp. pose proof (sib_lone hs i y Hi) as Hs. pose proof (next_lookup hs i y Hi) as Hn.
  pose proof (group_input hs i y Hi) as Hg. pose proof (next_length 2 hs ltac:(lia) Hd) as Hnl.
  assert (Forall (λ h : list byte, length h = hash_len) (next 2 hs)) as Hna
    by (apply Forall_fmap, Forall_forall; intros g _; apply hash_fn_length).
  assert (length (next 2 hs) ≤ fuel) as Hf' by lia.
  rewrite <- next2_length. destruct (lone (length hs) i).
  - rewrite Hs in *. cbn [app] in *. destruct (IH _ _ x _ Hf' Hn Hna Hx Hr Hp) as [[E Hj]|(u & v & Hu & Hv & Huv)].
    + left. cbn [Nat.add]. split; [by rewrite E, iter_hash_succ |]. intros [|j] Hlt; apply elem_of_app; [by left |].
      right. rewrite <- iter_hash_succ. apply Hj. lia.
    + right. exists u, v. rewrite elem_of_app. tauto.
  - destruct Hs as (s & d & Es & Hsin). rewrite Es in *. rewrite foldl_app in Hp. cbn [foldl app proof_inputs] in *.
    assert (length s = hash_len) as Hsl by (rewrite Forall_forall in Hall; by apply Hall).
    set (z := if d then x ++ s else s ++ x). set (w := if d then y ++ s else s ++ y).
    assert (w ∈ @concat byte <$> groups 2 hs) as Hw by (unfold w; by destruct d).
    assert (next 2 hs !! (i / 2) = Some (hash_fn w)) as Hn' by (rewrite Hn; unfold w; by destruct d).
    assert (length z = 2 * hash_len) as Hz by (unfold z; destruct d; rewrite length_app; lia).
    assert (collision_between hash_fn (λ u, u ∈ proof_inputs (proof_step hash_fn x (s, d)) (proof_of fuel (next 2 hs) (i / 2)))
        (λ u, u ∈ tree_inputs fuel 2 (next 2 hs)) ∨
      hash_fn z = Nat.iter (lone_levels fuel (length (next 2 hs)) (i / 2)) hash_fn (hash_fn w) ∧
      ∀ j, j < lone_levels fuel (length (next 2 hs)) (i / 2) → Nat.iter j hash_fn (hash_fn w) ∈ tree_inputs fuel 2 (next 2 hs))
      as [(u & v & Hu & Hv & Huv)|[E Hj]].
    { destruct (IH _ _ (hash_fn z) _ Hf' Hn' Hna (hash_fn_length z) Hr Hp) as [H|H]; [by right | by left]. }
    { right. exists u, v. rewrite elem_of_app, elem_of_cons. tauto. }
    cbn [snd fst]. fold z. destruct (lone_levels fuel (length (next 2 hs)) (i / 2)) as [|k].
    + destruct (decide (z = w)) as [Ezw|Hne].
      * left. split; [| lia]. cbn. unfold z, w in Ezw.
        assert (length x = length y) as Hxy by (rewrite Hx; symmetry; by apply (Forall_lookup_1 _ _ _ _ Hall Hi)).
        destruct d; by apply app_inj_1 in Ezw as [? ?].
      * right. exists z, w. rewrite elem_of_app, elem_of_cons. auto.
    + right. exists z, (Nat.iter k hash_fn (hash_fn w)). rewrite elem_of_app, elem_of_cons.
      split; [by left |]. split; [right; apply Hj; lia |]. split; [| done].
      intros Ez. apply (f_equal length) in Ez. rewrite Hz in Ez. pose proof hash_len_pos.
      destruct k; [| cbn [Nat.iter nat_rect] in Ez]; cbn in Ez; rewrite hash_fn_length in Ez; lia.
Qed.
End proofs.

(** ** Properties *)

Lemma Build_some `{HashFn} `{GoSort} t :
  2 ≤ t_branchingFactor t → t_leaves t ≠ [] →
  ∃ root, build_loop (length (sort_slice n_Path (t_leaves t))) (t_branchingFactor t) 0 (sort_slice n_Path (t_leaves t)) = Some root ∧
    Build t = Some (Ok root, with_leaves t (sort_slice n_Path (t_leaves t)) (Some root) true).
Proof.
  intros Hb Hne. set (lv := sort_slice n_Path (t_leaves t)).
  assert (lv ≠ []) as Hlv.
  { intros E. apply Hne, length_zero_iff_nil. by rewrite <- (sort_slice_length n_Path (t_leaves t)), <- length_zero_iff_nil in *. }
  destruct (build_loop_total (length lv) (t_branchingFactor t) 0 lv Hb Hlv) as [root Er]; [done |]. exists root.
  split; [done |]. unfold Build. fold lv. rewrite Er. by destruct (t_leaves t).
Qed.

(** With distinct paths neither the order of insertion nor the sort matters. *)
Lemma Build_perm `{HashFn} (S1 S2 : GoSort) t t' :
  2 ≤ t_branchingFactor t → t_leaves t ≠ [] → t_branchingFactor t' = t_branchingFactor t →
  NoDup (n_Path <$> t_leaves t) → t_leaves t' ≡ₚ t_leaves t →
  ∃ root t1 t1', Build (H := S1) t = Some (Ok root, t1) ∧ Build (H := S2) t' = Some (Ok root, t1').
Proof.
  intros Hb Hne Hb' Hnd Hperm. destruct (Build_some (H0 := S1) t Hb Hne) as (root & Er & EB).
  exists root. eexists. set (lv := sort_slice n_Path (t_leaves t)) in *.
  assert (sort_slice (GoSort := S2) n_Path (t_leaves t') = lv) as El.
  { apply (key_sorted_unique n_Path); [| apply sort_slice_sorted.. | unfold lv; by rewrite !sort_slice_perm].
    intros x y Hx Hy. apply (NoDup_key_inj n_Path (t_leaves t') ); [by rewrite Hperm | |].
    - by rewrite sort_slice_perm in Hx.
    - by rewrite sort_slice_perm in Hy. }
  destruct (Build_some (H0 := S2) t') as (root' & Er' & EB'); [by rewrite Hb' | intros E; rewrite E in Hperm; by apply Permutation_nil in Hperm |].
  rewrite El, Hb', Er in Er'. injection Er' as <-. by eexists.
Qed.

Lemma build_verify `{Hfn : HashFn} fuel b d lv root :
  0 < b → build_loop fuel b d lv = Some root → Forall (λ n, verifyNode n = Ok tt) lv → verifyNode root = Ok tt.
Proof.
  intros Hb Er Hv. apply (Forall_singleton (λ n, verifyNode n = Ok tt)).
  refine (build_loop_ind (λ l, Forall (λ n, verifyNode n = Ok tt) l) _ _ _ _ _ _ Er Hv).
  intros l d' Hl. apply Forall_fmap, Forall_forall. intros g Hg. apply verify_branch.
  rewrite <- (groups_concat b l), Forall_concat in Hl by done. rewrite Forall_forall in Hl. by apply Hl.
Qed.

Lemma build_LeafCount `{Hfn : HashFn} fuel b d lv root :
  0 < b → build_loop fuel b d lv = Some root → node_LeafCount root = sum_list_with node_LeafCount lv.
Proof.
  intros Hb Er. transitivity (sum_list_with node_LeafCount [root]); [simpl; lia |].
  refine (build_loop_ind (λ l, sum_list_with node_LeafCount l = sum_list_with node_LeafCount lv) _ _ _ _ _ _ Er eq_refl).
  intros l d' Hl. by rewrite LeafCount_level by lia.
Qed.

Lemma sum_list_ones (lv : list FsNode) : Forall (λ n, node_LeafCount n = 1) lv → sum_list_with node_LeafCount lv = length lv.
Proof. induction 1 as [|n lv Hn H IH]; [done |]. cbn [sum_list_with length]. lia. Qed.

(** C37: building a tree.  [Build] terminates on any leaves, if there are some and the branching
    factor is at least two, with a root that [Verify] accepts (when the inserted subtrees are
    themselves consistent) and that counts every leaf.  Of leaves with distinct paths it gives the
    same root in whatever order they were inserted and however the sort is implemented.  The hash
    of the root is a function of the hashes of the leaves in the order of their paths: the paths
    enter it by that order only. *)
Theorem fs_Build_spec (Hfn : HashFn) (S1 S2 : GoSort) (t t' : Tree) :
  2 ≤ t_branchingFactor t → t_leaves t ≠ [] → t_branchingFactor t' = t_branchingFactor t →
  ∃ root t1, Build (H := S1) t = Some (Ok root, t1) ∧ RootNode t1 = Some root ∧
    (Forall (λ n, verifyNode n = Ok tt) (t_leaves t) → tree_Verify t1 = Ok tt) ∧
    node_LeafCount root = sum_list_with node_LeafCount (t_leaves t) ∧
    (NoDup (n_Path <$> t_leaves t) → t_leaves t' ≡ₚ t_leaves t → ∃ t1', Build (H := S2) t' = Some (Ok root, t1')) ∧
    (n_Hash <$> sort_slice (GoSort := S2) n_Path (t_leaves t') = n_Hash <$> sort_slice (GoSort := S1) n_Path (t_leaves t) →
     ∃ root' t1', Build (H := S2) t' = Some (Ok root', t1') ∧ n_Hash root' = n_Hash root).
Proof.
  intros Hb Hne Hb'. destruct (Build_some (H0 := S1) t Hb Hne) as (root & Er & EB). do 2 eexists. split; [exact EB |].
  set (lv := sort_slice (GoSort := S1) n_Path (t_leaves t)) in *.
  assert (lv ≡ₚ t_leaves t) as Hp by apply sort_slice_perm.
  split; [done |]. split; [| split; [| split]].
  - intros Hv. rewrite <- Hp in Hv. eapply build_verify; [| exact Er | done]. lia.
  - rewrite <- Hp. eapply build_LeafCount; [| exact Er]. lia.
  - intros Hnd Hperm. destruct (Build_perm S1 S2 t t' Hb Hne Hb' Hnd Hperm) as (root1 & t1 & t1' & B1 & B2).
    rewrite EB in B1. injection B1 as <- _. by exists t1'.
  - intros Eh. destruct (Build_some (H0 := S2) t') as (root' & Er' & EB'); [by rewrite Hb' | |].
    { intros E. rewrite E in Eh. apply Hne, length_zero_iff_nil. apply (f_equal length) in Eh.
      unfold lv in Eh. rewrite !length_fmap, !sort_slice_length in Eh. by symmetry. }
    do 2 eexists. split; [exact EB' |]. apply (f_equal (fmap n_Hash)) in Er, Er'. rewrite build_loop_hash in Er, Er'.
    rewrite Hb', Eh in Er'. apply (f_equal length) in Eh. rewrite !length_fmap in Eh. rewrite Eh in Er'. fold lv in Er'.
    rewrite Er in Er'. by injection Er'.
Qed.

(** C38: the root binds the contents.  Two trees with the same number of leaves and the same
    root have the same hashes in path order, or two different inputs with one digest are
    exhibited among those the two builds hash. *)
Theorem fs_root_binds (Hfn : HashFn) (S1 S2 : GoSort) (t1 t2 t1' t2' : Tree) (root1 root2 : FsNode) :
  2 ≤ t_branchingFactor t1 → t_branchingFactor t2 = t_branchingFactor t1 →
  length (t_leaves t1) = length (t_leaves t2) →
  Forall (λ n, length (n_Hash n) = hash_len) (t_leaves t1) →
  Forall (λ n, length (n_Hash n) = hash_len) (t_leaves t2) →
  Build (H := S1) t1 = Some (Ok root1, t1') → Build (H := S2) t2 = Some (Ok root2, t2') → n_Hash root1 = n_Hash root2 →
  let inputs t x := x ∈ tree_inputs (length (t_leaves t)) (t_branchingFactor t) (n_Hash <$> t_leaves t) in
  n_Hash <$> t_leaves t1' = n_Hash <$> t_leaves t2' ∨ collision_between hash_fn (inputs t1') (inputs t2').
Proof.
  intros Hb Eb Hl H1 H2 B1 B2 Er.
  assert (t_leaves t1 ≠ []) as Hne1 by (intros E; unfold Build in B1; rewrite E in B1; by injection B1).
  assert (t_leaves t2 ≠ []) as Hne2 by (intros E; unfold Build in B2; rewrite E in B2; by injection B2).
  destruct (Build_some (H0 := S1) t1 Hb Hne1) as (r1 & E1 & EB1). rewrite B1 in EB1. injection EB1 as <- ->.
  destruct (Build_some (H0 := S2) t2) as (r2 & E2 & EB2); [by rewrite Eb | done |]. rewrite B2 in EB2. injection EB2 as <- ->.
  cbn [with_leaves t_leaves t_branchingFactor].
  rewrite Eb. apply (f_equal (fmap n_Hash)) in E1, E2. rewrite build_loop_hash in E1, E2. rewrite Eb in E2.
  rewrite !sort_slice_length in *. rewrite <- Hl in *. apply root_inj; [done | by rewrite !length_fmap, !sort_slice_length | by rewrite length_fmap, sort_slice_length | | |].
  - apply Forall_fmap. by rewrite sort_slice_perm.
  - apply Forall_fmap. by rewrite sort_slice_perm.
  - rewrite E1, E2. cbn. by rewrite Er.
Qed.

(** Inclusion proofs of binary trees.  The generated proof of a leaf verifies against the
    root when the way up has a sibling at every level.  When some level has none (an odd number
    of nodes, the target being the last), [Build] hashes the lone node again and the proof does
    not: then the proof of a leaf of the tree is accepted only if the leaf's hash is its own hash
    under that many more applications of the function, or two inputs hashed collide. *)
Theorem fs_proof_spec (Hfn : HashFn) (S1 : GoSort) (t t1 : Tree) (root leaf : FsNode) (i : nat) :
  t_branchingFactor t = 2 → Build t = Some (Ok root, t1) → NoDup (n_Path <$> t_leaves t) →
  Forall (λ n, length (n_Hash n) = hash_len) (t_leaves t) → t_leaves t1 !! i = Some leaf →
  let n := length (t_leaves t1) in
  let k := lone_levels n n i in
  ∃ p, GenerateProof (n_Path leaf) t1 = Some (Some p) ∧
    (k = 0 → proof_Verify p (n_Hash root) hash_fn = true) ∧
    (k ≠ 0 → proof_Verify p (n_Hash root) hash_fn = true →
     n_Hash leaf = Nat.iter k hash_fn (n_Hash leaf) ∨
     collision_between hash_fn
       (λ u, u ∈ proof_inputs (pf_LeafHash p) (zip (pf_Siblings p) (pf_Directions p)))
       (λ u, u ∈ tree_inputs n 2 (n_Hash <$> t_leaves t1))).
Proof.
  intros Hb B Hnd Hlen Hi.
  assert (t_leaves t ≠ []) as Hne by (intros E; unfold Build in B; rewrite E in B; by injection B).
  destruct (Build_some t ltac:(lia) Hne) as (r & Er & EB). rewrite B in EB. injection EB as <- ->.
  intros n k. cbn [with_leaves t_leaves] in *. set (lv := sort_slice n_Path (t_leaves t)) in *.
  rewrite Hb in Er. apply (f_equal (fmap n_Hash)) in Er. rewrite build_loop_hash in Er.
  assert (NoDup (n_Path <$> lv)) as Hnd' by (unfold lv; by rewrite sort_slice_perm).
  apply lookup_lt_Some in Hi as Hil.
  assert (zip (proof_of n (n_Hash <$> lv) i).*1 (proof_of n (n_Hash <$> lv) i).*2 = proof_of n (n_Hash <$> lv) i) as Ez
    by apply zip_fst_snd.
  eexists. split.
  { unfold GenerateProof. cbn [with_leaves t_root t_leaves t_branchingFactor].
    assert (list_find (λ leaf0, n_Path leaf0 = n_Path leaf) lv = Some (i, leaf)) as ->.
    { apply list_find_Some. split_and!; [done | done |]. intros j y Hj Hji E.
      assert (j = i); [| lia]. eapply (NoDup_lookup _ _ _ (n_Path leaf) Hnd'); rewrite list_lookup_fmap; [by rewrite Hj, <- E | by rewrite Hi]. }
    rewrite Hb, proof_loop_of by done. cbn. reflexivity. }
  unfold proof_Verify. cbn [pf_Siblings pf_Directions pf_LeafHash]. fold n. rewrite !length_fmap, decide_True, Ez by done.
  assert ((n_Hash <$> lv) !! i = Some (n_Hash leaf)) as Hih by (by rewrite list_lookup_fmap, Hi).
  split.
  - intros Hk. apply bool_decide_eq_true_2. eapply proof_complete; [| exact Hih | exact Er | by rewrite length_fmap].
    by rewrite length_fmap.
  - intros Hk Hv%bool_decide_eq_true_1.
    assert (Forall (λ h : list byte, length h = hash_len) (n_Hash <$> lv)) as Hall
      by (apply Forall_fmap; unfold lv; by rewrite sort_slice_perm).
    pose proof (proof_sound n (n_Hash <$> lv) i (n_Hash leaf) (n_Hash leaf) (n_Hash root)) as Hs.
    cbn zeta in Hs. rewrite length_fmap in Hs.
    destruct Hs as [[E _]|Hc]; [done | done | done | by apply (Forall_lookup_1 _ _ _ _ Hall Hih) | exact Er | done | by left | by right].
Qed.

(** ** Witnesses, with SHA-256 *)

Definition sample_leaf_hash (c : string) : list byte := sha256 (str_bytes c).

Definition sample_tree3 : Tree :=
  tree_Insert "etc/hosts" (sample_leaf_hash "b") "base"
    (tree_Insert "usr/lib" (sample_leaf_hash "c") "base"
      (tree_Insert "bin/sh" (sample_leaf_hash "a") "base" (NewTree []))).

Lemma sample_tree3_lengths : Forall (λ n, length (n_Hash n) = hash_len) (t_leaves sample_tree3).
Proof. repeat constructor; apply sha256_length. Qed.

Lemma sample_tree3_paths : NoDup (n_Path <$> t_leaves sample_tree3).
Proof. apply (bool_decide_eq_true_1 _). vm_compute. reflexivity. Qed.

Definition sample_built3 : option (FsNode * Tree) :=
  match Build sample_tree3 with Some (Ok r, t) => Some (r, t) | _ => None end.

Lemma fs_Build_spec_witness :
  ∃ root t1, Build sample_tree3 = Some (Ok root, t1) ∧ RootNode t1 = Some root ∧ tree_Verify t1 = Ok tt ∧
    node_LeafCount root = 3 ∧
    ∃ t1', Build (tree_Insert "usr/lib" (sample_leaf_hash "c") "base"
      (tree_Insert "bin/sh" (sample_leaf_hash "a") "base"
        (tree_Insert "etc/hosts" (sample_leaf_hash "b") "base" (NewTree [])))) = Some (Ok root, t1').
Proof.
  destruct (fs_Build_spec _ _ _ sample_tree3 (tree_Insert "usr/lib" (sample_leaf_hash "c") "base"
      (tree_Insert "bin/sh" (sample_leaf_hash "a") "base"
        (tree_Insert "etc/hosts" (sample_leaf_hash "b") "base" (NewTree [])))))
    as (root & t1 & B & Hr & Hv & Hc & Hd & _); [done | done | done |].
  exists root, t1. split; [done |]. split; [done |]. split; [apply Hv; repeat constructor |]. split; [done |].
  apply Hd; [apply sample_tree3_paths |]. exact (Permutation_app_comm [_] [_; _]).
Defined.

Lemma fs_root_binds_witness :
  ∃ root t1, Build sample_tree3 = Some (Ok root, t1) ∧
    let inputs t x := x ∈ tree_inputs (length (t_leaves t)) (t_branchingFactor t) (n_Hash <$> t_leaves t) in
    (n_Hash <$> t_leaves t1 = n_Hash <$> t_leaves t1 ∨ collision_between hash_fn (inputs t1) (inputs t1)).
Proof.
  destruct (Build_some sample_tree3) as (root & _ & B); [done | done |].
  eexists root, _. split; [exact B |].
  apply (fs_root_binds _ _ _ sample_tree3 sample_tree3 _ _ root root);
    [done | done | done | apply sample_tree3_lengths | apply sample_tree3_lengths | exact B | exact B | done].
Defined.

(** The third of three leaves has a lone level: its proof is refused. *)
Lemma fs_proof_spec_witness :
  ∃ root t1 leaf p, Build sample_tree3 = Some (Ok root, t1) ∧ t_leaves t1 !! 2 = Some leaf ∧
    GenerateProof (n_Path leaf) t1 = Some (Some p) ∧ lone_levels 3 3 0 = 0 ∧ lone_levels 3 3 2 = 1 ∧
    (1 ≠ 0 → proof_Verify p (n_Hash root) hash_fn = true →
     n_Hash leaf = hash_fn (n_Hash leaf) ∨
     collision_between hash_fn
       (λ u, u ∈ proof_inputs (pf_LeafHash p) (zip (pf_Siblings p) (pf_Directions p)))
       (λ u, u ∈ tree_inputs 3 2 (n_Hash <$> t_leaves t1))).
Proof.
  destruct (Build_some sample_tree3) as (root & _ & B); [done | done |].
  eexists root, _, _. destruct (fs_proof_spec _ _ sample_tree3 _ root _ 2 eq_refl B sample_tree3_paths sample_tree3_lengths eq_refl)
    as (p & Hp & _ & Hs).
  exists p. split; [exact B |]. split; [reflexivity |]. split; [exact Hp |]. split; [done |]. split; [done |]. exact Hs.
Defined.

(** The verification of the three generated proofs *)
Lemma sample_tree3_proofs :
  match Build sample_tree3 with
  | Some (Ok root, t) =>
      (λ p, match GenerateProof p t with Some (Some pf) => proof_Verify pf (n_Hash root) hash_fn | _ => false end)
        <$> ["bin/sh"; "etc/hosts"; "usr/lib"]
  | _ => []
  end = [true; true; false].
Proof. vm_compute. reflexivity. Qed.
