(* ===== verification/FsProcessor.v ===== *)
(** * FsProcessor: [pkg/fshash/processor.go], [options.go] and [hooks.go]

    The orchestrator.  Its state is the deduplicator, which holds the layer store and the cache
    they share, the chains, and the event channel with its clients.  A worker's handling of one
    event is one step; the two critical sections of [RegisterLayer], the check and the send of
    [Submit], and the swap and the close of [Close] are steps of their own.  The hooks act on a
    state [W].  [None] is a panic of the program. *)
From Stdlib Require Import QArith.
From S2P Require Import Prelude GoStd GoPath Sha256 FsLayer FsChunk FsCache FsAccess FsOverlay FsMerkle.
#[local] Open Scope nat_scope.

(** ** hooks.go *)

Record Hooks (W : Type) := {
  OnAccessDeduped : option (DeduplicationResult → W → W);
  OnHashComputed : option (FsFileHash → W → W);
  OnTreeBuilt : option (FsLayerID * list byte → W → W);
  OnLayerRegistered : option (FsLayerID → W → W);
  OnCacheHit : option (FsLayerID * string → W → W);
  OnCacheMiss : option (FsLayerID * string → W → W);
  OnFileExcluded : option (FsLayerID * string → W → W);
}.
Arguments OnAccessDeduped {W}.
Arguments OnHashComputed {W}.
Arguments OnTreeBuilt {W}.
Arguments OnLayerRegistered {W}.
Arguments OnCacheHit {W}.
Arguments OnCacheMiss {W}.
Arguments OnFileExcluded {W}.

Definition no_hooks {W} : Hooks W :=
  {| OnAccessDeduped := None; OnHashComputed := None; OnTreeBuilt := None; OnLayerRegistered := None;
     OnCacheHit := None; OnCacheMiss := None; OnFileExcluded := None |}.

(** ** options.go *)

Record processorConfig (W : Type) := {
  pc_hashAlgorithm : string;
  pc_cacheMaxEntries : Z;
  pc_cacheShards : Z;
  pc_bloomFPRate : Q;
  pc_bloomExpectedItems : N;
  pc_workerCount : Z;
  pc_channelBuffer : Z;
  pc_bufferPoolSize : Z;
  pc_hooks : Hooks W;
}.
Arguments pc_hashAlgorithm {W}.
Arguments pc_cacheMaxEntries {W}.
Arguments pc_cacheShards {W}.
Arguments pc_bloomFPRate {W}.
Arguments pc_bloomExpectedItems {W}.
Arguments pc_workerCount {W}.
Arguments pc_channelBuffer {W}.
Arguments pc_bufferPoolSize {W}.
Arguments pc_hooks {W}.

Definition proc_defaultConfig {W} : processorConfig W :=
  {| pc_hashAlgorithm := BLAKE3; pc_cacheMaxEntries := 65536; pc_cacheShards := 16; pc_bloomFPRate := 1 # 1000;
     pc_bloomExpectedItems := 65536; pc_workerCount := 4; pc_channelBuffer := 4096;
     pc_bufferPoolSize := 32 * 1024; pc_hooks := no_hooks |}.

Definition WithHashAlgorithm {W} (algo : string) (c : processorConfig W) : processorConfig W :=
  {| pc_hashAlgorithm := algo; pc_cacheMaxEntries := pc_cacheMaxEntries c; pc_cacheShards := pc_cacheShards c;
     pc_bloomFPRate := pc_bloomFPRate c; pc_bloomExpectedItems := pc_bloomExpectedItems c;
     pc_workerCount := pc_workerCount c; pc_channelBuffer := pc_channelBuffer c;
     pc_bufferPoolSize := pc_bufferPoolSize c; pc_hooks := pc_hooks c |}.

(** The options that set a number when it is positive *)
Definition positive (n old : Z) : Z := if decide (0 < n)%Z then n else old.

Definition with_numbers {W} (entries shards workers buffer pool : Z) (items : N) (rate : Q) (c : processorConfig W)
    : processorConfig W :=
  {| pc_hashAlgorithm := pc_hashAlgorithm c; pc_cacheMaxEntries := entries; pc_cacheShards := shards;
     pc_bloomFPRate := rate; pc_bloomExpectedItems := items; pc_workerCount := workers; pc_channelBuffer := buffer;
     pc_bufferPoolSize := pool; pc_hooks := pc_hooks c |}.

Definition WithCacheSize {W} (maxEntries : Z) (c : processorConfig W) : processorConfig W :=
  with_numbers (positive maxEntries (pc_cacheMaxEntries c)) (pc_cacheShards c) (pc_workerCount c) (pc_channelBuffer c)
    (pc_bufferPoolSize c) (pc_bloomExpectedItems c) (pc_bloomFPRate c) c.

Definition WithCacheShards {W} (n : Z) (c : processorConfig W) : processorConfig W :=
  with_numbers (pc_cacheMaxEntries c) (positive n (pc_cacheShards c)) (pc_workerCount c) (pc_channelBuffer c)
    (pc_bufferPoolSize c) (pc_bloomExpectedItems c) (pc_bloomFPRate c) c.

Definition WithWorkerCount {W} (n : Z) (c : processorConfig W) : processorConfig W :=
  with_numbers (pc_cacheMaxEntries c) (pc_cacheShards c) (positive n (pc_workerCount c)) (pc_channelBuffer c)
    (pc_bufferPoolSize c) (pc_bloomExpectedItems c) (pc_bloomFPRate c) c.

Definition WithChannelBuffer {W} (size : Z) (c : processorConfig W) : processorConfig W :=
  with_numbers (pc_cacheMaxEntries c) (pc_cacheShards c) (pc_workerCount c) (positive size (pc_channelBuffer c))
    (pc_bufferPoolSize c) (pc_bloomExpectedItems c) (pc_bloomFPRate c) c.

Definition WithBufferPoolSize {W} (bytes : Z) (c : processorConfig W) : processorConfig W :=
  with_numbers (pc_cacheMaxEntries c) (pc_cacheShards c) (pc_workerCount c) (pc_channelBuffer c)
    (positive bytes (pc_bufferPoolSize c)) (pc_bloomExpectedItems c) (pc_bloomFPRate c) c.

Definition WithBloomFilter {W} (expectedItems : N) (fpRate : Q) (c : processorConfig W) : processorConfig W :=
  with_numbers (pc_cacheMaxEntries c) (pc_cacheShards c) (pc_workerCount c) (pc_channelBuffer c) (pc_bufferPoolSize c)
    (if (0 <? expectedItems)%N then expectedItems else pc_bloomExpectedItems c)
    (if negb (Qle_bool fpRate 0) && negb (Qle_bool 1 fpRate) then fpRate else pc_bloomFPRate c) c.

Definition WithHooks {W} (hooks : Hooks W) (c : processorConfig W) : processorConfig W :=
  {| pc_hashAlgorithm := pc_hashAlgorithm c; pc_cacheMaxEntries := pc_cacheMaxEntries c; pc_cacheShards := pc_cacheShards c;
     pc_bloomFPRate := pc_bloomFPRate c; pc_bloomExpectedItems := pc_bloomExpectedItems c;
     pc_workerCount := pc_workerCount c; pc_channelBuffer := pc_channelBuffer c;
     pc_bufferPoolSize := pc_bufferPoolSize c; pc_hooks := hooks |}.

(** ** processor.go *)

(** A request: its event, and the client that waits for the reply, if any *)
Record submitRequest := { sr_event : FsAccessEvent; sr_client : option nat }.

Record Processor (W : Type) := {
  pr_cfg : processorConfig W;
  pr_hasher : Hasher;
  pr_dedup : Deduplicator;
  pr_interpreter : Interpreter W;
  pr_chains : gmap string Chain;
  pr_eventCh : list submitRequest;
  pr_chanClosed : bool;
  pr_closed : bool;
  pr_world : W;
}.
Arguments pr_cfg {W}.
Arguments pr_hasher {W}.
Arguments pr_dedup {W}.
Arguments pr_interpreter {W}.
Arguments pr_chains {W}.
Arguments pr_eventCh {W}.
Arguments pr_chanClosed {W}.
Arguments pr_closed {W}.
Arguments pr_world {W}.

Definition NewProcessor {W} `{ThirdPartyHashes, BloomSizing} (opts : list (processorConfig W → processorConfig W)) (w : W)
    : option (Processor W) :=
  let cfg := foldl (λ c opt, opt c) proc_defaultConfig opts in
  hasher ← NewHasher (pc_hashAlgorithm cfg);
  Some {| pr_cfg := cfg; pr_hasher := hasher;
     pr_dedup := NewDeduplicator ∅ (NewShardedStore (pc_cacheShards cfg) (pc_cacheMaxEntries cfg))
       (pc_bloomExpectedItems cfg) (pc_bloomFPRate cfg);
     pr_interpreter := NewInterpreter []; pr_chains := ∅; pr_eventCh := []; pr_chanClosed := false;
     pr_closed := false; pr_world := w |}.

Section processor.
Context {W : Type}.
Implicit Types p : Processor W.

Definition with_dedup p (d : Deduplicator) : Processor W :=
  {| pr_cfg := pr_cfg p; pr_hasher := pr_hasher p; pr_dedup := d; pr_interpreter := pr_interpreter p;
     pr_chains := pr_chains p; pr_eventCh := pr_eventCh p; pr_chanClosed := pr_chanClosed p; pr_closed := pr_closed p;
     pr_world := pr_world p |}.

Definition with_chains p (c : gmap string Chain) : Processor W :=
  {| pr_cfg := pr_cfg p; pr_hasher := pr_hasher p; pr_dedup := pr_dedup p; pr_interpreter := pr_interpreter p;
     pr_chains := c; pr_eventCh := pr_eventCh p; pr_chanClosed := pr_chanClosed p; pr_closed := pr_closed p;
     pr_world := pr_world p |}.

Definition with_channel p (ch : list submitRequest) (chanClosed closed : bool) : Processor W :=
  {| pr_cfg := pr_cfg p; pr_hasher := pr_hasher p; pr_dedup := pr_dedup p; pr_interpreter := pr_interpreter p;
     pr_chains := pr_chains p; pr_eventCh := ch; pr_chanClosed := chanClosed; pr_closed := closed;
     pr_world := pr_world p |}.

Definition with_world p (w : W) : Processor W :=
  {| pr_cfg := pr_cfg p; pr_hasher := pr_hasher p; pr_dedup := pr_dedup p; pr_interpreter := pr_interpreter p;
     pr_chains := pr_chains p; pr_eventCh := pr_eventCh p; pr_chanClosed := pr_chanClosed p; pr_closed := pr_closed p;
     pr_world := w |}.

Definition fire_hook {A} (f : Hooks W → option (A → W → W)) (a : A) p : Processor W :=
  with_world p (fire (f (pc_hooks (pr_cfg p))) a (pr_world p)).

(** [RegisterLayer]: the store, then the chain under [chainMu] *)
Definition Register_store (id parentID : FsLayerID) p : result unit * Processor W :=
  if pr_closed p then (Err FsErrClosed, p)
  else
    let '(r, s) := store_Register id parentID (d_layers (pr_dedup p)) in
    (r, with_dedup p (with_layers (pr_dedup p) s)).

Definition Register_chain (id parentID : FsLayerID) p : Processor W :=
  let builder := if negb (IsZero parentID) then
      match pr_chains p !! parentID with
      | Some parentChain => foldl (λ b l, builder_Push l b) [] (c_layers parentChain)
      | None => []
      end
    else [] in
  fire_hook OnLayerRegistered id (with_chains p (<[id := builder_Build (builder_Push id builder)]> (pr_chains p))).

Definition RegisterLayer (id parentID : FsLayerID) p : result unit * Processor W :=
  match Register_store id parentID p with
  | (Err e, p) => (Err e, p)
  | (Ok _, p) => (Ok tt, Register_chain id parentID p)
  end.

(** The calls that only go through to the layer store *)
Definition to_store (f : memStore → result unit * memStore) p : result unit * Processor W :=
  if pr_closed p then (Err FsErrClosed, p)
  else let '(r, s) := f (d_layers (pr_dedup p)) in (r, with_dedup p (with_layers (pr_dedup p) s)).

Definition proc_MarkModified (layerID : FsLayerID) (path : string) := to_store (store_MarkModified layerID path).
Definition proc_MarkDeleted (layerID : FsLayerID) (path : string) := to_store (store_MarkDeleted layerID path).
Definition proc_MarkOpaque (layerID : FsLayerID) (path : string) := to_store (store_MarkOpaque layerID path).

Definition proc_Chain (id : FsLayerID) p : option Chain := pr_chains p !! id.

(** The case of [MutationModified] in [processEvent] *)
Definition process_modified (event : FsAccessEvent) (chain : Chain) p : option (Processor W) :=
  '(result, d) ← Process event chain (pr_dedup p);
  let p := with_dedup p d in
  let p := match dr_Action result with
    | ActionCompute =>
        let hash := match fe_Data event with
          | Some data => hs_Hash (pr_hasher p) data
          | None => hs_Hash (pr_hasher p) (str_bytes (fe_Path event))
          end in
        let fileHash := {| fh_Path := fe_Path event; fh_Hash := hash; fh_Algorithm := hs_Algorithm (pr_hasher p);
                           fh_LayerID := fe_LayerID event; fh_Size := Z.of_nat (length (default [] (fe_Data event))) |} in
        fire_hook OnCacheMiss (fe_LayerID event, fe_Path event)
          (fire_hook OnHashComputed fileHash (with_dedup p (RecordComputed fileHash (pr_dedup p))))
    | ActionReuse => fire_hook OnCacheHit (fe_LayerID event, fe_Path event) p
    | ActionSkip => p
    | ActionExclude => fire_hook OnFileExcluded (fe_LayerID event, fe_Path event) p
    end in
  Some (fire_hook OnAccessDeduped result p).

Definition set_path (event : FsAccessEvent) (path : string) : FsAccessEvent :=
  {| fe_LayerID := fe_LayerID event; fe_VertexID := fe_VertexID event; fe_Path := path; fe_Op := fe_Op event;
     fe_Offset := fe_Offset event; fe_Count := fe_Count event; fe_Data := fe_Data event; fe_Timestamp := fe_Timestamp event |}.

Fixpoint process_mutations (event : FsAccessEvent) (chain : Chain) (mutations : list Mutation) p : option (Processor W) :=
  match mutations with
  | [] => Some p
  | m :: rest =>
      match mu_Kind m with
      | MutationDeleted =>
          process_mutations event chain rest
            (fire_hook OnFileExcluded (mu_LayerID m, fe_Path event) (proc_MarkDeleted (mu_LayerID m) (mu_Path m) p).2)
      | MutationOpaqued => process_mutations event chain rest (proc_MarkOpaque (mu_LayerID m) (mu_Path m) p).2
      | MutationModified =>
          let event := set_path event (mu_Path m) in
          p ← process_modified event chain p; process_mutations event chain rest p
      | MutationRenamed => process_mutations event chain rest p
      end
  end.

Definition processEvent (event : FsAccessEvent) p : option (result unit * Processor W) :=
  match proc_Chain (fe_LayerID event) p with
  | None => Some (Err (EWrap [fe_LayerID event] FsErrLayerNotFound), p)
  | Some chain =>
      let '(mutations, w) := Interpret (pr_interpreter p) event (pr_world p) in
      p ← process_mutations event chain mutations (with_world p w);
      Some (Ok tt, p)
  end.

(** [Finalize].  [None]: out of fuel in [Build], or the panic of an unknown algorithm, neither of
    which happens ([Finalize_spec]) *)
Definition Finalize `{ThirdPartyHashes, GoSort, GoRange} (layerID : FsLayerID) p : option (result FsNode * Processor W) :=
  if pr_closed p then Some (Err FsErrClosed, p)
  else
    let hashes := dedup_FileHashes layerID (pr_dedup p) in
    match hashes with
    | [] => Some (Err (EWrap ["no files tracked for layer"; layerID] FsErrTreeEmpty), p)
    | _ =>
        let hashes := sort_slice fh_Path hashes in
        let tree := foldl (λ t h, tree_Insert (fh_Path h) (fh_Hash h) (fh_LayerID h) t) (NewTree []) hashes in
        hasher ← HashFn_of (pc_hashAlgorithm (pr_cfg p));
        '(r, _) ← Build (Hfn := hasher) tree;
        match r with
        | Err e => Some (Err (EWrap ["fshash: building Merkle tree for layer"; layerID] e), p)
        | Ok root =>
            let p := fire_hook OnTreeBuilt (layerID, n_Hash root) p in
            Some (Ok root, with_dedup p (ResetSession (pr_dedup p)))
        end
    end.

Definition proc_Stats p : ProcessorStats :=
  let dedupStats := dedup_Stats (pr_dedup p) in
  let cacheStats := store_Stats (d_cache (pr_dedup p)) in
  {| ps_EventsReceived := ps_EventsReceived dedupStats; ps_EventsComputed := ps_EventsComputed dedupStats;
     ps_EventsReused := ps_EventsReused dedupStats; ps_EventsSkipped := ps_EventsSkipped dedupStats;
     ps_EventsExcluded := ps_EventsExcluded dedupStats; ps_CacheHits := st_Hits cacheStats;
     ps_CacheMisses := st_Misses cacheStats; ps_LayersRegistered := ps_LayersRegistered dedupStats;
     ps_TreesFinalized := ps_TreesFinalized dedupStats |}.
End processor.

(** ** Submission and shutdown *)

(** A client of [Submit] or [SubmitAsync]: at its send, waiting for the reply, or back *)
Inductive client :=
  | CSelect (ev : FsAccessEvent) (sync : bool)
  | CWait
  | CDone (r : result unit).

Record system (W : Type) := {
  sys_p : Processor W;
  sys_clients : gmap nat client;
  sys_closers : nat;                  (* calls of [Close] between the swap and [close] *)
  sys_panicked : bool;
}.
Arguments sys_p {W}.
Arguments sys_clients {W}.
Arguments sys_closers {W}.
Arguments sys_panicked {W}.

Inductive sys_action :=
  | ASubmit (n : nat) (sync : bool) (ev : FsAccessEvent)   (* up to the first select, by client [n] *)
  | ASelect (n : nat) (done : option error)                (* the first select: the send, or the context *)
  | AWait (n : nat) (done : error)                         (* the second select: the context *)
  | AWorker
  | ACloseSwap
  | ACloseChan.

Section system.
Context {W : Type}.
Implicit Types s : system W.

Definition with_client s (n : nat) (c : client) : system W :=
  {| sys_p := sys_p s; sys_clients := <[n := c]> (sys_clients s); sys_closers := sys_closers s; sys_panicked := sys_panicked s |}.

Definition sys_panic s : system W :=
  {| sys_p := sys_p s; sys_clients := sys_clients s; sys_closers := sys_closers s; sys_panicked := true |}.

Definition sys_with s (p : Processor W) (closers : nat) : system W :=
  {| sys_p := p; sys_clients := sys_clients s; sys_closers := closers; sys_panicked := sys_panicked s |}.

(** Up to the first select of [Submit] and [SubmitAsync] *)
Definition Submit_check (n : nat) (sync : bool) (ev : FsAccessEvent) s : option (system W) :=
  match sys_clients s !! n with
  | Some _ => None
  | None =>
      if pr_closed (sys_p s) then Some (with_client s n (CDone (Err FsErrClosed)))
      else match event_Validate ev with
           | Err e => Some (with_client s n (CDone (Err e)))
           | Ok _ => Some (with_client s n (CSelect ev sync))
           end
  end.

(** The first select.  A send on a closed channel panics; a full buffer blocks. *)
Definition Submit_select (n : nat) (done : option error) s : option (system W) :=
  match sys_clients s !! n with
  | Some (CSelect ev sync) =>
      match done with
      | Some e => Some (with_client s n (CDone (Err e)))
      | None =>
          let p := sys_p s in
          if pr_chanClosed p then Some (sys_panic s)
          else if decide (Z.of_nat (length (pr_eventCh p)) < pc_channelBuffer (pr_cfg p))%Z then
            let req := {| sr_event := ev; sr_client := if sync then Some n else None |} in
            let p := with_channel p (pr_eventCh p ++ [req]) (pr_chanClosed p) (pr_closed p) in
            Some (with_client (sys_with s p (sys_closers s)) n (if sync then CWait else CDone (Ok tt)))
          else None
      end
  | _ => None
  end.

Definition Submit_wait (n : nat) (e : error) s : option (system W) :=
  match sys_clients s !! n with
  | Some CWait => Some (with_client s n (CDone (Err e)))
  | _ => None
  end.

(** A worker takes the next request and replies; the reply channel has room for it. *)
Definition worker s : option (system W) :=
  let p := sys_p s in
  match pr_eventCh p with
  | [] => None
  | req :: rest =>
      match processEvent (sr_event req) (with_channel p rest (pr_chanClosed p) (pr_closed p)) with
      | None => Some (sys_panic s)
      | Some (r, p) =>
          let s := sys_with s p (sys_closers s) in
          Some match sr_client req with
               | Some n => match sys_clients s !! n with Some CWait => with_client s n (CDone r) | _ => s end
               | None => s
               end
      end
  end.

(** [Close]: the swap, then [close]; the wait for the workers changes nothing. *)
Definition Close_swap s : system W :=
  let p := sys_p s in
  if pr_closed p then s else sys_with s (with_channel p (pr_eventCh p) (pr_chanClosed p) true) (S (sys_closers s)).

Definition Close_chan s : option (system W) :=
  match sys_closers s with
  | 0 => None
  | S k =>
      let p := sys_p s in
      Some (if pr_chanClosed p then sys_panic s
            else sys_with s (with_channel p (pr_eventCh p) true (pr_closed p)) k)
  end.

(** [None]: the step is not enabled *)
Definition sys_step (a : sys_action) s : option (system W) :=
  if sys_panicked s then None
  else match a with
       | ASubmit n sync ev => Submit_check n sync ev s
       | ASelect n done => Submit_select n done s
       | AWait n e => Submit_wait n e s
       | AWorker => worker s
       | ACloseSwap => Some (Close_swap s)
       | ACloseChan => Close_chan s
       end.

Definition sys_run (actions : list sys_action) s : option (system W) :=
  foldl (λ r a, s ← r; sys_step a s) (Some s) actions.

(** ** Theorems *)

Lemma sys_run_cons a l s s1 o : sys_step a s = Some s1 → sys_run l s1 = o → sys_run (a :: l) s = o.
Proof. intros H1 H2. unfold sys_run. cbn [foldl mbind option_bind]. by rewrite H1. Qed.

(** [Submit] races with [Close].  A client that passed the closed check before the swap and
    reaches its send after [close] panics the program: in any state of an open processor, for any
    valid event, this interleaving is possible. *)
Theorem Submit_Close_panics s (n : nat) (sync : bool) (ev : FsAccessEvent) :
  sys_panicked s = false → pr_closed (sys_p s) = false → pr_chanClosed (sys_p s) = false → sys_clients s !! n = None →
  event_Validate ev = Ok tt →
  ∃ s', sys_run [ASubmit n sync ev; ACloseSwap; ACloseChan; ASelect n None] s = Some s' ∧ sys_panicked s' = true.
Proof.
  intros Hp Hc Hch Hn Hv. eexists. split.
  - eapply sys_run_cons; [unfold sys_step; rewrite Hp; unfold Submit_check; by rewrite Hn, Hc, Hv |].
    eapply sys_run_cons; [unfold sys_step; cbn [with_client sys_panicked]; rewrite Hp; unfold Close_swap; cbn [with_client sys_p]; by rewrite Hc |].
    eapply sys_run_cons.
    { unfold sys_step. cbn [sys_with with_client sys_panicked]. rewrite Hp. unfold Close_chan.
      cbn [sys_with with_client sys_closers sys_p with_channel pr_chanClosed]. by rewrite Hch. }
    eapply sys_run_cons; [| done]. unfold sys_step. cbn [sys_with with_client sys_panicked]. rewrite Hp.
    unfold Submit_select. cbn [sys_with with_client sys_clients sys_p with_channel pr_chanClosed].
    rewrite lookup_insert_eq. done.
  - done.
Qed.
End system.

(** ** Events *)

Section events.
Context {W : Type}.
Implicit Types p : Processor W.

(** The state that events keep: the filter holds some keys, the interpreter is the default one *)
Record proc_inv p : Prop := {
  pi_filter : ∃ keys, bloom_holds (d_filter (pr_dedup p)) keys;
  pi_interpreter : in_parser (pr_interpreter p) = NewParser (W := W) [];
  pi_tracker l m q h : d_tracker (pr_dedup p) !! l = Some m → m !! q = Some h → fh_Path h = q;
}.

(** A path without an overlay marker *)
Definition plain_path (path : string) : Prop := oe_Kind (Parse (NewParser (W := W) []) path EmptyString) = EntryRegular.

Lemma Parse_plain (q : Parser) path l l' : oe_Kind (Parse q path l) = oe_Kind (Parse q path l').
Proof. unfold Parse. case_decide; [done |]. by destruct (has_prefix _ _). Qed.

Lemma Parse_target (q : Parser) path l : oe_Kind (Parse q path l) = EntryRegular → oe_TargetPath (Parse q path l) = path.
Proof. unfold Parse. case_decide; [done |]. by destruct (has_prefix _ _). Qed.

Lemma Parse_layer (q : Parser) path l : oe_LayerID (Parse q path l) = l.
Proof. unfold Parse. case_decide; [done |]. by destruct (has_prefix _ _). Qed.

Lemma set_path_id e : set_path e (fe_Path e) = e.
Proof. by destruct e. Qed.

(** An event of a plain path goes to the deduplicator as it is. *)
Lemma processEvent_plain p e c :
  proc_inv p → plain_path (fe_Path e) → proc_Chain (fe_LayerID e) p = Some c →
  ∃ w, processEvent e p = (p' ← process_modified e c (with_world p w); Some (Ok tt, p')).
Proof.
  intros Hp Hpl Hc. unfold processEvent. rewrite Hc. unfold Interpret. rewrite (pi_interpreter p Hp).
  set (en := Parse _ _ _). assert (oe_Kind en = EntryRegular) as Hk by (unfold en; by rewrite (Parse_plain _ _ _ EmptyString)).
  rewrite Hk. eexists. cbn [process_mutations mu_Kind mu_Path]. unfold en. rewrite Parse_target by done.
  rewrite set_path_id. match goal with |- context [foldl ?f ?a ?l] => instantiate (1 := foldl f a l) end.
  by destruct (process_modified _ _ _).
Qed.

(** The hooks do not reach the state. *)
Lemma fire_dedup {A} (f : Hooks W → option (A → W → W)) a p : pr_dedup (fire_hook f a p) = pr_dedup p.
Proof. done. Qed.

Lemma process_modified_some p e c :
  proc_inv p → ∃ r d, Process e c (pr_dedup p) = Some (r, d) ∧ ∃ p', process_modified e c p = Some p' ∧
    pr_dedup p' = match dr_Action r with
      | ActionCompute =>
          let hash := match fe_Data e with
            | Some data => hs_Hash (pr_hasher p) data
            | None => hs_Hash (pr_hasher p) (str_bytes (fe_Path e)) end in
          RecordComputed {| fh_Path := fe_Path e; fh_Hash := hash; fh_Algorithm := hs_Algorithm (pr_hasher p);
            fh_LayerID := fe_LayerID e; fh_Size := Z.of_nat (length (default [] (fe_Data e))) |} d
      | _ => d
      end ∧
    pr_chains p' = pr_chains p ∧ pr_closed p' = pr_closed p ∧ pr_interpreter p' = pr_interpreter p ∧
    pr_hasher p' = pr_hasher p ∧ pr_cfg p' = pr_cfg p.
Proof.
  intros Hp. destruct (Process_total e c (pr_dedup p) (pi_filter p Hp)) as (r & d & E & _). exists r, d. split; [done |].
  unfold process_modified. rewrite E. cbn [mbind option_bind]. destruct (dr_Action r); eexists; by split.
Qed.
End events.

(** ** Runs *)

(** The calls of one client and the events of the workers, one after the other *)
Inductive proc_op :=
  | PRegister (id parentID : FsLayerID)
  | PMarkModified (id : FsLayerID) (path : string)
  | PMarkDeleted (id : FsLayerID) (path : string)
  | PMarkOpaque (id : FsLayerID) (path : string)
  | PEvent (e : FsAccessEvent)
  | PFinalize (id : FsLayerID)
  | PClosed.

Section runs.
Context {W : Type} `{T : ThirdPartyHashes, Sz : BloomSizing, So : GoSort, R : GoRange}.
Implicit Types p : Processor W.

Definition proc_do p (op : proc_op) : option (Processor W) :=
  match op with
  | PRegister id parentID => Some (RegisterLayer id parentID p).2
  | PMarkModified id path => Some (proc_MarkModified id path p).2
  | PMarkDeleted id path => Some (proc_MarkDeleted id path p).2
  | PMarkOpaque id path => Some (proc_MarkOpaque id path p).2
  | PEvent e => snd <$> processEvent e p
  | PFinalize id => snd <$> Finalize id p
  | PClosed => Some (with_channel p (pr_eventCh p) (pr_chanClosed p) true)
  end.

Definition proc_run (ops : list proc_op) p : option (Processor W) :=
  foldl (λ r op, p ← r; proc_do p op) (Some p) ops.

(** The chains follow the parents recorded in the store. *)
Record chains_ok (chains : gmap string Chain) (s : memStore) : Prop := {
  ck_chain id c : chains !! id = Some c →
    ∃ ls m, c = NewChain (ls ++ [id]) ∧ NoDup (ls ++ [id]) ∧ s !! id = Some m ∧
      (∀ x, x ∈ ls → is_Some (s !! x)) ∧
      (if IsZero (mf_parentID m) then ls = [] else chains !! mf_parentID m = Some (NewChain ls));
  ck_all id : is_Some (s !! id) → is_Some (chains !! id);
}.

Lemma chains_ok_store chains s s' :
  (∀ id, (mf_parentID <$> s' !! id) = (mf_parentID <$> s !! id)) → chains_ok chains s → chains_ok chains s'.
Proof.
  intros Hs [Hc Ha].
  assert (∀ id, is_Some (s' !! id) ↔ is_Some (s !! id)) as Hi.
  { intros id. specialize (Hs id). destruct (s' !! id), (s !! id); try done; by split; intros [? ?]. }
  split.
  - intros id c Hid. destruct (Hc id c Hid) as (ls & m & E & Hnd & Hm & Hls & Hp). specialize (Hs id) as Hsid. rewrite Hm in Hsid.
    destruct (s' !! id) as [m'|] eqn:Em; [| done]. injection Hsid as Hpar. exists ls, m'. rewrite Hpar.
    split_and!; [done | done | done | | done]. intros x Hx. by apply Hi, Hls.
  - intros id Hid. by apply Ha, Hi.
Qed.

Lemma with_manifest_parent f l (s : memStore) id :
  (∀ m, mf_parentID (f m) = mf_parentID m) →
  (mf_parentID <$> (with_manifest f l s).2 !! id) = (mf_parentID <$> s !! id).
Proof.
  intros Hf. unfold with_manifest, getManifest. destruct (s !! l) as [m|] eqn:E; [| done]. cbn [snd].
  destruct (decide (id = l)) as [->|Hne]; [| by rewrite lookup_insert_ne].
  rewrite lookup_insert_eq, E. cbn. by rewrite Hf.
Qed.

(** What every operation keeps *)
Record run_inv p : Prop := {
  ri_inv : proc_inv p;
  ri_chains : chains_ok (pr_chains p) (d_layers (pr_dedup p));
  ri_hasher : NewHasher (pc_hashAlgorithm (pr_cfg p)) = Some (pr_hasher p);
}.

Lemma run_inv_store p f :
  (∀ s id, (mf_parentID <$> (f s).2 !! id) = (mf_parentID <$> s !! id)) → run_inv p → run_inv (to_store f p).2.
Proof.
  intros Hf [[Hfi Hin Htr] Hc Hh]. unfold to_store. destruct (pr_closed p); [by split |].
  destruct (f _) as [r s] eqn:E. split; [by split | | done]. cbn.
  eapply chains_ok_store; [| exact Hc]. intros id. specialize (Hf (d_layers (pr_dedup p)) id). by rewrite E in Hf.
Qed.

Lemma run_inv_marks p : run_inv p →
  (∀ id path, run_inv (proc_MarkModified id path p).2) ∧ (∀ id path, run_inv (proc_MarkDeleted id path p).2) ∧
  (∀ id path, run_inv (proc_MarkOpaque id path p).2).
Proof. intros Hp. split_and!; intros id path; apply run_inv_store; try done; intros s x; by apply with_manifest_parent. Qed.

Lemma builder_layers ls : foldl (λ b l, builder_Push l b) [] ls = ls.
Proof.
  assert (∀ a, foldl (λ b l, builder_Push l b) a ls = a ++ ls) as H; [| apply H].
  induction ls as [|x ls IH]; intros a; cbn [foldl]; [by rewrite app_nil_r |].
  rewrite IH. unfold builder_Push. by rewrite <- app_assoc.
Qed.

(** A successful registration: the new layer on top of its parent's chain *)
Lemma RegisterLayer_ok id parentID p p' :
  run_inv p → RegisterLayer id parentID p = (Ok tt, p') →
  ∃ ls, proc_Chain id p' = Some (NewChain (ls ++ [id])) ∧ NoDup (ls ++ [id]) ∧
    (if IsZero parentID then ls = [] else proc_Chain parentID p = Some (NewChain ls)) ∧
    (∀ x, x ≠ id → proc_Chain x p' = proc_Chain x p) ∧ run_inv p'.
Proof.
  intros [Hin Hc Hh]. unfold RegisterLayer, Register_store. destruct (pr_closed p) eqn:Ecl; [done |].
  unfold store_Register. destruct (IsZero id) eqn:Hz; [done |].
  set (s := d_layers (pr_dedup p)) in *. destruct (s !! id) as [m|] eqn:Eid; [done |].
  destruct (negb (IsZero parentID) && bool_decide (s !! parentID = None)) eqn:Epar; [done |]. intros [= <-].
  assert (∃ ls, (if negb (IsZero parentID) then match pr_chains p !! parentID with
      | Some c => foldl (λ b l, builder_Push l b) [] (c_layers c) | None => [] end else []) = ls ∧
    (if IsZero parentID then ls = [] else pr_chains p !! parentID = Some (NewChain ls)) ∧
    NoDup (ls ++ [id]) ∧ ∀ x, x ∈ ls → is_Some (s !! x)) as (ls & Els & Hls & Hnd & Hsome).
  { destruct (IsZero parentID) eqn:Hzp; cbn [negb andb] in *.
    { exists []. split_and!; [done | done | by apply NoDup_singleton | by intros x ?%not_elem_of_nil]. }
    apply bool_decide_eq_false, not_eq_None_Some in Epar.
    destruct (ck_all _ _ Hc _ Epar) as [c Ec]. destruct (ck_chain _ _ Hc _ _ Ec) as (ls & m & -> & Hnd & Hm & Hx & _).
    rewrite Ec. cbn [c_layers NewChain]. exists (ls ++ [parentID]). rewrite builder_layers.
    assert (∀ x, x ∈ ls ++ [parentID] → is_Some (s !! x)) as Hall.
    { intros x. rewrite elem_of_app, list_elem_of_singleton. intros [?| ->]; [by apply Hx | done]. }
    split_and!; [done | done | | done]. apply NoDup_app. split_and!; [done | | by apply NoDup_singleton].
    intros x Hxin Hxid. apply list_elem_of_singleton in Hxid as ->. apply Hall in Hxin as [? ?]. congruence. }
  exists ls. unfold proc_Chain. cbn [Register_chain fire_hook with_world with_chains pr_chains with_dedup].
  cbn [with_dedup pr_chains with_layers] in *. rewrite Els. unfold builder_Push, builder_Build.
  split_and!; [by rewrite lookup_insert_eq | done | done | intros x Hx; by rewrite lookup_insert_ne |].
  split; [by destruct Hin; split | | done]. cbn. rewrite Els. unfold builder_Push, builder_Build. split.
  - intros x c. destruct (decide (x = id)) as [->|Hx].
    + rewrite lookup_insert_eq. intros [= <-]. rewrite lookup_insert_eq. eexists ls, _. cbn [mf_parentID].
      split_and!; [done | done | done | |].
      * intros x Hx. destruct (decide (x = id)) as [->|]; [by rewrite lookup_insert_eq | rewrite lookup_insert_ne by done; by apply Hsome].
      * cbn [mf_parentID]. destruct (IsZero parentID); [done |]. rewrite lookup_insert_ne; [done |]. intros <-.
        destruct (ck_chain _ _ Hc _ _ Hls) as (? & m & _ & _ & Hm & _). congruence.
    + rewrite !lookup_insert_ne by done. intros Hxc. destruct (ck_chain _ _ Hc _ _ Hxc) as (ls' & m & E & Hnd' & Hm & Hy & Hp).
      exists ls', m. split_and!; [done | done | done | |].
      * intros y Hyin. destruct (decide (y = id)) as [->|]; [by rewrite lookup_insert_eq | rewrite lookup_insert_ne by done; by apply Hy].
      * destruct (IsZero (mf_parentID m)); [done |]. rewrite lookup_insert_ne; [done |]. intros E'.
        destruct (ck_chain _ _ Hc _ _ Hp) as (? & m' & _ & _ & Hm' & _). fold s in Hm'. rewrite <- E' in Hm'. congruence.
  - intros x. destruct (decide (x = id)) as [->|Hx]; [intros _; rewrite lookup_insert_eq; by eexists |].
    rewrite !lookup_insert_ne by done. apply (ck_all _ _ Hc).
Qed.

Lemma tracker_Record_ok (t : Tracker) l h :
  (∀ l m q h, t !! l = Some m → m !! q = Some h → fh_Path h = q) →
  ∀ l' m q h', tracker_Record l h t !! l' = Some m → m !! q = Some h' → fh_Path h' = q.
Proof.
  intros Ht l' m q h'. unfold tracker_Record. destruct (decide (l' = l)) as [->|Hl].
  - rewrite lookup_insert_eq. intros [= <-]. destruct (decide (q = fh_Path h)) as [->|Hq].
    + rewrite lookup_insert_eq. by intros [= <-].
    + rewrite lookup_insert_ne by done. destruct (t !! l) as [m|] eqn:E; cbn [default]; [by apply (Ht l m) | done].
  - rewrite lookup_insert_ne by done. by apply Ht.
Qed.

(** What handling an event keeps: the invariant, the modified files, and, once closed, the whole
    layer store *)
Record event_frame p p' : Prop := {
  ef_inv : run_inv p';
  ef_modified l path : store_IsModified l path (d_layers (pr_dedup p')) = store_IsModified l path (d_layers (pr_dedup p));
  ef_closed : pr_closed p' = pr_closed p;
  ef_layers : pr_closed p = true → d_layers (pr_dedup p') = d_layers (pr_dedup p);
}.

Lemma event_frame_trans p1 p2 p3 : event_frame p1 p2 → event_frame p2 p3 → event_frame p1 p3.
Proof.
  intros [_ M1 C1 L1] [I2 M2 C2 L2]. split; [done | | congruence |].
  - intros l path. by rewrite M2.
  - intros Hc. rewrite L2 by congruence. by apply L1.
Qed.

Lemma event_frame_world p w : run_inv p → event_frame p (with_world p w).
Proof. intros [[H1 H2 H3] Hc Hh]. split; [split; [split |..] |..]; done. Qed.

Lemma event_frame_mark p f w :
  run_inv (to_store f p).2 → (∀ s l path, store_IsModified l path (f s).2 = store_IsModified l path s) →
  event_frame p (with_world (to_store f p).2 w).
Proof.
  intros Hi Hf. split.
  - apply event_frame_world with (w := w) in Hi. apply Hi.
  - intros l path. unfold to_store. destruct (pr_closed p); [done |].
    specialize (Hf (d_layers (pr_dedup p)) l path). by destruct (f _).
  - unfold to_store. destruct (pr_closed p) eqn:Ec; [done |]. by destruct (f _).
  - intros Hc. unfold to_store. by rewrite Hc.
Qed.

Lemma process_modified_frame p e c :
  run_inv p → ∃ p', process_modified e c p = Some p' ∧ event_frame p p'.
Proof.
  intros [Hp Hc Hh]. destruct (process_modified_some p e c Hp) as (r & d & E & p' & E' & Ed & E1 & E2 & E3 & E4 & E5).
  exists p'. split; [done |]. destruct (Process_total e c _ (pi_filter p Hp)) as (r' & d' & E'' & El & (keys & Hk & _) & Ht).
  rewrite E in E''. injection E'' as <- <-.
  assert (∀ l m q h, d_tracker d !! l = Some m → m !! q = Some h → fh_Path h = q) as Htr.
  { destruct Ht as [->|(h & _ & ->)]; [apply Hp | apply tracker_Record_ok, Hp]. }
  assert (d_layers (pr_dedup p') = d_layers (pr_dedup p)) as Elay by (rewrite Ed, <- El; by destruct (dr_Action r)).
  split; [split | | done | done].
  - split; [| by rewrite E3; apply Hp |].
    + exists keys. rewrite Ed. by destruct (dr_Action r).
    + rewrite Ed. destruct (dr_Action r); [by apply tracker_Record_ok | exact Htr..].
  - by rewrite E1, Elay.
  - by rewrite E4, E5.
  - intros l path. by rewrite Elay.
Qed.

Lemma process_mutations_frame e c ms : ∀ p, run_inv p →
  ∃ p', process_mutations e c ms p = Some p' ∧ event_frame p p'.
Proof.
  revert e. induction ms as [|m ms IH]; intros e p Hp; cbn [process_mutations].
  { exists p. split; [done |]. by split. }
  destruct (run_inv_marks p Hp) as (_ & Hdel & Hop). destruct (mu_Kind m).
  - destruct (process_modified_frame p (set_path e (mu_Path m)) c Hp) as (p1 & E1 & F1). rewrite E1. cbn [mbind option_bind].
    destruct (IH (set_path e (mu_Path m)) p1 (ef_inv _ _ F1)) as (p2 & E2 & F2). exists p2.
    split; [done |]. by eapply event_frame_trans.
  - assert (event_frame p (fire_hook OnFileExcluded (mu_LayerID m, fe_Path e) (proc_MarkDeleted (mu_LayerID m) (mu_Path m) p).2)) as F1.
    { apply event_frame_mark; [apply Hdel |]. intros s l path. by apply in_with_same. }
    destruct (IH e _ (ef_inv _ _ F1)) as (p2 & E2 & F2). exists p2. split; [done |]. by eapply event_frame_trans.
  - assert (event_frame p (with_world (proc_MarkOpaque (mu_LayerID m) (mu_Path m) p).2 (pr_world (proc_MarkOpaque (mu_LayerID m) (mu_Path m) p).2))) as F1.
    { apply event_frame_mark; [apply Hop |]. intros s l path. by apply in_with_same. }
    assert (∀ q : Processor W, with_world q (pr_world q) = q) as Eq by by intros [].
    rewrite Eq in F1. destruct (IH e _ (ef_inv _ _ F1)) as (p2 & E2 & F2). exists p2. split; [done |]. by eapply event_frame_trans.
  - by apply IH.
Qed.

Lemma processEvent_frame p e : run_inv p → ∃ r p', processEvent e p = Some (r, p') ∧ event_frame p p'.
Proof.
  intros Hp. unfold processEvent. destruct (proc_Chain _ _) as [c|]; [| do 2 eexists; split; [done |]; by split].
  destruct (Interpret _ _ _) as [ms w]. pose proof (event_frame_world p w Hp) as Fw.
  destruct (process_mutations_frame e c ms (with_world p w) (ef_inv _ _ Fw)) as (p' & -> & F).
  do 2 eexists. split; [done |]. by eapply event_frame_trans.
Qed.

(** ** Finalize *)

Definition leaf_of (h : FsFileHash) : FsNode := MkNode NodeLeaf (fh_Hash h) (fh_Path h) [] (fh_LayerID h) 0.

Lemma insert_all hs t :
  let t' := foldl (λ t h, tree_Insert (fh_Path h) (fh_Hash h) (fh_LayerID h) t) t hs in
  t_leaves t' = t_leaves t ++ (leaf_of <$> hs) ∧ t_branchingFactor t' = t_branchingFactor t.
Proof.
  revert t. induction hs as [|h hs IH]; intros t; cbn [foldl]; [by rewrite app_nil_r |].
  destruct (IH (tree_Insert (fh_Path h) (fh_Hash h) (fh_LayerID h) t)) as [-> ->]. split; [| done].
  cbn [tree_Insert with_leaves t_leaves]. by rewrite fmap_cons, <- app_assoc.
Qed.

(** The files of a layer, as [Finalize] inserts them *)
Lemma tracked_paths (m : gmap string FsFileHash) (Rg : GoRange) :
  (∀ q h, m !! q = Some h → fh_Path h = q) →
  fh_Path <$> (map_range (GoRange := Rg) m).*2 = (map_range (GoRange := Rg) m).*1.
Proof.
  intros Hm. rewrite <- list_fmap_compose. apply list_fmap_ext. intros i [q h] Hi. cbn.
  apply list_elem_of_lookup_2, elem_of_map_range in Hi. by apply Hm.
Qed.

Lemma Finalize_ok p l m :
  run_inv p → pr_closed p = false → d_tracker (pr_dedup p) !! l = Some m → m ≠ ∅ →
  ∃ F root p', HashFn_of (pc_hashAlgorithm (pr_cfg p)) = Some F ∧ verifyNode (Hfn := F) root = Ok tt ∧
    node_LeafCount root = size m ∧ bloom_holds (d_filter (pr_dedup p')) [] ∧ run_inv p' ∧
    ∀ (So' : GoSort) (R' : GoRange), Finalize (H0 := So') (H1 := R') l p = Some (Ok root, p').
Proof.
  intros [Hp Hc Hh] Hcl Ht Hm. destruct (NewHasher_HashFn _ _ _ Hh) as (F & EF & _).
  assert (∀ q h, m !! q = Some h → fh_Path h = q) as Hkey by (intros q h; by apply (pi_tracker p Hp l)).
  pose (hs := λ (So' : GoSort) (R' : GoRange), sort_slice (GoSort := So') fh_Path (map_range (GoRange := R') m).*2).
  pose (tr := λ So' R', foldl (λ t h, tree_Insert (fh_Path h) (fh_Hash h) (fh_LayerID h) t) (NewTree []) (hs So' R')).
  assert (∀ So' R', t_leaves (tr So' R') = leaf_of <$> hs So' R' ∧ t_branchingFactor (tr So' R') = 2) as Htr
    by (intros So' R'; apply (insert_all (hs So' R') (NewTree []))).
  assert (∀ So' R', hs So' R' ≡ₚ (map_to_list m).*2) as Hperm
    by (intros So' R'; unfold hs; by rewrite sort_slice_perm, map_range_perm).
  assert (∀ So' R', t_leaves (tr So' R') ≠ []) as Hne.
  { intros So' R'. rewrite (proj1 (Htr So' R')). intros E%fmap_nil_inv. specialize (Hperm So' R'). rewrite E in Hperm.
    apply Permutation_nil, fmap_nil_inv, map_to_list_empty_iff in Hperm. done. }
  assert (NoDup (n_Path <$> t_leaves (tr So R))) as Hnd.
  { rewrite (proj1 (Htr So R)), <- list_fmap_compose. change (n_Path ∘ leaf_of) with fh_Path. unfold hs.
    rewrite sort_slice_perm, tracked_paths by done. apply map_range_NoDup_keys. }
  destruct (Build_some (H := F) (H0 := So) (tr So R)) as (root & Er & EB); [by rewrite (proj2 (Htr So R)) | done |].
  assert (∀ So' R', ∃ t', Build (Hfn := F) (H := So') (tr So' R') = Some (Ok root, t')) as Hroot.
  { intros So' R'. destruct (Build_perm (H := F) So So' (tr So R) (tr So' R')) as (root' & t1 & t1' & B1 & B2);
      [by rewrite (proj2 (Htr So R)) | done | by rewrite (proj2 (Htr So R)), (proj2 (Htr So' R')) | done | |].
    - by rewrite (proj1 (Htr So' R')), (proj1 (Htr So R)), !Hperm.
    - rewrite EB in B1. injection B1 as <- _. by exists t1'. }
  exists F, root, (with_dedup (fire_hook OnTreeBuilt (l, n_Hash root) p) (ResetSession (pr_dedup p))).
  assert (0 < t_branchingFactor (tr So R)) as Hb0 by (rewrite (proj2 (Htr So R)); lia).
  set (lv := sort_slice n_Path (t_leaves (tr So R))) in *.
  assert (lv ≡ₚ leaf_of <$> (map_to_list m).*2) as Hlv by (unfold lv; by rewrite sort_slice_perm, (proj1 (Htr So R)), Hperm).
  assert (Forall (λ n, verifyNode (Hfn := F) n = Ok tt ∧ node_LeafCount n = 1) lv) as Hleaf
    by (rewrite Hlv; apply Forall_fmap, Forall_true; by intros h).
  split_and!; [done | | | | |].
  - eapply (build_verify (Hfn := F)); [exact Hb0 | exact Er |].
    eapply Forall_impl; [exact Hleaf |]. by intros n [? _].
  - rewrite (build_LeafCount (Hfn := F) _ _ _ _ _ Hb0 Er).
    rewrite sum_list_ones by (eapply Forall_impl; [exact Hleaf | by intros n [_ ?]]).
    rewrite Hlv, !length_fmap. apply length_map_to_list.
  - cbn. destruct (pi_filter p Hp) as [keys Hk]. by eapply Reset_holds.
  - split; [split | done | done]; cbn; [| apply Hp | apply Hp]. exists []. destruct (pi_filter p Hp) as [keys Hk]. by eapply Reset_holds.
  - intros So' R'. unfold Finalize. rewrite Hcl. unfold dedup_FileHashes, tracker_FileHashes. rewrite Ht.
    destruct (map_range (GoRange := R') m).*2 as [|h0 hs0] eqn:El.
    { exfalso. apply (Hne So' R'). rewrite (proj1 (Htr So' R')). unfold hs. rewrite El.
      assert (sort_slice (GoSort := So') fh_Path [] = []) as ->; [| done]. apply length_zero_iff_nil. by rewrite sort_slice_length. }
    rewrite <- El. fold (hs So' R'). fold (tr So' R'). rewrite EF. cbn [mbind option_bind].
    destruct (Hroot So' R') as [t' ->]. done.
Qed.

(** ** Every run keeps the invariant *)

Lemma Finalize_inv p l : run_inv p → ∃ r p', Finalize l p = Some (r, p') ∧ run_inv p'.
Proof.
  intros Hp. destruct (pr_closed p) eqn:Hcl; [unfold Finalize; rewrite Hcl; by do 2 eexists |].
  assert ((∃ m, d_tracker (pr_dedup p) !! l = Some m ∧ m ≠ ∅) ∨ dedup_FileHashes l (pr_dedup p) = []) as [(m & Hm & Hne)|Hnil].
  { unfold dedup_FileHashes, tracker_FileHashes. destruct (d_tracker (pr_dedup p) !! l) as [m|]; [| by right].
    destruct (decide (m = ∅)) as [->|]; [right | left; by exists m].
    apply length_zero_iff_nil. by rewrite length_fmap, map_range_length, map_size_empty. }
  - destruct (Finalize_ok p l m Hp Hcl Hm Hne) as (F & root & p' & _ & _ & _ & _ & Hp' & HF). do 2 eexists. by split; [apply HF |].
  - unfold Finalize. rewrite Hcl, Hnil. by do 2 eexists.
Qed.

Lemma proc_do_inv p op : run_inv p → ∃ p', proc_do p op = Some p' ∧ run_inv p'.
Proof.
  intros Hp. destruct (run_inv_marks p Hp) as (H1 & H2 & H3). destruct op as [id par|id q|id q|id q|e|id|]; cbn [proc_do].
  - eexists. split; [done |]. unfold RegisterLayer. destruct (Register_store id par p) as [[u|er] p1] eqn:E.
    + destruct u. destruct (RegisterLayer_ok id par p (Register_chain id par p1) Hp) as (_ & _ & _ & _ & _ & Hp'); [| done].
      unfold RegisterLayer. by rewrite E.
    + cbn [snd]. unfold Register_store in E. destruct (pr_closed p); [by injection E as <- <- |].
      destruct (store_Register _ _ _) as [r s] eqn:Es. injection E as -> <-.
      assert (s = d_layers (pr_dedup p)) as ->.
      { unfold store_Register in Es. destruct (IsZero id); [by injection Es |]. destruct (_ !! id); [by injection Es |].
        destruct (_ && _); by injection Es. }
      destruct Hp as [[? ? ?] ? ?]. by split; [split |..].
  - eexists; split; [done | apply H1].
  - eexists; split; [done | apply H2].
  - eexists; split; [done | apply H3].
  - destruct (processEvent_frame p e Hp) as (r & p' & -> & F). exists p'. split; [done | apply F].
  - destruct (Finalize_inv p id Hp) as (r & p' & -> & Hp'). by exists p'.
  - eexists. split; [done |]. destruct Hp as [[? ? ?] ? ?]. by split; [split |..].
Qed.

Definition config_of (opts : list (processorConfig W → processorConfig W)) : processorConfig W :=
  foldl (λ c opt, opt c) proc_defaultConfig opts.

(** The filter of the configuration fits in memory: its number of bits is at most 2^63. *)
Definition filter_fits (opts : list (processorConfig W → processorConfig W)) : Prop :=
  (bits_for (default_items (pc_bloomExpectedItems (config_of opts))) (default_rate (pc_bloomFPRate (config_of opts))) ≤ 2 ^ 63)%N.

Lemma NewProcessor_inv opts w p : filter_fits opts → NewProcessor opts w = Some p → run_inv p.
Proof.
  intros Hb. unfold NewProcessor. fold (config_of opts). destruct (NewHasher _) as [h|] eqn:Eh; [| done].
  intros [= <-]. split; [split | | done]; cbn.
  - exists []. by apply New_holds.
  - done.
  - intros l m q h' Hl. by rewrite lookup_empty in Hl.
  - split; [intros id c Hid; by rewrite lookup_empty in Hid | intros id [m Hm]; by rewrite lookup_empty in Hm].
Qed.

Lemma proc_run_inv ops p : run_inv p → ∃ p', proc_run ops p = Some p' ∧ run_inv p'.
Proof.
  intros Hp. unfold proc_run. induction ops as [|op ops IH] using rev_ind; [by exists p |].
  destruct IH as (p1 & E & Hp1). rewrite foldl_app. cbn [foldl]. rewrite E. cbn [mbind option_bind].
  by apply proc_do_inv.
Qed.

(** The states that runs reach *)
Definition proc_reachable p : Prop :=
  ∃ opts w p0 ops, filter_fits opts ∧ NewProcessor opts w = Some p0 ∧ proc_run ops p0 = Some p.

Lemma reachable_inv p : proc_reachable p → run_inv p.
Proof.
  intros (opts & w & p0 & ops & Hb & E0 & E). destruct (proc_run_inv ops p0) as (p' & E' & Hp'); [by eapply NewProcessor_inv |].
  rewrite E in E'. by injection E' as ->.
Qed.
End runs.


(** Runs never panic, and the chains they build are those of the parents.  Whatever the
    calls and events, one after the other, no step panics; the chain of a registered layer has no
    repetition and is its parent's chain with the layer on top; and a registration that succeeds
    changes no other chain. *)
Theorem chains_follow_parents {W : Type} (T : ThirdPartyHashes) (Sz : BloomSizing) (So : GoSort) (R : GoRange)
    (opts : list (processorConfig W → processorConfig W)) (w : W) (p0 : Processor W) (ops : list proc_op) :
  filter_fits opts → NewProcessor opts w = Some p0 →
  ∃ p, proc_run ops p0 = Some p ∧
    (∀ id m, d_layers (pr_dedup p) !! id = Some m → ∃ ls,
       proc_Chain id p = Some (NewChain (ls ++ [id])) ∧ NoDup (ls ++ [id]) ∧
       (if IsZero (mf_parentID m) then ls = [] else proc_Chain (mf_parentID m) p = Some (NewChain ls))) ∧
    (∀ id parentID p', RegisterLayer id parentID p = (Ok tt, p') → ∃ ls,
       proc_Chain id p' = Some (NewChain (ls ++ [id])) ∧
       (if IsZero parentID then ls = [] else proc_Chain parentID p = Some (NewChain ls)) ∧
       ∀ x, x ≠ id → proc_Chain x p' = proc_Chain x p).
Proof.
  intros Hb E0. destruct (proc_run_inv ops p0 (NewProcessor_inv _ _ _ Hb E0)) as (p & E & Hp). exists p. split; [done |]. split.
  - intros id m Hm. destruct (ck_all _ _ (ri_chains p Hp) id ltac:(by eexists)) as [c Hc].
    destruct (ck_chain _ _ (ri_chains p Hp) id c Hc) as (ls & m' & -> & Hnd & Hm' & _ & Hpar).
    rewrite Hm in Hm'. injection Hm' as <-. by exists ls.
  - intros id parentID p' Hr. destruct (RegisterLayer_ok id parentID p p' Hp Hr) as (ls & H1 & _ & H2 & H3 & _). by exists ls.
Qed.

(** [RegisterLayer] is not atomic.  When a child is registered between the two critical
    sections of its parent's registration, the store accepts it and its chain misses the parent
    and everything below, for good. *)
Theorem RegisterLayer_race {W : Type} (T : ThirdPartyHashes) (Sz : BloomSizing) (So : GoSort) (R : GoRange)
    (p p1 p2 : Processor W) (parentID id grand : FsLayerID) :
  proc_reachable p → Register_store parentID grand p = (Ok tt, p1) → RegisterLayer id parentID p1 = (Ok tt, p2) →
  let p3 := Register_chain parentID grand p2 in
  proc_Chain id p3 = Some (NewChain [id]) ∧ store_Parent id (d_layers (pr_dedup p3)) = Ok parentID.
Proof.
  intros Hp%reachable_inv E1 E2. unfold Register_store in E1. destruct (pr_closed p) eqn:Ecl; [done |].
  destruct (store_Register parentID grand _) as [r s] eqn:Es. injection E1 as -> <-.
  unfold store_Register in Es. destruct (IsZero parentID) eqn:Hzp; [done |].
  destruct (d_layers (pr_dedup p) !! parentID) as [m|] eqn:Em; [done |]. destruct (_ && _); [done |]. injection Es as <-.
  assert (pr_chains p !! parentID = None) as Hnc.
  { destruct (pr_chains p !! parentID) as [c|] eqn:Ec; [| done].
    destruct (ck_chain _ _ (ri_chains p Hp) _ _ Ec) as (? & m & _ & _ & Hm & _). congruence. }
  unfold RegisterLayer, Register_store in E2. cbn [with_dedup pr_closed pr_dedup with_layers d_layers] in E2. rewrite Ecl in E2.
  destruct (store_Register id parentID _) as [[u|er] s2] eqn:Es2; [| done]. injection E2 as <-.
  unfold store_Register in Es2. destruct (IsZero id); [done |].
  destruct (decide (id = parentID)) as [->|Hne]; [by rewrite lookup_insert_eq in Es2 |]. rewrite lookup_insert_ne in Es2 by done.
  destruct (d_layers (pr_dedup p) !! id) eqn:Eid; [done |]. destruct (_ && _); [done |]. injection Es2 as _ <-.
  unfold proc_Chain. cbn [Register_chain fire_hook with_world with_chains pr_chains with_dedup pr_dedup with_layers d_layers].
  rewrite Hzp. cbn [negb]. rewrite lookup_insert_ne, lookup_insert_eq, Hnc by done. split; [done |].
  unfold store_Parent, getManifest. by rewrite lookup_insert_eq.
Qed.

(** Events never mark a file as modified.  Handling an event, a write included, leaves the
    modified files of every layer as they were; so while the bottom layer's hash of the path is
    cached, no layer above is marked and the file is visible, the first event of the path in the
    session records that hash for the layer of the event, whatever its operation and its data. *)
Theorem write_event_reuses {W : Type} (T : ThirdPartyHashes) (Sz : BloomSizing) (So : GoSort) (R : GoRange)
    (p : Processor W) (e : FsAccessEvent) :
  proc_reachable p →
  ∃ r p', processEvent e p = Some (r, p') ∧
    (∀ l path, store_IsModified l path (d_layers (pr_dedup p')) = store_IsModified l path (d_layers (pr_dedup p))) ∧
    (∀ bottom upper h, plain_path (W := W) (fe_Path e) → proc_Chain (fe_LayerID e) p = Some (NewChain (bottom :: upper)) →
       NoDup (bottom :: upper) → (store_Get bottom (fe_Path e) (d_cache (pr_dedup p))).1 = Some h → fh_LayerID h = bottom →
       IsFileVisible (d_layers (pr_dedup p)) (NewChain (bottom :: upper)) (fe_Path e) = true →
       Forall (λ x, store_IsModified x (fe_Path e) (d_layers (pr_dedup p)) = false) upper →
       bloom_Test (fe_LayerID e) (fe_Path e) (d_filter (pr_dedup p)) = Some false →
       r = Ok tt ∧ d_tracker (pr_dedup p') = tracker_Record (fe_LayerID e) h (d_tracker (pr_dedup p))).
Proof.
  intros Hp%reachable_inv. destruct (processEvent_frame p e Hp) as (r & p' & E & F). exists r, p'. split; [done |].
  split; [apply F |]. intros bottom upper h Hpl Hc Hnd Hg Hh Hv Hmod Ht.
  destruct (processEvent_plain p e _ (ri_inv p Hp) Hpl Hc) as [w Ew]. rewrite Ew in E.
  pose proof (ef_inv _ _ (event_frame_world p w Hp)) as Hpw.
  destruct (process_modified_some (with_world p w) e (NewChain (bottom :: upper)) (ri_inv _ Hpw)) as (res & d & Ep & p1 & E1 & Ed & _).
  rewrite E1 in E. injection E as <- <-. split; [done |].
  change (pr_dedup (with_world p w)) with (pr_dedup p) in *.
  destruct (pi_filter p (ri_inv p Hp)) as [keys Hk]. unfold Process in Ep. cbn zeta in Ep.
  change (d_layers (count_received (pr_dedup p))) with (d_layers (pr_dedup p)) in Ep.
  change (d_filter (count_received (pr_dedup p))) with (d_filter (pr_dedup p)) in Ep. rewrite Hv in Ep. cbn [negb] in Ep.
  rewrite TestAndAdd_eq, Ht in Ep by apply Hk. destruct (Add_holds (fe_LayerID e) (fe_Path e) _ _ Hk) as (bf' & Ea & _).
  rewrite Ea in Ep. cbn [mbind option_bind c_layers NewChain cache_walk] in Ep.
  change (d_cache (with_filter (count_received (pr_dedup p)) bf')) with (d_cache (pr_dedup p)) in Ep.
  destruct (store_Get bottom (fe_Path e) _) as [[h'|] ss] eqn:Eg; [| done]. injection Hg as ->.
  assert (NeedsRehash (d_layers (pr_dedup p)) (NewChain (bottom :: upper)) (fe_Path e) (fh_LayerID h) = false) as Hre.
  { unfold NeedsRehash. rewrite Hh. change (bottom :: upper) with ([] ++ bottom :: upper) in *.
    rewrite Position_split, Above_split by done. by apply any_modified_false. }
  change (d_layers (with_cache (with_filter (count_received (pr_dedup p)) bf') ss)) with (d_layers (pr_dedup p)) in Ep.
  rewrite Hre in Ep. cbn [negb] in Ep. injection Ep as <- <-. by rewrite Ed.
Qed.

(** Within a session only the first event of a path counts.  After an event of a visible
    path, a further event of the same path and layer, with whatever data, leaves the recorded
    hashes and the cached ones as they are: the tree that [Finalize] builds has the hash of the
    first data. *)
Theorem session_keeps_first {W : Type} (T : ThirdPartyHashes) (Sz : BloomSizing) (So : GoSort) (R : GoRange)
    (p p1 : Processor W) (e e' : FsAccessEvent) (c : Chain) :
  proc_reachable p → plain_path (W := W) (fe_Path e) → proc_Chain (fe_LayerID e) p = Some c →
  IsFileVisible (d_layers (pr_dedup p)) c (fe_Path e) = true →
  fe_LayerID e' = fe_LayerID e → fe_Path e' = fe_Path e → processEvent e p = Some (Ok tt, p1) →
  ∃ p2, processEvent e' p1 = Some (Ok tt, p2) ∧ d_tracker (pr_dedup p2) = d_tracker (pr_dedup p1) ∧
    d_cache (pr_dedup p2) = d_cache (pr_dedup p1).
Proof.
  intros Hp%reachable_inv Hpl Hc Hv El Epath E.
  destruct (processEvent_plain p e c (ri_inv p Hp) Hpl Hc) as [w Ew]. rewrite Ew in E.
  pose proof (ef_inv _ _ (event_frame_world p w Hp)) as Hpw.
  destruct (process_modified_some (with_world p w) e c (ri_inv _ Hpw)) as (res & d & Ep & p1' & E1 & Ed & Ech & _).
  pose proof (process_modified_frame (with_world p w) e c Hpw) as (p1'' & E1' & F1). rewrite E1 in E1'. injection E1' as <-.
  rewrite E1 in E. injection E as <-. change (pr_dedup (with_world p w)) with (pr_dedup p) in *.
  destruct (Process_total e c _ (pi_filter p (ri_inv p Hp))) as (res' & d' & Ep' & _ & (keys & Hk & Hin) & _).
  rewrite Ep in Ep'. injection Ep' as <- <-. specialize (Hin Hv).
  assert (bloom_holds (d_filter (pr_dedup p1')) keys) as Hk1 by (rewrite Ed; by destruct (dr_Action res)).
  assert (proc_Chain (fe_LayerID e') p1' = Some c) as Hc' by (unfold proc_Chain in *; by rewrite Ech, El).
  destruct (processEvent_plain p1' e' c (ri_inv _ (ef_inv _ _ F1))) as [w' Ew']; [by rewrite Epath | done |]. rewrite Ew'.
  destruct (process_modified_some (with_world p1' w') e' c (ri_inv _ (ef_inv _ _ (event_frame_world p1' w' (ef_inv _ _ F1)))))
    as (res2 & d2 & Ep2 & p2 & E2 & Ed2 & _). rewrite E2. exists p2. split; [done |]. rewrite Ed2.
  change (pr_dedup (with_world p1' w')) with (pr_dedup p1') in Ep2.
  destruct (Process_seen e' c (pr_dedup p1') keys) as (r3 & d3 & E3 & Ha & Ht & Hcache); [done | by rewrite El, Epath |].
  rewrite Ep2 in E3. injection E3 as <- <-. by destruct Ha as [-> | ->].
Qed.

(** The tree of a layer.  When files are recorded, [Finalize] of an open processor succeeds;
    its root and the state it leaves are the same for every order of the map and every sort,
    events having been handled in any order; the root is consistent and has a leaf for each
    recorded file; and the session filter is empty again. *)
Theorem Finalize_spec {W : Type} (T : ThirdPartyHashes) (Sz : BloomSizing) (So : GoSort) (R : GoRange)
    (p : Processor W) (l : FsLayerID) :
  proc_reachable p → pr_closed p = false → tracker_Count l (d_tracker (pr_dedup p)) ≠ 0 →
  ∃ F root p', HashFn_of (pc_hashAlgorithm (pr_cfg p)) = Some F ∧
    (∀ (So' : GoSort) (R' : GoRange), Finalize (H0 := So') (H1 := R') l p = Some (Ok root, p')) ∧
    verifyNode (Hfn := F) root = Ok tt ∧ node_LeafCount root = tracker_Count l (d_tracker (pr_dedup p)) ∧
    bloom_holds (d_filter (pr_dedup p')) [].
Proof.
  intros Hp%reachable_inv Hcl Hn. unfold tracker_Count in *. destruct (d_tracker (pr_dedup p) !! l) as [m|] eqn:Em; [| done].
  destruct (Finalize_ok p l m Hp Hcl Em) as (F & root & p' & HF & Hv & Hc & Hb & _ & Hfin); [by intros -> |].
  by exists F, root, p'.
Qed.

(** Draining after [Close] loses whiteouts.  An event whose name is a whiteout deletes its
    target in an open processor; the same event handled after [closed] was set reports success
    and leaves the layer store as it was. *)
Theorem Close_drops_whiteouts {W : Type} (T : ThirdPartyHashes) (Sz : BloomSizing) (So : GoSort) (R : GoRange)
    (p : Processor W) (e : FsAccessEvent) (rooted : bool) (d : list string) (n : string) :
  proc_reachable p → is_Some (d_layers (pr_dedup p) !! fe_LayerID e) → Forall seg d → seg n → n ≠ ".wh..opq" →
  fe_Path e = dir_path rooted (d ++ [".wh." +:+ n]) →
  ∃ p', processEvent e p = Some (Ok tt, p') ∧
    (pr_closed p = false → store_IsDeleted (fe_LayerID e) (dir_path rooted (d ++ [n])) (d_layers (pr_dedup p')) = true) ∧
    (pr_closed p = true → d_layers (pr_dedup p') = d_layers (pr_dedup p)).
Proof.
  intros Hp%reachable_inv [m Hm] Hd Hn Hne Epath. destruct (processEvent_frame p e Hp) as (r & p' & E & F).
  destruct (ck_all _ _ (ri_chains p Hp) (fe_LayerID e) ltac:(by eexists)) as [c Hc].
  destruct (Parse_whiteout (NewParser (W := W) []) rooted d n (fe_LayerID e) eq_refl eq_refl Hd Hn Hne) as [Hk Ht].
  rewrite <- Epath in Hk, Ht. unfold processEvent, proc_Chain in E. rewrite Hc in E. unfold Interpret in E.
  rewrite (pi_interpreter p (ri_inv p Hp)), Hk, Ht, Parse_layer in E.
  cbn [process_mutations mu_Kind mu_LayerID mu_Path mbind option_bind] in E. injection E as <- <-.
  eexists. split; [unfold processEvent, proc_Chain; rewrite Hc; unfold Interpret;
    rewrite (pi_interpreter p (ri_inv p Hp)), Hk, Ht, Parse_layer; done |].
  split; [| apply F]. intros Hcl. cbn. unfold proc_MarkDeleted, to_store. cbn [pr_closed with_world]. rewrite Hcl.
  unfold store_MarkDeleted, with_manifest, getManifest. cbn [pr_dedup with_world]. rewrite Hm. cbn.
  unfold store_IsDeleted, in_manifest, getManifest. rewrite lookup_insert_eq. cbn. rewrite lookup_insert_eq.
  by apply bool_decide_eq_true_2.
Qed.

(** ** Witnesses *)

Definition sample_hashes : ThirdPartyHashes :=
  {| blake3_sum := sha256; xxh3_hash b := N.modulo (N.of_nat (length b)) (2 ^ 64); blake3_sum_length := sha256_length;
     xxh3_hash_bound b := N.mod_lt (N.of_nat (length b)) (2 ^ 64) ltac:(done) |}.

Definition sample_opts : list (processorConfig unit → processorConfig unit) :=
  [WithHashAlgorithm SHA256; WithCacheShards 1; WithBloomFilter 8 (1 # 1000)].

Definition sample_new : option (Processor unit) :=
  NewProcessor (H := sample_hashes) (H0 := sample_sizing) sample_opts tt.

Definition sample_run (ops : list proc_op) : option (Processor unit) :=
  p ← sample_new; proc_run (T := sample_hashes) ops p.

Lemma sample_fits : filter_fits (Sz := sample_sizing) sample_opts.
Proof. vm_compute. discriminate. Qed.

Lemma sample_reachable ops p :
  sample_run ops = Some p → proc_reachable (T := sample_hashes) (Sz := sample_sizing) p.
Proof.
  unfold sample_run. destruct sample_new as [p0|] eqn:E; [| done]. intros Hp. exists sample_opts, tt, p0, ops.
  split; [apply sample_fits | done].
Qed.

Lemma sample_new_some : is_Some sample_new.
Proof. eexists. reflexivity. Qed.

Lemma sample_run_some ops : is_Some (sample_run ops).
Proof.
  unfold sample_run. destruct sample_new as [p0|] eqn:E; [| by destruct sample_new_some; congruence].
  destruct (proc_run_inv (T := sample_hashes) ops p0) as (p & Ep & _); [by eapply NewProcessor_inv; [apply sample_fits |] | by exists p].
Qed.

(** A fact of the state of a run, by evaluation *)
Lemma sample_fact {A} (f : Processor unit → A) ops p (a : A) : sample_run ops = Some p → f <$> sample_run ops = Some a → f p = a.
Proof. intros ->. by intros [= ->]. Qed.

Definition sample_base : list proc_op := [PRegister "base" EmptyString; PRegister "top" "base"].
Definition sample_write (data : string) : FsAccessEvent := fs_event "top" "f" OpWrite (Some (str_bytes data)).

Definition sample_old : list proc_op := sample_base ++ [PEvent (fs_event "base" "f" OpRead (Some (str_bytes "old")))].
Definition sample_two : list proc_op := sample_base ++ [PEvent (sample_write "data"); PEvent (fs_event "top" "g" OpWrite None)].
Definition sample_closed : list proc_op := sample_base ++ [PClosed].

Lemma Submit_Close_panics_witness :
  ∃ p, sample_run sample_base = Some p ∧
  let s := {| sys_p := p; sys_clients := ∅; sys_closers := 0; sys_panicked := false |} in
  ∃ s', sys_run [ASubmit 7 true (sample_write "x"); ACloseSwap; ACloseChan; ASelect 7 None] s = Some s' ∧ sys_panicked s' = true.
Proof.
  destruct (sample_run_some sample_base) as [p E]. exists p. split; [done |].
  apply (Submit_Close_panics {| sys_p := p; sys_clients := ∅; sys_closers := 0; sys_panicked := false |}); [done | | | done | done].
  - apply (sample_fact (λ p, pr_closed p) _ _ _ E). vm_compute. reflexivity.
  - apply (sample_fact (λ p, pr_chanClosed p) _ _ _ E). vm_compute. reflexivity.
Defined.

Lemma chains_follow_parents_witness :
  ∃ p0 p, sample_new = Some p0 ∧ proc_run (T := sample_hashes) sample_base p0 = Some p ∧
    ∀ p', RegisterLayer "side" "base" p = (Ok tt, p') → ∃ ls, proc_Chain "side" p' = Some (NewChain (ls ++ ["side"])) ∧
      proc_Chain "base" p = Some (NewChain ls).
Proof.
  destruct sample_new_some as [p0 E]. exists p0.
  destruct (chains_follow_parents sample_hashes sample_sizing _ _ sample_opts tt p0 sample_base) as (p & Ep & _ & H);
    [apply sample_fits | exact E |].
  exists p. split; [done |]. split; [done |]. intros p' Hp'. destruct (H _ _ _ Hp') as (ls & H1 & H2 & _). by exists ls.
Defined.

Lemma RegisterLayer_race_witness :
  ∃ p p1 p2, sample_run [PRegister "base" EmptyString] = Some p ∧ Register_store "mid" "base" p = (Ok tt, p1) ∧
    RegisterLayer "top" "mid" p1 = (Ok tt, p2) ∧ proc_Chain "top" (Register_chain "mid" "base" p2) = Some (NewChain ["top"]).
Proof.
  destruct (sample_run_some [PRegister "base" EmptyString]) as [p E].
  destruct (Register_store "mid" "base" p) as [r1 p1] eqn:E1. destruct (RegisterLayer "top" "mid" p1) as [r2 p2] eqn:E2.
  assert (r1 = Ok tt) as ->.
  { change r1 with (r1, p1).1. rewrite <- E1. apply (sample_fact (λ p, (Register_store "mid" "base" p).1) _ _ _ E). vm_compute. reflexivity. }
  assert (r2 = Ok tt) as ->.
  { change r2 with (r2, p2).1. rewrite <- E2. change p1 with (@Ok unit tt, p1).2. rewrite <- E1.
    apply (sample_fact (λ p, (RegisterLayer "top" "mid" (Register_store "mid" "base" p).2).1) _ _ _ E). vm_compute. reflexivity. }
  exists p, p1, p2. do 3 (split; [done |]).
  apply (RegisterLayer_race sample_hashes sample_sizing _ _ p p1 p2 "mid" "top" "base"); [by eapply sample_reachable | done | done].
Defined.

(** The hash of [base] is reused for a write to [top]. *)
Lemma write_event_reuses_witness :
  ∃ p r p' h, sample_run sample_old = Some p ∧
    processEvent (sample_write "new") p = Some (r, p') ∧ fh_Hash h = sha256 (str_bytes "old") ∧
    d_tracker (pr_dedup p') = tracker_Record "top" h (d_tracker (pr_dedup p)).
Proof.
  destruct (sample_run_some sample_old) as [p E].
  set (h := {| fh_Path := "f"; fh_Hash := sha256 (str_bytes "old"); fh_Algorithm := SHA256; fh_LayerID := "base"; fh_Size := 3 |}).
  destruct (write_event_reuses sample_hashes sample_sizing _ _ p (sample_write "new")) as (r & p' & Ep & _ & H);
    [by eapply sample_reachable |].
  exists p, r, p', h. split; [done |]. split; [done |]. split; [done |]. apply (H "base" ["top"] h).
  - done.
  - apply (sample_fact (λ p, proc_Chain "top" p) _ _ _ E). vm_compute. reflexivity.
  - apply (bool_decide_eq_true_1 _). vm_compute. reflexivity.
  - apply (sample_fact (λ p, (store_Get "base" "f" (d_cache (pr_dedup p))).1) _ _ _ E). vm_compute. reflexivity.
  - done.
  - apply (sample_fact (λ p, IsFileVisible (d_layers (pr_dedup p)) (NewChain ["base"; "top"]) "f") _ _ _ E). vm_compute. reflexivity.
  - constructor; [| constructor].
    apply (sample_fact (λ p, store_IsModified "top" "f" (d_layers (pr_dedup p))) _ _ _ E). vm_compute. reflexivity.
  - apply (sample_fact (λ p, bloom_Test "top" "f" (d_filter (pr_dedup p))) _ _ _ E). vm_compute. reflexivity.
Defined.

Lemma session_keeps_first_witness :
  ∃ p p1 p2, sample_run sample_base = Some p ∧ processEvent (sample_write "one") p = Some (Ok tt, p1) ∧
    processEvent (sample_write "two") p1 = Some (Ok tt, p2) ∧ d_tracker (pr_dedup p2) = d_tracker (pr_dedup p1).
Proof.
  destruct (sample_run_some sample_base) as [p E].
  destruct (processEvent (sample_write "one") p) as [[r p1]|] eqn:E1; cycle 1.
  { exfalso. assert (is_Some (processEvent (sample_write "one") p)) as [? ?]; [| congruence].
    apply (bool_decide_eq_true_1 _). apply (sample_fact (λ p, bool_decide (is_Some (processEvent (sample_write "one") p))) _ _ _ E).
    vm_compute. reflexivity. }
  assert (r = Ok tt) as ->.
  { assert (fst <$> processEvent (sample_write "one") p = Some (Ok tt)) as Hr; [| by rewrite E1 in Hr; injection Hr].
    apply (sample_fact (λ p, fst <$> processEvent (sample_write "one") p) _ _ _ E). vm_compute. reflexivity. }
  destruct (session_keeps_first sample_hashes sample_sizing _ _ p p1 (sample_write "one") (sample_write "two") (NewChain ["base"; "top"]))
    as (p2 & E2 & H2 & _).
  - by eapply sample_reachable.
  - done.
  - apply (sample_fact (λ p, proc_Chain "top" p) _ _ _ E). vm_compute. reflexivity.
  - apply (sample_fact (λ p, IsFileVisible (d_layers (pr_dedup p)) (NewChain ["base"; "top"]) "f") _ _ _ E). vm_compute. reflexivity.
  - done.
  - done.
  - exact E1.
  - by exists p, p1, p2.
Defined.

Lemma Finalize_spec_witness :
  ∃ p root p', sample_run sample_two = Some p ∧
    Finalize (H := sample_hashes) "top" p = Some (Ok root, p') ∧ node_LeafCount root = 2.
Proof.
  destruct (sample_run_some sample_two) as [p E].
  assert (tracker_Count "top" (d_tracker (pr_dedup p)) = 2) as Hc.
  { apply (sample_fact (λ p, tracker_Count "top" (d_tracker (pr_dedup p))) _ _ _ E). vm_compute. reflexivity. }
  destruct (Finalize_spec sample_hashes sample_sizing _ _ p "top") as (F & root & p' & _ & H & _ & Hl & _).
  - by eapply sample_reachable.
  - apply (sample_fact (λ p, pr_closed p) _ _ _ E). vm_compute. reflexivity.
  - by rewrite Hc.
  - exists p, root, p'. split; [done |]. split; [apply H | by rewrite Hl].
Defined.

Lemma Close_drops_whiteouts_witness :
  ∃ p p', sample_run sample_closed = Some p ∧
    processEvent (fs_event "top" "usr/.wh.f" OpWrite None) p = Some (Ok tt, p') ∧
    d_layers (pr_dedup p') = d_layers (pr_dedup p).
Proof.
  destruct (sample_run_some sample_closed) as [p E].
  destruct (Close_drops_whiteouts sample_hashes sample_sizing _ _ p (fs_event "top" "usr/.wh.f" OpWrite None) false ["usr"] "f")
    as (p' & Ep & _ & H).
  - by eapply sample_reachable.
  - apply (bool_decide_eq_true_1 _).
    apply (sample_fact (λ p, bool_decide (is_Some (d_layers (pr_dedup p) !! "top"))) _ _ _ E). vm_compute. reflexivity.
  - repeat constructor; apply (bool_decide_eq_true_1 _); vm_compute; reflexivity.
  - apply (bool_decide_eq_true_1 _). vm_compute. reflexivity.
  - done.
  - done.
  - exists p, p'. split; [done |]. split; [done |]. apply H. apply (sample_fact pr_closed _ _ _ E). vm_compute. reflexivity.
Defined.
