(* ===== verification/DsTypes.v ===== *)
(** * DsTypes: entries, errors and handlers of the directory comparison

    Models [src/internal/dirsync/types.go], [errors.go], [helpers.go], [handler.go] and the
    counting and collecting handlers of [actions.go]. *)
From S2P Require Import Prelude GoStd.

(** ** [fs.FileMode] and [fs.FileInfo] *)

Section mode.
Local Open Scope N_scope.

Definition ModeDir : N := N.shiftl 1 31.
Definition ModeSymlink : N := N.shiftl 1 27.
Definition ModeDevice : N := N.shiftl 1 26.
Definition ModeNamedPipe : N := N.shiftl 1 25.
Definition ModeSocket : N := N.shiftl 1 24.
Definition ModeCharDevice : N := N.shiftl 1 21.
Definition ModeIrregular : N := N.shiftl 1 19.
Definition ModePerm : N := 511.
Definition ModeType : N :=
  foldl N.lor 0 [ModeDir; ModeSymlink; ModeNamedPipe; ModeSocket; ModeDevice; ModeCharDevice; ModeIrregular].

Definition mode_IsDir (m : N) : bool := negb (N.land m ModeDir =? 0).
Definition mode_IsRegular (m : N) : bool := N.land m ModeType =? 0.
Definition mode_Type (m : N) : N := N.land m ModeType.
Definition mode_Perm (m : N) : N := N.land m ModePerm.
Definition mode_IsSymlink (m : N) : bool := negb (N.land m ModeSymlink =? 0).
End mode.

(** What [Lstat] or [Stat] says of a file; [fi_Sys] is the device and the inode number, where
    the platform has them. *)
Record FileInfo := mkInfo {
  fi_Mode : N;
  fi_Size : Z;
  fi_ModTime : Z;
  fi_Sys : option (N * N);
}.

#[export] Instance FileInfo_eq_dec : EqDecision FileInfo.
Proof. solve_decision. Defined.

Definition fi_IsDir (i : FileInfo) : bool := mode_IsDir (fi_Mode i).

(** ** [types.go] *)

Inductive PathKind := PathKindUnknown | PathKindFile | PathKindDir | PathKindSymlink | PathKindOther.

#[export] Instance PathKind_eq_dec : EqDecision PathKind.
Proof. solve_decision. Defined.

Definition PathKind_String (k : PathKind) : string :=
  match k with
  | PathKindFile => "file"
  | PathKindDir => "dir"
  | PathKindSymlink => "symlink"
  | PathKindOther => "other"
  | PathKindUnknown => "unknown"
  end.

Definition PathKindOf (info : FileInfo) : PathKind :=
  let m := fi_Mode info in
  if mode_IsDir m then PathKindDir
  else if mode_IsRegular m then PathKindFile
  else if mode_IsSymlink m then PathKindSymlink
  else PathKindOther.

Record ExclusivePath := mkExclusive {
  ep_Path : string;
  ep_Kind : PathKind;
  ep_Info : option FileInfo;
  ep_Collapsed : bool;
}.

#[export] Instance ExclusivePath_eq_dec : EqDecision ExclusivePath.
Proof. solve_decision. Defined.

Record CommonPath := mkCommon {
  cp_Path : string;
  cp_Kind : PathKind;
  cp_LowerInfo : option FileInfo;
  cp_UpperInfo : option FileInfo;
  cp_HashEqual : option bool;
}.

#[export] Instance CommonPath_eq_dec : EqDecision CommonPath.
Proof. solve_decision. Defined.

Definition IsContentEqual (c : CommonPath) : bool * bool :=
  match cp_HashEqual c with None => (false, false) | Some b => (b, true) end.

Definition TypeMismatch (c : CommonPath) : bool :=
  match cp_LowerInfo c, cp_UpperInfo c with
  | Some l, Some u => negb (mode_Type (fi_Mode l) =? mode_Type (fi_Mode u))%N
  | _, _ => false
  end.

Definition hashEqualPtr (v : bool) : option bool := Some v.

(** [cp.HashEqual = v] *)
Definition set_HashEqual (v : option bool) (c : CommonPath) : CommonPath :=
  mkCommon (cp_Path c) (cp_Kind c) (cp_LowerInfo c) (cp_UpperInfo c) v.

(** ** [errors.go] and [helpers.go] *)

Definition ErrBatcherClosed : error := ESentinel "dirsync: batcher already closed".
Definition ErrRequiredPathMissing : error := ESentinel "dirsync: required path absent from lower directory".
Definition ErrPathTraversal : error := ESentinel "dirsync: path traversal attempt detected".

(** The structured errors; [errors.Is] sees through them what [Is] and [Unwrap] give. *)
Definition RequiredPathError (RelPath LowerRoot : string) : error :=
  EWrap ["dirsync: required path"; RelPath; LowerRoot] ErrRequiredPathMissing.

Definition OpError (Op Path : string) (e : error) : error := EWrap ["dirsync:"; Op; Path] e.

Definition wrapOp (op path : string) (e : option error) : option error := OpError op path <$> e.

Definition joinErrors (errs : list error) : option error :=
  if decide (errs = []) then None else errors_join errs.

Definition isContextErr (e : error) : bool :=
  errors_is e ctx_Canceled || errors_is e ctx_DeadlineExceeded.

(** ** [handler.go] *)

(** A handler changes a state of its own and returns an error or nil. *)
Definition ExclusiveHandler (S : Type) : Type := ExclusivePath → S → option error * S.
Definition CommonHandler (S : Type) : Type := CommonPath → S → option error * S.

Definition NoopExclusiveHandler {S} : ExclusiveHandler S := λ _ s, (None, s).
Definition NoopCommonHandler {S} : CommonHandler S := λ _ s, (None, s).

(** The loop of [ChainExclusiveHandler] and [ChainCommonHandler]. *)
Fixpoint chain_handle {P S} (c : list (P → S → option error * S)) (p : P) (s : S) : option error * S :=
  match c with
  | [] => (None, s)
  | h :: c' =>
      match h p s with
      | (Some e, s') => (Some e, s')
      | (None, s') => chain_handle c' p s'
      end
  end.

Definition ChainExclusiveHandler {S} (c : list (ExclusiveHandler S)) : ExclusiveHandler S := chain_handle c.
Definition ChainCommonHandler {S} (c : list (CommonHandler S)) : CommonHandler S := chain_handle c.

(** The loop of [MultiExclusiveHandler] and [MultiCommonHandler]. *)
Fixpoint multi_loop {P S} (m : list (P → S → option error * S)) (p : P) (errs : list error) (s : S) :
    list error * S :=
  match m with
  | [] => (errs, s)
  | h :: m' =>
      match h p s with
      | (Some e, s') => multi_loop m' p (errs ++ [e]) s'
      | (None, s') => multi_loop m' p errs s'
      end
  end.

Definition multi_handle {P S} (m : list (P → S → option error * S)) (p : P) (s : S) : option error * S :=
  let '(errs, s') := multi_loop m p [] s in (joinErrors errs, s').

Definition MultiExclusiveHandler {S} (m : list (ExclusiveHandler S)) : ExclusiveHandler S := multi_handle m.
Definition MultiCommonHandler {S} (m : list (CommonHandler S)) : CommonHandler S := multi_handle m.

Definition PredicateExclusiveHandler {S} (pred : ExclusivePath → bool) (h : ExclusiveHandler S) :
    ExclusiveHandler S :=
  λ p s, if pred p then h p s else (None, s).

Definition PredicateCommonHandler {S} (pred : CommonPath → bool) (h : CommonHandler S) : CommonHandler S :=
  λ p s, if pred p then h p s else (None, s).

Definition OnlyCollapsed (ep : ExclusivePath) : bool := ep_Collapsed ep.
Definition OnlyKind (k : PathKind) (ep : ExclusivePath) : bool := bool_decide (ep_Kind ep = k).
Definition OnlyChanged (cp : CommonPath) : bool :=
  let '(eq, checked) := IsContentEqual cp in checked && negb eq.
Definition OnlyUnchanged (cp : CommonPath) : bool :=
  let '(eq, checked) := IsContentEqual cp in checked && eq.
Definition OnlyTypeMismatched (cp : CommonPath) : bool := TypeMismatch cp.

(** ** The counting and collecting handlers of [actions.go] *)

Record CountingExclusiveHandler := mkExclusiveCounts {
  ec_Files : Z; ec_Dirs : Z; ec_Symlinks : Z; ec_Other : Z; ec_Collapsed : Z;
}.

Definition ec_zero : CountingExclusiveHandler := mkExclusiveCounts 0 0 0 0 0.

Definition ec_HandleExclusive : ExclusiveHandler CountingExclusiveHandler := λ ep c,
  let c :=
    match ep_Kind ep with
    | PathKindFile => mkExclusiveCounts (ec_Files c + 1) (ec_Dirs c) (ec_Symlinks c) (ec_Other c) (ec_Collapsed c)
    | PathKindDir => mkExclusiveCounts (ec_Files c) (ec_Dirs c + 1) (ec_Symlinks c) (ec_Other c) (ec_Collapsed c)
    | PathKindSymlink => mkExclusiveCounts (ec_Files c) (ec_Dirs c) (ec_Symlinks c + 1) (ec_Other c) (ec_Collapsed c)
    | _ => mkExclusiveCounts (ec_Files c) (ec_Dirs c) (ec_Symlinks c) (ec_Other c + 1) (ec_Collapsed c)
    end in
  (None,
   if ep_Collapsed ep
   then mkExclusiveCounts (ec_Files c) (ec_Dirs c) (ec_Symlinks c) (ec_Other c) (ec_Collapsed c + 1)
   else c).

Definition ec_Total (c : CountingExclusiveHandler) : Z :=
  ec_Files c + ec_Dirs c + ec_Symlinks c + ec_Other c.

Record CountingCommonHandler := mkCommonCounts {
  cc_Total : Z; cc_Equal : Z; cc_Changed : Z; cc_Unchecked : Z; cc_Mismatch : Z;
}.

Definition cc_zero : CountingCommonHandler := mkCommonCounts 0 0 0 0 0.

Definition cc_HandleCommon : CommonHandler CountingCommonHandler := λ cp c,
  let c := mkCommonCounts (cc_Total c + 1) (cc_Equal c) (cc_Changed c) (cc_Unchecked c) (cc_Mismatch c) in
  if TypeMismatch cp
  then (None, mkCommonCounts (cc_Total c) (cc_Equal c) (cc_Changed c) (cc_Unchecked c) (cc_Mismatch c + 1))
  else
    let '(eq, checked) := IsContentEqual cp in
    (None,
     if negb checked
     then mkCommonCounts (cc_Total c) (cc_Equal c) (cc_Changed c) (cc_Unchecked c + 1) (cc_Mismatch c)
     else if eq
     then mkCommonCounts (cc_Total c) (cc_Equal c + 1) (cc_Changed c) (cc_Unchecked c) (cc_Mismatch c)
     else mkCommonCounts (cc_Total c) (cc_Equal c) (cc_Changed c + 1) (cc_Unchecked c) (cc_Mismatch c)).

(** [CollectingExclusiveHandler] and [CollectingCommonHandler] *)
Definition collect {P} (p : P) (paths : list P) : option error * list P := (None, paths ++ [p]).

(** A handler on each entry of a stream, keeping the errors. *)
Fixpoint handle_all {P S} (h : P → S → option error * S) (l : list P) (s : S) : list error * S :=
  match l with
  | [] => ([], s)
  | p :: l' =>
      let '(e, s) := h p s in
      let '(es, s) := handle_all h l' s in
      (option_list e ++ es, s)
  end.

(** ** Lemmas *)

Lemma PathKindOf_dir i : PathKindOf i = PathKindDir ↔ fi_IsDir i = true.
Proof. unfold PathKindOf, fi_IsDir. go_crush. Qed.

Lemma mode_kinds m : mode_IsDir m = true → mode_IsRegular m = false.
Proof.
  unfold mode_IsDir, mode_IsRegular. rewrite negb_true_iff, !N.eqb_neq. intros Hd Ht. apply Hd.
  assert (N.land ModeType ModeDir = ModeDir) as <- by done.
  by rewrite N.land_assoc, Ht.
Qed.

(** Entries of one type have one kind, so a mismatch is a difference of types the kinds show
    for directories, files and links. *)
Lemma TypeMismatch_dir p k l u h :
  fi_IsDir l ≠ fi_IsDir u → TypeMismatch (mkCommon p k (Some l) (Some u) h) = true.
Proof.
  unfold TypeMismatch, fi_IsDir, mode_IsDir, mode_Type. simpl. intros H.
  destruct (N.eqb_spec (N.land (fi_Mode l) ModeType) (N.land (fi_Mode u) ModeType)) as [E|]; [| done].
  exfalso. apply H. assert (N.land ModeType ModeDir = ModeDir) as <- by done.
  by rewrite !N.land_assoc, E.
Qed.

(** A chain returns the first error and runs no handler after it. *)
Lemma chain_handler_spec {P S} (c1 c2 : list (P → S → option error * S)) p s s' :
  chain_handle c1 p s = (None, s') → chain_handle (c1 ++ c2) p s = chain_handle c2 p s'.
Proof.
  revert s. induction c1 as [|h c1 IH]; intros s; simpl; [congruence |].
  destruct (h p s) as [[e|] s1]; [done |]. apply IH.
Qed.

Lemma chain_stops {P S} (c1 c2 : list (P → S → option error * S)) p s s' e :
  chain_handle c1 p s = (Some e, s') → chain_handle (c1 ++ c2) p s = (Some e, s').
Proof.
  revert s. induction c1 as [|h c1 IH]; intros s; simpl; [done |].
  destruct (h p s) as [[e1|] s1]; [done |]. apply IH.
Qed.

Lemma multi_loop_errs {P S} (m : list (P → S → option error * S)) p errs s :
  multi_loop m p errs s = (errs ++ (multi_loop m p [] s).1, (multi_loop m p [] s).2).
Proof.
  revert errs s. induction m as [|h m IH]; intros errs s; simpl; [by rewrite app_nil_r |].
  destruct (h p s) as [[e|] s']; [| apply IH].
  rewrite (IH (errs ++ [e])), (IH ([] ++ [e])). simpl. by rewrite <- app_assoc.
Qed.

(** A fan-out runs every handler, whatever the earlier ones return. *)
Lemma multi_runs_all {P S} (m : list (P → S → option error * S)) p s :
  (multi_handle m p s).2 = foldl (λ s h, (h p s).2) s m.
Proof.
  unfold multi_handle. destruct (multi_loop m p [] s) as [errs s'] eqn:E. simpl.
  apply (f_equal snd) in E. simpl in E. rewrite <- E. clear E errs s'. revert s.
  induction m as [|h m IH]; intros s; simpl; [done |].
  destruct (h p s) as [[e|] s']; simpl; [by rewrite multi_loop_errs, <- IH | apply IH].
Qed.

(** The counters: every path is counted under one kind, every comparison under one outcome. *)
Lemma ec_counts l c :
  ec_Total (handle_all ec_HandleExclusive l c).2 = (ec_Total c + Z.of_nat (length l))%Z.
Proof.
  revert c. induction l as [|ep l IH]; intros c; simpl; [lia |].
  destruct (handle_all _ _ _) as [es s] eqn:E. apply (f_equal snd) in E. simpl in *. rewrite <- E, IH.
  unfold ec_Total. destruct (ep_Kind ep), (ep_Collapsed ep); simpl; lia.
Qed.

Definition cc_sum (c : CountingCommonHandler) : Z :=
  cc_Equal c + cc_Changed c + cc_Unchecked c + cc_Mismatch c.

Lemma cc_counts l c :
  cc_sum c = cc_Total c →
  let c' := (handle_all cc_HandleCommon l c).2 in
  cc_sum c' = cc_Total c' ∧ cc_Total c' = (cc_Total c + Z.of_nat (length l))%Z.
Proof.
  revert c. induction l as [|cp l IH]; intros c Hc; simpl; [lia |].
  assert ((cc_HandleCommon cp c).1 = None ∧ cc_sum (cc_HandleCommon cp c).2 = cc_Total (cc_HandleCommon cp c).2
          ∧ cc_Total (cc_HandleCommon cp c).2 = (cc_Total c + 1)%Z) as (_ & H1 & H2).
  { unfold cc_HandleCommon, cc_sum in *. destruct (TypeMismatch cp), (IsContentEqual cp) as [[] []]; simpl in *; split_and!; (done || lia). }
  destruct (cc_HandleCommon cp c) as [e c1]. simpl in *. specialize (IH c1 H1).
  destruct (handle_all _ l c1) as [es s]. simpl in *. lia.
Qed.
