(* ===== verification/DsPrune.v ===== *)
(** * DsPrune: path hierarchy and the pruning set

    Models [src/internal/dirsync/pruning_set.go] and the accumulating handler of [actions.go].
    The set is used under a mutex, so its operations by several goroutines happen in some order;
    the theorems are about every order. *)
From S2P Require Import Prelude GoStd GoPath DsTypes.

(** ** Paths *)

Definition isPathUnder (child parent : string) : bool :=
  bool_decide (child = parent) || has_prefix child (parent +:+ "/").

Lemma under_spec c p : isPathUnder c p = true ↔ c = p ∨ ∃ t, c = p +:+ "/" +:+ t.
Proof.
  unfold isPathUnder. rewrite orb_true_iff, bool_decide_eq_true. split; intros [->|H]; auto.
  - apply has_prefix_inv in H as [t ->]. right. exists t. by rewrite str_app_assoc.
  - right. destruct H as [t ->]. rewrite <- str_app_assoc. apply has_prefix_app.
Qed.

Lemma under_refl p : isPathUnder p p = true.
Proof. apply under_spec. by left. Qed.

Lemma under_trans a b c : isPathUnder a b = true → isPathUnder b c = true → isPathUnder a c = true.
Proof.
  rewrite !under_spec. intros [->|[t ->]] [->|[t' ->]]; eauto.
  right. exists (t' +:+ "/" +:+ t). by rewrite !str_app_assoc.
Qed.

Lemma under_length a b : isPathUnder a b = true → a = b ∨ String.length b < String.length a.
Proof.
  rewrite under_spec. intros [->|[t ->]]; [by left | right].
  rewrite !str_length_app. simpl. lia.
Qed.

Lemma under_antisym a b : isPathUnder a b = true → isPathUnder b a = true → a = b.
Proof. intros [H1|H1]%under_length [H2|H2]%under_length; [done.. | lia]. Qed.

Lemma str_app_split (a b s t : string) :
  a +:+ s = b +:+ t → (∃ r, b = a +:+ r ∧ s = r +:+ t) ∨ (∃ r, a = b +:+ r ∧ t = r +:+ s).
Proof.
  revert b. induction a as [|x a IH]; intros b E; [left; by exists b |].
  destruct b as [|y b]; [right; by exists (String x a) |].
  change (String x (a +:+ s) = String y (b +:+ t)) in E. injection E as <- E.
  destruct (IH b E) as [(r & -> & ->)|(r & -> & ->)]; [left | right]; by exists r.
Qed.

(** Two ancestors of one path are comparable. *)
Lemma under_comparable p a b :
  isPathUnder p a = true → isPathUnder p b = true → isPathUnder a b = true ∨ isPathUnder b a = true.
Proof.
  assert (∀ a b s t, p = a +:+ s → p = b +:+ t → (s = EmptyString ∨ ∃ s', s = String go_slash s') →
          (∃ r, b = a +:+ r ∧ s = r +:+ t) → isPathUnder b a = true) as Hr.
  { clear a b. intros a b s t _ _ Hs (r & -> & E). apply under_spec.
    destruct r as [|x r]; [left; by rewrite str_app_nil_r |]. right.
    destruct Hs as [->|[s' ->]]; [done |]. change (String go_slash s' = String x (r +:+ t)) in E.
    injection E as <- _. by exists r. }
  assert (∀ a, isPathUnder p a = true → ∃ s, p = a +:+ s ∧ (s = EmptyString ∨ ∃ s', s = String go_slash s')) as Hs.
  { intros x [->|[t ->]]%under_spec; [exists EmptyString; rewrite str_app_nil_r; auto | eauto]. }
  intros (s & Ea & Hsa)%Hs (t & Eb & Hsb)%Hs. pose proof Ea as E. rewrite Eb in E. symmetry in E.
  destruct (str_app_split _ _ _ _ E) as [H|H]; [right; by eapply Hr | left; by eapply Hr].
Qed.

(** For clean relative paths, being under is being an extension of the list of segments. *)
Lemma under_rel p q :
  p ≠ [] → q ≠ [] → Forall seg p → Forall seg q → isPathUnder (rel_path p) (rel_path q) = true ↔ q `prefix_of` p.
Proof.
  intros Hp Hq Sp Sq.
  assert (∀ l, Forall seg l → Forall (λ x, ¬ char_in go_slash x) l) as Hs
    by (intros l Hl; eapply Forall_impl; [exact Hl | intros x Hx; apply Hx]).
  assert (∀ l, l ≠ [] → Forall seg l → str_split go_slash (rel_path l) = l) as Hsp
    by (intros l Hl Sl; apply str_split_join; auto).
  rewrite under_spec. split.
  - intros [E|[t E]].
    + apply (f_equal (str_split go_slash)) in E. rewrite !Hsp in E by done. by rewrite E.
    + apply (f_equal (str_split go_slash)) in E. rewrite Hsp in E by done.
      change (rel_path q +:+ "/" +:+ t) with (rel_path q +:+ String go_slash t) in E.
      rewrite str_split_cat, Hsp in E by done. rewrite E. by apply prefix_app_r.
  - intros [k ->]. destruct k as [|x k]; [left; by rewrite app_nil_r | right].
    exists (rel_path (x :: k)). clear Hp Sp. revert Hq. clear.
    induction q as [|y q IH]; intros Hq; [done |]. destruct q as [|z q]; [done |].
    simpl app. unfold rel_path in *. rewrite !(str_join_cons "/" y) by done.
    change (z :: q ++ x :: k) with ((z :: q) ++ x :: k). rewrite IH by done. by rewrite !str_app_assoc.
Qed.

(** ** [PruningSet] *)

Definition PruningSet : Type := list ExclusivePath.

Definition covers (p : string) (e : ExclusivePath) : bool := ep_Collapsed e && isPathUnder p (ep_Path e).

Definition Covered (path : string) (ps : PruningSet) : bool := existsb (covers path) ps.

Definition Add (ep : ExclusivePath) (ps : PruningSet) : bool * PruningSet :=
  if existsb (covers (ep_Path ep)) ps then (false, ps)
  else if ep_Collapsed ep
  then (true, filter (λ existing, isPathUnder (ep_Path existing) (ep_Path ep) = false) ps ++ [ep])
  else (true, ps ++ [ep]).

Definition Len (ps : PruningSet) : nat := length ps.
Definition Entries (ps : PruningSet) : list ExclusivePath := ps.

(** [Drain] and [ForEach] hand a snapshot to a callback with a state of its own. *)
Definition ForEach {S} (fn : ExclusivePath → S → S) (ps : PruningSet) (s : S) : S :=
  foldl (λ s ep, fn ep s) s (Entries ps).

Definition Drain {S} (fn : ExclusivePath → S → S) (ps : PruningSet) (s : S) : PruningSet * S :=
  ([], foldl (λ s ep, fn ep s) s ps).

Definition ps_Reset (ps : PruningSet) : PruningSet := [].

(** [AccumulatingExclusiveHandler] *)
Definition AccumulatingExclusiveHandler : ExclusiveHandler PruningSet := λ ep ps, (None, (Add ep ps).2).

Definition add_all (adds : list ExclusivePath) : PruningSet := foldl (λ ps ep, (Add ep ps).2) [] adds.

(** ** The invariant and the specification *)

(** No entry is covered by another one: a [RemoveAll] or a [Remove] for each entry does no work
    twice. *)
Definition apart (x y : ExclusivePath) : Prop :=
  covers (ep_Path y) x = false ∧ covers (ep_Path x) y = false.

Definition not_overlapping (ps : PruningSet) : Prop := StronglySorted apart ps.

(** What removing an entry removes. *)
Definition removes (p : string) (e : ExclusivePath) : bool :=
  if ep_Collapsed e then isPathUnder p (ep_Path e) else bool_decide (p = ep_Path e).

(** The entries that no other entry of the list covers. *)
Definition uncovered (l : list ExclusivePath) (e : ExclusivePath) : Prop :=
  ∀ c, c ∈ l → c ≠ e → covers (ep_Path e) c = false.

#[export] Instance uncovered_dec l e : Decision (uncovered l e).
Proof.
  refine (cast_if (decide (Forall (λ c, c ≠ e → covers (ep_Path e) c = false) l)));
    unfold uncovered; by rewrite <- Forall_forall.
Defined.

Lemma existsb_exists_elem {A} (f : A → bool) l : existsb f l = true ↔ ∃ x, x ∈ l ∧ f x = true.
Proof. rewrite existsb_exists. by setoid_rewrite list_elem_of_In. Qed.

Lemma existsb_false {A} (f : A → bool) l : existsb f l = false ↔ ∀ x, x ∈ l → f x = false.
Proof.
  rewrite <- not_true_iff_false, existsb_exists_elem. split.
  - intros H x Hx. apply not_true_iff_false. intros Hf. eauto.
  - intros H (x & Hx & Hf). by rewrite H in Hf.
Qed.

Lemma covers_under a b e : isPathUnder a b = true → covers b e = true → covers a e = true.
Proof. unfold covers. rewrite !andb_true_iff. intros H [? ?]. split; [done |]. by eapply under_trans. Qed.

Lemma elem_of_Add ep ps x :
  x ∈ (Add ep ps).2 ↔
  if Covered (ep_Path ep) ps then x ∈ ps
  else x = ep ∨ (x ∈ ps ∧ (ep_Collapsed ep = true → isPathUnder (ep_Path x) (ep_Path ep) = false)).
Proof.
  unfold Add, Covered. destruct (existsb _ ps); [done |].
  destruct (ep_Collapsed ep); simpl; rewrite elem_of_app, list_elem_of_singleton, ?list_elem_of_filter; naive_solver.
Qed.

Lemma Covered_spec p ps : Covered p ps = true ↔ ∃ e, e ∈ ps ∧ covers p e = true.
Proof. apply existsb_exists_elem. Qed.

(** An addition adds the paths it covers, accepted or not. *)
Lemma Covered_Add ep ps p :
  Covered p (Add ep ps).2 = true ↔ Covered p ps = true ∨ covers p ep = true.
Proof.
  rewrite !Covered_spec. setoid_rewrite elem_of_Add. destruct (Covered (ep_Path ep) ps) eqn:Hc.
  - split; [by left |]. intros [H|H]; [done |]. apply Covered_spec in Hc as (c & Hc & Hcc).
    exists c. split; [done |]. unfold covers in *. rewrite andb_true_iff in *.
    destruct H, Hcc. split; [done |]. by eapply under_trans.
  - split; [naive_solver |]. intros [(e & He & Hp)|Hp]; [| eauto].
    destruct (ep_Collapsed ep) eqn:Ec, (isPathUnder (ep_Path e) (ep_Path ep)) eqn:Eu; try solve [exists e; naive_solver].
    exists ep. split; [by left |]. unfold covers in *. rewrite Ec. rewrite andb_true_iff in Hp.
    destruct Hp. simpl. by eapply under_trans.
Qed.

Lemma add_all_snoc l e : add_all (l ++ [e]) = (Add e (add_all l)).2.
Proof. unfold add_all. by rewrite foldl_app. Qed.

Lemma Covered_add_all l p : Covered p (add_all l) = true ↔ ∃ e, e ∈ l ∧ covers p e = true.
Proof.
  induction l as [|e l IH] using rev_ind; [split; [done | set_solver] |].
  rewrite add_all_snoc, Covered_Add, IH. set_solver.
Qed.

Lemma add_all_subset l e : e ∈ add_all l → e ∈ l.
Proof.
  induction l as [|x l IH] using rev_ind; [done |].
  rewrite add_all_snoc, elem_of_Add, elem_of_app, list_elem_of_singleton.
  destruct (Covered _ _); naive_solver.
Qed.

Lemma StronglySorted_filter {A} (R : relation A) (P : A → Prop) `{∀ x, Decision (P x)} l :
  StronglySorted R l → StronglySorted R (filter P l).
Proof.
  induction 1 as [|x l Hl IH Hx]; [constructor |]. rewrite filter_cons. case_decide; [| done].
  constructor; [done |]. apply Forall_forall. intros y [_ Hy]%list_elem_of_filter.
  by eapply Forall_forall in Hx.
Qed.

(** Additions keep the entries apart, whatever is added and however often. *)
Lemma not_overlapping_Add ep ps : not_overlapping ps → not_overlapping (Add ep ps).2.
Proof.
  intros H. unfold Add. destruct (existsb _ ps) eqn:Hc; [done |]. rewrite existsb_false in Hc.
  assert (∀ ps', not_overlapping ps' → (∀ x, x ∈ ps' → x ∈ ps ∧ covers (ep_Path x) ep = false) →
          not_overlapping (ps' ++ [ep])) as Hsnoc.
  { intros ps' H' Hps. apply StronglySorted_app. split_and!; [| done | repeat constructor].
    intros x y Hx ->%list_elem_of_singleton. apply Hps in Hx as [Hx He]. by split; [apply Hc |]. }
  destruct (ep_Collapsed ep) eqn:Ec; simpl; apply Hsnoc; try done.
  - by apply StronglySorted_filter.
  - intros x [Hu Hx]%list_elem_of_filter. unfold covers. by rewrite Ec, Hu.
  - intros x Hx. unfold covers. by rewrite Ec.
Qed.

Lemma not_overlapping_add_all l : not_overlapping (add_all l).
Proof.
  induction l as [|e l IH] using rev_ind; [constructor |].
  rewrite add_all_snoc. by apply not_overlapping_Add.
Qed.

(** The entries kept are those no other addition covers, in the order they came. *)
Lemma add_all_uncovered l : NoDup (ep_Path <$> l) → add_all l = filter (uncovered l) l.
Proof.
  induction l as [|e l IH] using rev_ind; [done |].
  rewrite fmap_app, NoDup_app. intros (Hl & He & _).
  assert (∀ x, x ∈ l → ep_Path x ≠ ep_Path e) as Hne.
  { intros x Hx E. apply (He (ep_Path x)); [by apply list_elem_of_fmap_2 |]. rewrite E. by left. }
  specialize (IH Hl). rewrite add_all_snoc, filter_app, filter_cons, filter_nil.
  destruct (Covered (ep_Path e) (add_all l)) eqn:Hc.
  - unfold Add. unfold Covered in Hc. rewrite Hc. simpl.
    apply Covered_add_all in Hc as (c & Hcl & Hcc).
    rewrite decide_False, app_nil_r.
    + rewrite IH. apply filter_ext_in. intros x Hx. split; [| intros H c' Hc'; apply H; set_solver].
      intros H c' [Hc'| ->%list_elem_of_singleton]%elem_of_app Hcx; [by apply H |].
      apply not_true_iff_false. intros Hu.
      assert (covers (ep_Path x) c = true) as Hxc.
      { eapply covers_under, Hcc. unfold covers in Hu. apply andb_true_iff in Hu. tauto. }
      destruct (decide (c = x)) as [->|Hcn]; [| by rewrite (H c) in Hxc].
      apply (Hne x Hx). unfold covers in Hu, Hcc. rewrite andb_true_iff in Hu, Hcc.
      by apply under_antisym; [apply Hu | apply Hcc].
    + intros H. assert (c ≠ e) as Hce by (intros ->; by apply (Hne e Hcl)).
      by rewrite (H c ltac:(set_solver) Hce) in Hcc.
  - assert (∀ c, c ∈ l → covers (ep_Path e) c = false) as Hn.
    { intros c Hcl. apply not_true_iff_false. intros Hcc. apply not_true_iff_false in Hc. apply Hc.
      apply Covered_add_all. eauto. }
    assert (uncovered (l ++ [e]) e) as Hue by (intros c [Hcl| ->%list_elem_of_singleton]%elem_of_app; [by intros; apply Hn | done]).
    rewrite (decide_True _ _ Hue).
    unfold Add. unfold Covered in Hc. rewrite Hc. rewrite IH.
    destruct (ep_Collapsed e) eqn:Ec; simpl; apply (f_equal (λ k, k ++ [e])).
    + unfold PruningSet. rewrite list_filter_filter. apply filter_ext_in. intros x Hx. split.
      * intros [Hu Hun] c [Hcl| ->%list_elem_of_singleton]%elem_of_app Hcx; [by apply Hun |].
        unfold covers. by rewrite Hu, andb_false_r.
      * intros H. split; [| intros c Hcl; apply H; set_solver].
        specialize (H e ltac:(set_solver)). unfold covers in H. rewrite Ec in H. apply H.
        intros <-. by apply (Hne e Hx).
    + apply filter_ext_in. intros x Hx. split; [| intros H c Hcl; apply H; set_solver].
      intros H c [Hcl| ->%list_elem_of_singleton]%elem_of_app Hcx; [by apply H |]. unfold covers. by rewrite Ec.
Qed.

Lemma removes_under p e : removes p e = true → isPathUnder p (ep_Path e) = true.
Proof. unfold removes. destruct (ep_Collapsed e); [done |]. rewrite bool_decide_eq_true. intros ->. apply under_refl. Qed.

Lemma removes_Add ep ps p :
  existsb (removes p) (Add ep ps).2 = true ↔ existsb (removes p) ps = true ∨ removes p ep = true.
Proof.
  rewrite !existsb_exists_elem. setoid_rewrite elem_of_Add. destruct (Covered (ep_Path ep) ps) eqn:Hc.
  - split; [by left |]. intros [H|H]; [done |]. apply Covered_spec in Hc as (c & Hc & Hcc).
    exists c. split; [done |]. apply removes_under in H. unfold covers, removes in *.
    rewrite andb_true_iff in Hcc. destruct Hcc as [-> Hcc]. by eapply under_trans.
  - split; [naive_solver |]. intros [(e & He & Hp)|Hp]; [| eauto].
    destruct (ep_Collapsed ep) eqn:Ec; [| exists e; naive_solver].
    destruct (isPathUnder (ep_Path e) (ep_Path ep)) eqn:Eu; [| exists e; naive_solver].
    exists ep. split; [by left |]. apply removes_under in Hp. unfold removes. rewrite Ec. by eapply under_trans.
Qed.

Lemma removes_add_all l p : existsb (removes p) (add_all l) = true ↔ existsb (removes p) l = true.
Proof.
  induction l as [|e l IH] using rev_ind; [done |].
  rewrite add_all_snoc, removes_Add, IH, existsb_app, orb_true_iff. simpl. by rewrite orb_false_r.
Qed.

(** ** Property *)

(** A callback that collects the paths it is handed. *)
Definition hand_over (ep : ExclusivePath) (l : list ExclusivePath) : list ExclusivePath := l ++ [ep].

Lemma foldl_hand_over l acc : foldl (λ s ep, hand_over ep s) acc l = acc ++ l.
Proof.
  revert acc. induction l as [|x l IH]; intros acc; simpl; [by rewrite app_nil_r |].
  rewrite IH. unfold hand_over. by rewrite <- app_assoc.
Qed.

Lemma Add_refused ep ps : (Add ep ps).1 = false → (Add ep ps).2 = ps.
Proof. unfold Add. destruct (existsb _ _); [done |]. by destruct (ep_Collapsed ep). Qed.

(** C25: Whatever exclusive paths are added, by however many goroutines and in whatever order,
    the entries of a [PruningSet] do not overlap, [Covered] tells the paths below an added
    directory, and removing its entries removes what removing every added path would remove.
    [Add] reports true exactly for a path that no directory added before it covers, and leaves
    the set as it is otherwise.  [ForEach] and [Drain] hand the entries over in order, [Drain]
    leaves an empty set, and [Len] counts them.  When no path is added twice the set is the list
    of added entries that no other one covers, which does not depend on the order. *)
Theorem pruning_set_spec (adds : list ExclusivePath) :
  not_overlapping (add_all adds)
  ∧ (∀ p, Covered p (add_all adds) = existsb (covers p) adds)
  ∧ (∀ p, existsb (removes p) (add_all adds) = existsb (removes p) adds)
  ∧ (∀ ep, (Add ep (add_all adds)).1 = negb (existsb (covers (ep_Path ep)) adds)
     ∧ ((Add ep (add_all adds)).1 = false → add_all (adds ++ [ep]) = add_all adds))
  ∧ (ForEach hand_over (add_all adds) [] = Entries (add_all adds)
     ∧ Drain hand_over (add_all adds) [] = (ps_Reset (add_all adds), Entries (add_all adds))
     ∧ Entries (ps_Reset (add_all adds)) = [] ∧ Len (add_all adds) = length (Entries (add_all adds)))
  ∧ (NoDup (ep_Path <$> adds) →
     add_all adds = filter (uncovered adds) adds
     ∧ ∀ adds', adds' ≡ₚ adds → add_all adds' ≡ₚ add_all adds).
Proof.
  assert (∀ p, Covered p (add_all adds) = existsb (covers p) adds) as Hc.
  { intros p. apply eq_bool_prop_intro. rewrite !Is_true_true, Covered_add_all. symmetry. apply existsb_exists_elem. }
  split_and!.
  - apply not_overlapping_add_all.
  - done.
  - intros p. apply eq_bool_prop_intro. rewrite !Is_true_true. apply removes_add_all.
  - intros ep. rewrite <- Hc. split.
    + unfold Add, Covered. destruct (existsb _ _); [done |]. by destruct (ep_Collapsed ep).
    + rewrite add_all_snoc. apply Add_refused.
  - apply foldl_hand_over.
  - unfold Drain. by rewrite foldl_hand_over.
  - done.
  - done.
  - intros Hnd. split; [by apply add_all_uncovered |]. intros adds' Hp.
    rewrite !add_all_uncovered by (done || by rewrite Hp).
    assert (∀ x, uncovered adds' x ↔ uncovered adds x) as Hu by (intros x; unfold uncovered; by setoid_rewrite Hp).
    rewrite (filter_ext_in _ _ adds' (λ x _, Hu x)). by rewrite Hp.
Qed.

Definition sample_adds : list ExclusivePath :=
  [mkExclusive "a/b" PathKindFile None false; mkExclusive "a" PathKindDir None true;
   mkExclusive "a/c" PathKindDir None true; mkExclusive "ab" PathKindFile None false].

Lemma pruning_set_spec_witness :
  NoDup (ep_Path <$> sample_adds) ∧
  add_all sample_adds
  = [mkExclusive "a" PathKindDir None true; mkExclusive "ab" PathKindFile None false]
  ∧ add_all sample_adds = filter (uncovered sample_adds) sample_adds.
Proof.
  assert (NoDup (ep_Path <$> sample_adds)) as H by (apply (bool_decide_unpack _); vm_compute; exact I).
  split; [exact H |]. split; [vm_compute; reflexivity |].
  destruct (pruning_set_spec sample_adds) as (_ & _ & _ & _ & _ & Hs). apply (Hs H).
Defined.
