(* ===== verification/DsFilter.v ===== *)
(** * DsFilter: which paths take part in a comparison

    Models [src/internal/dirsync/filter.go] and [buildFilter] of [classifier.go].  The pattern
    matcher is third-party code: what [patternmatcher.New] and [MatchesOrParentMatches] answer
    are parameters. *)
From S2P Require Import Prelude GoStd GoPath DsTypes DsPrune.

Record Filter := {
  Include : string → bool → bool;
  RequiredPaths : list string;
}.

Definition NoopFilter : Filter := {| Include _ _ := true; RequiredPaths := [] |}.

Section pattern.
Context {M : Type} (pm_New : list string → result M) (pm_Matches : M → string → result bool).

Record PatternFilter := mkPatternFilter {
  pf_includePatterns : list string;
  pf_excludePatterns : list string;
  pf_requiredPaths : list string;
  pf_includeMatcher : option M;
  pf_excludeMatcher : option M;
}.

(** The matcher of a pattern list: nil when there is no pattern. *)
Definition new_matcher (msg : string) (pats : list string) : result (option M) :=
  if decide (0 < length pats) then
    match pm_New pats with
    | Ok m => Ok (Some m)
    | Err e => Err (EWrap [msg] e)
    end
  else Ok None.

Definition NewPatternFilter (incl excl required : list string) : result PatternFilter :=
  match new_matcher "filter: invalid include patterns" incl with
  | Err e => Err e
  | Ok im =>
      match new_matcher "filter: invalid exclude patterns" excl with
      | Err e => Err e
      | Ok em => Ok (mkPatternFilter incl excl required im em)
      end
  end.

(** [strings.ContainsAny(pat, "*?[")] *)
Definition has_wildcard (pat : string) : bool :=
  existsb (λ c, bool_decide (char_in c pat)) ["*"; "?"; "["]%char.

Fixpoint descendant_loop (dirPath : string) (pats : list string) : bool :=
  match pats with
  | [] => false
  | raw :: pats' =>
      let pat := trim_prefix raw "!" in
      if has_prefix pat (dirPath +:+ "/") then true
      else if has_wildcard pat then true
      else descendant_loop dirPath pats'
  end.

Definition couldHaveMatchingDescendant (f : PatternFilter) (dirPath : string) : bool :=
  descendant_loop dirPath (pf_includePatterns f).

(** [matched && err == nil] *)
Definition matched (m : M) (relPath : string) : bool :=
  match pm_Matches m relPath with Ok b => b | Err _ => false end.

Definition pf_Include (f : PatternFilter) (relPath : string) (isDir : bool) : bool :=
  if match pf_excludeMatcher f with Some m => matched m relPath | None => false end then false
  else
    match pf_includeMatcher f with
    | None => true
    | Some m =>
        if matched m relPath then true
        else if isDir && couldHaveMatchingDescendant f relPath then true
        else false
    end.

Definition pattern_filter (f : PatternFilter) : Filter :=
  {| Include := pf_Include f; RequiredPaths := pf_requiredPaths f |}.

(** [buildFilter]; [None] is its panic. *)
Definition buildFilter (includePatterns excludePatterns requiredPaths : list string) : option Filter :=
  if decide (0 < length includePatterns ∨ 0 < length excludePatterns ∨ 0 < length requiredPaths) then
    match NewPatternFilter includePatterns excludePatterns requiredPaths with
    | Ok pf => Some (pattern_filter pf)
    | Err _ => None
    end
  else Some NoopFilter.

(** ** Documented behaviour of the matcher *)

(** A pattern without wildcards and negation matches a path that is the pattern or below it. *)
Definition plain (pat : string) : Prop := has_wildcard pat = false ∧ has_prefix pat "!" = false.

Definition literal_law : Prop :=
  ∀ pats m p, Forall plain pats → pm_New pats = Ok m → pm_Matches m p = Ok (existsb (isPathUnder p) pats).

Lemma plain_trim pat : has_prefix pat "!" = false → trim_prefix pat "!" = pat.
Proof. unfold trim_prefix. by intros ->. Qed.

Lemma descendant_loop_spec d pats :
  descendant_loop d pats = true ↔
  ∃ raw, raw ∈ pats ∧ (has_prefix (trim_prefix raw "!") (d +:+ "/") = true ∨ has_wildcard (trim_prefix raw "!") = true).
Proof.
  induction pats as [|raw pats IH]; cbn [descendant_loop]; [split; [done | set_solver] |].
  destruct (has_prefix _ _) eqn:Hp; [split; [intros _; exists raw; set_solver | done] |].
  destruct (has_wildcard _) eqn:Hw; [split; [intros _; exists raw; set_solver | done] |].
  rewrite IH. split; [set_solver |]. intros (r & [->|Hr]%elem_of_cons & H); [| eauto]. rewrite Hp, Hw in H. by destruct H.
Qed.

(** A directory above an included path is accepted, unless it is excluded itself, so that the
    walker descends to the path. *)
Lemma include_ancestor incl excl req f d p b :
  literal_law → (Forall plain incl ∨ Exists (λ pat, has_wildcard (trim_prefix pat "!") = true) incl) →
  NewPatternFilter incl excl req = Ok f → isPathUnder p d = true → d ≠ p →
  pf_Include f p b = true →
  pf_Include f d true = true ∨ ∃ m, pf_excludeMatcher f = Some m ∧ matched m d = true.
Proof.
  intros Hlaw Hincl Hf Hu Hne Hp. unfold pf_Include in *.
  destruct (match pf_excludeMatcher f with Some m => matched m d | None => false end) eqn:Hex.
  { right. destruct (pf_excludeMatcher f); [eauto | done]. }
  left. destruct (match pf_excludeMatcher f with Some m => matched m p | None => false end); [done |].
  unfold NewPatternFilter, new_matcher in Hf.
  case_decide as Hi; [| simplify_eq/=; by repeat case_match; simplify_eq/=].
  destruct (pm_New incl) as [m|] eqn:Hm; [| done].
  assert (pf_includeMatcher f = Some m ∧ pf_includePatterns f = incl) as [Him Hpats].
  { repeat case_match; by simplify_eq/=. }
  rewrite Him in *.
  unfold couldHaveMatchingDescendant. destruct (matched m d) eqn:Hd; [done |]. simpl.
  assert (descendant_loop d incl = true) as Hl; [| by rewrite Hpats, Hl].
  apply descendant_loop_spec. destruct Hincl as [Hplain|(pat & Hpat & Hw)%Exists_exists]; [| eauto].
  assert (∃ pat, pat ∈ incl ∧ (isPathUnder p pat = true ∨ has_prefix pat (p +:+ "/") = true)) as (pat & Hpat & Hmp).
  { unfold matched in Hp. rewrite (Hlaw incl m p Hplain Hm) in Hp.
    destruct (existsb (isPathUnder p) incl) eqn:Hex'.
    - apply existsb_exists_elem in Hex' as (pat & ? & ?). eauto.
    - destruct b; [| done]. unfold couldHaveMatchingDescendant in Hp. rewrite Hpats in Hp. simpl in Hp.
      destruct (descendant_loop p incl) eqn:Hdl; [| done].
      apply descendant_loop_spec in Hdl as (raw & Hr & Hraw). exists raw. split; [done |].
      pose proof (proj1 (Forall_forall _ _) Hplain raw Hr) as [Hnw Hnb].
      rewrite plain_trim in Hraw by done. rewrite Hnw in Hraw. destruct Hraw; [by right | done]. }
  pose proof (proj1 (Forall_forall _ _) Hplain pat Hpat) as [_ Hnb].
  exists pat. rewrite plain_trim by done. split; [done |]. left.
  unfold matched in Hd. rewrite (Hlaw incl m d Hplain Hm) in Hd. rewrite existsb_false in Hd. specialize (Hd pat Hpat).
  assert (isPathUnder pat d = true) as Hpd.
  { destruct Hmp as [Hmp|Hmp].
    - destruct (under_comparable p pat d Hmp Hu) as [?|H]; [done | by rewrite H in Hd].
    - apply under_trans with p; [| done]. unfold isPathUnder. by rewrite Hmp, orb_true_r. }
  unfold isPathUnder in Hpd. apply orb_true_iff in Hpd as [->%bool_decide_eq_true|?]; [| done].
  by rewrite under_refl in Hd.
Qed.
End pattern.
