(* ===== verification/DsWalk.v ===== *)
(** * DsWalk: the merge walk of the lower and the upper directory

    Models [src/internal/dirsync/walker.go] and [classifier.go].  The disk is what [os.ReadDir],
    [os.Stat] and [os.Lstat] answer during the walk, [SecureJoin] is third-party code, and the
    callbacks change a state of any type.  The walk polls its context; [ctx k] is the answer to
    the poll [k].  A run on fuel [0] gives no result; the fuel needed is the depth of the lower
    tree. *)
From S2P Require Import Prelude GoStd GoPath DsTypes DsPrune DsFilter.

Record DirEntry := mkEntry {
  de_Name : string;
  de_Type : N;
  de_Info : result FileInfo;
}.

(** The state of a walk: how often the context was polled, and the state of the callbacks. *)
Record walk (S : Type) := mkWalk { wk_polls : nat; wk_state : S }.
Arguments mkWalk {S} _ _.
Arguments wk_polls {S} _.
Arguments wk_state {S} _.

Record WalkFn (S : Type) := mkWalkFn {
  OnExclusive : option (ExclusiveHandler S);
  OnCommon : option (CommonHandler S);
}.
Arguments mkWalkFn {S} _ _.
Arguments OnExclusive {S} _.
Arguments OnCommon {S} _.

(** A run returns an error or nil; [None] when the fuel is used up. *)
Definition run (S : Type) : Type := walk S → option (option error * walk S).

Definition ret {S} (e : option error) : run S := λ w, Some (e, w).

(** [if err := r1; err != nil { return err }; r2] *)
Definition andThen {S} (r1 r2 : run S) : run S := λ w,
  match r1 w with
  | Some (None, w') => r2 w'
  | r => r
  end.

(** [if err := ctx.Err(); err != nil { return err }; r] *)
Definition poll {S} (ctx : context) (r : run S) : run S := λ w,
  let w' := mkWalk (wk_polls w + 1) (wk_state w) in
  match ctx (wk_polls w) with Some e => Some (Some e, w') | None => r w' end.

Definition call {S} (f : S → option error * S) : run S := λ w,
  let '(e, s) := f (wk_state w) in Some (e, mkWalk (wk_polls w) s).

Definition joinRelPath (relDir name : string) : string :=
  if decide (relDir = EmptyString) then name else relDir +:+ "/" +:+ name.

Section walker.
Context (SecureJoin : string → string → result string).
Context (ReadDir : string → result (list DirEntry)) (Stat : string → result FileInfo).
Context {S : Type} (ctx : context) (lowerRoot upperRoot : string).
Context (filter : Filter) (followSymlinks : bool) (fn : WalkFn S).

(** [&resolvedSymlinkEntry{DirEntry: e, targetInfo: targetInfo}] *)
Definition resolvedSymlinkEntry (e : DirEntry) (targetInfo : FileInfo) : DirEntry :=
  mkEntry (de_Name e) (mode_Type (fi_Mode targetInfo)) (Ok targetInfo).

Definition resolve_entry (dirPath : string) (e : DirEntry) : DirEntry :=
  if negb (mode_IsSymlink (de_Type e)) then e
  else
    match Stat (path_join [dirPath; de_Name e]) with
    | Err _ => e
    | Ok targetInfo => resolvedSymlinkEntry e targetInfo
    end.

Definition readDirResolved (dirPath : string) : result (list DirEntry) :=
  match ReadDir dirPath with
  | Err e => Err e
  | Ok entries => if negb followSymlinks then Ok entries else Ok (resolve_entry dirPath <$> entries)
  end.

Definition callExclusive (ep : ExclusivePath) : run S :=
  match OnExclusive fn with Some f => call (f ep) | None => ret None end.

Definition callCommon (cp : CommonPath) : run S :=
  match OnCommon fn with Some f => call (f cp) | None => ret None end.

(** The loop over a slice of lower-only entries. *)
Fixpoint each (f : DirEntry → run S) (entries : list DirEntry) : run S :=
  match entries with
  | [] => ret None
  | e :: entries' => poll ctx (andThen (f e) (each f entries'))
  end.

Fixpoint emitExclusive (fuel : nat) (lowerDirAbs relDir : string) (entry : DirEntry) : run S :=
  match fuel with
  | 0 => λ _, None
  | Datatypes.S fuel =>
      poll ctx
        (let relPath := joinRelPath relDir (de_Name entry) in
         match de_Info entry with
         | Err e => ret (Some (EWrap ["walker: stat exclusive"; path_join [lowerDirAbs; de_Name entry]] e))
         | Ok info =>
             if negb (Include filter relPath (fi_IsDir info)) then ret None
             else if fi_IsDir info then
               if Include filter relPath false
               then callExclusive (mkExclusive relPath PathKindDir (Some info) true)
               else
                 match SecureJoin lowerRoot relPath with
                 | Err e => ret (Some (EWrap ["walker: secure join exclusive"; relPath] e))
                 | Ok subAbs =>
                     match readDirResolved subAbs with
                     | Err e => ret (Some (EWrap ["walker: read exclusive dir"; relPath] e))
                     | Ok subEntries => each (emitExclusive fuel subAbs relPath) subEntries
                     end
                 end
             else callExclusive (mkExclusive relPath (PathKindOf info) (Some info) false)
         end)
  end.

Definition emitAllExclusive (fuel : nat) (lowerDirAbs relDir : string) (entries : list DirEntry) : run S :=
  each (emitExclusive fuel lowerDirAbs relDir) entries.

(** [walkBoth] on a subdirectory is a parameter here: the two functions call each other. *)
Definition handleCommonEntry (walkBoth : string → run S) (relPath : string) (lInfo uInfo : FileInfo) : run S :=
  if fi_IsDir lInfo && fi_IsDir uInfo then walkBoth relPath
  else if fi_IsDir lInfo && negb (fi_IsDir uInfo) then
    andThen (callCommon (mkCommon relPath PathKindDir (Some lInfo) (Some uInfo) None))
            (callExclusive (mkExclusive relPath PathKindDir (Some lInfo) true))
  else callCommon (mkCommon relPath (PathKindOf lInfo) (Some lInfo) (Some uInfo) None).

(** The case of the merge where both entries have one name. *)
Definition common_case (walkBoth : string → run S) (relDir : string) (le ue : DirEntry) : run S :=
  let relPath := joinRelPath relDir (de_Name le) in
  match de_Info le with
  | Err e => ret (Some (EWrap ["walker: stat lower"; relPath] e))
  | Ok lInfo =>
      match de_Info ue with
      | Err e => ret (Some (EWrap ["walker: stat upper"; relPath] e))
      | Ok uInfo =>
          if Include filter relPath (fi_IsDir lInfo)
          then handleCommonEntry walkBoth relPath lInfo uInfo
          else ret None
      end
  end.

(** The two loops of [walkBoth]: the merge, and the drain of the lower list. *)
Fixpoint merge_loop (excl : DirEntry → run S) (common : DirEntry → DirEntry → run S)
    (lower : list DirEntry) : list DirEntry → run S :=
  match lower with
  | [] => λ _, ret None
  | le :: lower' =>
      fix inner (upper : list DirEntry) : run S :=
        match upper with
        | [] => each excl lower
        | ue :: upper' =>
            poll ctx
              match String.compare (de_Name le) (de_Name ue) with
              | Lt => andThen (excl le) (merge_loop excl common lower' upper)
              | Gt => inner upper'
              | Eq => andThen (common le ue) (merge_loop excl common lower' upper')
              end
        end
  end.

Fixpoint walkBoth (fuel : nat) (relDir : string) : run S :=
  match fuel with
  | 0 => λ _, None
  | Datatypes.S fuel =>
      poll ctx
        match SecureJoin lowerRoot relDir with
        | Err e => ret (Some (EWrap ["walker: secure join lower"; lowerRoot; relDir] e))
        | Ok lowerDir =>
            match SecureJoin upperRoot relDir with
            | Err e => ret (Some (EWrap ["walker: secure join upper"; upperRoot; relDir] e))
            | Ok upperDir =>
                match readDirResolved lowerDir with
                | Err e => ret (Some (EWrap ["walker: read lower"; lowerDir] e))
                | Ok lowerEntries =>
                    match readDirResolved upperDir with
                    | Err e =>
                        if errors_is e fs_ErrNotExist
                        then emitAllExclusive fuel lowerDir relDir lowerEntries
                        else ret (Some (EWrap ["walker: read upper"; upperDir] e))
                    | Ok upperEntries =>
                        merge_loop (emitExclusive fuel lowerDir relDir)
                                   (common_case (walkBoth fuel) relDir) lowerEntries upperEntries
                    end
                end
            end
        end
  end.
End walker.

(** ** [DirsyncClassifier] *)

(** The three channels of [Classify], as what was sent on them. *)
Record streams := mkStreams {
  st_exclusive : list ExclusivePath;
  st_common : list CommonPath;
  st_errs : list error;
}.

Section classify.
Context (SecureJoin : string → string → result string).
Context (ReadDir : string → result (list DirEntry)) (Stat Lstat : string → result FileInfo).
(** Which case the [select] of a send takes: [Some e] is [ctx.Done()], with what [ctx.Err()]
    then says.  The number of sends so far chooses. *)
Context (done : nat → option error).

Definition sends (s : streams) : nat := length (st_exclusive s) + length (st_common s).

Definition send_exclusive : ExclusiveHandler streams := λ ep s,
  match done (sends s) with
  | Some e => (Some e, s)
  | None => (None, mkStreams (st_exclusive s ++ [ep]) (st_common s) (st_errs s))
  end.

Definition send_common : CommonHandler streams := λ cp s,
  match done (sends s) with
  | Some e => (Some e, s)
  | None => (None, mkStreams (st_exclusive s) (st_common s ++ [cp]) (st_errs s))
  end.

Definition sendErr (e : error) (s : streams) : streams :=
  match done (sends s) with
  | Some _ => s
  | None => mkStreams (st_exclusive s) (st_common s) (st_errs s ++ [e])
  end.

Fixpoint validateRequiredPaths (lowerRoot : string) (required : list string) : option error :=
  match required with
  | [] => None
  | rel :: required' =>
      match Lstat (path_join [lowerRoot; rel]) with
      | Ok _ => validateRequiredPaths lowerRoot required'
      | Err e =>
          if errors_is e fs_ErrNotExist then Some (RequiredPathError rel lowerRoot)
          else Some (EWrap ["classifier: stat required path"; rel] e)
      end
  end.

Record DirsyncClassifier := mkClassifier {
  dc_lowerRoot : string;
  dc_upperRoot : string;
  dc_followSymlinks : bool;
  dc_filter : Filter;
}.

Definition NewClassifier (lowerRoot upperRoot : string) (followSymlinks : bool) (f : Filter) : DirsyncClassifier :=
  mkClassifier (path_clean lowerRoot) (path_clean upperRoot) followSymlinks f.

Definition WithFilter (f : Filter) (c : DirsyncClassifier) : DirsyncClassifier :=
  mkClassifier (dc_lowerRoot c) (dc_upperRoot c) (dc_followSymlinks c) f.

(** What the goroutine of [Classify] sends before it closes the channels. *)
Definition Classify (fuel : nat) (ctx : context) (c : DirsyncClassifier) : option streams :=
  let s0 := mkStreams [] [] [] in
  match validateRequiredPaths (dc_lowerRoot c) (RequiredPaths (dc_filter c)) with
  | Some e => Some (sendErr e s0)
  | None =>
      match walkBoth SecureJoin ReadDir Stat ctx (dc_lowerRoot c) (dc_upperRoot c) (dc_filter c)
              (dc_followSymlinks c) (mkWalkFn (Some send_exclusive) (Some send_common)) fuel EmptyString
              (mkWalk 0 s0) with
      | None => None
      | Some (None, w) => Some (wk_state w)
      | Some (Some e, w) => Some (if isContextErr e then wk_state w else sendErr e (wk_state w))
      end
  end.
End classify.
