(* ===== verification/DsDiff.v ===== *)
(** * DsDiff: what the walk reports, and that it reports it

    Directory trees, the difference of two trees by lookup in place of the merge of sorted
    listings, and the proof that the walk of [DsWalk] hands exactly these entries, in order, to
    its callbacks: all of them, or those before the first error. *)
From S2P Require Import Prelude GoStd GoPath DsTypes DsPrune DsFilter DsWalk.

(** ** Trees *)

Inductive tree :=
  | Leaf (i : FileInfo)
  | Dir (i : FileInfo) (es : list (string * tree)).

Section tree_ind'.
Context (P : tree → Prop) (HL : ∀ i, P (Leaf i)) (HD : ∀ i es, Forall (λ nt, P nt.2) es → P (Dir i es)).

Fixpoint tree_ind' (t : tree) : P t :=
  match t with
  | Leaf i => HL i
  | Dir i es =>
      HD i es ((fix go es : Forall (λ nt, P nt.2) es :=
        match es with
        | [] => Forall_nil_2 _
        | nt :: es' => Forall_cons_2 _ _ _ (tree_ind' nt.2) (go es')
        end) es)
  end.
End tree_ind'.

Definition tree_info (t : tree) : FileInfo := match t with Leaf i | Dir i _ => i end.
Definition is_dir (t : tree) : bool := match t with Leaf _ => false | Dir _ _ => true end.

Fixpoint assoc (n : string) (es : list (string * tree)) : option tree :=
  match es with
  | [] => None
  | (m, t) :: es' => if decide (m = n) then Some t else assoc n es'
  end.

Fixpoint depth (t : tree) : nat :=
  match t with
  | Leaf _ => 1
  | Dir _ es => S (foldr (λ nt d, depth nt.2 `max` d) 0 es)
  end.

(** The order of [os.ReadDir]. *)
Definition str_lt (a b : string) : Prop := String.compare a b = Lt.

(** File names are valid and sorted, and the modes say what is a directory. *)
Inductive wf_tree : tree → Prop :=
  | wf_Leaf i : fi_IsDir i = false → wf_tree (Leaf i)
  | wf_Dir i es :
      fi_IsDir i = true → StronglySorted str_lt (fst <$> es) → Forall seg (fst <$> es) →
      Forall (λ nt, wf_tree nt.2) es → wf_tree (Dir i es).

Lemma Forall_elem {A} (P : A → Prop) l x : Forall P l → x ∈ l → P x.
Proof. rewrite Forall_forall. eauto. Qed.

Lemma str_lt_le a b : str_lt a b → String.le a b.
Proof. unfold str_lt, String.le, String.leb. by intros ->. Qed.

Lemma str_lt_irrefl a : ¬ str_lt a a.
Proof. intros H. pose proof (String.compare_antisym a a) as E. unfold str_lt in H. by rewrite H in E. Qed.

Lemma str_lt_gt a b : String.compare a b = Gt → str_lt b a.
Proof. intros H. unfold str_lt. by rewrite String.compare_antisym, H. Qed.

#[export] Instance str_lt_trans : Transitive str_lt.
Proof.
  intros a b c Hab Hbc. pose proof (str_lt_le _ _ Hab) as H1. pose proof (str_lt_le _ _ Hbc) as H2.
  assert (String.le a c) as H3 by by transitivity b.
  unfold str_lt. destruct (String.compare a c) eqn:E; [| done |].
  - apply String.compare_eq_iff in E as <-. assert (a = b) as <- by by apply (anti_symm String.le).
    by destruct (str_lt_irrefl a).
  - unfold String.le, String.leb in H3. by rewrite E in H3.
Qed.

Lemma wf_is_dir t : wf_tree t → fi_IsDir (tree_info t) = is_dir t.
Proof. by destruct 1. Qed.

Lemma assoc_elem n es t : assoc n es = Some t → (n, t) ∈ es.
Proof.
  induction es as [|[m u] es IH]; simpl; [done |]. case_decide as Hm; [intros [= ->]; subst; by left |].
  intros H. right. by apply IH.
Qed.

Lemma assoc_None n es : assoc n es = None ↔ n ∉ es.*1.
Proof.
  induction es as [|[m u] es IH]; simpl; [split; [set_solver | done] |].
  case_decide; [split; [done | set_solver] |]. rewrite IH. set_solver.
Qed.

Lemma assoc_unique n es t : NoDup es.*1 → (n, t) ∈ es → assoc n es = Some t.
Proof.
  induction es as [|[m u] es IH]; simpl; [set_solver |]. intros [Hm Hnd]%NoDup_cons [E|Hn]%elem_of_cons.
  - injection E as -> ->. by rewrite decide_True.
  - rewrite decide_False; [by apply IH |]. intros ->. apply Hm. by apply (list_elem_of_fmap_2 fst _ (n, t)).
Qed.

Lemma sorted_NoDup l : StronglySorted str_lt l → NoDup l.
Proof.
  induction 1 as [|a l Hl IH Ha]; constructor; [| done].
  intros Hal. apply (str_lt_irrefl a). by eapply Forall_forall in Ha.
Qed.

Lemma depth_child i es n t f : depth (Dir i es) ≤ S f → (n, t) ∈ es → depth t ≤ f.
Proof.
  simpl. intros H Hn. cut (depth t ≤ foldr (λ nt d, depth nt.2 `max` d) 0 es); [lia |]. clear H.
  induction es as [|nt es IH]; [set_solver |]. simpl. apply elem_of_cons in Hn as [<-|Hn]; simpl; [lia |].
  specialize (IH Hn). lia.
Qed.

Lemma flat_map_in {A B} (f g : A → list B) l : (∀ x, x ∈ l → f x = g x) → flat_map f l = flat_map g l.
Proof.
  induction l as [|x l IH]; intros H; simpl; [done |]. rewrite H by by left.
  rewrite IH; [done |]. intros y Hy. apply H. by right.
Qed.

Lemma elem_of_flat_map {A B} (f : A → list B) l y : y ∈ flat_map f l ↔ ∃ x, x ∈ l ∧ y ∈ f x.
Proof. rewrite list_elem_of_In, in_flat_map. by setoid_rewrite list_elem_of_In. Qed.

(** ** Events *)

Inductive event := Excl (ep : ExclusivePath) | Comm (cp : CommonPath).

Definition fire {S} (fn : WalkFn S) (ev : event) (s : S) : option error * S :=
  match ev with
  | Excl ep => match OnExclusive fn with Some f => f ep s | None => (None, s) end
  | Comm cp => match OnCommon fn with Some f => f cp s | None => (None, s) end
  end.

(** The callbacks on a list of events, up to the first error. *)
Fixpoint deliver {S} (fn : WalkFn S) (evs : list event) (s : S) : option error * S :=
  match evs with
  | [] => (None, s)
  | ev :: evs' =>
      match fire fn ev s with
      | (None, s') => deliver fn evs' s'
      | r => r
      end
  end.

(** ** The difference of two trees *)

Section difference.
Context (filter : Filter).

Fixpoint excl_events (p : list string) (t : tree) : list event :=
  if Include filter (rel_path p) (is_dir t) then
    match t with
    | Leaf i => [Excl (mkExclusive (rel_path p) (PathKindOf i) (Some i) false)]
    | Dir i es =>
        if Include filter (rel_path p) false
        then [Excl (mkExclusive (rel_path p) PathKindDir (Some i) true)]
        else flat_map (λ nt, excl_events (p ++ [nt.1]) nt.2) es
    end
  else [].

Fixpoint diff_events (p : list string) (l u : tree) : list event :=
  match l with
  | Leaf i => [Comm (mkCommon (rel_path p) (PathKindOf i) (Some i) (Some (tree_info u)) None)]
  | Dir i ls =>
      match u with
      | Leaf j =>
          [Comm (mkCommon (rel_path p) PathKindDir (Some i) (Some j) None);
           Excl (mkExclusive (rel_path p) PathKindDir (Some i) true)]
      | Dir _ us =>
          flat_map (λ nt,
            match assoc nt.1 us with
            | None => excl_events (p ++ [nt.1]) nt.2
            | Some t' =>
                if Include filter (rel_path (p ++ [nt.1])) (is_dir nt.2)
                then diff_events (p ++ [nt.1]) nt.2 t' else []
            end) ls
      end
  end.

(** The events of a walk from the roots: [None] is an upper directory that does not exist. *)
Definition root_events (l : tree) (u : option tree) : list event :=
  match u with
  | Some u => diff_events [] l u
  | None => match l with Leaf _ => [] | Dir _ ls => flat_map (λ nt, excl_events [nt.1] nt.2) ls end
  end.
End difference.

(** ** Runs that deliver a list of events *)

Section emits.
Context {S : Type} (ctx : context) (fn : WalkFn S).

Lemma deliver_app evs1 evs2 s :
  deliver fn (evs1 ++ evs2) s =
  match deliver fn evs1 s with (None, s') => deliver fn evs2 s' | r => r end.
Proof.
  revert s. induction evs1 as [|ev evs1 IH]; intros s; simpl; [done |].
  destruct (fire fn ev s) as [[e|] s']; [done | apply IH].
Qed.

(** The run ends, with no error when all events were delivered, and otherwise with the error of
    a callback or of the context, no event being delivered after it. *)
Definition emits (r : run S) (evs : list event) : Prop :=
  ∀ w, ∃ e w' pre post e0,
    r w = Some (e, w') ∧ evs = pre ++ post ∧ deliver fn pre (wk_state w) = (e0, wk_state w')
    ∧ match e with
      | None => e0 = None ∧ post = []
      | Some err => e0 = Some err ∨ (e0 = None ∧ ∃ n, ctx n = Some err)
      end.

Lemma emits_ret : emits (ret None) [].
Proof. intros w. by exists None, w, [], [], None. Qed.

Lemma emits_poll r evs : emits r evs → emits (poll ctx r) evs.
Proof.
  intros H w. unfold poll. destruct (ctx (wk_polls w)) as [e|] eqn:Hc.
  - exists (Some e), (mkWalk (wk_polls w + 1) (wk_state w)), [], evs, None. split_and!; try done.
    right. eauto.
  - apply (H (mkWalk (wk_polls w + 1) (wk_state w))).
Qed.

Lemma emits_andThen r1 r2 evs1 evs2 : emits r1 evs1 → emits r2 evs2 → emits (andThen r1 r2) (evs1 ++ evs2).
Proof.
  intros H1 H2 w. destruct (H1 w) as (e & w1 & pre & post & e0 & Hr & -> & Hd & He). unfold andThen. rewrite Hr.
  destruct e as [err|].
  - exists (Some err), w1, pre, (post ++ evs2), e0. by rewrite <- app_assoc.
  - destruct He as [-> ->]. destruct (H2 w1) as (e & w2 & pre2 & post2 & e2 & Hr2 & -> & Hd2 & He2).
    exists e, w2, (pre ++ pre2), post2, e2. rewrite app_nil_r, app_assoc.
    split_and!; [done | done | by rewrite deliver_app, Hd | done].
Qed.

Lemma emits_call ev f : (∀ s, fire fn ev s = f s) → emits (call f) [ev].
Proof.
  intros Hf w. unfold call. destruct (f (wk_state w)) as [e s'] eqn:Hs.
  exists e, (mkWalk (wk_polls w) s'), [ev], [], e. split_and!; [done | done | |].
  - simpl. rewrite Hf, Hs. by destruct e.
  - destruct e; auto.
Qed.

Lemma emits_nop ev : (∀ s, fire fn ev s = (None, s)) → emits (ret None) [ev].
Proof.
  intros Hf w. exists None, w, [ev], [], None. split; [done |]. split; [done |]. split; [| done]. simpl. by rewrite Hf.
Qed.

Lemma emits_callExclusive ep : emits (callExclusive fn ep) [Excl ep].
Proof.
  unfold callExclusive. destruct (OnExclusive fn) eqn:E; [apply emits_call | apply emits_nop]; intros s; simpl; by rewrite E.
Qed.

Lemma emits_callCommon cp : emits (callCommon fn cp) [Comm cp].
Proof.
  unfold callCommon. destruct (OnCommon fn) eqn:E; [apply emits_call | apply emits_nop]; intros s; simpl; by rewrite E.
Qed.

(** A listing shows the names and the [Lstat] results of the entries of a directory. *)
Definition lists (e : DirEntry) (nt : string * tree) : Prop :=
  de_Name e = nt.1 ∧ de_Info e = Ok (tree_info nt.2).

Lemma emits_each f (E : string * tree → list event) des es :
  Forall2 lists des es → (∀ e nt, lists e nt → nt ∈ es → emits (f e) (E nt)) →
  emits (each ctx f des) (flat_map E es).
Proof.
  induction 1 as [|e nt des es He H IH]; intros HE; simpl; [apply emits_ret |].
  apply emits_poll, emits_andThen; [apply HE; [done | by left] |].
  apply IH. intros e' nt' He' Hn. apply HE; [done | by right].
Qed.

Lemma names_lt n (es : list (string * tree)) m : Forall (str_lt n) es.*1 → m ∈ es.*1 → m ≠ n.
Proof. intros H Hm ->. apply (str_lt_irrefl n). by eapply Forall_forall in H. Qed.

(** The merge of two sorted listings is a lookup of each lower entry in the upper listing. *)
Lemma emits_merge excl common (E : string * tree → list event) (C : string * tree → tree → list event) dl du ls us :
  Forall2 lists dl ls → Forall2 lists du us →
  StronglySorted str_lt ls.*1 → StronglySorted str_lt us.*1 →
  (∀ e nt, lists e nt → nt ∈ ls → emits (excl e) (E nt)) →
  (∀ e e' nt t', lists e nt → nt ∈ ls → (nt.1, t') ∈ us → lists e' (nt.1, t') → emits (common e e') (C nt t')) →
  emits (merge_loop ctx excl common dl du)
    (flat_map (λ nt, match assoc nt.1 us with None => E nt | Some t' => C nt t' end) ls).
Proof.
  intros Hl. revert du us. induction Hl as [|le [n t] dl ls Hle Hl IHl]; intros du us Hu Sl Su HE HC;
    [apply emits_ret |].
  apply StronglySorted_cons in Sl as [Hn Sl]. induction Hu as [|ue [m t'] du us Hue Hu IHu].
  { change (emits (each ctx excl (le :: dl)) (flat_map E ((n, t) :: ls))).
    by apply emits_each; [constructor |]. }
  pose proof Su as Su'. apply StronglySorted_cons in Su' as [Hm Su'].
  cbn [merge_loop]. apply emits_poll. assert (String.compare (de_Name le) (de_Name ue) = String.compare n m) as ->
    by (by rewrite (proj1 Hle), (proj1 Hue)).
  destruct (String.compare n m) eqn:Ec.
  - apply String.compare_eq_iff in Ec as ->. cbn [flat_map fst assoc]. rewrite decide_True by done.
    apply emits_andThen; [apply HC; [done | by left | by left | done] |].
    erewrite flat_map_in; [apply IHl; try done |].
    + intros e nt ? ?. apply HE; [done | by right].
    + intros e e' nt x ? ? ? ?. apply HC; [done | by right | by right | done].
    + intros [x y] Hx. simpl. rewrite decide_False; [done |]. intros <-.
      apply (names_lt m ls m); [done | by apply (list_elem_of_fmap_2 fst _ _ Hx) | done].
  - assert (assoc n ((m, t') :: us) = None) as Hnone.
    { apply assoc_None. simpl. intros [->|Hin]%elem_of_cons; [by apply (str_lt_irrefl m) |].
      apply (str_lt_irrefl n). transitivity m; [done |]. by eapply Forall_forall in Hm. }
    cbn [flat_map fst]. rewrite Hnone. apply emits_andThen; [apply HE; [done | by left] |].
    apply IHl; try done.
    + by constructor.
    + intros e nt ? ?. apply HE; [done | by right].
    + intros e e' nt x ? ? ? ?. apply HC; [done | by right | done | done].
  - apply str_lt_gt in Ec.
    erewrite flat_map_in; [apply IHu; try done |].
    + intros e e' nt x ? ? ? ?. apply HC; [done | done | by right | done].
    + intros [x y] Hx. simpl. rewrite decide_False; [done |]. intros <-.
      apply elem_of_cons in Hx as [[= -> ->]|Hx]; [by apply (str_lt_irrefl n) |].
      apply (str_lt_irrefl m). transitivity n; [done |].
      eapply Forall_forall in Hn; [done |]. by apply (list_elem_of_fmap_2 fst _ _ Hx).
Qed.
End emits.
