(* ===== verification/DsClassify.v ===== *)
(** * DsClassify: the theorems about the walk and the classifier

    The walk on trees that are on disk delivers the difference of the trees; the difference in
    terms of paths; no entry below a collapsed one; the streams of [Classify]. *)
From S2P Require Import Prelude GoStd GoPath DsTypes DsPrune DsFilter DsWalk DsDiff.

(** ** Trees on disk *)

Section disk.
Context (SecureJoin : string → string → result string).
Context (ReadDir : string → result (list DirEntry)) (Stat : string → result FileInfo) (followSymlinks : bool).

(** The tree at the path [p] of [root]: what joining and listing answer. *)
Inductive on_disk (root : string) : list string → tree → Prop :=
  | on_Leaf p i : on_disk root p (Leaf i)
  | on_Dir p i es abs des :
      SecureJoin root (rel_path p) = Ok abs → readDirResolved ReadDir Stat followSymlinks abs = Ok des →
      Forall2 lists des es → (∀ n t, (n, t) ∈ es → on_disk root (p ++ [n]) t) → on_disk root p (Dir i es).

(** There is no directory at [root]. *)
Definition absent (root : string) : Prop :=
  ∃ abs e, SecureJoin root EmptyString = Ok abs ∧ ReadDir abs = Err e ∧ errors_is e fs_ErrNotExist = true.

Definition upper_on_disk (root : string) (u : option tree) : Prop :=
  match u with
  | Some u => is_dir u = true ∧ wf_tree u ∧ on_disk root [] u
  | None => absent root
  end.

Lemma joinRel p n : Forall seg p → joinRelPath (rel_path p) n = rel_path (p ++ [n]).
Proof.
  intros Hp. unfold joinRelPath. destruct p as [|x p]; [done |].
  rewrite decide_False by (apply rel_path_ne; by inversion_clear Hp). by rewrite rel_path_app.
Qed.

Context {S : Type} (ctx : context) (lowerRoot upperRoot : string) (filter : Filter) (fn : WalkFn S).

Notation emitExclusive := (emitExclusive SecureJoin ReadDir Stat ctx lowerRoot filter followSymlinks fn).
Notation walkBoth := (walkBoth SecureJoin ReadDir Stat ctx lowerRoot upperRoot filter followSymlinks fn).

Lemma emits_exclusive t : ∀ fuel abs p n e,
  depth t ≤ fuel → wf_tree t → Forall seg p → seg n → lists e (n, t) → on_disk lowerRoot (p ++ [n]) t →
  emits ctx fn (emitExclusive fuel abs (rel_path p) e) (excl_events filter (p ++ [n]) t).
Proof.
  induction t as [i|i es IH] using tree_ind'; intros fuel abs p n e Hd Hwf Hp Hn [He Hi] Hdisk;
    (destruct fuel as [|fuel]; [simpl in Hd; lia |]); simpl in Hi; cbn [DsWalk.emitExclusive];
    apply emits_poll; rewrite He, Hi; simpl fst; rewrite joinRel by done;
    pose proof (wf_is_dir _ Hwf) as Hdir; simpl in Hdir; rewrite Hdir; cbn [excl_events is_dir].
  - destruct (Include _ _ _); simpl; [apply emits_callExclusive | apply emits_ret].
  - destruct (Include _ _ true); simpl; [| apply emits_ret].
    destruct (Include _ _ false); [apply emits_callExclusive |].
    inversion_clear Hdisk as [|? ? ? abs' des HS HR Hl Hch]. rewrite HS, HR.
    inversion_clear Hwf as [|? ? _ Hs Hseg Hw].
    apply (emits_each ctx fn _ (λ nt, excl_events filter ((p ++ [n]) ++ [nt.1]) nt.2)); [done |].
    intros e' [m t'] He' Hm. pose proof (Forall_elem _ _ _ IH Hm) as IHm. apply IHm.
    + by eapply depth_child.
    + apply (Forall_elem _ _ _ Hw Hm).
    + by apply Forall_app_2; [| constructor].
    + by apply (Forall_elem _ _ _ Hseg), (list_elem_of_fmap_2 fst _ _ Hm).
    + done.
    + by apply Hch.
Qed.

Lemma emits_exclusive_of fuel abs p i es e nt :
  depth (Dir i es) ≤ Datatypes.S fuel → wf_tree (Dir i es) → Forall seg p →
  (∀ n t, (n, t) ∈ es → on_disk lowerRoot (p ++ [n]) t) → lists e nt → nt ∈ es →
  emits ctx fn (emitExclusive fuel abs (rel_path p) e) (excl_events filter (p ++ [nt.1]) nt.2).
Proof.
  intros Hd Hwf Hp Hch He Hn. inversion_clear Hwf as [|? ? _ Hs Hseg Hw]. destruct nt as [n t].
  apply emits_exclusive; [by eapply depth_child | apply (Forall_elem _ _ _ Hw Hn) | done | | done | by apply Hch].
  by apply (Forall_elem _ _ _ Hseg), (list_elem_of_fmap_2 fst _ _ Hn).
Qed.

Lemma emits_walkBoth l : ∀ u fuel p,
  depth l ≤ fuel → is_dir l = true → is_dir u = true → wf_tree l → wf_tree u → Forall seg p →
  on_disk lowerRoot p l → on_disk upperRoot p u →
  emits ctx fn (walkBoth fuel (rel_path p)) (diff_events filter p l u).
Proof.
  induction l as [i|i ls IH] using tree_ind'; intros u fuel p Hd Hl Hu Wl Wu Hp Dl Du; [done |].
  destruct u as [|j us]; [done |]. destruct fuel as [|fuel]; [simpl in Hd; lia |].
  cbn [DsWalk.walkBoth diff_events]. apply emits_poll.
  inversion_clear Dl as [|? ? ? labs ldes LS LR LL LC]. inversion_clear Du as [|? ? ? uabs udes US UR UL UC].
  rewrite LS, US, LR, UR. pose proof Wl as Wl'. pose proof Wu as Wu'.
  inversion_clear Wl' as [|? ? _ Sl Gl Cl]. inversion_clear Wu' as [|? ? _ Su Gu Cu].
  apply (emits_merge ctx fn _ _ (λ nt, excl_events filter (p ++ [nt.1]) nt.2)
           (λ nt t', if Include filter (rel_path (p ++ [nt.1])) (is_dir nt.2)
                     then diff_events filter (p ++ [nt.1]) nt.2 t' else [])); [done..| |].
  { intros e nt He Hn. by eapply emits_exclusive_of. }
  intros le ue [n t] t' [Hen Hei] Hn Hn' [_ Hei']. simpl in *.
  pose proof (Forall_elem _ _ _ Cl Hn) as Wt. pose proof (Forall_elem _ _ _ Cu Hn') as Wt'.
  simpl in Wt, Wt'. unfold common_case. rewrite Hen, Hei, Hei', joinRel, (wf_is_dir t Wt) by done.
  destruct (Include _ _ _); [| apply emits_ret]. unfold handleCommonEntry.
  rewrite (wf_is_dir t Wt), (wf_is_dir t' Wt').
  assert (seg n) as Sn by (by apply (Forall_elem _ _ _ Gl), (list_elem_of_fmap_2 fst _ _ Hn)).
  pose proof (Forall_elem _ _ _ IH Hn) as IHn. simpl in IHn.
  destruct t as [i'|i' es'], t' as [j'|j' es'']; simpl; try apply emits_callCommon.
  - apply (emits_andThen ctx fn _ _ [_] [_]); [apply emits_callCommon | apply emits_callExclusive].
  - apply (IHn (Dir j' es'')); try done; [apply (depth_child i ls n _ fuel Hd Hn) | by apply Forall_app_2; [| constructor]
      | by apply LC | by apply UC].
Qed.

Lemma emits_root l u fuel :
  depth l ≤ fuel → is_dir l = true → wf_tree l → on_disk lowerRoot [] l → upper_on_disk upperRoot u →
  emits ctx fn (walkBoth fuel EmptyString) (root_events filter l u).
Proof.
  intros Hd Hl Wl Dl Du. destruct u as [u|]; [by apply (emits_walkBoth l u fuel []); try apply Du |].
  destruct l as [|i ls]; [done |]. destruct fuel as [|fuel]; [simpl in Hd; lia |].
  destruct Du as (uabs & e & US & UR & Ue). cbn [DsWalk.walkBoth root_events]. apply emits_poll.
  inversion_clear Dl as [|? ? ? labs ldes LS LR LL LC]. change (rel_path []) with EmptyString in LS.
  rewrite LS, US, LR.
  unfold readDirResolved at 1. rewrite UR, Ue. unfold emitAllExclusive.
  apply emits_each; [done |]. intros e' nt He Hn. by eapply (emits_exclusive_of fuel labs []).
Qed.
End disk.

(** ** The difference in terms of paths *)

Definition incl (filter : Filter) (p : list string) (isDir : bool) : bool := Include filter (rel_path p) isDir.

Section paths.
Context (filter : Filter) (l u : tree).

(** The directories the walk compares: directories in both trees, all of whose ancestors are,
    and accepted by the filter. *)
Inductive both : list string → list (string * tree) → list (string * tree) → Prop :=
  | both_root i ls j us : l = Dir i ls → u = Dir j us → both [] ls us
  | both_down p ls us n i ls' j us' :
      both p ls us → assoc n ls = Some (Dir i ls') → assoc n us = Some (Dir j us') →
      incl filter (p ++ [n]) true = true → both (p ++ [n]) ls' us'.

(** The entries the walk considers as lower-only: those missing from an upper directory, and
    those below a lower-only directory that the filter wants for its descendants only. *)
Inductive lower_only : list string → tree → Prop :=
  | lo_top p ls us n t :
      both p ls us → assoc n ls = Some t → assoc n us = None → lower_only (p ++ [n]) t
  | lo_below p i es n t :
      lower_only p (Dir i es) → incl filter p true = true → incl filter p false = false →
      assoc n es = Some t → lower_only (p ++ [n]) t.

(** What is reported: a lower-only entry that the filter accepts, a directory as collapsed; *)
Definition reports_exclusive (ev : event) : Prop :=
  ∃ p t, lower_only p t ∧ incl filter p (is_dir t) = true ∧ (is_dir t = true → incl filter p false = true)
    ∧ ev = Excl (mkExclusive (rel_path p) (PathKindOf (tree_info t)) (Some (tree_info t)) (is_dir t)).

(** an accepted entry that is in both trees, unless both are directories; *)
Definition reports_common (ev : event) : Prop :=
  ∃ p ls us n t t', both p ls us ∧ assoc n ls = Some t ∧ assoc n us = Some t' ∧ is_dir t && is_dir t' = false
    ∧ incl filter (p ++ [n]) (is_dir t) = true
    ∧ ev = Comm (mkCommon (rel_path (p ++ [n])) (PathKindOf (tree_info t)) (Some (tree_info t)) (Some (tree_info t')) None).

(** and the lower directory that such an entry replaces. *)
Definition reports_replaced (ev : event) : Prop :=
  ∃ p ls us n t t', both p ls us ∧ assoc n ls = Some t ∧ assoc n us = Some t' ∧ is_dir t = true ∧ is_dir t' = false
    ∧ incl filter (p ++ [n]) true = true
    ∧ ev = Excl (mkExclusive (rel_path (p ++ [n])) PathKindDir (Some (tree_info t)) true).

Definition reported (ev : event) : Prop := reports_exclusive ev ∨ reports_common ev ∨ reports_replaced ev.

Lemma wf_dir_kind t : wf_tree t → is_dir t = true → PathKindOf (tree_info t) = PathKindDir.
Proof. intros Hw Hd. apply PathKindOf_dir. by rewrite wf_is_dir. Qed.

Lemma wf_child i es n t : wf_tree (Dir i es) → (n, t) ∈ es → wf_tree t ∧ assoc n es = Some t ∧ seg n.
Proof.
  intros Hw Hn. inversion_clear Hw as [|? ? _ Hs Hg Hc]. split_and!.
  - apply (Forall_elem _ _ _ Hc Hn).
  - apply assoc_unique; [by apply sorted_NoDup | done].
  - apply (Forall_elem _ _ _ Hg). apply (list_elem_of_fmap_2 fst _ _ Hn).
Qed.

Lemma excl_reported t p ev : wf_tree t → lower_only p t → ev ∈ excl_events filter p t → reported ev.
Proof.
  revert p. induction t as [i|i es IH] using tree_ind'; intros p Hw Hlo; cbn [excl_events is_dir];
    destruct (Include filter _ _) eqn:Hi; try (by intros []%elem_of_nil).
  - intros ->%list_elem_of_singleton. left. exists p, (Leaf i). by split_and!.
  - destruct (Include filter _ false) eqn:Hf.
    + intros ->%list_elem_of_singleton. left. exists p, (Dir i es). split_and!; try done.
      by rewrite wf_dir_kind.
    + intros ([n t] & Hn & Hev)%elem_of_flat_map. destruct (wf_child _ _ _ _ Hw Hn) as (Ht & Ha & _).
      apply (Forall_elem _ _ _ IH Hn (p ++ [n])); [done | by eapply lo_below | done].
Qed.

Lemma diff_reported lt ls us p ev i j :
  lt = Dir i ls → wf_tree lt → wf_tree (Dir j us) → both p ls us → ev ∈ diff_events filter p lt (Dir j us) → reported ev.
Proof.
  revert i j ls us p. induction lt as [|i0 ls0 IH] using tree_ind'; [done |].
  intros i j ls us p [= -> ->] Wl Wu Hb. cbn [diff_events].
  intros ([n t] & Hn & Hev)%elem_of_flat_map. simpl in Hev.
  destruct (wf_child _ _ _ _ Wl Hn) as (Wt & Ha & _).
  destruct (assoc n us) as [t'|] eqn:Hu; [| by eapply excl_reported, Hev; [| eapply lo_top]].
  destruct (wf_child _ _ _ _ Wu (assoc_elem _ _ _ Hu)) as (Wt' & _ & _).
  destruct (Include filter _ _) eqn:Hi; [| by apply elem_of_nil in Hev].
  destruct t as [i'|i' ls'] eqn:Et.
  - cbn [diff_events] in Hev. apply list_elem_of_singleton in Hev as ->. right; left.
    exists p, ls, us, n, (Leaf i'), t'. by split_and!.
  - destruct t' as [j'|j' us'].
    + cbn [diff_events] in Hev. apply elem_of_cons in Hev as [->| ->%list_elem_of_singleton]; right.
      * left. exists p, ls, us, n, (Dir i' ls'), (Leaf j'). rewrite wf_dir_kind by done. by split_and!.
      * right. exists p, ls, us, n, (Dir i' ls'), (Leaf j'). by split_and!.
    + eapply (Forall_elem _ _ _ IH Hn i' j' ls' us' (p ++ [n])); try done. by eapply both_down.
Qed.

Lemma both_events p ls us i j ev :
  both p ls us → ev ∈ diff_events filter p (Dir i ls) (Dir j us) → ev ∈ diff_events filter [] l u.
Proof.
  intros Hb. revert i j. induction Hb as [i ls j us -> ->|p ls us n i ls' j us' Hb IH Hl Hu Hi]; intros i' j' Hev; [done |].
  apply (IH i' j'). cbn [diff_events]. apply elem_of_flat_map. exists (n, Dir i ls').
  split; [by apply assoc_elem |]. simpl fst. simpl snd. rewrite Hu. unfold incl in Hi. simpl is_dir. by rewrite Hi.
Qed.

Lemma lower_only_events p t ev : lower_only p t → ev ∈ excl_events filter p t → ev ∈ diff_events filter [] l u.
Proof.
  induction 1 as [p ls us n t Hb Hl Hu|p i es n t Hlo IH Hi Hf Ha]; intros Hev.
  - apply (both_events p ls us (mkInfo 0 0 0 None) (mkInfo 0 0 0 None) ev Hb). cbn [diff_events].
    apply elem_of_flat_map. exists (n, t). split; [by apply assoc_elem |]. simpl fst. by rewrite Hu.
  - apply IH. cbn [excl_events]. unfold incl in *. simpl is_dir. rewrite Hi, Hf.
    apply elem_of_flat_map. exists (n, t). split; [by apply assoc_elem | done].
Qed.

Lemma both_wf p ls us :
  wf_tree l → wf_tree u → both p ls us → ∃ i j, wf_tree (Dir i ls) ∧ wf_tree (Dir j us).
Proof.
  intros Wl Wu. induction 1 as [i ls j us -> ->|p ls us n i ls' j us' Hb (i1 & j1 & W1 & W2) Hl Hu Hi]; [eauto |].
  exists i, j. split; [apply (wf_child _ _ _ _ W1 (assoc_elem _ _ _ Hl)) | apply (wf_child _ _ _ _ W2 (assoc_elem _ _ _ Hu))].
Qed.

Lemma lower_only_wf p t : wf_tree l → wf_tree u → lower_only p t → wf_tree t.
Proof.
  intros Wl Wu. induction 1 as [p ls us n t Hb Hl Hu|p i es n t Hlo IH Hi Hf Ha].
  - destruct (both_wf _ _ _ Wl Wu Hb) as (i & j & W1 & _). apply (wf_child _ _ _ _ W1 (assoc_elem _ _ _ Hl)).
  - apply (wf_child _ _ _ _ IH (assoc_elem _ _ _ Ha)).
Qed.

Lemma common_events p ls us n t t' ev :
  both p ls us → assoc n ls = Some t → assoc n us = Some t' → incl filter (p ++ [n]) (is_dir t) = true →
  ev ∈ diff_events filter (p ++ [n]) t t' → ev ∈ diff_events filter [] l u.
Proof.
  unfold incl. intros Hb Hl Hu Hi Hev.
  apply (both_events p ls us (mkInfo 0 0 0 None) (mkInfo 0 0 0 None) ev Hb). cbn [diff_events].
  apply elem_of_flat_map. exists (n, t). split; [by apply assoc_elem |]. simpl fst. simpl snd. by rewrite Hu, Hi.
Qed.

Lemma reported_events ev : wf_tree l → wf_tree u → reported ev → ev ∈ diff_events filter [] l u.
Proof.
  intros Wl Wu. intros [H|[H|H]].
  - destruct H as (p & t & Hlo & Hi & Hf & ->). apply (lower_only_events p t); [done |].
    pose proof (lower_only_wf p t Wl Wu Hlo) as Wt. unfold incl in *.
    destruct t as [i|i es]; cbn [excl_events]; rewrite Hi; [by left |].
    rewrite Hf, wf_dir_kind by done. by left.
  - destruct H as (p & ls & us & n & t & t' & Hb & Hl & Hu & Hd & Hi & ->).
    apply (common_events p ls us n t t'); [done.. |].
    destruct (both_wf _ _ _ Wl Wu Hb) as (i & j & W1 & _).
    destruct (wf_child _ _ _ _ W1 (assoc_elem _ _ _ Hl)) as (Wt & _ & _).
    destruct t as [i1|i1 es1], t' as [j1|j1 us1]; cbn [diff_events]; try by left.
    + rewrite wf_dir_kind by done. by left.
    + done.
  - destruct H as (p & ls & us & n & t & t' & Hb & Hl & Hu & Hd & Hd' & Hi & ->).
    apply (common_events p ls us n t t'); [done.. | by rewrite Hd |].
    destruct t as [i1|i1 es1], t' as [j1|j1 us1]; try done. cbn [diff_events]. right. by left.
Qed.

Lemma events_reported ev :
  wf_tree l → wf_tree u → is_dir l = true → is_dir u = true → ev ∈ diff_events filter [] l u ↔ reported ev.
Proof.
  intros Wl Wu Dl Du. split; [| by apply reported_events].
  destruct l as [|i ls] eqn:El; [done |]. destruct u as [|j us] eqn:Eu; [done |]. rewrite <- El, <- Eu in *.
  intros Hev. rewrite Eu in Hev. eapply diff_reported; [exact El | done | by rewrite <- Eu | by eapply both_root | exact Hev].
Qed.
End paths.

(** ** Entries of a walk are apart *)

Definition unrelated (a b : string) : Prop := isPathUnder a b = false ∧ isPathUnder b a = false.

(** The path an event speaks for: all but the first half of a replaced directory. *)
Definition claim (ev : event) : option string :=
  match ev with
  | Excl ep => Some (ep_Path ep)
  | Comm cp => if decide (cp_Kind cp = PathKindDir) then None else Some (cp_Path cp)
  end.

Definition claims (evs : list event) : list string := omap claim evs.

Section apart.
Context (filter : Filter).

(** The claims of the entry at [p] are at [p] or below. *)
Definition claims_below (p : list string) (cs : list string) : Prop :=
  ∀ c, c ∈ cs → ∃ q, Forall seg q ∧ c = rel_path (p ++ q).

Lemma claims_flat_map {A} (f : A → list event) xs : claims (flat_map f xs) = flat_map (λ x, claims (f x)) xs.
Proof. induction xs as [|x xs IH]; simpl; [done |]. unfold claims in *. by rewrite omap_app, IH. Qed.

Lemma below_children p (f : string * tree → list event) es :
  Forall seg es.*1 → (∀ nt, nt ∈ es → claims_below (p ++ [nt.1]) (claims (f nt))) →
  claims_below p (claims (flat_map f es)).
Proof.
  intros Hg Hf c. rewrite claims_flat_map. intros (nt & Hn & Hc)%elem_of_flat_map.
  destruct (Hf nt Hn c Hc) as (q & Hq & ->). exists (nt.1 :: q). rewrite <- app_assoc. split; [| done].
  constructor; [| done]. apply (Forall_elem _ _ _ Hg). by apply list_elem_of_fmap_2.
Qed.

Lemma below_here p ev : claim ev = Some (rel_path p) ∨ claim ev = None → claims_below p (claims [ev]).
Proof.
  unfold claims. intros [H|H] c; simpl; rewrite H; [| by intros []%elem_of_nil].
  intros ->%list_elem_of_singleton. exists []. by rewrite app_nil_r.
Qed.

Lemma excl_claims_below t p : wf_tree t → claims_below p (claims (excl_events filter p t)).
Proof.
  revert p. induction t as [i|i es IH] using tree_ind'; intros p Hw; cbn [excl_events];
    destruct (Include filter _ _); try (by intros c []%elem_of_nil).
  - apply below_here. by left.
  - destruct (Include filter _ false); [apply below_here; by left |]. inversion_clear Hw as [|? ? _ Hs Hg Hc].
    apply below_children; [done |]. intros nt Hn. apply (Forall_elem _ _ _ IH Hn). apply (Forall_elem _ _ _ Hc Hn).
Qed.

Lemma diff_claims_below l p u : wf_tree l → wf_tree u → claims_below p (claims (diff_events filter p l u)).
Proof.
  revert p u. induction l as [i|i ls IH] using tree_ind'; intros p u Wl Wu; cbn [diff_events].
  - inversion_clear Wl as [? Hi|]. apply below_here. left. simpl. rewrite decide_False; [done |].
    intros E%PathKindOf_dir. by rewrite Hi in E.
  - destruct u as [j|j us].
    + change [Comm ?a; Excl ?b] with ([Comm a] ++ [Excl b]). intros c. unfold claims. rewrite omap_app, elem_of_app.
      intros [Hc|Hc]; revert c Hc; apply below_here; [by right | by left].
    + inversion_clear Wl as [|? ? _ Hs Hg Hc].
      apply below_children; [done |]. intros [n t] Hn. simpl.
      pose proof (Forall_elem _ _ _ Hc Hn) as Wt. simpl in Wt.
      destruct (assoc n us) as [t'|] eqn:Hu; [| by apply excl_claims_below].
      destruct (Include filter _ _); [| by intros c []%elem_of_nil].
      apply (Forall_elem _ _ _ IH Hn); [done |].
      inversion_clear Wu as [|? ? _ _ _ Hcu]. apply (Forall_elem _ _ _ Hcu (assoc_elem _ _ _ Hu)).
Qed.

Lemma siblings_unrelated p n m q r :
  n ≠ m → Forall seg p → seg n → seg m → Forall seg q → Forall seg r →
  unrelated (rel_path ((p ++ [n]) ++ q)) (rel_path ((p ++ [m]) ++ r)).
Proof.
  intros Hnm Hp Hn Hm Hq Hr.
  assert (∀ a b x y, a ≠ b → ¬ ((p ++ [a]) ++ x) `prefix_of` ((p ++ [b]) ++ y)) as Hnp.
  { intros a b x y Hab [k E]. rewrite <- !app_assoc in E. apply app_inv_head in E. simpl in E. congruence. }
  assert (∀ a x, seg a → Forall seg x → Forall seg ((p ++ [a]) ++ x)) as Hs
    by (intros; apply Forall_app_2; [apply Forall_app_2; [done | by constructor] | done]).
  assert (∀ a (x : list string), (p ++ [a]) ++ x ≠ []) as Hne by (intros a x; by destruct p).
  split; apply not_true_iff_false; rewrite under_rel by auto; apply Hnp; congruence.
Qed.

Lemma StronglySorted_flat_map {A B} (R : relation B) (f : A → list B) l :
  (∀ x, x ∈ l → StronglySorted R (f x)) →
  StronglySorted (λ x y, ∀ a b, a ∈ f x → b ∈ f y → R a b) l → StronglySorted R (flat_map f l).
Proof.
  induction l as [|x l IH]; intros Hf Hs; simpl; [constructor |].
  apply StronglySorted_cons in Hs as [Hx Hs]. apply StronglySorted_app. split_and!.
  - intros a b Ha (y & Hy & Hb)%elem_of_flat_map. by apply (Forall_elem _ _ _ Hx Hy).
  - apply Hf. by left.
  - apply IH; [| done]. intros y Hy. apply Hf. by right.
Qed.

Lemma children_apart p (f : string * tree → list event) es :
  Forall seg p → Forall seg es.*1 → StronglySorted str_lt es.*1 →
  (∀ nt, nt ∈ es → claims_below (p ++ [nt.1]) (claims (f nt))) →
  (∀ nt, nt ∈ es → StronglySorted unrelated (claims (f nt))) →
  StronglySorted unrelated (claims (flat_map f es)).
Proof.
  intros Hp Hg Hs Hb Hf. rewrite claims_flat_map. apply StronglySorted_flat_map; [done |].
  clear Hf. induction es as [|[n t] es IH]; [constructor |]. rewrite fmap_cons in *.
  apply StronglySorted_cons in Hs as [Hn Hs]. apply Forall_cons in Hg as [Gn Hg].
  constructor; [apply IH; [done.. | intros; apply Hb; by right] |].
  apply Forall_forall. intros [m u] Hm a b Ha Hb'.
  destruct (Hb (n, t) ltac:(by left) a Ha) as (q & Hq & ->).
  destruct (Hb (m, u) ltac:(by right) b Hb') as (r & Hr & ->). simpl.
  assert (m ∈ es.*1) as Hm' by (apply (list_elem_of_fmap_2 fst _ _ Hm)).
  apply siblings_unrelated; try done; [| by apply (Forall_elem _ _ _ Hg)].
  intros <-. apply (str_lt_irrefl n). by apply (Forall_elem _ _ _ Hn).
Qed.

Lemma excl_claims_apart t p : wf_tree t → Forall seg p → StronglySorted unrelated (claims (excl_events filter p t)).
Proof.
  revert p. induction t as [i|i es IH] using tree_ind'; intros p Hw Hp; cbn [excl_events];
    destruct (Include filter _ _); try (by repeat constructor).
  destruct (Include filter _ false); [by repeat constructor |]. inversion_clear Hw as [|? ? _ Hs Hg Hc].
  apply (children_apart p); try done; intros nt Hn.
  - apply (excl_claims_below nt.2). apply (Forall_elem _ _ _ Hc Hn).
  - apply (Forall_elem _ _ _ IH Hn); [apply (Forall_elem _ _ _ Hc Hn) |].
    apply Forall_app_2; [done |]. constructor; [| done]. apply (Forall_elem _ _ _ Hg). by apply list_elem_of_fmap_2.
Qed.

Lemma diff_claims_apart l p u :
  wf_tree l → wf_tree u → Forall seg p → StronglySorted unrelated (claims (diff_events filter p l u)).
Proof.
  revert p u. induction l as [i|i ls IH] using tree_ind'; intros p u Wl Wu Hp; cbn [diff_events].
  - unfold claims. simpl. case_decide; by repeat constructor.
  - destruct u as [j|j us]; [unfold claims; simpl; by repeat constructor |].
    inversion_clear Wl as [|? ? _ Hs Hg Hc].
    assert (∀ n t, assoc n us = Some t → wf_tree t) as Hcu.
    { intros n t Ht. apply (wf_child _ _ _ _ Wu (assoc_elem _ _ _ Ht)). }
    apply (children_apart p); try done; intros [n t] Hn; pose proof (Forall_elem _ _ _ Hc Hn) as Wt; simpl in Wt |- *.
    + destruct (assoc n us) as [t'|] eqn:Hu; [| by apply excl_claims_below].
      destruct (Include filter _ _); [| by intros c []%elem_of_nil]. apply diff_claims_below; eauto.
    + assert (Forall seg (p ++ [n])) as Hpn.
      { apply Forall_app_2; [done |]. constructor; [| done]. apply (Forall_elem _ _ _ Hg), (list_elem_of_fmap_2 fst _ _ Hn). }
      destruct (assoc n us) as [t'|] eqn:Hu; [| by apply excl_claims_apart].
      destruct (Include filter _ _); [| constructor]. apply (Forall_elem _ _ _ IH Hn); eauto.
Qed.
End apart.

(** ** Streams *)

Definition excl_of (ev : event) : option ExclusivePath := match ev with Excl ep => Some ep | Comm _ => None end.
Definition comm_of (ev : event) : option CommonPath := match ev with Comm cp => Some cp | Excl _ => None end.

Definition send_fn (done : nat → option error) : WalkFn streams :=
  mkWalkFn (Some (send_exclusive done)) (Some (send_common done)).

Lemma send_streams done evs s e s' :
  deliver (send_fn done) evs s = (e, s') →
  ∃ pre post, evs = pre ++ post ∧ s' = mkStreams (st_exclusive s ++ omap excl_of pre) (st_common s ++ omap comm_of pre) (st_errs s)
    ∧ match e with None => post = [] | Some err => ∃ n, done n = Some err end.
Proof.
  revert s. induction evs as [|ev evs IH]; intros s; simpl.
  - intros [= <- <-]. exists [], []. simpl. rewrite !app_nil_r. by destruct s.
  - destruct ev as [ep|cp]; simpl; unfold send_exclusive, send_common; destruct (done (sends s)) as [err|] eqn:Hd;
      try (intros [= <- <-]; exists [], (Excl ep :: evs) || exists [], (Comm cp :: evs); simpl; rewrite !app_nil_r;
           split; [done |]; split; [by destruct s | by eexists]);
      intros (pre & post & -> & -> & He)%IH.
    + exists (Excl ep :: pre), post. simpl. by rewrite <- app_assoc.
    + exists (Comm cp :: pre), post. simpl. by rewrite <- app_assoc.
Qed.

(** The callbacks append to a list. *)
Definition log_fn : WalkFn (list event) :=
  mkWalkFn (Some (λ ep s, (None, s ++ [Excl ep]))) (Some (λ cp s, (None, s ++ [Comm cp]))).

Lemma deliver_log evs s : deliver log_fn evs s = (None, s ++ evs).
Proof. revert s. induction evs as [|[ep|cp] evs IH]; intros s; simpl; [by rewrite app_nil_r | by rewrite IH, <- app_assoc..]. Qed.

(** What a context says when it is done. *)
Definition context_law (ctx : nat → option error) : Prop := ∀ n e, ctx n = Some e → isContextErr e = true.

(** A classification that nothing cancels. *)
Lemma Classify_live SecureJoin ReadDir Stat Lstat fuel c l u :
  depth l ≤ fuel → is_dir l = true → wf_tree l →
  on_disk SecureJoin ReadDir Stat (dc_followSymlinks c) (dc_lowerRoot c) [] l →
  upper_on_disk SecureJoin ReadDir Stat (dc_followSymlinks c) (dc_upperRoot c) u →
  validateRequiredPaths Lstat (dc_lowerRoot c) (RequiredPaths (dc_filter c)) = None →
  Classify SecureJoin ReadDir Stat Lstat (λ _, None) fuel ctx_background c
  = Some (mkStreams (omap excl_of (root_events (dc_filter c) l u)) (omap comm_of (root_events (dc_filter c) l u)) []).
Proof.
  intros Hd Hl Wl Dl Du Hv. unfold Classify. rewrite Hv.
  pose proof (emits_root SecureJoin ReadDir Stat (dc_followSymlinks c) ctx_background (dc_lowerRoot c) (dc_upperRoot c) (dc_filter c)
    (send_fn (λ _, None)) l u fuel Hd Hl Wl Dl Du (mkWalk 0 (mkStreams [] [] []))) as (e & w' & pre & post & e0 & Hr & Hev & Hdel & He).
  unfold send_fn in Hr. rewrite Hr. apply send_streams in Hdel as (pre' & post' & -> & Hs & He0). simpl in Hs.
  destruct e as [err|].
  - exfalso. destruct He as [-> |[_ [n Hn]]]; [by destruct He0 | done].
  - destruct He as [-> ->]. simpl in He0. subst post'. rewrite Hev, Hs, !app_nil_r. done.
Qed.

(** ** Properties *)

(** C12: On directory trees that stay as they are, the walk always ends.  Its callbacks are given
    the difference of the trees in order: the whole of it when the walk returns nil, and
    otherwise the part up to the error, which is the one a callback returned or the one of the
    context.  Without cancellation and errors the walk is the run of the callbacks on the
    difference. *)
Theorem walk_delivers {S} SecureJoin ReadDir Stat (follow : bool) ctx lowerRoot upperRoot filter (fn : WalkFn S) l u fuel w :
  depth l ≤ fuel → is_dir l = true → wf_tree l →
  on_disk SecureJoin ReadDir Stat follow lowerRoot [] l → upper_on_disk SecureJoin ReadDir Stat follow upperRoot u →
  (∃ e w' pre post e0,
     walkBoth SecureJoin ReadDir Stat ctx lowerRoot upperRoot filter follow fn fuel EmptyString w = Some (e, w')
     ∧ root_events filter l u = pre ++ post ∧ deliver fn pre (wk_state w) = (e0, wk_state w')
     ∧ match e with
       | None => e0 = None ∧ post = []
       | Some err => e0 = Some err ∨ (e0 = None ∧ ∃ n, ctx n = Some err)
       end)
  ∧ ((∀ n, ctx n = None) → ∃ polls,
     walkBoth SecureJoin ReadDir Stat ctx lowerRoot upperRoot filter follow fn fuel EmptyString w
     = let '(e, s) := deliver fn (root_events filter l u) (wk_state w) in Some (e, mkWalk polls s)).
Proof.
  intros Hd Hl Wl Dl Du.
  pose proof (emits_root SecureJoin ReadDir Stat follow ctx lowerRoot upperRoot filter fn l u fuel Hd Hl Wl Dl Du w) as H.
  split; [exact H |]. destruct H as (e & [polls s] & pre & post & e0 & Hr & Hev & Hdel & He). intros Hctx.
  exists polls. rewrite Hr, Hev, deliver_app, Hdel. destruct e as [err|].
  - destruct He as [-> |[_ [n Hn]]]; [done | by rewrite Hctx in Hn].
  - by destruct He as [-> ->].
Qed.

(** C11: A walk that nothing cancels, with callbacks that log what they are given, ends without
    an error and logs what its documentation says.  An entry is reported exactly when the filter
    accepts it and it is missing from an upper directory, or in both and not a directory in
    both; a lower directory that is missing is reported once, as collapsed, or its wanted
    descendants are; one that a file replaces is reported as both.  No entry that is reported
    lies below another one, and none is reported twice.  An upper directory that does not exist
    counts as an empty one. *)
Theorem walk_classifies SecureJoin ReadDir Stat (follow : bool) ctx lowerRoot upperRoot filter l u fuel j :
  depth l ≤ fuel → is_dir l = true → wf_tree l → on_disk SecureJoin ReadDir Stat follow lowerRoot [] l →
  upper_on_disk SecureJoin ReadDir Stat follow upperRoot u → (∀ n, ctx n = None) → fi_IsDir j = true →
  ∃ polls evs,
    walkBoth SecureJoin ReadDir Stat ctx lowerRoot upperRoot filter follow log_fn fuel EmptyString (mkWalk 0 [])
    = Some (None, mkWalk polls evs)
    ∧ (∀ ev, ev ∈ evs ↔ reported filter l (default (Dir j []) u) ev)
    ∧ StronglySorted unrelated (claims evs).
Proof.
  intros Hd Dl Wl Kl Ku Hctx Hj.
  destruct (emits_root SecureJoin ReadDir Stat follow ctx lowerRoot upperRoot filter log_fn l u fuel Hd Dl Wl Kl Ku (mkWalk 0 []))
    as (e & [polls s] & pre & post & e0 & Hr & Hev & Hdel & He).
  rewrite deliver_log in Hdel. injection Hdel as <- <-. simpl in Hr. destruct e as [err|].
  { by destruct He as [He|[_ [n Hn]]]; [| rewrite Hctx in Hn]. }
  destruct He as [_ ->]. rewrite app_nil_r in Hev. exists polls, pre. split; [exact Hr |]. rewrite <- Hev.
  assert (wf_tree (default (Dir j []) u) ∧ is_dir (default (Dir j []) u) = true) as [Wu Du].
  { destruct u as [u|]; [destruct Ku as (? & ? & _); done |]. split; [| done]. by constructor; [| constructor..]. }
  assert (root_events filter l u = diff_events filter [] l (default (Dir j []) u)) as ->.
  { destruct u; [done |]. by destruct l. }
  split; [intros ev; by apply events_reported | by apply diff_claims_apart].
Qed.

(** The streams of [Classify] are the exclusive and the common entries of the difference, in
    order and whole when nothing is cancelled; when the context ends they are those of an
    initial part, and no error is sent.  A required path that the lower directory lacks is the
    only thing sent. *)
Theorem Classify_streams SecureJoin ReadDir Stat Lstat done fuel ctx c l u :
  depth l ≤ fuel → is_dir l = true → wf_tree l →
  on_disk SecureJoin ReadDir Stat (dc_followSymlinks c) (dc_lowerRoot c) [] l →
  upper_on_disk SecureJoin ReadDir Stat (dc_followSymlinks c) (dc_upperRoot c) u →
  context_law ctx → context_law done →
  match validateRequiredPaths Lstat (dc_lowerRoot c) (RequiredPaths (dc_filter c)) with
  | Some e =>
      Classify SecureJoin ReadDir Stat Lstat done fuel ctx c
      = Some (mkStreams [] [] (if decide (done 0 = None) then [e] else []))
  | None =>
      ∃ pre post,
        root_events (dc_filter c) l u = pre ++ post
        ∧ Classify SecureJoin ReadDir Stat Lstat done fuel ctx c = Some (mkStreams (omap excl_of pre) (omap comm_of pre) [])
        ∧ ((∀ n, ctx n = None) → (∀ n, done n = None) → post = [])
  end.
Proof.
  intros Hd Hl Wl Dl Du Lc Ld. unfold Classify.
  destruct (validateRequiredPaths _ _ _) as [e|].
  { unfold sendErr, sends. simpl. case_decide as H0; [by rewrite H0 | by destruct (done 0)]. }
  pose proof (emits_root SecureJoin ReadDir Stat (dc_followSymlinks c) ctx (dc_lowerRoot c) (dc_upperRoot c) (dc_filter c)
    (send_fn done) l u fuel Hd Hl Wl Dl Du (mkWalk 0 (mkStreams [] [] []))) as (e & w' & pre & post & e0 & Hr & Hev & Hdel & He).
  unfold send_fn in Hr. rewrite Hr. apply send_streams in Hdel as (pre' & post' & -> & Hs & He0). simpl in Hs.
  exists pre', (post' ++ post). rewrite Hev, app_assoc. split; [done |]. destruct e as [err|].
  - assert (isContextErr err = true ∧ ((∃ n, ctx n = Some err) ∨ ∃ n, done n = Some err)) as [-> Hor].
    { destruct He as [-> |[_ [n Hn]]]; [destruct He0 as [n Hn] |]; split; eauto. }
    rewrite Hs. split; [done |]. intros Hc Hdn. destruct Hor as [[n Hn]|[n Hn]]; [by rewrite Hc in Hn | by rewrite Hdn in Hn].
  - destruct He as [-> ->]. simpl in He0. subst post'. by rewrite Hs.
Qed.

(** An exclusion below a lower-only directory has no effect: the directory is reported as
    collapsed, so that its removal removes the excluded path. *)
Theorem collapse_ignores_exclusion {M} (pm_New : list string → result M) pm_Matches f l u p q i es :
  literal_law pm_New pm_Matches → NewPatternFilter pm_New [] [rel_path (p ++ q)] [] = Ok f →
  plain (rel_path (p ++ q)) → p ≠ [] → q ≠ [] → Forall seg (p ++ q) → wf_tree (Dir i es) →
  lower_only (pattern_filter pm_Matches f) l u p (Dir i es) →
  let ep := mkExclusive (rel_path p) PathKindDir (Some i) true in
  (∀ b, Include (pattern_filter pm_Matches f) (rel_path (p ++ q)) b = false)
  ∧ reported (pattern_filter pm_Matches f) l u (Excl ep) ∧ covers (rel_path (p ++ q)) ep = true.
Proof.
  intros Hlaw Hf Hpl Hp Hq Hs Hw Hlo ep.
  unfold NewPatternFilter, new_matcher in Hf. simpl in Hf.
  destruct (pm_New [rel_path (p ++ q)]) as [m|] eqn:Hm; [| done]. injection Hf as <-.
  assert (∀ x, matched pm_Matches m x = isPathUnder x (rel_path (p ++ q))) as Hmt.
  { intros x. unfold matched. rewrite (Hlaw _ m x (proj2 (Forall_singleton _ _) Hpl) Hm). simpl. by rewrite orb_false_r. }
  apply Forall_app in Hs as Hs'. destruct Hs' as [Sp Sq].
  assert (p ++ q ≠ []) as Hpq by (by destruct p).
  assert (isPathUnder (rel_path p) (rel_path (p ++ q)) = false) as Hnu.
  { apply not_true_iff_false. rewrite under_rel by done. intros [k E]. rewrite <- app_assoc in E.
    apply (f_equal length) in E. rewrite !length_app in E. destruct q; [done |]. simpl in E. lia. }
  simpl. split_and!.
  - intros b. unfold pf_Include. simpl. by rewrite Hmt, under_refl.
  - left. exists p, (Dir i es). unfold incl. simpl. unfold pf_Include. simpl. rewrite Hmt, Hnu.
    split_and!; try done. by rewrite (wf_dir_kind (Dir i es) Hw eq_refl : PathKindOf i = PathKindDir).
  - unfold covers. simpl. apply under_rel; try done. by apply prefix_app_r.
Qed.

(** ** Witnesses *)

Section sample.
Let file (size : Z) : FileInfo := mkInfo 420 size 0 None.
Let dir : FileInfo := mkInfo (ModeDir + 493) 0 0 None.
Let entry (n : string) (i : FileInfo) : DirEntry := mkEntry n (mode_Type (fi_Mode i)) (Ok i).

Definition sample_lower : tree :=
  Dir dir [("a", Leaf (file 1)); ("d", Dir dir [("x", Leaf (file 2))]); ("s", Dir dir [])].
Definition sample_upper : tree := Dir dir [("a", Leaf (file 3)); ("s", Leaf (file 4)); ("t", Leaf (file 5))].

Definition sample_ReadDir (p : string) : result (list DirEntry) :=
  if decide (p = "/l") then Ok [entry "a" (file 1); entry "d" dir; entry "s" dir]
  else if decide (p = "/l/d") then Ok [entry "x" (file 2)]
  else if decide (p = "/l/s") then Ok []
  else if decide (p = "/u") then Ok [entry "a" (file 3); entry "s" (file 4); entry "t" (file 5)]
  else Err fs_ErrNotExist.
Definition sample_Stat (p : string) : result FileInfo := Err fs_ErrNotExist.
Definition sample_Join (r p : string) : result string := Ok (path_join [r; p]).

Definition sample_events : list event :=
  [Comm (mkCommon "a" PathKindFile (Some (file 1)) (Some (file 3)) None);
   Excl (mkExclusive "d" PathKindDir (Some dir) true);
   Comm (mkCommon "s" PathKindDir (Some dir) (Some (file 4)) None);
   Excl (mkExclusive "s" PathKindDir (Some dir) true)].
End sample.

Ltac wf_sample :=
  repeat first [ apply wf_Dir | apply wf_Leaf | apply SSorted_cons | apply SSorted_nil | apply Forall_cons_2
               | apply Forall_nil_2 | reflexivity | (apply (bool_decide_unpack _); vm_compute; exact I) ].

Lemma sample_wf : wf_tree sample_lower ∧ wf_tree sample_upper.
Proof. unfold sample_lower, sample_upper. split; wf_sample. Defined.

Lemma on_disk_at SJ RD ST fs root p i es abs des :
  SJ root (rel_path p) = Ok abs → readDirResolved RD ST fs abs = Ok des → Forall2 lists des es →
  Forall (λ nt, on_disk SJ RD ST fs root (p ++ [nt.1]) nt.2) es → on_disk SJ RD ST fs root p (Dir i es).
Proof.
  intros HS HR HL HC. eapply on_Dir; [exact HS | exact HR | exact HL |].
  intros n t Hn. apply (Forall_elem _ _ _ HC Hn).
Qed.

Ltac disk_sample :=
  repeat first [ apply on_Leaf
               | eapply on_disk_at; [vm_compute; reflexivity | vm_compute; reflexivity | | ]
               | apply Forall2_cons_2; [split; vm_compute; reflexivity |] | apply Forall2_nil_2
               | apply Forall_cons_2 | apply Forall_nil_2 ].

Lemma sample_disk :
  on_disk sample_Join sample_ReadDir sample_Stat false "/l" [] sample_lower
  ∧ upper_on_disk sample_Join sample_ReadDir sample_Stat false "/u" (Some sample_upper).
Proof.
  split; [unfold sample_lower; disk_sample |].
  split; [reflexivity | split; [apply sample_wf | unfold sample_upper; disk_sample]].
Defined.

Lemma walk_delivers_witness : ∃ polls,
  walkBoth sample_Join sample_ReadDir sample_Stat ctx_background "/l" "/u" NoopFilter false log_fn 3 EmptyString (mkWalk 0 [])
  = Some (None, mkWalk polls sample_events).
Proof.
  destruct (walk_delivers sample_Join sample_ReadDir sample_Stat false ctx_background "/l" "/u" NoopFilter log_fn
    sample_lower (Some sample_upper) 3 (mkWalk 0 [])) as [_ H].
  - vm_compute. repeat constructor.
  - reflexivity.
  - apply sample_wf.
  - apply sample_disk.
  - apply sample_disk.
  - destruct (H (λ _, eq_refl)) as [polls Hp]. exists polls. rewrite Hp. vm_compute. reflexivity.
Defined.

Lemma walk_classifies_witness : ∃ polls,
  walkBoth sample_Join sample_ReadDir sample_Stat ctx_background "/l" "/u" NoopFilter false log_fn 3 EmptyString (mkWalk 0 [])
  = Some (None, mkWalk polls sample_events)
  ∧ (∀ ev, ev ∈ sample_events ↔ reported NoopFilter sample_lower sample_upper ev)
  ∧ StronglySorted unrelated (claims sample_events).
Proof.
  destruct (walk_classifies sample_Join sample_ReadDir sample_Stat false ctx_background "/l" "/u" NoopFilter
    sample_lower (Some sample_upper) 3 (mkInfo (ModeDir + 493) 0 0 None)) as (polls & evs & Hw & H1 & H2).
  - vm_compute. repeat constructor.
  - reflexivity.
  - apply sample_wf.
  - apply sample_disk.
  - apply sample_disk.
  - reflexivity.
  - reflexivity.
  - assert (evs = sample_events) as -> by (vm_compute in Hw; injection Hw as _ <-; reflexivity).
    exists polls. split; [exact Hw |]. split; [exact H1 | exact H2].
Defined.

Definition sample_classifier : DirsyncClassifier := NewClassifier "/l" "/u/" false NoopFilter.

Lemma Classify_streams_witness :
  Classify sample_Join sample_ReadDir sample_Stat sample_Stat (λ _, None) 3 ctx_background sample_classifier
  = Some (mkStreams (omap excl_of sample_events) (omap comm_of sample_events) []).
Proof.
  destruct (Classify_streams sample_Join sample_ReadDir sample_Stat sample_Stat (λ _, None) 3 ctx_background
    sample_classifier sample_lower (Some sample_upper)) as (pre & post & Hev & Hc & Hp).
  - vm_compute. repeat constructor.
  - reflexivity.
  - apply sample_wf.
  - apply sample_disk.
  - apply sample_disk.
  - intros n e H. discriminate H.
  - intros n e H. discriminate H.
  - rewrite Hc. rewrite (Hp (λ _, eq_refl) (λ _, eq_refl)), app_nil_r in Hev. rewrite <- Hev. vm_compute. reflexivity.
Defined.

(** A matcher of literal patterns. *)
Definition lit_New (pats : list string) : result (list string) := Ok pats.
Definition lit_Matches (m : list string) (p : string) : result bool := Ok (existsb (isPathUnder p) m).

Lemma lit_law : literal_law lit_New lit_Matches.
Proof. intros pats m p _ [= <-]. reflexivity. Defined.

Lemma collapse_ignores_exclusion_witness :
  let f := pattern_filter lit_Matches (mkPatternFilter [] ["d/x"] [] None (Some ["d/x"])) in
  Include f "d/x" false = false
  ∧ reported f sample_lower sample_upper (Excl (mkExclusive "d" PathKindDir (Some (mkInfo (ModeDir + 493) 0 0 None)) true)).
Proof.
  pose (es := [("x", Leaf (mkInfo 420 2 0 None))]).
  destruct (collapse_ignores_exclusion lit_New lit_Matches (mkPatternFilter [] ["d/x"] [] None (Some ["d/x"]))
    sample_lower sample_upper ["d"] ["x"] (mkInfo (ModeDir + 493) 0 0 None) es) as (H1 & H2 & _).
  - apply lit_law.
  - reflexivity.
  - split; vm_compute; reflexivity.
  - discriminate.
  - discriminate.
  - apply (bool_decide_unpack _). vm_compute. exact I.
  - unfold es. wf_sample.
  - apply (lo_top _ _ _ [] (match sample_lower with Dir _ ls => ls | _ => [] end)
      (match sample_upper with Dir _ us => us | _ => [] end) "d").
    + eapply both_root; reflexivity.
    + reflexivity.
    + reflexivity.
  - split; [apply H1 | apply H2].
Defined.
