(* ===== verification/DsHasher.v ===== *)
(** * DsHasher: content comparison of two files

    Models [src/internal/dirsync/hasher.go] and [pool.go].  A file is what reading it gives: its
    bytes, and possibly an offset from which reads fail.  The parallel comparison is a state of
    one record per segment, of which the scheduler picks one at a time. *)
From S2P Require Import Prelude GoStd DsTypes.

Local Open Scope Z_scope.

(** ** Reading *)

(** [df_fault = Some (k, e)]: reading at or past the offset [k] fails with [e]. *)
Record disk_file := mkFile {
  df_bytes : list byte;
  df_fault : option (nat * error);
}.

Definition readable (f : disk_file) : list byte :=
  match df_fault f with None => df_bytes f | Some (k, _) => take k (df_bytes f) end.

(** The error behind the readable bytes, if it is not the end of the file. *)
Definition real_fault (f : disk_file) : option error :=
  match df_fault f with
  | Some (k, e) => if decide (k ≤ length (df_bytes f))%nat then Some e else None
  | None => None
  end.

Definition read_chunk (f : disk_file) (n off : Z) : list byte :=
  take (Z.to_nat n) (drop (Z.to_nat off) (readable f)).

(** [f.ReadAt(buf[:n], off)] *)
Definition ReadAt (f : disk_file) (n off : Z) : list byte * option error :=
  let b := read_chunk f n off in
  (b, if Z.of_nat (length b) =? n then None else Some (default io_EOF (real_fault f))).

(** [io.ReadFull(f, buf[:n])] on a file whose offset is [off] *)
Definition ReadFull (f : disk_file) (n off : Z) : list byte * option error :=
  let b := read_chunk f n off in
  (b,
   if Z.of_nat (length b) =? n then None
   else Some match real_fault f with
             | Some e => e
             | None => if decide (b = []) then io_EOF else io_ErrUnexpectedEOF
             end).

(** ** [pool.go] and the settings *)

Definition defaultBufSize : Z := Z.shiftl 64 10.
Definition defaultLargeFileThreshold : Z := Z.shiftl 2 20.
Definition minSegmentSize : Z := defaultBufSize * 4.

(** A pool is the size of its buffers. *)
Definition NewBufPool (size : Z) : Z := if size <=? 0 then defaultBufSize else size.
Definition sharedBufPool : Z := NewBufPool defaultBufSize.

Record TwoPhaseHasher := mkHasher {
  h_BufPool : option Z;
  h_LargeFileThreshold : Z;
  h_SegmentWorkers : Z;
}.

Definition bufPool (h : TwoPhaseHasher) : Z :=
  match h_BufPool h with Some p => p | None => sharedBufPool end.

Definition largeFileThreshold (h : TwoPhaseHasher) : Z :=
  if h_LargeFileThreshold h >? 0 then h_LargeFileThreshold h else defaultLargeFileThreshold.

Definition segmentWorkers (NumCPU : Z) (h : TwoPhaseHasher) : Z :=
  if h_SegmentWorkers h >? 0 then h_SegmentWorkers h else NumCPU.

(** ** Tier 4S *)

Definition isEOFChunk (e : option error) : bool :=
  bool_decide (e = Some io_EOF) || bool_decide (e = Some io_ErrUnexpectedEOF).

(** [ln != un || !bytes.Equal(lBuf[:ln], uBuf[:un])] *)
Definition chunks_differ (lb ub : list byte) : bool :=
  negb (length lb =? length ub)%nat || negb (bool_decide (lb = ub)).

(** Both offsets are [off]: the loop goes on only after two full chunks. *)
Fixpoint sequential_loop (fuel : nat) (lowerAbs upperAbs : string) (lf uf : disk_file) (buf off : Z) :
    option (result bool) :=
  match fuel with
  | O => None
  | S fuel =>
      let '(lb, lErr) := ReadFull lf buf off in
      let '(ub, uErr) := ReadFull uf buf off in
      if chunks_differ lb ub then Some (Ok false)
      else if isEOFChunk lErr && isEOFChunk uErr then Some (Ok true)
      else if negb (Bool.eqb (isEOFChunk lErr) (isEOFChunk uErr)) then Some (Ok false)
      else
        match lErr with
        | Some e => Some (Err (EWrap ["read lower"; lowerAbs] e))
        | None =>
            match uErr with
            | Some e => Some (Err (EWrap ["read upper"; upperAbs] e))
            | None => sequential_loop fuel lowerAbs upperAbs lf uf buf (off + Z.of_nat (length lb))
            end
        end
  end.

(** ** Tier 4P *)

Definition segSize_of (workers size : Z) : Z :=
  let segSize := size / workers in if segSize <? minSegmentSize then minSegmentSize else segSize.

Definition numSegments_of (segSize size : Z) : Z := (size + segSize - 1) / segSize.

(** The segments, as offset and length. *)
Definition segments (segSize size : Z) : list (Z * Z) :=
  (λ i : nat,
    let off := Z.of_nat i * segSize in
    (off, if (Z.of_nat i =? numSegments_of segSize size - 1) then size - off else segSize))
  <$> seq 0 (Z.to_nat (numSegments_of segSize size)).

(** A goroutine in [compareSegment], at its position; or what it returned. *)
Inductive seg_state :=
  | SegAt (pos : Z)
  | SegDone (equal : bool) (err : option error).

(** One iteration of the loop of [compareSegment]. *)
Definition compareSegment_step (lowerAbs upperAbs : string) (lf uf : disk_file) (buf end_ : Z) (cancelled : bool)
    (pos : Z) : seg_state :=
  if pos <? end_ then
    if cancelled then SegDone false None
    else
      let chunkLen := if end_ - pos <? buf then end_ - pos else buf in
      let '(lb, lErr) := ReadAt lf chunkLen pos in
      let '(ub, uErr) := ReadAt uf chunkLen pos in
      if chunks_differ lb ub then SegDone false None
      else if Z.of_nat (length lb) <? chunkLen then SegDone true None
      else
        let pos := pos + Z.of_nat (length lb) in
        if bool_decide (lErr ≠ None ∧ lErr ≠ Some io_EOF)
        then SegDone false (EWrap ["read lower"; lowerAbs] <$> lErr)
        else if bool_decide (uErr ≠ None ∧ uErr ≠ Some io_EOF)
        then SegDone false (EWrap ["read upper"; upperAbs] <$> uErr)
        else SegAt pos
  else SegDone true None.

Record par_state := mkPar {
  par_segs : list (Z * Z * seg_state);
  par_cancelled : bool;
}.

Definition par_init (segs : list (Z * Z)) : par_state := mkPar ((λ ol, (ol, SegAt ol.1)) <$> segs) false.

(** The goroutine [i] runs one iteration; one that returns a difference or an error stores it
    and calls [cancelAll]. *)
Definition par_step (lowerAbs upperAbs : string) (lf uf : disk_file) (buf : Z) (st : par_state) (i : nat) : par_state :=
  match par_segs st !! i with
  | Some (off, ln, SegAt pos) =>
      let r := compareSegment_step lowerAbs upperAbs lf uf buf (off + ln) (par_cancelled st) pos in
      mkPar (<[i := (off, ln, r)]> (par_segs st))
            (par_cancelled st
             || match r with SegDone eq err => negb eq || bool_decide (err ≠ None) | SegAt _ => false end)
  | _ => st
  end.

(** The loop over the results. *)
Fixpoint results_loop (segs : list (Z * Z * seg_state)) : result bool :=
  match segs with
  | (_, SegDone eq err) :: segs' =>
      match err with
      | Some e => Err e
      | None => if negb eq then Ok false else results_loop segs'
      end
  | _ => Ok true
  end.

Definition seg_running (s : Z * Z * seg_state) : bool :=
  match s.2 with SegAt _ => true | SegDone _ _ => false end.

(** It runs after [wg.Wait()]: [None] while a goroutine runs. *)
Definition par_results (segs : list (Z * Z * seg_state)) : option (result bool) :=
  if existsb seg_running segs then None else Some (results_loop segs).

Definition par_run (lowerAbs upperAbs : string) (lf uf : disk_file) (buf : Z) (segs : list (Z * Z)) (sched : list nat) :
    par_state :=
  foldl (par_step lowerAbs upperAbs lf uf buf) (par_init segs) sched.

(** ** [TwoPhaseHasher] *)

Section hasher.
Context (Open : string → result disk_file) (Readlink : string → result string) (NumCPU : Z).
(** The order in which the goroutines of a parallel comparison run. *)
Context (sched : list nat) (h : TwoPhaseHasher).

Definition compareContentsSequential (lowerAbs upperAbs : string) : option (result bool) :=
  match Open lowerAbs with
  | Err e => Some (Err (EWrap ["open lower"; lowerAbs] e))
  | Ok lf =>
      match Open upperAbs with
      | Err e => Some (Err (EWrap ["open upper"; upperAbs] e))
      | Ok uf => sequential_loop (S (length (df_bytes lf))) lowerAbs upperAbs lf uf (bufPool h) 0
      end
  end.

Definition compareContentsParallel (lowerAbs upperAbs : string) (size : Z) : option (result bool) :=
  match Open lowerAbs with
  | Err e => Some (Err (EWrap ["open lower"; lowerAbs] e))
  | Ok lf =>
      match Open upperAbs with
      | Err e => Some (Err (EWrap ["open upper"; upperAbs] e))
      | Ok uf =>
          let segs := segments (segSize_of (segmentWorkers NumCPU h) size) size in
          par_results (par_segs (par_run lowerAbs upperAbs lf uf (bufPool h) segs sched))
      end
  end.

Definition sameInode (a b : FileInfo) : bool :=
  match fi_Sys a, fi_Sys b with
  | Some (da, ia), Some (db, ib) => (da =? db)%N && (ia =? ib)%N
  | _, _ => false
  end.

Definition compareRegularFiles (lowerAbs upperAbs : string) (lowerInfo upperInfo : FileInfo) : option (result bool) :=
  if sameInode lowerInfo upperInfo then Some (Ok true)
  else if negb (fi_Size lowerInfo =? fi_Size upperInfo) then Some (Ok false)
  else if fi_ModTime lowerInfo =? fi_ModTime upperInfo then Some (Ok true)
  else if fi_Size lowerInfo >=? largeFileThreshold h
  then compareContentsParallel lowerAbs upperAbs (fi_Size lowerInfo)
  else compareContentsSequential lowerAbs upperAbs.

Definition compareSymlinks (lowerAbs upperAbs : string) : result bool :=
  match Readlink lowerAbs with
  | Err e => Err (EWrap ["readlink lower"; lowerAbs] e)
  | Ok lt =>
      match Readlink upperAbs with
      | Err e => Err (EWrap ["readlink upper"; upperAbs] e)
      | Ok ut => Ok (bool_decide (lt = ut))
      end
  end.

Definition compareDirectories (lowerInfo upperInfo : FileInfo) : bool :=
  (mode_Perm (fi_Mode lowerInfo) =? mode_Perm (fi_Mode upperInfo))%N
  && (fi_ModTime lowerInfo =? fi_ModTime upperInfo).

Definition Equal (lowerAbs upperAbs : string) (lowerInfo upperInfo : FileInfo) : option (result bool) :=
  if negb (mode_Type (fi_Mode lowerInfo) =? mode_Type (fi_Mode upperInfo))%N then Some (Ok false)
  else if mode_IsSymlink (fi_Mode lowerInfo) then Some (compareSymlinks lowerAbs upperAbs)
  else if fi_IsDir lowerInfo then Some (Ok (compareDirectories lowerInfo upperInfo))
  else if mode_IsRegular (fi_Mode lowerInfo) then compareRegularFiles lowerAbs upperAbs lowerInfo upperInfo
  else Some (Ok (fi_Mode lowerInfo =? fi_Mode upperInfo)%N).
End hasher.

(** ** Lemmas on chunks *)

Lemma chunks_differ_spec lb ub : chunks_differ lb ub = negb (bool_decide (lb = ub)).
Proof.
  unfold chunks_differ. case_bool_decide as H; [subst; by rewrite Nat.eqb_refl |]. apply orb_true_r.
Qed.

Section compare.
Context (lowerAbs upperAbs : string) (lf uf : disk_file).

(** The files read the same between two offsets. *)
Definition agree (a b : Z) : Prop :=
  ∀ x, a ≤ x < b → readable lf !! Z.to_nat x = readable uf !! Z.to_nat x.

Lemma chunk_lookup f n off i : (Z.of_nat i < n) → read_chunk f n off !! i = readable f !! (Z.to_nat off + i)%nat.
Proof. intros Hi. unfold read_chunk. rewrite lookup_take_lt by lia. apply lookup_drop. Qed.

Lemma chunk_agree n off : 0 ≤ off → read_chunk lf n off = read_chunk uf n off ↔ agree off (off + n).
Proof.
  intros Hoff. split.
  - intros E x Hx. pose proof (chunk_lookup lf n off (Z.to_nat (x - off)) ltac:(lia)) as H.
    rewrite E, chunk_lookup in H by lia. by replace (Z.to_nat off + Z.to_nat (x - off))%nat with (Z.to_nat x) in H by lia.
  - intros H. apply list_eq. intros i. destruct (decide (Z.of_nat i < n)) as [Hi|Hi].
    + rewrite !chunk_lookup by done. specialize (H (off + Z.of_nat i) ltac:(lia)).
      by replace (Z.to_nat (off + Z.of_nat i)) with (Z.to_nat off + i)%nat in H by lia.
    + unfold read_chunk. by rewrite !lookup_take_ge by lia.
Qed.

Lemma chunk_length f n off : 0 ≤ n → Z.of_nat (length (read_chunk f n off)) = Z.min n (Z.max 0 (Z.of_nat (length (readable f)) - Z.max 0 off)).
Proof. intros Hn. unfold read_chunk. rewrite length_take, length_drop. lia. Qed.

Lemma chunk_full f n off : 0 ≤ n → Z.of_nat (length (read_chunk f n off)) ≤ n.
Proof. intros Hn. rewrite chunk_length by done. lia. Qed.

(** Two equal chunks that are short end both files. *)
Lemma short_agree n off b :
  0 ≤ off → 0 ≤ n → read_chunk lf n off = read_chunk uf n off → Z.of_nat (length (read_chunk lf n off)) < n → agree off b.
Proof.
  intros Hoff Hn E Hs x Hx. pose proof Hs as Hs'. rewrite chunk_length in Hs by done. rewrite E, chunk_length in Hs' by done.
  destruct (decide (x < off + n)) as [Hlt|Hge].
  - apply (proj1 (chunk_agree n off Hoff) E). lia.
  - rewrite !lookup_ge_None_2 by lia. done.
Qed.

Lemma agree_take size : 0 ≤ size →
  agree 0 size ↔ take (Z.to_nat size) (readable lf) = take (Z.to_nat size) (readable uf).
Proof. intros Hs. rewrite <- (Z.add_0_l size) at 1. by rewrite <- chunk_agree by lia. Qed.

Lemma agree_join a b c : agree a b → agree b c → agree a c.
Proof. intros H1 H2 x Hx. destruct (decide (x < b)); [apply H1 | apply H2]; lia. Qed.

Lemma agree_sub a b c d : agree a b → a ≤ c → d ≤ b → agree c d.
Proof. intros H ? ? x Hx. apply H. lia. Qed.

Lemma agree_all : agree 0 (Z.max (Z.of_nat (length (readable lf))) (Z.of_nat (length (readable uf)))) ↔ readable lf = readable uf.
Proof. rewrite agree_take by lia. by rewrite !take_ge by lia. Qed.

(** ** The sequential comparison *)

(** What the comparison says of two files: an error that both files give where they end alike is
    reported; one on one side only counts as a difference. *)
Definition sequential_answer : result bool :=
  if decide (readable lf = readable uf) then
    match real_fault lf, real_fault uf with
    | None, None => Ok true
    | Some e, Some _ => Err (EWrap ["read lower"; lowerAbs] e)
    | _, _ => Ok false
    end
  else Ok false.

(** An error of the disk is not one of the two the package [io] makes. *)
Definition disk_error (f : disk_file) : Prop :=
  ∀ e, real_fault f = Some e → e ≠ io_EOF ∧ e ≠ io_ErrUnexpectedEOF.

Lemma ReadFull_eof f buf off :
  disk_error f → Z.of_nat (length (read_chunk f buf off)) ≠ buf →
  isEOFChunk (ReadFull f buf off).2 = bool_decide (real_fault f = None).
Proof.
  intros Hd Hs. unfold ReadFull. simpl. rewrite (proj2 (Z.eqb_neq _ _) Hs). unfold isEOFChunk.
  destruct (real_fault f) as [e|] eqn:Hf; [| by case_decide].
  destruct (Hd e Hf) as [H1 H2]. by rewrite !bool_decide_eq_false_2 by congruence.
Qed.

Lemma sequential_loop_spec fuel buf off :
  0 < buf → 0 ≤ off → disk_error lf → disk_error uf → agree 0 off → off ≤ Z.of_nat (length (readable lf)) →
  Z.of_nat (length (readable lf)) - off < Z.of_nat fuel →
  sequential_loop fuel lowerAbs upperAbs lf uf buf off = Some sequential_answer.
Proof.
  intros Hbuf Hoff Dl Du. revert off Hoff. induction fuel as [|fuel IH]; intros off Hoff Ha Hle Hf; [lia |].
  cbn [sequential_loop]. destruct (ReadFull lf buf off) as [lb lErr] eqn:El. destruct (ReadFull uf buf off) as [ub uErr] eqn:Eu.
  assert (lb = read_chunk lf buf off) as Hlb by (by apply (f_equal fst) in El).
  assert (ub = read_chunk uf buf off) as Hub by (by apply (f_equal fst) in Eu).
  rewrite chunks_differ_spec. case_bool_decide as Hc; simpl.
  2: { unfold sequential_answer. rewrite decide_False; [done |]. intros E. apply Hc. rewrite Hlb, Hub. unfold read_chunk. by rewrite E. }
  rewrite Hlb, Hub in Hc. destruct (decide (Z.of_nat (length lb) = buf)) as [Hfull|Hshort].
  - assert (lErr = None ∧ uErr = None) as [-> ->].
    { apply (f_equal snd) in El, Eu. simpl in El, Eu. rewrite <- Hc, <- Hlb in *. rewrite Hfull, Z.eqb_refl in El, Eu. done. }
    simpl. apply IH.
    + lia.
    + apply (agree_join _ off); [done |]. rewrite Hfull. by apply chunk_agree.
    + rewrite Hlb. rewrite Hlb, chunk_length in Hfull by lia. rewrite chunk_length by lia. lia.
    + lia.
  - assert (readable lf = readable uf) as E.
    { apply agree_all. apply (agree_join _ off); [done |]. apply (short_agree buf); try done; try lia.
      pose proof (chunk_full lf buf off ltac:(lia)). rewrite Hlb in Hshort. lia. }
    assert (isEOFChunk lErr = bool_decide (real_fault lf = None)) as HL.
    { rewrite <- (ReadFull_eof lf buf off), El by (done || by rewrite <- Hlb). done. }
    assert (isEOFChunk uErr = bool_decide (real_fault uf = None)) as HU.
    { rewrite <- (ReadFull_eof uf buf off), Eu by (done || by rewrite <- Hc, <- Hlb). done. }
    rewrite HL, HU. unfold sequential_answer. rewrite decide_True by done.
    apply (f_equal snd) in El. simpl in El. rewrite <- Hlb, (proj2 (Z.eqb_neq _ _) Hshort) in El.
    destruct (real_fault lf) as [e|], (real_fault uf) as [e'|]; simpl; try done. by rewrite <- El.
Qed.

(** ** The parallel comparison *)

(** What a goroutine knows: the bytes before its position agree; what it returned is so. *)
Definition seg_inv (size : Z) (s : Z * Z * seg_state) : Prop :=
  let '(off, ln, r) := s in
  0 ≤ off ∧ off + ln ≤ size ∧
  match r with
  | SegAt pos => off ≤ pos ∧ agree off pos
  | SegDone eq err => err = None ∧ if eq then agree off (off + ln) else ¬ agree 0 size
  end.

Definition par_inv (size : Z) (st : par_state) : Prop :=
  Forall (seg_inv size) (par_segs st) ∧ (par_cancelled st = true → ¬ agree 0 size).

Notation step := (compareSegment_step lowerAbs upperAbs lf uf).

(** An iteration moves on, or ends with the truth, or ends because another one found a
    difference; the errors of the reads do not appear. *)
Lemma segment_step buf off ln size c pos :
  0 < buf → 0 ≤ off → off + ln ≤ size → off ≤ pos → agree off pos → (c = true → ¬ agree 0 size) →
  seg_inv size (off, ln, step buf (off + ln) c pos)
  ∧ match step buf (off + ln) c pos with
    | SegAt pos' => pos < pos' ∧ pos < off + ln
    | SegDone _ _ => True
    end.
Proof.
  intros Hbuf Hoff Hsz Hpos Ha Hc. unfold compareSegment_step.
  destruct (Z.ltb_spec pos (off + ln)) as [Hlt|Hge].
  2: { simpl. split_and!; try done. by apply (agree_sub off pos); try lia. }
  destruct c; [simpl; by split_and!; try apply Hc |].
  set (n := if off + ln - pos <? buf then off + ln - pos else buf).
  assert (0 < n ∧ n ≤ off + ln - pos) as [Hn Hn'] by (unfold n; destruct (Z.ltb_spec (off + ln - pos) buf); lia).
  unfold ReadAt. rewrite chunks_differ_spec. case_bool_decide as E; simpl.
  2: { split_and!; try done. intros H. apply E, chunk_agree; [lia |]. by apply (agree_sub 0 size); try lia. }
  pose proof (chunk_full lf n pos ltac:(lia)) as Hle. destruct (Z.ltb_spec (Z.of_nat (length (read_chunk lf n pos))) n) as [Hs|Hfull].
  - simpl. split_and!; try done. apply (agree_join _ pos); [done |]. by apply (short_agree n); try lia.
  - assert (Z.of_nat (length (read_chunk lf n pos)) = n) as Hn2 by lia. rewrite <- E, Hn2, Z.eqb_refl. simpl.
    split_and!; try done; try lia. apply (agree_join _ pos); [done |]. by apply chunk_agree; [lia |].
Qed.

Lemma par_step_inv buf size st i : 0 < buf → par_inv size st → par_inv size (par_step lowerAbs upperAbs lf uf buf st i).
Proof.
  intros Hbuf [Hs Hc]. unfold par_step. destruct (par_segs st !! i) as [[[off ln] [pos|eq err]]|] eqn:Hi; [| done..].
  destruct (Forall_lookup_1 _ _ _ _ Hs Hi) as (H1 & H2 & H3 & H4).
  destruct (segment_step buf off ln size (par_cancelled st) pos) as [Hinv _]; [done.. |].
  split; simpl; [by apply Forall_insert |]. destruct (par_cancelled st); [done |].
  destruct (compareSegment_step _ _ _ _ _ _ _ _) as [|[] err]; try done; destruct Hinv as (_ & _ & -> & Hinv); done.
Qed.

Lemma par_run_inv buf size segs sched :
  0 < buf → Forall (λ ol, 0 ≤ ol.1 ∧ ol.1 + ol.2 ≤ size) segs →
  par_inv size (par_run lowerAbs upperAbs lf uf buf segs sched).
Proof.
  intros Hbuf Hsegs. unfold par_run. assert (par_inv size (par_init segs)) as H0.
  { split; [| done]. simpl. apply Forall_fmap. eapply Forall_impl; [exact Hsegs |]. intros [off ln] [? ?]. simpl in *.
    split_and!; try done. intros x Hx. lia. }
  revert H0. generalize (par_init segs) as st. induction sched as [|i sched IH]; intros st H; simpl; [done |].
  by apply IH, par_step_inv.
Qed.

Lemma par_step_offsets buf st i :
  (par_segs (par_step lowerAbs upperAbs lf uf buf st i)).*1 = (par_segs st).*1.
Proof.
  unfold par_step. destruct (par_segs st !! i) as [[[off ln] [pos|eq err]]|] eqn:Hi; [| done..]. simpl.
  rewrite list_fmap_insert. apply list_insert_id. by rewrite list_lookup_fmap, Hi.
Qed.

Lemma par_run_offsets buf segs sched :
  (par_segs (par_run lowerAbs upperAbs lf uf buf segs sched)).*1 = segs.
Proof.
  unfold par_run. assert ((par_segs (par_init segs)).*1 = segs) as H0.
  { simpl. rewrite <- list_fmap_compose. apply list_fmap_id. }
  revert H0. generalize (par_init segs) as st. induction sched as [|i sched IH]; intros st H; simpl; [done |].
  apply IH. by rewrite par_step_offsets.
Qed.

(** The verdict, once all goroutines have returned. *)
Lemma results_spec size segs :
  Forall (seg_inv size) segs → existsb seg_running segs = false →
  (results_loop segs = Ok true ∧ Forall (λ s, agree s.1.1 (s.1.1 + s.1.2)) segs)
  ∨ (results_loop segs = Ok false ∧ ¬ agree 0 size).
Proof.
  induction 1 as [|[[off ln] [pos|eq err]] segs Hs H IH]; simpl; [by left | done |].
  intros Hr. destruct Hs as (_ & _ & -> & Hs). destruct eq; simpl; [| by right].
  destruct (IH Hr) as [[-> Ha]|[-> Hn]]; [left | right]; split; try done. by constructor.
Qed.

(** The number of turns that a goroutine still needs. *)
Definition turns (s : Z * Z * seg_state) : nat :=
  match s with
  | (off, ln, SegAt pos) => S (Z.to_nat (off + ln - pos))
  | (_, SegDone _ _) => 0
  end.

Definition count (i : nat) (sched : list nat) : nat := length (filter (λ j, j = i) sched).

Lemma par_step_turns buf size st j i s :
  0 < buf → par_inv size st → par_segs st !! i = Some s →
  ∃ s', par_segs (par_step lowerAbs upperAbs lf uf buf st j) !! i = Some s' ∧
    (turns s' ≤ turns s - if decide (j = i) then 1 else 0)%nat.
Proof.
  intros Hbuf [Hs Hc] Hi. unfold par_step.
  destruct (par_segs st !! j) as [[[off ln] [pos|eq err]]|] eqn:Hj.
  - case_decide as E.
    + subst j. rewrite Hi in Hj. injection Hj as ->. simpl. rewrite list_lookup_insert_eq by (by eapply lookup_lt_Some).
      eexists. split; [done |]. destruct (Forall_lookup_1 _ _ _ _ Hs Hi) as (H1 & H2 & H3 & H4).
      destruct (segment_step buf off ln size (par_cancelled st) pos) as [_ Hm]; [done.. |].
      destruct (compareSegment_step _ _ _ _ _ _ _ _) as [pos'|]; simpl; lia.
    + simpl. rewrite list_lookup_insert_ne by done. exists s. split; [done | lia].
  - case_decide as E; [| exists s; split; [done | lia]]. subst j. rewrite Hi in Hj. injection Hj as ->. by eexists.
  - exists s. split; [done |]. case_decide as E; [| lia]. subst j. by rewrite Hi in Hj.
Qed.

Lemma par_run_turns buf size sched st i s :
  0 < buf → par_inv size st → par_segs st !! i = Some s →
  ∃ s', par_segs (foldl (par_step lowerAbs upperAbs lf uf buf) st sched) !! i = Some s'
    ∧ (turns s' ≤ turns s - count i sched)%nat.
Proof.
  intros Hbuf. revert st s. induction sched as [|j sched IH]; intros st s Hinv Hi; simpl.
  - exists s. split; [done | unfold count; simpl; lia].
  - destruct (par_step_turns buf size st j i s Hbuf Hinv Hi) as (s1 & H1 & Ht1).
    destruct (IH _ s1 (par_step_inv _ _ _ _ Hbuf Hinv) H1) as (s2 & H2 & Ht2). exists s2. split; [done |].
    unfold count in *. rewrite filter_cons. case_decide; simpl; lia.
Qed.
End compare.

(** ** The segments cover the file *)

Lemma num_bounds sz size : 0 < sz → 0 < size →
  0 < numSegments_of sz size ∧ (numSegments_of sz size - 1) * sz < size ≤ numSegments_of sz size * sz.
Proof.
  intros Hz Hs. unfold numSegments_of. pose proof (Z.div_mod (size + sz - 1) sz ltac:(lia)) as E.
  pose proof (Z.mod_pos_bound (size + sz - 1) sz Hz). nia.
Qed.

Lemma segments_elem sz size off ln : 0 < sz → 0 < size → (off, ln) ∈ segments sz size → 0 ≤ off ∧ off + ln ≤ size.
Proof.
  intros Hz Hs (i & E & Hi)%list_elem_of_fmap. apply elem_of_seq in Hi. injection E as -> ->.
  pose proof (num_bounds sz size Hz Hs). destruct (Z.eqb_spec (Z.of_nat i) (numSegments_of sz size - 1)); nia.
Qed.

Lemma segments_cover sz size x : 0 < sz → 0 ≤ x < size → ∃ off ln, (off, ln) ∈ segments sz size ∧ off ≤ x < off + ln.
Proof.
  intros Hz Hx. pose proof (num_bounds sz size Hz ltac:(lia)) as Hnum.
  pose proof (Z.div_mod x sz ltac:(lia)) as E. pose proof (Z.mod_pos_bound x sz Hz) as Hm.
  assert (0 ≤ x / sz) as Hq by (apply Z.div_pos; lia).
  assert (x / sz < numSegments_of sz size) as Hlt by nia.
  eexists _, _. split.
  - apply list_elem_of_fmap. exists (Z.to_nat (x / sz)). split; [reflexivity |]. apply elem_of_seq. lia.
  - rewrite Z2Nat.id by done. destruct (Z.eqb_spec (x / sz) (numSegments_of sz size - 1)); nia.
Qed.

Lemma segSize_pos workers size : 0 < segSize_of workers size.
Proof. assert (0 < minSegmentSize) by done. unfold segSize_of. destruct (Z.ltb_spec (size / workers) minSegmentSize); lia. Qed.

Lemma regular_not_symlink m : mode_IsRegular m = true → mode_IsSymlink m = false.
Proof.
  unfold mode_IsRegular, mode_IsSymlink. rewrite negb_false_iff, !N.eqb_eq. intros H.
  assert (N.land ModeType ModeSymlink = ModeSymlink) as <- by done. by rewrite N.land_assoc, H.
Qed.

Lemma regular_not_dir i : mode_IsRegular (fi_Mode i) = true → fi_IsDir i = false.
Proof. intros H. apply not_true_iff_false. intros Hd%mode_kinds. by rewrite Hd in H. Qed.

Lemma parallel_run lowerAbs upperAbs lf uf buf workers size :
  0 < buf → 0 < size →
  let segs := segments (segSize_of workers size) size in
  let run sched := par_results (par_segs (par_run lowerAbs upperAbs lf uf buf segs sched)) in
  (∀ sched r, run sched = Some r →
     r = Ok (bool_decide (take (Z.to_nat size) (readable lf) = take (Z.to_nat size) (readable uf))))
  ∧ (∀ sched, run sched = None → ∃ i off ln, segs !! i = Some (off, ln) ∧ (count i sched ≤ Z.to_nat ln)%nat).
Proof.
  intros Hbuf Hs segs run.
  assert (∀ sched, par_inv lf uf size (par_run lowerAbs upperAbs lf uf buf segs sched)) as Hinv.
  { intros sched. apply par_run_inv; [done |]. apply Forall_forall. intros [off ln] H. simpl.
    eapply segments_elem, H; [apply segSize_pos | done]. }
  split.
  - intros sched r. unfold run, par_results. destruct (existsb _ _) eqn:Hrun; [done |]. intros [= <-].
    destruct (results_spec lf uf size _ (proj1 (Hinv sched)) Hrun) as [[-> Ha]|[-> Hn]]; f_equal; symmetry.
    + apply bool_decide_eq_true_2, agree_take; [lia |]. intros x Hx.
      destruct (segments_cover (segSize_of workers size) size x (segSize_pos _ _) Hx) as (off & ln & Hin & Hxo).
      change (segments _ _) with segs in Hin. rewrite <- (par_run_offsets lowerAbs upperAbs lf uf buf segs sched) in Hin.
      apply list_elem_of_fmap in Hin as ([ol r] & E & Hin). simpl in E. subst ol.
      rewrite Forall_forall in Ha. by apply (Ha _ Hin).
    + apply bool_decide_eq_false_2. by rewrite <- agree_take by lia.
  - intros sched. unfold run, par_results. destruct (existsb _ _) eqn:Hrun; [intros _ | done].
    apply existsb_exists in Hrun as ([[off ln] r] & Hin & Hr). apply list_elem_of_In, list_elem_of_lookup in Hin as [i Hi].
    pose proof (par_run_offsets lowerAbs upperAbs lf uf buf segs sched) as Ho. apply (f_equal (λ l, l !! i)) in Ho.
    rewrite list_lookup_fmap, Hi in Ho. simpl in Ho. symmetry in Ho.
    assert (par_segs (par_init segs) !! i = Some (off, ln, SegAt off)) as H0 by (simpl; by rewrite list_lookup_fmap, Ho).
    destruct (par_run_turns lowerAbs upperAbs lf uf buf size sched _ i _ Hbuf (Hinv []) H0) as (s' & Hs' & Ht).
    unfold par_run in Hi, Hs'. simpl in Hs'. rewrite Hi in Hs'. injection Hs' as <-. simpl in Ht. exists i, off, ln. split; [done |].
    destruct r as [pos|]; [| done]. replace (off + ln - off) with ln in Ht by lia. lia.
Qed.

(** ** Properties *)

(** C13: In every schedule the parallel comparison of two files ends when each of its goroutines
    has had as many turns as its segment has bytes, plus one, and whenever it ends its answer is
    whether the readable bytes agree up to the size, however large the buffers, however many
    the workers and whichever goroutine cancels the others. *)
Theorem parallel_comparison lowerAbs upperAbs lf uf buf workers size :
  0 < buf → 0 < size →
  let segs := segments (segSize_of workers size) size in
  let run sched := par_results (par_segs (par_run lowerAbs upperAbs lf uf buf segs sched)) in
  (∀ sched r, run sched = Some r →
     r = Ok (bool_decide (take (Z.to_nat size) (readable lf) = take (Z.to_nat size) (readable uf))))
  ∧ (∀ sched, (∀ i off ln, segs !! i = Some (off, ln) → (Z.to_nat ln < count i sched)%nat) → run sched ≠ None).
Proof.
  intros Hbuf Hs segs run. destruct (parallel_run lowerAbs upperAbs lf uf buf workers size Hbuf Hs) as [H1 H2].
  split; [exact H1 |]. intros sched Hc Hn. destruct (H2 sched Hn) as (i & off & ln & Hi & Hle).
  specialize (Hc i off ln Hi). lia.
Qed.

(** An error of the disk is lost by the parallel comparison: two files that read the same up
    to an offset from which both fail compare equal, whatever their bytes are from there on.
    The sequential comparison of the same files returns the error. *)
Theorem parallel_hides_errors lowerAbs upperAbs (pre lrest urest : list byte) el eu buf workers size sched r fuel :
  0 < buf → 0 < size → el ≠ io_EOF ∧ el ≠ io_ErrUnexpectedEOF → eu ≠ io_EOF ∧ eu ≠ io_ErrUnexpectedEOF →
  let lf := mkFile (pre ++ lrest) (Some (length pre, el)) in
  let uf := mkFile (pre ++ urest) (Some (length pre, eu)) in
  par_results (par_segs (par_run lowerAbs upperAbs lf uf buf (segments (segSize_of workers size) size) sched)) = Some r →
  (length pre < fuel)%nat →
  r = Ok true ∧ sequential_loop fuel lowerAbs upperAbs lf uf buf 0 = Some (Err (EWrap ["read lower"; lowerAbs] el)).
Proof.
  intros Hbuf Hs Hel Heu lf uf Hr Hf.
  assert (readable lf = pre ∧ readable uf = pre) as [El Eu] by (unfold readable; simpl; by rewrite !take_app_length).
  assert (real_fault lf = Some el ∧ real_fault uf = Some eu) as [Fl Fu].
  { unfold real_fault. simpl. by rewrite !decide_True by (rewrite length_app; lia). }
  split.
  - destruct (parallel_run lowerAbs upperAbs lf uf buf workers size Hbuf Hs) as [H _].
    rewrite (H sched r Hr), El, Eu. by rewrite bool_decide_eq_true_2.
  - rewrite sequential_loop_spec; try done; try lia.
    + unfold sequential_answer. by rewrite decide_True, Fl, Fu by (by rewrite El, Eu).
    + intros e. rewrite Fl. by intros [= <-].
    + intros e. rewrite Fu. by intros [= <-].
    + intros x Hx. lia.
    + rewrite El. lia.
Qed.

(** What the metadata of two files promise: sizes are those of the contents, one inode is one
    file, and a file that changes gets another modification time or size. *)
Definition metadata_law (lf uf : disk_file) (li ui : FileInfo) : Prop :=
  fi_Size li = Z.of_nat (length (df_bytes lf)) ∧ fi_Size ui = Z.of_nat (length (df_bytes uf))
  ∧ (sameInode li ui = true → df_bytes lf = df_bytes uf)
  ∧ (fi_Size li = fi_Size ui → fi_ModTime li = fi_ModTime ui → df_bytes lf = df_bytes uf).

(** Two regular files that can be read compare equal exactly when their bytes are equal, at
    every tier: when the answer comes from inodes, sizes or times without reading, from the
    sequential comparison or, in every schedule that runs to its end, from the parallel one. *)
Theorem Equal_compares_content Open Readlink NumCPU sched h lowerAbs upperAbs lb ub li ui :
  let lf := mkFile lb None in let uf := mkFile ub None in
  Open lowerAbs = Ok lf → Open upperAbs = Ok uf → metadata_law lf uf li ui →
  mode_IsRegular (fi_Mode li) = true → mode_Type (fi_Mode li) = mode_Type (fi_Mode ui) →
  0 < bufPool h →
  (Equal Open Readlink NumCPU sched h lowerAbs upperAbs li ui = None →
     fi_Size li >= largeFileThreshold h
     ∧ ∃ i off ln, segments (segSize_of (segmentWorkers NumCPU h) (fi_Size li)) (fi_Size li) !! i = Some (off, ln)
         ∧ (count i sched ≤ Z.to_nat ln)%nat)
  ∧ ∀ r, Equal Open Readlink NumCPU sched h lowerAbs upperAbs li ui = Some r → r = Ok (bool_decide (lb = ub)).
Proof.
  intros lf uf Ol Ou (Sl & Su & Hino & Htime) Hreg Htype Hbuf. simpl in Sl, Su.
  unfold Equal. rewrite Htype, N.eqb_refl. simpl. rewrite regular_not_symlink, regular_not_dir by done. rewrite Hreg.
  unfold compareRegularFiles. destruct (sameInode li ui) eqn:Hi; simpl.
  { split; [done |]. intros r [= <-]. by rewrite bool_decide_eq_true_2 by by apply Hino. }
  destruct (Z.eqb_spec (fi_Size li) (fi_Size ui)) as [Hsz|Hsz]; simpl.
  2: { split; [done |]. intros r [= <-]. rewrite bool_decide_eq_false_2; [done |]. intros E. subst. lia. }
  destruct (Z.eqb_spec (fi_ModTime li) (fi_ModTime ui)) as [Ht|Ht].
  { split; [done |]. intros r [= <-]. by rewrite bool_decide_eq_true_2 by by apply Htime. }
  assert (0 < largeFileThreshold h) as Hth.
  { unfold largeFileThreshold. destruct (Z.gtb_spec (h_LargeFileThreshold h) 0); [lia | done]. }
  rewrite Z.geb_leb. destruct (Z.leb_spec (largeFileThreshold h) (fi_Size li)) as [Hl|Hl].
  - unfold compareContentsParallel. rewrite Ol, Ou.
    destruct (parallel_run lowerAbs upperAbs lf uf (bufPool h) (segmentWorkers NumCPU h) (fi_Size li) Hbuf ltac:(lia)) as [Hr Ht2].
    split.
    + intros Hn. split; [lia |]. by apply Ht2.
    + intros r H%Hr. rewrite H. f_equal. apply bool_decide_ext. unfold readable. simpl.
      by rewrite !take_ge by lia.
  - unfold compareContentsSequential. rewrite Ol, Ou.
    rewrite sequential_loop_spec; try done; try (unfold readable; simpl; lia); [| by intros x Hx; lia].
    split; [done |]. intros r [= <-]. unfold sequential_answer, readable. simpl.
    case_bool_decide; case_decide; done.
Qed.

(** ** Witnesses *)

Definition sample_bytes : list byte := [x01; x02; x03].
Definition EIO : error := ESentinel "input/output error".

Lemma parallel_comparison_witness :
  let run lf uf := par_results (par_segs (par_run "l" "u" lf uf 2 (segments (segSize_of 4 3) 3) [0;0;0;0]%nat)) in
  run (mkFile sample_bytes None) (mkFile sample_bytes None) = Some (Ok true)
  ∧ run (mkFile sample_bytes None) (mkFile [x01; x02; x04] None) = Some (Ok false).
Proof.
  intros run. split.
  - destruct (parallel_comparison "l" "u" (mkFile sample_bytes None) (mkFile sample_bytes None) 2 4 3) as [H _]; [lia..|].
    unfold run. destruct (par_results _) as [r|] eqn:E; [rewrite (H _ r E); vm_compute; reflexivity |].
    vm_compute in E. discriminate E.
  - destruct (parallel_comparison "l" "u" (mkFile sample_bytes None) (mkFile [x01; x02; x04] None) 2 4 3) as [H _]; [lia..|].
    unfold run. destruct (par_results _) as [r|] eqn:E; [rewrite (H _ r E); vm_compute; reflexivity |].
    vm_compute in E. discriminate E.
Defined.

Lemma parallel_hides_errors_witness :
  let lf := mkFile sample_bytes (Some (1%nat, EIO)) in let uf := mkFile [x01; x09; x09] (Some (1%nat, EIO)) in
  par_results (par_segs (par_run "l" "u" lf uf 2 (segments (segSize_of 4 3) 3) [0;0;0;0]%nat)) = Some (Ok true)
  ∧ sequential_loop 4 "l" "u" lf uf 2 0 = Some (Err (EWrap ["read lower"; "l"] EIO)).
Proof.
  intros lf uf.
  assert (∃ r, par_results (par_segs (par_run "l" "u" lf uf 2 (segments (segSize_of 4 3) 3) [0;0;0;0]%nat)) = Some r) as [r Hr]
    by (eexists; vm_compute; reflexivity).
  rewrite Hr.
  destruct (parallel_hides_errors "l" "u" [x01] [x02; x03] [x09; x09] EIO EIO 2 4 3 [0;0;0;0]%nat r 4) as [-> H].
  - lia.
  - lia.
  - split; discriminate.
  - split; discriminate.
  - exact Hr.
  - simpl; lia.
  - split; [reflexivity | exact H].
Defined.

Lemma Equal_compares_content_witness :
  let h := mkHasher (Some 2) 3 4 in
  let open p := Ok (mkFile (if decide (p = "l") then sample_bytes else [x01; x02; x04]) None) in
  Equal open (λ _, Err EIO) 8 [0;0;0;0]%nat h "l" "u" (mkInfo 420 3 1 None) (mkInfo 420 3 2 None) = Some (Ok false).
Proof.
  intros h open.
  destruct (Equal_compares_content open (λ _, Err EIO) 8 [0;0;0;0]%nat h "l" "u" sample_bytes [x01; x02; x04]
    (mkInfo 420 3 1 None) (mkInfo 420 3 2 None)) as [_ H].
  - reflexivity.
  - reflexivity.
  - split; [reflexivity |]. split; [reflexivity |]. split; [discriminate | intros _ Hm; discriminate Hm].
  - reflexivity.
  - reflexivity.
  - reflexivity.
  - destruct (Equal open _ _ _ _ _ _ _ _) as [r|] eqn:E; [rewrite (H r eq_refl); vm_compute; reflexivity |].
    vm_compute in E. discriminate E.
Defined.
