(* ===== verification/DsView.v ===== *)
(** * DsView: the merged directory

    Models [src/internal/dirsync/merged_view.go]: the interface [MergedView], its
    implementation on disk and the one that records calls.  A disk is a map from clean absolute
    paths to what [Lstat] says; [os.Remove] and [os.RemoveAll] act on it. *)
From S2P Require Import Prelude GoStd GoPath DsTypes DsPrune.

(** ** The operating system *)

Notation disk := (gmap string FileInfo).

Definition ENOTDIR : error := ESentinel "not a directory".
Definition ENOTEMPTY : error := ESentinel "directory not empty".

Definition strictly_under (c p : string) : bool := isPathUnder c p && negb (bool_decide (c = p)).

(** Some ancestor of the path is not a directory. *)
Definition blocked (d : disk) (abs : string) : bool :=
  existsb (λ kv, strictly_under abs kv.1 && negb (fi_IsDir kv.2)) (map_to_list d).

Definition has_children (d : disk) (abs : string) : bool :=
  existsb (λ kv, strictly_under kv.1 abs) (map_to_list d).

Definition os_Lstat (d : disk) (abs : string) : result FileInfo :=
  match d !! abs with
  | Some i => Ok i
  | None => Err (if blocked d abs then ENOTDIR else fs_ErrNotExist)
  end.

Definition os_Remove (abs : string) (d : disk) : option error * disk :=
  match os_Lstat d abs with
  | Err e => (Some e, d)
  | Ok i => if fi_IsDir i && has_children d abs then (Some ENOTEMPTY, d) else (None, delete abs d)
  end.

Definition os_RemoveAll (abs : string) (d : disk) : option error * disk :=
  match os_Lstat d abs with
  | Err e => (if errors_is e fs_ErrNotExist then None else Some e, d)
  | Ok _ => (None, base.filter (λ kv, isPathUnder kv.1 abs = false) d)
  end.

(** ** The interface *)

Class MergedView (V : Type) := {
  mv_Remove : string → V → option error * V;
  mv_RemoveAll : string → V → option error * V;
  mv_Stat : string → V → result FileInfo;
  mv_AbsPath : V → string → string;
  mv_Root : V → string;
}.

(** The idempotency contract: what was removed can be removed again. *)
Class MergedViewLaws (V : Type) `{MergedView V} := {
  mv_wf : V → Prop;
  mv_wf_Remove p v : mv_wf v → mv_wf (mv_Remove p v).2;
  mv_wf_RemoveAll p v : mv_wf v → mv_wf (mv_RemoveAll p v).2;
  mv_Remove_again p v v' : mv_wf v → mv_Remove p v = (None, v') → (mv_Remove p v').1 = None;
  mv_RemoveAll_again p v v' : mv_wf v → mv_RemoveAll p v = (None, v') → (mv_RemoveAll p v').1 = None;
  mv_root_fixed p v : mv_Root (mv_Remove p v).2 = mv_Root v ∧ mv_Root (mv_RemoveAll p v).2 = mv_Root v;
}.

(** ** [FSMergedView] *)

Record FSMergedView := mkFSView { fv_root : string; fv_disk : disk }.

Definition fv_AbsPath (v : FSMergedView) (relPath : string) : string := path_join [fv_root v; relPath].

(** [filepath.Abs] in the working directory [cwd] *)
Definition path_abs (cwd p : string) : string := if is_rooted p then path_clean p else path_join [cwd; p].

(** [stat] follows links; on this disk it is a parameter. *)
Definition NewFSMergedView (cwd : string) (stat : string → result FileInfo) (d : disk) (dir : string) :
    result FSMergedView :=
  let abs := path_abs cwd dir in
  match stat abs with
  | Err e => Err (EWrap ["merged view: stat root"; abs] e)
  | Ok info =>
      if negb (fi_IsDir info) then Err (EText ["merged view: root"; abs; "is not a directory"])
      else Ok (mkFSView abs d)
  end.

Definition fv_Remove (relPath : string) (v : FSMergedView) : option error * FSMergedView :=
  let '(e, d) := os_Remove (fv_AbsPath v relPath) (fv_disk v) in
  (match e with
   | Some e => if negb (errors_is e fs_ErrNotExist) then wrapOp "remove" relPath (Some e) else None
   | None => None
   end, mkFSView (fv_root v) d).

Definition fv_RemoveAll (relPath : string) (v : FSMergedView) : option error * FSMergedView :=
  let '(e, d) := os_RemoveAll (fv_AbsPath v relPath) (fv_disk v) in
  (match e with Some e => wrapOp "removeAll" relPath (Some e) | None => None end, mkFSView (fv_root v) d).

Definition fv_Stat (relPath : string) (v : FSMergedView) : result FileInfo :=
  match os_Lstat (fv_disk v) (fv_AbsPath v relPath) with
  | Err e => Err (OpError "stat" relPath e)
  | Ok i => Ok i
  end.

#[export] Instance FSMergedView_view : MergedView FSMergedView := {|
  mv_Remove := fv_Remove; mv_RemoveAll := fv_RemoveAll; mv_Stat := fv_Stat;
  mv_AbsPath := fv_AbsPath; mv_Root := fv_root |}.

(** ** [MemMergedView] *)

Record MemMergedView := mkMemView { mm_root : string; mm_Removed : list string; mm_RemovedAll : list string }.

Definition NewMemMergedView (root : string) : MemMergedView := mkMemView root [] [].

Definition mm_Remove (relPath : string) (m : MemMergedView) : option error * MemMergedView :=
  (None, mkMemView (mm_root m) (mm_Removed m ++ [relPath]) (mm_RemovedAll m)).

Definition mm_RemoveAll (relPath : string) (m : MemMergedView) : option error * MemMergedView :=
  (None, mkMemView (mm_root m) (mm_Removed m) (mm_RemovedAll m ++ [relPath])).

Definition mm_Stat (relPath : string) (m : MemMergedView) : result FileInfo := Err fs_ErrNotExist.

Definition AllOps (m : MemMergedView) : list string := mm_Removed m ++ mm_RemovedAll m.

Definition mm_Reset (m : MemMergedView) : MemMergedView := mkMemView (mm_root m) [] [].

#[export] Instance MemMergedView_view : MergedView MemMergedView := {|
  mv_Remove := mm_Remove; mv_RemoveAll := mm_RemoveAll; mv_Stat := mm_Stat;
  mv_AbsPath m relPath := path_join [mm_root m; relPath]; mv_Root := mm_root |}.

(** ** Lemmas *)

Lemma strictly_under_irrefl p : strictly_under p p = false.
Proof. unfold strictly_under. by rewrite bool_decide_eq_true_2, andb_false_r. Qed.

Lemma existsb_map (f : string * FileInfo → bool) (d : disk) :
  existsb f (map_to_list d) = true ↔ ∃ k i, d !! k = Some i ∧ f (k, i) = true.
Proof.
  rewrite existsb_exists_elem. split.
  - intros ([k i] & Hk%elem_of_map_to_list & Hf). eauto.
  - intros (k & i & Hk%elem_of_map_to_list & Hf). eauto.
Qed.

Lemma blocked_spec d abs :
  blocked d abs = true ↔ ∃ k i, d !! k = Some i ∧ strictly_under abs k = true ∧ fi_IsDir i = false.
Proof.
  unfold blocked. rewrite existsb_map. simpl.
  split; intros (k & i & ? & H); exists k, i; revert H; rewrite andb_true_iff, negb_true_iff; tauto.
Qed.

Lemma has_children_spec d abs :
  has_children d abs = true ↔ ∃ k i, d !! k = Some i ∧ strictly_under k abs = true.
Proof. apply existsb_map. Qed.

Lemma blocked_sub d d' abs : d' ⊆ d → blocked d abs = false → blocked d' abs = false.
Proof.
  intros Hs. rewrite <- !not_true_iff_false, !blocked_spec. intros H (k & i & Hk & Hi). apply H. exists k, i.
  split; [by eapply lookup_weaken | done].
Qed.

Lemma enotdir_not_exist : errors_is ENOTDIR fs_ErrNotExist = false.
Proof. reflexivity. Qed.

(** Only directories have entries below them. *)
Definition wf_disk (d : disk) : Prop := ∀ k i, d !! k = Some i → blocked d k = false.

Lemma wf_disk_sub d d' : d' ⊆ d → wf_disk d → wf_disk d'.
Proof. intros Hs Hw k i Hk. eapply blocked_sub; [done |]. eapply Hw. by eapply lookup_weaken. Qed.

Lemma os_Remove_sub abs d : (os_Remove abs d).2 ⊆ d.
Proof.
  unfold os_Remove. destruct (os_Lstat d abs); [| done]. destruct (_ && _); [done |]. apply delete_subseteq.
Qed.

Lemma os_RemoveAll_sub abs d : (os_RemoveAll abs d).2 ⊆ d.
Proof. unfold os_RemoveAll. destruct (os_Lstat d abs); [| done]. apply map_filter_subseteq. Qed.

Lemma os_Lstat_gone d d' abs i :
  wf_disk d → d' ⊆ d → d !! abs = Some i → d' !! abs = None → os_Lstat d' abs = Err fs_ErrNotExist.
Proof.
  intros Hw Hs Hi Hn. unfold os_Lstat. rewrite Hn. by rewrite (blocked_sub d d' abs Hs (Hw _ _ Hi)).
Qed.

Lemma fv_Remove_again p v v' : wf_disk (fv_disk v) → fv_Remove p v = (None, v') → (fv_Remove p v').1 = None.
Proof.
  intros Hw. unfold fv_Remove. destruct (os_Remove (fv_AbsPath v p) (fv_disk v)) as [e d] eqn:Hr. intros [= He <-].
  change (fv_AbsPath (mkFSView (fv_root v) d) p) with (fv_AbsPath v p). simpl.
  pose proof (os_Remove_sub (fv_AbsPath v p) (fv_disk v)) as Hs. rewrite Hr in Hs. simpl in Hs.
  revert Hr. unfold os_Remove at 1. destruct (os_Lstat (fv_disk v) (fv_AbsPath v p)) as [i|e'] eqn:Hl.
  - destruct (_ && _); [by intros [= <- <-] |]. intros [= <- <-]. unfold os_Remove.
    unfold os_Lstat in Hl. destruct (fv_disk v !! fv_AbsPath v p) eqn:Hi; [| done].
    by rewrite (os_Lstat_gone _ _ _ _ Hw Hs Hi (lookup_delete_eq _ _)).
  - intros [= <- <-]. unfold os_Remove. rewrite Hl. simpl. by destruct (errors_is e' fs_ErrNotExist).
Qed.

Lemma fv_RemoveAll_again p v v' : wf_disk (fv_disk v) → fv_RemoveAll p v = (None, v') → (fv_RemoveAll p v').1 = None.
Proof.
  intros Hw. unfold fv_RemoveAll. destruct (os_RemoveAll (fv_AbsPath v p) (fv_disk v)) as [e d] eqn:Hr. intros [= He <-].
  change (fv_AbsPath (mkFSView (fv_root v) d) p) with (fv_AbsPath v p). simpl.
  pose proof (os_RemoveAll_sub (fv_AbsPath v p) (fv_disk v)) as Hs. rewrite Hr in Hs. simpl in Hs.
  revert Hr. unfold os_RemoveAll at 1. destruct (os_Lstat (fv_disk v) (fv_AbsPath v p)) as [i|e'] eqn:Hl.
  - intros [= <- <-]. unfold os_RemoveAll.
    unfold os_Lstat in Hl. destruct (fv_disk v !! fv_AbsPath v p) eqn:Hi; [| done].
    rewrite (os_Lstat_gone _ _ _ _ Hw Hs Hi); [done |]. apply map_lookup_filter_None_2. right.
    intros x _. simpl. by rewrite under_refl.
  - intros [= <- <-]. unfold os_RemoveAll. rewrite Hl. simpl. by destruct (errors_is e' fs_ErrNotExist).
Qed.

#[export] Instance FSMergedView_laws : MergedViewLaws FSMergedView.
Proof.
  refine {| mv_wf v := wf_disk (fv_disk v) |}.
  - intros p v Hw. simpl. unfold fv_Remove. pose proof (os_Remove_sub (fv_AbsPath v p) (fv_disk v)) as Hs.
    destruct (os_Remove _ _) as [e d]. by eapply wf_disk_sub.
  - intros p v Hw. simpl. unfold fv_RemoveAll. pose proof (os_RemoveAll_sub (fv_AbsPath v p) (fv_disk v)) as Hs.
    destruct (os_RemoveAll _ _) as [e d]. by eapply wf_disk_sub.
  - apply fv_Remove_again.
  - apply fv_RemoveAll_again.
  - intros p v. simpl. unfold fv_Remove, fv_RemoveAll. by destruct (os_Remove _ _), (os_RemoveAll _ _).
Qed.

#[export] Instance MemMergedView_laws : MergedViewLaws MemMergedView.
Proof. by refine {| mv_wf v := True |}. Qed.
