(* ===== verification/DsBatch.v ===== *)
(** * DsBatch: batches of removals

    Models [src/internal/dirsync/batcher.go] and [batcher_goroutine.go].  [executeBatch] is a
    step relation: the loop that hands out the operations, one goroutine for each, the semaphore
    they share, and the context, which may end at any step. *)
From S2P Require Import Prelude GoStd GoNum DsTypes DsView.

(** ** Operations *)

(** The two kinds, and any other value of the integer type. *)
Inductive OpKind := OpRemove | OpRemoveAll | OpOther (k : Z).

#[export] Instance OpKind_eq_dec : EqDecision OpKind.
Proof. solve_decision. Defined.

Definition OpKind_String (k : OpKind) : string :=
  match k with OpRemove => "remove" | OpRemoveAll => "removeAll" | OpOther _ => "unknown" end.

Definition known_kind (k : OpKind) : Prop := match k with OpOther _ => False | _ => True end.

(** [Tag] is not interpreted, and left out. *)
Record BatchOp := mkOp { op_Kind : OpKind; op_RelPath : string }.

#[export] Instance BatchOp_eq_dec : EqDecision BatchOp.
Proof. solve_decision. Defined.

(** ** [RecordingBatcher] and [NopBatcher] *)

Record RecordingBatcher := mkRecording { rb_all : list BatchOp; rb_pending : list BatchOp; rb_total : nat }.

Definition rb_Submit (op : BatchOp) (r : RecordingBatcher) : option error * RecordingBatcher :=
  (None, mkRecording (rb_all r ++ [op]) (rb_pending r ++ [op]) (rb_total r)).

Definition rb_Flush (r : RecordingBatcher) : option error * RecordingBatcher :=
  (None, mkRecording (rb_all r) [] (rb_total r + length (rb_pending r))).

Definition rb_Close (r : RecordingBatcher) : option error * RecordingBatcher := rb_Flush r.
Definition Ops (r : RecordingBatcher) : list BatchOp := rb_all r.
Definition Pending (r : RecordingBatcher) : list BatchOp := rb_pending r.
Definition Total (r : RecordingBatcher) : nat := rb_total r.

Section batch.
Context {V : Type} `{MV : MergedView V}.

(** [executeOp] when [ctx.Err()] is [ctxErr]. *)
Definition executeOp (ctxErr : option error) (op : BatchOp) (view : V) : option error * V :=
  match ctxErr with
  | Some e => (Some e, view)
  | None =>
      match op_Kind op with
      | OpRemove => mv_Remove (op_RelPath op) view
      | OpRemoveAll => mv_RemoveAll (op_RelPath op) view
      | OpOther k => (Some (EText ["batcher: unknown op kind"; strconv_Itoa k; "for path"; op_RelPath op]), view)
      end
  end.

(** The error a goroutine appends to [errs]. *)
Definition op_error (op : BatchOp) (e : error) : error := EWrap [OpKind_String (op_Kind op); op_RelPath op] e.

(** ** [executeBatch] *)

(** A goroutine: before its operation; with an error to append; before its deferred receive from
    the semaphore; after [wg.Done()]. *)
Inductive worker := WExec (op : BatchOp) | WFail (e : error) | WRelease | WExited.

(** The loop: at its head; at the [select] for an operation; in [wg.Wait()]; returned. *)
Inductive main_phase := MLoop | MSelect (op : BatchOp) | MWait | MReturned.

Record batch := mkBatch {
  bt_ops : list BatchOp;
  bt_main : main_phase;
  bt_sem : nat;
  bt_workers : list worker;
  bt_errs : list error;
  bt_view : V;
  bt_ctx : option error;
  bt_log : list BatchOp;
}.

(** The scheduler: the loop moves, taking at a [select] the case of the context if told so; a
    goroutine moves; the context ends. *)
Inductive label := LMain (done : bool) | LWorker (i : nat) | LCancel.

#[export] Instance label_eq_dec : EqDecision label.
Proof. solve_decision. Defined.

Definition with_main (m : main_phase) (st : batch) : batch :=
  mkBatch (bt_ops st) m (bt_sem st) (bt_workers st) (bt_errs st) (bt_view st) (bt_ctx st) (bt_log st).

(** [wg.Add(1); go func() { ... }()], and the next iteration *)
Definition spawn (op : BatchOp) (sem : nat) (st : batch) : batch :=
  mkBatch (bt_ops st) MLoop sem (bt_workers st ++ [WExec op]) (bt_errs st) (bt_view st) (bt_ctx st) (bt_log st).

Definition is_exited (w : worker) : bool := match w with WExited => true | _ => false end.

Definition main_step (parallelism : nat) (done : bool) (st : batch) : option batch :=
  match bt_main st with
  | MLoop =>
      match bt_ops st with
      | [] => Some (with_main MWait st)
      | op :: ops =>
          match bt_ctx st with
          | Some _ => Some (with_main MWait st)
          | None =>
              Some (mkBatch ops (MSelect op) (bt_sem st) (bt_workers st) (bt_errs st) (bt_view st) (bt_ctx st) (bt_log st))
          end
      end
  | MSelect op =>
      if done then
        (* the [break] leaves the [select], not the loop *)
        match bt_ctx st with Some _ => Some (spawn op (bt_sem st) st) | None => None end
      else if decide (bt_sem st < parallelism) then Some (spawn op (bt_sem st + 1) st)
      else None
  | MWait => if forallb is_exited (bt_workers st) then Some (with_main MReturned st) else None
  | MReturned => None
  end.

(** The goroutine [i] becomes [w]. *)
Definition set_worker (i : nat) (w : worker) (sem : nat) (errs : list error) (view : V) (log : list BatchOp) (st : batch) :
    batch :=
  mkBatch (bt_ops st) (bt_main st) sem (<[i := w]> (bt_workers st)) errs view (bt_ctx st) log.

Definition worker_step (i : nat) (st : batch) : option batch :=
  match bt_workers st !! i with
  | Some (WExec op) =>
      let '(e, view) := executeOp (bt_ctx st) op (bt_view st) in
      let log := match bt_ctx st with None => bt_log st ++ [op] | Some _ => bt_log st end in
      match e with
      | Some e =>
          if negb (isContextErr e)
          then Some (set_worker i (WFail (op_error op e)) (bt_sem st) (bt_errs st) view log st)
          else Some (set_worker i WRelease (bt_sem st) (bt_errs st) view log st)
      | None => Some (set_worker i WRelease (bt_sem st) (bt_errs st) view log st)
      end
  | Some (WFail e) => Some (set_worker i WRelease (bt_sem st) (bt_errs st ++ [e]) (bt_view st) (bt_log st) st)
  | Some WRelease =>
      if decide (0 < bt_sem st)
      then Some (set_worker i WExited (bt_sem st - 1) (bt_errs st) (bt_view st) (bt_log st) st)
      else None
  | Some WExited | None => None
  end.

Definition batch_step (parallelism : nat) (l : label) (st : batch) : option batch :=
  match l with
  | LMain done => main_step parallelism done st
  | LWorker i => worker_step i st
  | LCancel =>
      match bt_ctx st with
      | None => Some (mkBatch (bt_ops st) (bt_main st) (bt_sem st) (bt_workers st) (bt_errs st) (bt_view st) (Some ctx_Canceled) (bt_log st))
      | Some _ => None
      end
  end.

(** A schedule; a label that is not enabled is skipped. *)
Definition batch_run (parallelism : nat) (sched : list label) (st : batch) : batch :=
  foldl (λ st l, default st (batch_step parallelism l st)) st sched.

(** [if len(ops) == 0 { return nil }] comes before anything is shared. *)
Definition batch_init (ops : list BatchOp) (view : V) : batch :=
  mkBatch ops (if decide (ops = []) then MReturned else MLoop) 0 [] [] view None [].

(** What [executeBatch] returns, when it has returned. *)
Definition batch_result (st : batch) : option (option error) :=
  match bt_main st with MReturned => Some (joinErrors (bt_errs st)) | _ => None end.

(** ** The calls of a [GoroutineBatcher], one at a time *)

(** Its queue, whether it was closed, its view, and how many flushes it has made. *)
Record gbatcher := mkGB { gq_pending : list BatchOp; gq_closed : bool; gq_view : V; gq_flushes : nat }.

Definition gb_New (view : V) : gbatcher := mkGB [] false view 0.

(** The critical section of [Submit]; without auto-flush it is the whole of it. *)
Definition gb_queue (op : BatchOp) (b : gbatcher) : option error * gbatcher :=
  if gq_closed b then (Some ErrBatcherClosed, b)
  else (None, mkGB (gq_pending b ++ [op]) false (gq_view b) (gq_flushes b)).

(** [Flush]; the batch of the [n]th flush runs on the schedule [scheds n], from what [ctx.Err()]
    says, and [None] is a call that has not returned. *)
Definition gb_Flush (parallelism : nat) (scheds : nat → list label) (ctxErr : option error) (b : gbatcher) :
    option (option error * gbatcher) :=
  if gq_closed b then Some (Some ErrBatcherClosed, b)
  else
    let init := batch_init (gq_pending b) (gq_view b) in
    let bt := batch_run parallelism (scheds (gq_flushes b)) (if ctxErr then default init (batch_step parallelism LCancel init) else init) in
    (λ e, (e, mkGB [] false (bt_view bt) (gq_flushes b + 1))) <$> batch_result bt.

Definition gb_Submit (autoFlushAt parallelism : nat) (scheds : nat → list label) (ctxErr : option error) (op : BatchOp) (b : gbatcher) :
    option (option error * gbatcher) :=
  match gb_queue op b with
  | (Some e, b) => Some (Some e, b)
  | (None, b) =>
      if (0 <? autoFlushAt) && (autoFlushAt <=? length (gq_pending b)) then gb_Flush parallelism scheds ctxErr b else Some (None, b)
  end.

(** [Close]; a second one does nothing. *)
Definition gb_Close (parallelism : nat) (scheds : nat → list label) (ctxErr : option error) (b : gbatcher) :
    option (option error * gbatcher) :=
  if gq_closed b then Some (None, b)
  else '(e, b) ← gb_Flush parallelism scheds ctxErr b; Some (e, mkGB (gq_pending b) true (gq_view b) (gq_flushes b)).

(** The operations one after another, with the errors collected. *)
Fixpoint run_ops (ops : list BatchOp) (view : V) : list error * V :=
  match ops with
  | [] => ([], view)
  | op :: ops' =>
      let '(e, view) := executeOp None op view in
      let '(es, view) := run_ops ops' view in
      (match e with Some e => if isContextErr e then es else op_error op e :: es | None => es end, view)
  end.

(** ** Without cancellation *)

Lemma run_ops_app o1 o2 v :
  run_ops (o1 ++ o2) v =
  let '(e1, v1) := run_ops o1 v in let '(e2, v2) := run_ops o2 v1 in (e1 ++ e2, v2).
Proof.
  revert v. induction o1 as [|op o1 IH]; intros v; cbn [run_ops app]; [by destruct (run_ops o2 v) |].
  destruct (executeOp None op v) as [e v1]. rewrite IH. destruct (run_ops o1 v1) as [e1 v2].
  destruct (run_ops o2 v2) as [e2 v3]. by destruct e as [e|]; [destruct (isContextErr e) |].
Qed.

Definition pending_op (w : worker) : option BatchOp := match w with WExec op => Some op | _ => None end.
Definition pending_err (w : worker) : option error := match w with WFail e => Some e | _ => None end.
Definition main_ops (m : main_phase) : list BatchOp := match m with MSelect op => [op] | _ => [] end.
Definition is_live (w : worker) : Prop := w ≠ WExited.
Definition live (ws : list worker) : nat := length (filter (λ w, is_exited w = false) ws).

(** What holds of a batch whose context is alive: every operation is to come, at the [select],
    in a goroutine or executed, once; the view is the one the executed operations leave; their
    errors are collected or about to be; each goroutine that runs holds one slot. *)
Definition batch_inv (parallelism : nat) (ops : list BatchOp) (view : V) (st : batch) : Prop :=
  bt_ctx st = None
  ∧ bt_ops st ++ main_ops (bt_main st) ++ omap pending_op (bt_workers st) ++ bt_log st ≡ₚ ops
  ∧ bt_view st = (run_ops (bt_log st) view).2
  ∧ bt_errs st ++ omap pending_err (bt_workers st) ≡ₚ (run_ops (bt_log st) view).1
  ∧ bt_sem st = live (bt_workers st) ∧ bt_sem st ≤ parallelism
  ∧ match bt_main st with
    | MWait => bt_ops st = []
    | MReturned => bt_ops st = [] ∧ Forall (λ w, w = WExited) (bt_workers st)
    | _ => True
    end.

Lemma is_exited_true w : is_exited w = true ↔ w = WExited.
Proof. by destruct w. Qed.

Lemma live_app ws1 ws2 : live (ws1 ++ ws2) = live ws1 + live ws2.
Proof. unfold live. by rewrite filter_app, length_app. Qed.

Lemma live_cons w ws : live (w :: ws) = (if is_exited w then 0 else 1) + live ws.
Proof. unfold live. rewrite filter_cons. by destruct (is_exited w). Qed.

Lemma live_0 ws : live ws = 0 ↔ Forall (λ w, w = WExited) ws.
Proof.
  induction ws as [|w ws IH]; [by split |]. rewrite live_cons, Forall_cons, <- IH.
  destruct (is_exited w) eqn:E; [apply is_exited_true in E; subst; tauto |].
  split; [lia | intros [-> _]; done].
Qed.

Lemma all_exited ws : forallb is_exited ws = true ↔ live ws = 0.
Proof.
  rewrite live_0. induction ws as [|w ws IH]; simpl; [by split |].
  by rewrite andb_true_iff, Forall_cons, is_exited_true, IH.
Qed.

(** An empty batch has returned at once. *)
Lemma batch_run_empty parallelism sched view :
  batch_result (batch_run parallelism sched (batch_init [] view)) = Some None
  ∧ bt_view (batch_run parallelism sched (batch_init [] view)) = view.
Proof.
  assert (∀ c, let st := batch_run parallelism sched (mkBatch [] MReturned 0 [] [] view c []) in
    batch_result st = Some None ∧ bt_view st = view) as H; [| apply (H None)].
  induction sched as [|[d|i|] sched IH]; intros c; [done | apply IH | apply IH |].
  unfold batch_run in *. cbn [foldl]. destruct c; apply IH.
Qed.

Lemma batch_inv_init parallelism ops view : batch_inv parallelism ops view (batch_init ops view).
Proof.
  unfold batch_inv, batch_init. simpl. split_and!; try done.
  - case_decide; subst; simpl; by rewrite ?app_nil_r.
  - unfold live. simpl. lia.
  - case_decide; [done | by destruct ops].
Qed.

Lemma main_step_inv parallelism ops view done st st' :
  batch_inv parallelism ops view st → main_step parallelism done st = Some st' → batch_inv parallelism ops view st'.
Proof.
  intros (Hc & Hops & Hv & He & Hsem & Hpar & Hm). unfold main_step.
  destruct (bt_main st) as [|op| |] eqn:Em; simpl in *.
  - destruct (bt_ops st) as [|op rest] eqn:Eo.
    + intros [= <-]. unfold batch_inv. simpl. by rewrite Eo.
    + rewrite Hc. intros [= <-]. unfold batch_inv. simpl. split_and!; try done.
      rewrite <- Hops. simpl. by rewrite <- Permutation_middle.
  - destruct done; [by rewrite Hc |]. case_decide; [| done]. intros [= <-]. unfold batch_inv, spawn. simpl.
    rewrite !omap_app, live_app. simpl. split_and!; try done.
    + rewrite <- Hops. rewrite <- app_assoc. apply Permutation_app_head. simpl. symmetry. apply Permutation_middle.
    + by rewrite app_nil_r.
    + unfold live at 2. simpl. lia.
    + lia.
  - destruct (forallb is_exited (bt_workers st)) eqn:Ex; [| done]. intros [= <-]. unfold batch_inv. simpl.
    split_and!; try done. by apply live_0, all_exited.
  - done.
Qed.

(** An update of one goroutine, seen in the middle of the list. *)
Lemma worker_middle st i w :
  bt_workers st !! i = Some w →
  ∃ ws1 ws2, bt_workers st = ws1 ++ w :: ws2 ∧ i = length ws1 ∧ ∀ w', <[i := w']> (bt_workers st) = ws1 ++ w' :: ws2.
Proof.
  intros Hi. destruct (list_split _ _ _ Hi) as (ws1 & ws2 & E & ->). exists ws1, ws2. split_and!; [done.. |].
  intros w'. rewrite E. apply insert_middle.
Qed.

Lemma batch_worker_inv parallelism ops view i st st' :
  batch_inv parallelism ops view st → worker_step i st = Some st' → batch_inv parallelism ops view st'.
Proof.
  intros (Hc & Hops & Hv & He & Hsem & Hpar & Hm) Hs. unfold worker_step in Hs.
  destruct (bt_workers st !! i) as [w|] eqn:Hi; [| done].
  destruct (worker_middle st i w Hi) as (ws1 & ws2 & Ew & -> & Hset). rewrite Ew in Hops, He, Hsem, Hm.
  rewrite !omap_app in Hops. rewrite !omap_app in He. rewrite live_app, live_cons in Hsem.
  assert (w ≠ WExited → match bt_main st with MReturned => False | _ => True end) as Hnr.
  { intros Hw. destruct (bt_main st); try done. destruct Hm as [_ Hm].
    apply Forall_app in Hm as [_ [E _]%Forall_cons]. done. }
  destruct w as [op|e| |]; [| | |done]; simpl in *.
  - rewrite Hc, Hv in Hs. destruct (executeOp None op (run_ops (bt_log st) view).2) as [e v] eqn:Hx.
    assert (run_ops (bt_log st ++ [op]) view
            = ((run_ops (bt_log st) view).1 ++ match e with Some e => if isContextErr e then [] else [op_error op e] | None => [] end, v)) as Hrun.
    { rewrite run_ops_app. destruct (run_ops (bt_log st) view) as [es v1] eqn:E1. cbn [run_ops]. cbn [snd] in Hx. rewrite Hx.
      by destruct e as [e|]; [destruct (isContextErr e) |]. }
    assert (∀ w' , pending_op w' = None → is_exited w' = false →
      option_list (pending_err w') = match e with Some e => if isContextErr e then [] else [op_error op e] | None => [] end →
      st' = set_worker (length ws1) w' (bt_sem st) (bt_errs st) v (bt_log st ++ [op]) st →
      batch_inv parallelism ops view st') as Hgo.
    { intros w' Hpo Hex Hpe ->. unfold batch_inv, set_worker. simpl. rewrite Hset, !omap_app, live_app, live_cons. simpl.
      rewrite Hpo, Hex, Hrun. simpl. split_and!; try done.
      - rewrite <- Hops. rewrite <- !app_assoc. simpl. do 3 apply Permutation_app_head.
        rewrite <- Permutation_cons_append. by rewrite Permutation_middle.
      - rewrite <- Hpe, <- He. rewrite <- !app_assoc. do 2 apply Permutation_app_head.
        destruct (pending_err w'); simpl; [apply Permutation_cons_append | by rewrite app_nil_r].
      - destruct (bt_main st); try done. by exfalso; apply Hnr. }
    destruct e as [e|]; [destruct (isContextErr e) eqn:Ece |]; simpl in Hs; injection Hs as <-.
    + by apply (Hgo WRelease).
    + by apply (Hgo (WFail (op_error op e))).
    + by apply (Hgo WRelease).
  - injection Hs as <-. unfold batch_inv, set_worker. simpl. rewrite Hset, !omap_app, live_app, live_cons. simpl.
    split_and!; try done.
    + rewrite <- He. rewrite <- !app_assoc. simpl. apply Permutation_app_head. by rewrite Permutation_middle.
    + destruct (bt_main st); try done. by exfalso; apply Hnr.
  - case_decide; [| done]. injection Hs as <-. unfold batch_inv, set_worker. simpl. rewrite Hset, !omap_app, live_app, live_cons. simpl.
    split_and!; try done; try lia. destruct (bt_main st); try done. by exfalso; apply Hnr.
Qed.

Definition alive (sched : list label) : Prop := LCancel ∉ sched.

Lemma batch_run_inv parallelism ops view sched st :
  alive sched → batch_inv parallelism ops view st → batch_inv parallelism ops view (batch_run parallelism sched st).
Proof.
  unfold alive. revert st. induction sched as [|l sched IH]; intros st Ha Hi; [done |].
  apply not_elem_of_cons in Ha as [Hl Ha]. change (batch_run parallelism (l :: sched) st)
    with (batch_run parallelism sched (default st (batch_step parallelism l st))). apply IH; [done |].
  destruct (batch_step parallelism l st) as [st'|] eqn:Hs; [simpl | done].
  destruct l as [d|i|]; [by eapply main_step_inv | by eapply batch_worker_inv | done].
Qed.

(** ** Termination *)

Definition worker_weight (w : worker) : nat :=
  match w with WExec _ => 3 | WFail _ => 2 | WRelease => 1 | WExited => 0 end.

Definition main_weight (m : main_phase) : nat :=
  match m with MLoop => 2 | MSelect _ => 6 | MWait => 1 | MReturned => 0 end.

(** An upper bound of the number of steps to come. *)
Definition steps_left (st : batch) : nat :=
  5 * length (bt_ops st) + main_weight (bt_main st) + sum_list_with worker_weight (bt_workers st)
  + match bt_ctx st with None => 1 | Some _ => 0 end.

Lemma weight_middle st i w w' :
  bt_workers st !! i = Some w →
  sum_list_with worker_weight (<[i := w']> (bt_workers st)) + worker_weight w
  = sum_list_with worker_weight (bt_workers st) + worker_weight w'.
Proof.
  intros Hi. destruct (worker_middle st i w Hi) as (ws1 & ws2 & Ew & -> & Hset).
  rewrite Hset, Ew, !sum_list_with_app. simpl. lia.
Qed.

Lemma batch_step_decreases parallelism l st st' : batch_step parallelism l st = Some st' → steps_left st' < steps_left st.
Proof.
  destruct l as [d|i|]; simpl.
  - unfold main_step, steps_left. destruct (bt_main st) eqn:Em.
    + destruct (bt_ops st) eqn:Eo; [intros [= <-]; simpl; rewrite ?Eo; simpl; lia |].
      destruct (bt_ctx st) eqn:Ec; intros [= <-]; simpl; rewrite ?Eo, ?Ec; simpl; lia.
    + destruct d; [destruct (bt_ctx st) eqn:Ec; [| done] | case_decide; [| done]]; intros [= <-]; simpl;
        rewrite sum_list_with_app; simpl; rewrite ?Ec; lia.
    + destruct (forallb _ _); [| done]. intros [= <-]. simpl. lia.
    + done.
  - unfold worker_step, steps_left. destruct (bt_workers st !! i) as [[op|e| |]|] eqn:Hi; [| | |done|done].
    + destruct (executeOp _ _ _) as [e v]. pose proof (weight_middle st i _ WRelease Hi) as H1.
      destruct e as [e|]; [pose proof (weight_middle st i _ (WFail (op_error op e)) Hi) as H2; destruct (isContextErr e) |];
        intros [= <-]; simpl in *; lia.
    + pose proof (weight_middle st i _ WRelease Hi) as H1. intros [= <-]; simpl in *; lia.
    + case_decide; [| done]. pose proof (weight_middle st i _ WExited Hi) as H1. intros [= <-]; simpl in *; lia.
  - unfold steps_left. destruct (bt_ctx st); [done |]. intros [= <-]. simpl. lia.
Qed.

Lemma live_worker ws : 0 < live ws → ∃ i w, ws !! i = Some w ∧ w ≠ WExited.
Proof.
  induction ws as [|w ws IH]; [unfold live; simpl; lia |]. rewrite live_cons.
  destruct (is_exited w) eqn:E; [intros Hl | intros _; exists 0, w; split; [done | by intros ->]].
  destruct (IH ltac:(lia)) as (i & w' & Hi & Hw). by exists (S i), w'.
Qed.

Lemma live_step st i w :
  bt_workers st !! i = Some w → w ≠ WExited → 0 < bt_sem st → is_Some (worker_step i st).
Proof.
  intros Hi Hw Hs. unfold worker_step. rewrite Hi. destruct w; [| done | by rewrite decide_True | done].
  destruct (executeOp _ _ _) as [[e|] v]; [destruct (isContextErr e) |]; by eexists.
Qed.

Lemma batch_progress parallelism ops view st :
  0 < parallelism → batch_inv parallelism ops view st → bt_main st ≠ MReturned →
  ∃ l st', l ≠ LCancel ∧ batch_step parallelism l st = Some st'.
Proof.
  intros Hp (Hc & Hops & Hv & He & Hsem & Hpar & Hm) Hr.
  assert (0 < live (bt_workers st) → ∃ l st', l ≠ LCancel ∧ batch_step parallelism l st = Some st') as Hw.
  { intros (i & w & Hi & Hw)%live_worker. destruct (live_step st i w Hi Hw) as [st' Hs]; [| by exists (LWorker i), st'].
    rewrite Hsem. destruct (decide (live (bt_workers st) = 0)) as [H0|]; [| lia].
    apply live_0 in H0. by rewrite (Forall_lookup_1 _ _ _ _ H0 Hi) in Hw. }
  destruct (bt_main st) eqn:Em; [| | |done].
  - exists (LMain false). simpl. unfold main_step. rewrite Em. destruct (bt_ops st); [by eexists; split |].
    destruct (bt_ctx st); by eexists; split.
  - destruct (decide (bt_sem st < parallelism)) as [H1|H1]; [| apply Hw; lia].
    exists (LMain false). simpl. unfold main_step. rewrite Em, decide_True by done. by eexists; split.
  - destruct (decide (live (bt_workers st) = 0)) as [H0|H0]; [| apply Hw; lia].
    exists (LMain false). simpl. unfold main_step. rewrite Em, (proj2 (all_exited _) H0). by eexists; split.
Qed.

(** ** After the context has ended *)

(** A goroutine without a slot will wait for one that nobody puts back. *)
Lemma step_live parallelism l st st' :
  batch_step parallelism l st = Some st' → bt_sem st ≤ live (bt_workers st) →
  bt_sem st' ≤ live (bt_workers st') ∧ (bt_sem st < live (bt_workers st) → bt_sem st' < live (bt_workers st')).
Proof.
  destruct l as [d|i|]; simpl.
  - unfold main_step. destruct (bt_main st) eqn:Em.
    + destruct (bt_ops st); [by intros [= <-] |]. destruct (bt_ctx st); by intros [= <-].
    + destruct d; [destruct (bt_ctx st); [| done] | case_decide; [| done]]; intros [= <-]; simpl;
        rewrite live_app, live_cons; simpl; lia.
    + destruct (forallb _ _); [| done]. by intros [= <-].
    + done.
  - unfold worker_step. destruct (bt_workers st !! i) as [w|] eqn:Hi; [| done].
    destruct (worker_middle st i w Hi) as (ws1 & ws2 & Ew & -> & Hset). rewrite Ew, live_app, live_cons.
    assert (∀ w' sem errs v log, live (bt_workers (set_worker (length ws1) w' sem errs v log st))
            = live ws1 + ((if is_exited w' then 0 else 1) + live ws2)) as Hl.
    { intros. simpl. by rewrite Hset, live_app, live_cons. }
    destruct w as [op|e| |]; [| | |done].
    + destruct (executeOp _ _ _) as [[e|] v]; [destruct (isContextErr e) |]; intros [= <-]; rewrite Hl; simpl; lia.
    + intros [= <-]; rewrite Hl; simpl; lia.
    + case_decide; [| done]. intros [= <-]; rewrite Hl; simpl; lia.
  - destruct (bt_ctx st); [done |]. by intros [= <-].
Qed.

Lemma run_live parallelism sched st :
  bt_sem st ≤ live (bt_workers st) →
  let st' := batch_run parallelism sched st in
  bt_sem st' ≤ live (bt_workers st') ∧ (bt_sem st < live (bt_workers st) → bt_sem st' < live (bt_workers st')).
Proof.
  revert st. induction sched as [|l sched IH]; intros st Hs; [done |].
  change (batch_run parallelism (l :: sched) st)
    with (batch_run parallelism sched (default st (batch_step parallelism l st))).
  destruct (batch_step parallelism l st) as [st1|] eqn:Hl; [simpl | by apply IH].
  destruct (step_live _ _ _ _ Hl Hs) as [H1 H2]. destruct (IH st1 H1) as [H3 H4]. split; [done | tauto].
Qed.

(** [executeBatch] returns only when every goroutine has exited. *)
Lemma step_returned parallelism l st st' :
  batch_step parallelism l st = Some st' → (bt_main st = MReturned → live (bt_workers st) = 0) →
  bt_main st' = MReturned → live (bt_workers st') = 0.
Proof.
  destruct l as [d|i|]; simpl.
  - unfold main_step. destruct (bt_main st) eqn:Em.
    + destruct (bt_ops st); [by intros [= <-] |]. destruct (bt_ctx st); by intros [= <-].
    + destruct d; [destruct (bt_ctx st); [| done] | case_decide; [| done]]; by intros [= <-].
    + destruct (forallb _ _) eqn:Hx; [| done]. intros [= <-] _ _. by apply all_exited.
    + done.
  - unfold worker_step. intros Hs Hr. destruct (bt_workers st !! i) as [w|] eqn:Hi; [| done]. intros Hm.
    assert (w ≠ WExited ∧ bt_main st = MReturned) as [Hw Hst].
    { destruct w as [op|e| |]; [| | |done]; split; try done;
        [destruct (executeOp _ _ _) as [[e|] v]; [destruct (isContextErr e) |] | | case_decide; [| done]]; by simplify_eq/=. }
    specialize (Hr Hst). apply live_0 in Hr. by rewrite (Forall_lookup_1 _ _ _ _ Hr Hi) in Hw.
  - destruct (bt_ctx st); [done |]. by intros [= <-].
Qed.

Lemma run_returned parallelism sched st :
  (bt_main st = MReturned → live (bt_workers st) = 0) →
  bt_main (batch_run parallelism sched st) = MReturned → live (bt_workers (batch_run parallelism sched st)) = 0.
Proof.
  revert st. induction sched as [|l sched IH]; intros st Hs; [done |].
  change (batch_run parallelism (l :: sched) st)
    with (batch_run parallelism sched (default st (batch_step parallelism l st))). apply IH.
  destruct (batch_step parallelism l st) as [st1|] eqn:Hl; [simpl | done]. by eapply step_returned.
Qed.

(** Every batch comes to rest. *)
Lemma batch_rests parallelism st : ∃ sched, ∀ l, batch_step parallelism l (batch_run parallelism sched st) = None.
Proof.
  remember (steps_left st) as n eqn:Hn. revert st Hn.
  induction n as [n IH] using lt_wf_ind. intros st ->.
  pose (ls := LMain true :: LMain false :: LCancel :: (LWorker <$> seq 0 (length (bt_workers st)))).
  destruct (decide (Exists (λ l, is_Some (batch_step parallelism l st)) ls)) as [(l & _ & st' & Hl)%Exists_exists|Hno].
  - destruct (IH (steps_left st') (batch_step_decreases _ _ _ _ Hl) st' eq_refl) as [sched Hs].
    exists (l :: sched). intros l'. specialize (Hs l'). unfold batch_run in *. simpl. by rewrite Hl.
  - exists []. intros l. simpl. apply eq_None_not_Some. intros [st' Hl]. apply Hno, Exists_exists. exists l.
    split; [| by eexists]. unfold ls. destruct l as [[]|i|]; [by repeat constructor .. | | by repeat constructor].
    do 3 right. apply list_elem_of_fmap. exists i. split; [done |]. apply elem_of_seq. split; [lia |]. simpl.
    simpl in Hl. unfold worker_step in Hl. destruct (bt_workers st !! i) eqn:Hi; [| done]. by eapply lookup_lt_Some.
Qed.

(** A batch that has returned executed its operations in some order. *)
Lemma batch_returned parallelism ops view st r :
  batch_inv parallelism ops view st → batch_result st = Some r →
  ∃ order errs, order ≡ₚ ops ∧ bt_view st = (run_ops order view).2 ∧ errs ≡ₚ (run_ops order view).1 ∧ r = joinErrors errs.
Proof.
  intros Hinv Hr. unfold batch_result in Hr. destruct (bt_main st) eqn:Em; try done. injection Hr as <-.
  destruct Hinv as (_ & Hops & Hv & He & _ & _ & Hm). rewrite Em in *. destruct Hm as [Hnil Hex].
  assert (∀ A (f : worker → option A), f WExited = None → omap f (bt_workers st) = []) as Hom.
  { intros A f Hf. clear -Hex Hf. induction Hex as [|w ws -> _ IH]; simpl; [done |]. by rewrite Hf. }
  rewrite Hnil, Hom in Hops by done. rewrite Hom, app_nil_r in He by done. simpl in Hops. by exists (bt_log st), (bt_errs st).
Qed.

(** ** Properties *)

(** C5: While the context is alive [executeBatch] keeps to its bound of goroutines, always has a
    step to make until it returns, and has a number of steps to come that each of them lowers;
    when it returns every operation was executed exactly once, the view is the one left by
    some order of the operations, and the errors joined are those of that order. *)
Theorem executeBatch_completes parallelism ops view sched :
  0 < parallelism → alive sched →
  let st := batch_run parallelism sched (batch_init ops view) in
  live (bt_workers st) ≤ parallelism
  ∧ (bt_main st ≠ MReturned → ∃ l st', l ≠ LCancel ∧ batch_step parallelism l st = Some st')
  ∧ (∀ l st', batch_step parallelism l st = Some st' → steps_left st' < steps_left st)
  ∧ ∀ r, batch_result st = Some r →
      ∃ order errs, order ≡ₚ ops ∧ bt_view st = (run_ops order view).2 ∧ errs ≡ₚ (run_ops order view).1 ∧ r = joinErrors errs.
Proof.
  intros Hp Ha st. pose proof (batch_run_inv parallelism ops view sched _ Ha (batch_inv_init parallelism ops view)) as Hinv.
  change (batch_inv parallelism ops view st) in Hinv. split_and!.
  - destruct Hinv as (_ & _ & _ & _ & <- & ? & _). done.
  - by eapply batch_progress.
  - intros l st'. apply batch_step_decreases.
  - intros r. by eapply batch_returned.
Qed.

(** [executeBatch] hangs when its context ends while it waits for a slot: the [break] leaves
    the [select] only, so the operation gets a goroutine without a slot, and in every
    continuation some goroutine waits for ever to give back a slot that was not taken; the
    batch comes to rest without having returned. *)
Theorem executeBatch_hangs parallelism ops view sched op st' :
  let st := batch_run parallelism sched (batch_init ops view) in
  bt_main st = MSelect op → main_step parallelism true st = Some st' →
  (∀ sched', bt_main (batch_run parallelism sched' st') ≠ MReturned)
  ∧ ∃ sched', ∀ l, batch_step parallelism l (batch_run parallelism sched' st') = None.
Proof.
  intros st Hm Hs. split; [| apply batch_rests]. intros sched' Hr.
  assert (bt_sem st ≤ live (bt_workers st)) as Hle by by apply (run_live parallelism sched (batch_init ops view)).
  unfold main_step in Hs. rewrite Hm in Hs. destruct (bt_ctx st); [| done]. injection Hs as <-.
  assert (bt_sem (spawn op (bt_sem st) st) < live (bt_workers (spawn op (bt_sem st) st))) as Hlt.
  { simpl. rewrite live_app. unfold live at 2. simpl. lia. }
  destruct (run_live parallelism sched' (spawn op (bt_sem st) st)) as [_ Hlv]; [lia |]. specialize (Hlv Hlt).
  apply run_returned in Hr; [lia | done].
Qed.
End batch.
Arguments batch V : clear implicits.
Arguments gbatcher V : clear implicits.

(** ** [GoroutineBatcher] *)

(** A call of a method by some goroutine: at its first critical section; about to swap the queue
    out, for itself or for [Close]; in [executeBatch] with what it took; in [Close], about to set
    [closed]; returned. *)
Inductive call :=
  | CSubmit (op : BatchOp) | CFlush | CClose
  | CFlushing (closing : bool) | CRunning (work : list BatchOp) (closing : bool)
  | CClosing (e : option error) | CDone (e : option error).

(** The batcher, its calls, and what was accepted and executed so far. *)
Record batcher := mkBatcher {
  gb_autoFlushAt : nat;
  gb_pending : list BatchOp;
  gb_closed : bool;
  gb_calls : list call;
  gb_accepted : list BatchOp;
  gb_executed : list BatchOp;
}.

Definition NewGoroutineBatcher (autoFlushAt : nat) (calls : list call) : batcher :=
  mkBatcher autoFlushAt [] false calls [] [].

Definition Submit_step (op : BatchOp) (b : batcher) : call * batcher :=
  if gb_closed b then (CDone (Some ErrBatcherClosed), b)
  else
    let pending := gb_pending b ++ [op] in
    (if (0 <? gb_autoFlushAt b) && (gb_autoFlushAt b <=? length pending) then CFlushing false else CDone None,
     mkBatcher (gb_autoFlushAt b) pending false (gb_calls b) (gb_accepted b ++ [op]) (gb_executed b)).

Definition Flush_step (closing : bool) (b : batcher) : call * batcher :=
  if gb_closed b
  then (if closing then CClosing (Some ErrBatcherClosed) else CDone (Some ErrBatcherClosed), b)
  else (CRunning (gb_pending b) closing,
        mkBatcher (gb_autoFlushAt b) [] false (gb_calls b) (gb_accepted b) (gb_executed b)).

(** [executeBatch] on [work] returns [res]; with a live context it executes all of it. *)
Definition Running_step (work : list BatchOp) (closing : bool) (res : option error) (b : batcher) : call * batcher :=
  (if closing then CClosing res else CDone res,
   mkBatcher (gb_autoFlushAt b) (gb_pending b) (gb_closed b) (gb_calls b) (gb_accepted b) (gb_executed b ++ work)).

Definition Close_step (b : batcher) : call * batcher :=
  (if gb_closed b then CDone None else CFlushing true, b).

Definition Closing_step (e : option error) (b : batcher) : call * batcher :=
  (CDone e, mkBatcher (gb_autoFlushAt b) (gb_pending b) true (gb_calls b) (gb_accepted b) (gb_executed b)).

Definition call_step (c : call) (res : option error) (b : batcher) : call * batcher :=
  match c with
  | CSubmit op => Submit_step op b
  | CFlush => Flush_step false b
  | CClose => Close_step b
  | CFlushing closing => Flush_step closing b
  | CRunning work closing => Running_step work closing res b
  | CClosing e => Closing_step e b
  | CDone e => (CDone e, b)
  end.

(** The call [i] makes a step; [res] is what [executeBatch] returns if that is the step. *)
Definition batcher_step (b : batcher) (ir : nat * option error) : batcher :=
  match gb_calls b !! ir.1 with
  | None => b
  | Some c =>
      let '(c', b') := call_step c ir.2 b in
      mkBatcher (gb_autoFlushAt b') (gb_pending b') (gb_closed b') (<[ir.1 := c']> (gb_calls b')) (gb_accepted b') (gb_executed b')
  end.

Definition batcher_run (sched : list (nat * option error)) (b : batcher) : batcher := foldl batcher_step b sched.

Definition Len (b : batcher) : nat := length (gb_pending b).

(** ** Lemmas on the batcher *)

Definition in_flight (c : call) : list BatchOp := match c with CRunning work _ => work | _ => [] end.

Definition accounted (b : batcher) : Prop :=
  gb_pending b ++ mjoin (in_flight <$> gb_calls b) ++ gb_executed b ≡ₚ gb_accepted b.

Lemma call_step_calls c res b : gb_calls (call_step c res b).2 = gb_calls b.
Proof.
  destruct c; simpl; unfold Submit_step, Flush_step; try done; by destruct (gb_closed b).
Qed.

(** A step moves operations, and adds the accepted one. *)
Lemma call_step_moves c res b c' b' :
  call_step c res b = (c', b') →
  ∃ new, gb_accepted b' = gb_accepted b ++ new
    ∧ gb_pending b' ++ in_flight c' ++ gb_executed b' ≡ₚ gb_pending b ++ in_flight c ++ gb_executed b ++ new.
Proof.
  destruct c as [op| | |cl|work cl|e|e]; simpl; unfold Submit_step, Flush_step, Close_step, Running_step, Closing_step;
    try destruct (gb_closed b); intros [= <- <-]; simpl; try (exists []; rewrite !app_nil_r; split; [done |]).
  - done.
  - exists [op]. split; [done |]. destruct (_ && _); simpl; rewrite <- app_assoc; apply Permutation_app_head;
      simpl; by rewrite <- Permutation_cons_append.
  - done.
  - done.
  - done.
  - done.
  - by destruct cl.
  - done.
  - apply Permutation_app_head. destruct cl; simpl; apply Permutation_app_comm.
  - apply Permutation_app_head. destruct cl; simpl; apply Permutation_app_comm.
  - done.
  - done.
  - done.
  - done.
Qed.

Lemma batcher_step_accounted b ir : accounted b → accounted (batcher_step b ir).
Proof.
  intros Ha. unfold batcher_step. destruct (gb_calls b !! ir.1) as [c|] eqn:Hi; [| done].
  destruct (call_step c ir.2 b) as [c' b'] eqn:Hs. pose proof (call_step_calls c ir.2 b) as Hc. rewrite Hs in Hc. simpl in Hc.
  destruct (call_step_moves _ _ _ _ _ Hs) as (new & Hacc & Hp). destruct (list_split _ _ _ Hi) as (l1 & l2 & El & ->).
  unfold accounted in *. simpl. rewrite Hc, El, insert_middle, mjoin_middle, Hacc, <- Ha, El, mjoin_middle.
  transitivity ((gb_pending b' ++ in_flight c' ++ gb_executed b') ++ mjoin (in_flight <$> l1) ++ mjoin (in_flight <$> l2)).
  { rewrite <- !app_assoc. apply Permutation_app_head. rewrite (app_assoc (mjoin _)), (Permutation_app_comm (mjoin (in_flight <$> l1))).
    rewrite <- !app_assoc. apply Permutation_app_head. rewrite (app_assoc (mjoin _)). apply Permutation_app_comm. }
  rewrite Hp. rewrite <- !app_assoc. apply Permutation_app_head.
  rewrite (app_assoc (mjoin (in_flight <$> l1)) (in_flight c)), (Permutation_app_comm (mjoin (in_flight <$> l1)) (in_flight c)).
  rewrite <- !app_assoc. apply Permutation_app_head.
  rewrite (app_assoc (gb_executed b)), (app_assoc (mjoin (in_flight <$> l1)) (mjoin _)), (app_assoc (mjoin (in_flight <$> l1) ++ _)).
  rewrite (Permutation_app_comm (gb_executed b ++ new)). rewrite <- !app_assoc. done.
Qed.

Lemma batcher_run_accounted sched b : accounted b → accounted (batcher_run sched b).
Proof. revert b. induction sched as [|ir sched IH]; intros b Ha; simpl; [done |]. by apply IH, batcher_step_accounted. Qed.

(** A closed batcher only finishes what is running. *)
Lemma closed_step b ir : gb_closed b = true → gb_closed (batcher_step b ir) = true ∧ gb_pending (batcher_step b ir) = gb_pending b.
Proof.
  intros Hc. unfold batcher_step. destruct (gb_calls b !! ir.1) as [c|]; [| done].
  destruct c; simpl; unfold Submit_step, Flush_step; rewrite ?Hc; done.
Qed.

Lemma closed_run sched b : gb_closed b = true → gb_closed (batcher_run sched b) = true ∧ gb_pending (batcher_run sched b) = gb_pending b.
Proof.
  revert b. induction sched as [|ir sched IH]; intros b Hc; simpl; [done |].
  destruct (closed_step b ir Hc) as [H1 H2]. destruct (IH _ H1) as [H3 H4]. by rewrite H4.
Qed.

(** What holds at the phases of a [Close] that no other call disturbs. *)
Definition close_phase (c : call) (pending : list BatchOp) (closed : bool) : Prop :=
  match c with
  | CClose | CFlushing true => closed = false
  | CRunning _ true => pending = [] ∧ closed = false
  | CClosing _ => pending = []
  | CDone _ => pending = [] ∧ closed = true
  | _ => False
  end.

Definition close_rank (c : call) : nat :=
  match c with CClose => 4 | CFlushing _ => 3 | CRunning _ _ => 2 | CClosing _ => 1 | _ => 0 end.

(** The call [n] is the only open one. *)
Definition close_inv (n : nat) (b : batcher) (c : call) : Prop :=
  (∀ i c, gb_calls b !! i = Some c → i ≠ n → ∃ e, c = CDone e)
  ∧ gb_calls b !! n = Some c ∧ close_phase c (gb_pending b) (gb_closed b).

Lemma close_phase_step c res b c' b' :
  close_phase c (gb_pending b) (gb_closed b) → call_step c res b = (c', b') →
  close_phase c' (gb_pending b') (gb_closed b') ∧ gb_accepted b' = gb_accepted b ∧ close_rank c' ≤ close_rank c - 1.
Proof.
  destruct c as [op| | |[]|work []|e|e]; simpl; try done; unfold Close_step, Flush_step, Running_step, Closing_step.
  - intros Hc. rewrite Hc. intros [= <- <-]. simpl. split_and!; (done || lia).
  - intros Hc. rewrite Hc. intros [= <- <-]. simpl. split_and!; (done || lia).
  - intros [Hp Hc] [= <- <-]. simpl. split_and!; (done || lia).
  - intros Hp [= <- <-]. simpl. split_and!; (done || lia).
  - intros [Hp Hc] [= <- <-]. split_and!; (done || lia).
Qed.

Lemma close_step n b c ir :
  close_inv n b c →
  ∃ c', close_inv n (batcher_step b ir) c' ∧ gb_accepted (batcher_step b ir) = gb_accepted b
    ∧ close_rank c' ≤ close_rank c - if decide (ir.1 = n) then 1 else 0.
Proof.
  intros (Ho & Hn & Hp). unfold batcher_step. destruct (decide (ir.1 = n)) as [->|Hne].
  - rewrite Hn. destruct (call_step c ir.2 b) as [c' b'] eqn:Hs.
    pose proof (call_step_calls c ir.2 b) as Hc. rewrite Hs in Hc. simpl in Hc.
    destruct (close_phase_step _ _ _ _ _ Hp Hs) as (H1 & H2 & H3). exists c'. split; [split_and!; try done | done].
    + simpl. intros i c0 Hi Hne. rewrite Hc, list_lookup_insert_ne in Hi by congruence. eauto.
    + simpl. by rewrite Hc, list_lookup_insert_eq by (by eapply lookup_lt_Some).
  - exists c. destruct (gb_calls b !! ir.1) as [c1|] eqn:Hc; [| split_and!; (done || lia)].
    destruct (Ho _ _ Hc Hne) as [e ->]. simpl. split; [| split; [done | lia]]. split_and!; simpl.
    + intros i c2. destruct (decide (i = ir.1)) as [->|]; [| rewrite list_lookup_insert_ne by done; apply Ho].
      rewrite list_lookup_insert_eq by (by eapply lookup_lt_Some). intros [= <-] _. by exists e.
    + by rewrite list_lookup_insert_ne.
    + done.
Qed.

Lemma close_run n sched b c :
  close_inv n b c →
  ∃ c', close_inv n (batcher_run sched b) c' ∧ gb_accepted (batcher_run sched b) = gb_accepted b
    ∧ close_rank c' ≤ close_rank c - length (filter (λ ir, ir.1 = n) sched).
Proof.
  revert b c. induction sched as [|ir sched IH]; intros b c Hb; simpl; [exists c; split_and!; (done || lia) |].
  destruct (close_step n b c ir Hb) as (c1 & H1 & Ha1 & Hr1). destruct (IH _ _ H1) as (c2 & H2 & Ha2 & Hr2).
  exists c2. split_and!; [done | congruence |]. rewrite filter_cons. case_decide; simpl; lia.
Qed.

(** ** Properties *)

(** Whatever calls of [Submit], [Flush] and [Close] interleave, every accepted operation is
    in the queue, in a running flush or executed, once.  A [Close] that comes after the other
    calls executes all of them: it returns after four steps with the queue empty and every
    accepted operation executed. *)
Theorem batcher_drains autoFlushAt calls sched n :
  let b := batcher_run sched (NewGoroutineBatcher autoFlushAt calls) in
  Forall (λ c, in_flight c = []) calls →
  accounted b
  ∧ (gb_closed b = false → gb_calls b !! n = Some CClose →
     (∀ i c, gb_calls b !! i = Some c → i ≠ n → ∃ e, c = CDone e) →
     ∀ sched', 4 ≤ length (filter (λ ir, ir.1 = n) sched') →
     let b' := batcher_run sched' b in
     (∃ e, gb_calls b' !! n = Some (CDone e)) ∧ gb_closed b' = true ∧ gb_pending b' = [] ∧ gb_executed b' ≡ₚ gb_accepted b).
Proof.
  intros b Hcalls.
  assert (accounted b) as Ha.
  { apply batcher_run_accounted. unfold accounted. simpl. induction Hcalls as [|c l Hc _ IH]; [done |]. simpl. by rewrite Hc. }
  split; [done |]. intros Hcl Hn Ho sched' Hc b'.
  destruct (close_run n sched' b CClose) as (c' & (Ho' & Hn' & Hp) & Hacc & Hr); [by split_and! |].
  pose proof (batcher_run_accounted sched' b Ha) as Ha'. unfold accounted in Ha'. fold b' in Hn', Ha', Ho', Hacc, Hp.
  simpl in Hr. destruct c' as [op| | |cl|work cl|e|e]; simpl in Hr; try lia; try done.
  destruct Hp as [Hpe Hcb]. split_and!; [by exists e | done | done |]. rewrite <- Hacc, <- Ha', Hpe. simpl.
  assert (mjoin (in_flight <$> gb_calls b') = []) as ->; [| done].
  assert (Forall (λ c, in_flight c = []) (gb_calls b')) as Hall.
  { apply Forall_lookup. intros i c Hi. destruct (decide (i = n)) as [->|Hne]; [by simplify_eq |].
    by destruct (Ho' i c Hi Hne) as [e' ->]. }
  clear -Hall. induction Hall as [|c l Hc _ IH]; [done |]. simpl. by rewrite Hc.
Qed.

(** A [Submit] that comes between the flush of a [Close] and the end of it is accepted, and
    returns nil; its operation is never executed and never leaves the queue. *)
Theorem Close_loses_submission b i j work op res sched :
  gb_closed b = false → gb_autoFlushAt b = 0 → i ≠ j →
  gb_calls b !! i = Some (CRunning work true) → gb_calls b !! j = Some (CSubmit op) →
  let b' := batcher_run [(i, res); (j, None); (i, None)] b in
  gb_calls b' !! i = Some (CDone res) ∧ gb_calls b' !! j = Some (CDone None)
  ∧ gb_pending (batcher_run sched b') = gb_pending b ++ [op].
Proof.
  intros Hc H0 Hij Hi Hj b'.
  assert (i < length (gb_calls b) ∧ j < length (gb_calls b)) as [Li Lj] by (split; by eapply lookup_lt_Some).
  assert (b' = mkBatcher 0 (gb_pending b ++ [op]) true
    (<[i := CDone res]> (<[j := CDone None]> (<[i := CClosing res]> (gb_calls b)))) (gb_accepted b ++ [op]) (gb_executed b ++ work)) as Hb'.
  { unfold b'. simpl. unfold batcher_step at 3. simpl. rewrite Hi. simpl.
    unfold batcher_step at 2. simpl. rewrite list_lookup_insert_ne, Hj by done. simpl. unfold Submit_step. simpl. rewrite Hc, H0. simpl.
    unfold batcher_step. simpl. rewrite list_lookup_insert_ne by done. rewrite list_lookup_insert_eq by done. done. }
  split_and!.
  - rewrite Hb'. simpl. by rewrite list_lookup_insert_eq by (by rewrite !length_insert).
  - rewrite Hb'. simpl. by rewrite list_lookup_insert_ne, list_lookup_insert_eq by (done || by rewrite !length_insert).
  - destruct (closed_run sched b') as [_ ->]; by rewrite Hb'.
Qed.

(** ** Witnesses *)

Definition sample_ops : list BatchOp := [mkOp OpRemove "a"; mkOp OpRemoveAll "d"].

(** Two operations and one slot: the second waits for the first. *)
Definition sample_sched : list label :=
  [LMain false; LMain false; LMain false; LMain false; LWorker 0; LWorker 0; LMain false; LWorker 1; LMain false; LMain false;
   LWorker 1; LMain false].

Lemma executeBatch_completes_witness :
  let st := batch_run 1 sample_sched (batch_init sample_ops (NewMemMergedView "/m")) in
  bt_view st = mkMemView "/m" ["a"] ["d"]
  ∧ ∃ order errs, order ≡ₚ sample_ops ∧ bt_view st = (run_ops order (NewMemMergedView "/m")).2
      ∧ errs ≡ₚ (run_ops order (NewMemMergedView "/m")).1 ∧ None = joinErrors errs.
Proof.
  destruct (executeBatch_completes 1 sample_ops (NewMemMergedView "/m") sample_sched) as (_ & _ & _ & H).
  - lia.
  - unfold alive. apply (bool_decide_unpack _). vm_compute. exact I.
  - split; [vm_compute; reflexivity |]. apply H. vm_compute. reflexivity.
Defined.

Lemma executeBatch_hangs_witness :
  let st := batch_run 1 [LMain false; LMain false; LMain false; LCancel] (batch_init sample_ops (NewMemMergedView "/m")) in
  ∃ st', main_step 1 true st = Some st' ∧ ∀ sched, bt_main (batch_run 1 sched st') ≠ MReturned.
Proof.
  intros st. assert (∃ st', main_step 1 true st = Some st') as [st' Hs] by (eexists; vm_compute; reflexivity).
  exists st'. split; [exact Hs |].
  destruct (executeBatch_hangs 1 sample_ops (NewMemMergedView "/m") [LMain false; LMain false; LMain false; LCancel]
    (mkOp OpRemoveAll "d") st') as [H _].
  - vm_compute. reflexivity.
  - exact Hs.
  - exact H.
Defined.

Definition sample_calls : list call := [CSubmit (mkOp OpRemove "a"); CSubmit (mkOp OpRemove "b"); CClose].

Lemma batcher_drains_witness :
  let b := batcher_run [(0, None); (1, None); (2, None); (2, None); (2, None); (2, None)] (NewGoroutineBatcher 0 sample_calls) in
  gb_pending b = [] ∧ gb_executed b ≡ₚ [mkOp OpRemove "a"; mkOp OpRemove "b"].
Proof.
  destruct (batcher_drains 0 sample_calls [(0, None); (1, None)] 2) as [_ H].
  - repeat constructor.
  - destruct (λ h1 h2 h3, H h1 h2 h3 [(2, None); (2, None); (2, None); (2, None)]) as (_ & _ & H2 & H3).
    + reflexivity.
    + reflexivity.
    + intros [|[|[|i]]] c Hc Hi; vm_compute in Hc;
        [injection Hc as <-; eexists; reflexivity | injection Hc as <-; eexists; reflexivity | destruct (Hi eq_refl) | discriminate Hc].
    + vm_compute. lia.
    + split; [exact H2 | exact H3].
Defined.

Lemma Close_loses_submission_witness :
  let b := batcher_run [(1, None); (1, None)] (NewGoroutineBatcher 0 [CSubmit (mkOp OpRemove "a"); CClose]) in
  let b' := batcher_run [(1, None); (0, None); (1, None)] b in
  gb_calls b' = [CDone None; CDone None] ∧ ∀ sched, gb_pending (batcher_run sched b') = [mkOp OpRemove "a"].
Proof.
  intros b b'. split; [vm_compute; reflexivity |]. intros sched.
  destruct (Close_loses_submission b 1 0 [] (mkOp OpRemove "a") None sched) as (_ & _ & H).
  - reflexivity.
  - reflexivity.
  - discriminate.
  - reflexivity.
  - reflexivity.
  - exact H.
Defined.
