(* ===== verification/DsPipeline.v ===== *)
(** * DsPipeline: from the streams to the removals

    Models [src/internal/dirsync/pipeline.go], [hash_pipeline.go] and the engines of [engine.go].
    A run is a state with the channels between the stages, each of its capacity, the loops that
    receive from them, the semaphores of the pools and the goroutines that hold their slots; a
    step is one move of the classifier, of a loop, of the forwarder of the hash errors or of a
    goroutine, and the scheduler picks it.  Where the code selects between a send or a slot and
    the end of the context, the scheduler chooses. *)
From S2P Require Import Prelude GoStd GoPath DsTypes DsView DsBatch.

(** ** Conversions *)

Definition exclusivePathToBatchOp (ep : ExclusivePath) : BatchOp :=
  let kind := if ep_Collapsed ep then OpRemoveAll else OpRemove in mkOp kind (ep_Path ep).

Definition commonPathToBatchOp (cp : CommonPath) : option BatchOp :=
  let '(eq, checked) := IsContentEqual cp in
  if negb checked || negb eq then None else Some (mkOp OpRemove (cp_Path cp)).

Definition workerCount (NumCPU configured : nat) : nat := if 0 <? configured then configured else NumCPU.

(** ** The hash stage *)

Section enrich.
(** [hasher.Equal] on the paths below the two roots, with the metadata of the entry. *)
Context (equal : string → string → FileInfo → FileInfo → result bool) (lowerRoot upperRoot : string).

(** The entry after [enrichOne], and the error it sends.  The entries of the walker carry the
    metadata of both sides; on one that does not, the code panics and the model does nothing. *)
Definition enrichOne (ctxErr : option error) (cp : CommonPath) : CommonPath * option error :=
  match ctxErr with
  | Some _ => (cp, None)
  | None =>
      match cp_Kind cp with
      | PathKindFile | PathKindSymlink =>
          match cp_LowerInfo cp, cp_UpperInfo cp with
          | Some li, Some ui =>
              match equal (path_join [lowerRoot; cp_Path cp]) (path_join [upperRoot; cp_Path cp]) li ui with
              | Err e => (cp, Some (EWrap ["hash"; cp_Path cp] e))
              | Ok eq => (set_HashEqual (hashEqualPtr eq) cp, None)
              end
          | _, _ => (cp, None)
          end
      | _ => (cp, None)
      end
  end.
End enrich.

(** ** [Pipeline.Run] *)

(** The buffers of the classifier's channels and the sizes of the three pools. *)
Record limits := mkLimits { lim_excBuf : nat; lim_comBuf : nat; lim_exc : nat; lim_hash : nat; lim_com : nat }.

(** [cap(in)+workers], of the enriched channel, and the buffer of the hash errors. *)
Definition lim_out (lim : limits) : nat := lim_comBuf lim + lim_hash lim.
Definition hashErrCap : nat := 64.

(** The options ignore sizes that are not positive. *)
Definition limits_ok (lim : limits) : Prop :=
  0 < lim_excBuf lim ∧ 0 < lim_comBuf lim ∧ 0 < lim_exc lim ∧ 0 < lim_hash lim ∧ 0 < lim_com lim.

(** The three stages with a bounded set of goroutines. *)
Inductive stage := SExclusive | SHash | SCommon.

(** A loop over a channel: receiving; at the [select] for a slot with an entry; in [wg.Wait()];
    returned. *)
Inductive loop (A : Type) := LRange | LSelect (x : A) | LWait | LDone.
Arguments LRange {A}.
Arguments LSelect {A} x.
Arguments LWait {A}.
Arguments LDone {A}.

(** The channel of a stage, its loop, and the number of slots taken of its semaphore. *)
Record pool (A : Type) := mkPool { pool_in : list A; pool_loop : loop A; pool_sem : nat }.
Arguments mkPool {A} _ _ _.
Arguments pool_in {A} _.
Arguments pool_loop {A} _.
Arguments pool_sem {A} _.

(** A goroutine of a stage: at the handler; at the comparison, at the send of its error, at the
    send of the entry; at the submission; at the counter; at the deferred release of its slot;
    returned. *)
Inductive goroutine :=
  | GExc (ep : ExclusivePath)
  | GHash (cp : CommonPath) | GHashErr (cp : CommonPath) (e : error) | GOut (cp : CommonPath)
  | GCom (cp : CommonPath)
  | GSubmit (exclusive : bool) (op : BatchOp) | GCount (exclusive : bool)
  | GRelease (k : stage) | GEnd.

Definition pool_of (exclusive : bool) : stage := if exclusive then SExclusive else SCommon.

#[export] Instance stage_eq_dec : EqDecision stage.
Proof. solve_decision. Defined.

(** The stage whose [WaitGroup] counts a goroutine. *)
Definition stage_of (g : goroutine) : option stage :=
  match g with
  | GExc _ => Some SExclusive
  | GHash _ | GHashErr _ _ | GOut _ => Some SHash
  | GCom _ => Some SCommon
  | GSubmit exclusive _ | GCount exclusive => Some (pool_of exclusive)
  | GRelease k => Some k
  | GEnd => None
  end.

Definition counted (k : stage) (g : goroutine) : nat := if decide (stage_of g = Some k) then 1 else 0.

(** The counter of the [WaitGroup] of a stage. *)
Definition live (k : stage) (gs : list goroutine) : nat := sum_list_with (counted k) gs.

(** A turn of [for x := range ch], or of the [select] in its body; [done] takes the case of the
    context.  The goroutine to start comes with it. *)
Definition loop_step {A} (workers : nat) (ctx : option error) (closed : bool) (running : nat) (spawn : A → goroutine)
    (done : bool) (p : pool A) : option (pool A * list goroutine) :=
  match pool_loop p with
  | LRange =>
      match pool_in p with
      | x :: q => Some (mkPool q (match ctx with Some _ => LRange | None => LSelect x end) (pool_sem p), [])
      | [] => if closed then Some (mkPool [] LWait (pool_sem p), []) else None
      end
  | LSelect x =>
      if done then match ctx with Some _ => Some (mkPool (pool_in p) LRange (pool_sem p), []) | None => None end
      else if pool_sem p <? workers then Some (mkPool (pool_in p) LRange (pool_sem p + 1), [spawn x])
      else None
  | LWait => if running =? 0 then Some (mkPool (pool_in p) LDone (pool_sem p), []) else None
  | LDone => None
  end.

Definition returned {A} (p : pool A) : bool := match pool_loop p with LDone => true | _ => false end.

(** [ch <- x] and [<-sem]; [None] blocks. *)
Definition pool_send {A} (capacity : nat) (x : A) (p : pool A) : option (pool A) :=
  if length (pool_in p) <? capacity then Some (mkPool (pool_in p ++ [x]) (pool_loop p) (pool_sem p)) else None.

Definition pool_release {A} (p : pool A) : option (pool A) :=
  match pool_sem p with 0 => None | S n => Some (mkPool (pool_in p) (pool_loop p) n) end.

Record pipe (S B : Type) := mkPipe {
  pl_walk : list (ExclusivePath + CommonPath);
  pl_exc : pool ExclusivePath;
  pl_hash : pool CommonPath;
  pl_com : pool CommonPath;
  pl_hashErrs : list error;
  pl_forwarded : bool;
  pl_gos : list goroutine;
  pl_ctx : option error;
  pl_errs : list error;
  pl_excHandled : nat;
  pl_comHandled : nat;
  pl_handlers : S;
  pl_batcher : B;
}.
Arguments mkPipe {S B} _ _ _ _ _ _ _ _ _ _ _ _ _.
Arguments pl_walk {S B} _.
Arguments pl_exc {S B} _.
Arguments pl_hash {S B} _.
Arguments pl_com {S B} _.
Arguments pl_hashErrs {S B} _.
Arguments pl_forwarded {S B} _.
Arguments pl_gos {S B} _.
Arguments pl_ctx {S B} _.
Arguments pl_errs {S B} _.
Arguments pl_excHandled {S B} _.
Arguments pl_comHandled {S B} _.
Arguments pl_handlers {S B} _.
Arguments pl_batcher {S B} _.

Section updates.
Context {S B : Type}.
Implicit Type st : pipe S B.

Definition with_walk w st : pipe S B :=
  mkPipe w (pl_exc st) (pl_hash st) (pl_com st) (pl_hashErrs st) (pl_forwarded st) (pl_gos st) (pl_ctx st) (pl_errs st)
    (pl_excHandled st) (pl_comHandled st) (pl_handlers st) (pl_batcher st).
Definition with_exc p st : pipe S B :=
  mkPipe (pl_walk st) p (pl_hash st) (pl_com st) (pl_hashErrs st) (pl_forwarded st) (pl_gos st) (pl_ctx st) (pl_errs st)
    (pl_excHandled st) (pl_comHandled st) (pl_handlers st) (pl_batcher st).
Definition with_hash p st : pipe S B :=
  mkPipe (pl_walk st) (pl_exc st) p (pl_com st) (pl_hashErrs st) (pl_forwarded st) (pl_gos st) (pl_ctx st) (pl_errs st)
    (pl_excHandled st) (pl_comHandled st) (pl_handlers st) (pl_batcher st).
Definition with_com p st : pipe S B :=
  mkPipe (pl_walk st) (pl_exc st) (pl_hash st) p (pl_hashErrs st) (pl_forwarded st) (pl_gos st) (pl_ctx st) (pl_errs st)
    (pl_excHandled st) (pl_comHandled st) (pl_handlers st) (pl_batcher st).
Definition with_hashErrs es st : pipe S B :=
  mkPipe (pl_walk st) (pl_exc st) (pl_hash st) (pl_com st) es (pl_forwarded st) (pl_gos st) (pl_ctx st) (pl_errs st)
    (pl_excHandled st) (pl_comHandled st) (pl_handlers st) (pl_batcher st).
Definition with_forwarded st : pipe S B :=
  mkPipe (pl_walk st) (pl_exc st) (pl_hash st) (pl_com st) (pl_hashErrs st) true (pl_gos st) (pl_ctx st) (pl_errs st)
    (pl_excHandled st) (pl_comHandled st) (pl_handlers st) (pl_batcher st).
Definition with_gos gs st : pipe S B :=
  mkPipe (pl_walk st) (pl_exc st) (pl_hash st) (pl_com st) (pl_hashErrs st) (pl_forwarded st) gs (pl_ctx st) (pl_errs st)
    (pl_excHandled st) (pl_comHandled st) (pl_handlers st) (pl_batcher st).
Definition with_ctx c es st : pipe S B :=
  mkPipe (pl_walk st) (pl_exc st) (pl_hash st) (pl_com st) (pl_hashErrs st) (pl_forwarded st) (pl_gos st) c es
    (pl_excHandled st) (pl_comHandled st) (pl_handlers st) (pl_batcher st).
Definition with_counts x y st : pipe S B :=
  mkPipe (pl_walk st) (pl_exc st) (pl_hash st) (pl_com st) (pl_hashErrs st) (pl_forwarded st) (pl_gos st) (pl_ctx st) (pl_errs st)
    x y (pl_handlers st) (pl_batcher st).
Definition with_handlers s st : pipe S B :=
  mkPipe (pl_walk st) (pl_exc st) (pl_hash st) (pl_com st) (pl_hashErrs st) (pl_forwarded st) (pl_gos st) (pl_ctx st) (pl_errs st)
    (pl_excHandled st) (pl_comHandled st) s (pl_batcher st).
Definition with_batcher b st : pipe S B :=
  mkPipe (pl_walk st) (pl_exc st) (pl_hash st) (pl_com st) (pl_hashErrs st) (pl_forwarded st) (pl_gos st) (pl_ctx st) (pl_errs st)
    (pl_excHandled st) (pl_comHandled st) (pl_handlers st) b.

(** [defer func() { <-sem }()], then [wg.Done()]. *)
Definition release (k : stage) st : option (pipe S B) :=
  match k with
  | SExclusive => (λ p, with_exc p st) <$> pool_release (pl_exc st)
  | SHash => (λ p, with_hash p st) <$> pool_release (pl_hash st)
  | SCommon => (λ p, with_com p st) <$> pool_release (pl_com st)
  end.
End updates.

Section pipeline.
Context {S B : Type} (excHandler : ExclusiveHandler S) (comHandler : CommonHandler S).
(** [Submit] of the two batchers, with what [ctx.Err()] says. *)
Context (submitExclusive submitCommon : option error → BatchOp → B → option error * B).
Context (equal : string → string → FileInfo → FileInfo → result bool) (lowerRoot upperRoot : string).
Context (abortOnError : bool) (lim : limits).
Notation pipe := (pipe S B).

Definition addErr (e : error) (st : pipe) : pipe :=
  if isContextErr e then st
  else
    with_ctx
      (if abortOnError then match pl_ctx st with Some c => Some c | None => Some ctx_Canceled end else pl_ctx st)
      (pl_errs st ++ [e]) st.

(** One step of a goroutine; [done] takes the case of the context at a [select]. *)
Definition go_step (done : bool) (g : goroutine) (st : pipe) : option (goroutine * pipe) :=
  match g with
  | GExc ep =>
      let '(e, s) := excHandler ep (pl_handlers st) in
      let st := with_handlers s st in
      match e with
      | Some e => Some (GRelease SExclusive, addErr (EWrap ["exclusive handler"; ep_Path ep] e) st)
      | None => Some (GSubmit true (exclusivePathToBatchOp ep), st)
      end
  | GHash cp =>
      match enrichOne equal lowerRoot upperRoot (pl_ctx st) cp with
      | (cp, Some e) => Some (GHashErr cp e, st)
      | (cp, None) => Some (GOut cp, st)
      end
  | GHashErr cp e =>
      if done then match pl_ctx st with Some _ => Some (GOut cp, st) | None => None end
      else if length (pl_hashErrs st) <? hashErrCap then Some (GOut cp, with_hashErrs (pl_hashErrs st ++ [e]) st)
      else None
  | GOut cp =>
      if done then match pl_ctx st with Some _ => Some (GRelease SHash, st) | None => None end
      else (λ p, (GRelease SHash, with_com p st)) <$> pool_send (lim_out lim) cp (pl_com st)
  | GCom cp =>
      let '(e, s) := comHandler cp (pl_handlers st) in
      let st := with_handlers s st in
      match e with
      | Some e => Some (GRelease SCommon, addErr (EWrap ["common handler"; cp_Path cp] e) st)
      | None =>
          match commonPathToBatchOp cp with
          | Some op => Some (GSubmit false op, st)
          | None => Some (GCount false, st)
          end
      end
  | GSubmit exclusive op =>
      let '(e, b) := (if exclusive then submitExclusive else submitCommon) (pl_ctx st) op (pl_batcher st) in
      let st := with_batcher b st in
      match e with
      | Some e =>
          Some (GRelease (pool_of exclusive),
            addErr (EWrap [if exclusive then "exclusive batcher submit" else "common batcher submit"; op_RelPath op] e) st)
      | None => Some (GCount exclusive, st)
      end
  | GCount exclusive =>
      Some (GRelease (pool_of exclusive),
        with_counts (if exclusive then pl_excHandled st + 1 else pl_excHandled st)
          (if exclusive then pl_comHandled st else pl_comHandled st + 1) st)
  | GRelease k => (λ st, (GEnd, st)) <$> release k st
  | GEnd => None
  end.

(** The classifier sends its next entry, or sees the end of the context and returns; a loop, the
    forwarder or a goroutine moves; the classifier reports an error; the context of the caller
    ends. *)
Inductive pipe_label :=
  | PWalk (done : bool) | PExc (done : bool) | PHash (done : bool) | PCom (done : bool) | PForward | PGo (i : nat) (done : bool)
  | PClassErr (e : error) | PCancel.

(** The classifier closes its channels when it returns, the hash stage the enriched channel and
    the channel of the hash errors. *)
Definition walk_closed (st : pipe) : bool := match pl_walk st with [] => true | _ => false end.

Definition pipe_step (l : pipe_label) (st : pipe) : option pipe :=
  match l with
  | PWalk done =>
      match pl_walk st with
      | [] => None
      | x :: w =>
          if done then match pl_ctx st with Some _ => Some (with_walk [] st) | None => None end
          else
            match x with
            | inl ep => (λ p, with_exc p (with_walk w st)) <$> pool_send (lim_excBuf lim) ep (pl_exc st)
            | inr cp => (λ p, with_hash p (with_walk w st)) <$> pool_send (lim_comBuf lim) cp (pl_hash st)
            end
      end
  | PExc done =>
      '(p, gs) ← loop_step (lim_exc lim) (pl_ctx st) (walk_closed st) (live SExclusive (pl_gos st)) GExc done (pl_exc st);
      Some (with_gos (pl_gos st ++ gs) (with_exc p st))
  | PHash done =>
      '(p, gs) ← loop_step (lim_hash lim) (pl_ctx st) (walk_closed st) (live SHash (pl_gos st)) GHash done (pl_hash st);
      Some (with_gos (pl_gos st ++ gs) (with_hash p st))
  | PCom done =>
      '(p, gs) ← loop_step (lim_com lim) (pl_ctx st) (returned (pl_hash st)) (live SCommon (pl_gos st)) GCom done (pl_com st);
      Some (with_gos (pl_gos st ++ gs) (with_com p st))
  | PForward =>
      if pl_forwarded st then None
      else
        match pl_hashErrs st with
        | e :: es => Some (addErr (EWrap ["hash stage"] e) (with_hashErrs es st))
        | [] => if returned (pl_hash st) then Some (with_forwarded st) else None
        end
  | PGo i done =>
      g ← pl_gos st !! i;
      '(g, st') ← go_step done g st;
      Some (with_gos (<[i := g]> (pl_gos st')) st')
  | PClassErr e => Some (addErr (EWrap ["classifier stage"] e) st)
  | PCancel => match pl_ctx st with None => Some (with_ctx (Some ctx_Canceled) (pl_errs st) st) | Some _ => None end
  end.

Definition pipe_run (sched : list pipe_label) (st : pipe) : pipe :=
  foldl (λ st l, default st (pipe_step l st)) st sched.

Definition pool_init {A} : pool A := mkPool [] LRange 0.

Definition pipe_init (walk : list (ExclusivePath + CommonPath)) (s : S) (b : B) : pipe :=
  mkPipe walk pool_init pool_init pool_init [] false [] None [] 0 0 s b.

(** [stageWg.Wait()] returns when the two pools and the forwarder have. *)
Definition pipe_finished (st : pipe) : bool := returned (pl_exc st) && returned (pl_com st) && pl_forwarded st.

Record PipelineResult := mkResult { pr_ExclusiveHandled : nat; pr_CommonHandled : nat; pr_Err : option error }.
Definition pr_OK (r : PipelineResult) : bool := bool_decide (pr_Err r = None).

(** The end of [Run]: the two flushes, which may not return, and the result. *)
Definition pipe_result (flushExclusive flushCommon : option error → B → option (option error * B)) (st : pipe) :
    option (PipelineResult * B) :=
  '(e1, b) ← flushExclusive (pl_ctx st) (pl_batcher st);
  let st := match e1 with Some e => addErr (EWrap ["exclusive batcher flush"] e) st | None => st end in
  '(e2, b) ← flushCommon (pl_ctx st) b;
  let st := match e2 with Some e => addErr (EWrap ["common batcher flush"] e) st | None => st end in
  Some (mkResult (pl_excHandled st) (pl_comHandled st) (joinErrors (pl_errs st)), b).

(** The moves of the pipeline itself: not the errors of the classifier, nor the caller. *)
Definition stage_move (l : pipe_label) : Prop := match l with PClassErr _ | PCancel => False | _ => True end.

(** ** Errors of the context *)

Definition no_context_errs (st : pipe) : Prop := Forall (λ e, isContextErr e = false) (pl_errs st).

Lemma addErr_no_context e st : no_context_errs st → no_context_errs (addErr e st).
Proof.
  unfold addErr, no_context_errs. destruct (isContextErr e) eqn:He; [done |]. simpl. intros H.
  apply Forall_app_2; [done |]. by constructor.
Qed.

Lemma release_errs k (st st' : pipe) : release k st = Some st' → pl_errs st' = pl_errs st ∧ pl_ctx st' = pl_ctx st.
Proof. by destruct k; simpl; intros (p & _ & ->)%fmap_Some_1. Qed.

Lemma go_step_no_context done g st g' st' :
  no_context_errs st → go_step done g st = Some (g', st') → no_context_errs st'.
Proof.
  intros H. destruct g; simpl.
  - destruct (excHandler ep _) as [[e|] s]; intros [= <- <-]; [by apply addErr_no_context | done].
  - destruct (enrichOne _ _ _ _ _) as [cp' [e|]]; by intros [= <- <-].
  - destruct done; [destruct (pl_ctx st); [| done]; by intros [= <- <-] |]. destruct (_ <? _); [| done]. by intros [= <- <-].
  - destruct done; [destruct (pl_ctx st); [| done]; by intros [= <- <-] |]. intros (p & _ & [= -> ->])%fmap_Some_1. done.
  - destruct (comHandler cp _) as [[e|] s]; [intros [= <- <-]; by apply addErr_no_context |].
    destruct (commonPathToBatchOp cp); by intros [= <- <-].
  - destruct (_ (pl_ctx st) op (pl_batcher st)) as [[e|] b]; intros [= <- <-]; [by apply addErr_no_context | done].
  - by intros [= <- <-].
  - intros (st1 & Hr & [= -> ->])%fmap_Some_1. unfold no_context_errs. by destruct (release_errs _ _ _ Hr) as [-> _].
  - done.
Qed.

Lemma pipe_step_no_context l st st' : no_context_errs st → pipe_step l st = Some st' → no_context_errs st'.
Proof.
  intros H. destruct l as [d|d|d|d| |i d|e|]; simpl.
  - destruct (pl_walk st) as [|[ep|cp] w]; [done | |]; destruct d.
    1,3: destruct (pl_ctx st); [| done]; by intros [= <-].
    all: by intros (p & _ & ->)%fmap_Some_1.
  - intros ([p gs] & _ & [= <-])%bind_Some. done.
  - intros ([p gs] & _ & [= <-])%bind_Some. done.
  - intros ([p gs] & _ & [= <-])%bind_Some. done.
  - destruct (pl_forwarded st); [done |]. destruct (pl_hashErrs st) as [|e es].
    + destruct (returned _); [| done]. by intros [= <-].
    + intros [= <-]. by apply addErr_no_context.
  - intros (g & _ & [[g' st1] [Hg [= <-]]]%bind_Some)%bind_Some. apply (go_step_no_context _ _ _ _ _ H Hg).
  - intros [= <-]. by apply addErr_no_context.
  - destruct (pl_ctx st); [done |]. by intros [= <-].
Qed.

Lemma pipe_run_no_context sched st : no_context_errs st → no_context_errs (pipe_run sched st).
Proof.
  revert st. induction sched as [|l sched IH]; intros st H; simpl; [done |]. apply IH.
  destruct (pipe_step l st) as [st'|] eqn:Hs; [by eapply pipe_step_no_context | done].
Qed.

(** ** The invariant of the channels and of the semaphores *)

(** A stage with [running] goroutines of its own: each holds one slot of its semaphore, there are
    no more of them than slots, and the loop leaves a channel only when it is closed and empty. *)
Definition pool_ok {A} (workers capacity running : nat) (closed : bool) (p : pool A) : Prop :=
  pool_sem p = running ∧ running ≤ workers ∧ length (pool_in p) ≤ capacity
  ∧ match pool_loop p with
    | LWait => pool_in p = [] ∧ closed = true
    | LDone => pool_in p = [] ∧ closed = true ∧ running = 0
    | _ => True
    end.

Record pipe_ok (st : pipe) : Prop := {
  ok_exc : pool_ok (lim_exc lim) (lim_excBuf lim) (live SExclusive (pl_gos st)) (walk_closed st) (pl_exc st);
  ok_hash : pool_ok (lim_hash lim) (lim_comBuf lim) (live SHash (pl_gos st)) (walk_closed st) (pl_hash st);
  ok_com : pool_ok (lim_com lim) (lim_out lim) (live SCommon (pl_gos st)) (returned (pl_hash st)) (pl_com st);
  ok_hashErrs : length (pl_hashErrs st) ≤ hashErrCap;
  ok_forwarded : pl_forwarded st = true → returned (pl_hash st) = true ∧ pl_hashErrs st = [];
}.

Lemma pipe_ok_init walk s b : pipe_ok (pipe_init walk s b).
Proof. split; simpl; try done; unfold pool_ok, live, lim_out, hashErrCap; simpl; split_and?; (done || lia). Qed.

(** What the invariant is about; the rest of the state may change freely. *)
Definition shape (st : pipe) :=
  (pl_walk st, pl_exc st, pl_hash st, pl_com st, pl_hashErrs st, pl_forwarded st, pl_gos st).

Lemma shape_ok st st' : shape st' = shape st → pipe_ok st → pipe_ok st'.
Proof. intros [= E1 E2 E3 E4 E5 E6 E7] [H1 H2 H3 H4 H5]. split; unfold walk_closed in *; by rewrite ?E1, ?E2, ?E3, ?E4, ?E5, ?E6, ?E7. Qed.

Lemma addErr_shape e st : shape (addErr e st) = shape st.
Proof. unfold addErr. by destruct (isContextErr e). Qed.

(** A goroutine handles its entry, or sends its error, its entry, or gives its slot back. *)
Lemma go_step_cases done g st g' st' :
  go_step done g st = Some (g', st') →
  (stage_of g' = stage_of g ∧ is_Some (stage_of g) ∧ shape st' = shape st)
  ∨ (∃ cp e, g = GHashErr cp e ∧ g' = GOut cp ∧ length (pl_hashErrs st) < hashErrCap ∧ st' = with_hashErrs (pl_hashErrs st ++ [e]) st)
  ∨ (∃ cp p, g = GOut cp ∧ g' = GRelease SHash ∧ pool_send (lim_out lim) cp (pl_com st) = Some p ∧ st' = with_com p st)
  ∨ (∃ k, g = GRelease k ∧ g' = GEnd ∧ release k st = Some st').
Proof.
  destruct g; simpl.
  - destruct (excHandler ep _) as [[e|] s]; intros [= <- <-]; left; (split; [done | split; [done |]]); by rewrite ?addErr_shape.
  - destruct (enrichOne _ _ _ _ _) as [cp' [e|]]; intros [= <- <-]; by left.
  - destruct done; [destruct (pl_ctx st); [| done]; intros [= <- <-]; by left |]. destruct (_ <? _) eqn:E; [| done].
    apply Nat.ltb_lt in E. intros [= <- <-]. right; left. eauto 10.
  - destruct done; [destruct (pl_ctx st); [| done]; intros [= <- <-]; by left |]. intros (p & Hp & [= -> ->])%fmap_Some_1.
    right; right; left. eauto 10.
  - destruct (comHandler cp _) as [[e|] s]; [intros [= <- <-]; left; by rewrite addErr_shape |].
    destruct (commonPathToBatchOp cp); intros [= <- <-]; by left.
  - destruct (_ (pl_ctx st) op (pl_batcher st)) as [[e|] b]; intros [= <- <-]; left; rewrite ?addErr_shape; by destruct exclusive.
  - intros [= <- <-]. left. by destruct exclusive.
  - intros (st1 & Hr & [= -> ->])%fmap_Some_1. right; right; right. eauto.
  - done.
Qed.

Lemma live_insert k gs i g g' :
  gs !! i = Some g → live k (<[i := g']> gs) + counted k g = live k gs + counted k g'.
Proof. intros (l1 & l2 & -> & ->)%list_split. rewrite insert_middle. unfold live. rewrite !sum_list_with_app. simpl. lia. Qed.

Lemma live_lookup k gs i g : gs !! i = Some g → stage_of g = Some k → 0 < live k gs.
Proof.
  intros (l1 & l2 & -> & _)%list_split Hg. unfold live. rewrite sum_list_with_app. simpl. unfold counted at 2.
  rewrite decide_True by done. lia.
Qed.

Lemma live_pos k gs : 0 < live k gs → ∃ i g, gs !! i = Some g ∧ stage_of g = Some k.
Proof.
  unfold live. induction gs as [|g gs IH]; simpl; [lia |]. unfold counted at 1. destruct (decide _) as [Hg|Hg]; [by exists 0, g |].
  intros (i & g' & ? & ?)%IH. by exists (Datatypes.S i), g'.
Qed.

Lemma loop_step_ok {A} workers capacity ctx closed k (spawn : A → goroutine) done p p' started gs :
  (∀ x, stage_of (spawn x) = Some k) →
  pool_ok workers capacity (live k gs) closed p → loop_step workers ctx closed (live k gs) spawn done p = Some (p', started) →
  pool_ok workers capacity (live k (gs ++ started)) closed p' ∧ (∀ k', k' ≠ k → live k' (gs ++ started) = live k' gs)
  ∧ (returned p = true → returned p' = true).
Proof.
  intros Hk (H1 & H2 & H3 & H4). unfold loop_step, returned.
  assert (∀ x k', live k' (gs ++ [spawn x]) = live k' gs + if decide (k = k') then 1 else 0) as Hl.
  { intros x k'. unfold live. rewrite sum_list_with_app. simpl. unfold counted at 2. rewrite Hk.
    destruct (decide (k = k')) as [->|]; [by rewrite decide_True | rewrite decide_False by congruence; lia]. }
  destruct (pool_loop p) as [|x| |] eqn:El; [| | |done].
  - destruct (pool_in p) as [|x q] eqn:Ei.
    + destruct closed; [| done]. intros [= <- <-]. rewrite app_nil_r. unfold pool_ok; simpl. split_and!; done.
    + intros [= <- <-]. rewrite app_nil_r. unfold pool_ok; simpl in *. split_and!; try done; [lia |]. by destruct ctx.
  - destruct done; [destruct ctx; [| done]; intros [= <- <-]; rewrite app_nil_r; unfold pool_ok; simpl; by split_and! |].
    destruct (pool_sem p <? workers) eqn:Hw; [| done]. apply Nat.ltb_lt in Hw. intros [= <- <-]. unfold pool_ok. simpl.
    rewrite Hl, decide_True by done. split_and!; try done; try lia. intros k' Hne. rewrite Hl, decide_False by done. lia.
  - destruct (live k gs =? 0) eqn:E; [| done]. apply Nat.eqb_eq in E. intros [= <- <-]. rewrite app_nil_r. unfold pool_ok. simpl.
    destruct H4. split_and!; done.
Qed.

Lemma pool_send_ok {A} workers capacity running (x : A) p p' :
  pool_ok workers capacity running false p → pool_send capacity x p = Some p' → pool_ok workers capacity running false p'.
Proof.
  intros (H1 & H2 & H3 & H4). unfold pool_send. destruct (_ <? _) eqn:E; [| done]. apply Nat.ltb_lt in E. intros [= <-].
  unfold pool_ok. simpl. rewrite length_app. simpl. split_and!; try done; [lia |]. destruct (pool_loop p); naive_solver.
Qed.

Lemma pool_release_ok {A} workers capacity running closed (p : pool A) :
  pool_ok workers capacity (running + 1) closed p →
  ∃ p', pool_release p = Some p' ∧ pool_ok workers capacity running closed p' ∧ returned p' = returned p ∧ pool_in p' = pool_in p.
Proof.
  intros (H1 & H2 & H3 & H4). unfold pool_release. rewrite H1, Nat.add_1_r. eexists. split; [done |]. split; [| done].
  unfold pool_ok. simpl. split_and!; try done; [lia |]. destruct (pool_loop p); try done. lia.
Qed.

(** A channel that has lost its last sender may be closed. *)
Lemma pool_ok_closed {A} workers capacity running closed (p : pool A) :
  pool_ok workers capacity running closed p → pool_ok workers capacity running true p.
Proof. intros (H1 & H2 & H3 & H4). split_and!; try done. destruct (pool_loop p); naive_solver. Qed.

Lemma release_ok k gs gs' (st : pipe) :
  pipe_ok st → pl_gos st = gs → (∀ k', live k' gs = live k' gs' + (if decide (k' = k) then 1 else 0)) →
  ∃ st', release k st = Some st' ∧ pl_gos st' = gs ∧ pipe_ok (with_gos gs' st').
Proof.
  intros [H1 H2 H3 H4 H5] E Hl. rewrite E in *. unfold release.
  assert (∀ k', k' ≠ k → live k' gs = live k' gs') as Hne by (intros k' ?; rewrite Hl, decide_False by done; lia).
  assert (live k gs = live k gs' + 1) as Hk by by rewrite Hl, decide_True.
  destruct k.
  - rewrite Hk in H1. rewrite (Hne SHash) in H2 by done. rewrite (Hne SCommon) in H3 by done.
    destruct (pool_release_ok _ _ _ _ _ H1) as (p & -> & Hp & _). eexists. split; [done |]. split; [done |]. by split.
  - rewrite Hk in H2. rewrite (Hne SExclusive) in H1 by done. rewrite (Hne SCommon) in H3 by done.
    destruct (pool_release_ok _ _ _ _ _ H2) as (p & -> & Hp & Hr & _). eexists. split; [done |]. split; [done |].
    split; simpl; by rewrite ?Hr.
  - rewrite Hk in H3. rewrite (Hne SExclusive) in H1 by done. rewrite (Hne SHash) in H2 by done.
    destruct (pool_release_ok _ _ _ _ _ H3) as (p & -> & Hp & _). eexists. split; [done |]. split; [done |]. by split.
Qed.

Lemma returned_ok {A} workers capacity running closed (p : pool A) :
  pool_ok workers capacity running closed p → returned p = true → pool_in p = [] ∧ closed = true ∧ running = 0.
Proof. intros (_ & _ & _ & H). unfold returned. by destruct (pool_loop p). Qed.

(** A goroutine of the hash stage keeps its channels open. *)
Lemma hash_running (st : pipe) i g :
  pipe_ok st → pl_gos st !! i = Some g → stage_of g = Some SHash → returned (pl_hash st) = false ∧ pl_forwarded st = false.
Proof.
  intros Hok Hi Hg. pose proof (live_lookup _ _ _ _ Hi Hg) as Hl.
  assert (returned (pl_hash st) = false) as Hr.
  { apply not_true_iff_false. intros Hr. destruct (returned_ok _ _ _ _ _ (ok_hash _ Hok) Hr) as (_ & _ & ?). lia. }
  split; [done |]. apply not_true_iff_false. intros [Hr' _]%(ok_forwarded _ Hok). congruence.
Qed.

Lemma live_same gs i g g' : gs !! i = Some g → stage_of g' = stage_of g → ∀ k, live k (<[i := g']> gs) = live k gs.
Proof.
  intros Hi Hs k. pose proof (live_insert k _ _ _ g' Hi) as E. unfold counted in E. rewrite Hs in E. lia.
Qed.

Lemma go_ok done i g g' (st st' : pipe) :
  pipe_ok st → pl_gos st !! i = Some g → go_step done g st = Some (g', st') → pipe_ok (with_gos (<[i := g']> (pl_gos st')) st').
Proof.
  intros Hok Hi Hs. pose proof Hok as [H1 H2 H3 H4 H5].
  destruct (go_step_cases _ _ _ _ _ Hs) as [(Hst & Hsome & [= E1 E2 E3 E4 E5 E6 E7])|[(cp & e & -> & -> & Hlen & ->)|[(cp & p & -> & -> & Hp & ->)|(k & -> & -> & Hr)]]].
  - pose proof (live_same _ _ _ g' Hi Hst) as Hl. rewrite E7.
    split; unfold walk_closed in *; simpl; rewrite ?E1, ?E2, ?E3, ?E4, ?E5, ?E6, ?Hl; done.
  - pose proof (live_same _ _ _ (GOut cp) Hi eq_refl) as Hl. destruct (hash_running _ _ _ Hok Hi eq_refl) as [Hr Hf].
    split; simpl; rewrite ?Hl; try done; [rewrite length_app; simpl; lia | by rewrite Hf].
  - pose proof (live_same _ _ _ (GRelease SHash) Hi eq_refl) as Hl. destruct (hash_running _ _ _ Hok Hi eq_refl) as [Hr Hf].
    split; simpl; rewrite ?Hl; try done. rewrite Hr in H3 |- *. by eapply pool_send_ok.
  - destruct (release_ok k (pl_gos st) (<[i := GEnd]> (pl_gos st)) st Hok eq_refl) as (st1 & Hr1 & Eg & Hok1).
    { intros k'. pose proof (live_insert k' _ _ _ GEnd Hi) as E. unfold counted in E. simpl in E.
      destruct (decide (Some k = Some k')) as [[= ->]|Hne]; [rewrite decide_True by done; lia |].
      rewrite decide_False by congruence. lia. }
    rewrite Hr in Hr1. injection Hr1 as <-. by rewrite Eg.
Qed.

Lemma pipe_step_ok l (st st' : pipe) : pipe_ok st → pipe_step l st = Some st' → pipe_ok st'.
Proof.
  intros Hok. pose proof Hok as [H1 H2 H3 H4 H5]. destruct l as [d|d|d|d| |i d|e|]; simpl.
  - destruct (pl_walk st) as [|x w] eqn:Ew; [done |]. unfold walk_closed in H1, H2. rewrite Ew in H1, H2.
    destruct d; [destruct (pl_ctx st); [| done]; intros [= <-]; split; simpl; try done; unfold walk_closed; simpl; by eapply pool_ok_closed |].
    destruct x as [ep|cp]; intros (p & Hp & ->)%fmap_Some_1; (split; simpl; try done); unfold walk_closed; simpl.
    + pose proof (pool_send_ok _ _ _ _ _ _ H1 Hp). destruct w; [by eapply pool_ok_closed | done].
    + destruct w; [by eapply pool_ok_closed | done].
    + destruct w; [by eapply pool_ok_closed | done].
    + pose proof (pool_send_ok _ _ _ _ _ _ H2 Hp). destruct w; [by eapply pool_ok_closed | done].
    + replace (returned p) with (returned (pl_hash st)); [done |]. unfold pool_send in Hp. destruct (_ <? _); [| done]. by injection Hp as <-.
    + replace (returned p) with (returned (pl_hash st)); [done |]. unfold pool_send in Hp. destruct (_ <? _); [| done]. by injection Hp as <-.
  - intros ([p gs] & Hl & [= <-])%bind_Some.
    destruct (loop_step_ok _ _ _ _ SExclusive GExc _ _ _ _ _ (λ x, eq_refl) H1 Hl) as (Hp & Hne & _).
    split; simpl; rewrite ?(Hne SHash), ?(Hne SCommon) by done; done.
  - intros ([p gs] & Hl & [= <-])%bind_Some.
    destruct (loop_step_ok _ _ _ _ SHash GHash _ _ _ _ _ (λ x, eq_refl) H2 Hl) as (Hp & Hne & Hr).
    split; simpl; rewrite ?(Hne SExclusive), ?(Hne SCommon) by done; try done.
    + destruct (returned (pl_hash st)) eqn:E; [by rewrite Hr |]. destruct (returned p); [by eapply pool_ok_closed | done].
    + intros [E ->]%H5. by rewrite Hr.
  - intros ([p gs] & Hl & [= <-])%bind_Some.
    destruct (loop_step_ok _ _ _ _ SCommon GCom _ _ _ _ _ (λ x, eq_refl) H3 Hl) as (Hp & Hne & _).
    split; simpl; rewrite ?(Hne SHash), ?(Hne SExclusive) by done; done.
  - destruct (pl_forwarded st) eqn:Ef; [done |]. destruct (pl_hashErrs st) as [|e es] eqn:Ee.
    + destruct (returned (pl_hash st)) eqn:Er; [| done]. intros [= <-]. split; simpl; intros; rewrite ?Ee, ?Er; simpl; (done || lia).
    + intros [= <-]. apply (shape_ok (with_hashErrs es st)); [apply addErr_shape |]. split; simpl; try done; [simpl in H4; lia | by rewrite Ef].
  - intros (g & Hi & [[g' st1] [Hs [= <-]]]%bind_Some)%bind_Some. by eapply go_ok.
  - intros [= <-]. by apply (shape_ok st); [apply addErr_shape |].
  - destruct (pl_ctx st); [done |]. intros [= <-]. by apply (shape_ok st).
Qed.

Lemma pipe_run_ok sched (st : pipe) : pipe_ok st → pipe_ok (pipe_run sched st).
Proof.
  revert st. induction sched as [|l sched IH]; intros st H; [done |]. simpl. apply IH.
  destruct (pipe_step l st) as [st'|] eqn:Hs; [by eapply pipe_step_ok | done].
Qed.

(** ** A number of moves to come *)

Definition go_rank (g : goroutine) : nat :=
  match g with
  | GHash _ => 11 | GHashErr _ _ => 10 | GOut _ => 8 | GExc _ | GCom _ => 4 | GSubmit _ _ => 3 | GCount _ => 2
  | GRelease _ => 1 | GEnd => 0
  end.

Definition pool_rank {A} (received selected : nat) (p : pool A) : nat :=
  received * length (pool_in p) + match pool_loop p with LRange => 2 | LSelect _ => 2 + selected | LWait => 1 | LDone => 0 end.

Definition walk_rank (x : ExclusivePath + CommonPath) : nat := match x with inl _ => 7 | inr _ => 14 end.

Definition pipe_rank (st : pipe) : nat :=
  sum_list_with walk_rank (pl_walk st) + pool_rank 6 5 (pl_exc st) + pool_rank 13 12 (pl_hash st) + pool_rank 6 5 (pl_com st)
  + length (pl_hashErrs st) + (if pl_forwarded st then 0 else 1) + sum_list_with go_rank (pl_gos st).

Lemma loop_step_rank {A} workers ctx closed running (spawn : A → goroutine) done p p' started a b :
  (∀ x, go_rank (spawn x) < b) → b < a →
  loop_step workers ctx closed running spawn done p = Some (p', started) →
  pool_rank a b p' + sum_list_with go_rank started < pool_rank a b p.
Proof.
  intros Hs Hab. unfold loop_step, pool_rank. destruct (pool_loop p) as [|x| |] eqn:El; [| | |done].
  - destruct (pool_in p) as [|x q]; [destruct closed; [| done]; intros [= <- <-]; simpl; lia |].
    intros [= <- <-]. simpl. destruct ctx; simpl; lia.
  - specialize (Hs x). destruct done; [destruct ctx; [| done]; intros [= <- <-]; simpl; lia |].
    destruct (_ <? _); [| done]. intros [= <- <-]. simpl. lia.
  - destruct (_ =? _); [| done]. intros [= <- <-]. simpl. lia.
Qed.

Lemma pool_send_rank {A} capacity (x : A) p p' a b : pool_send capacity x p = Some p' → pool_rank a b p' = pool_rank a b p + a.
Proof.
  unfold pool_send, pool_rank. destruct (_ <? _); [| done]. intros [= <-]. simpl. rewrite length_app. simpl. lia.
Qed.

Lemma release_rank k (st st' : pipe) : release k st = Some st' → pipe_rank st' = pipe_rank st ∧ pl_gos st' = pl_gos st.
Proof.
  assert (∀ {A} (p p' : pool A) a b, pool_release p = Some p' → pool_rank a b p' = pool_rank a b p) as Hp.
  { intros A p p' a b. unfold pool_release, pool_rank. destruct (pool_sem p); [done |]. by intros [= <-]. }
  destruct k; simpl; intros (p & E & ->)%fmap_Some_1; unfold pipe_rank; simpl; by rewrite (Hp _ _ _ _ _ E).
Qed.

Lemma go_step_rank done g g' (st st' : pipe) :
  go_step done g st = Some (g', st') → pipe_rank st' + go_rank g' < pipe_rank st + go_rank g ∧ pl_gos st' = pl_gos st.
Proof.
  assert (∀ e st, pipe_rank (addErr e st) = pipe_rank st ∧ pl_gos (addErr e st) = pl_gos st) as Ha.
  { intros e st1. unfold addErr. by destruct (isContextErr e). }
  destruct g; simpl.
  - destruct (excHandler ep _) as [[e|] s]; intros [= <- <-]; [rewrite !(proj1 (Ha _ _)), (proj2 (Ha _ _)) |]; unfold pipe_rank; simpl; (split; [lia | done]).
  - destruct (enrichOne _ _ _ _ _) as [cp' [e|]]; intros [= <- <-]; simpl; (split; [lia | done]).
  - destruct done; [destruct (pl_ctx st); [| done]; intros [= <- <-]; simpl; (split; [lia | done]) |]. destruct (_ <? _); [| done].
    intros [= <- <-]. unfold pipe_rank. simpl. rewrite length_app. simpl. split; [lia | done].
  - destruct done; [destruct (pl_ctx st); [| done]; intros [= <- <-]; simpl; (split; [lia | done]) |].
    intros (p & Hp & [= -> ->])%fmap_Some_1. unfold pipe_rank. simpl. rewrite (pool_send_rank _ _ _ _ _ _ Hp). split; [lia | done].
  - destruct (comHandler cp _) as [[e|] s].
    + intros [= <- <-]. rewrite !(proj1 (Ha _ _)), (proj2 (Ha _ _)). unfold pipe_rank. simpl. split; [lia | done].
    + destruct (commonPathToBatchOp cp); intros [= <- <-]; unfold pipe_rank; simpl; (split; [lia | done]).
  - destruct (_ (pl_ctx st) op (pl_batcher st)) as [[e|] b]; intros [= <- <-]; [rewrite !(proj1 (Ha _ _)), (proj2 (Ha _ _)) |]; unfold pipe_rank; simpl; (split; [lia | done]).
  - intros [= <- <-]. unfold pipe_rank. simpl. split; [lia | done].
  - intros (st1 & Hr & [= -> ->])%fmap_Some_1. destruct (release_rank _ _ _ Hr) as [-> ->]. simpl. split; [lia | done].
  - done.
Qed.

Lemma pipe_step_rank l (st st' : pipe) : stage_move l → pipe_step l st = Some st' → pipe_rank st' < pipe_rank st.
Proof.
  destruct l as [d|d|d|d| |i d|e|]; simpl; intros Hm; try done.
  - destruct (pl_walk st) as [|x w] eqn:Ew; [done |].
    destruct d; [destruct (pl_ctx st); [| done]; intros [= <-]; unfold pipe_rank; simpl; rewrite Ew; simpl; destruct x; simpl; lia |].
    destruct x; intros (p & Hp & ->)%fmap_Some_1; unfold pipe_rank; simpl; rewrite (pool_send_rank _ _ _ _ _ _ Hp), Ew; simpl; lia.
  - intros ([p gs] & Hl & [= <-])%bind_Some. apply (loop_step_rank _ _ _ _ _ _ _ _ _ 6 5) in Hl; [| simpl; lia | lia].
    unfold pipe_rank. simpl. rewrite sum_list_with_app. lia.
  - intros ([p gs] & Hl & [= <-])%bind_Some. apply (loop_step_rank _ _ _ _ _ _ _ _ _ 13 12) in Hl; [| simpl; lia | lia].
    unfold pipe_rank. simpl. rewrite sum_list_with_app. lia.
  - intros ([p gs] & Hl & [= <-])%bind_Some. apply (loop_step_rank _ _ _ _ _ _ _ _ _ 6 5) in Hl; [| simpl; lia | lia].
    unfold pipe_rank. simpl. rewrite sum_list_with_app. lia.
  - destruct (pl_forwarded st) eqn:Ef; [done |]. destruct (pl_hashErrs st) as [|e es] eqn:Ee.
    + destruct (returned _); [| done]. intros [= <-]. unfold pipe_rank. simpl. rewrite Ef. lia.
    + intros [= <-]. unfold addErr. destruct (isContextErr _); unfold pipe_rank; simpl; rewrite Ee, Ef; simpl; lia.
  - intros (g & Hi & [[g' st1] [Hs [= <-]]]%bind_Some)%bind_Some. apply go_step_rank in Hs as [Hr Hg].
    unfold pipe_rank in *. simpl. rewrite Hg in *. apply list_split in Hi as (l1 & l2 & E & ->). rewrite E in *. rewrite insert_middle.
    rewrite !sum_list_with_app in *. simpl in *. lia.
Qed.

(** ** Some goroutine can always move *)

Lemma loop_enabled {A} workers ctx closed running (spawn : A → goroutine) capacity p :
  0 < workers → pool_ok workers capacity running closed p → pool_loop p ≠ LDone →
  (pool_loop p = LRange → pool_in p ≠ [] ∨ closed = true) → running = 0 →
  is_Some (loop_step workers ctx closed running spawn false p).
Proof.
  intros Hw (H1 & H2 & H3 & H4) Hd Hr ->. unfold loop_step. destruct (pool_loop p) as [|x| |]; [| | by eexists | done].
  - destruct (pool_in p) as [|x q]; [| by eexists]. destruct (Hr eq_refl) as [?| ->]; [done | by eexists].
  - rewrite H1. destruct (Nat.ltb_spec 0 workers); [by eexists | lia].
Qed.

(** With entries in its channel, a loop can receive, or start a goroutine, or all its slots are taken. *)
Lemma loop_fed {A} workers ctx closed running (spawn : A → goroutine) capacity p :
  0 < workers → pool_ok workers capacity running closed p → pool_in p ≠ [] →
  is_Some (loop_step workers ctx closed running spawn false p) ∨ 0 < running.
Proof.
  intros Hw (H1 & H2 & H3 & H4) Hin. unfold loop_step. destruct (pool_loop p) as [|x| |]; [| | naive_solver | naive_solver].
  - left. destruct (pool_in p); [done | by eexists].
  - rewrite H1. destruct (Nat.ltb_spec running workers); [left; by eexists | right; lia].
Qed.

Definition can_move (st : pipe) : Prop := ∃ l st', stage_move l ∧ pipe_step l st = Some st'.

Lemma go_enabled i g (st : pipe) :
  pipe_ok st → pl_gos st !! i = Some g → is_Some (stage_of g) →
  can_move st ∨ (∃ cp, g = GOut cp ∧ pool_in (pl_com st) ≠ []).
Proof.
  intros Hok Hi Hg.
  assert (is_Some (go_step false g st) → can_move st) as Hgo.
  { intros [[g' st'] Hs]. eexists (PGo i false), _. split; [done |]. simpl. by rewrite Hi; simpl; rewrite Hs. }
  destruct g.
  - left. apply Hgo. simpl. destruct (excHandler ep _) as [[e|] s]; by eexists.
  - left. apply Hgo. simpl. destruct (enrichOne _ _ _ _ _) as [cp' [e|]]; by eexists.
  - left. destruct (pl_hashErrs st) as [|e1 es] eqn:Ee.
    + apply Hgo. simpl. rewrite Ee. by eexists.
    + eexists PForward, _. split; [done |]. simpl. destruct (hash_running _ _ _ Hok Hi eq_refl) as [_ ->]. by rewrite Ee.
  - destruct (pool_in (pl_com st)) as [|x q] eqn:Ec; [left | right; by eauto]. destruct (hash_running _ _ _ Hok Hi eq_refl) as [_ _].
    apply Hgo. simpl. unfold pool_send. rewrite Ec. simpl.
    pose proof (ok_hash _ Hok) as (_ & Hw & _). pose proof (live_lookup _ _ _ _ Hi eq_refl).
    destruct (Nat.ltb_spec 0 (lim_out lim)); [by eexists | unfold lim_out in *; lia].
  - left. apply Hgo. simpl. destruct (comHandler cp _) as [[e|] s]; [by eexists |]. destruct (commonPathToBatchOp cp); by eexists.
  - left. apply Hgo. simpl. destruct (_ (pl_ctx st) op (pl_batcher st)) as [[e|] b]; by eexists.
  - left. apply Hgo. by eexists.
  - left. apply Hgo. simpl. pose proof (live_lookup _ _ _ _ Hi eq_refl) as Hl. simpl. unfold release, pool_release.
    destruct k; [destruct (ok_exc _ Hok) as (-> & _) | destruct (ok_hash _ Hok) as (-> & _) | destruct (ok_com _ Hok) as (-> & _)];
      destruct (live _ (pl_gos st)); (lia || by eexists).
  - by destruct Hg.
Qed.

Lemma step_exc (st : pipe) d :
  is_Some (loop_step (lim_exc lim) (pl_ctx st) (walk_closed st) (live SExclusive (pl_gos st)) GExc d (pl_exc st)) → can_move st.
Proof. intros [[p gs] E]. eexists (PExc d), _. split; [done |]. simpl. by rewrite E. Qed.

Lemma step_hash (st : pipe) d :
  is_Some (loop_step (lim_hash lim) (pl_ctx st) (walk_closed st) (live SHash (pl_gos st)) GHash d (pl_hash st)) → can_move st.
Proof. intros [[p gs] E]. eexists (PHash d), _. split; [done |]. simpl. by rewrite E. Qed.

Lemma step_com (st : pipe) d :
  is_Some (loop_step (lim_com lim) (pl_ctx st) (returned (pl_hash st)) (live SCommon (pl_gos st)) GCom d (pl_com st)) → can_move st.
Proof. intros [[p gs] E]. eexists (PCom d), _. split; [done |]. simpl. by rewrite E. Qed.

(** While a goroutine of a pool runs, something can move. *)
Lemma common_can_move (st : pipe) : limits_ok lim → pipe_ok st → pool_in (pl_com st) ≠ [] ∨ 0 < live SCommon (pl_gos st) → can_move st.
Proof.
  intros (_ & _ & _ & _ & Hl) Hok H.
  assert (0 < live SCommon (pl_gos st) → can_move st) as Hgo.
  { intros (i & g & Hi & Hg)%live_pos. destruct (go_enabled i g st Hok Hi) as [?|(cp & -> & _)]; [by rewrite Hg | done | done]. }
  destruct H as [H|H]; [| by apply Hgo].
  destruct (loop_fed _ (pl_ctx st) _ _ GCom _ _ Hl (ok_com _ Hok) H) as [Hs|Hs]; [by eapply step_com | by apply Hgo].
Qed.

Lemma running_can_move (st : pipe) k : limits_ok lim → pipe_ok st → 0 < live k (pl_gos st) → can_move st.
Proof.
  intros Hlim Hok (i & g & Hi & Hg)%live_pos. destruct (go_enabled i g st Hok Hi) as [?|(cp & _ & Hc)]; [by rewrite Hg | done |].
  apply common_can_move; auto.
Qed.

Lemma pipe_progress (st : pipe) : limits_ok lim → pipe_ok st → pipe_finished st = false → can_move st.
Proof.
  intros Hlim Hok Hf. pose proof Hlim as (L1 & L2 & L3 & L4 & L5). pose proof Hok as [H1 H2 H3 H4 H5].
  assert (∀ k, 0 < live k (pl_gos st) ∨ live k (pl_gos st) = 0) as Hz by (intros k; lia).
  destruct (Hz SExclusive) as [?|Z1]; [by eapply running_can_move |]. destruct (Hz SHash) as [?|Z2]; [by eapply running_can_move |].
  destruct (Hz SCommon) as [?|Z3]; [by eapply running_can_move |].
  destruct (decide (pool_in (pl_com st) = [])) as [Ec|Ec]; [| apply common_can_move; auto].
  (* the hash stage *)
  destruct (pool_loop (pl_hash st)) eqn:El2.
  2, 3: eapply step_hash, loop_enabled; (done || by rewrite El2).
  { destruct (decide (pool_in (pl_hash st) = [])) as [Eh|Eh];
      [| eapply step_hash, loop_enabled; (done || (rewrite El2; done) || auto)].
    destruct (walk_closed st) eqn:Ew; [eapply step_hash; rewrite Ew; eapply loop_enabled; (done || (rewrite El2; done) || auto) |].
    unfold walk_closed in Ew. destruct (pl_walk st) as [|[ep|cp] w] eqn:Ewk; [done | |].
    - destruct (pool_in (pl_exc st)) as [|y q] eqn:Ee.
      + eexists (PWalk false), _. split; [done |]. simpl. rewrite Ewk. unfold pool_send. rewrite Ee. simpl.
        destruct (Nat.ltb_spec 0 (lim_excBuf lim)); [done | lia].
      + assert (pool_in (pl_exc st) ≠ []) as Hne by by rewrite Ee.
        destruct (loop_fed _ (pl_ctx st) _ _ GExc _ _ L3 H1 Hne) as [Hs|Hs]; [| lia].
        eapply (step_exc st false). unfold walk_closed. rewrite Ewk. exact Hs.
    - eexists (PWalk false), _. split; [done |]. simpl. rewrite Ewk. unfold pool_send. rewrite Eh. simpl.
      destruct (Nat.ltb_spec 0 (lim_comBuf lim)); [done | lia]. }
  assert (returned (pl_hash st) = true) as Er by by unfold returned; rewrite El2.
  destruct (returned_ok _ _ _ _ _ H2 Er) as (_ & Ew & _).
  destruct (returned (pl_exc st)) eqn:Ex.
  2: { eapply step_exc, loop_enabled; try done; [by intros E; unfold returned in Ex; rewrite E in Ex | auto]. }
  destruct (returned (pl_com st)) eqn:Ey.
  2: { eapply step_com, loop_enabled; try done; [by intros E; unfold returned in Ey; rewrite E in Ey | auto]. }
  unfold pipe_finished in Hf. rewrite Ex, Ey in Hf. simpl in Hf.
  destruct (pl_hashErrs st) eqn:Ee; eexists PForward, _; (split; [done |]); simpl; by rewrite Hf, Ee, ?Er.
Qed.

Lemma pipe_run_app s1 s2 (st : pipe) : pipe_run (s1 ++ s2) st = pipe_run s2 (pipe_run s1 st).
Proof. apply foldl_app. Qed.

(** So a run that is left alone ends. *)
Lemma pipe_ends (st : pipe) : limits_ok lim → pipe_ok st → ∃ sched, Forall stage_move sched ∧ pipe_finished (pipe_run sched st) = true.
Proof.
  intros Hlim. remember (pipe_rank st) as n eqn:Hn. revert st Hn. induction n as [n IH] using lt_wf_ind. intros st -> Hok.
  destruct (pipe_finished st) eqn:Hf; [by exists [] |].
  destruct (pipe_progress st Hlim Hok Hf) as (l & st' & Hl & Hs).
  destruct (IH _ (pipe_step_rank _ _ _ Hl Hs) st' eq_refl (pipe_step_ok _ _ _ Hok Hs)) as (sched & Hsch & Hfin).
  exists (l :: sched). split; [by constructor |]. unfold pipe_run in *. cbn [foldl]. by rewrite Hs.
Qed.
End pipeline.

(** ** A run without errors *)

(** What the walk reports, as the interleaving of the two streams that [order] says. *)
Fixpoint merge_by {A B} (order : list bool) (xs : list A) (ys : list B) : list (A + B) :=
  match order, xs, ys with
  | true :: order, x :: xs, _ => inl x :: merge_by order xs ys
  | false :: order, _, y :: ys => inr y :: merge_by order xs ys
  | _, _, _ => (inl <$> xs) ++ (inr <$> ys)
  end.

Lemma merge_by_perm {A B} order (xs : list A) (ys : list B) : merge_by order xs ys ≡ₚ (inl <$> xs) ++ (inr <$> ys).
Proof.
  revert xs ys. induction order as [|[] order IH]; intros xs ys; [done | |].
  - destruct xs as [|x xs]; [done |]. simpl. by rewrite IH.
  - destruct ys as [|y ys]; [by destruct xs |]. transitivity (inr y :: merge_by order xs ys); [by destruct xs |].
    rewrite IH. apply Permutation_middle.
Qed.

Lemma count_occ_sum {A} `{EqDecision A} (l : list A) x : count_occ (decide_rel (=)) l x = sum_list_with (λ y, if decide (y = x) then 1 else 0) l.
Proof. induction l as [|y l IH]; [done |]. simpl. rewrite IH. unfold decide_rel, decide. by destruct (EqDecision0 y x). Qed.

Section complete.
Context {S V : Type} (excHandler : ExclusiveHandler S) (comHandler : CommonHandler S).
Context (equal : string → string → FileInfo → FileInfo → result bool) (lowerRoot upperRoot : string) (abortOnError : bool) (lim : limits).

(** [Submit] of a [GoroutineBatcher] without auto-flush, as [NewBestBatcher] makes it. *)
Definition enqueue (ctxErr : option error) (op : BatchOp) (b : gbatcher V) : option error * gbatcher V := gb_queue op b.

Definition enriched (cp : CommonPath) : CommonPath := (enrichOne equal lowerRoot upperRoot None cp).1.

(** The removal that an entry asks for. *)
Definition removal (x : ExclusivePath + CommonPath) : option BatchOp :=
  match x with inl ep => Some (exclusivePathToBatchOp ep) | inr cp => commonPathToBatchOp (enriched cp) end.

Definition removals (walk : list (ExclusivePath + CommonPath)) : list BatchOp := omap removal walk.

Definition exclusives (walk : list (ExclusivePath + CommonPath)) : nat :=
  sum_list_with (λ x, match x with inl _ => 1 | inr _ => 0 end) walk.
Definition commons (walk : list (ExclusivePath + CommonPath)) : nat :=
  sum_list_with (λ x, match x with inl _ => 0 | inr _ => 1 end) walk.

Context (Hexc : ∀ ep s, (excHandler ep s).1 = None) (Hcom : ∀ cp s, (comHandler cp s).1 = None).
Context (Hequal : ∀ l u li ui, ∃ b, equal l u li ui = Ok b).

Notation go_step := (go_step excHandler comHandler enqueue enqueue equal lowerRoot upperRoot abortOnError lim).
Notation pipe_step := (pipe_step excHandler comHandler enqueue enqueue equal lowerRoot upperRoot abortOnError lim).
Notation pipe_run := (pipe_run excHandler comHandler enqueue enqueue equal lowerRoot upperRoot abortOnError lim).
Notation pipe := (pipe S (gbatcher V)).

Definition no_hash_error (g : goroutine) : Prop := match g with GHashErr _ _ => False | _ => True end.

Lemma enrichOne_ok cp : enrichOne equal lowerRoot upperRoot None cp = (enriched cp, None).
Proof.
  unfold enriched, enrichOne. destruct (cp_Kind cp), (cp_LowerInfo cp) as [li|], (cp_UpperInfo cp) as [ui|]; try done;
    by destruct (Hequal (path_join [lowerRoot; cp_Path cp]) (path_join [upperRoot; cp_Path cp]) li ui) as [b ->].
Qed.

(** A batcher that is open, has flushed [n] times and left the view [v]. *)
Definition idle_batcher (v : V) (n : nat) (b : gbatcher V) : Prop := gq_closed b = false ∧ gq_view b = v ∧ gq_flushes b = n.

(** No error so far, the context is alive, and the batcher has only queued. *)
Definition pipe_alive (v : V) (n : nat) (st : pipe) : Prop :=
  pl_ctx st = None ∧ pl_errs st = [] ∧ pl_hashErrs st = [] ∧ Forall no_hash_error (pl_gos st) ∧ idle_batcher v n (pl_batcher st).

(** A quantity that the entries still to be handled will add to what the batcher and the counters
    have. *)
Section weight.
Context (base : nat → nat → list BatchOp → nat) (fe : ExclusivePath → nat) (fr fo : CommonPath → nat) (fg : goroutine → nat).
Context (We : ∀ ep, fg (GExc ep) = fe ep) (We' : ∀ ep, fg (GSubmit true (exclusivePathToBatchOp ep)) = fe ep).
Context (Wr : ∀ cp, fg (GHash cp) = fr cp) (Wr' : ∀ cp, fr cp = fo (enriched cp)).
Context (Wo : ∀ cp, fg (GOut cp) = fo cp) (Wc : ∀ cp, fg (GCom cp) = fo cp).
Context (Wc' : ∀ cp, fo cp = match commonPathToBatchOp cp with Some op => fg (GSubmit false op) | None => fg (GCount false) end).
Context (Ws : ∀ x y b k op, base x y (b ++ [op]) + fg (GCount k) = base x y b + fg (GSubmit k op)).
Context (Wx : ∀ x y b, base (x + 1) y b = base x y b + fg (GCount true)).
Context (Wy : ∀ x y b, base x (y + 1) b = base x y b + fg (GCount false)).
Context (Wk : ∀ k, fg (GRelease k) = 0) (W0 : fg GEnd = 0).

Definition pool_weight {A} (f : A → nat) (p : pool A) : nat :=
  sum_list_with f (pool_in p) + match pool_loop p with LSelect x => f x | _ => 0 end.

Definition walk_weight (walk : list (ExclusivePath + CommonPath)) : nat :=
  sum_list_with (λ x, match x with inl ep => fe ep | inr cp => fr cp end) walk.

Definition weight (st : pipe) : nat :=
  base (pl_excHandled st) (pl_comHandled st) (gq_pending (pl_batcher st))
  + walk_weight (pl_walk st) + pool_weight fe (pl_exc st) + pool_weight fr (pl_hash st) + pool_weight fo (pl_com st)
  + sum_list_with fg (pl_gos st).

Lemma loop_step_weight {A} (f : A → nat) workers closed running spawn done p p' started :
  (∀ x, fg (spawn x) = f x) → loop_step workers None closed running spawn done p = Some (p', started) →
  pool_weight f p' + sum_list_with fg started = pool_weight f p.
Proof.
  intros Hs. unfold loop_step, pool_weight. destruct (pool_loop p) as [|x| |] eqn:El; [| | |done].
  - destruct (pool_in p) as [|x q]; [destruct closed; [| done] |]; intros [= <- <-]; simpl; lia.
  - destruct done; [done |]. destruct (_ <? _); [| done]. intros [= <- <-]. simpl. rewrite Hs. lia.
  - destruct (_ =? _); [| done]. intros [= <- <-]. simpl. lia.
Qed.

Lemma loop_step_quiet {A} workers ctx closed running (spawn : A → goroutine) done p p' started :
  (∀ x, no_hash_error (spawn x)) → loop_step workers ctx closed running spawn done p = Some (p', started) →
  Forall no_hash_error started.
Proof.
  intros Hs. unfold loop_step. destruct (pool_loop p) as [|x| |]; [| | |done].
  - destruct (pool_in p); [destruct closed; [| done] |]; intros [= <- <-]; constructor.
  - destruct done; [destruct ctx; [| done]; intros [= <- <-]; constructor |]. destruct (_ <? _); [| done].
    intros [= <- <-]. constructor; [apply Hs | constructor].
  - destruct (_ =? _); [| done]. intros [= <- <-]. constructor.
Qed.

Lemma pool_send_weight {A} (f : A → nat) capacity x p p' : pool_send capacity x p = Some p' → pool_weight f p' = pool_weight f p + f x.
Proof.
  unfold pool_send, pool_weight. destruct (_ <? _); [| done]. intros [= <-]. simpl. rewrite sum_list_with_app. simpl. lia.
Qed.

Lemma release_weight k (st st' : pipe) : release k st = Some st' → weight st' = weight st.
Proof.
  assert (∀ {A} (f : A → nat) (p p' : pool A), pool_release p = Some p' → pool_weight f p' = pool_weight f p) as Hp.
  { intros A f p p'. unfold pool_release, pool_weight. destruct (pool_sem p); [done |]. by intros [= <-]. }
  destruct k; simpl; intros (p & E & ->)%fmap_Some_1; unfold weight; simpl; by rewrite (Hp _ _ _ _ E).
Qed.

(** A step of a goroutine keeps the run alive, and what it takes from its entry it adds. *)
Lemma go_step_alive v n done g (st : pipe) g' st' :
  pl_ctx st = None → no_hash_error g → idle_batcher v n (pl_batcher st) → go_step done g st = Some (g', st') →
  pl_ctx st' = None ∧ pl_errs st' = pl_errs st ∧ pl_hashErrs st' = pl_hashErrs st ∧ pl_gos st' = pl_gos st ∧ no_hash_error g'
  ∧ idle_batcher v n (pl_batcher st') ∧ weight st' + fg g' = weight st + fg g.
Proof.
  intros Hc Hn Hb. unfold weight. destruct g; simpl; rewrite ?Hc; try done.
  - pose proof (Hexc ep (pl_handlers st)) as He. destruct (excHandler ep (pl_handlers st)) as [e s]. simpl in He. subst e.
    intros [= <- <-]. simpl. rewrite We, We'. done.
  - rewrite enrichOne_ok. intros [= <- <-]. rewrite Wr, Wr', Wo. done.
  - destruct done; [done |]. intros (p & Hp & [= -> ->])%fmap_Some_1. simpl. rewrite (pool_send_weight _ _ _ _ _ Hp), Wo, Wk.
    split_and!; (done || lia).
  - pose proof (Hcom cp (pl_handlers st)) as He. destruct (comHandler cp (pl_handlers st)) as [e s]. simpl in He. subst e.
    rewrite Wc, Wc'. destruct (commonPathToBatchOp cp); intros [= <- <-]; done.
  - intros Hs. destruct Hb as (B1 & B2 & B3).
    assert ((if exclusive then enqueue else enqueue) None op (pl_batcher st)
            = (None, mkGB (gq_pending (pl_batcher st) ++ [op]) false (gq_view (pl_batcher st)) (gq_flushes (pl_batcher st)))) as E.
    { destruct exclusive; unfold enqueue, gb_queue; by rewrite B1. }
    rewrite E in Hs. injection Hs as <- <-. simpl. pose proof (Ws (pl_excHandled st) (pl_comHandled st) (gq_pending (pl_batcher st)) exclusive op).
    split_and!; (done || lia).
  - intros [= <- <-]. simpl. rewrite Wk. destruct exclusive; rewrite ?Wx, ?Wy; split_and!; (done || lia).
  - intros (st1 & Hr & [= -> ->])%fmap_Some_1. pose proof (release_weight _ _ _ Hr) as Hw. unfold weight in Hw. rewrite Wk, W0.
    destruct (release_errs _ _ _ Hr) as [-> ->]. destruct (release_rank _ _ _ Hr) as [_ Hg].
    assert (pl_hashErrs st1 = pl_hashErrs st ∧ pl_batcher st1 = pl_batcher st) as [-> E]
      by by destruct k; simpl in Hr; apply fmap_Some_1 in Hr as (p & _ & ->).
    rewrite E in *. split_and!; try done. lia.
Qed.

Lemma pipe_step_alive v n l (st st' : pipe) :
  stage_move l → pipe_alive v n st → pipe_step l st = Some st' → pipe_alive v n st' ∧ weight st' = weight st.
Proof.
  intros Hm (Hc & He & Hh & Hg & Hb). destruct l as [d|d|d|d| |i d|e|]; simpl; try done; rewrite ?Hc.
  - destruct (pl_walk st) as [|x w] eqn:Ew; [done |]. destruct d; [done |].
    destruct x; intros (p & Hp & ->)%fmap_Some_1; (split; [done |]); unfold weight; simpl;
      rewrite (pool_send_weight _ _ _ _ _ Hp), Ew; unfold walk_weight; simpl; lia.
  - intros ([p gs] & Hl & [= <-])%bind_Some. pose proof (loop_step_quiet _ _ _ _ GExc _ _ _ _ (λ _, I) Hl).
    apply (loop_step_weight fe _ _ _ _ _ _ _ _ We) in Hl. split; [split_and!; try done; by apply Forall_app_2 |].
    unfold weight. simpl. rewrite sum_list_with_app. lia.
  - intros ([p gs] & Hl & [= <-])%bind_Some. pose proof (loop_step_quiet _ _ _ _ GHash _ _ _ _ (λ _, I) Hl).
    apply (loop_step_weight fr _ _ _ _ _ _ _ _ Wr) in Hl. split; [split_and!; try done; by apply Forall_app_2 |].
    unfold weight. simpl. rewrite sum_list_with_app. lia.
  - intros ([p gs] & Hl & [= <-])%bind_Some. pose proof (loop_step_quiet _ _ _ _ GCom _ _ _ _ (λ _, I) Hl).
    apply (loop_step_weight fo _ _ _ _ _ _ _ _ Wc) in Hl. split; [split_and!; try done; by apply Forall_app_2 |].
    unfold weight. simpl. rewrite sum_list_with_app. lia.
  - destruct (pl_forwarded st); [done |]. rewrite Hh. destruct (returned _); [| done]. intros [= <-]. done.
  - intros (g & Hi & [[g' st1] [Hs [= <-]]]%bind_Some)%bind_Some.
    destruct (go_step_alive v n _ _ _ _ _ Hc (Forall_lookup_1 _ _ _ _ Hg Hi) Hb Hs) as (C1 & C2 & C3 & C4 & C5 & C6 & C7).
    rewrite C4. apply list_split in Hi as (l1 & l2 & E & ->). unfold pipe_alive, weight in *. simpl. rewrite C4, E in *. rewrite insert_middle.
    rewrite !sum_list_with_app in *. simpl in *. split; [| lia]. split_and!; try congruence.
    apply Forall_app in Hg as [Hg1 [_ Hg2]%Forall_cons]. apply Forall_app_2; [done |]. by constructor.
Qed.

Lemma pipe_run_alive v n sched (st : pipe) :
  Forall stage_move sched → pipe_alive v n st → pipe_alive v n (pipe_run sched st) ∧ weight (pipe_run sched st) = weight st.
Proof.
  intros Hs. revert st. induction Hs as [|l sched Hl _ IH]; intros st H; [done |].
  change (pipe_run (l :: sched) st) with (pipe_run sched (default st (pipe_step l st))).
  destruct (pipe_step l st) as [st'|] eqn:E; simpl; [| by apply IH].
  destruct (pipe_step_alive _ _ _ _ _ Hl H E) as [Ha Hw]. rewrite <- Hw. by apply IH.
Qed.

(** Nothing is left of the entries when the pools and the forwarder have returned. *)
Lemma pipe_finished_weight (st : pipe) :
  pipe_ok lim st → pipe_finished st = true →
  weight st = base (pl_excHandled st) (pl_comHandled st) (gq_pending (pl_batcher st)).
Proof.
  intros [H1 H2 H3 H4 H5] Hf. unfold pipe_finished in Hf. apply andb_true_iff in Hf as [[Hx Hy]%andb_true_iff _].
  destruct (returned_ok _ _ _ _ _ H1 Hx) as (E1 & Ew & Z1). destruct (returned_ok _ _ _ _ _ H3 Hy) as (E3 & Hr & Z3).
  destruct (returned_ok _ _ _ _ _ H2 Hr) as (E2 & _ & Z2).
  assert (sum_list_with fg (pl_gos st) = 0) as Eg.
  { clear -Z1 Z2 Z3 W0. unfold live in *. induction (pl_gos st) as [|g gs IH]; [done |]. simpl in *.
    rewrite IH by lia. unfold counted in *. destruct (stage_of g) as [[]|] eqn:Es; simpl in *; try lia.
    destruct g; try done; [by destruct exclusive.. | lia]. }
  unfold weight, pool_weight, walk_weight. rewrite E1, E2, E3, Eg. unfold walk_closed in Ew. destruct (pl_walk st); [| done].
  unfold returned in *. destruct (pool_loop (pl_exc st)), (pool_loop (pl_hash st)), (pool_loop (pl_com st)); try done. simpl. lia.
Qed.
End weight.

(** What the goroutines have still to submit and to count. *)
Definition go_op (f : BatchOp → nat) (g : goroutine) : nat :=
  match g with
  | GExc ep => f (exclusivePathToBatchOp ep)
  | GHash cp => match commonPathToBatchOp (enriched cp) with Some op => f op | None => 0 end
  | GHashErr cp _ | GOut cp | GCom cp => match commonPathToBatchOp cp with Some op => f op | None => 0 end
  | GSubmit _ op => f op
  | _ => 0
  end.

Definition go_count (exclusive : bool) (g : goroutine) : nat :=
  match g with
  | GExc _ => if exclusive then 1 else 0
  | GHash _ | GHashErr _ _ | GOut _ | GCom _ => if exclusive then 0 else 1
  | GSubmit k _ | GCount k => if decide (k = exclusive) then 1 else 0
  | _ => 0
  end.

Lemma run_submits sched walk s b :
  Forall stage_move sched → gq_closed b = false →
  let st := pipe_run sched (pipe_init walk s b) in
  pipe_finished st = true →
  gq_pending (pl_batcher st) ≡ₚ gq_pending b ++ removals walk ∧ idle_batcher (gq_view b) (gq_flushes b) (pl_batcher st)
  ∧ pl_ctx st = None ∧ pl_errs st = [] ∧ pl_excHandled st = exclusives walk ∧ pl_comHandled st = commons walk.
Proof.
  intros Hs Hb st Hf. assert (pipe_alive (gq_view b) (gq_flushes b) (pipe_init walk s b)) as Ha by by unfold pipe_alive, pipe_init; simpl.
  pose proof (pipe_run_ok excHandler comHandler enqueue enqueue equal lowerRoot upperRoot abortOnError lim sched _ (pipe_ok_init lim walk s b)) as Hok.
  fold st in Hok.
  assert (pipe_alive (gq_view b) (gq_flushes b) st) as (Hctx & Herr & _ & _ & Hidle).
  { apply (pipe_run_alive (λ _ _ _, 0) (λ _, 0) (λ _, 0) (λ _, 0) (λ _, 0)); try done. intros cp. by destruct (commonPathToBatchOp cp). }
  split_and!; try done.
  - apply (Permutation_count_occ (decide_rel (=))). intros op. rewrite !count_occ_sum.
    set (f := λ o, if decide (o = op) then 1 else 0).
    set (fo := λ cp, match commonPathToBatchOp cp with Some op => f op | None => 0 end).
    set (W := weight (λ _ _ b, sum_list_with f b) (λ ep, f (exclusivePathToBatchOp ep)) (fo ∘ enriched) fo (go_op f)).
    assert (W st = W (pipe_init walk s b)) as Hw.
    { eapply pipe_run_alive; try done. intros. rewrite sum_list_with_app. simpl. lia. }
    unfold W in Hw. rewrite pipe_finished_weight in Hw by done. rewrite Hw, sum_list_with_app. unfold weight, pool_weight. simpl.
    rewrite !Nat.add_0_r. f_equal. unfold walk_weight, removals. clear. induction walk as [|[ep|cp] walk IH]; [done | |]; simpl.
    + exact (f_equal (Nat.add _) IH).
    + etransitivity; [exact (f_equal (Nat.add _) IH) |]. unfold fo. simpl. by destruct (commonPathToBatchOp (enriched cp)).
  - set (W := weight (λ x _ _, x) (λ _, 1) (λ _, 0) (λ _, 0) (go_count true)).
    assert (W st = W (pipe_init walk s b)) as Hw.
    { eapply pipe_run_alive; try done. intros cp. by destruct (commonPathToBatchOp cp). }
    unfold W in Hw. rewrite pipe_finished_weight in Hw by done. rewrite Hw. unfold weight, pool_weight. simpl. by rewrite !Nat.add_0_r.
  - set (W := weight (λ _ y _, y) (λ _, 0) (λ _, 1) (λ _, 1) (go_count false)).
    assert (W st = W (pipe_init walk s b)) as Hw.
    { eapply pipe_run_alive; try done. intros cp. by destruct (commonPathToBatchOp cp). }
    unfold W in Hw. rewrite pipe_finished_weight in Hw by done. rewrite Hw. unfold weight, pool_weight. simpl. by rewrite !Nat.add_0_r.
Qed.
End complete.

(** ** Properties *)

(** C26: The channels and the pools of a pipeline do not block each other.  Whatever the handlers,
    the comparisons and the batchers answer, and wherever the context ends, in every state a run
    reaches: each running goroutine of a stage holds one slot of its semaphore, there are at most
    as many as the stage has workers, and no channel is fuller than its buffer; until the pools
    and the forwarder have returned, the classifier, a loop or a goroutine can move; and each such
    move lowers a number that starts at most at fourteen for each entry and seven more. *)
Theorem pipeline_progress {S B} (excHandler : ExclusiveHandler S) comHandler
    (subE subC : option error → BatchOp → B → option error * B) equal lowerRoot upperRoot abort lim walk s b sched :
  limits_ok lim →
  let st := pipe_run excHandler comHandler subE subC equal lowerRoot upperRoot abort lim sched (pipe_init walk s b) in
  let step := pipe_step excHandler comHandler subE subC equal lowerRoot upperRoot abort lim in
  (pool_sem (pl_exc st) = live SExclusive (pl_gos st) ∧ live SExclusive (pl_gos st) ≤ lim_exc lim
   ∧ pool_sem (pl_hash st) = live SHash (pl_gos st) ∧ live SHash (pl_gos st) ≤ lim_hash lim
   ∧ pool_sem (pl_com st) = live SCommon (pl_gos st) ∧ live SCommon (pl_gos st) ≤ lim_com lim)
  ∧ (length (pool_in (pl_exc st)) ≤ lim_excBuf lim ∧ length (pool_in (pl_hash st)) ≤ lim_comBuf lim
     ∧ length (pool_in (pl_com st)) ≤ lim_out lim ∧ length (pl_hashErrs st) ≤ hashErrCap)
  ∧ (pipe_finished st = false → ∃ l st', stage_move l ∧ step l st = Some st')
  ∧ (∀ l st', stage_move l → step l st = Some st' → pipe_rank st' < pipe_rank st)
  ∧ pipe_rank (pipe_init (S := S) walk s b) ≤ 14 * length walk + 7.
Proof.
  intros Hlim st step.
  assert (pipe_ok lim st) as Hok by apply pipe_run_ok, pipe_ok_init.
  pose proof Hok as [(X1 & X2 & X3 & _) (Y1 & Y2 & Y3 & _) (Z1 & Z2 & Z3 & _) He _].
  split; [done |]. split; [done |]. split_and!.
  - by apply pipe_progress.
  - intros l st' Hl Hs. by eapply pipe_step_rank.
  - clear. unfold pipe_rank, pool_rank. simpl. induction walk as [|[ep|cp] walk IH]; simpl in *; lia.
Qed.

(** C27: When handlers, comparisons and submissions succeed and nothing is cancelled, some schedule
    of the goroutines ends the run, and in every run that has ended each entry of the two streams
    was handled once, no error was collected, and the batcher was given exactly the removals the
    entries ask for. *)
Theorem pipeline_submits {S V} (excHandler : ExclusiveHandler S) comHandler equal lowerRoot upperRoot abort lim walk s (b : gbatcher V) :
  limits_ok lim → gq_closed b = false →
  (∀ ep s, (excHandler ep s).1 = None) → (∀ cp s, (comHandler cp s).1 = None) →
  (∀ l u li ui, ∃ v, equal l u li ui = Ok v) →
  let run sched := pipe_run excHandler comHandler enqueue enqueue equal lowerRoot upperRoot abort lim sched (pipe_init walk s b) in
  (∃ sched, Forall stage_move sched ∧ pipe_finished (run sched) = true)
  ∧ ∀ sched, Forall stage_move sched → pipe_finished (run sched) = true →
      gq_pending (pl_batcher (run sched)) ≡ₚ gq_pending b ++ removals equal lowerRoot upperRoot walk
      ∧ pl_errs (run sched) = [] ∧ pl_excHandled (run sched) = exclusives walk ∧ pl_comHandled (run sched) = commons walk.
Proof.
  intros Hlim Hb Hexc Hcom Hequal run. split.
  - apply pipe_ends; [done | apply pipe_ok_init].
  - intros sched Hs Hf.
    by destruct (run_submits excHandler comHandler equal lowerRoot upperRoot abort lim Hexc Hcom Hequal sched walk s b Hs Hb Hf)
      as (? & _ & _ & ? & ? & ?).
Qed.

(** The end of the context never shows in the result: no error of a run is one of a
    context.  A run whose context ends before an entry is sent handles none, gives the batcher
    nothing, and is reported as a success. *)
Theorem cancellation_unreported {S B} (excHandler : ExclusiveHandler S) comHandler
    (subE subC : option error → BatchOp → B → option error * B) equal lowerRoot upperRoot abort lim walk s b :
  let run sched := pipe_run excHandler comHandler subE subC equal lowerRoot upperRoot abort lim sched (pipe_init walk s b) in
  (∀ sched, Forall (λ e, isContextErr e = false) (pl_errs (run sched)))
  ∧ ∃ sched, pipe_finished (run (PCancel :: sched)) = true
      ∧ ∀ flush, (∀ b, flush (Some ctx_Canceled) b = Some (None, b)) →
        pipe_result abort flush flush (run (PCancel :: sched)) = Some (mkResult 0 0 None, b) ∧ pr_OK (mkResult 0 0 None) = true.
Proof.
  intros run. split.
  { intros sched. refine (pipe_run_no_context _ _ _ _ _ _ _ _ _ sched _ _). constructor. }
  exists [PWalk true; PExc false; PExc false; PHash false; PHash false; PCom false; PCom false; PForward].
  assert (run [PCancel; PWalk true; PExc false; PExc false; PHash false; PHash false; PCom false; PCom false; PForward]
          = mkPipe [] (mkPool [] LDone 0) (mkPool [] LDone 0) (mkPool [] LDone 0) [] true [] (Some ctx_Canceled) [] 0 0 s b) as ->.
  { destruct walk; vm_compute; reflexivity. }
  split; [reflexivity |]. intros flush Hf. unfold pipe_result. simpl. rewrite Hf. simpl. rewrite Hf. done.
Qed.

(** ** Witnesses *)

Section sample.
Let file (size : Z) : FileInfo := mkInfo 420 size 0 None.

(** Files are compared by their sizes. *)
Definition size_equal (l u : string) (li ui : FileInfo) : result bool :=
  if decide (mode_Type (fi_Mode li) = mode_Type (fi_Mode ui)) then Ok (bool_decide (fi_Size li = fi_Size ui)) else Ok false.

Definition sample_walk : list (ExclusivePath + CommonPath) :=
  [inr (mkCommon "a" PathKindFile (Some (file 1)) (Some (file 1)) None);
   inr (mkCommon "b" PathKindFile (Some (file 1)) (Some (file 2)) None);
   inl (mkExclusive "d" PathKindDir None true)].

(** One slot in each pool, and channels with one place. *)
Definition sample_limits : limits := mkLimits 1 1 1 1 1.

(** Every loop and the first [n] goroutines in turn. *)
Definition round_robin (turns n : nat) : list pipe_label :=
  _ ← seq 0 turns; [PWalk false; PExc false; PHash false; PCom false; PForward] ++ ((λ i, PGo i false) <$> seq 0 n).
End sample.

Lemma size_equal_ok l u li ui : ∃ v, size_equal l u li ui = Ok v.
Proof. unfold size_equal. destruct (decide _); eexists; reflexivity. Defined.

Lemma round_robin_moves turns n : Forall stage_move (round_robin turns n).
Proof.
  apply Forall_bind, Forall_true. intros x. apply Forall_app_2; [by repeat constructor |]. by apply Forall_fmap, Forall_true.
Qed.

(** The only slot of the hash stage is taken, and an entry waits at the [select]. *)
Lemma pipeline_progress_witness :
  let st := pipe_run NoopExclusiveHandler NoopCommonHandler enqueue enqueue size_equal "/l" "/u" false sample_limits
              [PWalk false; PHash false; PHash false; PWalk false; PHash false] (pipe_init sample_walk () (gb_New ())) in
  pool_sem (pl_hash st) = 1 ∧ (∀ d, pipe_step NoopExclusiveHandler NoopCommonHandler enqueue enqueue size_equal "/l" "/u" false
    sample_limits (PHash d) st = None)
  ∧ ∃ l st', stage_move l ∧ pipe_step NoopExclusiveHandler NoopCommonHandler enqueue enqueue size_equal "/l" "/u" false sample_limits l st = Some st'.
Proof.
  split; [reflexivity |]. split; [by intros [] |].
  refine (proj1 (proj2 (proj2 (pipeline_progress NoopExclusiveHandler NoopCommonHandler enqueue enqueue size_equal "/l" "/u" false
    sample_limits sample_walk () (gb_New ()) _ _))) _); [unfold limits_ok; simpl; lia | reflexivity].
Defined.

Lemma pipeline_submits_witness :
  let st := pipe_run NoopExclusiveHandler NoopCommonHandler enqueue enqueue size_equal "/l" "/u" false sample_limits
              (round_robin 16 5) (pipe_init sample_walk () (gb_New ())) in
  pipe_finished st = true ∧ gq_pending (pl_batcher st) ≡ₚ [mkOp OpRemove "a"; mkOp OpRemoveAll "d"] ∧ pl_comHandled st = 2.
Proof.
  destruct (pipeline_submits NoopExclusiveHandler NoopCommonHandler size_equal "/l" "/u" false sample_limits sample_walk () (gb_New ()))
    as (_ & H).
  - unfold limits_ok. simpl. lia.
  - reflexivity.
  - reflexivity.
  - reflexivity.
  - intros. apply size_equal_ok.
  - split; [vm_compute; reflexivity |].
    destruct (H (round_robin 16 5)) as (H1 & _ & _ & H4); [apply round_robin_moves | vm_compute; reflexivity |].
    split; [exact H1 | exact H4].
Defined.

Lemma cancellation_unreported_witness :
  ∃ sched, pipe_finished (pipe_run NoopExclusiveHandler NoopCommonHandler enqueue enqueue size_equal "/l" "/u" false sample_limits
    (PCancel :: sched) (pipe_init sample_walk () (gb_New ()))) = true.
Proof.
  destruct (cancellation_unreported NoopExclusiveHandler NoopCommonHandler enqueue enqueue size_equal "/l" "/u" false sample_limits
    sample_walk () (gb_New ())) as [_ (sched & H & _)].
  exists sched. exact H.
Defined.
