(* ===== verification/DsEngine.v ===== *)
(** * DsEngine: the delete engine

    Models [NewDeleteEngine] of [src/internal/dirsync/engine.go]: the classifier, the pipeline and
    the batcher put together, and what a run of it leaves of a merged directory. *)
From S2P Require Import Prelude GoStd GoPath DsTypes DsPrune DsFilter DsWalk DsDiff DsClassify DsView DsBatch DsPipeline.

(** ** Paths in a tree *)

Fixpoint lookup_path (t : tree) (p : list string) : option tree :=
  match p with
  | [] => Some t
  | n :: q => match t with Leaf _ => None | Dir _ es => assoc n es ≫= λ t', lookup_path t' q end
  end.

Lemma lookup_path_app t p q : lookup_path t (p ++ q) = lookup_path t p ≫= λ t', lookup_path t' q.
Proof.
  revert t. induction p as [|n p IH]; intros t; [done |]. destruct t as [i|i es]; [done |]. simpl.
  destruct (assoc n es); [apply IH | done].
Qed.

Lemma lookup_path_snoc t p n t' :
  lookup_path t (p ++ [n]) = Some t' → ∃ i es, lookup_path t p = Some (Dir i es) ∧ assoc n es = Some t'.
Proof.
  rewrite lookup_path_app. destruct (lookup_path t p) as [[i|i es]|]; simpl; [done | | done].
  destruct (assoc n es) eqn:Ha; simpl; [| done]. intros [= ->]. eauto.
Qed.

Lemma lookup_path_prefix t p q : is_Some (lookup_path t (p ++ q)) → is_Some (lookup_path t p).
Proof. rewrite lookup_path_app. destruct (lookup_path t p); [by eexists | by intros [? ?]]. Qed.

Lemma lookup_path_dir t p n q : is_Some (lookup_path t (p ++ n :: q)) → ∃ i es, lookup_path t p = Some (Dir i es).
Proof.
  rewrite lookup_path_app. destruct (lookup_path t p) as [[i|i es]|]; simpl; [by intros [? ?] | eauto | by intros [? ?]].
Qed.

Lemma lookup_path_wf t p t' : wf_tree t → lookup_path t p = Some t' → wf_tree t' ∧ Forall seg p.
Proof.
  revert t. induction p as [|n p IH]; intros t Hw; simpl; [by intros [= <-] |].
  destruct t as [i|i es]; [done |]. destruct (assoc n es) as [t1|] eqn:Ha; simpl; [| done].
  destruct (wf_child _ _ _ _ Hw (assoc_elem _ _ _ Ha)) as (W1 & _ & Sn). intros Hl.
  destruct (IH t1 W1 Hl). split; [done | by constructor].
Qed.

(** Without a filter, the walk compares the directories that are directories in both trees. *)
Lemma both_lookup l u p ls us :
  both NoopFilter l u p ls us ↔ ∃ i j, lookup_path l p = Some (Dir i ls) ∧ lookup_path u p = Some (Dir j us).
Proof.
  split.
  - induction 1 as [i ls j us -> ->|p ls us n i ls' j us' Hb (i1 & j1 & H1 & H2) Hl Hu Hi]; [eauto |].
    exists i, j. rewrite !lookup_path_app, H1, H2. simpl. by rewrite Hl, Hu.
  - intros (i & j & H1 & H2). revert ls us i j H1 H2. induction p as [|n p IH] using rev_ind; intros ls us i j H1 H2.
    + injection H1 as ->. injection H2 as ->. by eapply both_root.
    + apply lookup_path_snoc in H1 as (i1 & ls1 & H1 & Hl). apply lookup_path_snoc in H2 as (j1 & us1 & H2 & Hu).
      by eapply both_down; [eapply IH | | |].
Qed.

Lemma lower_only_lookup l u p t :
  lower_only NoopFilter l u p t ↔
  ∃ q n i j ls us, p = q ++ [n] ∧ lookup_path l q = Some (Dir i ls) ∧ lookup_path u q = Some (Dir j us)
    ∧ assoc n ls = Some t ∧ assoc n us = None.
Proof.
  split.
  - destruct 1 as [p ls us n t Hb Hl Hu|p i es n t Hlo Hi Hf Ha]; [| done].
    apply both_lookup in Hb as (i & j & H1 & H2). by exists p, n, i, j, ls, us.
  - intros (q & n & i & j & ls & us & -> & H1 & H2 & Hl & Hu). eapply lo_top; [| done..]. apply both_lookup. eauto.
Qed.

(** ** The merged directory *)

(** What an overlay of the two directories shows at a path: the upper entry, or the lower one if
    no upper file hides it. *)
Definition overlay (l u : tree) (p : list string) : option FileInfo :=
  match lookup_path u p with
  | Some t => Some (tree_info t)
  | None =>
      if existsb (λ k, match lookup_path u (take k p) with Some (Leaf _) => true | _ => false end) (seq 0 (length p))
      then None
      else tree_info <$> lookup_path l p
  end.

(** The merged directory at [r] is that overlay. *)
Definition merged_at (r : list string) (l u : tree) (d : disk) : Prop :=
  ∀ p, p ≠ [] → Forall seg p → d !! abs_path (r ++ p) = overlay l u p.

(** A disk has clean absolute paths. *)
Definition clean_disk (d : disk) : Prop := ∀ k i, d !! k = Some i → ∃ p, Forall seg p ∧ k = abs_path p.

Lemma under_abs p q : p ≠ [] → q ≠ [] → Forall seg p → Forall seg q →
  isPathUnder (abs_path p) (abs_path q) = true ↔ q `prefix_of` p.
Proof.
  intros Hp Hq Sp Sq. rewrite <- under_rel by done. rewrite !under_spec. unfold abs_path.
  assert (∀ a b, "/" +:+ a = "/" +:+ b ↔ a = b) as Hinj.
  { intros a b. split; [| by intros ->]. intros E. by injection E. }
  split; intros [E|[t E]].
  - left. by apply Hinj.
  - right. exists t. apply Hinj. by rewrite E, str_app_assoc.
  - left. by rewrite E.
  - right. exists t. by rewrite E, str_app_assoc.
Qed.

(** ** Removals that do not interfere *)

Section removals.
Context (r : list string) (Sr : Forall seg r).

Definition view (d : disk) : FSMergedView := mkFSView (abs_path r) d.
Definition abs_op (op : BatchOp) : string := path_join [abs_path r; op_RelPath op].

(** The operation finds its entry, and can remove it. *)
Definition removable (d : disk) (op : BatchOp) : Prop :=
  is_Some (d !! abs_op op)
  ∧ (op_Kind op = OpRemove → has_children d (abs_op op) = false) ∧ known_kind (op_Kind op).

(** What is left when everything at or below the paths of the operations is removed. *)
Definition swept (ops : list BatchOp) (d : disk) : disk :=
  base.filter (λ kv, existsb (λ op, isPathUnder kv.1 (abs_op op)) ops = false) d.

Lemma swept_lookup ops d k :
  swept ops d !! k = if existsb (λ op, isPathUnder k (abs_op op)) ops then None else d !! k.
Proof.
  unfold swept. destruct (existsb _ ops) eqn:E.
  - apply map_lookup_filter_None_2. right. intros x _. simpl. by rewrite E.
  - destruct (d !! k) eqn:Hk; [by apply map_lookup_filter_Some_2 | apply map_lookup_filter_None_2; by left].
Qed.

Lemma execute_removable d op :
  removable d op → executeOp None op (view d) = (None, view (swept [op] d)).
Proof.
  intros ([i Hi] & Hc & Hkind). unfold executeOp. destruct (op_Kind op) eqn:Hk; [| | done].
  - change (fv_Remove (op_RelPath op) (view d) = (None, view (swept [op] d))). unfold fv_Remove.
    change (fv_AbsPath (view d) (op_RelPath op)) with (abs_op op). change (fv_disk (view d)) with d.
    unfold os_Remove, os_Lstat. rewrite Hi, (Hc eq_refl), andb_false_r. unfold view. f_equal. f_equal. apply map_eq. intros k.
    rewrite swept_lookup. simpl. rewrite orb_false_r. destruct (decide (k = abs_op op)) as [->|Hne].
    + by rewrite lookup_delete_eq, under_refl.
    + rewrite lookup_delete_ne by done. destruct (isPathUnder k (abs_op op)) eqn:Hu; [| done].
      apply eq_None_not_Some. intros [j Hj]. assert (has_children d (abs_op op) = true) as Hch.
      { apply has_children_spec. exists k, j. split; [done |]. unfold strictly_under. by rewrite Hu, bool_decide_eq_false_2. }
      by rewrite Hc in Hch.
  - change (fv_RemoveAll (op_RelPath op) (view d) = (None, view (swept [op] d))). unfold fv_RemoveAll.
    change (fv_AbsPath (view d) (op_RelPath op)) with (abs_op op). change (fv_disk (view d)) with d.
    unfold os_RemoveAll, os_Lstat. rewrite Hi.
    unfold view. f_equal. f_equal. apply map_eq. intros k. rewrite swept_lookup. simpl. rewrite orb_false_r.
    destruct (isPathUnder k (abs_op op)) eqn:Hu.
    + apply map_lookup_filter_None_2. right. intros x _. simpl. by rewrite Hu.
    + destruct (d !! k) eqn:Hd; [by apply map_lookup_filter_Some_2 | apply map_lookup_filter_None_2; by left].
Qed.

Lemma swept_sub ops d : swept ops d ⊆ d.
Proof. apply map_filter_subseteq. Qed.

Lemma removable_swept d op op' :
  isPathUnder (abs_op op') (abs_op op) = false → removable d op' → removable (swept [op] d) op'.
Proof.
  intros Hu ([i Hi] & Hc & Hkind). split_and!; [| | done].
  - exists i. rewrite swept_lookup. simpl. by rewrite Hu.
  - intros Hk. apply not_true_iff_false. intros (k & j & Hj & Hs)%has_children_spec.
    specialize (Hc Hk). apply not_true_iff_false in Hc. apply Hc, has_children_spec. exists k, j.
    split; [by eapply lookup_weaken, swept_sub | done].
Qed.

Lemma swept_swept op ops d : swept ops (swept [op] d) = swept (op :: ops) d.
Proof.
  apply map_eq. intros k. rewrite !swept_lookup. simpl. rewrite orb_false_r.
  by destruct (isPathUnder k (abs_op op)), (existsb _ ops).
Qed.

Lemma swept_nil d : swept [] d = d.
Proof. apply map_eq. intros k. by rewrite swept_lookup. Qed.

Definition apart_ops (o1 o2 : BatchOp) : Prop :=
  isPathUnder (abs_op o1) (abs_op o2) = false ∧ isPathUnder (abs_op o2) (abs_op o1) = false.

(** Operations on unrelated paths run without errors and sweep their paths. *)
Lemma run_apart ops d :
  StronglySorted apart_ops ops → Forall (removable d) ops → run_ops ops (view d) = ([], view (swept ops d)).
Proof.
  revert d. induction ops as [|op ops IH]; intros d Hs Hr; [by rewrite swept_nil |].
  apply StronglySorted_cons in Hs as [Ho Hs]. apply Forall_cons in Hr as [Hop Hr].
  cbn [run_ops]. rewrite execute_removable by done. rewrite IH; [by rewrite swept_swept | done |].
  apply Forall_forall. intros op' Hin. apply removable_swept; [apply (Forall_elem _ _ _ Ho Hin) | apply (Forall_elem _ _ _ Hr Hin)].
Qed.

Lemma apart_perm ops ops' : ops ≡ₚ ops' → StronglySorted apart_ops ops → StronglySorted apart_ops ops'.
Proof.
  assert (∀ a b, apart_ops a b → apart_ops b a) as Hsym by (unfold apart_ops; tauto).
  induction 1 as [|x l l' H IH|x y l|l l' l'' H1 IH1 H2 IH2]; intros Hs; [done | | | tauto].
  - apply StronglySorted_cons in Hs as [Hx Hs]. constructor; [by apply IH |]. by rewrite <- H.
  - apply StronglySorted_cons in Hs as [Hx Hs]. apply StronglySorted_cons in Hs as [Hy Hs].
    apply Forall_cons in Hx as [Hxy Hx].
    constructor; [by constructor | constructor; [by apply Hsym | done]].
Qed.

Lemma swept_perm ops ops' d : ops ≡ₚ ops' → swept ops d = swept ops' d.
Proof.
  intros Hp. apply map_eq. intros k. rewrite !swept_lookup.
  assert (existsb (λ op, isPathUnder k (abs_op op)) ops = existsb (λ op, isPathUnder k (abs_op op)) ops') as ->; [| done].
  apply eq_bool_prop_intro. rewrite !Is_true_true, !existsb_exists_elem. by setoid_rewrite Hp.
Qed.
End removals.

(** ** The removals of a difference *)

Section delete.
Context (equal : string → string → FileInfo → FileInfo → result bool) (lowerRoot upperRoot : string).
Context (l u : tree) (Wl : wf_tree l) (Wu : wf_tree u) (Dl : is_dir l = true) (Du : is_dir u = true).
Context (r : list string) (Sr : Forall seg r).
Context (Hmis : ∀ a b li ui, mode_Type (fi_Mode li) ≠ mode_Type (fi_Mode ui) → equal a b li ui = Ok false).

Definition op_of_event (ev : event) : option BatchOp :=
  match ev with
  | Excl ep => Some (exclusivePathToBatchOp ep)
  | Comm cp => commonPathToBatchOp (enriched equal lowerRoot upperRoot cp)
  end.

Definition event_ops : list BatchOp := omap op_of_event (diff_events NoopFilter [] l u).

Lemma removals_events order evs :
  removals equal lowerRoot upperRoot (merge_by order (omap excl_of evs) (omap comm_of evs)) ≡ₚ omap op_of_event evs.
Proof.
  unfold removals. rewrite merge_by_perm. induction evs as [|[ep|cp] evs IH]; [done | |]; simpl.
  - by apply Permutation_skip.
  - rewrite <- Permutation_middle. simpl. destruct (commonPathToBatchOp _); [by apply Permutation_skip | exact IH].
Qed.

(** The upper entry is the lower one: a file or a link in both, with equal contents. *)
Definition redundant (p : list string) : Prop :=
  ∃ t t', lookup_path l p = Some t ∧ lookup_path u p = Some t' ∧ is_dir t = false ∧ is_dir t' = false
    ∧ (PathKindOf (tree_info t) = PathKindFile ∨ PathKindOf (tree_info t) = PathKindSymlink)
    ∧ equal (path_join [lowerRoot; rel_path p]) (path_join [upperRoot; rel_path p]) (tree_info t) (tree_info t') = Ok true.

(** An upper entry that is not a directory replaces a lower directory. *)
Definition replaced (p : list string) : Prop :=
  ∃ t t', lookup_path l p = Some t ∧ lookup_path u p = Some t' ∧ is_dir t = true ∧ is_dir t' = false.

(** An entry that the upper directory lacks, in a directory of both. *)
Definition missing (p : list string) (t : tree) : Prop :=
  ∃ q n i j ls us, p = q ++ [n] ∧ lookup_path l q = Some (Dir i ls) ∧ lookup_path u q = Some (Dir j us)
    ∧ assoc n ls = Some t ∧ assoc n us = None.

Lemma common_op p t t' op :
  wf_tree t → wf_tree t' → is_dir t && is_dir t' = false →
  commonPathToBatchOp (enriched equal lowerRoot upperRoot
    (mkCommon (rel_path p) (PathKindOf (tree_info t)) (Some (tree_info t)) (Some (tree_info t')) None)) = Some op ↔
  op = mkOp OpRemove (rel_path p) ∧ is_dir t = false ∧ is_dir t' = false
  ∧ (PathKindOf (tree_info t) = PathKindFile ∨ PathKindOf (tree_info t) = PathKindSymlink)
  ∧ equal (path_join [lowerRoot; rel_path p]) (path_join [upperRoot; rel_path p]) (tree_info t) (tree_info t') = Ok true.
Proof.
  intros Wt Wt' Hd. unfold enriched, enrichOne. cbn [cp_Kind cp_LowerInfo cp_UpperInfo cp_Path].
  set (eq := equal _ _ (tree_info t) (tree_info t')).
  assert (eq = Ok true → is_dir t = is_dir t') as Hsame.
  { intros He. rewrite <- (wf_is_dir t Wt), <- (wf_is_dir t' Wt'). apply dec_stable. intros Hne.
    assert (eq = Ok false) as He'; [| congruence]. apply Hmis. intros Ht. apply Hne. unfold fi_IsDir, mode_IsDir, mode_Type in *.
    assert (N.land ModeType ModeDir = ModeDir) as <- by done. by rewrite !N.land_assoc, Ht. }
  assert (∀ k, PathKindOf (tree_info t) = k → k ≠ PathKindDir → is_dir t = false) as Hleaf.
  { intros k Hk Hn. apply not_true_iff_false. intros Ht. apply Hn. rewrite <- Hk. by apply wf_dir_kind. }
  destruct (PathKindOf (tree_info t)) eqn:Hk.
  all: try (split; [done | intros (_ & _ & _ & [?|?] & _); done]).
  all: destruct eq as [[]|e]; simpl; split;
    [ intros [= <-]; rewrite <- (Hsame eq_refl), (Hleaf _ eq_refl) by done; auto 10
    | intros (-> & _); done | done | intros (_ & _ & _ & _ & ?); done | done | intros (_ & _ & _ & _ & ?); done ].
Qed.

(** The operations: for missing entries, replaced directories and redundant files. *)
Lemma event_ops_spec op :
  op ∈ event_ops ↔
  (∃ p t, missing p t ∧ op = mkOp (if is_dir t then OpRemoveAll else OpRemove) (rel_path p))
  ∨ (∃ p, p ≠ [] ∧ replaced p ∧ op = mkOp OpRemoveAll (rel_path p))
  ∨ (∃ p, p ≠ [] ∧ redundant p ∧ op = mkOp OpRemove (rel_path p)).
Proof.
  unfold event_ops. rewrite list_elem_of_omap. setoid_rewrite (events_reported NoopFilter l u _ Wl Wu Dl Du). split.
  - intros (ev & [Hr|[Hr|Hr]] & Hop).
    + destruct Hr as (p & t & Hlo & _ & _ & ->). left. exists p, t. split; [by apply lower_only_lookup |].
      injection Hop as <-. done.
    + destruct Hr as (p & ls & us & n & t & t' & Hb & Hlt & Hut & Hd & _ & ->). cbn [op_of_event] in Hop.
      destruct (both_wf NoopFilter l u p ls us Wl Wu Hb) as (i1 & j1 & W1 & W2).
      apply common_op in Hop as (-> & H1 & H2 & H3 & H4);
        [| apply (wf_child _ _ _ _ W1 (assoc_elem _ _ _ Hlt)) | apply (wf_child _ _ _ _ W2 (assoc_elem _ _ _ Hut)) | done].
      right; right. exists (p ++ [n]). split; [by destruct p |]. split; [| done]. exists t, t'.
      apply both_lookup in Hb as (i & j & Hl & Hu). rewrite !lookup_path_app, Hl, Hu. simpl. rewrite Hlt, Hut. by split_and!.
    + destruct Hr as (p & ls & us & n & t & t' & Hb & Hlt & Hut & Hd & Hd' & _ & ->). injection Hop as <-.
      right; left. exists (p ++ [n]). split; [by destruct p |]. split; [| done]. exists t, t'.
      apply both_lookup in Hb as (i & j & Hl & Hu). rewrite !lookup_path_app, Hl, Hu. simpl. by rewrite Hlt, Hut.
  - assert (∀ p t t', p ≠ [] → lookup_path l p = Some t → lookup_path u p = Some t' →
      ∃ q n ls us, p = q ++ [n] ∧ both NoopFilter l u q ls us ∧ assoc n ls = Some t ∧ assoc n us = Some t') as Hpair.
    { intros p t t' Hp Ht Ht'. destruct p as [|n p _] using rev_ind; [done |].
      apply lookup_path_snoc in Ht as (i & ls & Hl & Ha). apply lookup_path_snoc in Ht' as (j & us & Hu & Ha').
      exists p, n, ls, us. split_and!; [done | apply both_lookup; eauto | done | done]. }
    intros [H|[H|H]].
    + destruct H as (p & t & Hm & ->). assert (lower_only NoopFilter l u p t) as Hlo by by apply lower_only_lookup.
      eexists. split; [left; exists p, t; split_and!; done |]. done.
    + destruct H as (p & Hp & (t & t' & Hl & Hu & Hd & Hd') & ->).
      destruct (Hpair p t t' Hp Hl Hu) as (q & n & ls & us & -> & Hb & Ha & Ha').
      eexists. split; [right; right; exists q, ls, us, n, t, t'; by split_and! |]. done.
    + destruct H as (p & Hp & (t & t' & Hl & Hu & Hd & Hd' & Hk & He) & ->).
      destruct (Hpair p t t' Hp Hl Hu) as (q & n & ls & us & -> & Hb & Ha & Ha').
      eexists. split; [right; left; exists q, ls, us, n, t, t'; split_and!; try done; by rewrite Hd |].
      cbn [op_of_event]. apply common_op; [| | by rewrite Hd | by split_and!].
      * by eapply lookup_path_wf in Hl as [? _].
      * by eapply lookup_path_wf in Hu as [? _].
Qed.

(** Each operation is on a path of the trees. *)
Lemma event_op_path op : op ∈ event_ops → ∃ p, p ≠ [] ∧ Forall seg p ∧ op_RelPath op = rel_path p ∧ abs_op r op = abs_path (r ++ p).
Proof.
  assert (∀ p k, p ≠ [] → is_Some (lookup_path l p) → ∃ p', p' ≠ [] ∧ Forall seg p'
    ∧ op_RelPath (mkOp k (rel_path p)) = rel_path p' ∧ abs_op r (mkOp k (rel_path p)) = abs_path (r ++ p')) as Hp.
  { intros p k Hp [t Ht]. apply lookup_path_wf in Ht as [_ Sp]; [| done]. exists p. split_and!; try done. by apply join_abs_rel. }
  rewrite event_ops_spec. intros [H|[H|H]].
  - destruct H as (p & t & (q & n & i & j & ls & us & -> & Hl & Hu & Ha & Ha') & ->). apply Hp; [by destruct q |].
    rewrite lookup_path_app, Hl. simpl. rewrite Ha. by eexists.
  - destruct H as (p & Hne & (t & t' & Hl & _) & ->). apply Hp; [done | by eexists].
  - destruct H as (p & Hne & (t & t' & Hl & _) & ->). apply Hp; [done | by eexists].
Qed.

Lemma op_of_event_claim ev op :
  ev ∈ diff_events NoopFilter [] l u → op_of_event ev = Some op → claim ev = Some (op_RelPath op).
Proof.
  intros Hev Hop. apply (events_reported NoopFilter l u ev Wl Wu Dl Du) in Hev as [Hr|[Hr|Hr]].
  - destruct Hr as (p & t & _ & _ & _ & ->). by injection Hop as <-.
  - destruct Hr as (p & ls & us & n & t & t' & Hb & Hlt & Hut & Hd & _ & ->). cbn [op_of_event] in Hop.
    destruct (both_wf NoopFilter l u p ls us Wl Wu Hb) as (i1 & j1 & W1 & W2).
    apply common_op in Hop as (-> & H1 & H2 & H3 & H4);
      [| apply (wf_child _ _ _ _ W1 (assoc_elem _ _ _ Hlt)) | apply (wf_child _ _ _ _ W2 (assoc_elem _ _ _ Hut)) | done].
    simpl. rewrite decide_False; [done |]. by destruct H3 as [->| ->].
  - destruct Hr as (p & ls & us & n & t & t' & _ & _ & _ & _ & _ & _ & ->). by injection Hop as <-.
Qed.

Lemma event_ops_apart : StronglySorted (apart_ops r) event_ops.
Proof.
  assert (∀ a b, a ∈ event_ops → b ∈ event_ops → unrelated (op_RelPath a) (op_RelPath b) → apart_ops r a b) as Hab.
  { intros a b Ha Hb [H1 H2]. destruct (event_op_path a Ha) as (p & Np & Sp & Ep & Ap).
    destruct (event_op_path b Hb) as (q & Nq & Sq & Eq & Aq). rewrite Ep, Eq in H1, H2. unfold apart_ops. rewrite Ap, Aq.
    assert (∀ x y, x ≠ [] → y ≠ [] → Forall seg x → Forall seg y → isPathUnder (rel_path x) (rel_path y) = false →
      isPathUnder (abs_path (r ++ x)) (abs_path (r ++ y)) = false) as Hxy.
    { intros x y Nx Ny Sx Sy Hf. apply not_true_iff_false. rewrite under_abs by (try (by destruct r); by apply Forall_app).
      intros Hpre%prefix_app_inv. apply not_true_iff_false in Hf. by apply Hf, under_rel. }
    auto. }
  pose proof (diff_claims_apart NoopFilter l [] u Wl Wu (Forall_nil_2 _)) as Hs.
  pose proof op_of_event_claim as Hcl. unfold event_ops in *. revert Hs Hab Hcl.
  generalize (diff_events NoopFilter [] l u) as evs. clear. induction evs as [|ev evs IH]; intros Hs Hab Hcl; [constructor |].
  unfold claims in *. simpl in *.
  assert (StronglySorted unrelated (omap claim evs)) as Hs' by (destruct (claim ev); [by apply StronglySorted_cons in Hs as [_ ?] | done]).
  specialize (IH Hs'). destruct (op_of_event ev) as [op|] eqn:Ho.
  - constructor.
    + apply IH; [intros; apply Hab; set_solver | intros; apply Hcl; set_solver].
    + apply Forall_forall. intros op' Hin. apply Hab; [by left | by right |].
      rewrite (Hcl ev op) in Hs by (done || by left). apply StronglySorted_cons in Hs as [Hf _].
      apply (Forall_elem _ _ _ Hf). apply list_elem_of_omap in Hin as (ev' & Hev' & Ho').
      apply list_elem_of_omap. exists ev'. split; [done |]. apply Hcl; [by right | done].
  - apply IH; [intros; by apply Hab | intros; apply Hcl; set_solver].
Qed.

(** ** What the removals leave *)

Context (m : disk) (Hclean : clean_disk m) (Hm : merged_at r l u m).

Lemma hidden_spec p :
  existsb (λ k, match lookup_path u (take k p) with Some (Leaf _) => true | _ => false end) (seq 0 (length p)) = true
  ↔ ∃ q n rest i, p = q ++ n :: rest ∧ lookup_path u q = Some (Leaf i).
Proof.
  rewrite existsb_exists_elem. setoid_rewrite elem_of_seq. split.
  - intros (k & Hk & Hl). destruct (lookup_path u (take k p)) as [[i|]|] eqn:Hu; try done.
    destruct (drop k p) as [|n rest] eqn:Hd.
    + apply (f_equal length) in Hd. rewrite length_drop in Hd. simpl in Hd. lia.
    + exists (take k p), n, rest, i. split; [by rewrite <- Hd, take_drop | done].
  - intros (q & n & rest & i & -> & Hu). exists (length q). rewrite length_app, take_app_length. simpl. split; [lia |]. by rewrite Hu.
Qed.

(** Below an upper entry that is not a directory the overlay shows nothing. *)
Lemma overlay_below_leaf p n rest i : lookup_path u p = Some (Leaf i) → overlay l u (p ++ n :: rest) = None.
Proof.
  intros Hu. unfold overlay. rewrite lookup_path_app, Hu. simpl.
  rewrite (proj2 (hidden_spec (p ++ n :: rest))); [done |]. by exists p, n, rest, i.
Qed.

Lemma missing_lookup p t : missing p t → lookup_path l p = Some t ∧ lookup_path u p = None ∧ p ≠ [].
Proof.
  intros (q & n & i & j & ls & us & -> & Hl & Hu & Ha & Ha'). rewrite !lookup_path_app, Hl, Hu. simpl.
  rewrite Ha, Ha'. split_and!; [done.. | by destruct q].
Qed.

Lemma overlay_missing p t : missing p t → overlay l u p = Some (tree_info t).
Proof.
  intros Hmi. destruct (missing_lookup p t Hmi) as (H1 & H2 & Hp). unfold overlay. rewrite H2, H1.
  destruct (existsb _ _) eqn:Hx; [exfalso | done].
  apply hidden_spec in Hx as (q & n & rest & i & -> & Hu).
  destruct Hmi as (q' & n' & i' & j' & ls & us & E & _ & Hu' & _).
  destruct rest as [|n2 rest _] using rev_ind.
  - apply app_inj_2 in E as [<- _]; [| done]. congruence.
  - change (n :: rest ++ [n2]) with ((n :: rest) ++ [n2]) in E. rewrite app_assoc in E.
    apply app_inj_2 in E as [<- _]; [| done]. by rewrite lookup_path_app, Hu in Hu'.
Qed.

(** Where the overlay has an entry that the upper directory lacks, some directory above it, or
    itself, is missing. *)
Lemma overlay_lower p i : overlay l u p = Some i → lookup_path u p = None → ∃ q t, q `prefix_of` p ∧ missing q t.
Proof.
  unfold overlay. intros Ho Hu. rewrite Hu in Ho. destruct (existsb _ _) eqn:Hx; [done |].
  assert (is_Some (lookup_path l p)) as Hl by (destruct (lookup_path l p); [by eexists | done]).
  assert (∀ q n rest i, p = q ++ n :: rest → lookup_path u q ≠ Some (Leaf i)) as Hnl.
  { intros q n rest j E Hq. apply not_true_iff_false in Hx. apply Hx, hidden_spec. by exists q, n, rest, j. }
  clear Ho Hx i. revert Hl Hu Hnl. induction p as [|n p IH] using rev_ind; intros Hl Hu Hnl; [done |].
  destruct (lookup_path u p) as [t'|] eqn:Hup.
  - destruct t' as [j|j us]; [by destruct (Hnl p n [] j) |].
    destruct Hl as [t Ht]. apply lookup_path_snoc in Ht as (i & ls & Hlp & Ha).
    exists (p ++ [n]), t. split; [done |]. exists p, n, i, j, ls, us. split_and!; try done.
    rewrite lookup_path_app, Hup in Hu. simpl in Hu. by destruct (assoc n us).
  - destruct IH as (q & t & Hq & Hmi).
    + by eapply lookup_path_prefix.
    + done.
    + intros q n' rest j -> Hq. apply (Hnl q n' (rest ++ [n]) j); [| done]. by rewrite <- app_assoc.
    + exists q, t. split; [| done]. by apply prefix_app_r.
Qed.

Lemma no_children_below p :
  p ≠ [] → Forall seg p → (∀ n rest, overlay l u (p ++ n :: rest) = None) → has_children m (abs_path (r ++ p)) = false.
Proof.
  intros Np Sp Hn. apply not_true_iff_false. intros (k & i & Hk & Hs)%has_children_spec.
  destruct (Hclean k i Hk) as (x & Sx & ->). unfold strictly_under in Hs. apply andb_true_iff in Hs as [Hu Hne].
  apply negb_true_iff, bool_decide_eq_false in Hne.
  assert (x ≠ []) as Nx.
  { intros ->. apply under_spec in Hu as [E|[t E]]; [done |].
    apply (f_equal String.length) in E. rewrite !str_length_app in E. unfold abs_path in E.
    rewrite !str_length_app in E. simpl in E. lia. }
  apply under_abs in Hu as [y ->]; [| done | by destruct r | done | by apply Forall_app].
  destruct y as [|n rest]; [by rewrite app_nil_r in Hne |].
  rewrite <- app_assoc in Hk. rewrite (Hm (p ++ n :: rest)), Hn in Hk; [done | by destruct p |].
  rewrite <- app_assoc in Sx. by apply Forall_app in Sx as [_ Sx].
Qed.

Lemma event_ops_removable : Forall (removable r m) event_ops.
Proof.
  apply Forall_forall. intros op Hop. destruct (event_op_path op Hop) as (p & Np & Sp & Ep & Ap).
  unfold removable. rewrite Ap, Hm by done. apply event_ops_spec in Hop as [H|[H|H]].
  - destruct H as (p' & t & Hmi & ->). destruct (missing_lookup p' t Hmi) as (Hl & Hu & Np').
    assert (p' = p) as -> by (apply rel_path_inj; [by eapply lookup_path_wf in Hl as [_ ?] | done | done]).
    rewrite (overlay_missing p t Hmi). split_and!; [by eexists | | by destruct (is_dir t)]. simpl. intros Hk. apply no_children_below; [done.. |].
    intros n rest. destruct t as [i|i es]; [| done]. unfold overlay. rewrite !lookup_path_app, Hl, Hu. simpl. by destruct (existsb _ _).
  - destruct H as (p' & Np' & (t & t' & Hl & Hu & _) & ->). assert (p' = p) as -> by (apply rel_path_inj; [by eapply lookup_path_wf in Hl as [_ ?] | done | done]).
    split; [unfold overlay; rewrite Hu; by eexists | done].
  - destruct H as (p' & Np' & (t & t' & Hl & Hu & Hd & Hd' & _) & ->). assert (p' = p) as -> by (apply rel_path_inj; [by eapply lookup_path_wf in Hl as [_ ?] | done | done]).
    split_and!; [unfold overlay; rewrite Hu; by eexists | | done]. intros _. destruct t' as [j|]; [| done].
    apply no_children_below; [done.. |]. intros n rest. by apply (overlay_below_leaf p n rest j).
Qed.

Lemma swept_here p :
  p ≠ [] → Forall seg p →
  existsb (λ op, isPathUnder (abs_path (r ++ p)) (abs_op r op)) event_ops = true ↔
  ∃ op q, op ∈ event_ops ∧ q ≠ [] ∧ Forall seg q ∧ op_RelPath op = rel_path q ∧ q `prefix_of` p.
Proof.
  intros Np Sp. rewrite existsb_exists_elem. split.
  - intros (op & Hop & Hu). destruct (event_op_path op Hop) as (q & Nq & Sq & Eq & Aq). rewrite Aq in Hu.
    apply under_abs in Hu; [| by destruct r | by destruct r | by apply Forall_app | by apply Forall_app].
    apply prefix_app_inv in Hu. by exists op, q.
  - intros (op & q & Hop & Nq & Sq & Eq & Hpre). exists op. split; [done |].
    destruct (event_op_path op Hop) as (q' & Nq' & Sq' & Eq' & Aq').
    assert (q' = q) as -> by (apply rel_path_inj; congruence).
    rewrite Aq'. apply under_abs; [by destruct r | by destruct r | by apply Forall_app | by apply Forall_app |].
    by apply prefix_app.
Qed.

(** The merged directory afterwards. *)
Lemma swept_merged p i :
  p ≠ [] → Forall seg p →
  swept r event_ops m !! abs_path (r ++ p) = Some i ↔
  ∃ t', lookup_path u p = Some t' ∧ i = tree_info t' ∧ ¬ redundant p ∧ ¬ replaced p.
Proof.
  intros Np Sp. rewrite swept_lookup, Hm by done.
  assert (∀ q t, lookup_path l q = Some t → Forall seg q) as Sl by (intros q t H; by eapply lookup_path_wf in H as [_ ?]).
  split.
  - destruct (existsb _ _) eqn:Hx; [done |]. intros Ho. apply not_true_iff_false in Hx.
    rewrite swept_here in Hx by done.
    destruct (lookup_path u p) as [t'|] eqn:Hu.
    + exists t'. unfold overlay in Ho. rewrite Hu in Ho. injection Ho as <-. split_and!; try done.
      * intros Hr. apply Hx. exists (mkOp OpRemove (rel_path p)), p. split_and!; try done.
        apply event_ops_spec. right; right. by exists p.
      * intros Hr. apply Hx. exists (mkOp OpRemoveAll (rel_path p)), p. split_and!; try done.
        apply event_ops_spec. right; left. by exists p.
    + exfalso. destruct (overlay_lower p i Ho Hu) as (q & t & Hpre & Hmi). destruct (missing_lookup q t Hmi) as (Hl & _ & Nq).
      apply Hx. exists (mkOp (if is_dir t then OpRemoveAll else OpRemove) (rel_path q)), q. split_and!; try done.
      * apply event_ops_spec. left. by exists q, t.
      * by eapply Sl.
  - intros (t' & Hu & -> & Hnr & Hnp). destruct (existsb _ _) eqn:Hx; [exfalso | unfold overlay; by rewrite Hu].
    apply swept_here in Hx as (op & q & Hop & Nq & Sq & Eq & [y ->]); [| done..].
    assert (∀ q' t, lookup_path l q' = Some t → rel_path q' = rel_path q → q' = q) as Hq.
    { intros q' t Hl E. apply rel_path_inj; [by eapply Sl | done | done]. }
    apply event_ops_spec in Hop as [H|[H|H]].
    + destruct H as (q' & t & Hmi & ->). destruct (missing_lookup q' t Hmi) as (Hl & Hu' & _).
      apply (Hq q' t Hl) in Eq as ->. by rewrite lookup_path_app, Hu' in Hu.
    + destruct H as (q' & _ & (t & t2 & Hl & Hu' & Hd & Hd') & ->). apply (Hq q' t Hl) in Eq as ->.
      destruct y as [|n y]; [apply Hnp; rewrite app_nil_r; by exists t, t2 |].
      rewrite lookup_path_app, Hu' in Hu. by destruct t2.
    + destruct H as (q' & _ & (t & t2 & Hl & Hu' & Hd & Hd' & Hk) & ->). apply (Hq q' t Hl) in Eq as ->.
      destruct y as [|n y]; [apply Hnr; rewrite app_nil_r; by exists t, t2 |].
      rewrite lookup_path_app, Hu' in Hu. by destruct t2.
Qed.

(** Nothing else is touched. *)
Lemma swept_elsewhere x :
  Forall seg x → ¬ (r `prefix_of` x ∧ x ≠ r) → swept r event_ops m !! abs_path x = m !! abs_path x.
Proof.
  intros Sx Hx. rewrite swept_lookup. destruct (existsb _ _) eqn:He; [exfalso | done].
  apply existsb_exists_elem in He as (op & Hop & Hu). destruct (event_op_path op Hop) as (q & Nq & Sq & Eq & Aq). rewrite Aq in Hu.
  destruct (decide (x = [])) as [->|Nx].
  - apply under_spec in Hu as [E|[t E]]; apply (f_equal String.length) in E; unfold abs_path in E;
      rewrite ?str_length_app in E; simpl in E; [| lia].
    assert (rel_path (r ++ q) ≠ EmptyString) as Hne.
    { destruct (r ++ q) as [|y z] eqn:Erq; [by destruct r | apply rel_path_ne].
      assert (Forall seg (y :: z)) as Syz by (rewrite <- Erq; by apply Forall_app). by apply Forall_cons in Syz as [? _]. }
    destruct (rel_path (r ++ q)); [done | simpl in E; lia].
  - apply under_abs in Hu as [y ->]; [| done | by destruct r | done | by apply Forall_app].
    apply Hx. rewrite <- app_assoc. split; [by apply prefix_app_r |]. intros E.
    apply (f_equal length) in E. rewrite !length_app in E. destruct q; [done |]. simpl in E. lia.
Qed.

(** Any order of the removals gives this directory, without an error. *)
Lemma delete_any_order order :
  order ≡ₚ event_ops → run_ops order (view r m) = ([], view r (swept r event_ops m)).
Proof.
  intros Hp. rewrite (run_apart r).
  - by rewrite (swept_perm r order event_ops m Hp).
  - eapply apart_perm; [symmetry; exact Hp | exact event_ops_apart].
  - rewrite Hp. apply event_ops_removable.
Qed.
End delete.

(** ** The engine *)

Section engine.
Context (SecureJoin : string → string → result string).
Context (ReadDir : string → result (list DirEntry)) (Stat Lstat : string → result FileInfo).
Context (equal : string → string → FileInfo → FileInfo → result bool).

(** [NewDeleteEngine(...).Run]: the entries of the classifier, each handled by the pipeline with
    the no-op handlers, and the two flushes of the one batcher of both streams.  [order] says how
    the walk interleaves the entries of the two streams; [sched] and [bsched] are the schedules of
    the pipeline and of the batches. *)
Definition delete_run (fuel : nat) (c : DirsyncClassifier) (lim : limits) (parallelism : nat) (order : list bool)
    (sched : list pipe_label) (bsched : list label) (v : FSMergedView) : option (PipelineResult * FSMergedView) :=
  s ← Classify SecureJoin ReadDir Stat Lstat (λ _, None) fuel ctx_background c;
  let st := pipe_run NoopExclusiveHandler NoopCommonHandler enqueue enqueue equal (dc_lowerRoot c) (dc_upperRoot c) false lim
              sched (pipe_init (merge_by order (st_exclusive s) (st_common s)) () (gb_New v)) in
  if negb (pipe_finished st) then None
  else
    let flush := gb_Flush parallelism (λ _, bsched) in
    '(res, b) ← pipe_result false flush flush st; Some (res, gq_view b).
End engine.

(** A batch whose context stays alive can be run to its end, from wherever it is. *)
Lemma batch_finishes {V} `{MergedView V} parallelism ops view st :
  0 < parallelism → batch_inv parallelism ops view st →
  ∃ sched, alive sched ∧ is_Some (batch_result (batch_run parallelism sched st)).
Proof.
  intros Hp. remember (steps_left st) as n eqn:Hn. revert st Hn.
  induction n as [n IH] using lt_wf_ind. intros st -> Hinv.
  destruct (bt_main st) eqn:Em.
  4: { exists []. split; [by intros ?%elem_of_nil |]. unfold batch_result. simpl. rewrite Em. by eexists. }
  all: destruct (batch_progress parallelism ops view st Hp Hinv) as (l & st' & Hl & Hs); [by rewrite Em |];
    pose proof (batch_step_decreases _ _ _ _ Hs) as Hd;
    (assert (batch_inv parallelism ops view st') as Hinv'
       by (destruct l; [by eapply main_step_inv | by eapply batch_worker_inv | done]));
    destruct (IH _ Hd st' eq_refl Hinv') as (sched & Ha & Hr); exists (l :: sched);
    (split; [by intros [?|?]%elem_of_cons |]); unfold batch_run in *; simpl; by rewrite Hs.
Qed.

(** The two flushes of the batcher at the end of a run that was not cancelled: what the first
    one returns is all that can go wrong. *)
Definition flush_errs (e : option error) : list error :=
  match e with
  | Some e => if isContextErr (EWrap ["exclusive batcher flush"] e) then [] else [EWrap ["exclusive batcher flush"] e]
  | None => []
  end.

Lemma flush_result {S} parallelism bsched (st : pipe S (gbatcher FSMergedView)) :
  gq_closed (pl_batcher st) = false → pl_ctx st = None → 
  let bt := batch_run parallelism bsched (batch_init (gq_pending (pl_batcher st)) (gq_view (pl_batcher st))) in
  ('(res, b) ← pipe_result false (gb_Flush parallelism (λ _, bsched)) (gb_Flush parallelism (λ _, bsched)) st; Some (res, gq_view b))
  = e ← batch_result bt;
    Some (mkResult (pl_excHandled st) (pl_comHandled st) (joinErrors (pl_errs st ++ flush_errs e)), bt_view bt).
Proof.
  intros Hb Hc bt. unfold pipe_result, gb_Flush. rewrite Hb, Hc. fold bt.
  destruct (batch_result bt) as [e|] eqn:He; [| done]. cbn [fmap option_fmap option_map mbind option_bind].
  set (st' := match e with Some _ => _ | None => st end).
  assert (pl_ctx st' = None ∧ pl_excHandled st' = pl_excHandled st ∧ pl_comHandled st' = pl_comHandled st
          ∧ pl_errs st' = pl_errs st ++ flush_errs e) as (E3 & E4 & E5 & E6).
  { unfold st', flush_errs, addErr. destruct e as [e|]; [| by rewrite app_nil_r]. destruct (isContextErr _); [by rewrite app_nil_r | done]. }
  cbn [gq_closed gq_pending gq_view gq_flushes].
  destruct (batch_run_empty parallelism bsched (bt_view bt)) as [E1 E2]. rewrite E3, E1. cbn.
  by rewrite E2, E4, E5, E6.
Qed.

(** ** Property *)

(** C4: A run of the delete engine, without filter patterns, whose comparisons do not fail, over
    two directory trees and with the goroutine batcher, is never stuck: whatever its goroutines
    have done, they can go on to its end.  However they are scheduled, a run that is not cancelled
    and has ended reports no error and leaves in the merged directory, which showed the overlay
    of the two, exactly the upper entries that are not redundant and do not replace a lower
    directory, and nothing outside it is touched.  So a file of the upper directory that
    replaces a lower directory is deleted, although it is not in the lower directory. *)
Theorem delete_engine SecureJoin ReadDir Stat Lstat equal fuel c lim parallelism order l u r m :
  limits_ok lim → 0 < parallelism → depth l ≤ fuel →
  is_dir l = true → wf_tree l → on_disk SecureJoin ReadDir Stat (dc_followSymlinks c) (dc_lowerRoot c) [] l →
  is_dir u = true → wf_tree u → on_disk SecureJoin ReadDir Stat (dc_followSymlinks c) (dc_upperRoot c) [] u →
  dc_filter c = NoopFilter → Forall seg r → clean_disk m → merged_at r l u m →
  (∀ a b li ui, ∃ v, equal a b li ui = Ok v) →
  (∀ a b li ui, mode_Type (fi_Mode li) ≠ mode_Type (fi_Mode ui) → equal a b li ui = Ok false) →
  let run sched bsched :=
    delete_run SecureJoin ReadDir Stat Lstat equal fuel c lim parallelism order sched bsched (mkFSView (abs_path r) m) in
  (∀ sched bsched, Forall stage_move sched → alive bsched →
     ∃ sched' bsched', Forall stage_move sched' ∧ alive bsched' ∧ is_Some (run (sched ++ sched') (bsched ++ bsched')))
  ∧ ∀ sched bsched res v, Forall stage_move sched → alive bsched → run sched bsched = Some (res, v) →
      pr_Err res = None
      ∧ ∃ m', v = mkFSView (abs_path r) m'
        ∧ (∀ p i, p ≠ [] → Forall seg p →
             m' !! abs_path (r ++ p) = Some i ↔
             ∃ t', lookup_path u p = Some t' ∧ i = tree_info t'
               ∧ ¬ redundant equal (dc_lowerRoot c) (dc_upperRoot c) l u p ∧ ¬ replaced l u p)
        ∧ ∀ x, Forall seg x → ¬ (r `prefix_of` x ∧ x ≠ r) → m' !! abs_path x = m !! abs_path x.
Proof.
  intros Hlim Hp Hd Dl Wl Kl Du Wu Ku Hf Sr Hclean Hm Hequal Hmis run.
  assert (Classify SecureJoin ReadDir Stat Lstat (λ _, None) fuel ctx_background c
    = Some (mkStreams (omap excl_of (diff_events NoopFilter [] l u)) (omap comm_of (diff_events NoopFilter [] l u)) [])) as Hc.
  { rewrite (Classify_live SecureJoin ReadDir Stat Lstat fuel c l (Some u)); try done; by rewrite Hf. }
  set (walk := merge_by order (omap excl_of (diff_events NoopFilter [] l u)) (omap comm_of (diff_events NoopFilter [] l u))).
  set (prun sched := pipe_run NoopExclusiveHandler NoopCommonHandler enqueue enqueue equal (dc_lowerRoot c) (dc_upperRoot c) false lim
    sched (pipe_init walk () (gb_New (view r m)))).
  assert (∀ sched, Forall stage_move sched → pipe_finished (prun sched) = true →
    ∃ ops, ops ≡ₚ event_ops equal (dc_lowerRoot c) (dc_upperRoot c) l u
    ∧ ∀ bsched, let bt := batch_run parallelism bsched (batch_init ops (view r m)) in
      run sched bsched = (λ e, (mkResult (exclusives walk) (commons walk) (joinErrors (flush_errs e)), bt_view bt)) <$> batch_result bt) as Hrun.
  { intros sched Hs Hfin.
    destruct (run_submits NoopExclusiveHandler NoopCommonHandler equal (dc_lowerRoot c) (dc_upperRoot c) false lim
      (λ _ _, eq_refl) (λ _ _, eq_refl) Hequal sched walk () (gb_New (view r m)) Hs eq_refl Hfin)
      as (Hq & (B1 & B2 & B3) & Hctx & Herr & Hx & Hy). fold (prun sched) in *.
    exists (gq_pending (pl_batcher (prun sched))). split; [by rewrite Hq; unfold walk; rewrite removals_events |]. intros bsched bt.
    unfold run, delete_run. rewrite Hc. cbn [st_exclusive st_common mbind option_bind].
    change (mkFSView (abs_path r) m) with (view r m). fold walk. fold (prun sched). rewrite Hfin. cbn [negb]. cbv iota.
    rewrite flush_result by done. rewrite B2, Hx, Hy, Herr. by destruct (batch_result _). }
  split.
  - intros sched bsched Hs Ha.
    destruct (pipe_ends NoopExclusiveHandler NoopCommonHandler enqueue enqueue equal (dc_lowerRoot c) (dc_upperRoot c) false lim
      (prun sched) Hlim) as (sched' & Hs' & Hfin); [apply pipe_run_ok, pipe_ok_init |].
    unfold prun in Hfin. rewrite <- pipe_run_app in Hfin.
    assert (Forall stage_move (sched ++ sched')) as Hss by by apply Forall_app_2.
    destruct (Hrun (sched ++ sched') Hss Hfin) as (ops & _ & E).
    destruct (batch_finishes parallelism ops (view r m) _ Hp (batch_run_inv parallelism _ _ bsched _ Ha (batch_inv_init parallelism _ _)))
      as (bsched' & Ha' & [e He]).
    exists sched', bsched'. split; [done |]. split; [done |]. rewrite E. unfold batch_run in *. rewrite foldl_app, He. by eexists.
  - intros sched bsched res v Hsched Ha Hr. destruct (pipe_finished (prun sched)) eqn:Hfin.
    2: { exfalso. revert Hr. unfold run, delete_run. rewrite Hc. cbn [st_exclusive st_common mbind option_bind].
         change (mkFSView (abs_path r) m) with (view r m). fold walk. fold (prun sched). by rewrite Hfin. }
    destruct (Hrun sched Hsched Hfin) as (ops & Hops & E). rewrite E in Hr. cbv zeta in Hr.
    pose proof (batch_run_inv parallelism ops (view r m) bsched _ Ha (batch_inv_init parallelism ops (view r m))) as Hb.
    destruct (batch_result _) as [e|] eqn:He; [| done]. injection Hr as <- <-.
    destruct (batch_returned _ _ _ _ _ Hb He) as (ord & errs & Hord & Hv & Herrs & ->). rewrite Hops in Hord.
    rewrite (delete_any_order equal (dc_lowerRoot c) (dc_upperRoot c) l u Wl Wu Dl Du r Sr Hmis m Hclean Hm ord Hord) in Hv, Herrs.
    simpl in Hv, Herrs. symmetry in Herrs. apply Permutation_nil in Herrs as ->.
    split; [done |]. eexists. split; [exact Hv |]. split.
    + intros p i Np Sp. by apply swept_merged.
    + intros x Sx Hx. by apply swept_elsewhere.
Qed.

(** ** Witness *)

(** A disk given by the paths below [r]. *)
Definition disk_of (r : list string) (es : list (list string * FileInfo)) : disk :=
  list_to_map ((λ pi, (abs_path (r ++ pi.1), pi.2)) <$> es).

Lemma disk_of_lookup r es p :
  Forall seg r → Forall (λ pi, Forall seg pi.1) es → Forall seg p →
  disk_of r es !! abs_path (r ++ p) = snd <$> List.find (λ pi, bool_decide (pi.1 = p)) es.
Proof.
  intros Sr Hes Sp. unfold disk_of. induction Hes as [|[q i] es Sq _ IH]; [apply lookup_empty |]. simpl in *.
  destruct (decide (q = p)) as [->|Hne].
  - by rewrite lookup_insert_eq, bool_decide_eq_true_2.
  - rewrite bool_decide_eq_false_2, lookup_insert_ne; [done | | done].
    intros E%abs_path_inj; [| by apply Forall_app..]. by apply app_inv_head in E.
Qed.

Lemma disk_of_clean r es : Forall seg r → Forall (λ pi, Forall seg pi.1) es → clean_disk (disk_of r es).
Proof.
  intros Sr Hes k i Hk. apply elem_of_list_to_map_2, list_elem_of_fmap in Hk as ([q j] & [= -> _] & Hin).
  exists (r ++ q). split; [| done]. apply Forall_app. split; [done |]. by apply (Forall_elem _ _ _ Hes Hin).
Qed.

Section sample.
Let file (size : Z) : FileInfo := mkInfo 420 size 0 None.
Let dir : FileInfo := mkInfo (ModeDir + 493) 0 0 None.

Definition sample_entries : list (list string * FileInfo) :=
  [(["a"], file 3); (["d"], dir); (["d"; "x"], file 2); (["s"], file 4); (["t"], file 5)].
Definition sample_merged : disk := disk_of ["m"] sample_entries.
End sample.

Lemma sample_entries_seg : Forall (λ pi, Forall seg pi.1) sample_entries.
Proof. apply (bool_decide_unpack _). vm_compute. exact I. Defined.

Lemma overlay_none l u p : lookup_path l p = None → lookup_path u p = None → overlay l u p = None.
Proof. intros Hl Hu. unfold overlay. rewrite Hl, Hu. by destruct (existsb _ _). Qed.

(** A path that is neither in the sample nor in its disk. *)
Ltac outside :=
  rewrite overlay_none by (unfold sample_lower, sample_upper; simpl; repeat (rewrite decide_False by congruence; simpl); done);
  unfold sample_entries; simpl; repeat (rewrite bool_decide_eq_false_2 by congruence; simpl); done.

Lemma sample_merged_at : merged_at ["m"] sample_lower sample_upper sample_merged.
Proof.
  intros p Np Sp. unfold sample_merged.
  rewrite disk_of_lookup; [| apply (bool_decide_unpack _); vm_compute; exact I | apply sample_entries_seg | done].
  destruct p as [|n q]; [done |]. clear Np Sp.
  destruct (decide (n = "a")) as [->|Ha]; [destruct q; [done | outside] |].
  destruct (decide (n = "s")) as [->|Hs]; [destruct q; [done | outside] |].
  destruct (decide (n = "t")) as [->|Ht]; [destruct q; [done | outside] |].
  destruct (decide (n = "d")) as [->|Hd]; [| outside].
  destruct q as [|n q]; [done |].
  destruct (decide (n = "x")) as [->|Hx]; [destruct q; [done | outside] | outside].
Qed.

(** The file of the upper directory at the name of a lower directory is gone; the one at a name
    of its own stays, and so does the one that differs. *)
Lemma delete_engine_witness :
  ∃ sched bsched res m',
    delete_run sample_Join sample_ReadDir sample_Stat sample_Stat size_equal 3 sample_classifier sample_limits 2 [] sched bsched
      (mkFSView (abs_path ["m"]) sample_merged) = Some (res, mkFSView (abs_path ["m"]) m')
    ∧ pr_Err res = None ∧ replaced sample_lower sample_upper ["s"]
    ∧ m' !! abs_path ["m"; "s"] = None ∧ is_Some (m' !! abs_path ["m"; "t"]) ∧ is_Some (m' !! abs_path ["m"; "a"]).
Proof.
  assert (replaced sample_lower sample_upper ["s"]) as Hrep by (eexists; eexists; split; [| split; [| split]]; reflexivity).
  destruct (delete_engine sample_Join sample_ReadDir sample_Stat sample_Stat size_equal 3 sample_classifier sample_limits 2 []
    sample_lower sample_upper ["m"] sample_merged) as [_ H].
  - unfold limits_ok. simpl. lia.
  - lia.
  - vm_compute. repeat constructor.
  - reflexivity.
  - apply sample_wf.
  - apply sample_disk.
  - reflexivity.
  - apply sample_wf.
  - apply sample_disk.
  - reflexivity.
  - apply (bool_decide_unpack _). vm_compute. exact I.
  - apply disk_of_clean; [apply (bool_decide_unpack _); vm_compute; exact I | apply sample_entries_seg].
  - apply sample_merged_at.
  - intros. apply size_equal_ok.
  - intros a b li ui Hne. unfold size_equal. by rewrite decide_False.
  - pose (sched := round_robin 24 8).
    pose (bsched := replicate 8 (LMain false) ++ [LWorker 0; LWorker 0; LWorker 1; LWorker 1] ++ replicate 4 (LMain false)).
    assert (is_Some (delete_run sample_Join sample_ReadDir sample_Stat sample_Stat size_equal 3 sample_classifier sample_limits 2 [] sched bsched
      (mkFSView (abs_path ["m"]) sample_merged))) as [[res v] E] by (vm_compute; eexists; reflexivity).
    destruct (H sched bsched res v) as (Herr & m' & -> & Hin & _).
    + apply round_robin_moves.
    + unfold alive. apply (bool_decide_unpack _). vm_compute. exact I.
    + exact E.
    + exists sched, bsched, res, m'. split; [exact E |]. split; [exact Herr |]. split; [exact Hrep |]. clear E sched bsched.
      split; [| split].
      * destruct (m' !! abs_path ["m"; "s"]) as [i|] eqn:Hs; [exfalso | reflexivity].
        apply (Hin ["s"] i) in Hs as (_ & _ & _ & _ & Hn); [exact (Hn Hrep) | discriminate |].
        apply (bool_decide_unpack _). vm_compute. exact I.
      * eexists. apply (Hin ["t"]); [discriminate | apply (bool_decide_unpack _); vm_compute; exact I |].
        eexists. split; [reflexivity | split; [reflexivity | split; intros (t & t' & Ht & _); discriminate Ht]].
      * eexists. apply (Hin ["a"]); [discriminate | apply (bool_decide_unpack _); vm_compute; exact I |].
        eexists. split; [reflexivity | split; [reflexivity | split]].
        -- intros (t & t' & [= <-] & [= <-] & _ & _ & _ & He). vm_compute in He. discriminate He.
        -- intros (t & t' & [= <-] & [= <-] & Hd & _). discriminate Hd.
Defined.
