(* ===== verification/LbTypes.v ===== *)
(** * LbTypes: messages, metadata and constraints of the LLB client

    Models [constraints.go], [platform.go] and the [Definition] of [marshal.go] in
    [src/client/llb].  The messages of [solver/pb] are records and inductive types with the
    fields that the package sets; their encoding, their constants and the digest of bytes are
    third-party code, given by classes. *)
From S2P Require Import Prelude GoStd.

(** ** Messages *)

(** [ocispecs.Platform] and [pb.Platform], which have the same fields *)
Record Platform := mkPlatform {
  pl_OS : string;
  pl_Architecture : string;
  pl_Variant : string;
  pl_OSVersion : string;
  pl_OSFeatures : list string;
}.

#[export] Instance Platform_eq_dec : EqDecision Platform.
Proof. solve_decision. Defined.

Record ProgressGroup := mkProgressGroup { pg_Id : string; pg_Name : string; pg_Weak : bool }.

#[export] Instance ProgressGroup_eq_dec : EqDecision ProgressGroup.
Proof. solve_decision. Defined.

(** [pb.OpMetadata]; an [ExportCache] is its [Value]. *)
Record pbOpMetadata := mkPbMeta {
  pm_IgnoreCache : bool;
  pm_Description : gmap string string;
  pm_ExportCache : option bool;
  pm_Caps : gmap string bool;
  pm_ProgressGroup : option ProgressGroup;
}.

#[export] Instance pbOpMetadata_eq_dec : EqDecision pbOpMetadata.
Proof. solve_decision. Defined.

Record Input := mkInput { in_Digest : string; in_Index : Z }.

#[export] Instance Input_eq_dec : EqDecision Input.
Proof. solve_decision. Defined.

Inductive MountType := MT_BIND | MT_SECRET | MT_SSH | MT_CACHE | MT_TMPFS.

#[export] Instance MountType_eq_dec : EqDecision MountType.
Proof. solve_decision. Defined.

(** [pb.SecretOpt] and [pb.SSHOpt] *)
Record pbSecretOpt := mkSecretOpt { so_ID : string; so_Uid : N; so_Gid : N; so_Mode : N; so_Optional : bool }.

#[export] Instance pbSecretOpt_eq_dec : EqDecision pbSecretOpt.
Proof. solve_decision. Defined.

Record pbMount := mkPbMount {
  pmt_Input : Z;
  pmt_Selector : string;
  pmt_Dest : string;
  pmt_Output : Z;
  pmt_Readonly : bool;
  pmt_MountType : MountType;
  pmt_TmpfsSize : option Z;
  pmt_CacheOpt : option (string * Z);
  pmt_SecretOpt : option pbSecretOpt;
  pmt_SSHOpt : option pbSecretOpt;
}.

#[export] Instance pbMount_eq_dec : EqDecision pbMount.
Proof. solve_decision. Defined.

(** [pb.ProxyEnv]: http, https, ftp, no, all *)
Record ProxyEnv := mkProxyEnv {
  px_HTTPProxy : string;
  px_HTTPSProxy : string;
  px_FTPProxy : string;
  px_NoProxy : string;
  px_AllProxy : string;
}.

#[export] Instance ProxyEnv_eq_dec : EqDecision ProxyEnv.
Proof. solve_decision. Defined.

(** [pb.Meta]; an extra host is its name and the text of its address. *)
Record pbExecMeta := mkPbExecMeta {
  xm_Args : list string;
  xm_Env : list string;
  xm_Cwd : string;
  xm_User : string;
  xm_Hostname : string;
  xm_ProxyEnv : option ProxyEnv;
  xm_ExtraHosts : list (string * string);
}.

#[export] Instance pbExecMeta_eq_dec : EqDecision pbExecMeta.
Proof. solve_decision. Defined.

Record pbSecretEnv := mkSecretEnv { se_ID : string; se_Name : string; se_Optional : bool }.

#[export] Instance pbSecretEnv_eq_dec : EqDecision pbSecretEnv.
Proof. solve_decision. Defined.

Record pbExecOp := mkPbExec {
  xo_Meta : pbExecMeta;
  xo_Mounts : list pbMount;
  xo_Network : Z;
  xo_Secretenv : list pbSecretEnv;
}.

#[export] Instance pbExecOp_eq_dec : EqDecision pbExecOp.
Proof. solve_decision. Defined.

(** The actions of [pb.FileOp] *)
Record pbCopy := mkPbCopy {
  fc_Src : string;
  fc_Dest : string;
  fc_Mode : Z;
  fc_FollowSymlink : bool;
  fc_DirCopyContents : bool;
  fc_AttemptUnpack : bool;
  fc_CreateDestPath : bool;
  fc_AllowWildcard : bool;
  fc_AllowEmptyWildcard : bool;
  fc_IncludePatterns : list string;
  fc_ExcludePatterns : list string;
}.

#[export] Instance pbCopy_eq_dec : EqDecision pbCopy.
Proof. solve_decision. Defined.

Inductive pbAction :=
  | FA_Mkdir (Path : string) (Mode : Z) (MakeParents : bool)
  | FA_Mkfile (Path : string) (Mode : Z) (Data : list byte)
  | FA_Rm (Path : string) (AllowNotFound AllowWildcard : bool)
  | FA_Copy (c : pbCopy)
  | FA_Symlink (Oldpath Newpath : string).

#[export] Instance pbAction_eq_dec : EqDecision pbAction.
Proof. solve_decision. Defined.

Record pbFileAction := mkPbFileAction {
  fa_Input : Z;
  fa_SecondaryInput : Z;
  fa_Output : Z;
  fa_Action : pbAction;
}.

#[export] Instance pbFileAction_eq_dec : EqDecision pbFileAction.
Proof. solve_decision. Defined.

(** The payload of [pb.Op] *)
Inductive pbKind :=
  | Op_None
  | Op_Source (Identifier : string) (Attrs : gmap string string)
  | Op_Exec (e : pbExecOp)
  | Op_File (actions : list pbFileAction)
  | Op_Merge (inputs : list Z)
  | Op_Diff (lower upper : Z)
  | Op_Build (Builder : Z) (inputs : gmap string Z) (Attrs : gmap string string).

#[export] Instance pbKind_eq_dec : EqDecision pbKind.
Proof. solve_decision. Defined.

Record pbOp := mkPbOp {
  op_Inputs : list Input;
  op_Payload : pbKind;
  op_Platform : option Platform;
  op_Filter : option (list string);
}.

#[export] Instance pbOp_eq_dec : EqDecision pbOp.
Proof. solve_decision. Defined.

Definition add_input (i : Input) (o : pbOp) : pbOp :=
  mkPbOp (op_Inputs o ++ [i]) (op_Payload o) (op_Platform o) (op_Filter o).

Definition set_payload (k : pbKind) (o : pbOp) : pbOp :=
  mkPbOp (op_Inputs o) k (op_Platform o) (op_Filter o).

(** What an inspection finds, of [inspectop.go]; its edges are pairs of digests. *)
Record VertexInfo := mkVertexInfo { vi_Digest : string; vi_OpType : string; vi_Index : nat }.

Record InspectResult := mkInspectResult {
  ir_Vertices : list VertexInfo;
  ir_Edges : list (string * string);
  ir_Metadata : gmap string pbOpMetadata;
  ir_Depth : nat;
  ir_TotalOps : nat;
}.

(** [pb.Range], as the line and column of its start and end *)
Notation Range := (Z * Z * Z * Z)%type.

Record pbLocation := mkPbLocation { lc_SourceIndex : Z; lc_Ranges : list Range }.

(** [pb.Definition], with its [Source] and the [SourceInfo] of that *)
Inductive pbDefinition :=
  mkPbDef (Def : list (list byte)) (Metadata : gmap string pbOpMetadata) (Source : option pbSource)
with pbSource :=
  mkPbSource (Infos : list pbSourceInfo) (Locations : gmap string (list pbLocation))
with pbSourceInfo :=
  mkPbInfo (Filename Language : string) (Data : list byte) (Definition' : option pbDefinition).

Definition pd_Def (d : pbDefinition) : list (list byte) := let 'mkPbDef x _ _ := d in x.
Definition pd_Metadata (d : pbDefinition) : gmap string pbOpMetadata := let 'mkPbDef _ x _ := d in x.
Definition pd_Source (d : pbDefinition) : option pbSource := let 'mkPbDef _ _ x := d in x.
Definition ps_Infos (s : pbSource) : list pbSourceInfo := let 'mkPbSource x _ := s in x.
Definition ps_Locations (s : pbSource) : gmap string (list pbLocation) := let 'mkPbSource _ x := s in x.

(** ** Third-party code *)

(** The constants of [solver/pb] and the default platform of [containerd/platforms] *)
Class BuildkitPB := {
  pb_Empty : Z;
  pb_SkipOutput : Z;
  pb_LLBBuilder : Z;
  pb_RootMount : string;
  pb_LLBDefinitionInput : string;
  pb_NetMode_UNSET : Z;
  pb_Cap : string → string;
  pb_Attr : string → string;
  defaultPlatformSpec : Platform;
}.

(** Neither stands for an input or an output. *)
Class BuildkitPBLaws `{BuildkitPB} := {
  pb_Empty_neg : (pb_Empty < 0)%Z;
  pb_SkipOutput_neg : (pb_SkipOutput < 0)%Z;
}.

(** The deterministic encoding of operations and definitions, and [digest.FromBytes] *)
Class OpCodec := {
  DeterministicMarshal : pbOp → result (list byte);
  op_UnmarshalVT : list byte → result pbOp;
  def_Marshal : pbDefinition → result (list byte);
  def_UnmarshalVT : list byte → result pbDefinition;
  digest_FromBytes : list byte → string;
}.

Class OpCodecLaws `{OpCodec} := {
  op_codec o b : DeterministicMarshal o = Ok b → op_UnmarshalVT b = Ok o;
  def_codec d b : def_Marshal d = Ok b → def_UnmarshalVT b = Ok d;
  digest_nonempty b : digest_FromBytes b ≠ EmptyString;
}.

(** ** Metadata *)

Record OpMetadata := mkMeta {
  om_Description : gmap string string;
  om_ExportCache : option bool;
  om_Caps : gmap string bool;
  om_ProgressGroup : option ProgressGroup;
  om_IgnoreCache : bool;
}.

#[export] Instance OpMetadata_eq_dec : EqDecision OpMetadata.
Proof. solve_decision. Defined.

Definition om_ToPB (m : OpMetadata) : pbOpMetadata :=
  mkPbMeta (om_IgnoreCache m) (om_Description m) (om_ExportCache m) (om_Caps m) (om_ProgressGroup m).

Definition NewOpMetadata (md : pbOpMetadata) : OpMetadata :=
  mkMeta (pm_Description md) (pm_ExportCache md) (pm_Caps md) (pm_ProgressGroup md) (pm_IgnoreCache md).

(** [maps.Copy(dst, src)] is the union that prefers [src]. *)
Definition mergeMetadata (base override : OpMetadata) : OpMetadata :=
  mkMeta
    (om_Description override ∪ om_Description base)
    (match om_ExportCache override with Some e => Some e | None => om_ExportCache base end)
    (om_Caps override ∪ om_Caps base)
    (match om_ProgressGroup override with Some g => Some g | None => om_ProgressGroup base end)
    (if om_IgnoreCache override then true else om_IgnoreCache base).

(** ** Constraints *)

(** A [*SourceMap] is an address. *)
Record SourceLocation := mkLoc { sl_SourceMap : nat; sl_Ranges : list Range }.

Record Constraints := mkConstraints {
  co_Platform : option Platform;
  co_WorkerConstraints : list string;
  co_Metadata : OpMetadata;
  co_SourceLocations : list SourceLocation;
}.

Definition no_metadata : OpMetadata := mkMeta ∅ None ∅ None false.
Definition no_constraints : Constraints := mkConstraints None [] no_metadata [].

Definition with_metadata (f : OpMetadata → OpMetadata) (c : Constraints) : Constraints :=
  mkConstraints (co_Platform c) (co_WorkerConstraints c) (f (co_Metadata c)) (co_SourceLocations c).

Definition ConstraintsOpt := Constraints → Constraints.

Definition NewConstraints (opts : list ConstraintsOpt) : Constraints := foldl (λ c o, o c) no_constraints opts.

Definition AddCap (c : Constraints) (id : string) : Constraints :=
  with_metadata (λ m, mkMeta (om_Description m) (om_ExportCache m) (<[id := true]> (om_Caps m)) (om_ProgressGroup m) (om_IgnoreCache m)) c.

Definition PlatformOpt (p : Platform) : ConstraintsOpt :=
  λ c, mkConstraints (Some p) (co_WorkerConstraints c) (co_Metadata c) (co_SourceLocations c).

Definition WorkerConstraint (filter : string) : ConstraintsOpt :=
  λ c, mkConstraints (co_Platform c) (co_WorkerConstraints c ++ [filter]) (co_Metadata c) (co_SourceLocations c).

Definition IgnoreCache : ConstraintsOpt :=
  with_metadata (λ m, mkMeta (om_Description m) (om_ExportCache m) (om_Caps m) (om_ProgressGroup m) true).

Definition WithDescription (kvs : gmap string string) : ConstraintsOpt :=
  with_metadata (λ m, mkMeta (kvs ∪ om_Description m) (om_ExportCache m) (om_Caps m) (om_ProgressGroup m) (om_IgnoreCache m)).

Definition WithExportCache (ec : option bool) : ConstraintsOpt :=
  with_metadata (λ m, mkMeta (om_Description m) ec (om_Caps m) (om_ProgressGroup m) (om_IgnoreCache m)).

Definition WithProgressGroup (pg : option ProgressGroup) : ConstraintsOpt :=
  with_metadata (λ m, mkMeta (om_Description m) (om_ExportCache m) (om_Caps m) pg (om_IgnoreCache m)).

(** [SourceMap.Location]; [None] is a nil source map. *)
Definition Location (sm : option nat) (ranges : list Range) : ConstraintsOpt :=
  λ c, match sm with
       | None => c
       | Some a => mkConstraints (co_Platform c) (co_WorkerConstraints c) (co_Metadata c) (co_SourceLocations c ++ [mkLoc a ranges])
       end.

Definition MarshalConstraints `{BuildkitPB} (base override : Constraints) : pbOp * pbOpMetadata :=
  let platform := match co_Platform override with Some p => Some p | None => co_Platform base end in
  let platform := match platform with Some p => p | None => defaultPlatformSpec end in
  (mkPbOp [] Op_None (Some platform) (Some (co_WorkerConstraints base ++ co_WorkerConstraints override)),
   om_ToPB (mergeMetadata (co_Metadata base) (co_Metadata override))).

(** ** Definitions *)

Record Definition' := mkDefinition {
  df_Def : list (list byte);
  df_Metadata : gmap string OpMetadata;
  df_Source : option pbSource;
  df_Constraints : option Constraints;
}.

Definition empty_definition : Definition' := mkDefinition [] ∅ None None.

Definition def_ToPB (d : Definition') : pbDefinition := mkPbDef (df_Def d) (om_ToPB <$> df_Metadata d) (df_Source d).

(** [FromPB] on a definition keeps its [Constraints]. *)
Definition def_FromPB (x : pbDefinition) (d : Definition') : Definition' :=
  mkDefinition (pd_Def x) (NewOpMetadata <$> pd_Metadata x) (pd_Source x) (df_Constraints d).

Section codec.
Context `{OpCodec}.

Definition Head (d : Definition') : result string :=
  match last (df_Def d) with
  | None => Ok EmptyString
  | Some l =>
      match op_UnmarshalVT l with
      | Err e => Err e
      | Ok pop => match op_Inputs pop with [] => Ok EmptyString | i :: _ => Ok (in_Digest i) end
      end
  end.

(** [WriteTo] gives the writer the bytes; [ReadFrom] reads all of them. *)
Definition WriteTo (d : Definition') : result (list byte) := def_Marshal (def_ToPB d).

Definition ReadFrom (b : list byte) : result Definition' :=
  match def_UnmarshalVT b with Err e => Err e | Ok x => Ok (def_FromPB x empty_definition) end.
End codec.

(** ** Properties *)

Lemma NewOpMetadata_ToPB m : NewOpMetadata (om_ToPB m) = m.
Proof. by destruct m. Qed.

Lemma merge_no_metadata_l m : mergeMetadata no_metadata m = m.
Proof.
  destruct m as [d e c g i]. unfold mergeMetadata, no_metadata. simpl. rewrite !map_union_empty.
  by destruct e, g, i.
Qed.

Lemma merge_no_metadata_r m : mergeMetadata m no_metadata = m.
Proof. destruct m as [d e c g i]. unfold mergeMetadata, no_metadata. simpl. by rewrite !(left_id_L ∅ (∪)). Qed.

Lemma mergeMetadata_assoc m1 m2 m3 :
  mergeMetadata m1 (mergeMetadata m2 m3) = mergeMetadata (mergeMetadata m1 m2) m3.
Proof.
  destruct m1 as [d1 e1 c1 g1 i1], m2 as [d2 e2 c2 g2 i2], m3 as [d3 e3 c3 g3 i3]. unfold mergeMetadata. simpl.
  rewrite !(assoc_L (∪)). by destruct e1, e2, e3, g1, g2, g3, i1, i2, i3.
Qed.

(** What is written is read back, all but the constraints, which are not in the message. *)
Lemma ReadFrom_WriteTo `{OpCodec, !OpCodecLaws} d b :
  WriteTo d = Ok b → ReadFrom b = Ok (mkDefinition (df_Def d) (df_Metadata d) (df_Source d) None).
Proof.
  unfold WriteTo, ReadFrom. intros ->%def_codec. unfold def_FromPB, def_ToPB. simpl. f_equal. f_equal.
  rewrite <- map_fmap_compose. rewrite <- (map_fmap_id (df_Metadata d)) at 2. apply map_fmap_ext.
  intros k m _. apply NewOpMetadata_ToPB.
Qed.

(** ** A codec for examples *)

(** The operations of a table, encoded by their place in it *)
Definition table_codec (table : list pbOp) : OpCodec :=
  {| DeterministicMarshal := λ o,
       match list_find (λ o', o' = o) table with
       | Some (i, _) => Ok (replicate i Byte.x61)
       | None => Err (EText ["unknown operation"])
       end;
     op_UnmarshalVT := λ b, match table !! length b with Some o => Ok o | None => Err (EText ["unknown encoding"]) end;
     def_Marshal := λ _, Err (EText ["not encoded"]);
     def_UnmarshalVT := λ _, Err (EText ["not encoded"]);
     digest_FromBytes := λ b, "sha256:" +:+ bytes_str b |}.

Lemma table_codec_laws table : @OpCodecLaws (table_codec table).
Proof.
  split; simpl; [| done..].
  intros o b. destruct (list_find _ table) as [[i o']|] eqn:E; [| done]. intros [= <-].
  apply list_find_Some in E as (E & -> & _). by rewrite length_replicate, E.
Qed.
