(* ===== verification/LbState.v ===== *)
(** * LbState: states and their metadata

    Models the [State] of [src/client/llb/state.go], the options of [meta.go], and the
    combinators of [transformer.go].  A state is a value: its [prev] is a copy of the state it
    was made from.  Two things about it are shared and live in a store: the captured variable
    of a [Dir] option, and an asynchronous output, which [LbHeap] models.  The options that
    [SetMarshalDefaults] appends are a list, with no array that slices could share. *)
From S2P Require Import Prelude GoStd GoPath LbTypes.

(** ** Environment lists *)

Record EnvList := mkEnv { el_keys : list string; el_values : gmap string string }.

Definition NewEnvList : EnvList := mkEnv [] ∅.

Definition el_Set (key value : string) (el : EnvList) : EnvList :=
  mkEnv (filter (λ k, k ≠ key) (el_keys el) ++ [key]) (<[key := value]> (el_values el)).

Definition el_Get (key : string) (el : EnvList) : option string := el_values el !! key.

(** [el.values[k]] is the empty string where the key is missing. *)
Definition el_ToArray (el : EnvList) : list string :=
  (λ k, k +:+ "=" +:+ default EmptyString (el_values el !! k)) <$> el_keys el.

(** ** Values *)

(** [HostIP]: an address is its bytes. *)
Record HostIP := mkHost { hi_Host : string; hi_IP : list byte }.
Record Ulimit := mkUlimit { ul_Name : string; ul_Soft : Z; ul_Hard : Z }.

(** The keys of [meta.go], and those of other packages *)
Inductive contextKey :=
  | keyArgs | keyDir | keyEnv | keyExtraHost | keyHostname | keyUlimit | keyUser | keyCgroup
  | keyPlatform | keyNetwork | keySecurity
  | keyOther (name : string).

#[export] Instance contextKey_eq_dec : EqDecision contextKey.
Proof. solve_decision. Defined.

(** A Go [any] with its dynamic type *)
Inductive any :=
  | AnyString (s : string)
  | AnyStrings (l : list string)
  | AnyEnv (e : EnvList)
  | AnyHosts (l : list HostIP)
  | AnyUlimits (l : list Ulimit)
  | AnyPlatform (p : Platform)
  | AnyNetMode (m : Z)
  | AnySecurityMode (m : Z)
  | AnyInspect (r : InspectResult)
  | AnyOther (id : nat).

(** The closures that the package stores under a key.  The one of an [AddEnv], [ExtraHost] or
    [Ulimit] reads the state it was applied to, which is the [prev] of the state that holds it;
    the one of a [Dir] also reads and writes the variable that its option captured. *)
Inductive lazy :=
  | LConst (v : any)
  | LAddEnv (key value : string)
  | LDir (cell : nat)
  | LExtraHost (h : HostIP)
  | LUlimit (u : Ulimit).

(** ** Outputs and states *)

(** How the [getIndex] of an output finds the index: a constant, or the place of the mount
    with this number in its exec *)
Inductive out_index := IndexConst (i : Z) | IndexMount (mount : nat).

#[export] Instance out_index_eq_dec : EqDecision out_index.
Proof. solve_decision. Defined.

(** An [Output]: the one of a vertex, a [*DefinitionOp] that is its own, or an [*asyncState],
    by their addresses *)
Inductive Output := OutVertex (v : nat) (index : out_index) | OutDef (v : nat) | OutAsync (a : nat).

#[export] Instance Output_eq_dec : EqDecision Output.
Proof. solve_decision. Defined.

Inductive State :=
  mkState (out : option Output) (prev : option State) (key : option contextKey) (value : option lazy) (opts : list ConstraintsOpt).

Definition st_out (s : State) : option Output := let 'mkState o _ _ _ _ := s in o.
Definition st_prev (s : State) : option State := let 'mkState _ p _ _ _ := s in p.
Definition st_key (s : State) : option contextKey := let 'mkState _ _ k _ _ := s in k.
Definition st_value (s : State) : option lazy := let 'mkState _ _ _ v _ := s in v.
Definition st_opts (s : State) : list ConstraintsOpt := let 'mkState _ _ _ _ o := s in o.

(** [ensurePlatform] returns its state in both cases. *)
Definition NewState (o : option Output) : State := mkState o None None None [].
Definition Scratch : State := mkState None None None None [].
Definition State_Output (s : State) : option Output := st_out s.
Definition WithOutput (o : option Output) (s : State) : State := mkState o (Some s) None None [].
Definition withValue (k : contextKey) (v : lazy) (s : State) : State := mkState (st_out s) (Some s) (Some k) (Some v) [].
Definition WithValue (k : contextKey) (v : any) (s : State) : State := withValue k (LConst v) s.

Definition SetMarshalDefaults (co : list ConstraintsOpt) (s : State) : State :=
  mkState (st_out s) (st_prev s) (st_key s) (st_value s) (st_opts s ++ co).

(** [Reset(other)] *)
Definition Reset (other s : State) : State := mkState (st_out s) (Some other) None None [].

Definition StateOption := State → State.
Definition With (opts : list StateOption) (s : State) : State := foldl (λ s o, o s) s opts.

(** ** Options *)

Definition addEnv (key value : string) : StateOption := withValue keyEnv (LAddEnv key value).
Definition setUser (user : string) : StateOption := WithValue keyUser (AnyString user).
Definition hostname (h : string) : StateOption := WithValue keyHostname (AnyString h).
Definition setPlatform (p : Platform) : StateOption := WithValue keyPlatform (AnyPlatform p).
Definition NetworkOption (mode : Z) : StateOption := WithValue keyNetwork (AnyNetMode mode).
Definition SecurityOption (mode : Z) : StateOption := WithValue keySecurity (AnySecurityMode mode).
Definition ArgsOption (args : list string) : StateOption := WithValue keyArgs (AnyStrings args).
Definition ExtraHostOption (host : string) (ip : list byte) : StateOption := withValue keyExtraHost (LExtraHost (mkHost host ip)).
Definition UlimitOption (name : string) (soft hard : Z) : StateOption := withValue keyUlimit (LUlimit (mkUlimit name soft hard)).
Definition CgroupParentOption (cp : string) : StateOption := WithValue keyCgroup (AnyString cp).

(** The captured variables of the [Dir] options made so far *)
Notation cells := (list string).

(** [dir(value)] makes an option with a captured variable. *)
Definition dir (value : string) (cs : cells) : StateOption * cells := (withValue keyDir (LDir (length cs)), cs ++ [value]).

(** [State.Dir] makes such an option and applies it. *)
Definition State_Dir (path : string) (s : State) (cs : cells) : State * cells :=
  let '(o, cs) := dir path cs in (o s, cs).

(** What [json.Unmarshal] gives [WithImageConfig] *)
Record ImageConfig := mkImageConfig {
  ic_Env : list string;
  ic_WorkingDir : string;
  ic_User : string;
  ic_Architecture : string;
  ic_OS : string;
  ic_Variant : string;
}.

(** [strings.Cut(s, "=")] *)
Definition cut_eq (s : string) : string * string :=
  match index_byte s "=" with
  | None => (s, EmptyString)
  | Some i => (str_take i s, str_drop (S i) s)
  end.

Definition WithImageConfig (Unmarshal : list byte → result ImageConfig) (config : list byte) (s : State) (cs : cells) : result State * cells :=
  match Unmarshal config with
  | Err e => (Err e, cs)
  | Ok img =>
      let s := foldl (λ s env, let '(k, v) := cut_eq env in addEnv k v s) s (ic_Env img) in
      let '(s, cs) := if decide (ic_WorkingDir img = EmptyString) then (s, cs) else State_Dir (ic_WorkingDir img) s cs in
      let s := if decide (ic_User img = EmptyString) then s else setUser (ic_User img) s in
      let s :=
        if decide (ic_Architecture img = EmptyString ∧ ic_OS img = EmptyString) then s
        else withValue keyPlatform (LConst (AnyPlatform (mkPlatform (ic_OS img) (ic_Architecture img) (ic_Variant img) EmptyString []))) s in
      (Ok s, cs)
  end.

(** ** Evaluation *)

Definition path_IsAbs (p : string) : bool := has_prefix p "/".

(** [s.getValue(k)] applied to a context: [None] is a panic, of a failed type assertion;
    [Some None] is nil.  No closure of the package fails. *)
Fixpoint getValue (k : contextKey) (s : State) (cs : cells) : option (option any) * cells :=
  match s with
  | mkState _ prev key value _ =>
      if decide (key = Some k) then
        let before (k : contextKey) (cs : cells) := match prev with Some p => getValue k p cs | None => (Some None, cs) end in
        match value with
        | None => (Some None, cs)
        | Some (LConst v) => (Some (Some v), cs)
        | Some (LAddEnv n v) =>
            match before keyEnv cs with
            | (Some None, cs) => (Some (Some (AnyEnv (el_Set n v NewEnvList))), cs)
            | (Some (Some (AnyEnv e)), cs) => (Some (Some (AnyEnv (el_Set n v e))), cs)
            | (_, cs) => (None, cs)
            end
        | Some (LDir c) =>
            let value := default EmptyString (cs !! c) in
            if path_IsAbs value then (Some (Some (AnyString value)), cs)
            else
              match before keyDir cs with
              | (Some None, cs) => (Some (Some (AnyString (default EmptyString (cs !! c)))), cs)
              | (Some (Some (AnyString prev)), cs) =>
                  let value := default EmptyString (cs !! c) in
                  if decide (prev = EmptyString) then (Some (Some (AnyString value)), cs)
                  else
                    let value := path_join [prev; value] in
                    (Some (Some (AnyString value)), <[c := value]> cs)
              | (_, cs) => (None, cs)
              end
        | Some (LExtraHost h) =>
            match before keyExtraHost cs with
            | (Some None, cs) => (Some (Some (AnyHosts [h])), cs)
            | (Some (Some (AnyHosts l)), cs) => (Some (Some (AnyHosts (l ++ [h]))), cs)
            | (_, cs) => (None, cs)
            end
        | Some (LUlimit u) =>
            match before keyUlimit cs with
            | (Some None, cs) => (Some (Some (AnyUlimits [u])), cs)
            | (Some (Some (AnyUlimits l)), cs) => (Some (Some (AnyUlimits (l ++ [u]))), cs)
            | (_, cs) => (None, cs)
            end
        end
      else match prev with Some p => getValue k p cs | None => (Some None, cs) end
  end.

(** A typed getter: [zero] for nil, and a panic where the assertion fails *)
Definition get_as {A} (k : contextKey) (zero : A) (assert : any → option A) (s : State) (cs : cells) : option A * cells :=
  match getValue k s cs with
  | (None, cs) => (None, cs)
  | (Some None, cs) => (Some zero, cs)
  | (Some (Some v), cs) => (assert v, cs)
  end.

Definition as_string (v : any) : option string := match v with AnyString s => Some s | _ => None end.
Definition as_strings (v : any) : option (list string) := match v with AnyStrings l => Some l | _ => None end.
Definition as_env (v : any) : option EnvList := match v with AnyEnv e => Some e | _ => None end.
Definition as_hosts (v : any) : option (list HostIP) := match v with AnyHosts l => Some l | _ => None end.
Definition as_ulimits (v : any) : option (list Ulimit) := match v with AnyUlimits l => Some l | _ => None end.
Definition as_platform (v : any) : option (option Platform) := match v with AnyPlatform p => Some (Some p) | _ => None end.
Definition as_netmode (v : any) : option Z := match v with AnyNetMode m => Some m | _ => None end.

Definition GetNetwork `{BuildkitPB} : State → cells → option Z * cells := get_as keyNetwork pb_NetMode_UNSET as_netmode.
Definition GetPlatform : State → cells → option (option Platform) * cells := get_as keyPlatform None as_platform.
Definition GetDir : State → cells → option string * cells := get_as keyDir EmptyString as_string.
Definition GetArgs : State → cells → option (list string) * cells := get_as keyArgs [] as_strings.
Definition GetEnv : State → cells → option EnvList * cells := get_as keyEnv NewEnvList as_env.
Definition GetUser : State → cells → option string * cells := get_as keyUser EmptyString as_string.
Definition GetHostname : State → cells → option string * cells := get_as keyHostname EmptyString as_string.
Definition GetExtraHosts : State → cells → option (list HostIP) * cells := get_as keyExtraHost [] as_hosts.

(** ** Transformers *)

Definition StateTransformer := State → result State.
Definition NoopTransformer : StateTransformer := Ok.

(** [ChainTransformer], and [Apply] and [ChainResolver], which do the same *)
Fixpoint ChainTransformer (c : list StateTransformer) (s : State) : result State :=
  match c with
  | [] => Ok s
  | t :: c' => match t s with Err e => Err e | Ok s => ChainTransformer c' s end
  end.

Definition PredicateTransformer (pred : State → bool) (t : StateTransformer) (s : State) : result State :=
  if pred s then t s else Ok s.

Definition OnlyScratch (s : State) : bool := bool_decide (State_Output s = None).
Definition OnlyNonScratch (s : State) : bool := negb (OnlyScratch s).

(** ** Lookup *)

Lemma getValue_here k s v cs :
  getValue k (withValue k v s) cs =
  match v with
  | LConst v => (Some (Some v), cs)
  | LAddEnv n v =>
      match getValue keyEnv s cs with
      | (Some None, cs) => (Some (Some (AnyEnv (el_Set n v NewEnvList))), cs)
      | (Some (Some (AnyEnv e)), cs) => (Some (Some (AnyEnv (el_Set n v e))), cs)
      | (_, cs) => (None, cs)
      end
  | LDir c =>
      let value := default EmptyString (cs !! c) in
      if path_IsAbs value then (Some (Some (AnyString value)), cs)
      else
        match getValue keyDir s cs with
        | (Some None, cs) => (Some (Some (AnyString (default EmptyString (cs !! c)))), cs)
        | (Some (Some (AnyString prev)), cs) =>
            let value := default EmptyString (cs !! c) in
            if decide (prev = EmptyString) then (Some (Some (AnyString value)), cs)
            else (Some (Some (AnyString (path_join [prev; value]))), <[c := path_join [prev; value]]> cs)
        | (_, cs) => (None, cs)
        end
  | LExtraHost h =>
      match getValue keyExtraHost s cs with
      | (Some None, cs) => (Some (Some (AnyHosts [h])), cs)
      | (Some (Some (AnyHosts l)), cs) => (Some (Some (AnyHosts (l ++ [h]))), cs)
      | (_, cs) => (None, cs)
      end
  | LUlimit u =>
      match getValue keyUlimit s cs with
      | (Some None, cs) => (Some (Some (AnyUlimits [u])), cs)
      | (Some (Some (AnyUlimits l)), cs) => (Some (Some (AnyUlimits (l ++ [u]))), cs)
      | (_, cs) => (None, cs)
      end
  end.
Proof. simpl. rewrite decide_True by done. by destruct v. Qed.

Lemma getValue_skip k s cs :
  st_key s ≠ Some k → getValue k s cs = match st_prev s with Some p => getValue k p cs | None => (Some None, cs) end.
Proof. destruct s as [o p k' v co]. simpl. intros Hk. by rewrite decide_False. Qed.

Lemma getValue_other k k' v s cs : k' ≠ k → getValue k (withValue k' v s) cs = getValue k s cs.
Proof. intros Hk. rewrite getValue_skip; [done |]. simpl. congruence. Qed.

(** ** Types *)

(** The values that belong under a key *)
Definition has_type (k : contextKey) (v : any) : bool :=
  match k, v with
  | keyArgs, AnyStrings _ | keyDir, AnyString _ | keyEnv, AnyEnv _ | keyExtraHost, AnyHosts _ | keyHostname, AnyString _
  | keyUlimit, AnyUlimits _ | keyUser, AnyString _ | keyCgroup, AnyString _ | keyPlatform, AnyPlatform _
  | keyNetwork, AnyNetMode _ | keySecurity, AnySecurityMode _ | keyOther _, _ => true
  | _, _ => false
  end.

Definition lazy_type (k : contextKey) (v : lazy) : bool :=
  match v with
  | LConst v => has_type k v
  | LAddEnv _ _ => bool_decide (k = keyEnv)
  | LDir _ => bool_decide (k = keyDir)
  | LExtraHost _ => bool_decide (k = keyExtraHost)
  | LUlimit _ => bool_decide (k = keyUlimit)
  end.

Fixpoint typed (s : State) : bool :=
  match s with
  | mkState _ prev key value _ =>
      match key, value with
      | Some k, Some v => lazy_type k v
      | None, None => true
      | _, _ => false
      end
      && match prev with Some p => typed p | None => true end
  end.

(** The states that a client can make, with what its own packages store; the keys of this
    package have a type that other packages cannot name. *)
Inductive built : State → Prop :=
  | built_New o : built (NewState o)
  | built_WithOutput o s : built s → built (WithOutput o s)
  | built_WithValue name v s : built s → built (WithValue (keyOther name) v s)
  | built_Defaults co s : built s → built (SetMarshalDefaults co s)
  | built_Reset other s : built other → built s → built (Reset other s)
  | built_Env k v s : built s → built (addEnv k v s)
  | built_Dir c s : built s → built (withValue keyDir (LDir c) s)
  | built_User u s : built s → built (setUser u s)
  | built_Hostname h s : built s → built (hostname h s)
  | built_Platform p s : built s → built (setPlatform p s)
  | built_Network m s : built s → built (NetworkOption m s)
  | built_Security m s : built s → built (SecurityOption m s)
  | built_Args a s : built s → built (ArgsOption a s)
  | built_Host h ip s : built s → built (ExtraHostOption h ip s)
  | built_Ulimit n x y s : built s → built (UlimitOption n x y s)
  | built_Cgroup c s : built s → built (CgroupParentOption c s).

Lemma built_typed s : built s → typed s = true.
Proof.
  induction 1; try done; try (simpl; by rewrite IHbuilt).
  - destruct s as [o p k v co']. exact IHbuilt.
Qed.

(** A typed state has a value of the key's type, or none. *)
Lemma getValue_typed k s cs :
  typed s = true → ∃ r cs', getValue k s cs = (Some r, cs') ∧ match r with Some v => has_type k v = true | None => True end.
Proof.
  revert s k cs. fix IH 1. intros [o prev key value co] k cs. cbn [typed]. intros [Ht Hp]%andb_true_iff.
  destruct (decide (key = Some k)) as [->|Hk].
  - destruct value as [v|]; [| done].
    assert (∀ k cs, ∃ r cs', match prev with Some p => getValue k p cs | None => (Some None, cs) end = (Some r, cs')
      ∧ match r with Some v => has_type k v = true | None => True end) as Hb.
    { intros k' cs'. destruct prev as [p|]; [by apply IH | by exists None, cs']. }
    clear IH. cbn [getValue]. rewrite decide_True by done. destruct v as [v|n v|c|h|u]; cbn [lazy_type] in Ht.
    + by exists (Some v), cs.
    + apply bool_decide_eq_true in Ht as ->. destruct (Hb keyEnv cs) as ([r|] & cs' & -> & Hr); [| by eexists _, _].
      destruct r; try done. by eexists _, _.
    + apply bool_decide_eq_true in Ht as ->. cbn zeta. destruct (path_IsAbs _); [by eexists _, _ |].
      destruct (Hb keyDir cs) as ([r|] & cs' & -> & Hr); [| by eexists _, _]. destruct r; try done.
      case_decide; by eexists _, _.
    + apply bool_decide_eq_true in Ht as ->. destruct (Hb keyExtraHost cs) as ([r|] & cs' & -> & Hr); [| by eexists _, _].
      destruct r; try done. by eexists _, _.
    + apply bool_decide_eq_true in Ht as ->. destruct (Hb keyUlimit cs) as ([r|] & cs' & -> & Hr); [| by eexists _, _].
      destruct r; try done. by eexists _, _.
  - rewrite getValue_skip by done. cbn [st_prev]. destruct prev as [p|]; [by apply IH | by eexists None, cs].
Qed.

Lemma get_as_typed {A} k (zero : A) assert s cs :
  (∀ v, has_type k v = true → is_Some (assert v)) → typed s = true → is_Some (get_as k zero assert s cs).1.
Proof.
  intros Ha Ht. unfold get_as. destruct (getValue_typed k s cs Ht) as ([v|] & cs' & -> & Hv); [by apply Ha | by eexists].
Qed.

(** ** Environments *)

(** The variables set on the way to a state, first to last *)
Fixpoint env_sets (s : State) : list (string * string) :=
  match s with
  | mkState _ prev key value _ =>
      match prev with Some p => env_sets p | None => [] end
      ++ match key, value with Some keyEnv, Some (LAddEnv k v) => [(k, v)] | _, _ => [] end
  end.

(** The last binding of each variable, in the order of these *)
Fixpoint last_bindings (kvs : list (string * string)) : list (string * string) :=
  match kvs with
  | [] => []
  | (k, v) :: kvs' => if decide (k ∈ fst <$> kvs') then last_bindings kvs' else (k, v) :: last_bindings kvs'
  end.

Lemma filter_fmap_key {A B} (P : B → Prop) `{∀ x, Decision (P x)} (f : A → B) (l : list A) :
  filter P (f <$> l) = f <$> filter (λ x, P (f x)) l.
Proof. induction l as [|x l IH]; [done |]. rewrite fmap_cons, !filter_cons, IH. by case_decide. Qed.

Definition env_of (kvs : list (string * string)) : EnvList := foldl (λ e kv, el_Set kv.1 kv.2 e) NewEnvList kvs.

Lemma getEnv_built s cs :
  built s → getValue keyEnv s cs = (Some (match env_sets s with [] => None | kvs => Some (AnyEnv (env_of kvs)) end), cs).
Proof.
  induction 1 as [o|o s H IH|name v s H IH|co s H IH|other s Ho IHo H IH|k v s H IH|c s H IH|u s H IH|h s H IH|p s H IH
    |m s H IH|m s H IH|a s H IH|h ip s H IH|n x y s H IH|c s H IH]; simpl; try done; rewrite ?app_nil_r; try done.
  - destruct s as [o p k v co']. exact IH.
  - rewrite IH. destruct (env_sets s) as [|kv kvs] eqn:E; simpl; [done |].
    do 3 f_equal. unfold env_of. rewrite (foldl_app _ (kv :: kvs) [(k, v)]). done.
Qed.

Lemma last_bindings_snoc kvs k v :
  last_bindings (kvs ++ [(k, v)]) = filter (λ kv, kv.1 ≠ k) (last_bindings kvs) ++ [(k, v)].
Proof.
  induction kvs as [|[k' v'] kvs IH]; simpl; [done |].
  assert (k' ∈ fst <$> kvs ++ [(k, v)] ↔ k' ∈ fst <$> kvs ∨ k' = k) as Hiff.
  { rewrite fmap_app, elem_of_app. simpl. by rewrite list_elem_of_singleton. }
  rewrite (decide_ext _ _ _ _ Hiff), IH. destruct (decide (k' ∈ fst <$> kvs)) as [Hi|Hi]; [by rewrite decide_True by auto |].
  destruct (decide (k' = k)) as [->|Hk].
  - rewrite decide_True by auto. rewrite filter_cons, decide_False by (simpl; congruence). done.
  - rewrite decide_False by naive_solver. rewrite filter_cons, decide_True by (simpl; congruence). done.
Qed.

Lemma last_bindings_keys kvs : NoDup (fst <$> last_bindings kvs) ∧ ∀ k, k ∈ fst <$> last_bindings kvs ↔ k ∈ fst <$> kvs.
Proof.
  induction kvs as [|[k v] kvs [IH1 IH2]]; simpl; [split; [constructor | done] |].
  case_decide as Hi; simpl.
  - split; [done |]. intros k'. rewrite IH2, elem_of_cons. naive_solver.
  - split; [constructor; [by rewrite IH2 | done] |]. intros k'. by rewrite !elem_of_cons, IH2.
Qed.

(** What an [EnvList] built by [Set] holds *)
Lemma env_of_spec kvs :
  el_keys (env_of kvs) = fst <$> last_bindings kvs
  ∧ (∀ k v, el_Get k (env_of kvs) = Some v ↔ (k, v) ∈ last_bindings kvs).
Proof.
  unfold env_of, el_Get. induction kvs as [|[k v] kvs [IH1 IH2]] using rev_ind.
  { split; [done |]. intros k v. simpl. rewrite lookup_empty, elem_of_nil. done. }
  rewrite foldl_snoc, last_bindings_snoc. simpl. split.
  - rewrite IH1, fmap_app. simpl. f_equal. exact (filter_fmap_key (λ k', k' ≠ k) fst (last_bindings kvs)).
  - intros k' v'. rewrite elem_of_app, list_elem_of_singleton, list_elem_of_filter. simpl.
    destruct (decide (k' = k)) as [->|Hk].
    + rewrite lookup_insert_eq. naive_solver.
    + rewrite lookup_insert_ne by done. rewrite IH2. naive_solver.
Qed.

Lemma env_of_array kvs : el_ToArray (env_of kvs) = (λ kv, kv.1 +:+ "=" +:+ kv.2) <$> last_bindings kvs.
Proof.
  destruct (env_of_spec kvs) as [Hk Hv]. unfold el_ToArray. rewrite Hk, <- list_fmap_compose.
  apply list_fmap_ext. intros i [k v] Hi. simpl. apply list_elem_of_lookup_2, Hv in Hi. unfold el_Get in Hi. by rewrite Hi.
Qed.

(** ** Directories *)

(** The captured variables of the directories of a state *)
Fixpoint dir_cells (s : State) : list nat :=
  match s with
  | mkState _ prev key value _ =>
      match prev with Some p => dir_cells p | None => [] end
      ++ match key, value with Some keyDir, Some (LDir c) => [c] | _, _ => [] end
  end.

Local Arguments path_join : simpl never.

Definition dir_step (d p : string) : string :=
  if path_IsAbs p then p else if decide (d = EmptyString) then p else path_join [d; p].

Definition dir_of (ds : list string) : string := foldl dir_step EmptyString ds.

Definition contents (cs : cells) (l : list nat) : list string := (λ c, default EmptyString (cs !! c)) <$> l.

Lemma getDir_built s cs :
  built s → NoDup (dir_cells s) → Forall (λ c, c < length cs) (dir_cells s) →
  ∃ cs', getValue keyDir s cs
         = (Some (match dir_cells s with [] => None | l => Some (AnyString (dir_of (contents cs l))) end), cs')
    ∧ length cs' = length cs ∧ (∀ c, c ∉ dir_cells s → cs' !! c = cs !! c)
    ∧ (∀ c, last (dir_cells s) = Some c → path_IsAbs (dir_of (contents cs (dir_cells s))) = true →
         cs' !! c = Some (dir_of (contents cs (dir_cells s)))).
Proof.
  induction 1 as [o|o s H IH|name v s H IH|co s H IH|other s Ho IHo H IH|k v s H IH|c s H IH|u s H IH|h s H IH|p s H IH
    |m s H IH|m s H IH|a s H IH|h ip s H IH|n x y s H IH|c s H IH].
  7: change (dir_cells (withValue keyDir (LDir c) s)) with (dir_cells s ++ [c]); rewrite getValue_here.
  all: try (match goal with |- context [LDir _] => fail 1 | |- context [_ ++ [_]] => fail 1 | _ => simpl; rewrite ?app_nil_r; try done end).
  - intros _ _. by exists cs.
  - destruct s as [o p k v co']. exact IH.
  - intros [Hn (Hc & _)]%NoDup_app Hl. apply Forall_app in Hl as [Hl Hcl]. apply Forall_cons in Hcl as [Hcl _].
    assert (c ∉ dir_cells s) as Hnc by (intros Hi; apply (Hc c Hi); by left).
    destruct (lookup_lt_is_Some_2 cs c Hcl) as [x Hx]. rewrite Hx.
    assert (match dir_cells s ++ [c] with [] => None | l => Some (AnyString (dir_of (contents cs l))) end
            = Some (AnyString (dir_of (contents cs (dir_cells s ++ [c]))))) as -> by (by destruct (dir_cells s)).
    assert (dir_of (contents cs (dir_cells s ++ [c])) = dir_step (dir_of (contents cs (dir_cells s))) x) as ->.
    { unfold dir_of, contents. rewrite fmap_app, foldl_app. simpl. by rewrite Hx. }
    unfold dir_step. cbn zeta. change (default EmptyString (Some x)) with x. destruct (path_IsAbs x) eqn:Ha.
    { exists cs. split_and!; try done. intros c' Hlast _. rewrite last_snoc in Hlast. injection Hlast as <-. by rewrite Hx. }
    destruct (IH Hn Hl) as (cs' & -> & Hlen & Hrest & Habs). rewrite Hrest, Hx by done. change (default EmptyString (Some x)) with x.
    destruct (dir_cells s) as [|c0 l] eqn:E; simpl.
    { exists cs'. split_and!; try done; [intros c' _; apply Hrest, not_elem_of_nil | intros c' _; by rewrite Ha]. }
    case_decide as He.
    + exists cs'. split_and!; try done; [intros c' Hc'; apply Hrest; set_solver |]. rewrite Ha. done.
    + eexists. split; [done |]. rewrite length_insert. split; [done |]. split.
      * intros c' Hc'. rewrite list_lookup_insert_ne by set_solver. apply Hrest. set_solver.
      * intros c' Hlast _. change (c0 :: l ++ [c]) with ((c0 :: l) ++ [c]) in Hlast. rewrite last_snoc in Hlast. injection Hlast as <-.
        rewrite list_lookup_insert_eq by lia. done.
Qed.

Lemma join_rel l m : l ≠ [] → m ≠ [] → Forall seg l → Forall seg m → path_join [rel_path l; rel_path m] = rel_path (l ++ m).
Proof.
  intros Nl Nm Sl Sm. unfold path_join. destruct l as [|x l]; [done |]. destruct m as [|y m]; [done |].
  pose proof (Forall_cons_1 _ _ _ Sl) as [Hx _]. pose proof (Forall_cons_1 _ _ _ Sm) as [Hy _].
  rewrite decide_False by (by apply rel_path_ne).
  change (str_join "/" [rel_path (x :: l); rel_path (y :: m)]) with (rel_path (x :: l) +:+ "/" +:+ rel_path (y :: m)).
  rewrite (path_clean_segs _ ((x :: l) ++ y :: m)).
  - by rewrite is_rooted_rel.
  - intros E. apply (f_equal String.length) in E. rewrite !str_length_app in E. simpl in E. lia.
  - by rewrite segs_cat, !segs_rel.
  - by apply Forall_app.
Qed.

Lemma getDir_abs c s cs x :
  cs !! c = Some x → path_IsAbs x = true → getValue keyDir (withValue keyDir (LDir c) s) cs = (Some (Some (AnyString x)), cs).
Proof. intros Hx Ha. rewrite getValue_here, Hx. cbn zeta. change (default EmptyString (Some x)) with x. by rewrite Ha. Qed.

Lemma getDir_none c s cs x :
  cs !! c = Some x → getValue keyDir s cs = (Some None, cs) →
  getValue keyDir (withValue keyDir (LDir c) s) cs = (Some (Some (AnyString x)), cs).
Proof.
  intros Hx Hs. rewrite getValue_here, Hs, Hx. cbn zeta. change (default EmptyString (Some x)) with x. by destruct (path_IsAbs x).
Qed.

Lemma getDir_below c s cs x d :
  cs !! c = Some x → path_IsAbs x = false → getValue keyDir s cs = (Some (Some (AnyString d)), cs) → d ≠ EmptyString →
  getValue keyDir (withValue keyDir (LDir c) s) cs = (Some (Some (AnyString (path_join [d; x]))), <[c := path_join [d; x]]> cs).
Proof.
  intros Hx Ha Hs Hd. rewrite getValue_here, Hs, Hx. cbn zeta. change (default EmptyString (Some x)) with x. by rewrite Ha, decide_False.
Qed.

Lemma not_abs_rel x l : seg x → path_IsAbs (rel_path (x :: l)) = false.
Proof. intros Hx. unfold path_IsAbs. rewrite <- (str_app_nil_r (rel_path (x :: l))). by apply is_rooted_rel. Qed.

(** The store after [n] evaluations of the directory *)
Definition after_dirs (s : State) (n : nat) (cs : cells) : cells := Nat.iter n (λ cs, (GetDir s cs).2) cs.

Lemma GetDir_cells s cs :
  built s → NoDup (dir_cells s) → Forall (λ c, c < length cs) (dir_cells s) →
  let d := dir_of (contents cs (dir_cells s)) in
  let cs' := (GetDir s cs).2 in
  (GetDir s cs).1 = Some d ∧ length cs' = length cs ∧ (path_IsAbs d = true → dir_of (contents cs' (dir_cells s)) = d).
Proof.
  intros Hb Hn Hl. destruct (getDir_built s cs Hb Hn Hl) as (cs' & E & Hlen & Hrest & Habs). unfold GetDir, get_as. rewrite E.
  destruct (dir_cells s) as [|c l _] eqn:Hd using rev_ind; [done |].
  assert (match l ++ [c] with [] => None | l => Some (AnyString (dir_of (contents cs l))) end
          = Some (AnyString (dir_of (contents cs (l ++ [c]))))) as -> by (by destruct l).
  cbn [fst snd as_string]. split_and!; [done.. |]. intros Ha.
  pose proof (Habs c (last_snoc _ _) Ha) as Hc. unfold contents at 1. rewrite fmap_app. unfold dir_of at 1. rewrite foldl_app.
  simpl. rewrite Hc. simpl. unfold dir_step at 1. by rewrite Ha.
Qed.

(** ** Properties *)

(** C39: The type assertions of the getters never fail.  Whatever states a client builds, the
    value under each key of the package has the type that its getter asserts, in every store,
    so that [GetDir], [GetEnv], [GetArgs] and the others return a value. *)
Theorem getters_total `{BuildkitPB} s cs :
  built s →
  typed s = true
  ∧ (∀ k, ∃ r, (getValue k s cs).1 = Some r ∧ match r with Some v => has_type k v = true | None => True end)
  ∧ is_Some (GetNetwork s cs).1 ∧ is_Some (GetPlatform s cs).1 ∧ is_Some (GetDir s cs).1 ∧ is_Some (GetArgs s cs).1
  ∧ is_Some (GetEnv s cs).1 ∧ is_Some (GetUser s cs).1 ∧ is_Some (GetHostname s cs).1 ∧ is_Some (GetExtraHosts s cs).1.
Proof.
  intros Hb%built_typed. split_and!; try done.
  1: intros k; destruct (getValue_typed k s cs Hb) as (r & cs' & -> & Hr); by exists r.
  all: apply get_as_typed; [intros [] Hv; try discriminate Hv; by eexists | done].
Qed.

(** The environment of a state is the last value of each variable set on the way to it, the
    variables in the order in which they were last set; evaluating it changes nothing. *)
Theorem GetEnv_last_bindings s cs :
  built s →
  ∃ e, GetEnv s cs = (Some e, cs)
    ∧ el_ToArray e = (λ kv, kv.1 +:+ "=" +:+ kv.2) <$> last_bindings (env_sets s)
    ∧ (∀ k v, el_Get k e = Some v ↔ (k, v) ∈ last_bindings (env_sets s))
    ∧ NoDup (fst <$> last_bindings (env_sets s))
    ∧ (∀ k v, env_sets (addEnv k v s) = env_sets s ++ [(k, v)]).
Proof.
  intros Hb. exists (env_of (env_sets s)). split_and!.
  - unfold GetEnv, get_as. rewrite getEnv_built by done. by destruct (env_sets s).
  - apply env_of_array.
  - apply env_of_spec.
  - apply last_bindings_keys.
  - done.
Qed.

(** The directory of a state whose [Dir] options were each made for it is the join of their
    paths, from the last absolute one on.  When it is absolute, every later evaluation finds
    the same one. *)
Theorem GetDir_joins s cs :
  built s → NoDup (dir_cells s) → Forall (λ c, c < length cs) (dir_cells s) →
  let d := dir_of (contents cs (dir_cells s)) in
  (GetDir s cs).1 = Some d ∧ (path_IsAbs d = true → ∀ n, (GetDir s (after_dirs s n cs)).1 = Some d).
Proof.
  intros Hb Hn Hl d. split; [by apply GetDir_cells |]. intros Ha n.
  assert (∀ n, length (after_dirs s n cs) = length cs ∧ dir_of (contents (after_dirs s n cs) (dir_cells s)) = d) as Hinv.
  { clear n. induction n as [|n [IH1 IH2]]; [done |].
    destruct (GetDir_cells s (after_dirs s n cs) Hb Hn) as (_ & H2 & H3); [by rewrite IH1 |].
    change (after_dirs s (S n) cs) with ((GetDir s (after_dirs s n cs)).2). rewrite H2, IH1. split; [done |].
    rewrite IH2 in H3. by apply H3. }
  destruct (Hinv n) as [H1 H2].
  destruct (GetDir_cells s (after_dirs s n cs) Hb Hn) as (-> & _); [by rewrite H1 | by rewrite H2].
Qed.

(** The variable that a [Dir] option captures is assigned when it is evaluated, so that a
    relative directory grows: after [Dir("a")] and [Dir("b")] the first evaluation gives
    [a/b], the next one [a/a/b], and so on.  An option that two states share gives the second
    one the directory of the first. *)
Theorem Dir_accumulates a b p q :
  seg a → seg b → Forall seg p → Forall seg q →
  (let '(s, cs) := State_Dir a Scratch [] in
   let '(s, cs) := State_Dir b s cs in
   ∀ n, (GetDir s (after_dirs s n cs)).1 = Some (rel_path (replicate (S n) a ++ [b])))
  ∧ (let '(s1, cs) := State_Dir (abs_path p) Scratch [] in
     let '(s2, cs) := State_Dir (abs_path q) Scratch cs in
     let '(o, cs) := dir b cs in
     let '(d, cs) := GetDir (o s1) cs in
     d = Some (abs_path (p ++ [b])) ∧ (GetDir (o s2) cs).1 = Some (abs_path (p ++ [b]))).
Proof.
  intros Ha Hb Hp Hq. split.
  - set (s := withValue keyDir (LDir 1) (withValue keyDir (LDir 0) Scratch)).
    change (∀ n, (GetDir s (after_dirs s n [a; b])).1 = Some (rel_path (replicate (S n) a ++ [b]))).
    assert (∀ l, Forall seg l → l ≠ [] → GetDir s [a; rel_path l] = (Some (rel_path (a :: l)), [a; rel_path (a :: l)])) as Hstep.
    { intros l Sl Nl. destruct l as [|x l]; [done |]. pose proof (Forall_cons_1 _ _ _ Sl) as [Hx _].
      unfold GetDir, get_as, s. rewrite (getDir_below 1 _ _ (rel_path (x :: l)) a); [| done | by apply not_abs_rel | by apply getDir_none | apply Ha].
      change a with (rel_path [a]) at 1 2. rewrite join_rel by (done || by constructor). done. }
    assert (∀ n, after_dirs s n [a; b] = [a; rel_path (replicate n a ++ [b])]) as Hn.
    { induction n as [|n IH]; [done |].
      change (after_dirs s (S n) [a; b]) with ((GetDir s (after_dirs s n [a; b])).2). rewrite IH, Hstep; [done | | by destruct n].
      apply Forall_app. split; [by apply Forall_replicate | by constructor]. }
    intros n. rewrite Hn, Hstep; [done | | by destruct n].
    apply Forall_app. split; [by apply Forall_replicate | by constructor].
  - set (s1 := withValue keyDir (LDir 0) Scratch). set (s2 := withValue keyDir (LDir 1) Scratch).
    change (let '(d, cs) := GetDir (withValue keyDir (LDir 2) s1) [abs_path p; abs_path q; b] in
            d = Some (abs_path (p ++ [b])) ∧ (GetDir (withValue keyDir (LDir 2) s2) cs).1 = Some (abs_path (p ++ [b]))).
    assert (∀ l, path_IsAbs (abs_path l) = true) as Habs by apply is_rooted_abs_path.
    unfold GetDir, get_as. rewrite (getDir_below 2 _ _ b (abs_path p)); [| done | by apply (not_abs_rel b []) | by apply getDir_abs | done].
    assert (path_join [abs_path p; b] = abs_path (p ++ [b])) as -> by (apply (join_abs_rel p [b]); [done | done | by constructor]).
    split; [done |].
    by rewrite (getDir_abs 2 _ _ (abs_path (p ++ [b]))).
Qed.

(** A value set under a key is read back, whatever was there before, and no other key of the
    state is affected; replacing the output keeps all of them, and [Reset] gives the ones of
    the other state.  The defaults of a state are lost by each of these, so that only the ones
    that [SetMarshalDefaults] set last count. *)
Theorem state_lookup s cs k v :
  getValue k (WithValue k v s) cs = (Some (Some v), cs)
  ∧ (∀ k' l, k' ≠ k → getValue k (withValue k' l s) cs = getValue k s cs)
  ∧ (∀ o, getValue k (WithOutput o s) cs = getValue k s cs)
  ∧ (∀ other, getValue k (Reset other s) cs = getValue k other cs ∧ State_Output (Reset other s) = State_Output s)
  ∧ (∀ co, getValue k (SetMarshalDefaults co s) cs = getValue k s cs)
  ∧ (∀ l o other, st_opts (withValue k l s) = [] ∧ st_opts (WithOutput o s) = [] ∧ st_opts (Reset other s) = []).
Proof.
  split_and!.
  - unfold WithValue. by rewrite getValue_here.
  - intros k' l Hk. by apply getValue_other.
  - intros o. by rewrite getValue_skip.
  - intros other. by rewrite getValue_skip.
  - intros co. by destruct s.
  - done.
Qed.

(** ** Witnesses *)

Section sample.
Let base : State := ArgsOption ["make"] (addEnv "B" "2" (addEnv "A" "1" (addEnv "B" "1" (NewState (Some (OutVertex 0 (IndexConst 0))))))).
Definition sample_state : State := (State_Dir "src" (State_Dir "/work" base []).1 ["/work"]).1.
Definition sample_cells : cells := ["/work"; "src"].
End sample.

Lemma sample_built : built sample_state.
Proof. unfold sample_state. cbn. repeat constructor. Defined.

#[local] Instance sample_pb : BuildkitPB :=
  {| pb_Empty := -1; pb_SkipOutput := -1; pb_LLBBuilder := -1; pb_RootMount := "/"; pb_LLBDefinitionInput := "def"; pb_NetMode_UNSET := 0;
     pb_Cap := λ s, s; pb_Attr := λ s, s; defaultPlatformSpec := mkPlatform "linux" "amd64" EmptyString EmptyString [] |}.

Lemma getters_total_witness :
  is_Some (GetDir sample_state sample_cells).1 ∧ (GetArgs sample_state sample_cells).1 = Some ["make"].
Proof.
  destruct (getters_total sample_state sample_cells sample_built) as (_ & _ & _ & _ & H & _).
  split; [exact H | reflexivity].
Defined.

Lemma GetEnv_last_bindings_witness : ∃ e, GetEnv sample_state sample_cells = (Some e, sample_cells) ∧ el_ToArray e = ["A=1"; "B=2"].
Proof.
  destruct (GetEnv_last_bindings sample_state sample_cells sample_built) as (e & H1 & H2 & _).
  exists e. split; [exact H1 | rewrite H2; vm_compute; reflexivity].
Defined.

Lemma GetDir_joins_witness : ∀ n, (GetDir sample_state (after_dirs sample_state n sample_cells)).1 = Some "/work/src".
Proof.
  destruct (GetDir_joins sample_state sample_cells sample_built) as [_ H].
  - apply (bool_decide_unpack _). vm_compute. exact I.
  - apply (bool_decide_unpack _). vm_compute. exact I.
  - exact (H eq_refl).
Defined.

Lemma Dir_accumulates_witness :
  let '(s, cs) := State_Dir "a" Scratch [] in
  let '(s, cs) := State_Dir "b" s cs in
  (GetDir s (after_dirs s 1 cs)).1 = Some "a/a/b".
Proof.
  destruct (Dir_accumulates "a" "b" ["x"] ["y"]) as [H _].
  - apply (bool_decide_unpack _). vm_compute. exact I.
  - apply (bool_decide_unpack _). vm_compute. exact I.
  - apply (bool_decide_unpack _). vm_compute. exact I.
  - apply (bool_decide_unpack _). vm_compute. exact I.
  - exact (H 1).
Defined.
