(* ===== verification/LbGraph.v ===== *)
(** * LbGraph: traversals of an LLB graph

    Models the interfaces [Vertex] and [Output] of [src/client/llb/output.go], the traversals
    [Walk] of [visitor.go] and [marshalVertex] of [state.go], and the visitors.  The traversals
    are written and proved against the class [LLBGraph], which has the methods of the two
    interfaces, and its laws [LLBGraphLaws]; [LbOps] gives the instance and [LbLaws] shows
    that it is lawful. *)
From S2P Require Import Prelude GoStd LbTypes.

(** ** Calls *)

(** A call reads and changes the objects of the program, of type [Σ]; [None] is a panic, or a
    call that does not return. *)
Definition M (Σ A : Type) : Type := Σ → option (A * Σ).

Definition retM {Σ A} (a : A) : M Σ A := λ σ, Some (a, σ).
Definition panicM {Σ A} : M Σ A := λ _, None.
Definition bindM {Σ A B} (m : M Σ A) (f : A → M Σ B) : M Σ B :=
  λ σ, match m σ with None => None | Some (a, σ) => f a σ end.

(** [if err != nil { return err }] *)
Definition bindR {Σ A B} (m : M Σ (result A)) (f : A → M Σ (result B)) : M Σ (result B) :=
  bindM m (λ r, match r with Err e => retM (Err e) | Ok a => f a end).

Notation "'let*' x := m 'in' k" := (bindM m (λ x, k)) (at level 200, x name, k at level 200, right associativity) : go_scope.
Notation "'let?' x := m 'in' k" := (bindR m (λ x, k)) (at level 200, x name, k at level 200, right associativity) : go_scope.
#[local] Open Scope go_scope.

(** A loop over a list that ends at the first error *)
Fixpoint eachM {Σ A B} (f : A → B → M Σ (result B)) (l : list A) (b : B) : M Σ (result B) :=
  match l with
  | [] => retM (Ok b)
  | a :: l' => let? b := f a b in eachM f l' b
  end.

(** The same for a call that returns an error besides the rest *)
Fixpoint eachE {Σ A B} (f : A → B → M Σ (option error * B)) (l : list A) (b : B) : M Σ (option error * B) :=
  match l with
  | [] => retM (None, b)
  | a :: l' => let* r := f a b in match r with (Some e, b) => retM (Some e, b) | (None, b) => eachE f l' b end
  end.

(** ** Interfaces *)

(** A [*Constraints]: its address, which is the key of the caches, and what it points to *)
Definition cptr : Type := nat * Constraints.

(** What [Vertex.Marshal] returns *)
Record marshalled := mkMarshalled {
  mr_digest : string;
  mr_dt : list byte;
  mr_md : option pbOpMetadata;
  mr_srcs : list SourceLocation;
}.

(** [V] and [O] are the [Vertex] and [Output] values, [Σ] the objects behind them.  A nil
    [Vertex], [Output] or [*pb.Input] is [None]. *)
Class LLBGraph (V O Σ : Type) := {
  out_Vertex : O → cptr → M Σ (option V);
  out_ToInput : O → cptr → M Σ (result (option Input));
  v_Inputs : V → M Σ (list (option O));
  v_Marshal : V → cptr → M Σ (result marshalled);
}.

(** ** Traversals *)

Section traversals.
Context {V O Σ : Type} `{Countable V} `{LLBGraph V O Σ}.

(** A [VertexVisitor], with the state it keeps *)
Definition Visitor (S : Type) : Type := V → nat → S → option error * S.

Fixpoint walk {S} (fuel : nat) (visitor : Visitor S) (c : cptr) (out : option O) (depth : nat) (vs : gset V * S) : M Σ (option error * (gset V * S)) :=
  match fuel with
  | 0 => panicM
  | Datatypes.S fuel =>
      match out with
      | None => retM (None, vs)
      | Some o =>
          let* v := out_Vertex o c in
          match v with
          | None => retM (None, vs)
          | Some v =>
              let '(visited, s) := vs in
              if decide (v ∈ visited) then retM (None, vs)
              else
                let* inputs := v_Inputs v in
                let* r := eachE (λ inp, walk fuel visitor c inp (depth + 1)) inputs ({[v]} ∪ visited, s) in
                match r with
                | (Some e, vs) => retM (Some e, vs)
                | (None, (visited, s)) => let '(e, s) := visitor v depth s in retM (e, (visited, s))
                end
          end
      end
  end.

(** [None] is a nil visitor. *)
Definition Walk {S} (fuel : nat) (out : option O) (visitor : option (Visitor S)) (c : cptr) (s : S) : M Σ (option error * S) :=
  match out, visitor with
  | Some _, Some visitor => let* r := walk fuel visitor c out 0 (∅, s) in retM (r.1, r.2.2)
  | _, _ => retM (None, s)
  end.

(** The [def], [digestCache] and [vertexCache] of [marshalVertex], and what it gave to the
    collector of source maps *)
Record mstate := mkMState {
  ms_def : list (list byte);
  ms_metadata : gmap string OpMetadata;
  ms_srcs : list (string * list SourceLocation);
  ms_digests : gset string;
  ms_vertices : gset V;
}.

(** The end of [marshalVertex], with what [v.Marshal] returned.  A nil slice of locations is an
    empty one. *)
Definition emit (m : marshalled) (ms : mstate) : mstate :=
  let srcs := match mr_srcs m with [] => ms_srcs ms | srcs => ms_srcs ms ++ [(mr_digest m, srcs)] end in
  if decide (mr_digest m ∈ ms_digests ms) then mkMState (ms_def ms) (ms_metadata ms) srcs (ms_digests ms) (ms_vertices ms)
  else
    mkMState (ms_def ms ++ [mr_dt m])
      (match mr_md m with Some md => <[mr_digest m := NewOpMetadata md]> (ms_metadata ms) | None => ms_metadata ms end)
      srcs ({[mr_digest m]} ∪ ms_digests ms) (ms_vertices ms).

Definition enter (v : V) (ms : mstate) : mstate :=
  mkMState (ms_def ms) (ms_metadata ms) (ms_srcs ms) (ms_digests ms) ({[v]} ∪ ms_vertices ms).

Fixpoint marshalVertex (fuel : nat) (c : cptr) (v : V) (ms : mstate) : M Σ (result mstate) :=
  match fuel with
  | 0 => panicM
  | Datatypes.S fuel =>
      if decide (v ∈ ms_vertices ms) then retM (Ok ms)
      else
        let* inputs := v_Inputs v in
        let? ms :=
          eachM (λ inp ms,
            match inp with
            | None => retM (Ok ms)
            | Some o =>
                let* iv := out_Vertex o c in
                match iv with None => retM (Ok ms) | Some iv => marshalVertex fuel c iv ms end
            end) inputs (enter v ms) in
        let? m := v_Marshal v c in
        retM (Ok (emit m ms))
  end.

Definition ms_empty : mstate := mkMState [] ∅ [] ∅ ∅.
End traversals.
Arguments mstate V {_ _}.

(** ** Visitors *)

Section visitors.
Context {V : Type}.

Definition NoopVisitor {S} : V → nat → S → option error * S := λ _ _ s, (None, s).

Fixpoint ChainVisitor {S} (c : list (V → nat → S → option error * S)) (v : V) (depth : nat) (s : S) : option error * S :=
  match c with
  | [] => (None, s)
  | vis :: c' => match vis v depth s with (Some e, s) => (Some e, s) | (None, s) => ChainVisitor c' v depth s end
  end.

(** [joinErrors]: one error is returned itself. *)
Definition llb_joinErrors (errs : list error) : option error :=
  match errs with [] => None | [e] => Some e | _ => Some (EJoin errs) end.

Definition MultiVisitor {S} (m : list (V → nat → S → option error * S)) (v : V) (depth : nat) (s : S) : option error * S :=
  let '(errs, s) := foldl (λ '(errs, s) vis, match vis v depth s with (Some e, s) => (errs ++ [e], s) | (None, s) => (errs, s) end) ([], s) m in
  (llb_joinErrors errs, s).

Definition PredicateVisitor {S} (pred : V → bool) (vis : V → nat → S → option error * S) (v : V) (depth : nat) (s : S) : option error * S :=
  if pred v then vis v depth s else (None, s).

(** [AtMaxDepth(max)], whose check is said to be in [Walk] *)
Definition AtMaxDepth (max : nat) (v : V) : bool := true.

Definition CountingVisitor (v : V) (depth : nat) (count : nat) : option error * nat := (None, count + 1).
End visitors.

(** ** Laws *)

(** What a graph promises under constraints [c]: the calls return, whatever was called before;
    they only add objects and edges, and no edge to a vertex whose [Inputs] were called; the
    edges lead down; a vertex that was marshalled stays as it was, and the inputs of its
    operation are operations below it, when these were marshalled.

    [gl_final σ v] says that the edges of [v] are all there, and [gl_fixed σ v m] that [v] was
    marshalled, with the result [m]. *)
Class LLBGraphLaws {V O Σ : Type} `{LLBGraph V O Σ} `{OpCodec} (c : cptr) := {
  gl_inv : Σ → Prop;
  gl_le : Σ → Σ → Prop;
  gl_ok : Σ → V → Prop;
  gl_out : Σ → O → Prop;
  gl_vertex : O → option V;
  gl_edge : Σ → V → V → Prop;
  gl_final : Σ → V → Prop;
  gl_rank : Σ → V → nat;
  gl_fixed : Σ → V → marshalled → Prop;
  #[global] gl_le_preorder :: PreOrder gl_le;
  gl_ok_le σ σ' v : gl_le σ σ' → gl_ok σ v → gl_ok σ' v ∧ gl_rank σ' v = gl_rank σ v;
  gl_out_le σ σ' o : gl_le σ σ' → gl_out σ o → gl_out σ' o;
  gl_edge_le σ σ' v w : gl_le σ σ' → gl_edge σ v w → gl_edge σ' v w;
  gl_final_le σ σ' v : gl_le σ σ' → gl_final σ v → gl_final σ' v ∧ ∀ w, gl_edge σ' v w → gl_edge σ v w;
  gl_fixed_le σ σ' v m : gl_le σ σ' → gl_fixed σ v m → gl_fixed σ' v m;
  gl_fixed_eq σ v m m' : gl_fixed σ v m → gl_fixed σ v m' → m = m';
  gl_edge_ok σ v w : gl_inv σ → gl_ok σ v → gl_edge σ v w → gl_ok σ w ∧ gl_rank σ w < gl_rank σ v;
  gl_Vertex σ o : gl_inv σ → gl_out σ o → ∃ σ', out_Vertex o c σ = Some (gl_vertex o, σ') ∧ gl_inv σ' ∧ gl_le σ σ';
  gl_Inputs σ v : gl_inv σ → gl_ok σ v →
    ∃ l σ', v_Inputs v σ = Some (l, σ') ∧ gl_inv σ' ∧ gl_le σ σ' ∧ gl_final σ' v
      ∧ (∀ o, Some o ∈ l → gl_out σ' o) ∧ (∀ w, gl_edge σ' v w ↔ ∃ o, Some o ∈ l ∧ gl_vertex o = Some w);
  gl_Marshal σ v : gl_inv σ → gl_ok σ v →
    ∃ r σ', v_Marshal v c σ = Some (r, σ') ∧ gl_inv σ' ∧ gl_le σ σ' ∧ (∀ m, r = Ok m → gl_fixed σ' v m);
  gl_fixed_op σ v m : gl_inv σ → gl_ok σ v →
    (∀ w, rtc (gl_edge σ) v w → gl_final σ w) → (∀ w, tc (gl_edge σ) v w → ∃ m, gl_fixed σ w m) → gl_fixed σ v m →
    mr_digest m = digest_FromBytes (mr_dt m)
    ∧ ∃ op, op_UnmarshalVT (mr_dt m) = Ok op
      ∧ ∀ i, i ∈ op_Inputs op → ∃ w m', tc (gl_edge σ) v w ∧ gl_fixed σ w m' ∧ mr_digest m' = in_Digest i;
}.

(** ** Marshalling *)

(** Each operation comes after the ones it has as inputs. *)
Definition topological `{OpCodec} (def : list (list byte)) : Prop :=
  ∀ pre dt post, def = pre ++ dt :: post →
    ∃ op, op_UnmarshalVT dt = Ok op ∧ ∀ i, i ∈ op_Inputs op → in_Digest i ∈ digest_FromBytes <$> pre.

Lemma topological_snoc `{OpCodec} def dt op :
  topological def → op_UnmarshalVT dt = Ok op → (∀ i, i ∈ op_Inputs op → in_Digest i ∈ digest_FromBytes <$> def) →
  topological (def ++ [dt]).
Proof.
  intros Ht Hop Hi pre dt' post E. destruct post as [|x post _] using rev_ind.
  - apply app_inj_tail in E as [-> ->]. by exists op.
  - rewrite app_comm_cons, app_assoc in E. apply app_inj_tail in E as [E _]. by apply (Ht pre dt' post).
Qed.

Section marshal.
Context {V O Σ : Type} `{Countable V, !LLBGraph V O Σ, OpCodec} (c : cptr) `{!LLBGraphLaws (V := V) c}.
Implicit Types (v w : V) (σ : Σ) (A D : gset V) (ms : mstate V).

(** The vertices of [A] are being marshalled, and the ones of [D] are finished. *)
Record Good σ A D ms : Prop := {
  g_vertices : ms_vertices ms = A ∪ D;
  g_final : ∀ v, v ∈ D → gl_final σ v;
  g_closed : ∀ v w, v ∈ D → gl_edge σ v w → w ∈ D;
  g_done : ∀ v, v ∈ D → ∃ m, gl_fixed σ v m ∧ mr_digest m ∈ ms_digests ms ∧ (mr_srcs m = [] ∨ (mr_digest m, mr_srcs m) ∈ ms_srcs ms);
  g_digests : ∀ d, d ∈ ms_digests ms ↔ d ∈ digest_FromBytes <$> ms_def ms;
  g_nodup : NoDup (digest_FromBytes <$> ms_def ms);
  g_topological : topological (ms_def ms);
  g_from : ∀ dt, dt ∈ ms_def ms → ∃ v m, v ∈ D ∧ gl_fixed σ v m ∧ mr_dt m = dt
    ∧ ms_metadata ms !! digest_FromBytes dt = NewOpMetadata <$> mr_md m;
  g_metadata : ∀ d, d ∉ ms_digests ms → ms_metadata ms !! d = None;
  g_srcs : ∀ d l, (d, l) ∈ ms_srcs ms → ∃ v m, v ∈ D ∧ gl_fixed σ v m ∧ mr_digest m = d ∧ mr_srcs m = l;
}.

Lemma good_empty σ : Good σ ∅ ∅ ms_empty.
Proof.
  split; simpl; try done; try set_solver.
  - constructor.
  - intros pre dt post E. by destruct pre.
Qed.

Lemma good_le σ σ' A D ms : gl_le σ σ' → Good σ A D ms → Good σ' A D ms.
Proof.
  intros Hle [H1 Hf H2 H3 H4 H5 H6 H7 H8 H9]. split; try done.
  - intros v Hv. by apply (gl_final_le σ σ' v Hle), Hf.
  - intros v w Hv Hw. apply (H2 v); [done |]. by apply (gl_final_le σ σ' v Hle (Hf v Hv)).
  - intros v (m & Hm & Hrest)%H3. exists m. split; [by apply (gl_fixed_le σ) | done].
  - intros dt (v & m & Hv & Hm & Hrest)%H7. exists v, m. split_and!; [done | by apply (gl_fixed_le σ) | apply Hrest..].
  - intros d l (v & m & Hv & Hm & Hrest)%H9. exists v, m. split_and!; [done | by apply (gl_fixed_le σ) | apply Hrest..].
Qed.

Lemma good_enter σ A D ms v : Good σ A D ms → Good σ ({[v]} ∪ A) D (enter v ms).
Proof. intros [H1 Hf H2 H3 H4 H5 H6 H7 H8 H9]. split; try done. simpl. rewrite H1. set_solver. Qed.

Lemma good_tc σ A D ms v w : Good σ A D ms → (∀ w, gl_edge σ v w → w ∈ D) → tc (gl_edge σ) v w → w ∈ D.
Proof.
  intros Hg Hv Ht. induction Ht as [v w E|v x w E Ht IH]; [by apply Hv |].
  apply IH. intros y Hy. apply (g_closed _ _ _ _ Hg x); [by apply Hv | done].
Qed.

(** The vertex is finished by [emit], once the vertices below it are. *)
Lemma good_emit σ A D ms v m :
  gl_inv σ → gl_ok σ v → gl_final σ v → Good σ ({[v]} ∪ A) D ms → gl_fixed σ v m → (∀ w, gl_edge σ v w → w ∈ D) →
  Good σ A ({[v]} ∪ D) (emit m ms).
Proof.
  intros Hinv Hok Hfin Hg Hm Hv. pose proof Hg as [H1 Hf H2 H3 H4 H5 H6 H7 H8 H9].
  destruct (gl_fixed_op σ v m Hinv Hok) as [Hd (op & Hop & Hin)]; [| | done |].
  { intros w Hr. apply rtc_tc in Hr as [<-|Hr]; [done |]. by apply Hf, (good_tc σ ({[v]} ∪ A) D ms v). }
  { intros w Hw%(good_tc σ ({[v]} ∪ A) D ms v); [| done | done]. destruct (H3 w Hw) as (m' & Hm' & _). by exists m'. }
  set (srcs := match mr_srcs m with [] => ms_srcs ms | l => ms_srcs ms ++ [(mr_digest m, l)] end).
  assert (∀ x, x ∈ ms_srcs ms → x ∈ srcs) as Hsub by (intros x Hx; unfold srcs; destruct (mr_srcs m); set_solver).
  assert (mr_srcs m = [] ∨ (mr_digest m, mr_srcs m) ∈ srcs) as Hms by (unfold srcs; destruct (mr_srcs m); [by left | right; set_solver]).
  assert (∀ d l, (d, l) ∈ srcs → ∃ w m', w ∈ {[v]} ∪ D ∧ gl_fixed σ w m' ∧ mr_digest m' = d ∧ mr_srcs m' = l) as Hfrom.
  { intros d l Hl. assert ((d, l) ∈ ms_srcs ms ∨ (d = mr_digest m ∧ l = mr_srcs m)) as [Hl'|[-> ->]].
    { unfold srcs in Hl. destruct (mr_srcs m); [by left |]. apply elem_of_app in Hl as [Hl|Hl]; [by left | right; set_solver]. }
    - destruct (H9 d l Hl') as (w & m' & Hw & Hrest). exists w, m'. set_solver.
    - exists v, m. set_solver. }
  assert (∀ i, i ∈ op_Inputs op → in_Digest i ∈ digest_FromBytes <$> ms_def ms) as Hini.
  { intros i (w & m' & Hw & Hm' & <-)%Hin. apply H4.
    destruct (H3 w (good_tc σ _ D ms v w Hg Hv Hw)) as (m'' & Hm'' & Hdg & _). by rewrite (gl_fixed_eq σ w m' m''). }
  assert (∀ x, x ∈ {[v]} ∪ D → gl_final σ x) as Hfinal by set_solver.
  assert (∀ x y, x ∈ {[v]} ∪ D → gl_edge σ x y → y ∈ {[v]} ∪ D) as Hclosed.
  { intros x y Hx E. destruct (decide (x = v)) as [->|]; [apply Hv in E; set_solver |]. apply elem_of_union_r, (H2 x); set_solver. }
  assert (∀ ds, ms_digests ms ⊆ ds → mr_digest m ∈ ds → ∀ x, x ∈ {[v]} ∪ D →
    ∃ m, gl_fixed σ x m ∧ mr_digest m ∈ ds ∧ (mr_srcs m = [] ∨ (mr_digest m, mr_srcs m) ∈ srcs)) as Hdone.
  { intros ds Hds Hmds x Hx. destruct (decide (x = v)) as [->|]; [by exists m |].
    destruct (H3 x) as (m' & ? & ? & Hs); [set_solver |]. exists m'. split_and!; [done | by apply Hds | naive_solver]. }
  unfold emit. fold srcs. case_decide as Hdec; split; simpl; try done.
  - rewrite H1. set_solver.
  - by apply Hdone.
  - intros dt Hdt. destruct (H7 dt Hdt) as (w & m' & Hw & Hrest). exists w, m'. set_solver.
  - rewrite H1. set_solver.
  - apply Hdone; set_solver.
  - intros d. rewrite fmap_app, elem_of_app, elem_of_union, <- H4. simpl. rewrite <- Hd. set_solver.
  - rewrite fmap_app. apply NoDup_app. simpl. rewrite <- Hd. split_and!; [done | | apply NoDup_singleton].
    intros x Hx%H4 ->%list_elem_of_singleton. done.
  - by apply (topological_snoc _ _ op).
  - intros dt [Hdt| ->%list_elem_of_singleton]%elem_of_app.
    + destruct (H7 dt Hdt) as (w & m' & Hw & Hm' & Hdt' & Hmd). exists w, m'. split_and!; [set_solver | done..|].
      destruct (mr_md m); [| done]. rewrite lookup_insert_ne; [done |]. intros E. apply Hdec, H4. rewrite E. set_solver.
    + exists v, m. split_and!; [set_solver | done..|]. rewrite <- Hd. destruct (mr_md m); simpl; [by rewrite lookup_insert_eq | by apply H8].
  - intros d Hd'. destruct (mr_md m); [rewrite lookup_insert_ne by set_solver |]; apply H8; set_solver.
Qed.

(** The vertices of [A] are above the ones that [v] reaches. *)
Definition below (n : nat) σ v A : Prop :=
  gl_ok σ v ∧ gl_rank σ v ≤ n ∧ ∀ w, w ∈ A → gl_ok σ w ∧ gl_rank σ v ≤ gl_rank σ w.

Lemma below_le n σ σ' v A : gl_le σ σ' → below n σ v A → below n σ' v A.
Proof.
  intros Hle (Hok & Hn & HA). destruct (gl_ok_le σ σ' v Hle Hok) as [Hok' Hr]. split_and!; [done | lia |].
  intros w Hw. destruct (HA w Hw) as [Hokw Hrw]. destruct (gl_ok_le σ σ' w Hle Hokw). split; [done | lia].
Qed.

(** The edges of [v] go to the vertices of these outputs, and maybe others. *)
Definition inputs_at σ v (l : list (option O)) : Prop :=
  ∀ o, Some o ∈ l → gl_out σ o ∧ ∀ w, gl_vertex o = Some w → gl_edge σ v w.

Lemma inputs_at_le σ σ' v l : gl_le σ σ' → inputs_at σ v l → inputs_at σ' v l.
Proof.
  intros Hle Hl o Ho. destruct (Hl o Ho) as [Hout He]. split; [by apply (gl_out_le σ) |]. intros w Hw. by apply (gl_edge_le σ), He.
Qed.

Lemma rtc_le σ σ' v w : gl_le σ σ' → rtc (gl_edge σ) v w → rtc (gl_edge σ') v w.
Proof. intros Hle. apply rtc_subrel. intros x y. by apply gl_edge_le. Qed.

Lemma tc_le σ σ' v w : gl_le σ σ' → tc (gl_edge σ) v w → tc (gl_edge σ') v w.
Proof. intros Hle. induction 1; [by apply tc_once, (gl_edge_le σ) | eapply tc_l; [by apply (gl_edge_le σ) | done]]. Qed.

(** What a call that marshals gives: the vertices [X] are finished, and what is finished is
    reachable, or some vertex below failed. *)
Definition progress (R X : V → Prop) A D (r : result (mstate V)) σ : Prop :=
  match r with
  | Ok ms => ∃ D', Good σ A D' ms ∧ D ⊆ D' ∧ (∀ w, X w → w ∈ D') ∧ ∀ w, w ∈ D' → w ∈ D ∨ R w
  | Err e => ∃ w σ1 σ2, R w ∧ gl_inv σ1 ∧ gl_le σ1 σ ∧ v_Marshal w c σ1 = Some (Err e, σ2)
  end.

Definition marshal_ok (n : nat) : Prop :=
  ∀ v ms σ A D, gl_rank σ v < n → gl_inv σ → gl_ok σ v → Good σ A D ms → (∀ w, w ∈ A → gl_ok σ w ∧ gl_rank σ v < gl_rank σ w) →
    ∃ r σ', marshalVertex n c v ms σ = Some (r, σ') ∧ gl_inv σ' ∧ gl_le σ σ' ∧ progress (rtc (gl_edge σ') v) (eq v) A D r σ'.

(** The body of the loop over the inputs *)
Definition marshal_input (n : nat) (inp : option O) (ms : mstate V) : M Σ (result (mstate V)) :=
  match inp with
  | None => retM (Ok ms)
  | Some o =>
      let* iv := out_Vertex o c in
      match iv with None => retM (Ok ms) | Some iv => marshalVertex n c iv ms end
  end.

Lemma marshal_input_ok n v A inp ms σ D : marshal_ok n → below n σ v A → inputs_at σ v [inp] → gl_inv σ → Good σ A D ms →
  ∃ r σ', marshal_input n inp ms σ = Some (r, σ') ∧ gl_inv σ' ∧ gl_le σ σ'
    ∧ progress (tc (gl_edge σ') v) (λ w, ∃ o, inp = Some o ∧ gl_vertex o = Some w) A D r σ'.
Proof.
  intros IH Hb Hl Hinv Hg. destruct inp as [o|].
  2: { exists (Ok ms), σ. split_and!; try done. exists D. naive_solver. }
  destruct (Hl o) as [Ho He]; [by left |]. destruct (gl_Vertex σ o Hinv Ho) as (σ1 & E1 & Hinv1 & Hle1).
  unfold marshal_input, bindM. rewrite E1. destruct (gl_vertex o) as [w|] eqn:Ew.
  2: { exists (Ok ms), σ1. split_and!; try done. exists D. split_and!; [by apply (good_le σ) | naive_solver..]. }
  pose proof (gl_edge_le σ σ1 v w Hle1 (He w eq_refl)) as Hvw. pose proof (below_le n σ σ1 v A Hle1 Hb) as (Hok & Hn & HA).
  destruct (gl_edge_ok σ1 v w Hinv1 Hok Hvw) as [Hw Hr].
  destruct (IH w ms σ1 A D) as (r & σ2 & E2 & Hinv2 & Hle2 & Hp); [lia | done | done | by apply (good_le σ) | |].
  { intros x [Hx Hrx]%HA. split; [done | lia]. }
  exists r, σ2. split_and!; [done | done | by trans σ1 |]. assert (∀ x, rtc (gl_edge σ2) w x → tc (gl_edge σ2) v x) as Hsub.
  { intros x Hx. by apply (tc_rtc_r v w x); [apply tc_once, (gl_edge_le σ1) |]. }
  destruct r as [ms'|e]; simpl in *; [| naive_solver].
  destruct Hp as (D' & Hg' & HD & HX & Hfrom). exists D'. split_and!; [done | done | | naive_solver].
  intros x (o' & [= <-] & E). apply HX. congruence.
Qed.

Lemma marshal_inputs n v A l : marshal_ok n → ∀ ms σ D, below n σ v A → inputs_at σ v l → gl_inv σ → Good σ A D ms →
  ∃ r σ', eachM (marshal_input n) l ms σ = Some (r, σ') ∧ gl_inv σ' ∧ gl_le σ σ'
    ∧ progress (tc (gl_edge σ') v) (λ w, ∃ o, Some o ∈ l ∧ gl_vertex o = Some w) A D r σ'.
Proof.
  intros IH. induction l as [|inp l IHl]; intros ms σ D Hb Hl Hinv Hg.
  { exists (Ok ms), σ. split_and!; try done. exists D. split_and!; [done | done | | by auto]. intros w (o & Ho & _). by apply elem_of_nil in Ho. }
  destruct (marshal_input_ok n v A inp ms σ D IH Hb) as (r1 & σ1 & E1 & Hinv1 & Hle1 & Hp1); [| done..|].
  { intros o ->%list_elem_of_singleton%symmetry. apply Hl. by left. }
  cbn [eachM]. unfold bindR, bindM at 1. rewrite E1. destruct r1 as [ms1|e]; [| by exists (Err e), σ1].
  destruct Hp1 as (D1 & Hg1 & HD1 & HX1 & Hfrom1).
  destruct (IHl ms1 σ1 D1 (below_le n σ σ1 v A Hle1 Hb)) as (r & σ2 & E2 & Hinv2 & Hle2 & Hp); [| done | done |].
  { intros o Ho. apply (inputs_at_le σ σ1 v _ Hle1 Hl). by right. }
  exists r, σ2. split_and!; [done | done | by trans σ1 |].
  destruct r as [ms'|e]; [| done]. destruct Hp as (D' & Hg' & HD & HX & Hfrom). exists D'.
  split_and!; [done | set_solver | |].
  - intros w (o & [<-|Ho]%elem_of_cons & Ew); [apply HD, HX1; by exists o | apply HX; by exists o].
  - intros w [[?|?%(tc_le σ1 σ2)]%Hfrom1|?]%Hfrom; auto.
Qed.

Lemma marshalVertex_ok n : marshal_ok n.
Proof.
  induction n as [|n IH]; intros v ms σ A D Hn Hinv Hok Hg HA; [lia |]. cbn [marshalVertex].
  case_decide as Hv.
  { exists (Ok ms), σ. split_and!; try done. exists D. rewrite (g_vertices _ _ _ _ Hg) in Hv.
    apply elem_of_union in Hv as [Hv|Hv]; [apply HA in Hv as [_ Hv]; lia |]. naive_solver. }
  destruct (gl_Inputs σ v Hinv Hok) as (l & σ1 & E1 & Hinv1 & Hle1 & Hfin & Hout & Hedge). unfold bindM at 1. rewrite E1.
  assert (below n σ1 v ({[v]} ∪ A)) as Hb.
  { apply (below_le n σ); [done |]. split_and!; [done | lia |]. intros w [->%elem_of_singleton|[Hw Hr]%HA]%elem_of_union; split; (done || lia). }
  destruct (marshal_inputs n v ({[v]} ∪ A) l IH (enter v ms) σ1 D Hb) as (r & σ2 & E2 & Hinv2 & Hle2 & Hp).
  { intros o Ho. split; [by apply Hout |]. intros w Ew. apply Hedge. by exists o. }
  { done. } { apply good_enter, (good_le σ); done. }
  unfold bindR at 1, bindM at 1. fold (marshal_input n). rewrite E2. destruct r as [ms2|e].
  2: { exists (Err e), σ2. split_and!; [done | done | by trans σ1 |]. destruct Hp as (w & s1 & s2 & Hw%tc_rtc & Hrest). by exists w, s1, s2. }
  destruct Hp as (D2 & Hg2 & HD2 & HX2 & Hfrom2). destruct (below_le n σ1 σ2 v _ Hle2 Hb) as (Hok2 & _).
  destruct (gl_Marshal σ2 v Hinv2 Hok2) as (r & σ3 & E3 & Hinv3 & Hle3 & Hfix).
  unfold bindR, bindM. rewrite E3. assert (gl_le σ σ3) as Hle by (trans σ1; [done | by trans σ2]). destruct r as [m|e].
  2: { exists (Err e), σ3. split_and!; [done.. |]. by exists v, σ2, σ3. }
  assert (gl_le σ1 σ3) as Hle13 by (by trans σ2).
  exists (Ok (emit m ms2)), σ3. split_and!; [done.. |]. exists ({[v]} ∪ D2). split_and!.
  - apply good_emit; [done | by apply (gl_ok_le σ2) | by apply (gl_final_le σ1) | by apply (good_le σ2) | by apply Hfix |].
    intros w Hw%(gl_final_le σ1 σ3 v Hle13 Hfin). apply Hedge in Hw as (o & Ho & Ew). apply HX2. by exists o.
  - set_solver.
  - set_solver.
  - intros w [->%elem_of_singleton|Hw]%elem_of_union; [by right |]. apply Hfrom2 in Hw as [Hw|Hw]; [by left | right].
    by apply (rtc_le σ2), tc_rtc.
Qed.
End marshal.

(** ** Walking *)

(** The visitor called on each vertex of a list until it fails *)
Fixpoint visits {V S} (visitor : V → nat → S → option error * S) (l : list (V * nat)) (s : S) : option error * S :=
  match l with
  | [] => (None, s)
  | (v, depth) :: l' => match visitor v depth s with (Some e, s) => (Some e, s) | (None, s) => visits visitor l' s end
  end.

Lemma visits_app {V S} (visitor : V → nat → S → option error * S) l1 l2 s :
  visits visitor (l1 ++ l2) s = match visits visitor l1 s with (None, s) => visits visitor l2 s | r => r end.
Proof. revert s. induction l1 as [|[v d] l1 IH]; intros s; simpl; [done |]. destruct (visitor v d s) as [[e|] s1]; [done | apply IH]. Qed.

Section walk.
Context {V O Σ : Type} `{Countable V, !LLBGraph V O Σ, OpCodec} (c : cptr) `{!LLBGraphLaws (V := V) c}.
Implicit Types (v w : V) (σ : Σ) (A D : gset V) (l : list (V * nat)).

(** A list of distinct vertices that are not in [A] or [D], each after the ones below it that
    are not in [D] *)
Record Walked σ A D l : Prop := {
  wk_nodup : NoDup l.*1;
  wk_new : ∀ v, v ∈ l.*1 → v ∉ A ∪ D;
  wk_final : ∀ v, v ∈ l.*1 → gl_final σ v;
  wk_order : ∀ pre v post, l.*1 = pre ++ v :: post → ∀ w, gl_edge σ v w → w ∈ D ∨ w ∈ pre;
}.

Lemma walked_nil σ A D : Walked σ A D [].
Proof. split; simpl; [constructor | set_solver | set_solver |]. intros pre v post E. by destruct pre. Qed.

Lemma walked_le σ σ' A D l : gl_le σ σ' → Walked σ A D l → Walked σ' A D l.
Proof.
  intros Hle [H1 H2 H3 H4]. split; [done | done | |].
  - intros v Hv. by apply (gl_final_le σ σ' v Hle), H3.
  - intros pre v post E w Hw. apply (H4 _ _ _ E). apply (gl_final_le σ σ' v Hle); [apply H3; rewrite E; set_solver | done].
Qed.

Lemma walked_app σ A D l1 l2 : Walked σ A D l1 → Walked σ A (D ∪ list_to_set l1.*1) l2 → Walked σ A D (l1 ++ l2).
Proof.
  intros [H1 H2 Hf H3] [H4 H5 Hf' H6]. split; rewrite fmap_app.
  - apply NoDup_app. split_and!; [done | | done]. intros x Hx Hx2%H5. set_solver.
  - intros v [Hv%H2|Hv%H5]%elem_of_app; set_solver.
  - intros v [Hv%Hf|Hv%Hf']%elem_of_app; done.
  - intros pre v post E w Hw. apply app_eq_inv in E as [(k & E1 & E2)|(k & E1 & E2)].
    + destruct k as [|x k]; simplify_list_eq; [| by apply (H3 _ _ _ E1)].
      destruct (H6 [] v post) with w as [Hi|Hi]; [done | done | | set_solver].
      apply elem_of_union in Hi as [Hi|Hi]; [by left | right; set_solver].
    + destruct (H6 _ _ _ E2 w Hw) as [Hi|Hi]; [| right; set_solver].
      apply elem_of_union in Hi as [Hi|Hi]; [by left | right; set_solver].
Qed.

Lemma walked_snoc σ A D l v d :
  v ∉ A ∪ D → gl_final σ v → Walked σ ({[v]} ∪ A) D l → (∀ w, gl_edge σ v w → w ∈ D ∪ list_to_set l.*1) → Walked σ A D (l ++ [(v, d)]).
Proof.
  intros Hv Hfv [H1 H2 Hf H3] He. apply walked_app; [split; [done | set_solver | done | done] |]. split; simpl.
  - apply NoDup_singleton.
  - intros x ->%list_elem_of_singleton Hx. assert (v ∈ l.*1) as Hl by set_solver. apply H2 in Hl. set_solver.
  - by intros x ->%list_elem_of_singleton.
  - intros pre x post E w Hw. destruct pre as [|? pre]; simplify_list_eq; [left; by apply He | by destruct pre].
Qed.

(** The edges of these vertices are all there, and stay between them. *)
Definition closed σ D : Prop := ∀ v, v ∈ D → gl_final σ v ∧ ∀ w, gl_edge σ v w → w ∈ D.

Lemma closed_le σ σ' D : gl_le σ σ' → closed σ D → closed σ' D.
Proof.
  intros Hle Hc v Hv. destruct (Hc v Hv) as [Hf He]. destruct (gl_final_le σ σ' v Hle Hf) as [Hf' Hb].
  split; [done |]. intros w Hw. by apply He, Hb.
Qed.

Lemma walked_closed σ A D l : closed σ D → Walked σ A D l → closed σ (D ∪ list_to_set l.*1).
Proof.
  intros Hc [_ _ Hf H3] v [Hv|Hv]%elem_of_union; [destruct (Hc v Hv); set_solver |].
  apply elem_of_list_to_set in Hv. split; [by apply Hf |]. intros w Hw.
  apply list_elem_of_split in Hv as (pre & post & E). destruct (H3 _ _ _ E w Hw) as [Hi|Hi]; [set_solver |].
  apply elem_of_union_r, elem_of_list_to_set. rewrite E. set_solver.
Qed.

Context {St : Type} (visitor : V → nat → St → option error * St).

(** What a walk does, from the visited vertices [A ∪ D], where the ones of [A] are above *)
Definition walk_result (R X : V → Prop) σ A D s (r : option error * (gset V * St)) : Prop :=
  ∃ l, Walked σ A D l ∧ (∀ v, v ∈ l.*1 → R v) ∧ (r.1, r.2.2) = visits visitor l s
    ∧ (r.1 = None → r.2.1 = A ∪ (D ∪ list_to_set l.*1) ∧ ∀ v, X v → v ∈ D ∪ list_to_set l.*1).

Definition walk_ok n : Prop :=
  ∀ v o s d σ A D, gl_vertex o = Some v → gl_out σ o → gl_rank σ v + 1 < n → gl_inv σ → gl_ok σ v →
    closed σ D → (∀ w, w ∈ A → gl_ok σ w ∧ gl_rank σ v < gl_rank σ w) →
    ∃ r σ', walk n visitor c (Some o) d (A ∪ D, s) σ = Some (r, σ') ∧ gl_inv σ' ∧ gl_le σ σ'
      ∧ walk_result (rtc (gl_edge σ') v) (eq v) σ' A D s r.

Lemma walk_input n v A d inp s σ D : walk_ok (S n) → below c n σ v A → inputs_at c σ v [inp] → gl_inv σ → closed σ D →
  ∃ r σ', walk (S n) visitor c inp d (A ∪ D, s) σ = Some (r, σ') ∧ gl_inv σ' ∧ gl_le σ σ'
    ∧ walk_result (tc (gl_edge σ') v) (λ w, ∃ o, inp = Some o ∧ gl_vertex o = Some w) σ' A D s r.
Proof.
  intros IH Hb Hl Hinv Hc.
  assert (∀ σ', (∀ w, ¬ ∃ o, inp = Some o ∧ gl_vertex o = Some w) →
    walk_result (tc (gl_edge σ') v) (λ w, ∃ o, inp = Some o ∧ gl_vertex o = Some w) σ' A D s (None, (A ∪ D, s))) as Hnone.
  { intros σ' Hno. exists []. split_and!; [apply walked_nil | set_solver | done |]. intros _. split; [set_solver |]. intros w Hw. by apply Hno in Hw. }
  destruct inp as [o|].
  2: { exists (None, (A ∪ D, s)), σ. split_and!; try done. apply Hnone. naive_solver. }
  destruct (Hl o) as [Ho He]; [by left |]. destruct (gl_vertex o) as [w|] eqn:Ew.
  2: { destruct (gl_Vertex σ o Hinv Ho) as (σ1 & E1 & Hinv1 & Hle1).
       exists (None, (A ∪ D, s)), σ1. split_and!; try done; [cbn [walk]; unfold bindM; by rewrite E1, Ew |]. apply Hnone. naive_solver. }
  pose proof (He w eq_refl) as Hvw. destruct Hb as (Hok & Hn & HA). destruct (gl_edge_ok σ v w Hinv Hok Hvw) as [Hw Hr].
  destruct (IH w o s d σ A D) as (r & σ2 & E2 & Hinv2 & Hle2 & l & H1 & H2 & H3 & H4); try done; [lia | |].
  { intros x [Hx Hrx]%HA. split; [done | lia]. }
  exists r, σ2. split_and!; [done.. |]. exists l. split_and!; [done | | done |].
  - intros x Hx%H2. by apply (tc_rtc_r v w x); [apply tc_once, (gl_edge_le σ) |].
  - intros [E HX]%H4. split; [done |]. intros x (o' & [= <-] & E'). apply HX. congruence.
Qed.

Lemma walk_inputs n v A d inputs : walk_ok (S n) → ∀ s σ D, below c n σ v A → inputs_at c σ v inputs → gl_inv σ → closed σ D →
  ∃ r σ', eachE (λ inp, walk (S n) visitor c inp d) inputs (A ∪ D, s) σ = Some (r, σ') ∧ gl_inv σ' ∧ gl_le σ σ'
    ∧ walk_result (tc (gl_edge σ') v) (λ w, ∃ o, Some o ∈ inputs ∧ gl_vertex o = Some w) σ' A D s r.
Proof.
  intros IH. induction inputs as [|inp inputs IHl]; intros s σ D Hb Hl Hinv Hc.
  { exists (None, (A ∪ D, s)), σ. split_and!; try done. exists []. split_and!; [apply walked_nil | set_solver | done |].
    intros _. split; [set_solver |]. intros w (o & Ho & _). by apply elem_of_nil in Ho. }
  destruct (walk_input n v A d inp s σ D IH Hb) as (r1 & σ1 & E1 & Hinv1 & Hle1 & Hr1); [| done..|].
  { intros o ->%list_elem_of_singleton%symmetry. apply Hl. by left. }
  cbn [eachE]. unfold bindM at 1. rewrite E1. destruct r1 as [[e|] [vis s1]].
  { exists (Some e, (vis, s1)), σ1. split_and!; [done.. |]. destruct Hr1 as (l & H1 & H2 & H3 & _). by exists l. }
  destruct Hr1 as (l1 & Hw1 & HR1 & Hv1 & Hs1). destruct (Hs1 eq_refl) as [Evis HX1]. simpl in Evis, Hv1. subst vis.
  destruct (IHl s1 σ1 (D ∪ list_to_set l1.*1) (below_le c n σ σ1 v A Hle1 Hb)) as (r & σ2 & E2 & Hinv2 & Hle2 & Hr); [| done | |].
  { intros o Ho. apply (inputs_at_le c σ σ1 v _ Hle1 Hl). by right. }
  { apply (walked_closed _ A); [by apply (closed_le σ) | done]. }
  exists r, σ2. split_and!; [done | done | by trans σ1 |]. destruct Hr as (l2 & Hw2 & HR2 & Hv2 & Hs2).
  exists (l1 ++ l2). split_and!.
  - apply walked_app; [by apply (walked_le σ1) | done].
  - intros x. rewrite fmap_app. intros [Hx%HR1|Hx%HR2]%elem_of_app; [by apply (tc_le c σ1) | done].
  - by rewrite visits_app, <- Hv1.
  - intros E. destruct (Hs2 E) as [-> HX2]. rewrite fmap_app, list_to_set_app_L. split; [set_solver |].
    intros w (o & [<-|Ho]%elem_of_cons & Ew); [assert (w ∈ D ∪ list_to_set l1.*1) by (apply HX1; by exists o); set_solver |].
    assert (w ∈ D ∪ list_to_set l1.*1 ∪ list_to_set l2.*1) by (apply HX2; by exists o). set_solver.
Qed.

Lemma walk_spec n : walk_ok n.
Proof.
  induction n as [|n IH]; intros v o s d σ A D Ev Ho Hn Hinv Hok Hc HA; [lia |]. destruct n as [|n]; [lia |].
  remember (S n) as n' eqn:En. cbn [walk]. subst n'.
  destruct (gl_Vertex σ o Hinv Ho) as (σ1 & E1 & Hinv1 & Hle1). unfold bindM at 1. rewrite E1, Ev. case_decide as Hv.
  { exists (None, (A ∪ D, s)), σ1. split_and!; try done. exists [].
    split_and!; [apply walked_nil | set_solver | done |]. intros _. split; [set_solver |]. intros w <-.
    apply elem_of_union in Hv as [[_ Hv]%HA|Hv]; [lia | set_solver]. }
  destruct (gl_ok_le σ σ1 v Hle1 Hok) as [Hok1 Hr1].
  destruct (gl_Inputs σ1 v Hinv1 Hok1) as (l & σ2 & E2 & Hinv2 & Hle2 & Hfin & Hout & Hedge). unfold bindM at 1. rewrite E2.
  assert (gl_le σ σ2) as Hle by (by trans σ1). assert (below c n σ2 v ({[v]} ∪ A)) as Hb.
  { apply (below_le c n σ); [done |]. split_and!; [done | lia |]. intros w [->%elem_of_singleton|[Hw Hr]%HA]%elem_of_union; split; (done || lia). }
  destruct (walk_inputs n v ({[v]} ∪ A) (d + 1) l IH s σ2 D Hb) as (r & σ3 & E3 & Hinv3 & Hle3 & Hr); [| done | by apply (closed_le σ) |].
  { intros o' Ho'. split; [by apply Hout |]. intros w Ew. apply Hedge. by exists o'. }
  assert ({[v]} ∪ (A ∪ D) = ({[v]} ∪ A) ∪ D) as -> by set_solver. unfold bindM. rewrite E3.
  assert (gl_le σ σ3) as Hle13 by (by trans σ2).
  destruct Hr as (l' & Hw & HR & Hvis & Hs). destruct r as [[e|] [vis s']]; simpl in Hvis, Hs.
  { exists (Some e, (vis, s')), σ3. split_and!; [done.. |]. exists l'. split_and!; [| | done | done].
    - destruct Hw as [H1 H2 H3 H4]. split; [done | set_solver | done | done].
    - intros x Hx. by apply tc_rtc, HR. }
  destruct (Hs eq_refl) as [-> HX]. destruct (visitor v d s') as [e s''] eqn:Evis.
  exists (e, (({[v]} ∪ A) ∪ (D ∪ list_to_set l'.*1), s'')), σ3. split_and!; [done.. |].
  destruct (gl_final_le σ2 σ3 v Hle3 Hfin) as [Hfin3 Hback].
  exists (l' ++ [(v, d)]). split_and!.
  - apply walked_snoc; [done | done | done |]. intros w Hw'. apply Hback, Hedge in Hw' as (o' & Ho' & Ew). apply HX. by exists o'.
  - intros x. rewrite fmap_app. intros [Hx|Hx]%elem_of_app; [by apply tc_rtc, HR | set_solver].
  - rewrite visits_app, <- Hvis. simpl. rewrite Evis. by destruct e.
  - intros _. rewrite fmap_app, list_to_set_app_L. simpl. split; [set_solver |]. intros x <-. set_solver.
Qed.
End walk.

(** ** Properties *)

Section properties.
Context {V O Σ : Type} `{Countable V, !LLBGraph V O Σ, OpCodec} (c : cptr) `{!LLBGraphLaws (V := V) c}.

Lemma closed_rtc σ (D : gset V) v w : (∀ v w, v ∈ D → gl_edge σ v w → w ∈ D) → v ∈ D → rtc (gl_edge σ) v w → w ∈ D.
Proof. intros Hc Hv Hr. induction Hr as [v|v x w E Hr IH]; [done |]. apply IH. by apply (Hc v). Qed.

(** What [marshalVertex] gives *)
Definition closed_definition σ v (ms : mstate V) : Prop :=
  topological (ms_def ms)
  ∧ NoDup (digest_FromBytes <$> ms_def ms)
  ∧ (∀ w, rtc (gl_edge σ) v w → gl_final σ w ∧ ∃ m, gl_fixed σ w m ∧ mr_digest m ∈ digest_FromBytes <$> ms_def ms)
  ∧ (∀ dt, dt ∈ ms_def ms → ∃ w m, rtc (gl_edge σ) v w ∧ gl_fixed σ w m ∧ mr_dt m = dt
       ∧ ms_metadata ms !! digest_FromBytes dt = NewOpMetadata <$> mr_md m)
  ∧ (∀ d, is_Some (ms_metadata ms !! d) → d ∈ digest_FromBytes <$> ms_def ms)
  ∧ (∀ d l, (d, l) ∈ ms_srcs ms → ∃ w m, rtc (gl_edge σ) v w ∧ gl_fixed σ w m ∧ mr_digest m = d ∧ mr_srcs m = l).

Lemma marshal_closed n v σ :
  gl_inv σ → gl_ok σ v → gl_rank σ v < n →
  ∃ r σ', marshalVertex n c v ms_empty σ = Some (r, σ') ∧ gl_inv σ' ∧ gl_le σ σ'
    ∧ match r with
      | Ok ms => closed_definition σ' v ms
      | Err e => ∃ w σ1 σ2, rtc (gl_edge σ') v w ∧ gl_inv σ1 ∧ gl_le σ1 σ' ∧ v_Marshal w c σ1 = Some (Err e, σ2)
      end.
Proof.
  intros Hinv Hok Hn.
  destruct (marshalVertex_ok c n v ms_empty σ ∅ ∅) as (r & σ' & E & Hinv' & Hle & Hp);
    [done | done | done | apply good_empty | set_solver |].
  exists r, σ'. split_and!; [done.. |]. destruct r as [ms|e]; [| done].
  destruct Hp as (D & Hg & _ & HX & HR). split_and!.
  - apply Hg.
  - apply Hg.
  - intros w Hw. assert (w ∈ D) as HwD by (apply (closed_rtc σ' D v); [apply Hg | by apply HX | done]). split; [by apply Hg |].
    destruct (g_done _ _ _ _ _ Hg w HwD) as (m & Hm & Hd & _). exists m. split; [done |]. by apply (g_digests _ _ _ _ _ Hg).
  - intros dt (w & m & Hw & Hrest)%(g_from _ _ _ _ _ Hg). exists w, m. split; [| done]. by destruct (HR w Hw) as [?%elem_of_empty|].
  - intros d [md Hmd]. apply (g_digests _ _ _ _ _ Hg). destruct (decide (d ∈ ms_digests ms)) as [|Hd]; [done |].
    apply (g_metadata _ _ _ _ _ Hg) in Hd. by rewrite Hd in Hmd.
  - intros d l (w & m & Hw & Hrest)%(g_srcs _ _ _ _ _ Hg). exists w, m. split; [| done]. by destruct (HR w Hw) as [?%elem_of_empty|].
Qed.

(** C28: [Walk] returns, and what it did is to call the visitor on a list of distinct vertices,
    each one after all the vertices that are its inputs, and to stop at the first error; with
    no error the list has exactly the vertices that the output reaches. *)
Theorem Walk_visits {S} (visitor : V → nat → S → option error * S) o v s σ :
  gl_inv σ → gl_out σ o → gl_vertex o = Some v → gl_ok σ v →
  ∃ l r σ',
    Walk (gl_rank σ v + 2) (Some o) (Some visitor) c s σ = Some (r, σ') ∧ gl_inv σ'
    ∧ r = visits visitor l s
    ∧ NoDup l.*1
    ∧ (∀ pre w post x, l.*1 = pre ++ w :: post → gl_edge σ' w x → x ∈ pre)
    ∧ (∀ w, w ∈ l.*1 → rtc (gl_edge σ') v w)
    ∧ (r.1 = None → ∀ w, rtc (gl_edge σ') v w → w ∈ l.*1).
Proof.
  intros Hinv Ho Ev Hok.
  destruct (walk_spec c visitor (gl_rank σ v + 2) v o s 0 σ ∅ ∅ Ev Ho) as (r & σ' & E & Hinv' & _ & l & Hw & HR & Hv & Hs);
    [lia | done | done | intros x Hx; set_solver | set_solver |].
  rewrite (left_id_L ∅ (∪)) in E. exists l, (r.1, r.2.2), σ'. unfold Walk, bindM. rewrite E. split_and!; try done.
  - apply Hw.
  - intros pre w post x El Hx. destruct (wk_order c _ _ _ _ Hw pre w post El x Hx); set_solver.
  - intros Hn w Hr. destruct (Hs Hn) as [_ HX]. assert (w ∈ ∅ ∪ list_to_set (C := gset V) l.*1) as Hi; [| set_solver].
    apply (closed_rtc σ' _ v w); [| by apply HX | done].
    intros x y Hx Hy. apply (walked_closed c σ' ∅ ∅ l) with x; [intros z Hz; set_solver | done..].
Qed.
End properties.
