(* ===== verification/LbAttrs.v ===== *)
(** * LbAttrs: what the operations put in their attributes

    Models the parts of [src/client/llb/ops] that compute values only: the options and
    attributes of the sources ([sourceop.go]), the scope of a nested solve ([solveop]), the
    gate's attributes ([gateop.go]), the cells of a matrix ([matrixop.go]) and the numbers of
    an inspection ([inspectop.go]). *)
From S2P Require Import Prelude GoStd GoNum GoPath LbTypes LbState.

(** ** Numbers *)

(** [intToStr], of [inspectop.go], with its buffer of 20 bytes *)
Definition intToStr (n : Z) : option string :=
  if decide (n = 0%Z) then Some "0"
  else
    let neg := bool_decide (n < 0)%Z in
    let n := if neg then i64 (- n) else n in
    match (if decide (0 < n)%Z then format_loop 20 10 (Z.to_N n) EmptyString else Some (20, EmptyString)) with
    | None => None
    | Some (room, buf) => if neg then match room with 0 => None | S _ => Some ("-" +:+ buf) end else Some buf
    end.

(** [fmtFrac] of [time.Duration.String]: the last [prec] digits, with no zeros behind *)
Fixpoint frac_loop (prec : nat) (v : N) (pr : bool) (buf : string) : N * string :=
  match prec with
  | 0 => (v, if pr then "." +:+ buf else buf)
  | S prec =>
      let d := (v mod 10)%N in
      let pr := pr || (0 <? d)%N in
      frac_loop prec (v / 10) pr (if pr then String (ascii_of_N (48 + d)) buf else buf)
  end.

(** [time.Duration.String], of nanoseconds *)
Definition Duration_String (d : Z) : string :=
  let int (n : N) := strconv_Itoa (Z.of_N n) in
  let u := Z.abs_N d in
  let small (prec : nat) (unit : string) := let '(v, frac) := frac_loop prec u false EmptyString in int v +:+ frac +:+ unit in
  let text :=
    if (u =? 0)%N then "0s"
    else if (u <? 1000)%N then small 0 "ns"
    else if (u <? 1000000)%N then small 3 (String (ascii_of_N 194) (String (ascii_of_N 181) "s"))
    else if (u <? 1000000000)%N then small 6 "ms"
    else
      let '(v, frac) := frac_loop 9 u false EmptyString in
      let mins := (v / 60)%N in
      (if (0 <? mins)%N then (if (0 <? mins / 60)%N then int (mins / 60)%N +:+ "h" else EmptyString) +:+ int (mins mod 60)%N +:+ "m" else EmptyString)
      +:+ int (v mod 60)%N +:+ frac +:+ "s" in
  if decide (d < 0)%Z then "-" +:+ text else text.

(** [string(r)]: the UTF-8 encoding of a rune, or of U+FFFD where it is not valid *)
Definition rune_str (r : N) : string :=
  let tail (n : N) := ascii_of_N (128 + n mod 2 ^ 6) in
  let enc (r : N) :=
    (if r <? 2 ^ 7 then [ascii_of_N r]
     else if r <? 2 ^ 11 then [ascii_of_N (192 + r / 2 ^ 6); tail r]
     else if r <? 2 ^ 16 then [ascii_of_N (224 + r / 2 ^ 12); tail (r / 2 ^ 6); tail r]
     else [ascii_of_N (240 + r / 2 ^ 18); tail (r / 2 ^ 12); tail (r / 2 ^ 6); tail r])%N in
  let valid := (r <? 55296)%N || ((57343 <? r)%N && (r <? 1114112)%N) in
  String.string_of_list_ascii (enc (if valid then r else 65533%N)).

(** ** Sources *)

Inductive ResolveMode := ResolveModeDefault | ResolveModeForcePull | ResolveModePreferLocal.

#[export] Instance ResolveMode_eq_dec : EqDecision ResolveMode.
Proof. solve_decision. Defined.

Definition ResolveMode_String (r : ResolveMode) : string :=
  match r with ResolveModeForcePull => "pull" | ResolveModePreferLocal => "local" | ResolveModeDefault => "default" end.

Record ImageInfo := mkImageInfo { ii_Constraints : Constraints; ii_ResolveMode : ResolveMode; ii_LayerLimit : option Z }.

Definition WithResolveMode (m : ResolveMode) (ii : ImageInfo) : ImageInfo := mkImageInfo (ii_Constraints ii) m (ii_LayerLimit ii).
Definition WithLayerLimit (n : Z) (ii : ImageInfo) : ImageInfo := mkImageInfo (ii_Constraints ii) (ii_ResolveMode ii) (Some n).
Definition WithImageConstraints (co : ConstraintsOpt) (ii : ImageInfo) : ImageInfo := mkImageInfo (co (ii_Constraints ii)) (ii_ResolveMode ii) (ii_LayerLimit ii).

Record GitInfo := mkGitInfo { gi_Constraints : Constraints; gi_KeepGitDir : bool; gi_AuthTokenSecret : string; gi_AuthHeaderSecret : string }.

Definition WithKeepGitDir (gi : GitInfo) : GitInfo := mkGitInfo (gi_Constraints gi) true (gi_AuthTokenSecret gi) (gi_AuthHeaderSecret gi).
Definition WithAuthToken (key : string) (gi : GitInfo) : GitInfo := mkGitInfo (gi_Constraints gi) (gi_KeepGitDir gi) key (gi_AuthHeaderSecret gi).
Definition WithAuthHeader (key : string) (gi : GitInfo) : GitInfo := mkGitInfo (gi_Constraints gi) (gi_KeepGitDir gi) (gi_AuthTokenSecret gi) key.
Definition WithGitConstraints (co : ConstraintsOpt) (gi : GitInfo) : GitInfo := mkGitInfo (co (gi_Constraints gi)) (gi_KeepGitDir gi) (gi_AuthTokenSecret gi) (gi_AuthHeaderSecret gi).

Record LocalInfo := mkLocalInfo {
  li_Constraints : Constraints;
  li_IncludePatterns : list string;
  li_ExcludePatterns : list string;
  li_FollowPaths : list string;
  li_SharedKeyHint : string;
}.

Definition WithIncludePatterns (l : list string) (li : LocalInfo) : LocalInfo := mkLocalInfo (li_Constraints li) l (li_ExcludePatterns li) (li_FollowPaths li) (li_SharedKeyHint li).
Definition WithExcludePatterns (l : list string) (li : LocalInfo) : LocalInfo := mkLocalInfo (li_Constraints li) (li_IncludePatterns li) l (li_FollowPaths li) (li_SharedKeyHint li).
Definition WithFollowPaths (l : list string) (li : LocalInfo) : LocalInfo := mkLocalInfo (li_Constraints li) (li_IncludePatterns li) (li_ExcludePatterns li) l (li_SharedKeyHint li).
Definition WithSharedKeyHint (h : string) (li : LocalInfo) : LocalInfo := mkLocalInfo (li_Constraints li) (li_IncludePatterns li) (li_ExcludePatterns li) (li_FollowPaths li) h.
Definition WithLocalConstraints (co : ConstraintsOpt) (li : LocalInfo) : LocalInfo := mkLocalInfo (co (li_Constraints li)) (li_IncludePatterns li) (li_ExcludePatterns li) (li_FollowPaths li) (li_SharedKeyHint li).

Record HTTPInfo := mkHTTPInfo {
  hi_Constraints : Constraints;
  hi_Checksum : string;
  hi_Filename : string;
  hi_Perm : Z;
  hi_UID : Z;
  hi_GID : Z;
}.

Definition WithChecksum (d : string) (hi : HTTPInfo) : HTTPInfo := mkHTTPInfo (hi_Constraints hi) d (hi_Filename hi) (hi_Perm hi) (hi_UID hi) (hi_GID hi).
Definition WithHTTPFilename (n : string) (hi : HTTPInfo) : HTTPInfo := mkHTTPInfo (hi_Constraints hi) (hi_Checksum hi) n (hi_Perm hi) (hi_UID hi) (hi_GID hi).
Definition WithHTTPPerm (p : Z) (hi : HTTPInfo) : HTTPInfo := mkHTTPInfo (hi_Constraints hi) (hi_Checksum hi) (hi_Filename hi) p (hi_UID hi) (hi_GID hi).
Definition WithHTTPConstraints (co : ConstraintsOpt) (hi : HTTPInfo) : HTTPInfo := mkHTTPInfo (co (hi_Constraints hi)) (hi_Checksum hi) (hi_Filename hi) (hi_Perm hi) (hi_UID hi) (hi_GID hi).

(** The identifier, attributes and constraints that a constructor gives [NewSource] *)
Record source_args := mkSourceArgs { sa_id : string; sa_attrs : gmap string string; sa_constraints : Constraints }.

(** An assignment to a map under a condition *)
Definition set_if (b : bool) (k v : string) (m : gmap string string) : gmap string string := if b then <[k := v]> m else m.

Section sources.
Context `{BuildkitPB}.

Definition image_args (ref : string) (opts : list (ImageInfo → ImageInfo)) : source_args :=
  let info := foldl (λ i o, o i) (mkImageInfo no_constraints ResolveModeDefault None) opts in
  let attrs := set_if (bool_decide (ii_ResolveMode info ≠ ResolveModeDefault)) (pb_Attr "AttrImageResolveMode") (ResolveMode_String (ii_ResolveMode info)) ∅ in
  let attrs := match ii_LayerLimit info with Some n => <[pb_Attr "AttrImageLayerLimit" := strconv_Itoa n]> attrs | None => attrs end in
  mkSourceArgs ("docker-image://" +:+ ref) attrs (AddCap (ii_Constraints info) (pb_Cap "CapSourceImage")).

Definition git_args (url fragment : string) (opts : list (GitInfo → GitInfo)) : source_args :=
  let info := foldl (λ i o, o i) (mkGitInfo no_constraints false EmptyString EmptyString) opts in
  let id := "git://" +:+ url in
  let id := if decide (fragment = EmptyString) then id else id +:+ "#" +:+ fragment in
  let attrs := set_if (gi_KeepGitDir info) (pb_Attr "AttrKeepGitDir") "true" ∅ in
  let attrs := set_if (bool_decide (gi_AuthTokenSecret info ≠ EmptyString)) (pb_Attr "AttrAuthTokenSecret") (gi_AuthTokenSecret info) attrs in
  let attrs := set_if (bool_decide (gi_AuthHeaderSecret info ≠ EmptyString)) (pb_Attr "AttrAuthHeaderSecret") (gi_AuthHeaderSecret info) attrs in
  mkSourceArgs id attrs (AddCap (gi_Constraints info) (pb_Cap "CapSourceGit")).

Definition local_args (name : string) (opts : list (LocalInfo → LocalInfo)) : source_args :=
  let info := foldl (λ i o, o i) (mkLocalInfo no_constraints [] [] [] EmptyString) opts in
  let attrs := set_if (bool_decide (li_IncludePatterns info ≠ [])) (pb_Attr "AttrIncludePatterns") (str_join "," (li_IncludePatterns info)) ∅ in
  let attrs := set_if (bool_decide (li_ExcludePatterns info ≠ [])) (pb_Attr "AttrExcludePatterns") (str_join "," (li_ExcludePatterns info)) attrs in
  let attrs := set_if (bool_decide (li_FollowPaths info ≠ [])) (pb_Attr "AttrFollowPaths") (str_join "," (li_FollowPaths info)) attrs in
  let attrs := set_if (bool_decide (li_SharedKeyHint info ≠ EmptyString)) (pb_Attr "AttrSharedKeyHint") (li_SharedKeyHint info) attrs in
  mkSourceArgs ("local://" +:+ name) attrs (AddCap (li_Constraints info) (pb_Cap "CapSourceLocal")).

Definition http_args (url : string) (opts : list (HTTPInfo → HTTPInfo)) : source_args :=
  let info := foldl (λ i o, o i) (mkHTTPInfo no_constraints EmptyString EmptyString 0 0 0) opts in
  let attrs := set_if (bool_decide (hi_Checksum info ≠ EmptyString)) (pb_Attr "AttrHTTPChecksum") (hi_Checksum info) ∅ in
  let filename := if decide (hi_Filename info = EmptyString) then path_base url else hi_Filename info in
  let attrs := <[pb_Attr "AttrHTTPFilename" := filename]> attrs in
  let attrs := set_if (bool_decide (hi_Perm info ≠ 0%Z)) (pb_Attr "AttrHTTPPerm") ("0" +:+ strconv_FormatInt 8 (hi_Perm info)) attrs in
  let attrs := set_if (bool_decide (hi_UID info ≠ 0%Z)) (pb_Attr "AttrHTTPUID") (strconv_Itoa (hi_UID info)) attrs in
  let attrs := set_if (bool_decide (hi_GID info ≠ 0%Z)) (pb_Attr "AttrHTTPGID") (strconv_Itoa (hi_GID info)) attrs in
  mkSourceArgs url attrs (AddCap (hi_Constraints info) (pb_Cap "CapSourceHTTP")).

Record OCILayoutInfo := mkOCIInfo { oi_Constraints : Constraints; oi_LayerLimit : option Z }.

Definition WithOCILayerLimit (n : Z) (oi : OCILayoutInfo) : OCILayoutInfo := mkOCIInfo (oi_Constraints oi) (Some n).
Definition WithOCIConstraints (co : ConstraintsOpt) (oi : OCILayoutInfo) : OCILayoutInfo := mkOCIInfo (co (oi_Constraints oi)) (oi_LayerLimit oi).

Definition oci_args (ref : string) (opts : list (OCILayoutInfo → OCILayoutInfo)) : source_args :=
  let info := foldl (λ i o, o i) (mkOCIInfo no_constraints None) opts in
  let attrs := match oi_LayerLimit info with Some n => <[pb_Attr "AttrImageLayerLimit" := strconv_Itoa n]> ∅ | None => ∅ end in
  mkSourceArgs ("oci-layout://" +:+ ref) attrs (AddCap (oi_Constraints info) (pb_Cap "CapSourceOCILayout")).
End sources.

(** ** Nested solves *)

Record SecretBinding := mkSecretBinding { sb_ID : string; sb_Value : string; sb_IsEnv : bool }.
Record SSHBinding := mkSSHBinding { ss_ID : string; ss_Socket : string }.
Record CacheConfig := mkCacheConfig { cc_Type : string; cc_Attrs : gmap string string }.

Record SolveInfo := mkSolveInfo {
  si_Secrets : list SecretBinding;
  si_SSHBindings : list SSHBinding;
  si_Env : gmap string string;
  si_Frontend : string;
  si_FrontendAttrs : gmap string string;
  si_CacheImports : list CacheConfig;
  si_CacheExports : list CacheConfig;
  si_LocalSources : gmap string string;
  si_OCISources : gmap string string;
}.

Definition no_solve_info : SolveInfo := mkSolveInfo [] [] ∅ EmptyString ∅ [] [] ∅ ∅.

(** The options of [solveop/options.go] *)
Inductive SolveOption :=
  | WithSecret (id value : string)
  | WithSecretEnv (id value : string)
  | WithSSH (id : string) (socket : list string)
  | WithEnv (key value : string)
  | WithFrontend (name : string)
  | WithFrontendAttr (key value : string)
  | WithCacheImport (cacheType : string) (attrs : gmap string string)
  | WithCacheExport (cacheType : string) (attrs : gmap string string)
  | WithLocalSource (name dir : string)
  | WithOCISource (name dir : string).

Definition apply_solve_option (si : SolveInfo) (o : SolveOption) : SolveInfo :=
  let 'mkSolveInfo secrets ssh env frontend fattrs imports exports locals ocis := si in
  match o with
  | WithSecret id v => mkSolveInfo (secrets ++ [mkSecretBinding id v false]) ssh env frontend fattrs imports exports locals ocis
  | WithSecretEnv id v => mkSolveInfo (secrets ++ [mkSecretBinding id v true]) ssh env frontend fattrs imports exports locals ocis
  | WithSSH id sock => mkSolveInfo secrets (ssh ++ [mkSSHBinding id (default EmptyString (head sock))]) env frontend fattrs imports exports locals ocis
  | WithEnv k v => mkSolveInfo secrets ssh (<[k := v]> env) frontend fattrs imports exports locals ocis
  | WithFrontend n => mkSolveInfo secrets ssh env n fattrs imports exports locals ocis
  | WithFrontendAttr k v => mkSolveInfo secrets ssh env frontend (<[k := v]> fattrs) imports exports locals ocis
  | WithCacheImport t a => mkSolveInfo secrets ssh env frontend fattrs (imports ++ [mkCacheConfig t a]) exports locals ocis
  | WithCacheExport t a => mkSolveInfo secrets ssh env frontend fattrs imports (exports ++ [mkCacheConfig t a]) locals ocis
  | WithLocalSource n d => mkSolveInfo secrets ssh env frontend fattrs imports exports (<[n := d]> locals) ocis
  | WithOCISource n d => mkSolveInfo secrets ssh env frontend fattrs imports exports locals (<[n := d]> ocis)
  end.

Definition new_solve_info (opts : list SolveOption) : SolveInfo := foldl apply_solve_option no_solve_info opts.

(** A Go map is a loop away from another: [for k, v := range src { dst[prefix+k] = v }]. *)
Definition put_all `{GoRange} (prefix : string) (src dst : gmap string string) : gmap string string :=
  foldl (λ dst kv, <[prefix +:+ kv.1 := kv.2]> dst) dst (map_range src).

(** [attrs[key] = strings.Join(sorted parts, ";")], when there are any *)
Definition put_parts (key : string) (parts : list string) (attrs : gmap string string) : gmap string string :=
  match parts with [] => attrs | _ => <[key := str_join ";" (sort_strings parts)]> attrs end.

(** The loop over cache imports or exports, from the [i]th on; [strings.Repeat] panics on a
    negative count, which is [None]. *)
Fixpoint put_caches `{GoRange} (dir : string) (i : nat) (cs : list CacheConfig) (attrs : gmap string string) : option (gmap string string) :=
  match cs with
  | [] => Some attrs
  | ci :: cs =>
      let r := rune_str (N.of_nat i + 48) in
      if decide (3 < String.length r) then None
      else
        let prefix := dir +:+ String.concat EmptyString (replicate (3 - String.length r) "0") +:+ r in
        put_caches dir (S i) cs (put_all (prefix +:+ ".") (cc_Attrs ci) (<[prefix +:+ ".type" := cc_Type ci]> attrs))
  end.

Definition buildAttrs `{GoRange} (info : SolveInfo) : option (gmap string string) :=
  let attrs := put_parts "solve.secrets" ((λ s, sb_ID s +:+ "=" +:+ sb_Value s +:+ ":" +:+ (if sb_IsEnv s then "env" else "file")) <$> si_Secrets info) ∅ in
  let attrs := put_parts "solve.ssh" ((λ s, ss_ID s +:+ "=" +:+ ss_Socket s) <$> si_SSHBindings info) attrs in
  let attrs := put_parts "solve.env" ((λ kv, kv.1 +:+ "=" +:+ kv.2) <$> map_range (si_Env info)) attrs in
  let attrs := set_if (bool_decide (si_Frontend info ≠ EmptyString)) "solve.frontend" (si_Frontend info) attrs in
  let attrs := put_all "solve.frontend." (si_FrontendAttrs info) attrs in
  match put_caches "solve.cache.import." 0 (si_CacheImports info) attrs with
  | None => None
  | Some attrs =>
      match put_caches "solve.cache.export." 0 (si_CacheExports info) attrs with
      | None => None
      | Some attrs => Some (put_all "solve.oci." (si_OCISources info) (put_all "solve.local." (si_LocalSources info) attrs))
      end
  end.

(** ** Matrices *)

Record Axis := mkAxis { ax_Name : string; ax_Values : list string }.

Notation cell := (gmap string string) (only parsing).

Definition expand_axis (cells : list cell) (axis : Axis) : list cell :=
  cells ≫= (λ c, (λ val, <[ax_Name axis := val]> c) <$> ax_Values axis).

Definition cartesianProduct `{GoSort} (axes : list Axis) : list cell :=
  match axes with [] => [] | _ => foldl expand_axis [∅] (sort_slice ax_Name axes) end.

Definition CellKey `{GoRange} (c : cell) : string :=
  str_join "," ((λ k, k +:+ "=" +:+ default EmptyString (c !! k)) <$> sort_strings (fst <$> map_range c)).

(** ** File actions *)

(** The [subAction]s, with the options that reach the message.  A mode is an [os.FileMode]. *)
Record CopyInfo := mkCopyInfo {
  ci_Mode : option Z;
  ci_FollowSymlinks : bool;
  ci_DirCopyContents : bool;
  ci_AttemptUnpack : bool;
  ci_CreateDestPath : bool;
  ci_AllowWildcard : bool;
  ci_AllowEmptyWildcard : bool;
  ci_IncludePatterns : list string;
  ci_ExcludePatterns : list string;
}.

Definition no_copy_info : CopyInfo := mkCopyInfo None false false false false false false [] [].

Inductive CopyOption :=
  | WithCopyFollowSymlinks (b : bool)
  | WithCopyDirContents (b : bool)
  | WithCreateDestPath (b : bool)
  | WithCopyIncludePatterns (l : list string)
  | WithCopyExcludePatterns (l : list string).

Definition apply_copy_option (ci : CopyInfo) (o : CopyOption) : CopyInfo :=
  let 'mkCopyInfo m fs dc au cd aw ae inc exc := ci in
  match o with
  | WithCopyFollowSymlinks b => mkCopyInfo m b dc au cd aw ae inc exc
  | WithCopyDirContents b => mkCopyInfo m fs b au cd aw ae inc exc
  | WithCreateDestPath b => mkCopyInfo m fs dc au b aw ae inc exc
  | WithCopyIncludePatterns l => mkCopyInfo m fs dc au cd aw ae l exc
  | WithCopyExcludePatterns l => mkCopyInfo m fs dc au cd aw ae inc l
  end.

Inductive subAction :=
  | fileActionMkdir (file : string) (mode : N) (makeParents : bool)
  | fileActionMkfile (file : string) (mode : N) (data : list byte)
  | fileActionRm (file : string) (allowNotFound allowWildcard : bool)
  | fileActionCopy (src dest : string) (info : CopyInfo)
  | fileActionSymlink (oldpath newpath : string).

(** A signed 32-bit integer wraps around. *)
Definition i32 (n : Z) : Z := ((n + 2 ^ 31) mod 2 ^ 32 - 2 ^ 31)%Z.

Definition toProtoAction (a : subAction) : pbAction :=
  match a with
  | fileActionMkdir file mode mp => FA_Mkdir file (i32 (Z.of_N (N.land mode 511))) mp
  | fileActionMkfile file mode data => FA_Mkfile file (i32 (Z.of_N (N.land mode 511))) data
  | fileActionRm file nf wc => FA_Rm file nf wc
  | fileActionCopy src dest i =>
      FA_Copy (mkPbCopy src dest (match ci_Mode i with Some m => i32 m | None => 0%Z end) (ci_FollowSymlinks i) (ci_DirCopyContents i)
        (ci_AttemptUnpack i) (ci_CreateDestPath i) (ci_AllowWildcard i) (ci_AllowEmptyWildcard i) [] [])
  | fileActionSymlink o n => FA_Symlink o n
  end.

(** A [*FileAction]; the [state] of a copy is a variable of its own call, so that no two
    actions of a chain have the same one. *)
Inductive FileAction := mkFileAction (state : option State) (prev : option FileAction) (act : subAction).

Definition Mkdir (p : string) (mode : N) (makeParents : bool) : FileAction := mkFileAction None None (fileActionMkdir p mode makeParents).
Definition Mkfile (p : string) (mode : N) (data : list byte) : FileAction := mkFileAction None None (fileActionMkfile p mode data).
Definition Rm (p : string) (allowNotFound allowWildcard : bool) : FileAction := mkFileAction None None (fileActionRm p allowNotFound allowWildcard).
Definition Copy (src : State) (srcPath destPath : string) (opts : list CopyOption) : FileAction :=
  mkFileAction (Some src) None (fileActionCopy srcPath destPath (foldl apply_copy_option no_copy_info opts)).
Definition Symlink (oldpath newpath : string) : FileAction := mkFileAction None None (fileActionSymlink oldpath newpath).

(** [fa.Mkdir(...)] and the other methods: the new action follows [fa]. *)
Definition fa_then (fa a : FileAction) : FileAction := let 'mkFileAction st _ act := a in mkFileAction st (Some fa) act.

(** The chain of a [*FileAction], last action first *)
Fixpoint fa_chain (a : FileAction) : list (option State * subAction) :=
  let 'mkFileAction st prev act := a in (st, act) :: match prev with Some p => fa_chain p | None => [] end.

(** ** Lemmas on numbers *)

(** The buffer of [intToStr] is long enough for any integer. *)
Lemma intToStr_total n : (- 2 ^ 63 ≤ n < 2 ^ 63)%Z → is_Some (intToStr n).
Proof.
  intros Hn. unfold intToStr. case_decide as Hz; [by eexists |]. set (m := if bool_decide (n < 0)%Z then _ else n).
  assert (m ≤ 2 ^ 63)%Z as Hm.
  { unfold m. case_bool_decide; [| lia]. unfold i64. pose proof (Z.mod_pos_bound (- n + 2 ^ 63) (2 ^ 64)). lia. }
  case_decide as Hpos.
  - destruct (format_loop_fits 19 1 (Z.to_N m) EmptyString) as (k & s & E & Hk); [lia |]. change 20 with (19 + 1). rewrite E.
    destruct (bool_decide _); [| by eexists]. destruct k as [|k]; [lia | by eexists].
  - destruct (bool_decide _); by eexists.
Qed.
