(* ===== verification/LbHeap.v ===== *)
(** * LbHeap: the objects of a graph under construction

    Models the vertices of [src/client/llb/ops] as objects of a heap, with their mutable
    fields, the [MarshalCache] of [marshal.go], the asynchronous states of [async.go], and the
    constructors that make vertices and states. *)
From S2P Require Import Prelude GoStd GoNum GoPath LbTypes LbState Sha256 LbGraph LbAttrs.
#[local] Open Scope go_scope.

(** ** Vertices *)

(** A [Vertex]: a node of the heap or an [*errVertex], by address *)
Inductive vertex := VNode (a : nat) | VErr (n : nat).

#[export] Instance vertex_eq_dec : EqDecision vertex.
Proof. solve_decision. Defined.

#[export] Instance vertex_countable : Countable vertex.
Proof.
  refine (inj_countable' (λ v, match v with VNode a => inl a | VErr n => inr n end)
    (λ x, match x with inl a => VNode a | inr n => VErr n end) _).
  by intros [].
Defined.

(** A [*mount] of an exec; [mt_id] is its address. *)
Record mount := mkMount {
  mt_id : nat;
  mt_target : string;
  mt_readonly : bool;
  mt_source : option Output;
  mt_output : option Output;
  mt_selector : string;
  mt_cacheID : string;
  mt_tmpfs : bool;
  mt_tmpfsSize : Z;
  mt_cacheSharing : Z;
  mt_noOutput : bool;
  mt_contentCache : Z;
}.

Record SecretInfo := mkSecretInfo {
  sec_ID : string;
  sec_Target : string;
  sec_Mode : Z;
  sec_UID : Z;
  sec_GID : Z;
  sec_Optional : bool;
  sec_IsEnv : bool;
}.

Record exec := mkExec {
  xc_proxyEnv : option ProxyEnv;
  xc_root : option Output;
  xc_mounts : list mount;
  xc_base : State;
  xc_constraints : Constraints;
  xc_isValidated : bool;
  xc_secrets : list SecretInfo;
  xc_ssh : list SecretInfo;
}.

(** The conditions of [condition.go]; [CondBool] and [CondFunc] are the client's. *)
Inductive Condition :=
  | EnvCondition (name : string)
  | LiteralCondition (key : string)
  | PlatformCondition
  | ArchCondition
  | BoolCondition (predicate : nat)
  | NotCondition (cond : Condition)
  | ConditionFunc (f : nat).

(** The approvers of [approver.go]; [OtherApprover] is the client's. *)
Inductive Approver :=
  | AutoApprover
  | ChannelApprover (ch : nat)
  | TimeoutApprover (inner : Approver) (timeout : Z) (autoApprove : bool)
  | WebhookApprover (url : string) (interval : Z)
  | OtherApprover (name : string).

Fixpoint Approver_Name (a : Approver) : string :=
  match a with
  | AutoApprover => "auto"
  | ChannelApprover _ => "channel"
  | TimeoutApprover inner _ _ => "timeout(" +:+ Approver_Name inner +:+ ")"
  | WebhookApprover _ _ => "webhook"
  | OtherApprover name => name
  end.

(** [gt_CreatedAt] is the text of the time in RFC 3339, which is all that is used of it. *)
Record GateInfo := mkGateInfo {
  gt_ID : string;
  gt_Description : string;
  gt_Requestor : string;
  gt_Timeout : Z;
  gt_Metadata : gmap string string;
  gt_CreatedAt : string;
}.

(** The maps that the [DefinitionOp]s of one definition share *)
Record def_tables := mkTables {
  dt_ops : gmap string pbOp;
  dt_defs : gmap string (list byte);
  dt_metas : gmap string pbOpMetadata;
  dt_sources : gmap string (list SourceLocation);
}.

Record definition_op := mkDefOp {
  do_tables : def_tables;
  do_inputCache : gmap string (list (option nat));
  do_dgst : string;
  do_index : Z;
}.

(** The vertices; a [ConditionalOp] also has a field [resolved], which is never read. *)
Inductive op :=
  | SourceOp (id : string) (attrs : gmap string string) (c : Constraints) (err : option error)
  | MergeOp (inputs : list (option Output)) (c : Constraints)
  | DiffOp (lower upper : option Output) (c : Constraints)
  | ExecOp (x : exec)
  | FileOp (base : State) (action : option FileAction) (c : Constraints)
  | SolveOp (source : option Output) (info : SolveInfo) (c : Constraints)
  | ConditionalOp (condition : option Condition) (branches : list (string * State)) (defaultBr : option State) (c : Constraints)
  | MatrixOp (axes : list Axis) (fn : option nat) (expanded : option (list State)) (c : Constraints)
  | InspectOp (source : option Output) (maxDepth : Z) (c : Constraints)
  | GateOp (source : option Output) (info : GateInfo) (approver : option Approver) (c : Constraints)
  | DefinitionOp (d : definition_op).

(** A vertex with its [MarshalCache]: the results by the address of the constraints, and
    whether the mutex is held *)
Record node := mkNode { nd_op : op; nd_cache : gmap nat marshalled; nd_locked : bool }.

(** The function of an [asyncState]: the client's, or the one of [Inspect] *)
Inductive async_fn := AsyncUser (f : nat) | AsyncInspect (v : nat).

Record async := mkAsync { as_f : async_fn; as_prev : State }.

Record SourceMap := mkSourceMap {
  sm_State : option State;
  sm_Definition : option Definition';
  sm_Filename : string;
  sm_Language : string;
  sm_Data : list byte;
}.

(** [hp_errs] has the error of each [*errVertex]; [hp_next] is the address of the next
    [*Constraints]. *)
Record heap := mkHeap {
  hp_nodes : list node;
  hp_asyncs : list async;
  hp_cells : cells;
  hp_maps : list SourceMap;
  hp_errs : list error;
  hp_next : nat;
}.

Definition set_nodes (f : list node → list node) (σ : heap) : heap :=
  mkHeap (f (hp_nodes σ)) (hp_asyncs σ) (hp_cells σ) (hp_maps σ) (hp_errs σ) (hp_next σ).
Definition set_cells (cs : cells) (σ : heap) : heap :=
  mkHeap (hp_nodes σ) (hp_asyncs σ) cs (hp_maps σ) (hp_errs σ) (hp_next σ).
Definition set_maps (f : list SourceMap → list SourceMap) (σ : heap) : heap :=
  mkHeap (hp_nodes σ) (hp_asyncs σ) (hp_cells σ) (f (hp_maps σ)) (hp_errs σ) (hp_next σ).

Definition empty_heap : heap := mkHeap [] [] [] [] [] 0.

(** ** Reading and writing *)

Definition getM {A} (f : heap → A) : M heap A := λ σ, Some (f σ, σ).
Definition putM (f : heap → heap) : M heap unit := λ σ, Some (tt, f σ).

(** A pointer that is not an object is not a state that the program can be in. *)
Definition read_node (a : nat) : M heap node := λ σ, match hp_nodes σ !! a with Some n => Some (n, σ) | None => None end.

Definition set_node (a : nat) (n : node) : M heap unit := putM (set_nodes <[a := n]>).

Definition set_op (a : nat) (o : op) : M heap unit :=
  let* n := read_node a in set_node a (mkNode o (nd_cache n) (nd_locked n)).

(** A getter of a state evaluates its closures. *)
Definition readS {A} (get : State → cells → option A * cells) (s : State) : M heap A :=
  λ σ, match get s (hp_cells σ) with (None, _) => None | (Some a, cs) => Some (a, set_cells cs σ) end.

Definition new_node (o : op) : M heap nat :=
  let* a := getM (λ σ, length (hp_nodes σ)) in
  let* _ := putM (set_nodes (λ l, l ++ [mkNode o ∅ false])) in
  retM a.

Definition new_errVertex (e : error) : M heap vertex :=
  λ σ, Some (VErr (length (hp_errs σ)), mkHeap (hp_nodes σ) (hp_asyncs σ) (hp_cells σ) (hp_maps σ) (hp_errs σ ++ [e]) (hp_next σ)).

(** A new [Constraints] value *)
Definition alloc_constraints (c : Constraints) : M heap cptr :=
  λ σ, Some ((hp_next σ, c), mkHeap (hp_nodes σ) (hp_asyncs σ) (hp_cells σ) (hp_maps σ) (hp_errs σ) (S (hp_next σ))).

Definition new_map (sm : SourceMap) : M heap nat :=
  λ σ, Some (length (hp_maps σ), set_maps (λ l, l ++ [sm]) σ).

(** ** [MarshalCache] *)

(** [mc.mu.Lock()] does not return when the mutex is held: there is one caller. *)
Definition Acquire (a : nat) : M heap unit :=
  let* n := read_node a in
  if nd_locked n then panicM else set_node a (mkNode (nd_op n) (nd_cache n) true).

Definition Release (a : nat) : M heap unit :=
  let* n := read_node a in set_node a (mkNode (nd_op n) (nd_cache n) false).

Definition Load (a : nat) (c : cptr) : M heap (option marshalled) :=
  let* n := read_node a in retM (nd_cache n !! c.1).

Definition Store `{OpCodec} (a : nat) (dt : list byte) (md : pbOpMetadata) (srcs : list SourceLocation) (c : cptr) : M heap (result marshalled) :=
  let res := mkMarshalled (digest_FromBytes dt) dt (Some md) srcs in
  let* n := read_node a in
  let* _ := set_node a (mkNode (nd_op n) (<[c.1 := res]> (nd_cache n)) (nd_locked n)) in
  retM (Ok res).

(** [cache := s.cache.Acquire(); defer cache.Release()], the lookup, and the rest *)
Definition cached (a : nat) (c : cptr) (body : M heap (result marshalled)) : M heap (result marshalled) :=
  let* _ := Acquire a in
  let* r := Load a c in
  match r with
  | Some m => let* _ := Release a in retM (Ok m)
  | None => let* r := body in let* _ := Release a in retM r
  end.

(** ** Constructors *)

Definition NewOutput (a : nat) : Output := OutVertex a (IndexConst 0).

(** [var c Constraints], and the options *)
Definition apply_opts (opts : list ConstraintsOpt) : Constraints := foldl (λ c o, o c) no_constraints opts.

(** [State.Async(f)] *)
Definition Async (f : async_fn) (s : State) : M heap State :=
  λ σ, Some (mkState (Some (OutAsync (length (hp_asyncs σ)))) None None None [],
             mkHeap (hp_nodes σ) (hp_asyncs σ ++ [mkAsync f s]) (hp_cells σ) (hp_maps σ) (hp_errs σ) (hp_next σ)).

Section constructors.
Context `{BuildkitPB}.

Definition NewSource (s : source_args) : M heap nat := new_node (SourceOp (sa_id s) (sa_attrs s) (sa_constraints s) None).

Definition source_state (s : source_args) : M heap State := let* a := NewSource s in retM (NewState (Some (NewOutput a))).

Definition Image (ref : string) (opts : list (ImageInfo → ImageInfo)) : M heap State := source_state (image_args ref opts).
Definition Git (url fragment : string) (opts : list (GitInfo → GitInfo)) : M heap State := source_state (git_args url fragment opts).
Definition Local' (name : string) (opts : list (LocalInfo → LocalInfo)) : M heap State := source_state (local_args name opts).
Definition HTTP (url : string) (opts : list (HTTPInfo → HTTPInfo)) : M heap State := source_state (http_args url opts).
Definition OCILayout (ref : string) (opts : list (OCILayoutInfo → OCILayoutInfo)) : M heap State := source_state (oci_args ref opts).

Definition NewMerge (inputs : list State) (c : Constraints) : M heap nat := new_node (MergeOp (State_Output <$> inputs) c).

Definition Merge (inputs : list State) (opts : list ConstraintsOpt) : M heap State :=
  match filter (λ s, State_Output s ≠ None) inputs with
  | [] => retM Scratch
  | [s] => retM s
  | (s :: _) as filtered =>
      let* a := NewMerge filtered (AddCap (apply_opts opts) (pb_Cap "CapMergeOp")) in
      retM (WithOutput (Some (NewOutput a)) s)
  end.

Definition NewDiff (lower upper : State) (c : Constraints) : M heap nat :=
  new_node (DiffOp (State_Output lower) (State_Output upper) (AddCap c (pb_Cap "CapDiffOp"))).

Definition Diff (lower upper : State) (opts : list ConstraintsOpt) : M heap State :=
  match State_Output lower, State_Output upper with
  | None, None => retM Scratch
  | None, Some _ => retM upper
  | Some _, _ => let* a := NewDiff lower upper (apply_opts opts) in retM (WithOutput (Some (NewOutput a)) lower)
  end.

Definition NewFileOp (s : State) (action : option FileAction) (c : Constraints) : M heap nat := new_node (FileOp s action c).

Definition File (base : State) (action : option FileAction) (opts : list ConstraintsOpt) : M heap State :=
  let* a := NewFileOp base action (AddCap (apply_opts opts) (pb_Cap "CapFileBase")) in
  retM (WithOutput (Some (NewOutput a)) base).

Definition NewSolveOp (source : option Output) (opts : list SolveOption) : M heap nat := new_node (SolveOp source (new_solve_info opts) no_constraints).

Definition Solve (inner : State) (opts : list SolveOption) : M heap State :=
  match State_Output inner with
  | None => retM Scratch
  | Some o => let* a := NewSolveOp (Some o) opts in retM (NewState (Some (NewOutput a)))
  end.

Definition NewConditionalOp (cond : option Condition) (branches : list (string * State)) (d : option State) (c : Constraints) : M heap nat :=
  new_node (ConditionalOp cond branches d c).

(** [Switch(cond, branches...)], the methods of its builder and [Build] *)
Definition Switch_Build (cond : option Condition) (branches : list (string * State)) (d : option State) (opts : list ConstraintsOpt) : M heap State :=
  let* a := NewConditionalOp cond branches d (apply_opts opts) in retM (NewState (Some (NewOutput a))).

Definition NewMatrixOp (axes : list Axis) (fn : option nat) (c : Constraints) : M heap nat := new_node (MatrixOp axes fn None c).

Definition Matrix (axes : list Axis) (fn : option nat) (opts : list ConstraintsOpt) : M heap State :=
  let* a := NewMatrixOp axes fn (apply_opts opts) in retM (NewState (Some (NewOutput a))).

(** The option [WithMaxDepth] sets the depth, which is -1 without it. *)
Definition NewInspectOp (source : option Output) (maxDepth : option Z) : M heap nat :=
  new_node (InspectOp source (default (-1)%Z maxDepth) no_constraints).

Definition Inspect (source : State) (maxDepth : option Z) : M heap State :=
  match State_Output source with
  | None => retM Scratch
  | Some o => let* a := NewInspectOp (Some o) maxDepth in Async (AsyncInspect a) (NewState (Some (NewOutput a)))
  end.
End constructors.

(** ** Gates *)

(** The options of [gateop/options.go] *)
Inductive GateOption :=
  | WithGateID (id : string)
  | WithGateDescription (desc : string)
  | WithRequestor (r : string)
  | WithTimeout (d : Z)
  | WithApprover (a : option Approver)
  | WithGateMetadata (key value : string)
  | WithGateConstraints (co : ConstraintsOpt).

Definition apply_gate_option (g : GateInfo * option Approver * Constraints) (o : GateOption) : GateInfo * option Approver * Constraints :=
  let '(mkGateInfo id desc req t md at_, ap, c) := g in
  match o with
  | WithGateID id => (mkGateInfo id desc req t md at_, ap, c)
  | WithGateDescription desc => (mkGateInfo id desc req t md at_, ap, c)
  | WithRequestor req => (mkGateInfo id desc req t md at_, ap, c)
  | WithTimeout t => (mkGateInfo id desc req t md at_, ap, c)
  | WithApprover ap => (mkGateInfo id desc req t md at_, ap, c)
  | WithGateMetadata k v => (mkGateInfo id desc req t (<[k := v]> md) at_, ap, c)
  | WithGateConstraints co => (mkGateInfo id desc req t md at_, ap, co c)
  end.

(** [now] and [created] are the two readings of the clock, as
    [time.Now().String()] and in RFC 3339. *)
Definition generateGateID (now : string) : string :=
  "gate-" +:+ hex_encode (take 8 (sha256 (str_bytes now))).

Definition NewGateOp (now created : string) (source : option Output) (opts : list GateOption) : M heap nat :=
  let '(info, ap, c) :=
    foldl apply_gate_option (mkGateInfo (generateGateID now) EmptyString EmptyString 0 ∅ created, Some AutoApprover, no_constraints) opts in
  new_node (GateOp source info ap c).

Definition Gate (now created : string) (source : State) (opts : list GateOption) : M heap State :=
  match State_Output source with
  | None => retM Scratch
  | Some o => let* a := NewGateOp now created (Some o) opts in retM (NewState (Some (NewOutput a)))
  end.

(** ** Execs *)

Inductive MountOption :=
  | Readonly
  | SourcePath (src : string)
  | ForceNoOutput
  | AsPersistentCacheDir (id : string) (sharing : Z)
  | Tmpfs (size : Z)
  | ContentCacheOpt (c : Z).

Definition apply_mount_option (m : mount) (o : MountOption) : mount :=
  let 'mkMount id t ro src out sel cid tm ts cs no cc := m in
  match o with
  | Readonly => mkMount id t true src out sel cid tm ts cs no cc
  | SourcePath sel => mkMount id t ro src out sel cid tm ts cs no cc
  | ForceNoOutput => mkMount id t ro src out sel cid tm ts cs true cc
  | AsPersistentCacheDir cid cs => mkMount id t ro src out sel cid tm ts cs no cc
  | Tmpfs ts => mkMount id t ro src out sel cid true ts cs no cc
  | ContentCacheOpt cc => mkMount id t ro src out sel cid tm ts cs no cc
  end.

Definition set_output (o : option Output) (m : mount) : mount :=
  let 'mkMount id t ro src _ sel cid tm ts cs no cc := m in mkMount id t ro src o sel cid tm ts cs no cc.

Definition set_mounts (ms : list mount) (x : exec) : exec :=
  mkExec (xc_proxyEnv x) (xc_root x) ms (xc_base x) (xc_constraints x) (xc_isValidated x) (xc_secrets x) (xc_ssh x).

(** A new mount, with its address and the fields at their zero values *)
Definition new_mount (id : nat) (target : string) (source : option Output) : mount :=
  mkMount id target false source None EmptyString EmptyString false 0 0 false 0.

Section execs.
Context `{BuildkitPB}.

(** [e.output] of a mount is the output of the exec [a] with the index function of the mount. *)
Definition mount_output (a : nat) (m : mount) : Output := OutVertex a (IndexMount (mt_id m)).

(** [NewExecOp], and the assignments of [Run] to the secrets of the new exec *)
Definition NewExecOp (base : State) (proxyEnv : option ProxyEnv) (readOnly : bool) (c : Constraints) (secrets ssh : list SecretInfo) : M heap nat :=
  let* a := getM (λ σ, length (hp_nodes σ)) in
  let root := State_Output base in
  let m := new_mount 0 pb_RootMount root in
  let m := if readOnly then apply_mount_option m Readonly else set_output (Some (mount_output a m)) m in
  new_node (ExecOp (mkExec proxyEnv root [m] base c false secrets ssh)).

(** What [AddMount] returns, and the mount that it adds *)
Definition exec_AddMount (a : nat) (target : string) (source : option Output) (opts : list MountOption) (x : exec) : option Output * exec :=
  let m := foldl apply_mount_option (new_mount (length (xc_mounts x)) target source) opts in
  let '(ret, m) :=
    if mt_readonly m || mt_tmpfs m || bool_decide (mt_cacheID m ≠ EmptyString) then (source, set_output source m)
    else if mt_noOutput m then (source, m)
    else (Some (mount_output a m), set_output (Some (mount_output a m)) m) in
  (ret, set_mounts (xc_mounts x ++ [m]) x).

Definition read_exec (a : nat) : M heap exec :=
  let* n := read_node a in match nd_op n with ExecOp x => retM x | _ => panicM end.

Definition AddMount (a : nat) (target : string) (source : option Output) (opts : list MountOption) : M heap (option Output) :=
  let* x := read_exec a in
  let '(ret, x) := exec_AddMount a target source opts x in
  let* _ := set_op a (ExecOp x) in
  retM ret.

(** [GetMount(target)], or nil *)
Definition exec_GetMount (target : string) (x : exec) : option Output :=
  match filter (λ m, mt_target m = target) (xc_mounts x) with m :: _ => mt_output m | [] => None end.

(** [Output()]: an exec always has a mount. *)
Definition exec_Output (x : exec) : option Output := match xc_mounts x with m :: _ => mt_output m | [] => None end.

(** The position among the outputs of the mount [id], as the mounts are ordered now *)
Fixpoint getMountIndex (id : nat) (idx : Z) (ms : list mount) : result Z :=
  match ms with
  | [] => Err (EText ["mount not found in exec op"])
  | m :: ms =>
      if decide (mt_id m = id) then Ok idx
      else getMountIndex id (if bool_decide (mt_output m ≠ None) && negb (mt_readonly m) && negb (mt_tmpfs m) then idx + 1 else idx)%Z ms
  end.

(** An [ExecState] is a state and the address of its exec. *)
Record ExecState := mkExecState { es_State : State; es_exec : nat }.

Definition es_AddMount (es : ExecState) (target : string) (source : State) (opts : list MountOption) : M heap State :=
  let* o := AddMount (es_exec es) target (State_Output source) opts in retM (NewState o).
Definition es_GetMount (es : ExecState) (target : string) : M heap State :=
  let* x := read_exec (es_exec es) in retM (NewState (exec_GetMount target x)).
Definition es_Root (es : ExecState) : M heap State :=
  let* x := read_exec (es_exec es) in retM (NewState (exec_Output x)).

Record ExecInfo := mkExecInfo {
  ei_State : State;
  ei_Constraints : Constraints;
  ei_Mounts : list (string * State * list MountOption);
  ei_Secrets : list SecretInfo;
  ei_SSH : list SecretInfo;
  ei_ReadOnly : bool;
  ei_ProxyEnv : option ProxyEnv;
}.

Definition RunOption := ExecInfo → ExecInfo.

Definition SecretOption := SecretInfo → SecretInfo.
Definition SecretID (id : string) : SecretOption :=
  λ s, mkSecretInfo id (sec_Target s) (sec_Mode s) (sec_UID s) (sec_GID s) (sec_Optional s) (sec_IsEnv s).
Definition SecretAsEnv : SecretOption :=
  λ s, mkSecretInfo (sec_ID s) (sec_Target s) (sec_Mode s) (sec_UID s) (sec_GID s) (sec_Optional s) true.
Definition SecretFileMode (mode : Z) : SecretOption :=
  λ s, mkSecretInfo (sec_ID s) (sec_Target s) mode (sec_UID s) (sec_GID s) (sec_Optional s) (sec_IsEnv s).
Definition SSHID (id : string) : SecretOption := SecretID id.
Definition SSHSocketTarget (target : string) : SecretOption :=
  λ s, mkSecretInfo (sec_ID s) target (sec_Mode s) (sec_UID s) (sec_GID s) (sec_Optional s) (sec_IsEnv s).

Definition AddSecret (target : string) (opts : list SecretOption) : RunOption :=
  λ ei, mkExecInfo (ei_State ei) (ei_Constraints ei) (ei_Mounts ei)
    (ei_Secrets ei ++ [foldl (λ s o, o s) (mkSecretInfo EmptyString target 256 0 0 false false) opts]) (ei_SSH ei) (ei_ReadOnly ei) (ei_ProxyEnv ei).

Definition AddSSH (opts : list SecretOption) : RunOption :=
  λ ei, mkExecInfo (ei_State ei) (ei_Constraints ei) (ei_Mounts ei) (ei_Secrets ei)
    (ei_SSH ei ++ [foldl (λ s o, o s) (mkSecretInfo EmptyString "/run/buildkit/ssh_agent.0" 384 0 0 false false) opts]) (ei_ReadOnly ei) (ei_ProxyEnv ei).

Definition WithProxy (env : ProxyEnv) : RunOption :=
  λ ei, mkExecInfo (ei_State ei) (ei_Constraints ei) (ei_Mounts ei) (ei_Secrets ei) (ei_SSH ei) (ei_ReadOnly ei) (Some env).

Definition Args (a : list string) : RunOption :=
  λ ei, mkExecInfo (With [ArgsOption a] (ei_State ei)) (ei_Constraints ei) (ei_Mounts ei) (ei_Secrets ei) (ei_SSH ei) (ei_ReadOnly ei) (ei_ProxyEnv ei).

Definition Shlex (str : string) : RunOption := Args [str].

Definition run_AddMount (target : string) (source : State) (opts : list MountOption) : RunOption :=
  λ ei, mkExecInfo (ei_State ei) (ei_Constraints ei) (ei_Mounts ei ++ [(target, source, opts)]) (ei_Secrets ei) (ei_SSH ei) (ei_ReadOnly ei) (ei_ProxyEnv ei).

Definition ReadonlyRootFS : RunOption :=
  λ ei, mkExecInfo (ei_State ei) (ei_Constraints ei) (ei_Mounts ei) (ei_Secrets ei) (ei_SSH ei) true (ei_ProxyEnv ei).

Fixpoint add_mounts (a : nat) (ms : list (string * State * list MountOption)) : M heap unit :=
  match ms with
  | [] => retM tt
  | (t, s, opts) :: ms => let* _ := AddMount a t (State_Output s) opts in add_mounts a ms
  end.

Definition Run (base : State) (opts : list RunOption) : M heap ExecState :=
  let ei := foldl (λ ei o, o ei) (mkExecInfo base no_constraints [] [] [] false None) opts in
  let* a := NewExecOp (ei_State ei) (ei_ProxyEnv ei) (ei_ReadOnly ei) (ei_Constraints ei) (ei_Secrets ei) (ei_SSH ei) in
  let* _ := add_mounts a (ei_Mounts ei) in
  let* x := read_exec a in
  retM (mkExecState (NewState (exec_Output x)) a).
End execs.
