(* ===== verification/LbOps.v ===== *)
(** * LbOps: the methods of vertices and outputs

    Models the methods [Vertex] and [ToInput] of the outputs ([output.go], [async.go]), and
    [Validate], [Inputs] and [Marshal] of every vertex in [src/client/llb/ops], as calls on the
    heap of [LbHeap].  The methods call each other through the interfaces: each is written for
    an instance [G] of [LLBGraph], and [go_ops n] is the instance in which calls are nested at
    most [n] deep. *)
From S2P Require Import Prelude GoStd GoNum GoPath LbTypes LbState LbGraph LbAttrs LbHeap.
#[local] Open Scope go_scope.

(** ** The code of the client *)

(** The functions that a client gives the package, and the process it runs in *)
Class Client := {
  user_async : nat → State → cptr → M heap (result State);
  user_matrix : nat → cell → M heap State;
  user_condition : nat → M heap (result string);
  user_predicate : nat → M heap (result bool);
  os_Getenv : string → string;
  GOOS : string;
  GOARCH : string;
}.

(** ** Addresses of hosts *)

(** Two bytes of an IPv6 address in hexadecimal, with no zeros in front *)
Definition hex16 (hi lo : byte) : string :=
  let fix drop_zeros (n : nat) (s : string) : string :=
    match n, s with S n, String "0" s' => drop_zeros n s' | _, _ => s end in
  drop_zeros 3 (hex_encode [hi; lo]).

(** [netip.Addr.String]: the first longest run of zeros, of two groups or more, is [::]. *)
Fixpoint zero_run (l : list (byte * byte)) : nat :=
  match l with (Byte.x00, Byte.x00) :: l => S (zero_run l) | _ => 0 end.

Fixpoint longest_run (i : nat) (l : list (byte * byte)) (best : nat * nat) : nat * nat :=
  match l with
  | [] => best
  | _ :: l' => let n := zero_run l in longest_run (S i) l' (if decide (2 ≤ n ∧ best.2 < n) then (i, n) else best)
  end.

Fixpoint byte_pairs (b : list byte) : list (byte * byte) :=
  match b with x :: y :: b => (x, y) :: byte_pairs b | _ => [] end.

Definition ip6_String (b : list byte) : string :=
  let l := byte_pairs b in
  let groups l := str_join ":" ((λ p : byte * byte, hex16 p.1 p.2) <$> l) in
  match longest_run 0 l (0, 0) with
  | (_, 0) => groups l
  | (i, n) => groups (take i l) +:+ "::" +:+ groups (drop (i + n) l)
  end.

(** [net.IP.String] *)
Definition ip_String (b : list byte) : string :=
  let ip4 (b : list byte) := str_join "." ((λ x, strconv_Itoa (Z.of_N (Byte.to_N x))) <$> b) in
  match b with
  | [] => "<nil>"
  | _ =>
      if decide (length b = 4) then ip4 b
      else if decide (length b = 16) then
        if decide (take 12 b = replicate 10 Byte.x00 ++ [Byte.xff; Byte.xff]) then ip4 (drop 12 b) else ip6_String b
      else "?" +:+ hex_encode b
  end.

Section methods.
Context `{BuildkitPB, OpCodec, Client, GoSort, GoRange}.

(** ** Conditions *)

Fixpoint Evaluate (cond : Condition) : M heap (result string) :=
  match cond with
  | EnvCondition name => retM (Ok (os_Getenv name))
  | LiteralCondition key => retM (Ok key)
  | PlatformCondition => retM (Ok GOOS)
  | ArchCondition => retM (Ok GOARCH)
  | BoolCondition p => let? v := user_predicate p in retM (Ok (if v then "true" else "false"))
  | NotCondition cond => let? v := Evaluate cond in retM (Ok (if decide (v = "true") then "false" else "true"))
  | ConditionFunc f => user_condition f
  end.

(** [selectBranch] *)
Definition selectBranch (branches : list (string * State)) (d : option State) (key : string) : option State :=
  match filter (λ br, br.1 = key) branches with br :: _ => Some br.2 | [] => d end.

(** ** Definitions *)

(** [loadOrCreateInput]: the cached vertex for an input, or a new one, which is cached.  A
    negative index is out of range. *)
Definition loadOrCreateInput (a : nat) (input : Input) : M heap nat :=
  let* n := read_node a in
  match nd_op n with
  | DefinitionOp d =>
      if decide (in_Index input < 0)%Z then panicM
      else
        let i := Z.to_nat (in_Index input) in
        let arr := default [] (do_inputCache d !! in_Digest input) in
        match arr !! i with
        | Some (Some v) => retM v
        | _ =>
            let* v := new_node (DefinitionOp (mkDefOp (do_tables d) ∅ (in_Digest input) (in_Index input))) in
            let arr := arr ++ replicate (S i - length arr) None in
            let d := mkDefOp (do_tables d) (<[in_Digest input := <[i := Some v]> arr]> (do_inputCache d)) (do_dgst d) (do_index d) in
            let* _ := set_op a (DefinitionOp d) in
            retM v
        end
  | _ => panicM
  end.

(** [Output()] of a definition: nil for the empty digest *)
Definition def_Output (a : nat) (d : definition_op) : option Output :=
  if decide (do_dgst d = EmptyString) then None else Some (OutVertex a (IndexConst (do_index d))).

Fixpoint def_inputs (a : nat) (inputs : list Input) : M heap (list (option Output)) :=
  match inputs with
  | [] => retM []
  | input :: inputs =>
      let* v := loadOrCreateInput a input in
      let* n := read_node v in
      let* l := def_inputs a inputs in
      retM ((match nd_op n with DefinitionOp d => def_Output v d | _ => None end) :: l)
  end.

Definition def_Validate (d : definition_op) : option error :=
  let t := do_tables d in
  let len {A} (m : gmap string A) := strconv_Itoa (Z.of_nat (size m)) in
  if decide (do_dgst d = EmptyString) then None
  else if decide (dt_ops t = ∅ ∨ dt_defs t = ∅ ∨ dt_metas t = ∅)
  then Some (EText ["invalid definition op: ops="; len (dt_ops t); " defs="; len (dt_defs t); " metas="; len (dt_metas t)])
  else if decide (dt_ops t !! do_dgst d = None) then Some (EText ["definition op references unknown op "; do_dgst d])
  else if decide (dt_defs t !! do_dgst d = None) then Some (EText ["definition op references unknown def "; do_dgst d])
  else if decide (dt_metas t !! do_dgst d = None) then Some (EText ["definition op references unknown metadata "; do_dgst d])
  else if decide (do_index d < 0)%Z then Some (EText ["definition op has invalid output index"])
  else None.

(** A missing metadata would be a nil pointer; [Validate] has excluded it. *)
Definition def_Marshal_op (d : definition_op) : result marshalled :=
  if decide (do_dgst d = EmptyString) then Err (EText ["cannot marshal empty definition op"])
  else
    match def_Validate d with
    | Some e => Err e
    | None =>
        let t := do_tables d in
        Ok (mkMarshalled (do_dgst d) (default [] (dt_defs t !! do_dgst d)) (dt_metas t !! do_dgst d) (default [] (dt_sources t !! do_dgst d)))
    end.

(** ** Matrices *)

Fixpoint expand_cells (f : nat) (cells : list cell) : M heap (list State) :=
  match cells with
  | [] => retM []
  | c :: cells => let* s := user_matrix f c in let* l := expand_cells f cells in retM (s :: l)
  end.

(** [expand], on the matrix at [a]; the call of a nil function panics. *)
Definition expand (a : nat) : M heap (list State) :=
  let* n := read_node a in
  match nd_op n with
  | MatrixOp axes fn None c =>
      let* states :=
        match cartesianProduct axes, fn with
        | [], _ => retM []
        | cells, Some f => expand_cells f cells
        | _, None => panicM
        end in
      let* _ := set_op a (MatrixOp axes fn (Some states) c) in
      retM states
  | MatrixOp _ _ (Some states) _ => retM states
  | _ => panicM
  end.

Fixpoint matrix_axes_error (axes : list Axis) : option error :=
  match axes with
  | [] => None
  | a :: axes =>
      if decide (ax_Values a = []) then Some (EText ["matrix axis "; ax_Name a; " must have at least one value"]) else matrix_axes_error axes
  end.

(** ** [Validate] *)

Definition non_nil {A} (msg : string) (x : option A) : result unit := match x with Some _ => Ok tt | None => Err (EText [msg]) end.

(** The validation of an exec reads the arguments of its state, once it is not validated. *)
Definition exec_Validate (a : nat) : M heap (result unit) :=
  let* x := read_exec a in
  if xc_isValidated x then retM (Ok tt)
  else
    let* args := readS GetArgs (xc_base x) in
    match args with
    | [] => retM (Err (EText ["exec requires at least one argument (the command to run)"]))
    | _ =>
        let* _ := set_op a (ExecOp (mkExec (xc_proxyEnv x) (xc_root x) (xc_mounts x) (xc_base x) (xc_constraints x) true (xc_secrets x) (xc_ssh x))) in
        retM (Ok tt)
    end.

Definition source_Validate (id : string) (err : option error) : result unit :=
  match err with Some e => Err e | None => if decide (id = EmptyString) then Err (ESentinel "source identifier must not be empty") else Ok tt end.

Definition merge_Validate (inputs : list (option Output)) : result unit :=
  if decide (length inputs < 2) then Err (EText ["merge must have at least 2 inputs, got "; strconv_Itoa (Z.of_nat (length inputs))]) else Ok tt.

Definition diff_Validate : result unit := Ok tt.

Definition file_Validate (action : option FileAction) : result unit := non_nil "file op requires at least one action" action.

Definition solve_Validate (source : option Output) : result unit := non_nil "solve op requires a source (inner LLB definition)" source.

Definition conditional_Validate (cond : option Condition) (branches : list (string * State)) (d : option State) : result unit :=
  match cond with
  | None => Err (EText ["conditional op requires a condition"])
  | Some _ => if decide (branches = [] ∧ d = None) then Err (EText ["conditional op requires at least one branch or a default"]) else Ok tt
  end.

Definition matrix_Validate (axes : list Axis) (fn : option nat) : result unit :=
  if decide (axes = []) then Err (EText ["matrix op requires at least one axis"])
  else match matrix_axes_error axes with Some e => Err e | None => non_nil "matrix op requires a MatrixFn" fn end.

Definition inspect_Validate (source : option Output) : result unit := non_nil "inspect op requires a source to introspect" source.

Definition gate_Validate (source : option Output) (info : GateInfo) (approver : option Approver) : result unit :=
  match source, approver with
  | None, _ => Err (EText ["gate op requires a source state to gate"])
  | _, None => Err (EText ["gate op requires an approver"])
  | _, _ => if decide (gt_ID info = EmptyString) then Err (EText ["gate op requires an ID"]) else Ok tt
  end.

Definition errVertex_error (n : nat) : M heap error := λ σ, match hp_errs σ !! n with Some e => Some (e, σ) | None => None end.

Definition Validate (v : vertex) : M heap (result unit) :=
  match v with
  | VErr n => let* e := errVertex_error n in retM (Err e)
  | VNode a =>
      let* n := read_node a in
      match nd_op n with
      | SourceOp id _ _ err => retM (source_Validate id err)
      | MergeOp inputs _ => retM (merge_Validate inputs)
      | DiffOp _ _ _ => retM diff_Validate
      | ExecOp _ => exec_Validate a
      | FileOp _ action _ => retM (file_Validate action)
      | SolveOp source _ _ => retM (solve_Validate source)
      | ConditionalOp cond branches d _ => retM (conditional_Validate cond branches d)
      | MatrixOp axes fn _ _ => retM (matrix_Validate axes fn)
      | InspectOp source _ _ => retM (inspect_Validate source)
      | GateOp source info approver _ => retM (gate_Validate source info approver)
      | DefinitionOp d => retM (match def_Validate d with Some e => Err e | None => Ok tt end)
      end
  end.

(** ** [Inputs] *)

Definition opt_list (l : list (option Output)) : list (option Output) := filter (λ o, o ≠ None) l.

(** The outputs of a chain of file actions, each once *)
Fixpoint file_inputs (chain : list (option State * subAction)) (seen : list Output) : list Output :=
  match chain with
  | [] => []
  | (st, _) :: chain =>
      match st with
      | Some s =>
          match State_Output s with
          | Some o => if decide (o ∈ seen) then file_inputs chain seen else o :: file_inputs chain (o :: seen)
          | None => file_inputs chain seen
          end
      | None => file_inputs chain seen
      end
  end.

Definition action_chain (action : option FileAction) : list (option State * subAction) :=
  match action with Some a => fa_chain a | None => [] end.

Definition diff_Inputs (lower upper : option Output) : list (option Output) := opt_list [lower; upper].

Definition exec_Inputs (x : exec) : list (option Output) := opt_list (mt_source <$> xc_mounts x).

Definition file_Inputs (base : State) (action : option FileAction) : list (option Output) :=
  let seen := match State_Output base with Some o => [o] | None => [] end in
  Some <$> seen ++ file_inputs (action_chain action) seen.

(** The inputs of the vertices that have one source *)
Definition source_Inputs (source : option Output) : list (option Output) := opt_list [source].

Definition conditional_Inputs (branches : list (string * State)) (d : option State) : list (option Output) :=
  opt_list ((State_Output ∘ snd <$> branches) ++ [match d with Some s => State_Output s | None => None end]).

Definition matrix_Inputs (a : nat) : M heap (list (option Output)) :=
  let* states := expand a in retM (opt_list (State_Output <$> states)).

Definition def_Inputs (a : nat) (d : definition_op) : M heap (list (option Output)) :=
  if decide (do_dgst d = EmptyString) then retM []
  else match dt_ops (do_tables d) !! do_dgst d with Some op => def_inputs a (op_Inputs op) | None => panicM end.

Definition Inputs (v : vertex) : M heap (list (option Output)) :=
  match v with
  | VErr _ => retM []
  | VNode a =>
      let* n := read_node a in
      match nd_op n with
      | SourceOp _ _ _ _ => retM []
      | MergeOp inputs _ => retM inputs
      | DiffOp lower upper _ => retM (diff_Inputs lower upper)
      | ExecOp x => retM (exec_Inputs x)
      | FileOp base action _ => retM (file_Inputs base action)
      | SolveOp source _ _ | InspectOp source _ _ | GateOp source _ _ _ => retM (source_Inputs source)
      | ConditionalOp _ branches d _ => retM (conditional_Inputs branches d)
      | MatrixOp _ _ _ _ => matrix_Inputs a
      | DefinitionOp d => def_Inputs a d
      end
  end.

(** ** Calls through the interfaces *)

Section step.
Context (G : LLBGraph vertex Output heap).

(** The methods of an interface that may be nil: a call of nil panics. *)
Definition ToInput_of (o : option Output) (c : cptr) : M heap (result (option Input)) :=
  match o with Some o => out_ToInput o c | None => panicM end.

Definition Vertex_of (o : option Output) (c : cptr) : M heap (option vertex) :=
  match o with Some o => out_Vertex o c | None => panicM end.

Definition Marshal_of (v : option vertex) (c : cptr) : M heap (result marshalled) :=
  match v with Some v => v_Marshal v c | None => panicM end.

(** A nil element of a repeated field is encoded as an empty message. *)
Definition input_of (i : option Input) : Input := match i with Some i => i | None => mkInput EmptyString 0 end.

(** *** Inspection *)

Record inspection := mkInspection {
  in_visited : gset vertex;
  in_result : InspectResult;
}.

Definition inspect_found (v : vertex) (depth : nat) (m : marshalled) (s : inspection) : inspection :=
  let r := in_result s in
  mkInspection (in_visited s)
    (mkInspectResult (ir_Vertices r ++ [mkVertexInfo (mr_digest m) "unknown" (length (ir_Vertices r))]) (ir_Edges r)
       (match mr_md m with Some md => <[mr_digest m := md]> (ir_Metadata r) | None => ir_Metadata r end)
       (Nat.max (ir_Depth r) depth) (ir_TotalOps r)).

Definition inspect_edge (e : string * string) (s : inspection) : inspection :=
  let r := in_result s in
  mkInspection (in_visited s) (mkInspectResult (ir_Vertices r) (ir_Edges r ++ [e]) (ir_Metadata r) (ir_Depth r) (ir_TotalOps r)).

(** A loop that cannot fail *)
Fixpoint each {A B} (f : A → B → M heap B) (l : list A) (b : B) : M heap B :=
  match l with [] => retM b | a :: l => let* b := f a b in each f l b end.

(** [walk]; a vertex that does not marshal is visited, and left out with what is below it. *)
Fixpoint inspect_walk (fuel : nat) (maxDepth : Z) (c : cptr) (out : option Output) (depth : nat) (s : inspection) : M heap inspection :=
  match fuel with
  | 0 => panicM
  | S fuel =>
      match out with
      | None => retM s
      | Some o =>
          if decide (0 ≤ maxDepth ∧ maxDepth < Z.of_nat depth)%Z then retM s
          else
            let* v := out_Vertex o c in
            match v with
            | None => retM s
            | Some v =>
                if decide (v ∈ in_visited s) then retM s
                else
                  let s := mkInspection ({[v]} ∪ in_visited s) (in_result s) in
                  let* r := v_Marshal v c in
                  match r with
                  | Err _ => retM s
                  | Ok m =>
                      let* inputs := v_Inputs v in
                      each (λ inp s,
                        match inp with
                        | None => retM s
                        | Some i =>
                            let* w := out_Vertex i c in
                            let* s :=
                              match w with
                              | None => retM s
                              | Some w =>
                                  let* r := v_Marshal w c in
                                  retM (match r with Ok m' => inspect_edge (mr_digest m, mr_digest m') s | Err _ => s end)
                              end in
                            inspect_walk fuel maxDepth c inp (depth + 1) s
                        end) inputs (inspect_found v depth m s)
                  end
            end
      end
  end.

Definition collectMetadata (fuel : nat) (source : option Output) (maxDepth : Z) (c : cptr) : M heap InspectResult :=
  let* s := inspect_walk fuel maxDepth c source 0 (mkInspection ∅ (mkInspectResult [] [] ∅ 0 0)) in
  let r := in_result s in
  retM (mkInspectResult (ir_Vertices r) (ir_Edges r) (ir_Metadata r) (ir_Depth r) (length (ir_Vertices r))).

(** [ResultKey] *)
Definition ResultKey : contextKey := keyOther "llb.inspect.result".

(** *** Outputs *)

(** [asyncState.Do]: with one caller, each call runs the function. *)
Definition async_Do (fuel : nat) (a : nat) (c : cptr) : M heap (result State) :=
  λ σ, match hp_asyncs σ !! a with
       | None => None
       | Some (mkAsync (AsyncUser f) prev) => user_async f prev c σ
       | Some (mkAsync (AsyncInspect v) prev) =>
           (let* n := read_node v in
            match nd_op n with
            | InspectOp source maxDepth _ =>
                let* r := collectMetadata fuel source maxDepth c in
                retM (Ok (WithValue ResultKey (AnyInspect r) prev))
            | _ => panicM
            end) σ
       end.

Definition step_Vertex (fuel : nat) (o : Output) (c : cptr) : M heap (option vertex) :=
  match o with
  | OutVertex v _ => retM (Some (VNode v))
  | OutDef v => retM (Some (VNode v))
  | OutAsync a =>
      let* target := async_Do fuel a c in
      match target with
      | Err e => let* v := new_errVertex e in retM (Some v)
      | Ok s => match State_Output s with None => retM None | Some o => out_Vertex o c end
      end
  end.

(** [output.ToInput]: the index comes first. *)
Definition output_ToInput (v : nat) (index : out_index) (c : cptr) : M heap (result (option Input)) :=
  let? i :=
    match index with
    | IndexConst i => retM (Ok i)
    | IndexMount id => let* x := read_exec v in retM (getMountIndex id 0 (xc_mounts x))
    end in
  let? m := v_Marshal (VNode v) c in
  retM (Ok (Some (mkInput (mr_digest m) i))).

Definition step_ToInput (fuel : nat) (o : Output) (c : cptr) : M heap (result (option Input)) :=
  match o with
  | OutVertex v index => output_ToInput v index c
  | OutDef v =>
      let* n := read_node v in
      match nd_op n with
      | DefinitionOp d => match def_Output v d with Some (OutVertex v index) => output_ToInput v index c | _ => panicM end
      | _ => panicM
      end
  | OutAsync a =>
      let? s := async_Do fuel a c in
      match State_Output s with None => retM (Ok None) | Some o => out_ToInput o c end
  end.

(** *** Marshal *)

(** [DeterministicMarshal] and [cache.Store] *)
Definition finish (a : nat) (c : cptr) (own : Constraints) (pop : pbOp) (md : pbOpMetadata) : M heap (result marshalled) :=
  match DeterministicMarshal pop with
  | Err e => retM (Err e)
  | Ok dt => Store a dt md (co_SourceLocations own) c
  end.

Definition no_platform (o : pbOp) : pbOp := mkPbOp (op_Inputs o) (op_Payload o) None (op_Filter o).

(** The inputs of an operation, one after the other *)
Fixpoint add_inputs (c : cptr) (outs : list (option Output)) (pop : pbOp) : M heap (result pbOp) :=
  match outs with
  | [] => retM (Ok pop)
  | o :: outs => let? i := ToInput_of o c in add_inputs c outs (add_input (input_of i) pop)
  end.

(** The number of an input that may be missing, and the operation with it *)
Definition add_optional (c : cptr) (o : option Output) (pop : pbOp) : M heap (result (Z * pbOp)) :=
  match o with
  | None => retM (Ok (pb_Empty, pop))
  | Some o => let? i := out_ToInput o c in retM (Ok (Z.of_nat (length (op_Inputs pop)), add_input (input_of i) pop))
  end.

(** The mounts of an exec *)
Definition mount_message (m : mount) (input : Z) : pbMount :=
  let kind :=
    if mt_tmpfs m then MT_TMPFS else if decide (mt_cacheID m ≠ EmptyString) then MT_CACHE else MT_BIND in
  mkPbMount input (mt_selector m) (mt_target m)
    (if bool_decide (mt_output m ≠ None) && negb (mt_readonly m) && negb (mt_tmpfs m) then 0%Z else pb_SkipOutput)
    (mt_readonly m) kind
    (if mt_tmpfs m && bool_decide (0 < mt_tmpfsSize m)%Z then Some (mt_tmpfsSize m) else None)
    (match kind with MT_CACHE => Some (mt_cacheID m, mt_cacheSharing m) | _ => None end) None None.

Fixpoint exec_mounts (c : cptr) (ms : list mount) (pop : pbOp) (acc : list pbMount) : M heap (result (pbOp * list pbMount)) :=
  match ms with
  | [] => retM (Ok (pop, acc))
  | m :: ms => let? r := add_optional c (mt_source m) pop in exec_mounts c ms r.2 (acc ++ [mount_message m r.1])
  end.

Definition secret_message (kind : MountType) (s : SecretInfo) : pbMount :=
  let o := mkSecretOpt (sec_ID s) (Z.to_N (sec_UID s mod 2 ^ 32)) (Z.to_N (sec_GID s mod 2 ^ 32))
             (Z.to_N (sec_Mode s mod 2 ^ 32)) (sec_Optional s) in
  mkPbMount pb_Empty EmptyString (sec_Target s) pb_SkipOutput false kind None None
    (if decide (kind = MT_SECRET) then Some o else None) (if decide (kind = MT_SECRET) then None else Some o).

(** What an exec reads from its state *)
Definition exec_meta (x : exec) : M heap (pbExecMeta * Z) :=
  let s := xc_base x in
  let* args := readS GetArgs s in
  let* cwd := readS GetDir s in
  let* env := readS GetEnv s in
  let* user := readS GetUser s in
  let* host := readS GetHostname s in
  let* hosts := readS GetExtraHosts s in
  let* network := readS GetNetwork s in
  retM (mkPbExecMeta args (el_ToArray env) cwd user host (xc_proxyEnv x) ((λ h, (hi_Host h, ip_String (hi_IP h))) <$> hosts), network).

Definition marshal_exec (a : nat) (c : cptr) : M heap (result marshalled) :=
  let* x := read_exec a in
  let '(pop, md) := MarshalConstraints c.2 (xc_constraints x) in
  let* mt := exec_meta x in
  let x := set_mounts (sort_slice mt_target (xc_mounts x)) x in
  let* _ := set_op a (ExecOp x) in
  let? r := exec_mounts c (xc_mounts x) pop [] in
  let '(pop, mounts) := r in
  let env_secrets := filter (λ s, sec_IsEnv s = true) (xc_secrets x) in
  let file_secrets := filter (λ s, sec_IsEnv s = false) (xc_secrets x) in
  let peo := mkPbExec mt.1 (mounts ++ (secret_message MT_SECRET <$> file_secrets) ++ (secret_message MT_SSH <$> xc_ssh x)) mt.2
    ((λ s, mkSecretEnv (sec_ID s) (sec_Target s) (sec_Optional s)) <$> env_secrets) in
  finish a c (xc_constraints x) (set_payload (Op_Exec peo) pop) md.

(** The sources of the copies become inputs; each action has the number of its own, which is
    the base state's where there is none. *)
Fixpoint file_sources (c : cptr) (states : list (option State)) (pop : pbOp) (acc : list Z) : M heap (result (pbOp * list Z)) :=
  match states with
  | [] => retM (Ok (pop, acc))
  | st :: states =>
      match match st with Some s => State_Output s | None => None end with
      | None => file_sources c states pop (acc ++ [0%Z])
      | Some o =>
          let? i := out_ToInput o c in
          file_sources c states (add_input (input_of i) pop) (acc ++ [Z.of_nat (length (op_Inputs pop))])
      end
  end.

Definition marshal_file (a : nat) (base : State) (action : option FileAction) (own : Constraints) (c : cptr) : M heap (result marshalled) :=
  let '(pop, md) := MarshalConstraints c.2 own in
  let chain := reverse (action_chain action) in
  let? r := add_optional c (State_Output base) pop in
  let? r := file_sources c chain.*1 r.2 [] in
  let actions := zip_with (λ act base, mkPbFileAction base pb_Empty 0 (toProtoAction act)) chain.*2 r.2 in
  finish a c own (set_payload (Op_File actions) r.1) md.

Definition marshal_merge (a : nat) (inputs : list (option Output)) (own : Constraints) (c : cptr) : M heap (result marshalled) :=
  let '(pop, md) := MarshalConstraints c.2 own in
  let? pop := add_inputs c inputs (no_platform pop) in
  finish a c own (set_payload (Op_Merge (Z.of_nat <$> seq 0 (length inputs))) pop) md.

Definition marshal_diff (a : nat) (lower upper : option Output) (own : Constraints) (c : cptr) : M heap (result marshalled) :=
  let '(pop, md) := MarshalConstraints c.2 own in
  let? l := add_optional c lower (no_platform pop) in
  let? u := add_optional c upper l.2 in
  finish a c own (set_payload (Op_Diff l.1 u.1) u.2) md.

Definition marshal_solve (a : nat) (source : option Output) (info : SolveInfo) (own : Constraints) (c : cptr) : M heap (result marshalled) :=
  let '(pop, md) := MarshalConstraints c.2 own in
  match buildAttrs info with
  | None => panicM
  | Some attrs =>
      let? pop := add_inputs c [source] (set_payload (Op_Build pb_LLBBuilder {[pb_LLBDefinitionInput := 0%Z]} attrs) pop) in
      finish a c own pop md
  end.

Definition marshal_conditional (a : nat) (cond : Condition) (branches : list (string * State)) (d : option State) (own : Constraints) (c : cptr) : M heap (result marshalled) :=
  let* key := Evaluate cond in
  match key with
  | Err e => retM (Err (EWrap ["conditional evaluation failed"] e))
  | Ok key =>
      match selectBranch branches d key with
      | None => retM (Err (EText ["no branch matched key "; key; " and no default provided"]))
      | Some s =>
          match State_Output s with
          | None =>
              let '(pop, md) := MarshalConstraints c.2 own in
              finish a c own (set_payload (Op_Source ("conditional://" +:+ key) {["conditional.key" := key]}) pop) md
          | Some o =>
              let* v := out_Vertex o c in
              match v with
              | None => retM (Err (EText ["selected branch has nil vertex"]))
              | Some v => v_Marshal v c
              end
          end
      end
  end.

Definition marshal_matrix (a : nat) (c : cptr) : M heap (result marshalled) :=
  let* states := expand a in
  match states with
  | [] => retM (Err (EText ["matrix expansion produced no states"]))
  | [s] =>
      match State_Output s with
      | None => retM (Err (EText ["matrix cell produced scratch state"]))
      | o => let* v := Vertex_of o c in Marshal_of v c
      end
  | _ =>
      let* merged := Merge states [] in
      let* v := Vertex_of (State_Output merged) c in Marshal_of v c
  end.

Fixpoint inspect_attrs (idx : nat) (vs : list VertexInfo) (attrs : gmap string string) : option (gmap string string) :=
  match vs with
  | [] => Some attrs
  | v :: vs =>
      match intToStr (i64 (Z.of_nat idx)) with
      | None => None
      | Some n =>
          let prefix := "inspect.vertex." +:+ n in
          inspect_attrs (S idx) vs (<[prefix +:+ ".type" := vi_OpType v]> (<[prefix +:+ ".digest" := vi_Digest v]> attrs))
      end
  end.

Definition marshal_inspect (fuel : nat) (a : nat) (source : option Output) (maxDepth : Z) (own : Constraints) (c : cptr) : M heap (result marshalled) :=
  let* result := collectMetadata fuel source maxDepth c in
  let '(pop, md) := MarshalConstraints c.2 own in
  let? pop := add_inputs c [source] pop in
  match intToStr (i64 (Z.of_nat (ir_TotalOps result))), intToStr (i64 (Z.of_nat (ir_Depth result))) with
  | Some total, Some depth =>
      match inspect_attrs 0 (ir_Vertices result) (<["inspect.depth" := depth]> {["inspect.total_ops" := total]}) with
      | Some attrs => finish a c own (set_payload (Op_Source "inspect://dag" attrs) pop) md
      | None => panicM
      end
  | _, _ => panicM
  end.

Definition gate_attrs (info : GateInfo) (name : string) : gmap string string :=
  let attrs :=
    <["gate.id" := gt_ID info]> (<["gate.description" := gt_Description info]> (<["gate.requestor" := gt_Requestor info]>
      (<["gate.created_at" := gt_CreatedAt info]> {["gate.approver" := name]}))) in
  let attrs := if decide (0 < gt_Timeout info)%Z then <["gate.timeout" := Duration_String (gt_Timeout info)]> attrs else attrs in
  put_all "gate.meta." (gt_Metadata info) attrs.

Definition marshal_gate (a : nat) (source : option Output) (info : GateInfo) (approver : option Approver) (own : Constraints) (c : cptr) : M heap (result marshalled) :=
  let '(pop, md) := MarshalConstraints c.2 own in
  let? pop := add_inputs c [source] pop in
  match approver with
  | None => panicM
  | Some ap => finish a c own (set_payload (Op_Source ("gate://" +:+ gt_ID info) (gate_attrs info (Approver_Name ap))) pop) md
  end.

Definition marshal_source (a : nat) (id : string) (attrs : gmap string string) (own : Constraints) (c : cptr) : M heap (result marshalled) :=
  let '(pop, md) := MarshalConstraints c.2 own in finish a c own (set_payload (Op_Source id attrs) pop) md.

(** [Marshal], after [cache.Load] *)
Definition marshal_body (fuel : nat) (a : nat) (c : cptr) : M heap (result marshalled) :=
  let? _ := Validate (VNode a) in
  let* n := read_node a in
  match nd_op n with
  | SourceOp id attrs own _ => marshal_source a id attrs own c
  | MergeOp inputs own => marshal_merge a inputs own c
  | DiffOp lower upper own => marshal_diff a lower upper own c
  | ExecOp _ => marshal_exec a c
  | FileOp base action own => marshal_file a base action own c
  | SolveOp source info own => marshal_solve a source info own c
  | ConditionalOp cond branches d own =>
      match cond with Some cond => marshal_conditional a cond branches d own c | None => panicM end
  | MatrixOp _ _ _ _ => marshal_matrix a c
  | InspectOp source maxDepth own => marshal_inspect fuel a source maxDepth own c
  | GateOp source info approver own => marshal_gate a source info approver own c
  | DefinitionOp d => retM (def_Marshal_op d)
  end.

(** A definition has no cache and an error vertex only its error; the others have their lock
    during the body. *)
Definition step_Marshal (fuel : nat) (v : vertex) (c : cptr) : M heap (result marshalled) :=
  match v with
  | VErr n => let* e := errVertex_error n in retM (Err e)
  | VNode a =>
      let* n := read_node a in
      match nd_op n with
      | DefinitionOp d => retM (def_Marshal_op d)
      | _ => cached a c (marshal_body fuel a c)
      end
  end.
End step.

(** Calls nested at most [n] deep *)
Fixpoint go_ops (n : nat) : LLBGraph vertex Output heap :=
  match n with
  | 0 => {| out_Vertex := λ _ _, panicM; out_ToInput := λ _ _, panicM; v_Inputs := Inputs; v_Marshal := λ _ _, panicM |}
  | S n =>
      let G := go_ops n in
      {| out_Vertex := step_Vertex G n; out_ToInput := step_ToInput G n; v_Inputs := Inputs; v_Marshal := step_Marshal G n |}
  end.
End methods.
