(* ===== verification/LbValues.v ===== *)
(** * LbValues: numbers, matrices, attributes and mounts

    What the values that the operations compute are: the decimal numbers of an inspection, the
    cells of a matrix, the attributes of a nested solve, and the outputs of an exec. *)
From S2P Require Import Prelude GoStd GoNum GoPath LbTypes LbState LbGraph LbAttrs LbHeap LbOps.
#[local] Open Scope go_scope.

(** ** Numbers *)

(** C40: [intToStr] writes every 64-bit integer in decimal, but the least one, which it writes as
    a sign with no digits: the negation of it wraps around. *)
Theorem intToStr_decimal n : (- 2 ^ 63 ≤ n < 2 ^ 63)%Z →
  (n = (- 2 ^ 63)%Z ∧ intToStr n = Some "-")
  ∨ ∃ s, digits s = true ∧ s ≠ EmptyString ∧ decimal s 0 = Z.abs_N n ∧ intToStr n = Some (if bool_decide (n < 0)%Z then "-" +:+ s else s).
Proof.
  intros Hn. destruct (decide (n = (- 2 ^ 63)%Z)) as [->|Hmin]; [left; split; reflexivity | right].
  destruct (intToStr_total n Hn) as [t Ht]. unfold intToStr in Ht |- *. case_decide as Hz.
  { subst n. exists "0". by split_and!. }
  set (m := if bool_decide (n < 0)%Z then _ else n) in *. assert (m = Z.abs n) as Em.
  { unfold m. case_bool_decide; [| lia]. unfold i64. rewrite Z.mod_small; lia. }
  rewrite Em, decide_True in Ht |- * by lia. destruct (format_loop _ _ _ _) as [[room s]|] eqn:E; [| done].
  destruct (format_loop_decimal _ _ EmptyString _ _ eq_refl E) as (Hd & Hs & Hv). exists s. split_and!; [done | | |].
  - destruct Hs as [->|Hpos]; [| intros ->; simpl in Hv; lia]. simpl in Hv. lia.
  - rewrite Hv. simpl. lia.
  - case_bool_decide; [by destruct room | done].
Qed.

Lemma intToStr_decimal_witness : intToStr (- 907)%Z = Some "-907" ∧ ∃ s, decimal s 0 = 907%N ∧ intToStr (- 907)%Z = Some ("-" +:+ s).
Proof.
  split; [vm_compute; reflexivity |]. destruct (intToStr_decimal (- 907)%Z) as [[H _]|(s & _ & _ & Hv & E)]; [lia | discriminate H |].
  exists s. split; [exact Hv | exact E].
Defined.

(** ** Matrices *)

Section matrix.
Context `{GoSort}.

(** The cell has a value of each axis, and nothing else. *)
Definition is_cell (axes : list Axis) (c : cell) : Prop :=
  (∀ ax, ax ∈ axes → ∃ v, v ∈ ax_Values ax ∧ c !! ax_Name ax = Some v) ∧ ∀ k, is_Some (c !! k) → k ∈ ax_Name <$> axes.

Lemma elem_of_expand_axis cells ax c : c ∈ expand_axis cells ax ↔ ∃ c' v, c' ∈ cells ∧ v ∈ ax_Values ax ∧ c = <[ax_Name ax := v]> c'.
Proof.
  unfold expand_axis. rewrite list_elem_of_bind. setoid_rewrite list_elem_of_fmap. split.
  - intros (c' & (v & -> & Hv) & Hc). by exists c', v.
  - intros (c' & v & Hc & Hv & ->). exists c'. split; [by exists v | done].
Qed.

Lemma length_expand_axis cells ax : length (expand_axis cells ax) = length cells * length (ax_Values ax).
Proof.
  unfold expand_axis. induction cells as [|c cells IH]; [done |]. rewrite bind_cons, length_app, length_fmap, IH. simpl. lia.
Qed.

Lemma elem_of_product axes c : NoDup (ax_Name <$> axes) → c ∈ foldl expand_axis [∅] axes ↔ is_cell axes c.
Proof.
  revert c. induction axes as [|ax axes IH] using rev_ind; intros c Hnd.
  { simpl. rewrite list_elem_of_singleton. split; [intros -> | intros [_ Hc]].
    - split; [by intros ax ?%elem_of_nil | intros k [v Hv]; discriminate Hv].
    - apply map_empty. intros k. destruct (c !! k) as [v|] eqn:E; [| done]. pose proof (Hc k (mk_is_Some _ _ E)) as Hk. by apply elem_of_nil in Hk. }
  rewrite fmap_app, NoDup_app in Hnd. destruct Hnd as (Hnd & Hne & _). rewrite foldl_snoc, elem_of_expand_axis. split.
  - intros (c' & v & [Hc1 Hc2]%IH & Hv & ->); [| done]. split.
    + intros ax' [Hax| ->%list_elem_of_singleton]%elem_of_app; [| exists v; by rewrite lookup_insert_eq].
      destruct (Hc1 ax' Hax) as (v' & Hv' & E). exists v'. split; [done |]. rewrite lookup_insert_ne; [done |].
      intros En. apply (Hne (ax_Name ax')); [by apply list_elem_of_fmap; exists ax' | rewrite <- En; by left].
    + intros k. rewrite fmap_app, elem_of_app. destruct (decide (k = ax_Name ax)) as [->|Hk]; [right; by left |].
      rewrite lookup_insert_ne by done. left. by apply Hc2.
  - intros [Hc1 Hc2]. destruct (Hc1 ax) as (v & Hv & E); [apply elem_of_app; right; by left |].
    exists (delete (ax_Name ax) c), v. split_and!; [| done | by rewrite insert_delete_eq, insert_id]. apply IH; [done |]. split.
    + intros ax' Hax. destruct (Hc1 ax') as (v' & Hv' & E'); [apply elem_of_app; by left |]. exists v'. split; [done |]. rewrite lookup_delete_ne; [done |].
      intros En. apply (Hne (ax_Name ax')); [by apply list_elem_of_fmap; exists ax' | rewrite <- En; by left].
    + intros k. destruct (decide (k = ax_Name ax)) as [->|Hk]; [rewrite lookup_delete_eq; by intros [? [=]] |]. rewrite lookup_delete_ne by done.
      intros Hs%Hc2. rewrite fmap_app, elem_of_app in Hs. destruct Hs as [Hs|Hs%list_elem_of_singleton]; [done | by destruct Hk].
Qed.

(** The cells of a matrix whose axes have distinct names are the maps that have a value of
    each axis and nothing else, as many as the product of the numbers of values, and they come
    in an order that does not depend on the order of the axes. *)
Theorem cartesianProduct_cells axes : axes ≠ [] → NoDup (ax_Name <$> axes) →
  (∀ c, c ∈ cartesianProduct axes ↔ is_cell axes c)
  ∧ length (cartesianProduct axes) = foldr Nat.mul 1 (length ∘ ax_Values <$> axes)
  ∧ ∀ axes', axes' ≡ₚ axes → cartesianProduct axes' = cartesianProduct axes.
Proof.
  intros Hne Hnd. assert (∀ l, l ≠ [] → cartesianProduct l = foldl expand_axis [∅] (sort_slice ax_Name l)) as Ec by (by intros []).
  pose proof (sort_slice_perm ax_Name axes) as Hp. split_and!.
  - intros c. rewrite Ec by done. rewrite elem_of_product by (by rewrite Hp). unfold is_cell. by setoid_rewrite Hp.
  - rewrite Ec by done. assert (∀ l cells, length (foldl expand_axis cells l) = length cells * foldr Nat.mul 1 (length ∘ ax_Values <$> l)) as Hl.
    { induction l as [|ax l IH]; intros cells; simpl; [lia |]. rewrite IH, length_expand_axis. symmetry. apply Nat.mul_assoc. }
    rewrite Hl. simpl. rewrite Nat.add_0_r. clear -Hp. revert Hp. generalize (sort_slice ax_Name axes). intros l Hp.
    induction Hp as [|x l1 l2 _ IH|x y l1|l1 l2 l3 _ IH1 _ IH2]; rewrite ?fmap_cons; cbn [foldr]; [done | by rewrite IH | by rewrite !Nat.mul_assoc, (Nat.mul_comm (_ y)) | by rewrite IH1].
  - intros axes' Hp'. assert (axes' ≠ []) as Hne' by (intros ->; by apply Permutation_nil in Hp' as ->).
    rewrite !Ec by done. f_equal. apply sort_slice_unique; [by rewrite Hp' | done].
Qed.

End matrix.

Lemma cartesianProduct_cells_witness :
  let axes := [mkAxis "os" ["linux"; "windows"]; mkAxis "arch" ["amd64"; "arm64"; "riscv64"]] in
  length (cartesianProduct axes) = 6 ∧ <["os" := "linux"]> {["arch" := "arm64"]} ∈ cartesianProduct axes.
Proof.
  intros axes. destruct (cartesianProduct_cells axes) as (Hc & Hl & _).
  - discriminate.
  - apply (bool_decide_unpack _). vm_compute. exact I.
  - split; [rewrite Hl; reflexivity |]. apply Hc. split.
    + intros ax Hax. apply elem_of_cons in Hax as [->|Hax]; [| apply list_elem_of_singleton in Hax as ->].
      * exists "linux". split; [apply (bool_decide_unpack _); vm_compute; exact I | vm_compute; reflexivity].
      * exists "arm64". split; [apply (bool_decide_unpack _); vm_compute; exact I | vm_compute; reflexivity].
    + intros k [v Hv]. apply lookup_insert_Some in Hv as [[<- _]|[_ Hv]]; [by left |]. apply lookup_singleton_Some in Hv as [<- _]. right. by left.
Defined.

(** ** The scope of a nested solve *)

(** A loop that copies a map under a prefix gives the same map in any order. *)
Lemma put_all_spec `{GoRange} prefix (src dst : gmap string string) : put_all prefix src dst = kmap (String.append prefix) src ∪ dst.
Proof.
  unfold put_all, kmap. assert (NoDup (map_range src).*1) as Hnd by (rewrite map_range_perm; apply NoDup_fst_map_to_list).
  assert (∀ (l : list (string * string)) d, NoDup l.*1 → foldl (λ d kv, <[prefix +:+ kv.1 := kv.2]> d) d l
    = (list_to_map (prod_map (String.append prefix) id <$> l) : gmap string string) ∪ d) as Hl.
  { induction l as [|[k v] l IH]; intros d Hk; simpl; [by rewrite (left_id_L ∅ (∪)) |]. apply NoDup_cons in Hk as [Hk Hk'].
    rewrite IH by done. rewrite <- insert_union_l, insert_union_r; [done |]. apply not_elem_of_list_to_map_1.
    intros (x & E & Hx)%list_elem_of_fmap. apply list_elem_of_fmap in Hx as (y & -> & Hy). simpl in E. apply (inj _) in E. apply Hk, list_elem_of_fmap. by exists y. }
  rewrite Hl by done. f_equal. apply list_to_map_proper; [| by rewrite map_range_perm].
  rewrite <- list_fmap_compose. assert (fst ∘ prod_map (String.append prefix) id =@{string * string → string} (String.append prefix) ∘ fst) as -> by done.
  rewrite list_fmap_compose. apply (NoDup_fmap_2 _). exact Hnd.
Qed.

Lemma put_parts_perm key l1 l2 attrs : l1 ≡ₚ l2 → put_parts key l1 attrs = put_parts key l2 attrs.
Proof.
  intros Hp. unfold put_parts. rewrite (sort_strings_unique l1 l2 Hp). destruct l1 as [|x l1].
  - by apply Permutation_nil in Hp as ->.
  - destruct l2; [by apply Permutation_sym, Permutation_nil in Hp | done].
Qed.

Lemma put_caches_range (R1 R2 : GoRange) dir i cs attrs : put_caches (H := R1) dir i cs attrs = put_caches (H := R2) dir i cs attrs.
Proof.
  revert i attrs. induction cs as [|ci cs IH]; intros i attrs; [done |]. cbn [put_caches]. case_decide; [done |]. rewrite IH. by rewrite !put_all_spec.
Qed.

Lemma rune_str_length r : (r < 65536)%N → String.length (rune_str r) ≤ 3.
Proof.
  intros Hr. unfold rune_str. match goal with |- context [if ?b then r else 65533%N] => set (v := if b then r else 65533%N) end. assert (v < 65536)%N as Hv by (unfold v; case_match; lia).
  destruct (N.ltb_spec v (2 ^ 7)); [simpl; lia |]. destruct (N.ltb_spec v (2 ^ 11)); [simpl; lia |]. destruct (N.ltb_spec v (2 ^ 16)); [simpl; lia | lia].
Qed.

Lemma put_caches_total `{GoRange} dir i cs attrs : (N.of_nat (i + length cs) ≤ 65488)%N → is_Some (put_caches dir i cs attrs).
Proof.
  revert i attrs. induction cs as [|ci cs IH]; intros i attrs Hi; [by eexists |]. cbn [put_caches length] in *.
  rewrite decide_False; [apply IH; lia |]. pose proof (rune_str_length (N.of_nat i + 48)). lia.
Qed.

Lemma put_caches_panics `{GoRange} dir i cs attrs : (N.of_nat i ≤ 65488)%N → (65488 < N.of_nat (i + length cs))%N → put_caches dir i cs attrs = None.
Proof.
  revert i attrs. induction cs as [|ci cs IH]; intros i attrs Hi Hl; cbn [put_caches length] in *; [lia |].
  case_decide as Hd; [done |]. destruct (decide (N.of_nat i = 65488)%N) as [E|Hne]; [| apply IH; lia].
  destruct Hd. rewrite E. apply Nat.ltb_lt. vm_compute. reflexivity.
Qed.

(** The attributes of a nested solve do not depend on the order in which its maps are
    visited.  They are built for up to 65488 imports and exports of caches; with more of
    either the code panics, as the number of a cache is written as a character. *)
Theorem buildAttrs_deterministic (R1 R2 : GoRange) info :
  buildAttrs (H := R1) info = buildAttrs (H := R2) info
  ∧ (is_Some (buildAttrs (H := R1) info) ↔ N.of_nat (length (si_CacheImports info)) ≤ 65488 ∧ N.of_nat (length (si_CacheExports info)) ≤ 65488)%N.
Proof.
  split.
  - unfold buildAttrs. rewrite (put_parts_perm "solve.env" _ ((λ kv, kv.1 +:+ "=" +:+ kv.2) <$> map_range (GoRange := R2) (si_Env info))) by by rewrite !map_range_perm.
    rewrite !put_all_spec. rewrite (put_caches_range R1 R2). destruct (put_caches _ _ _ _) as [attrs|]; [| done].
    rewrite (put_caches_range R1 R2). destruct (put_caches _ _ _ _); [| done]. by rewrite !put_all_spec.
  - unfold buildAttrs. set (attrs := put_all "solve.frontend." _ _). split.
    + intros Hs. destruct (decide (N.of_nat (length (si_CacheImports info)) ≤ 65488)%N) as [Hi|Hi].
      * split; [done |]. destruct (put_caches_total (H := R1) "solve.cache.import." 0 (si_CacheImports info) attrs Hi) as [attrs' Ea]. rewrite Ea in Hs.
        destruct (decide (N.of_nat (length (si_CacheExports info)) ≤ 65488)%N) as [|He]; [done |]. rewrite (put_caches_panics (H := R1)) in Hs by lia. by destruct Hs.
      * rewrite (put_caches_panics (H := R1)) in Hs by lia. by destruct Hs.
    + intros [Hi He]. destruct (put_caches_total (H := R1) "solve.cache.import." 0 (si_CacheImports info) attrs Hi) as [attrs' ->].
      destruct (put_caches_total (H := R1) "solve.cache.export." 0 (si_CacheExports info) attrs' He) as [attrs'' ->]. by eexists.
Qed.

(** ** The outputs of an exec *)

(** The mounts that have an output of the exec *)
Definition writable (m : mount) : bool := bool_decide (mt_output m ≠ None) && negb (mt_readonly m) && negb (mt_tmpfs m).

Lemma getMountIndex_count ms m pre post idx : NoDup (mt_id <$> ms) → ms = pre ++ m :: post →
  getMountIndex (mt_id m) idx ms = Ok (idx + Z.of_nat (length (filter (λ m, writable m = true) pre)))%Z.
Proof.
  intros Hnd ->. revert idx Hnd. induction pre as [|x pre IH]; intros idx Hnd; simpl.
  - rewrite decide_True by done. f_equal. lia.
  - apply NoDup_cons in Hnd as [Hx Hnd]. rewrite decide_False.
    + rewrite IH by done. rewrite filter_cons. fold (writable x). destruct (writable x); [rewrite decide_True by done; simpl; f_equal; lia | by rewrite decide_False].
    + intros E. apply Hx, list_elem_of_fmap. exists m. split; [done | apply elem_of_app; right; by left].
Qed.

(** The output of a writable mount has as its index the number of writable mounts before
    it, so that no two have the same; but the message of the exec gives the output 0 to every
    one of them. *)
Theorem exec_outputs_collide ms :
  NoDup (mt_id <$> ms) →
  (∀ pre m post, ms = pre ++ m :: post → getMountIndex (mt_id m) 0 ms = Ok (Z.of_nat (length (filter (λ m, writable m = true) pre))))
  ∧ (∀ m1 m2 i, m1 ∈ ms → m2 ∈ ms → writable m1 = true → writable m2 = true →
       getMountIndex (mt_id m1) 0 ms = Ok i → getMountIndex (mt_id m2) 0 ms = Ok i → m1 = m2)
  ∧ ∀ `{BuildkitPB} m n, writable m = true → pmt_Output (mount_message m n) = 0%Z.
Proof.
  intros Hnd. split_and!.
  - intros pre m post E. exact (getMountIndex_count ms m pre post 0 Hnd E).
  - intros m1 m2 i H1 H2 W1 W2 E1 E2. apply list_elem_of_lookup in H1 as [j1 H1], H2 as [j2 H2].
    assert (∀ m j, ms !! j = Some m → getMountIndex (mt_id m) 0 ms = Ok (Z.of_nat (length (filter (λ m, writable m = true) (take j ms))))) as Hg.
    { intros m j Hj. by rewrite (getMountIndex_count ms m (take j ms) (drop (S j) ms) 0 Hnd) by by rewrite take_drop_middle. }
    rewrite (Hg _ _ H1) in E1. rewrite (Hg _ _ H2) in E2. assert (length (filter (λ m, writable m = true) (take j1 ms)) = length (filter (λ m, writable m = true) (take j2 ms))) as El by (simplify_eq; lia).
    assert (∀ m j k, ms !! j = Some m → writable m = true → j < k → length (filter (λ m, writable m = true) (take j ms)) < length (filter (λ m, writable m = true) (take k ms))) as Hlt.
    { intros m j k Hj Hw Hjk. rewrite <- (take_drop (S j) (take k ms)). rewrite take_take, Nat.min_l by lia. rewrite (take_S_r _ _ _ Hj), !filter_app, !length_app.
      rewrite filter_cons_True by done. simpl. lia. }
    destruct (decide (j1 = j2)) as [->|]; [congruence |]. destruct (decide (j1 < j2)) as [Hj|Hj].
    + pose proof (Hlt m1 j1 j2 H1 W1 Hj). lia.
    + pose proof (Hlt m2 j2 j1 H2 W2). lia.
  - intros H m n Hw. unfold mount_message. fold (writable m). by rewrite Hw.
Qed.

Lemma exec_outputs_collide_witness :
  let m k t := mkMount k t false None (Some (OutVertex 0 (IndexMount k))) EmptyString EmptyString false 0 0 false 0 in
  getMountIndex 1 0 [m 0 "/"; m 1 "/src"] = Ok 1%Z ∧ pmt_Output (mount_message (H := sample_pb) (m 1 "/src") 0) = 0%Z.
Proof.
  intros m. destruct (exec_outputs_collide [m 0 "/"; m 1 "/src"]) as (H1' & _ & H3').
  - apply (bool_decide_unpack _). vm_compute. exact I.
  - split; [exact (H1' [m 0 "/"] (m 1 "/src") [] eq_refl) | exact (H3' sample_pb (m 1 "/src") 0%Z eq_refl)].
Defined.
