(* ===== verification/LbLaws.v ===== *)
(** * LbLaws: the vertices of the package are a lawful graph

    Gives the instance of [LLBGraphLaws] for the vertices of [LbOps], over the heaps that the
    constructors build and a client whose functions have no effect: the vertices lead down,
    the outputs are the ones of vertices that exist, and no lock is held. *)
From S2P Require Import Prelude GoStd GoNum GoPath LbTypes LbState LbGraph LbAttrs LbHeap LbOps.
#[local] Open Scope go_scope.

(** ** Worlds *)

(** What a heap is measured with: the number of vertices the client made, their ranks, the
    ranks of the operations of a definition, and the rank and the vertex of each asynchronous
    state; and what the functions of the client return *)
Record world := mkWorld {
  w_limit : nat;
  w_rank : nat → nat;
  w_dpos : def_tables → string → nat;
  w_arank : nat → nat;
  w_avertex : nat → nat;
  w_state : nat → State → State;
  w_matrix : nat → cell → State;
  w_cond : nat → result string;
  w_pred : nat → result bool;
}.

Section laws.
Context `{BuildkitPB, OpCodec, !OpCodecLaws, Client, GoSort, GoRange}.
Context (W : world) (c : cptr).
Implicit Types (σ : heap) (a b v : nat) (o : Output) (L F : gset nat).

(** The functions of the client have no effect. *)
Definition pure_client : Prop :=
  (∀ f prev σ, user_async f prev c σ = Some (Ok (w_state W f prev), σ))
  ∧ (∀ f x σ, user_matrix f x σ = Some (w_matrix W f x, σ))
  ∧ (∀ f σ, user_condition f σ = Some (w_cond W f, σ))
  ∧ (∀ p σ, user_predicate p σ = Some (w_pred W p, σ)).

(** [Evaluate], with no heap *)
Fixpoint cond_key (cond : Condition) : result string :=
  match cond with
  | EnvCondition name => Ok (os_Getenv name)
  | LiteralCondition key => Ok key
  | PlatformCondition => Ok GOOS
  | ArchCondition => Ok GOARCH
  | BoolCondition p => match w_pred W p with Ok v => Ok (if v then "true" else "false") | Err e => Err e end
  | NotCondition cond => match cond_key cond with Ok v => Ok (if decide (v = "true") then "false" else "true") | Err e => Err e end
  | ConditionFunc f => w_cond W f
  end.

(** The states of a matrix *)
Definition matrix_states (axes : list Axis) (fn : option nat) : list State :=
  match fn with Some f => w_matrix W f <$> cartesianProduct axes | None => [] end.

(** ** Outputs *)

(** The vertex that a definition has for an input *)
Definition child (d : definition_op) (i : Input) : option nat :=
  match do_inputCache d !! in_Digest i with Some arr => mjoin (arr !! Z.to_nat (in_Index i)) | None => None end.

Definition child_out (d : definition_op) (i : Input) : option Output := (λ v, OutVertex v (IndexConst (in_Index i))) <$> child d i.

(** The outputs that a vertex has as inputs *)
Definition op_outs (o : op) : list Output :=
  match o with
  | SourceOp _ _ _ _ => []
  | MergeOp inputs _ => omap id inputs
  | DiffOp l u _ => omap id [l; u]
  | ExecOp x => omap mt_source (xc_mounts x)
  | FileOp base action _ => omap State_Output (base :: omap fst (action_chain action))
  | SolveOp s _ _ | InspectOp s _ _ | GateOp s _ _ _ => omap id [s]
  | ConditionalOp _ brs d _ => omap State_Output ((snd <$> brs) ++ option_list d)
  | MatrixOp _ _ e _ => omap State_Output (default [] e)
  | DefinitionOp d => match dt_ops (do_tables d) !! do_dgst d with Some p => omap (child_out d) (op_Inputs p) | None => [] end
  end.

Definition is_def (o : op) : bool := match o with DefinitionOp _ => true | _ => false end.

(** The vertices that the client can name, or that are inputs of definitions; the others are
    the merges that matrices make. *)
Definition ptracked a (p : op) : Prop := a < w_limit W ∨ is_def p = true.
Definition tracked σ a : Prop := ∃ n, hp_nodes σ !! a = Some n ∧ ptracked a (nd_op n).

Definition prank a (p : op) : nat := match p with DefinitionOp d => w_dpos W (do_tables d) (do_dgst d) | _ => w_rank W a end.
Definition rank σ a : nat := match hp_nodes σ !! a with Some n => prank a (nd_op n) | None => 0 end.

Definition orank σ o : nat :=
  match o with OutVertex v _ | OutDef v => S (rank σ v) | OutAsync a => w_arank W a end.

Definition vertex_of o : nat := match o with OutVertex v _ | OutDef v => v | OutAsync a => w_avertex W a end.

Inductive wf_out σ : Output → Prop :=
  | wf_const v i : tracked σ v → wf_out σ (OutVertex v (IndexConst i))
  | wf_mount v id n x : tracked σ v → hp_nodes σ !! v = Some n → nd_op n = ExecOp x → wf_out σ (OutVertex v (IndexMount id))
  | wf_def v n d : tracked σ v → hp_nodes σ !! v = Some n → nd_op n = DefinitionOp d → do_dgst d ≠ EmptyString → wf_out σ (OutDef v)
  | wf_user a f prev o :
      hp_asyncs σ !! a = Some (mkAsync (AsyncUser f) prev) → State_Output (w_state W f prev) = Some o →
      wf_out σ o → vertex_of o = w_avertex W a → orank σ o < w_arank W a → wf_out σ (OutAsync a)
  | wf_inspect a v prev o n s depth own :
      hp_asyncs σ !! a = Some (mkAsync (AsyncInspect v) prev) → State_Output prev = Some o →
      wf_out σ o → vertex_of o = w_avertex W a → orank σ o < w_arank W a →
      hp_nodes σ !! v = Some n → nd_op n = InspectOp (Some s) depth own → wf_out σ s → orank σ s < w_arank W a →
      wf_out σ (OutAsync a).

(** ** Order of heaps *)

(** How the fields of a vertex change *)
Definition op_le (o o' : op) : Prop :=
  match o, o' with
  | ExecOp x, ExecOp x' =>
      ∃ ms, ms ≡ₚ xc_mounts x ∧ ∃ valid,
        x' = mkExec (xc_proxyEnv x) (xc_root x) ms (xc_base x) (xc_constraints x) valid (xc_secrets x) (xc_ssh x)
  | MatrixOp ax f e own, MatrixOp ax' f' e' own' => ax' = ax ∧ f' = f ∧ own' = own ∧ (e = None ∨ e' = e)
  | DefinitionOp d, DefinitionOp d' =>
      do_tables d' = do_tables d ∧ do_dgst d' = do_dgst d ∧ do_index d' = do_index d ∧ ∀ i v, child d i = Some v → child d' i = Some v
  | _, _ => o' = o
  end.

Definition node_le (n n' : node) : Prop := op_le (nd_op n) (nd_op n') ∧ nd_cache n ⊆ nd_cache n'.

Definition unchanged σ : list async * list SourceMap := (hp_asyncs σ, hp_maps σ).

Definition le σ σ' : Prop :=
  unchanged σ' = unchanged σ ∧ ∀ a n, hp_nodes σ !! a = Some n → ∃ n', hp_nodes σ' !! a = Some n' ∧ node_le n n'.

#[local] Instance op_le_preorder : PreOrder op_le.
Proof.
  split.
  - intros []; simpl; try done.
    + eexists. split; [done |]. exists (xc_isValidated x). by destruct x.
    + split_and!; auto.
  - intros o1 o2 o3 H12 H23. destruct o1; try (simpl in H12; subst o2; exact H23).
    all: destruct o2; try discriminate H12; destruct o3; try discriminate H23; simpl in *.
    + destruct H12 as (ms & Hms & v1 & ->), H23 as (ms' & Hms' & v2 & ->). simpl in *.
      exists ms'. split; [by trans ms |]. by exists v2.
    + destruct H12 as (-> & -> & -> & [->| ->]), H23 as (-> & -> & -> & ?); naive_solver.
    + destruct_and!. split_and!; [congruence.. | auto].
Qed.

#[local] Instance node_le_preorder : PreOrder node_le.
Proof. split; [by split | intros x y z [] []; split; by etrans]. Qed.

#[local] Instance le_preorder : PreOrder le.
Proof.
  split.
  - intros σ. split; [done |]. intros a n Hn. by exists n.
  - intros σ1 σ2 σ3 [E1 L1] [E2 L2]. split; [congruence |]. intros a n Hn.
    destruct (L1 a n Hn) as (n2 & Hn2 & Hle). destruct (L2 a n2 Hn2) as (n3 & Hn3 & Hle'). exists n3. split; [done | by trans n2].
Qed.

Lemma op_le_def (o o' : op) : op_le o o' → is_def o' = is_def o.
Proof. by destruct o, o'; simpl; intros; simplify_eq. Qed.

Lemma op_le_prank a (o o' : op) : op_le o o' → prank a o' = prank a o.
Proof. destruct o, o'; simpl; try done. by intros (-> & -> & _). Qed.

Lemma le_tracked σ σ' a : le σ σ' → tracked σ a → tracked σ' a.
Proof.
  intros [_ Hle] (n & Hn & Ht). destruct (Hle a n Hn) as (n' & Hn' & [Ho _]). exists n'. split; [done |].
  unfold ptracked. by rewrite (op_le_def _ _ Ho).
Qed.

Lemma le_rank σ σ' a : le σ σ' → is_Some (hp_nodes σ !! a) → rank σ' a = rank σ a.
Proof.
  intros [_ Hle] [n Hn]. destruct (Hle a n Hn) as (n' & Hn' & [Ho _]). unfold rank. rewrite Hn, Hn'.
  by apply op_le_prank.
Qed.

Lemma tracked_some σ a : tracked σ a → is_Some (hp_nodes σ !! a).
Proof. intros (n & Hn & _). by exists n. Qed.

Lemma wf_out_vertex σ o : wf_out σ o → tracked σ (vertex_of o) ∧ rank σ (vertex_of o) < orank σ o.
Proof.
  induction 1 as [| | |a f prev o Ha Ho Hw [IH1 IH2] Hv Hr|a v prev o n s dp own Ha Ho Hw [IH1 IH2] Hv Hr]; simpl; try (split; [done | lia]).
  all: rewrite <- Hv; split; [done | lia].
Qed.

Lemma le_orank σ σ' o : le σ σ' → wf_out σ o → orank σ' o = orank σ o.
Proof.
  intros Hle Hw. destruct (wf_out_vertex σ o Hw) as [Ht%tracked_some _]. destruct o; simpl in *; [by rewrite (le_rank σ σ') .. | done].
Qed.

Lemma le_wf_out σ σ' o : le σ σ' → wf_out σ o → wf_out σ' o.
Proof.
  intros Hle Hw. pose proof Hle as [[= Ea _] Hn].
  induction Hw as [v i Ht|v id n x Ht Hv Hx|v n d Ht Hv Hd Hne|a f prev o Ha Ho Hw IH Hv Hr|a v prev o n s dp own Ha Ho Hw IH Hv Hr Hvn Hop Hs IHs Hrs].
  - constructor. by apply (le_tracked σ).
  - destruct (Hn v n Hv) as (n' & Hn' & [Hle' _]). rewrite Hx in Hle'. destruct (nd_op n') eqn:E; try discriminate Hle'.
    eapply wf_mount; [by apply (le_tracked σ) | done | done].
  - destruct (Hn v n Hv) as (n' & Hn' & [Hle' _]). rewrite Hd in Hle'. destruct (nd_op n') as [| | | | | | | | | |d'] eqn:E; try discriminate Hle'.
    destruct Hle' as (_ & Ed & _). eapply wf_def; [by apply (le_tracked σ) | done | done | congruence].
  - eapply wf_user; [by rewrite Ea | done | done | done |]. by rewrite (le_orank σ).
  - destruct (Hn v n Hvn) as (n' & Hn' & [Hle' _]). rewrite Hop in Hle'. simpl in Hle'.
    eapply wf_inspect; [by rewrite Ea | done | done | done | by rewrite (le_orank σ) | done | done | done | by rewrite (le_orank σ)].
Qed.

Lemma child_out_le d d' i o : (∀ i v, child d i = Some v → child d' i = Some v) → child_out d i = Some o → child_out d' i = Some o.
Proof. intros Hc. unfold child_out. destruct (child d i) as [v|] eqn:E; [| done]. by rewrite (Hc i v E). Qed.

Lemma op_outs_le (p p' : op) o : op_le p p' → o ∈ op_outs p → o ∈ op_outs p'.
Proof.
  intros Hle. destruct p; try (simpl in Hle; subst p'; done).
  - destruct p'; try discriminate Hle. destruct Hle as (ms & Hms & valid & ->). simpl. by rewrite Hms.
  - destruct p'; try discriminate Hle. destruct Hle as (-> & -> & -> & [->| ->]); [| done]. simpl. intros Ho. by apply elem_of_nil in Ho.
  - destruct p'; try discriminate Hle. destruct Hle as (Et & Ed & _ & Hc). simpl. rewrite Et, Ed.
    destruct (_ !! _) as [q|]; [| done]. rewrite !list_elem_of_omap. intros (i & Hi & Ho). exists i. split; [done |].
    by apply (child_out_le d).
Qed.

(** ** Results *)

(** The operation and constraints of the merge that a matrix makes *)
Definition merge_own : Constraints := AddCap no_constraints (pb_Cap "CapMergeOp").

Definition merge_op (ins : list Input) : pbOp * pbOpMetadata :=
  let '(pop, md) := MarshalConstraints c.2 merge_own in
  (set_payload (Op_Merge (Z.of_nat <$> seq 0 (length ins))) (mkPbOp ins Op_None None (op_Filter pop)), md).

Definition merge_result (ins : list Input) : option marshalled :=
  match DeterministicMarshal (merge_op ins).1 with
  | Ok dt => Some (mkMarshalled (digest_FromBytes dt) dt (Some (merge_op ins).2) (co_SourceLocations merge_own))
  | Err _ => None
  end.

(** The input for an output of constant index, when its vertex was marshalled *)
Definition const_input (r : nat → option marshalled) o : option Input :=
  match o with OutVertex v (IndexConst i) => (λ m, mkInput (mr_digest m) i) <$> r v | _ => None end.

(** The result of a matrix with these outputs: of the only one, or of their merge *)
Definition outs_result (r : nat → option marshalled) (outs : list Output) : option marshalled :=
  match outs with
  | [] => None
  | [o] => r (vertex_of o)
  | _ => mapM (const_input r) outs ≫= merge_result
  end.

(** What the vertex was marshalled to, or [None] *)
Fixpoint result_at (n : nat) σ a : option marshalled :=
  match n with
  | 0 => None
  | S n =>
      match hp_nodes σ !! a with
      | None => None
      | Some nd =>
          match nd_op nd with
          | DefinitionOp d => match def_Marshal_op d with Ok m => Some m | Err _ => None end
          | ConditionalOp (Some cond) brs d _ =>
              match cond_key cond with
              | Err _ => None
              | Ok key =>
                  match selectBranch brs d key with
                  | None => None
                  | Some s => match State_Output s with Some o => result_at n σ (vertex_of o) | None => nd_cache nd !! c.1 end
                  end
              end
          | MatrixOp _ _ (Some states) _ => outs_result (result_at n σ) (omap State_Output states)
          | MatrixOp _ _ None _ => None
          | _ => nd_cache nd !! c.1
          end
      end
  end.

Definition fixed σ a (m : marshalled) : Prop := ∃ n, result_at n σ a = Some m.

(** The vertices whose result is not in their cache *)
Definition delegates (p : op) : bool :=
  match p with
  | DefinitionOp _ | MatrixOp _ _ _ _ => true
  | ConditionalOp (Some cond) brs d _ =>
      match cond_key cond with
      | Ok key => match selectBranch brs d key with Some s => bool_decide (State_Output s ≠ None) | None => true end
      | Err _ => true
      end
  | _ => false
  end.

Lemma mapM_mono {A B} (f g : A → option B) l k : (∀ x y, f x = Some y → g x = Some y) → mapM f l = Some k → mapM g l = Some k.
Proof.
  intros Hfg. revert k. induction l as [|x l IH]; intros k; simpl; [done |].
  destruct (f x) as [y|] eqn:E; [| done]. rewrite (Hfg x y E). simpl. destruct (mapM f l) as [k'|]; [| done]. by rewrite (IH k' eq_refl).
Qed.

Lemma outs_result_mono (r r' : nat → option marshalled) outs m :
  (∀ a m, r a = Some m → r' a = Some m) → outs_result r outs = Some m → outs_result r' outs = Some m.
Proof.
  intros Hr. unfold outs_result. destruct outs as [|o [|o' outs]]; [done | apply Hr |].
  intros (ins & Em & Hm)%bind_Some. apply bind_Some. exists ins. split; [| done].
  apply (mapM_mono (const_input r)); [| done]. intros [v [i|]| |] y; try done. simpl.
  destruct (r v) as [m'|] eqn:E; [| done]. by rewrite (Hr v m' E).
Qed.

Lemma result_at_mono n n' σ σ' a m : n ≤ n' → le σ σ' → result_at n σ a = Some m → result_at n' σ' a = Some m.
Proof.
  intros Hn Hle. revert n' Hn a m. induction n as [|n IH]; intros n' Hn a m; [done |]. destruct n' as [|n']; [lia |].
  simpl. destruct (hp_nodes σ !! a) as [nd|] eqn:E; [| done]. pose proof Hle as [_ Hnodes].
  destruct (Hnodes a nd E) as (nd' & -> & Ho & Hc). assert (n ≤ n') as Hn' by lia.
  assert (∀ m, nd_cache nd !! c.1 = Some m → nd_cache nd' !! c.1 = Some m) as Hcache by (intros m' Hm; exact (lookup_weaken _ _ _ _ Hm Hc)).
  destruct (nd_op nd) as [| | |x| | |cond brs d own|ax f e own| | |d]; try (simpl in Ho; rewrite Ho; by apply Hcache).
  - destruct (nd_op nd'); try discriminate Ho. by apply Hcache.
  - simpl in Ho. rewrite Ho. destruct cond as [cond|]; [| by apply Hcache]. destruct (cond_key cond); [| done].
    destruct (selectBranch _ _ _) as [s|]; [| done]. destruct (State_Output s); [by apply IH | by apply Hcache].
  - destruct (nd_op nd'); try discriminate Ho. destruct Ho as (-> & -> & -> & [->| ->]); [done |].
    destruct e as [states|]; [| done]. apply outs_result_mono. intros a' m'. by apply IH.
  - destruct (nd_op nd') as [| | | | | | | | | |d'] eqn:E'; try discriminate Ho. destruct Ho as (Et & Ed & Ei & _).
    unfold def_Marshal_op, def_Validate. by rewrite Et, Ed, Ei.
Qed.

Lemma fixed_le σ σ' a m : le σ σ' → fixed σ a m → fixed σ' a m.
Proof. intros Hle [n Hn]. exists n. by apply (result_at_mono n n σ). Qed.

Lemma fixed_eq σ a m m' : fixed σ a m → fixed σ a m' → m = m'.
Proof.
  intros [n Hn] [n' Hn'].
  assert (result_at (n `max` n') σ a = Some m) as E1 by (by apply (result_at_mono n _ σ); [lia | |]).
  assert (result_at (n `max` n') σ a = Some m') as E2 by (by apply (result_at_mono n' _ σ); [lia | |]). congruence.
Qed.

(** ** Invariant *)

(** The source maps are there. *)
Definition locs_ok σ (l : list SourceLocation) : Prop := ∀ x, x ∈ l → sl_SourceMap x < length (hp_maps σ).

(** The constraints that a vertex was made with *)
Definition op_constraints (p : op) : Constraints :=
  match p with
  | SourceOp _ _ own _ | MergeOp _ own | DiffOp _ _ own | FileOp _ _ own | SolveOp _ _ own | ConditionalOp _ _ _ own
  | MatrixOp _ _ _ own | InspectOp _ _ own | GateOp _ _ _ own => own
  | ExecOp x => xc_constraints x
  | DefinitionOp _ => no_constraints
  end.

Definition maps_ok σ (p : op) : Prop :=
  locs_ok σ (co_SourceLocations (op_constraints p))
  ∧ match p with DefinitionOp d => ∀ dg l, dt_sources (do_tables d) !! dg = Some l → locs_ok σ l | _ => True end.

(** The operation that was encoded has inputs that were marshalled. *)
Definition m_ok σ (p : op) (m : marshalled) : Prop :=
  mr_digest m = digest_FromBytes (mr_dt m)
  ∧ locs_ok σ (mr_srcs m)
  ∧ is_Some (mr_md m)
  ∧ ∃ q, op_UnmarshalVT (mr_dt m) = Ok q
    ∧ ∀ i, i ∈ op_Inputs q → ∃ o m', o ∈ op_outs p ∧ fixed σ (vertex_of o) m' ∧ mr_digest m' = in_Digest i.

(** The tables of a definition have every operation that is an input, below. *)
Definition tables_ok (t : def_tables) : Prop :=
  dt_ops t !! EmptyString = None ∧
  (∀ dg p i, dt_ops t !! dg = Some p → i ∈ op_Inputs p →
     (0 ≤ in_Index i)%Z ∧ is_Some (dt_ops t !! in_Digest i) ∧ in_Digest i ≠ EmptyString ∧ w_dpos W t (in_Digest i) + 2 ≤ w_dpos W t dg)
  ∧ (∀ dg dt, dt_defs t !! dg = Some dt → digest_FromBytes dt = dg ∧ ∃ p, op_UnmarshalVT dt = Ok p ∧ dt_ops t !! dg = Some p).

(** An output of an input of the vertex [a] *)
Definition out_below σ a (p : op) o : Prop := wf_out σ o ∧ (ptracked a p → orank σ o < prank a p).

(** What the methods need of each kind of vertex *)
Definition wf_special σ a (p : op) : Prop :=
  match p with
  | MergeOp inputs _ => Forall is_Some inputs
  | ExecOp x => typed (xc_base x) = true
  | SolveOp _ info _ => buildAttrs info ≠ None
  | MatrixOp axes fn e _ =>
      let outs := omap State_Output (matrix_states axes fn) in
      (e = None ∨ e = Some (matrix_states axes fn)) ∧ (fn = None → cartesianProduct axes = [])
      ∧ (∀ o, o ∈ outs → wf_out σ o ∧ orank σ o + 2 < w_rank W a)
      ∧ (1 < length (matrix_states axes fn) → outs ≠ [])
      ∧ (1 < length outs → ∀ o, o ∈ outs → ∃ v i, o = OutVertex v (IndexConst i))
  | DefinitionOp d =>
      tables_ok (do_tables d) ∧ (do_dgst d ≠ EmptyString → is_Some (dt_ops (do_tables d) !! do_dgst d))
      ∧ ∀ i v, child d i = Some v → (0 ≤ in_Index i)%Z →
          ∃ n d', hp_nodes σ !! v = Some n ∧ nd_op n = DefinitionOp d' ∧ do_tables d' = do_tables d
            ∧ do_dgst d' = in_Digest i ∧ do_index d' = in_Index i
  | _ => True
  end.

Record node_ok L σ a (n : node) : Prop := {
  no_outs : ∀ o, o ∈ op_outs (nd_op n) → out_below σ a (nd_op n) o;
  no_special : wf_special σ a (nd_op n);
  no_locked : nd_locked n = true ↔ a ∈ L;
  no_cache : ∀ m, nd_cache n !! c.1 = Some m → delegates (nd_op n) = false ∧ m_ok σ (nd_op n) m;
  no_maps : maps_ok σ (nd_op n);
}.

(** The locks of [L] are held. *)
Record inv L σ : Prop := {
  i_limit : w_limit W ≤ length (hp_nodes σ);
  i_locked : ∀ b, b ∈ L → b < length (hp_nodes σ);
  i_nodes : ∀ a n, hp_nodes σ !! a = Some n → node_ok L σ a n;
}.

Lemma locs_ok_le σ σ' l : le σ σ' → locs_ok σ l → locs_ok σ' l.
Proof. intros [[= _ Em] _] Hl x Hx. rewrite Em. by apply Hl. Qed.

Lemma maps_ok_le σ σ' (p p' : op) : le σ σ' → op_le p p' → maps_ok σ p → maps_ok σ' p'.
Proof.
  intros Hle Hp [Hc Hd]. destruct p as [| | |x| | | |ax fn e own| | |d]; destruct p' as [| | |x'| | | |ax' fn' e' own'| | |d']; try discriminate Hp; simplify_eq/=.
  all: try (split; [by apply (locs_ok_le σ) | done]).
  - destruct Hp as (ms & _ & valid & ->). split; [by apply (locs_ok_le σ) | done].
  - destruct Hp as (_ & _ & -> & _). split; [by apply (locs_ok_le σ) | done].
  - destruct Hp as (Et & _). split; [by apply (locs_ok_le σ) |]. rewrite Et. intros dg l Hl. apply (locs_ok_le σ); [done | by eapply Hd].
Qed.

Lemma m_ok_le σ σ' (p p' : op) m : le σ σ' → op_le p p' → m_ok σ p m → m_ok σ' p' m.
Proof.
  intros Hle Hp (Hd & Hl & Hmd & q & Hq & Hi). split; [done |]. split; [by apply (locs_ok_le σ) |]. split; [done |]. exists q. split; [done |]. intros i Hq'.
  destruct (Hi i Hq') as (o & m' & Ho & Hm & E). exists o, m'. split_and!; [by apply (op_outs_le p) | by apply (fixed_le σ) | done].
Qed.

Lemma node_ok_le L σ σ' a n : le σ σ' → node_ok L σ a n → node_ok L σ' a n.
Proof.
  intros Hle [Ho Hs Hl Hc Hmaps]. split; [| | done | | by apply (maps_ok_le σ _ (nd_op n))].
  - intros o Hin. destruct (Ho o Hin) as [Hw Hr]. split; [by apply (le_wf_out σ) | by rewrite (le_orank σ)].
  - destruct (nd_op n) as [| | | | | | |ax fn e own| | |d]; try done; simpl in *.
    + destruct Hs as (He & Hf & Hout & Hrest). split_and!; [done | done | | apply Hrest..].
      intros o Hin. destruct (Hout o Hin). split; [by apply (le_wf_out σ) | by rewrite (le_orank σ)].
    + destruct Hs as (Ht & Hd & Hch). split_and!; [done | done |]. intros i v Hv Hi.
      destruct (Hch i v Hv Hi) as (n' & d' & Hn' & Hop & Et & Ed & Ei). destruct Hle as [_ Hle].
      destruct (Hle v n' Hn') as (n'' & Hn'' & [Ho' _]). rewrite Hop in Ho'.
      destruct (nd_op n'') as [| | | | | | | | | |d''] eqn:E; try discriminate Ho'. destruct Ho' as (Et' & Ed' & Ei' & _).
      exists n'', d''. split_and!; congruence.
  - intros m Hm. destruct (Hc m Hm). split; [done |]. by apply (m_ok_le σ _ (nd_op n)).
Qed.

Lemma le_update σ a n n' : hp_nodes σ !! a = Some n → node_le n n' → le σ (set_nodes <[a := n']> σ).
Proof.
  intros Hn Hle. split; [done |]. intros b nb Hb. simpl. destruct (decide (b = a)) as [->|Hne].
  - exists n'. rewrite list_lookup_insert_eq by (by eapply lookup_lt_Some). simplify_eq. done.
  - exists nb. by rewrite list_lookup_insert_ne.
Qed.

Lemma inv_update L L' σ a n n' :
  inv L σ → hp_nodes σ !! a = Some n → node_le n n' → (∀ b, b ≠ a → (b ∈ L' ↔ b ∈ L)) →
  node_ok L' (set_nodes <[a := n']> σ) a n' → inv L' (set_nodes <[a := n']> σ).
Proof.
  intros [Hlim Hl Hnodes] Hn Hle HL Hok. pose proof (lookup_lt_Some _ _ _ Hn) as Hlt.
  assert (length (hp_nodes (set_nodes <[a := n']> σ)) = length (hp_nodes σ)) as Hlen by (simpl; by rewrite length_insert).
  split.
  - by rewrite Hlen.
  - intros b Hb. rewrite Hlen. destruct (decide (b = a)) as [->|Hne]; [done |]. by apply Hl, HL.
  - intros b nb Hb. destruct (decide (b = a)) as [->|Hne].
    + simpl in Hb. rewrite list_lookup_insert_eq in Hb by done. by simplify_eq.
    + simpl in Hb. rewrite list_lookup_insert_ne in Hb by done. destruct (node_ok_le L σ _ b nb (le_update σ a n n' Hn Hle) (Hnodes b nb Hb)) as [H1' H2' H3' H4' H5'].
      split; [done | done | | done | done]. by rewrite HL.
Qed.

Lemma le_alloc σ n : le σ (set_nodes (λ l, l ++ [n]) σ).
Proof. split; [done |]. intros a n' Hn. exists n'. simpl. split; [by apply lookup_app_l_Some | done]. Qed.

Lemma inv_alloc L σ n : inv L σ → node_ok L σ (length (hp_nodes σ)) n → inv L (set_nodes (λ l, l ++ [n]) σ).
Proof.
  intros [Hlim Hl Hnodes] Hok. split.
  - simpl. rewrite length_app. lia.
  - intros b Hb%Hl. simpl. rewrite length_app. lia.
  - intros a n' Hn. apply (node_ok_le L σ); [apply le_alloc |]. simpl in Hn. apply lookup_app_Some in Hn as [Hn|[Hge Hn]]; [by apply Hnodes |].
    apply list_lookup_singleton_Some in Hn as [Ha <-]. by replace a with (length (hp_nodes σ)) by lia.
Qed.

(** A change of the rest of the heap *)
Lemma inv_same L σ σ' : hp_nodes σ' = hp_nodes σ → unchanged σ' = unchanged σ → inv L σ → inv L σ' ∧ le σ σ'.
Proof.
  intros En Ea [Hlim Hl Hn]. assert (le σ σ') as Hle.
  { split; [done |]. intros a n Ha. exists n. by rewrite En. }
  split; [| done]. split; rewrite En; [done | done |]. intros a n Ha. by apply (node_ok_le L σ), Hn.
Qed.

(** ** Runs *)

(** The vertices of [F] did not change. *)
Definition frame F σ σ' : Prop := ∀ b, b ∈ F → hp_nodes σ' !! b = hp_nodes σ !! b.

(** The call returns, keeps the invariant, and leaves the vertices of [F] alone. *)
Definition runs {A} F L σ (m : M heap A) (Q : A → heap → Prop) : Prop :=
  ∃ x σ', m σ = Some (x, σ') ∧ inv L σ' ∧ le σ σ' ∧ frame F σ σ' ∧ Q x σ'.

(** What holds of a result that is not an error *)
Definition if_ok {A} (Q : A → heap → Prop) (r : result A) σ : Prop := match r with Ok x => Q x σ | Err _ => True end.

Lemma runs_ret {A} F L σ (x : A) (Q : A → heap → Prop) : inv L σ → Q x σ → runs F L σ (retM x) Q.
Proof. intros Hi Hq. exists x, σ. split_and!; (done || by intros b). Qed.

Lemma runs_bind {A B} F L σ (m : M heap A) (f : A → M heap B) P Q :
  runs F L σ m P → (∀ x σ', inv L σ' → le σ σ' → P x σ' → runs F L σ' (f x) Q) → runs F L σ (bindM m f) Q.
Proof.
  intros (x & σ1 & E1 & Hi1 & Hle1 & Hf1 & Hp) Hf. destruct (Hf x σ1 Hi1 Hle1 Hp) as (y & σ2 & E2 & Hi2 & Hle2 & Hf2 & Hq).
  exists y, σ2. unfold bindM. rewrite E1. split_and!; [done | done | by trans σ1 | | done]. intros b Hb. by rewrite Hf2, Hf1.
Qed.

Lemma runs_try {A B} F L σ (m : M heap (result A)) (f : A → M heap (result B)) P Q :
  runs F L σ m (if_ok P) → (∀ x σ', inv L σ' → le σ σ' → P x σ' → runs F L σ' (f x) (if_ok Q)) → runs F L σ (bindR m f) (if_ok Q).
Proof.
  intros Hm Hf. apply (runs_bind F L σ m _ _ _ Hm). intros [x|e] σ' Hi Hle Hp; [by apply Hf | by apply runs_ret].
Qed.

Lemma runs_weak {A} F F' L σ (m : M heap A) (P Q : A → heap → Prop) :
  runs F' L σ m P → F ⊆ F' → (∀ x σ', le σ σ' → frame F' σ σ' → P x σ' → Q x σ') → runs F L σ m Q.
Proof.
  intros (x & σ1 & E1 & Hi1 & Hle1 & Hf1 & Hp) HF HQ. exists x, σ1. split_and!; auto. intros b Hb. by apply Hf1, HF.
Qed.

Lemma runs_read F L σ a n : inv L σ → hp_nodes σ !! a = Some n → runs F L σ (read_node a) (λ x σ', x = n ∧ σ' = σ).
Proof. intros Hi Hn. exists n, σ. unfold read_node. rewrite Hn. split_and!; (done || by intros b). Qed.

Lemma runs_read_exec F L σ a n x : inv L σ → hp_nodes σ !! a = Some n → nd_op n = ExecOp x → runs F L σ (read_exec a) (λ y σ', y = x ∧ σ' = σ).
Proof. intros Hi Hn Hx. exists x, σ. unfold read_exec, read_node, bindM. rewrite Hn, Hx. split_and!; (done || by intros b). Qed.

(** A new value for the fields of a vertex *)
Lemma runs_set_op F L σ a n (p : op) :
  inv L σ → a ∉ F → hp_nodes σ !! a = Some n → op_le (nd_op n) p → delegates p = delegates (nd_op n) →
  (∀ σ', le σ σ' → (∀ o, o ∈ op_outs p → out_below σ' a p o) ∧ wf_special σ' a p) →
  runs F L σ (set_op a p) (λ _ σ', hp_nodes σ' = <[a := mkNode p (nd_cache n) (nd_locked n)]> (hp_nodes σ)).
Proof.
  intros Hi HaF Hn Hle Hd Hok. set (n' := mkNode p (nd_cache n) (nd_locked n)).
  assert (node_le n n') as Hnle by (by split). pose proof (le_update σ a n n' Hn Hnle) as Hσ.
  exists tt, (set_nodes <[a := n']> σ). unfold set_op, read_node, bindM, set_node, putM. rewrite Hn. split_and!; [done | | done | | done].
  2: { intros b Hb. simpl. rewrite list_lookup_insert_ne; [done | set_solver]. }
  apply (inv_update L L σ a n n'); [done.. |]. destruct (Hok _ Hσ) as [Hout Hsp].
  destruct (i_nodes _ _ Hi a n Hn) as [_ _ Hlk Hc Hmaps]. split; [done | done | done | | by apply (maps_ok_le σ _ (nd_op n))].
  intros m Hm. destruct (Hc m Hm) as [Hdel Hmok]. split; [by rewrite <- Hdel | by apply (m_ok_le σ _ (nd_op n))].
Qed.

(** ** Levels *)

(** The locks that are held are not at or below the rank [k]. *)
Definition above k L σ : Prop := ∀ b, b ∈ L → tracked σ b → k ≤ rank σ b.

Lemma tracked_back σ σ' b : le σ σ' → is_Some (hp_nodes σ !! b) → tracked σ' b → tracked σ b.
Proof.
  intros [_ Hle] [n Hn] (n' & Hn' & Ht). destruct (Hle b n Hn) as (n'' & Hn'' & [Ho _]). simplify_eq.
  exists n. split; [done |]. unfold ptracked in *. by rewrite (op_le_def _ _ Ho) in Ht.
Qed.

Lemma above_le k L σ σ' : inv L σ → le σ σ' → above k L σ → above k L σ'.
Proof.
  intros Hi Hle Ha b Hb Ht. pose proof (i_locked _ _ Hi b Hb) as Hlt%lookup_lt_is_Some. rewrite (le_rank σ) by done.
  apply Ha; [done |]. by apply (tracked_back σ σ').
Qed.

(** An output that can be used at level [n], with the locks of [L] *)
Definition ready n L σ o : Prop := wf_out σ o ∧ orank σ o < n ∧ above (orank σ o) L σ.

Lemma ready_le n L σ σ' o : inv L σ → le σ σ' → ready n L σ o → ready n L σ' o.
Proof.
  intros Hi Hle (Hw & Hr & Ha). unfold ready. rewrite (le_orank σ) by done.
  split_and!; [by apply (le_wf_out σ) | done | by apply (above_le _ L σ)].
Qed.

(** What an input is, when it is given *)
Definition good_input o (i : option Input) σ : Prop :=
  ∃ i' m, i = Some i' ∧ fixed σ (vertex_of o) m ∧ in_Digest i' = mr_digest m ∧ ∀ v k, o = OutVertex v (IndexConst k) → in_Index i' = k.

Lemma good_input_le σ σ' o i : le σ σ' → good_input o i σ → good_input o i σ'.
Proof. intros Hle (i' & m & -> & Hm & Hrest). exists i', m. split_and!; [done | by apply (fixed_le σ) | apply Hrest..]. Qed.

(** The methods at a level do what they should. *)
Record level_ok (G : LLBGraph vertex Output heap) (n : nat) : Prop := {
  lv_Vertex : ∀ L σ o, inv L σ → ready n L σ o → runs L L σ (out_Vertex o c) (λ r _, r = Some (VNode (vertex_of o)));
  lv_ToInput : ∀ L σ o, inv L σ → ready n L σ o → runs L L σ (out_ToInput o c) (if_ok (good_input o));
  lv_Marshal : ∀ L σ a, inv L σ → tracked σ a → rank σ a < n → above (S (rank σ a)) L σ →
    runs L L σ (v_Marshal (VNode a) c) (if_ok (λ m σ', fixed σ' a m));
  lv_Inputs : v_Inputs = Inputs;
}.

(** ** [Inputs] *)

(** The edges of the vertex are all there. *)
Definition op_final (p : op) : Prop :=
  match p with
  | MatrixOp _ _ e _ => e ≠ None
  | DefinitionOp d => ∀ q i, dt_ops (do_tables d) !! do_dgst d = Some q → i ∈ op_Inputs q → is_Some (child d i)
  | _ => True
  end.

Definition final σ a : Prop := ∃ n, hp_nodes σ !! a = Some n ∧ op_final (nd_op n).

Definition edge σ a b : Prop := ∃ n o, hp_nodes σ !! a = Some n ∧ o ∈ op_outs (nd_op n) ∧ vertex_of o = b.

(** The entry of a new vertex in the input cache *)
Definition put_child (i : Input) (v : nat) (d : definition_op) : definition_op :=
  let k := Z.to_nat (in_Index i) in
  let arr := default [] (do_inputCache d !! in_Digest i) in
  let arr := arr ++ replicate (S k - length arr) None in
  mkDefOp (do_tables d) (<[in_Digest i := <[k := Some v]> arr]> (do_inputCache d)) (do_dgst d) (do_index d).

Lemma lookup_grown (arr : list (option nat)) m j : mjoin ((arr ++ replicate m None) !! j) = mjoin (arr !! j).
Proof.
  destruct (decide (j < length arr)); [by rewrite lookup_app_l |]. rewrite lookup_app_r by lia.
  rewrite (lookup_ge_None_2 arr) by lia. simpl. destruct (replicate m None !! _) as [x|] eqn:E; [| done].
  by apply lookup_replicate in E as [-> _].
Qed.

Lemma child_put d i v j :
  child (put_child i v d) j = if decide (in_Digest j = in_Digest i ∧ Z.to_nat (in_Index j) = Z.to_nat (in_Index i)) then Some v else child d j.
Proof.
  unfold child at 1, put_child. simpl. set (arr := default [] (do_inputCache d !! in_Digest i)).
  destruct (decide (in_Digest j = in_Digest i)) as [Ed|Hd].
  - rewrite Ed, lookup_insert_eq. destruct (decide (Z.to_nat (in_Index j) = Z.to_nat (in_Index i))) as [Ek|Hk].
    + rewrite decide_True by done. rewrite Ek, list_lookup_insert_eq; [done |]. rewrite length_app, length_replicate. lia.
    + rewrite decide_False by naive_solver. rewrite list_lookup_insert_ne by done. rewrite lookup_grown. unfold child. rewrite Ed.
      unfold arr. by destruct (do_inputCache d !! in_Digest i).
  - rewrite decide_False by naive_solver. by rewrite lookup_insert_ne.
Qed.

Lemma expand_cells_pure (Hp : pure_client) f cells σ : expand_cells f cells σ = Some (w_matrix W f <$> cells, σ).
Proof.
  destruct Hp as (_ & Hm & _). revert σ. induction cells as [|x cells IH]; intros σ; [done |]. simpl. unfold bindM.
  by rewrite Hm, IH.
Qed.

Lemma runs_expand (Hp : pure_client) F L σ a n axes fn e own :
  inv L σ → a ∉ F → hp_nodes σ !! a = Some n → nd_op n = MatrixOp axes fn e own →
  runs F L σ (expand a) (λ l σ', l = matrix_states axes fn ∧ hp_nodes σ' !! a = Some (mkNode (MatrixOp axes fn (Some l) own) (nd_cache n) (nd_locked n))).
Proof.
  intros Hi HaF Hn Hop. destruct (i_nodes _ _ Hi a n Hn) as [Hout Hsp _ _]. rewrite Hop in Hsp. simpl in Hsp.
  destruct Hsp as ([->| ->] & Hf & Hrest).
  2: { exists (matrix_states axes fn), σ. unfold expand, read_node, bindM. rewrite Hn, Hop. split_and!; (done || (by intros b) || idtac). destruct n as [p cc lk]. simpl in Hop. by subst p. }
  apply (runs_bind F L σ _ _ _ _ (runs_read F L σ a n Hi Hn)). intros x σ' _ _ [-> ->]. rewrite Hop.
  apply (runs_bind F L σ _ _ (λ l σ', l = matrix_states axes fn ∧ σ' = σ)).
  { exists (matrix_states axes fn), σ. split_and!; try done. destruct (cartesianProduct axes) as [|x cells] eqn:E.
    - unfold matrix_states. rewrite E. by destruct fn.
    - destruct fn as [f|]; [| by discriminate Hf]. unfold matrix_states. rewrite E. by apply expand_cells_pure. }
  intros l σ' _ _ [-> ->].
  eapply runs_bind; [apply (runs_set_op F L σ a n); [done | done | done | | | ] |].
  - rewrite Hop. simpl. auto.
  - by rewrite Hop.
  - intros σ' Hle. destruct Hrest as (Ho & Hrest). split.
    + intros o Hin. destruct (Ho o Hin) as [Hw Hr]. split; [by apply (le_wf_out σ) |]. intros _. simpl. rewrite (le_orank σ) by done. lia.
    + simpl. split_and!; [auto | done | | apply Hrest..]. intros o Hin. destruct (Ho o Hin) as [Hw Hr].
      split; [by apply (le_wf_out σ) | by rewrite (le_orank σ)].
  - intros [] σ1 Hi1 Hle1 E1. apply runs_ret; [done |]. split; [done |]. rewrite E1, list_lookup_insert_eq; [done |]. by eapply lookup_lt_Some.
Qed.

(** The vertex at [a] is a definition with these tables and this digest. *)
Definition def_at σ a (t : def_tables) (dg : string) (P : definition_op → Prop) : Prop :=
  ∃ n d, hp_nodes σ !! a = Some n ∧ nd_op n = DefinitionOp d ∧ do_tables d = t ∧ do_dgst d = dg ∧ P d.

Lemma def_at_le σ σ' a t dg (P : definition_op → Prop) :
  (∀ d d', (∀ i v, child d i = Some v → child d' i = Some v) → do_index d' = do_index d → P d → P d') → le σ σ' → def_at σ a t dg P → def_at σ' a t dg P.
Proof.
  intros HP [_ Hle] (n & d & Hn & Hop & Et & Ed & Hd). destruct (Hle a n Hn) as (n' & Hn' & [Ho _]). rewrite Hop in Ho.
  destruct (nd_op n') as [| | | | | | | | | |d'] eqn:E; try discriminate Ho. destruct Ho as (Et' & Ed' & Ei & Hc).
  exists n', d'. split_and!; [done | done | congruence | congruence | by apply (HP d)].
Qed.

Lemma put_child_special L σ a n d i v q :
  inv L σ → hp_nodes σ !! a = Some n → nd_op n = DefinitionOp d → dt_ops (do_tables d) !! do_dgst d = Some q → i ∈ op_Inputs q →
  def_at σ v (do_tables d) (in_Digest i) (λ d', do_index d' = in_Index i) →
  (∀ o, o ∈ op_outs (DefinitionOp (put_child i v d)) → out_below σ a (DefinitionOp (put_child i v d)) o)
  ∧ wf_special σ a (DefinitionOp (put_child i v d)).
Proof.
  intros Hi Hn Hop Hq Hin (nv & dv & Hnv & Hopv & Etv & Edv & Eiv). destruct (i_nodes _ _ Hi a n Hn) as [Hout Hsp _ _]. rewrite Hop in *.
  destruct Hsp as ((Hempty & Ht1 & Ht2) & Hd & Hch). destruct (Ht1 _ _ _ Hq Hin) as (Hi0 & _ & _ & Hpos).
  assert (∀ j, j ∈ op_Inputs q → (0 ≤ in_Index j)%Z) as Hj0 by (intros j Hj; by destruct (Ht1 _ _ _ Hq Hj)).
  split.
  - simpl in *. rewrite Hq in *. intros o (j & Hj & Ho)%list_elem_of_omap. unfold child_out in Ho. rewrite child_put in Ho.
    case_decide as Heq; [| by apply Hout, list_elem_of_omap; exists j]. injection Ho as <-. destruct Heq as [Ed Ek].
    split; [constructor; exists nv; split; [done | right; by rewrite Hopv] |]. intros _. simpl. unfold rank. rewrite Hnv, Hopv. simpl.
    rewrite Etv, Edv. lia.
  - simpl. split_and!; [done | done |]. intros j w Hw Hj. rewrite child_put in Hw. case_decide as Heq; [| by apply Hch].
    injection Hw as <-. destruct Heq as [Ed Ek]. exists nv, dv. split_and!; [done | done | done | congruence |]. rewrite Eiv. lia.
Qed.

Lemma runs_child F L σ a n d i q :
  inv L σ → F ⊆ L → a ∉ F → hp_nodes σ !! a = Some n → nd_op n = DefinitionOp d → dt_ops (do_tables d) !! do_dgst d = Some q → i ∈ op_Inputs q →
  runs F L σ (loadOrCreateInput a i) (λ v σ', def_at σ' a (do_tables d) (do_dgst d) (λ d', child d' i = Some v)
    ∧ def_at σ' v (do_tables d) (in_Digest i) (λ d', do_index d' = in_Index i)).
Proof.
  intros Hi HFL HaF Hn Hop Hq Hin. pose proof (i_nodes _ _ Hi a n Hn) as [_ Hsp _ _ Hmaps]. rewrite Hop in Hsp, Hmaps.
  destruct Hsp as ((Hempty & Ht1 & Ht2) & _ & Hch). destruct (Ht1 _ _ _ Hq Hin) as (Hi0 & Hops & Hne & Hpos).
  apply (runs_bind F L σ _ _ _ _ (runs_read F L σ a n Hi Hn)). intros x σ' _ _ [-> ->]. rewrite Hop, decide_False by lia.
  set (arr := default [] (do_inputCache d !! in_Digest i)).
  assert (child d i = mjoin (arr !! Z.to_nat (in_Index i))) as Ec by (unfold child, arr; by destruct (do_inputCache d !! in_Digest i)).
  cbn zeta. destruct (mjoin (arr !! Z.to_nat (in_Index i))) as [v|] eqn:E.
  { destruct (arr !! Z.to_nat (in_Index i)) as [[w|]|] eqn:El; try done. simpl in E. injection E as ->. apply runs_ret; [done |].
    split; [by exists n, d |]. destruct (Hch i v Ec Hi0) as (n' & d' & ? & ? & ? & ? & ?). by exists n', d'. }
  match goal with |- runs _ _ _ ?t _ => assert (t = (let* v := new_node (DefinitionOp (mkDefOp (do_tables d) ∅ (in_Digest i) (in_Index i))) in
      let* _ := set_op a (DefinitionOp (put_child i v d)) in retM v)) as -> end.
  { destruct (arr !! Z.to_nat (in_Index i)) as [[w|]|]; done. }
  set (d1 := mkDefOp (do_tables d) ∅ (in_Digest i) (in_Index i)). set (σ1 := set_nodes (λ l, l ++ [mkNode (DefinitionOp d1) ∅ false]) σ).
  set (v := length (hp_nodes σ)).
  assert (∀ j, child d1 j = None) as Hd1 by (intros j; unfold child; simpl; by rewrite lookup_empty).
  assert (inv L σ1) as Hi1.
  { apply inv_alloc; [done |]. split; simpl.
    - intros o Ho. destruct (dt_ops (do_tables d) !! in_Digest i); [| by apply elem_of_nil in Ho]. apply list_elem_of_omap in Ho as (j & _ & Ho).
      unfold child_out in Ho. by rewrite Hd1 in Ho.
    - split_and!; [done | intros _; by destruct Hops | intros j w; by rewrite Hd1].
    - split; [done |]. intros Hv%(i_locked _ _ Hi). lia.
    - intros m. by rewrite lookup_empty.
    - exact Hmaps. }
  assert (hp_nodes σ1 !! v = Some (mkNode (DefinitionOp d1) ∅ false)) as Hv by (simpl; apply list_lookup_middle; done).
  assert (hp_nodes σ1 !! a = Some n) as Hn1 by (simpl; by apply lookup_app_l_Some).
  assert (def_at σ1 v (do_tables d) (in_Digest i) (λ d', do_index d' = in_Index i)) as Hdv by (by eexists _, d1).
  apply (runs_bind F L σ _ _ (λ x σ', x = v ∧ σ' = σ1)); [exists v, σ1; split_and!; (done || apply le_alloc || idtac); intros b Hb%HFL%(i_locked _ _ Hi); simpl; by rewrite lookup_app_l |].
  intros x σ' _ _ [-> ->]. eapply runs_bind; [apply (runs_set_op F L σ1 a n); [done | done | done | | | ] |].
  - rewrite Hop. simpl. split_and!; [done.. |]. intros j w Hw. rewrite child_put. case_decide as Hdec; [| done].
    destruct Hdec as [Ed Ek]. unfold child in Hw, Ec. rewrite Ed, Ek in Hw. unfold child in Ec. congruence.
  - by rewrite Hop.
  - intros σ' Hle. destruct (put_child_special L σ1 a n d i v q) as [H1' H2']; try done. split.
    + intros o Ho. destruct (H1' o Ho) as [Hw Hr]. split; [by apply (le_wf_out σ1) | by rewrite (le_orank σ1)].
    + destruct H2' as (? & ? & Hc). split_and!; [done | done |]. intros j w Hw Hj. destruct (Hc j w Hw Hj) as (n' & d' & Hn' & Hop' & Et & Ed & Ei).
      destruct (def_at_le σ1 σ' w (do_tables d) (in_Digest j) (λ d', do_index d' = in_Index j)) as (n2 & d2 & ? & ? & ? & ? & ?); [congruence | done | by exists n', d' |].
      by exists n2, d2.
  - intros [] σ2 Hi2 Hle2 E2. apply runs_ret; [done |]. split.
    + eexists _, (put_child i v d). rewrite E2, list_lookup_insert_eq by (by eapply lookup_lt_Some). split_and!; try done.
      by rewrite child_put, decide_True.
    + apply (def_at_le σ1); [congruence | done | done].
Qed.

Lemma runs_def_inputs F L a t dg q l : F ⊆ L → a ∉ F → dt_ops t !! dg = Some q → (∀ i, i ∈ l → i ∈ op_Inputs q) →
  ∀ σ, inv L σ → def_at σ a t dg (λ _, True) →
  runs F L σ (def_inputs a l) (λ outs σ', def_at σ' a t dg (λ d, Forall2 (λ i x, is_Some (child d i) ∧ x = child_out d i) l outs)).
Proof.
  intros HFL HaF Hq. induction l as [|i l IH]; intros Hl σ Hi Ha.
  { apply runs_ret; [done |]. destruct Ha as (n & d & ? & ? & ? & ? & _). by exists n, d. }
  simpl. destruct Ha as (n & d & Hn & Hop & <- & <- & _).
  pose proof (i_nodes _ _ Hi a n Hn) as [_ Hsp _ _]. rewrite Hop in Hsp. destruct Hsp as ((Hempty & Ht & _) & _ & _).
  destruct (Ht _ _ i Hq) as (_ & _ & Hne & _); [apply Hl; by left |].
  eapply runs_bind; [apply (runs_child F L σ a n d i q); (done || apply Hl; by left) |].
  intros v σ1 Hi1 Hle1 [Ha1 Hv]. destruct Hv as (nv & dv & Hnv & Hopv & Etv & Edv & Eiv).
  apply (runs_bind F L σ1 _ _ _ _ (runs_read F L σ1 v nv Hi1 Hnv)). intros x σ' _ _ [-> ->].
  eapply runs_bind; [apply IH; [by intros j Hj; apply Hl; right | done |] |].
  { apply (def_at_le σ1 σ1 a _ _ (λ _, True)); [done | done |]. destruct Ha1 as (n1 & d1 & ? & ? & ? & ? & _). by exists n1, d1. }
  intros outs σ2 Hi2 Hle2 Ha2. apply runs_ret; [done |]. destruct Ha2 as (n2 & d2 & Hn2 & Hop2 & Et2 & Ed2 & Hf).
  exists n2, d2. split_and!; [done.. |]. constructor; [| done]. rewrite Hopv. unfold def_Output. rewrite Edv, Eiv, decide_False by done.
  destruct (def_at_le σ1 σ2 a (do_tables d) (do_dgst d) (λ d', child d' i = Some v)) with (3 := Ha1) as (n3 & d3 & Hn3 & Hop3 & _ & _ & Hc3); [auto | done |].
  assert (d3 = d2) as -> by congruence. unfold child_out. by rewrite Hc3.
Qed.

Lemma elem_of_opt_list (l : list (option Output)) o : Some o ∈ opt_list l ↔ Some o ∈ l.
Proof. unfold opt_list. rewrite list_elem_of_filter. naive_solver. Qed.

Lemma elem_of_omap_id (l : list (option Output)) o : o ∈ omap id l ↔ Some o ∈ l.
Proof. rewrite list_elem_of_omap. unfold id. naive_solver. Qed.

Lemma elem_of_outputs (l : list State) o : Some o ∈ State_Output <$> l ↔ o ∈ omap State_Output l.
Proof. rewrite list_elem_of_fmap, list_elem_of_omap. naive_solver. Qed.

Lemma elem_of_file_inputs chain seen o :
  o ∈ file_inputs chain seen ∨ o ∈ seen ↔ o ∈ omap State_Output (omap fst chain) ∨ o ∈ seen.
Proof.
  revert seen. induction chain as [|[st act] chain IH]; intros seen; [done |]. simpl. destruct st as [s|]; simpl; [| by rewrite IH].
  destruct (State_Output s) as [o'|]; [| by rewrite IH]. case_decide as Hin.
  - rewrite IH, elem_of_cons. naive_solver.
  - rewrite !elem_of_cons. specialize (IH (o' :: seen)). rewrite !elem_of_cons in IH. naive_solver.
Qed.

Lemma runs_Inputs (Hp : pure_client) F L σ a n : inv L σ → F ⊆ L → a ∉ F → hp_nodes σ !! a = Some n →
  runs F L σ (Inputs (VNode a)) (λ l σ', ∃ n', hp_nodes σ' !! a = Some n' ∧ op_final (nd_op n') ∧ ∀ o, Some o ∈ l ↔ o ∈ op_outs (nd_op n')).
Proof.
  intros Hi HFL HaF Hn. apply (runs_bind F L σ _ _ _ _ (runs_read F L σ a n Hi Hn)). intros x σ' _ _ [-> ->].
  destruct (nd_op n) as [| | |x|base action own| |cond brs d own|ax f e own| | |d] eqn:Hop.
  all: unfold diff_Inputs, exec_Inputs, file_Inputs, source_Inputs, conditional_Inputs, matrix_Inputs, def_Inputs.
  all: try (apply runs_ret; [done |]; exists n; rewrite Hop; split_and!; [done | done |]; intros o; cbn [op_outs]).
  - rewrite !elem_of_nil. done.
  - by rewrite elem_of_omap_id.
  - by rewrite elem_of_opt_list, elem_of_omap_id.
  - rewrite elem_of_opt_list. rewrite list_elem_of_fmap, list_elem_of_omap. naive_solver.
  - rewrite list_elem_of_fmap. transitivity (o ∈ file_inputs (action_chain action) (option_list (State_Output base)) ∨ o ∈ option_list (State_Output base)).
    + change (match State_Output base with Some o0 => [o0] | None => [] end) with (option_list (State_Output base)).
      split; [intros (y & [= <-] & [Hy|Hy]%elem_of_app); auto | intros Hy; exists o; rewrite elem_of_app; naive_solver].
    + rewrite elem_of_file_inputs. simpl. destruct (State_Output base); simpl; rewrite ?elem_of_cons, ?elem_of_nil; naive_solver.
  - by rewrite elem_of_opt_list, elem_of_omap_id.
  - rewrite elem_of_opt_list, elem_of_app, list_fmap_compose, elem_of_outputs, omap_app, elem_of_app.
    apply or_iff_compat_l. destruct d as [s|]; [| set_solver]. apply (elem_of_outputs [s]).
  - eapply runs_bind; [by apply (runs_expand Hp F L σ a n ax f e own) |]. intros l σ1 Hi1 _ [-> Hn1]. apply runs_ret; [done |].
    eexists. split_and!; [done | done |]. intros o. by rewrite elem_of_opt_list, elem_of_outputs.
  - by rewrite elem_of_opt_list, elem_of_omap_id.
  - by rewrite elem_of_opt_list, elem_of_omap_id.
  - destruct (i_nodes _ _ Hi a n Hn) as [_ Hsp _ _]. rewrite Hop in Hsp. destruct Hsp as ((Hempty & Ht & _) & Hd & _).
    case_decide as Hne.
    { apply runs_ret; [done |]. exists n. rewrite Hop. simpl. rewrite Hne, Hempty. split_and!; [done | done |]. intros o. by rewrite !elem_of_nil. }
    destruct (Hd Hne) as [q Hq]. rewrite Hq. eapply runs_weak; [apply (runs_def_inputs F L a (do_tables d) (do_dgst d) q); [done | done | done | done | done |] | done |].
    { by exists n, d. }
    intros l σ' _ _ (n' & d' & Hn' & Hop' & Et & Ed & Hf). exists n'. rewrite Hop'. split_and!; [done | |].
    + simpl. rewrite Et, Ed, Hq. intros q' i [= <-] Hin. apply list_elem_of_lookup in Hin as [k Hk].
      destruct (Forall2_lookup_l _ _ _ _ _ Hf Hk) as (y & _ & [Hc _]). exact Hc.
    + intros o. simpl. rewrite Et, Ed, Hq, list_elem_of_omap. split.
      * intros [k Hk]%list_elem_of_lookup. destruct (Forall2_lookup_r _ _ _ _ _ Hf Hk) as (i & Hik & _ & E). exists i.
        split; [by eapply list_elem_of_lookup_2 | done].
      * intros (i & [k Hk]%list_elem_of_lookup & E). destruct (Forall2_lookup_l _ _ _ _ _ Hf Hk) as (y & Hy & _ & ->).
        rewrite <- E. by eapply list_elem_of_lookup_2.
Qed.

(** ** The cache *)

Lemma fixed_cached σ a n m : hp_nodes σ !! a = Some n → delegates (nd_op n) = false → nd_cache n !! c.1 = Some m → fixed σ a m.
Proof.
  intros Hn Hd Hm. exists 1. simpl. rewrite Hn. destruct (nd_op n) as [| | | | | |cond brs d own| | | |]; try done. simpl in Hd.
  destruct cond as [cond|]; [| done]. destruct (cond_key cond); [| done]. destruct (selectBranch _ _ _) as [s|]; [| done].
  apply bool_decide_eq_false in Hd. by destruct (State_Output s); [destruct Hd |].
Qed.

Lemma node_ok_lock L L' σ a n (lk : bool) : node_ok L σ a n → (lk = true ↔ a ∈ L') → node_ok L' σ a (mkNode (nd_op n) (nd_cache n) lk).
Proof. intros [Ho Hs _ Hc Hm] Hlk. by split. Qed.

(** The body runs with the lock, on a vertex that is otherwise the same. *)
Lemma runs_locked L σ a n body (Q : marshalled → heap → Prop) :
  inv L σ → hp_nodes σ !! a = Some n → a ∉ L →
  (∀ m σ σ', le σ σ' → Q m σ → Q m σ') →
  (∀ m σ', le σ σ' → nd_cache n !! c.1 = Some m → Q m σ') →
  (∀ σ', inv ({[a]} ∪ L) σ' → le σ σ' → hp_nodes σ' !! a = Some (mkNode (nd_op n) (nd_cache n) true) →
     nd_cache n !! c.1 = None → runs L ({[a]} ∪ L) σ' body (if_ok Q)) →
  runs L L σ (cached a c body) (if_ok Q).
Proof.
  intros Hi Hn HaL HQle Hhit Hbody. pose proof (i_nodes _ _ Hi a n Hn) as Hok.
  assert (nd_locked n = false) as Hlk by (destruct (nd_locked n) eqn:E; [by destruct HaL; apply (no_locked _ _ _ _ Hok) | done]).
  set (n1 := mkNode (nd_op n) (nd_cache n) true). set (σ1 := set_nodes <[a := n1]> σ).
  assert (node_le n n1) as Hle1 by (split; [by destruct (nd_op n) | done]). pose proof (le_update σ a n n1 Hn Hle1) as Hσ1.
  assert (hp_nodes σ1 !! a = Some n1) as Hn1 by (simpl; rewrite list_lookup_insert_eq; [done | by eapply lookup_lt_Some]).
  assert (inv ({[a]} ∪ L) σ1) as Hi1.
  { apply (inv_update L _ σ a n n1); [done | done | done | set_solver |]. apply node_ok_le with σ; [done |]. apply (node_ok_lock L); [done | set_solver]. }
  assert (∀ r σ2, inv ({[a]} ∪ L) σ2 → le σ1 σ2 → frame L σ1 σ2 → if_ok Q r σ2 →
    ∃ σ3, (let* _ := Release a in retM r) σ2 = Some (r, σ3) ∧ inv L σ3 ∧ le σ σ3 ∧ frame L σ σ3 ∧ if_ok Q r σ3) as Hrel.
  { intros r σ2 Hi2 Hle2 Hf2 Hr. pose proof Hle2 as [_ Hnodes]. destruct (Hnodes a n1 Hn1) as (n2 & Hn2 & _).
    set (n3 := mkNode (nd_op n2) (nd_cache n2) false). assert (node_le n2 n3) as Hle3 by (split; [done | done]).
    pose proof (le_update σ2 a n2 n3 Hn2 Hle3) as Hσ3. exists (set_nodes <[a := n3]> σ2). split_and!.
    - unfold Release, read_node, bindM. by rewrite Hn2.
    - apply (inv_update ({[a]} ∪ L) _ σ2 a n2 n3); [done | done | done | set_solver |]. apply node_ok_le with σ2; [done |].
      apply (node_ok_lock ({[a]} ∪ L)); [by apply (i_nodes _ _ Hi2) | set_solver].
    - trans σ1; [done |]. by trans σ2.
    - intros b Hb. simpl. assert (b ≠ a) by set_solver. rewrite list_lookup_insert_ne, Hf2 by done. simpl. by rewrite list_lookup_insert_ne.
    - destruct r as [m|]; [| done]. by apply (HQle m σ2). }
  assert (Acquire a σ = Some (tt, σ1)) as EA by (unfold Acquire, read_node, bindM; by rewrite Hn, Hlk).
  assert (Load a c σ1 = Some (nd_cache n !! c.1, σ1)) as EL by (unfold Load, read_node, bindM; by rewrite Hn1).
  unfold runs, cached, bindM at 1. rewrite EA. unfold bindM at 1. rewrite EL. destruct (nd_cache n !! c.1) as [m|] eqn:Em.
  - destruct (Hrel (Ok m) σ1 Hi1) as (σ3 & E3 & Hrest); [done | by intros b | by apply Hhit |]. exists (Ok m), σ3. by rewrite E3.
  - destruct (Hbody σ1 Hi1 Hσ1 Hn1 eq_refl) as (r & σ2 & E2 & Hi2 & Hle2 & Hf2 & Hr2). unfold bindM at 1. rewrite E2.
    destruct (Hrel r σ2 Hi2 Hle2 Hf2 Hr2) as (σ3 & E3 & Hrest). exists r, σ3. by rewrite E3.
Qed.

(** The inputs of the operation so far are ones of these outputs, marshalled. *)
Definition pop_ok (os : list Output) σ (pop : pbOp) : Prop :=
  ∀ i, i ∈ op_Inputs pop → ∃ o m, o ∈ os ∧ fixed σ (vertex_of o) m ∧ mr_digest m = in_Digest i.

Lemma pop_ok_le os σ σ' pop : le σ σ' → pop_ok os σ pop → pop_ok os σ' pop.
Proof. intros Hle Hp i Hi. destruct (Hp i Hi) as (o & m & Ho & Hm & E). exists o, m. split_and!; [done | by apply (fixed_le σ) | done]. Qed.

Lemma pop_ok_add os σ pop o i : pop_ok os σ pop → o ∈ os → good_input o i σ → pop_ok os σ (add_input (input_of i) pop).
Proof.
  intros Hp Ho (i' & m & -> & Hm & E & _) j [Hj| ->%list_elem_of_singleton]%elem_of_app; [by apply Hp | by exists o, m].
Qed.

Definition finished (pop : pbOp) (md : pbOpMetadata) (own : Constraints) a (m : marshalled) σ : Prop :=
  fixed σ a m ∧ ∃ dt, DeterministicMarshal pop = Ok dt ∧ m = mkMarshalled (digest_FromBytes dt) dt (Some md) (co_SourceLocations own).

Lemma runs_finish F L σ a n own pop md :
  inv L σ → a ∉ F → hp_nodes σ !! a = Some n → nd_cache n !! c.1 = None → delegates (nd_op n) = false → co_SourceLocations own = co_SourceLocations (op_constraints (nd_op n)) →
  pop_ok (op_outs (nd_op n)) σ pop →
  runs F L σ (finish a c own pop md) (if_ok (finished pop md own a)).
Proof.
  intros Hi HaF Hn Hc Hd Hown Hp. unfold finish. destruct (DeterministicMarshal pop) as [dt|e] eqn:Edt; [| by apply runs_ret].
  set (m := mkMarshalled (digest_FromBytes dt) dt (Some md) (co_SourceLocations own)).
  set (n' := mkNode (nd_op n) (<[c.1 := m]> (nd_cache n)) (nd_locked n)).
  assert (node_le n n') as Hle by (split; [done | by apply insert_subseteq]).
  pose proof (le_update σ a n n' Hn Hle) as Hσ.
  exists (Ok m), (set_nodes <[a := n']> σ). split_and!; [unfold Store, read_node, bindM; by rewrite Hn | | done | |].
  2: { intros b Hb. simpl. rewrite list_lookup_insert_ne; [done | set_solver]. }
  - apply (inv_update L L σ a n n'); [done.. |]. apply node_ok_le with σ; [done |]. destruct (i_nodes _ _ Hi a n Hn) as [Ho Hs Hlk Hca Hmaps].
    split; [done | done | done | | done]. simpl. intros m'. destruct (decide (c.1 = c.1)); [| done]. rewrite lookup_insert_eq. intros [= <-].
    split; [done |]. split; [done |]. split; [simpl; rewrite Hown; apply Hmaps |]. split; [by eexists |]. exists pop. split; [by apply op_codec |]. intros i Hin.
    destruct (Hp i Hin) as (o & m' & Hino & Hm' & E). by exists o, m'.
  - split; [| by exists dt]. apply (fixed_cached _ a n' m); [simpl; rewrite list_lookup_insert_eq; [done | by eapply lookup_lt_Some] | done |].
    simpl. by rewrite lookup_insert_eq.
Qed.

(** ** Phases of [Marshal] *)

(** A call that leaves the vertices of [L] alone, on behalf of the vertex [a] of [L] *)
Lemma runs_phase {A B} F L σ a nd (m : M heap (result A)) (f : A → M heap (result B)) P Q :
  a ∈ L → F ⊆ L → hp_nodes σ !! a = Some nd → runs L L σ m (if_ok P) →
  (∀ x σ', inv L σ' → le σ σ' → hp_nodes σ' !! a = Some nd → P x σ' → runs F L σ' (f x) (if_ok Q)) →
  runs F L σ (bindR m f) (if_ok Q).
Proof.
  intros Ha HF Hn Hm Hf. apply (runs_try F L σ m f (λ x σ', hp_nodes σ' !! a = Some nd ∧ P x σ')).
  - apply (runs_weak _ _ _ _ _ _ _ Hm HF). intros [x|e] σ' _ Hfr Hx; [| done]. split; [by rewrite Hfr | done].
  - intros x σ' Hi Hle [Hn' Hx]. by apply Hf.
Qed.

Lemma runs_phaseM {A B} F L σ a nd (m : M heap A) (f : A → M heap B) P Q :
  a ∈ L → F ⊆ L → hp_nodes σ !! a = Some nd → runs L L σ m P →
  (∀ x σ', inv L σ' → le σ σ' → hp_nodes σ' !! a = Some nd → P x σ' → runs F L σ' (f x) Q) →
  runs F L σ (bindM m f) Q.
Proof.
  intros Ha HF Hn Hm Hf. apply (runs_bind F L σ m f (λ x σ', hp_nodes σ' !! a = Some nd ∧ P x σ')).
  - apply (runs_weak _ _ _ _ _ _ _ Hm HF). intros x σ' _ Hfr Hx. split; [by rewrite Hfr | done].
  - intros x σ' Hi Hle [Hn' Hx]. by apply Hf.
Qed.

Lemma runs_readS {A} F L σ (get : State → cells → option A * cells) s :
  inv L σ → (∀ cs, is_Some (get s cs).1) → runs F L σ (readS get s) (λ _ σ', hp_nodes σ' = hp_nodes σ).
Proof.
  intros Hi Hg. unfold readS, runs. destruct (Hg (hp_cells σ)) as [x Hx]. destruct (get s (hp_cells σ)) as [y cs]. simpl in Hx. subst y.
  destruct (inv_same L σ (set_cells cs σ)) as [Hi' Hle]; [done | done | done |].
  exists x, (set_cells cs σ). split_and!; (done || by intros b).
Qed.

Lemma runs_exec_meta F L σ x : inv L σ → typed (xc_base x) = true → runs F L σ (exec_meta x) (λ _ σ', hp_nodes σ' = hp_nodes σ).
Proof.
  intros Hi Ht. unfold exec_meta.
  do 7 (eapply runs_bind;
    [apply runs_readS; [done |]; intros cs; apply get_as_typed; [intros [] Hv; (discriminate Hv || by eexists) | done] |];
    let E := fresh "E" in intros ? ? ? _ E).
  apply runs_ret; [done | congruence].
Qed.

(** What a validated vertex has *)
Definition valid_op (p : op) : Prop :=
  match p with
  | SolveOp s _ _ | InspectOp s _ _ => is_Some s
  | GateOp s _ ap _ => is_Some s ∧ is_Some ap
  | ConditionalOp cond _ _ _ => is_Some cond
  | _ => True
  end.

(** The exec with its mark of validation *)
Definition op_valid_le (p p' : op) : Prop := op_le p p' ∧ op_outs p' = op_outs p ∧ delegates p' = delegates p.

Lemma op_valid_refl (p : op) : op_valid_le p p.
Proof. by split_and!. Qed.

Lemma runs_Validate F L σ a nd : inv L σ → a ∉ F → hp_nodes σ !! a = Some nd →
  runs F L σ (Validate (VNode a)) (if_ok (λ _ σ',
    ∃ p', hp_nodes σ' !! a = Some (mkNode p' (nd_cache nd) (nd_locked nd)) ∧ op_valid_le (nd_op nd) p' ∧ valid_op p')).
Proof.
  intros Hi HaF Hn. apply (runs_bind F L σ _ _ _ _ (runs_read F L σ a nd Hi Hn)). intros y σ' _ _ [-> ->].
  destruct nd as [p ca lk]. simpl. destruct p as [id attrs own err| | |x| | | | | | |].
  all: unfold source_Validate, merge_Validate, diff_Validate, file_Validate, solve_Validate, conditional_Validate, matrix_Validate, inspect_Validate, gate_Validate.
  all: try (apply runs_ret; [done |]; unfold non_nil; repeat (case_match; try done); simplify_eq; eexists;
    (split; [done |]); (split; [apply op_valid_refl |]); simpl; by eauto).
  unfold exec_Validate. apply (runs_bind F L σ _ _ _ _ (runs_read_exec F L σ a _ x Hi Hn eq_refl)). intros y σ' _ _ [-> ->].
  pose proof (i_nodes _ _ Hi a _ Hn) as [Hout Hsp _ _]. simpl in Hsp, Hout. destruct (xc_isValidated x) eqn:Ev.
  { apply runs_ret; [done |]. exists (ExecOp x). done. }
  eapply runs_bind; [apply (runs_readS F L σ GetArgs (xc_base x)); [done |] |].
  { intros cs. apply get_as_typed; [intros [] Hv; (discriminate Hv || by eexists) | done]. }
  intros args σ1 Hi1 Hle1 E1. destruct args as [|arg args]; [by apply runs_ret |]. rewrite <- E1 in Hn.
  set (x' := mkExec (xc_proxyEnv x) (xc_root x) (xc_mounts x) (xc_base x) (xc_constraints x) true (xc_secrets x) (xc_ssh x)).
  assert (op_le (ExecOp x) (ExecOp x')) as Hox by (exists (xc_mounts x); split; [done | by exists true]).
  eapply runs_bind; [apply (runs_set_op F L σ1 a (mkNode (ExecOp x) ca lk) (ExecOp x')); [done | done | done | done | done |] |].
  { intros σ2 Hle2. split; [| done]. intros o Ho. destruct (Hout o Ho) as [Hw Hr]. assert (le σ σ2) as Hle by (by trans σ1).
    split; [by apply (le_wf_out σ) | by rewrite (le_orank σ)]. }
  intros [] σ2 Hi2 _ E2. apply runs_ret; [done |]. exists (ExecOp x'). split_and!; try done.
  rewrite E2, list_lookup_insert_eq; [done | by eapply lookup_lt_Some].
Qed.

Lemma Evaluate_pure (Hp : pure_client) cond σ : Evaluate cond σ = Some (cond_key cond, σ).
Proof.
  pose proof Hp as (_ & _ & Hc & Hb). induction cond as [| | | |p|cond IH|f]; simpl; try done.
  - unfold bindR, bindM. rewrite Hb. by destruct (w_pred W p).
  - unfold bindR, bindM. rewrite IH. by destruct (cond_key cond).
Qed.

Section level.
Context (Hclient : pure_client) (G : LLBGraph vertex Output heap) (n : nat) (HG : level_ok G n).

Lemma runs_add_inputs L os : ∀ σ pop, inv L σ → (∀ o, o ∈ os → ready n L σ o) →
  runs L L σ (add_inputs G c (Some <$> os) pop) (if_ok (λ pop' σ',
    ∃ ins, pop' = mkPbOp (op_Inputs pop ++ ins) (op_Payload pop) (op_Platform pop) (op_Filter pop)
      ∧ Forall2 (λ o i, good_input o (Some i) σ') os ins)).
Proof.
  induction os as [|o os IH]; intros σ pop Hi Hr; simpl.
  { apply runs_ret; [done |]. exists []. rewrite app_nil_r. by destruct pop. }
  eapply runs_try; [apply (lv_ToInput G n HG); [done | apply Hr; by left] |].
  intros i σ1 Hi1 Hle1 Hgood. destruct Hgood as (i' & m & -> & Hm & Hd & Hk).
  eapply runs_weak; [apply IH; [done |] | done |].
  { intros o' Ho'. apply (ready_le n L σ); [done | done |]. apply Hr. by right. }
  intros [pop'|e] σ2 Hle2 _ Hpop; [| done]. destruct Hpop as (ins & -> & Hf). exists (i' :: ins). simpl. split; [by rewrite <- app_assoc |].
  constructor; [| done]. exists i', m. split_and!; [done | by apply (fixed_le σ1) | done | done].
Qed.

(** The operation when its inputs were added *)
Lemma pop_ok_added os σ pop ins pl (pf : option Platform) (fl : option (list string)) :
  op_Inputs pop = [] → Forall2 (λ o i, good_input o (Some i) σ) os ins → pop_ok os σ (mkPbOp (op_Inputs pop ++ ins) pl pf fl).
Proof.
  intros -> Hf i [k Hk]%list_elem_of_lookup. simpl in Hk. destruct (Forall2_lookup_r _ _ _ _ _ Hf Hk) as (o & Ho & i' & m & [= <-] & Hm & E & _).
  exists o, m. split_and!; [by eapply list_elem_of_lookup_2 | done | done].
Qed.

Lemma runs_optional L os σ (o : option Output) pop : inv L σ → (∀ o', o = Some o' → ready n L σ o' ∧ o' ∈ os) → pop_ok os σ pop →
  runs L L σ (add_optional G c o pop) (if_ok (λ r σ', pop_ok os σ' r.2)).
Proof.
  intros Hi Ho Hpop. destruct o as [o|]; [| by apply runs_ret]. destruct (Ho o eq_refl) as [Hr Hin].
  eapply runs_try; [by apply (lv_ToInput G n HG) |]. intros i σ1 Hi1 Hle1 Hgood. apply runs_ret; [done |].
  apply (pop_ok_add os σ1 pop o i); [by apply (pop_ok_le os σ) | done | done].
Qed.

Lemma runs_exec_mounts L os ms : ∀ σ pop acc, inv L σ → (∀ m o, m ∈ ms → mt_source m = Some o → ready n L σ o ∧ o ∈ os) → pop_ok os σ pop →
  runs L L σ (exec_mounts G c ms pop acc) (if_ok (λ r σ', pop_ok os σ' r.1)).
Proof.
  induction ms as [|m ms IH]; intros σ pop acc Hi Ho Hpop; simpl; [by apply runs_ret |].
  eapply runs_try; [apply (runs_optional L os); [done | | done]; intros o' E; apply (Ho m); [by left | done] |].
  intros r σ1 Hi1 Hle1 Hr. apply IH; [done | | done]. intros m' o Hm' E. destruct (Ho m' o) as [H1' H2']; [by right | done |].
  split; [by apply (ready_le n L σ) | done].
Qed.

Lemma runs_file_sources L os sts : ∀ σ pop acc, inv L σ → (∀ s o, Some s ∈ sts → State_Output s = Some o → ready n L σ o ∧ o ∈ os) → pop_ok os σ pop →
  runs L L σ (file_sources G c sts pop acc) (if_ok (λ r σ', pop_ok os σ' r.1)).
Proof.
  induction sts as [|st sts IH]; intros σ pop acc Hi Ho Hpop; simpl; [by apply runs_ret |].
  assert (∀ s o, Some s ∈ sts → State_Output s = Some o → ready n L σ o ∧ o ∈ os) as Ho' by (intros s o Hs; apply Ho; by right).
  destruct st as [s|]; [| by apply IH]. destruct (State_Output s) as [o|] eqn:E; [| by apply IH].
  destruct (Ho s o) as [Hr Hin]; [by left | done |].
  eapply runs_try; [by apply (lv_ToInput G n HG) |]. intros i σ1 Hi1 Hle1 Hgood. apply IH; [done | |].
  - intros s' o' Hs' E'. destruct (Ho' s' o' Hs' E'). split; [by apply (ready_le n L σ) | done].
  - apply (pop_ok_add os σ1 pop o i); [by apply (pop_ok_le os σ) | done | done].
Qed.

(** The vertex [a] is locked, not marshalled yet, and its inputs can be used. *)
Record at_work L σ a nd : Prop := {
  aw_inv : inv L σ;
  aw_in : a ∈ L;
  aw_node : hp_nodes σ !! a = Some nd;
  aw_cache : nd_cache nd !! c.1 = None;
  aw_outs : ∀ o, o ∈ op_outs (nd_op nd) → ready n L σ o;
}.

Lemma MarshalConstraints_inputs own : op_Inputs (MarshalConstraints c.2 own).1 = [].
Proof. done. Qed.

Lemma runs_done L σ a nd own pop md :
  at_work L σ a nd → own = op_constraints (nd_op nd) → delegates (nd_op nd) = false → pop_ok (op_outs (nd_op nd)) σ pop →
  runs (L ∖ {[a]}) L σ (finish a c own pop md) (if_ok (λ m σ', fixed σ' a m)).
Proof.
  intros [Hi Ha Hn Hc Hr] Hown Hd Hp. eapply runs_weak; [apply (runs_finish (L ∖ {[a]}) L σ a nd); [done | set_solver | done | done | done | by rewrite Hown | done] | done |].
  intros [m|e] σ' _ _ Hm; [by destruct Hm | done].
Qed.

Lemma at_work_le L σ σ' a nd : at_work L σ a nd → inv L σ' → le σ σ' → hp_nodes σ' !! a = Some nd → at_work L σ' a nd.
Proof. intros [Hi Ha Hn Hc Hr] Hi' Hle Hn'. split; [done.. |]. intros o Ho. by apply (ready_le n L σ), Hr. Qed.

(** The vertices that have a list of outputs *)
Lemma runs_listed L σ a nd own outs pop (k : pbOp → M heap (result marshalled)) :
  at_work L σ a nd → own = op_constraints (nd_op nd) → op_Inputs pop = [] → (∀ o, o ∈ outs → o ∈ op_outs (nd_op nd)) → delegates (nd_op nd) = false →
  (∀ pop', ∃ pop'' md, k pop' = finish a c own pop'' md ∧ op_Inputs pop'' = op_Inputs pop') →
  runs (L ∖ {[a]}) L σ (bindR (add_inputs G c (Some <$> outs) pop) k) (if_ok (λ m σ', fixed σ' a m)).
Proof.
  intros Haw Hown Hp Houts Hd Hk. eapply (runs_phase _ L σ a nd); [apply Haw | set_solver | apply Haw | |].
  - apply runs_add_inputs; [apply Haw |]. intros o Ho. apply (aw_outs _ _ _ _ Haw), Houts, Ho.
  - intros pop' σ' Hi Hle Hn (ins & -> & Hf). pose proof (at_work_le L σ σ' a nd Haw Hi Hle Hn) as Haw'.
    pose proof (pop_ok_added outs σ' pop ins (op_Payload pop) (op_Platform pop) (op_Filter pop) Hp Hf) as Hpop.
    destruct (Hk (mkPbOp (op_Inputs pop ++ ins) (op_Payload pop) (op_Platform pop) (op_Filter pop))) as (pop'' & md & -> & Ein). apply runs_done with nd; [done | done | done |].
    intros i. rewrite Ein. intros Hi'. destruct (Hpop i Hi') as (o & m & Ho & Hrest). exists o, m. split; [by apply Houts | done].
Qed.

(** ** The vertices that have a cache *)

(** [Marshal] of the vertex [a], that has the operation [p] *)
Notation marshals L σ a m := (runs (L ∖ {[a]}) L σ m (if_ok (λ r σ', fixed σ' a r))).

Lemma runs_source L σ a nd id attrs own err : at_work L σ a nd → nd_op nd = SourceOp id attrs own err → marshals L σ a (marshal_source a id attrs own c).
Proof.
  intros Haw Hop. apply (runs_done L σ a nd); [done | by rewrite Hop | by rewrite Hop |]. intros i Hi. by apply elem_of_nil in Hi.
Qed.

Lemma Forall_is_Some {A} (l : list (option A)) : Forall is_Some l → l = Some <$> omap id l.
Proof. induction 1 as [|x l [y ->] Hl IH]; [done |]. simpl. f_equal. exact IH. Qed.

Lemma runs_merge L σ a nd inputs own : at_work L σ a nd → nd_op nd = MergeOp inputs own → marshals L σ a (marshal_merge G a inputs own c).
Proof.
  intros Haw Hop. pose proof (i_nodes _ _ (aw_inv _ _ _ _ Haw) a nd (aw_node _ _ _ _ Haw)) as [_ Hsp _ _]. rewrite Hop in Hsp.
  unfold marshal_merge. simpl. rewrite (Forall_is_Some inputs Hsp) at 1.
  apply (runs_listed L σ a nd own); [done | by rewrite Hop | done | by rewrite Hop | by rewrite Hop |]. intros pop'. by eexists _, _.
Qed.

Lemma runs_solve L σ a nd o info own : at_work L σ a nd → nd_op nd = SolveOp (Some o) info own → marshals L σ a (marshal_solve G a (Some o) info own c).
Proof.
  intros Haw Hop. pose proof (i_nodes _ _ (aw_inv _ _ _ _ Haw) a nd (aw_node _ _ _ _ Haw)) as [_ Hsp _ _]. rewrite Hop in Hsp.
  unfold marshal_solve. simpl in Hsp. destruct (buildAttrs info) as [attrs|]; [| done].
  apply (runs_listed L σ a nd own [o]); [done | by rewrite Hop | done | by rewrite Hop | by rewrite Hop |]. intros pop'. by eexists _, _.
Qed.

Lemma runs_gate L σ a nd o info ap own : at_work L σ a nd → nd_op nd = GateOp (Some o) info (Some ap) own → marshals L σ a (marshal_gate G a (Some o) info (Some ap) own c).
Proof.
  intros Haw Hop. apply (runs_listed L σ a nd own [o]); [done | by rewrite Hop | done | by rewrite Hop | by rewrite Hop |]. intros pop'. by eexists _, _.
Qed.

Lemma aw_L L σ a nd : at_work L σ a nd → L ∖ {[a]} ⊆ L.
Proof. set_solver. Qed.

Lemma runs_diff L σ a nd l u own : at_work L σ a nd → nd_op nd = DiffOp l u own → marshals L σ a (marshal_diff G a l u own c).
Proof.
  intros Haw Hop. unfold marshal_diff. simpl. set (pop := no_platform _).
  assert (∀ o, Some o ∈ [l; u] → o ∈ op_outs (nd_op nd)) as Hin by (intros o Ho; rewrite Hop; by apply elem_of_omap_id).
  eapply (runs_phase _ L σ a nd); [apply Haw | set_solver | apply Haw | apply (runs_optional L (op_outs (nd_op nd))); [apply Haw | | by intros i ?%elem_of_nil] |].
  { intros o ->. split; [apply Haw |]; apply Hin; set_solver. }
  intros r σ1 Hi1 Hle1 Hn1 Hr. pose proof (at_work_le L σ σ1 a nd Haw Hi1 Hle1 Hn1) as Haw1.
  eapply (runs_phase _ L σ1 a nd); [apply Haw | set_solver | done | apply (runs_optional L (op_outs (nd_op nd))); [done | | done] |].
  { intros o ->. split; [apply Haw1 |]; apply Hin; set_solver. }
  intros r' σ2 Hi2 Hle2 Hn2 Hr'. apply (runs_done L σ2 a nd); [by apply (at_work_le L σ1) | by rewrite Hop | by rewrite Hop | done].
Qed.

Lemma runs_file L σ a nd base action own : at_work L σ a nd → nd_op nd = FileOp base action own → marshals L σ a (marshal_file G a base action own c).
Proof.
  intros Haw Hop. unfold marshal_file. simpl. set (pop := mkPbOp [] _ _ _).
  assert (∀ o, State_Output base = Some o → o ∈ op_outs (nd_op nd)) as Hb.
  { intros o E. rewrite Hop. simpl. rewrite E. by left. }
  assert (∀ s o, Some s ∈ (reverse (action_chain action)).*1 → State_Output s = Some o → o ∈ op_outs (nd_op nd)) as Hs.
  { intros s o Hs E. rewrite Hop. cbn [op_outs]. apply elem_of_outputs. rewrite fmap_cons. right. rewrite <- E. apply list_elem_of_fmap. exists s.
    split; [done |]. apply list_elem_of_omap. apply list_elem_of_fmap in Hs as (x & E' & Hx). exists x. split; [by rewrite elem_of_reverse in Hx | done]. }
  eapply (runs_phase _ L σ a nd); [apply Haw | set_solver | apply Haw | apply (runs_optional L (op_outs (nd_op nd))); [apply Haw | | by intros i ?%elem_of_nil] |].
  { intros o E. split; [apply Haw |]; by apply Hb. }
  intros r σ1 Hi1 Hle1 Hn1 Hr. pose proof (at_work_le L σ σ1 a nd Haw Hi1 Hle1 Hn1) as Haw1.
  eapply (runs_phase _ L σ1 a nd); [apply Haw | set_solver | done | apply (runs_file_sources L (op_outs (nd_op nd))); [done | | done] |].
  { intros s o Hin E. split; [apply Haw1 |]; by apply (Hs s). }
  intros r' σ2 Hi2 Hle2 Hn2 Hr'. apply (runs_done L σ2 a nd); [by apply (at_work_le L σ1) | by rewrite Hop | by rewrite Hop | done].
Qed.

Lemma runs_exec L σ a nd x : at_work L σ a nd → nd_op nd = ExecOp x → marshals L σ a (marshal_exec G a c).
Proof.
  intros Haw Hop. pose proof Haw as [Hi Ha Hn Hc Hr]. pose proof (i_nodes _ _ Hi a nd Hn) as [Hout Hsp _ _]. rewrite Hop in Hsp, Hout, Hr.
  apply (runs_bind _ L σ _ _ _ _ (runs_read_exec _ L σ a nd x Hi Hn Hop)). intros y σ' _ _ [-> ->]. cbn [MarshalConstraints].
  eapply runs_bind; [by apply (runs_exec_meta _ L σ x) |]. intros mt σ1 Hi1 Hle1 E1. rewrite <- E1 in Hn.
  set (x1 := set_mounts (sort_slice mt_target (xc_mounts x)) x).
  assert (∀ o, o ∈ op_outs (ExecOp x1) → o ∈ op_outs (ExecOp x)) as Hperm by (intros o; simpl; by rewrite sort_slice_perm).
  eapply runs_bind; [apply (runs_set_op _ L σ1 a nd (ExecOp x1)); [done | set_solver | done | | by rewrite Hop |] |].
  { rewrite Hop. simpl. exists (sort_slice mt_target (xc_mounts x)). split; [apply sort_slice_perm | by exists (xc_isValidated x)]. }
  { intros σ2 Hle2. split; [| done]. intros o Ho%Hperm. destruct (Hout o Ho) as [Hw Hlt]. assert (le σ σ2) by (by trans σ1).
    split; [by apply (le_wf_out σ) | by rewrite (le_orank σ)]. }
  intros [] σ2 Hi2 Hle2 E2. set (nd1 := mkNode (ExecOp x1) (nd_cache nd) (nd_locked nd)).
  assert (at_work L σ2 a nd1) as Haw2.
  { split; [done | done | rewrite E2, list_lookup_insert_eq; [done | by eapply lookup_lt_Some] | done |].
    intros o Ho%Hperm. apply (ready_le n L σ); [done | by trans σ1 | by apply Hr]. }
  eapply (runs_phase _ L σ2 a nd1); [done | set_solver | apply Haw2 | apply (runs_exec_mounts L (op_outs (nd_op nd1))); [done | | by intros i ?%elem_of_nil] |].
  { intros m o Hm E. assert (o ∈ op_outs (nd_op nd1)) as Ho by (apply list_elem_of_omap; by exists m). split; [by apply Haw2 | done]. }
  intros [pop' mounts] σ3 Hi3 Hle3 Hn3 Hpop. apply (runs_done L σ3 a nd1); [by apply (at_work_le L σ2) | done | done | done].
Qed.

Lemma selectBranch_out brs d key s o own cond :
  selectBranch brs d key = Some s → State_Output s = Some o → o ∈ op_outs (ConditionalOp cond brs d own).
Proof.
  intros Hs Ho. cbn [op_outs]. apply list_elem_of_omap. exists s. split; [| done]. apply elem_of_app. unfold selectBranch in Hs.
  destruct (filter (λ br, br.1 = key) brs) as [|br l] eqn:E; [right; rewrite Hs; by left |]. injection Hs as <-. left. apply list_elem_of_fmap. exists br. split; [done |].
  assert (br ∈ filter (λ br, br.1 = key) brs) as Hin by (rewrite E; by left). by apply list_elem_of_filter in Hin as [_ Hin].
Qed.

(** A vertex that is below an output, for the locks [L] *)
Lemma runs_below L σ o : inv L σ → ready n L σ o →
  runs L L σ (v_Marshal (VNode (vertex_of o)) c) (if_ok (λ m σ', fixed σ' (vertex_of o) m)).
Proof.
  intros Hi (Hw & Hlt & Hab). destruct (wf_out_vertex σ o Hw) as [Ht Hr]. apply (lv_Marshal G n HG); [done | done | lia |].
  intros b Hb Htb. pose proof (Hab b Hb Htb). lia.
Qed.

Lemma runs_conditional L σ a nd cond brs d own :
  at_work L σ a nd → nd_op nd = ConditionalOp (Some cond) brs d own → marshals L σ a (marshal_conditional G a cond brs d own c).
Proof.
  intros Haw Hop. pose proof Haw as [Hi Ha Hn Hc Hr]. unfold marshal_conditional.
  eapply (runs_bind _ L σ _ _ (λ r σ', r = cond_key cond ∧ σ' = σ)).
  { exists (cond_key cond), σ. split_and!; (done || (by apply Evaluate_pure) || by intros b). }
  intros r σ' _ _ [-> ->]. destruct (cond_key cond) as [key|e] eqn:Ek; [| by apply runs_ret].
  destruct (selectBranch brs d key) as [s|] eqn:Es; [| by apply runs_ret].
  destruct (State_Output s) as [o|] eqn:Eo.
  2: { apply (runs_done L σ a nd); [done | by rewrite Hop | | by intros i ?%elem_of_nil]. rewrite Hop. simpl. rewrite Ek, Es. apply bool_decide_eq_false. naive_solver. }
  assert (ready n L σ o) as Hro by (apply Hr; rewrite Hop; by eapply selectBranch_out).
  eapply (runs_phaseM _ L σ a nd); [done | set_solver | done | by apply (lv_Vertex G n HG) |].
  intros r σ1 Hi1 Hle1 Hn1 ->. eapply runs_weak; [apply runs_below; [done | by apply (ready_le n L σ)] | set_solver |].
  intros [m|e] σ2 _ Hf Hx; [destruct Hx as [k Hk] | done]. exists (S k). simpl. rewrite (Hf a Ha), Hn1, Hop, Ek, Es, Eo. done.
Qed.

(** *** Inspection *)

Lemma runs_each {B} L (f : option Output → B → M heap B) l : ∀ σ s, inv L σ →
  (∀ inp σ' s, inp ∈ l → le σ σ' → inv L σ' → runs L L σ' (f inp s) (λ _ _, True)) → runs L L σ (each f l s) (λ _ _, True).
Proof.
  induction l as [|inp l IH]; intros σ s Hi Hf; [by apply runs_ret |]. simpl. eapply runs_bind; [apply Hf; [by left | done | done] |].
  intros s' σ1 Hi1 Hle1 _. apply IH; [done |]. intros inp' σ2 s2 Hin Hle2 Hi2. apply Hf; [by right | by trans σ1 | done].
Qed.

Lemma runs_inspect_walk fuel : ∀ L σ (out : option Output) depth s maxd, inv L σ → 0 < fuel →
  (∀ o, out = Some o → ready n L σ o ∧ orank σ o < fuel) → runs L L σ (inspect_walk G fuel maxd c out depth s) (λ _ _, True).
Proof.
  induction fuel as [|fuel IH]; intros L σ out depth s maxd Hi Hfuel Ho; [lia |]. cbn [inspect_walk].
  destruct out as [o|]; [| by apply runs_ret]. destruct (Ho o eq_refl) as [Hr Hlt]. case_decide; [by apply runs_ret |].
  eapply runs_bind; [by apply (lv_Vertex G n HG) |]. intros r σ1 Hi1 Hle1 ->. case_decide; [by apply runs_ret |]. cbn zeta.
  pose proof (ready_le n L σ σ1 o Hi Hle1 Hr) as Hr1.
  eapply runs_bind; [by apply runs_below |]. intros [m|e] σ2 Hi2 Hle2 _; [| by apply runs_ret].
  pose proof (ready_le n L σ1 σ2 o Hi1 Hle2 Hr1) as (Hw & Hn & Hab). destruct (wf_out_vertex σ2 o Hw) as [Ht Hrk].
  assert (le σ σ2) as Hle by (by trans σ1). rewrite <- (le_orank σ σ2) in Hlt by (done || apply Hr).
  destruct Ht as (nv & Hnv & Hpt). assert (vertex_of o ∉ L) as HvL.
  { intros Hv. assert (tracked σ2 (vertex_of o)) as Ht by (by exists nv). pose proof (Hab _ Hv Ht). lia. }
  rewrite (lv_Inputs G n HG). eapply runs_bind; [by apply (runs_Inputs Hclient L L σ2 (vertex_of o) nv) |].
  intros inputs σ3 Hi3 Hle3 (nv' & Hnv' & _ & Hin). pose proof (i_nodes _ _ Hi3 _ _ Hnv') as [Hout _ _ _].
  assert (∀ o', Some o' ∈ inputs → ready n L σ3 o' ∧ orank σ3 o' < fuel) as Hinputs.
  { intros o' Ho'%Hin. destruct (Hout o' Ho') as [Hw' Hr']. assert (tracked σ3 (vertex_of o)) as (nv'' & Hnv'' & Hpt'') by (apply (le_tracked σ2); [done | by exists nv]).
    simplify_eq. specialize (Hr' Hpt''). assert (rank σ3 (vertex_of o) = rank σ2 (vertex_of o)) as E by (apply le_rank; [done | by exists nv]).
    unfold rank at 1 in E. rewrite Hnv' in E. split; [| lia]. split_and!; [done | lia |].
    intros b Hb Htb. pose proof (above_le _ L σ2 σ3 Hi2 Hle3 Hab b Hb Htb). lia. }
  apply runs_each; [done |]. intros inp σ4 s4 Hin4 Hle4 Hi4. destruct inp as [i|]; [| by apply runs_ret].
  destruct (Hinputs i Hin4) as [Hri Hlti]. pose proof (ready_le n L σ3 σ4 i Hi3 Hle4 Hri) as Hri4.
  eapply runs_bind; [by apply (lv_Vertex G n HG) |]. intros r σ5 Hi5 Hle5 ->.
  eapply (runs_bind _ _ _ _ _ (λ _ _, True)).
  { eapply runs_bind; [apply runs_below; [done | by apply (ready_le n L σ4)] |]. intros r σ6 Hi6 _ _. by apply runs_ret. }
  intros s6 σ6 Hi6 Hle6 _. apply IH; [done | lia |]. intros o' [= <-]. assert (le σ3 σ6) as Hle36 by (trans σ4; [done | by trans σ5]).
  split; [by apply (ready_le n L σ3) |]. rewrite (le_orank σ3) by (done || apply Hri). done.
Qed.

Lemma runs_collect fuel L σ o maxd : inv L σ → ready n L σ o → orank σ o < fuel → runs L L σ (collectMetadata G fuel (Some o) maxd c) (λ _ _, True).
Proof.
  intros Hi Hr Hlt. eapply runs_bind; [apply runs_inspect_walk; [done | lia |]; by intros o' [= <-] |]. intros s σ1 Hi1 _ _. by apply runs_ret.
Qed.

Lemma inspect_attrs_total idx vs attrs : is_Some (inspect_attrs idx vs attrs).
Proof.
  revert idx attrs. induction vs as [|v vs IH]; intros idx attrs; simpl; [by eexists |].
  destruct (intToStr_total (i64 (Z.of_nat idx)) (i64_range _)) as [t ->]. apply IH.
Qed.

Lemma runs_inspect L σ a nd o maxd own : at_work L σ a nd → nd_op nd = InspectOp (Some o) maxd own → marshals L σ a (marshal_inspect G n a (Some o) maxd own c).
Proof.
  intros Haw Hop. pose proof Haw as [Hi Ha Hn Hc Hr]. assert (ready n L σ o) as Hro by (apply Hr; rewrite Hop; by left).
  eapply (runs_phaseM _ L σ a nd); [done | set_solver | done | apply runs_collect; [done | done | apply Hro] |].
  intros r σ1 Hi1 Hle1 Hn1 _. cbn [MarshalConstraints].
  apply (runs_listed L σ1 a nd own [o]); [by apply (at_work_le L σ) | by rewrite Hop | done | by rewrite Hop | by rewrite Hop |]. intros pop'.
  destruct (intToStr_total (i64 (Z.of_nat (ir_TotalOps r))) (i64_range _)) as [t ->].
  destruct (intToStr_total (i64 (Z.of_nat (ir_Depth r))) (i64_range _)) as [d ->].
  destruct (inspect_attrs_total 0 (ir_Vertices r) (<["inspect.depth" := d]> {["inspect.total_ops" := t]})) as [attrs ->]. by eexists _, _.
Qed.
End level.

(** *** Matrices *)

Lemma outputs_filter (l : list State) : State_Output <$> filter (λ s, State_Output s ≠ None) l = Some <$> omap State_Output l.
Proof.
  induction l as [|s l IH]; [done |]. rewrite filter_cons. simpl. destruct (State_Output s) as [o|] eqn:E.
  - rewrite decide_True by done. rewrite fmap_cons, E. simpl. by f_equal.
  - rewrite decide_False by naive_solver. exact IH.
Qed.

Lemma const_inputs σ outs ins :
  Forall2 (λ o i, good_input o (Some i) σ) outs ins → (∀ o, o ∈ outs → ∃ v i, o = OutVertex v (IndexConst i)) →
  ∃ k, mapM (const_input (result_at k σ)) outs = Some ins.
Proof.
  induction 1 as [|o i outs ins Hg Hf IH]; intros Hc; [by exists 0 |]. destruct IH as [k Hk]; [intros o' Ho'; apply Hc; by right |].
  destruct (Hc o) as (v & j & ->); [by left |]. destruct Hg as (i' & m & [= <-] & [k' Hk'] & Ed & Ej). exists (k `max` k').
  apply mapM_Some. constructor.
  - simpl. rewrite (result_at_mono k' (k `max` k') σ σ v m); [| lia | done | done]. simpl. f_equal. destruct i as [dg ix]. simpl in *. by rewrite Ed, (Ej v j eq_refl).
  - apply mapM_Some. apply (mapM_mono (const_input (result_at k σ))); [| done]. intros [w [x|]| |] y; try done. simpl.
    destruct (result_at k σ w) as [m'|] eqn:E; [| done]. by rewrite (result_at_mono k (k `max` k') σ σ w m'); [| lia | done | done].
Qed.

Lemma fixed_matrix σ a nd axes fn states own m k :
  hp_nodes σ !! a = Some nd → nd_op nd = MatrixOp axes fn (Some states) own →
  outs_result (result_at k σ) (omap State_Output states) = Some m → fixed σ a m.
Proof. intros Hn Hop Hm. exists (S k). cbn [result_at]. by rewrite Hn, Hop. Qed.

(** The merge that a matrix makes is marshalled. *)
Lemma runs_transient n L σ outs :
  level_ok (go_ops n) n → inv L σ → 1 < length outs → (∀ o, o ∈ outs → ready n L σ o) →
  runs L L σ (let* b := new_node (MergeOp (Some <$> outs) merge_own) in v_Marshal (LLBGraph := go_ops (S n)) (VNode b) c)
    (if_ok (λ m σ', ∃ ins, merge_result ins = Some m ∧ Forall2 (λ o i, good_input o (Some i) σ') outs ins)).
Proof.
  intros HG Hi Hlen Hr. set (b := length (hp_nodes σ)). set (p := MergeOp (Some <$> outs) merge_own).
  set (σ1 := set_nodes (λ l, l ++ [mkNode p ∅ false]) σ).
  assert (inv L σ1) as Hi1.
  { apply inv_alloc; [done |]. split; simpl.
    - intros o Ho%elem_of_omap_id. apply list_elem_of_fmap in Ho as (o' & [= <-] & Ho). split; [apply (Hr o Ho) |].
      intros [Hb|Hb]; [pose proof (i_limit _ _ Hi); lia | done].
    - apply Forall_fmap, Forall_true. intros o. by eexists.
    - split; [done |]. intros Hb%(i_locked _ _ Hi). lia.
    - intros m. by rewrite lookup_empty.
    - split; [| done]. intros x Hx. by apply elem_of_nil in Hx. }
  assert (hp_nodes σ1 !! b = Some (mkNode p ∅ false)) as Hb by (simpl; by apply list_lookup_middle).
  assert (b ∉ L) as HbL by (intros HbL%(i_locked _ _ Hi); unfold b in *; lia).
  apply (runs_bind L L σ _ _ (λ x σ', x = b ∧ σ' = σ1)).
  { exists b, σ1. split_and!; try done; [apply le_alloc |]. intros x Hx%(i_locked _ _ Hi). simpl. by rewrite lookup_app_l. }
  intros x σ' _ _ [-> ->]. cbn [go_ops v_Marshal step_Marshal].
  apply (runs_bind L L σ1 _ _ _ _ (runs_read L L σ1 b _ Hi1 Hb)). intros x σ' _ _ [-> ->]. cbn [nd_op].
  apply (runs_locked L σ1 b _ _ _ Hi1 Hb HbL).
  { intros m σ2 σ3 Hle (ins & Hm & Hf). exists ins. split; [done |]. apply (Forall2_impl _ _ _ _ Hf). intros o i. by apply good_input_le. }
  { intros m σ2 _. simpl. by rewrite lookup_empty. }
  intros σ2 Hi2 Hle2 Hn2 _. cbn [nd_op nd_cache] in Hn2. set (nd := mkNode p ∅ true) in *.
  assert (le σ σ2) as Hle by (trans σ1; [apply le_alloc | done]).
  assert (∀ o, o ∈ outs → ready n ({[b]} ∪ L) σ2 o) as Hr2.
  { intros o Ho. destruct (ready_le n L σ σ2 o Hi Hle (Hr o Ho)) as (Hw & Hlt & Hab). split_and!; [done | done |].
    intros x [->%elem_of_singleton|Hx]%elem_of_union Ht; [| by apply Hab]. destruct Ht as (nx & Hnx & Ht). simplify_eq.
    destruct Ht as [Ht|Ht]; [pose proof (i_limit _ _ Hi); unfold b in *; lia | done]. }
  apply (runs_bind L _ σ2 _ _ (λ r σ', r = Ok tt ∧ σ' = σ2)).
  { exists (Ok tt), σ2. split_and!; try done. cbn [Validate]. unfold read_node, bindM. rewrite Hn2. cbn [nd_op nd p].
    unfold merge_Validate. rewrite length_fmap, decide_False by lia. done. }
  intros x σ' _ _ [-> ->]. apply (runs_bind L _ σ2 _ _ _ _ (runs_read L _ σ2 b _ Hi2 Hn2)). intros x σ' _ _ [-> ->]. cbn [nd_op nd p].
  unfold marshal_merge. cbn [MarshalConstraints].
  eapply (runs_phase L _ σ2 b nd); [set_solver | set_solver | done | by apply (runs_add_inputs (go_ops n) n HG) |].
  intros pop σ3 Hi3 Hle3 Hn3 (ins & -> & Hf). eapply runs_weak; [apply (runs_finish L _ σ3 b nd merge_own); [done | done | done | done | done | done |] | done |].
  { intros i Hin. destruct (pop_ok_added outs σ3 (no_platform (mkPbOp [] Op_None None None)) ins Op_None None None eq_refl Hf i Hin) as (o & m & Ho & Hrest).
    exists o, m. split; [| done]. apply elem_of_omap_id, list_elem_of_fmap. by exists o. }
  intros [m|e] σ4 Hle4 _ Hm; [| done]. destruct Hm as (_ & dt & Edt & ->). exists ins. split.
  - unfold merge_result, merge_op. cbn [MarshalConstraints fst snd]. rewrite length_fmap in Edt. rewrite <- (Forall2_length _ _ _ Hf).
    cbn in Edt |- *. by rewrite Edt.
  - apply (Forall2_impl _ _ _ _ Hf). intros o i. by apply good_input_le.
Qed.

Lemma runs_matrix (Hclient : pure_client) n L σ a nd axes fn e own :
  (∀ k, k ≤ n → level_ok (go_ops k) k) → inv L σ → a ∈ L → hp_nodes σ !! a = Some nd → nd_op nd = MatrixOp axes fn e own →
  ptracked a (nd_op nd) → rank σ a ≤ n → above (rank σ a) L σ →
  runs (L ∖ {[a]}) L σ (marshal_matrix (go_ops n) a c) (if_ok (λ m σ', fixed σ' a m)).
Proof.
  intros HG Hi Ha Hn Hop Hpt Hrk Hab. pose proof (i_nodes _ _ Hi a nd Hn) as [_ Hsp _ _]. rewrite Hop in Hsp. simpl in Hsp.
  destruct Hsp as (_ & _ & Hout & Hlen & Hconst).
  assert (rank σ a = w_rank W a) as Erank by (unfold rank; by rewrite Hn, Hop). rewrite Erank in *.
  set (outs := omap State_Output (matrix_states axes fn)) in *.
  assert (∀ k o, o ∈ outs → w_rank W a ≤ k + 2 → ready k L σ o) as Hready.
  { intros k o Ho Hk. destruct (Hout o Ho) as [Hw Hlt]. split_and!; [done | lia |]. intros b Hb Htb. pose proof (Hab b Hb Htb). lia. }
  eapply runs_bind; [apply (runs_expand Hclient _ L σ a nd axes fn e own); [done | set_solver | done | done] |].
  intros states σ1 Hi1 Hle1 [-> Hn1]. set (nd1 := mkNode _ (nd_cache nd) (nd_locked nd)) in Hn1.
  assert (∀ m σ', hp_nodes σ' !! a = Some nd1 → (∃ k, outs_result (result_at k σ') outs = Some m) → fixed σ' a m) as Hfixed.
  { intros m σ' Hn' [k Hk]. by apply (fixed_matrix σ' a nd1 axes fn (matrix_states axes fn) own m k). }
  assert (∀ k o, o ∈ outs → w_rank W a ≤ k + 2 → ready k L σ1 o) as Hready1 by (intros k o Ho Hk; apply (ready_le k L σ); [done | done | by apply Hready]).
  assert (∀ o, outs = [o] → runs (L ∖ {[a]}) L σ1 (let* v := out_Vertex (LLBGraph := go_ops n) o c in Marshal_of (go_ops n) v c) (if_ok (λ m σ', fixed σ' a m))) as Hone.
  { intros o Eo. assert (ready n L σ1 o) as Hro by (apply Hready1; [rewrite Eo; by left | lia]).
    eapply (runs_phaseM _ L σ1 a nd1); [done | set_solver | done | by apply (lv_Vertex _ n (HG n (le_n n))) |].
    intros v σ2 Hi2 Hle2 Hn2 ->. simpl. eapply runs_weak; [apply (runs_below (go_ops n) n (HG n (le_n n))); [done | by apply (ready_le n L σ1)] | set_solver |].
    intros [m|err] σ3 _ Hf Hm; [| done]. apply Hfixed; [by rewrite Hf |]. destruct Hm as [k Hk]. exists k. rewrite Eo. exact Hk. }
  pose proof (outputs_filter (matrix_states axes fn)) as Efilter. fold outs in Efilter.
  destruct (matrix_states axes fn) as [|s [|s' states]] eqn:Est.
  - by apply runs_ret.
  - destruct (State_Output s) as [o|] eqn:Eo; [| by apply runs_ret]. apply Hone. unfold outs. simpl. by rewrite Eo.
  - unfold Merge. destruct (filter _ (s :: s' :: states)) as [|s1 [|s2 l]] eqn:Ef.
    + destruct outs; [| done]. destruct Hlen; [simpl; lia | done].
    + destruct outs as [|o [|o' outs']] eqn:Eouts; try done. simpl in Efilter. injection Efilter as E1. simpl. unfold bindM at 1. unfold retM at 1. rewrite E1. by apply Hone.
    + assert (1 < length outs) as Hl by (rewrite <- (length_fmap Some outs), <- Efilter; simpl; lia).
      destruct outs as [|o0 outs'] eqn:Eouts; [simpl in Hl; lia |]. rewrite <- Eouts in *.
      assert (o0 ∈ outs) as Ho0 by (rewrite Eouts; by left). pose proof (Hout o0 Ho0) as [_ Hlt0]. destruct n as [|n]; [lia |].
      destruct (runs_transient n L σ1 outs) as (r & σ2 & E2 & Hi2 & Hle2 & Hf2 & Hq); [apply HG; lia | done | done | by intros o Ho; apply Hready1; [| lia] |].
      exists r, σ2. split_and!; [| done | done | intros b Hb; apply Hf2; set_solver |].
      { rewrite <- E2. unfold NewMerge. rewrite Efilter. reflexivity. }
      destruct r as [m|err]; [| done]. destruct Hq as (ins & Hm & Hins). apply Hfixed; [by rewrite Hf2 |].
      destruct (const_inputs σ2 outs ins Hins (Hconst Hl)) as [k Hk]. exists k. unfold outs_result.
      destruct outs as [|o1 [|o2 outs'']]; [simpl in Hl; lia | simpl in Hl; lia |]. by rewrite Hk.
Qed.

(** ** The instance *)

Lemma runs_body (Hclient : pure_client) n L σ a nd :
  (∀ k, k ≤ n → level_ok (go_ops k) k) → inv ({[a]} ∪ L) σ → a ∉ L → hp_nodes σ !! a = Some nd → nd_cache nd !! c.1 = None →
  is_def (nd_op nd) = false → ptracked a (nd_op nd) → rank σ a ≤ n → above (rank σ a) ({[a]} ∪ L) σ →
  runs L ({[a]} ∪ L) σ (marshal_body (go_ops n) n a c) (if_ok (λ m σ', fixed σ' a m)).
Proof.
  intros HG Hi HaL Hn Hc Hd Hpt Hrk Hab. pose proof (HG n (le_n n)) as HGn.
  eapply runs_try; [by apply (runs_Validate L _ σ a nd) |].
  intros [] σ1 Hi1 Hle1 (p & Hn1 & (Hop & Houts & Hdel) & Hval).
  eapply runs_bind; [by apply (runs_read L _ σ1 a _ Hi1 Hn1) |]. intros x σ' _ _ [-> ->]. set (nd1 := mkNode p (nd_cache nd) (nd_locked nd)) in *.
  assert (rank σ1 a = rank σ a) as Er by (apply le_rank; [done | by exists nd]).
  assert (ptracked a p) as Hpt1 by (unfold ptracked in *; by rewrite (op_le_def _ _ Hop)).
  pose proof (above_le _ _ _ _ Hi Hle1 Hab) as Hab1. rewrite <- Er in Hab1, Hrk.
  assert (at_work n ({[a]} ∪ L) σ1 a nd1) as Haw.
  { split; [done | set_solver | done | done |]. intros o Ho. destruct (no_outs _ _ _ _ (i_nodes _ _ Hi1 a _ Hn1) o Ho) as [Hw Hlt].
    specialize (Hlt Hpt1). assert (rank σ1 a = prank a p) as E by (unfold rank; by rewrite Hn1). rewrite E in *. simpl in Hlt. split_and!; [done | lia |].
    intros b Hb Htb. pose proof (Hab1 b Hb Htb). lia. }
  assert (is_def p = false) as Hdp by (by rewrite (op_le_def _ _ Hop)).
  apply (runs_weak L (({[a]} ∪ L) ∖ {[a]}) _ σ1 _ (if_ok (λ m σ', fixed σ' a m))); [| set_solver | done]. cbn [nd_op nd1].
  destruct p as [id attrs own err|inputs own|l u own|x|base action own|src info own|cond brs d own|axes fn e own|src maxd own|src info ap own|d]; try done.
  - by apply (runs_source Hclient _ n HGn _ σ1 a nd1 id attrs own err).
  - by apply (runs_merge Hclient _ n HGn _ σ1 a nd1).
  - by apply (runs_diff Hclient _ n HGn _ σ1 a nd1).
  - by apply (runs_exec Hclient _ n HGn _ σ1 a nd1 x).
  - by apply (runs_file Hclient _ n HGn _ σ1 a nd1).
  - destruct Hval as [o ->]. by apply (runs_solve Hclient _ n HGn _ σ1 a nd1).
  - destruct Hval as [cd ->]. by apply (runs_conditional Hclient _ n HGn _ σ1 a nd1).
  - apply (runs_matrix Hclient n _ σ1 a nd1 axes fn e own); (done || set_solver).
  - destruct Hval as [o ->]. by apply (runs_inspect Hclient _ n HGn _ σ1 a nd1).
  - destruct Hval as [[o ->] [ap' ->]]. by apply (runs_gate Hclient _ n HGn _ σ1 a nd1).
Qed.

Lemma runs_step_Marshal (Hclient : pure_client) n L σ a :
  (∀ k, k ≤ n → level_ok (go_ops k) k) → inv L σ → tracked σ a → rank σ a < S n → above (S (rank σ a)) L σ →
  runs L L σ (step_Marshal (go_ops n) n (VNode a) c) (if_ok (λ m σ', fixed σ' a m)).
Proof.
  intros HG Hi (nd & Hn & Hpt) Hrk Hab. cbn [step_Marshal].
  apply (runs_bind L L σ _ _ _ _ (runs_read L L σ a nd Hi Hn)). intros x σ' _ _ [-> ->].
  assert (a ∉ L) as HaL by (intros Ha; assert (tracked σ a) as Ht by (by exists nd); pose proof (Hab a Ha Ht); lia).
  assert (is_def (nd_op nd) = false → runs L L σ (cached a c (marshal_body (go_ops n) n a c)) (if_ok (λ m σ', fixed σ' a m))) as Hcached.
  { intros Hd. apply (runs_locked L σ a nd); [done | done | done | intros m σ1 σ2; by apply fixed_le | |].
    - intros m σ1 Hle Hm. destruct (no_cache _ _ _ _ (i_nodes _ _ Hi a nd Hn) m Hm) as [Hdel _].
      apply (fixed_le σ); [done |]. by apply (fixed_cached σ a nd).
    - intros σ1 Hi1 Hle1 Hn1 Hc. assert (rank σ1 a = rank σ a) as Er by (apply le_rank; [done | by exists nd]).
      apply (runs_body Hclient n L σ1 a (mkNode (nd_op nd) (nd_cache nd) true)); (done || (rewrite Er; lia) || idtac).
      intros b [->%elem_of_singleton|Hb]%elem_of_union Htb; [done |]. rewrite Er.
      pose proof (above_le _ L σ σ1 Hi Hle1 Hab b Hb Htb). lia. }
  destruct (nd_op nd) as [| | | | | | | | | |d] eqn:Hop; try by apply Hcached.
  apply runs_ret; [done |]. destruct (def_Marshal_op d) as [m|] eqn:E; [| done]. exists 1. simpl. by rewrite Hn, Hop, E.
Qed.

Lemma runs_async n L σ a : level_ok (go_ops n) n → pure_client → inv L σ → ready (S n) L σ (OutAsync a) →
  runs L L σ (async_Do (go_ops n) n a c) (λ r σ', ∃ s o, r = Ok s ∧ State_Output s = Some o ∧ ready n L σ' o ∧ vertex_of o = w_avertex W a).
Proof.
  intros HG Hp Hi (Hw & Hlt & Hab). simpl in Hlt, Hab.
  assert (∀ o, wf_out σ o → orank σ o < w_arank W a → ready n L σ o) as Hready.
  { intros o Ho Hr. split_and!; [done | lia |]. intros b Hb Htb. pose proof (Hab b Hb Htb). lia. }
  inversion Hw as [| | |a' f prev o Ha Ho Hwo Hv Hr|a' v prev o nd s dp own Ha Ho Hwo Hv Hr Hn Hop Hs Hrs]; subst a'.
  - destruct Hp as (Hua & _). exists (Ok (w_state W f prev)), σ. unfold async_Do. rewrite Ha, Hua.
    split_and!; (done || (by intros b) || idtac). exists (w_state W f prev), o. split_and!; [done | done | by apply Hready | done].
  - pose proof (Hready s Hs Hrs) as Hrs'. pose proof (Hready o Hwo Hr) as Hro.
    assert (runs L L σ (let* n0 := read_node v in match nd_op n0 with
      | InspectOp source maxDepth _ => let* r := collectMetadata (go_ops n) n source maxDepth c in retM (Ok (WithValue ResultKey (AnyInspect r) prev))
      | _ => panicM end) (λ r σ', ∃ s o, r = Ok s ∧ State_Output s = Some o ∧ ready n L σ' o ∧ vertex_of o = w_avertex W a)) as Hrun.
    { apply (runs_bind L L σ _ _ _ _ (runs_read L L σ v nd Hi Hn)). intros x σ' _ _ [-> ->]. rewrite Hop.
      eapply runs_bind; [apply (runs_collect Hp (go_ops n) n HG); [done | done | apply Hrs'] |]. intros r σ1 Hi1 Hle1 _.
      apply runs_ret; [done |]. exists (WithValue ResultKey (AnyInspect r) prev), o. split_and!; [done | done | by apply (ready_le n L σ) | done]. }
    destruct Hrun as (r & σ1 & E & Hrest). exists r, σ1. unfold async_Do. by rewrite Ha.
Qed.

Lemma go_ops_ok (Hclient : pure_client) n : level_ok (go_ops n) n.
Proof.
  induction n as [n IH] using lt_wf_ind. destruct n as [|n].
  { split; [intros L σ o _ (_ & Hlt & _); lia.. | intros L σ a _ _ Hlt; lia | done]. }
  assert (∀ k, k ≤ n → level_ok (go_ops k) k) as HG by (intros k Hk; apply IH; lia). pose proof (HG n (le_n n)) as HGn.
  assert (∀ L σ v index o, inv L σ → ready (S n) L σ o → vertex_of o = v → orank σ o = S (rank σ v) → (o = OutVertex v index ∨ o = OutDef v) →
    (∀ id, index = IndexMount id → ∃ nd x, hp_nodes σ !! v = Some nd ∧ nd_op nd = ExecOp x) →
    runs L L σ (output_ToInput (go_ops n) v index c) (if_ok (good_input o))) as Hout.
  { intros L σ v index o Hi (Hw & Hlt & Hab) Hv Hor Ho Hmount. destruct (wf_out_vertex σ o Hw) as [Ht _]. rewrite Hv in Ht. rewrite Hor in *.
    eapply (runs_try L L σ _ _ (λ i σ', σ' = σ ∧ ∀ k, index = IndexConst k → i = k)).
    { destruct index as [k|id]; [apply runs_ret; [done |]; naive_solver |]. destruct (Hmount id eq_refl) as (nd & x & Hn & Hop).
      apply (runs_bind L L σ _ _ _ _ (runs_read_exec L L σ v nd x Hi Hn Hop)). intros y σ' _ _ [-> ->]. apply runs_ret; [done |].
      by destruct (getMountIndex _ _ _). }
    intros i σ' _ _ [-> Hk]. eapply runs_try; [apply (lv_Marshal _ n HGn); [done | done | lia | done] |].
    intros m σ1 Hi1 _ Hm. apply runs_ret; [done |]. exists (mkInput (mr_digest m) i), m. rewrite Hv. split_and!; try done.
    intros v' k ->. destruct Ho as [[= _ E]|Ho]; [by apply Hk | done]. }
  split; [| | | done].
  - intros L σ o Hi Hr. destruct o as [v ix|v|a]; [by apply runs_ret | by apply runs_ret |]. cbn [go_ops out_Vertex step_Vertex].
    eapply runs_bind; [by apply runs_async |]. intros r σ1 Hi1 _ (s & o & -> & Ho & Hro & Hv). rewrite Ho. simpl. rewrite <- Hv. by apply (lv_Vertex _ n HGn).
  - intros L σ o Hi Hr. pose proof Hr as [Hw _]. cbn [go_ops out_ToInput]. destruct o as [v ix|v|a]; cbn [step_ToInput].
    + apply Hout; (done || (by left) || idtac). intros id ->. inversion Hw; subst. by eauto.
    + inversion Hw as [| |v' nd d Ht Hn Hop Hne| |]; subst v'. apply (runs_bind L L σ _ _ _ _ (runs_read L L σ v nd Hi Hn)). intros x σ' _ _ [-> ->].
      rewrite Hop. unfold def_Output. rewrite decide_False by done. apply Hout; (done || (by right) || idtac).
    + eapply runs_bind; [by apply runs_async |]. intros r σ1 Hi1 _ (s & o & -> & Ho & Hro & Hv). rewrite Ho.
      eapply runs_weak; [by apply (lv_ToInput _ n HGn) | done |]. intros [i|e] σ2 _ _ Hg; [| done]. simpl in Hg |- *.
      destruct Hg as (i' & m & -> & Hm & E & _). exists i', m. simpl. by rewrite <- Hv.
  - intros L σ a Hi Ht Hrk Hab. by apply runs_step_Marshal.
Qed.

Definition v_edge σ (v w : vertex) : Prop := match v, w with VNode a, VNode b => edge σ a b | _, _ => False end.
Definition v_final σ (v : vertex) : Prop := match v with VNode a => final σ a | VErr _ => False end.
Definition v_rank σ (v : vertex) : nat := match v with VNode a => rank σ a | VErr _ => 0 end.
Definition v_fixed σ (v : vertex) (m : marshalled) : Prop := match v with VNode a => fixed σ a m | VErr _ => False end.
Definition v_ok (n : nat) σ (v : vertex) : Prop := match v with VNode a => tracked σ a ∧ rank σ a < n | VErr _ => False end.

Lemma edge_below σ a b : inv ∅ σ → tracked σ a → edge σ a b → tracked σ b ∧ rank σ b < rank σ a.
Proof.
  intros Hi (n & Hn & Hpt) (n' & o & Hn' & Ho & <-). simplify_eq. destruct (no_outs _ _ _ _ (i_nodes _ _ Hi a n Hn) o Ho) as [Hw Hr].
  destruct (wf_out_vertex σ o Hw) as [Ht Hlt]. split; [done |]. specialize (Hr Hpt). unfold rank at 2. rewrite Hn. lia.
Qed.

Lemma edge_le σ σ' a b : le σ σ' → edge σ a b → edge σ' a b.
Proof.
  intros [_ Hle] (n & o & Hn & Ho & <-). destruct (Hle a n Hn) as (n' & Hn' & [Hop _]). exists n', o. split_and!; [done | by apply (op_outs_le (nd_op n)) | done].
Qed.

Lemma final_le σ σ' a : le σ σ' → final σ a → final σ' a ∧ ∀ b, edge σ' a b → edge σ a b.
Proof.
  intros [_ Hle] (n & Hn & Hf). destruct (Hle a n Hn) as (n' & Hn' & [Hop _]).
  assert (op_final (nd_op n') ∧ ∀ o, o ∈ op_outs (nd_op n') → o ∈ op_outs (nd_op n)) as [Hf' Ho].
  { destruct (nd_op n) as [| | |x| | | |ax fn e own| | |d]; try (simpl in Hop; rewrite Hop; done); destruct (nd_op n') as [| | |x'| | | |ax' fn' e' own'| | |d']; try discriminate Hop.
    - destruct Hop as (ms & Hms & valid & ->). split; [done |]. intros o. simpl. by rewrite Hms.
    - destruct Hop as (-> & -> & -> & [->| ->]); [by destruct Hf | done].
    - destruct Hop as (Et & Ed & _ & Hc). simpl in *. rewrite Et, Ed. split.
      + intros q i Hq Hi. destruct (Hf q i Hq Hi) as [v Hv]. exists v. by apply Hc.
      + destruct (dt_ops (do_tables d) !! do_dgst d) as [q|] eqn:Hq; [| done]. intros o (i & Hi & Ho)%list_elem_of_omap. apply list_elem_of_omap. exists i.
        split; [done |]. destruct (Hf q i eq_refl Hi) as [v Hv]. unfold child_out in *. rewrite (Hc i v Hv) in Ho. by rewrite Hv. }
  split; [by exists n' |]. intros b (n'' & o & Hn'' & Ho' & <-). simplify_eq. exists n, o. split_and!; [done | by apply Ho | done].
Qed.

Lemma def_Marshal_spec d m : def_Marshal_op d = Ok m →
  mr_digest m = do_dgst d ∧ do_dgst d ≠ EmptyString ∧ dt_defs (do_tables d) !! do_dgst d = Some (mr_dt m) ∧ is_Some (dt_ops (do_tables d) !! do_dgst d).
Proof.
  unfold def_Marshal_op, def_Validate. repeat case_decide; try done. intros [= <-]. simpl. split_and!; try done.
  - destruct (dt_defs _ !! _); done.
  - destruct (dt_ops _ !! _); [by eexists | done].
Qed.

Lemma fixed_op k σ a m : inv ∅ σ → tracked σ a → (∀ b, rtc (edge σ) a b → final σ b) → (∀ b, tc (edge σ) a b → ∃ m, fixed σ b m) →
  result_at k σ a = Some m →
  mr_digest m = digest_FromBytes (mr_dt m)
  ∧ ∃ q, op_UnmarshalVT (mr_dt m) = Ok q ∧ ∀ i, i ∈ op_Inputs q → ∃ b m', tc (edge σ) a b ∧ fixed σ b m' ∧ mr_digest m' = in_Digest i.
Proof.
  intros Hi. revert a m. induction k as [|k IH]; intros a m Ht Hfin Hfix Hm; [done |]. cbn [result_at] in Hm.
  destruct (hp_nodes σ !! a) as [n|] eqn:Hn; [| done]. pose proof (i_nodes _ _ Hi a n Hn) as [Hout Hsp _ Hcache].
  assert (∀ o, o ∈ op_outs (nd_op n) → edge σ a (vertex_of o)) as He by (intros o Ho; by exists n, o).
  assert (nd_cache n !! c.1 = Some m → mr_digest m = digest_FromBytes (mr_dt m)
    ∧ ∃ q, op_UnmarshalVT (mr_dt m) = Ok q ∧ ∀ i, i ∈ op_Inputs q → ∃ b m', tc (edge σ) a b ∧ fixed σ b m' ∧ mr_digest m' = in_Digest i) as Hcached.
  { intros Hc. destruct (Hcache m Hc) as [_ (Hd & _ & _ & q & Hq & Hin)]. split; [done |]. exists q. split; [done |]. intros i Hii.
    destruct (Hin i Hii) as (o & m' & Ho & Hm' & E). exists (vertex_of o), m'. split_and!; [by apply tc_once, He | done | done]. }
  assert (∀ o, o ∈ op_outs (nd_op n) → result_at k σ (vertex_of o) = Some m → mr_digest m = digest_FromBytes (mr_dt m)
    ∧ ∃ q, op_UnmarshalVT (mr_dt m) = Ok q ∧ ∀ i, i ∈ op_Inputs q → ∃ b m', tc (edge σ) a b ∧ fixed σ b m' ∧ mr_digest m' = in_Digest i) as Hdeleg.
  { intros o Ho Hr. pose proof (He o Ho) as Heo. destruct (edge_below σ a _ Hi Ht Heo) as [Hto _]. destruct (IH (vertex_of o) m) as (Hd & q & Hq & Hin); try done.
    - intros b Hb. apply Hfin. by eapply rtc_l.
    - intros b Hb. apply Hfix. by eapply tc_l.
    - split; [done |]. exists q. split; [done |]. intros i Hii. destruct (Hin i Hii) as (b & m' & Hb & Hrest). exists b, m'. split; [by eapply tc_l | done]. }
  destruct (nd_op n) as [| | | | | |cond brs d own|axes fn e own| | |d] eqn:Hop; try by apply Hcached.
  - destruct cond as [cond|]; [| by apply Hcached]. destruct (cond_key cond); [| done]. destruct (selectBranch _ _ _) as [s|] eqn:Es; [| done].
    destruct (State_Output s) as [o|] eqn:Eo; [| by apply Hcached]. apply (Hdeleg o); [by eapply selectBranch_out | done].
  - destruct e as [states|]; [| done]. cbn [op_outs default id from_option] in *. destruct (omap State_Output states) as [|o [|o' outs]] eqn:Eouts; [done | |].
    + apply (Hdeleg o); [by left | done].
    + rewrite <- Eouts in *. assert (mapM (const_input (result_at k σ)) (omap State_Output states) ≫= merge_result = Some m) as Hm' by (rewrite Eouts in *; exact Hm).
      apply bind_Some in Hm' as (ins & Hins & Hmr). unfold merge_result in Hmr. destruct (DeterministicMarshal _) as [dt|] eqn:Edt; [| done].
      injection Hmr as <-. split; [done |]. exists (merge_op ins).1. split; [by apply op_codec |]. intros i Hii. simpl in Hii.
      apply list_elem_of_lookup in Hii as [j Hj]. apply mapM_Some in Hins. destruct (Forall2_lookup_r _ _ _ _ _ Hins Hj) as (x & Hx & Hxi).
      apply list_elem_of_lookup_2 in Hx. destruct x as [v [ix|]| |]; try done. simpl in Hxi. destruct (result_at k σ v) as [m'|] eqn:Er; [| done].
      injection Hxi as <-. exists v, m'. split_and!; [apply tc_once, (He _ Hx) | by exists k | done].
  - destruct (def_Marshal_op d) as [m''|] eqn:Em; [| done]. injection Hm as ->. destruct (def_Marshal_spec d m Em) as (Ed & Hne & Hdt & [q Hq]).
    destruct Hsp as ((_ & Ht1 & Ht2) & _ & Hch). destruct (Ht2 _ _ Hdt) as (Edg & q' & Hq' & Hops). rewrite Ed. split; [done |].
    assert (q' = q) as -> by congruence. exists q. split; [done |]. intros i Hii. destruct (Ht1 _ _ _ Hq Hii) as (Hi0 & _ & _ & _).
    destruct (Hfin a (rtc_refl _ _)) as (n0 & Hn0 & Hf0). rewrite Hn in Hn0. injection Hn0 as <-. rewrite Hop in Hf0.
    destruct (Hf0 q i Hq Hii) as [v Hv]. destruct (Hch i v Hv Hi0) as (nv & dv & Hnv & Hopv & Etv & Edv & _).
    assert (edge σ a v) as Hav.
    { apply (He (OutVertex v (IndexConst (in_Index i)))). simpl. rewrite Hq. apply list_elem_of_omap. exists i. split; [done |]. unfold child_out. by rewrite Hv. }
    destruct (Hfix v) as (m' & [k' Hk']); [by apply tc_once |]. exists v, m'. split_and!; [by apply tc_once | by exists k' |].
    destruct k' as [|k']; [done |]. cbn [result_at] in Hk'. rewrite Hnv, Hopv in Hk'. destruct (def_Marshal_op dv) as [m2|] eqn:Em2; [| done].
    injection Hk' as ->. destruct (def_Marshal_spec dv m' Em2) as (-> & _). done.
Qed.

(** The vertices of rank below [n], with calls nested [n] deep *)
Definition vertex_laws (Hclient : pure_client) (n : nat) : LLBGraphLaws (H := go_ops n) (V := vertex) c.
Proof.
  refine {|
    gl_inv := inv ∅; gl_le := le; gl_ok := v_ok n; gl_out := λ σ o, wf_out σ o ∧ orank σ o < n;
    gl_vertex := λ o, Some (VNode (vertex_of o)); gl_edge := v_edge; gl_final := v_final; gl_rank := v_rank; gl_fixed := v_fixed |}.
  - intros σ σ' [a|] Hle; [| done]. intros [Ht Hr]. pose proof (le_rank σ σ' a Hle (tracked_some σ a Ht)) as E. simpl. rewrite E. split; [| done].
    split; [by apply (le_tracked σ) | done].
  - intros σ σ' o Hle [Hw Hr]. split; [by apply (le_wf_out σ) | by rewrite (le_orank σ)].
  - intros σ σ' [a|] [b|] Hle; try done. by apply edge_le.
  - intros σ σ' [a|] Hle; [| done]. intros Hf. destruct (final_le σ σ' a Hle Hf) as [Hf' He]. split; [done |]. intros [b|]; [apply He | done].
  - intros σ σ' [a|] m Hle; [by apply fixed_le | done].
  - intros σ [a|] m m'; [apply fixed_eq | done].
  - intros σ [a|] [b|] Hi Hok He; try done. destruct Hok as [Ht Hr]. destruct (edge_below σ a b Hi Ht He). simpl. split; [split; [done | lia] | done].
  - intros σ o Hi [Hw Hr]. destruct (lv_Vertex _ _ (go_ops_ok Hclient n) ∅ σ o Hi) as (r & σ' & E & Hi' & Hle & _ & ->); [split_and!; [done | done | by intros b] |].
    by exists σ'.
  - intros σ [a|] Hi Hok; [| done]. destruct Hok as [[nd [Hn Hpt]] Hr]. assert (tracked σ a) as Ht by (by exists nd).
    destruct (runs_Inputs Hclient ∅ ∅ σ a nd Hi) as (l & σ' & E & Hi' & Hle & _ & nd' & Hn' & Hf & Hin); [done | set_solver | done |].
    exists l, σ'. split_and!; [by destruct n | done | done | by exists nd' | |].
    + intros o Ho%Hin. destruct (no_outs _ _ _ _ (i_nodes _ _ Hi' a nd' Hn') o Ho) as [Hw Hlt]. split; [done |].
      pose proof (le_rank σ σ' a Hle (tracked_some σ a Ht)) as Er. unfold rank at 1 in Er. rewrite Hn' in Er.
      destruct (le_tracked σ σ' a Hle Ht) as (nd'' & Hn'' & Hpt'). simplify_eq. specialize (Hlt Hpt'). lia.
    + intros [b|]; [| split; [done | by intros (o & _ & [=])]]. split.
      * intros (n0 & o & Hn0 & Ho & <-). simplify_eq. exists o. split; [by apply Hin | done].
      * intros (o & Ho & [= <-]). exists nd', o. split_and!; [done | by apply Hin | done].
  - intros σ [a|] Hi Hok; [| done]. destruct Hok as [Ht Hr].
    destruct (lv_Marshal _ _ (go_ops_ok Hclient n) ∅ σ a Hi Ht Hr) as (r & σ' & E & Hi' & Hle & _ & Hq); [by intros b |].
    exists r, σ'. split_and!; [done.. |]. by intros m ->.
  - intros σ [a|] m Hi Hok Hfin Hfix Hm; [| done]. destruct Hok as [Ht Hr]. destruct Hm as [k Hk].
    assert (∀ b, rtc (edge σ) a b → rtc (v_edge σ) (VNode a) (VNode b)) as Hrtc.
    { intros b Hb. clear -Hb. induction Hb as [x|x y z Hxy Hyz IH]; [apply rtc_refl | by apply (rtc_l _ _ (VNode y))]. }
    assert (∀ b, tc (edge σ) a b → tc (v_edge σ) (VNode a) (VNode b)) as Htc.
    { intros b Hb. clear -Hb. induction Hb as [x y Hxy|x y z Hxy Hyz IH]; [by apply tc_once | by apply (tc_l _ _ (VNode y))]. }
    destruct (fixed_op k σ a m Hi Ht) as (Hd & q & Hq & Hin); [| | done |].
    + intros b Hb. by apply (Hfin (VNode b)), Hrtc.
    + intros b Hb. by apply (Hfix (VNode b)), Htc.
    + split; [done |]. exists q. split; [done |]. intros i Hii. destruct (Hin i Hii) as (b & m' & Hb & Hm' & E). exists (VNode b), m'. split_and!; [by apply Htc | done | done].
Defined.
End laws.
