(* ===== verification/LbMarshal.v ===== *)
(** * LbMarshal: from a state to a definition

    Models the collector of source maps ([src/client/llb/sourcemap.go]), [State.Marshal] and
    [State.Validate] ([state.go]), the resolvers and marshalling strategies ([strategy.go]) and
    the [GraphBuilder] ([builder.go]), and proves what a marshalled state is. *)
From S2P Require Import Prelude GoStd GoNum GoPath LbTypes LbState LbGraph LbAttrs LbHeap LbOps LbLaws.
#[local] Open Scope go_scope.

(** ** Source maps *)

(** [NewSourceMap] *)
Definition NewSourceMap (st : option State) (filename lang : string) (data : list byte) : M heap nat :=
  new_map (mkSourceMap st None filename lang data).

(** A [sourceMapCollector]; the maps are addresses. *)
Record collector := mkCollector {
  smc_maps : list nat;
  smc_index : gmap nat nat;
  smc_locations : gmap string (list SourceLocation);
}.

Definition newSourceMapCollector : collector := mkCollector [] ∅ ∅.

(** [equalSourceMap]: the states of the maps are not compared. *)
Definition equalSourceMap (a b : SourceMap) : bool :=
  bool_decide (sm_Filename a = sm_Filename b ∧ sm_Language a = sm_Language b) && bool_decide (sm_Data a = sm_Data b)
  && match sm_Definition a, sm_Definition b with
     | Some da, Some db => bool_decide (length (df_Def da) = length (df_Def db)) && bool_decide (last (df_Def da) = last (df_Def db))
     | _, _ => true
     end.

(** The search of [Add] among the maps, from the number [i] *)
Fixpoint find_equal (hm : list SourceMap) (b : nat) (i : nat) (maps : list nat) : option nat :=
  match maps with
  | [] => None
  | a :: maps =>
      match hm !! a, hm !! b with
      | Some x, Some y => if equalSourceMap x y then Some i else find_equal hm b (S i) maps
      | _, _ => find_equal hm b (S i) maps
      end
  end.

Definition smc_Add_loc (hm : list SourceMap) (smc : collector) (loc : SourceLocation) : collector :=
  let b := sl_SourceMap loc in
  let '(idx, maps) :=
    match smc_index smc !! b with
    | Some idx => (idx, smc_maps smc)
    | None =>
        match find_equal hm b 0 (smc_maps smc) with
        | Some idx => (idx, smc_maps smc)
        | None => (length (smc_maps smc), smc_maps smc ++ [b])
        end
    end in
  mkCollector maps (<[b := idx]> (smc_index smc)) (smc_locations smc).

Definition smc_Add (hm : list SourceMap) (smc : collector) (x : string * list SourceLocation) : collector :=
  let smc := foldl (smc_Add_loc hm) smc x.2 in
  mkCollector (smc_maps smc) (smc_index smc) (<[x.1 := default [] (smc_locations smc !! x.1) ++ x.2]> (smc_locations smc)).

(** The calls of [Add] in [marshalVertex], which gives the list of their arguments.  They are
    made with the maps as they are when the traversal ends, which are the ones it began with
    as long as the functions of the client leave them alone. *)
Definition collect (srcs : list (string * list SourceLocation)) : M heap collector :=
  λ σ, Some (foldl (smc_Add (hp_maps σ)) newSourceMapCollector srcs, σ).

Definition smc_location (smc : collector) (loc : SourceLocation) : pbLocation :=
  mkPbLocation (i32 (Z.of_nat (default 0 (smc_index smc !! sl_SourceMap loc)))) (sl_Ranges loc).

Section smc_Marshal.
Context (Marshal : State → list ConstraintsOpt → M heap (result Definition')).

(** The definition of a map: the one it has, or the one of its state, which it keeps *)
Definition map_definition (a : nat) (co : list ConstraintsOpt) : M heap (result (SourceMap * option Definition')) :=
  λ σ, match hp_maps σ !! a with
       | None => None
       | Some m =>
           match sm_Definition m, sm_State m with
           | Some d, _ => Some (Ok (m, Some d), σ)
           | None, None => Some (Ok (m, None), σ)
           | None, Some st =>
               (let? d := Marshal st co in
                let* _ := putM (set_maps (alter (λ m, mkSourceMap (sm_State m) (Some d) (sm_Filename m) (sm_Language m) (sm_Data m)) a)) in
                retM (Ok (m, Some d))) σ
           end
       end.

Fixpoint smc_infos (maps : list nat) (co : list ConstraintsOpt) : M heap (result (list pbSourceInfo)) :=
  match maps with
  | [] => retM (Ok [])
  | a :: maps =>
      let? md := map_definition a co in
      let? infos := smc_infos maps co in
      let '(m, d) := md in
      retM (Ok (mkPbInfo (sm_Filename m) (sm_Language m) (sm_Data m) (def_ToPB <$> d) :: infos))
  end.

(** [sourceMapCollector.Marshal] *)
Definition smc_Marshal (smc : collector) (co : list ConstraintsOpt) : M heap (result pbSource) :=
  let? infos := smc_infos (smc_maps smc) co in
  retM (Ok (mkPbSource infos ((λ locs : list SourceLocation, smc_location smc <$> locs) <$> smc_locations smc))).
End smc_Marshal.

(** ** Marshalling *)

Section marshalling.
Context `{BuildkitPB, OpCodec, Client, GoSort, GoRange}.

(** Calls of methods are nested at most [depth] deep, and the traversal is. *)
Context (depth : nat).
#[local] Instance ops : LLBGraph vertex Output heap := go_ops depth.

(** [State.Validate] *)
Definition State_Validate (s : State) (c : cptr) : M heap (result unit) :=
  match State_Output s with
  | None => retM (Ok tt)
  | Some o =>
      let* v := out_Vertex o c in
      match v with None => retM (Ok tt) | Some v => Validate v end
  end.

(** The operation that ends a definition *)
Definition terminal (inp : option Input) : pbOp := mkPbOp [input_of inp] Op_None None None.

(** [State.Marshal].  [nesting] bounds the states whose source maps have states whose source
    maps have states and so on. *)
Fixpoint State_Marshal (nesting : nat) (s : State) (co : list ConstraintsOpt) : M heap (result Definition') :=
  match nesting with
  | 0 => panicM
  | S nesting =>
      let* c := alloc_constraints (NewConstraints (st_opts s ++ co)) in
      match State_Output s with
      | None => retM (Ok empty_definition)
      | Some o =>
          let* v := out_Vertex o c in
          match v with
          | None => retM (Ok empty_definition)
          | Some v =>
              let? ms := marshalVertex depth c v ms_empty in
              let? inp := out_ToInput o c in
              match DeterministicMarshal (terminal inp) with
              | Err e => retM (Err e)
              | Ok dt =>
                  let* smc := collect (ms_srcs ms) in
                  let? src := smc_Marshal (State_Marshal nesting) smc co in
                  retM (Ok (mkDefinition (ms_def ms ++ [dt]) (ms_metadata ms) (Some src) (Some c.2)))
              end
          end
      end
  end.

(** ** Strategies *)

Definition Resolver : Type := State → cptr → M heap (result State).

Definition NoopResolver : Resolver := λ s _, retM (Ok s).

Definition ChainResolver (rs : list Resolver) : Resolver := λ s c, eachM (λ r s, r s c) rs s.

(** A [MarshalStrategy]; [A] is the state that its visitors keep. *)
Definition MarshalStrategy (A : Type) : Type := option Output → cptr → A → M heap (result Definition' * A).

Definition DefaultMarshalStrategy (nesting : nat) {A} : MarshalStrategy A := λ out c a,
  let* d :=
    match out with
    | None => retM (Ok empty_definition)
    | Some o =>
        let* v := out_Vertex o c in
        match v with
        | None => retM (Ok empty_definition)
        | Some v =>
            let? ms := marshalVertex depth c v ms_empty in
            let* smc := collect (ms_srcs ms) in
            let? src := smc_Marshal (State_Marshal nesting) smc [] in
            retM (Ok (mkDefinition (ms_def ms) (ms_metadata ms) (Some src) (Some c.2)))
        end
    end in
  retM (d, a).

Definition InstrumentedMarshalStrategy {A} (inner : MarshalStrategy A) (visitor : option (vertex → nat → A → option error * A)) : MarshalStrategy A :=
  λ out c a,
  match visitor with
  | None => inner out c a
  | Some _ =>
      let* r := Walk depth out visitor c a in
      match r with (Some e, a) => retM (Err e, a) | (None, a) => inner out c a end
  end.

(** ** [GraphBuilder] *)

Record GraphBuilder (A : Type) := mkBuilder {
  gb_resolver : Resolver;
  gb_strategy : MarshalStrategy A;
  gb_visitor : option (vertex → nat → A → option error * A);
  gb_preEmit : StateTransformer;
}.
Arguments mkBuilder {A}. Arguments gb_resolver {A}. Arguments gb_strategy {A}. Arguments gb_visitor {A}. Arguments gb_preEmit {A}.

Definition WithResolver {A} (r : Resolver) (gb : GraphBuilder A) : GraphBuilder A := mkBuilder r (gb_strategy gb) (gb_visitor gb) (gb_preEmit gb).
Definition WithMarshalStrategy {A} (s : MarshalStrategy A) (gb : GraphBuilder A) : GraphBuilder A :=
  mkBuilder (gb_resolver gb) s (gb_visitor gb) (gb_preEmit gb).
Definition WithVisitor {A} (v : option (vertex → nat → A → option error * A)) (gb : GraphBuilder A) : GraphBuilder A :=
  mkBuilder (gb_resolver gb) (gb_strategy gb) v (gb_preEmit gb).
Definition WithPreEmitTransform {A} (t : StateTransformer) (gb : GraphBuilder A) : GraphBuilder A :=
  mkBuilder (gb_resolver gb) (gb_strategy gb) (gb_visitor gb) t.

Definition NewGraphBuilder (nesting : nat) {A} (opts : list (GraphBuilder A → GraphBuilder A)) : GraphBuilder A :=
  foldl (λ gb o, o gb) (mkBuilder NoopResolver (DefaultMarshalStrategy nesting) (Some NoopVisitor) NoopTransformer) opts.

Definition NewInstrumentedBuilder (nesting : nat) {A} (visitor : option (vertex → nat → A → option error * A)) (opts : list (GraphBuilder A → GraphBuilder A)) : GraphBuilder A :=
  let gb := NewGraphBuilder nesting opts in
  WithMarshalStrategy (InstrumentedMarshalStrategy (gb_strategy gb) visitor) gb.

Definition NewCustomBuilder {A} : Resolver → MarshalStrategy A → option (vertex → nat → A → option error * A) → StateTransformer → GraphBuilder A := mkBuilder.

(** [Build]; the [GraphBuilderResult] has either the definition or the error. *)
Definition Build {A} (gb : GraphBuilder A) (s : State) (co : list ConstraintsOpt) (a : A) : M heap (result Definition' * A) :=
  let* c := alloc_constraints (NewConstraints co) in
  let* r := gb_resolver gb s c in
  match r with
  | Err e => retM (Err e, a)
  | Ok resolved =>
      match gb_preEmit gb resolved with
      | Err e => retM (Err e, a)
      | Ok transformed => gb_strategy gb (State_Output transformed) c a
      end
  end.
End marshalling.

(** ** The collector *)

(** A map with a state has the definition of it. *)
Definition flat (hm : list SourceMap) : Prop := ∀ m, m ∈ hm → sm_State m = None ∨ is_Some (sm_Definition m).

Lemma smc_Add_maps hm smc x : (∀ a, a ∈ smc_maps smc → a < length hm) → (∀ l, l ∈ x.2 → sl_SourceMap l < length hm) →
  ∀ a, a ∈ smc_maps (smc_Add hm smc x) → a < length hm.
Proof.
  destruct x as [d locs]. simpl. revert smc. induction locs as [|l locs IH]; intros smc Hs Hl; [done |]. simpl. apply IH; [| set_solver].
  intros a. unfold smc_Add_loc. destruct (smc_index smc !! sl_SourceMap l); [by apply Hs |]. destruct (find_equal _ _ _ _); [by apply Hs |].
  intros [Ha|Ha%list_elem_of_singleton]%elem_of_app; [by apply Hs |]. rewrite Ha. apply Hl. by left.
Qed.

Lemma collect_maps hm srcs smc : (∀ a, a ∈ smc_maps smc → a < length hm) → (∀ d l x, (d, l) ∈ srcs → x ∈ l → sl_SourceMap x < length hm) →
  ∀ a, a ∈ smc_maps (foldl (smc_Add hm) smc srcs) → a < length hm.
Proof.
  revert smc. induction srcs as [|[d l] srcs IH]; intros smc Hs Hl; [done |]. simpl. apply IH; [| set_solver].
  apply smc_Add_maps; [done |]. intros x Hx. apply (Hl d l x); [by left | done].
Qed.

(** Without states there is nothing to marshal. *)
Lemma smc_Marshal_flat F smc co σ : flat (hp_maps σ) → (∀ a, a ∈ smc_maps smc → a < length (hp_maps σ)) →
  ∃ src, smc_Marshal F smc co σ = Some (Ok src, σ).
Proof.
  intros Hf Ha. unfold smc_Marshal. assert (∃ infos, smc_infos F (smc_maps smc) co σ = Some (Ok infos, σ)) as [infos E].
  { induction (smc_maps smc) as [|a maps IH]; [by exists [] |]. destruct IH as [infos E]; [set_solver |].
    destruct (lookup_lt_is_Some_2 (hp_maps σ) a) as [m Hm]; [apply Ha; by left |]. pose proof (Hf m (list_elem_of_lookup_2 _ _ _ Hm)) as Hd.
    cbn [smc_infos]. unfold bindR, bindM, map_definition. rewrite Hm. destruct (sm_Definition m) as [d|]; [rewrite E; by eexists |].
    destruct Hd as [->|[? [=]]]. rewrite E. by eexists. }
  unfold bindR, bindM. rewrite E. by eexists.
Qed.

(** ** Marshalling *)

#[local] Existing Instance le_preorder.

Section properties.
Context `{BuildkitPB, OpCodec, !OpCodecLaws, Client, GoSort, GoRange}.
Context (W : world).

Lemma fixed_srcs c σ a m : inv W c ∅ σ → fixed W c σ a m → locs_ok σ (mr_srcs m) ∧ is_Some (mr_md m).
Proof.
  intros Hi [n Hn]. revert a m Hn. induction n as [|n IH]; intros a m; [done |]. cbn [result_at].
  destruct (hp_nodes σ !! a) as [nd|] eqn:Ha; [| done]. destruct (i_nodes _ _ _ _ Hi a nd Ha) as [_ _ _ Hc Hm].
  assert (nd_cache nd !! c.1 = Some m → locs_ok σ (mr_srcs m) ∧ is_Some (mr_md m)) as Hcache by (intros Hx; by destruct (Hc m Hx) as [_ (_ & ? & ? & _)]).
  destruct (nd_op nd) as [| | | | | |cond brs d own|axes fn e own| | |d]; try done.
  - destruct cond as [cond|]; [| done]. destruct (cond_key W cond); [| done]. destruct (selectBranch _ _ _) as [s|]; [| done].
    destruct (State_Output s); [apply IH | done].
  - destruct e as [states|]; [| done]. destruct (omap State_Output states) as [|o [|o' outs]]; [done | apply IH |].
    intros (ins & _ & Hmr)%bind_Some. unfold merge_result in Hmr. destruct (DeterministicMarshal _); [| done].
    injection Hmr as <-. split; [| by eexists]. intros x Hx. by apply elem_of_nil in Hx.
  - destruct (def_Marshal_op d) as [m'|] eqn:Em; [| done]. intros [= ->]. destruct Hm as [_ Hm]. unfold def_Marshal_op in Em. case_decide; [done |].
    unfold def_Validate in Em. repeat case_decide; try done. injection Em as <-. simpl. split; [| by apply not_eq_None_Some].
    destruct (dt_sources (do_tables d) !! do_dgst d) as [l|] eqn:E; simpl; [by apply (Hm (do_dgst d)) | intros x ?%elem_of_nil; done].
Qed.

(** The vertices that can be reached from [a] *)
Definition reaches σ (a b : nat) : Prop := rtc (edge W σ) a b.

(** The part of a definition that comes from the vertex [a] *)
Definition vertex_definition (c : cptr) (σ : heap) (a : nat) (def : list (list byte)) (metadata : gmap string OpMetadata) : Prop :=
  topological def
  ∧ NoDup (digest_FromBytes <$> def)
  ∧ (∀ b, reaches σ a b → final σ b ∧ ∃ m, fixed W c σ b m ∧ mr_digest m ∈ digest_FromBytes <$> def)
  ∧ (∀ dt, dt ∈ def → ∃ b m, reaches σ a b ∧ fixed W c σ b m ∧ mr_dt m = dt ∧ metadata !! digest_FromBytes dt = NewOpMetadata <$> mr_md m)
  ∧ (∀ d, is_Some (metadata !! d) → d ∈ digest_FromBytes <$> def).

Lemma rtc_node σ a v : rtc (v_edge W σ) (VNode a) v ↔ ∃ b, v = VNode b ∧ reaches σ a b.
Proof.
  split.
  - intros Hr. remember (VNode a) as x eqn:Ex. revert a Ex. induction Hr as [x|x [b|] z Hxy Hyz IH]; intros a ->; [exists a; split; [done | apply rtc_refl] | | done].
    destruct (IH b eq_refl) as (b' & -> & Hb). exists b'. split; [done |]. by apply (rtc_l _ _ b).
  - intros (b & -> & Hr). induction Hr as [x|x y z Hxy Hyz IH]; [apply rtc_refl | by apply (rtc_l _ _ (VNode y))].
Qed.

Lemma le_trans_maps σ1 σ2 σ3 : le σ1 σ2 → le σ2 σ3 → hp_maps σ3 = hp_maps σ1.
Proof. intros [[= _ E1] _] [[= _ E2] _]. congruence. Qed.

(** What was reached and marshalled stays: its edges were all there. *)
Lemma reaches_le σ σ' a b : le σ σ' → reaches σ a b → reaches σ' a b.
Proof. intros Hle. apply rtc_subrel. intros x y. by apply edge_le. Qed.

Lemma reaches_back σ σ' a b : le σ σ' → (∀ x, reaches σ a x → final σ x) → reaches σ' a b → reaches σ a b.
Proof.
  intros Hle Hf Hr. induction Hr as [x|x y z Hxy Hyz IH]; [apply rtc_refl |]. assert (edge W σ x y) as He by (by apply (final_le W σ σ' x Hle), Hxy; apply Hf, rtc_refl).
  apply (rtc_l _ _ y); [done |]. apply IH. intros w Hw. apply Hf. by apply (rtc_l _ _ y).
Qed.

Lemma vertex_definition_le c σ σ' a def metadata : le σ σ' → vertex_definition c σ a def metadata → vertex_definition c σ' a def metadata.
Proof.
  intros Hle (Htop & Hnd & Hall & Hfrom & Hmd). assert (∀ b, reaches σ' a b → reaches σ a b) as Hback by (intros b; apply reaches_back; [done |]; intros x; apply Hall).
  split_and!; [done | done | | | done].
  - intros b Hb%Hback. destruct (Hall b Hb) as [Hf (m & Hm & Hin)]. split; [by apply (final_le W σ) |]. exists m. split; [by apply (fixed_le W c σ) | done].
  - intros dt Hdt. destruct (Hfrom dt Hdt) as (b & m & Hb & Hm & Hrest). exists b, m. split_and!; [by apply (reaches_le σ) | by apply (fixed_le W c σ) | apply Hrest..].
Qed.

Section depth.
Context (c : cptr) (Hclient : pure_client W c) (depth : nat).
#[local] Existing Instance ops.

Lemma run_Vertex σ o : inv W c ∅ σ → wf_out W σ o → orank W σ o < depth →
  ∃ σ', out_Vertex (LLBGraph := ops depth) o c σ = Some (Some (VNode (vertex_of W o)), σ') ∧ inv W c ∅ σ' ∧ le σ σ'.
Proof.
  intros Hi Hw Hr. destruct (lv_Vertex _ _ _ _ (go_ops_ok W c Hclient depth) ∅ σ o Hi) as (r & σ' & E & Hi' & Hle & _ & ->); [by split_and!; [| | intros b] |].
  by exists σ'.
Qed.

Lemma run_ToInput σ o : inv W c ∅ σ → wf_out W σ o → orank W σ o < depth →
  ∃ r σ', out_ToInput (LLBGraph := ops depth) o c σ = Some (r, σ') ∧ inv W c ∅ σ' ∧ le σ σ' ∧ if_ok (good_input W c o) r σ'.
Proof.
  intros Hi Hw Hr. destruct (lv_ToInput _ _ _ _ (go_ops_ok W c Hclient depth) ∅ σ o Hi) as (r & σ' & E & Hi' & Hle & _ & Hq); [by split_and!; [| | intros b] |].
  by exists r, σ'.
Qed.

(** The error of the [Marshal] of a vertex *)
Definition vertex_error σ a e : Prop :=
  ∃ b σ1 σ2, reaches σ a b ∧ inv W c ∅ σ1 ∧ le σ1 σ ∧ v_Marshal (LLBGraph := ops depth) (VNode b) c σ1 = Some (Err e, σ2).

Lemma run_marshalVertex σ a : inv W c ∅ σ → tracked W σ a → rank W σ a < depth →
  ∃ r σ', marshalVertex (H0 := ops depth) depth c (VNode a) ms_empty σ = Some (r, σ') ∧ inv W c ∅ σ' ∧ le σ σ'
    ∧ match r with
      | Ok ms => vertex_definition c σ' a (ms_def ms) (ms_metadata ms) ∧ ∀ d l, (d, l) ∈ ms_srcs ms → locs_ok σ' l
      | Err e => vertex_error σ' a e
      end.
Proof.
  intros Hi Ht Hr. pose (L := vertex_laws W c Hclient depth).
  destruct (marshal_closed (LLBGraph0 := ops depth) (LLBGraphLaws0 := L) c depth (VNode a) σ) as (r & σ' & E & Hi' & Hle & Hq); [done | by split | done |].
  exists r, σ'. split_and!; [done.. |]. destruct r as [ms|e].
  - destruct Hq as (Htop & Hnd & Hall & Hfrom & Hmd & Hsrcs). split; [split_and!; try done |].
    + intros b Hb. apply (Hall (VNode b)). apply rtc_node. by exists b.
    + intros dt Hdt. destruct (Hfrom dt Hdt) as (w & m & (b & -> & Hb)%rtc_node & Hrest). by exists b, m.
    + intros d l Hl. destruct (Hsrcs d l Hl) as (w & m & (b & -> & Hb)%rtc_node & Hm & _ & <-). by apply (fixed_srcs c σ' b).
  - destruct Hq as (w & σ1 & σ2 & (b & -> & Hb)%rtc_node & Hi1 & Hle1 & Em). by exists b, σ1, σ2.
Qed.

(** What a marshalled state is: the operations of the vertices that its output reaches, and one
    that has the output as its only input *)
Definition state_definition σ o (d : Definition') : Prop :=
  ∃ body dt m,
    df_Def d = body ++ [dt]
    ∧ vertex_definition c σ (vertex_of W o) body (df_Metadata d)
    ∧ topological (df_Def d)
    ∧ fixed W c σ (vertex_of W o) m
    ∧ Head d = Ok (mr_digest m)
    ∧ df_Constraints d = Some c.2.

Lemma state_definition_intro σ o ms i dt src m :
  vertex_definition c σ (vertex_of W o) (ms_def ms) (ms_metadata (V := vertex) ms) → fixed W c σ (vertex_of W o) m → in_Digest i = mr_digest m →
  DeterministicMarshal (terminal (Some i)) = Ok dt →
  state_definition σ o (mkDefinition (ms_def ms ++ [dt]) (ms_metadata ms) src (Some c.2)).
Proof.
  intros Hv Hm Ei Hdt%op_codec. exists (ms_def ms), dt, m. pose proof Hv as (Htop & _ & Hall & _). split_and!; try done; simpl.
  - apply (topological_snoc _ _ (terminal (Some i))); [done | done |]. intros j ->%list_elem_of_singleton. simpl. rewrite Ei.
    destruct (Hall (vertex_of W o) (rtc_refl _ _)) as [_ (m' & Hm' & Hin)]. by rewrite (fixed_eq W c σ _ m m' Hm Hm').
  - unfold Head. simpl. rewrite last_snoc, Hdt. simpl. by rewrite Ei.
Qed.
End depth.

(** What a call on output [o] of [σ] gives: a definition of what the output reaches, or the
    error of a vertex, of the output, or of the encoding of the last operation *)
Definition marshal_outcome depth c σ o (r : result Definition') (σ' : heap) : Prop :=
  inv W c ∅ σ' ∧ le σ σ'
  ∧ match r with
    | Ok d => state_definition c σ' o d
    | Err e => vertex_error c depth σ' (vertex_of W o) e
        ∨ (∃ σ1 σ2, inv W c ∅ σ1 ∧ le σ σ1 ∧ out_ToInput (LLBGraph := ops depth) o c σ1 = Some (Err e, σ2))
        ∨ ∃ i σ1 σ2, le σ σ1 ∧ out_ToInput (LLBGraph := ops depth) o c σ1 = Some (Ok (Some i), σ2)
            ∧ DeterministicMarshal (terminal (Some i)) = Err e
    end.

Lemma run_State_Marshal depth nesting s co σ o :
  let c := (hp_next σ, NewConstraints (st_opts s ++ co)) in
  pure_client W c → inv W c ∅ σ → flat (hp_maps σ) → State_Output s = Some o → wf_out W σ o → orank W σ o < depth →
  ∃ r σ', State_Marshal depth (S nesting) s co σ = Some (r, σ') ∧ marshal_outcome depth c σ o r σ'.
Proof.
  intros c Hcl Hi Hf Ho Hw Hr. unfold marshal_outcome. cbn [State_Marshal]. unfold bindM at 1, alloc_constraints. fold c.
  set (σ0 := mkHeap _ _ _ _ _ _). destruct (inv_same W c ∅ σ σ0) as [Hi0 Hle0]; [done | done | done |].
  rewrite Ho. unfold bindM at 1.
  assert (orank W σ0 o < depth) as Hr0 by (by rewrite (le_orank W σ)). assert (wf_out W σ0 o) as Hw0 by (by apply (le_wf_out W σ)).
  destruct (run_Vertex c Hcl depth σ0 o Hi0 Hw0 Hr0) as (σ1 & -> & Hi1 & Hle1).
  destruct (wf_out_vertex W σ1 o) as [Ht1 Hlt1]; [by apply (le_wf_out W σ0) |]. rewrite (le_orank W σ0 σ1) in Hlt1 by done.
  destruct (run_marshalVertex c Hcl depth σ1 (vertex_of W o)) as (r & σ2 & E2 & Hi2 & Hle2 & Hr2); [done | done | lia |].
  unfold bindR at 1, bindM at 1. rewrite E2. assert (le σ σ2) as Hle02 by (trans σ0; [done | by trans σ1]).
  destruct r as [ms|e]; [| exists (Err e), σ2; by split_and!; [| | | left]]. destruct Hr2 as [Hv Hsrcs].
  destruct (run_ToInput c Hcl depth σ2 o) as (r & σ3 & E3 & Hi3 & Hle3 & Hr3); [done | by apply (le_wf_out W σ) | by rewrite (le_orank W σ) |].
  unfold bindR at 1, bindM at 1. rewrite E3. assert (le σ σ3) as Hle03 by (by trans σ2).
  destruct r as [inp|e]; [| exists (Err e), σ3; split_and!; [done | done | done | right; left; by exists σ2, σ3]].
  destruct Hr3 as (i & m & -> & Hm & Ei & _).
  destruct (DeterministicMarshal _) as [dt|e] eqn:Edt; [| exists (Err e), σ3; split_and!; [done | done | done | right; right; by exists i, σ2, σ3]].
  unfold bindM at 1, collect. pose proof (le_trans_maps _ _ _ Hle02 Hle3) as Em.
  destruct (smc_Marshal_flat (State_Marshal depth nesting) (foldl (smc_Add (hp_maps σ3)) newSourceMapCollector (ms_srcs ms)) co σ3) as [src Esrc].
  { by rewrite Em. }
  { apply collect_maps; [by intros a ?%elem_of_nil |]. intros d l x Hl Hx. by apply (locs_ok_le σ2 σ3 l Hle3 (Hsrcs d l Hl)). }
  unfold bindR, bindM. rewrite Esrc. eexists _, σ3. split_and!; [done | done | done |].
  apply (state_definition_intro c σ3 o ms i dt (Some src) m); [by apply (vertex_definition_le c σ2) | done..].
Qed.

(** C7: [State.Marshal] returns, and releases every lock that it takes, for a state whose output is
    not nil and is well formed with everything it reaches ([inv], [wf_out]: as the constructors
    build it, and none of the operations on which marshalling panics), when the functions of the client (of asynchronous, inspecting and matrix operations) are pure and every
    source map has no state, or a definition of it already ([flat]).  If it succeeds, its
    definition has the operation of every vertex that the output of the state reaches, and of no
    other, once for each digest and after the operations it has as inputs; then an operation that
    has the output as its input, so that [Head] finds the vertex of the output.  If it fails, the
    error is one of a vertex, of the output, or of the encoding of that last operation. *)
Theorem State_Marshal_closed depth nesting s co σ o :
  let c := (hp_next σ, NewConstraints (st_opts s ++ co)) in
  pure_client W c → inv W c ∅ σ → flat (hp_maps σ) → State_Output s = Some o → wf_out W σ o → orank W σ o < depth →
  ∃ r σ', State_Marshal depth (S nesting) s co σ = Some (r, σ') ∧ inv W c ∅ σ' ∧ le σ σ'
    ∧ match r with
      | Ok d => state_definition c σ' o d
      | Err e => vertex_error c depth σ' (vertex_of W o) e
          ∨ (∃ σ1 σ2, inv W c ∅ σ1 ∧ le σ σ1 ∧ out_ToInput (LLBGraph := ops depth) o c σ1 = Some (Err e, σ2))
          ∨ ∃ i σ1 σ2, le σ σ1 ∧ out_ToInput (LLBGraph := ops depth) o c σ1 = Some (Ok (Some i), σ2)
              ∧ DeterministicMarshal (terminal (Some i)) = Err e
      end.
Proof. exact (run_State_Marshal depth nesting s co σ o). Qed.

(** The last operation is not one of its own inputs. *)
Lemma Head_not_last d dt :
  topological (df_Def d) → NoDup (digest_FromBytes <$> df_Def d) → last (df_Def d) = Some dt → Head d ≠ Ok (digest_FromBytes dt).
Proof.
  intros Htop Hnd Hl. unfold Head. rewrite Hl. apply last_Some in Hl as [pre E]. rewrite E in Hnd.
  destruct (Htop pre dt [] E) as (pop & -> & Hin). destruct (op_Inputs pop) as [|i l] eqn:Ei; intros [= Eq]; [by destruct (digest_nonempty dt) |].
  rewrite fmap_app in Hnd. apply NoDup_app in Hnd as (_ & Hnd & _). apply (Hnd (in_Digest i)).
  - apply Hin. rewrite ?Ei. by left.
  - rewrite Eq. by left.
Qed.

(** The default strategy emits the operations of the vertices as [State.Marshal] does, but
    not the one that ends a definition: [Head] never gives the operation it emitted last. *)
Theorem DefaultMarshalStrategy_no_terminal {A} depth nesting (a : A) c σ o :
  pure_client W c → inv W c ∅ σ → flat (hp_maps σ) → wf_out W σ o → orank W σ o < depth →
  ∃ r σ', DefaultMarshalStrategy depth nesting (Some o) c a σ = Some (r, a, σ') ∧ inv W c ∅ σ'
    ∧ match r with
      | Ok d => vertex_definition c σ' (vertex_of W o) (df_Def d) (df_Metadata d) ∧ ∀ dt, last (df_Def d) = Some dt → Head d ≠ Ok (digest_FromBytes dt)
      | Err e => vertex_error c depth σ' (vertex_of W o) e
      end.
Proof.
  intros Hcl Hi Hf Hw Hr. unfold DefaultMarshalStrategy. unfold bindM at 1 2.
  destruct (run_Vertex c Hcl depth σ o Hi Hw Hr) as (σ1 & -> & Hi1 & Hle1).
  destruct (wf_out_vertex W σ1 o) as [Ht1 Hlt1]; [by apply (le_wf_out W σ) |]. rewrite (le_orank W σ σ1) in Hlt1 by done.
  destruct (run_marshalVertex c Hcl depth σ1 (vertex_of W o)) as (r & σ2 & E2 & Hi2 & Hle2 & Hr2); [done | done | lia |].
  unfold bindR at 1, bindM at 1. rewrite E2. destruct r as [ms|e]; [| by exists (Err e), σ2]. destruct Hr2 as [Hv Hsrcs].
  pose proof (le_trans_maps _ _ _ Hle1 Hle2) as Em. unfold bindM at 1, collect.
  destruct (smc_Marshal_flat (State_Marshal depth nesting) (foldl (smc_Add (hp_maps σ2)) newSourceMapCollector (ms_srcs ms)) [] σ2) as [src Esrc].
  { by rewrite Em. }
  { apply collect_maps; [by intros b ?%elem_of_nil |]. intros d l x Hl Hx. by apply (Hsrcs d l Hl). }
  unfold bindR, bindM. rewrite Esrc. eexists (Ok _), σ2. split_and!; [done | done | done |]. intros dt. apply Head_not_last; apply Hv.
Qed.
End properties.
