(* ===== verification/LbDefinition.v ===== *)
(** * LbDefinition: states from definitions

    Models [NewDefinitionOp] of [src/client/llb/ops/definitionop/definitionop.go], which makes
    a vertex from a marshalled definition, and proves that a definition that is loaded and
    marshalled again has the same operations and the same head. *)
From S2P Require Import Prelude GoStd GoNum GoPath LbTypes LbState LbGraph LbAttrs LbHeap LbOps LbLaws LbMarshal.
#[local] Open Scope go_scope.

(** [pb.Definition.IsNil] *)
Class DefinitionNil := def_IsNil : pbDefinition → bool.

(** ** Loading *)

Section load.
Context `{OpCodec, GoRange, DefinitionNil}.

(** The loop over the operations: the maps by digest, and the last digest *)
Fixpoint parse_ops (Def : list (list byte)) (ops : gmap string pbOp) (defs : gmap string (list byte)) (dgst : string)
    : result (gmap string pbOp * gmap string (list byte) * string) :=
  match Def with
  | [] => Ok (ops, defs, dgst)
  | dt :: Def =>
      match op_UnmarshalVT dt with
      | Err e => Err (EWrap ["failed to parse llb proto op"] e)
      | Ok op => let dgst := digest_FromBytes dt in parse_ops Def (<[dgst := op]> ops) (<[dgst := dt]> defs) dgst
      end
  end.

(** The locations of one operation *)
Fixpoint load_locs (maps : list nat) (locs : list pbLocation) (acc : list SourceLocation) : result (list SourceLocation) :=
  match locs with
  | [] => Ok acc
  | l :: locs =>
      match (if decide (lc_SourceIndex l < 0)%Z then None else maps !! Z.to_nat (lc_SourceIndex l)) with
      | None => Err (EText ["invalid source map index "; strconv_Itoa (lc_SourceIndex l)])
      | Some m => load_locs maps locs (acc ++ [mkLoc m (lc_Ranges l)])
      end
  end.

Fixpoint load_locations (maps : list nat) (ls : list (string * list pbLocation)) (srcs : gmap string (list SourceLocation))
    : result (gmap string (list SourceLocation)) :=
  match ls with
  | [] => Ok srcs
  | (dgst, locs) :: ls =>
      match load_locs maps locs (default [] (srcs !! dgst)) with
      | Err e => Err e
      | Ok l => load_locations maps ls (match locs with [] => srcs | _ => <[dgst := l]> srcs end)
      end
  end.

(** [NewDefinitionOp], on a pointer that is not nil.  The platforms, which only the outputs show,
    are not kept.  The last operation must have an input: [Inputs[0]] panics without one. *)
Fixpoint NewDefinitionOp (def : pbDefinition) : M heap (result nat) :=
  let 'mkPbDef Def Metadata Source := def in
  if def_IsNil def then retM (Err (EText ["invalid nil input definition"]))
  else
    match parse_ops Def ∅ ∅ EmptyString with
    | Err e => retM (Err e)
    | Ok (ops, defs, dgst) =>
        let? srcs :=
          match Source with
          | None => retM (Ok ∅)
          | Some (mkPbSource Infos Locations) =>
              let? maps :=
                (fix load_infos (infos : list pbSourceInfo) : M heap (result (list nat)) :=
                   match infos with
                   | [] => retM (Ok [])
                   | mkPbInfo Filename Language Data sdef :: infos =>
                       let? st :=
                         match sdef with
                         | None => retM (Ok None)
                         | Some sdef => let? a := NewDefinitionOp sdef in retM (Ok (Some (NewState (Some (OutDef a)))))
                         end in
                       let* m := NewSourceMap st Filename Language Data in
                       let? maps := load_infos infos in
                       retM (Ok (m :: maps))
                   end) Infos in
              retM (load_locations maps (map_range Locations) ∅)
          end in
        let mk dgst index := let* a := new_node (DefinitionOp (mkDefOp (mkTables ops defs Metadata srcs) ∅ dgst index)) in retM (Ok a) in
        if decide (dgst = EmptyString) then mk EmptyString 0%Z
        else
          match ops !! dgst ≫= (λ op, op_Inputs op !! 0) with
          | None => panicM
          | Some i => mk (in_Digest i) (in_Index i)
          end
    end.

(** ** Definitions that can be loaded *)

Definition info_definition (i : pbSourceInfo) : option pbDefinition := let 'mkPbInfo _ _ _ d := i in d.

(** What [State.Marshal] makes, with no definitions inside its source maps *)
Record loadable (x : pbDefinition) : Prop := {
  ld_nil : def_IsNil x = false;
  ld_topological : topological (pd_Def x);
  ld_digests : ∀ dt dt', dt ∈ pd_Def x → dt' ∈ pd_Def x → digest_FromBytes dt = digest_FromBytes dt' → dt = dt';
  ld_inputs : ∀ dt op i, dt ∈ pd_Def x → op_UnmarshalVT dt = Ok op → i ∈ op_Inputs op →
    (0 ≤ in_Index i)%Z ∧ is_Some (pd_Metadata x !! in_Digest i);
  ld_head : ∃ pre dt op i rest, pd_Def x = pre ++ [dt] ∧ op_UnmarshalVT dt = Ok op ∧ op_Inputs op = i :: rest;
  ld_source : ∀ s, pd_Source x = Some s →
    (∀ i, i ∈ ps_Infos s → info_definition i = None)
    ∧ ∀ d locs l, ps_Locations s !! d = Some locs → l ∈ locs → (0 ≤ lc_SourceIndex l < Z.of_nat (length (ps_Infos s)))%Z;
}.

(** The tables have the operations of the list. *)
Record parsed (Def : list (list byte)) (ops : gmap string pbOp) (defs : gmap string (list byte)) : Prop := {
  pa_defs : ∀ dg dt, defs !! dg = Some dt → dt ∈ Def ∧ digest_FromBytes dt = dg ∧ ∃ p, op_UnmarshalVT dt = Ok p ∧ ops !! dg = Some p;
  pa_ops : ∀ dg p, ops !! dg = Some p → ∃ dt, defs !! dg = Some dt ∧ op_UnmarshalVT dt = Ok p;
  pa_all : ∀ dt, dt ∈ Def → is_Some (defs !! digest_FromBytes dt);
}.

Lemma parsed_snoc Def ops defs dt p : parsed Def ops defs → op_UnmarshalVT dt = Ok p →
  parsed (Def ++ [dt]) (<[digest_FromBytes dt := p]> ops) (<[digest_FromBytes dt := dt]> defs).
Proof.
  intros [H1' H2' H3'] Hp. split.
  - intros dg dt'. destruct (decide (dg = digest_FromBytes dt)) as [->|Hne].
    + rewrite lookup_insert_eq. intros [= <-]. split_and!; [set_solver | done |]. exists p. by rewrite lookup_insert_eq.
    + rewrite !lookup_insert_ne by done. intros (Hin & Hdg & Hrest)%H1'. split_and!; [set_solver | done | done].
  - intros dg p'. destruct (decide (dg = digest_FromBytes dt)) as [->|Hne].
    + rewrite !lookup_insert_eq. intros [= <-]. by exists dt.
    + rewrite !lookup_insert_ne by done. apply H2'.
  - intros dt' [Hin| ->%list_elem_of_singleton]%elem_of_app; [| rewrite lookup_insert_eq; by eexists].
    destruct (decide (digest_FromBytes dt' = digest_FromBytes dt)) as [->|Hne]; [rewrite lookup_insert_eq; by eexists |].
    rewrite lookup_insert_ne by done. by apply H3'.
Qed.

Lemma parse_ops_spec pre Def ops defs dgst : parsed pre ops defs → (∀ dt, dt ∈ Def → ∃ p, op_UnmarshalVT dt = Ok p) →
  ∃ ops' defs', parse_ops Def ops defs dgst = Ok (ops', defs', default dgst (digest_FromBytes <$> last Def)) ∧ parsed (pre ++ Def) ops' defs'.
Proof.
  revert pre ops defs dgst. induction Def as [|dt Def IH]; intros pre ops defs dgst Hp Hall.
  { exists ops, defs. by rewrite app_nil_r. }
  destruct (Hall dt) as [p Hdt]; [by left |]. simpl. rewrite Hdt.
  destruct (IH (pre ++ [dt]) _ _ (digest_FromBytes dt) (parsed_snoc pre ops defs dt p Hp Hdt)) as (ops' & defs' & E & Hp'); [set_solver |].
  exists ops', defs'. rewrite <- app_assoc in Hp'. split; [| done].
  rewrite E, last_cons. by destruct (last Def).
Qed.

Lemma load_locs_ok maps locs acc : (∀ l, l ∈ locs → (0 ≤ lc_SourceIndex l < Z.of_nat (length maps))%Z) →
  ∃ l, load_locs maps locs acc = Ok (acc ++ l) ∧ ∀ x, x ∈ l → sl_SourceMap x ∈ maps.
Proof.
  revert acc. induction locs as [|x locs IH]; intros acc Hl; [exists []; rewrite app_nil_r; split; [done | by intros y ?%elem_of_nil] |].
  destruct (Hl x) as [H0x Hx]; [by left |]. simpl. rewrite decide_False by lia.
  destruct (lookup_lt_is_Some_2 maps (Z.to_nat (lc_SourceIndex x))) as [m Hm]; [lia |]. rewrite Hm.
  destruct (IH (acc ++ [mkLoc m (lc_Ranges x)])) as (l & -> & Hin); [set_solver |].
  exists (mkLoc m (lc_Ranges x) :: l). rewrite <- app_assoc. split; [done |].
  intros y [->|Hy]%elem_of_cons; [by eapply list_elem_of_lookup_2 | by apply Hin].
Qed.

Lemma load_locations_ok maps ls srcs : (∀ d locs l, (d, locs) ∈ ls → l ∈ locs → (0 ≤ lc_SourceIndex l < Z.of_nat (length maps))%Z) →
  (∀ d l x, srcs !! d = Some l → x ∈ l → sl_SourceMap x ∈ maps) →
  ∃ srcs', load_locations maps ls srcs = Ok srcs' ∧ ∀ d l x, srcs' !! d = Some l → x ∈ l → sl_SourceMap x ∈ maps.
Proof.
  revert srcs. induction ls as [|[d locs] ls IH]; intros srcs Hls Hs; [by exists srcs |]. simpl.
  destruct (load_locs_ok maps locs (default [] (srcs !! d))) as (l & -> & Hl); [intros y Hy; apply (Hls d locs); [by left | done] |].
  apply IH; [set_solver |]. destruct locs as [|y locs]; [done |].
  intros d' l' x. destruct (decide (d' = d)) as [->|Hne]; [| rewrite lookup_insert_ne by done; apply Hs].
  rewrite lookup_insert_eq. intros [= <-] [Hx|Hx]%elem_of_app; [| by apply Hl]. destruct (srcs !! d) as [l0|] eqn:E; [by apply (Hs d l0) | by apply elem_of_nil in Hx].
Qed.

(** The input of the operation that ends the definition *)
Definition head_input (x : pbDefinition) (i : Input) : Prop :=
  ∃ pre dt op rest, pd_Def x = pre ++ [dt] ∧ op_UnmarshalVT dt = Ok op ∧ op_Inputs op = i :: rest.

Definition loaded (x : pbDefinition) (maps : list nat) (t : def_tables) : Prop :=
  parsed (pd_Def x) (dt_ops t) (dt_defs t) ∧ dt_metas t = pd_Metadata x
  ∧ ∀ d l y, dt_sources t !! d = Some l → y ∈ l → sl_SourceMap y ∈ maps.

Definition new_definition (t : def_tables) (i : Input) : node := mkNode (DefinitionOp (mkDefOp t ∅ (in_Digest i) (in_Index i))) ∅ false.

Lemma set_maps_app l l' σ : set_maps (λ m, m ++ l') (set_maps (λ m, m ++ l) σ) = set_maps (λ m, m ++ l ++ l') σ.
Proof. unfold set_maps. simpl. by rewrite <- app_assoc. Qed.

Lemma NewDefinitionOp_loads `{!OpCodecLaws} x σ : loadable x →
  ∃ i t maps, NewDefinitionOp x σ = Some (Ok (length (hp_nodes σ)), set_nodes (λ l, l ++ [new_definition t i]) (set_maps (λ m, m ++ maps) σ))
    ∧ head_input x i ∧ loaded x (seq (length (hp_maps σ)) (length maps)) t ∧ ∀ m, m ∈ maps → sm_State m = None.
Proof.
  intros [Hnil Htop Hdig Hins Hhead Hsrc]. destruct x as [Def Metadata Source]. simpl in *. rewrite Hnil.
  destruct (parse_ops_spec [] Def ∅ ∅ EmptyString) as (ops & defs & -> & Hp); [split; [done | done | by intros dt ?%elem_of_nil] | |].
  { intros dt [k Hk]%list_elem_of_lookup. destruct (Htop (take k Def) dt (drop (S k) Def)) as (p & Hpt & _); [by rewrite take_drop_middle | by exists p]. }
  match goal with |- context [bindR ?m _] => set (sources := m) end.
  assert (∃ srcs maps, sources σ = Some (Ok srcs, set_maps (λ m, m ++ maps) σ)
    ∧ (∀ d l y, srcs !! d = Some l → y ∈ l → sl_SourceMap y ∈ seq (length (hp_maps σ)) (length maps)) ∧ ∀ m, m ∈ maps → sm_State m = None) as (srcs & maps & E & Hsrcs & Hst).
  { subst sources. destruct Source as [[Infos Locations]|].
    2: { exists ∅, []. split_and!; [destruct σ; unfold set_maps; simpl; by rewrite app_nil_r | done | by intros m ?%elem_of_nil]. }
    destruct (Hsrc _ eq_refl) as [Hi Hl]. simpl in Hi, Hl. match goal with |- context [bindR (?F Infos)] => set (load := F) end.
    assert (∀ infos σ, (∀ i, i ∈ infos → info_definition i = None) → ∃ maps, load infos σ = Some (Ok (seq (length (hp_maps σ)) (length infos)), set_maps (λ m, m ++ maps) σ)
      ∧ length maps = length infos ∧ ∀ m, m ∈ maps → sm_State m = None) as Hload.
    { clear. induction infos as [|[fn lang data sdef] infos IH]; intros σ Hi.
      - exists []. split_and!; [destruct σ; unfold set_maps; simpl; by rewrite app_nil_r | done | by intros m ?%elem_of_nil].
      - pose proof (Hi _ (list_elem_of_here _ _)) as Hd. simpl in Hd. subst sdef. set (m := mkSourceMap None None fn lang data).
        destruct (IH (set_maps (λ l, l ++ [m]) σ)) as (maps & E & Hlen & Hst); [set_solver |]. exists (m :: maps). split_and!; [| simpl; lia | ].
        + cbn [load]. fold load. unfold bindR, bindM, retM, NewSourceMap, new_map. fold m. rewrite E. rewrite set_maps_app. simpl. rewrite length_app. simpl. by rewrite Nat.add_1_r.
        + by intros m' [->|?]%elem_of_cons; [| apply Hst]. }
    destruct (Hload Infos σ Hi) as (maps & Em & Hlen & Hst). unfold bindR, bindM. rewrite Em.
    destruct (load_locations_ok (seq (length (hp_maps σ)) (length Infos)) (map_range Locations) ∅) as (srcs & -> & Hsrcs).
    { intros d locs l Hin. rewrite map_range_perm, elem_of_map_to_list in Hin. rewrite length_seq. by apply (Hl d locs). }
    { intros d l y. by rewrite lookup_empty. }
    exists srcs, maps. rewrite Hlen. by split_and!. }
  unfold bindR, bindM at 1. rewrite E. destruct Hhead as (pre & dt & op & i & rest & -> & Hdt & Hi). rewrite last_snoc. simpl.
  rewrite decide_False by apply digest_nonempty. destruct Hp as [H1' H2' H3'].
  destruct (H3' dt) as [dt' Hdt']; [set_solver |]. destruct (H1' _ _ Hdt') as (Hin & Hdg & p & Hpt & Hop). rewrite Hop.
  assert (dt' = dt) as -> by (apply Hdig; [done | set_solver | done]). assert (p = op) as -> by congruence. simpl. rewrite Hi. simpl.
  exists i, (mkTables ops defs Metadata srcs), maps. split_and!; [done | by exists pre, dt, op, rest | split_and!; [done | done | done] | done].
Qed.
End load.

(** ** Loading and marshalling again *)

Section roundtrip.
Context `{BuildkitPB, OpCodec, !OpCodecLaws, Client, GoSort, GoRange, DefinitionNil}.

(** The place of an operation in a definition *)
Definition position (Def : list (list byte)) (dg : string) : nat :=
  match list_find (λ dt, digest_FromBytes dt = dg) Def with Some (k, _) => k | None => 0 end.

Lemma position_input x t dg p i : loadable x → parsed (pd_Def x) (dt_ops t) (dt_defs t) → dt_ops t !! dg = Some p → i ∈ op_Inputs p →
  is_Some (dt_ops t !! in_Digest i) ∧ position (pd_Def x) (in_Digest i) < position (pd_Def x) dg ∧ (0 ≤ in_Index i)%Z ∧ is_Some (pd_Metadata x !! in_Digest i).
Proof.
  intros Hx [H1' H2' H3'] Hp Hi. destruct (H2' dg p Hp) as (dt & Hdt & Hpt). destruct (H1' dg dt Hdt) as (Hin & Hdg & _).
  destruct (list_find_elem_of (λ dt, digest_FromBytes dt = dg) (pd_Def x) dt Hin Hdg) as [[k dt'] Hk].
  apply list_find_Some in Hk as Hk'. destruct Hk' as (Hkl & Edg & Hbefore).
  assert (dt' = dt) as -> by (apply (ld_digests x Hx); [by eapply list_elem_of_lookup_2 | done | congruence]).
  destruct (ld_topological x Hx (take k (pd_Def x)) dt (drop (S k) (pd_Def x))) as (p' & Hp' & Hins); [by rewrite take_drop_middle |].
  assert (p' = p) as -> by congruence. destruct (ld_inputs x Hx dt p i Hin Hpt Hi) as [Hidx Hmeta].
  pose proof (Hins i Hi) as (dt2 & Ed2 & Hin2)%list_elem_of_fmap.
  apply list_elem_of_lookup in Hin2 as [j Hj]. pose proof (lookup_lt_Some _ _ _ Hj) as Hlt. rewrite length_take in Hlt.
  rewrite lookup_take_lt in Hj by lia. split_and!; [| | done | done].
  - destruct (H3' dt2 (list_elem_of_lookup_2 _ _ _ Hj)) as [dt3 Hdt3]. rewrite Ed2.
    destruct (H1' _ _ Hdt3) as (_ & _ & q & _ & Hq). by exists q.
  - unfold position at 2. rewrite Hk. unfold position.
    destruct (list_find_elem_of (λ dt, digest_FromBytes dt = in_Digest i) (pd_Def x) dt2) as [[k2 dt4] Hk2]; [by eapply list_elem_of_lookup_2 | done |].
    rewrite Hk2. apply list_find_Some in Hk2 as (_ & _ & Hfirst). destruct (decide (k2 < k)) as [|Hge]; [done |].
    exfalso. apply (Hfirst j dt2); [done | lia | done].
Qed.

(** The operations of a definition rank by their places. *)
Definition definition_world (W : world) (Def : list (list byte)) : world :=
  mkWorld 0 (w_rank W) (λ _ dg, 2 * position Def dg) (w_arank W) (w_avertex W) (w_state W) (w_matrix W) (w_cond W) (w_pred W).

Lemma loaded_tables W x maps t : loadable x → loaded x maps t → tables_ok (definition_world W (pd_Def x)) t.
Proof.
  intros Hx (Hp & Hmetas & _). split_and!.
  - destruct (dt_ops t !! EmptyString) as [p|] eqn:E; [| done]. destruct (pa_ops _ _ _ Hp _ _ E) as (dt & Hdt & _).
    destruct (pa_defs _ _ _ Hp _ _ Hdt) as (_ & Hd & _). by destruct (digest_nonempty dt).
  - intros dg p i Hdg Hi. destruct (position_input x t dg p i Hx Hp Hdg Hi) as (Hs & Hlt & H0i & _). split_and!; [done | done | | simpl; lia].
    intros E. rewrite E in Hs. destruct Hs as [q Hq]. destruct (pa_ops _ _ _ Hp _ _ Hq) as (dt & Hdt & _).
    destruct (pa_defs _ _ _ Hp _ _ Hdt) as (_ & Hd & _). by destruct (digest_nonempty dt).
  - intros dg dt Hdt. by destruct (pa_defs _ _ _ Hp _ _ Hdt) as (_ & Hd & Hrest).
Qed.

(** A vertex for an operation of a definition, that marshals *)
Definition def_ready (t : def_tables) (d : definition_op) : Prop :=
  do_tables d = t ∧ do_dgst d ≠ EmptyString ∧ is_Some (dt_ops t !! do_dgst d) ∧ is_Some (dt_defs t !! do_dgst d)
  ∧ is_Some (dt_metas t !! do_dgst d) ∧ (0 ≤ do_index d)%Z.

Definition at_def σ (t : def_tables) (a : nat) : Prop := ∃ n d, hp_nodes σ !! a = Some n ∧ nd_op n = DefinitionOp d ∧ def_ready t d.

Lemma def_ready_marshals t d : def_ready t d → ∃ m, def_Marshal_op d = Ok m.
Proof.
  intros (<- & Hne & [p Hp] & [dt Hdt] & [md Hmd] & Hi). unfold def_Marshal_op, def_Validate. rewrite !(decide_False (P := do_dgst d = EmptyString)) by done.
  rewrite Hp, Hdt, Hmd. rewrite !decide_False; [by eexists | lia | done.. |].
  intros [E|[E|E]]; rewrite E in *; by rewrite lookup_empty in *.
Qed.

Lemma loaded_ready x maps t dg p i : loadable x → loaded x maps t → dt_ops t !! dg = Some p → i ∈ op_Inputs p →
  def_ready t (mkDefOp t ∅ (in_Digest i) (in_Index i)).
Proof.
  intros Hx (Hp & Hmetas & _) Hdg Hi. destruct (position_input x t dg p i Hx Hp Hdg Hi) as ([q Hq] & _ & H0i & Hmeta).
  destruct (pa_ops _ _ _ Hp _ _ Hq) as (dt & Hdt & _). destruct (pa_defs _ _ _ Hp _ _ Hdt) as (_ & Hd & _).
  split_and!; simpl; [done | rewrite <- Hd; apply digest_nonempty | by exists q | by exists dt | by rewrite Hmetas | done].
Qed.

Lemma head_ready x maps t i : loadable x → loaded x maps t → head_input x i → def_ready t (mkDefOp t ∅ (in_Digest i) (in_Index i)).
Proof.
  intros Hx Hl (pre & dt & op & rest & E & Hdt & Hins). pose proof Hl as (Hp & _). destruct (pa_all _ _ _ Hp dt) as [dt' Hdt']; [rewrite E; set_solver |].
  destruct (pa_defs _ _ _ Hp _ _ Hdt') as (Hin & Hdg & p & Hpt & Hop). apply (loaded_ready x maps t (digest_FromBytes dt) p); [done..|].
  assert (dt' = dt) as -> by (apply (ld_digests x Hx); [done | rewrite E; set_solver | done]). assert (p = op) as -> by congruence. rewrite Hins. by left.
Qed.

Lemma inv_loaded W c x t i maps : loadable x → loaded x (seq 0 (length maps)) t → head_input x i →
  inv (definition_world W (pd_Def x)) c ∅ (set_nodes (λ l, l ++ [new_definition t i]) (set_maps (λ m, m ++ maps) empty_heap)).
Proof.
  intros Hx Hl Hi. apply inv_alloc; [split; simpl; [lia | done | by intros a n] |]. pose proof (head_ready x _ t i Hx Hl Hi) as (_ & Hne & Hs & _).
  assert (∀ j, child (mkDefOp t ∅ (in_Digest i) (in_Index i)) j = None) as Hc by (intros j; unfold child; simpl; by rewrite lookup_empty).
  split; simpl in *.
  - intros o Ho. destruct (dt_ops t !! in_Digest i); [| by apply elem_of_nil in Ho]. apply list_elem_of_omap in Ho as (j & _ & Ho).
    unfold child_out in Ho. by rewrite Hc in Ho.
  - split_and!; [by apply (loaded_tables W x (seq 0 (length maps))) | done | intros j v; by rewrite Hc].
  - split; [done |]. by intros ?%elem_of_empty.
  - intros m. by rewrite lookup_empty.
  - split; [by intros y ?%elem_of_nil |]. intros dg l E y Hy. destruct Hl as (_ & _ & Hsrcs). pose proof (Hsrcs dg l y E Hy) as Hin.
    apply elem_of_seq in Hin. simpl. lia.
Qed.

(** What a vertex for an operation reaches *)
Lemma at_def_reaches W c x maps t σ a b : inv W c ∅ σ → loadable x → loaded x maps t → at_def σ t a → reaches W σ a b → at_def σ t b.
Proof.
  intros Hi Hx Hl Ha Hr. induction Hr as [|a b d (n' & o & Hn' & Ho & <-) Hr IH]; [done |]. apply IH. clear IH Hr.
  destruct Ha as (n & da & Hn & Hop & Hd). simplify_eq. rewrite Hop in Ho. simpl in Ho. pose proof Hd as (<- & _ & [p Hp] & _). rewrite Hp in Ho.
  apply list_elem_of_omap in Ho as (j & Hj & Ho). unfold child_out in Ho. destruct (child da j) as [v|] eqn:Ec; [| done]. injection Ho as <-.
  destruct (loaded_ready x maps _ _ p j Hx Hl Hp Hj) as (_ & Hne & Hops & Hdefs & Hmetas & H0j). simpl in *.
  destruct (i_nodes _ _ _ _ Hi a n Hn) as [_ Hsp _ _ _]. rewrite Hop in Hsp. destruct Hsp as (_ & _ & Hch).
  destruct (Hch j v Ec H0j) as (nv & dv & Hnv & Hopv & Etv & Edv & Eiv). exists nv, dv. split_and!; [done | done |]. unfold def_ready. rewrite Edv, Eiv. by rewrite Etv.
Qed.

Lemma at_def_fixed W c σ t a m : at_def σ t a → fixed W c σ a m → ∃ d, def_ready t d ∧ def_Marshal_op d = Ok m ∧ ∃ n, hp_nodes σ !! a = Some n ∧ nd_op n = DefinitionOp d.
Proof.
  intros (n & d & Hn & Hop & Hd) [[|k] Hk]; [done |]. cbn [result_at] in Hk. rewrite Hn, Hop in Hk. exists d.
  destruct (def_Marshal_op d); [| done]. injection Hk as ->. split_and!; [done | done | by exists n].
Qed.

(** A vertex that is one for an operation now was one before. *)
Lemma at_def_back W c σ σ' t a : inv W c ∅ σ → le σ σ' → is_Some (hp_nodes σ !! a) → at_def σ' t a → at_def σ t a.
Proof.
  intros Hi [_ Hle] [n Hn] (n' & d' & Hn' & Hop' & Hd). destruct (Hle a n Hn) as (n'' & Hn'' & [Ho _]). simplify_eq. rewrite Hop' in Ho.
  destruct (nd_op n) as [| | |x| | | |ax fn e own| | |d] eqn:Hop; try (simpl in Ho; congruence); try done. destruct Ho as (Et & Ed & Ei & _).
  exists n, d. split_and!; [done | done |]. unfold def_ready in *. by rewrite <- Et, <- Ed, <- Ei.
Qed.

Lemma at_def_le σ σ' t a : le σ σ' → at_def σ t a → at_def σ' t a.
Proof.
  intros [_ Hle] (n & d & Hn & Hop & Hd). destruct (Hle a n Hn) as (n' & Hn' & [Ho _]). rewrite Hop in Ho.
  destruct (nd_op n') as [| | | | | | | | | |d'] eqn:Hop'; try done. destruct Ho as (Et & Ed & Ei & _).
  exists n', d'. split_and!; [done | done |]. unfold def_ready in *. by rewrite Et, Ed, Ei.
Qed.

(** Such a vertex marshals with no error. *)
Lemma at_def_Marshal c k σ t a r σ' : at_def σ t a → v_Marshal (LLBGraph := go_ops (S k)) (VNode a) c σ = Some (r, σ') → is_Some (match r with Ok m => Some m | Err _ => None end).
Proof.
  intros (n & d & Hn & Hop & Hd). cbn [go_ops v_Marshal step_Marshal]. unfold bindM, read_node. rewrite Hn, Hop.
  destruct (def_ready_marshals t d Hd) as [m ->]. intros [= <- _]. by eexists.
Qed.

Lemma at_def_ToInput c k σ t a n d i : hp_nodes σ !! a = Some n → nd_op n = DefinitionOp d → def_ready t d → do_dgst d = in_Digest i → do_index d = in_Index i →
  out_ToInput (LLBGraph := go_ops (S (S k))) (OutDef a) c σ = Some (Ok (Some i), σ).
Proof.
  intros Hn Hop Hd Ed Ei. destruct (def_ready_marshals t d Hd) as [m Em]. pose proof (def_Marshal_spec d m Em) as (Edg & Hne & _).
  cbn [go_ops out_ToInput step_ToInput]. unfold bindM at 1, read_node at 1. rewrite Hn, Hop. unfold def_Output. rewrite decide_False by done.
  unfold output_ToInput, bindR, bindM, retM. cbn [go_ops v_Marshal step_Marshal]. unfold bindM, read_node, retM. rewrite Hn, Hop, Em, Edg, Ed, Ei. by destruct i.
Qed.

Lemma position_le Def dg : position Def dg ≤ length Def.
Proof. unfold position. destruct (list_find _ Def) as [[k dt]|] eqn:E; [| lia]. apply list_find_Some in E as (E%lookup_lt_Some & _). lia. Qed.

Lemma head_rank x maps t i : loadable x → loaded x maps t → head_input x i → 2 * position (pd_Def x) (in_Digest i) < 2 * length (pd_Def x).
Proof.
  intros Hx (Hp & _) (pre & dt & op & rest & E & Hdt & Hins). destruct (pa_all _ _ _ Hp dt) as [dt' Hdt']; [rewrite E; set_solver |].
  destruct (pa_defs _ _ _ Hp _ _ Hdt') as (Hin & Hdg & p & Hpt & Hop).
  assert (dt' = dt) as -> by (apply (ld_digests x Hx); [done | rewrite E; set_solver | done]). assert (p = op) as -> by congruence.
  destruct (position_input x t _ op i Hx Hp Hop) as (_ & Hlt & _); [rewrite Hins; by left |]. pose proof (position_le (pd_Def x) (digest_FromBytes dt)). lia.
Qed.

Lemma new_definition_ToInput c k σ σ1 t a i : hp_nodes σ !! a = Some (new_definition t i) → def_ready t (mkDefOp t ∅ (in_Digest i) (in_Index i)) → le σ σ1 →
  out_ToInput (LLBGraph := go_ops (S (S k))) (OutDef a) c σ1 = Some (Ok (Some i), σ1).
Proof.
  intros Hn Hd [_ Hle]. destruct (Hle a _ Hn) as (n1 & Hn1 & [Ho _]). simpl in Ho. destruct (nd_op n1) as [| | | | | | | | | |d1] eqn:Hop1; try done.
  destruct Ho as (Et & Ed & Ei & _). apply (at_def_ToInput c k σ1 t a n1 d1); [done | done | | done | done].
  unfold def_ready in *. by rewrite Et, Ed, Ei.
Qed.

Lemma at_def_no_error W c x maps t σ a depth e : inv W c ∅ σ → loadable x → loaded x maps t → at_def σ t a → ¬ vertex_error W c depth σ a e.
Proof.
  intros Hi Hx Hl Ha (b & σ1 & σ2 & Hr & Hi1 & Hle1 & Ev). pose proof (at_def_reaches W c x maps t σ a b Hi Hx Hl Ha Hr) as Hb.
  destruct depth as [|k]; [done |]. assert (is_Some (hp_nodes σ1 !! b)) as Hs1.
  { unfold ops in Ev. cbn [go_ops v_Marshal step_Marshal] in Ev. unfold bindM at 1, read_node at 1 in Ev. by destruct (hp_nodes σ1 !! b) as [n1|]; [eexists |]. }
  by destruct (at_def_Marshal c k σ1 t b _ _ (at_def_back W c σ1 σ t b Hi1 Hle1 Hs1 Hb) Ev).
Qed.

(** The operations of the new definition are the ones of the old. *)
Lemma vertex_definition_loaded W c σ x maps t a def metadata : inv W c ∅ σ → loadable x → loaded x maps t → at_def σ t a → vertex_definition W c σ a def metadata →
  ∀ dt, dt ∈ def → dt ∈ pd_Def x ∧ metadata !! digest_FromBytes dt = NewOpMetadata <$> pd_Metadata x !! digest_FromBytes dt.
Proof.
  intros Hi Hx Hl Ha (_ & _ & _ & Hfrom & _) dt Hdt. destruct (Hfrom dt Hdt) as (b & m & Hb & Hm & <- & ->).
  destruct (at_def_fixed W c σ t b m (at_def_reaches W c x maps t σ a b Hi Hx Hl Ha Hb) Hm) as (d & (Et & Hne & _ & [dt' Hdt'] & [md Hmd] & _) & Em & _).
  destruct Hl as (Hp & Hmetas & _). destruct (pa_defs _ _ _ Hp _ _ Hdt') as (Hin & Hdg & _).
  unfold def_Marshal_op in Em. rewrite decide_False in Em by done. destruct (def_Validate d); [done |]. injection Em as <-. simpl. rewrite Et, Hdt'. simpl.
  split; [done |]. by rewrite Hdg, Hmetas.
Qed.

(** C8: A loadable definition (each operation after its inputs and with metadata, no two with one
    digest, no source that holds a definition itself, and last an operation with the output as its
    input, which can be encoded) that is loaded into a new process and marshalled again has the
    same head, and only operations that it had before, each once, with their metadata and after
    their inputs; on such a definition both calls return with no error. *)
Theorem definition_roundtrip W x i depth nesting co :
  pure_client W (0, NewConstraints co) → loadable x → head_input x i → (∃ b, DeterministicMarshal (terminal (Some i)) = Ok b) → 2 * length (pd_Def x) < depth →
  ∃ σ d σ', NewDefinitionOp x empty_heap = Some (Ok 0, σ)
    ∧ State_Marshal depth (S nesting) (NewState (Some (OutDef 0))) co σ = Some (Ok d, σ')
    ∧ Head d = Ok (in_Digest i) ∧ topological (df_Def d)
    ∧ ∃ body last, df_Def d = body ++ [last] ∧ NoDup (digest_FromBytes <$> body) ∧ in_Digest i ∈ digest_FromBytes <$> body
      ∧ ∀ dt, dt ∈ body → dt ∈ pd_Def x ∧ df_Metadata d !! digest_FromBytes dt = NewOpMetadata <$> pd_Metadata x !! digest_FromBytes dt.
Proof.
  intros Hcl Hx Hi [b Hb] Hdepth. destruct (NewDefinitionOp_loads x empty_heap Hx) as (i' & t & maps & E & Hi' & Hl & Hst).
  assert (i' = i) as ->.
  { destruct Hi as (pre & dt & op & rest & E1 & Hdt & Hr), Hi' as (pre' & dt' & op' & rest' & E2 & Hdt' & Hr'). rewrite E1 in E2. apply app_inj_tail in E2 as [_ <-]. congruence. }
  simpl in E, Hl. set (W' := definition_world W (pd_Def x)). set (σ := set_nodes _ _) in E. set (c := (0, NewConstraints co)) in *.
  pose proof (inv_loaded W c x t i maps Hx Hl Hi) as Hinv. fold W' in Hinv. change (inv W' c ∅ σ) in Hinv.
  pose proof (head_ready x _ t i Hx Hl Hi) as Hd. pose proof (head_rank x _ t i Hx Hl Hi) as Hrank.
  set (d0 := mkDefOp t ∅ (in_Digest i) (in_Index i)) in *.
  assert (hp_nodes σ !! 0 = Some (new_definition t i)) as H0n by done. assert (at_def σ t 0) as Hat by (by exists (new_definition t i), d0).
  destruct (run_State_Marshal W' depth nesting (NewState (Some (OutDef 0))) co σ (OutDef 0)) as (r & σ' & Em & Hinv' & Hle & Hr); [done | done | | done | | change (S (2 * position (pd_Def x) (in_Digest i)) < depth); lia |].
  { intros m Hm. left. by apply Hst. }
  { apply (wf_def _ _ 0 (new_definition t i) d0); [exists (new_definition t i); split; [done | by right] | done | done | apply Hd]. }
  change (hp_next σ, NewConstraints (st_opts (NewState (Some (OutDef 0))) ++ co)) with c in *.
  assert (∀ σ1, le σ σ1 → out_ToInput (LLBGraph := ops depth) (OutDef 0) c σ1 = Some (Ok (Some i), σ1)) as Hinput.
  { intros σ1 Hle1. destruct depth as [|[|k]]; [lia | lia |]. by apply (new_definition_ToInput c k σ σ1 t 0). }
  destruct r as [d|e].
  2: { exfalso. destruct Hr as [(b' & σ1 & σ2 & Hr & Hi1 & Hle1 & Ev)|[(σ1 & σ2 & Hi1 & Hle1 & Ev)|(j & σ1 & σ2 & Hle1 & Ev & Ee)]].
    - by apply (at_def_no_error W' c x (seq 0 (length maps)) t σ' 0 depth e); [done | done | done | by apply (at_def_le σ) | exists b', σ1, σ2].
    - rewrite Hinput in Ev; done.
    - rewrite Hinput in Ev by done. injection Ev as <- _. congruence. }
  destruct Hr as (body & dt & m & Edef & Hv & Htop & Hm & Hhead & _). pose proof (at_def_le σ σ' t 0 Hle Hat) as Hat'.
  destruct (at_def_fixed W' c σ' t 0 m Hat' Hm) as (d1 & _ & Ed1 & n1 & Hn1 & Hop1). pose proof (def_Marshal_spec d1 m Ed1) as (Edg & _).
  assert (mr_digest m = in_Digest i) as Emd.
  { rewrite Edg. destruct Hle as [_ Hle]. destruct (Hle 0 _ H0n) as (n2 & Hn2 & [Ho _]). simplify_eq. rewrite Hop1 in Ho. by destruct Ho as (_ & -> & _). }
  exists σ, d, σ'. split_and!; [done | done | by rewrite Hhead, Emd | done |]. exists body, dt. split_and!; [done | apply Hv | |].
  - destruct Hv as (_ & _ & Hall & _). destruct (Hall 0 (rtc_refl _ _)) as [_ (m' & Hm' & Hin)]. by rewrite (fixed_eq W' c σ' _ m' m Hm' Hm), Emd in Hin.
  - by apply (vertex_definition_loaded W' c σ' x (seq 0 (length maps)) t 0).
Qed.
End roundtrip.
