(* ===== verification/LbSample.v ===== *)
(** * LbSample: a graph to run the theorems on

    Two images and their merge, a client whose functions do nothing, the definition of the
    merge, and the theorems of [LbGraph], [LbMarshal] and [LbDefinition] at them. *)
From S2P Require Import Prelude GoStd GoNum GoPath LbTypes LbState LbGraph LbAttrs LbHeap LbOps LbLaws LbMarshal LbDefinition.
#[local] Open Scope go_scope.
#[local] Existing Instance sample_pb.

#[local] Instance sample_client : Client :=
  {| user_async := λ _ prev _, retM (Ok prev); user_matrix := λ _ _, retM Scratch; user_condition := λ _, retM (Ok "a");
     user_predicate := λ _, retM (Ok true); os_Getenv := λ _, EmptyString; GOOS := "linux"; GOARCH := "amd64" |}.

Definition sample_world : world := mkWorld 3 (λ a, 2 * a) (λ _ _, 0) (λ _, 0) (λ _, 0) (λ _ prev, prev) (λ _ _, Scratch) (λ _, Ok "a") (λ _, Ok true).

Lemma sample_pure c : pure_client sample_world c.
Proof. by split_and!. Qed.

Definition sample_platform : option Platform := Some (mkPlatform "linux" "amd64" EmptyString EmptyString []).

(** The operations, with the digests that [table_codec] gives them *)
Definition sample_table : list pbOp :=
  [mkPbOp [] (Op_Source "docker-image://alpine" ∅) sample_platform (Some []);
   mkPbOp [] (Op_Source "docker-image://busybox" ∅) sample_platform (Some []);
   mkPbOp [mkInput "sha256:" 0; mkInput "sha256:a" 0] (Op_Merge [0%Z; 1%Z]) None (Some []);
   mkPbOp [mkInput "sha256:aa" 0] Op_None None None].

#[local] Instance sample_codec : OpCodec := table_codec sample_table.
#[local] Instance sample_codec_laws : OpCodecLaws := table_codec_laws sample_table.

Definition sample_build : M heap State := let* a := Image "alpine" [] in let* b := Image "busybox" [] in Merge [a; b] [].
Definition sample_heap : heap := default empty_heap (snd <$> sample_build empty_heap).
Definition sample_merge : State := default Scratch (fst <$> sample_build empty_heap).

Lemma sample_inv c : inv sample_world c ∅ sample_heap.
Proof.
  assert (∀ a, a < 2 → wf_out sample_world sample_heap (OutVertex a (IndexConst 0))) as Hw.
  { intros a Ha. constructor. destruct a as [|[|]]; [eexists; split; [reflexivity | left; simpl; lia].. | lia]. }
  split; [simpl; lia | done |]. intros a n Hn.
  destruct a as [|[|[|a]]]; [| | | done]; injection Hn as <-.
  all: split; simpl; [| | split; [done | by intros ?%elem_of_empty] | intros m; by rewrite lookup_empty | split; [by intros y ?%elem_of_nil | done]].
  all: try done; try (intros o ?%elem_of_nil; done).
  - intros o [->|[->|?%elem_of_nil]%elem_of_cons]%elem_of_cons; [| | done]; (split; [apply Hw; lia | intros _; apply Nat.ltb_lt; vm_compute; reflexivity]).
  - repeat constructor; by eexists.
Qed.

#[local] Instance sample_nil : DefinitionNil := λ _, false.

Definition sample_out : Output := OutVertex 2 (IndexConst 0).
Definition sample_c : cptr := (0, NewConstraints []).

Lemma sample_out_wf : wf_out sample_world sample_heap sample_out.
Proof. constructor. eexists. split; [reflexivity | left; simpl; lia]. Qed.

(** What the sample marshals to *)
Definition sample_bytes (k : nat) : list byte := replicate k Byte.x61.

Lemma State_Marshal_closed_witness :
  ∃ d σ, State_Marshal 6 1 sample_merge [] sample_heap = Some (Ok d, σ) ∧ df_Def d = sample_bytes <$> seq 0 4 ∧ state_definition sample_world sample_c σ sample_out d.
Proof.
  destruct (State_Marshal_closed sample_world 6 0 sample_merge [] sample_heap sample_out) as (r & σ & E & _ & _ & Hr).
  - apply sample_pure.
  - apply sample_inv.
  - intros m Hm. by apply elem_of_nil in Hm.
  - reflexivity.
  - apply sample_out_wf.
  - apply Nat.ltb_lt. vm_compute. reflexivity.
  - assert (∃ d, (fst <$> State_Marshal 6 1 sample_merge [] sample_heap) = Some (Ok d) ∧ df_Def d = sample_bytes <$> seq 0 4) as (d & Ed & Hd).
    { eexists. split; [vm_compute; reflexivity | vm_compute; reflexivity]. }
    rewrite E in Ed. injection Ed as ->. exists d, σ. split_and!; [exact E | exact Hd | exact Hr].
Defined.

Lemma DefaultMarshalStrategy_no_terminal_witness :
  ∃ d σ, DefaultMarshalStrategy 6 1 (Some sample_out) sample_c tt sample_heap = Some (Ok d, tt, σ)
    ∧ df_Def d = sample_bytes <$> seq 0 3 ∧ Head d ≠ Ok (digest_FromBytes (sample_bytes 2)).
Proof.
  destruct (DefaultMarshalStrategy_no_terminal sample_world 6 1 tt sample_c sample_heap sample_out) as (r & σ & E & _ & Hr).
  - apply sample_pure.
  - apply sample_inv.
  - intros m Hm. by apply elem_of_nil in Hm.
  - apply sample_out_wf.
  - apply Nat.ltb_lt. vm_compute. reflexivity.
  - assert (∃ d, (fst <$> DefaultMarshalStrategy 6 1 (Some sample_out) sample_c tt sample_heap) = Some (Ok d, tt) ∧ df_Def d = sample_bytes <$> seq 0 3) as (d & Ed & Hd).
    { eexists. split; [vm_compute; reflexivity | vm_compute; reflexivity]. }
    rewrite E in Ed. injection Ed as ->. exists d, σ. destruct Hr as [_ Hr]. split_and!; [exact E | exact Hd | apply Hr]. rewrite Hd. reflexivity.
Defined.

Lemma Walk_visits_witness :
  ∃ r σ, Walk (H0 := go_ops 6) 6 (Some sample_out) (Some (λ v d l, (None, l ++ [(v, d)]))) sample_c [] sample_heap = Some (r, σ)
    ∧ r = (None, [(VNode 0, 1); (VNode 1, 1); (VNode 2, 0)]).
Proof.
  pose (L := vertex_laws sample_world sample_c (sample_pure sample_c) 6).
  destruct (Walk_visits (LLBGraph0 := go_ops 6) (LLBGraphLaws0 := L) sample_c (λ v d l, (None, l ++ [(v, d)])) sample_out (VNode 2) [] sample_heap) as (l & r & σ & E & _).
  - apply sample_inv.
  - split; [apply sample_out_wf | apply Nat.ltb_lt; vm_compute; reflexivity].
  - reflexivity.
  - split; [eexists; split; [reflexivity | left; simpl; lia] | apply Nat.ltb_lt; vm_compute; reflexivity].
  - exists r, σ. split; [exact E |]. assert ((fst <$> Walk (H0 := go_ops 6) 6 (Some sample_out) (Some (λ v d l, (None, l ++ [(v, d)]))) sample_c [] sample_heap)
      = Some (None, [(VNode 0, 1); (VNode 1, 1); (VNode 2, 0)])) as Er by (vm_compute; reflexivity).
    change (Walk (H0 := go_ops 6) 6 (Some sample_out) (Some (λ v d l, (None, l ++ [(v, d)]))) sample_c [] sample_heap = Some (r, σ)) in E. rewrite E in Er. by injection Er.
Defined.

(** The definition of the sample, from another process *)
Definition sample_definition : pbDefinition :=
  mkPbDef (sample_bytes <$> seq 0 4)
    (list_to_map ((λ k, (digest_FromBytes (sample_bytes k), mkPbMeta false ∅ None ∅ None)) <$> seq 0 3)) None.

Lemma sample_loadable : loadable sample_definition.
Proof.
  assert (∀ dt, dt ∈ pd_Def sample_definition → ∃ k, k < 4 ∧ dt = sample_bytes k) as Hk.
  { intros dt (k & -> & Hin)%list_elem_of_fmap. apply elem_of_seq in Hin. exists k. split; [lia | done]. }
  split.
  - done.
  - change (topological ((sample_bytes <$> seq 0 3) ++ [sample_bytes 3])). apply (topological_snoc _ _ (mkPbOp [mkInput "sha256:aa" 0] Op_None None None)); [| done | intros i ->%list_elem_of_singleton; simpl; set_solver].
    change (topological ((sample_bytes <$> seq 0 2) ++ [sample_bytes 2])). apply (topological_snoc _ _ (mkPbOp [mkInput "sha256:" 0; mkInput "sha256:a" 0] (Op_Merge [0%Z; 1%Z]) None (Some []))); [| done | intros i; simpl; set_solver].
    change (topological ((sample_bytes <$> seq 0 1) ++ [sample_bytes 1])). apply (topological_snoc _ _ (mkPbOp [] (Op_Source "docker-image://busybox" ∅) sample_platform (Some []))); [| done | by intros i ?%elem_of_nil].
    change (topological ([] ++ [sample_bytes 0])). apply (topological_snoc _ _ (mkPbOp [] (Op_Source "docker-image://alpine" ∅) sample_platform (Some []))); [by intros [] | done | by intros i ?%elem_of_nil].
  - intros dt dt' (k & Hlt & ->)%Hk (k' & Hlt' & ->)%Hk. do 4 (destruct k as [|k]; [do 4 (destruct k' as [|k']; [done |]); lia |]). lia.
  - intros dt op i (k & Hlt & ->)%Hk. do 4 (destruct k as [|k]; [intros [= <-]; simpl; set_unfold; intros Hi; naive_solver |]). lia.
  - by eexists (sample_bytes <$> seq 0 3), _, _, _, [].
  - done.
Qed.

Lemma definition_roundtrip_witness :
  ∃ σ d σ', NewDefinitionOp sample_definition empty_heap = Some (Ok 0, σ)
    ∧ State_Marshal 9 1 (NewState (Some (OutDef 0))) [] σ = Some (Ok d, σ') ∧ Head d = Ok "sha256:aa".
Proof.
  destruct (definition_roundtrip sample_world sample_definition (mkInput "sha256:aa" 0) 9 0 []) as (σ & d & σ' & E1 & E2 & Hh & _).
  - apply sample_pure.
  - apply sample_loadable.
  - by eexists (sample_bytes <$> seq 0 3), _, _, [].
  - by eexists.
  - apply Nat.ltb_lt. vm_compute. reflexivity.
  - exists σ, d, σ'. split_and!; [exact E1 | exact E2 | exact Hh].
Defined.
