(* ===== verification/DpPruner.v ===== *)
(** * DpPruner: pruning a directory

    Models [src/pkg/dirpruner]: the options ([options.go]), the observers ([observer.go]) and the
    pruner ([pruner.go]), over the filter, the view and the batchers of dirsync.  The disk that
    the walk reads is what [os.ReadDir] and [os.Stat] answer.  The context is polled; the walk
    counts its polls, and the goroutines that submit poll at times of the scheduler's choice. *)
From S2P Require Import Prelude GoStd GoPath DsTypes DsPrune DsFilter DsWalk DsView DsBatch DsPipeline.

(** ** Observers *)

Inductive Disposition := DispositionKept | DispositionDeleted | DispositionCollapsed.

#[export] Instance Disposition_eq_dec : EqDecision Disposition.
Proof. solve_decision. Defined.

Definition Disposition_String (d : Disposition) : string :=
  match d with DispositionKept => "kept" | DispositionDeleted => "deleted" | DispositionCollapsed => "collapsed" end.

Record Event := mkEvent { ev_RelPath : string; ev_IsDir : bool; ev_Disposition : Disposition; ev_SubmitErr : option error }.

(** An observer that keeps a state *)
Definition Observer (S : Type) : Type := Event → S → S.

Definition NoopObserver {S} : Observer S := λ _ s, s.

Inductive LogVerbosity := LogAll | LogDeletions | LogErrors.

Definition verbosity (v : LogVerbosity) : nat := match v with LogAll => 0 | LogDeletions => 1 | LogErrors => 2 end.

(** The tag and the error of a line; no tag, no line *)
Definition classify (level : LogVerbosity) (ev : Event) : string * option error :=
  match ev_SubmitErr ev with
  | Some e => ("[ERROR]     ", Some e)
  | None =>
      match ev_Disposition ev with
      | DispositionCollapsed => (if decide (verbosity LogDeletions < verbosity level) then EmptyString else "[COLLAPSED] ", None)
      | DispositionDeleted => (if decide (verbosity LogDeletions < verbosity level) then EmptyString else "[DELETED]   ", None)
      | DispositionKept => (if decide (verbosity LogAll < verbosity level) then EmptyString else "[KEPT]      ", None)
      end
  end.

(** The lines that were written: tag, name and error *)
Definition log_OnEvent (level : LogVerbosity) : Observer (list (string * string * option error)) := λ ev lines,
  let '(tag, err) := classify level ev in
  if decide (tag = EmptyString) then lines
  else
    let name := if ev_IsDir ev && negb (bool_decide (ev_Disposition ev = DispositionKept)) then ev_RelPath ev +:+ "/" else ev_RelPath ev in
    lines ++ [(tag, name, err)].

Record CountingObserver := mkCounting { co_Kept : Z; co_Deleted : Z; co_Collapsed : Z; co_Errors : Z }.

Definition counting_OnEvent : Observer CountingObserver := λ ev c,
  match ev_SubmitErr ev with
  | Some _ => mkCounting (co_Kept c) (co_Deleted c) (co_Collapsed c) (co_Errors c + 1)
  | None =>
      match ev_Disposition ev with
      | DispositionKept => mkCounting (co_Kept c + 1) (co_Deleted c) (co_Collapsed c) (co_Errors c)
      | DispositionDeleted => mkCounting (co_Kept c) (co_Deleted c + 1) (co_Collapsed c) (co_Errors c)
      | DispositionCollapsed => mkCounting (co_Kept c) (co_Deleted c) (co_Collapsed c + 1) (co_Errors c)
      end
  end.

Definition co_Total (c : CountingObserver) : Z := (co_Kept c + co_Deleted c + co_Collapsed c + co_Errors c)%Z.

Definition NewMultiObserver {S} (observers : list (option (Observer S))) : list (Observer S) := omap id observers.
Definition multi_OnEvent {S} (observers : list (Observer S)) : Observer S := λ ev s, foldl (λ s o, o ev s) s observers.

(** ** Results *)

Record Result := mkPruned { pd_Kept : Z; pd_Deleted : Z; pd_Collapsed : Z; pd_SubmitErrors : Z; pd_Err : option error }.

Definition pd_Total (r : Result) : Z := (pd_Kept r + pd_Deleted r + pd_Collapsed r + pd_SubmitErrors r)%Z.
Definition pd_OK (r : Result) : bool := bool_decide (pd_Err r = None) && bool_decide (pd_SubmitErrors r = 0%Z).

(** ** Batchers *)

(** The part of the interface [Batcher] that the pruner uses, for a batcher of type [B] that is
    made for a view of type [V]; the state includes the view that the calls leave, and [None] is
    a call that does not return. *)
Record BatcherOps (V B : Type) := mkBatcherOps {
  bo_New : V → result B;
  bo_Submit : option error → BatchOp → B → option (option error * B);
  bo_Close : B → option (option error * B);
}.
Arguments mkBatcherOps {V B} _ _ _.
Arguments bo_New {V B} _ _.
Arguments bo_Submit {V B} _ _ _ _.
Arguments bo_Close {V B} _ _.

(** A [GoroutineBatcher] with the options [WithBatchParallelism] and [WithAutoFlushAt], whose
    [n]th batch runs on the schedule [scheds n]; the context may end in the batch of [Close]. *)
Definition goroutine_batcher {V} `{MergedView V} (parallelism autoFlushAt : nat) (scheds : nat → list label) : BatcherOps V (gbatcher V) :=
  mkBatcherOps (λ v, Ok (gb_New v)) (gb_Submit autoFlushAt parallelism scheds) (gb_Close parallelism scheds None).

(** ** Options *)

Section options.
Context {V B S : Type} (NewBestBatcher : BatcherOps V B).

Record config := mkConfig {
  cf_includePatterns : list string;
  cf_excludePatterns : list string;
  cf_requiredPaths : list string;
  cf_allowWildcards : bool;
  cf_followSymlinks : bool;
  cf_batcherFactory : BatcherOps V B;
  cf_workers : Z;
  cf_observer : Observer S;
}.

Definition defaultConfig : config := mkConfig [] [] [] false false NewBestBatcher 4 NoopObserver.

Definition PrunerOption : Type := config → config.

Definition WithIncludePatterns (patterns : list string) : PrunerOption := λ c,
  mkConfig (cf_includePatterns c ++ patterns) (cf_excludePatterns c) (cf_requiredPaths c) (cf_allowWildcards c) (cf_followSymlinks c)
    (cf_batcherFactory c) (cf_workers c) (cf_observer c).
Definition WithExcludePatterns (patterns : list string) : PrunerOption := λ c,
  mkConfig (cf_includePatterns c) (cf_excludePatterns c ++ patterns) (cf_requiredPaths c) (cf_allowWildcards c) (cf_followSymlinks c)
    (cf_batcherFactory c) (cf_workers c) (cf_observer c).
Definition WithRequiredPaths (paths : list string) : PrunerOption := λ c,
  mkConfig (cf_includePatterns c) (cf_excludePatterns c) (cf_requiredPaths c ++ paths) (cf_allowWildcards c) (cf_followSymlinks c)
    (cf_batcherFactory c) (cf_workers c) (cf_observer c).
Definition WithAllowWildcards (v : bool) : PrunerOption := λ c,
  mkConfig (cf_includePatterns c) (cf_excludePatterns c) (cf_requiredPaths c) v (cf_followSymlinks c)
    (cf_batcherFactory c) (cf_workers c) (cf_observer c).
Definition WithFollowSymlinks (v : bool) : PrunerOption := λ c,
  mkConfig (cf_includePatterns c) (cf_excludePatterns c) (cf_requiredPaths c) (cf_allowWildcards c) v
    (cf_batcherFactory c) (cf_workers c) (cf_observer c).
Definition WithBatcher (factory : option (BatcherOps V B)) : PrunerOption := λ c,
  match factory with
  | None => c
  | Some f => mkConfig (cf_includePatterns c) (cf_excludePatterns c) (cf_requiredPaths c) (cf_allowWildcards c) (cf_followSymlinks c)
      f (cf_workers c) (cf_observer c)
  end.
Definition WithWorkers (n : Z) : PrunerOption := λ c,
  if decide (0 < n)%Z
  then mkConfig (cf_includePatterns c) (cf_excludePatterns c) (cf_requiredPaths c) (cf_allowWildcards c) (cf_followSymlinks c)
    (cf_batcherFactory c) n (cf_observer c)
  else c.
Definition WithObserver (o : option (Observer S)) : PrunerOption := λ c,
  match o with
  | None => c
  | Some o => mkConfig (cf_includePatterns c) (cf_excludePatterns c) (cf_requiredPaths c) (cf_allowWildcards c) (cf_followSymlinks c)
      (cf_batcherFactory c) (cf_workers c) o
  end.

(** [New], on a machine with [NumCPU] processors *)
Definition New (NumCPU : Z) (opts : list PrunerOption) : config :=
  let cfg := foldl (λ c o, o c) defaultConfig opts in
  if decide (cf_workers cfg ≤ 0)%Z
  then mkConfig (cf_includePatterns cfg) (cf_excludePatterns cfg) (cf_requiredPaths cfg) (cf_allowWildcards cfg) (cf_followSymlinks cfg)
    (cf_batcherFactory cfg) NumCPU (cf_observer cfg)
  else cfg.

(** [buildFilter].  It calls [NewPatternFilter] with four arguments and one result, which the
    function of dirsync does not have, so that function is a parameter. *)
Definition pruner_filter (NewPatternFilter : list string → list string → list string → bool → Filter) (cfg : config) : Filter :=
  let hasPats := bool_decide (0 < length (cf_includePatterns cfg)) || bool_decide (0 < length (cf_excludePatterns cfg))
    || bool_decide (0 < length (cf_requiredPaths cfg)) in
  if negb hasPats && negb (cf_allowWildcards cfg) then NoopFilter
  else NewPatternFilter (cf_includePatterns cfg) (cf_excludePatterns cfg) (cf_requiredPaths cfg) (cf_allowWildcards cfg).
End options.
Arguments config : clear implicits.

(** ** The walk *)

(** A job and the poll at which it was sent *)
Record submitJob := mkJob { sj_op : BatchOp; sj_disp : Disposition; sj_ev : Event }.

Record wstate := mkWState {
  ws_polls : nat;
  ws_jobs : list (submitJob * nat);
  ws_kept : Z;
  ws_events : list Event;
  ws_errs : list error;
}.

Definition joinRel (relDir name : string) : string := if decide (relDir = EmptyString) then name else relDir +:+ "/" +:+ name.

Section walk.
Context (ReadDir : string → result (list DirEntry)) (Stat : string → result FileInfo).
Context (ctx : context) (send : nat → bool).
Context (targetRoot : string) (flt : Filter) (followSymlinks : bool).

(** [&resolvedEntry{DirEntry: e, resolved: tInfo}] *)
Definition resolvedEntry (e : DirEntry) (tInfo : FileInfo) : DirEntry := mkEntry (de_Name e) (mode_Type (fi_Mode tInfo)) (Ok tInfo).

Definition readEntries (absDir : string) : result (list DirEntry) :=
  match ReadDir absDir with
  | Err e => Err e
  | Ok entries =>
      if negb followSymlinks then Ok entries
      else
        Ok ((λ e,
          if negb (mode_IsSymlink (de_Type e)) then e
          else match Stat (path_join [absDir; de_Name e]) with Err _ => e | Ok tInfo => resolvedEntry e tInfo end) <$> entries)
  end.

(** [ctx.Err()] *)
Definition ws_poll (s : wstate) : option error * wstate :=
  (ctx (ws_polls s), mkWState (S (ws_polls s)) (ws_jobs s) (ws_kept s) (ws_events s) (ws_errs s)).

Definition addWalkErr (e : error) (s : wstate) : wstate :=
  mkWState (ws_polls s) (ws_jobs s) (ws_kept s) (ws_events s) (ws_errs s ++ [e]).

(** [enqueue]: the channel takes the job, or the context has ended; when both can happen, the
    scheduler has chosen [send]. *)
Definition pruner_enqueue (relPath : string) (isDir : bool) (opKind : OpKind) (disp : Disposition) (s : wstate) : wstate :=
  let k := ws_polls s in
  let '(ended, s) := ws_poll s in
  if match ended with Some _ => send k | None => true end
  then
    mkWState (ws_polls s) (ws_jobs s ++ [(mkJob (mkOp opKind relPath) disp (mkEvent relPath isDir disp None), k)]) (ws_kept s)
      (ws_events s) (ws_errs s)
  else s.

(** [kept.Add(1)] and the call of the observer *)
Definition keep (relPath : string) (s : wstate) : wstate :=
  mkWState (ws_polls s) (ws_jobs s) (ws_kept s + 1) (ws_events s ++ [mkEvent relPath false DispositionKept None]) (ws_errs s).

(** The loop over the entries, with the recursive call as a parameter *)
Fixpoint walk_entries (walkDir : string → wstate → option (bool * wstate)) (relDir : string) (entries : list DirEntry) (keptAny : bool)
    (s : wstate) : option (bool * wstate) :=
  match entries with
  | [] => Some (keptAny, s)
  | e :: entries =>
      let '(ended, s) := ws_poll s in
      match ended with
      | Some _ => Some (keptAny, s)
      | None =>
          let relPath := joinRel relDir (de_Name e) in
          match de_Info e with
          | Err err => walk_entries walkDir relDir entries keptAny (addWalkErr (EWrap ["stat"; relPath] err) s)
          | Ok info =>
              let isDir := fi_IsDir info in
              if negb (Include flt relPath isDir) then
                walk_entries walkDir relDir entries keptAny
                  (if isDir then pruner_enqueue relPath true OpRemoveAll DispositionCollapsed s
                   else pruner_enqueue relPath false OpRemove DispositionDeleted s)
              else if negb isDir then walk_entries walkDir relDir entries true (keep relPath s)
              else
                let directMatch := Include flt relPath false in
                match walkDir relPath s with
                | None => None
                | Some (childKept, s) =>
                    if directMatch || childKept then walk_entries walkDir relDir entries true s
                    else walk_entries walkDir relDir entries keptAny (pruner_enqueue relPath true OpRemoveAll DispositionCollapsed s)
                end
          end
      end
  end.

(** [None]: the fuel is used up; a level of directories takes one. *)
Fixpoint walkDir (fuel : nat) (relDir : string) (s : wstate) : option (bool * wstate) :=
  match fuel with
  | 0 => None
  | S fuel =>
      let '(ended, s) := ws_poll s in
      match ended with
      | Some _ => Some (false, s)
      | None =>
          match readEntries (path_join [targetRoot; relDir]) with
          | Err e => Some (false, addWalkErr (EWrap ["read dir"; relDir] e) s)
          | Ok entries => walk_entries (walkDir fuel) relDir entries false s
          end
      end
  end.
End walk.

(** ** The workers *)

(** A job: in the channel, sent at a poll; taken, with the context alive at some time; submitted,
    with an event for the observer; done. *)
Inductive job_phase := JQueued (j : submitJob) (k : nat) | JSubmit (j : submitJob) (k : nat) | JObserve (ev : Event) | JDone.

Section pool.
Context {V B S : Type} (bo : BatcherOps V B) (observer : Observer S) (ctx : context).

Record pool := mkPool {
  po_jobs : list job_phase;
  po_deleted : Z;
  po_collapsed : Z;
  po_submitErrors : Z;
  po_batcher : B;
  po_observed : S;
}.

Definition set_job (i : nat) (j : job_phase) (p : pool) : pool :=
  mkPool (<[i := j]> (po_jobs p)) (po_deleted p) (po_collapsed p) (po_submitErrors p) (po_batcher p) (po_observed p).

(** The call of [Submit] and the counters; [None] while the call has not returned *)
Definition submit_job (j : submitJob) (ended : option error) (p : pool) : option (Event * pool) :=
  let ev := sj_ev j in
  '(e, b) ← bo_Submit bo ended (sj_op j) (po_batcher p);
  Some match e with
  | Some e =>
      (mkEvent (ev_RelPath ev) (ev_IsDir ev) (ev_Disposition ev) (Some e),
       mkPool (po_jobs p) (po_deleted p) (po_collapsed p) (po_submitErrors p + 1) b (po_observed p))
  | None =>
      (ev,
       match sj_disp j with
       | DispositionDeleted => mkPool (po_jobs p) (po_deleted p + 1) (po_collapsed p) (po_submitErrors p) b (po_observed p)
       | DispositionCollapsed => mkPool (po_jobs p) (po_deleted p) (po_collapsed p + 1) (po_submitErrors p) b (po_observed p)
       | DispositionKept => mkPool (po_jobs p) (po_deleted p) (po_collapsed p) (po_submitErrors p) b (po_observed p)
       end)
  end.

(** The scheduler moves job [i] at time [t], which is not before the job's own last time. *)
Definition pool_step (p : pool) (it : nat * nat) : pool :=
  let '(i, t) := it in
  match po_jobs p !! i with
  | Some (JQueued j k) =>
      if decide (k ≤ t) then match ctx t with Some _ => set_job i JDone p | None => set_job i (JSubmit j t) p end else p
  | Some (JSubmit j k) =>
      if decide (k ≤ t) then match submit_job j (ctx t) p with Some (ev, p) => set_job i (JObserve ev) p | None => p end else p
  | Some (JObserve ev) =>
      set_job i JDone (mkPool (po_jobs p) (po_deleted p) (po_collapsed p) (po_submitErrors p) (po_batcher p) (observer ev (po_observed p)))
  | Some JDone | None => p
  end.

Definition pool_run (sched : list (nat * nat)) (p : pool) : pool := foldl pool_step p sched.

Definition pool_init (jobs : list (submitJob * nat)) (b : B) (s : S) : pool :=
  mkPool ((λ '(j, k), JQueued j k) <$> jobs) 0 0 0 b s.

Definition pool_finished (p : pool) : bool := forallb (λ j, match j with JDone => true | _ => false end) (po_jobs p).
End pool.

(** ** [Prune] *)

Section prune.
Context {V B S : Type} (NewPatternFilter : list string → list string → list string → bool → Filter).
Context (ReadDir : string → result (list DirEntry)) (Stat Lstat : string → result FileInfo).

(** [checkRequiredPaths]: the paths that are missing, or the error of another kind *)
Fixpoint missing_paths (targetDir : string) (required : list string) : result (list string) :=
  match required with
  | [] => Ok []
  | rel :: required =>
      match Lstat (path_join [targetDir; rel]) with
      | Ok _ => missing_paths targetDir required
      | Err e =>
          if errors_is e fs_ErrNotExist
          then match missing_paths targetDir required with Ok missing => Ok (rel :: missing) | Err e => Err e end
          else Err (EWrap ["dirprune: stat required path"; rel] e)
      end
  end.

Definition checkRequiredPaths (targetDir : string) (flt : Filter) : option error :=
  match missing_paths targetDir (RequiredPaths flt) with
  | Err e => Some e
  | Ok [] => None
  | Ok missing => Some (EText ["dirprune: required paths absent from"; targetDir; str_join ", " missing])
  end.

(** [walk]: the walk, then what the workers make of its jobs.  The observer is called by both;
    here it sees the kept entries first. *)
Definition prune_walk (ctx : context) (send : nat → bool) (fuel : nat) (sched : list (nat * nat)) (cfg : config V B S) (flt : Filter)
    (targetRoot : string) (b : B) (o : S) : option (Result * pool (B := B) (S := S)) :=
  match walkDir ReadDir Stat ctx send targetRoot flt (cf_followSymlinks cfg) fuel EmptyString (mkWState 0 [] 0 [] []) with
  | None => None
  | Some (_, s) =>
      let p := pool_run (cf_batcherFactory cfg) (cf_observer cfg) ctx sched
        (pool_init (ws_jobs s) b (foldl (λ o ev, cf_observer cfg ev o) o (ws_events s))) in
      if negb (pool_finished p) then None
      else Some (mkPruned (ws_kept s) (po_deleted p) (po_collapsed p) (po_submitErrors p) (joinErrors (ws_errs s)), p)
  end.

(** [Prune(targetDir)]: what it returns, the batcher if one was made, and the observer's state.
    [view] is [NewFSMergedView]. *)
Definition Prune (view : string → result V) (ctx : context) (send : nat → bool) (fuel : nat) (sched : list (nat * nat))
    (cfg : config V B S) (targetDir : string) (o : S) : option (result Result * option B * S) :=
  if decide (targetDir = EmptyString) then Some (Err (EText ["dirprune: targetDir must not be empty"]), None, o)
  else
    match Stat targetDir with
    | Err e => Some (Err (EWrap ["dirprune: stat target"; targetDir] e), None, o)
    | Ok info =>
        if negb (fi_IsDir info) then Some (Err (EText ["dirprune: target"; targetDir; "is not a directory"]), None, o)
        else
          let flt := pruner_filter NewPatternFilter cfg in
          match checkRequiredPaths targetDir flt with
          | Some e => Some (Err e, None, o)
          | None =>
              match view targetDir with
              | Err e => Some (Err (EWrap ["dirprune: merged view"; targetDir] e), None, o)
              | Ok v =>
                  match bo_New (cf_batcherFactory cfg) v with
                  | Err e => Some (Err (EWrap ["dirprune: batcher"] e), None, o)
                  | Ok b =>
                      match prune_walk ctx send fuel sched cfg flt targetDir b o with
                      | None => None
                      | Some (res, p) =>
                          match bo_Close (cf_batcherFactory cfg) (po_batcher p) with
                          | None => None
                          | Some (closeErr, b) =>
                              let err :=
                                match closeErr with
                                | Some e => if isContextErr e then pd_Err res else errors_join (option_list (pd_Err res) ++ [EWrap ["batcher close"] e])
                                | None => pd_Err res
                                end in
                              Some (Ok (mkPruned (pd_Kept res) (pd_Deleted res) (pd_Collapsed res) (pd_SubmitErrors res) err), Some b, po_observed p)
                          end
                      end
                  end
              end
          end
    end.
End prune.
