(* ===== verification/DpSpec.v ===== *)
(** * DpSpec: what pruning leaves of a directory

    The entries of a tree that a filter spares, the jobs that the walk of [DpPruner] sends for
    it, with a context that lives or ends, and what removals that lie in each other do to a
    disk. *)
From S2P Require Import Prelude GoStd GoPath DsTypes DsPrune DsFilter DsWalk DsDiff DsClassify DsView DsBatch DsPipeline DsEngine DpPruner.

(** ** Nested removals *)

Section nested.
Context (r : list string) (Sr : Forall seg r).

(** The operation runs without an error, also when its entry is gone. *)
Definition tame (d : disk) (op : BatchOp) : Prop :=
  blocked d (abs_op r op) = false
  ∧ (op_Kind op = OpRemove ∨ d !! abs_op r op = None → has_children d (abs_op r op) = false)
  ∧ known_kind (op_Kind op).

Lemma has_children_sub d d' abs : d' ⊆ d → has_children d abs = false → has_children d' abs = false.
Proof.
  intros Hs. rewrite <- !not_true_iff_false, !has_children_spec. intros H (k & i & Hk & Hu). apply H. exists k, i.
  split; [by eapply lookup_weaken | done].
Qed.

Lemma absent_swept d op : d !! abs_op r op = None → has_children d (abs_op r op) = false → swept r [op] d = d.
Proof.
  intros Hn Hc. apply map_eq. intros k. rewrite swept_lookup. simpl. rewrite orb_false_r.
  destruct (isPathUnder k (abs_op r op)) eqn:Hu; [| done]. symmetry. apply eq_None_not_Some. intros [i Hi].
  assert (has_children d (abs_op r op) = true) as Hch; [| congruence]. apply has_children_spec. exists k, i.
  split; [done |]. unfold strictly_under. rewrite Hu, bool_decide_eq_false_2; [done |]. intros ->. by rewrite Hn in Hi.
Qed.

Lemma execute_tame d op : tame d op → executeOp None op (view r d) = (None, view r (swept r [op] d)).
Proof.
  intros (Hb & Hc & Hkind). destruct (d !! abs_op r op) as [i|] eqn:Hi.
  - apply execute_removable. split; [by eexists |]. auto.
  - rewrite absent_swept by auto. unfold executeOp.
    assert (os_Lstat d (fv_AbsPath (view r d) (op_RelPath op)) = Err fs_ErrNotExist) as He.
    { unfold os_Lstat. change (fv_AbsPath (view r d) (op_RelPath op)) with (abs_op r op). by rewrite Hi, Hb. }
    destruct (op_Kind op); [| | done].
    + change (fv_Remove (op_RelPath op) (view r d) = (None, view r d)). unfold fv_Remove, os_Remove. simpl fv_disk. by rewrite He.
    + change (fv_RemoveAll (op_RelPath op) (view r d) = (None, view r d)). unfold fv_RemoveAll, os_RemoveAll. simpl fv_disk. by rewrite He.
Qed.

Lemma tame_swept d ops op : tame d op → tame (swept r ops d) op.
Proof.
  pose proof (swept_sub r ops d) as Hs. intros (Hb & Hc & Hkind). split_and!; [by eapply blocked_sub | | done].
  intros Hor. destruct (decide (op_Kind op = OpRemove ∨ d !! abs_op r op = None)) as [Hor'|Hor']; [by eapply has_children_sub, Hc |].
  apply not_true_iff_false. intros (k & i & Hk & Hu)%has_children_spec.
  destruct Hor as [?|Hn]; [by apply Hor'; left |]. rewrite swept_lookup in Hn, Hk.
  unfold strictly_under in Hu. apply andb_true_iff in Hu as [Hu _].
  destruct (existsb _ ops) eqn:Hx in Hn; [| by apply Hor'; right].
  assert (existsb (λ op, isPathUnder k (abs_op r op)) ops = true) as Hx'; [| by rewrite Hx' in Hk].
  apply existsb_exists_elem in Hx as (op' & Hop & Hu'). apply existsb_exists_elem. exists op'. split; [done |].
  by eapply under_trans.
Qed.

(** Tame operations run without errors in any order, and sweep their paths. *)
Lemma run_tame ops d : Forall (tame d) ops → run_ops ops (view r d) = ([], view r (swept r ops d)).
Proof.
  revert d. induction ops as [|op ops IH]; intros d Hr; [by rewrite swept_nil |].
  apply Forall_cons in Hr as [Hop Hr]. cbn [run_ops]. rewrite execute_tame by done. rewrite IH; [by rewrite swept_swept |].
  eapply Forall_impl; [exact Hr |]. intros op'. apply tame_swept.
Qed.
End nested.

(** ** A batch whose context may end *)

Section cancelled.
Context {V : Type} `{MergedView V} (parallelism : nat) (ops : list BatchOp) (v : V).

(** The view is what the operations that ran made of it, and all come from the batch. *)
Definition batch_safe (st : @batch V) : Prop :=
  bt_view st = (run_ops (bt_log st) v).2
  ∧ (∀ op, op ∈ bt_log st ∨ op ∈ bt_ops st ∨ op ∈ main_ops (bt_main st) ∨ op ∈ omap pending_op (bt_workers st) → op ∈ ops).

Lemma run_ops_snoc o op w : (run_ops (o ++ [op]) w).2 = (executeOp None op (run_ops o w).2).2.
Proof.
  rewrite run_ops_app. destruct (run_ops o w) as [e1 v1]. cbn [run_ops snd]. by destruct (executeOp None op v1).
Qed.

Lemma omap_insert_sub {A B} (f : A → option B) (l : list A) (i : nat) x y : y ∈ omap f (<[i := x]> l) → y ∈ omap f l ∨ f x = Some y.
Proof.
  rewrite !list_elem_of_omap. intros (z & Hz & Hf). apply list_elem_of_lookup in Hz as [j Hj].
  destruct (decide (i = j)) as [->|Hne].
  - apply list_lookup_insert_Some in Hj as [(_ & -> & _)|[? _]]; [by right | done].
  - rewrite list_lookup_insert_ne in Hj by done. left. exists z. split; [by apply list_elem_of_lookup; eexists | done].
Qed.

Lemma batch_step_safe l st st' : batch_safe st → batch_step parallelism l st = Some st' → batch_safe st'.
Proof.
  intros [Hv Ho]. assert (∀ i w sem errs, pending_op w = None → batch_safe (set_worker i w sem errs (bt_view st) (bt_log st) st)) as Hset.
  { intros i w sem errs Hw. split; [done |]. simpl. intros op Hop. apply Ho.
    destruct Hop as [?|[?|[?|[?|Hp]%omap_insert_sub]]]; [tauto.. | congruence]. }
  destruct l as [d|i|]; simpl.
  - unfold main_step. destruct (bt_main st) as [|op| |] eqn:Em; [| | |done].
    + destruct (bt_ops st) as [|op rest] eqn:Eo; [| destruct (bt_ctx st)]; intros [= <-]; (split; [done |]); simpl; rewrite ?Eo; intros op' Hop; apply Ho;
        simpl in *; set_solver.
    + assert (∀ sem, batch_safe (spawn op sem st)) as Hsp.
      { intros sem. split; [done |]. simpl. intros op'. rewrite omap_app. simpl. intros Hop. apply Ho. simpl. set_solver. }
      destruct d; [destruct (bt_ctx st); [|done]|case_decide; [|done]]; by intros [= <-].
    + case_match; [| done]. intros [= <-]. split; [done |]. simpl. intros op Hop. apply Ho. simpl in *. set_solver.
  - unfold worker_step. destruct (bt_workers st !! i) as [[op|e| |]|] eqn:Ew; try done.
    + assert (op ∈ ops) as Hin.
      { apply Ho. right; right; right. apply list_elem_of_omap. exists (WExec op). split; [by apply list_elem_of_lookup; eexists | done]. }
      destruct (executeOp (bt_ctx st) op (bt_view st)) as [e w] eqn:He.
      assert (∀ x sem errs, pending_op x = None →
        batch_safe (set_worker i x sem errs w (match bt_ctx st with None => bt_log st ++ [op] | Some _ => bt_log st end) st)) as Hdo.
      { intros x sem errs Hx. destruct (bt_ctx st) as [ce|].
        - injection He as <- <-. by apply Hset.
        - split; simpl; [by rewrite run_ops_snoc, <- Hv, He |]. intros op' Hop.
          destruct Hop as [[Hl| ->%list_elem_of_singleton]%elem_of_app|[?|[?|[?|Hp]%omap_insert_sub]]];
            [apply Ho; tauto | done | apply Ho; tauto.. | congruence]. }
      destruct e as [e|]; [destruct (isContextErr e); simpl |]; intros [= <-]; by apply Hdo.
    + intros [= <-]. by apply Hset.
    + case_decide; [| done]. intros [= <-]. by apply Hset.
  - destruct (bt_ctx st); [done |]. intros [= <-]. by split.
Qed.

Lemma batch_run_safe sched : batch_safe (batch_run parallelism sched (batch_init ops v)).
Proof.
  assert (batch_safe (batch_init ops v)) as H0.
  { split; [done |]. simpl. intros op Hop. case_decide; set_solver. }
  revert H0. generalize (batch_init ops v) as st. unfold batch_run. induction sched as [|l sched IH]; intros st Hst; [done |]. simpl. apply IH.
  destruct (batch_step parallelism l st) eqn:Hs; simpl; [by eapply batch_step_safe | done].
Qed.
End cancelled.

(** ** What a filter spares *)

Section spec.
Context (flt : Filter).

(** The filter accepts every directory above the path. *)
Definition visited (p : list string) : Prop :=
  ∀ d, d ≠ [] → d `prefix_of` p → d ≠ p → Include flt (rel_path d) true = true.

(** A file is spared if it and the directories above it are accepted; an accepted directory, if
    it is accepted as a file would be, or something in it is spared. *)
Inductive spared (t : tree) : list string → Prop :=
  | spared_file p i : p ≠ [] → lookup_path t p = Some (Leaf i) → visited p → Include flt (rel_path p) false = true → spared t p
  | spared_direct p i es : p ≠ [] → lookup_path t p = Some (Dir i es) → visited p →
      Include flt (rel_path p) true = true → Include flt (rel_path p) false = true → spared t p
  | spared_above p n : p ≠ [] → spared t (p ++ [n]) → spared t p.

(** The result of the walk of the entry [t] at [p] *)
Fixpoint keeps (p : list string) (t : tree) : bool :=
  match t with
  | Leaf _ => Include flt (rel_path p) false
  | Dir _ es => Include flt (rel_path p) true && (Include flt (rel_path p) false || existsb (λ nt, keeps (p ++ [nt.1]) nt.2) es)
  end.

Definition job (p : list string) (isDir : bool) : submitJob :=
  let disp := if isDir then DispositionCollapsed else DispositionDeleted in
  mkJob (mkOp (if isDir then OpRemoveAll else OpRemove) (rel_path p)) disp (mkEvent (rel_path p) isDir disp None).

(** The entries that it removes, in order: the path, and whether it is a directory *)
Fixpoint pruned (p : list string) (t : tree) : list (list string * bool) :=
  match t with
  | Leaf _ => if Include flt (rel_path p) false then [] else [(p, false)]
  | Dir _ es =>
      if Include flt (rel_path p) true
      then flat_map (λ nt, pruned (p ++ [nt.1]) nt.2) es ++ (if keeps p t then [] else [(p, true)])
      else [(p, true)]
  end.

(** The files that it keeps, in order *)
Fixpoint kept_files (p : list string) (t : tree) : list (list string) :=
  match t with
  | Leaf _ => if Include flt (rel_path p) false then [p] else []
  | Dir _ es => if Include flt (rel_path p) true then flat_map (λ nt, kept_files (p ++ [nt.1]) nt.2) es else []
  end.

Definition entries_pruned (p : list string) (es : list (string * tree)) : list (list string * bool) := flat_map (λ nt, pruned (p ++ [nt.1]) nt.2) es.
Definition entries_kept (p : list string) (es : list (string * tree)) : list (list string) := flat_map (λ nt, kept_files (p ++ [nt.1]) nt.2) es.
Definition entries_keep (p : list string) (es : list (string * tree)) : bool := existsb (λ nt, keeps (p ++ [nt.1]) nt.2) es.

Lemma prefix_snoc_cases {A} (d p : list A) n : d `prefix_of` p ++ [n] → d = p ++ [n] ∨ d `prefix_of` p.
Proof.
  intros [k E]. destruct k as [|x k _] using rev_ind.
  - left. by rewrite app_nil_r in E.
  - right. rewrite app_assoc in E. apply app_inj_2 in E as [-> _]; [by apply prefix_app_r | done].
Qed.

Lemma visited_snoc p n : p ≠ [] → visited (p ++ [n]) ↔ visited p ∧ Include flt (rel_path p) true = true.
Proof.
  intros Np. split.
  - intros Hv. split.
    + intros d Nd Hd Hne. apply Hv; [done | by apply prefix_app_r |]. intros ->. apply prefix_length in Hd. rewrite length_app in Hd. simpl in Hd. lia.
    + apply Hv; [done | by apply prefix_app_r |]. intros E. apply (f_equal length) in E. rewrite length_app in E. simpl in E. lia.
  - intros [Hv Hi] d Nd Hd Hne. apply prefix_snoc_cases in Hd as [->|Hd]; [done |].
    destruct (decide (d = p)) as [->|Hdp]; [done | by apply Hv].
Qed.

Lemma visited_one n : visited [n].
Proof. intros d Nd Hd Hne. apply (prefix_snoc_cases d [] n) in Hd as [->|[k E]]; [done |]. by destruct d. Qed.

Lemma visited_prefix p q : visited (p ++ q) → visited p.
Proof.
  intros Hv d Nd Hd Hne. apply Hv; [done | by apply prefix_app_r |]. intros ->.
  apply prefix_length in Hd. rewrite length_app in Hd. destruct q; [by rewrite app_nil_r in Hne |]. simpl in Hd. lia.
Qed.

Lemma keeps_child p n t i es : lookup_path t p = Some (Dir i es) → ∀ t', assoc n es = Some t' → Include flt (rel_path p) true = true →
  keeps (p ++ [n]) t' = true → keeps p (Dir i es) = true.
Proof.
  intros _ t' Ha Hi Hk. simpl. rewrite Hi. simpl. apply orb_true_iff. right. apply existsb_exists_elem. exists (n, t'). by split; [apply assoc_elem |].
Qed.

(** A spared entry is one whose walk keeps it, in directories that are accepted. *)
Lemma spared_keeps t p : spared t p → visited p ∧ ∃ t', lookup_path t p = Some t' ∧ keeps p t' = true.
Proof.
  induction 1 as [p i Np Hl Hv Hi|p i es Np Hl Hv Hd Hf|p n Np Hs [Hv (t' & Hl & Hk)]].
  - split; [done |]. by exists (Leaf i).
  - split; [done |]. exists (Dir i es). split; [done |]. simpl. by rewrite Hd, Hf.
  - apply visited_snoc in Hv as [Hv Hi]; [| done]. split; [done |].
    apply lookup_path_snoc in Hl as (i & es & Hl & Ha). exists (Dir i es). split; [done |]. by eapply keeps_child.
Qed.

Lemma keeps_spared t p t' :
  p ≠ [] → wf_tree t' → lookup_path t p = Some t' → visited p → keeps p t' = true → spared t p.
Proof.
  revert p. induction t' as [i|i es IH] using tree_ind'; intros p Np Hw Hl Hv Hk; simpl in Hk; [by apply (spared_file t p i) |].
  apply andb_true_iff in Hk as [Hi [Hf|Hx]%orb_true_iff]; [by apply (spared_direct t p i es) |].
  apply existsb_exists_elem in Hx as ([n t'] & Hn & Hk). apply (spared_above t p n Np). inversion_clear Hw as [|? ? _ Hs Hseg Hws].
  apply (Forall_elem _ _ _ IH Hn); simpl; [by destruct p | apply (Forall_elem _ _ _ Hws Hn) | | by apply visited_snoc | done].
  rewrite lookup_path_app, Hl. simpl. by rewrite (assoc_unique n es t') by (by apply sorted_NoDup || done).
Qed.

(** ** What is removed is what is not spared *)

Lemma pruned_paths p t j : wf_tree t → p ≠ [] → j ∈ pruned p t →
  ∃ q t', lookup_path t q = Some t' ∧ j = (p ++ q, is_dir t') ∧ keeps (p ++ q) t' = false ∧ ∀ d, d `prefix_of` q → d ≠ q → Include flt (rel_path (p ++ d)) true = true.
Proof.
  revert p. induction t as [i|i es IH] using tree_ind'; intros p Hw Np Hj; cbn [pruned] in Hj.
  - destruct (Include _ _ false) eqn:Hi; [by apply elem_of_nil in Hj |]. apply list_elem_of_singleton in Hj as ->.
    exists [], (Leaf i). rewrite app_nil_r. split_and!; [done.. |]. intros d [k E] Hd. by destruct d.
  - assert (keeps p (Dir i es) = false → j = (p, true) →
      ∃ q t', lookup_path (Dir i es) q = Some t' ∧ j = (p ++ q, is_dir t') ∧ keeps (p ++ q) t' = false
        ∧ ∀ d, d `prefix_of` q → d ≠ q → Include flt (rel_path (p ++ d)) true = true) as Hself.
    { intros Hk ->. exists [], (Dir i es). rewrite app_nil_r. split_and!; [done.. |]. intros d [k E] Hd. by destruct d. }
    destruct (Include _ _ true) eqn:Hi.
    + apply elem_of_app in Hj as [Hj|Hj].
      * apply elem_of_flat_map in Hj as ([n t] & Hn & Hj). inversion_clear Hw as [|? ? _ Hs Hseg Hws].
        destruct (Forall_elem _ _ _ IH Hn (p ++ [n])) as (q & t' & Hl & -> & Hk & Hd); [apply (Forall_elem _ _ _ Hws Hn) | by destruct p | done |].
        exists (n :: q), t'. rewrite <- app_assoc in *. simpl in *. rewrite (assoc_unique n es t) by (by apply sorted_NoDup || done).
        split_and!; [done.. |]. intros d Hpre Hne. destruct d as [|m d]; [by rewrite app_nil_r |].
        apply prefix_cons_inv_1 in Hpre as Em. apply prefix_cons_inv_2 in Hpre. subst m.
        specialize (Hd d Hpre). rewrite <- app_assoc in Hd. apply Hd. congruence.
      * destruct (keeps p (Dir i es)) eqn:Hk; [by apply elem_of_nil in Hj |]. apply list_elem_of_singleton in Hj. auto.
    + apply list_elem_of_singleton in Hj. apply Hself; [simpl; by rewrite Hi | done].
Qed.

Lemma pruned_complete p t q t' :
  wf_tree t → p ≠ [] → lookup_path t q = Some t' → keeps (p ++ q) t' = false →
  (∀ d, d `prefix_of` q → d ≠ q → Include flt (rel_path (p ++ d)) true = true) → (p ++ q, is_dir t') ∈ pruned p t.
Proof.
  revert p t. induction q as [|n q IH]; intros p t Hw Np Hl Hk Hd.
  - injection Hl as ->. rewrite app_nil_r in *. destruct t' as [i|i es]; cbn [pruned is_dir].
    + simpl in Hk. rewrite Hk. by left.
    + destruct (Include _ _ true) eqn:Hi; [| by left]. rewrite Hk. apply elem_of_app. right. by left.
  - destruct t as [i|i es]; [done |]. simpl in Hl. destruct (assoc n es) as [t1|] eqn:Ha; simpl in Hl; [| done].
    cbn [pruned]. rewrite <- (app_nil_r p), (Hd []), app_nil_r by (by apply prefix_nil || done).
    apply elem_of_app. left. apply elem_of_flat_map. exists (n, t1). split; [by apply assoc_elem |]. simpl.
    pose proof (wf_child _ _ _ _ Hw (assoc_elem _ _ _ Ha)) as (W1 & _ & _).
    change (n :: q) with ([n] ++ q) in *. rewrite app_assoc in *. apply IH; [done | by destruct p | done | done |].
    intros d Hpre Hne. rewrite <- app_assoc. apply Hd; [by apply prefix_cons | simpl; congruence].
Qed.

Lemma root_pruned i es j : wf_tree (Dir i es) →
  j ∈ entries_pruned [] es ↔
  ∃ q t', q ≠ [] ∧ lookup_path (Dir i es) q = Some t' ∧ j = (q, is_dir t') ∧ keeps q t' = false ∧ visited q.
Proof.
  intros Hw. inversion Hw as [|? ? _ Hs Hseg Hws]; subst. unfold entries_pruned. rewrite elem_of_flat_map. split.
  - intros ([n t] & Hn & Hj). simpl in Hj. destruct (pruned_paths [n] t j) as (q & t' & Hl & -> & Hk & Hd); [apply (Forall_elem _ _ _ Hws Hn) | done | done |].
    exists (n :: q), t'. simpl. rewrite (assoc_unique n es t) by (by apply sorted_NoDup || done). split_and!; [done.. |].
    intros d Nd Hpre Hne. destruct d as [|m d]; [done |]. apply prefix_cons_inv_1 in Hpre as Em. apply prefix_cons_inv_2 in Hpre. subst m.
    apply (Hd d); [done | congruence].
  - intros (q & t' & Nq & Hl & -> & Hk & Hv). destruct q as [|n q]; [done |]. simpl in Hl.
    destruct (assoc n es) as [t1|] eqn:Ha; simpl in Hl; [| done]. exists (n, t1). split; [by apply assoc_elem |]. simpl.
    apply (pruned_complete [n] t1 q t'); [apply (Forall_elem _ _ _ Hws (assoc_elem _ _ _ Ha)) | done | done | done |].
    intros d Hpre Hne. apply (Hv (n :: d)); [done | by apply prefix_cons | congruence].
Qed.

Lemma spared_prefix t p q : p ≠ [] → spared t (p ++ q) → spared t p.
Proof.
  revert p. induction q as [|n q IH]; intros p Np Hs; [by rewrite app_nil_r in Hs |].
  apply (spared_above t p n Np). apply IH; [by destruct p |]. by rewrite <- app_assoc.
Qed.

(** An entry is spared exactly when neither it nor a directory above it is
    removed. *)
Lemma spared_not_pruned i es p : wf_tree (Dir i es) → p ≠ [] → is_Some (lookup_path (Dir i es) p) →
  spared (Dir i es) p ↔ ∀ q b, (q, b) ∈ entries_pruned [] es → ¬ q `prefix_of` p.
Proof.
  intros Hw Np Hp. split.
  - intros Hs q b Hj [k ->]. apply (root_pruned i es) in Hj as (q' & t' & Nq' & Hl & E & Hk & Hv); [| done].
    injection E as <- _.
    apply spared_prefix in Hs; [| done]. apply spared_keeps in Hs as [_ (t2 & Hl2 & Hk2)]. congruence.
  - intros Hno. assert (∀ q k, p = q ++ k → q ≠ [] → visited q ∧ ∃ t', lookup_path (Dir i es) q = Some t' ∧ keeps q t' = true) as Hall.
    { intros q. induction q as [|n q IH] using rev_ind; intros k E Nq; [done |].
      assert (visited (q ++ [n])) as Hv.
      { destruct (decide (q = [])) as [->|Nq']; [apply visited_one |]. rewrite <- app_assoc in E.
        destruct (IH _ E Nq') as (Hv & t' & Hl & Hk). apply visited_snoc; [done |]. split; [done |].
        subst p. destruct (lookup_path_dir (Dir i es) q n k Hp) as (i1 & es1 & Hl1). rewrite Hl in Hl1. injection Hl1 as ->.
        simpl in Hk. by apply andb_true_iff in Hk as [? _]. }
      split; [done |]. subst p. apply lookup_path_prefix in Hp as [t' Hl]. exists t'. split; [done |].
      destruct (keeps (q ++ [n]) t') eqn:Hk; [done | exfalso].
      apply (Hno (q ++ [n]) (is_dir t')); [| by apply prefix_app_r].
      apply (root_pruned i es); [done |]. by exists (q ++ [n]), t'. }
    destruct (Hall p [] (eq_sym (app_nil_r p)) Np) as (Hv & t' & Hl & Hk). apply (keeps_spared _ p t'); try done. by apply (lookup_path_wf _ _ _ Hw Hl).
Qed.

(** The files that are kept are the spared ones. *)
Lemma kept_spared_sub p t q :
  wf_tree t → q ∈ kept_files p t ↔
  ∃ s i, q = p ++ s ∧ lookup_path t s = Some (Leaf i) ∧ Include flt (rel_path q) false = true
    ∧ ∀ d, d `prefix_of` s → d ≠ s → Include flt (rel_path (p ++ d)) true = true.
Proof.
  revert p. induction t as [i|i es IH] using tree_ind'; intros p Hw; cbn [kept_files].
  - split.
    + destruct (Include _ _ false) eqn:Hi; [| by intros ?%elem_of_nil]. intros ->%list_elem_of_singleton. exists [], i.
      rewrite app_nil_r. split_and!; [done.. |]. intros d [k E] Hd. by destruct d.
    + intros (s & j & -> & Hl & Hi & _). destruct s; [| done]. rewrite app_nil_r in *. rewrite Hi. by left.
  - inversion_clear Hw as [|? ? _ Hs Hseg Hws]. split.
    + destruct (Include _ _ true) eqn:Hi; [| by intros ?%elem_of_nil].
      rewrite elem_of_flat_map. intros ([n t] & Hn & Hq). apply (Forall_elem _ _ _ IH Hn) in Hq as (s & j & -> & Hl & Hf & Hd);
        [| apply (Forall_elem _ _ _ Hws Hn)]. exists (n :: s), j. rewrite <- app_assoc in *. simpl in *.
      rewrite (assoc_unique n es t) by (by apply sorted_NoDup || done). split_and!; [done.. |]. intros d Hpre Hne.
      destruct d as [|m d]; [by rewrite app_nil_r |]. apply prefix_cons_inv_1 in Hpre as Em. apply prefix_cons_inv_2 in Hpre. subst m.
      specialize (Hd d Hpre). rewrite <- app_assoc in Hd. apply Hd. congruence.
    + intros (s & j & -> & Hl & Hf & Hd). destruct s as [|n s]; [done |]. simpl in Hl.
      destruct (assoc n es) as [t1|] eqn:Ha; simpl in Hl; [| done].
      rewrite <- (app_nil_r p), (Hd []), app_nil_r by (by apply prefix_nil || done). apply elem_of_flat_map. exists (n, t1).
      split; [by apply assoc_elem |]. simpl. apply (Forall_elem _ _ _ IH (assoc_elem _ _ _ Ha)); [apply (Forall_elem _ _ _ Hws (assoc_elem _ _ _ Ha)) |].
      exists s, j. rewrite <- app_assoc. split_and!; [done.. |]. intros d Hpre Hne. rewrite <- app_assoc. apply Hd; [by apply prefix_cons | simpl; congruence].
Qed.

Lemma root_kept i es q : wf_tree (Dir i es) →
  q ∈ entries_kept [] es ↔ q ≠ [] ∧ spared (Dir i es) q ∧ ∃ j, lookup_path (Dir i es) q = Some (Leaf j).
Proof.
  intros Hw. inversion Hw as [|? ? _ Hs Hseg Hws]; subst. unfold entries_kept. rewrite elem_of_flat_map. split.
  - intros ([n t] & Hn & Hq). apply kept_spared_sub in Hq as (s & j & -> & Hl & Hf & Hd); [| apply (Forall_elem _ _ _ Hws Hn)]. simpl in *.
    assert (lookup_path (Dir i es) (n :: s) = Some (Leaf j)) as Hl'.
    { simpl. by rewrite (assoc_unique n es t) by (by apply sorted_NoDup || done). }
    split; [done |]. split; [| by exists j]. apply (spared_file _ _ j); [done | done | | done].
    intros d Nd Hpre Hne. destruct d as [|m d]; [done |]. apply prefix_cons_inv_1 in Hpre as Em. apply prefix_cons_inv_2 in Hpre. subst m.
    apply (Hd d); [done | congruence].
  - intros (Nq & Hsp & j & Hl). apply spared_keeps in Hsp as [Hv (t' & Hl' & Hk)]. rewrite Hl in Hl'. injection Hl' as <-.
    destruct q as [|n q]; [done |]. simpl in Hl. destruct (assoc n es) as [t1|] eqn:Ha; simpl in Hl; [| done].
    exists (n, t1). split; [by apply assoc_elem |]. apply kept_spared_sub; [apply (Forall_elem _ _ _ Hws (assoc_elem _ _ _ Ha)) |].
    exists q, j. split_and!; [done.. |]. intros d Hpre Hne. apply (Hv (n :: d)); [done | by apply prefix_cons | congruence].
Qed.

Lemma root_pruned_spared i es q b : wf_tree (Dir i es) →
  (q, b) ∈ entries_pruned [] es ↔ q ≠ [] ∧ visited q ∧ ¬ spared (Dir i es) q ∧ ∃ t', lookup_path (Dir i es) q = Some t' ∧ b = is_dir t'.
Proof.
  intros Hw. rewrite (root_pruned i es _ Hw). split.
  - intros (q' & t' & Nq & Hl & [= -> ->] & Hk & Hv). split_and!; [done | done | | by exists t'].
    intros [_ (t2 & Hl2 & Hk2)]%spared_keeps. congruence.
  - intros (Nq & Hv & Hns & t' & Hl & ->). exists q, t'. split_and!; try done. apply not_true_iff_false. intros Hk. apply Hns.
    apply (keeps_spared _ q t'); try done. by apply (lookup_path_wf _ _ _ Hw Hl).
Qed.

(** Nothing is listed twice. *)
Lemma NoDup_children {A} (f : string * tree → list A) (name : A → option string) es :
  NoDup es.*1 → (∀ nt a, nt ∈ es → a ∈ f nt → name a = Some nt.1) → (∀ nt, nt ∈ es → NoDup (f nt)) → NoDup (flat_map f es).
Proof.
  induction es as [|nt es IH]; intros Hnd Hname Hf; simpl; [constructor |]. apply NoDup_cons in Hnd as [Hn Hnd].
  apply NoDup_app. split_and!; [apply Hf; by left | |].
  - intros a Ha (nt' & Hnt & Ha')%elem_of_flat_map. pose proof (Hname nt a ltac:(by left) Ha) as E.
    rewrite (Hname nt' a) in E by (done || by right). injection E as E. apply Hn. rewrite <- E. by apply list_elem_of_fmap_2.
  - apply IH; [done | |]; intros; [eapply Hname; [by right | done] | apply Hf; by right].
Qed.

Lemma lookup_below {A} (p : list A) n s : (p ++ n :: s) !! length p = Some n.
Proof. by rewrite lookup_app_r, Nat.sub_diag. Qed.

Lemma pruned_NoDup p t : wf_tree t → p ≠ [] → NoDup (pruned p t).
Proof.
  revert p. induction t as [i|i es IH] using tree_ind'; intros p Hw Np; cbn [pruned]; [destruct (Include _ _ _); constructor; [set_solver | constructor] |].
  destruct (Include _ _ true); [| apply NoDup_singleton]. inversion Hw as [|? ? _ Hs Hseg Hws]; subst.
  assert (∀ nt a, nt ∈ es → a ∈ pruned (p ++ [nt.1]) nt.2 → ∃ q, a.1 = p ++ nt.1 :: q) as Hbelow.
  { intros nt a Hn Ha. apply pruned_paths in Ha as (q & t' & _ & -> & _); [| apply (Forall_elem _ _ _ Hws Hn) | by destruct p].
    exists q. by rewrite <- app_assoc. }
  apply NoDup_app. split_and!.
  - apply (NoDup_children _ (λ a, a.1 !! length p)); [by apply sorted_NoDup | |].
    + intros nt a Hn Ha. destruct (Hbelow nt a Hn Ha) as [q ->]. apply lookup_below.
    + intros nt Hn. apply (Forall_elem _ _ _ IH Hn); [apply (Forall_elem _ _ _ Hws Hn) | by destruct p].
  - intros a (nt & Hn & Ha)%elem_of_flat_map. destruct (Hbelow nt a Hn Ha) as [q Hq]. case_match; [set_solver |].
    intros ->%list_elem_of_singleton. apply (f_equal length) in Hq. rewrite length_app in Hq. simpl in Hq. lia.
  - case_match; [constructor | apply NoDup_singleton].
Qed.

Lemma kept_NoDup p t : wf_tree t → NoDup (kept_files p t).
Proof.
  revert p. induction t as [i|i es IH] using tree_ind'; intros p Hw; cbn [kept_files]; [destruct (Include _ _ _); [apply NoDup_singleton | constructor] |].
  destruct (Include _ _ true); [| constructor]. inversion Hw as [|? ? _ Hs Hseg Hws]; subst.
  apply (NoDup_children _ (λ a, a !! length p)); [by apply sorted_NoDup | |].
  - intros nt a Hn Ha. apply kept_spared_sub in Ha as (s & j & -> & _); [| apply (Forall_elem _ _ _ Hws Hn)].
    rewrite <- app_assoc. apply lookup_below.
  - intros nt Hn. apply (Forall_elem _ _ _ IH Hn), (Forall_elem _ _ _ Hws Hn).
Qed.

Lemma root_NoDup i es : wf_tree (Dir i es) → NoDup (entries_pruned [] es) ∧ NoDup (entries_kept [] es).
Proof.
  intros Hw. inversion Hw as [|? ? _ Hs Hseg Hws]; subst. split.
  - apply (NoDup_children _ (λ a, a.1 !! 0)); [by apply sorted_NoDup | |].
    + intros nt a Hn Ha. apply pruned_paths in Ha as (q & t' & _ & -> & _); [done | apply (Forall_elem _ _ _ Hws Hn) | done].
    + intros nt Hn. apply pruned_NoDup; [apply (Forall_elem _ _ _ Hws Hn) | done].
  - apply (NoDup_children _ (λ a, a !! 0)); [by apply sorted_NoDup | |].
    + intros nt a Hn Ha. apply kept_spared_sub in Ha as (s & j & -> & _); [done | apply (Forall_elem _ _ _ Hws Hn)].
    + intros nt Hn. apply kept_NoDup, (Forall_elem _ _ _ Hws Hn).
Qed.
End spec.

(** ** The walk *)

Section walked.
Context (ReadDir : string → result (list DirEntry)) (Stat : string → result FileInfo).
Context (ctx : context) (send : nat → bool) (targetRoot : string) (flt : Filter) (followSymlinks : bool).

(** A context that has ended stays so. *)
Definition ends_once : Prop := ∀ k l, k ≤ l → is_Some (ctx k) → is_Some (ctx l).

Context (Hends : ends_once).

Definition jobs_of (l : list (list string * bool)) : list submitJob := (λ '(p, b), job p b) <$> l.
Definition kept_event (p : list string) : Event := mkEvent (rel_path p) false DispositionKept None.

(** Between [s] and [s'] the walk removed [l] and kept [ks], with the answer [b] for [r], if its
    context lived; if it ended, the walk may have left some of it out, and what it sent beside
    it was sent when the context had ended. *)
Definition walked (l : list (list string * bool)) (ks : list (list string)) (b r : bool) (s s' : wstate) : Prop :=
  ws_errs s' = ws_errs s ∧ ws_polls s ≤ ws_polls s'
  ∧ ∃ new kn, ws_jobs s' = ws_jobs s ++ new ∧ ws_kept s' = (ws_kept s + Z.of_nat (length kn))%Z ∧ ws_events s' = ws_events s ++ (kept_event <$> kn)
    ∧ (∀ j k, (j, k) ∈ new → ws_polls s ≤ k < ws_polls s')
    ∧ ((∀ k, ws_polls s ≤ k < ws_polls s' → ctx k = None) ∧ new.*1 = jobs_of l ∧ kn = ks ∧ r = b
       ∨ (∃ k, ws_polls s ≤ k < ws_polls s' ∧ is_Some (ctx k)) ∧ kn `sublist_of` ks
         ∧ ∀ j k, (j, k) ∈ new → ctx k = None → j ∈ jobs_of l).

Lemma walked_refl b s : walked [] [] b b s s.
Proof.
  split; [done |]. split; [done |]. exists [], []. rewrite !app_nil_r. split_and!; [done | simpl; lia | done | set_solver |].
  left. split_and!; try done. intros; lia.
Qed.

Lemma walked_trans (f : bool → bool) l1 l2 ks1 ks2 b1 r1 r2 s s1 s2 :
  walked l1 ks1 b1 r1 s s1 → walked l2 ks2 (f r1) r2 s1 s2 → walked (l1 ++ l2) (ks1 ++ ks2) (f b1) r2 s s2.
Proof.
  intros (He1 & Hp1 & n1 & k1 & Hj1 & Hk1 & Hv1 & Ht1 & H1) (He2 & Hp2 & n2 & k2 & Hj2 & Hk2 & Hv2 & Ht2 & H2).
  split; [congruence |]. split; [lia |]. exists (n1 ++ n2), (k1 ++ k2).
  rewrite Hj2, Hj1, Hv2, Hv1, <- !app_assoc, fmap_app. rewrite Hk2, Hk1, length_app.
  split_and!; [done | lia | done | |].
  { intros j k [Hin|Hin]%elem_of_app; [apply Ht1 in Hin | apply Ht2 in Hin]; lia. }
  unfold jobs_of in *. rewrite !fmap_app.
  destruct H1 as [(Ha1 & Hn1 & -> & ->)|((k & Hk & Hc) & Hs1 & Hl1)], H2 as [(Ha2 & Hn2 & -> & ->)|((k' & Hk' & Hc') & Hs2 & Hl2)].
  - left. split_and!; [| congruence | done | done]. intros k Hk. destruct (decide (k < ws_polls s1)); [apply Ha1; lia | apply Ha2; lia].
  - right. split_and!; [exists k'; split; [lia | done] | by apply sublist_app |].
    intros j k [Hin|Hin]%elem_of_app Hc; apply elem_of_app; [left | right; by eapply Hl2].
    rewrite <- Hn1. by apply (list_elem_of_fmap_2 fst _ (j, k)).
  - right. split_and!; [exists k; split; [lia | done] | by apply sublist_app |].
    intros j x [Hin|Hin]%elem_of_app Hc2; apply elem_of_app; [left; by eapply Hl1 | right].
    rewrite <- Hn2. by apply (list_elem_of_fmap_2 fst _ (j, x)).
  - right. split_and!; [exists k; split; [lia | done] | by apply sublist_app |].
    intros j x [Hin|Hin]%elem_of_app Hc2; apply elem_of_app; [left; by eapply Hl1 | right; by eapply Hl2].
Qed.

(** A walk that stops because its context has ended has left out what it likes. *)
Lemma walked_stop l ks b r s s' :
  walked [] [] b r s s' → (∃ k, ws_polls s ≤ k < ws_polls s' ∧ is_Some (ctx k)) → walked l ks b r s s'.
Proof.
  intros (He & Hp & n & k & Hj & Hk & Hv & Ht & H) (k0 & Hk0 & Hc0). split; [done |]. split; [done |]. exists n, k. split_and!; try done. right.
  destruct H as [(Ha & _)|(_ & Hs & Hl)]; [rewrite Ha in Hc0 by done; by destruct Hc0 |].
  split_and!; [eauto | |].
  - apply sublist_nil_r in Hs as ->. apply sublist_nil_l.
  - intros j k1 Hin Hc. specialize (Hl j k1 Hin Hc). set_solver.
Qed.

Lemma poll_walked s e s' : ws_poll ctx s = (e, s') → (∀ b, e = None → walked [] [] b b s s') ∧ (is_Some e → ∀ l ks b r, walked l ks b r s s').
Proof.
  unfold ws_poll. intros [= <- <-]. split.
  - intros b Hc. split; [done |]. split; [simpl; lia |]. exists [], []. simpl. rewrite !app_nil_r.
    split_and!; [done | lia | done | set_solver |]. left. split_and!; try done. intros k Hk. by replace k with (ws_polls s) by lia.
  - intros Hc l ks b r. split; [done |]. split; [simpl; lia |]. exists [], []. simpl. rewrite !app_nil_r.
    split_and!; [done | lia | done | set_solver |]. right. split_and!; [exists (ws_polls s); split; [lia | done] | apply sublist_nil_l | set_solver].
Qed.

(** A job sent now is in the list, or the context has ended. *)
Lemma enqueue_walked p isDir l b s :
  (ctx (ws_polls s) = None → l = [(p, isDir)]) →
  walked l [] b b s (pruner_enqueue ctx send (rel_path p) isDir (if isDir then OpRemoveAll else OpRemove)
    (if isDir then DispositionCollapsed else DispositionDeleted) s).
Proof.
  intros Hl. unfold pruner_enqueue, ws_poll. destruct (ctx (ws_polls s)) as [e|] eqn:Hc; simpl.
  - assert (∃ k, ws_polls s ≤ k < S (ws_polls s) ∧ is_Some (ctx k)) as Hk by (exists (ws_polls s); rewrite Hc; split; [lia | done]).
    destruct (send (ws_polls s)); (split; [done |]); (split; [simpl; lia |]).
    + exists [(job p isDir, ws_polls s)], []. simpl. rewrite app_nil_r. split_and!; [done | lia | done | |].
      * intros j k [= -> ->]%list_elem_of_singleton. lia.
      * right. split_and!; [done | done |]. intros j k [= -> ->]%list_elem_of_singleton Hn. congruence.
    + exists [], []. simpl. rewrite !app_nil_r. split_and!; [done | lia | done | set_solver |]. right. split_and!; [done | done | set_solver].
  - rewrite (Hl eq_refl). split; [done |]. split; [simpl; lia |]. exists [(job p isDir, ws_polls s)], []. simpl. rewrite app_nil_r.
    split_and!; [done | lia | done | |].
    + intros j k [= -> ->]%list_elem_of_singleton. lia.
    + left. split_and!; try done. intros k Hk. by replace k with (ws_polls s) by lia.
Qed.

Lemma keep_walked p r s : walked [] [p] r r s (keep (rel_path p) s).
Proof.
  split; [done |]. split; [done |]. exists [], [p]. simpl. rewrite app_nil_r. split_and!; [done | lia | done | set_solver |].
  left. split_and!; try done. intros; lia.
Qed.

(** What the walk gives may be described by more, if it is the same for a living context. *)
Lemma walked_weaken l ks b r l' ks' b' r' s s' :
  walked l ks b r s s' → (r = b → l' = l ∧ ks' = ks ∧ r' = b') → l ⊆ l' → ks `sublist_of` ks' → walked l' ks' b' r' s s'.
Proof.
  intros (He & Hp & n & k & Hj & Hk & Hv & Ht & H) Heq Hl Hs. split; [done |]. split; [done |]. exists n, k. split_and!; try done.
  destruct H as [(Ha & Hn & -> & ->)|(Hd & Hsub & Hin)].
  - destruct (Heq eq_refl) as (-> & -> & ->). by left.
  - right. split_and!; [done | by trans ks |]. intros j x Hx Hc. specialize (Hin j x Hx Hc). unfold jobs_of in *.
    apply list_elem_of_fmap in Hin as (y & -> & Hy). apply (list_elem_of_fmap_2 (λ '(p, b), job p b)). by apply Hl.
Qed.

Lemma walked_alive l ks b r s s' : walked l ks b r s s' → ctx (ws_polls s') = None → r = b.
Proof.
  intros (_ & _ & n & k & _ & _ & _ & _ & [(_ & _ & _ & ?)|((x & Hx & Hc) & _)]) Hn; [done |].
  destruct (Hends x (ws_polls s')) as [? ?]; [lia | done | congruence].
Qed.

(** The answer to a dead poll, or the walk goes on. *)
Lemma walked_poll l ks b r s r' s' :
  let '(e, s1) := ws_poll ctx s in
  (is_Some e → r' = r ∧ s' = s1) → (e = None → walked l ks b r' s1 s') → walked l ks b r' s s'.
Proof.
  destruct (ws_poll ctx s) as [e s1] eqn:Hp. apply poll_walked in Hp as [Ha Hd]. intros H1 H2. destruct e as [e|].
  - destruct (H1 ltac:(by eexists)) as [-> ->]. apply Hd. by eexists.
  - eapply (walked_trans (λ _, b) [] l [] ks b b); [by apply Ha | by apply H2].
Qed.

Notation walk_entries := (walk_entries ctx send flt).

Definition walks (p : list string) (es : list (string * tree)) (m : wstate → option (bool * wstate)) (b : bool) : Prop :=
  ∀ s, ∃ r s', m s = Some (r, s') ∧ walked (entries_pruned flt p es) (entries_kept flt p es) b r s s'.

(** One entry, and the answer so far *)
Lemma walk_entry walkF p n t e es des :
  wf_tree t → Forall seg p → seg n → lists e (n, t) →
  (∀ i es', t = Dir i es' → walks (p ++ [n]) es' (walkF (rel_path (p ++ [n]))) (entries_keep flt (p ++ [n]) es')) →
  (∀ keptAny, walks p es (walk_entries walkF (rel_path p) des keptAny) (keptAny || entries_keep flt p es)) →
  ∀ keptAny, walks p ((n, t) :: es) (walk_entries walkF (rel_path p) (e :: des) keptAny) (keptAny || entries_keep flt p ((n, t) :: es)).
Proof.
  intros Hw Sp Sn [He Hi] Hdir Htl keptAny s. cbn [DpPruner.walk_entries].
  pose proof (λ l ks b r r' s', walked_poll l ks b r s r' s') as Hpoll. destruct (ws_poll ctx s) as [[c|] s0]; [eexists keptAny, s0; split; [done |]; by apply (Hpoll _ _ _ keptAny) |].
  assert (∀ l ks b1 r1 s1, walked l ks b1 r1 s0 s1 →
    l = pruned flt (p ++ [n]) t → ks = kept_files flt (p ++ [n]) t → b1 = keptAny || keeps flt (p ++ [n]) t →
    ∃ r s', walk_entries walkF (rel_path p) des r1 s1 = Some (r, s')
      ∧ walked (entries_pruned flt p ((n, t) :: es)) (entries_kept flt p ((n, t) :: es)) (keptAny || entries_keep flt p ((n, t) :: es)) r s s') as Hgo.
  { intros l ks b1 r1 s1 H1 -> -> ->. destruct (Htl r1 s1) as (r & s' & E & H2). exists r, s'. split; [done |].
    apply (Hpoll _ _ _ keptAny); [by intros [? ?] | intros _].
    assert (keptAny || entries_keep flt p ((n, t) :: es) = (keptAny || keeps flt (p ++ [n]) t) || entries_keep flt p es) as -> by (simpl; by rewrite orb_assoc).
    apply (walked_trans (λ x, x || entries_keep flt p es) _ _ _ _ _ r1 _ _ s1); done. }
  rewrite He, Hi. simpl fst. assert (joinRel (rel_path p) n = rel_path (p ++ [n])) as -> by apply (DsClassify.joinRel p n Sp).
  pose proof (wf_is_dir _ Hw) as Hd. simpl in Hd. simpl snd. rewrite Hd.
  destruct (Include flt (rel_path (p ++ [n])) (is_dir t)) eqn:Hinc; simpl negb; cbv match.
  2: { destruct t as [i|i es']; simpl is_dir; cbv match; simpl in Hinc;
       (eapply Hgo; [first [apply (enqueue_walked (p ++ [n]) false [(p ++ [n], false)] keptAny); done | apply (enqueue_walked (p ++ [n]) true [(p ++ [n], true)] keptAny); done] | simpl; by rewrite Hinc
         | simpl; by rewrite Hinc | simpl; by rewrite Hinc, ?orb_false_r]). }
  destruct t as [i|i es']; simpl is_dir; simpl negb; cbv match; simpl in Hinc.
  - eapply Hgo; [apply (keep_walked (p ++ [n]) true) | simpl; by rewrite Hinc | simpl; by rewrite Hinc | simpl; by rewrite Hinc, orb_true_r].
  - destruct (Hdir i es' eq_refl s0) as (ck & s1 & -> & H1).
    assert (keeps flt (p ++ [n]) (Dir i es') = Include flt (rel_path (p ++ [n])) false || entries_keep flt (p ++ [n]) es') as Ek by (simpl; by rewrite Hinc).
    assert (pruned flt (p ++ [n]) (Dir i es') = entries_pruned flt (p ++ [n]) es' ++ (if keeps flt (p ++ [n]) (Dir i es') then [] else [(p ++ [n], true)])) as El by (cbn [pruned]; by rewrite Hinc).
    assert (kept_files flt (p ++ [n]) (Dir i es') = entries_kept flt (p ++ [n]) es' ++ []) as Eks by (cbn [kept_files]; by rewrite Hinc, app_nil_r).
    destruct (Include flt (rel_path (p ++ [n])) false || ck) eqn:Hor.
    + refine (Hgo (pruned flt (p ++ [n]) (Dir i es')) (kept_files flt (p ++ [n]) (Dir i es')) (keptAny || keeps flt (p ++ [n]) (Dir i es')) _ _ _ eq_refl eq_refl eq_refl).
      rewrite El, Eks, Ek. eapply walked_weaken; [exact H1 | intros <-; rewrite Hor; by rewrite !app_nil_r, orb_true_r | | ].
      * by apply list_subseteq_app_l.
      * by apply sublist_inserts_r.
    + refine (Hgo (pruned flt (p ++ [n]) (Dir i es')) (kept_files flt (p ++ [n]) (Dir i es')) (keptAny || keeps flt (p ++ [n]) (Dir i es')) _ _ _ eq_refl eq_refl eq_refl).
      rewrite El, Eks, Ek.
      apply (walked_trans (λ x, keptAny || (Include flt (rel_path (p ++ [n])) false || x)) _ _ _ _ _ ck _ _ s1); [done |]. rewrite Hor, orb_false_r.
      apply (enqueue_walked (p ++ [n]) true). intros Hc. apply walked_alive in H1 as <-; [by rewrite Hor | done].
Qed.

(** The loop over a listing *)
Lemma walk_entries_walks walkF p es : Forall seg p → Forall seg es.*1 → Forall (λ nt, wf_tree nt.2) es →
  (∀ n i es', (n, Dir i es') ∈ es → walks (p ++ [n]) es' (walkF (rel_path (p ++ [n]))) (entries_keep flt (p ++ [n]) es')) →
  ∀ des, Forall2 lists des es → ∀ keptAny, walks p es (walk_entries walkF (rel_path p) des keptAny) (keptAny || entries_keep flt p es).
Proof.
  intros Sp. induction es as [|[n t] es IH]; intros Hseg Hw Hdir des Hl keptAny.
  - inversion Hl; subst. intros s. exists keptAny, s. rewrite orb_false_r. split; [done |]. apply walked_refl.
  - inversion Hl as [|e ? des' ? He Hl']; subst. apply Forall_cons in Hseg as [Sn Hseg]. apply Forall_cons in Hw as [Hwt Hw].
    apply walk_entry; try done.
    + intros i es' ->. apply (Hdir n i es'). by left.
    + intros k. apply IH; try done. intros m i es' Hm. apply (Hdir m i es'). by right.
Qed.

Notation on_disk := (on_disk (λ a b, Ok (path_join [a; b])) ReadDir Stat followSymlinks).

(** The walk of a directory on disk *)
Lemma walkDir_walks t : ∀ fuel p i es, t = Dir i es → depth t ≤ fuel → wf_tree t → Forall seg p → on_disk targetRoot p t →
  walks p es (walkDir ReadDir Stat ctx send targetRoot flt followSymlinks fuel (rel_path p)) (entries_keep flt p es).
Proof.
  induction t as [i0|i0 es0 IH] using tree_ind'; intros fuel p i es [=] Hd Hw Sp Hdisk. subst i0 es0.
  destruct fuel as [|fuel]; [simpl in Hd; lia |]. intros s. cbn [walkDir].
  pose proof (λ l ks b r r' s', walked_poll l ks b r s r' s') as Hpoll.
  destruct (ws_poll ctx s) as [[c|] s0]; [exists false, s0; split; [done |]; by apply (Hpoll _ _ _ false) |].
  inversion_clear Hdisk as [|? ? ? abs des Ha Hr Hl Hch]. assert (abs = path_join [targetRoot; rel_path p]) as -> by (cbv beta in Ha; congruence).
  change (readDirResolved ReadDir Stat followSymlinks) with (readEntries ReadDir Stat followSymlinks) in Hr. rewrite Hr.
  inversion Hw as [|? ? _ Hs Hseg Hws]; subst.
  destruct (walk_entries_walks (walkDir ReadDir Stat ctx send targetRoot flt followSymlinks fuel) p es Sp Hseg Hws) with (des := des) (keptAny := false) (s := s0)
    as (r & s' & E & H); [| done |].
  - intros n j es' Hn. apply (Forall_elem _ _ _ IH Hn fuel _ j es'); cbn [snd]; [done | by apply (depth_child i es n _ _ Hd Hn) | apply (Forall_elem _ _ _ Hws Hn) | | by apply Hch].
    apply Forall_app. split; [done |]. constructor; [| done]. apply (Forall_elem _ _ _ Hseg), (list_elem_of_fmap_2 fst _ _ Hn).
  - exists r, s'. split; [done |]. apply (Hpoll _ _ _ false); [by intros [? ?] | done].
Qed.
End walked.
