(* ===== verification/DpPrune.v ===== *)
(** * DpPrune: the pruner on a disk

    The goroutines that submit the jobs, and the theorems about a whole run of [Prune]: what it
    leaves of a directory, what it does when its context ends, and when a listing fails. *)
From S2P Require Import Prelude GoStd GoPath DsTypes DsPrune DsFilter DsWalk DsDiff DsClassify DsView DsBatch DsPipeline DsEngine DpPruner DpSpec.

(** ** The workers *)

Definition pending (ph : job_phase) : option submitJob :=
  match ph with JQueued j _ | JSubmit j _ => Some j | JObserve _ | JDone => None end.

Definition phase_rank (ph : job_phase) : nat := match ph with JQueued _ _ => 3 | JSubmit _ _ => 2 | JObserve _ => 1 | JDone => 0 end.

Lemma omap_insert_none {A B} (f : A → option B) (l : list A) (i : nat) x y b :
  l !! i = Some x → f x = Some b → f y = None → omap f l ≡ₚ b :: omap f (<[i := y]> l).
Proof.
  intros Hi Hx Hy. rewrite <- (take_drop_middle l i x Hi) at 1. rewrite (insert_take_drop l i y) by (by eapply lookup_lt_Some).
  rewrite !omap_app. simpl. rewrite Hx, Hy. by rewrite <- Permutation_middle.
Qed.

Lemma omap_insert_same {A B} (f : A → option B) (l : list A) (i : nat) x y :
  l !! i = Some x → f x = f y → omap f (<[i := y]> l) = omap f l.
Proof.
  intros Hi Hxy. rewrite <- (take_drop_middle l i x Hi) at 2. rewrite (insert_take_drop l i y) by (by eapply lookup_lt_Some).
  rewrite !omap_app. simpl. by rewrite Hxy.
Qed.

Lemma sum_insert {A} (f : A → nat) (l : list A) (i : nat) x y :
  l !! i = Some x → f y < f x → sum_list_with f (<[i := y]> l) < sum_list_with f l.
Proof.
  intros Hi Hxy. rewrite <- (take_drop_middle l i x Hi) at 2. rewrite (insert_take_drop l i y) by (by eapply lookup_lt_Some).
  rewrite !sum_list_with_app. simpl. lia.
Qed.

Section workers.
Context {V B S : Type} (bo : BatcherOps V B) (observer : Observer S) (ctx : context).

Notation pool_step := (pool_step bo observer ctx).
Notation pool_run := (pool_run bo observer ctx).

(** The calls of [Submit] return. *)
Context (Hret : ∀ ended op b, is_Some (bo_Submit bo ended op b)).

(** A job that is not done can move, and moves a bounded number of times. *)
Lemma prune_pool_progress (p : pool (B := B) (S := S)) :
  pool_finished p = false → ∃ it, sum_list_with phase_rank (po_jobs (pool_step p it)) < sum_list_with phase_rank (po_jobs p).
Proof.
  unfold pool_finished. intros Hf. assert (∃ i ph, po_jobs p !! i = Some ph ∧ ph ≠ JDone) as (i & ph & Hi & Hne).
  { induction (po_jobs p) as [|ph l IH]; [done |]. simpl in Hf. destruct ph; [exists 0; eauto.. |].
    destruct (IH Hf) as (i & ph & Hi & Hne). by exists (Datatypes.S i), ph. }
  exists (i, match ph with JQueued _ k | JSubmit _ k => k | _ => 0 end). unfold DpPruner.pool_step. rewrite Hi.
  destruct ph as [j k|j k|ev|]; [| | | done].
  - rewrite decide_True by done. case_match; simpl; by apply (sum_insert phase_rank _ _ _ _ Hi); simpl; lia.
  - rewrite decide_True by done. unfold submit_job.
    destruct (Hret (ctx k) (sj_op j) (po_batcher p)) as [[[e|] b] ->]; [| destruct (sj_disp j)]; simpl; by apply (sum_insert phase_rank _ _ _ _ Hi); simpl; lia.
  - simpl. apply (sum_insert phase_rank _ _ _ _ Hi). simpl. lia.
Qed.

Lemma pool_terminates (p : pool (B := B) (S := S)) : ∃ sched, pool_finished (pool_run sched p) = true.
Proof.
  remember (sum_list_with phase_rank (po_jobs p)) as n eqn:Hn. revert p Hn.
  induction n as [n IH] using lt_wf_ind. intros p ->. destruct (pool_finished p) eqn:Hf; [by exists [] |].
  destruct (prune_pool_progress p Hf) as [it Hlt]. destruct (IH _ Hlt _ eq_refl) as [sched Hs]. by exists (it :: sched).
Qed.
End workers.

Section goroutine.
Context {V S : Type} `{MergedView V} (parallelism : nat) (bsched : list label) (observer : Observer S) (ctx : context) (jobs : list (submitJob * nat)) (v : V).

(** The batcher of [NewBestBatcher] has no auto-flush. *)
Notation bo := (goroutine_batcher parallelism 0 (λ _, bsched)).
Notation pool := (pool (B := gbatcher V) (S := S)).

Lemma queue_returns ended op b : is_Some (bo_Submit bo ended op b).
Proof. simpl. unfold gb_Submit, gb_queue. destruct (gq_closed b); by eexists. Qed.

Definition count (d : Disposition) (l : list submitJob) : nat := length (filter (λ j, sj_disp j = d) l).

Lemma count_perm d l l' : l ≡ₚ l' → count d l = count d l'.
Proof. intros Hp. unfold count. by rewrite Hp. Qed.

(** With a context that lives, each job is in the queue of the batcher or pending. *)
Definition pool_live (p : pool) : Prop :=
  idle_batcher v 0 (po_batcher p) ∧ po_submitErrors p = 0%Z
  ∧ ∃ done, done ++ omap pending (po_jobs p) ≡ₚ jobs.*1 ∧ gq_pending (po_batcher p) = sj_op <$> done
    ∧ po_deleted p = Z.of_nat (count DispositionDeleted done) ∧ po_collapsed p = Z.of_nat (count DispositionCollapsed done).

Lemma pool_live_init s : pool_live (pool_init jobs (gb_New v) s).
Proof.
  split; [done |]. split; [done |]. exists []. split_and!; try done. simpl. induction jobs as [|[j k] l IH]; simpl; [done |]. by rewrite IH.
Qed.

Lemma pool_live_step p it : (∀ k, ctx k = None) → pool_live p → pool_live (pool_step bo observer ctx p it).
Proof.
  intros Hc (Hv & He & done & Hp & Hq & Hd & Hk). destruct it as [i t]. unfold pool_step. destruct (po_jobs p !! i) as [[j k|j k|ev|]|] eqn:Hi.
  - case_decide; [| by split; [| split; [| exists done]]]. rewrite Hc. split; [done |]. split; [done |]. exists done.
    simpl. rewrite (omap_insert_same pending _ _ _ _ Hi) by done. by split_and!.
  - case_decide; [| by split; [| split; [| exists done]]]. unfold submit_job. simpl. destruct (po_batcher p) as [q cl w fl] eqn:Eb. destruct Hv as (B1 & B2 & B3). simpl in *. subst cl.
    unfold gb_Submit, gb_queue. simpl.
    pose proof (omap_insert_none pending _ _ _ (JObserve (sj_ev j)) j Hi eq_refl eq_refl) as Hperm.
    assert ((done ++ [j]) ++ omap pending (<[i := JObserve (sj_ev j)]> (po_jobs p)) ≡ₚ jobs.*1) as Hp'.
    { rewrite <- Hp, Hperm. by rewrite <- app_assoc. }
    destruct (sj_disp j) eqn:Ed; (split; [done |]); (split; [done |]); exists (done ++ [j]); simpl; unfold count in *;
      rewrite !filter_app, !length_app, !filter_cons, fmap_app, Ed, Hq; simpl; rewrite ?filter_nil; simpl; split_and!; try done; lia.
  - split; [done |]. split; [done |]. exists done. simpl. rewrite (omap_insert_same pending _ _ _ _ Hi) by done. by split_and!.
  - by split; [| split; [| exists done]].
  - by split; [| split; [| exists done]].
Qed.

Lemma pool_live_run sched p : (∀ k, ctx k = None) → pool_live p → pool_live (pool_run bo observer ctx sched p).
Proof. intros Hc. revert p. induction sched as [|it sched IH]; intros p Hp; [done |]. by apply IH, pool_live_step. Qed.

Lemma finished_pending (p : pool) : pool_finished p = true → omap pending (po_jobs p) = [].
Proof.
  unfold pool_finished. induction (po_jobs p) as [|ph l IH]; [done |]. simpl. intros [Hd Hl]%andb_true_iff. by destruct ph; [..| apply IH].
Qed.

(** In any case a job in the queue was sent while the context lived. *)
Definition pool_safe (p : pool) : Prop :=
  idle_batcher v 0 (po_batcher p)
  ∧ (∀ op, op ∈ gq_pending (po_batcher p) → ∃ j k, (j, k) ∈ jobs ∧ op = sj_op j ∧ ctx k = None)
  ∧ ∀ ph, ph ∈ po_jobs p → match ph with JQueued j k => (j, k) ∈ jobs | JSubmit j _ => ∃ k, (j, k) ∈ jobs ∧ ctx k = None | _ => True end.

Lemma pool_safe_init s : pool_safe (pool_init jobs (gb_New v) s).
Proof.
  split; [done |]. split; [set_solver |]. simpl. intros ph ([j k] & -> & Hj)%list_elem_of_fmap. done.
Qed.

Lemma elem_of_insert_list {A} (l : list A) (i : nat) x y : y ∈ <[i := x]> l → y = x ∨ y ∈ l.
Proof.
  intros [j Hj]%list_elem_of_lookup. destruct (decide (i = j)) as [->|Hne].
  - apply list_lookup_insert_Some in Hj as [(_ & <- & _)|[? _]]; [by left | done].
  - rewrite list_lookup_insert_ne in Hj by done. right. apply list_elem_of_lookup. by eexists.
Qed.

Lemma pool_safe_step p it : ends_once ctx → pool_safe p → pool_safe (pool_step bo observer ctx p it).
Proof.
  intros Hends (Hv & Hq & Hph). destruct it as [i t]. unfold pool_step. destruct (po_jobs p !! i) as [[j k|j k|ev|]|] eqn:Hi; try (by split_and!).
  - case_decide as Hle; [| by split_and!]. apply list_elem_of_lookup_2, Hph in Hi. destruct (ctx t) eqn:Ht.
    + split_and!; [done | done |]. simpl. intros ph [->|Hin]%elem_of_insert_list; [done | by apply Hph].
    + split_and!; [done | done |]. simpl. intros ph [->|Hin]%elem_of_insert_list; [| by apply Hph]. exists k. split; [done |].
      apply eq_None_not_Some. intros Hs. destruct (Hends k t Hle Hs) as [? ?]. congruence.
  - case_decide as Hle; [| by split_and!]. apply list_elem_of_lookup_2, Hph in Hi as (k0 & Hj & Hk0). unfold submit_job. simpl.
    destruct (po_batcher p) as [q cl w fl] eqn:Eb. destruct Hv as (B1 & B2 & B3). simpl in *. subst cl. unfold gb_Submit, gb_queue. simpl.
    assert (∀ op, op ∈ q ++ [sj_op j] → ∃ j k, (j, k) ∈ jobs ∧ op = sj_op j ∧ ctx k = None) as Hq'.
    { intros op [Hop| ->%list_elem_of_singleton]%elem_of_app; [by apply Hq | by exists j, k0]. }
    destruct (sj_disp j); split_and!; try done; simpl; (intros ph [->|Hin]%elem_of_insert_list; [done | by apply Hph]).
  - split_and!; [done | done |]. simpl. intros ph [->|Hin]%elem_of_insert_list; [done | by apply Hph].
Qed.

Lemma pool_safe_run sched p : ends_once ctx → pool_safe p → pool_safe (pool_run bo observer ctx sched p).
Proof. intros Hc. revert p. induction sched as [|it sched IH]; intros p Hp; [done |]. by apply IH, pool_safe_step. Qed.
End goroutine.

(** ** The disk *)

(** The tree is what the disk shows below [r], and [r] is in directories. *)
Definition disk_at (r : list string) (t : tree) (m : disk) : Prop :=
  clean_disk m ∧ (∀ p, p ≠ [] → Forall seg p → m !! abs_path (r ++ p) = tree_info <$> lookup_path t p)
  ∧ (∀ q i, q `prefix_of` r → m !! abs_path q = Some i → fi_IsDir i = true).

Lemma under_abs_any p q : q ≠ [] → Forall seg p → Forall seg q → isPathUnder (abs_path p) (abs_path q) = true ↔ q `prefix_of` p.
Proof.
  intros Nq Sp Sq. destruct (decide (p = [])) as [->|Np]; [| by apply under_abs]. split; [| by intros ->%prefix_nil_inv].
  intros Hu%under_length. exfalso. assert (rel_path q ≠ EmptyString) as Hne.
  { destruct q as [|x q]; [done |]. apply rel_path_ne. by apply Forall_cons in Sq as [? _]. }
  assert (0 < String.length (rel_path q)) by (destruct (rel_path q); [done | simpl; lia]).
  destruct Hu as [E|E]; [apply (f_equal String.length) in E |]; unfold abs_path in E; rewrite !str_length_app in E; simpl in E; lia.
Qed.

Section disk.
Context (flt : Filter) (info : FileInfo) (es : list (string * tree)) (r : list string) (m : disk).
Notation t := (Dir info es).
Context (Wt : wf_tree t) (Sr : Forall seg r) (Hm : disk_at r t m).

Definition pruned_op (qb : list string * bool) : BatchOp := sj_op (job qb.1 qb.2).

Lemma pruned_op_path q b : (q, b) ∈ entries_pruned flt [] es →
  q ≠ [] ∧ Forall seg q ∧ abs_op r (pruned_op (q, b)) = abs_path (r ++ q) ∧ ∃ t', lookup_path t q = Some t' ∧ b = is_dir t'.
Proof.
  intros (q' & t' & Nq & Hl & E & _)%(root_pruned flt info es _ Wt). injection E as <- ->. destruct (lookup_path_wf _ _ _ Wt Hl) as [_ Sq].
  split_and!; [done | done | by apply join_abs_rel |]. by exists t'.
Qed.

Lemma pruned_tame q b : (q, b) ∈ entries_pruned flt [] es → tame r m (pruned_op (q, b)).
Proof.
  intros Hq. destruct (pruned_op_path q b Hq) as (Nq & Sq & Ea & t' & Hl & ->). destruct Hm as (Hc & Hat & Hr).
  unfold tame. rewrite Ea. assert (r ++ q ≠ []) as Nrq by by destruct r. assert (Forall seg (r ++ q)) as Srq by by apply Forall_app.
  split_and!; [| | by destruct (is_dir t')].
  - apply not_true_iff_false. intros (k & i & Hk & Hu & Hd)%blocked_spec. destruct (Hc k i Hk) as (x & Sx & ->).
    unfold strictly_under in Hu. apply andb_true_iff in Hu as [Hu Hne%negb_true_iff%bool_decide_eq_false].
    destruct (decide (x = [])) as [->|Nx]; [rewrite (Hr [] i) in Hd; [done | apply prefix_nil | done] |].
    apply under_abs_any in Hu as [y Ey]; [| done..]. destruct (decide (length x ≤ length r)) as [Hle|Hgt].
    + rewrite (Hr x i) in Hd; [done | | done]. exists (drop (length x) r). apply (f_equal (take (length r))) in Ey.
      rewrite take_app_length, take_app_ge in Ey by done. rewrite Ey at 1. f_equal.
      apply (f_equal (drop (length x))) in Ey. by rewrite drop_app_length in Ey.
    + assert (∃ d, x = r ++ d ∧ q = d ++ y) as (d & -> & ->).
      { exists (drop (length r) x). apply app_eq_inv in Ey as [(k' & E1 & E2)|(k' & E1 & E2)].
        - subst r. rewrite length_app in Hgt. destruct k'; [| simpl in Hgt; lia]. rewrite app_nil_r in *. subst y. by rewrite drop_ge, app_nil_r.
        - subst x. by rewrite drop_app_length. }
      destruct y as [|n y]; [by rewrite app_nil_r in Hne |]. destruct (lookup_path_dir t d n y) as (j & es' & Hld); [by rewrite Hl |].
      destruct d as [|a d]; [by rewrite app_nil_r in Hgt |]. apply Forall_app in Sx as [_ Sd]. rewrite Hat, Hld in Hk by done. injection Hk as <-.
      destruct (lookup_path_wf _ _ _ Wt Hld) as [Wd _]. pose proof (wf_is_dir _ Wd) as Ed. simpl in Ed, Hd. congruence.
  - rewrite Hat, Hl by done. simpl. intros [Hk|?]; [| done]. destruct t' as [j|]; [| done].
    apply not_true_iff_false. intros (k & i & Hk' & Hu)%has_children_spec. destruct (Hc k i Hk') as (x & Sx & ->).
    unfold strictly_under in Hu. apply andb_true_iff in Hu as [Hu Hne%negb_true_iff%bool_decide_eq_false].
    apply under_abs_any in Hu as [y ->]; [| done..]. destruct y as [|n y]; [by rewrite app_nil_r in Hne |].
    rewrite <- app_assoc in Hk', Sx. apply Forall_app in Sx as [_ Sx]. rewrite Hat in Hk' by (by destruct q || done).
    by rewrite lookup_path_app, Hl in Hk'.
Qed.

(** A removal from the list touches no spared entry, and nothing outside. *)
Lemma pruned_spares ops p : (∀ op, op ∈ ops → ∃ q b, (q, b) ∈ entries_pruned flt [] es ∧ op = pruned_op (q, b)) →
  Forall seg p → spared flt t p → swept r ops m !! abs_path (r ++ p) = m !! abs_path (r ++ p).
Proof.
  intros Hops Sp Hs. rewrite swept_lookup. destruct (existsb _ ops) eqn:Hx; [exfalso | done].
  apply existsb_exists_elem in Hx as (op & Hop & Hu). destruct (Hops op Hop) as (q & b & Hq & ->).
  destruct (pruned_op_path q b Hq) as (Nq & Sq & Ea & _). rewrite Ea in Hu.
  apply under_abs_any in Hu as Hpre%prefix_app_inv; [| by destruct r | by apply Forall_app | by apply Forall_app].
  pose proof (spared_keeps flt t p Hs) as [_ (t' & Hl & _)]. assert (p ≠ []) as Np by by destruct Hs.
  by apply (proj1 (spared_not_pruned flt info es p Wt Np (ex_intro _ t' Hl)) Hs q b Hq).
Qed.

Lemma pruned_elsewhere ops x : (∀ op, op ∈ ops → ∃ q b, (q, b) ∈ entries_pruned flt [] es ∧ op = pruned_op (q, b)) →
  Forall seg x → ¬ (r `prefix_of` x ∧ x ≠ r) → swept r ops m !! abs_path x = m !! abs_path x.
Proof.
  intros Hops Sx Hx. rewrite swept_lookup. destruct (existsb _ ops) eqn:Ho; [exfalso | done].
  apply existsb_exists_elem in Ho as (op & Hop & Hu). destruct (Hops op Hop) as (q & b & Hq & ->).
  destruct (pruned_op_path q b Hq) as (Nq & Sq & Ea & _). rewrite Ea in Hu.
  apply under_abs_any in Hu as [y ->]; [| by destruct r | done | by apply Forall_app].
  apply Hx. rewrite <- app_assoc. split; [by apply prefix_app_r |]. intros E.
  apply (f_equal length) in E. rewrite !length_app in E. destruct q; [done |]. simpl in E. lia.
Qed.

(** All the removals leave exactly what is spared. *)
Lemma pruned_leaves ops p i : ops ≡ₚ pruned_op <$> entries_pruned flt [] es → p ≠ [] → Forall seg p →
  swept r ops m !! abs_path (r ++ p) = Some i ↔ spared flt t p ∧ ∃ t', lookup_path t p = Some t' ∧ i = tree_info t'.
Proof.
  intros Hperm Np Sp. destruct Hm as (Hc & Hat & Hr). rewrite (swept_perm r _ _ m Hperm). split.
  - rewrite swept_lookup. destruct (existsb _ _) eqn:Hx; [done |]. rewrite Hat by done. intros Hf. destruct (lookup_path t p) as [t'|] eqn:Hl; [| done]. injection Hf as <-.
    split; [| by exists t']. apply (spared_not_pruned flt info es p Wt Np ltac:(by eexists)). intros q b Hq Hpre.
    apply not_true_iff_false in Hx. apply Hx, existsb_exists_elem. exists (pruned_op (q, b)). split; [by apply list_elem_of_fmap_2 |].
    destruct (pruned_op_path q b Hq) as (Nq & Sq & -> & _). apply under_abs_any; [by destruct r | by apply Forall_app | by apply Forall_app |].
    by apply prefix_app.
  - intros (Hs & t' & Hl & ->). rewrite pruned_spares; [by rewrite Hat, Hl | | done | done].
    intros op ([q b] & -> & Hq)%list_elem_of_fmap. by exists q, b.
Qed.
End disk.

(** ** Runs *)

Section runs.
Context {S : Type} (NewPatternFilter : list string → list string → list string → bool → Filter).
Context (ReadDir : string → result (list DirEntry)) (Stat Lstat : string → result FileInfo) (mkview : string → result FSMergedView).
Context (send : nat → bool) (cfg : config FSMergedView (gbatcher FSMergedView) S) (targetDir : string) (o : S).
Context (info : FileInfo) (es : list (string * tree)) (r : list string) (m : disk) (fuel parallelism : nat).
Notation t := (Dir info es).
Notation flt := (pruner_filter NewPatternFilter cfg).

(** The target is a directory that can be read, with the required paths. *)
Definition ready : Prop :=
  targetDir ≠ EmptyString ∧ (∃ i, Stat targetDir = Ok i ∧ fi_IsDir i = true) ∧ checkRequiredPaths Lstat targetDir flt = None
  ∧ mkview targetDir = Ok (mkFSView (abs_path r) m)
  ∧ wf_tree t ∧ depth t ≤ fuel ∧ on_disk (λ a b, Ok (path_join [a; b])) ReadDir Stat (cf_followSymlinks cfg) targetDir [] t
  ∧ Forall seg r ∧ disk_at r t m.

(** [Prune] with a [GoroutineBatcher] *)
Definition prune_run (ctx : context) (sched : list (nat * nat)) (bsched : list label) :=
  Prune NewPatternFilter ReadDir Stat Lstat mkview ctx send fuel sched (WithBatcher (Some (goroutine_batcher parallelism 0 (λ _, bsched))) cfg) targetDir o.

Context (Hready : ready).

(** A run is the walk, the workers on its jobs, and the batch. *)
Lemma prune_run_eq ctx : ends_once ctx → ∃ b s s0, walked ctx (entries_pruned flt [] es) (entries_kept flt [] es) (entries_keep flt [] es) b (mkWState 0 [] 0 [] []) s
  ∧ ∀ sched bsched,
      let bo := goroutine_batcher (V := FSMergedView) parallelism 0 (λ _, bsched) in
      let p := pool_run bo (cf_observer cfg) ctx sched (pool_init (ws_jobs s) (gb_New (view r m)) s0) in
      let bt := batch_run parallelism bsched (batch_init (gq_pending (po_batcher p)) (gq_view (po_batcher p))) in
      gq_closed (po_batcher p) = false →
      prune_run ctx sched bsched =
        if pool_finished p then
          match batch_result bt with
          | None => None
          | Some e =>
              Some (Ok (mkPruned (ws_kept s) (po_deleted p) (po_collapsed p) (po_submitErrors p)
                match e with
                | Some e => if isContextErr e then joinErrors (ws_errs s) else errors_join (option_list (joinErrors (ws_errs s)) ++ [EWrap ["batcher close"] e])
                | None => joinErrors (ws_errs s)
                end), Some (mkGB [] true (bt_view bt) (gq_flushes (po_batcher p) + 1)), po_observed p)
          end
        else None.
Proof.
  intros Hends. destruct Hready as (Hne & (i & Hs & Hi) & Hreq & Hv & Hw & Hd & Hdisk & Sr & Hm).
  destruct (walkDir_walks ReadDir Stat ctx send targetDir flt (cf_followSymlinks cfg) Hends t fuel [] info es eq_refl Hd Hw (Forall_nil_2 _) Hdisk (mkWState 0 [] 0 [] []))
    as (b & s & E & Hwalk).
  exists b, s, (foldl (λ o ev, cf_observer cfg ev o) o (ws_events s)). split; [done |]. intros sched bsched bo p bt Hopen.
  unfold prune_run, Prune. rewrite decide_False by done. rewrite Hs, Hi. simpl negb. cbv iota.
  change (pruner_filter NewPatternFilter (WithBatcher (Some (goroutine_batcher parallelism 0 (λ _, bsched))) cfg)) with flt. rewrite Hreq, Hv. simpl.
  unfold prune_walk. simpl cf_followSymlinks. simpl cf_batcherFactory. simpl cf_observer.
  change (rel_path []) with EmptyString in E. rewrite E. change (mkFSView (abs_path r) m) with (view r m).
  fold bo. fold p. destruct (pool_finished p) eqn:Hf; simpl negb; cbv iota; [| done].
  simpl bo_Close. unfold gb_Close, gb_Flush. rewrite Hopen. fold bt. destruct (batch_result bt) as [e|]; [| done]. simpl. done.
Qed.

Lemma jobs_of_ops l : sj_op <$> jobs_of l = pruned_op <$> l.
Proof. unfold jobs_of. rewrite <- list_fmap_compose. apply list_fmap_ext. by intros i' [q b] _. Qed.

Lemma count_jobs d (l : list (list string * bool)) : count d (jobs_of l) = length (filter (λ qb, sj_disp (job qb.1 qb.2) = d) l).
Proof.
  unfold count. induction l as [|[q b] l IH]; [done |]. change (jobs_of ((q, b) :: l)) with (job q b :: jobs_of l).
  rewrite !filter_cons. simpl fst. simpl snd. destruct (decide _); simpl; by rewrite IH.
Qed.

(** The jobs of a run whose context lives *)
Lemma live_jobs b s : walked ctx_background (entries_pruned flt [] es) (entries_kept flt [] es) (entries_keep flt [] es) b (mkWState 0 [] 0 [] []) s →
  (ws_jobs s).*1 = jobs_of (entries_pruned flt [] es) ∧ ws_kept s = Z.of_nat (length (entries_kept flt [] es)) ∧ ws_errs s = [].
Proof.
  intros (He & _ & new & kn & Hj & Hk & _ & _ & [(_ & Hn & -> & _)|((k & _ & Hc) & _)]); [| by destruct Hc].
  rewrite Hj, Hk, He. simpl. split_and!; [done | lia | done].
Qed.

(** C31: A run of the pruner whose context lives ends, however the goroutines that submit and
    the ones that remove are scheduled, reports no error, and leaves of the target exactly what
    the filter spares: the accepted files in accepted directories, and the directories that are
    accepted as files would be or hold something spared.  Nothing outside the target changes.
    The result counts the files kept, and the files and directories removed. *)
Theorem prune_leaves_spared : 0 < parallelism →
  (∃ sched bsched, is_Some (prune_run ctx_background sched bsched))
  ∧ ∀ sched bsched x, alive bsched → prune_run ctx_background sched bsched = Some x → ∃ res m' o',
      x = (Ok res, Some (mkGB [] true (mkFSView (abs_path r) m') 1), o') ∧ pd_Err res = None ∧ pd_SubmitErrors res = 0%Z
      ∧ (∃ ks, NoDup ks ∧ pd_Kept res = Z.of_nat (length ks) ∧ ∀ p, p ∈ ks ↔ p ≠ [] ∧ spared flt t p ∧ ∃ j, lookup_path t p = Some (Leaf j))
      ∧ (∃ rs : list (list string * bool), NoDup rs
          ∧ (∀ p b, (p, b) ∈ rs ↔ p ≠ [] ∧ visited flt p ∧ ¬ spared flt t p ∧ ∃ t', lookup_path t p = Some t' ∧ b = is_dir t')
          ∧ pd_Deleted res = Z.of_nat (length (filter (λ pb, pb.2 = false) rs)) ∧ pd_Collapsed res = Z.of_nat (length (filter (λ pb, pb.2 = true) rs)))
      ∧ (∀ p i, p ≠ [] → Forall seg p → m' !! abs_path (r ++ p) = Some i ↔ spared flt t p ∧ ∃ t', lookup_path t p = Some t' ∧ i = tree_info t')
      ∧ ∀ x, Forall seg x → ¬ (r `prefix_of` x ∧ x ≠ r) → m' !! abs_path x = m !! abs_path x.
Proof.
  intros Hp. pose proof Hready as (_ & _ & _ & _ & Hw & _ & _ & Sr & Hm).
  destruct (prune_run_eq ctx_background) as (b & s & s0 & Hwalk & Hrun); [intros k l _ [? ?]; done |].
  destruct (live_jobs b s Hwalk) as (Hjobs & Hkept & Herrs). split.
  - destruct (pool_terminates (goroutine_batcher (V := FSMergedView) parallelism 0 (λ _, [])) (cf_observer cfg) ctx_background
      (queue_returns parallelism []) (pool_init (ws_jobs s) (gb_New (view r m)) s0)) as [sched Hsched].
    set (p := pool_run _ _ _ _ _) in Hsched.
    destruct (pool_live_run parallelism [] (cf_observer cfg) ctx_background (ws_jobs s) (view r m) sched _ (λ _, eq_refl)
      (pool_live_init (ws_jobs s) (view r m) s0)) as [(Hopen & _ & _) _].
    destruct (batch_finishes parallelism (gq_pending (po_batcher p)) (gq_view (po_batcher p)) _ Hp (batch_inv_init parallelism _ _))
      as (bsched & _ & e & He).
    exists sched, bsched. specialize (Hrun sched bsched Hopen). rewrite Hrun.
    assert (pool_run (goroutine_batcher parallelism 0 (λ _, bsched)) (cf_observer cfg) ctx_background sched
      (pool_init (ws_jobs s) (gb_New (view r m)) s0) = p) as -> by reflexivity.
    rewrite Hsched, He. by eexists.
  - intros sched bsched x Ha Hx.
    pose proof (pool_live_run parallelism bsched (cf_observer cfg) ctx_background (ws_jobs s) (view r m) sched _ (λ _, eq_refl)
      (pool_live_init (ws_jobs s) (view r m) s0)) as ((Hopen & Hv & Hfl) & He & done & Hperm & Hq & Hd & Hc).
    specialize (Hrun sched bsched Hopen). rewrite Hrun in Hx. destruct (pool_finished _) eqn:Hf; [| done].
    rewrite (finished_pending _ Hf), app_nil_r, Hjobs in Hperm.
    set (p := pool_run _ _ _ _ _) in *.
    assert (gq_pending (po_batcher p) ≡ₚ pruned_op <$> entries_pruned flt [] es) as Hops.
    { rewrite Hq, Hperm. by rewrite jobs_of_ops. }
    pose proof (batch_run_inv parallelism (gq_pending (po_batcher p)) (gq_view (po_batcher p)) bsched _ Ha (batch_inv_init parallelism _ _)) as Hb.
    destruct (batch_result _) as [e|] eqn:Hres; [| done].
    destruct (batch_returned _ _ _ _ _ Hb Hres) as (order & errs & Hord & Hbv & Hberr & ->).
    assert (Forall (tame r m) order) as Htame.
    { rewrite Hord, Hops. apply Forall_forall. intros op ([q c] & -> & Hin)%list_elem_of_fmap. by eapply (pruned_tame flt info es). }
    rewrite Hv, (run_tame r order m Htame) in Hbv, Hberr. simpl in Hbv, Hberr. symmetry in Hberr. apply Permutation_nil in Hberr as ->. injection Hx as <-.
    eexists _, (swept r order m), _. rewrite Hfl, Hv, Hbv, Herrs. split; [done |]. simpl.
    destruct (root_NoDup flt info es Hw) as [Hnd1 Hnd2]. split_and!; [done | done | | | |].
    + exists (entries_kept flt [] es). split_and!; [done | done |]. intros q. by apply root_kept.
    + exists (entries_pruned flt [] es). split_and!; [done | | |].
      * intros q c. by apply root_pruned_spared.
      * rewrite Hd, (count_perm _ _ _ Hperm), count_jobs. f_equal. f_equal. apply list_filter_iff. intros [q []]; by split.
      * rewrite Hc, (count_perm _ _ _ Hperm), count_jobs. f_equal. f_equal. apply list_filter_iff. intros [q []]; by split.
    + intros q i Nq Sq. apply (pruned_leaves flt info es r m Hw Sr Hm order); [by rewrite Hord | done | done].
    + intros y Sy Hy. apply (pruned_elsewhere flt info es r m Hw Sr Hm); [| done | done].
      intros op. rewrite Hord, Hops. intros ([q c] & -> & Hin)%list_elem_of_fmap. by exists q, c.
Qed.

(** The jobs that were sent while a context lived *)
Lemma sent_alive ctx b s j k : walked ctx (entries_pruned flt [] es) (entries_kept flt [] es) (entries_keep flt [] es) b (mkWState 0 [] 0 [] []) s →
  (j, k) ∈ ws_jobs s → ctx k = None → ∃ q c, (q, c) ∈ entries_pruned flt [] es ∧ sj_op j = pruned_op (q, c).
Proof.
  intros (_ & _ & new & kn & Hj & _ & _ & _ & Hor). rewrite Hj. simpl. intros Hin Hc.
  assert (j ∈ jobs_of (entries_pruned flt [] es)) as Hjob.
  { destruct Hor as [(_ & <- & _)|(_ & _ & Hall)]; [by apply (list_elem_of_fmap_2 fst _ (j, k)) | by eapply Hall]. }
  apply list_elem_of_fmap in Hjob as ([q c] & -> & Hq). by exists q, c.
Qed.

(** C32: A run whose context ends at any time, however its goroutines are scheduled and whatever
    the batch still executes, removes no entry that the filter spares, and touches nothing
    outside the target: the directories whose walk was cut short are sent for removal, but
    only after the context has ended, and the workers drop them. *)
Theorem prune_cancel_safe ctx sched bsched x : ends_once ctx → prune_run ctx sched bsched = Some x →
  ∃ res m' o', x = (Ok res, Some (mkGB [] true (mkFSView (abs_path r) m') 1), o')
    ∧ (∀ p, Forall seg p → spared flt t p → m' !! abs_path (r ++ p) = m !! abs_path (r ++ p))
    ∧ ∀ x, Forall seg x → ¬ (r `prefix_of` x ∧ x ≠ r) → m' !! abs_path x = m !! abs_path x.
Proof.
  intros Hends Hx. pose proof Hready as (_ & _ & _ & _ & Hw & _ & _ & Sr & Hm).
  destruct (prune_run_eq ctx Hends) as (b & s & s0 & Hwalk & Hrun).
  pose proof (pool_safe_run parallelism bsched (cf_observer cfg) ctx (ws_jobs s) (view r m) sched _ Hends (pool_safe_init ctx (ws_jobs s) (view r m) s0)) as ((Hopen & Hv & Hfl) & Hq & _).
  specialize (Hrun sched bsched Hopen). rewrite Hrun in Hx. destruct (pool_finished _); [| done].
  set (p := pool_run _ _ _ _ _) in *. rewrite Hv in Hx.
  pose proof (batch_run_safe parallelism (gq_pending (po_batcher p)) (view r m) bsched) as [Hbv Hlog].
  destruct (batch_result _) as [e|]; [| done]. set (bt := batch_run _ _ _) in *.
  assert (∀ op, op ∈ bt_log bt → ∃ q c, (q, c) ∈ entries_pruned flt [] es ∧ op = pruned_op (q, c)) as Hops.
  { intros op Hop. destruct (Hq op) as (j & k & Hj & -> & Hk); [apply Hlog; by left |]. by apply (sent_alive ctx b s j k). }
  rewrite run_tame in Hbv.
  2: { apply Forall_forall. intros op Hop. destruct (Hops op Hop) as (q & c & Hin & ->). by eapply (pruned_tame flt info es). }
  simpl in Hbv. injection Hx as <-. rewrite Hfl, Hbv. eexists _, (swept r (bt_log bt) m), _. split; [done |]. split.
  - intros q Sq Hs. by apply (pruned_spares flt info es r m Hw Sr Hm).
  - intros y Sy Hy. by apply (pruned_elsewhere flt info es r m Hw Sr Hm).
Qed.
End runs.

(** ** Listings that fail *)

#[local] Arguments path_join _ : simpl never.
#[local] Arguments rel_path _ : simpl never.

Section unreadable.
Context (ReadDir : string → result (list DirEntry)) (Stat : string → result FileInfo) (send : nat → bool).
Context (targetRoot : string) (flt : Filter) (followSymlinks : bool).
Notation walkDir := (walkDir ReadDir Stat ctx_background send targetRoot flt followSymlinks).
Notation walk_entries := (walk_entries ctx_background send flt).

(** A walk adds to its jobs and errors. *)
Definition extends (s s' : wstate) : Prop := ws_jobs s `prefix_of` ws_jobs s' ∧ ws_errs s `prefix_of` ws_errs s'.

Lemma extends_trans s1 s2 s3 : extends s1 s2 → extends s2 s3 → extends s1 s3.
Proof. intros [? ?] [? ?]. split; by etrans. Qed.

Lemma walk_entries_extends F relDir : (∀ d s r s', F d s = Some (r, s') → extends s s') →
  ∀ entries k s r s', walk_entries F relDir entries k s = Some (r, s') → extends s s'.
Proof.
  intros HF. induction entries as [|e entries IH]; intros k s r s'; cbn [DpPruner.walk_entries]; [by intros [= <- <-] |].
  unfold ws_poll. simpl. destruct (de_Info e) as [i|err].
  2: { intros H%IH. eapply extends_trans; [| exact H]. split; simpl; [done | by apply prefix_app_r]. }
  destruct (Include _ _ (fi_IsDir i)); simpl negb; cbv iota.
  - destruct (fi_IsDir i); simpl negb; cbv iota; [| by intros H%IH].
    destruct (F _ _) as [[ck s1]|] eqn:EF; [| done]. apply HF in EF. destruct (_ || ck); intros H%IH; eapply extends_trans; try exact H; [done |].
    eapply extends_trans; [exact EF |]. split; simpl; [by apply prefix_app_r | done].
  - intros H%IH. eapply extends_trans; [| exact H]. destruct (fi_IsDir i); split; simpl; (by apply prefix_app_r || done).
Qed.

Lemma walkDir_extends fuel relDir s r s' : walkDir fuel relDir s = Some (r, s') → extends s s'.
Proof.
  revert relDir s r s'. induction fuel as [|fuel IH]; intros relDir s r s'; cbn [DpPruner.walkDir]; [done |].
  unfold ws_poll. simpl. destruct (readEntries _ _ _ _) as [entries|e].
  - intros H. apply walk_entries_extends in H; [done | exact IH].
  - intros [= <- <-]. split; simpl; [done | by apply prefix_app_r].
Qed.

Lemma walk_entries_unreadable fuel p n pre e post i err k s r s' :
  Forall seg p → de_Name e = n → de_Info e = Ok i → fi_IsDir i = true →
  Include flt (rel_path (p ++ [n])) true = true → Include flt (rel_path (p ++ [n])) false = false →
  readEntries ReadDir Stat followSymlinks (path_join [targetRoot; rel_path (p ++ [n])]) = Err err →
  walk_entries (walkDir fuel) (rel_path p) (pre ++ e :: post) k s = Some (r, s') →
  (∃ k, (job (p ++ [n]) true, k) ∈ ws_jobs s') ∧ EWrap ["read dir"; rel_path (p ++ [n])] err ∈ ws_errs s'.
Proof.
  intros Sp Hn Hi Hd Hinc Hfile Hfail. revert k s. induction pre as [|e' pre IH]; intros k s; cbn [app DpPruner.walk_entries]; unfold ws_poll; simpl.
  - rewrite Hi, Hd, Hn. assert (joinRel (rel_path p) n = rel_path (p ++ [n])) as -> by apply (DsClassify.joinRel p n Sp). rewrite Hinc, Hfile. simpl.
    destruct fuel as [|fuel]; cbn [DpPruner.walkDir]; [done |]. unfold ws_poll. simpl. rewrite Hfail. intros H.
    apply walk_entries_extends in H as [[j Hj] [w Hw]]; [| apply (walkDir_extends (S fuel))]. rewrite Hj, Hw. simpl. split.
    + eexists. apply elem_of_app. left. apply elem_of_app. right. by left.
    + apply elem_of_app. left. apply elem_of_app. right. by left.
  - destruct (de_Info e') as [j|]; [| apply IH]. destruct (negb _); [destruct (fi_IsDir j); apply IH |].
    destruct (negb _); [apply IH |]. destruct (walkDir _ _ _) as [[ck s1]|]; [| done]. destruct (_ || ck); apply IH.
Qed.

(** A directory in the target that the filter lets the walk enter, without accepting it
    itself, is sent for removal with everything in it when its listing fails, and the error of
    the listing is only reported beside it: the walk answers for it as for an empty one. *)
Theorem prune_unreadable fuel p n pre e post i err s r s' :
  readEntries ReadDir Stat followSymlinks (path_join [targetRoot; rel_path p]) = Ok (pre ++ e :: post) → Forall seg p →
  de_Name e = n → de_Info e = Ok i → fi_IsDir i = true →
  Include flt (rel_path (p ++ [n])) true = true → Include flt (rel_path (p ++ [n])) false = false →
  readEntries ReadDir Stat followSymlinks (path_join [targetRoot; rel_path (p ++ [n])]) = Err err →
  walkDir fuel (rel_path p) s = Some (r, s') →
  (∃ k, (job (p ++ [n]) true, k) ∈ ws_jobs s') ∧ EWrap ["read dir"; rel_path (p ++ [n])] err ∈ ws_errs s'.
Proof.
  intros Hread Sp Hn Hi Hd Hinc Hfile Hfail. destruct fuel as [|fuel]; cbn [DpPruner.walkDir]; [done |]. unfold ws_poll. simpl. rewrite Hread.
  by apply walk_entries_unreadable with i.
Qed.
End unreadable.

(** ** Witnesses *)

Section sample.
Let file (size : Z) : FileInfo := mkInfo 420 size 0 None.
Let dir : FileInfo := mkInfo (ModeDir + 493) 0 0 None.
Let entry (nt : string * tree) : DirEntry := mkEntry nt.1 (mode_Type (fi_Mode (tree_info nt.2))) (Ok (tree_info nt.2)).

(** Some files, which any directory can hold *)
Definition files_filter (incl excl required : list string) (wildcards : bool) : Filter :=
  {| Include p isDir := isDir || bool_decide (p ∈ incl); RequiredPaths := required |}.

Definition prune_es : list (string * tree) :=
  [("a.go", Leaf (file 3)); ("d", Dir dir [("x", Leaf (file 2))]); ("s", Dir dir [("b.go", Leaf (file 4))])].
Definition prune_tree : tree := Dir dir prune_es.

Definition prune_ReadDir (p : string) : result (list DirEntry) :=
  if decide (p = "/m") then Ok (entry <$> prune_es)
  else if decide (p = "/m/d") then Ok (entry <$> [("x", Leaf (file 2))])
  else if decide (p = "/m/s") then Ok (entry <$> [("b.go", Leaf (file 4))])
  else Err fs_ErrNotExist.

Definition prune_Stat (p : string) : result FileInfo := if decide (p = "/m") then Ok dir else Err fs_ErrNotExist.

Definition prune_entries : list (list string * FileInfo) :=
  [(["a.go"], file 3); (["d"], dir); (["d"; "x"], file 2); (["s"], dir); (["s"; "b.go"], file 4)].
Definition prune_disk : disk :=
  disk_of ["m"] prune_entries.

Definition prune_cfg : config FSMergedView (gbatcher FSMergedView) (list Event) :=
  New (goroutine_batcher 2 0 (λ _, [])) 4 [WithIncludePatterns ["a.go"; "s/b.go"]; WithAllowWildcards true; WithWorkers 2; WithObserver (Some (λ ev l, l ++ [ev]))].

Lemma prune_entries_seg : Forall (λ pi, Forall seg pi.1) prune_entries.
Proof. apply (bool_decide_unpack _). vm_compute. exact I. Defined.

(** A path that is neither in the sample nor in its disk. *)
Ltac absent_here :=
  simpl; repeat (rewrite decide_False by congruence; simpl); unfold prune_entries; simpl; repeat (rewrite bool_decide_eq_false_2 by congruence; simpl); done.

Lemma prune_disk_at : disk_at ["m"] prune_tree prune_disk.
Proof.
  assert (Forall seg ["m"]) as Sm by (apply (bool_decide_unpack _); vm_compute; exact I). split; [| split].
  - apply disk_of_clean; [done | apply prune_entries_seg].
  - intros p Np Sp. unfold prune_disk. rewrite disk_of_lookup; [| done | apply prune_entries_seg | done].
    destruct p as [|n q]; [done |]. clear Np Sp.
    destruct (decide (n = "a.go")) as [->|Ha]; [destruct q; [done | absent_here] |].
    destruct (decide (n = "d")) as [->|Hd].
    { destruct q as [|x q]; [done |]. destruct (decide (x = "x")) as [->|Hx]; [destruct q; [done | absent_here] | absent_here]. }
    destruct (decide (n = "s")) as [->|Hs]; [| absent_here].
    destruct q as [|x q]; [done |]. destruct (decide (x = "b.go")) as [->|Hx]; [destruct q; [done | absent_here] | absent_here].
  - intros q i Hq Hi. destruct q as [|x q].
    + vm_compute in Hi. discriminate Hi.
    + apply prefix_cons_inv_1 in Hq as Ex. apply prefix_cons_inv_2, prefix_nil_inv in Hq. subst x q. vm_compute in Hi. discriminate Hi.
Defined.

Definition prune_view (d : string) : result FSMergedView := Ok (mkFSView (abs_path ["m"]) prune_disk).

Lemma prune_ready : ready files_filter prune_ReadDir prune_Stat prune_Stat prune_view prune_cfg "/m" dir prune_es ["m"] prune_disk 3.
Proof.
  split; [discriminate |]. split; [by eexists |]. split; [reflexivity |]. split; [reflexivity |].
  split; [unfold prune_es; wf_sample |]. split; [apply Nat.leb_le; vm_compute; reflexivity |]. split; [unfold prune_es; disk_sample |].
  split; [apply (bool_decide_unpack _); vm_compute; exact I | apply prune_disk_at].
Defined.

Definition prune_sched : list (nat * nat) := i ← seq 0 2; replicate 3 (i, 100).
Definition prune_bsched : list label := replicate 8 (LMain false) ++ [LWorker 1; LWorker 1; LWorker 0; LWorker 0] ++ replicate 4 (LMain false).
End sample.

Notation sample_prune := (prune_run files_filter prune_ReadDir prune_Stat prune_Stat prune_view (λ _, true) prune_cfg "/m" [] 3 2).

(** The two accepted files and the directory of one are left. *)
Lemma prune_leaves_spared_witness :
  ∃ res m' o', sample_prune ctx_background prune_sched prune_bsched = Some (Ok res, Some (mkGB [] true (mkFSView (abs_path ["m"]) m') 1), o')
    ∧ pd_Err res = None ∧ m' !! abs_path ["m"; "d"] = None ∧ is_Some (m' !! abs_path ["m"; "s"; "b.go"]).
Proof.
  destruct (prune_leaves_spared files_filter prune_ReadDir prune_Stat prune_Stat prune_view (λ _, true) prune_cfg "/m" []
    _ _ ["m"] prune_disk 3 2 prune_ready) as [_ H]; [lia |].
  assert (is_Some (sample_prune ctx_background prune_sched prune_bsched)) as [x E] by (vm_compute; eexists; reflexivity).
  destruct (H prune_sched prune_bsched x) as (res & m' & o' & -> & Herr & _ & _ & _ & Hin & _).
  - unfold alive. apply (bool_decide_unpack _). vm_compute. exact I.
  - exact E.
  - exists res, m', o'. split; [exact E |]. split; [exact Herr |]. clear E. split.
    + destruct (m' !! abs_path ["m"; "d"]) as [i|] eqn:Hd; [exfalso | reflexivity].
      apply (Hin ["d"] i) in Hd as [Hs _]; [| discriminate | apply (bool_decide_unpack _); vm_compute; exact I].
      apply spared_keeps in Hs as [_ (t' & [= <-] & Hk)]. vm_compute in Hk. discriminate Hk.
    + eexists. apply (Hin ["s"; "b.go"]); [discriminate | apply (bool_decide_unpack _); vm_compute; exact I |].
      split; [| eexists; split; reflexivity]. eapply keeps_spared; [discriminate | | reflexivity | | reflexivity].
      * apply wf_Leaf. reflexivity.
      * apply visited_snoc with (p := ["s"]); [discriminate |]. split; [apply visited_one | reflexivity].
Defined.

(** The context ends in the directory [s], before its file is kept; nothing is removed. *)
Lemma prune_cancel_safe_witness :
  ∃ res m' o', sample_prune (λ k, if decide (k < 7) then None else Some ctx_Canceled) prune_sched prune_bsched
      = Some (Ok res, Some (mkGB [] true (mkFSView (abs_path ["m"]) m') 1), o')
    ∧ m' !! abs_path ["m"; "s"; "b.go"] = prune_disk !! abs_path ["m"; "s"; "b.go"].
Proof.
  set (ctx := λ k : nat, if decide (k < 7) then None else Some ctx_Canceled).
  assert (ends_once ctx) as Hends.
  { intros k l Hkl [e He]. unfold ctx in *. destruct (decide (k < 7)); [discriminate He |]. rewrite decide_False by lia. eexists. reflexivity. }
  assert (is_Some (sample_prune ctx prune_sched prune_bsched)) as [x E] by (vm_compute; eexists; reflexivity).
  destruct (prune_cancel_safe files_filter prune_ReadDir prune_Stat prune_Stat prune_view (λ _, true) prune_cfg "/m" []
    _ _ ["m"] prune_disk 3 2 prune_ready ctx prune_sched prune_bsched x Hends E) as (res & m' & o' & -> & Hs & _).
  exists res, m', o'. split; [exact E |]. apply (Hs ["s"; "b.go"]); [apply (bool_decide_unpack _); vm_compute; exact I |].
  eapply keeps_spared; [discriminate | | reflexivity | | reflexivity].
  - apply wf_Leaf. reflexivity.
  - apply visited_snoc with (p := ["s"]); [discriminate |]. split; [apply visited_one | reflexivity].
Defined.

(** When the listing of [s] fails, the accepted file in it is removed. *)
Lemma prune_unreadable_witness :
  let RD p := if decide (p = "/m/s") then Err (ESentinel "input/output error") else prune_ReadDir p in
  ∃ s, (∃ k, (job ["s"] true, k) ∈ ws_jobs s)
    ∧ walkDir RD prune_Stat ctx_background (λ _, true) "/m" (pruner_filter files_filter prune_cfg) false 3 EmptyString (mkWState 0 [] 0 [] []) = Some (true, s)
    ∧ Include (pruner_filter files_filter prune_cfg) "s/b.go" false = true.
Proof.
  intros RD. eexists. split; [| split; [vm_compute; reflexivity | vm_compute; reflexivity]].
  apply (prune_unreadable RD prune_Stat (λ _, true) "/m" (pruner_filter files_filter prune_cfg) false 3 [] "s"
    (take 2 (default [] (match prune_ReadDir "/m" with Ok l => Some l | Err _ => None end)))
    (mkEntry "s" ModeDir (Ok (mkInfo (ModeDir + 493) 0 0 None))) [] (mkInfo (ModeDir + 493) 0 0 None) (ESentinel "input/output error")
    (mkWState 0 [] 0 [] []) true).
  all: vm_compute; try reflexivity. constructor.
Defined.
