(* ===== verification/CsStore.v ===== *)
(** * CsStore: content stores made of content stores

    Models [src/core/content]: the event bus ([event]), the middlewares ([store/middleware]), the
    writers ([writer/fanout], [writer/resilient]), the composite stores ([store/composite/fanout],
    [split], [fallback]), the adapters between the two versions of the interface
    ([store/composite/content]) and the store that does nothing ([store/noop]).  The interface
    itself, its types and its errors are containerd's: the stores below a composite are any
    values of it, with a state of any type. *)
From S2P Require Import Prelude GoStd.

(** ** The interface *)

(** The types of [content.Info], [Status], [ReaderAt] and [WriterOpts], with what the code uses
    of them, and the class of not-found errors *)
Class ContentTypes := {
  Info : Type;
  Info_Digest : Info → string;
  Info_zero : Info;
  Status : Type;
  Status_Ref : Status → string;
  Status_zero : Status;
  ReaderAt : Type;
  WriterOpts : Type;
  WriterOpts_zero : WriterOpts;
  ErrNotFound : error;
  IsNotFound : error → bool;
  ErrNotFound_is : IsNotFound ErrNotFound = true;
}.

(** A descriptor, of which the code reads the digest *)
Record Descriptor := mkDescriptor { desc_Digest : string; desc_Rest : string }.

(** ** Events *)

Inductive Kind := KindWriteStarted | KindWriteCommitted | KindWriteFailed | KindReadHit | KindReadMiss | KindDeleted.

Record StoreEvent := mkStoreEvent {
  se_Kind : Kind;
  se_Source : string;
  se_Digest : string;
  se_Ref : string;
  se_Err : option error;
  se_OccurredAt : Z;
}.

(** A bus with handlers of type [H].  The number of a handler is what [seq] was. *)
Record Bus (H : Type) := mkBus { bus_handlers : gmap nat H; bus_seq : nat }.
Arguments mkBus {H} _ _.
Arguments bus_handlers {H} _.
Arguments bus_seq {H} _.

Section bus.
Context {H S : Type} `{GoRange} (call : H → StoreEvent → S → S).

Definition NewBus : Bus H := mkBus ∅ 0.

Definition Subscribe (h : H) (b : Bus H) : nat * Bus H :=
  let id := bus_seq b + 1 in (id, mkBus (<[id := h]> (bus_handlers b)) id).

(** The function that [Subscribe] returns; calling it again changes nothing. *)
Definition unsubscribe (id : nat) (b : Bus H) : Bus H := mkBus (delete id (bus_handlers b)) (bus_seq b).

Definition snapshot (b : Bus H) : list H :=
  if decide (bus_handlers b = ∅) then [] else snd <$> map_range (bus_handlers b).

Definition Publish (evt : StoreEvent) (b : Bus H) (s : S) : S := foldl (λ s h, call h evt s) s (snapshot b).
End bus.

(** ** State *)

(** What the objects of the package share with the stores below: the flags of resilient writers,
    the goroutines that [PublishAsync] has started (their handlers and event), the clock, the
    state of the stores, and whether a method of a nil writer has been called: the program ends
    there, and what the state says after it is no part of the run. *)
Record sys (Σ : Type) := mkSys {
  sy_flags : list bool;
  sy_published : list (list nat * StoreEvent);
  sy_now : Z;
  sy_rest : Σ;
  sy_crashed : bool;
}.
Arguments mkSys {Σ} _ _ _ _ _.
Arguments sy_flags {Σ} _.
Arguments sy_published {Σ} _.
Arguments sy_now {Σ} _.
Arguments sy_rest {Σ} _.
Arguments sy_crashed {Σ} _.

Definition Cs (Σ A : Type) : Type := sys Σ → A * sys Σ.
Definition cs_ret {Σ A} (a : A) : Cs Σ A := λ s, (a, s).
Definition cs_bind {Σ A B} (m : Cs Σ A) (f : A → Cs Σ B) : Cs Σ B := λ s, let '(a, s) := m s in f a s.

Declare Scope cs_scope.
Notation "'let!' x := m 'in' k" := (cs_bind m (λ x, k)) (at level 200, x pattern, m at level 100, k at level 200, right associativity) : cs_scope.
#[local] Open Scope cs_scope.

Section interface.
Context `{ContentTypes}.

(** An option changes what its pointer points to; it may be called with nil. *)
Definition WriterOpt : Type := option WriterOpts → option error * option WriterOpts.
Definition Opt : Type := Info → option error * Info.

Record Writer (Σ : Type) := mkWriter {
  w_Write : list byte → Cs Σ (nat * option error);
  w_Commit : Z → string → list Opt → Cs Σ (option error);
  w_Truncate : Z → Cs Σ (option error);
  w_Close : Cs Σ (option error);
  w_Digest : Cs Σ string;
  w_Status : Cs Σ (Status * option error);
}.

(** A walk of a store hands its function one info after another: the [k]-th, as the store is
    when it comes to it, or the end with an error or none.  It stops at the first error of the
    function and returns it.  The walk of a fanout is one of goroutines that walk its stores. *)
Inductive listing (Σ : Type) :=
  | Strand (next : nat → Cs Σ (Info + option error))
  | Fanned (ls : list (listing Σ)).

Record Store (Σ : Type) := mkStore {
  s_Info : string → Cs Σ (Info * option error);
  s_ReaderAt : Descriptor → Cs Σ (option ReaderAt * option error);
  s_Status : string → Cs Σ (Status * option error);
  s_ListStatuses : list string → Cs Σ (list Status * option error);
  s_Writer : list WriterOpt → Cs Σ (option (Writer Σ) * option error);
  s_Delete : string → Cs Σ (option error);
  s_Abort : string → Cs Σ (option error);
  s_Update : Info → list string → Cs Σ (Info * option error);
  s_Walk : list string → listing Σ;
}.
End interface.
Arguments Strand {_ Σ} _.
Arguments Fanned {_ Σ} _.
Arguments mkWriter {_ Σ} _ _ _ _ _ _.
Arguments w_Write {_ Σ} _ _ _.
Arguments w_Commit {_ Σ} _ _ _ _ _.
Arguments w_Truncate {_ Σ} _ _ _.
Arguments w_Close {_ Σ} _ _.
Arguments w_Digest {_ Σ} _ _.
Arguments w_Status {_ Σ} _ _.
Arguments mkStore {_ Σ} _ _ _ _ _ _ _ _ _.
Arguments s_Info {_ Σ} _ _ _.
Arguments s_ReaderAt {_ Σ} _ _ _.
Arguments s_Status {_ Σ} _ _ _.
Arguments s_ListStatuses {_ Σ} _ _ _.
Arguments s_Writer {_ Σ} _ _ _.
Arguments s_Delete {_ Σ} _ _ _.
Arguments s_Abort {_ Σ} _ _ _.
Arguments s_Update {_ Σ} _ _ _ _.
Arguments s_Walk {_ Σ} _ _.

(** The order in which goroutines that are started together do their calls *)
Class GoSched := {
  sched_order : nat → list nat;
  sched_perm n : sched_order n ≡ₚ seq 0 n;
}.

Section calls.
Context {Σ : Type} `{GoSched}.

(** One call after another, with their results *)
Fixpoint each_call {A B} (f : A → Cs Σ B) (l : list A) : Cs Σ (list B) :=
  match l with
  | [] => cs_ret []
  | a :: l => let! b := f a in let! bs := each_call f l in cs_ret (b :: bs)
  end.

(** The calls that remain, in the order of the scheduler, with [results] *)
Fixpoint par_loop {A B} (f : A → Cs Σ B) (l : list A) (order : list nat) (results : list (option B)) : Cs Σ (list (option B)) :=
  match order with
  | [] => cs_ret results
  | i :: order =>
      match l !! i with
      | None => par_loop f l order results
      | Some a => let! b := f a in par_loop f l order (<[i := Some b]> results)
      end
  end.

(** [results], when every goroutine has ended *)
Definition par_calls {A B} (f : A → Cs Σ B) (l : list A) : Cs Σ (list B) :=
  let! results := par_loop f l (sched_order (length l)) (replicate (length l) None) in cs_ret (omap id results).

(** The errors, in the order in which the goroutines append them *)
Fixpoint par_errors {A} (f : A → Cs Σ (option error)) (l : list A) (order : list nat) : Cs Σ (list error) :=
  match order with
  | [] => cs_ret []
  | i :: order =>
      match l !! i with
      | None => par_errors f l order
      | Some a => let! e := f a in let! es := par_errors f l order in cs_ret (option_list e ++ es)
      end
  end.

(** The first success, in order *)
Fixpoint first_ok {A B} (f : A → Cs Σ (B * option error)) (l : list A) : Cs Σ (option B) :=
  match l with
  | [] => cs_ret None
  | a :: l => let! (b, e) := f a in match e with None => cs_ret (Some b) | Some _ => first_ok f l end
  end.
End calls.

(** ** A nil writer *)

Section nil.
Context `{ContentTypes} {Σ : Type}.

(** The panic of a call on nil; the value stands for none. *)
Definition crash {A} (a : A) : Cs Σ A := λ s, (a, mkSys (sy_flags s) (sy_published s) (sy_now s) (sy_rest s) true).

Definition nil_writer : Writer Σ :=
  mkWriter (λ _, crash (0, None)) (λ _ _ _, crash None) (λ _, crash None) (crash None) (crash EmptyString) (crash (Status_zero, None)).

(** The writer that a store returned, as it is used *)
Definition writer_of (w : option (Writer Σ)) : Writer Σ := default nil_writer w.
End nil.

(** ** [writer/fanout] *)

Section stores.
Context `{ContentTypes, GoSched} {Σ : Type}.

Notation Cs := (Cs Σ).
Notation Writer := (Writer Σ).
Notation Store := (Store Σ).

Fixpoint fw_Write (writers : list Writer) (p : list byte) : Cs (nat * option error) :=
  match writers with
  | [] => cs_ret (length p, None)
  | w :: writers =>
      let! (n, err) := w_Write w p in
      match err with
      | Some e => cs_ret (n, Some (EWrap ["fanout write"] e))
      | None => if decide (n ≠ length p) then cs_ret (n, Some (EText ["fanout write: short write"])) else fw_Write writers p
      end
  end.

(** [fanout] *)
Definition fw_fanout (fn : Writer → Cs (option error)) (writers : list Writer) : Cs (option error) :=
  let! errs := par_errors fn writers (sched_order (length writers)) in cs_ret (errors_join errs).

Definition fw_Truncate (writers : list Writer) (size : Z) : Cs (option error) :=
  let! errs := each_call (λ w, w_Truncate w size) writers in cs_ret (errors_join (omap id errs)).

Definition fanout_writer (writers : list Writer) : Writer :=
  mkWriter (fw_Write writers) (λ size expected opts, fw_fanout (λ w, w_Commit w size expected opts) writers) (fw_Truncate writers)
    (fw_fanout w_Close writers)
    (match writers with [] => cs_ret EmptyString | w :: _ => w_Digest w end)
    (match writers with [] => cs_ret (Status_zero, Some (EText ["fanout: no writers configured"])) | w :: _ => w_Status w end).

(** ** [writer/resilient] *)

(** [r.failed.Load()]; the flag of a writer is its number. *)
Definition failed (r : nat) : Cs bool := λ s, (default false (sy_flags s !! r), s).

(** [r.failed.CompareAndSwap(false, true)] *)
Definition cas_failed (r : nat) : Cs bool := λ s,
  match sy_flags s !! r with
  | Some false => (true, mkSys (<[r := true]> (sy_flags s)) (sy_published s) (sy_now s) (sy_rest s) (sy_crashed s))
  | _ => (false, s)
  end.

Definition markFailed (inner : Writer) (r : nat) : Cs unit :=
  let! first := cas_failed r in if first then let! _ := w_Close inner in cs_ret tt else cs_ret tt.

(** A call that is forwarded unless the writer has failed, and whose error is absorbed *)
Definition absorb (inner : Writer) (r : nat) (call : Cs (option error)) : Cs unit :=
  let! bad := failed r in
  if bad then cs_ret tt
  else let! err := call in match err with Some _ => markFailed inner r | None => cs_ret tt end.

Definition rw_Write (inner : Writer) (r : nat) (p : list byte) : Cs (nat * option error) :=
  let! _ := absorb inner r (let! (_, err) := w_Write inner p in cs_ret err) in cs_ret (length p, None).

Definition rw_Commit (inner : Writer) (r : nat) (size : Z) (expected : string) (opts : list Opt) : Cs (option error) :=
  let! _ := absorb inner r (w_Commit inner size expected opts) in cs_ret None.

Definition rw_Truncate (inner : Writer) (r : nat) (size : Z) : Cs (option error) :=
  let! _ := absorb inner r (w_Truncate inner size) in cs_ret None.

Definition rw_Close (inner : Writer) (r : nat) : Cs (option error) :=
  let! bad := failed r in if bad then cs_ret None else w_Close inner.

(** [resilient.Wrap] *)
Definition Wrap (inner : Writer) : Cs Writer := λ s,
  let r := length (sy_flags s) in
  (mkWriter (rw_Write inner r) (rw_Commit inner r) (rw_Truncate inner r) (rw_Close inner r) (w_Digest inner) (w_Status inner),
   mkSys (sy_flags s ++ [false]) (sy_published s) (sy_now s) (sy_rest s) (sy_crashed s)).

(** ** [store/noop] *)

Context (noop_reader : ReaderAt).

Definition noop_writer : Writer :=
  mkWriter (λ p, cs_ret (length p, None)) (λ _ _ _, cs_ret None) (λ _, cs_ret None) (cs_ret None) (cs_ret EmptyString) (cs_ret (Status_zero, None)).

Definition noop_store : Store :=
  mkStore (λ _, cs_ret (Info_zero, None)) (λ _, cs_ret (Some noop_reader, None)) (λ _, cs_ret (Status_zero, None)) (λ _, cs_ret ([], None))
    (λ _, cs_ret (Some noop_writer, None)) (λ _, cs_ret None) (λ _, cs_ret None) (λ info _, cs_ret (info, None)) (λ _, Strand (λ _, cs_ret (inr None))).

(** ** [store/composite/fanout] *)

(** [filterNotFound] *)
Definition filterNotFound (errs : list error) (total : nat) : option error :=
  match errs with
  | [] => None
  | _ =>
      let real := filter (λ e, IsNotFound e = false) errs in
      let notFoundCount := length (filter (λ e, IsNotFound e = true) errs) in
      match real with
      | [] => if decide (notFoundCount = total) then Some ErrNotFound else None
      | _ => errors_join real
      end
  end.

Section fanout.
Context (stores : list Store).

(** [parallel] *)
Definition fs_parallel (fn : Store → Cs (option error)) : Cs (option error) :=
  let! errs := par_calls fn stores in cs_ret (filterNotFound (omap id errs) (length stores)).

Definition or_not_found {B} (zero : B) (r : option B) : B * option error :=
  match r with Some b => (b, None) | None => (zero, Some ErrNotFound) end.

(** The errors of the results, and the last success *)
Definition results_errs {B} (results : list (B * option error)) : list error := omap snd results.
Definition results_oks {B} (results : list (B * option error)) : list B := omap (λ r, match r.2 with None => Some r.1 | Some _ => None end) results.

Definition fs_Update (info : Info) (fieldpaths : list string) : Cs (Info * option error) :=
  let! results := par_calls (λ cs, s_Update cs info fieldpaths) stores in
  cs_ret (default Info_zero (last (results_oks results)), filterNotFound (results_errs results) (length stores)).

(** [all], of the lists in order, without the refs that were seen *)
Fixpoint dedup_refs (seen : gset string) (sts : list Status) : list Status :=
  match sts with
  | [] => []
  | st :: sts => if decide (Status_Ref st ∈ seen) then dedup_refs seen sts else st :: dedup_refs ({[Status_Ref st]} ∪ seen) sts
  end.

Definition fs_ListStatuses (filters : list string) : Cs (list Status * option error) :=
  let! results := par_calls (λ cs, s_ListStatuses cs filters) stores in
  let errs := results_errs results in
  if decide (length errs = length stores ∧ 0 < length stores) then cs_ret ([], errors_join errs)
  else cs_ret (dedup_refs ∅ (concat (results_oks results)), None).

Definition fs_Writer (opts : list WriterOpt) : Cs (option Writer * option error) :=
  let! results := par_calls (λ cs, s_Writer cs opts) stores in
  match writer_of <$> results_oks results with
  | [] => cs_ret (None, filterNotFound (results_errs results) (length stores))
  | writers => cs_ret (Some (fanout_writer writers), None)
  end.

Definition fanout_store : Store :=
  mkStore (λ dgst, let! r := first_ok (λ cs, s_Info cs dgst) stores in cs_ret (or_not_found Info_zero r))
    (λ desc, let! r := first_ok (λ cs, s_ReaderAt cs desc) stores in cs_ret (or_not_found None r))
    (λ ref, let! r := first_ok (λ cs, s_Status cs ref) stores in cs_ret (or_not_found Status_zero r))
    fs_ListStatuses fs_Writer (λ dgst, fs_parallel (λ cs, s_Delete cs dgst)) (λ ref, fs_parallel (λ cs, s_Abort cs ref)) fs_Update
    (λ filters, Fanned ((λ cs, s_Walk cs filters) <$> stores)).
End fanout.

(** ** [store/composite/split] *)

Section split.
Context (read : Store) (writes : list Store).

Definition split_ok : bool := negb (bool_decide (writes = [])).

(** The last of the calls is the fallback. *)
Definition sp_Info (dgst : string) : Cs (Info * option error) :=
  let! r := first_ok (λ ws, s_Info ws dgst) writes in
  match r with Some info => cs_ret (info, None) | None => s_Info read dgst end.

Definition sp_ReaderAt (desc : Descriptor) : Cs (option ReaderAt * option error) :=
  let! (r, err) := s_ReaderAt read desc in
  match err with
  | None => cs_ret (r, None)
  | Some _ =>
      let! r := first_ok (λ ws, s_ReaderAt ws desc) writes in
      match r with Some r => cs_ret (r, None) | None => cs_ret (None, Some (EText ["split: content not found in any store"])) end
  end.

Definition sp_ListStatuses (filters : list string) : Cs (list Status * option error) :=
  let! r := first_ok (λ ws, s_ListStatuses ws filters) writes in
  match r with Some sts => cs_ret (sts, None) | None => cs_ret ([], Some (EText ["split: no write store could list statuses"])) end.

Definition sp_Status (ref : string) : Cs (Status * option error) :=
  let! r := first_ok (λ ws, s_Status ws ref) writes in
  match r with Some st => cs_ret (st, None) | None => cs_ret (Status_zero, Some (EText ["split: status"; ref; "not found in any write store"])) end.

Definition sp_Writer (opts : list WriterOpt) : Cs (option Writer * option error) :=
  let! results := each_call (λ ws, s_Writer ws opts) writes in
  match writer_of <$> results_oks results with
  | [] => cs_ret (None, errors_join (results_errs results))
  | writers => cs_ret (Some (fanout_writer writers), None)
  end.

(** [retErr]: the first error *)
Definition sp_Abort (ref : string) : Cs (option error) :=
  let! errs := each_call (λ ws, s_Abort ws ref) writes in cs_ret (head (omap id errs)).

Definition sp_Delete (dgst : string) : Cs (option error) :=
  let! err := s_Delete read dgst in
  let! errs := each_call (λ ws, s_Delete ws dgst) writes in cs_ret (head (omap id (err :: errs))).

Definition sp_Update (info : Info) (fieldpaths : list string) : Cs (Info * option error) :=
  let! results := each_call (λ ws, s_Update ws info fieldpaths) writes in
  cs_ret (default Info_zero (last (results_oks results)), errors_join (results_errs results)).

Definition split_store : Store :=
  mkStore sp_Info sp_ReaderAt sp_Status sp_ListStatuses sp_Writer sp_Delete sp_Abort sp_Update (s_Walk read).

(** [New], or the panic of [MustNew] *)
Definition split_New : result Store :=
  if decide (writes = []) then Err (EText ["split store requires at least one write store"]) else Ok split_store.
End split.

(** ** [store/composite/fallback] *)

Section fallback.
Context (primary secondary : Store).

(** The secondary answers when the primary has not found it. *)
Definition fallback_call {B} (zero : B) (call : Store → Cs (B * option error)) : Cs (B * option error) :=
  let! (b, err) := call primary in
  match err with
  | None => cs_ret (b, None)
  | Some e => if negb (IsNotFound e) then cs_ret (zero, Some e) else call secondary
  end.

Definition fb_Writer (opts : list WriterOpt) : Cs (option Writer * option error) :=
  let! (pw, err) := s_Writer primary opts in
  match err with
  | Some e => cs_ret (None, Some (EWrap ["fallback: primary writer"] e))
  | None =>
      let! (sw, err) := s_Writer secondary opts in
      match err with
      | Some _ => cs_ret (pw, None)
      | None => let! sw := Wrap (writer_of sw) in cs_ret (Some (fanout_writer [writer_of pw; sw]), None)
      end
  end.

Definition fb_Abort (ref : string) : Cs (option error) :=
  let! primaryErr := s_Abort primary ref in let! _ := s_Abort secondary ref in cs_ret primaryErr.

Definition fallback_store : Store :=
  mkStore (λ dgst, fallback_call Info_zero (λ s, s_Info s dgst)) (λ desc, fallback_call None (λ s, s_ReaderAt s desc)) (s_Status primary)
    (s_ListStatuses primary) fb_Writer (s_Delete primary) fb_Abort (s_Update primary) (s_Walk primary).
End fallback.

(** ** [store/middleware] *)

Definition Middleware : Type := Store → Store.

Definition Chain (base : Store) (middlewares : list Middleware) : Store := foldr (λ m s, m s) base middlewares.

Definition ErrReadOnly : error := ESentinel "content store is read-only".

Definition ReadOnly : Middleware := λ next,
  mkStore (s_Info next) (s_ReaderAt next) (s_Status next) (s_ListStatuses next) (λ _, cs_ret (None, Some (EWrap ["Writer"] ErrReadOnly)))
    (λ _, cs_ret (Some (EWrap ["Delete"] ErrReadOnly))) (λ _, cs_ret (Some (EWrap ["Abort"] ErrReadOnly)))
    (λ _ _, cs_ret (Info_zero, Some (EWrap ["Update"] ErrReadOnly))) (s_Walk next).

Section observable.
Context (handlers : list nat) (source : string).

(** [bus.PublishAsync] with [time.Now()], for the handlers that are registered then *)
Definition emit_event (kind : Kind) (dgst : string) (err : option error) : Cs unit := λ s,
  (tt, match handlers with
       | [] => s
       | _ => mkSys (sy_flags s) (sy_published s ++ [(handlers, mkStoreEvent kind source dgst EmptyString err (sy_now s))]) (sy_now s) (sy_rest s) (sy_crashed s)
       end).

Definition ob_ReaderAt (next : Store) (desc : Descriptor) : Cs (option ReaderAt * option error) :=
  let! (r, err) := s_ReaderAt next desc in
  match err with
  | Some e => let! _ := emit_event KindReadMiss (desc_Digest desc) (Some e) in cs_ret (None, Some e)
  | None => let! _ := emit_event KindReadHit (desc_Digest desc) None in cs_ret (r, None)
  end.

Definition observable_writer (w : Writer) : Writer :=
  mkWriter (w_Write w)
    (λ size expected opts,
      let! err := w_Commit w size expected opts in
      let! _ := emit_event (match err with Some _ => KindWriteFailed | None => KindWriteCommitted end) expected err in cs_ret err)
    (w_Truncate w) (w_Close w) (w_Digest w) (w_Status w).

Definition ob_Writer (next : Store) (opts : list WriterOpt) : Cs (option Writer * option error) :=
  let! (w, err) := s_Writer next opts in
  match err with
  | Some e => let! _ := emit_event KindWriteFailed EmptyString (Some e) in cs_ret (None, Some e)
  | None => let! _ := emit_event KindWriteStarted EmptyString None in cs_ret (Some (observable_writer (writer_of w)), None)
  end.

Definition ob_Delete (next : Store) (dgst : string) : Cs (option error) :=
  let! err := s_Delete next dgst in
  match err with None => let! _ := emit_event KindDeleted dgst None in cs_ret None | Some e => cs_ret (Some e) end.

Definition Observable : Middleware := λ next,
  mkStore (s_Info next) (ob_ReaderAt next) (s_Status next) (s_ListStatuses next) (ob_Writer next) (ob_Delete next) (s_Abort next) (s_Update next)
    (s_Walk next).
End observable.
End stores.

(** ** [store/composite/content] *)

(** The two versions of the interface have the same types, so that their conversions are the
    identity. *)
Section versions.
Context `{ContentTypes} {Σ : Type}.

(** [V1Opt] and [V2Opt]: each option is applied to a copy. *)
Definition convert_Opt (opts : list Opt) : list Opt := (λ (opt : Opt) info, let '(err, _) := opt info in (err, info)) <$> opts.

(** [V1ContentWriterOpt] and [V2ContentWriterOpt] *)
Definition convert_WriterOpt (opts : list WriterOpt) : list WriterOpt :=
  (λ (opt : WriterOpt) wo, let '(err, _) := opt (Some (default WriterOpts_zero wo)) in (err, wo)) <$> opts.

(** [V1Writer] and [V2Writer] *)
Definition convert_writer (wr : Writer Σ) : Writer Σ :=
  mkWriter (w_Write wr) (λ size expected opts, w_Commit wr size expected (convert_Opt opts)) (w_Truncate wr) (w_Close wr) (w_Digest wr) (w_Status wr).

(** [V1ContentStore] and [V2ContentStore].  The writer that comes with an error is a wrapper of
    nil. *)
Definition convert_store (store : Store Σ) : Store Σ :=
  mkStore (s_Info store) (s_ReaderAt store) (s_Status store) (s_ListStatuses store)
    (λ opts, let! (w, err) := s_Writer store (convert_WriterOpt opts) in cs_ret (Some (convert_writer (writer_of w)), err))
    (s_Delete store) (s_Abort store) (λ info _, s_Update store info []) (s_Walk store).
End versions.

(** ** Walks *)

(** [Walk] of the fanout, while it runs.  A goroutine takes the next info of its store, asks the
    [seen] map of its fanout whether it is new, then that of each fanout around it (whose
    callback the inner one calls), and then calls the function; these are its steps.  [mu] makes
    the call one step; what else the mutexes of inner fanouts keep apart may interleave here.
    A fanout is named by its place in the nesting, innermost index first. *)
Section walk.
Context `{ContentTypes} {Σ : Type} (fn : Info → Cs Σ (option error)).

Inductive walk_at := AtNext | AtLoad (info : Info) (place : list nat) | AtCall (info : Info) | AtEnd.

(** The goroutine of a store in the fanout at a place, with the infos the store has handed out *)
Record strand := mkStrand {
  sd_place : list nat;
  sd_next : nat → Cs Σ (Info + option error);
  sd_out : list Info;
  sd_at : walk_at;
}.

Record walking := mkWalking {
  wk_strands : list strand;
  wk_seen : gset (list nat * string);
  wk_called : list Info;
  wk_errs : list error;
  wk_state : sys Σ;
}.

Fixpoint strands (place : list nat) (l : listing Σ) : list strand :=
  match l with
  | Strand next => [mkStrand place next [] AtNext]
  | Fanned ls =>
      (fix go i ls := match ls with
       | [] => []
       | l :: ls => strands (match l with Strand _ => place | Fanned _ => i :: place end) l ++ go (S i) ls
       end) 0 ls
  end.

Definition walk_init (ls : list (listing Σ)) (σ : sys Σ) : walking := mkWalking (strands [] (Fanned ls)) ∅ [] [] σ.

Definition go_on (x : strand) (at_ : walk_at) : strand := mkStrand (sd_place x) (sd_next x) (sd_out x) at_.
Definition hand_out (x : strand) (info : Info) : strand :=
  mkStrand (sd_place x) (sd_next x) (sd_out x ++ [info]) (AtLoad info (sd_place x)).

(** [seen.LoadOrStore] in the fanout at a place, and what the callback does next *)
Definition load_or_store (seen : gset (list nat * string)) (info : Info) (place : list nat) : walk_at * gset (list nat * string) :=
  if decide ((place, Info_Digest info) ∈ seen) then (AtNext, seen)
  else (match place with [] => AtCall info | _ :: outer => AtLoad info outer end, {[(place, Info_Digest info)]} ∪ seen).

Definition walk_step (st : walking) (i : nat) : walking :=
  match wk_strands st !! i with
  | None => st
  | Some x =>
      let put y := <[i := y]> (wk_strands st) in
      match sd_at x with
      | AtNext =>
          let '(r, σ) := sd_next x (length (sd_out x)) (wk_state st) in
          match r with
          | inl info => mkWalking (put (hand_out x info)) (wk_seen st) (wk_called st) (wk_errs st) σ
          | inr err => mkWalking (put (go_on x AtEnd)) (wk_seen st) (wk_called st) (wk_errs st ++ option_list err) σ
          end
      | AtLoad info place =>
          let '(at_, seen) := load_or_store (wk_seen st) info place in
          mkWalking (put (go_on x at_)) seen (wk_called st) (wk_errs st) (wk_state st)
      | AtCall info =>
          let '(e, σ) := fn info (wk_state st) in
          mkWalking (put (go_on x (match e with None => AtNext | Some _ => AtEnd end))) (wk_seen st) (wk_called st ++ [info])
            (wk_errs st ++ option_list e) σ
      | AtEnd => st
      end
  end.

Definition walk_run (sched : list nat) (st : walking) : walking := foldl walk_step st sched.
Definition walk_finished (st : walking) : bool := forallb (λ x, match sd_at x with AtEnd => true | _ => false end) (wk_strands st).

(** What [Walk] returns, when all have ended; the join of an inner fanout is flat here. *)
Definition walk_result (st : walking) : option error := errors_join (wk_errs st).
End walk.
