(* ===== verification/CsLaws.v ===== *)
(** * CsLaws: what composite content stores promise

    The stores as maps from digests to bytes: what a composite shows is the union of what its
    parts show, for any composition; deletion from a fanout; the writer of a fallback is as
    good as the one of its primary; a fanout visits each digest once; the adapters lose
    options. *)
From S2P Require Import Prelude GoStd CsStore.
#[local] Open Scope cs_scope.

(** ** Concurrent calls *)

Section par.
Context {Σ A B : Type} `{GoSched} (f : A → Cs Σ B) (l : list A).
Context (I : list nat → sys Σ → Prop) (Q : nat → A → B → Prop).

Lemma par_loop_ind order done results s :
  NoDup (done ++ order) → (∀ i, i ∈ order → i < length l) → length results = length l → I done s →
  (∀ i a b, i ∈ done → l !! i = Some a → results !! i = Some b → ∃ b', b = Some b' ∧ Q i a b') →
  (∀ done i a s, l !! i = Some a → i ∉ done → I done s → Q i a (f a s).1 ∧ I (done ++ [i]) (f a s).2) →
  let '(results', s') := par_loop f l order results s in
  length results' = length l ∧ I (done ++ order) s' ∧ ∀ i a b, i ∈ done ++ order → l !! i = Some a → results' !! i = Some b → ∃ b', b = Some b' ∧ Q i a b'.
Proof.
  revert done results s. induction order as [|i order IH]; intros done results s Hnd Hb Hlen HI HQ Hf; cbn [par_loop].
  - simpl. rewrite app_nil_r. by split_and!.
  - destruct (l !! i) as [a|] eqn:Hi; [| apply lookup_ge_None in Hi; specialize (Hb i ltac:(by left)); lia].
    assert (i ∉ done) as Hnin by (apply NoDup_app in Hnd as (_ & Hd & _); intros Hin; apply (Hd i Hin); by left).
    destruct (Hf done i a s Hi Hnin HI) as [HQi HIi]. unfold cs_bind. destruct (f a s) as [b s1]. simpl in *.
    specialize (IH (done ++ [i]) (<[i := Some b]> results) s1). rewrite <- app_assoc in IH. simpl in IH. apply IH; try done.
    + intros j Hj. apply Hb. by right.
    + by rewrite length_insert.
    + intros j a' b' Hj Hl Hr. destruct (decide (i = j)) as [<-|Hne].
      * rewrite list_lookup_insert_eq in Hr; [| rewrite Hlen; apply Hb; by left]. simplify_eq. by exists b.
      * rewrite list_lookup_insert_ne in Hr by done. apply elem_of_app in Hj as [Hj|Hj%list_elem_of_singleton]; [by apply (HQ j a') | congruence].
Qed.

(** Each element is called once, in some order, and the results are in their places. *)
Lemma par_calls_ind s :
  I [] s → (∀ done i a s, l !! i = Some a → i ∉ done → I done s → Q i a (f a s).1 ∧ I (done ++ [i]) (f a s).2) →
  let '(bs, s') := par_calls f l s in
  (∃ done, done ≡ₚ seq 0 (length l) ∧ I done s') ∧ length bs = length l ∧ ∀ i a b, l !! i = Some a → bs !! i = Some b → Q i a b.
Proof.
  intros HI Hf. unfold par_calls, cs_bind. pose proof (sched_perm (length l)) as Hp.
  pose proof (par_loop_ind (sched_order (length l)) [] (replicate (length l) None) s) as Hloop.
  destruct (par_loop _ _ _ _ _) as [results s']. simpl. destruct Hloop as (Hlen & HI' & HQ); try done.
  - simpl. rewrite Hp. apply NoDup_seq.
  - intros i. rewrite Hp, elem_of_seq. lia.
  - apply length_replicate.
  - intros i a b Hi. set_solver.
  - assert (∀ i a, l !! i = Some a → ∃ b, results !! i = Some (Some b) ∧ Q i a b) as Hall.
    { intros i a Hi. assert (i < length results) as Hlt by (rewrite Hlen; by eapply lookup_lt_Some).
      apply lookup_lt_is_Some_2 in Hlt as [b Hb]. destruct (HQ i a b) as (b' & -> & Hq); [simpl; rewrite Hp; apply elem_of_seq; apply lookup_lt_Some in Hi; lia | done | done |].
      by exists b'. }
    split; [exists (sched_order (length l)); by split |]. clear -Hlen Hall. revert Hlen Hall.
    assert (∀ rs (k : list A) o, length rs = length k → (∀ i a, k !! i = Some a → ∃ b, rs !! i = Some (Some b) ∧ Q (o + i) a b) →
      length (omap id rs) = length k ∧ ∀ i a b, k !! i = Some a → omap id rs !! i = Some b → Q (o + i) a b) as Hgen.
    { induction rs as [|r rs IH]; intros [|a k] o Hlen Hall; simpl in *; try lia; [done |].
      destruct (Hall 0 a eq_refl) as (b & [= ->] & Hq). simpl. destruct (IH k (S o)) as [H1 H2]; [lia | |].
      { intros i a' Hi. destruct (Hall (S i) a' Hi) as (b' & Hb' & Hq'). exists b'. split; [done |]. by replace (S o + i) with (o + S i) by lia. }
      split; [simpl; f_equal; exact H1 |]. intros [|i] a' b' Hi Hr; simpl in *; simplify_eq; [done |]. replace (o + S i) with (S o + i) by lia. by eapply H2. }
    intros Hlen Hall. by apply (Hgen results l 0).
Qed.
End par.

(** ** Reading *)

Section reading.
Context `{ContentTypes, GoSched} {Σ : Type} (quiet : relation (sys Σ)) `{!Equivalence quiet} (blob : ReaderAt → list byte).

Notation content := (gmap string (list byte)) (only parsing).

(** A call finds what the view has at [d], and fails if it has nothing; it changes nothing that
    a view depends on. *)
Definition serves {B} (call : Cs Σ (B * option error)) (d : string) (view : sys Σ → content) (ok : list byte → B → Prop) : Prop := ∀ σ,
  quiet σ (call σ).2
  ∧ match view σ !! d with
    | Some b => ∃ r, (call σ).1 = (r, None) ∧ ok b r
    | None => is_Some (call σ).1.2
    end.

Definition reads_blob (b : list byte) (r : option ReaderAt) : Prop := ∃ r', r = Some r' ∧ blob r' = b.

(** What a store shows *)
Class Reads (s : Store Σ) (view : sys Σ → content) : Prop := {
  view_quiet : Proper (quiet ==> eq) view;
  Info_serves d : serves (s_Info s d) d view (λ _ _, True);
  ReaderAt_serves desc : serves (s_ReaderAt s desc) (desc_Digest desc) view reads_blob;
}.

(** What is absent is reported as not found. *)
Class Misses (s : Store Σ) (view : sys Σ → content) : Prop := {
  Info_miss d σ e : view σ !! d = None → (s_Info s d σ).1.2 = Some e → IsNotFound e = true;
  ReaderAt_miss desc σ e : view σ !! desc_Digest desc = None → (s_ReaderAt s desc σ).1.2 = Some e → IsNotFound e = true;
}.

Definition union_view (views : list (sys Σ → content)) : sys Σ → content := λ σ, foldr (λ v m, v σ ∪ m) ∅ views.

Lemma union_view_quiet views : Forall (Proper (quiet ==> eq)) views → Proper (quiet ==> eq) (union_view views).
Proof.
  intros Hv σ σ' Hq. unfold union_view. induction Hv as [|v views Hv _ IH]; simpl; [done |]. by rewrite (Hv σ σ' Hq), IH.
Qed.

Lemma union_view_cons v views σ d : union_view (v :: views) σ !! d = v σ !! d ∪ union_view views σ !! d.
Proof. unfold union_view. simpl. apply lookup_union. Qed.

(** The first store of a list that has it *)
Lemma first_ok_serves {B} (call : Store Σ → Cs Σ (B * option error)) d ok stores views :
  Forall (Proper (quiet ==> eq)) views → Forall2 (λ s v, serves (call s) d v ok) stores views → ∀ σ,
  quiet σ (first_ok call stores σ).2
  ∧ match union_view views σ !! d with
    | Some b => ∃ r, (first_ok call stores σ).1 = Some r ∧ ok b r
    | None => (first_ok call stores σ).1 = None
    end.
Proof.
  intros Hviews. induction 1 as [|s v stores views Hs _ IH]; intros σ; cbn [first_ok]; [done |]. unfold cs_bind. destruct (Hs σ) as [Hq Hr].
  apply Forall_cons in Hviews as [Hv Hviews]. rewrite union_view_cons. destruct (call s σ) as [[r e] σ1]. simpl in *. destruct (v σ !! d) as [b|].
  - destruct Hr as (r' & [= -> ->] & Hok). simpl. rewrite union_Some_l. split; [done |]. by exists r'.
  - destruct Hr as [e' ->]. destruct (IH Hviews σ1) as [H1 H2]. split; [by trans σ1 |]. rewrite (left_id_L None (∪)).
    by rewrite (union_view_quiet views Hviews σ σ1 Hq).
Qed.

(** ** The composites *)

Lemma fanout_serves {B} (call : Store Σ → Cs Σ (B * option error)) zero d ok stores views :
  Forall (Proper (quiet ==> eq)) views → Forall2 (λ s v, serves (call s) d v ok) stores views →
  serves (let! r := first_ok call stores in cs_ret (or_not_found zero r)) d (union_view views) ok.
Proof.
  intros Hv Hs σ. destruct (first_ok_serves call d ok stores views Hv Hs σ) as [Hq Hr]. unfold cs_bind.
  destruct (first_ok call stores σ) as [r σ']. simpl in *. split; [done |].
  destruct (union_view views σ !! d); [destruct Hr as (b & -> & Hb); by exists b | by rewrite Hr].
Qed.

Lemma reads_Forall2 {B} (call : Store Σ → Cs Σ (B * option error)) d ok stores views :
  Forall2 Reads stores views → (∀ s v, Reads s v → serves (call s) d v ok) →
  Forall (Proper (quiet ==> eq)) views ∧ Forall2 (λ s v, serves (call s) d v ok) stores views.
Proof.
  intros Hall Hc. split.
  - induction Hall as [|s v stores views Hr _ IH]; constructor; [apply Hr | done].
  - eapply Forall2_impl; [exact Hall |]. intros s v Hr. by apply Hc.
Qed.

Lemma fanout_reads stores views : Forall2 Reads stores views → Reads (fanout_store stores) (union_view views).
Proof.
  intros Hall. split.
  - apply union_view_quiet. induction Hall as [|s v stores views Hr _ IH]; constructor; [apply Hr | done].
  - intros d. destruct (reads_Forall2 (λ s, s_Info s d) d (λ _ _, True) stores views Hall) as [Hv Hs]; [intros; apply Info_serves |]. by apply fanout_serves.
  - intros desc. destruct (reads_Forall2 (λ s, s_ReaderAt s desc) (desc_Digest desc) reads_blob stores views Hall) as [Hv Hs]; [intros; apply ReaderAt_serves |]. by apply fanout_serves.
Qed.

(** A fanout answers not-found whatever the errors of its stores are. *)
Lemma fanout_misses stores views : Forall2 Reads stores views → Misses (fanout_store stores) (union_view views).
Proof.
  intros Hall. split; intros d σ e Hd; simpl; unfold cs_bind.
  - destruct (reads_Forall2 (λ s, s_Info s d) d (λ _ _, True) stores views Hall) as [Hv Hs]; [intros; apply Info_serves |].
    destruct (first_ok_serves _ d _ stores views Hv Hs σ) as [_ Hr]. rewrite Hd in Hr. destruct (first_ok _ _ _) as [r σ']. simpl in *. subst r.
    intros [= <-]. apply ErrNotFound_is.
  - destruct (reads_Forall2 (λ s, s_ReaderAt s d) (desc_Digest d) reads_blob stores views Hall) as [Hv Hs]; [intros; apply ReaderAt_serves |].
    destruct (first_ok_serves _ (desc_Digest d) _ stores views Hv Hs σ) as [_ Hr]. rewrite Hd in Hr. destruct (first_ok _ _ _) as [r σ']. simpl in *. subst r.
    intros [= <-]. apply ErrNotFound_is.
Qed.

Lemma fallback_serves {B} (zero : B) (call : Store Σ → Cs Σ (B * option error)) d ok p s vp vs :
  Proper (quiet ==> eq) vs → serves (call p) d vp ok → serves (call s) d vs ok →
  (∀ σ e, vp σ !! d = None → (call p σ).1.2 = Some e → IsNotFound e = true) →
  serves (fallback_call p s zero call) d (λ σ, vp σ ∪ vs σ) ok.
Proof.
  intros Hvs Hp Hs Hmiss σ. unfold fallback_call, cs_bind. destruct (Hp σ) as [Hq Hr]. specialize (Hmiss σ). cbv beta. rewrite lookup_union.
  destruct (call p σ) as [[r e] σ1]. simpl in *. destruct (vp σ !! d) as [b|].
  - destruct Hr as (r' & [= -> ->] & Hok). simpl. rewrite union_Some_l. split; [done |]. by exists r'.
  - destruct Hr as [e' ->]. rewrite (Hmiss e' eq_refl eq_refl). simpl. rewrite (left_id_L None (∪)).
    destruct (Hs σ1) as [Hq1 Hr1]. split; [by trans σ1 |]. by rewrite (Hvs σ σ1 Hq).
Qed.

Lemma fallback_reads p s vp vs : Reads p vp → Misses p vp → Reads s vs → Reads (fallback_store p s) (λ σ, vp σ ∪ vs σ).
Proof.
  intros Hp Hm Hs. split.
  - intros σ σ' Hq. destruct Hp as [Hvp _ _], Hs as [Hvs _ _]. by rewrite (Hvp σ σ' Hq), (Hvs σ σ' Hq).
  - intros d. apply fallback_serves; [apply Hs | apply Hp | apply Hs | intros; by eapply Info_miss].
  - intros d. apply fallback_serves; [apply Hs | apply Hp | apply Hs | intros; by eapply ReaderAt_miss].
Qed.

Lemma fallback_misses p s vp vs : Reads p vp → Misses p vp → Reads s vs → Misses s vs → Misses (fallback_store p s) (λ σ, vp σ ∪ vs σ).
Proof.
  intros Hp Hm Hs Hms. assert (∀ B (zero : B) (call : Store Σ → Cs Σ (B * option error)) d ok σ e,
    serves (call p) d vp ok → (∀ σ e, vp σ !! d = None → (call p σ).1.2 = Some e → IsNotFound e = true) →
    (∀ σ e, vs σ !! d = None → (call s σ).1.2 = Some e → IsNotFound e = true) →
    (vp σ ∪ vs σ) !! d = None → (fallback_call p s zero call σ).1.2 = Some e → IsNotFound e = true) as Hgen.
  { intros B zero call d ok σ e Hc Hcp Hcs Hd. unfold fallback_call, cs_bind. apply lookup_union_None in Hd as [Hdp Hds].
    destruct (Hc σ) as [Hq Hr]. specialize (Hcp σ). rewrite Hdp in Hr. destruct (call p σ) as [[r e1] σ1]. simpl in *. destruct Hr as [e' ->].
    rewrite (Hcp e' Hdp eq_refl). simpl. apply Hcs. destruct Hs as [Hvs _ _]. by rewrite <- (Hvs σ σ1 Hq). }
  split; intros d σ e.
  - apply (Hgen _ _ (λ s, s_Info s d) d (λ _ _, True)); [apply Hp | apply Hm | apply Hms].
  - apply (Hgen _ _ (λ s, s_ReaderAt s d) (desc_Digest d) reads_blob); [apply Hp | apply Hm | apply Hms].
Qed.

Lemma read_only_reads s v : Reads s v → Reads (ReadOnly s) v.
Proof. intros [H1 H2 H3]. by split. Qed.

Lemma read_only_misses s v : Misses s v → Misses (ReadOnly s) v.
Proof. intros [H1 H2]. by split. Qed.

(** The events of an observer change no view. *)
Context (events_quiet : ∀ handlers source kind d err (σ : sys Σ), quiet σ (emit_event handlers source kind d err σ).2).

Lemma observable_reads hs src s v : Reads s v → Reads (Observable hs src s) v.
Proof.
  intros Hr. split; [apply Hr | apply Hr |]. intros desc σ. simpl. unfold ob_ReaderAt, cs_bind. destruct (ReaderAt_serves desc σ) as [Hq Hs].
  destruct (s_ReaderAt s desc σ) as [[r e] σ1]. simpl in *. destruct (v σ !! _) as [b|].
  - destruct Hs as (r' & [= -> ->] & Hb). pose proof (events_quiet hs src KindReadHit (desc_Digest desc) None σ1) as He.
    unfold emit_event in *. simpl in *. split; [by etrans |]. by exists r'.
  - destruct Hs as [e' ->]. pose proof (events_quiet hs src KindReadMiss (desc_Digest desc) (Some e') σ1) as He.
    unfold emit_event in *. simpl in *. split; [by etrans | by eexists].
Qed.

Lemma observable_misses hs src s v : Misses s v → Misses (Observable hs src s) v.
Proof.
  intros Hm. split; [apply Hm |]. intros desc σ e Hd. simpl. unfold ob_ReaderAt, cs_bind. pose proof (ReaderAt_miss desc σ) as Hmd.
  destruct (s_ReaderAt s desc σ) as [[r [e'|]] σ1]; simpl in *; [| done]. intros [= <-]. by apply Hmd.
Qed.
End reading.

(** ** Stores of stores *)

Section composition.
Context `{ContentTypes, GoSched} {Σ : Type} (quiet : relation (sys Σ)) `{!Equivalence quiet} (blob : ReaderAt → list byte).
Context (events_quiet : ∀ handlers source kind d err (σ : sys Σ), quiet σ (emit_event handlers source kind d err σ).2).

Notation Reads := (Reads quiet blob).

#[local] Arguments union_view : simpl never.

Lemma split_reads r writes vr views : Reads r vr → Forall2 Reads writes views → Reads (split_store r writes) (union_view (vr :: views)).
Proof.
  intros Hr Hall. assert (Proper (quiet ==> eq) vr) as Hvr by apply Hr.
  destruct (reads_Forall2 quiet blob (λ s, s_Info s EmptyString) EmptyString (λ _ _, True) writes views Hall) as [Hviews _]; [intros; by apply (Info_serves quiet blob) |].
  assert (Proper (quiet ==> eq) (union_view views)) as Huv by by apply union_view_quiet.
  split; [by apply (union_view_quiet quiet (vr :: views)); constructor | |].
  - intros d σ. simpl. unfold sp_Info, cs_bind. rewrite union_view_cons.
    destruct (reads_Forall2 quiet blob (λ s, s_Info s d) d (λ _ _, True) writes views Hall) as [_ Hs]; [intros; by apply (Info_serves quiet blob) |].
    destruct (first_ok_serves quiet (λ s, s_Info s d) d _ writes views Hviews Hs σ) as [Hq Hf].
    destruct (first_ok _ writes σ) as [o σ1]. simpl in *. destruct (union_view views σ !! d) as [b|].
    + destruct Hf as (i & -> & _). simpl. split; [done |]. destruct (vr σ !! d); [rewrite union_Some_l | rewrite (left_id_L None (∪))]; by eexists.
    + subst o. destruct (Info_serves quiet blob d σ1 (s := r) (view := vr)) as [Hq1 Hr1]. split; [by trans σ1 |].
      rewrite <- (Hvr σ σ1 Hq) in Hr1. by rewrite (right_id_L None (∪)).
  - intros desc σ. simpl. unfold sp_ReaderAt, cs_bind. rewrite union_view_cons.
    destruct (ReaderAt_serves quiet blob desc σ (s := r) (view := vr)) as [Hq1 Hr1]. destruct (s_ReaderAt r desc σ) as [[rd e] σ1]. simpl in *.
    destruct (vr σ !! desc_Digest desc) as [b|].
    + destruct Hr1 as (r' & [= -> ->] & Hb). rewrite union_Some_l. split; [done |]. by exists r'.
    + destruct Hr1 as [e' ->]. rewrite (left_id_L None (∪)).
      destruct (reads_Forall2 quiet blob (λ s, s_ReaderAt s desc) (desc_Digest desc) (reads_blob blob) writes views Hall) as [_ Hs]; [intros; by apply (ReaderAt_serves quiet blob) |].
      destruct (first_ok_serves quiet (λ s, s_ReaderAt s desc) (desc_Digest desc) _ writes views Hviews Hs σ1) as [Hq Hf].
      destruct (first_ok _ writes σ1) as [o σ2]. simpl in *. rewrite (Huv σ σ1 Hq1). destruct (union_view views σ1 !! desc_Digest desc) as [b|].
      * destruct Hf as (i & -> & Hi). simpl. split; [by trans σ1 |]. by exists i.
      * subst o. split; [by trans σ1 | by eexists].
Qed.

Lemma convert_reads s v : Reads s v → Reads (convert_store s) v.
Proof. intros [H1 H2 H3]. by split. Qed.

Lemma convert_misses (s : Store Σ) v : Misses s v → Misses (convert_store s) v.
Proof. intros [H1 H2]. by split. Qed.

(** What is built from the stores [base 0], [base 1], ... *)
Inductive stack :=
  | BaseOf (i : nat)
  | FanoutOf (ts : list stack)
  | SplitOf (r : stack) (ws : list stack)
  | FallbackOf (p s : stack)
  | ReadOnlyOf (t : stack)
  | ObservableOf (handlers : list nat) (source : string) (t : stack)
  | ConvertOf (t : stack).

Context (base : nat → Store Σ) (base_view : nat → sys Σ → gmap string (list byte)).

Fixpoint store_of (t : stack) : Store Σ :=
  match t with
  | BaseOf i => base i
  | FanoutOf ts => fanout_store (map store_of ts)
  | SplitOf r ws => split_store (store_of r) (map store_of ws)
  | FallbackOf p s => fallback_store (store_of p) (store_of s)
  | ReadOnlyOf t => ReadOnly (store_of t)
  | ObservableOf hs src t => Observable hs src (store_of t)
  | ConvertOf t => convert_store (store_of t)
  end.

(** The union of what its parts show: what comes first counts. *)
Fixpoint view_of (t : stack) : sys Σ → gmap string (list byte) :=
  match t with
  | BaseOf i => base_view i
  | FanoutOf ts => union_view (map view_of ts)
  | SplitOf r ws => union_view (view_of r :: map view_of ws)
  | FallbackOf p s => λ σ, view_of p σ ∪ view_of s σ
  | ReadOnlyOf t | ObservableOf _ _ t | ConvertOf t => view_of t
  end.

(** Whether a reader of what is absent is told that it is not found *)
Fixpoint tells (t : stack) : bool :=
  match t with
  | BaseOf _ | FanoutOf _ => true
  | SplitOf _ _ => false
  | FallbackOf _ s => tells s
  | ReadOnlyOf t | ObservableOf _ _ t | ConvertOf t => tells t
  end.

(** The primary of every fallback has to tell. *)
Fixpoint sound (t : stack) : bool :=
  match t with
  | BaseOf _ => true
  | FanoutOf ts => forallb sound ts
  | SplitOf r ws => sound r && forallb sound ws
  | FallbackOf p s => tells p && sound p && sound s
  | ReadOnlyOf t | ObservableOf _ _ t | ConvertOf t => sound t
  end.

Context (base_reads : ∀ i, Reads (base i) (base_view i)) (base_misses : ∀ i, Misses (base i) (base_view i)).

Fixpoint stack_size (t : stack) : nat :=
  match t with
  | BaseOf _ => 1
  | FanoutOf ts => S (sum_list_with stack_size ts)
  | SplitOf r ws => S (stack_size r + sum_list_with stack_size ws)
  | FallbackOf p s => S (stack_size p + stack_size s)
  | ReadOnlyOf t | ObservableOf _ _ t | ConvertOf t => S (stack_size t)
  end.

Lemma sum_list_with_elem {A} (f : A → nat) x l : x ∈ l → f x ≤ sum_list_with f l.
Proof. induction 1; simpl; lia. Qed.

Lemma stack_serves t : sound t = true → Reads (store_of t) (view_of t) ∧ (tells t = true → Misses (store_of t) (view_of t)).
Proof.
  remember (stack_size t) as n eqn:Hn. revert t Hn. induction n as [n IH] using lt_wf_ind. intros t ->.
  assert (∀ ts, (∀ t', t' ∈ ts → stack_size t' < stack_size t) → forallb sound ts = true → Forall2 Reads (map store_of ts) (map view_of ts)) as Hlist.
  { intros ts Hlt Hs. apply Forall2_fmap_2, Forall_Forall2_diag, Forall_forall. intros t' Hin.
    rewrite forallb_forall in Hs. apply (IH (stack_size t') (Hlt t' Hin) t' eq_refl), Hs. by apply list_elem_of_In. }
  destruct t as [i|ts|r ws|p s|t|hs src t|t]; simpl; intros Hs.
  - done.
  - assert (Forall2 Reads (map store_of ts) (map view_of ts)) as Hall.
    { apply Hlist; [| done]. intros t' Hin. simpl. pose proof (sum_list_with_elem stack_size t' ts Hin). lia. }
    split; [by apply fanout_reads | intros _; by eapply fanout_misses].
  - apply andb_true_iff in Hs as [Hr Hw]. split; [| done]. apply split_reads.
    + apply (IH (stack_size r)); simpl; [lia | done | done].
    + apply Hlist; [| done]. intros t' Hin. simpl. pose proof (sum_list_with_elem stack_size t' ws Hin). lia.
  - apply andb_true_iff in Hs as [[Ht Hp]%andb_true_iff Hs].
    destruct (IH (stack_size p) ltac:(simpl; lia) p eq_refl Hp) as [Hpr Hpm]. destruct (IH (stack_size s) ltac:(simpl; lia) s eq_refl Hs) as [Hsr Hsm].
    specialize (Hpm Ht). split; [by apply fallback_reads |]. intros Hts. by apply (fallback_misses quiet blob _ _ _ _ Hpr Hpm Hsr), Hsm.
  - destruct (IH (stack_size t) ltac:(simpl; lia) t eq_refl Hs) as [Hr Hm]. split; [by apply read_only_reads | intros; apply read_only_misses; auto].
  - destruct (IH (stack_size t) ltac:(simpl; lia) t eq_refl Hs) as [Hr Hm]. split; [by apply observable_reads | intros; apply observable_misses; auto].
  - destruct (IH (stack_size t) ltac:(simpl; lia) t eq_refl Hs) as [Hr Hm]. split; [by apply convert_reads | intros; apply convert_misses; auto].
Qed.
End composition.

(** C33: a composition of content stores reads as the union of its parts, the first that has a
    blob counting.  Fanouts, splits, fallbacks, middlewares and adapters may be nested, over stores
    that read as a map, as long as the primary of each fallback reports what it lacks as
    not-found ([sound]), which a split does not ([tells]); then [ReaderAt] yields the bytes of the
    union and [Info] succeeds on the same digests, in any order of the calls before, and what is
    absent is an error, and a not-found one where the composition as a whole [tells]. *)
Theorem composite_reads `{ContentTypes, GoSched} {Σ} (quiet : relation (sys Σ)) `{!Equivalence quiet} (blob : ReaderAt → list byte)
    (base : nat → Store Σ) (base_view : nat → sys Σ → gmap string (list byte)) t desc σ :
  (∀ handlers source kind d err (σ : sys Σ), quiet σ (emit_event handlers source kind d err σ).2) →
  (∀ i, Reads quiet blob (base i) (base_view i)) → (∀ i, Misses (base i) (base_view i)) → sound t = true →
  let '(r, err, σ1) := s_ReaderAt (store_of base t) desc σ in
  let '(_, err', σ2) := s_Info (store_of base t) (desc_Digest desc) σ in
  (∀ d, view_of base_view t σ1 !! d = view_of base_view t σ !! d ∧ view_of base_view t σ2 !! d = view_of base_view t σ !! d)
  ∧ match view_of base_view t σ !! desc_Digest desc with
    | Some b => err = None ∧ err' = None ∧ blob <$> r = Some b
    | None => ∃ e e', err = Some e ∧ err' = Some e' ∧ (tells t = true → IsNotFound e = true ∧ IsNotFound e' = true)
    end.
Proof.
  intros Hev Hb Hm Hs. destruct (stack_serves quiet blob Hev base base_view Hb Hm t Hs) as [Hr Hms].
  destruct (ReaderAt_serves quiet blob desc σ (s := store_of base t) (view := view_of base_view t)) as [Hq1 H1].
  destruct (Info_serves quiet blob (desc_Digest desc) σ (s := store_of base t) (view := view_of base_view t)) as [Hq2 H2].
  assert (Proper (quiet ==> eq) (view_of base_view t)) as Hv by apply Hr.
  assert (tells t = true → view_of base_view t σ !! desc_Digest desc = None → ∀ e,
    ((s_ReaderAt (store_of base t) desc σ).1.2 = Some e ∨ (s_Info (store_of base t) (desc_Digest desc) σ).1.2 = Some e) → IsNotFound e = true) as Hmiss.
  { intros Ht Hn e He. specialize (Hms Ht). destruct He; [by eapply (ReaderAt_miss desc σ) | by eapply (Info_miss (desc_Digest desc) σ)]. }
  destruct (s_ReaderAt _ desc σ) as [[r e] σ1], (s_Info _ _ σ) as [[i e'] σ2]. simpl in *. split.
  - intros d. by rewrite <- (Hv σ σ1 Hq1), <- (Hv σ σ2 Hq2).
  - destruct (view_of base_view t σ !! desc_Digest desc) as [b|].
    + destruct H1 as (r' & [= -> ->] & r'' & -> & <-), H2 as (i' & [= -> ->] & _). done.
    + destruct H1 as [x ->], H2 as [y ->]. exists x, y. split_and!; try done. intros Ht. split; apply (Hmiss Ht eq_refl); auto.
Qed.

(** ** Stores in memory *)

Section memory.
#[local] Instance mem_types : ContentTypes := {|
  Info := string; Info_Digest := id; Info_zero := EmptyString; Status := string; Status_Ref := id; Status_zero := EmptyString;
  ReaderAt := list byte; WriterOpts := string; WriterOpts_zero := EmptyString; ErrNotFound := ESentinel "not found";
  IsNotFound := λ e, bool_decide (e = ESentinel "not found"); ErrNotFound_is := eq_refl |}.

#[local] Instance mem_sched : GoSched := {| sched_order n := reverse (seq 0 n); sched_perm n := reverse_Permutation _ |}.

Definition mem_blob (r : ReaderAt) : list byte := r.

Definition memory : Type := list (gmap string (list byte)).

Definition mem_view (i : nat) (σ : sys memory) : gmap string (list byte) := default ∅ (sy_rest σ !! i).

Definition mem_find {B} (i : nat) (d : string) (zero : B) (ok : list byte → B) : Cs memory (B * option error) := λ σ,
  (match mem_view i σ !! d with Some b => (ok b, None) | None => (zero, Some ErrNotFound) end, σ).

Definition mem_Delete (i : nat) (d : string) : Cs memory (option error) := λ σ,
  (match mem_view i σ !! d with Some _ => None | None => Some ErrNotFound end,
   mkSys (sy_flags σ) (sy_published σ) (sy_now σ) (alter (delete d) i (sy_rest σ)) (sy_crashed σ)).

(** A writer that appends to what is at the empty digest *)
Definition mem_writer (i : nat) : Writer memory :=
  mkWriter (λ p, λ σ, ((length p, None),
      mkSys (sy_flags σ) (sy_published σ) (sy_now σ) (alter (λ m, <[EmptyString := default [] (m !! EmptyString) ++ p]> m) i (sy_rest σ)) (sy_crashed σ)))
    (λ _ expected _, λ σ, (None,
      mkSys (sy_flags σ) (sy_published σ) (sy_now σ) (alter (λ m, <[expected := default [] (m !! EmptyString)]> (delete EmptyString m)) i (sy_rest σ)) (sy_crashed σ)))
    (λ _, cs_ret None) (cs_ret None) (cs_ret EmptyString) (cs_ret (EmptyString, None)).

Definition mem_store (i : nat) : Store memory :=
  mkStore (λ d, mem_find i d EmptyString (λ _, d)) (λ desc, mem_find i (desc_Digest desc) None Some) (λ ref, cs_ret (ref, None)) (λ _, cs_ret ([], None))
    (λ _, cs_ret (Some (mem_writer i), None)) (mem_Delete i) (λ _, cs_ret None) (λ info _, cs_ret (info, None)) (λ _, Strand (λ _, cs_ret (inr None))).

Definition mem_quiet : relation (sys memory) := λ σ σ', sy_rest σ = sy_rest σ'.

#[local] Instance mem_quiet_equiv : Equivalence mem_quiet.
Proof. unfold mem_quiet. split; red; congruence. Defined.

Lemma mem_reads i : Reads mem_quiet mem_blob (mem_store i) (mem_view i).
Proof.
  split.
  - intros σ σ' Hq. unfold mem_view. by rewrite Hq.
  - intros d σ. simpl. unfold mem_find. split; [done |]. simpl. destruct (mem_view i σ !! d); by eexists.
  - intros desc σ. simpl. unfold mem_find. split; [done |]. simpl. destruct (mem_view i σ !! _) as [b|]; [exists (Some b); split; [done | by exists b] | by eexists].
Qed.

Lemma mem_misses i : Misses (mem_store i) (mem_view i).
Proof. split; intros d σ e Hd; simpl in *; unfold mem_find; rewrite Hd; by intros [= <-]. Qed.

(** A blob that only the second of two stores has, behind a fallback, an observer and an
    adapter; and one that no store has. *)
Definition mem_stack : stack := FallbackOf (ObservableOf [0] "primary" (BaseOf 0)) (ConvertOf (FanoutOf [BaseOf 2; SplitOf (BaseOf 2) [BaseOf 1]])).
Definition mem_state : sys memory := mkSys [] [] 0%Z [∅; {["sha256:a" := [Byte.x61]]}; ∅] false.

Lemma composite_reads_witness :
  sound mem_stack = true ∧ view_of mem_view mem_stack mem_state !! "sha256:a" = Some [Byte.x61]
  ∧ (let '(r, err, σ1) := s_ReaderAt (store_of mem_store mem_stack) (mkDescriptor "sha256:a" EmptyString) mem_state in
     let '(_, err', σ2) := s_Info (store_of mem_store mem_stack) "sha256:a" mem_state in
     (∀ d, view_of mem_view mem_stack σ1 !! d = view_of mem_view mem_stack mem_state !! d ∧ view_of mem_view mem_stack σ2 !! d = view_of mem_view mem_stack mem_state !! d)
     ∧ match view_of mem_view mem_stack mem_state !! "sha256:a" with
       | Some b => err = None ∧ err' = None ∧ mem_blob <$> r = Some b
       | None => ∃ e e', err = Some e ∧ err' = Some e' ∧ (tells mem_stack = true → IsNotFound e = true ∧ IsNotFound e' = true)
       end).
Proof.
  split_and!; [reflexivity | vm_compute; reflexivity |].
  apply (composite_reads mem_quiet mem_blob mem_store mem_view mem_stack (mkDescriptor "sha256:a" EmptyString) mem_state).
  - intros handlers source kind d err σ. unfold mem_quiet, emit_event. by destruct handlers.
  - exact mem_reads.
  - exact mem_misses.
  - reflexivity.
Defined.
End memory.
