(* ===== verification/CsWrite.v ===== *)
(** * CsWrite: deletion, writers, walks and options of composite content stores

    A fanout deletes as one store does; the writer of a fallback answers as the primary's does,
    whatever the secondary's does; a walk over a fanout gives each digest to its function once,
    and ends; the adapters between the versions lose the options of a writer and the field paths
    of an update. *)
From S2P Require Import Prelude GoStd CsStore CsLaws.
#[local] Open Scope cs_scope.

(** ** Deletion *)

Section delete.
Context `{ContentTypes, GoSched} {Σ : Type} (stores : list (Store Σ)) (views : list (sys Σ → gmap string (list byte))).
Context (d : string) (Hlen : length stores = length views).

(** The view of the store [j] after the stores [done] have deleted [d] *)
Definition deleted_in (done : list nat) (j : nat) (m : gmap string (list byte)) : gmap string (list byte) := if decide (j ∈ done) then delete d m else m.

(** A store deletes what it has, from its own view only, and says not-found otherwise. *)
Definition deletes_own (i : nat) (s : Store Σ) (v : sys Σ → gmap string (list byte)) : Prop := ∀ σ,
  (∀ j w, views !! j = Some w → w (s_Delete s d σ).2 = if decide (j = i) then delete d (w σ) else w σ)
  ∧ match v σ !! d with
    | Some _ => (s_Delete s d σ).1 = None
    | None => ∃ e, (s_Delete s d σ).1 = Some e ∧ IsNotFound e = true
    end.

Lemma union_view_ext (vs : list (sys Σ → gmap string (list byte))) σ σ' f :
  (∀ j v, vs !! j = Some v → v σ' = f (v σ)) → (∀ m1 m2, f (m1 ∪ m2) = f m1 ∪ f m2) → f ∅ = ∅ → union_view vs σ' = f (union_view vs σ).
Proof.
  intros Hv Hu He. unfold union_view. induction vs as [|v vs IH]; simpl; [done |]. rewrite Hu, <- IH; [| intros j w Hj; by apply (Hv (S j))].
  by rewrite (Hv 0 v eq_refl).
Qed.

Lemma union_view_None (vs : list (sys Σ → gmap string (list byte))) σ x : union_view vs σ !! x = None ↔ ∀ j v, vs !! j = Some v → v σ !! x = None.
Proof.
  induction vs as [|v vs IH].
  - split; [done |]. intros _. apply lookup_empty.
  - rewrite union_view_cons, union_None, IH. split.
    + intros [H1 H2] [|j] w Hj; simpl in Hj; [congruence | by eapply H2].
    + intros Hall. split; [by apply (Hall 0) | intros j w Hj; by apply (Hall (S j))].
Qed.

Lemma filter_none {A} (P : A → Prop) `{∀ x, Decision (P x)} l : (∀ x, x ∈ l → ¬ P x) → filter P l = [].
Proof. induction l as [|a l IH]; intros Hl; [done |]. rewrite filter_cons, decide_False by (apply Hl; by left). apply IH. intros x Hx. apply Hl. by right. Qed.

Lemma filterNotFound_all errs n : (∀ e, e ∈ errs → IsNotFound e = true) →
  filterNotFound errs n = if decide (length errs = n ∧ errs ≠ []) then Some ErrNotFound else None.
Proof.
  intros Hall. unfold filterNotFound. destruct errs as [|e errs]; [by rewrite decide_False by naive_solver |].
  rewrite (filter_all (λ e, IsNotFound e = true)) by (apply Forall_forall; exact Hall).
  rewrite (filter_none (λ e, IsNotFound e = false)) by (intros x Hx; by rewrite Hall). by repeat case_decide; naive_solver.
Qed.

Lemma omap_id_length {A} (l : list (option A)) : length (omap id l) ≤ length l ∧ (length (omap id l) = length l ↔ ∀ j, l !! j ≠ Some None).
Proof.
  induction l as [|[a|] l [IH1 IH2]]; cbn.
  - split; [lia |]. split; [intros _ [|j]; done | done].
  - split; [lia |]. split.
    + intros [= Hl] [|j]; simpl; [done |]. by apply IH2.
    + intros Hj. f_equal. apply IH2. intros j. apply (Hj (S j)).
  - split; [lia |]. split; [intros Hl; exfalso; lia |]. intros Hj. by destruct (Hj 0).
Qed.

(** C35: a fanout deletes as one store does.  When each store deletes from itself and reports
    what it has not as not found, then after [Delete], in whichever order the goroutines run,
    the union of the stores is what it was without the blob, and the result is nil if a store
    had it, and not-found if none had. *)
Theorem fanout_delete σ : (∀ i s v, stores !! i = Some s → views !! i = Some v → deletes_own i s v) →
  union_view views (s_Delete (fanout_store stores) d σ).2 = delete d (union_view views σ)
  ∧ (s_Delete (fanout_store stores) d σ).1 =
      match union_view views σ !! d with Some _ => None | None => if decide (stores = []) then None else Some ErrNotFound end.
Proof.
  intros Hdel. simpl. unfold fs_parallel, cs_bind, cs_ret.
  pose proof (par_calls_ind (λ cs, s_Delete cs d) stores
    (λ done σ', ∀ j v, views !! j = Some v → v σ' = deleted_in done j (v σ))
    (λ i _ e, ∀ v, views !! i = Some v → match v σ !! d with Some _ => e = None | None => ∃ e', e = Some e' ∧ IsNotFound e' = true end) σ) as Hpar.
  destruct (par_calls _ stores σ) as [errs σ'] eqn:Hp. destruct Hpar as ((order & Horder & Hview) & Hle & Herrs).
  { intros j v _. unfold deleted_in. by rewrite decide_False by set_solver. }
  { intros done i s σ1 Hi Hnin HI. destruct (lookup_lt_is_Some_2 views i) as [vi Hvi]; [rewrite <- Hlen; by eapply lookup_lt_Some |].
    destruct (Hdel i s vi Hi Hvi σ1) as [Hv He]. split.
    - intros v Hv'. assert (vi = v) as -> by congruence. rewrite (HI i v Hvi) in He. unfold deleted_in in He. by rewrite decide_False in He.
    - intros j w Hj. rewrite (Hv j w Hj), (HI j w Hj). unfold deleted_in. repeat case_decide; try done; subst; set_solver. }
  simpl. split.
  - apply union_view_ext; [| intros; apply delete_union | apply delete_empty].
    intros j v Hj. rewrite (Hview j v Hj). unfold deleted_in. rewrite decide_True; [done |].
    rewrite Horder. apply elem_of_seq. apply lookup_lt_Some in Hj. lia.
  - rewrite filterNotFound_all.
    2: { intros e He. apply list_elem_of_omap in He as (o & Ho & Heo). unfold id in Heo. subst o. apply list_elem_of_lookup in Ho as [i Hi].
      destruct (lookup_lt_is_Some_2 stores i) as [s Hs]; [rewrite <- Hle; by eapply lookup_lt_Some |].
      destruct (lookup_lt_is_Some_2 views i) as [v Hv]; [rewrite <- Hlen; by eapply lookup_lt_Some |].
      specialize (Herrs i s (Some e) Hs Hi v Hv). destruct (v σ !! d); naive_solver. }
    pose proof (omap_id_length errs) as [_ Hom]. rewrite Hle in Hom.
    destruct (union_view views σ !! d) as [b|] eqn:Hu.
    + rewrite decide_False; [done |]. intros [Hl _]. rewrite Hom in Hl.
      assert (union_view views σ !! d = None) as Hn; [| congruence]. apply union_view_None. intros j v Hj.
      destruct (lookup_lt_is_Some_2 stores j) as [s Hs]; [rewrite Hlen; by eapply lookup_lt_Some |].
      destruct (lookup_lt_is_Some_2 errs j) as [o Ho]; [rewrite Hle; by eapply lookup_lt_Some |].
      specialize (Herrs j s o Hs Ho v Hj). destruct (v σ !! d); [| done]. subst o. by destruct (Hl j).
    + rewrite union_view_None in Hu.
      assert (length (omap id errs) = length stores) as Hl.
      { apply Hom. intros j Hj. destruct (lookup_lt_is_Some_2 stores j) as [s Hs]; [rewrite <- Hle; by eapply lookup_lt_Some |].
        destruct (lookup_lt_is_Some_2 views j) as [v Hv]; [rewrite <- Hlen; by eapply lookup_lt_Some |].
        specialize (Herrs j s None Hs Hj v Hv). rewrite (Hu j v Hv) in Herrs. naive_solver. }
      destruct stores as [|s0 ss]; simpl in *.
      * destruct (omap id errs); [by rewrite decide_False by naive_solver | simpl in Hl; lia].
      * rewrite decide_True; [done |]. split; [done |]. intros Hn. rewrite Hn in Hl. simpl in Hl. lia.
Qed.
End delete.

(** ** Writers *)

Section calls.
Context `{ContentTypes} {Σ : Type}.

Inductive wcall :=
  | CWrite (p : list byte)
  | CCommit (size : Z) (expected : string) (opts : list Opt)
  | CTruncate (size : Z)
  | CClose
  | CDigest
  | CStatus.

Inductive wres :=
  | RWrite (n : nat) (err : option error)
  | RErr (err : option error)
  | RDigest (d : string)
  | RStatus (st : Status) (err : option error).

Definition do_wcall (w : Writer Σ) (c : wcall) : Cs Σ wres :=
  match c with
  | CWrite p => let! (n, err) := w_Write w p in cs_ret (RWrite n err)
  | CCommit size expected opts => let! err := w_Commit w size expected opts in cs_ret (RErr err)
  | CTruncate size => let! err := w_Truncate w size in cs_ret (RErr err)
  | CClose => let! err := w_Close w in cs_ret (RErr err)
  | CDigest => let! d := w_Digest w in cs_ret (RDigest d)
  | CStatus => let! (st, err) := w_Status w in cs_ret (RStatus st err)
  end.

Definition do_wcalls (w : Writer Σ) (cs : list wcall) : Cs Σ (list wres) := each_call (do_wcall w) cs.

(** The same result, up to the text of its error; a [Close] may fail where the other does not. *)
Definition answers (c : wcall) (r r' : wres) : Prop :=
  match c, r, r' with
  | CWrite _, RWrite n e, RWrite n' e' => n = n' ∧ (is_Some e ↔ is_Some e')
  | CClose, RErr e, RErr e' => is_Some e → is_Some e'
  | (CCommit _ _ _ | CTruncate _), RErr e, RErr e' => is_Some e ↔ is_Some e'
  | (CDigest | CStatus), r, r' => r = r'
  | _, _, _ => False
  end.
End calls.

Section transparent.
Context `{ContentTypes, GoSched} {Σ P : Type} (ρ : Σ → P).

(** The part [ρ] of the state of the stores, and whether the program still runs *)
Definition seen (σ : sys Σ) : P * bool := (ρ (sy_rest σ), sy_crashed σ).
#[local] Arguments seen : simpl never.

(** A call that this part alone decides, and one that does not touch it *)
Definition local_call {A} (m : Cs Σ A) : Prop := ∀ σ σ',
  seen σ = seen σ' → (m σ).1 = (m σ').1 ∧ seen (m σ).2 = seen (m σ').2.
Definition inert {A} (m : Cs Σ A) : Prop := ∀ σ, seen (m σ).2 = seen σ.

Definition local_writer (w : Writer Σ) : Prop :=
  (∀ c, local_call (do_wcall w c)) ∧ ∀ p σ n, (w_Write w p σ).1 = (n, None) → n = length p.
Definition inert_writer (w : Writer Σ) : Prop := ∀ c, inert (do_wcall w c).

Lemma inert_ret {A} (a : A) : inert (cs_ret a : Cs Σ A).
Proof. done. Qed.

Lemma inert_bind {A B} (m : Cs Σ A) (f : A → Cs Σ B) : inert m → (∀ a, inert (f a)) → inert (cs_bind m f).
Proof. intros Hm Hf σ. unfold cs_bind. specialize (Hm σ). destruct (m σ) as [a σ1]. simpl in *. by rewrite Hf. Qed.

(** Everything of an inert writer is inert. *)
Lemma inert_writer_ops w : inert_writer w →
  (∀ p, inert (w_Write w p)) ∧ (∀ size expected opts, inert (w_Commit w size expected opts)) ∧ (∀ size, inert (w_Truncate w size)) ∧ inert (w_Close w).
Proof.
  intros Hw. split_and!; [intros p σ; specialize (Hw (CWrite p) σ) | intros z e o σ; specialize (Hw (CCommit z e o) σ) |
    intros z σ; specialize (Hw (CTruncate z) σ) | intros σ; specialize (Hw CClose σ)]; simpl in Hw; unfold cs_bind in Hw;
    [destruct (w_Write w p σ) as [[? ?] ?] | destruct (w_Commit w z e o σ) | destruct (w_Truncate w z σ) | destruct (w_Close w σ)]; exact Hw.
Qed.

Lemma inert_absorb inner r call : inert (w_Close inner) → inert call → inert (absorb inner r call).
Proof.
  intros Hc Hcall. apply inert_bind; [done |]. intros [|]; [done |]. apply inert_bind; [done |]. intros [e|]; [| done].
  apply inert_bind; [intros σ; unfold cas_failed; by destruct (_ !! r) as [[|]|] |]. intros [|]; [| done]. by apply inert_bind.
Qed.

(** The calls of a resilient writer succeed, apart from [Close], and are inert. *)
Lemma resilient_calls inner r : inert_writer inner →
  (∀ p σ, (rw_Write inner r p σ).1 = (length p, None)) ∧ (∀ z e o σ, (rw_Commit inner r z e o σ).1 = None) ∧ (∀ z σ, (rw_Truncate inner r z σ).1 = None)
  ∧ (∀ p, inert (rw_Write inner r p)) ∧ (∀ z e o, inert (rw_Commit inner r z e o)) ∧ (∀ z, inert (rw_Truncate inner r z)) ∧ inert (rw_Close inner r).
Proof.
  intros Hw. destruct (inert_writer_ops inner Hw) as (H1 & H2 & H3 & H4). unfold rw_Write, rw_Commit, rw_Truncate, rw_Close. split_and!.
  - intros p σ. unfold cs_bind. by destruct (absorb _ _ _ σ).
  - intros z e o σ. unfold cs_bind. by destruct (absorb _ _ _ σ).
  - intros z σ. unfold cs_bind. by destruct (absorb _ _ _ σ).
  - intros p. apply inert_bind; [| done]. apply inert_absorb; [done |]. apply inert_bind; [done |]. by intros [].
  - intros z e o. apply inert_bind; [| done]. by apply inert_absorb.
  - intros z. apply inert_bind; [| done]. by apply inert_absorb.
  - apply inert_bind; [done |]. by intros [].
Qed.

(** The two goroutines of [fanout], in whichever order *)
Lemma fanout_two (f : Writer Σ → Cs Σ (option error)) pw sw σ : local_call (f pw) → inert (f sw) →
  let '(e, σ') := fw_fanout f [pw; sw] σ in
  (is_Some (f pw σ).1 → is_Some e) ∧ ((∀ σ, (f sw σ).1 = None) → is_Some (f pw σ).1 ↔ is_Some e) ∧ seen σ' = seen (f pw σ).2.
Proof.
  intros Hp Hs. unfold fw_fanout. change (length [pw; sw]) with 2. assert (sched_order 2 = [0; 1] ∨ sched_order 2 = [1; 0]) as [-> | ->].
  { pose proof (sched_perm 2) as H2. simpl in H2. destruct (sched_order 2) as [|a [|b [|]]]; apply Permutation_length in H2 as Hl; simplify_eq/=.
    assert (a ∈ [0; 1] ∧ b ∈ [0; 1]) as [Ha Hb] by (rewrite <- H2; set_solver).
    assert (NoDup [a; b]) as Hnd by (rewrite H2; repeat constructor; set_solver). apply NoDup_cons in Hnd as [Hn _]. set_solver. }
  - simpl. unfold cs_bind, cs_ret. destruct (f pw σ) as [ep σ1] eqn:H1. pose proof (Hs σ1) as H2. destruct (f sw σ1) as [es σ2] eqn:H3. simpl in *. split_and!; [| | done].
    + intros [e ->]. simpl. by eexists.
    + intros Hn. specialize (Hn σ1). rewrite H3 in Hn. simpl in Hn. subst es. destruct ep; simpl; [by split; eexists |]. split; by intros [? ?].
  - simpl. unfold cs_bind, cs_ret. pose proof (Hs σ) as H2. destruct (f sw σ) as [es σ1] eqn:H3. simpl in H2.
    destruct (Hp σ1 σ H2) as [H4 H5]. destruct (f pw σ1) as [ep σ2], (f pw σ) as [ep' σ2']. simpl in *. subst ep'. split_and!; [| | done].
    + intros [e ->]. destruct es; simpl; by eexists.
    + intros Hn. specialize (Hn σ). rewrite H3 in Hn. simpl in Hn. subst es. destruct ep; simpl; [by split; eexists |]. split; by intros [? ?].
Qed.

(** One call of the writer of a fallback *)
Lemma fallback_wcall pw sw r c σ : local_writer pw → inert_writer sw →
  let w := fanout_writer [pw; mkWriter (rw_Write sw r) (rw_Commit sw r) (rw_Truncate sw r) (rw_Close sw r) (w_Digest sw) (w_Status sw)] in
  answers c (do_wcall pw c σ).1 (do_wcall w c σ).1 ∧ seen (do_wcall w c σ).2 = seen (do_wcall pw c σ).2.
Proof.
  intros [Hl Hn] Hs. destruct (resilient_calls sw r Hs) as (R1 & R2 & R3 & I1 & I2 & I3 & I4).
  assert (∀ (f : Cs Σ (option error)), local_call (let! err := f in cs_ret (RErr err)) → local_call f) as Hloc.
  { intros f Hf σ1 σ2 Hr. specialize (Hf σ1 σ2 Hr). unfold cs_bind in Hf. destruct (f σ1), (f σ2). simpl in *. destruct Hf as [[= ->] ?]. done. }
  destruct c as [p|z e o|z| | |]; simpl.
  - unfold cs_bind. specialize (Hn p σ). destruct (w_Write pw p σ) as [[n [e|]] σ1]; simpl.
    + split; [| done]. split; [done |]. split; intros _; by eexists.
    + specialize (Hn n eq_refl). subst n. rewrite decide_False by lia. specialize (R1 p σ1). specialize (I1 p σ1).
      destruct (rw_Write sw r p σ1) as [[n es] σ2]. simpl in *. injection R1 as -> ->. rewrite decide_False by lia. simpl. done.
  - pose proof (fanout_two (λ w, w_Commit w z e o) pw (mkWriter (rw_Write sw r) (rw_Commit sw r) (rw_Truncate sw r) (rw_Close sw r) (w_Digest sw) (w_Status sw)) σ
      (Hloc _ (Hl (CCommit z e o))) (I2 z e o)) as Hf.
    unfold cs_bind. destruct (fw_fanout _ _ σ) as [ef σ1]. destruct Hf as (_ & H2 & H3). specialize (H2 (R2 z e o)). simpl in *.
    by destruct (w_Commit pw z e o σ) as [ep σ2].
  - unfold fw_Truncate, cs_bind. simpl. unfold cs_bind. destruct (w_Truncate pw z σ) as [ep σ1]. specialize (R3 z σ1). specialize (I3 z σ1).
    destruct (rw_Truncate sw r z σ1) as [es σ2]. simpl in *. subst es. split; [| done]. destruct ep; simpl; [split; intros _; by eexists |]. done.
  - pose proof (fanout_two w_Close pw (mkWriter (rw_Write sw r) (rw_Commit sw r) (rw_Truncate sw r) (rw_Close sw r) (w_Digest sw) (w_Status sw)) σ
      (Hloc _ (Hl CClose)) I4) as Hf.
    unfold cs_bind. destruct (fw_fanout _ _ σ) as [ef σ1]. destruct Hf as (H1 & _ & H3). by destruct (w_Close pw σ) as [ep σ2].
  - unfold cs_bind. by destruct (w_Digest pw σ).
  - unfold cs_bind. by destruct (w_Status pw σ) as [[]].
Qed.

Lemma each_call_cons {A B} (f : A → Cs Σ B) a l σ :
  each_call f (a :: l) σ = let '(b, σ1) := f a σ in let '(bs, σ2) := each_call f l σ1 in (b :: bs, σ2).
Proof. done. Qed.

(** Whatever the calls, [w] in [σ'] answers as [pw] in [σ]. *)
Definition stands_for (w : Writer Σ) (σ' : sys Σ) (pw : Writer Σ) (σ : sys Σ) : Prop := ∀ cs,
  (∀ i c r r', cs !! i = Some c → (do_wcalls pw cs σ).1 !! i = Some r → (do_wcalls w cs σ').1 !! i = Some r' → answers c r r')
  ∧ length (do_wcalls w cs σ').1 = length cs ∧ seen (do_wcalls w cs σ').2 = seen (do_wcalls pw cs σ).2.

Lemma wcalls_answer pw w σ σ' : (∀ c, local_call (do_wcall pw c)) →
  (∀ c σ, answers c (do_wcall pw c σ).1 (do_wcall w c σ).1 ∧ seen (do_wcall w c σ).2 = seen (do_wcall pw c σ).2) →
  seen σ = seen σ' → stands_for w σ' pw σ.
Proof.
  intros Hl Hstep Hr cs. unfold do_wcalls. revert σ σ' Hr. induction cs as [|c cs IH]; intros σ σ' Hr; [by split_and! |].
  destruct (Hstep c σ') as [Ha Hb]. destruct (Hl c σ σ' Hr) as [H1 H2]. rewrite !each_call_cons.
  destruct (do_wcall pw c σ') as [x σ1], (do_wcall pw c σ) as [x' σ1'], (do_wcall w c σ') as [y σ2]. simpl in Ha, Hb, H1, H2. subst x'.
  destruct (IH σ1' σ2) as (Hi1 & Hi2 & Hi3); [congruence |].
  destruct (each_call (do_wcall pw) cs σ1') as [rs σ3], (each_call (do_wcall w) cs σ2) as [rs' σ4]. simpl in *. split_and!; [| lia | done].
  intros [|i] c' r1 r2 H3 H4 H5; simpl in *; [by simplify_eq |]. by eapply Hi1.
Qed.

Lemma answers_self (w : Writer Σ) c σ : answers c (do_wcall w c σ).1 (do_wcall w c σ).1.
Proof.
  destruct c; simpl; unfold cs_bind; repeat match goal with |- context [let '(_, _) := ?m in _] => destruct m as [? ?] end; simpl; done.
Qed.
End transparent.

(** C34: the secondary of a fallback has next to no influence.  The writer that the fallback
    opens answers any sequence of calls as the primary's writer does: [Write] with the same
    length, [Write], [Commit] and [Truncate] with an error exactly when the primary's has one,
    [Digest] and [Status] with the same result; and it leaves the primary's part of the state as
    the primary's writer does, without a crash of its own, whatever the secondary's writer does:
    fail, write less, or fail to open.  Only [Close] differs: it fails when the primary's does,
    and the secondary can make it fail where that does not.  (The primary's writer is decided by
    the primary's part of the state and writes all or fails; the secondary's does not touch that
    part, and comes with an error or is not nil.) *)
Theorem fallback_writer_transparent `{ContentTypes, GoSched} {Σ P} (ρ : Σ → P) (primary secondary : Store Σ) opts σ pw σ1 :
  s_Writer primary opts σ = ((Some pw, None), σ1) → local_writer ρ pw →
  (∀ σ, let '((sw, err), σ') := s_Writer secondary opts σ in
    seen ρ σ' = seen ρ σ ∧ (err = None → is_Some sw) ∧ ∀ w, sw = Some w → inert_writer ρ w) →
  ∃ w σ2, fb_Writer primary secondary opts σ = ((Some w, None), σ2) ∧ seen ρ σ2 = seen ρ σ1 ∧ stands_for ρ w σ2 pw σ1.
Proof.
  intros Hpw Hl Hs. unfold fb_Writer, cs_bind. rewrite Hpw. specialize (Hs σ1).
  destruct (s_Writer secondary opts σ1) as [[sw err] σ2]. destruct Hs as (Hr & Hsome & Hi).
  destruct err as [e|].
  - exists pw, σ2. split_and!; [done.. |]. apply wcalls_answer; [apply Hl | | done]. intros c σ0. split; [apply answers_self | done].
  - destruct (Hsome eq_refl) as [w ->]. eexists _, _. split_and!; [reflexivity | by rewrite <- Hr |].
    apply wcalls_answer; [apply Hl | | by rewrite <- Hr]. intros c σ'. by apply fallback_wcall, Hi.
Qed.

(** ** Walks *)

Section walks.
Context `{ContentTypes} {Σ : Type} (fn : Info → Cs Σ (option error)).

Notation digests := (fmap Info_Digest).

(** The function is being called with an info, or an info waits for a [seen] map of a fanout
    that is less than [n] deep. *)
Definition calling (x : strand (Σ := Σ)) : list Info := match sd_at x with AtCall info => [info] | _ => [] end.
Definition calls (st : walking (Σ := Σ)) : list Info := wk_called st ++ flat_map calling (wk_strands st).
Definition waits (l : list (strand (Σ := Σ))) (d : string) (n : nat) : Prop := ∃ j x info place,
  l !! j = Some x ∧ sd_at x = AtLoad info place ∧ Info_Digest info = d ∧ length place < n.
Definition handed (st : walking (Σ := Σ)) : list Info := flat_map sd_out (wk_strands st).

(** What a goroutine has of its store: each info was the answer to its turn, and it ended
    without an error when the store said so. *)
Definition strand_ok (errs : list error) (x : strand (Σ := Σ)) : Prop :=
  (∀ info place, sd_at x = AtLoad info place → info ∈ sd_out x)
  ∧ (∀ k info, sd_out x !! k = Some info → ∃ σ, (sd_next x k σ).1 = inl info)
  ∧ (errs = [] → sd_at x = AtEnd → ∃ σ, (sd_next x (length (sd_out x)) σ).1 = inr None).

Record walk_inv (st : walking (Σ := Σ)) : Prop := {
  wi_nodup : NoDup (digests (calls st));
  wi_top d : ([], d) ∈ wk_seen st ↔ d ∈ digests (calls st);
  wi_seen g d : (g, d) ∈ wk_seen st → ([], d) ∈ wk_seen st ∨ waits (wk_strands st) d (length g);
  wi_calls info : info ∈ calls st → info ∈ handed st;
  wi_handed info : info ∈ handed st → ([], Info_Digest info) ∈ wk_seen st ∨ ∃ n, waits (wk_strands st) (Info_Digest info) n;
  wi_strands : Forall (strand_ok (wk_errs st)) (wk_strands st);
}.

Lemma flat_map_set {A B} (f : A → list B) l i x y : l !! i = Some x →
  ∃ l1 l2, flat_map f l = l1 ++ f x ++ l2 ∧ flat_map f (<[i := y]> l) = l1 ++ f y ++ l2.
Proof.
  intros Hi. exists (flat_map f (take i l)), (flat_map f (drop (Datatypes.S i) l)). split.
  - rewrite <- (take_drop_middle l i x Hi) at 1. by rewrite flat_map_app.
  - rewrite insert_take_drop by (by eapply lookup_lt_Some). by rewrite flat_map_app.
Qed.

Lemma flat_map_same {A B} (f : A → list B) l i x y : l !! i = Some x → f y = f x → flat_map f (<[i := y]> l) = flat_map f l.
Proof. intros Hi E. destruct (flat_map_set f l i x y Hi) as (l1 & l2 & -> & ->). by rewrite E. Qed.

(** One that waits still waits when another goroutine has moved. *)
Lemma waits_set l i x y d n : l !! i = Some x → waits l d n →
  waits (<[i := y]> l) d n ∨ ∃ info place, sd_at x = AtLoad info place ∧ Info_Digest info = d ∧ length place < n.
Proof.
  intros Hi (j & z & info & place & Hj & Hz). destruct (decide (j = i)) as [->|Hne].
  - rewrite Hi in Hj. injection Hj as <-. right. by eexists _, _.
  - left. exists j, z, info, place. by rewrite list_lookup_insert_ne.
Qed.

Lemma waits_here l i x y info place n : l !! i = Some x → sd_at y = AtLoad info place → length place < n →
  waits (<[i := y]> l) (Info_Digest info) n.
Proof. intros Hi Hy Hn. exists i, y, info, place. rewrite list_lookup_insert_eq by (by eapply lookup_lt_Some). done. Qed.

Lemma waits_not_loading l i x y d n : l !! i = Some x → (∀ info place, sd_at x ≠ AtLoad info place) → waits l d n → waits (<[i := y]> l) d n.
Proof. intros Hi Hx Hw. destruct (waits_set l i x y d n Hi Hw) as [?|(info & place & E & _)]; [done | by destruct (Hx info place)]. Qed.

Lemma strand_ok_errs errs e x : strand_ok errs x → strand_ok (errs ++ e) x.
Proof. intros (H1 & H2 & H3). split_and!; [done | done |]. intros [He _]%app_nil. by apply H3. Qed.

Lemma strands_set errs e l i y : Forall (strand_ok errs) l → strand_ok (errs ++ e) y → Forall (strand_ok (errs ++ e)) (<[i := y]> l).
Proof. intros Hl Hy. apply Forall_insert; [| done]. eapply Forall_impl; [exact Hl |]. intros x. apply strand_ok_errs. Qed.

(** The next info of a store *)
Lemma next_info_inv st i x info σ : walk_inv st → wk_strands st !! i = Some x → sd_at x = AtNext →
  (sd_next x (length (sd_out x)) (wk_state st)).1 = inl info →
  walk_inv (mkWalking (<[i := hand_out x info]> (wk_strands st)) (wk_seen st) (wk_called st) (wk_errs st) σ).
Proof.
  intros [Hnd Htop Hseen Hcalls Hout Hok] Hi Hx Hnext.
  assert (∀ d n, waits (wk_strands st) d n → waits (<[i := hand_out x info]> (wk_strands st)) d n) as Hw
    by (intros d n; apply waits_not_loading with x; [done | by rewrite Hx]).
  assert (flat_map calling (<[i := hand_out x info]> (wk_strands st)) = flat_map calling (wk_strands st)) as Ec
    by (apply flat_map_same with x; [done | unfold calling; by rewrite Hx]).
  destruct (flat_map_set sd_out (wk_strands st) i x (hand_out x info) Hi) as (l1 & l2 & Eo & Eo').
  assert (∀ y, y ∈ flat_map sd_out (<[i := hand_out x info]> (wk_strands st)) ↔ y ∈ handed st ∨ y = info) as Ho.
  { intros y. unfold handed. rewrite Eo, Eo'. simpl. set_solver. }
  pose proof (Forall_lookup_1 _ _ _ _ Hok Hi) as (H1 & H2 & H3).
  constructor; unfold calls, handed in *; simpl; rewrite ?Ec; try done.
  - intros g d Hg. destruct (Hseen g d Hg) as [?|?]; [by left | right; by apply Hw].
  - intros y Hy. apply Ho. left. by apply Hcalls.
  - intros y [Hy| ->]%Ho.
    + destruct (Hout y Hy) as [?|[n Hn]]; [by left | right; exists n; by apply Hw].
    + right. exists (Datatypes.S (length (sd_place x))). eapply waits_here; [done | simpl; done | lia].
  - rewrite <- (app_nil_r (wk_errs st)). apply strands_set; [done |]. split_and!; simpl; [| | done].
    + intros info' place' [= -> _]. set_solver.
    + intros k y [Hk|[-> <-]]%lookup_snoc_Some; [by apply H2; tauto | by eexists].
Qed.

(** The end of a store's walk, by itself or by an error *)
Lemma next_end_inv st i x err σ : walk_inv st → wk_strands st !! i = Some x → sd_at x = AtNext →
  (sd_next x (length (sd_out x)) (wk_state st)).1 = inr err →
  walk_inv (mkWalking (<[i := go_on x AtEnd]> (wk_strands st)) (wk_seen st) (wk_called st) (wk_errs st ++ option_list err) σ).
Proof.
  intros [Hnd Htop Hseen Hcalls Hout Hok] Hi Hx Hnext.
  assert (∀ d n, waits (wk_strands st) d n → waits (<[i := go_on x AtEnd]> (wk_strands st)) d n) as Hw
    by (intros d n; apply waits_not_loading with x; [done | by rewrite Hx]).
  assert (flat_map calling (<[i := go_on x AtEnd]> (wk_strands st)) = flat_map calling (wk_strands st)) as Ec
    by (apply flat_map_same with x; [done | unfold calling; by rewrite Hx]).
  assert (flat_map sd_out (<[i := go_on x AtEnd]> (wk_strands st)) = flat_map sd_out (wk_strands st)) as Eo by by apply flat_map_same with x.
  pose proof (Forall_lookup_1 _ _ _ _ Hok Hi) as (H1 & H2 & H3).
  constructor; unfold calls, handed in *; simpl; rewrite ?Ec, ?Eo; try done.
  - intros g d Hg. destruct (Hseen g d Hg) as [?|?]; [by left | right; by apply Hw].
  - intros y Hy. destruct (Hout y Hy) as [?|[n Hn]]; [by left | right; exists n; by apply Hw].
  - apply strands_set; [done |]. split_and!; simpl; [done | done |]. intros [_ He]%app_nil _. destruct err; [done |]. by eexists.
Qed.

(** A [LoadOrStore] that finds the digest: whoever stored it has come further. *)
Lemma load_known_inv st i x info place : walk_inv st → wk_strands st !! i = Some x → sd_at x = AtLoad info place →
  (place, Info_Digest info) ∈ wk_seen st →
  walk_inv (mkWalking (<[i := go_on x AtNext]> (wk_strands st)) (wk_seen st) (wk_called st) (wk_errs st) (wk_state st)).
Proof.
  intros [Hnd Htop Hseen Hcalls Hout Hok] Hi Hx Hin.
  assert (flat_map calling (<[i := go_on x AtNext]> (wk_strands st)) = flat_map calling (wk_strands st)) as Ec
    by (apply flat_map_same with x; [done | unfold calling; by rewrite Hx]).
  assert (flat_map sd_out (<[i := go_on x AtNext]> (wk_strands st)) = flat_map sd_out (wk_strands st)) as Eo by by apply flat_map_same with x.
  assert (∀ n, length place < n → ([], Info_Digest info) ∈ wk_seen st ∨ waits (<[i := go_on x AtNext]> (wk_strands st)) (Info_Digest info) n) as Hother.
  { intros n Hn. destruct (Hseen _ _ Hin) as [?|Hwait]; [by left | right].
    apply (waits_set _ i x (go_on x AtNext)) in Hwait as [(j & y & info' & p & Hj & Hy & Hd & Hp)|(info' & p & E & _ & Hp)]; [| rewrite Hx in E; injection E as <- <-; lia | done].
    exists j, y, info', p. split_and!; [done.. | lia]. }
  assert (∀ d n, waits (wk_strands st) d n → ([], d) ∈ wk_seen st ∨ waits (<[i := go_on x AtNext]> (wk_strands st)) d n) as Hw.
  { intros d n Hd. apply (waits_set _ i x (go_on x AtNext)) in Hd as [?|(info' & p & E & <- & Hp)]; [by right | | done].
    rewrite Hx in E. injection E as <- <-. by apply Hother. }
  pose proof (Forall_lookup_1 _ _ _ _ Hok Hi) as (H1 & H2 & H3).
  constructor; unfold calls, handed in *; simpl; rewrite ?Ec, ?Eo; try done.
  - intros g d Hg. destruct (Hseen g d Hg) as [?|?]; [by left | by apply Hw].
  - intros y Hy. destruct (Hout y Hy) as [?|[n Hn]]; [by left |]. apply Hw in Hn as [?|?]; [by left | right; by exists n].
  - rewrite <- (app_nil_r (wk_errs st)). apply strands_set; [done |]. by split_and!.
Qed.

(** A [LoadOrStore] of a new digest in an inner fanout goes on to the one around it. *)
Lemma load_inner_inv st i x info a outer : walk_inv st → wk_strands st !! i = Some x → sd_at x = AtLoad info (a :: outer) →
  walk_inv (mkWalking (<[i := go_on x (AtLoad info outer)]> (wk_strands st)) ({[(a :: outer, Info_Digest info)]} ∪ wk_seen st)
    (wk_called st) (wk_errs st) (wk_state st)).
Proof.
  intros [Hnd Htop Hseen Hcalls Hout Hok] Hi Hx. set (y := go_on x (AtLoad info outer)).
  assert (flat_map calling (<[i := y]> (wk_strands st)) = flat_map calling (wk_strands st)) as Ec
    by (apply flat_map_same with x; [done | unfold calling; by rewrite Hx]).
  assert (flat_map sd_out (<[i := y]> (wk_strands st)) = flat_map sd_out (wk_strands st)) as Eo by by apply flat_map_same with x.
  assert (∀ n, length outer < n → waits (<[i := y]> (wk_strands st)) (Info_Digest info) n) as Hhere
    by (intros n Hn; by eapply waits_here).
  assert (∀ d n, waits (wk_strands st) d n → waits (<[i := y]> (wk_strands st)) d n) as Hw.
  { intros d n Hd. apply (waits_set _ i x y) in Hd as [?|(info' & p & E & <- & Hp)]; [done | | done].
    rewrite Hx in E. injection E as <- <-. apply Hhere. simpl in Hp. lia. }
  assert (∀ d, ([], d) ∈ {[(a :: outer, Info_Digest info)]} ∪ wk_seen st ↔ ([], d) ∈ wk_seen st) as Hn
    by (intros d; rewrite elem_of_union, elem_of_singleton; naive_solver).
  pose proof (Forall_lookup_1 _ _ _ _ Hok Hi) as (H1 & H2 & H3).
  constructor; unfold calls, handed in *; simpl; rewrite ?Ec, ?Eo; try done.
  - intros d. rewrite Hn. apply Htop.
  - intros g d. rewrite Hn, elem_of_union, elem_of_singleton. intros [[= -> ->]|Hg]; [right; apply Hhere; simpl; lia |].
    destruct (Hseen g d Hg) as [?|?]; [by left | right; by apply Hw].
  - intros z Hz. rewrite Hn. destruct (Hout z Hz) as [?|[n Hm]]; [by left | right; exists n; by apply Hw].
  - rewrite <- (app_nil_r (wk_errs st)). apply strands_set; [done |]. split_and!; simpl; [| done | done].
    intros info' place' [= <- _]. by eapply H1.
Qed.

(** A new digest of the outermost fanout is called. *)
Lemma load_outer_inv st i x info : walk_inv st → wk_strands st !! i = Some x → sd_at x = AtLoad info [] →
  ([], Info_Digest info) ∉ wk_seen st →
  walk_inv (mkWalking (<[i := go_on x (AtCall info)]> (wk_strands st)) ({[([], Info_Digest info)]} ∪ wk_seen st)
    (wk_called st) (wk_errs st) (wk_state st)).
Proof.
  intros [Hnd Htop Hseen Hcalls Hout Hok] Hi Hx Hnew. set (y := go_on x (AtCall info)).
  destruct (flat_map_set calling (wk_strands st) i x y Hi) as (l1 & l2 & Ec & Ec').
  assert (wk_called st ++ flat_map calling (<[i := y]> (wk_strands st)) ≡ₚ info :: calls st) as Hp.
  { unfold calls. rewrite Ec, Ec'. unfold calling at 1 2. rewrite Hx. simpl. solve_Permutation. }
  assert (flat_map sd_out (<[i := y]> (wk_strands st)) = flat_map sd_out (wk_strands st)) as Eo by by apply flat_map_same with x.
  assert (∀ d n, waits (wk_strands st) d n → d = Info_Digest info ∨ waits (<[i := y]> (wk_strands st)) d n) as Hw.
  { intros d n Hd. apply (waits_set _ i x y) in Hd as [?|(info' & p & E & <- & Hp')]; [by right | | done]. left. rewrite Hx in E. by injection E as <- _. }
  pose proof (Forall_lookup_1 _ _ _ _ Hok Hi) as (H1 & H2 & H3).
  constructor; unfold handed in *; simpl; rewrite ?Eo; try done.
  - unfold calls. simpl. rewrite Hp. simpl. constructor; [by rewrite <- Htop | done].
  - intros d. unfold calls. simpl. rewrite Hp. simpl. rewrite elem_of_cons, elem_of_union, elem_of_singleton, <- Htop. naive_solver.
  - intros g d. rewrite !elem_of_union, !elem_of_singleton. intros [[= -> ->]|Hg]; [by left; left |].
    destruct (Hseen g d Hg) as [?|[->|?]%Hw]; [by left; right | by left; left | by right].
  - intros z. unfold calls. simpl. rewrite Hp, elem_of_cons. intros [->|Hz]; [| by apply Hcalls].
    apply list_elem_of_In, in_flat_map. exists x. split; apply list_elem_of_In; [by eapply list_elem_of_lookup_2 | by eapply H1].
  - intros z Hz. rewrite elem_of_union, elem_of_singleton. destruct (Hout z Hz) as [?|[n [->|?]%Hw]]; [by left; right | by left; left | right; by exists n].
  - rewrite <- (app_nil_r (wk_errs st)). apply strands_set; [done |]. by split_and!.
Qed.

(** The call of the function *)
Lemma call_inv st i x info e σ : walk_inv st → wk_strands st !! i = Some x → sd_at x = AtCall info →
  walk_inv (mkWalking (<[i := go_on x (match e with None => AtNext | Some _ => AtEnd end)]> (wk_strands st)) (wk_seen st)
    (wk_called st ++ [info]) (wk_errs st ++ option_list e) σ).
Proof.
  intros [Hnd Htop Hseen Hcalls Hout Hok] Hi Hx. set (y := go_on x _).
  destruct (flat_map_set calling (wk_strands st) i x y Hi) as (l1 & l2 & Ec & Ec').
  assert ((wk_called st ++ [info]) ++ flat_map calling (<[i := y]> (wk_strands st)) ≡ₚ calls st) as Hp.
  { unfold calls. rewrite Ec, Ec'. assert (calling y = []) as -> by by destruct e. unfold calling at 1. rewrite Hx. simpl. solve_Permutation. }
  assert (flat_map sd_out (<[i := y]> (wk_strands st)) = flat_map sd_out (wk_strands st)) as Eo by by apply flat_map_same with x.
  assert (∀ d n, waits (wk_strands st) d n → waits (<[i := y]> (wk_strands st)) d n) as Hw
    by (intros d n; apply waits_not_loading with x; [done | by rewrite Hx]).
  pose proof (Forall_lookup_1 _ _ _ _ Hok Hi) as (H1 & H2 & H3).
  constructor; unfold handed in *; simpl; rewrite ?Eo; try done.
  - unfold calls. simpl. by rewrite Hp.
  - intros d. unfold calls. simpl. by rewrite Hp.
  - intros g d Hg. destruct (Hseen g d Hg) as [?|?]; [by left | right; by apply Hw].
  - intros z. unfold calls. simpl. rewrite Hp. apply Hcalls.
  - intros z Hz. destruct (Hout z Hz) as [?|[n Hn]]; [by left | right; exists n; by apply Hw].
  - apply strands_set; [done |]. subst y. split_and!; simpl; [by destruct e | done |]. intros [_ He]%app_nil. by destruct e.
Qed.

Lemma walk_step_inv st i : walk_inv st → walk_inv (walk_step fn st i).
Proof.
  intros Hst. unfold walk_step. destruct (wk_strands st !! i) as [x|] eqn:Hi; [| done]. destruct (sd_at x) as [|info place|info|] eqn:Hx; [| | | done].
  - destruct (sd_next x _ (wk_state st)) as [[info|err] σ] eqn:Hn; [eapply next_info_inv | eapply next_end_inv]; try done; by rewrite Hn.
  - unfold load_or_store. case_decide as Hin; [by eapply load_known_inv |]. destruct place; [by eapply load_outer_inv | by eapply load_inner_inv].
  - destruct (fn info (wk_state st)) as [e σ]. by eapply call_inv.
Qed.

Lemma strands_start (l : listing Σ) place : Forall (λ x, sd_out x = [] ∧ sd_at x = AtNext) (strands place l).
Proof.
  revert l place. fix IH 1. intros [next|ls] place; simpl; [by repeat constructor |].
  generalize 0. induction ls as [|l ls IHl]; intros i; simpl; [constructor |]. apply Forall_app. split; [apply IH | apply IHl].
Qed.

Lemma flat_map_none {A B} (f : A → list B) l : Forall (λ x, f x = []) l → flat_map f l = [].
Proof. induction 1 as [|x l Hx Hl IH]; [done |]. simpl. by rewrite Hx. Qed.

Lemma walk_init_inv ls σ : walk_inv (walk_init ls σ).
Proof.
  pose proof (strands_start (Fanned ls) []) as Hs. unfold walk_init. set (l := strands [] (Fanned ls)) in *. clearbody l.
  assert (flat_map calling l = []) as Ec by (apply flat_map_none; eapply Forall_impl; [exact Hs |]; intros x [_ Hx]; unfold calling; by rewrite Hx).
  assert (flat_map sd_out l = []) as Eo by (apply flat_map_none; eapply Forall_impl; [exact Hs |]; by intros x [Hx _]).
  constructor; unfold calls, handed; simpl; rewrite ?Ec, ?Eo; simpl.
  - constructor.
  - intros d. split; [set_solver | by intros ?%elem_of_nil].
  - set_solver.
  - done.
  - intros info ?%elem_of_nil. done.
  - eapply Forall_impl; [exact Hs |]. intros x [H1 H2]. unfold strand_ok. rewrite H1, H2. by split_and!.
Qed.

Lemma walk_run_inv ls σ sched : walk_inv (walk_run fn sched (walk_init ls σ)).
Proof.
  unfold walk_run. assert (∀ st, walk_inv st → walk_inv (foldl (walk_step fn) st sched)) as Hgen; [| apply Hgen, walk_init_inv].
  induction sched as [|i sched IH]; intros st Hst; simpl; [done |]. by apply IH, walk_step_inv.
Qed.

(** ** Their end *)

(** A store hands out at most [N] infos. *)
Definition at_most (N : nat) (next : nat → Cs Σ (Info + option error)) : Prop := ∀ k σ, N ≤ k → ∃ err, (next k σ).1 = inr err.

(** The turns that a goroutine still needs *)
Definition strand_work (N : nat) (x : strand (Σ := Σ)) : nat :=
  let rest := (length (sd_place x) + 3) * (N - length (sd_out x)) + 1 in
  match sd_at x with
  | AtNext => rest
  | AtLoad _ place => length place + 2 + rest
  | AtCall _ => 1 + rest
  | AtEnd => 0
  end.

(** A step of a goroutine leaves less work for it and the others as they are. *)
Lemma walk_step_work st i j x N : wk_strands st !! j = Some x → at_most N (sd_next x) →
  ∃ x', wk_strands (walk_step fn st i) !! j = Some x' ∧ sd_next x' = sd_next x ∧
    strand_work N x' ≤ if decide (i = j) then pred (strand_work N x) else strand_work N x.
Proof.
  intros Hj HN. unfold walk_step. destruct (decide (i = j)) as [<- | Hne].
  2:{ destruct (wk_strands st !! i) as [y|]; [| by exists x]. exists x. split; [| by split].
      repeat case_match; simpl; by rewrite ?list_lookup_insert_ne. }
  rewrite Hj. pose proof (lookup_lt_Some _ _ _ Hj) as Hlt. unfold strand_work. destruct (sd_at x) as [|info place|info|] eqn:Hx.
  - destruct (sd_next x _ (wk_state st)) as [[info|err] σ] eqn:Hn; simpl; rewrite list_lookup_insert_eq by done; eexists; split_and!; try done; simpl; [| apply Nat.le_0_l].
    assert (length (sd_out x) < N) as Hl.
    { destruct (decide (N ≤ length (sd_out x))) as [Hge|]; [| lia]. destruct (HN _ (wk_state st) Hge) as [err E]. by rewrite Hn in E. }
    rewrite length_app. simpl. destruct (N - length (sd_out x)) as [|n] eqn:En; [lia |].
    replace (N - (length (sd_out x) + 1)) with n by lia. rewrite Nat.mul_succ_r. lia.
  - unfold load_or_store. case_decide; [| destruct place]; simpl; rewrite list_lookup_insert_eq by done; eexists; split_and!; try done; simpl; lia.
  - destruct (fn info (wk_state st)) as [[e|] σ]; simpl; rewrite list_lookup_insert_eq by done; eexists; split_and!; try done; simpl; first [apply Nat.le_0_l | lia].
  - exists x. rewrite Hx. split_and!; [done.. |]. lia.
Qed.

Lemma walk_step_strands st i : length (wk_strands (walk_step fn st i)) = length (wk_strands st).
Proof. unfold walk_step. repeat case_match; simpl; by rewrite ?length_insert. Qed.

Lemma walk_run_ends sched st :
  (∀ j x, wk_strands st !! j = Some x → ∃ N, at_most N (sd_next x) ∧ strand_work N x ≤ length (filter (j =.) sched)) →
  walk_finished (walk_run fn sched st) = true.
Proof.
  unfold walk_run. revert st. induction sched as [|i sched IH]; intros st Hw; simpl.
  - unfold walk_finished. apply forallb_forall. intros x Hx. apply list_elem_of_In, list_elem_of_lookup in Hx as [j Hj].
    destruct (Hw j x Hj) as (N & _ & HN). unfold strand_work in HN. simpl in HN. set (r := (_ + 3) * _) in HN. clearbody r. destruct (sd_at x); [lia | lia | lia | done].
  - apply IH. intros j x' Hj. assert (is_Some (wk_strands st !! j)) as [x Hx]
      by (apply lookup_lt_is_Some; rewrite <- (walk_step_strands st i); by eapply lookup_lt_Some).
    destruct (Hw j x Hx) as (N & HN & Hle). destruct (walk_step_work st i j x N Hx HN) as (y & Hy & E & Hwork).
    rewrite Hj in Hy. injection Hy as <-. exists N. rewrite E. split; [done |]. rewrite filter_cons in Hle.
    repeat case_decide; simplify_eq; simpl in *; lia.
Qed.

(** Every goroutine walks the store it was started for. *)
Lemma walk_run_next sched st : sd_next <$> wk_strands (walk_run fn sched st) = sd_next <$> wk_strands st.
Proof.
  unfold walk_run. revert st. induction sched as [|i sched IH]; intros st; simpl; [done |]. rewrite IH. unfold walk_step.
  destruct (wk_strands st !! i) as [x|] eqn:Hi; [| done].
  assert (∀ y, sd_next y = sd_next x → sd_next <$> <[i := y]> (wk_strands st) = sd_next <$> wk_strands st) as Hy.
  { intros y E. rewrite list_fmap_insert, E. apply list_insert_id. by rewrite list_lookup_fmap, Hi. }
  repeat case_match; simpl; by rewrite ?Hy.
Qed.
End walks.

(** C36: a walk over a fanout, nested in others or not, while the stores may change.  Whatever
    the interleaving of the goroutines that walk the stores, each hands out what its store
    answers from the first info on; the function is called only with what some store handed out
    and at most once for each digest; when all have ended it was called for every digest that
    some store handed out, and without an error each store's walk was taken to its end; and they
    all end, once each goroutine has had the turns for the infos of its store (one to get it,
    one for each fanout around the store and one for the call) and one more. *)
Theorem walk_once `{ContentTypes} {Σ} (fn : Info → Cs Σ (option error)) (ls : list (listing Σ)) σ sched :
  let st := walk_run fn sched (walk_init ls σ) in
  let out := flat_map sd_out (wk_strands st) in
  NoDup (Info_Digest <$> wk_called st)
  ∧ (∀ info, info ∈ wk_called st → info ∈ out)
  ∧ (walk_finished st = true → ∀ info, info ∈ out → Info_Digest info ∈ Info_Digest <$> wk_called st)
  ∧ sd_next <$> wk_strands st = sd_next <$> strands [] (Fanned ls)
  ∧ (∀ x, x ∈ wk_strands st →
      (∀ k info, sd_out x !! k = Some info → ∃ σ, (sd_next x k σ).1 = inl info)
      ∧ (walk_finished st = true → walk_result st = None → ∃ σ, (sd_next x (length (sd_out x)) σ).1 = inr None))
  ∧ ((∀ j x, strands [] (Fanned ls) !! j = Some x →
        ∃ N, at_most N (sd_next x) ∧ (length (sd_place x) + 3) * N + 1 ≤ length (filter (j =.) sched)) →
      walk_finished st = true).
Proof.
  cbv zeta. pose proof (walk_run_inv fn ls σ sched) as [Hnd Htop Hseen Hcalls Hout Hok].
  set (st := walk_run fn sched (walk_init ls σ)) in *.
  assert (walk_finished st = true → ∀ x, x ∈ wk_strands st → sd_at x = AtEnd) as Hend.
  { unfold walk_finished. rewrite forallb_forall. intros Hf x Hx%list_elem_of_In%Hf. by destruct (sd_at x). }
  assert (walk_finished st = true → calls st = wk_called st) as Hcalled.
  { intros Hf. unfold calls. rewrite flat_map_none; [apply app_nil_r |]. apply Forall_forall. intros x Hx. unfold calling. by rewrite (Hend Hf x Hx). }
  split_and!.
  - unfold calls in Hnd. rewrite fmap_app in Hnd. by apply NoDup_app in Hnd as [? _].
  - intros info Hi. apply Hcalls. unfold calls. set_solver.
  - intros Hf info Hi. rewrite <- Hcalled, <- Htop by done.
    destruct (Hout info Hi) as [?|(n & j & x & i & p & Hj & Hx & _)]; [done |]. rewrite Hend in Hx; [done.. |]. by eapply list_elem_of_lookup_2.
  - apply walk_run_next.
  - intros x Hx. rewrite Forall_forall in Hok. destruct (Hok x Hx) as (_ & H2 & H3). split; [done |].
    intros Hf Hr. apply H3; [| by apply Hend]. unfold walk_result in Hr. by destruct (wk_errs st).
  - intros Hw. apply walk_run_ends. intros j x Hj. destruct (Hw j x Hj) as (N & HN & Hle). exists N. split; [done |].
    pose proof (Forall_lookup_1 _ _ _ _ (strands_start (Fanned ls) []) Hj) as [Ho Ha].
    unfold strand_work. rewrite Ho, Ha, Nat.sub_0_r. done.
Qed.

(** ** Options *)

(** The adapters between the versions of the interface lose options.  Whatever options are
    given, those that the other store gets leave the options of its writer as they are (only
    their errors pass), so that its writer is opened without a reference or a descriptor; and an
    update gets no field paths, so that it replaces all fields. *)
Theorem converted_options_lost `{ContentTypes} {Σ} (store : Store Σ) (opts : list WriterOpt) info fieldpaths :
  (∀ opt wo, opt ∈ convert_WriterOpt opts → (opt wo).2 = wo)
  ∧ (∀ wo, foldl (λ wo (opt : WriterOpt), (opt wo).2) wo (convert_WriterOpt opts) = wo)
  ∧ s_Update (convert_store store) info fieldpaths = s_Update store info [].
Proof.
  assert (∀ opt wo, opt ∈ convert_WriterOpt opts → (opt wo).2 = wo) as Hopt.
  { intros opt wo (opt0 & -> & Hin)%list_elem_of_fmap. by destruct (opt0 _). }
  split_and!; [done | | done]. revert Hopt. induction (convert_WriterOpt opts) as [|opt l IH]; intros Hopt wo; simpl; [done |].
  rewrite Hopt by (by left). apply IH. intros opt' wo' Hin. apply Hopt. by right.
Qed.

(** ** Examples *)

Section examples.
#[local] Existing Instances mem_types mem_sched mem_quiet_equiv.

(** Two stores, of which both have a blob *)
Definition two_state : sys memory := mkSys [] [] 0%Z [{["sha256:a" := [Byte.x61]]}; {["sha256:a" := [Byte.x61]]}] false.

Lemma mem_deletes d i : i < 2 → deletes_own [mem_view 0; mem_view 1] d i (mem_store i) (mem_view i).
Proof.
  intros Hi σ. simpl. unfold mem_view. split.
  - intros j w Hj. assert (w = mem_view j) as -> by (destruct j as [|[|]]; by simplify_eq/=). unfold mem_view. simpl. case_decide as He; [subst j |].
    + unfold memory in *. rewrite list_lookup_alter_eq. destruct (sy_rest σ !! i); simpl; [done |]. by rewrite delete_empty.
    + unfold memory in *. by rewrite list_lookup_alter_ne by congruence.
  - destruct (_ !! d); [done |]. by eexists.
Qed.

Lemma fanout_delete_witness :
  length [mem_store 0; mem_store 1] = length [mem_view 0; mem_view 1]
  ∧ union_view [mem_view 0; mem_view 1] (s_Delete (fanout_store [mem_store 0; mem_store 1]) "sha256:a" two_state).2
    = delete "sha256:a" (union_view [mem_view 0; mem_view 1] two_state)
  ∧ (s_Delete (fanout_store [mem_store 0; mem_store 1]) "sha256:a" two_state).1 =
      match union_view [mem_view 0; mem_view 1] two_state !! "sha256:a" with
      | Some _ => None
      | None => if decide ([mem_store 0; mem_store 1] = []) then None else Some ErrNotFound
      end.
Proof.
  split; [reflexivity |]. apply (fanout_delete [mem_store 0; mem_store 1] [mem_view 0; mem_view 1] "sha256:a" eq_refl two_state).
  intros i s v Hi Hv. destruct i as [|[|]]; simplify_eq/=; apply mem_deletes; lia.
Defined.

(** A secondary whose writer always fails *)
Definition bad_writer : Writer memory :=
  mkWriter (λ _, cs_ret (0, Some (EText ["disk full"]))) (λ _ _ _, cs_ret (Some (EText ["no space"]))) (λ _, cs_ret (Some (EText ["no space"])))
    (cs_ret (Some (EText ["close"]))) (cs_ret EmptyString) (cs_ret (Status_zero, None)).

Definition noop_mem : Store memory := noop_store [].

Definition bad_store : Store memory :=
  mkStore (s_Info noop_mem) (s_ReaderAt noop_mem) (s_Status noop_mem) (s_ListStatuses noop_mem) (λ _, cs_ret (Some bad_writer, None))
    (s_Delete noop_mem) (s_Abort noop_mem) (s_Update noop_mem) (s_Walk noop_mem).

Definition first_of (m : memory) : option (gmap string (list byte)) := m !! 0.

Lemma mem_writer_local : local_writer first_of (mem_writer 0).
Proof.
  split; [| by intros p σ n [= <-]]. intros c σ σ' Hr. unfold first_of in *. split; [by destruct c |].
  destruct σ as [fl pb nw [|m ms]], σ' as [fl' pb' nw' [|m' ms']], c; simplify_eq/=; reflexivity.
Qed.

Lemma fallback_writer_transparent_witness :
  local_writer first_of (mem_writer 0)
  ∧ ∃ w σ2, fb_Writer (mem_store 0) bad_store [] two_state = ((Some w, None), σ2) ∧ seen first_of σ2 = seen first_of two_state
    ∧ stands_for first_of w σ2 (mem_writer 0) two_state.
Proof.
  split; [exact mem_writer_local |].
  apply (fallback_writer_transparent first_of (mem_store 0) bad_store [] two_state (mem_writer 0) two_state eq_refl mem_writer_local).
  intros σ. split; [reflexivity |]. split; [by eexists |]. intros sw [= <-] c σ'. destruct c; reflexivity.
Defined.

(** The error of the secondary's [Close] is the caller's. *)
Example fallback_close_error :
  match (fb_Writer (mem_store 0) bad_store [] two_state).1.1 with
  | Some w => (w_Close w (fb_Writer (mem_store 0) bad_store [] two_state).2).1
  | None => None
  end = Some (EJoin [EText ["close"]]).
Proof. reflexivity. Qed.

(** A store that lists some blobs, as long as it has them *)
Definition lists (infos : list Info) : listing memory := Strand (λ k, cs_ret (match infos !! k with Some info => inl info | None => inr None end)).

(** Two stores and a fanout of two that list the same blobs, walked in turns *)
Definition sample_walk : list (listing memory) :=
  [lists ["sha256:a"; "sha256:b"]; Fanned [lists ["sha256:b"]; lists ["sha256:b"; "sha256:c"]]].

Lemma walk_once_witness :
  let fn (info : Info) : Cs memory (option error) := cs_ret None in
  let st := walk_run fn (concat (replicate 9 [1; 0; 2])) (walk_init sample_walk two_state) in
  wk_called st = ["sha256:a"; "sha256:b"; "sha256:c"] ∧ walk_result st = None ∧ walk_finished st = true.
Proof.
  intros fn st. split; [vm_compute; reflexivity |]. split; [vm_compute; reflexivity |].
  apply (walk_once fn sample_walk two_state (concat (replicate 9 [1; 0; 2]))).
  intros j x Hj. exists 2. destruct j as [|[|[|]]]; vm_compute in Hj; simplify_eq; (split; [| vm_compute; lia]);
    intros k σ Hk; destruct k as [|[|]]; try lia; eexists; reflexivity.
Defined.
End examples.
