(* ===== verification/FwEvent.v ===== *)
(** * FwEvent: events of a watched overlay

    Models [src/pkg/fswatch]: [event.go] (masks and events) and [overlay.go] and
    [overlay_parser.go] (the layers of an overlay mount, and how they are read from
    [/proc/self/mountinfo]).  A pointer to an overlay, a layer or a process is modelled by the
    value: nothing changes them once they are made. *)
From S2P Require Import Prelude GoStd GoPath DsTypes.

(** ** Strings *)

(** [strings.SplitN(s, sep, 2)]: the one or two parts *)
Fixpoint str_cut (sep s : string) : option (string * string) :=
  if has_prefix s sep then Some (EmptyString, str_drop (String.length sep) s)
  else match s with
       | EmptyString => None
       | String a s' => (λ p, (String a p.1, p.2)) <$> str_cut sep s'
       end.

(** [strings.Fields(s)], with the bytes of the field at which it is *)
Fixpoint fields_fuel (fuel : nat) (field s : string) : list string :=
  let flush rest := if decide (field = EmptyString) then rest else field :: rest in
  match fuel, s with
  | S fuel, String a s' =>
      match List.find (has_prefix s) utf8_spaces with
      | Some sp => flush (fields_fuel fuel EmptyString (trim_prefix s sp))
      | None => fields_fuel fuel (field +:+ char_str a) s'
      end
  | _, _ => flush []
  end.
Definition str_fields (s : string) : list string := fields_fuel (String.length s) EmptyString s.

(** [strings.HasSuffix(s, p)] *)
Definition has_suffix (s p : string) : bool := has_prefix (String.rev s) (String.rev p).

(** [strings.Contains(s, p)] *)
Definition str_contains (s p : string) : bool := match str_cut p s with Some _ => true | None => false end.

(** ** [event.go] *)

(** [EventMask] and [Op] *)
Definition EventMask := N.
Definition OpAccess : N := 0x1.
Definition OpModify : N := 0x2.
Definition OpAttrib : N := 0x4.
Definition OpCloseWrite : N := 0x8.
Definition OpCloseNoWrite : N := 0x10.
Definition OpOpen : N := 0x20.
Definition OpMovedFrom : N := 0x40.
Definition OpMovedTo : N := 0x80.
Definition OpCreate : N := 0x100.
Definition OpDelete : N := 0x200.
Definition OpDeleteSelf : N := 0x400.
Definition OpMoveSelf : N := 0x800.
Definition OpOpenExec : N := 0x1000.
Definition OpOverflow : N := 0x4000.
Definition OpEventOnChild : N := 0x8000000.
Definition OpOnDir : N := 0x40000000.

Definition mask_or (ops : list N) : EventMask := foldl N.lor 0%N ops.

Definition readOnlyOps : list N := [OpAccess; OpOpen; OpOpenExec; OpCloseNoWrite].
Definition modificationOps : list N :=
  [OpModify; OpCloseWrite; OpCreate; OpDelete; OpDeleteSelf; OpMovedFrom; OpMovedTo; OpMoveSelf; OpAttrib].

Definition MaskReadOnly : EventMask := mask_or readOnlyOps.
Definition MaskAll : EventMask := mask_or (readOnlyOps ++ modificationOps).
Definition opModificationBits : N := mask_or modificationOps.

Definition mask_Has (m : EventMask) (op : N) : bool := negb (N.land m op =? 0)%N.
Definition mask_IsReadOnly (m : EventMask) : bool := (N.land m opModificationBits =? 0)%N.

Definition op_table : list (N * string) :=
  [(OpAccess, "ACCESS"); (OpOpen, "OPEN"); (OpOpenExec, "OPEN_EXEC"); (OpCloseNoWrite, "CLOSE_NOWRITE"); (OpModify, "MODIFY");
   (OpCloseWrite, "CLOSE_WRITE"); (OpCreate, "CREATE"); (OpDelete, "DELETE"); (OpDeleteSelf, "DELETE_SELF"); (OpMovedFrom, "MOVED_FROM");
   (OpMovedTo, "MOVED_TO"); (OpMoveSelf, "MOVE_SELF"); (OpAttrib, "ATTRIB"); (OpOverflow, "OVERFLOW")].

Definition opNames (m : EventMask) : list string := snd <$> filter (λ t, mask_Has m t.1 = true) op_table.

Definition mask_String (m : EventMask) : string :=
  match opNames m with [] => "none" | names => str_join "|" names end.

Record RawEvent := mkRawEvent {
  re_Mask : EventMask;
  re_PID : Z;
  re_Path : string;
  re_Timestamp : Z;
  re_WatcherID : string;
}.

Definition IsOverflow (r : RawEvent) : bool := mask_Has (re_Mask r) OpOverflow.

(** ** [overlay.go] *)

Record SnapshotLayer := mkSnapshotLayer {
  sl_Index : nat;
  sl_Path : string;
  sl_IsUpper : bool;
  sl_ChainID : string;
}.

Record OverlayInfo := mkOverlayInfo {
  oi_MergedDir : string;
  oi_UpperDir : string;
  oi_WorkDir : string;
  oi_LowerDirs : list string;
  oi_Layers : list SnapshotLayer;
  oi_ID : string;
  oi_Labels : gmap string string;
}.

Definition AllDirs (o : OverlayInfo) : list string :=
  (if decide (oi_UpperDir o ≠ EmptyString) then [oi_UpperDir o] else []) ++ oi_LowerDirs o.

Definition ContainsPath (o : OverlayInfo) (absPath : string) : bool :=
  match path_rel (oi_MergedDir o) absPath with
  | Ok rel => negb (has_prefix rel "..")
  | Err _ => false
  end.

(** What [os.Lstat] finds, now *)
Definition lstat : Type := string → option FileInfo.

Fixpoint resolve_loop (Lstat : lstat) (relPath : string) (layers : list SnapshotLayer) : option SnapshotLayer :=
  match layers with
  | [] => None
  | layer :: layers => match Lstat (path_join [sl_Path layer; relPath]) with Some _ => Some layer | None => resolve_loop Lstat relPath layers end
  end.
Definition ResolveLayer (Lstat : lstat) (o : OverlayInfo) (relPath : string) : option SnapshotLayer := resolve_loop Lstat relPath (oi_Layers o).

Definition overlay_RelPath (o : OverlayInfo) (absPath : string) : result string :=
  match path_rel (oi_MergedDir o) absPath with
  | Err e => Err (EWrap ["overlay: path"; absPath; "not under merged dir"; oi_MergedDir o] e)
  | Ok rel => if has_prefix rel ".." then Err (EText ["overlay: path"; absPath; "escapes merged dir"; oi_MergedDir o]) else Ok rel
  end.

Definition cleanPath (p : string) : string :=
  if decide (p = EmptyString) then EmptyString
  else let c := path_clean p in if decide (c ≠ ".") then c else EmptyString.

Fixpoint buildLayers_loop (idx : nat) (dirs : list string) : list SnapshotLayer :=
  match dirs with
  | [] => []
  | d :: dirs => mkSnapshotLayer idx d false EmptyString :: buildLayers_loop (S idx) dirs
  end.

Definition buildLayers (upper : string) (lowers : list string) : list SnapshotLayer :=
  if decide (upper ≠ EmptyString) then mkSnapshotLayer 0 upper true EmptyString :: buildLayers_loop 1 lowers else buildLayers_loop 0 lowers.

Definition NewOverlayInfo (mergedDir upperDir workDir : string) (lowerDirs : list string) : OverlayInfo :=
  let dirs := path_clean <$> lowerDirs in
  mkOverlayInfo (path_clean mergedDir) (cleanPath upperDir) (cleanPath workDir) dirs (buildLayers (cleanPath upperDir) dirs) EmptyString ∅.

Definition kv_step (m : gmap string string) (field : string) : gmap string string :=
  match str_cut "=" field with
  | Some (k, v) => <[trim_space k := trim_space v]> m
  | None => let key := trim_space field in if decide (key ≠ EmptyString) then <[key := EmptyString]> m else m
  end.

Definition parseKVOptions (opts : string) : gmap string string := foldl kv_step ∅ (str_split "," opts).

Definition opt_get (opts : gmap string string) (k : string) : string := default EmptyString (opts !! k).

Definition overlayInfoFromVFSOptions (vfsOptions mergedDir : string) : result OverlayInfo :=
  let opts := parseKVOptions vfsOptions in
  let lower := opt_get opts "lowerdir" in
  if decide (lower = EmptyString) then Err (EText ["overlay: mount at"; mergedDir; "has no lowerdir in options"; vfsOptions])
  else Ok (NewOverlayInfo mergedDir (opt_get opts "upperdir") (opt_get opts "workdir") (path_clean <$> str_split ":" lower)).

(** ** [overlay_parser.go] *)

Definition ErrMountNotFound : error := ESentinel "fanwatch: overlay mount not found".
Definition ErrWatcherClosed : error := ESentinel "fanwatch: watcher closed".
Definition ErrNotSupported : error := ESentinel "fanwatch: fanotify not supported on this platform".
Definition ErrPermission : error := ESentinel "fanwatch: insufficient privilege (CAP_SYS_ADMIN required)".
Definition ErrQueueOverflow : error := ESentinel "fanwatch: fanotify queue overflow - some events dropped".
Definition ErrPathEscapes : error := ESentinel "fanwatch: resolved path escapes watched root".

Record mountinfoEntry := mkMountinfo { me_mountpoint : string; me_fsType : string; me_vfsOptions : string }.

Definition is_octal (c : ascii) : bool := ((48 <=? N_of_ascii c) && (N_of_ascii c <=? 55))%N.

(** [v] after the three digits, as a byte *)
Definition octal_byte (a b c : ascii) : ascii :=
  let digit x := (N_of_ascii x - 48)%N in
  ascii_of_N ((N.lor (N.shiftl (N.lor (N.shiftl (digit a) 3 mod 256) (digit b)) 3 mod 256) (digit c)) mod 256).

Fixpoint unescape (s : string) : string :=
  match s with
  | EmptyString => EmptyString
  | String a s' =>
      if decide (a = "\"%char) then
        match s' with
        | String d1 (String d2 (String d3 s'')) =>
            if is_octal d1 && is_octal d2 && is_octal d3 then String (octal_byte d1 d2 d3) (unescape s'') else String a (unescape s')
        | _ => String a (unescape s')
        end
      else String a (unescape s')
  end.
Definition unescapeMountinfoPath (s : string) : string := if index_byte s "\" then unescape s else s.

Definition parseMountinfoLine (line : string) : option mountinfoEntry :=
  match str_cut " - " line with
  | None => None
  | Some (l, r) =>
      let left := str_fields l in
      let right := str_fields r in
      if decide (length left < 6 ∨ length right < 3) then None
      else match left !! 4, right with
           | Some mp, fs :: _ :: opts :: _ => if decide (fs ≠ "overlay") then None else Some (mkMountinfo (unescapeMountinfoPath mp) fs opts)
           | _, _ => None
           end
  end.

(** The lines that the scanner yields, and its error *)
Fixpoint parse_lines (mergedDir : string) (lines : list string) (err : option error) : result OverlayInfo :=
  match lines with
  | [] => match err with
          | Some e => Err (EWrap ["overlay: scan mountinfo"] e)
          | None => Err (EWrap ["overlay"; mergedDir] ErrMountNotFound)
          end
  | line :: lines =>
      match parseMountinfoLine line with
      | None => parse_lines mergedDir lines err
      | Some info =>
          if decide (path_clean (me_mountpoint info) ≠ mergedDir) then parse_lines mergedDir lines err
          else overlayInfoFromVFSOptions (me_vfsOptions info) mergedDir
      end
  end.
Definition parseMountinfoReader (lines : list string) (err : option error) (mergedDir : string) : result OverlayInfo := parse_lines mergedDir lines err.

(** [overlayInfoFromMountFile], when opening the file fails or yields lines *)
Definition overlayInfoFromMountFile (file : result (list string * option error)) (mountinfoPath mergedDir : string) : result OverlayInfo :=
  match file with
  | Err e => Err (EWrap ["overlay: open"; mountinfoPath] e)
  | Ok (lines, err) => parseMountinfoReader lines err (path_clean mergedDir)
  end.

(** ** Masks *)

Lemma land_or m a b : (N.land m (N.lor a b) =? 0)%N = (N.land m a =? 0)%N && (N.land m b =? 0)%N.
Proof.
  rewrite N.land_lor_distr_r. destruct (N.eqb_spec (N.land m a) 0) as [->|Ha]; simpl; [done |].
  apply N.eqb_neq. intros Hz. apply Ha. by apply N.lor_eq_0_l in Hz.
Qed.

Lemma mask_or_foldl m ops acc : (N.land m (foldl N.lor acc ops) =? 0)%N = (N.land m acc =? 0)%N && forallb (λ op, negb (mask_Has m op)) ops.
Proof.
  revert acc. induction ops as [|op ops IH]; intros acc; simpl; [by rewrite andb_true_r |].
  rewrite IH, land_or. unfold mask_Has at 2. by rewrite negb_involutive, andb_assoc.
Qed.

(** A mask meets a union of operations if it has one of them. *)
Lemma mask_or_Has m ops : (N.land m (mask_or ops) =? 0)%N = forallb (λ op, negb (mask_Has m op)) ops.
Proof. unfold mask_or. by rewrite mask_or_foldl, N.land_0_r. Qed.

Lemma IsReadOnly_ops m : mask_IsReadOnly m = true ↔ ∀ op, op ∈ modificationOps → mask_Has m op = false.
Proof.
  unfold mask_IsReadOnly, opModificationBits. rewrite mask_or_Has, forallb_forall. setoid_rewrite negb_true_iff. by setoid_rewrite list_elem_of_In.
Qed.

(** ** Layers *)

Lemma buildLayers_loop_spec idx dirs :
  sl_Path <$> buildLayers_loop idx dirs = dirs ∧ sl_Index <$> buildLayers_loop idx dirs = seq idx (length dirs) ∧ Forall (λ l, sl_IsUpper l = false) (buildLayers_loop idx dirs).
Proof.
  revert idx. induction dirs as [|d dirs IH]; intros idx; [by split_and! |]. destruct (IH (S idx)) as (H1 & H2 & H3).
  cbn [buildLayers_loop length seq]. rewrite !fmap_cons, H1, H2. split_and!; [done | done | by constructor].
Qed.

(** The layers are the directories in order of priority, numbered from 0, and only the first may
    be the writable one. *)
Lemma NewOverlayInfo_layers m u w ls : let o := NewOverlayInfo m u w ls in
  sl_Path <$> oi_Layers o = AllDirs o ∧ sl_Index <$> oi_Layers o = seq 0 (length (AllDirs o))
  ∧ ∀ i l, oi_Layers o !! i = Some l → sl_IsUpper l = bool_decide (i = 0 ∧ cleanPath u ≠ EmptyString).
Proof.
  cbv zeta. unfold NewOverlayInfo, AllDirs, buildLayers. simpl. case_decide as Hu.
  - destruct (buildLayers_loop_spec 1 (path_clean <$> ls)) as (H1 & H2 & H3). rewrite !fmap_cons, H1, H2. split_and!; [done | done |].
    intros [|i] l Hi; simpl in Hi; [simplify_eq; simpl; by rewrite bool_decide_true |]. rewrite bool_decide_false by naive_solver. rewrite Forall_lookup in H3. by eapply H3.
  - destruct (buildLayers_loop_spec 0 (path_clean <$> ls)) as (H1 & H2 & H3). simpl. rewrite H1, H2. split_and!; [done | done |].
    intros i l Hi. rewrite bool_decide_false by naive_solver. rewrite Forall_lookup in H3. by eapply H3.
Qed.

(** The layer of a path is the first that has it. *)
Lemma ResolveLayer_first Lstat o p :
  match ResolveLayer Lstat o p with
  | Some l => ∃ above below, oi_Layers o = above ++ l :: below ∧ is_Some (Lstat (path_join [sl_Path l; p])) ∧ Forall (λ l', Lstat (path_join [sl_Path l'; p]) = None) above
  | None => Forall (λ l, Lstat (path_join [sl_Path l; p]) = None) (oi_Layers o)
  end.
Proof.
  unfold ResolveLayer. induction (oi_Layers o) as [|l ls IH]; cbn [resolve_loop]; [done |]. destruct (Lstat (path_join [sl_Path l; p])) as [i|] eqn:Hl.
  - exists [], ls. split_and!; [done | by eexists | done].
  - destruct (resolve_loop Lstat p ls) as [l'|]; [| by constructor]. destruct IH as (above & below & -> & Hs & Ha). exists (l :: above), below. split_and!; [done | done | by constructor].
Qed.

(** The relative path of what is below the merged directory, unless it begins with two dots *)
Lemma overlay_RelPath_below o d l : Forall seg d → Forall seg l → oi_MergedDir o = abs_path d →
  overlay_RelPath o (abs_path (d ++ l)) =
    match l with
    | [] => Ok "."
    | x :: _ => if has_prefix x ".." then Err (EText ["overlay: path"; abs_path (d ++ l); "escapes merged dir"; abs_path d]) else Ok (rel_path l)
    end.
Proof.
  intros Hd Hl Hm. unfold overlay_RelPath. rewrite Hm. destruct l as [|x l].
  - rewrite app_nil_r. unfold path_rel. by rewrite decide_True.
  - rewrite path_rel_abs by (rewrite ?Forall_app; done). rewrite drop_common_app. cbn [fst snd fmap list_fmap app]. fold (rel_path (x :: l)).
    assert (d ++ x :: l ≠ d) as Hne by (intros He; apply (f_equal length) in He; rewrite length_app in He; simpl in He; lia).
    rewrite decide_False by done. rewrite rel_dots; [done |]. by apply Forall_cons in Hl as [? _].
Qed.

(** ** Octal escapes *)

(** What the kernel writes for a mount point *)
Definition escape_char (a : ascii) : string :=
  if decide (a = " "%char) then "\040" else if decide (a = "009"%char) then "\011" else if decide (a = "010"%char) then "\012"
  else if decide (a = "\"%char) then "\134" else char_str a.

Fixpoint mount_escape (s : string) : string := match s with EmptyString => EmptyString | String a s' => escape_char a +:+ mount_escape s' end.

Lemma unescape_escape s : unescape (mount_escape s) = s.
Proof.
  induction s as [|a s IH]; [done |]. cbn [mount_escape]. unfold escape_char. repeat case_decide; subst;
    try (simpl; change (EmptyString +:+ mount_escape s) with (mount_escape s); by rewrite IH).
  change (char_str a +:+ mount_escape s) with (String a (mount_escape s)). cbn [unescape]. by rewrite decide_False, IH.
Qed.

Lemma unescape_plain s : index_byte s "\" = None → unescape s = s.
Proof.
  induction s as [|a s IH]; intros Hs; [done |]. simpl in *. case_decide as Ha; [done |]. apply fmap_None in Hs.
  destruct s as [|b s]; [done |]. by rewrite IH.
Qed.

Lemma unescapeMountinfoPath_escape s : unescapeMountinfoPath (mount_escape s) = s.
Proof.
  unfold unescapeMountinfoPath. destruct (index_byte _ _) eqn:Hi; [apply unescape_escape |]. rewrite <- (unescape_plain _ Hi). apply unescape_escape.
Qed.
