(* ===== verification/FwStage.v ===== *)
(** * FwStage: filters, transformers and handlers

    Models [src/pkg/fswatch]: the enriched event of [event.go], [filter.go], [transform.go],
    [handler.go], and of [pipeline.go] and [options.go] the construction of a pipeline.  The event
    is a value that a transformer returns changed; [Clone] is then the identity, since what it
    does not copy is never written.  What the operating system answers is a function of the state
    [S]. *)
From S2P Require Import Prelude GoStd GoPath DsTypes FwEvent.
From stdpp Require Import pretty.

(** ** [event.go] *)

(** The values of the extension map *)
Inductive any := AnyString (s : string) | AnyInt (z : Z) | AnyLabels (m : gmap string string).

#[export] Instance any_eq_dec : EqDecision any.
Proof. solve_decision. Defined.

Record ProcessInfo := mkProcessInfo {
  pi_PID : Z;
  pi_Comm : string;
  pi_Exe : string;
  pi_Cmdline : list string;
  pi_ContainerID : string;
}.

(** [None] for the map that is nil *)
Record EnrichedEvent := mkEvent {
  ee_Raw : RawEvent;
  ee_Dir : string;
  ee_Name : string;
  ee_FileInfo : option FileInfo;
  ee_Overlay : option OverlayInfo;
  ee_SourceLayer : option SnapshotLayer;
  ee_Process : option ProcessInfo;
  ee_Attrs : option (gmap string any);
}.

Definition ee_Path (e : EnrichedEvent) : string := re_Path (ee_Raw e).
Definition ee_Mask (e : EnrichedEvent) : EventMask := re_Mask (ee_Raw e).

Definition set_path (p : string) (e : EnrichedEvent) : EnrichedEvent :=
  mkEvent (mkRawEvent (re_Mask (ee_Raw e)) (re_PID (ee_Raw e)) p (re_Timestamp (ee_Raw e)) (re_WatcherID (ee_Raw e))) (path_dir p) (path_base p)
    (ee_FileInfo e) (ee_Overlay e) (ee_SourceLayer e) (ee_Process e) (ee_Attrs e).
Definition set_overlay (o : OverlayInfo) (l : option SnapshotLayer) (e : EnrichedEvent) : EnrichedEvent :=
  mkEvent (ee_Raw e) (ee_Dir e) (ee_Name e) (ee_FileInfo e) (Some o) l (ee_Process e) (ee_Attrs e).
Definition set_process (p : option ProcessInfo) (e : EnrichedEvent) : EnrichedEvent :=
  mkEvent (ee_Raw e) (ee_Dir e) (ee_Name e) (ee_FileInfo e) (ee_Overlay e) (ee_SourceLayer e) p (ee_Attrs e).
Definition set_info (i : FileInfo) (e : EnrichedEvent) : EnrichedEvent :=
  mkEvent (ee_Raw e) (ee_Dir e) (ee_Name e) (Some i) (ee_Overlay e) (ee_SourceLayer e) (ee_Process e) (ee_Attrs e).

Definition SetAttr (key : string) (value : any) (e : EnrichedEvent) : EnrichedEvent :=
  mkEvent (ee_Raw e) (ee_Dir e) (ee_Name e) (ee_FileInfo e) (ee_Overlay e) (ee_SourceLayer e) (ee_Process e) (Some (<[key := value]> (default ∅ (ee_Attrs e)))).
Definition Attr (e : EnrichedEvent) (key : string) : option any := ee_Attrs e ≫= λ m, m !! key.

(** ** [filter.go] *)

(** The clock and what [ctx.Err()] is, when a filter or a handler runs *)
Record env := mkEnv { env_Now : Z; env_Err : option error }.

Definition Filter : Type := env → EnrichedEvent → bool.

Definition AllFilters (a : list Filter) : Filter := λ c e, forallb (λ f : Filter, f c e) a.
Definition AnyFilter (a : list Filter) : Filter := λ c e, existsb (λ f : Filter, f c e) a.
Definition NotFilter (inner : Filter) : Filter := λ c e, negb (inner c e).

Definition ReadOnlyFilter : Filter := λ _ e, mask_IsReadOnly (ee_Mask e).
Definition MaskFilter (ops : list N) : Filter := λ _ e, negb (N.land (ee_Mask e) (mask_or ops) =? 0)%N.
Definition ExactMaskFilter (mask : EventMask) : Filter := λ _ e, (ee_Mask e =? mask)%N.

Definition under_prefix (path p : string) : bool := has_prefix path (p +:+ "/") || bool_decide (path = p).
Definition PathPrefixFilter (prefixes : list string) : Filter :=
  let clean := path_clean <$> prefixes in λ _ e, existsb (under_prefix (ee_Path e)) clean.
Definition PathExcludeFilter (prefixes : list string) : Filter := NotFilter (PathPrefixFilter prefixes).

(** [strings.ToLower] *)
Class GoLower := to_lower : string → string.

Definition ExtensionFilter `{GoLower} (exts : list string) : Filter :=
  let lower := to_lower <$> exts in λ _ e, existsb (has_suffix (to_lower (ee_Name e))) lower.

Definition PIDFilter (pids : list Z) : Filter := let set : gset Z := list_to_set pids in λ _ e, bool_decide (re_PID (ee_Raw e) ∈ set).
Definition ExcludePIDFilter (pids : list Z) : Filter := NotFilter (PIDFilter pids).
Definition NoOverflowFilter : Filter := λ _ e, negb (mask_Has (ee_Mask e) OpOverflow).
Definition ExternalFilter (fn : string → bool) : Filter := λ _ e, fn (ee_Path e).
Definition ExternalContextFilter (fn : env → string → bool) : Filter := λ c e, fn c (ee_Path e).
Definition UpperDirOnlyFilter : Filter := λ _ e, match ee_SourceLayer e with None => false | Some l => sl_IsUpper l end.
Definition LowerDirOnlyFilter : Filter := λ _ e, match ee_SourceLayer e with None => false | Some l => negb (sl_IsUpper l) end.
Definition AttrFilter (key : string) : Filter := λ _ e, bool_decide (is_Some (Attr e key)).
(** Comparing two maps would panic. *)
Definition AttrValueFilter (key : string) (value : option any) : Filter := λ _ e, bool_decide (Attr e key = value).
Definition FreshnessFilter (maxAge : Z) : Filter := λ c e, bool_decide (env_Now c - re_Timestamp (ee_Raw e) ≤ maxAge)%Z.

(** ** [transform.go] *)

Section transform.
Context {S : Type}.

Definition Transformer : Type := EnrichedEvent → S → option error * EnrichedEvent * S.

Fixpoint chain_loop (c : list Transformer) (e : EnrichedEvent) (s : S) (errs : list error) : list error * EnrichedEvent * S :=
  match c with
  | [] => (errs, e, s)
  | t :: c => let '(err, e, s) := t e s in chain_loop c e s (errs ++ option_list err)
  end.
Definition ChainTransformer (c : list Transformer) : Transformer := λ e s, let '(errs, e, s) := chain_loop c e s [] in (errors_join errs, e, s).

Definition ConditionalTransformer (pred : EnrichedEvent → bool) (inner : Transformer) : Transformer := λ e s,
  if pred e then inner e s else (None, e, s).

(** What the operating system answers, in a state *)
Class OS := {
  os_Lstat : S → lstat;
  os_ReadFile : S → string → option string;
  os_Readlink : S → string → option string;
  os_Lines : S → string → option (list string);
}.
Context `{OS}.

Definition NewOverlayEnricher (overlay : OverlayInfo) : Transformer := λ e s,
  match overlay_RelPath overlay (ee_Path e) with
  | Err _ => (None, e, s)
  | Ok relPath => (None, set_overlay overlay (ResolveLayer (os_Lstat s) overlay relPath) e, s)
  end.

Definition isContainerID (s : string) : bool :=
  (String.length s =? 64) && forallb (λ a, let c := N_of_ascii a in ((48 <=? c) && (c <=? 57) || (97 <=? c) && (c <=? 102))%N) (String.list_ascii_of_string s).

(** The first segment of the paths of the lines that is a container's *)
Definition line_container (line : string) : option string :=
  match str_split ":" line with
  | _ :: _ :: rest => match rest with [] => None | _ => List.find isContainerID (str_split "/" (str_join ":" rest)) end
  | _ => None
  end.
Fixpoint cgroup_loop (lines : list string) : string :=
  match lines with
  | [] => EmptyString
  | line :: lines => match line_container line with Some id => id | None => cgroup_loop lines end
  end.
Definition proc_file (pid : Z) (name : string) : string := "/proc/" +:+ pretty pid +:+ "/" +:+ name.
Definition containerIDFromCgroup (pid : Z) (s : S) : string := match os_Lines s (proc_file pid "cgroup") with None => EmptyString | Some lines => cgroup_loop lines end.

(** [strings.TrimRight(s, c)] *)
Fixpoint trim_right (c : ascii) (s : string) : string :=
  match s with
  | EmptyString => EmptyString
  | String a s' => let q := trim_right c s' in if decide (q = EmptyString ∧ a = c) then EmptyString else String a q
  end.

Definition readProcessInfo (pid : Z) (s : S) : option ProcessInfo :=
  let comm := os_ReadFile s (proc_file pid "comm") in
  let exe := os_Readlink s (proc_file pid "exe") in
  let cmdline := os_ReadFile s (proc_file pid "cmdline") in
  let id := containerIDFromCgroup pid s in
  if decide (is_Some comm ∨ is_Some exe ∨ is_Some cmdline ∨ id ≠ EmptyString)
  then Some (mkProcessInfo pid (match comm with Some d => trim_right "010" d | None => EmptyString end) (default EmptyString exe)
               (match cmdline with Some d => filter (λ p, p ≠ EmptyString) (str_split go_nul (trim_right go_nul d)) | None => [] end) id)
  else None.

Definition ProcessEnricher : Transformer := λ e s, (None, set_process (readProcessInfo (re_PID (ee_Raw e)) s) e, s).

Definition PathNormaliser (watchRoot : string) : Transformer := λ e s,
  let root := path_clean watchRoot in
  let clean := path_clean (ee_Path e) in
  let esc := Some (EWrap [clean; "root"; root] ErrPathEscapes) in
  (match path_rel root clean with Err _ => esc | Ok rel => if has_prefix rel ".." then esc else None end, set_path clean e, s).

(** The iteration over a map that sets attributes: the keys are distinct, so the order is of no
    consequence. *)
Definition set_attrs (attrs : gmap string any) (e : EnrichedEvent) : EnrichedEvent :=
  foldl (λ e kv, SetAttr kv.1 kv.2 e) e (map_to_list attrs).
Definition StaticAttrTransformer (attrs : gmap string any) : Transformer := λ e s, (None, set_attrs attrs e, s).
Definition DynamicAttrTransformer (fn : EnrichedEvent → S → gmap string any * S) : Transformer := λ e s, let '(m, s) := fn e s in (None, set_attrs m e, s).

Definition FileStatTransformer : Transformer := λ e s,
  match os_Lstat s (ee_Path e) with None => (None, e, s) | Some info => (None, set_info info e, s) end.
End transform.
Arguments Transformer : clear implicits.
Arguments OS : clear implicits.

(** ** [handler.go] *)

Section handler.
Context {S : Type}.

Definition Handler : Type := env → EnrichedEvent → S → option error * S.

Fixpoint ChainHandler (c : list Handler) : Handler := λ ctx e s,
  match c with
  | [] => (None, s)
  | h :: c => let '(err, s) := h ctx e s in match err with Some e' => (Some e', s) | None => ChainHandler c ctx e s end
  end.

Fixpoint multi_errs (m : list Handler) (ctx : env) (e : EnrichedEvent) (s : S) (errs : list error) : list error * S :=
  match m with
  | [] => (errs, s)
  | h :: m => let '(err, s) := h ctx e s in multi_errs m ctx e s (errs ++ option_list err)
  end.
Definition MultiHandler (m : list Handler) : Handler := λ ctx e s, let '(errs, s) := multi_errs m ctx e s [] in (errors_join errs, s).

Definition PredicateHandler (pred : EnrichedEvent → bool) (h : Handler) : Handler := λ ctx e s, if pred e then h ctx e s else (None, s).
Definition NoopHandler : Handler := λ _ _ s, (None, s).

(** What the logger is given *)
Definition log_args (e : EnrichedEvent) : list (string * any) :=
  [("path", AnyString (ee_Path e)); ("mask", AnyString (mask_String (ee_Mask e))); ("pid", AnyInt (re_PID (ee_Raw e))); ("ts", AnyInt (re_Timestamp (ee_Raw e)))]
  ++ match ee_Process e with Some p => [("comm", AnyString (pi_Comm p)); ("exe", AnyString (pi_Exe p))] | None => [] end
  ++ match ee_SourceLayer e with
     | Some l => [("layer_index", AnyInt (Z.of_nat (sl_Index l))); ("layer_is_upper", AnyInt (if sl_IsUpper l then 1 else 0))]
     | None => []
     end.
Definition LogHandler (log : list (string * any) → S → S) : Handler := λ _ e s, (None, log (log_args e) s).

Definition WriterHandler (format_time : Z → string) (write : string → S → option error * S) : Handler := λ _ e s,
  write (format_time (re_Timestamp (ee_Raw e)) +:+ " " +:+ mask_String (ee_Mask e) +:+ " pid=" +:+ pretty (re_PID (ee_Raw e)) +:+ " " +:+ ee_Path e +:+ char_str "010") s.

(** [Middleware] *)
Definition Middleware : Type := Handler → Handler.
End handler.
Arguments Handler : clear implicits.
Arguments Middleware : clear implicits.

Record EventCounters := mkEventCounters { ct_Total : Z; ct_Access : Z; ct_Open : Z; ct_Exec : Z; ct_Other : Z }.
Definition counters_zero : EventCounters := mkEventCounters 0 0 0 0 0.

(** [CountingHandler.Handle], on the counters; [Reset] stores [counters_zero] and [Snapshot] is the
    state. *)
Definition CountingHandler : Handler EventCounters := λ _ e '(mkEventCounters t a o x r),
  (None,
   if mask_Has (ee_Mask e) OpAccess then mkEventCounters (t + 1) (a + 1) o x r
   else if mask_Has (ee_Mask e) OpOpen then mkEventCounters (t + 1) a (o + 1) x r
   else if mask_Has (ee_Mask e) OpOpenExec then mkEventCounters (t + 1) a o (x + 1) r
   else mkEventCounters (t + 1) a o x (r + 1))%Z.

(** [CollectingHandler]: its events; [Reset] empties them. *)
Definition CollectingHandler : Handler (list EnrichedEvent) := λ _ e s, (None, s ++ [e]).

(** [ChannelHandler], on the buffer of the channel: with room and a context that is done the
    select takes either case. *)
Definition ChannelHandler (bufSize : nat) (take_done : bool) : Handler (list EnrichedEvent) := λ ctx e buf,
  (None, if decide (length buf < bufSize) then match env_Err ctx with Some _ => if take_done then buf else buf ++ [e] | None => buf ++ [e] end else buf).

(** ** The pipeline *)

Section pipeline.
Context {S : Type}.

Record Pipeline := mkPipeline {
  pl_filters : list Filter;
  pl_transformers : list (Transformer S);
  pl_handler : Handler S;
  pl_middlewares : list (Middleware S);
  pl_workers : Z;
  pl_errBufSize : nat;
}.

Definition PipelineOption : Type := Pipeline → Pipeline.

Definition WithFilters (fs : list Filter) : PipelineOption := λ p,
  mkPipeline (pl_filters p ++ fs) (pl_transformers p) (pl_handler p) (pl_middlewares p) (pl_workers p) (pl_errBufSize p).
Definition WithFilter (f : Filter) : PipelineOption := WithFilters [f].
Definition WithTransformers (ts : list (Transformer S)) : PipelineOption := λ p,
  mkPipeline (pl_filters p) (pl_transformers p ++ ts) (pl_handler p) (pl_middlewares p) (pl_workers p) (pl_errBufSize p).
Definition WithTransformer (t : Transformer S) : PipelineOption := WithTransformers [t].
Definition WithHandler (h : Handler S) : PipelineOption := λ p,
  mkPipeline (pl_filters p) (pl_transformers p) h (pl_middlewares p) (pl_workers p) (pl_errBufSize p).
Definition WithMiddleware (m : Middleware S) : PipelineOption := λ p,
  mkPipeline (pl_filters p) (pl_transformers p) (pl_handler p) (pl_middlewares p ++ [m]) (pl_workers p) (pl_errBufSize p).
Definition WithWorkers (n : Z) : PipelineOption := λ p,
  if decide (0 < n)%Z then mkPipeline (pl_filters p) (pl_transformers p) (pl_handler p) (pl_middlewares p) n (pl_errBufSize p) else p.
Definition WithErrorBufferSize (n : Z) : PipelineOption := λ p,
  if decide (0 < n)%Z then mkPipeline (pl_filters p) (pl_transformers p) (pl_handler p) (pl_middlewares p) (pl_workers p) (Z.to_nat n) else p.
Definition WithReadOnlyPipeline : PipelineOption := WithFilters [ReadOnlyFilter; NoOverflowFilter].
Definition WithOverlayEnrichment `{OS S} (o : OverlayInfo) : PipelineOption := WithTransformers [NewOverlayEnricher o; FileStatTransformer].
Definition WithProcessEnrichment `{OS S} : PipelineOption := WithTransformers [ProcessEnricher].
Definition WithFullEnrichment `{OS S} (o : OverlayInfo) : PipelineOption := WithTransformers [NewOverlayEnricher o; ProcessEnricher; FileStatTransformer].

(** The loop that wraps, from the last middleware to the first *)
Fixpoint wrap_loop (middlewares : list (Middleware S)) (h : Handler S) : Handler S :=
  match middlewares with
  | [] => h
  | m :: middlewares => m (wrap_loop middlewares h)
  end.

Definition NewPipeline (numCPU : Z) (opts : list PipelineOption) : Pipeline :=
  let p := foldl (λ p (o : PipelineOption), o p) (mkPipeline [] [] NoopHandler [] numCPU 64) opts in
  WithHandler (wrap_loop (pl_middlewares p) (pl_handler p)) p.

Definition numWorkers (numCPU : Z) (p : Pipeline) : nat := Z.to_nat (if decide (0 < pl_workers p)%Z then pl_workers p else numCPU).

Definition toEnriched (raw : RawEvent) : EnrichedEvent :=
  mkEvent raw (path_dir (re_Path raw)) (path_base (re_Path raw)) None None None None None.
End pipeline.
Arguments Pipeline : clear implicits.
Arguments PipelineOption : clear implicits.

(** ** What the filters accept *)

(** A mask filter wants one of its operations. *)
Lemma MaskFilter_ops ops c e : MaskFilter ops c e = existsb (mask_Has (ee_Mask e)) ops.
Proof.
  unfold MaskFilter. rewrite mask_or_Has. induction ops as [|op ops IH]; simpl; [done |]. by rewrite negb_andb, negb_involutive, IH.
Qed.

Lemma str_split_app_prefix (l1 l2 : list string) s : Forall seg l1 → Forall seg l2 → rel_path l2 = rel_path l1 +:+ "/" +:+ s → l1 ≠ [] → l1 `prefix_of` l2.
Proof.
  intros H1 H2 He Hne. destruct l2 as [|y l2].
  - exfalso. destruct l1 as [|x l1]; [done |]. apply (f_equal String.length) in He. rewrite !str_length_app in He. simpl in He. lia.
  - apply (f_equal (str_split go_slash)) in He. change ("/" +:+ s) with (String go_slash s) in He. rewrite str_split_cat in He. unfold rel_path in He.
    rewrite !str_split_join in He; try done.
    + rewrite He. by apply prefix_app_r.
    + eapply Forall_impl; [exact H1 |]. by intros x (_ & _ & _ & ?).
    + eapply Forall_impl; [exact H2 |]. by intros x (_ & _ & _ & ?).
Qed.

(** A path passes a prefix that is not the root if it is that directory or below it; the root lets
    only itself pass. *)
Lemma under_prefix_spec d l : Forall seg d → Forall seg l →
  under_prefix (abs_path l) (abs_path d) = true ↔ if decide (d = []) then l = [] else d `prefix_of` l.
Proof.
  intros Hd Hl. unfold under_prefix. rewrite orb_true_iff, bool_decide_eq_true. destruct (decide (d = [])) as [->|Hne].
  - split; [| intros ->; by right]. intros [Hp| Heq%abs_path_inj]; [| done..]. exfalso.
    apply has_prefix_inv in Hp as [t Ht]. destruct l as [|x l]; [done |]. apply Forall_cons in Hl as [(Hx & _ & _ & Hs) _].
    destruct x as [|a x]; [done |]. assert (a = go_slash) as ->.
    { destruct l; simpl in Ht; by injection Ht. }
    apply Hs. apply char_in_cons. by left.
  - split.
    + intros [Hp|Heq%abs_path_inj]; [| by subst | done..]. apply has_prefix_inv in Hp as [t Ht].
      apply (str_split_app_prefix d l t); try done. unfold abs_path in Ht. rewrite !str_app_assoc in Ht. by injection Ht.
    + intros [k ->]. destruct k as [|x k]; [right; by rewrite app_nil_r | left].
      assert (abs_path (d ++ x :: k) = (abs_path d +:+ "/") +:+ rel_path (x :: k)) as ->; [| apply has_prefix_app].
      unfold abs_path. rewrite !str_app_assoc. f_equal. clear Hd Hl. induction d as [|y d IH]; [done |]. destruct d as [|z d]; [done |].
      change (rel_path ((y :: z :: d) ++ x :: k)) with (y +:+ "/" +:+ rel_path ((z :: d) ++ x :: k)). rewrite IH by done.
      change (rel_path (y :: z :: d)) with (y +:+ "/" +:+ rel_path (z :: d)). by rewrite !str_app_assoc.
Qed.

Lemma PathPrefixFilter_spec ds c e l : Forall (Forall seg) ds → Forall seg l → ee_Path e = abs_path l →
  PathPrefixFilter (abs_path <$> ds) c e = true ↔ ∃ d, d ∈ ds ∧ if decide (d = []) then l = [] else d `prefix_of` l.
Proof.
  intros Hds Hl He. unfold PathPrefixFilter. rewrite He, existsb_exists. split.
  - intros (p & Hp & Hu). apply list_elem_of_In in Hp. apply list_elem_of_fmap in Hp as (q & -> & Hq). apply list_elem_of_fmap in Hq as (d & -> & Hd).
    rewrite Forall_forall in Hds. exists d. split; [done |]. by rewrite clean_abs, under_prefix_spec in Hu by auto.
  - intros (d & Hd & Hpre). rewrite Forall_forall in Hds. exists (path_clean (abs_path d)). split; [apply list_elem_of_In; by do 2 apply list_elem_of_fmap_2 |].
    by rewrite clean_abs, under_prefix_spec by auto.
Qed.

(** ** Counting *)

Definition counters_sum (c : EventCounters) : Z := ct_Access c + ct_Open c + ct_Exec c + ct_Other c.

(** Each event is counted once in total and once by its kind. *)
Lemma CountingHandler_sum ctx es c : let c' := foldl (λ c e, (CountingHandler ctx e c).2) c es in
  (ct_Total c' = ct_Total c + Z.of_nat (length es) ∧ ct_Total c' - counters_sum c' = ct_Total c - counters_sum c)%Z.
Proof.
  cbv zeta. revert c. induction es as [|e es IH]; intros c; simpl; [lia |]. destruct (IH (CountingHandler ctx e c).2) as [H1 H2].
  assert (ct_Total (CountingHandler ctx e c).2 = ct_Total c + 1 ∧ counters_sum (CountingHandler ctx e c).2 = counters_sum c + 1)%Z as [H3 H4]; [| lia].
  destruct c as [t a o x r]. unfold counters_sum, CountingHandler. simpl. repeat (destruct (mask_Has _ _)); simpl; lia.
Qed.

(** ** Transformers *)

(** A chain runs all its transformers, and joins their errors in order. *)
Lemma ChainTransformer_app {S} (c1 c2 : list (Transformer S)) e s errs :
  chain_loop (c1 ++ c2) e s errs = (let '(errs1, e1, s1) := chain_loop c1 e s errs in chain_loop c2 e1 s1 errs1).
Proof. revert e s errs. induction c1 as [|t c1 IH]; intros e s errs; simpl; [done |]. destruct (t e s) as [[err e1] s1]. apply IH. Qed.

(** The overlay of an event is set exactly when its path is in the merged directory. *)
Lemma NewOverlayEnricher_spec {S} `{OS S} o e s : ee_Overlay e = None →
  let '(err, e', s') := NewOverlayEnricher o e s in
  err = None ∧ s' = s ∧ (ee_Overlay e' = Some o ↔ ContainsPath o (ee_Path e) = true)
  ∧ ∀ rel, overlay_RelPath o (ee_Path e) = Ok rel → ee_SourceLayer e' = ResolveLayer (os_Lstat s) o rel.
Proof.
  intros Hn. unfold NewOverlayEnricher, overlay_RelPath, ContainsPath. destruct (path_rel _ _) as [rel|err]; [destruct (has_prefix rel "..")|]; simpl; rewrite ?Hn; split_and!; try done; by intros ? [= <-].
Qed.

(** [None] only for a process of which nothing can be read *)
Lemma readProcessInfo_None {S} `{OS S} pid s : readProcessInfo pid s = None ↔
  os_ReadFile s (proc_file pid "comm") = None ∧ os_Readlink s (proc_file pid "exe") = None ∧ os_ReadFile s (proc_file pid "cmdline") = None
  ∧ containerIDFromCgroup pid s = EmptyString.
Proof.
  unfold readProcessInfo. case_decide as Hd.
  - split; [done |]. intros (H1 & H2 & H3 & H4). rewrite H1, H2, H3, H4 in Hd. destruct Hd as [[? ?]|[[? ?]|[[? ?]|Hd]]]; done.
  - split; [intros _ | by intros _]. split_and!; try (apply eq_None_not_Some; tauto). apply dec_stable. tauto.
Qed.
