(* ===== verification/FwPipeline.v ===== *)
(** * FwPipeline: the pipeline of a watcher

    Models [RunSync] of [src/pkg/fswatch/pipeline.go] as steps: the loop that receives events,
    filters them and waits for a slot, the goroutines that transform and handle them, the consumer
    of the errors, and the end of the context.  A call of a transformer chain or of the handler is
    one step.  [ps_calls] and [ps_dropped] are history: the events that the handler was given, and
    those that a cancelled run received or held and gave up. *)
From S2P Require Import Prelude GoStd GoPath DsTypes FwEvent FwStage.

Section pipeline.
Context {S : Type} (p : Pipeline S) (W : nat).

Inductive loop_at := LSelect | LAcquire (e : EnrichedEvent) | LDone.

(** A goroutine: at the transformers; at the handler; at the deferred release of its slot; ended. *)
Inductive wphase := WTransform (e : EnrichedEvent) | WHandle (e : EnrichedEvent) | WRelease | WEnd.

Record pstate := mkPState {
  ps_in : list RawEvent;
  ps_loop : loop_at;
  ps_workers : list wphase;
  ps_sem : nat;
  ps_err : option error;
  ps_errq : list error;
  ps_reported : list error;
  ps_received : nat;
  ps_filtered : nat;
  ps_handled : nat;
  ps_errors : nat;
  ps_calls : list EnrichedEvent;
  ps_dropped : list RawEvent;
  ps_state : S;
}.

(** [received], [filtered], [handled] and [errCount] when the run has ended *)
Record PipelineResult := mkPipelineResult { pr_Received : nat; pr_Filtered : nat; pr_Handled : nat; pr_Errors : nat }.

Definition pipeline_start (input : list RawEvent) (s : S) : pstate := mkPState input LSelect [] 0 None [] [] 0 0 0 0 [] [] s.

Definition running (w : wphase) : bool := match w with WEnd => false | _ => true end.

(** The goroutines that have not ended *)
Definition active (st : pstate) : nat := length (filter (λ w, running w = true) (ps_workers st)).

Definition set_loop (l : loop_at) (st : pstate) : pstate :=
  mkPState (ps_in st) l (ps_workers st) (ps_sem st) (ps_err st) (ps_errq st) (ps_reported st) (ps_received st) (ps_filtered st) (ps_handled st) (ps_errors st)
    (ps_calls st) (ps_dropped st) (ps_state st).
Definition drop_raw (r : RawEvent) (st : pstate) : pstate :=
  mkPState (ps_in st) (ps_loop st) (ps_workers st) (ps_sem st) (ps_err st) (ps_errq st) (ps_reported st) (ps_received st) (ps_filtered st) (ps_handled st)
    (ps_errors st) (ps_calls st) (ps_dropped st ++ [r]) (ps_state st).
Definition set_in (rs : list RawEvent) (st : pstate) : pstate :=
  mkPState rs (ps_loop st) (ps_workers st) (ps_sem st) (ps_err st) (ps_errq st) (ps_reported st) (ps_received st) (ps_filtered st) (ps_handled st) (ps_errors st)
    (ps_calls st) (ps_dropped st) (ps_state st).
Definition count_filtered (st : pstate) : pstate :=
  mkPState (ps_in st) (ps_loop st) (ps_workers st) (ps_sem st) (ps_err st) (ps_errq st) (ps_reported st) (ps_received st) (ps_filtered st + 1) (ps_handled st)
    (ps_errors st) (ps_calls st) (ps_dropped st) (ps_state st).
Definition count_received (st : pstate) : pstate :=
  mkPState (ps_in st) (ps_loop st) (ps_workers st) (ps_sem st) (ps_err st) (ps_errq st) (ps_reported st) (ps_received st + 1) (ps_filtered st) (ps_handled st)
    (ps_errors st) (ps_calls st) (ps_dropped st) (ps_state st).
Definition set_worker (ws : list wphase) (st : pstate) : pstate :=
  mkPState (ps_in st) (ps_loop st) ws (ps_sem st) (ps_err st) (ps_errq st) (ps_reported st) (ps_received st) (ps_filtered st) (ps_handled st) (ps_errors st)
    (ps_calls st) (ps_dropped st) (ps_state st).

Definition set_sem (n : nat) (st : pstate) : pstate :=
  mkPState (ps_in st) (ps_loop st) (ps_workers st) n (ps_err st) (ps_errq st) (ps_reported st) (ps_received st) (ps_filtered st) (ps_handled st) (ps_errors st)
    (ps_calls st) (ps_dropped st) (ps_state st).

(** [addErr] *)
Definition addErr (err : option error) (st : pstate) : pstate :=
  match err with
  | None => st
  | Some e =>
      mkPState (ps_in st) (ps_loop st) (ps_workers st) (ps_sem st) (ps_err st) (if decide (length (ps_errq st) < pl_errBufSize p) then ps_errq st ++ [e] else ps_errq st)
        (ps_reported st) (ps_received st) (ps_filtered st) (ps_handled st) (ps_errors st + 1) (ps_calls st) (ps_dropped st) (ps_state st)
  end.

(** The handler has been called, with the result. *)
Definition handler_done (e : EnrichedEvent) (err : option error) (s : S) (st : pstate) : pstate :=
  let st := mkPState (ps_in st) (ps_loop st) (ps_workers st) (ps_sem st) (ps_err st) (ps_errq st) (ps_reported st) (ps_received st) (ps_filtered st)
              (match err with None => ps_handled st + 1 | Some _ => ps_handled st end) (ps_errors st) (ps_calls st ++ [e]) (ps_dropped st) s in
  addErr (EWrap ["pipeline: handle"; ee_Path e] <$> err) st.

Definition transform_done (err : option error) (e : EnrichedEvent) (s : S) (st : pstate) : pstate :=
  addErr (EWrap ["pipeline: transform"; ee_Path e] <$> err)
    (mkPState (ps_in st) (ps_loop st) (ps_workers st) (ps_sem st) (ps_err st) (ps_errq st) (ps_reported st) (ps_received st) (ps_filtered st) (ps_handled st)
       (ps_errors st) (ps_calls st) (ps_dropped st) s).

(** Who moves; the clock is read by filters and handlers. *)
Inductive actor := Recv (now : Z) | SelectDone | Acquire | Abandon | Work (i : nat) (now : Z) | Report | Cancel (err : error).

(** The case of the select that receives [raw] *)
Definition receive (now : Z) (raw : RawEvent) (st : pstate) : pstate :=
  match ps_err st with
  | Some _ => drop_raw raw st
  | None =>
      let st := count_received st in
      if IsOverflow raw then count_filtered (addErr (Some ErrQueueOverflow) st)
      else
        let e := toEnriched raw in
        if AllFilters (pl_filters p) (mkEnv now (ps_err st)) e then set_loop (LAcquire e) st else count_filtered st
  end.

Definition work (i : nat) (now : Z) (st : pstate) : option pstate :=
  match ps_workers st !! i with
  | Some (WTransform e) =>
      let '(err, e', s) := ChainTransformer (pl_transformers p) e (ps_state st) in
      Some (set_worker (<[i := WHandle e']> (ps_workers st)) (transform_done err e' s st))
  | Some (WHandle e) =>
      let '(err, s) := pl_handler p (mkEnv now (ps_err st)) e (ps_state st) in
      Some (set_worker (<[i := WRelease]> (ps_workers st)) (handler_done e err s st))
  | Some WRelease =>
      match ps_sem st with 0 => None | Datatypes.S n => Some (set_worker (<[i := WEnd]> (ps_workers st)) (set_sem n st)) end
  | _ => None
  end.

(** [None] where the actor cannot move.  The input is closed after its events. *)
Definition pipe_step (a : actor) (st : pstate) : option pstate :=
  match a, ps_loop st with
  | Recv now, LSelect =>
      match ps_in st with
      | [] => Some (set_loop LDone st)
      | raw :: rest => Some (receive now raw (set_in rest st))
      end
  | SelectDone, LSelect => match ps_err st with Some _ => Some (set_loop LDone st) | None => None end
  | Acquire, LAcquire e =>
      if decide (ps_sem st < W) then Some (set_loop LSelect (set_worker (ps_workers st ++ [WTransform e]) (set_sem (ps_sem st + 1) st))) else None
  | Abandon, LAcquire e => match ps_err st with Some _ => Some (set_loop LSelect (drop_raw (ee_Raw e) st)) | None => None end
  | Work i now, _ => work i now st
  | Report, _ =>
      match ps_errq st with
      | [] => None
      | e :: q => Some (mkPState (ps_in st) (ps_loop st) (ps_workers st) (ps_sem st) (ps_err st) q (ps_reported st ++ [e]) (ps_received st) (ps_filtered st)
                          (ps_handled st) (ps_errors st) (ps_calls st) (ps_dropped st) (ps_state st))
      end
  | Cancel err, _ =>
      match ps_err st with
      | Some _ => None
      | None => Some (mkPState (ps_in st) (ps_loop st) (ps_workers st) (ps_sem st) (Some err) (ps_errq st) (ps_reported st) (ps_received st) (ps_filtered st)
                        (ps_handled st) (ps_errors st) (ps_calls st) (ps_dropped st) (ps_state st))
      end
  | _, _ => None
  end.

(** A schedule whose moves can all be made *)
Fixpoint pipe_run (sched : list actor) (st : pstate) : option pstate :=
  match sched with
  | [] => Some st
  | a :: sched => match pipe_step a st with Some st' => pipe_run sched st' | None => None end
  end.

(** The run has ended: the errors are read, and the result can be returned. *)
Definition pipeline_ended (st : pstate) : Prop := ps_loop st = LDone ∧ Forall (λ w, w = WEnd) (ps_workers st) ∧ ps_errq st = [].
Definition pipeline_result (st : pstate) : PipelineResult := mkPipelineResult (ps_received st) (ps_filtered st) (ps_handled st) (ps_errors st).

(** A schedule without [Cancel] *)
Definition uncancelled (sched : list actor) : Prop := Forall (λ a, match a with Cancel _ => False | _ => True end) sched.

(** ** What has become of the events *)

Context (keep : EnrichedEvent → bool) (tr : EnrichedEvent → EnrichedEvent).
Context (filters_keep : ∀ now e, AllFilters (pl_filters p) (mkEnv now None) e = keep e).
Context (terr good : EnrichedEvent → bool).
Context (transformers_tr : ∀ e s, let '(err, e', _) := ChainTransformer (pl_transformers p) e s in e' = tr e ∧ bool_decide (is_Some err) = terr e).
Context (handler_good : ∀ c e s, bool_decide ((pl_handler p c e s).1 = None) = good e).

(** The raw event reaches the handler, and as what *)
Definition passes (r : RawEvent) : bool := negb (IsOverflow r) && keep (toEnriched r).
Definition out (r : RawEvent) : EnrichedEvent := tr (toEnriched r).
Definition is_one (b : bool) : nat := if b then 1 else 0.

(** The errors that an event causes *)
Definition event_errors (e : EnrichedEvent) : nat := is_one (terr e) + is_one (negb (good (tr e))).
Definition raw_errors (r : RawEvent) : nat := if IsOverflow r then 1 else if keep (toEnriched r) then event_errors (toEnriched r) else 0.
Definition outs (rs : list RawEvent) : list EnrichedEvent := out <$> filter (λ r, passes r = true) rs.

Definition loop_holds (l : loop_at) : list EnrichedEvent := match l with LAcquire e => [e] | _ => [] end.
Definition worker_holds (w : wphase) : list EnrichedEvent := match w with WTransform e => [tr e] | WHandle e => [e] | WRelease | WEnd => [] end.
Definition worker_errors (w : wphase) : nat :=
  match w with WTransform e => event_errors e | WHandle e => is_one (negb (good e)) | WRelease | WEnd => 0 end.

(** A goroutine that has not called the handler *)
Definition to_handle (w : wphase) : nat := match w with WTransform _ | WHandle _ => 1 | WRelease | WEnd => 0 end.

Record pipe_inv (input : list RawEvent) (st : pstate) : Prop := {
  pi_events : outs (ps_in st) ++ (tr <$> loop_holds (ps_loop st)) ++ flat_map worker_holds (ps_workers st) ++ ps_calls st ++ outs (ps_dropped st) ≡ₚ outs input;
  pi_held e : e ∈ loop_holds (ps_loop st) → e = toEnriched (ee_Raw e) ∧ passes (ee_Raw e) = true;
  pi_count : length input = length (ps_in st) + ps_filtered st + length (loop_holds (ps_loop st)) + length (ps_workers st) + length (ps_dropped st);
  pi_open : ps_err st = None → ps_dropped st = [] ∧ ps_received st + length (ps_in st) = length input;
  pi_received : ps_filtered st + length (loop_holds (ps_loop st)) + length (ps_workers st) ≤ ps_received st ≤ length input - length (ps_in st);
  pi_workers : length (ps_workers st) = sum_list_with to_handle (ps_workers st) + length (ps_calls st);
  pi_handled : ps_handled st = length (filter (λ e, good e = true) (ps_calls st));
  pi_caused : ps_errors st + sum_list_with raw_errors (ps_in st) + sum_list_with event_errors (loop_holds (ps_loop st))
    + sum_list_with worker_errors (ps_workers st) + sum_list_with raw_errors (ps_dropped st) = sum_list_with raw_errors input;
  pi_errors : length (ps_reported st) + length (ps_errq st) ≤ ps_errors st;
  pi_sem : ps_sem st = active st;
  pi_slots : active st ≤ W;
  pi_done : ps_loop st = LDone → ps_err st = None → ps_in st = [];
}.

Lemma outs_cons r rs : outs (r :: rs) = (if passes r then [out r] else []) ++ outs rs.
Proof. unfold outs. rewrite filter_cons. by destruct (passes r). Qed.

Lemma outs_app rs1 rs2 : outs (rs1 ++ rs2) = outs rs1 ++ outs rs2.
Proof. unfold outs. by rewrite filter_app, fmap_app. Qed.

Lemma toEnriched_raw r : ee_Raw (toEnriched r) = r.
Proof. done. Qed.

(** [addErr] changes the errors only. *)
Lemma addErr_errors err st : length (ps_reported st) + length (ps_errq st) ≤ ps_errors st →
  length (ps_reported (addErr err st)) + length (ps_errq (addErr err st)) ≤ ps_errors (addErr err st).
Proof. destruct err as [e|]; simpl; [| done]. case_decide; rewrite ?length_app; simpl; lia. Qed.

Lemma addErr_same err st :
  ps_in (addErr err st) = ps_in st ∧ ps_loop (addErr err st) = ps_loop st ∧ ps_workers (addErr err st) = ps_workers st ∧ ps_sem (addErr err st) = ps_sem st ∧ ps_err (addErr err st) = ps_err st
  ∧ ps_received (addErr err st) = ps_received st ∧ ps_filtered (addErr err st) = ps_filtered st ∧ ps_handled (addErr err st) = ps_handled st
  ∧ ps_calls (addErr err st) = ps_calls st ∧ ps_dropped (addErr err st) = ps_dropped st ∧ ps_state (addErr err st) = ps_state st
  ∧ ps_reported (addErr err st) = ps_reported st ∧ length (ps_errq (addErr err st)) ≤ length (ps_errq st) + 1
  ∧ ps_errors (addErr err st) = ps_errors st + is_one (bool_decide (is_Some err)).
Proof. destruct err as [e|]; simpl; split_and!; try done; try lia. case_decide; rewrite ?length_app; simpl; lia. Qed.

Lemma pipeline_start_inv input s : pipe_inv input (pipeline_start input s).
Proof.
  constructor; simpl; try done; try lia; [by rewrite app_nil_r | by intros e ?%elem_of_nil | unfold active; simpl; lia].
Qed.

Lemma slots_middle ws1 w ws2 : length (filter (λ w, running w = true) (ws1 ++ w :: ws2))
  = length (filter (λ w, running w = true) ws1) + (if running w then 1 else 0) + length (filter (λ w, running w = true) ws2).
Proof. rewrite filter_app, filter_cons, length_app. destruct (running w); simpl; lia. Qed.

Lemma receive_inv input now raw rest st : ps_loop st = LSelect → ps_in st = raw :: rest → pipe_inv input st →
  pipe_inv input (receive now raw (set_in rest st)).
Proof.
  intros Hl Hin [H1 H2 H3 H4 H5 H6 H7 HC H8 HS H9 H10]. rewrite Hin, Hl in *. rewrite outs_cons in H1. simpl in *. unfold receive. simpl.
  destruct (ps_err st) as [err|] eqn:He.
  - constructor; simpl; rewrite ?Hl, ?He, ?length_app, ?sum_list_with_app; simpl; try done; try lia.
    rewrite <- H1, outs_app, outs_cons. simpl. rewrite app_nil_r. destruct (passes raw); simpl; solve_Permutation.
  - destruct (H4 eq_refl) as [Hd Hr]. rewrite Hd in *. simpl in H3, HC. destruct (IsOverflow raw) eqn:Ho.
    + assert (passes raw = false ∧ raw_errors raw = 1) as [Hp Hre] by (unfold passes, raw_errors; by rewrite Ho). rewrite Hp in H1.
      constructor; simpl; rewrite ?Hl, ?Hd; simpl; try done; try lia; [intros _; split; [done | lia] |]. case_decide; rewrite ?length_app; simpl; lia.
    + rewrite filters_keep. simpl. destruct (keep (toEnriched raw)) eqn:Hk.
      * assert (passes raw = true ∧ raw_errors raw = event_errors (toEnriched raw)) as [Hp Hre] by (unfold passes, raw_errors; by rewrite Ho, Hk). rewrite Hp in H1.
        constructor; simpl; rewrite ?Hd; simpl; try done; try lia; [rewrite <- H1; simpl; unfold out; solve_Permutation | | intros _; split; [done | lia]].
        intros e ->%list_elem_of_singleton. by rewrite toEnriched_raw.
      * assert (passes raw = false ∧ raw_errors raw = 0) as [Hp Hre] by (unfold passes, raw_errors; by rewrite Ho, Hk). rewrite Hp in H1.
        constructor; simpl; rewrite ?Hl, ?Hd; simpl; try done; try lia. intros _. split; [done | lia].
Qed.

Lemma sum_list_with_middle {A} (f : A → nat) l1 x l2 : sum_list_with f (l1 ++ x :: l2) = sum_list_with f l1 + f x + sum_list_with f l2.
Proof. rewrite sum_list_with_app. simpl. lia. Qed.

Lemma work_inv input i now st st' : work i now st = Some st' → pipe_inv input st → pipe_inv input st'.
Proof.
  intros Hw [H1 H2 H3 H4 H5 H6 H7 HC H8 HS H9 H10]. unfold work, active in *. destruct (ps_workers st !! i) as [w|] eqn:Hi; [| done].
  destruct (list_split _ _ _ Hi) as (ws1 & ws2 & Hws & ->). rewrite Hws in *. rewrite flat_map_app in H1. simpl in H1.
  rewrite slots_middle in HS, H9. rewrite sum_list_with_middle in HC, H6. destruct w as [e|e| |]; [| | | done].
  - pose proof (transformers_tr e (ps_state st)) as Ht. destruct (ChainTransformer _ _ _) as [[err e'] s]. destruct Ht as [-> Ht]. simplify_eq.
    pose proof (addErr_same (EWrap ["pipeline: transform"; ee_Path (tr e)] <$> err) (mkPState (ps_in st) (ps_loop st) (ps_workers st) (ps_sem st) (ps_err st) (ps_errq st) (ps_reported st)
      (ps_received st) (ps_filtered st) (ps_handled st) (ps_errors st) (ps_calls st) (ps_dropped st) s)) as (E1 & E2 & E3 & ES & E4 & E5 & E6 & E7 & E8 & E9 & E10 & E11 & E12 & E13).
    unfold transform_done. constructor; unfold active; simpl; rewrite ?E1, ?E2, ?ES, ?E4, ?E5, ?E6, ?E7, ?E8, ?E9; simpl; try done;
      rewrite ?insert_middle, ?slots_middle, ?sum_list_with_middle; simpl; rewrite ?length_app in *; simpl in *; try done; try lia.
    + rewrite <- H1, flat_map_app. simpl. done.
    + rewrite E13. simpl. assert (event_errors e = is_one (terr e) + is_one (negb (good (tr e)))) as Hee by done. assert (bool_decide (is_Some (EWrap ["pipeline: transform"; ee_Path (tr e)] <$> err)) = terr e) as ->; [| lia].
      rewrite <- Ht. apply bool_decide_ext. by rewrite fmap_is_Some.
    + by apply addErr_errors.
  - pose proof (handler_good (mkEnv now (ps_err st)) e (ps_state st)) as Hg. destruct (pl_handler p _ _ _) as [err s]. simpl in Hg. simplify_eq. unfold handler_done.
    set (st1 := mkPState _ _ _ _ _ _ _ _ _ _ _ _ _ _).
    pose proof (addErr_same (EWrap ["pipeline: handle"; ee_Path e] <$> err) st1) as (E1 & E2 & E3 & ES & E4 & E5 & E6 & E7 & E8 & E9 & E10 & E11 & E12 & E13).
    constructor; unfold active; simpl; rewrite ?E1, ?E2, ?ES, ?E4, ?E5, ?E6, ?E7, ?E8, ?E9; simpl; try done;
      rewrite ?insert_middle, ?slots_middle, ?sum_list_with_middle; simpl; rewrite ?filter_app, ?filter_cons, ?length_app in *; simpl in *; try done; try lia.
    + rewrite <- H1, flat_map_app. simpl. solve_Permutation.
    + rewrite H7, <- Hg. destruct err; simpl; lia.
    + rewrite E13. simpl. rewrite <- Hg in HC. destruct err; simpl in *; lia.
    + by apply addErr_errors.
  - destruct (ps_sem st) as [|n] eqn:En; [done |]. simplify_eq.
    constructor; unfold active; simpl; rewrite ?insert_middle, ?slots_middle, ?sum_list_with_middle, ?flat_map_app; simpl;
      rewrite ?length_app in *; simpl in *; try done; lia.
Qed.

Lemma watch_pipe_step_inv input a st st' : pipe_step a st = Some st' → pipe_inv input st → pipe_inv input st'.
Proof.
  intros Hs Hinv. destruct a as [now| | | |i now| |err]; cbn [pipe_step] in Hs.
  - destruct (ps_loop st) as [|e|] eqn:Hl; try done. destruct (ps_in st) as [|raw rest] eqn:Hin; simplify_eq; [| by apply receive_inv].
    destruct Hinv as [H1 H2 H3 H4 H5 H6 H7 HC H8 HS H9 H10]. rewrite Hl, Hin in *. constructor; simpl; rewrite ?Hin; try done.
  - destruct (ps_loop st) as [|e|] eqn:Hl; try done. destruct (ps_err st) as [err|] eqn:He; simplify_eq.
    destruct Hinv as [H1 H2 H3 H4 H5 H6 H7 HC H8 HS H9 H10]. rewrite Hl in *. constructor; simpl; try done. by rewrite He.
  - destruct (ps_loop st) as [|e|] eqn:Hl; try done. case_decide as Hw; simplify_eq.
    destruct Hinv as [H1 H2 H3 H4 H5 H6 H7 HC H8 HS H9 H10]. rewrite Hl in *. simpl in *.
    constructor; unfold active in *; simpl; rewrite ?filter_app, ?length_app, ?flat_map_app, ?sum_list_with_app; simpl; try done; try lia; [| by intros e' ?%elem_of_nil].
    rewrite <- H1. solve_Permutation.
  - destruct (ps_loop st) as [|e|] eqn:Hl; try done. destruct (ps_err st) as [err|] eqn:He; simplify_eq.
    destruct Hinv as [H1 H2 H3 H4 H5 H6 H7 HC H8 HS H9 H10]. rewrite Hl in *. destruct (H2 e) as [Hraw Hp]; [by left |]. simpl in *.
    assert (raw_errors (ee_Raw e) = event_errors e) as Hre.
    { unfold passes in Hp. apply andb_true_iff in Hp as [Ho Hk]. apply negb_true_iff in Ho. unfold raw_errors. rewrite Ho, Hk. by rewrite <- Hraw. }
    constructor; simpl; rewrite ?length_app, ?sum_list_with_app, ?He; simpl; try done; try lia; [| by intros e' ?%elem_of_nil].
    rewrite <- H1, outs_app, outs_cons, Hp. simpl. unfold out. rewrite <- Hraw. solve_Permutation.
  - by eapply work_inv.
  - destruct (ps_errq st) as [|e q] eqn:Hq; simplify_eq. destruct Hinv as [H1 H2 H3 H4 H5 H6 H7 HC H8 HS H9 H10]. rewrite Hq in *.
    constructor; simpl; rewrite ?length_app in *; simpl in *; try done; lia.
  - destruct (ps_err st) as [err'|] eqn:He; simplify_eq. destruct Hinv as [H1 H2 H3 H4 H5 H6 H7 HC H8 HS H9 H10]. by constructor.
Qed.

Lemma watch_pipe_run_inv input sched st st' : pipe_run sched st = Some st' → pipe_inv input st → pipe_inv input st'.
Proof.
  revert st. induction sched as [|a sched IH]; intros st Hr Hinv; simpl in Hr; [by simplify_eq |].
  destruct (pipe_step a st) as [st1|] eqn:Hs; [| done]. by eapply IH, watch_pipe_step_inv.
Qed.

(** ** The run ends *)

(** An upper bound on the moves that are left *)
Definition loop_work (l : loop_at) : nat := match l with LSelect => 1 | LAcquire _ => 7 | LDone => 0 end.
Definition worker_work (w : wphase) : nat := match w with WTransform _ => 5 | WHandle _ => 3 | WRelease => 1 | WEnd => 0 end.
Definition pipe_work (st : pstate) : nat :=
  7 * length (ps_in st) + loop_work (ps_loop st) + sum_list_with worker_work (ps_workers st) + length (ps_errq st) + (match ps_err st with None => 1 | Some _ => 0 end).

Lemma work_decreases i now st st' : work i now st = Some st' → pipe_work st' < pipe_work st.
Proof.
  unfold work, pipe_work. destruct (ps_workers st !! i) as [w|] eqn:Hi; [| done]. destruct (list_split _ _ _ Hi) as (ws1 & ws2 & Hws & ->).
  destruct w as [e|e| |]; [destruct (ChainTransformer _ _ _) as [[err e'] s] | destruct (pl_handler p _ _ _) as [err s] | | done].
  3: { destruct (ps_sem st); [done |]. intros [= <-]. simpl. rewrite Hws, insert_middle, !sum_list_with_middle. simpl. lia. }
  all: intros [= <-];
    unfold transform_done, handler_done;
    match goal with |- context [addErr ?err ?st1] => pose proof (addErr_same err st1) as (E1 & E2 & E3 & ES & E4 & E5 & E6 & E7 & E8 & E9 & E10 & E11 & E12 & E13) end;
    simpl; rewrite Hws in *; rewrite E1, E2, E4, insert_middle, !sum_list_with_middle; simpl in *; lia.
Qed.

Lemma pipe_step_decreases a st st' : pipe_step a st = Some st' → pipe_work st' < pipe_work st.
Proof.
  destruct a as [now| | | |i now| |err]; cbn [pipe_step]; try apply work_decreases; unfold pipe_work.
  - destruct (ps_loop st) eqn:Hl; try done. destruct (ps_in st) as [|raw rest] eqn:Hin; intros [= <-]; simpl; [rewrite Hin; simpl; lia |].
    unfold receive. simpl. destruct (ps_err st) as [err|] eqn:He; simpl; rewrite ?Hl, ?He; simpl; [lia |].
    destruct (IsOverflow raw); simpl; rewrite ?Hl, ?He; simpl; [case_decide; rewrite ?length_app; simpl; lia |].
    destruct (AllFilters _ _ _); simpl; rewrite ?Hl, ?He; simpl; lia.
  - destruct (ps_loop st) eqn:Hl; try done. destruct (ps_err st) eqn:He; intros [= <-]. simpl. rewrite He. lia.
  - destruct (ps_loop st) as [|e|] eqn:Hl; try done. case_decide; intros [= <-]. simpl. rewrite sum_list_with_app. simpl. lia.
  - destruct (ps_loop st) as [|e|] eqn:Hl; try done. destruct (ps_err st) eqn:He; intros [= <-]. simpl. rewrite He. lia.
  - destruct (ps_errq st) as [|e q] eqn:Hq; intros [= <-]. simpl. lia.
  - destruct (ps_err st) eqn:He; intros [= <-]. simpl. lia.
Qed.

Lemma pipe_run_bounded sched st st' : pipe_run sched st = Some st' → length sched + pipe_work st' ≤ pipe_work st.
Proof.
  revert st. induction sched as [|a sched IH]; intros st Hr; simpl in *; [simplify_eq; lia |].
  destruct (pipe_step a st) as [st1|] eqn:Hs; [| done]. apply pipe_step_decreases in Hs. apply IH in Hr. lia.
Qed.

(** Each goroutine that has not ended holds one slot. *)
Lemma watch_pipe_step_sem a st st' : pipe_step a st = Some st' → ps_sem st = active st → ps_sem st' = active st'.
Proof.
  assert (∀ err st, ps_sem (addErr err st) = ps_sem st ∧ ps_workers (addErr err st) = ps_workers st) as Hadd by by intros [].
  intros Hs E. unfold active in *. destruct a as [now| | | |i now| |err]; cbn [pipe_step] in Hs; [destruct (ps_loop st); try done .. | | |].
  - destruct (ps_in st); simplify_eq; [done |]. unfold receive. simpl. destruct (ps_err st); [done |]. destruct (IsOverflow _); [done |].
    by destruct (AllFilters _ _ _).
  - by destruct (ps_err st); simplify_eq.
  - case_decide; simplify_eq. simpl. rewrite filter_app, length_app. simpl. lia.
  - by destruct (ps_err st); simplify_eq.
  - unfold work in Hs. destruct (ps_workers st !! i) as [w|] eqn:Hi; [| done]. destruct (list_split _ _ _ Hi) as (ws1 & ws2 & Hws & ->).
    rewrite Hws in *. rewrite slots_middle in E.
    destruct w as [e|e| |]; [destruct (ChainTransformer _ _ _) as [[err e'] s] | destruct (pl_handler p _ _ _) as [err s] | | done].
    1, 2: injection Hs as <-; simpl; rewrite insert_middle, slots_middle; unfold transform_done, handler_done;
      rewrite (proj1 (Hadd _ _)); simpl in *; lia.
    destruct (ps_sem st); [done |]. simplify_eq. simpl. rewrite insert_middle, slots_middle. simpl in *. lia.
  - by destruct (ps_errq st); simplify_eq.
  - by destruct (ps_err st); simplify_eq.
Qed.

Lemma watch_pipe_run_sem sched st st' : pipe_run sched st = Some st' → ps_sem st = active st → ps_sem st' = active st'.
Proof.
  revert st. induction sched as [|a sched IH]; intros st Hr E; simpl in Hr; [by simplify_eq |].
  destruct (pipe_step a st) as [st1|] eqn:Hs; [| done]. by eapply IH, watch_pipe_step_sem.
Qed.

(** While the run has not ended, a goroutine, the loop or the reader of the errors can move. *)
Lemma watch_pipe_progress st : 0 < W → ps_sem st = active st → ¬ pipeline_ended st →
  ∃ a, (∀ err, a ≠ Cancel err) ∧ is_Some (pipe_step a st).
Proof.
  intros HW Hsem Hn.
  assert (∀ w, w ∈ ps_workers st → running w = true → ∃ a, (∀ err, a ≠ Cancel err) ∧ is_Some (pipe_step a st)) as Hrun.
  { intros w Hw Hr. apply list_elem_of_lookup in Hw as [i Hi]. exists (Work i 0). split; [done |]. simpl. unfold work. rewrite Hi.
    destruct w as [e|e| |]; [destruct (ChainTransformer _ _ _) as [[? ?] ?]; by eexists | destruct (pl_handler _ _ _ _) as [? ?]; by eexists | | done].
    assert (0 < ps_sem st) as Hpos; [| destruct (ps_sem st); [lia | by eexists]].
    rewrite Hsem. destruct (list_split _ _ _ Hi) as (ws1 & ws2 & Hws & _). unfold active. rewrite Hws, slots_middle. simpl. lia. }
  destruct (ps_loop st) as [|e|] eqn:Hl.
  - exists (Recv 0). split; [done |]. simpl. rewrite Hl. destruct (ps_in st); by eexists.
  - destruct (decide (ps_sem st < W)) as [Hs|Hs]; [exists Acquire; split; [done |]; simpl; rewrite Hl, decide_True by done; by eexists |].
    rewrite Hsem in Hs. unfold active in Hs. destruct (filter _ (ps_workers st)) as [|w ws] eqn:Hf; [simpl in Hs; lia |].
    assert (w ∈ filter (λ w, running w = true) (ps_workers st)) as Hw by (rewrite Hf; by left). apply list_elem_of_filter in Hw as [Hr Hw]. by apply (Hrun w).
  - destruct (decide (Forall (λ w, running w = false) (ps_workers st))) as [Hw|Hw].
    + destruct (ps_errq st) as [|e q] eqn:Hq; [| exists Report; split; [done |]; simpl; rewrite Hq; by eexists]. exfalso. apply Hn. split_and!; [done | | done].
      eapply Forall_impl; [exact Hw |]. by intros [].
    + apply not_Forall_Exists in Hw; [| apply _]. apply Exists_exists in Hw as (w & Hw & Hr). apply (Hrun w Hw). destruct (running w) eqn:E; [done | by destruct Hr].
Qed.

Lemma uncancelled_err sched st st' : uncancelled sched → pipe_run sched st = Some st' → ps_err st = None → ps_err st' = None.
Proof.
  intros Hu. revert st. induction Hu as [|a sched Ha _ IH]; intros st Hr He; simpl in *; [by simplify_eq |].
  destruct (pipe_step a st) as [st1|] eqn:Hs; [| done]. apply (IH st1 Hr). clear IH Hr.
  assert (∀ err st, ps_err (addErr err st) = ps_err st) as Hadd by by intros [].
  destruct a as [now| | | |i now| |err]; cbn [pipe_step] in Hs; [destruct (ps_loop st); try done .. | | | done].
  - destruct (ps_in st); simplify_eq; [done |]. unfold receive. simpl. rewrite He. destruct (IsOverflow _); [done |]. by destruct (AllFilters _ _ _).
  - by rewrite He in Hs.
  - case_decide; by simplify_eq.
  - by rewrite He in Hs.
  - unfold work in Hs. destruct (ps_workers st !! i) as [[e|e| |]|]; [destruct (ChainTransformer _ _ _) as [[? ?] ?] | destruct (pl_handler _ _ _ _) | destruct (ps_sem st) | |]; simplify_eq;
      unfold transform_done, handler_done; simpl; rewrite ?Hadd; done.
  - destruct (ps_errq st); by simplify_eq.
Qed.
End pipeline.

(** C14: the outcome of a pipeline does not depend on its goroutines.  When the filters do not look
    at the clock, and the transformers and the handler decide by the event what they make of it
    and whether they fail, every run that ends without cancellation, under any schedule and with
    any number of workers, has given the handler each event that passes, once, transformed, and
    no other, and reports the counts that follow; at no time do more workers run than there are
    slots. *)
Theorem pipeline_deterministic {S} (p : Pipeline S) W keep tr terr good input s sched st :
  (∀ now e, AllFilters (pl_filters p) (mkEnv now None) e = keep e) →
  (∀ e s, let '(err, e', _) := ChainTransformer (pl_transformers p) e s in e' = tr e ∧ bool_decide (is_Some err) = terr e) →
  (∀ c e s, bool_decide ((pl_handler p c e s).1 = None) = good e) →
  pipe_run p W sched (pipeline_start input s) = Some st →
  active st ≤ W
  ∧ (uncancelled sched → pipeline_ended st →
     ps_calls st ≡ₚ outs keep tr input
     ∧ pipeline_result st = mkPipelineResult (length input) (length (filter (λ r, passes keep r = false) input))
         (length (filter (λ e, good e = true) (outs keep tr input))) (sum_list_with (raw_errors keep tr terr good) input)).
Proof.
  intros Hf Ht Hg Hr. destruct (watch_pipe_run_inv p W keep tr Hf terr good Ht Hg input sched _ _ Hr) as [H1 H2 H3 H4 H5 H6 H7 HC H8 HS H9 H10].
  { by apply pipeline_start_inv. }
  split; [done |]. intros Hu (Hl & Hw & Hq). apply (uncancelled_err p W sched _ _ Hu) in Hr as He; [| done].
  destruct (H4 He) as [Hd Hrec]. specialize (H10 Hl He). rewrite Hl, Hd, H10 in *.
  assert (flat_map (worker_holds tr) (ps_workers st) = [] ∧ active st = 0
    ∧ sum_list_with (worker_errors tr terr good) (ps_workers st) = 0 ∧ sum_list_with to_handle (ps_workers st) = 0) as (Hw1 & Hw2 & Hw3 & Hw4).
  { unfold active. clear -Hw. induction Hw as [|w ws -> _ (IH1 & IH2 & IH3 & IH4)]; [done |]. simpl. by rewrite IH1. }
  rewrite Hw1, Hw2, Hw3, Hw4 in *. simpl in *. change (outs keep tr []) with (@nil EnrichedEvent) in H1. simpl in H1. rewrite app_nil_r in H1. split; [done |].
  unfold pipeline_result. rewrite H7, <- H1. f_equal; [lia | | lia].
  assert (length (outs keep tr input) + length (filter (λ r, passes keep r = false) input) = length input) as Hlen.
  { clear. unfold outs. rewrite length_fmap. induction input as [|r rs IH]; [done |]. rewrite !filter_cons. destruct (passes keep r); simpl; lia. }
  apply Permutation_length in H1. lia.
Qed.

(** C15: a pipeline ends.  Whatever the transformers, the handler and the context do, a run makes
    at most seven moves for each event and two more, each goroutine that has not ended holds one
    slot of the semaphore, and while the run has not ended a goroutine, the loop or the reader of
    the errors can move, without the context having to end. *)
Theorem pipeline_ends {S} (p : Pipeline S) W input s sched st :
  0 < W → pipe_run p W sched (pipeline_start input s) = Some st →
  length sched ≤ 7 * length input + 2 ∧ ps_sem st = active st
  ∧ (¬ pipeline_ended st → ∃ a, (∀ err, a ≠ Cancel err) ∧ is_Some (pipe_step p W a st)).
Proof.
  intros HW Hr. pose proof (watch_pipe_run_sem p W _ _ _ Hr eq_refl) as Hsem.
  split; [apply pipe_run_bounded in Hr; unfold pipeline_start, pipe_work in Hr; simpl in Hr; lia |]. split; [done |]. by apply watch_pipe_progress.
Qed.

(** A filter that rejects every event as it comes from the watcher *)
Definition rejects_raw (f : Filter) : Prop := ∀ c r, f c (toEnriched r) = false.

Lemma layer_filters_reject key : rejects_raw UpperDirOnlyFilter ∧ rejects_raw LowerDirOnlyFilter ∧ rejects_raw (AttrFilter key).
Proof. done. Qed.

Lemma rejecting_pipe_run {S} (p : Pipeline S) W f sched st st' : f ∈ pl_filters p → rejects_raw f → pipe_run p W sched st = Some st' →
  (loop_holds (ps_loop st) = [] ∧ ps_workers st = [] ∧ ps_calls st = []) → loop_holds (ps_loop st') = [] ∧ ps_workers st' = [] ∧ ps_calls st' = [].
Proof.
  intros Hf Hrej. assert (∀ c r, AllFilters (pl_filters p) c (toEnriched r) = false) as Hall.
  { intros c r. unfold AllFilters. destruct (forallb _ _) eqn:Hb; [| done]. rewrite forallb_forall in Hb. rewrite <- (Hb f), Hrej; [done |]. by apply list_elem_of_In. }
  revert st. induction sched as [|a sched IH]; intros st Hr (H1 & H2 & H3); simpl in Hr; [by simplify_eq |].
  destruct (pipe_step p W a st) as [st1|] eqn:Hs; [| done]. apply (IH st1 Hr). clear IH Hr.
  destruct a as [now| | | |i now| |err]; cbn [pipe_step] in Hs; [destruct (ps_loop st) eqn:Hl; try done .. | | |].
  - destruct (ps_in st) as [|r rs]; simplify_eq; [done |]. unfold receive. simpl. destruct (ps_err st); [simpl; by rewrite ?Hl |].
    destruct (IsOverflow r); [simpl; by rewrite ?Hl |]. rewrite Hall. simpl. by rewrite ?Hl.
  - destruct (ps_err st); by simplify_eq.
  - unfold work in Hs. by rewrite H2 in Hs.
  - destruct (ps_errq st); by simplify_eq.
  - destruct (ps_err st); by simplify_eq.
Qed.

(** Filters run before the transformers, on the event as it was received: a pipeline with a
    filter for a layer ([UpperDirOnlyFilter], [LowerDirOnlyFilter]) or for an attribute hands no
    event to its handler, even with the transformer that the filter is documented to need. *)
Theorem layer_filter_starves {S} (p : Pipeline S) W key input s sched st :
  (UpperDirOnlyFilter ∈ pl_filters p ∨ LowerDirOnlyFilter ∈ pl_filters p ∨ AttrFilter key ∈ pl_filters p) →
  pipe_run p W sched (pipeline_start input s) = Some st → ps_calls st = [] ∧ ps_workers st = [].
Proof.
  destruct (layer_filters_reject key) as (R1 & R2 & R3).
  intros Hf Hr. destruct Hf as [Hf|[Hf|Hf]]; (destruct (rejecting_pipe_run p W _ sched _ _ Hf ltac:(done) Hr) as (_ & ? & ?); [done | done]).
Qed.

(** The first middleware that was registered is the outermost. *)
Lemma NewPipeline_middlewares {S} n (h : Handler S) ms :
  pl_handler (NewPipeline n (WithHandler h :: (WithMiddleware <$> ms))) = foldr (λ m h, m h) h ms.
Proof.
  assert (∀ p : Pipeline S, pl_middlewares (foldl (λ p (o : PipelineOption S), o p) p (WithMiddleware <$> ms)) = pl_middlewares p ++ ms
    ∧ pl_handler (foldl (λ p (o : PipelineOption S), o p) p (WithMiddleware <$> ms)) = pl_handler p) as Hms.
  { induction ms as [|m ms IH]; intros p; simpl; [by rewrite app_nil_r |]. destruct (IH (WithMiddleware m p)) as [H1 H2].
    unfold fmap in *. rewrite H1, H2. simpl. by rewrite <- app_assoc. }
  unfold NewPipeline. simpl. destruct (Hms (WithHandler h (mkPipeline [] [] NoopHandler [] n 64))) as [H1 H2]. unfold fmap in *. rewrite H1, H2. simpl.
  clear. induction ms as [|m ms IH]; simpl; [done |]. by rewrite IH.
Qed.

(** ** Examples *)

Section examples.
Definition sample_raw (m : N) (path : string) : RawEvent := mkRawEvent m 7 path 0 "w".
Definition sample_input : list RawEvent := [sample_raw OpOpen "/m/a"; sample_raw OpModify "/m/a"; sample_raw OpOverflow EmptyString; sample_raw OpAccess "/m/b"].

Definition sample_tag : EnrichedEvent → EnrichedEvent := SetAttr "env" (AnyString "ci").

(** A read-only pipeline with two workers that labels events and collects them, failing on one *)
Definition sample_handler : Handler (list EnrichedEvent) := λ c e s,
  if decide (ee_Name e = "b") then (Some (EText ["refused"]), s) else CollectingHandler c e s.
Definition sample_pipeline (fs : list Filter) : Pipeline (list EnrichedEvent) :=
  NewPipeline 4 [WithFilters fs; WithReadOnlyPipeline; WithTransformer (λ e s, (None, sample_tag e, s)); WithHandler sample_handler; WithWorkers 2].

Definition sample_schedule : list actor :=
  [Recv 0; Acquire; Recv 0; Recv 0; Recv 0; Acquire; Work 1 0; Work 0 0; Report; Recv 0; Work 1 0; Work 0 0; Work 0 0; Report; Work 1 0].

Definition sample_state : pstate (S := list EnrichedEvent) :=
  default (pipeline_start sample_input []) (pipe_run (sample_pipeline []) 2 sample_schedule (pipeline_start sample_input [])).

Lemma sample_ended : pipeline_ended sample_state.
Proof. split_and!; [reflexivity | vm_compute; repeat constructor | reflexivity]. Qed.

Lemma sample_run : pipe_run (sample_pipeline []) 2 sample_schedule (pipeline_start sample_input []) = Some sample_state.
Proof. vm_compute. reflexivity. Qed.

Lemma sample_uncancelled : uncancelled sample_schedule.
Proof. repeat constructor. Qed.

Lemma pipeline_deterministic_witness :
  pipeline_result sample_state = mkPipelineResult 4 2 1 2
  ∧ active sample_state ≤ 2
  ∧ (uncancelled sample_schedule → pipeline_ended sample_state →
     ps_calls sample_state ≡ₚ outs (λ e, mask_IsReadOnly (ee_Mask e) && (negb (mask_Has (ee_Mask e) OpOverflow) && true)) sample_tag sample_input
     ∧ pipeline_result sample_state = mkPipelineResult (length sample_input)
         (length (filter (λ r, passes (λ e, mask_IsReadOnly (ee_Mask e) && (negb (mask_Has (ee_Mask e) OpOverflow) && true)) r = false) sample_input))
         (length (filter (λ e, bool_decide (ee_Name e ≠ "b") = true)
            (outs (λ e, mask_IsReadOnly (ee_Mask e) && (negb (mask_Has (ee_Mask e) OpOverflow) && true)) sample_tag sample_input)))
         (sum_list_with (raw_errors (λ e, mask_IsReadOnly (ee_Mask e) && (negb (mask_Has (ee_Mask e) OpOverflow) && true)) sample_tag (λ _, false)
            (λ e, bool_decide (ee_Name e ≠ "b"))) sample_input)).
Proof.
  split; [vm_compute; reflexivity |].
  apply (pipeline_deterministic (sample_pipeline []) 2 (λ e, mask_IsReadOnly (ee_Mask e) && (negb (mask_Has (ee_Mask e) OpOverflow) && true)) sample_tag (λ _, false)
    (λ e, bool_decide (ee_Name e ≠ "b")) sample_input [] sample_schedule).
  - reflexivity.
  - intros e s. split; [reflexivity |]. by apply bool_decide_false; intros [].
  - intros c e s. simpl. unfold sample_handler. case_decide; [rewrite !bool_decide_false; naive_solver | by rewrite !bool_decide_true].
  - exact sample_run.
Defined.

Lemma pipeline_ends_witness :
  0 < 2 ∧ length sample_schedule ≤ 7 * length sample_input + 2 ∧ ps_sem sample_state = active sample_state
  ∧ (¬ pipeline_ended sample_state → ∃ a, (∀ err, a ≠ Cancel err) ∧ is_Some (pipe_step (sample_pipeline []) 2 a sample_state)).
Proof. split; [lia |]. apply (pipeline_ends (sample_pipeline []) 2 sample_input [] sample_schedule sample_state); [lia | exact sample_run]. Defined.

(** A pipeline that is to see the events of the upper layer *)
Lemma layer_filter_starves_witness :
  UpperDirOnlyFilter ∈ pl_filters (sample_pipeline [UpperDirOnlyFilter])
  ∧ ∃ st, pipe_run (sample_pipeline [UpperDirOnlyFilter]) 2 [Recv 0; Recv 0; Recv 0; Recv 0; Recv 0; Report] (pipeline_start sample_input []) = Some st
    ∧ (ps_calls st = [] ∧ ps_workers st = []).
Proof.
  assert (UpperDirOnlyFilter ∈ pl_filters (sample_pipeline [UpperDirOnlyFilter])) as Hf by by left. split; [done |].
  eexists. split; [vm_compute; reflexivity |].
  eapply (layer_filter_starves (sample_pipeline [UpperDirOnlyFilter]) 2 "k" sample_input [] [Recv 0; Recv 0; Recv 0; Recv 0; Recv 0; Report]).
  - left. exact Hf.
  - vm_compute. reflexivity.
Defined.
End examples.
