(* ===== verification/FwSnapshot.v ===== *)
(** * FwSnapshot: overlays of containerd snapshots

    Models [src/pkg/fswatch/snapshot]: how the layers of a container are found, from the mounts of
    the kernel or from the snapshotter ([overlay.go]), and the transformers and filters that use
    them ([enricher.go]).  The kernel's table of mounts and the snapshotter are functions of the
    state. *)
From S2P Require Import Prelude GoStd GoPath DsTypes FwEvent FwStage.

(** containerd's [mount.Mount], the fields of [mountinfo.Info] and [snapshots.Info] that are read *)
Record Mount := mkMount { mt_Type : string; mt_Source : string; mt_Options : list string }.
Record MountInfo := mkMountInfo { mi_Mountpoint : string; mi_VFSOptions : string }.
Record SnapshotInfo := mkSnapshotInfo { si_Name : string; si_Kind : string; si_Parent : string; si_Labels : gmap string string }.

(** ** [overlay.go] *)

Definition overlay_kv_step (m : gmap string string) (field : string) : gmap string string :=
  match str_cut "=" field with
  | Some (k, v) => <[trim_space k := trim_space v]> m
  | None => if decide (field ≠ EmptyString) then <[trim_space field := EmptyString]> m else m
  end.

Definition parseOverlayOptions (opts : string) : gmap string string := foldl overlay_kv_step ∅ (str_split "," opts).
Definition parseSliceKVOptions (options : list string) : gmap string string := foldl overlay_kv_step ∅ options.

Definition overlayInfoFromMountinfo (m : MountInfo) (mergedDir : string) : result OverlayInfo :=
  let opts := parseOverlayOptions (mi_VFSOptions m) in
  let lower := opt_get opts "lowerdir" in
  if decide (lower = EmptyString) then Err (EText ["snapshot: overlay mount at"; mergedDir; "has no lowerdir"])
  else Ok (NewOverlayInfo mergedDir (opt_get opts "upperdir") (opt_get opts "workdir") (path_clean <$> str_split ":" lower)).

Definition overlayInfoFromOverlayMount (m : Mount) (mergedDir : string) : result OverlayInfo :=
  let opts := parseSliceKVOptions (mt_Options m) in
  let lower := opt_get opts "lowerdir" in
  if decide (lower = EmptyString) then Err (EText ["snapshot: overlay mount missing lowerdir option"])
  else Ok (NewOverlayInfo mergedDir (opt_get opts "upperdir") (opt_get opts "workdir") (path_clean <$> str_split ":" lower)).

Fixpoint overlayInfoFromMounts (mounts : list Mount) (mergedDir : string) : result OverlayInfo :=
  match mounts with
  | [] => Err (EText ["snapshot: no overlay or bind mount found"])
  | m :: mounts =>
      if decide (mt_Type m = "overlay") then overlayInfoFromOverlayMount m mergedDir
      else if decide (mt_Type m = "bind") then Ok (NewOverlayInfo mergedDir EmptyString EmptyString [mt_Source m])
      else overlayInfoFromMounts mounts mergedDir
  end.

Record MountEntry := mkMountEntry { mn_MergedDir : string; mn_Overlay : OverlayInfo }.

Definition pathContainsSegment (path segment : string) : bool :=
  if decide (segment = EmptyString ∨ path = EmptyString) then false
  else bool_decide (path = segment) || str_contains path ("/" +:+ segment +:+ "/") || has_suffix path ("/" +:+ segment) || has_prefix path (segment +:+ "/").

Section snapshot.
Context {S : Type} `{OS S, GoRange, GoSort}.
Context (GetMounts : S → result (list MountInfo)) (sn_Mounts : S → string → result (list Mount)) (sn_Stat : S → string → result SnapshotInfo).

Definition OverlayInfoFromMergedDir (mergedDir : string) (s : S) : result OverlayInfo :=
  let mergedDir := path_clean mergedDir in
  match GetMounts s with
  | Err e => Err (EWrap ["snapshot: get overlay mounts"] e)
  | Ok mounts =>
      match List.find (λ m, bool_decide (path_clean (mi_Mountpoint m) = mergedDir)) mounts with
      | Some m => overlayInfoFromMountinfo m mergedDir
      | None => Err (EWrap ["snapshot"; mergedDir] ErrMountNotFound)
      end
  end.

Definition OverlayInfoFromSnapshotter (snapshotKey mergedDir : string) (s : S) : result OverlayInfo :=
  match sn_Mounts s snapshotKey with
  | Err e => Err (EWrap ["snapshot: snapshotter.Mounts"; snapshotKey] e)
  | Ok mounts =>
      match overlayInfoFromMounts mounts mergedDir with
      | Err e => Err (EWrap ["snapshot: overlay info from mounts for"; snapshotKey] e)
      | Ok info => Ok info
      end
  end.

(** [sn] tells whether there is a snapshotter. *)
Definition ResolveOverlayInfo (mergedDir : string) (sn : bool) (snapshotKey : string) (s : S) : result OverlayInfo :=
  match OverlayInfoFromMergedDir mergedDir s with
  | Ok info => Ok info
  | Err e =>
      if decide (sn = true ∧ snapshotKey ≠ EmptyString)
      then match OverlayInfoFromSnapshotter snapshotKey mergedDir s with
           | Ok info => Ok info
           | Err _ => Err (EWrap ["snapshot: both strategies failed"] e)
           end
      else Err e
  end.

Definition entry_of (m : MountInfo) : option MountEntry :=
  let mergedDir := path_clean (mi_Mountpoint m) in
  match overlayInfoFromMountinfo m mergedDir with Ok info => Some (mkMountEntry mergedDir info) | Err _ => None end.

Definition AllOverlayMounts (s : S) : result (list MountEntry) :=
  match GetMounts s with
  | Err e => Err (EWrap ["snapshot: enumerate overlay mounts"] e)
  | Ok mounts => Ok (sort_slice mn_MergedDir (omap entry_of mounts))
  end.

Definition ContainerdSnapshotMounts (snapshotterRoot : string) (s : S) : result (list MountEntry) :=
  let root := path_clean snapshotterRoot in
  match AllOverlayMounts s with
  | Err e => Err e
  | Ok all => Ok (filter (λ e, existsb (λ lower, has_prefix lower (root +:+ "/")) (oi_LowerDirs (mn_Overlay e)) = true) all)
  end.

(** The loop of [SnapshotAncestors]; [None] when the fuel does not suffice. *)
Fixpoint ancestors_loop (fuel : nat) (s : S) (current : string) (visited : gset string) (chain : list SnapshotInfo) : option (result (list SnapshotInfo)) :=
  match fuel with
  | 0 => None
  | Datatypes.S fuel =>
      if decide (current = EmptyString) then Some (Ok chain)
      else if decide (current ∈ visited) then Some (Err (EText ["snapshot: cycle detected at key"; current]))
      else match sn_Stat s current with
           | Err e => Some (Err (EWrap ["snapshot: stat"; current] e))
           | Ok info => ancestors_loop fuel s (si_Parent info) ({[current]} ∪ visited) (chain ++ [info])
           end
  end.
Definition SnapshotAncestors (fuel : nat) (snapshotKey : string) (s : S) : option (result (list SnapshotInfo)) := ancestors_loop fuel s snapshotKey ∅ [].

(** ** [enricher.go] *)

(** What the transformers do with the overlay that they found *)
Definition attach (overlay : OverlayInfo) (e : EnrichedEvent) (s : S) : EnrichedEvent :=
  match overlay_RelPath overlay (ee_Path e) with
  | Err _ => e
  | Ok relPath => set_overlay overlay (ResolveLayer (os_Lstat s) overlay relPath) e
  end.

(** [ContainerdEnricher]: its cache; a range over it may start anywhere. *)
Definition cache_find (cache : gmap string OverlayInfo) (path : string) : option OverlayInfo :=
  List.find (λ o, ContainsPath o path) (snd <$> map_range cache).

Definition cache_fill (cache : gmap string OverlayInfo) (mounts : list MountEntry) : gmap string OverlayInfo :=
  foldl (λ c m, match c !! mn_MergedDir m with Some _ => c | None => <[mn_MergedDir m := mn_Overlay m]> c end) cache mounts.

Definition resolveForPath (path : string) (cache : gmap string OverlayInfo) (s : S) : result (option OverlayInfo) * gmap string OverlayInfo :=
  match cache_find cache path with
  | Some info => (Ok (Some info), cache)
  | None =>
      match AllOverlayMounts s with
      | Err e => (Err (EWrap ["containerd enricher: enumerate overlay mounts"] e), cache)
      | Ok mounts => let cache := cache_fill cache mounts in (Ok (cache_find cache path), cache)
      end
  end.

Definition ContainerdEnricher : Transformer (S * gmap string OverlayInfo) := λ e '(s, cache),
  match resolveForPath (ee_Path e) cache s with
  | (Ok (Some overlay), cache) => (None, attach overlay e s, (s, cache))
  | (_, cache) => (None, e, (s, cache))
  end.

Definition InvalidateCache (_ : gmap string OverlayInfo) : gmap string OverlayInfo := ∅.
Definition CachedEntries (cache : gmap string OverlayInfo) : gmap string OverlayInfo := cache.

(** [SnapshotterEnricher.resolveForKey]: a caller looks in the cache, calls the snapshotter without
    the mutex, and looks again before it stores. *)
Inductive key_phase := KCheck | KFetch | KStore (info : OverlayInfo) | KDone (r : result OverlayInfo).

Definition key_step (mergedDir key : string) (s : S) (ph : key_phase) (cache : gmap string OverlayInfo) : key_phase * gmap string OverlayInfo :=
  match ph with
  | KCheck => (match cache !! key with Some info => KDone (Ok info) | None => KFetch end, cache)
  | KFetch => (match OverlayInfoFromSnapshotter key mergedDir s with Err e => KDone (Err e) | Ok info => KStore info end, cache)
  | KStore info => match cache !! key with Some existing => (KDone (Ok existing), cache) | None => (KDone (Ok info), <[key := info]> cache) end
  | KDone r => (KDone r, cache)
  end.

(** A caller alone: three steps *)
Definition resolveForKey (mergedDir key : string) (s : S) (cache : gmap string OverlayInfo) : result OverlayInfo * gmap string OverlayInfo :=
  let '(ph, cache) := key_step mergedDir key s KCheck cache in
  let '(ph, cache) := key_step mergedDir key s ph cache in
  let '(ph, cache) := key_step mergedDir key s ph cache in
  (match ph with KDone r => r | _ => Err (EText []) end, cache).

Definition SnapshotterEnricher (mergedDir : string) (keyFn : EnrichedEvent → string) : Transformer (S * gmap string OverlayInfo) := λ e '(s, cache),
  if decide (keyFn e = EmptyString) then (None, e, (s, cache))
  else match resolveForKey mergedDir (keyFn e) s cache with
       | (Ok overlay, cache) => (None, attach overlay e s, (s, cache))
       | (Err _, cache) => (None, e, (s, cache))
       end.

Definition NewMountEnricher (mounts : list Mount) (mergedDir : string) : result (Transformer S) :=
  match overlayInfoFromMounts mounts mergedDir with
  | Err e => Err (EWrap ["snapshot: build mount enricher"] e)
  | Ok info => Ok (λ e s, (None, attach info e s, s))
  end.

Definition SnapshotKeyFilter (snapshotKey : string) : Filter := λ _ e,
  match ee_Overlay e with
  | None => false
  | Some o => existsb (λ l, pathContainsSegment (sl_Path l) snapshotKey) (oi_Layers o)
  end.
Definition MergedDirFilter (mergedDir : string) : Filter := PathPrefixFilter [mergedDir].
Definition UpperDirWritesFilter : Filter := UpperDirOnlyFilter.
Definition ImageLayerFilter : Filter := LowerDirOnlyFilter.
Definition ContainerdKindFilter (kind : string) : Filter := AttrValueFilter "containerd.io/snapshot/kind" (Some (AnyString kind)).

Definition SnapshotInfoTransformer (keyFn : EnrichedEvent → string) : Transformer S := λ e s,
  if decide (keyFn e = EmptyString) then (None, e, s)
  else match sn_Stat s (keyFn e) with
       | Err _ => (None, e, s)
       | Ok info =>
           let e := SetAttr "containerd.snapshot.name" (AnyString (si_Name info)) e in
           let e := SetAttr "containerd.snapshot.kind" (AnyString (si_Kind info)) e in
           let e := SetAttr "containerd.snapshot.parent" (AnyString (si_Parent info)) e in
           (None, if decide (si_Labels info = ∅) then e else SetAttr "containerd.snapshot.labels" (AnyLabels (si_Labels info)) e, s)
       end.
End snapshot.

(** ** The two sources agree *)

(** The options as the kernel prints them *)
Lemma parseOverlayOptions_join opts : Forall (λ o, ¬ char_in "," o) opts → parseOverlayOptions (str_join "," opts) = parseSliceKVOptions opts.
Proof.
  intros Ho. unfold parseOverlayOptions, parseSliceKVOptions. destruct opts as [|o opts]; [done |].
  by rewrite (str_split_join ",") by done.
Qed.

Lemma mount_sources_agree m opts mergedDir : Forall (λ o, ¬ char_in "," o) opts → mi_VFSOptions m = str_join "," opts →
  match overlayInfoFromMountinfo m mergedDir, overlayInfoFromOverlayMount (mkMount "overlay" EmptyString opts) mergedDir with
  | Ok o, Ok o' => o = o'
  | Err _, Err _ => True
  | _, _ => False
  end.
Proof.
  intros Ho Hm. unfold overlayInfoFromMountinfo, overlayInfoFromOverlayMount. rewrite Hm, parseOverlayOptions_join by done. simpl. by case_decide.
Qed.

(** ** Ancestors *)

Section ancestors.
Context {S : Type} (sn_Stat : S → string → result SnapshotInfo) (s : S).

(** The chain of a key: its information, then that of its parent, and so on *)
Inductive chain_of : string → list SnapshotInfo → Prop :=
  | chain_end : chain_of EmptyString []
  | chain_next key info chain : key ≠ EmptyString → sn_Stat s key = Ok info → chain_of (si_Parent info) chain → chain_of key (info :: chain).

(** [k'] is [k] or one of its ancestors. *)
Inductive ancestor : string → string → Prop :=
  | ancestor_refl k : ancestor k k
  | ancestor_step k info k' : k ≠ EmptyString → sn_Stat s k = Ok info → ancestor (si_Parent info) k' → ancestor k k'.

Lemma ancestor_trans k1 k2 k3 : ancestor k1 k2 → ancestor k2 k3 → ancestor k1 k3.
Proof. induction 1; [done |]. intros. by eapply ancestor_step; eauto. Qed.

Lemma chain_of_inv k c : chain_of k c → k ≠ EmptyString → ∃ info rest, c = info :: rest ∧ sn_Stat s k = Ok info ∧ chain_of (si_Parent info) rest.
Proof. destruct 1 as [|k info c Hne Hs Hc]; [done |]. intros _. by exists info, c. Qed.

Lemma chain_det k c1 : chain_of k c1 → ∀ c2, chain_of k c2 → c1 = c2.
Proof.
  induction 1 as [|k info c1 Hne Hs _ IH]; intros c2 H2.
  - by inversion H2.
  - apply chain_of_inv in H2 as (info' & rest & -> & Hs' & Hc); [| done]. assert (info' = info) as -> by congruence. f_equal. by apply IH.
Qed.

Lemma chain_ancestor k c k' : chain_of k c → ancestor k k' → ∃ c', chain_of k' c' ∧ length c' ≤ length c.
Proof.
  intros Hc Ha. revert c Hc. induction Ha as [k|k info k' Hne Hs _ IH]; intros c Hc; [by exists c |].
  apply chain_of_inv in Hc as (info' & rest & -> & Hs' & Hc); [| done]. assert (info' = info) as -> by congruence.
  destruct (IH rest Hc) as (c' & ? & ?). exists c'. split; [done | simpl; lia].
Qed.

(** A key that is its own proper ancestor has no chain. *)
Lemma chain_acyclic k chain info : chain_of k chain → sn_Stat s k = Ok info → ancestor (si_Parent info) k → k ≠ EmptyString → False.
Proof.
  intros Hc Hs Ha Hne. destruct (chain_of_inv k chain Hc Hne) as (info' & rest & -> & Hs' & Hr). assert (info' = info) as -> by congruence.
  destruct (chain_ancestor _ _ _ Hr Ha) as (c' & Hc' & Hl). rewrite <- (chain_det _ _ Hc _ Hc') in Hl. simpl in Hl. lia.
Qed.

Lemma ancestors_loop_spec (K : gset string) fuel current visited chain :
  (∀ k info, sn_Stat s k = Ok info → k ∈ K) → visited ⊆ K → size K - size visited < fuel →
  (∀ v, v ∈ visited → v ≠ EmptyString ∧ ∃ info, sn_Stat s v = Ok info ∧ ancestor (si_Parent info) current) →
  ∃ r, ancestors_loop sn_Stat fuel s current visited chain = Some r ∧
    match r with
    | Ok c => ∃ rest, c = chain ++ rest ∧ chain_of current rest
    | Err _ => (∃ k, ancestor current k ∧ k ≠ EmptyString ∧ ∃ e, sn_Stat s k = Err e)
               ∨ ∃ k info, ancestor current k ∧ k ≠ EmptyString ∧ sn_Stat s k = Ok info ∧ ancestor (si_Parent info) k
    end.
Proof.
  intros HK. revert current visited chain. induction fuel as [|fuel IH]; intros current visited chain Hsub Hsz Hv; [lia |]. cbn [ancestors_loop].
  case_decide as Hc; [subst; exists (Ok chain); split; [done |]; exists []; split; [by rewrite app_nil_r | constructor] |].
  case_decide as Hin.
  - eexists. split; [done |]. right. destruct (Hv current Hin) as (_ & info & Hs & Ha). exists current, info. split_and!; try done. apply ancestor_refl.
  - destruct (sn_Stat s current) as [info|e] eqn:Hs.
    + assert (current ∈ K) as HcK by by eapply HK. destruct (IH (si_Parent info) ({[current]} ∪ visited) (chain ++ [info])) as (r & -> & Hr).
      * set_solver.
      * assert (size ({[current]} ∪ visited) = 1 + size visited) as -> by (rewrite size_union, size_singleton by set_solver; done).
        assert (size visited < size K); [| lia]. apply subset_size. set_solver.
      * intros v [->%elem_of_singleton|Hvv]%elem_of_union.
        -- split; [done |]. exists info. split; [done | apply ancestor_refl].
        -- destruct (Hv v Hvv) as (Hne & info' & Hs' & Ha). split; [done |]. exists info'. split; [done |]. eapply ancestor_trans; [exact Ha |].
           eapply ancestor_step; [done | done | apply ancestor_refl].
      * exists r. split; [done |]. destruct r as [c|e].
        -- destruct Hr as (rest & -> & Hrest). exists (info :: rest). rewrite <- app_assoc. split; [done |]. by apply chain_next.
        -- destruct Hr as [(k & Ha & Hr)|(k & info' & Ha & Hr)]; [left | right]; [exists k | exists k, info']; (split; [by eapply ancestor_step | done]).
    + eexists. split; [done |]. left. exists current. split_and!; [apply ancestor_refl | done | by eexists].
Qed.
End ancestors.

(** C18: the chain of a snapshot.  When finitely many keys have information, [SnapshotAncestors]
    returns, after at most one turn more than there are keys: with the chain of the key, from the
    key to its last ancestor, exactly when the key has one; otherwise with an error, and then some
    ancestor is unknown or is its own ancestor. *)
Theorem SnapshotAncestors_spec {S} (sn_Stat : S → string → result SnapshotInfo) (s : S) (K : gset string) fuel key :
  (∀ k info, sn_Stat s k = Ok info → k ∈ K) → size K < fuel →
  ∃ r, SnapshotAncestors sn_Stat fuel key s = Some r
  ∧ (∀ chain, r = Ok chain ↔ chain_of sn_Stat s key chain)
  ∧ (∀ e, r = Err e → (∃ k, ancestor sn_Stat s key k ∧ k ≠ EmptyString ∧ ∃ e, sn_Stat s k = Err e)
      ∨ ∃ k info, ancestor sn_Stat s key k ∧ k ≠ EmptyString ∧ sn_Stat s k = Ok info ∧ ancestor sn_Stat s (si_Parent info) k).
Proof.
  intros HK Hf. destruct (ancestors_loop_spec sn_Stat s K fuel key ∅ []) as (r & Hr & Hspec); [done | set_solver | rewrite size_empty; lia | set_solver |].
  exists r. split; [done |]. split; [| by intros e ->]. intros chain. destruct r as [c|e].
  - destruct Hspec as (rest & -> & Hrest). simpl. split; [by intros [= <-] |]. intros Hc. f_equal. by eapply chain_det.
  - split; [done |]. intros Hc. exfalso. destruct Hspec as [(k & Ha & Hne & e' & Hs)|(k & info & Ha & Hne & Hs & Hcy)].
    + destruct (chain_ancestor _ _ _ _ _ Hc Ha) as (c' & Hc' & _). apply chain_of_inv in Hc' as (info & rest & _ & Hs' & _); [congruence | done].
    + destruct (chain_ancestor _ _ _ _ _ Hc Ha) as (c' & Hc' & _). by eapply chain_acyclic.
Qed.

(** ** The caches of the enrichers *)

Lemma find_Some_elem {A} (f : A → bool) l x : List.find f l = Some x → x ∈ l ∧ f x = true.
Proof. intros Hf. apply List.find_some in Hf as [H1 H2]. split; [by apply list_elem_of_In | done]. Qed.

Lemma find_None_elem {A} (f : A → bool) l x : List.find f l = None → x ∈ l → f x = false.
Proof. intros Hf Hx. eapply List.find_none in Hf; [done |]. by apply list_elem_of_In. Qed.

Section caches.
Context {S : Type} `{OS S, GoRange, GoSort} (GetMounts : S → result (list MountInfo)) (mounts : list MountEntry).

(** The overlays that are mounted, none in another's merged directory *)
Context (mounts_fixed : ∀ s, AllOverlayMounts GetMounts s = Ok mounts).
Context (mounts_distinct : NoDup (mn_MergedDir <$> mounts)).
Context (mounts_apart : ∀ m1 m2 path, m1 ∈ mounts → m2 ∈ mounts → ContainsPath (mn_Overlay m1) path = true → ContainsPath (mn_Overlay m2) path = true → m1 = m2).

(** The cache holds mounted overlays only. *)
Definition cache_true (cache : gmap string OverlayInfo) : Prop := ∀ k o, cache !! k = Some o → ∃ m, m ∈ mounts ∧ mn_MergedDir m = k ∧ mn_Overlay m = o.

(** The overlay that has the path *)
Definition overlay_of (path : string) : option OverlayInfo := mn_Overlay <$> List.find (λ m, ContainsPath (mn_Overlay m) path) mounts.

Lemma overlay_of_unique m path : m ∈ mounts → ContainsPath (mn_Overlay m) path = true → overlay_of path = Some (mn_Overlay m).
Proof.
  intros Hm Hc. unfold overlay_of. destruct (List.find _ mounts) as [m'|] eqn:Hf; simpl.
  - apply find_Some_elem in Hf as [Hm' Hc']. by rewrite (mounts_apart m' m path).
  - eapply find_None_elem in Hf; [| exact Hm]. simpl in Hf. congruence.
Qed.

Lemma cache_find_true cache path : cache_true cache →
  match cache_find cache path with
  | Some o => overlay_of path = Some o
  | None => ∀ k o, cache !! k = Some o → ContainsPath o path = false
  end.
Proof.
  intros Ht. unfold cache_find. destruct (List.find _ _) as [o|] eqn:Hf.
  - apply find_Some_elem in Hf as [Ho Hc]. apply list_elem_of_fmap in Ho as ([k o'] & -> & Ho). apply elem_of_map_range in Ho.
    destruct (Ht k o' Ho) as (m & Hm & _ & <-). by apply overlay_of_unique.
  - intros k o Hk. eapply (find_None_elem (λ o, ContainsPath o path)); [exact Hf |]. apply list_elem_of_fmap. exists (k, o). split; [done |]. by apply elem_of_map_range.
Qed.

Lemma cache_fill_true cache ms : cache_true cache → (∀ m, m ∈ ms → m ∈ mounts) → cache_true (cache_fill cache ms) ∧
  (∀ m, m ∈ ms → is_Some (cache_fill cache ms !! mn_MergedDir m)) ∧ ∀ k, is_Some (cache !! k) → is_Some (cache_fill cache ms !! k).
Proof.
  unfold cache_fill. revert cache. induction ms as [|m ms IH]; intros cache Ht Hsub; simpl; [split_and!; [done | set_solver | done] |].
  set (c1 := match cache !! mn_MergedDir m with Some _ => cache | None => <[mn_MergedDir m := mn_Overlay m]> cache end).
  assert (cache_true c1) as Ht1.
  { subst c1. destruct (cache !! mn_MergedDir m) eqn:Hm; [done |]. intros k o [[<- <-]|[Hne Hk]]%lookup_insert_Some; [exists m; split_and!; [apply Hsub; by left | done | done] | by apply Ht]. }
  assert (is_Some (c1 !! mn_MergedDir m)) as Hm1 by (subst c1; destruct (cache !! mn_MergedDir m) eqn:Hm; [by eexists | rewrite lookup_insert_eq; by eexists]).
  destruct (IH c1 Ht1) as (H1' & H2' & H3'); [intros m' Hm'; apply Hsub; by right |]. split_and!; [done | |].
  - intros m' [->|Hm']%elem_of_cons; [by apply H3' | by apply H2'].
  - intros k Hk. apply H3'. subst c1. destruct (cache !! mn_MergedDir m) eqn:Hm; [done |]. rewrite lookup_insert_is_Some'. by right.
Qed.

(** [ContainerdEnricher] attaches to each event the overlay that has its path, with a cache or
    without. *)
Lemma ContainerdEnricher_transparent e s cache : cache_true cache →
  let '(err, e', (s', cache')) := ContainerdEnricher GetMounts e (s, cache) in
  err = None ∧ s' = s ∧ cache_true cache' ∧ e' = match overlay_of (ee_Path e) with Some o => attach o e s | None => e end.
Proof.
  intros Ht. unfold ContainerdEnricher, resolveForPath. pose proof (cache_find_true cache (ee_Path e) Ht) as Hf.
  destruct (cache_find cache (ee_Path e)) as [o|]; [by rewrite Hf |]. rewrite mounts_fixed.
  destruct (cache_fill_true cache mounts Ht) as (Ht' & Hall & _); [done |]. pose proof (cache_find_true _ (ee_Path e) Ht') as Hf'.
  destruct (cache_find (cache_fill cache mounts) (ee_Path e)) as [o|]; [by rewrite Hf' |]. split_and!; try done.
  destruct (overlay_of (ee_Path e)) as [o|] eqn:Ho; [| done]. exfalso. unfold overlay_of in Ho. apply fmap_Some in Ho as (m & Hm & ->). apply find_Some_elem in Hm as [Hm Hc].
  destruct (Hall m Hm) as [o' Ho']. destruct (Ht' _ _ Ho') as (m' & Hm' & Hd & <-). assert (m' = m) as ->.
  { apply list_elem_of_lookup in Hm as [i Hi], Hm' as [j Hj]. assert (j = i) as ->; [| congruence].
    eapply (NoDup_lookup (mn_MergedDir <$> mounts)); [done | by rewrite list_lookup_fmap, Hj | by rewrite list_lookup_fmap, Hi, Hd]. }
  by rewrite (Hf' _ _ Ho') in Hc.
Qed.
End caches.

(** Callers of [resolveForKey] for one key that interleave agree on the result. *)
Section key_race.
Context {S : Type} (sn_Mounts : S → string → result (list Mount)) (mergedDir key : string).

Definition callers_step (st : list key_phase * gmap string OverlayInfo) (im : nat * S) : list key_phase * gmap string OverlayInfo :=
  let '(phs, cache) := st in
  match phs !! im.1 with
  | None => st
  | Some ph => let '(ph, cache) := key_step sn_Mounts mergedDir key im.2 ph cache in (<[im.1 := ph]> phs, cache)
  end.

Lemma resolveForKey_race sched n cache i o :
  let '(phs, cache') := foldl callers_step (replicate n KCheck, cache) sched in
  phs !! i = Some (KDone (Ok o)) → cache' !! key = Some o.
Proof.
  assert (∀ st, (∀ i o, st.1 !! i = Some (KDone (Ok o)) → st.2 !! key = Some o) →
    ∀ i o, (foldl callers_step st sched).1 !! i = Some (KDone (Ok o)) → (foldl callers_step st sched).2 !! key = Some o) as Hgen.
  { induction sched as [|[j s] sched IH]; intros st Hst; simpl; [done |]. apply IH. destruct st as [phs c]. simpl in *. unfold callers_step. simpl.
    destruct (phs !! j) as [ph|] eqn:Hj; [| done]. destruct (key_step sn_Mounts mergedDir key s ph c) as [ph' c'] eqn:Hk. simpl.
    assert ((∀ o, c !! key = Some o → c' !! key = Some o) ∧ (∀ o, ph' = KDone (Ok o) → c' !! key = Some o)) as [Hc Hd].
    { destruct ph as [| |info|r]; simpl in Hk.
      - destruct (c !! key) eqn:Hck; simplify_eq; split; try done; by intros ? [= <-].
      - destruct (OverlayInfoFromSnapshotter _ _ _ _); simplify_eq; by split.
      - destruct (c !! key) eqn:Hck; simplify_eq; split; try done; try (by intros ? [= <-]); intros o' [= <-]; by rewrite lookup_insert_eq.
      - simplify_eq. split; [done |]. intros o' [= ->]. by eapply (Hst j). }
    intros i' o'. destruct (decide (j = i')) as [<-|Hne].
    - rewrite list_lookup_insert_eq by (by eapply lookup_lt_Some). intros [= ->]. by apply Hd.
    - rewrite list_lookup_insert_ne by done. intros Hi. by apply Hc, (Hst i'). }
  specialize (Hgen (replicate n KCheck, cache)). destruct (foldl callers_step (replicate n KCheck, cache) sched) as [phs c']. simpl in *. apply Hgen.
  intros j o' Hj. apply lookup_replicate in Hj as [Hj _]. done.
Qed.
End key_race.

(** [ContainerdKindFilter] looks for an attribute that [SnapshotInfoTransformer] does not set. *)
Lemma ContainerdKindFilter_never {S} (sn_Stat : S → string → result SnapshotInfo) keyFn kind c e s :
  ee_Attrs e = None → ContainerdKindFilter kind c (SnapshotInfoTransformer sn_Stat keyFn e s).1.2 = false.
Proof.
  intros Ha. unfold ContainerdKindFilter, AttrValueFilter, SnapshotInfoTransformer, Attr. apply bool_decide_eq_false. case_decide; simpl; [by rewrite Ha |].
  destruct (sn_Stat s (keyFn e)) as [info|]; simpl; [| by rewrite Ha]. case_decide; simpl; rewrite ?Ha; simpl; by rewrite !lookup_insert_ne, lookup_empty by done.
Qed.

Definition sample_stat (_ : unit) (key : string) : result SnapshotInfo :=
  if decide (key = "top") then Ok (mkSnapshotInfo "top" "active" "base" ∅)
  else if decide (key = "base") then Ok (mkSnapshotInfo "base" "committed" EmptyString ∅)
  else Err (ESentinel "not found").

Lemma SnapshotAncestors_spec_witness :
  chain_of sample_stat () "top" [mkSnapshotInfo "top" "active" "base" ∅; mkSnapshotInfo "base" "committed" EmptyString ∅]
  ∧ ∃ r, SnapshotAncestors sample_stat 3 "top" () = Some r
  ∧ (∀ chain, r = Ok chain ↔ chain_of sample_stat () "top" chain)
  ∧ (∀ e, r = Err e → (∃ k, ancestor sample_stat () "top" k ∧ k ≠ EmptyString ∧ ∃ e, sample_stat () k = Err e)
      ∨ ∃ k info, ancestor sample_stat () "top" k ∧ k ≠ EmptyString ∧ sample_stat () k = Ok info ∧ ancestor sample_stat () (si_Parent info) k).
Proof.
  split; [repeat (eapply chain_next; [discriminate | reflexivity |]); constructor |].
  apply (SnapshotAncestors_spec sample_stat () {["top"; "base"]} 3 "top"); [| vm_compute; lia].
  intros k info. unfold sample_stat. repeat case_decide; intros; [set_solver.. | discriminate].
Defined.
