(* ===== verification/FwWatch.v ===== *)
(** * FwWatch: the fanotify watcher

    Models [src/pkg/fswatch/internal/sys/fanotify_linux.go] (what the kernel writes into a buffer,
    and its records) and [watcher_linux.go] (construction, the loop that reads, and the end) with
    the options of [options.go].  What the system calls answer is given; descriptors are
    numbers. *)
From S2P Require Import Prelude GoStd Sha256 GoBytes GoPath DsTypes FwEvent.

(** ** [fanotify_linux.go] *)

Definition MetadataVersion : N := 3.
Definition EventMetadataSize : nat := 24.

Record EventRecord := mkEventRecord { er_Mask : N; er_PID : Z; er_FD : Z }.

(** The bytes [o] to [o + n] of a buffer, as an unsigned and as a signed word *)
Definition word (o n : nat) (buf : list byte) : N := le_value (take n (drop o buf)).
Definition int32_of (x : N) : Z := if (x <? 2 ^ 31)%N then Z.of_N x else (Z.of_N x - 2 ^ 32)%Z.

(** The loop of [parseEventBuf]; [None] when the fuel does not suffice. *)
Fixpoint parse_loop (fuel : nat) (buf : list byte) (records : list EventRecord) : option (list EventRecord * option error) :=
  match fuel with
  | 0 => None
  | S fuel =>
      if decide (length buf < EventMetadataSize) then Some (records, None)
      else if decide (word 4 1 buf ≠ MetadataVersion) then Some (records, Some (EText ["fanotify: unexpected metadata version"]))
      else
        let n := N.to_nat (word 0 4 buf) in
        if decide (n < EventMetadataSize ∨ length buf < n) then Some (records, None)
        else parse_loop fuel (drop n buf) (records ++ [mkEventRecord (word 8 8 buf) (int32_of (word 20 4 buf)) (int32_of (word 16 4 buf))])
  end.
Definition parseEventBuf (buf : list byte) : option (list EventRecord * option error) := parse_loop (S (length buf)) buf [].

(** What [read] answers: bytes, that there is nothing now, or an error *)
Inductive read_answer := ReadBytes (b : list byte) | ReadAgain | ReadError (e : error).

Definition ReadEvents (r : read_answer) : list EventRecord * option error :=
  match r with
  | ReadAgain => ([], None)
  | ReadError e => ([], Some (EWrap ["fanotify read"] e))
  | ReadBytes [] => ([], None)
  | ReadBytes buf => default ([], None) (parseEventBuf buf)
  end.

(** [FDToPath] closes the descriptor; the path of an overflow event is empty. *)
Definition FDToPath (readlink : Z → result string) (fd : Z) : result string :=
  if decide (fd < 0)%Z then Ok EmptyString
  else match readlink fd with Err e => Err (EWrap ["fanotify: resolve fd"] e) | Ok path => Ok path end.

(** ** [options.go]: the configuration *)

Record watcherConfig := mkWatcherConfig {
  wc_mergedDir : string;
  wc_mask : EventMask;
  wc_overlay : option OverlayInfo;
  wc_bufSize : Z;
  wc_readBufSize : Z;
  wc_watcherID : string;
}.

Definition defaultWatcherConfig : watcherConfig := mkWatcherConfig EmptyString MaskReadOnly None 512 4096 EmptyString.

Definition WatcherOption : Type := watcherConfig → watcherConfig.
Definition WithMergedDir (dir : string) : WatcherOption := λ c,
  mkWatcherConfig dir (wc_mask c) (wc_overlay c) (wc_bufSize c) (wc_readBufSize c) (wc_watcherID c).
Definition WithMask (mask : EventMask) : WatcherOption := λ c,
  mkWatcherConfig (wc_mergedDir c) mask (wc_overlay c) (wc_bufSize c) (wc_readBufSize c) (wc_watcherID c).
Definition WithOverlay (o : OverlayInfo) : WatcherOption := λ c,
  mkWatcherConfig (if decide (wc_mergedDir c = EmptyString) then oi_MergedDir o else wc_mergedDir c) (wc_mask c) (Some o) (wc_bufSize c)
    (wc_readBufSize c) (wc_watcherID c).
Definition WithEventBufferSize (n : Z) : WatcherOption := λ c,
  if decide (0 < n)%Z then mkWatcherConfig (wc_mergedDir c) (wc_mask c) (wc_overlay c) n (wc_readBufSize c) (wc_watcherID c) else c.
Definition WithReadBufferSize (n : Z) : WatcherOption := λ c,
  if decide (4096 ≤ n)%Z then mkWatcherConfig (wc_mergedDir c) (wc_mask c) (wc_overlay c) (wc_bufSize c) n (wc_watcherID c) else c.
Definition WithWatcherID (id : string) : WatcherOption := λ c,
  mkWatcherConfig (wc_mergedDir c) (wc_mask c) (wc_overlay c) (wc_bufSize c) (wc_readBufSize c) id.

(** ** [watcher_linux.go] *)

Record fanotifyWatcher := mkWatcher {
  fw_cfg : watcherConfig;
  fw_watching : bool;
  fw_closed : bool;
  fw_fanotifyFD : Z;
  fw_stopReadFD : Z;
  fw_stopWriteFD : Z;
}.

(** [closeResources]: the descriptors that are closed, and the watcher without them *)
Definition closeResources (w : fanotifyWatcher) : list Z * fanotifyWatcher :=
  (filter (λ fd, (0 ≤ fd)%Z) [fw_fanotifyFD w; fw_stopWriteFD w; fw_stopReadFD w],
   mkWatcher (fw_cfg w) (fw_watching w) (fw_closed w) (-1) (-1) (-1)).

(** [markMergedDir]'s mask *)
Definition mark_mask (cfg : watcherConfig) : N := N.lor (N.lor (wc_mask cfg) OpOnDir) OpEventOnChild.

(** [newWatcher], with the answers of [sys.Init] (and whether its error is one of permission),
    [sys.StopPipe] and [sys.MarkMount], and the descriptors that it closes *)
Definition newWatcher (opts : list WatcherOption) (init : result Z) (isPermissionErr : error → bool) (pipe : result (Z * Z)) (mark : N → string → option error)
    : result fanotifyWatcher * list Z :=
  let cfg := foldl (λ c (o : WatcherOption), o c) defaultWatcherConfig opts in
  if decide (wc_mergedDir cfg = EmptyString) then (Err (EText ["fanwatch: WithMergedDir is required"]), [])
  else match init with
       | Err e => (Err (if isPermissionErr e then ErrPermission else EWrap ["fanwatch: init"] e), [])
       | Ok fd =>
           match pipe with
           | Err e => (Err (EWrap ["fanwatch: stop pipe"] e), [fd])
           | Ok (r, wr) =>
               let w := mkWatcher cfg false false fd r wr in
               match mark (mark_mask cfg) (wc_mergedDir cfg) with
               | Some e => (Err (EWrap ["fanwatch: mark"; wc_mergedDir cfg] e), (closeResources w).1)
               | None => (Ok w, [])
               end
           end
       end.

(** [Watch]: whether the loop is started *)
Definition Watch (w : fanotifyWatcher) : option error * fanotifyWatcher :=
  if fw_closed w then (Some ErrWatcherClosed, w)
  else if fw_watching w then (Some (EText ["fanwatch: Watch already active; create a new Watcher to watch again"]), w)
  else (None, mkWatcher (fw_cfg w) true (fw_closed w) (fw_fanotifyFD w) (fw_stopReadFD w) (fw_stopWriteFD w)).

(** [Close]: the descriptors that are closed; the stop pipe is written before that. *)
Definition Close (w : fanotifyWatcher) : list Z * fanotifyWatcher :=
  if fw_closed w then ([], w)
  else closeResources (mkWatcher (fw_cfg w) (fw_watching w) true (fw_fanotifyFD w) (fw_stopReadFD w) (fw_stopWriteFD w)).

(** One turn of the loop that reads: whether the context has ended before it, what
    [WaitReadable] and [read] answer, the clock, and after how many sends the select takes the
    context (if it does) *)
Record turn := mkTurn {
  tn_ctxDone : bool;
  tn_readable : result bool;
  tn_read : read_answer;
  tn_now : Z;
  tn_stop : option nat;
}.

Section loop.
Context (cfg : watcherConfig) (readlink : Z → result string).

Definition event_of (now : Z) (rec : EventRecord) (path : string) : RawEvent := mkRawEvent (er_Mask rec) (er_PID rec) path now (wc_watcherID cfg).

(** The events that are sent, the descriptors that are closed, and whether the loop returned *)
Fixpoint send_records (now : Z) (stop : option nat) (recs : list EventRecord) : list RawEvent * list Z * bool :=
  match recs with
  | [] => ([], [], false)
  | rec :: recs =>
      match FDToPath readlink (er_FD rec) with
      | Err _ => let '(evs, fds, ended) := send_records now stop recs in (evs, er_FD rec :: fds, ended)
      | Ok path =>
          match stop with
          | Some 0 => ([], [er_FD rec], true)
          | _ => let '(evs, fds, ended) := send_records now (pred <$> stop) recs in (event_of now rec path :: evs, er_FD rec :: fds, ended)
          end
      end
  end.

Fixpoint readLoop (turns : list turn) : list RawEvent * list Z * bool :=
  match turns with
  | [] => ([], [], false)
  | t :: turns =>
      if tn_ctxDone t then ([], [], true)
      else match tn_readable t with
           | Err _ | Ok false => ([], [], true)
           | Ok true =>
               let '(records, err) := ReadEvents (tn_read t) in
               match err with
               | Some _ => readLoop turns
               | None =>
                   let '(evs, fds, ended) := send_records (tn_now t) (tn_stop t) records in
                   if ended then (evs, fds, true)
                   else let '(evs', fds', ended) := readLoop turns in (evs ++ evs', fds ++ fds', ended)
               end
           end
  end.
End loop.

(** ** The records of a buffer *)

(** A record as the kernel lays it out, with what follows its fixed part *)
Definition record_blocks (r : EventRecord) (extra : list byte) : list (list byte) :=
  [le_bytes 4 (N.of_nat (EventMetadataSize + length extra)); le_bytes 1 MetadataVersion; le_bytes 1 0; le_bytes 2 24; le_bytes 8 (er_Mask r);
   le_bytes 4 (Z.to_N (er_FD r mod 2 ^ 32)); le_bytes 4 (Z.to_N (er_PID r mod 2 ^ 32)); extra].
Definition record_bytes (r : EventRecord) (extra : list byte) : list byte := concat (record_blocks r extra).

#[local] Arguments record_bytes : simpl never.

Definition record_fits (re : EventRecord * list byte) : Prop :=
  (er_Mask re.1 < 2 ^ 64)%N ∧ (- 2 ^ 31 ≤ er_FD re.1 < 2 ^ 31)%Z ∧ (- 2 ^ 31 ≤ er_PID re.1 < 2 ^ 31)%Z ∧ (N.of_nat (length re.2) < 2 ^ 31)%N.

Lemma int32_word x : (- 2 ^ 31 ≤ x < 2 ^ 31)%Z → int32_of (Z.to_N (x mod 2 ^ 32)) = x.
Proof.
  intros Hx. unfold int32_of. destruct (decide (0 ≤ x)%Z) as [Hp|Hn].
  - rewrite Z.mod_small by lia. destruct (N.ltb_spec (Z.to_N x) (2 ^ 31)); lia.
  - assert (x mod 2 ^ 32 = x + 2 ^ 32)%Z as -> by (symmetry; apply (Z.mod_unique_pos _ _ (-1)); lia).
    destruct (N.ltb_spec (Z.to_N (x + 2 ^ 32)) (2 ^ 31)); lia.
Qed.

(** A word that was written is read. *)
Lemma word_block k n x o blocks rest : blocks !! k = Some (le_bytes n x) → length (concat (take k blocks)) = o → (x < 256 ^ N.of_nat n)%N →
  word o n (concat blocks ++ rest) = x.
Proof.
  intros Hk <- Hx. unfold word. rewrite <- (take_drop_middle blocks k _ Hk) at 2. rewrite concat_app. simpl. rewrite <- !app_assoc, drop_app_length.
  rewrite take_app_length' by (by rewrite le_bytes_length). by apply le_value_bytes.
Qed.

Lemma record_words r extra rest : record_fits (r, extra) →
  let buf := record_bytes r extra ++ rest in
  word 0 4 buf = N.of_nat (24 + length extra) ∧ word 4 1 buf = MetadataVersion ∧ word 8 8 buf = er_Mask r
  ∧ int32_of (word 16 4 buf) = er_FD r ∧ int32_of (word 20 4 buf) = er_PID r ∧ length (record_bytes r extra) = 24 + length extra.
Proof.
  intros (Hm & Hf & Hp & He). simpl in Hm, Hf, Hp, He. cbv zeta. unfold record_bytes.
  assert (∀ x, 0 ≤ x mod 2 ^ 32 < 2 ^ 32)%Z as Hmod by (intros x; apply Z.mod_pos_bound; lia).
  pose proof (Hmod (er_FD r)). pose proof (Hmod (er_PID r)). split_and!.
  - apply (word_block 0); [done | done | unfold EventMetadataSize; simpl; lia].
  - by apply (word_block 1).
  - apply (word_block 4); [done | done | simpl; lia].
  - transitivity (int32_of (Z.to_N (er_FD r mod 2 ^ 32))); [| by apply int32_word]. f_equal. apply (word_block 5); [done | done | simpl; lia].
  - transitivity (int32_of (Z.to_N (er_PID r mod 2 ^ 32))); [| by apply int32_word]. f_equal. apply (word_block 6); [done | done | simpl; lia].
  - unfold record_blocks. rewrite !concat_cons, concat_nil, !length_app, !le_bytes_length. simpl. lia.
Qed.

Definition all_bytes (recs : list (EventRecord * list byte)) : list byte := concat ((λ re, record_bytes re.1 re.2) <$> recs).

(** One turn on a record *)
Lemma parse_loop_record fuel r extra rest acc : record_fits (r, extra) → parse_loop (S fuel) (record_bytes r extra ++ rest) acc = parse_loop fuel rest (acc ++ [r]).
Proof.
  intros Hr. destruct (record_words r extra rest Hr) as (W1 & W2 & W3 & W4 & W5 & W6). cbv zeta in W1, W2, W3, W4, W5, W6. cbn [parse_loop].
  rewrite W1, W2, W3, W4, W5. rewrite decide_False by (rewrite length_app, W6; unfold EventMetadataSize; lia). rewrite decide_False by congruence.
  rewrite Nat2N.id. rewrite decide_False by (rewrite length_app, W6; unfold EventMetadataSize; lia).
  rewrite drop_app_length' by (by rewrite W6). by destruct r.
Qed.

Lemma parse_loop_version fuel bad acc : fuel ≠ 0 → length bad = 24 → word 4 1 bad ≠ MetadataVersion →
  parse_loop fuel bad acc = Some (acc, Some (EText ["fanotify: unexpected metadata version"])).
Proof.
  intros Hf Hb Hv. destruct fuel as [|fuel]; [done |]. cbn [parse_loop]. rewrite decide_False by (rewrite Hb; unfold EventMetadataSize; lia). by rewrite decide_True.
Qed.

Lemma all_bytes_cons r extra recs : all_bytes ((r, extra) :: recs) = record_bytes r extra ++ all_bytes recs.
Proof. done. Qed.

Lemma parse_loop_records fuel recs tail acc : Forall record_fits recs → length tail < EventMetadataSize → length recs < fuel →
  parse_loop fuel (all_bytes recs ++ tail) acc = Some (acc ++ (fst <$> recs), None).
Proof.
  intros Hf Ht. revert fuel acc. induction Hf as [|[r extra] recs Hr _ IH]; intros [|fuel] acc Hl; simpl in Hl; try lia.
  - change (all_bytes [] ++ tail) with tail. cbn [parse_loop]. rewrite decide_True by done. by rewrite app_nil_r.
  - rewrite all_bytes_cons, <- app_assoc, parse_loop_record by done. rewrite IH by lia. by rewrite <- app_assoc.
Qed.

Lemma parse_loop_total fuel buf acc : length buf < fuel → ∃ recs err, parse_loop fuel buf acc = Some (acc ++ recs, err) ∧ EventMetadataSize * length recs ≤ length buf.
Proof.
  revert buf acc. induction fuel as [|fuel IH]; intros buf acc Hl; [lia |]. cbn [parse_loop].
  case_decide; [exists [], None; rewrite app_nil_r; split; [done | simpl; lia] |].
  case_decide; [eexists [], _; rewrite app_nil_r; split; [done | simpl; lia] |].
  case_decide as Hn; [exists [], None; rewrite app_nil_r; split; [done | simpl; lia] |].
  unfold EventMetadataSize in *. destruct (IH (drop (N.to_nat (word 0 4 buf)) buf) (acc ++ [mkEventRecord (word 8 8 buf) (int32_of (word 20 4 buf)) (int32_of (word 16 4 buf))])) as (recs & err & -> & Hb).
  { rewrite length_drop. lia. }
  eexists (_ :: recs), err. rewrite <- app_assoc. split; [done |]. rewrite length_drop in Hb. simpl. lia.
Qed.

(** C17: what the kernel writes is read.  For any buffer [parseEventBuf] returns, with at most one
    record for 24 bytes; on a buffer that holds records of the right version, each as long as
    it says, and less than the fixed part of another, it returns exactly those, with their masks,
    processes and descriptors. *)
Theorem parseEventBuf_roundtrip recs tail : Forall record_fits recs → length tail < EventMetadataSize →
  parseEventBuf (all_bytes recs ++ tail) = Some (fst <$> recs, None)
  ∧ ∀ buf, ∃ recs err, parseEventBuf buf = Some (recs, err) ∧ EventMetadataSize * length recs ≤ length buf.
Proof.
  intros Hf Ht. split.
  - unfold parseEventBuf. rewrite parse_loop_records; try done. rewrite length_app. clear Ht. assert (length recs ≤ length (all_bytes recs)); [| lia].
    induction Hf as [|[r extra] recs Hr _ IH]; [done |]. rewrite all_bytes_cons, length_app. cbn [length].
    destruct (record_words r extra [] Hr) as (_ & _ & _ & _ & _ & ->). lia.
  - intros buf. destruct (parse_loop_total (S (length buf)) buf []) as (recs' & err & H1 & H2); [lia |]. by exists recs', err.
Qed.

(** ** Descriptors *)

(** The descriptors of the records that a read yields *)
Definition turn_fds (t : turn) : list Z := er_FD <$> (ReadEvents (tn_read t)).1.

Lemma send_records_fds cfg readlink now recs : ∃ evs, send_records cfg readlink now None recs = (evs, er_FD <$> recs, false).
Proof.
  induction recs as [|r recs [evs IH]]; cbn [send_records fmap option_fmap option_map]; [by exists [] |]. destruct (FDToPath readlink (er_FD r)); rewrite IH; by eexists.
Qed.

(** While the context lives and the reads succeed, every descriptor of an event is closed once. *)
Lemma readLoop_closes cfg readlink turns :
  Forall (λ t, tn_ctxDone t = false ∧ tn_readable t = Ok true ∧ tn_stop t = None ∧ (ReadEvents (tn_read t)).2 = None) turns →
  ∃ evs, readLoop cfg readlink turns = (evs, concat (turn_fds <$> turns), false).
Proof.
  induction 1 as [|t turns (H1 & H2 & H3 & H4) _ [evs IH]]; cbn [readLoop]; [by exists [] |]. rewrite H1, H2, H3. unfold turn_fds.
  rewrite fmap_cons. simpl. destruct (ReadEvents (tn_read t)) as [recs err]. simpl in *. subst err.
  destruct (send_records_fds cfg readlink (tn_now t) recs) as [evs1 ->]. rewrite IH. by eexists.
Qed.

(** A record of another version ends the parse with an error, upon which the loop drops the
    records before it with their descriptors open. *)
Lemma readLoop_leaks cfg readlink r extra bad now : record_fits (r, extra) → length bad = 24 → word 4 1 bad ≠ MetadataVersion →
  let t := mkTurn false (Ok true) (ReadBytes (record_bytes r extra ++ bad)) now None in
  turn_fds t = [er_FD r] ∧ readLoop cfg readlink [t] = ([], [], false).
Proof.
  intros Hr Hb Hv. destruct (record_words r extra bad Hr) as (_ & _ & _ & _ & _ & W6).
  assert (ReadEvents (ReadBytes (record_bytes r extra ++ bad)) = ([r], Some (EText ["fanotify: unexpected metadata version"]))) as He.
  { assert (∃ b bs, record_bytes r extra ++ bad = b :: bs) as (b & bs & Hbs).
    { destruct (record_bytes r extra ++ bad) eqn:E; [| by eexists _, _]. apply (f_equal length) in E. rewrite length_app, W6 in E. simpl in E. lia. }
    unfold ReadEvents. rewrite Hbs, <- Hbs. unfold parseEventBuf. rewrite parse_loop_record by done. rewrite parse_loop_version; [done | | done | done].
    rewrite length_app, W6. lia. }
  cbv zeta. unfold turn_fds. cbn [tn_read readLoop tn_ctxDone tn_readable]. by rewrite He.
Qed.

(** [Close] closes each descriptor once, however often it is called. *)
Lemma Close_once w : let '(fds, w1) := Close w in let '(fds', w2) := Close w1 in
  fds' = [] ∧ w2 = w1 ∧ fw_closed w1 = true ∧ (Watch w1).1 = Some ErrWatcherClosed.
Proof. unfold Close, Watch. destruct (fw_closed w) eqn:Hc; simpl; rewrite ?Hc; by split_and!. Qed.

Lemma parseEventBuf_roundtrip_witness :
  Forall record_fits [(mkEventRecord OpOpen 42 7, []); (mkEventRecord OpOverflow 0 (-1), [Byte.x00; Byte.x01])]
  ∧ parseEventBuf (all_bytes [(mkEventRecord OpOpen 42 7, []); (mkEventRecord OpOverflow 0 (-1), [Byte.x00; Byte.x01])] ++ [Byte.x18])
    = Some ([mkEventRecord OpOpen 42 7; mkEventRecord OpOverflow 0 (-1)], None)
  ∧ ∀ buf, ∃ recs err, parseEventBuf buf = Some (recs, err) ∧ EventMetadataSize * length recs ≤ length buf.
Proof.
  assert (Forall record_fits [(mkEventRecord OpOpen 42 7, []); (mkEventRecord OpOverflow 0 (-1), [Byte.x00; Byte.x01])]) as Hf
    by (repeat constructor; vm_compute; done).
  split; [exact Hf |]. apply (parseEventBuf_roundtrip _ [Byte.x18] Hf). vm_compute. lia.
Defined.
