(* ===== verification/FwMount.v ===== *)
(** * FwMount: reading the mounts back

    What [parseMountinfoReader] makes of the lines that the kernel writes for overlay mounts.  The
    kernel escapes blanks, tabs, newlines and backslashes in the mount point, and these and commas
    in the directories that the options name; the parser undoes the first escapes and leaves the
    others. *)
From S2P Require Import Prelude GoStd GoPath DsTypes FwEvent.

(** ** Text without blanks *)

(** The bytes that begin a blank in UTF-8 *)
Definition blank_leads : list ascii := omap (λ s, match s with String a _ => Some a | EmptyString => None end) utf8_spaces.
Definition plain (s : string) : Prop := Forall (λ a, a ∉ blank_leads) (String.list_ascii_of_string s).

#[export] Instance plain_dec s : Decision (plain s).
Proof. unfold plain. apply _. Defined.

(** Decides a closed goal by computation *)
Ltac decide_closed := match goal with |- ?P => apply (bool_decide_eq_true_1 P); vm_compute; reflexivity end.

Lemma plain_char s a : plain s → char_in a s → a ∉ blank_leads.
Proof. unfold plain, char_in. rewrite Forall_forall. auto. Qed.

Lemma plain_app s t : plain (s +:+ t) ↔ plain s ∧ plain t.
Proof.
  unfold plain. rewrite <- Forall_app. assert (String.list_ascii_of_string (s +:+ t) = String.list_ascii_of_string s ++ String.list_ascii_of_string t) as ->; [| done].
  induction s as [|a s IH]; [done |]. change (String a s +:+ t) with (String a (s +:+ t)). simpl. by rewrite IH.
Qed.

Lemma prefix_chars s p a : has_prefix s p = true → char_in a p → char_in a s.
Proof. intros [t ->]%has_prefix_inv Ha. apply char_in_app. by left. Qed.

Lemma blank_lead sp : sp ∈ utf8_spaces → ∃ a t, sp = String a t ∧ a ∈ blank_leads.
Proof.
  intros Hsp. assert (sp ≠ EmptyString) as Hne by (intros ->; apply list_elem_of_In in Hsp; by repeat (destruct Hsp as [Hsp|Hsp]; [discriminate |])).
  destruct sp as [|a t]; [done |]. exists a, t. split; [done |]. apply list_elem_of_omap. by exists (String a t).
Qed.

Lemma str_rev_app_rev_app s t u : String.rev_app (String.rev_app s t) u = String.rev_app t (s +:+ u).
Proof. revert t. induction s as [|a s IH]; intros t; [done |]. simpl. rewrite IH. done. Qed.

Lemma str_rev_rev s : String.rev (String.rev s) = s.
Proof. unfold String.rev. rewrite str_rev_app_rev_app. simpl. apply str_app_nil_r. Qed.

Lemma trim_left_plain fuel (f : string → string) s : (∀ sp a, char_in a sp → char_in a (f sp)) → plain s → trim_left_fuel fuel (f <$> utf8_spaces) s = s.
Proof.
  intros Hf Hp. destruct fuel as [|fuel]; [done |]. cbn [trim_left_fuel]. destruct (List.find _ _) as [sp|] eqn:Hs; [| done]. exfalso.
  apply List.find_some in Hs as [Hin Hpre]. apply list_elem_of_In, list_elem_of_fmap in Hin as (sp0 & -> & Hin).
  destruct (blank_lead sp0 Hin) as (a & t & -> & Ha). apply (plain_char s a Hp); [| done]. eapply prefix_chars; [exact Hpre |]. apply Hf, char_in_cons. by left.
Qed.

Lemma trim_space_plain s : plain s → trim_space s = s.
Proof.
  intros Hp. unfold trim_space. assert (trim_left_fuel (String.length s) utf8_spaces s = s) as -> by (rewrite <- (list_fmap_id utf8_spaces); by apply (trim_left_plain _ id)).
  cbv zeta. rewrite trim_left_plain; [apply str_rev_rev | intros sp a; apply rev_chars |]. unfold plain in *. rewrite Forall_forall in *. intros a Ha. apply Hp. by apply (rev_chars s).
Qed.

(** ** Fields *)

Lemma fields_plain f fuel acc s : plain f → fields_fuel (String.length f + fuel) acc (f +:+ s) = fields_fuel fuel (acc +:+ f) s.
Proof.
  revert acc. induction f as [|a f IH]; intros acc Hp; [change (EmptyString +:+ s) with s; by rewrite str_app_nil_r |].
  change (String a f +:+ s) with (String a (f +:+ s)). cbn [String.length Nat.add fields_fuel].
  destruct (List.find _ _) as [sp|] eqn:Hs.
  - exfalso. apply List.find_some in Hs as [Hin Hpre]. apply list_elem_of_In in Hin. destruct (blank_lead sp Hin) as (b & t & -> & Hb).
    apply has_prefix_inv in Hpre as [u Hu]. injection Hu as -> _. apply (plain_char _ b Hp); [| done]. apply char_in_cons. by left.
  - rewrite IH by (by apply Forall_cons in Hp as [_ Hp]). by rewrite str_app_assoc.
Qed.

Lemma find_space s : List.find (has_prefix (String " " s)) utf8_spaces = Some " ".
Proof. unfold utf8_spaces. cbn -[has_prefix]. unfold has_prefix. simpl. by destruct s. Qed.

Lemma trim_one_space s : trim_prefix (String " " s) " " = s.
Proof. unfold trim_prefix, has_prefix. simpl. by destruct s. Qed.

Lemma fields_join fs fuel : Forall (λ f, plain f ∧ f ≠ EmptyString) fs → String.length (str_join " " fs) ≤ fuel → fields_fuel fuel EmptyString (str_join " " fs) = fs.
Proof.
  intros Hf. revert fuel. induction Hf as [|f fs [Hp Hne] Hfs IH]; intros fuel Hl; [by destruct fuel |]. destruct fs as [|g fs].
  - cbn [str_join] in *. rewrite <- (str_app_nil_r f) at 1. assert (fuel = String.length f + (fuel - String.length f)) as -> by lia.
    rewrite fields_plain by done. change (EmptyString +:+ f) with f. by destruct (fuel - String.length f); cbn [fields_fuel]; rewrite decide_False.
  - rewrite str_join_cons in * by done. rewrite !str_length_app in Hl. change (String.length " ") with 1 in Hl.
    assert (fuel = String.length f + S (fuel - String.length f - 1)) as -> by lia. rewrite fields_plain by done.
    change (EmptyString +:+ f) with f. set (rest := str_join " " (g :: fs)) in *. change (" " +:+ rest) with (String " " rest). cbn [fields_fuel].
    rewrite find_space.
    rewrite trim_one_space. rewrite decide_False by done. f_equal. apply IH. lia.
Qed.

Lemma str_fields_join fs : Forall (λ f, plain f ∧ f ≠ EmptyString) fs → str_fields (str_join " " fs) = fs.
Proof. intros Hf. by apply fields_join. Qed.

(** ** The separator of a line *)

Lemma space_lead : (" "%char : ascii) ∈ blank_leads.
Proof. by apply (bool_decide_eq_true_1 (" "%char ∈ blank_leads)). Qed.

Lemma str_cut_plain f s : plain f → str_cut " - " (f +:+ s) = (λ p, (f +:+ p.1, p.2)) <$> str_cut " - " s.
Proof.
  induction f as [|a f IH]; intros Hp; [change (EmptyString +:+ s) with s; by destruct (str_cut " - " s) as [[]|] |]. change (String a f +:+ s) with (String a (f +:+ s)). cbn [str_cut].
  assert (a ≠ " "%char) as Ha by (intros ->; apply (plain_char _ " "%char Hp); [apply char_in_cons; by left | apply space_lead]).
  destruct (has_prefix (String a (f +:+ s)) " - ") eqn:Hpre; [apply has_prefix_inv in Hpre as [u Hu]; by injection Hu |].
  rewrite IH by (by apply Forall_cons in Hp as [_ Hp]). by destruct (str_cut " - " s) as [[]|].
Qed.

Lemma str_cut_line fs r : fs ≠ [] → Forall (λ f, plain f ∧ f ≠ EmptyString ∧ f ≠ "-") fs → str_cut " - " (str_join " " fs +:+ " - " +:+ r) = Some (str_join " " fs, r).
Proof.
  intros Hne Hf. induction Hf as [|f fs (Hp & Hn & Hd) Hfs IH]; [done |]. destruct fs as [|g fs].
  - cbn [str_join]. rewrite str_cut_plain by done. assert (str_cut " - " (" - " +:+ r) = Some (EmptyString, r)) as -> by (destruct r; reflexivity).
    change (Some (f +:+ EmptyString, r) = Some (f, r)). by rewrite str_app_nil_r.
  - rewrite str_join_cons by done. rewrite !str_app_assoc, str_cut_plain by done. set (rest := str_join " " (g :: fs)) in *.
    change (" " +:+ rest +:+ " - " +:+ r) with (String " " (rest +:+ " - " +:+ r)). cbn [str_cut].
    assert (has_prefix (String " " (rest +:+ " - " +:+ r)) " - " = false) as ->.
    { destruct (has_prefix _ _) eqn:Hpre; [| done]. exfalso. apply has_prefix_inv in Hpre as [u Hu]. apply Forall_cons in Hfs as [(Hpg & Hng & Hdg) _].
      injection Hu as Hu. destruct g as [|b g]; [done |]. assert (∃ t, rest +:+ " - " +:+ r = String b (g +:+ t) ∧ (t = EmptyString ∨ ∃ t', t = String " " t')) as (t & Ht & _).
      { destruct fs as [|g' fs]; subst rest; [exists (" - " +:+ r); split; [done | right; by eexists] |].
        rewrite str_join_cons by done. rewrite !str_app_assoc. eexists. split; [done |]. right. by eexists. }
      rewrite Ht in Hu. injection Hu as -> Hu. destruct g as [|c g]; [done |]. injection Hu as -> _. apply (plain_char _ " "%char Hpg); [| apply space_lead].
      apply char_in_cons. right. apply char_in_cons. by left. }
    rewrite IH by done. done.
Qed.

(** ** Mounts *)

(** [seq_show_option] of the kernel: the value of an option *)
Fixpoint option_escape (s : string) : string :=
  match s with
  | EmptyString => EmptyString
  | String a s' => (if decide (a = ","%char) then "\054" else escape_char a) +:+ option_escape s'
  end.

(** What the kernel writes of a mount: the fields before the separator, where [pre] is the mount's
    and its parent's number, the device and the root, and the superblock's options *)
Definition mount_options (u w : list string) (ls : list (list string)) : string :=
  str_join "," ["rw"; "lowerdir=" +:+ option_escape (str_join ":" (abs_path <$> ls)); "upperdir=" +:+ option_escape (abs_path u);
    "workdir=" +:+ option_escape (abs_path w)].
Definition mount_line (pre post : list string) (mp : list string) (src options : string) : string :=
  str_join " " (pre ++ mount_escape (abs_path mp) :: post) +:+ " - " +:+ str_join " " ["overlay"; src; options].

(** The names of a path, as an option has them *)
Definition as_written (l : list string) : list string := option_escape <$> l.

Definition field_ok (f : string) : Prop := plain f ∧ f ≠ EmptyString ∧ f ≠ "-".
(** A directory whose names hold no colon, and no blank but those that the kernel escapes *)
Definition dir_named (l : list string) : Prop := Forall seg l ∧ plain (option_escape (abs_path l)) ∧ ¬ char_in ":" (abs_path l).
(** A directory that is written as it is *)
Definition dir_ok (l : list string) : Prop := Forall seg l ∧ plain (abs_path l) ∧ ¬ char_in "," (abs_path l) ∧ ¬ char_in ":" (abs_path l).

#[export] Instance field_ok_dec f : Decision (field_ok f).
Proof. unfold field_ok. apply _. Defined.
#[export] Instance dir_ok_dec l : Decision (dir_ok l).
Proof. unfold dir_ok, char_in. apply _. Defined.
#[export] Instance dir_named_dec l : Decision (dir_named l).
Proof. unfold dir_named, char_in. apply _. Defined.

Lemma option_escape_app s t : option_escape (s +:+ t) = option_escape s +:+ option_escape t.
Proof.
  induction s as [|a s IH]; [done |]. change (String a s +:+ t) with (String a (s +:+ t)). cbn [option_escape]. by rewrite IH, str_app_assoc.
Qed.

Lemma option_escape_join sep ls : option_escape sep = sep → option_escape (str_join sep ls) = str_join sep (option_escape <$> ls).
Proof.
  intros Hsep. induction ls as [|l ls IH]; [done |]. destruct ls as [|l' ls]; [done |].
  rewrite fmap_cons, !str_join_cons by done. by rewrite !option_escape_app, IH, Hsep.
Qed.

Lemma option_escape_abs l : option_escape (abs_path l) = abs_path (as_written l).
Proof. unfold abs_path, rel_path, as_written. rewrite option_escape_app. by rewrite option_escape_join. Qed.

(** The characters of an escape are digits and backslashes. *)
Lemma option_escape_chars a s : char_in a (option_escape s) → a ≠ ","%char ∧ (char_in a s ∨ char_in a "\012345").
Proof.
  induction s as [|b s IH]; [by intros ?%char_in_nil |]. cbn [option_escape]. rewrite char_in_app, char_in_cons.
  intros [H|H]; [| destruct (IH H) as [? [?|?]]; auto].
  assert (∀ t, Forall (λ a, a ≠ ","%char ∧ char_in a "\012345") (String.list_ascii_of_string t) → char_in a t → a ≠ ","%char ∧ ((a = b ∨ char_in a s) ∨ char_in a "\012345")) as Ht.
  { intros t Hf Ha. unfold char_in in Ha. rewrite Forall_forall in Hf. destruct (Hf a Ha). auto. }
  revert H. case_decide; [apply Ht; decide_closed |]. unfold escape_char. repeat case_decide; try (apply Ht; decide_closed).
  intros [->|?%char_in_nil]%char_in_cons; [auto | done].
Qed.

Lemma as_written_seg l : Forall seg l → Forall seg (as_written l).
Proof.
  intros Hl. unfold as_written. apply Forall_fmap. eapply Forall_impl; [exact Hl |]. intros n (H1 & H2 & H3 & H4). unfold seg. simpl.
  assert (∀ b t, option_escape (String b t) = String b (option_escape t) ∨ 4 ≤ String.length (option_escape (String b t))) as Hb.
  { intros b t. cbn [option_escape]. case_decide; [right; simpl; lia |]. unfold escape_char. repeat case_decide; try (right; simpl; lia). by left. }
  split_and!.
  - destruct n as [|b t]; [done |]. destruct (Hb b t) as [->|Hlen]; [done |]. intros E. rewrite E in Hlen. simpl in Hlen. lia.
  - destruct n as [|b t]; [done |]. destruct (Hb b t) as [->|Hlen]; [| intros E; rewrite E in Hlen; simpl in Hlen; lia].
    intros [= -> E]. destruct t as [|c t]; [done |]. destruct (Hb c t) as [E'|Hlen]; rewrite E in *; [done | simpl in Hlen; lia].
  - destruct n as [|b t]; [done |]. destruct (Hb b t) as [->|Hlen]; [| intros E; rewrite E in Hlen; simpl in Hlen; lia].
    intros [= -> E]. destruct t as [|c t]; [done |]. destruct (Hb c t) as [E'|Hlen]; rewrite E in *; [| simpl in Hlen; lia].
    injection E' as <- E'. destruct t as [|d t]; [done |]. destruct (Hb d t) as [E2|Hlen]; rewrite <- E' in *; [done | simpl in Hlen; lia].
  - intros [_ [H|H]]%option_escape_chars; [done |]. revert H. apply (bool_decide_eq_true_1 (¬ char_in go_slash "\012345")). by vm_compute.
Qed.

Lemma as_written_ok l : dir_named l → dir_ok (as_written l).
Proof.
  intros (Hs & Hp & Hc). rewrite option_escape_abs in Hp. split; [by apply as_written_seg |]. split; [done |]. rewrite <- option_escape_abs. split.
  - by intros [? _]%option_escape_chars.
  - intros [_ [H|H]]%option_escape_chars; [done |]. revert H. apply (bool_decide_eq_true_1 (¬ char_in ":" "\012345")). by vm_compute.
Qed.

(** Names without commas and without what the kernel escapes are written as they are. *)
Lemma as_written_same l : Forall (λ n, Forall (λ a, a ∉ [","; " "; "009"; "010"; "\"]%char) (String.list_ascii_of_string n)) l → as_written l = l.
Proof.
  unfold as_written. induction 1 as [|n l Hn _ IH]; [done |]. rewrite fmap_cons, IH. f_equal. clear IH.
  induction n as [|a n IH]; [done |]. apply Forall_cons in Hn as [Ha Hn]. cbn [option_escape]. rewrite (IH Hn). unfold escape_char.
  rewrite !not_elem_of_cons in Ha. destruct Ha as (? & ? & ? & ? & ? & _). by rewrite !decide_False.
Qed.

Lemma joined_dirs ls : Forall dir_ok ls → plain (str_join ":" (abs_path <$> ls)) ∧ ¬ char_in "," (str_join ":" (abs_path <$> ls)).
Proof.
  induction 1 as [|l ls (_ & Hp & Hc & _) Hls [IH1 IH2]]; [split; [constructor | by intros ?%char_in_nil] |]. rewrite fmap_cons. destruct ls as [|l' ls]; [done |].
  rewrite str_join_cons by done. rewrite !plain_app, !char_in_app. split.
  - split_and!; [done | by apply (bool_decide_eq_true_1 (plain ":")) | done].
  - intros [H|[H|H]]; [done | | done]. apply char_in_cons in H as [H|H]; [done | by apply char_in_nil in H].
Qed.

Lemma clean_dirs ls : Forall dir_ok ls → path_clean <$> (abs_path <$> ls) = abs_path <$> ls.
Proof. induction 1 as [|l ls (Hs & _) _ IH]; [done |]. rewrite !fmap_cons, IH. by rewrite clean_abs. Qed.

(** The options that name directories as they are *)
Definition option_text (u w : list string) (ls : list (list string)) : string :=
  str_join "," ["rw"; "lowerdir=" +:+ str_join ":" (abs_path <$> ls); "upperdir=" +:+ abs_path u; "workdir=" +:+ abs_path w].

Lemma mount_options_text u w ls : mount_options u w ls = option_text (as_written u) (as_written w) (as_written <$> ls).
Proof.
  unfold mount_options, option_text. rewrite !option_escape_abs, option_escape_join by done. rewrite <- !list_fmap_compose.
  assert (option_escape ∘ abs_path <$> ls = abs_path ∘ as_written <$> ls) as ->; [| done].
  apply list_fmap_ext. intros i l _. apply option_escape_abs.
Qed.

Lemma options_parse u w ls : dir_ok u → dir_ok w → Forall dir_ok ls →
  let opts := parseKVOptions (option_text u w ls) in
  opt_get opts "lowerdir" = str_join ":" (abs_path <$> ls) ∧ opt_get opts "upperdir" = abs_path u ∧ opt_get opts "workdir" = abs_path w.
Proof.
  intros (Hu & Hup & Huc & _) (Hw & Hwp & Hwc & _) Hls. destruct (joined_dirs ls Hls) as [Hlp Hlc]. unfold parseKVOptions, option_text.
  assert (∀ k v, ¬ char_in "," k → ¬ char_in "," v → ¬ char_in "," (k +:+ v)) as Happ by (intros k v ?? [?|?]%char_in_app; done).
  rewrite (str_split_join ",").
  2: done.
  2: repeat constructor; [by intros H; apply list_elem_of_In in H; repeat (destruct H as [H|H]; [done |]) | apply Happ; [| done] ..];
    by intros H; apply list_elem_of_In in H; repeat (destruct H as [H|H]; [done |]).
  cbn [foldl]. unfold kv_step.
  assert (str_cut "=" "rw" = None) as -> by reflexivity.
  assert (∀ v, str_cut "=" ("lowerdir=" +:+ v) = Some ("lowerdir", v)) as -> by (intros []; reflexivity).
  assert (∀ v, str_cut "=" ("upperdir=" +:+ v) = Some ("upperdir", v)) as -> by (intros []; reflexivity).
  assert (∀ v, str_cut "=" ("workdir=" +:+ v) = Some ("workdir", v)) as -> by (intros []; reflexivity).
  cbv beta iota zeta. rewrite !trim_space_plain; try done; try decide_closed.
Qed.

Lemma overlay_of_options u w ls mp : dir_ok u → dir_ok w → ls ≠ [] → Forall dir_ok ls → Forall seg mp →
  overlayInfoFromVFSOptions (option_text u w ls) (abs_path mp) = Ok (NewOverlayInfo (abs_path mp) (abs_path u) (abs_path w) (abs_path <$> ls)).
Proof.
  intros Hu Hw Hne Hls Hmp. destruct (options_parse u w ls Hu Hw Hls) as (E1 & E2 & E3). cbv zeta in E1, E2, E3. unfold overlayInfoFromVFSOptions. cbv zeta. rewrite E1, E2, E3.
  rewrite decide_False.
  - rewrite (str_split_join ":"); [by rewrite clean_dirs | by destruct ls |]. apply Forall_fmap. eapply Forall_impl; [exact Hls |]. by intros l (_ & _ & _ & ?).
  - destruct ls as [|l ls]; [done |]. rewrite fmap_cons. destruct ls; [apply abs_path_ne |]. rewrite str_join_cons by done. done.
Qed.

(** C16: a mount is read back.  On a table in which the first overlay at the merged directory has
    certain upper, work and lower directories, none with a colon, and no blanks but those that the
    kernel escapes, the parser finds that overlay, whatever the lines before and after it are:
    the merged directory comes back with its blanks, tabs, newlines and backslashes, and the
    directories of the options come back as the kernel wrote them, that is exactly if they hold
    none of these characters and no comma, and with the octal escapes left in if they do. *)
Theorem mountinfo_roundtrip pre post src mp u w ls before after err :
  length pre = 4 → post ≠ [] → Forall field_ok (src :: pre ++ post) → Forall seg mp → field_ok (mount_escape (abs_path mp)) →
  dir_named u → dir_named w → ls ≠ [] → Forall dir_named ls →
  Forall (λ line, match parseMountinfoLine line with Some e => path_clean (me_mountpoint e) ≠ abs_path mp | None => True end) before →
  parseMountinfoReader (before ++ mount_line pre post mp src (mount_options u w ls) :: after) err (abs_path mp)
    = Ok (NewOverlayInfo (abs_path mp) (abs_path (as_written u)) (abs_path (as_written w)) (abs_path <$> (as_written <$> ls)))
  ∧ ∀ l, Forall (λ n, Forall (λ a, a ∉ [","; " "; "009"; "010"; "\"]%char) (String.list_ascii_of_string n)) l → as_written l = l.
Proof.
  intros Hpre Hpost Hf Hmp Hesc Hu%as_written_ok Hw%as_written_ok Hne Hls Hb. split; [| apply as_written_same].
  assert (Forall dir_ok (as_written <$> ls)) as Hls' by (apply Forall_fmap; eapply Forall_impl; [exact Hls | apply as_written_ok]).
  assert (as_written <$> ls ≠ []) as Hne' by by destruct ls. rewrite mount_options_text. clear Hls Hne. revert Hu Hw Hls' Hne'.
  generalize (as_written u) (as_written w) (as_written <$> ls). clear u w ls. intros u w ls Hu Hw Hls Hne. apply Forall_cons in Hf as [Hsrc [Hfpre Hfpost]%Forall_app].
  assert (plain (option_text u w ls) ∧ option_text u w ls ≠ EmptyString) as [Hop Hone].
  { destruct Hu as (_ & Hup & _), Hw as (_ & Hwp & _). destruct (joined_dirs ls Hls) as [Hlp _]. unfold option_text. split; [| done].
    cbn [str_join]. rewrite !plain_app. split_and!; try done; try decide_closed. }
  assert (parseMountinfoLine (mount_line pre post mp src (option_text u w ls)) = Some (mkMountinfo (abs_path mp) "overlay" (option_text u w ls))) as Hline.
  { unfold parseMountinfoLine, mount_line. rewrite str_cut_line; [| by destruct pre | by apply Forall_app; split; [| by constructor]].
    rewrite !str_fields_join.
    - rewrite decide_False.
      + rewrite lookup_app_r by lia. rewrite Hpre. change ((mount_escape (abs_path mp) :: post) !! (4 - 4)) with (Some (mount_escape (abs_path mp))).
        cbv beta iota. rewrite decide_False by auto. by rewrite unescapeMountinfoPath_escape.
      + rewrite length_app, Hpre. destruct post; [done |]. simpl. lia.
    - destruct Hsrc as (? & ? & _). constructor; [split; [decide_closed | done] |]. constructor; [done |]. by constructor.
    - apply Forall_app; split; [| constructor; [by destruct Hesc as (? & ? & _) |]]; (eapply Forall_impl; [eassumption |]); by intros f (? & ? & _). }
  unfold parseMountinfoReader. induction Hb as [|line before Hl _ IH]; cbn [app parse_lines].
  - rewrite Hline. simpl. rewrite clean_abs by done. rewrite decide_False by auto. by apply overlay_of_options.
  - destruct (parseMountinfoLine line) as [e|]; [by rewrite decide_True | done].
Qed.

Lemma mountinfo_roundtrip_witness :
  field_ok (mount_escape (abs_path ["run"; "my box"]))
  ∧ parseMountinfoReader ("22 1 0:21 / /proc rw - proc proc rw" :: mount_line ["36"; "22"; "0:32"; "/"] ["rw,relatime"; "shared:1"] ["run"; "my box"] "overlay"
      (mount_options ["s"; "a,b"; "fs"] ["s"; "3"; "work"] [["s"; "2"; "fs"]; ["s"; "1"; "my fs"]]) :: []) None (abs_path ["run"; "my box"])
    = Ok (NewOverlayInfo "/run/my box" "/s/a\054b/fs" "/s/3/work" ["/s/2/fs"; "/s/1/my\040fs"]).
Proof.
  assert (field_ok (mount_escape (abs_path ["run"; "my box"]))) as Hf by decide_closed. split; [exact Hf |].
  apply (mountinfo_roundtrip ["36"; "22"; "0:32"; "/"] ["rw,relatime"; "shared:1"] "overlay" ["run"; "my box"] ["s"; "a,b"; "fs"] ["s"; "3"; "work"]
    [["s"; "2"; "fs"]; ["s"; "1"; "my fs"]] ["22 1 0:21 / /proc rw - proc proc rw"] [] None); try discriminate; try exact Hf;
    try decide_closed.
  constructor; [vm_compute; exact I | constructor].
Defined.
