(* ===== verification/ExTypes.v ===== *)
(** * ExTypes: artifacts, requests and the registry of exporters

    Models [src/plugins/exporter/core]: the data ([types.go]), the errors ([errors.go]), requests,
    results and their builder ([request.go]), the interfaces ([interfaces.go]) and the registry
    ([registry.go]); and the reporters of [src/plugins/exporter/progress].  An artifact is a value:
    [Clone] copies what the code goes on to write, and is the identity.  A nil map is the empty
    one: the code makes a map before it writes to it. *)
From S2P Require Import Prelude GoStd GoNum Sha256.

(** ** Effects *)

(** A call changes the state of the world, and returns a value or an error. *)
Definition io (S A : Type) : Type := S → result A * S.
Definition io_ret {S A} (a : A) : io S A := λ s, (Ok a, s).
Definition io_throw {S A} (e : error) : io S A := λ s, (Err e, s).
Definition io_bind {S A B} (m : io S A) (k : A → io S B) : io S B := λ s,
  let '(r, s) := m s in match r with Ok a => k a s | Err e => (Err e, s) end.
(** [x, err := m], when [err] is looked at later *)
Definition io_try {S A} (m : io S A) : io S (result A) := λ s, let '(r, s) := m s in (Ok r, s).
Definition io_do {S} (f : S → S) : io S unit := λ s, (Ok tt, f s).
Definition io_of {S A} (r : result A) : io S A := λ s, (r, s).
(** [if err != nil { return fmt.Errorf("...: %w", err) }] *)
Definition io_wrap {S A} (f : error → error) (m : io S A) : io S A := λ s,
  let '(r, s) := m s in (match r with Ok a => Ok a | Err e => Err (f e) end, s).

Declare Scope io_scope.
Notation "'let!' x := m 'in' k" := (io_bind m (λ x, k)) (at level 200, x pattern, m at level 100, k at level 200, right associativity) : io_scope.

(** ** Time *)

(** The seconds since the year 1, which wrap around, and nanoseconds *)
Record gotime := mkTime { t_sec : Z; t_nsec : Z }.

#[export] Instance gotime_eq_dec : EqDecision gotime.
Proof. solve_decision. Defined.

Definition unixToInternal : Z := 62135596800.
(** [time.Unix(secs, 0)] *)
Definition time_Unix (secs : Z) : gotime := mkTime (i64 (secs + unixToInternal)) 0.
(** [t.Unix()] *)
Definition t_Unix (t : gotime) : Z := i64 (t_sec t - unixToInternal).
Definition t_After (t u : gotime) : bool :=
  bool_decide (t_sec u < t_sec t)%Z || bool_decide (t_sec t = t_sec u ∧ t_nsec u < t_nsec t)%Z.

(** ** [errors.go] *)

Definition ErrNotRegistered : error := ESentinel "exporter not registered".
Definition ErrAlreadyRegistered : error := ESentinel "exporter already registered".
Definition ErrValidation : error := ESentinel "validation error".
Definition ErrUnsupportedOption : error := ESentinel "unsupported exporter option".
Definition ErrTransformFailed : error := ESentinel "transform failed".

(** The typed errors answer [errors.Is] as if they wrapped their sentinel. *)
Definition NewValidationError (field message : string) : error := EWrap ["validation error: field"; field; message] ErrValidation.
Definition NewOptionError (key value message : string) : error := EWrap ["option error: key="; key; value; message] ErrUnsupportedOption.
Definition NewTransformError (name : string) (cause : error) : error := EWrap ["transformer"; name; "failed"] (EJoin [ErrTransformFailed; cause]).

(** ** [types.go] *)

Notation ExporterType := string (only parsing).

Record Digest := mkDigest { dg_Algorithm : string; dg_Hex : string }.

#[export] Instance digest_eq_dec : EqDecision Digest.
Proof. solve_decision. Defined.

Definition NewDigest (data : list byte) : Digest := mkDigest "sha256" (hex_encode (sha256 data)).

Definition ParseDigest (s : string) : result Digest :=
  match index_byte s ":" with
  | None => Err (EText ["invalid digest: expected algorithm:hex"; s])
  | Some i =>
      let '(algorithm, hex) := (str_take i s, str_drop (S i) s) in
      if decide (algorithm = EmptyString ∨ hex = EmptyString) then Err (EText ["invalid digest: expected algorithm:hex"; s])
      else Ok (mkDigest algorithm hex)
  end.

Definition IsZero (d : Digest) : bool := bool_decide (dg_Hex d = EmptyString).
Definition digest_String (d : Digest) : string := if IsZero d then EmptyString else dg_Algorithm d +:+ ":" +:+ dg_Hex d.

Record Platform := mkPlatform { pf_OS : string; pf_Architecture : string; pf_Variant : string; pf_OSVersion : string }.

Definition platform_String (p : Platform) : string :=
  let s := pf_OS p +:+ "/" +:+ pf_Architecture p in if decide (pf_Variant p ≠ EmptyString) then s +:+ "/" +:+ pf_Variant p else s.

Definition MediaTypeOCIImageManifest : string := "application/vnd.oci.image.manifest.v1+json".
Definition MediaTypeOCIImageIndex : string := "application/vnd.oci.image.index.v1+json".
Definition MediaTypeOCIImageConfig : string := "application/vnd.oci.image.config.v1+json".
Definition MediaTypeDockerManifest : string := "application/vnd.docker.distribution.manifest.v2+json".
Definition MediaTypeDockerManifestList : string := "application/vnd.docker.distribution.manifest.list.v2+json".
Definition MediaTypeInTotoStatement : string := "application/vnd.in-toto+json".

Record BlobDescriptor := mkBlobDescriptor {
  bd_Digest : Digest;
  bd_Size : nat;
  bd_MediaType : string;
  bd_Annotations : gmap string string;
}.

Record LayerHistory := mkHistory { lh_CreatedAt : option gotime; lh_CreatedBy : string; lh_Comment : string; lh_EmptyLayer : bool }.
Record Layer := mkLayer { ly_Descriptor : BlobDescriptor; ly_DiffID : Digest; ly_History : option LayerHistory }.

Inductive AttestationKind :=
  AttestationKindInToto | AttestationKindBundle | AttestationKindSBOM | AttestationKindSLSA | AttestationKindVuln | AttestationKindOther (name : string).

#[export] Instance attestation_kind_eq_dec : EqDecision AttestationKind.
Proof. solve_decision. Defined.

Record AttestationRecord := mkAttestation {
  at_Kind : AttestationKind;
  at_PredicateType : string;
  at_Path : string;
  at_Payload : list byte;
  at_InlineOnly : bool;
  at_Metadata : gmap string (list byte);
}.

Record Artifact := mkArtifact {
  ar_Kind : string;
  ar_Platforms : list Platform;
  ar_Layers : list Layer;
  ar_Config : list byte;
  ar_Attestations : list AttestationRecord;
  ar_Annotations : gmap string string;
  ar_Labels : gmap string string;
  ar_Metadata : gmap string (list byte);
}.

Definition set_platforms (p : list Platform) (a : Artifact) : Artifact :=
  mkArtifact (ar_Kind a) p (ar_Layers a) (ar_Config a) (ar_Attestations a) (ar_Annotations a) (ar_Labels a) (ar_Metadata a).
Definition set_layers (l : list Layer) (a : Artifact) : Artifact :=
  mkArtifact (ar_Kind a) (ar_Platforms a) l (ar_Config a) (ar_Attestations a) (ar_Annotations a) (ar_Labels a) (ar_Metadata a).
Definition set_attestations (l : list AttestationRecord) (a : Artifact) : Artifact :=
  mkArtifact (ar_Kind a) (ar_Platforms a) (ar_Layers a) (ar_Config a) l (ar_Annotations a) (ar_Labels a) (ar_Metadata a).
Definition set_annotations (m : gmap string string) (a : Artifact) : Artifact :=
  mkArtifact (ar_Kind a) (ar_Platforms a) (ar_Layers a) (ar_Config a) (ar_Attestations a) m (ar_Labels a) (ar_Metadata a).
Definition set_metadata (m : gmap string (list byte)) (a : Artifact) : Artifact :=
  mkArtifact (ar_Kind a) (ar_Platforms a) (ar_Layers a) (ar_Config a) (ar_Attestations a) (ar_Annotations a) (ar_Labels a) m.

Notation Options := (gmap string string) (only parsing).
Definition opts_Get (o : Options) (key : string) : string := default EmptyString (o !! key).
Definition GetDefault (o : Options) (key def : string) : string := match o !! key with Some v => v | None => def end.

(** ** [interfaces.go] and [request.go] *)

Record Reporter (S : Type) := mkReporter {
  rp_Start : string → string → S → S;
  rp_Update : string → Z → S → S;
  rp_Complete : string → option error → S → S;
}.
Arguments mkReporter {S} _ _ _.
Arguments rp_Start {S} _ _ _ _.
Arguments rp_Update {S} _ _ _ _.
Arguments rp_Complete {S} _ _ _ _.

Record ContentStore (S : Type) := mkContentStore {
  cs_WriteBlob : list byte → string → io S Digest;
  cs_Has : Digest → io S bool;
  cs_ReadBlob : Digest → io S (list byte);
}.
Arguments mkContentStore {S} _ _ _.
Arguments cs_WriteBlob {S} _ _ _ _.
Arguments cs_Has {S} _ _ _.
Arguments cs_ReadBlob {S} _ _ _.

Section request.
Context {S : Type}.

Record ExportRequest := mkExportRequest {
  rq_SessionID : string;
  rq_Artifact : option Artifact;
  rq_ImageName : string;
  rq_Push : bool;
  rq_PushByDigest : bool;
  rq_Insecure : bool;
  rq_Epoch : option gotime;
  rq_Annotations : gmap string string;
  rq_Labels : gmap string string;
  rq_Reporter : option (Reporter S);
  rq_Store : bool;
  rq_ExtraOptions : Options;
}.

Definition request_Validate (r : ExportRequest) : option error :=
  match rq_Artifact r with
  | None => Some (EText ["ExportRequest: Artifact must not be nil"])
  | Some _ =>
      if decide (rq_SessionID r = EmptyString) then Some (EText ["ExportRequest: SessionID must not be empty"])
      else match rq_Reporter r with
           | None => Some (EText ["ExportRequest: Reporter must not be nil (use progress.Noop() if no reporting is needed)"])
           | Some _ => None
           end
  end.

Definition set_artifact (a : Artifact) (r : ExportRequest) : ExportRequest :=
  mkExportRequest (rq_SessionID r) (Some a) (rq_ImageName r) (rq_Push r) (rq_PushByDigest r) (rq_Insecure r) (rq_Epoch r)
    (rq_Annotations r) (rq_Labels r) (rq_Reporter r) (rq_Store r) (rq_ExtraOptions r).

(** The builder: each method sets a field. *)
Definition NewExportRequest : ExportRequest := mkExportRequest EmptyString None EmptyString false false false None ∅ ∅ None true ∅.

Definition WithSessionID (id : string) (b : ExportRequest) : ExportRequest :=
  mkExportRequest id (rq_Artifact b) (rq_ImageName b) (rq_Push b) (rq_PushByDigest b) (rq_Insecure b) (rq_Epoch b)
    (rq_Annotations b) (rq_Labels b) (rq_Reporter b) (rq_Store b) (rq_ExtraOptions b).
Definition WithArtifact (a : option Artifact) (b : ExportRequest) : ExportRequest :=
  mkExportRequest (rq_SessionID b) a (rq_ImageName b) (rq_Push b) (rq_PushByDigest b) (rq_Insecure b) (rq_Epoch b)
    (rq_Annotations b) (rq_Labels b) (rq_Reporter b) (rq_Store b) (rq_ExtraOptions b).
Definition WithImageName (name : string) (b : ExportRequest) : ExportRequest :=
  mkExportRequest (rq_SessionID b) (rq_Artifact b) name (rq_Push b) (rq_PushByDigest b) (rq_Insecure b) (rq_Epoch b)
    (rq_Annotations b) (rq_Labels b) (rq_Reporter b) (rq_Store b) (rq_ExtraOptions b).
Definition WithPush (push : bool) (b : ExportRequest) : ExportRequest :=
  mkExportRequest (rq_SessionID b) (rq_Artifact b) (rq_ImageName b) push (rq_PushByDigest b) (rq_Insecure b) (rq_Epoch b)
    (rq_Annotations b) (rq_Labels b) (rq_Reporter b) (rq_Store b) (rq_ExtraOptions b).
Definition WithPushByDigest (v : bool) (b : ExportRequest) : ExportRequest :=
  mkExportRequest (rq_SessionID b) (rq_Artifact b) (rq_ImageName b) (rq_Push b) v (rq_Insecure b) (rq_Epoch b)
    (rq_Annotations b) (rq_Labels b) (rq_Reporter b) (rq_Store b) (rq_ExtraOptions b).
Definition WithInsecure (v : bool) (b : ExportRequest) : ExportRequest :=
  mkExportRequest (rq_SessionID b) (rq_Artifact b) (rq_ImageName b) (rq_Push b) (rq_PushByDigest b) v (rq_Epoch b)
    (rq_Annotations b) (rq_Labels b) (rq_Reporter b) (rq_Store b) (rq_ExtraOptions b).
Definition WithEpoch (t : option gotime) (b : ExportRequest) : ExportRequest :=
  mkExportRequest (rq_SessionID b) (rq_Artifact b) (rq_ImageName b) (rq_Push b) (rq_PushByDigest b) (rq_Insecure b) t
    (rq_Annotations b) (rq_Labels b) (rq_Reporter b) (rq_Store b) (rq_ExtraOptions b).
Definition WithAnnotation (key value : string) (b : ExportRequest) : ExportRequest :=
  mkExportRequest (rq_SessionID b) (rq_Artifact b) (rq_ImageName b) (rq_Push b) (rq_PushByDigest b) (rq_Insecure b) (rq_Epoch b)
    (<[key := value]> (rq_Annotations b)) (rq_Labels b) (rq_Reporter b) (rq_Store b) (rq_ExtraOptions b).
Definition WithLabel (key value : string) (b : ExportRequest) : ExportRequest :=
  mkExportRequest (rq_SessionID b) (rq_Artifact b) (rq_ImageName b) (rq_Push b) (rq_PushByDigest b) (rq_Insecure b) (rq_Epoch b)
    (rq_Annotations b) (<[key := value]> (rq_Labels b)) (rq_Reporter b) (rq_Store b) (rq_ExtraOptions b).
Definition WithReporter (r : option (Reporter S)) (b : ExportRequest) : ExportRequest :=
  mkExportRequest (rq_SessionID b) (rq_Artifact b) (rq_ImageName b) (rq_Push b) (rq_PushByDigest b) (rq_Insecure b) (rq_Epoch b)
    (rq_Annotations b) (rq_Labels b) r (rq_Store b) (rq_ExtraOptions b).
Definition WithStore (v : bool) (b : ExportRequest) : ExportRequest :=
  mkExportRequest (rq_SessionID b) (rq_Artifact b) (rq_ImageName b) (rq_Push b) (rq_PushByDigest b) (rq_Insecure b) (rq_Epoch b)
    (rq_Annotations b) (rq_Labels b) (rq_Reporter b) v (rq_ExtraOptions b).
Definition WithExtraOption (key value : string) (b : ExportRequest) : ExportRequest :=
  mkExportRequest (rq_SessionID b) (rq_Artifact b) (rq_ImageName b) (rq_Push b) (rq_PushByDigest b) (rq_Insecure b) (rq_Epoch b)
    (rq_Annotations b) (rq_Labels b) (rq_Reporter b) (rq_Store b) (<[key := value]> (rq_ExtraOptions b)).

Definition request_Build (b : ExportRequest) : result ExportRequest :=
  match request_Validate b with Some e => Err e | None => Ok b end.

Record ExportResult := mkExportResult {
  er_Descriptor : option BlobDescriptor;
  er_ImageDigest : Digest;
  er_ImageName : string;
  er_ConfigDigest : Digest;
  er_Metadata : gmap string string;
}.

Definition ResultKeyImageDigest : string := "containerimage.digest".
Definition ResultKeyImageName : string := "image.name".
Definition ResultKeyDescriptor : string := "containerimage.descriptor".

Definition result_Get (r : ExportResult) (key : string) : string := default EmptyString (er_Metadata r !! key).
Definition result_Set (key value : string) (r : ExportResult) : ExportResult :=
  mkExportResult (er_Descriptor r) (er_ImageDigest r) (er_ImageName r) (er_ConfigDigest r) (<[key := value]> (er_Metadata r)).

Definition FinalizeFunc : Type := io S unit.
Definition ExportFunc : Type := ExportRequest → io S (ExportResult * option FinalizeFunc).
(** An [ExporterInstance] is its method [Export]. *)
Definition ExporterInstance : Type := ExportFunc.

Record Exporter := mkExporter { ex_Type : ExporterType; ex_Resolve : Options → io S ExporterInstance }.
End request.
Arguments ExportRequest S : clear implicits.
Arguments FinalizeFunc S : clear implicits.
Arguments ExportFunc S : clear implicits.
Arguments ExporterInstance S : clear implicits.
Arguments Exporter S : clear implicits.

(** ** [registry.go] *)

Section registry.
Context {S : Type}.

Record registry := mkRegistry { reg_exporters : gmap ExporterType (Exporter S); reg_sealed : bool }.

Definition NewRegistry : registry := mkRegistry ∅ false.

Definition Register (e : option (Exporter S)) (r : registry) : option error * registry :=
  match e with
  | None => (Some (EText ["registry: cannot register nil exporter"]), r)
  | Some e =>
      let t := ex_Type e in
      if decide (t = EmptyString) then (Some (EText ["registry: exporter has empty Type()"]), r)
      else if reg_sealed r then (Some (EWrap [t; "(registry is sealed after first Resolve)"] ErrAlreadyRegistered), r)
      else match reg_exporters r !! t with
           | Some _ => (Some (EWrap [t] ErrAlreadyRegistered), r)
           | None => (None, mkRegistry (<[t := e]> (reg_exporters r)) false)
           end
  end.

(** [None] is a panic. *)
Definition MustRegister (e : option (Exporter S)) (r : registry) : option registry :=
  match Register e r with (None, r) => Some r | (Some _, _) => None end.

Definition reg_Get (t : ExporterType) (r : registry) : result (Exporter S) :=
  match reg_exporters r !! t with Some e => Ok e | None => Err (EWrap [t] ErrNotRegistered) end.

Definition reg_Resolve (t : ExporterType) (opts : Options) (r : registry) (s : S) : result (ExporterInstance S) * registry * S :=
  match reg_Get t r with
  | Err e => (Err e, r, s)
  | Ok exp => let '(res, s) := ex_Resolve exp opts s in (res, mkRegistry (reg_exporters r) true, s)
  end.

(** The inner loop: [j + 1] is [k].  [None] is an index out of range. *)
Fixpoint sift (ts : list ExporterType) (key : ExporterType) (k : nat) : option (list ExporterType) :=
  match k with
  | 0 => if decide (0 < length ts) then Some (<[0 := key]> ts) else None
  | Datatypes.S j =>
      match ts !! j with
      | None => None
      | Some x =>
          if decide (k < length ts) then if decide (String.le x key) then Some (<[k := key]> ts) else sift (<[k := x]> ts) key j
          else None
      end
  end.

Fixpoint sort_loop (n i : nat) (ts : list ExporterType) : option (list ExporterType) :=
  match n with
  | 0 => Some ts
  | Datatypes.S n => match ts !! i with None => None | Some key => match sift ts key i with None => None | Some ts => sort_loop n (Datatypes.S i) ts end end
  end.

Definition sortExporterTypes (ts : list ExporterType) : option (list ExporterType) := sort_loop (length ts - 1) 1 ts.

Definition Types `{GoRange} (r : registry) : option (list ExporterType) := sortExporterTypes (map_range (reg_exporters r)).*1.
End registry.
Arguments registry S : clear implicits.

(** ** [progress/reporter.go] *)

Definition Noop {S} : Reporter S := mkReporter (λ _ _ s, s) (λ _ _ s, s) (λ _ _ s, s).

Inductive Event := EvStart (id label : string) | EvUpdate (id : string) (pct : Z) | EvComplete (id : string) (err : option error).

(** [CapturingReporter]: its events are part of the state. *)
Definition Capturing {S} (log : Event → S → S) : Reporter S :=
  mkReporter (λ id label, log (EvStart id label)) (λ id pct, log (EvUpdate id pct)) (λ id err, log (EvComplete id err)).

Definition StartedIDs (events : list Event) : list string := omap (λ e, match e with EvStart id _ => Some id | _ => None end) events.
Definition CompletedWithError (events : list Event) : bool :=
  existsb (λ e, match e with EvComplete _ (Some _) => true | _ => false end) events.

(** The console: the operations that have started, and what it writes, line by line *)
Inductive console_line := CStarted (label : string) | CProgress (label : string) (pct : Z) | CFailed (label : string) (elapsed : Z) (err : error) | CDone (label : string) (elapsed : Z).
Record console := mkConsole { co_ops : gmap string (string * Z); co_lines : list console_line }.

(** [time.Since(op.started).Truncate(time.Millisecond)], in nanoseconds *)
Definition elapsed (now started : Z) : Z := let d := (now - started)%Z in (d - Z.rem d 1000000)%Z.

Definition Console (now : Z) : Reporter console :=
  mkReporter
    (λ id label c, mkConsole (<[id := (label, now)]> (co_ops c)) (co_lines c ++ [CStarted label]))
    (λ id pct c, match co_ops c !! id with None => c | Some (label, _) => mkConsole (co_ops c) (co_lines c ++ [CProgress label pct]) end)
    (λ id err c, match co_ops c !! id with
                 | None => c
                 | Some (label, started) =>
                     mkConsole (delete id (co_ops c))
                       (co_lines c ++ [match err with Some e => CFailed label (elapsed now started) e | None => CDone label (elapsed now started) end])
                 end).
