(* ===== verification/ExTransform.v ===== *)
(** * ExTransform: transformers and the export pipeline

    Models [src/plugins/exporter/core/pipeline.go] and [src/plugins/exporter/transform]: the
    pipeline with its middlewares and builder, chains of transformers ([chain.go]), and the
    transformers for the epoch, annotations and attestations ([epoch.go], [annotation.go],
    [attestation.go]).  The state [S] is the world that transformers and exporters change; the
    clock is read from it. *)
From S2P Require Import Prelude GoStd GoNum Sha256 ExTypes.
#[local] Open Scope io_scope.

(** ** Sorting *)

(** [sort.SliceStable] by an integer: elements with equal keys keep their order, which leaves one
    result. *)
Fixpoint stable_insert {A} (key : A → Z) (x : A) (l : list A) : list A :=
  match l with
  | [] => [x]
  | y :: l' => if decide (key x ≤ key y)%Z then x :: l else y :: stable_insert key x l'
  end.
Definition sort_stable {A} (key : A → Z) (l : list A) : list A := foldr (stable_insert key) [] l.

Section transform.
Context {S : Type}.

Record Transformer := mkTransformer {
  tf_Name : string;
  tf_Priority : Z;
  tf_Transform : Artifact → io S (option Artifact);
}.

(** ** [pipeline.go] *)

Definition Middleware : Type := ExportFunc S → ExportFunc S.

Record pipeline := mkPipeline {
  pp_exporter : ExporterInstance S;
  pp_transformers : list Transformer;
  pp_nameIndex : gset string;
  pp_middlewares : list Middleware;
}.

Definition NewPipeline (exp : ExporterInstance S) (middlewares : list Middleware) : pipeline := mkPipeline exp [] ∅ middlewares.

Definition AddTransformer (t : option Transformer) (p : pipeline) : option error * pipeline :=
  match t with
  | None => (Some (EText ["pipeline: cannot add nil transformer"]), p)
  | Some t =>
      let name := tf_Name t in
      if decide (name = EmptyString) then (Some (EText ["pipeline: transformer must have a non-empty Name()"]), p)
      else if decide (name ∈ pp_nameIndex p) then (Some (EText ["pipeline: transformer already added"; name]), p)
      else (None, mkPipeline (pp_exporter p) (sort_stable tf_Priority (pp_transformers p ++ [t])) ({[name]} ∪ pp_nameIndex p) (pp_middlewares p))
  end.

(** [None] is a panic. *)
Definition MustAddTransformer (t : option Transformer) (p : pipeline) : option pipeline :=
  match AddTransformer t p with (None, p) => Some p | (Some _, _) => None end.

(** The first loop of [Execute] *)
Fixpoint run_transformers (ts : list Transformer) (artifact : Artifact) : io S Artifact :=
  match ts with
  | [] => io_ret artifact
  | t :: ts =>
      let! r := io_wrap (NewTransformError (tf_Name t)) (tf_Transform t artifact) in
      match r with
      | None => io_throw (NewTransformError (tf_Name t) (EText ["transformer returned nil artifact"]))
      | Some artifact => run_transformers ts artifact
      end
  end.

(** The second loop: the last middleware is applied first. *)
Fixpoint wrap_middlewares (ms : list Middleware) (f : ExportFunc S) : ExportFunc S :=
  match ms with [] => f | m :: ms => m (wrap_middlewares ms f) end.

Definition coreExport (p : pipeline) : ExportFunc S := pp_exporter p.

Definition Execute (p : pipeline) (req : ExportRequest S) : io S (ExportResult * option (FinalizeFunc S)) :=
  match request_Validate req, rq_Artifact req with
  | Some e, _ => io_throw (EWrap ["pipeline execute"] e)
  | None, None => io_throw (EWrap ["pipeline execute"] (EText ["ExportRequest: Artifact must not be nil"]))
  | None, Some artifact =>
      let! artifact := run_transformers (pp_transformers p) artifact in
      wrap_middlewares (pp_middlewares p) (coreExport p) (set_artifact artifact req)
  end.

(** The builder; its field [err] is never set. *)
Record PipelineBuilder := mkPipelineBuilder {
  pb_exporterType : ExporterType;
  pb_opts : Options;
  pb_transformers : list (option Transformer);
  pb_middlewares : list Middleware;
}.

Definition NewPipelineBuilder : PipelineBuilder := mkPipelineBuilder EmptyString ∅ [] [].
Definition ForExporter (t : ExporterType) (opts : Options) (b : PipelineBuilder) : PipelineBuilder :=
  mkPipelineBuilder t opts (pb_transformers b) (pb_middlewares b).
Definition WithTransformer (t : option Transformer) (b : PipelineBuilder) : PipelineBuilder :=
  mkPipelineBuilder (pb_exporterType b) (pb_opts b) (pb_transformers b ++ [t]) (pb_middlewares b).
Definition WithMiddleware (m : Middleware) (b : PipelineBuilder) : PipelineBuilder :=
  mkPipelineBuilder (pb_exporterType b) (pb_opts b) (pb_transformers b) (pb_middlewares b ++ [m]).

Fixpoint add_transformers (ts : list (option Transformer)) (p : pipeline) : result pipeline :=
  match ts with
  | [] => Ok p
  | t :: ts => match AddTransformer t p with (Some e, _) => Err (EWrap ["PipelineBuilder"] e) | (None, p) => add_transformers ts p end
  end.

Definition Build (b : PipelineBuilder) (r : registry S) (s : S) : result pipeline * registry S * S :=
  if decide (pb_exporterType b = EmptyString) then (Err (EText ["PipelineBuilder: exporter type must be set via ForExporter()"]), r, s)
  else
    let '(res, r, s) := reg_Resolve (pb_exporterType b) (pb_opts b) r s in
    match res with
    | Err e => (Err (EWrap ["PipelineBuilder"] e), r, s)
    | Ok instance => (add_transformers (pb_transformers b) (NewPipeline instance (pb_middlewares b)), r, s)
    end.

(** ** [chain.go] *)

Definition PriorityPreProcess : Z := 100.
Definition PriorityAttestation : Z := 300.
Definition PriorityAnnotation : Z := 400.

Definition NewFuncTransformer (name : string) (priority : Z) (fn : Artifact → io S (option Artifact)) : Transformer := mkTransformer name priority fn.

Record TransformerChain := mkChain { ch_name : string; ch_priority : Z; ch_children : list Transformer; ch_index : gset string }.

Definition NewChain (name : string) (priority : Z) : TransformerChain := mkChain name priority [] ∅.

Definition chain_Add (t : option Transformer) (c : TransformerChain) : option error * TransformerChain :=
  match t with
  | None => (Some (EText ["chain"; ch_name c; "cannot add nil transformer"]), c)
  | Some t =>
      let n := tf_Name t in
      if decide (n ∈ ch_index c) then (Some (EText ["chain"; ch_name c; n; "already present"]), c)
      else (None, mkChain (ch_name c) (ch_priority c) (sort_stable tf_Priority (ch_children c ++ [t])) ({[n]} ∪ ch_index c))
  end.

Fixpoint chain_loop (name : string) (children : list Transformer) (current : Artifact) : io S Artifact :=
  match children with
  | [] => io_ret current
  | child :: children =>
      let! r := io_wrap (NewTransformError (tf_Name child)) (tf_Transform child current) in
      match r with
      | None => io_throw (EText ["chain"; name; tf_Name child; "returned nil artifact"])
      | Some current => chain_loop name children current
      end
  end.

(** A chain is a transformer. *)
Definition chain_Transform (c : TransformerChain) (a : Artifact) : io S (option Artifact) :=
  let! a := chain_loop (ch_name c) (ch_children c) a in io_ret (Some a).
Definition chain_transformer (c : TransformerChain) : Transformer := mkTransformer (ch_name c) (ch_priority c) (chain_Transform c).
End transform.
Arguments Transformer S : clear implicits.
Arguments Middleware S : clear implicits.
Arguments pipeline S : clear implicits.
Arguments TransformerChain S : clear implicits.

(** ** [epoch.go] *)

Class Clock (S : Type) := time_Now : S → gotime.

Definition MetaKeySourceDateEpoch : string := "source.date.epoch".
Definition MetaKeyEpochApplied : string := "exporter.epoch.applied".

(** The option [FallbackToNow] *)
Definition EpochTransformerOption : Type := bool → bool.
Definition WithFallbackToNow (v : bool) : EpochTransformerOption := λ _, v.

Definition resolveEpoch (a : Artifact) : result (option gotime) :=
  match ar_Metadata a !! MetaKeySourceDateEpoch with
  | None => Ok None
  | Some raw =>
      if decide (raw = []) then Ok None
      else match ParseInt (bytes_str raw) with
           | None => Err (NewValidationError MetaKeySourceDateEpoch ("must be a Unix second integer, got: " +:+ bytes_str raw))
           | Some secs => Ok (Some (time_Unix secs))
           end
  end.

Definition clamp_history (epoch : gotime) (h : LayerHistory) : LayerHistory :=
  match lh_CreatedAt h with
  | Some t => if t_After t epoch then mkHistory (Some epoch) (lh_CreatedBy h) (lh_Comment h) (lh_EmptyLayer h) else h
  | None => mkHistory (Some epoch) (lh_CreatedBy h) (lh_Comment h) (lh_EmptyLayer h)
  end.
Definition clamp_layer (epoch : gotime) (l : Layer) : Layer := mkLayer (ly_Descriptor l) (ly_DiffID l) (clamp_history epoch <$> ly_History l).

Definition apply_epoch (epoch : gotime) (a : Artifact) : Artifact :=
  set_metadata (<[MetaKeySourceDateEpoch := str_bytes (strconv_Itoa (t_Unix epoch))]> (<[MetaKeyEpochApplied := str_bytes "true"]> (ar_Metadata a)))
    (set_layers (clamp_layer epoch <$> ar_Layers a) a).

Definition epoch_Transform {S} `{Clock S} (fallbackToNow : bool) (a : Artifact) : io S (option Artifact) :=
  let! epoch := io_of (resolveEpoch a) in
  match epoch with
  | Some epoch => io_ret (Some (apply_epoch epoch a))
  | None => if fallbackToNow then λ s, (Ok (Some (apply_epoch (time_Now s) a)), s) else io_ret (Some a)
  end.

Definition NewEpochTransformer {S} `{Clock S} (options : list EpochTransformerOption) : Transformer S :=
  mkTransformer "epoch-normaliser" PriorityPreProcess (epoch_Transform (foldl (λ o f, f o) false options)).

(** ** [annotation.go] *)

Definition AnnotationCreated : string := "org.opencontainers.image.created".

Inductive MergeStrategy := MergeStrategyOverwrite | MergeStrategyPreserve | MergeStrategyError.

#[export] Instance merge_strategy_eq_dec : EqDecision MergeStrategy.
Proof. solve_decision. Defined.

Record AnnotationTransformerOptions := mkAnnotationOptions {
  ao_StaticAnnotations : gmap string string;
  ao_InjectCreatedAt : bool;
  ao_Strategy : MergeStrategy;
  ao_AllowedPrefixes : list string;
}.

Definition AnnotationTransformerOption : Type := AnnotationTransformerOptions → AnnotationTransformerOptions.
Definition WithStaticAnnotation (key value : string) : AnnotationTransformerOption := λ o,
  mkAnnotationOptions (<[key := value]> (ao_StaticAnnotations o)) (ao_InjectCreatedAt o) (ao_Strategy o) (ao_AllowedPrefixes o).
Definition WithInjectCreatedAt (v : bool) : AnnotationTransformerOption := λ o,
  mkAnnotationOptions (ao_StaticAnnotations o) v (ao_Strategy o) (ao_AllowedPrefixes o).
Definition WithMergeStrategy (s : MergeStrategy) : AnnotationTransformerOption := λ o,
  mkAnnotationOptions (ao_StaticAnnotations o) (ao_InjectCreatedAt o) s (ao_AllowedPrefixes o).
Definition WithAllowedAnnotationPrefix (prefix : string) : AnnotationTransformerOption := λ o,
  mkAnnotationOptions (ao_StaticAnnotations o) (ao_InjectCreatedAt o) (ao_Strategy o) (ao_AllowedPrefixes o ++ [prefix]).

(** The sum wraps around; [-1] at a byte that is no digit. *)
Fixpoint unix_loop (s : string) (n : Z) : Z :=
  match s with
  | EmptyString => n
  | String c s => if ((N_of_ascii c <? 48) || (57 <? N_of_ascii c))%N then (-1)%Z else unix_loop s (i64 (n * 10 + Z.of_N (N_of_ascii c - 48)))
  end.
Definition parseUnixSecs (s : string) : Z := unix_loop s 0.

(** The creation time of the last layer that has one *)
Definition last_created (layers : list Layer) : option gotime :=
  head (omap (λ l, ly_History l ≫= lh_CreatedAt) (rev layers)).

Section annotation.
Context {S : Type} `{Clock S, GoRange} (format_rfc3339 : gotime → string).

Definition resolveCreatedAt (a : Artifact) (s : S) : gotime :=
  let fallback := match last_created (ar_Layers a) with Some t => t | None => time_Now s end in
  match ar_Metadata a !! MetaKeySourceDateEpoch with
  | None => fallback
  | Some raw => if decide (raw ≠ [] ∧ (0 < parseUnixSecs (bytes_str raw))%Z) then time_Unix (parseUnixSecs (bytes_str raw)) else fallback
  end.

Definition buildIncoming (o : AnnotationTransformerOptions) (a : Artifact) (s : S) : gmap string string :=
  if ao_InjectCreatedAt o then
    match ao_StaticAnnotations o !! AnnotationCreated with
    | Some _ => ao_StaticAnnotations o
    | None => <[AnnotationCreated := format_rfc3339 (resolveCreatedAt a s)]> (ao_StaticAnnotations o)
    end
  else ao_StaticAnnotations o.

Definition allowed (o : AnnotationTransformerOptions) (key : string) : bool := existsb (has_prefix key) (ao_AllowedPrefixes o).

(** The annotations that are left after the filter, which makes a new map *)
Definition filter_incoming (o : AnnotationTransformerOptions) (incoming : gmap string string) : gmap string string :=
  if decide (ao_AllowedPrefixes o = []) then incoming else list_to_map (filter (λ kv, allowed o kv.1 = true) (map_range incoming)).

Fixpoint merge_loop (strategy : MergeStrategy) (incoming : list (string * string)) (annotations : gmap string string) : result (gmap string string) :=
  match incoming with
  | [] => Ok annotations
  | (k, v) :: incoming =>
      match annotations !! k, strategy with
      | None, _ => merge_loop strategy incoming (<[k := v]> annotations)
      | Some _, MergeStrategyPreserve => merge_loop strategy incoming annotations
      | Some existing, MergeStrategyError => Err (EText ["annotation-injector: collision on key"; k; existing; v])
      | Some _, MergeStrategyOverwrite => merge_loop strategy incoming (<[k := v]> annotations)
      end
  end.

Definition annotation_Transform (o : AnnotationTransformerOptions) (a : Artifact) : io S (option Artifact) := λ s,
  let incoming := buildIncoming o a s in
  if decide (incoming = ∅) then (Ok (Some a), s)
  else
    let incoming := filter_incoming o incoming in
    if decide (incoming = ∅) then (Ok (Some a), s)
    else match merge_loop (ao_Strategy o) (map_range incoming) (ar_Annotations a) with
         | Err e => (Err e, s)
         | Ok m => (Ok (Some (set_annotations m a)), s)
         end.

Definition NewAnnotationTransformer (options : list AnnotationTransformerOption) : Transformer S :=
  mkTransformer "annotation-injector" PriorityAnnotation (annotation_Transform (foldl (λ o f, f o) (mkAnnotationOptions ∅ false MergeStrategyOverwrite []) options)).
End annotation.

(** ** [attestation.go] *)

(** The set of kinds as a list *)
Record AttestationTransformerOptions := mkAttestationOptions {
  to_AllowedKinds : list AttestationKind;
  to_DeniedPredicateTypes : list string;
  to_RequirePayload : bool;
  to_DeduplicateByPath : bool;
}.

Definition AttestationTransformerOption : Type := AttestationTransformerOptions → AttestationTransformerOptions.
Definition WithAllowedKinds (kinds : list AttestationKind) : AttestationTransformerOption := λ o,
  mkAttestationOptions kinds (to_DeniedPredicateTypes o) (to_RequirePayload o) (to_DeduplicateByPath o).
Definition WithDeniedPredicateType (prefix : string) : AttestationTransformerOption := λ o,
  mkAttestationOptions (to_AllowedKinds o) (to_DeniedPredicateTypes o ++ [prefix]) (to_RequirePayload o) (to_DeduplicateByPath o).
Definition WithRequirePayload (v : bool) : AttestationTransformerOption := λ o,
  mkAttestationOptions (to_AllowedKinds o) (to_DeniedPredicateTypes o) v (to_DeduplicateByPath o).
Definition WithDeduplicateByPath (v : bool) : AttestationTransformerOption := λ o,
  mkAttestationOptions (to_AllowedKinds o) (to_DeniedPredicateTypes o) (to_RequirePayload o) v.

Section attestation.
Context (o : AttestationTransformerOptions).

Definition validate (att : AttestationRecord) : option error :=
  if decide (at_Path att = EmptyString ∧ at_Kind att ≠ AttestationKindBundle) then Some (EText ["attestation has empty path"])
  else if decide (to_RequirePayload o = true ∧ trim_space (bytes_str (at_Payload att)) = EmptyString)
  then Some (EText ["attestation has empty payload"; at_Path att]) else None.

Definition allowKind (k : AttestationKind) : bool :=
  if decide (to_AllowedKinds o = []) then true else bool_decide (k ∈ to_AllowedKinds o).

Definition denyPredicate (pt : string) : bool := existsb (has_prefix pt) (to_DeniedPredicateTypes o).

Fixpoint attestation_loop (atts : list AttestationRecord) (seen : gset string) (kept : list AttestationRecord) : result (list AttestationRecord) :=
  match atts with
  | [] => Ok kept
  | att :: atts =>
      match validate att with
      | Some e => Err e
      | None =>
          if negb (allowKind (at_Kind att)) then attestation_loop atts seen kept
          else if denyPredicate (at_PredicateType att) then attestation_loop atts seen kept
          else if to_DeduplicateByPath o then
            if decide (at_Path att ∈ seen) then attestation_loop atts seen kept
            else attestation_loop atts ({[at_Path att]} ∪ seen) (kept ++ [att])
          else attestation_loop atts seen (kept ++ [att])
      end
  end.

Definition attestation_Transform {S} (a : Artifact) : io S (option Artifact) :=
  if decide (ar_Attestations a = []) then io_ret (Some a)
  else let! kept := io_of (attestation_loop (ar_Attestations a) ∅ []) in io_ret (Some (set_attestations kept a)).
End attestation.

Definition NewAttestationTransformer {S} (options : list AttestationTransformerOption) : Transformer S :=
  mkTransformer "attestation-filter" PriorityAttestation (attestation_Transform (foldl (λ o f, f o) (mkAttestationOptions [] [] false false) options)).
