(* ===== verification/ExImage.v ===== *)
(** * ExImage: the exporter of container images

    Models [src/plugins/exporter/exporter/containerimage]: the options ([exporter.go]), the blobs
    that it writes ([writer.go]) and an export ([instance.go]).  [encoding/json] is a parameter, of
    which the theorems assume that reading inverts writing. *)
From S2P Require Import Prelude GoStd GoNum Sha256 ExTypes.
#[local] Open Scope io_scope.

(** ** [exporter.go] *)

Definition OptKeyName : string := "name".
Definition OptKeyPush : string := "push".
Definition OptKeyPushByDigest : string := "push-by-digest".
Definition OptKeyInsecure : string := "registry.insecure".
Definition OptKeyStore : string := "store".
Definition OptKeyOCITypes : string := "oci-mediatypes".
Definition OptKeyOCIArtifact : string := "oci-artifact".
Definition OptKeyCompression : string := "compression".
Definition OptKeyCompressionLevel : string := "compression-level".
Definition OptKeyForceCompression : string := "force-compression".
Definition OptKeySourceDateEpoch : string := "source-date-epoch".
Definition OptKeyRewriteTimestamp : string := "rewrite-timestamp".
Definition OptKeyForceInlineAttest : string := "attestation-inline".
Definition OptKeyPreferNondistLayers : string := "prefer-nondist-layers".
Definition OptKeyNameCanonical : string := "name-canonical".
Definition OptKeyDanglingPrefix : string := "dangling-name-prefix".
Definition OptKeyUnpack : string := "unpack".

Definition CompressionGzip : string := "gzip".
Definition compressions : list string := ["uncompressed"; CompressionGzip; "zstd"; "estargz"].

(** [ExtraAnnotations], which nothing reads or writes, is left out. *)
Record Config := mkConfig {
  cf_ImageName : string;
  cf_Push : bool;
  cf_PushByDigest : bool;
  cf_Insecure : bool;
  cf_Store : bool;
  cf_OCITypes : bool;
  cf_OCIArtifact : bool;
  cf_Compression : string;
  cf_CompressionLevel : Z;
  cf_ForceCompression : bool;
  cf_RewriteTimestamp : bool;
  cf_ForceInlineAttestations : bool;
  cf_PreferNondistributableLayers : bool;
  cf_NameCanonical : bool;
  cf_DanglingPrefix : string;
  cf_Unpack : bool;
}.

Definition DefaultConfig : Config :=
  mkConfig EmptyString false false false true true false CompressionGzip 0 false false true false false EmptyString false.

(** [strconv.ParseBool] *)
Definition ParseBool (v : string) : option bool :=
  if decide (v ∈ ["1"; "t"; "T"; "true"; "TRUE"; "True"]) then Some true
  else if decide (v ∈ ["0"; "f"; "F"; "false"; "FALSE"; "False"]) then Some false else None.

Definition parseBoolOrTrue (v : string) : result bool :=
  if decide (v = EmptyString) then Ok true
  else match ParseBool v with Some b => Ok b | None => Err (EText ["expected bool, got"; v]) end.

Definition parseBoolOrDefault (v : string) (def : bool) : result bool := if decide (v = EmptyString) then Ok def else parseBoolOrTrue v.

Definition parseInt (key v : string) : result Z :=
  match ParseInt v with Some n => Ok n | None => Err (NewOptionError key v "expected integer") end.

Definition parseCompression (v : string) : result string :=
  if decide (v ∈ compressions) then Ok v else if decide (v = EmptyString) then Ok CompressionGzip else Err (EText ["unknown compression type"; v]).

Definition on_ok {A B} (f : A → B) (r : result A) : result B := match r with Ok a => Ok (f a) | Err e => Err e end.

(** The cases of the switch; [None] is the default. *)
Definition config_case (k v : string) (c : Config) : option (result Config) :=
  let '(mkConfig name push digest insecure store oci artifact comp level force rewrite inline nondist canonical dangling unpack) := c in
  if decide (k = OptKeyName) then Some (Ok (mkConfig v push digest insecure store oci artifact comp level force rewrite inline nondist canonical dangling unpack))
  else if decide (k = OptKeyPush) then
    Some (on_ok (λ b, mkConfig name b digest insecure store oci artifact comp level force rewrite inline nondist canonical dangling unpack) (parseBoolOrTrue v))
  else if decide (k = OptKeyPushByDigest) then
    Some (on_ok (λ b, mkConfig name push b insecure store oci artifact comp level force rewrite inline nondist canonical dangling unpack) (parseBoolOrTrue v))
  else if decide (k = OptKeyInsecure) then
    Some (on_ok (λ b, mkConfig name push digest b store oci artifact comp level force rewrite inline nondist canonical dangling unpack) (parseBoolOrTrue v))
  else if decide (k = OptKeyStore) then
    Some (on_ok (λ b, mkConfig name push digest insecure b oci artifact comp level force rewrite inline nondist canonical dangling unpack) (parseBoolOrTrue v))
  else if decide (k = OptKeyOCITypes) then
    Some (on_ok (λ b, mkConfig name push digest insecure store b artifact comp level force rewrite inline nondist canonical dangling unpack) (parseBoolOrDefault v true))
  else if decide (k = OptKeyOCIArtifact) then
    Some (on_ok (λ b, mkConfig name push digest insecure store oci b comp level force rewrite inline nondist canonical dangling unpack) (parseBoolOrTrue v))
  else if decide (k = OptKeyCompression) then
    Some (on_ok (λ t, mkConfig name push digest insecure store oci artifact t level force rewrite inline nondist canonical dangling unpack) (parseCompression v))
  else if decide (k = OptKeyCompressionLevel) then
    Some (on_ok (λ n, mkConfig name push digest insecure store oci artifact comp n force rewrite inline nondist canonical dangling unpack) (parseInt k v))
  else if decide (k = OptKeyForceCompression) then
    Some (on_ok (λ b, mkConfig name push digest insecure store oci artifact comp level b rewrite inline nondist canonical dangling unpack) (parseBoolOrTrue v))
  else if decide (k = OptKeyRewriteTimestamp) then
    Some (on_ok (λ b, mkConfig name push digest insecure store oci artifact comp level force b inline nondist canonical dangling unpack) (parseBoolOrTrue v))
  else if decide (k = OptKeyForceInlineAttest) then
    Some (on_ok (λ b, mkConfig name push digest insecure store oci artifact comp level force rewrite b nondist canonical dangling unpack) (parseBoolOrTrue v))
  else if decide (k = OptKeyPreferNondistLayers) then
    Some (on_ok (λ b, mkConfig name push digest insecure store oci artifact comp level force rewrite inline b canonical dangling unpack) (parseBoolOrTrue v))
  else if decide (k = OptKeyNameCanonical) then
    Some (on_ok (λ b, mkConfig name push digest insecure store oci artifact comp level force rewrite inline nondist b dangling unpack) (parseBoolOrTrue v))
  else if decide (k = OptKeyDanglingPrefix) then Some (Ok (mkConfig name push digest insecure store oci artifact comp level force rewrite inline nondist canonical v unpack))
  else if decide (k = OptKeyUnpack) then
    Some (on_ok (λ b, mkConfig name push digest insecure store oci artifact comp level force rewrite inline nondist canonical dangling b) (parseBoolOrTrue v))
  else None.

Fixpoint config_loop (opts : list (string * string)) (cfg : Config) (unknown : Options) : result (Config * Options) :=
  match opts with
  | [] => Ok (cfg, unknown)
  | (k, v) :: opts =>
      match config_case k v cfg with
      | None => config_loop opts cfg (<[k := v]> unknown)
      | Some (Ok cfg) => config_loop opts cfg unknown
      | Some (Err e) => Err e
      end
  end.

(** An artifact requires OCI media types. *)
Definition with_oci_types (c : Config) : Config :=
  if cf_OCIArtifact c && negb (cf_OCITypes c)
  then mkConfig (cf_ImageName c) (cf_Push c) (cf_PushByDigest c) (cf_Insecure c) (cf_Store c) true (cf_OCIArtifact c) (cf_Compression c) (cf_CompressionLevel c)
         (cf_ForceCompression c) (cf_RewriteTimestamp c) (cf_ForceInlineAttestations c) (cf_PreferNondistributableLayers c) (cf_NameCanonical c)
         (cf_DanglingPrefix c) (cf_Unpack c)
  else c.

Definition ParseConfig `{GoRange} (opts : Options) : result (Config * Options) :=
  on_ok (λ r, (with_oci_types r.1, r.2)) (config_loop (map_range opts) DefaultConfig ∅).

(** ** [writer.go] *)

Record ociPlatform := mkOciPlatform { op_OS : string; op_Architecture : string; op_Variant : string; op_OSVersion : string }.

Record ociDescriptor := mkOciDescriptor {
  od_MediaType : string;
  od_Digest : string;
  od_Size : nat;
  od_Annotations : gmap string string;
  od_Platform : option ociPlatform;
}.

(** A slice that [append] has not been called on is nil. *)
Record ociManifest := mkOciManifest {
  om_SchemaVersion : Z;
  om_MediaType : string;
  om_Config : ociDescriptor;
  om_Layers : option (list ociDescriptor);
  om_Annotations : gmap string string;
}.
Record ociIndex := mkOciIndex { ox_SchemaVersion : Z; ox_MediaType : string; ox_Manifests : option (list ociDescriptor); ox_Annotations : gmap string string }.

Record ociRootFS := mkOciRootFS { of_Type : string; of_DiffIDs : option (list string) }.
Record ociHistory := mkOciHistory { oh_Created : option gotime; oh_CreatedBy : string; oh_Comment : string; oh_EmptyLayer : bool }.
Record ociConfig := mkOciConfig { oc_Env : list string; oc_Entrypoint : list string; oc_Cmd : list string; oc_WorkingDir : string; oc_Labels : gmap string string }.
Record ociImageConfig := mkOciImageConfig {
  oi_Architecture : string;
  oi_OS : string;
  oi_Created : option gotime;
  oi_RootFS : ociRootFS;
  oi_History : list ociHistory;
  oi_Config : option ociConfig;
}.

(** [json.MarshalIndent(x, "", "  ")], [json.Marshal] and [json.Unmarshal] *)
Class ImageJSON := {
  json_config : ociImageConfig → result (list byte);
  json_manifest : ociManifest → result (list byte);
  json_index : ociIndex → result (list byte);
  json_descriptor : BlobDescriptor → result string;
  parse_config : list byte → result ociImageConfig;
}.

Definition slice_of {A} (l : list A) : option (list A) := match l with [] => None | _ => Some l end.

Definition toOCIDescriptor (d : BlobDescriptor) : ociDescriptor :=
  mkOciDescriptor (bd_MediaType d) (digest_String (bd_Digest d)) (bd_Size d) (bd_Annotations d) None.

Definition defaultImageConfig : ociImageConfig := mkOciImageConfig "amd64" "linux" None (mkOciRootFS "layers" None) [] None.

(** The loop of [splitMax], with [start] and the parts before it *)
Fixpoint split_max (sep : ascii) (n : nat) (s part : string) : list string :=
  match n, s with
  | S (S n'), String a s => if decide (a = sep) then part :: split_max sep (S n') s EmptyString else split_max sep n s (part +:+ char_str a)
  | _, _ => [part +:+ s]
  end.
Definition splitMax (s : string) (sep : ascii) (n : nat) : list string := split_max sep n s EmptyString.

Definition parsePlatformString (s : string) : ociPlatform :=
  match splitMax s "/" 3 with
  | os :: arch :: variant :: _ => mkOciPlatform os arch variant EmptyString
  | [os; arch] => mkOciPlatform os arch EmptyString EmptyString
  | [os] => mkOciPlatform os EmptyString EmptyString EmptyString
  | [] => mkOciPlatform EmptyString EmptyString EmptyString EmptyString
  end.

Definition clamp_time (epoch : gotime) (t : option gotime) : option gotime :=
  match t with Some t => if t_After t epoch then Some epoch else Some t | None => Some epoch end.

Definition clamp_config (epoch : gotime) (c : ociImageConfig) : ociImageConfig :=
  mkOciImageConfig (oi_Architecture c) (oi_OS c) (clamp_time epoch (oi_Created c)) (oi_RootFS c)
    ((λ h, mkOciHistory (clamp_time epoch (oh_Created h)) (oh_CreatedBy h) (oh_Comment h) (oh_EmptyLayer h)) <$> oi_History c) (oi_Config c).

Definition set_rootfs (r : ociRootFS) (c : ociImageConfig) : ociImageConfig :=
  mkOciImageConfig (oi_Architecture c) (oi_OS c) (oi_Created c) r (oi_History c) (oi_Config c).

Definition blob_desc (data : list byte) (mediaType : string) (annotations : gmap string string) : BlobDescriptor :=
  mkBlobDescriptor (NewDigest data) (length data) mediaType annotations.

Section writer.
Context {S : Type} `{ImageJSON} (store : ContentStore S).

(** The writer of an instance has a store: [Export] checks it. *)
Definition writeBlob (data : list byte) (desc : BlobDescriptor) : io S unit :=
  let! r := io_try (cs_Has store (bd_Digest desc)) in
  match r with
  | Ok true => io_ret tt
  | _ =>
      let! written := cs_WriteBlob store data (bd_MediaType desc) in
      if decide (digest_String written = digest_String (bd_Digest desc)) then io_ret tt
      else io_throw (EText ["content store digest mismatch: wrote"; digest_String written; "expected"; digest_String (bd_Digest desc)])
  end.

Fixpoint commitLayers (idx : nat) (layers : list Layer) : result (list BlobDescriptor) :=
  match layers with
  | [] => Ok []
  | layer :: layers =>
      if IsZero (bd_Digest (ly_Descriptor layer)) then Err (EText ["layer"; strconv_Itoa (Z.of_nat idx); "descriptor has zero digest"])
      else match commitLayers (Datatypes.S idx) layers with Ok descs => Ok (ly_Descriptor layer :: descs) | Err e => Err e end
  end.

(** The config that [commitConfig] writes *)
Definition image_config (rawConfig : list byte) (layers : list BlobDescriptor) (epoch : option gotime) : result ociImageConfig :=
  match (if decide (rawConfig ≠ []) then parse_config rawConfig else Ok defaultImageConfig) with
  | Err e => Err (EWrap ["unmarshal image config"] e)
  | Ok c =>
      let c := set_rootfs (mkOciRootFS "layers" (slice_of ((λ l, digest_String (bd_Digest l)) <$> layers))) c in
      Ok (match epoch with Some t => clamp_config t c | None => c end)
  end.

Definition config_mediaType (cfg : Config) : string :=
  if cf_OCITypes cfg then MediaTypeOCIImageConfig else "application/vnd.docker.container.image.v1+json".

Definition commitConfig (rawConfig : list byte) (layers : list BlobDescriptor) (epoch : option gotime) (cfg : Config) : io S BlobDescriptor :=
  let! c := io_of (image_config rawConfig layers epoch) in
  let! configBytes := io_wrap (EWrap ["marshal image config"]) (io_of (json_config c)) in
  let desc := blob_desc configBytes (config_mediaType cfg) ∅ in
  let! _ := io_wrap (EWrap ["write config blob"]) (writeBlob configBytes desc) in
  io_ret desc.

Definition manifest_mediaType (cfg : Config) : string := if cf_OCITypes cfg then MediaTypeOCIImageManifest else MediaTypeDockerManifest.

Definition image_manifest (config : BlobDescriptor) (layers : list BlobDescriptor) (annotations : gmap string string) (cfg : Config) : ociManifest :=
  mkOciManifest 2 (manifest_mediaType cfg) (toOCIDescriptor config) (slice_of (toOCIDescriptor <$> layers)) annotations.

Definition commitManifest (config : BlobDescriptor) (layers : list BlobDescriptor) (annotations : gmap string string) (cfg : Config) : io S BlobDescriptor :=
  let! data := io_wrap (EWrap ["marshal manifest"]) (io_of (json_manifest (image_manifest config layers annotations cfg))) in
  let desc := blob_desc data (manifest_mediaType cfg) annotations in
  let! _ := io_wrap (EWrap ["write manifest blob"]) (writeBlob data desc) in
  io_ret desc.

Definition index_entry (m : BlobDescriptor) : ociDescriptor :=
  let d := toOCIDescriptor m in
  match bd_Annotations m !! "platform" with
  | Some p => mkOciDescriptor (od_MediaType d) (od_Digest d) (od_Size d) (od_Annotations d) (Some (parsePlatformString p))
  | None => d
  end.

Definition index_mediaType (cfg : Config) : string := if cf_OCITypes cfg then MediaTypeOCIImageIndex else MediaTypeDockerManifestList.

Definition image_index (manifests : list BlobDescriptor) (annotations : gmap string string) (cfg : Config) : ociIndex :=
  mkOciIndex 2 (index_mediaType cfg) (slice_of (index_entry <$> manifests)) annotations.

Definition commitIndex (manifests : list BlobDescriptor) (annotations : gmap string string) (cfg : Config) : io S BlobDescriptor :=
  let! data := io_wrap (EWrap ["marshal index"]) (io_of (json_index (image_index manifests annotations cfg))) in
  let desc := blob_desc data (index_mediaType cfg) ∅ in
  let! _ := io_wrap (EWrap ["write index blob"]) (writeBlob data desc) in
  io_ret desc.

Definition attestation_desc (att : AttestationRecord) : BlobDescriptor :=
  blob_desc (at_Payload att) MediaTypeInTotoStatement {[ "in-toto.io/predicate-type" := at_PredicateType att ]}.

Fixpoint write_attestations (attestations : list AttestationRecord) : io S (list ociDescriptor) :=
  match attestations with
  | [] => io_ret []
  | att :: attestations =>
      let! _ := writeBlob (at_Payload att) (attestation_desc att) in
      let! layers := write_attestations attestations in
      io_ret (toOCIDescriptor (attestation_desc att) :: layers)
  end.

Definition commitAttestationManifest (subject : BlobDescriptor) (attestations : list AttestationRecord) (cfg : Config) : io S BlobDescriptor :=
  let! layers := write_attestations attestations in
  let emptyCfgData := str_bytes "{}" in
  let emptyCfgDesc := blob_desc emptyCfgData MediaTypeOCIImageConfig ∅ in
  let! _ := writeBlob emptyCfgData emptyCfgDesc in
  let mfst := mkOciManifest 2 (manifest_mediaType cfg) (toOCIDescriptor emptyCfgDesc) (Some layers)
                {[ "vnd.docker.reference.type" := "attestation-manifest"; "vnd.docker.reference.digest" := digest_String (bd_Digest subject) ]} in
  let! data := io_wrap (EWrap ["marshal attestation manifest"]) (io_of (json_manifest mfst)) in
  let desc := blob_desc data (manifest_mediaType cfg) ∅ in
  let! _ := writeBlob data desc in
  io_ret desc.
End writer.

(** ** [instance.go] *)

Definition splitNames (s : string) : list string :=
  if decide (s = EmptyString) then [] else filter (λ p, p ≠ EmptyString) (trim_space <$> str_split "," s).

Definition mergeAnnotations (base override : gmap string string) : gmap string string := override ∪ base.

Definition filterExternalAttestations (atts : list AttestationRecord) (forceInline : bool) : list AttestationRecord :=
  if forceInline then [] else filter (λ a, at_InlineOnly a = false) atts.

(** [platformSlice], for an index of a platform *)
Definition platformSlice (a : Artifact) (platform : Platform) : Artifact := set_platforms [platform] a.

(** [reporter.Start(id, label)], a call, and [reporter.Complete(id, err)] *)
Definition reported {S A} (rp : Reporter S) (id label : string) (m : io S A) : io S A := λ s,
  let '(r, s) := m (rp_Start rp id label s) in (r, rp_Complete rp id (match r with Ok _ => None | Err e => Some e end) s).

(** The value of a panic at a nil artifact or reporter, which [Validate] keeps out *)
Definition nil_dereference : error := ESentinel "invalid memory address or nil pointer dereference".

Section instance.
Context {S : Type} `{ImageJSON}.

(** The interfaces [Pusher] and [ImageStorer] *)
Definition Pusher : Type := string → Digest → option (ContentStore S) → io S unit.
Record ImageStorer := mkImageStorer { st_Store : string → BlobDescriptor → io S unit; st_Unpack : string → io S unit }.

Record instance := mkInstance {
  in_cfg : Config;
  in_store : option (ContentStore S);
  in_pusher : option Pusher;
  in_storer : option ImageStorer;
}.

Definition exportManifest (store : ContentStore S) (cfg : Config) (req : ExportRequest S) (a : Artifact) (reporter : Reporter S) : io S BlobDescriptor :=
  let! layerDescs := reported reporter "layers" "exporting layers" (io_of (commitLayers 0 (ar_Layers a))) in
  let! configDesc := reported reporter "config" "exporting config" (commitConfig store (ar_Config a) layerDescs (rq_Epoch req) cfg) in
  let annotations := mergeAnnotations (ar_Annotations a) (rq_Annotations req) in
  let! mfstDesc := reported reporter "manifest" "exporting manifest" (commitManifest store configDesc layerDescs annotations cfg) in
  let extAtts := filterExternalAttestations (ar_Attestations a) (cf_ForceInlineAttestations cfg) in
  if decide (extAtts = []) then io_ret mfstDesc
  else
    let! _ := reported reporter "attestations" "exporting attestation manifest" (commitAttestationManifest store mfstDesc extAtts cfg) in
    io_ret mfstDesc.

(** The descriptor with the platform among its annotations, which are not nil *)
Definition tag_platform (platform : Platform) (d : BlobDescriptor) : BlobDescriptor :=
  mkBlobDescriptor (bd_Digest d) (bd_Size d) (bd_MediaType d) (<["platform" := platform_String platform]> (bd_Annotations d)).

Fixpoint export_platforms (store : ContentStore S) (cfg : Config) (req : ExportRequest S) (a : Artifact) (reporter : Reporter S) (platforms : list Platform)
    : io S (list BlobDescriptor) :=
  match platforms with
  | [] => io_ret []
  | platform :: platforms =>
      let! mfstDesc := reported reporter ("manifest[" +:+ platform_String platform +:+ "]") ("exporting " +:+ platform_String platform)
                         (exportManifest store cfg req (platformSlice a platform) reporter) in
      let! manifests := export_platforms store cfg req a reporter platforms in
      io_ret (tag_platform platform mfstDesc :: manifests)
  end.

Definition exportIndex (store : ContentStore S) (cfg : Config) (req : ExportRequest S) (a : Artifact) (reporter : Reporter S) : io S BlobDescriptor :=
  let! manifests := export_platforms store cfg req a reporter (ar_Platforms a) in
  reported reporter "index" "exporting manifest index" (commitIndex store manifests (ar_Annotations a) cfg).

Fixpoint store_names (storer : ImageStorer) (names : list string) (rootDesc : BlobDescriptor) : io S unit :=
  match names with
  | [] => io_ret tt
  | name :: names => let! _ := st_Store storer name rootDesc in store_names storer names rootDesc
  end.

(** Naming and unpacking of the image *)
Definition store_image (storer : ImageStorer) (cfg : Config) (reporter : Reporter S) (imageName : string) (rootDesc : BlobDescriptor) : io S unit :=
  let! _ := io_do (rp_Start reporter "store" ("naming image " +:+ imageName)) in
  let! r := io_try (store_names storer (splitNames imageName) rootDesc) in
  match r with
  | Err e => let! _ := io_do (rp_Complete reporter "store" (Some e)) in io_throw (EWrap ["store image"] e)
  | Ok _ =>
      let! r := io_try (if cf_Unpack cfg then st_Unpack storer imageName else io_ret tt) in
      let! _ := io_do (rp_Complete reporter "store" (match r with Ok _ => None | Err e => Some e end)) in
      match r with Err e => io_throw (EWrap ["unpack image"] e) | Ok _ => io_ret tt end
  end.

(** The function that [Export] returns to push *)
Fixpoint finalize (pusher : Pusher) (store : option (ContentStore S)) (reporter : Reporter S) (rootDesc : BlobDescriptor) (names : list string) : FinalizeFunc S :=
  match names with
  | [] => io_ret tt
  | name :: names =>
      let ref := if decide (name = EmptyString) then digest_String (bd_Digest rootDesc) else name in
      let! _ := io_wrap (EWrap ["push"; ref]) (reported reporter ("push:" +:+ name) ("pushing " +:+ ref) (pusher ref (bd_Digest rootDesc) store)) in
      finalize pusher store reporter rootDesc names
  end.

Definition export_result (rootDesc : BlobDescriptor) (imageName : string) : ExportResult :=
  let r := result_Set ResultKeyImageDigest (digest_String (bd_Digest rootDesc))
             (mkExportResult (Some rootDesc) (bd_Digest rootDesc) imageName (mkDigest EmptyString EmptyString) ∅) in
  let r := if decide (imageName ≠ EmptyString) then result_Set ResultKeyImageName imageName r else r in
  match json_descriptor rootDesc with Ok d => result_Set ResultKeyDescriptor d r | Err _ => r end.

Definition image_name (i : instance) (req : ExportRequest S) : string :=
  if decide (rq_ImageName req = EmptyString) then cf_ImageName (in_cfg i) else rq_ImageName req.

Definition export_root (i : instance) (store : ContentStore S) (req : ExportRequest S) (a : Artifact) (reporter : Reporter S) : io S BlobDescriptor :=
  if decide (1 < length (ar_Platforms a)) then exportIndex store (in_cfg i) req a reporter else exportManifest store (in_cfg i) req a reporter.

(** What [Export] does between the report of its start and the deferred one of its end *)
Definition export_body (i : instance) (store : ContentStore S) (req : ExportRequest S) (a : Artifact) (reporter : Reporter S)
    : io S (ExportResult * option (FinalizeFunc S)) :=
  let cfg := in_cfg i in
  let imageName := image_name i req in
  let! rootDesc := io_wrap (EWrap ["containerimage export"]) (export_root i store req a reporter) in
  let result := export_result rootDesc imageName in
  let! _ := match in_storer i with
            | Some storer => if decide (cf_Store cfg = true ∧ imageName ≠ EmptyString) then store_image storer cfg reporter imageName rootDesc else io_ret tt
            | None => io_ret tt
            end in
  if negb (rq_Push req) && negb (cf_Push cfg) then io_ret (result, None)
  else match in_pusher i with
       | None => io_throw (EText ["push requested but no Pusher configured"])
       | Some pusher =>
           let names := splitNames imageName ++ (if rq_PushByDigest req || cf_PushByDigest cfg then [EmptyString] else []) in
           io_ret (result, Some (finalize pusher (in_store i) reporter rootDesc names))
       end.

Definition Export (i : instance) : ExporterInstance S := λ req,
  match in_store i, rq_Artifact req, rq_Reporter req with
  | None, _, _ => io_throw (EText ["containerimage: ContentStore dependency not injected"])
  | Some store, Some a, Some reporter => λ s,
      let '(r, s) := export_body i store req a reporter (rp_Start reporter "export" "exporting container image" s) in
      (r, rp_Complete reporter "export" None s)
  | _, _, _ => io_throw nil_dereference
  end.

(** ** The exporter *)

Record ContainerImageExporter := mkImageExporter { ie_store : option (ContentStore S); ie_pusher : option Pusher; ie_storer : option ImageStorer }.

Definition ExporterOption : Type := ContainerImageExporter → ContainerImageExporter.
Definition WithContentStore (s : option (ContentStore S)) : ExporterOption := λ e, mkImageExporter s (ie_pusher e) (ie_storer e).
Definition WithPusher (p : option Pusher) : ExporterOption := λ e, mkImageExporter (ie_store e) p (ie_storer e).
Definition WithImageStorer (s : option ImageStorer) : ExporterOption := λ e, mkImageExporter (ie_store e) (ie_pusher e) s.
Definition New (options : list ExporterOption) : ContainerImageExporter := foldl (λ e o, o e) (mkImageExporter None None None) options.

Definition image_Resolve `{GoRange} (e : ContainerImageExporter) (opts : Options) : io S (ExporterInstance S) :=
  match ParseConfig opts with
  | Err err => io_throw (EWrap ["containerimage exporter"] err)
  | Ok (cfg, unknown) =>
      match map_range unknown with
      | (k, _) :: _ => io_throw (NewOptionError k (opts_Get opts k) "unknown option for containerimage exporter")
      | [] => io_ret (Export (mkInstance cfg (ie_store e) (ie_pusher e) (ie_storer e)))
      end
  end.

Definition image_exporter `{GoRange} (e : ContainerImageExporter) : Exporter S := mkExporter "containerimage" (image_Resolve e).
End instance.
Arguments Pusher S : clear implicits.
Arguments ImageStorer S : clear implicits.
Arguments instance S : clear implicits.
Arguments ContainerImageExporter S : clear implicits.
