(* ===== verification/ExLaws.v ===== *)
(** * ExLaws: what the registry, the pipeline and the transformers do

    The types of a registry are sorted; transformers run by priority, whatever the order in which
    they were added; the epoch makes builds reproducible; annotations and attestations. *)
From S2P Require Import Prelude GoStd GoNum Sha256 ExTypes ExTransform.

(** ** The registry *)

Lemma sift_spec key pre y rest : ∃ l1 l2,
  pre = l1 ++ l2 ∧ sift (pre ++ y :: rest) key (length pre) = Some (l1 ++ key :: l2 ++ rest)
  ∧ (∀ x, last l1 = Some x → String.le x key) ∧ Forall (λ x, ¬ String.le x key) l2.
Proof.
  revert y rest. induction pre as [|x pre IH] using rev_ind; intros y rest.
  - exists [], []. split_and!; [done | cbn [sift app length] | done | constructor]. by rewrite decide_True by lia.
  - rewrite length_app, Nat.add_comm. cbn [length Nat.add sift]. rewrite <-app_assoc. cbn [app].
    rewrite list_lookup_middle by done. rewrite decide_True by (rewrite length_app; simpl; lia).
    case_decide as Hx.
    + exists (pre ++ [x]), []. rewrite app_nil_r. split_and!; [done | | by intros ? Hl; rewrite last_snoc in Hl; injection Hl as <- | constructor].
      f_equal. replace (S (length pre)) with (length (pre ++ [x])) by (rewrite length_app; simpl; lia).
      change (pre ++ x :: y :: rest) with (pre ++ [x] ++ y :: rest). by rewrite app_assoc, insert_middle.
    + replace (S (length pre)) with (length (pre ++ [x])) by (rewrite length_app; simpl; lia).
      change (pre ++ x :: y :: rest) with (pre ++ [x] ++ y :: rest). rewrite app_assoc, insert_middle, <-app_assoc. cbn [app].
      destruct (IH x (x :: rest)) as (l1 & l2 & -> & Hs & Hl & Hf). exists l1, (l2 ++ [x]).
      split_and!; [by rewrite app_assoc | rewrite Hs, <-app_assoc; done | done | by apply Forall_app; split; [| constructor]].
Qed.

Lemma sorted_insert (l1 l2 : list string) key : StronglySorted String.le (l1 ++ l2) →
  (∀ x, last l1 = Some x → String.le x key) → Forall (λ x, ¬ String.le x key) l2 → StronglySorted String.le (l1 ++ key :: l2).
Proof.
  intros Hs Hl Hf. assert (∀ x, x ∈ l1 → String.le x key) as H1.
  { destruct l1 as [|z l1 _] using rev_ind; [set_solver |]. rewrite <-app_assoc in Hs. specialize (Hl z ltac:(by rewrite last_snoc)).
    intros x [Hx|Hx%list_elem_of_singleton]%elem_of_app; [| by subst]. trans z; [| done]. eapply StronglySorted_app; [exact Hs | done | set_solver]. }
  apply StronglySorted_app in Hs as (Hc & Hs1 & Hs2). apply StronglySorted_app. split_and!; [| done | constructor; [done |]].
  - intros x y Hx [->|Hy]%elem_of_cons; [by apply H1 | by apply Hc].
  - eapply Forall_impl; [exact Hf |]. intros x Hx. destruct (total String.le key x); done.
Qed.

Lemma sort_loop_spec rest pre : StronglySorted String.le pre →
  ∃ ts, sort_loop (length rest) (length pre) (pre ++ rest) = Some ts ∧ ts ≡ₚ pre ++ rest ∧ StronglySorted String.le ts.
Proof.
  revert pre. induction rest as [|key rest IH]; intros pre Hs; cbn [length sort_loop].
  - exists pre. by rewrite app_nil_r.
  - rewrite list_lookup_middle by done.
    destruct (sift_spec key pre key rest) as (l1 & l2 & -> & -> & Hl & Hf).
    destruct (IH (l1 ++ key :: l2)) as (ts & E & Hp & Ht); [by apply sorted_insert |].
    exists ts. rewrite <-app_assoc in E. cbn [app] in E. split_and!; [| | done].
    + rewrite <-E. f_equal. rewrite !length_app. simpl. lia.
    + rewrite Hp. solve_Permutation.
Qed.

(** [Types] lists the types of a registry once each, in order, whatever the order of the map,
    and its insertion sort stays inside the slice. *)
Theorem Types_sorted {S} (R : GoRange) (r : registry S) :
  Types r = Some (sort_strings (map_to_list (reg_exporters r)).*1).
Proof.
  unfold Types, sortExporterTypes. destruct (map_range (reg_exporters r)).*1 as [|t ts] eqn:E.
  - simpl. f_equal. assert ((map_to_list (reg_exporters r)).*1 ≡ₚ []) as Hp by (rewrite <-E, map_range_perm; done).
    symmetry in Hp. by apply Permutation_nil in Hp as ->.
  - destruct (sort_loop_spec ts [t]) as (l & Hl & Hp & Hs); [by repeat constructor |].
    replace (length (t :: ts) - 1) with (length ts) by (simpl; lia). cbn [length app] in Hl. rewrite Hl. f_equal.
    apply (StronglySorted_unique String.le); [done | apply sort_strings_sorted |]. rewrite sort_strings_perm, Hp. cbn [app]. by rewrite <-E, map_range_perm.
Qed.

(** ** The order of transformers *)

Section stable.
Context {A : Type} (key : A → Z).
Notation sorted := (StronglySorted (λ x y, (key x ≤ key y)%Z)).

(** What elements with one key see of a sort *)
Definition same_ranks (l1 l2 : list A) : Prop := ∀ k, filter (λ x, key x = k) l1 = filter (λ x, key x = k) l2.

Lemma stable_insert_spec x l : sorted l → sorted (stable_insert key x l) ∧ same_ranks (stable_insert key x l) (x :: l).
Proof.
  intros Hs. induction Hs as [|y l Hs IH Hy]; simpl; [split; [by repeat constructor | done] |]. case_decide as Hxy.
  - split; [| done]. constructor; [by constructor |]. constructor; [done |]. eapply Forall_impl; [exact Hy |]. simpl. lia.
  - destruct IH as [IH1 IH2]. split.
    + constructor; [done |]. apply Forall_forall. intros z Hz.
      assert (z ∈ filter (λ w, key w = key z) (x :: l)) as Hz' by (rewrite <-IH2; by apply list_elem_of_filter).
      apply list_elem_of_filter in Hz' as [_ [->|Hz']%elem_of_cons]; [lia |]. rewrite Forall_forall in Hy. by apply Hy.
    + intros k. specialize (IH2 k). rewrite filter_cons in IH2. rewrite !filter_cons, IH2. repeat case_decide; try done. lia.
Qed.

Lemma sort_stable_spec l : sorted (sort_stable key l) ∧ same_ranks (sort_stable key l) l.
Proof.
  induction l as [|x l [IH1 IH2]]; [split; [constructor | done] |]. cbn [sort_stable foldr].
  destruct (stable_insert_spec x (sort_stable key l) IH1) as [H1 H2]. split; [done |].
  intros k. rewrite H2, !filter_cons, (IH2 k). done.
Qed.

Lemma same_ranks_elem l1 l2 x : same_ranks l1 l2 → x ∈ l1 → x ∈ l2.
Proof. intros Hr Hx. assert (x ∈ filter (λ y, key y = key x) l2) as H by (rewrite <-Hr; by apply list_elem_of_filter). by apply list_elem_of_filter in H as [_ ?]. Qed.

(** There is one sorted list with given ranks. *)
Lemma same_ranks_unique l1 l2 : sorted l1 → sorted l2 → same_ranks l1 l2 → l1 = l2.
Proof.
  intros H1. revert l2. induction H1 as [|x l1 H1 IH Hx]; intros l2 H2 Hr.
  - destruct l2 as [|y l2]; [done |]. specialize (Hr (key y)). rewrite filter_cons, decide_True in Hr by done. done.
  - destruct H2 as [|y l2 H2 Hy]; [specialize (Hr (key x)); by rewrite filter_cons, decide_True in Hr by done |].
    assert (key x = key y) as E.
    { rewrite Forall_forall in Hx, Hy. assert (x ∈ y :: l2) as [->|Hxin]%elem_of_cons by (by eapply same_ranks_elem; [exact Hr | left]); [done |].
      assert (y ∈ x :: l1) as [->|Hyin]%elem_of_cons by (eapply same_ranks_elem; [intros k; symmetry; apply Hr | left]); [done |].
      specialize (Hx y Hyin). specialize (Hy x Hxin). simpl in *. lia. }
    pose proof (Hr (key x)) as Hk. rewrite !filter_cons, (decide_True _ _ eq_refl), decide_True in Hk by done. injection Hk as -> _.
    f_equal. apply IH; [done |]. intros k. specialize (Hr k). rewrite !filter_cons in Hr. by destruct (decide (key y = k)); [injection Hr |].
Qed.

Lemma same_ranks_app l1 l2 m : same_ranks l1 l2 → same_ranks (l1 ++ m) (l2 ++ m).
Proof. intros Hr k. by rewrite !filter_app, (Hr k). Qed.
End stable.

Section pipeline.
Context {S : Type}.
Implicit Types (ts : list (Transformer S)) (p : pipeline S).
Notation by_priority := (StronglySorted (λ x y : Transformer S, (tf_Priority x ≤ tf_Priority y)%Z)).

Lemma add_transformers_order ts p p' : by_priority (pp_transformers p) → add_transformers (Some <$> ts) p = Ok p' →
  by_priority (pp_transformers p') ∧ same_ranks tf_Priority (pp_transformers p') (pp_transformers p ++ ts)
  ∧ pp_exporter p' = pp_exporter p ∧ pp_middlewares p' = pp_middlewares p.
Proof.
  revert p. induction ts as [|t ts IH]; intros p Hs; simpl; [by intros [= <-]; rewrite app_nil_r |].
  repeat case_decide; try done. intros Hp.
  destruct (sort_stable_spec tf_Priority (pp_transformers p ++ [t])) as [H1 H2].
  apply IH in Hp as (H3 & H4 & H5 & H6); [| done]. split_and!; [done | | done..].
  intros k. rewrite H4. cbn [pp_transformers]. rewrite (same_ranks_app _ _ _ ts H2 k). by rewrite <-app_assoc.
Qed.

Lemma add_transformers_accepts ts p :
  (NoDup (tf_Name <$> ts) ∧ EmptyString ∉ tf_Name <$> ts ∧ Forall (λ n, n ∉ pp_nameIndex p) (tf_Name <$> ts))
  ↔ ∃ p', add_transformers (Some <$> ts) p = Ok p'.
Proof.
  revert p. induction ts as [|t ts IH]; intros p; simpl.
  - split; [by exists p |]. intros _. split_and!; [constructor | set_solver | constructor].
  - rewrite NoDup_cons, not_elem_of_cons, Forall_cons. case_decide as He.
    { split; [naive_solver | by intros [p' ?]]. }
    case_decide as Hn; [split; [naive_solver | by intros [p' ?]] |]. rewrite <-IH. cbn [pp_nameIndex]. rewrite !Forall_forall. set_solver.
Qed.

(** Transformers run by priority.  A pipeline accepts transformers exactly when their names are
    distinct and not empty.  It keeps them by ascending priority, those of one priority in the
    order in which they were added; and when two pipelines are given their transformers in
    orders that agree within each priority, they execute every request in the same way. *)
Theorem pipeline_order (ts : list (Transformer S)) exp ms :
  (NoDup (tf_Name <$> ts) ∧ EmptyString ∉ tf_Name <$> ts ↔ ∃ p, add_transformers (Some <$> ts) (NewPipeline exp ms) = Ok p)
  ∧ ∀ p, add_transformers (Some <$> ts) (NewPipeline exp ms) = Ok p →
      by_priority (pp_transformers p)
      ∧ (∀ k, filter (λ t, tf_Priority t = k) (pp_transformers p) = filter (λ t, tf_Priority t = k) ts)
      ∧ ∀ ts' p', add_transformers (Some <$> ts') (NewPipeline exp ms) = Ok p' →
          (∀ k, filter (λ t, tf_Priority t = k) ts = filter (λ t, tf_Priority t = k) ts') → ∀ req s, Execute p req s = Execute p' req s.
Proof.
  split.
  - rewrite <-add_transformers_accepts. split; [| naive_solver]. intros [H1 H2]. split_and!; [done..|]. apply Forall_forall. set_solver.
  - intros p Hp. destruct (add_transformers_order ts (NewPipeline exp ms) p (SSorted_nil _) Hp) as (H1 & H2 & H3 & H4). split_and!; [done | done |].
    intros ts' p' Hp' Hr req s. destruct (add_transformers_order ts' (NewPipeline exp ms) p' (SSorted_nil _) Hp') as (H1' & H2' & H3' & H4').
    assert (pp_transformers p = pp_transformers p') as E.
    { apply (same_ranks_unique tf_Priority); [done..|]. intros k. rewrite H2, H2'. apply Hr. }
    unfold Execute, coreExport. by rewrite E, H3, H4, H3', H4'.
Qed.
End pipeline.

(** ** The epoch *)

Lemma i64_small n : (- 2 ^ 63 ≤ n < 2 ^ 63)%Z → i64 n = n.
Proof. intros Hn. unfold i64. rewrite Z.mod_small; lia. Qed.

Lemma i64_sub_add n k : (- 2 ^ 63 ≤ n < 2 ^ 63)%Z → i64 (i64 (n + k) - k) = n.
Proof.
  intros Hn. unfold i64 at 1. unfold i64.
  replace ((n + k + 2 ^ 63) mod 2 ^ 64 - 2 ^ 63 - k + 2 ^ 63)%Z with ((n + k + 2 ^ 63) mod 2 ^ 64 - k)%Z by lia.
  rewrite Zminus_mod_idemp_l. replace (n + k + 2 ^ 63 - k)%Z with (n + 2 ^ 63)%Z by lia. by apply i64_small.
Qed.

Lemma ParseInt_range s n : ParseInt s = Some n → (- 2 ^ 63 ≤ n < 2 ^ 63)%Z.
Proof. unfold ParseInt. repeat case_match; try done; intros [= <-]; done. Qed.

Lemma time_Unix_Unix secs : (- 2 ^ 63 ≤ secs < 2 ^ 63)%Z → t_Unix (time_Unix secs) = secs.
Proof. apply i64_sub_add. Qed.

Lemma t_After_irrefl t : t_After t t = false.
Proof. unfold t_After. rewrite !bool_decide_eq_false_2; [done | lia..]. Qed.

Lemma bytes_str_bytes s : bytes_str (str_bytes s) = s.
Proof. apply String.string_of_list_byte_of_string. Qed.

Lemma strconv_Itoa_nonempty n : (- 2 ^ 63 ≤ n < 2 ^ 63)%Z → str_bytes (strconv_Itoa n) ≠ [].
Proof. intros Hn E. apply ParseInt_Itoa in Hn. rewrite <-(bytes_str_bytes (strconv_Itoa n)), E in Hn. discriminate Hn. Qed.

(** Two times that the epoch makes one: equal, or both missing or after it *)
Definition late (epoch : gotime) (t : option gotime) : Prop := match t with None => True | Some t => t_After t epoch = true end.
Definition same_time (epoch : gotime) (t u : option gotime) : Prop := t = u ∨ late epoch t ∧ late epoch u.

Definition same_history (epoch : gotime) (h1 h2 : LayerHistory) : Prop :=
  same_time epoch (lh_CreatedAt h1) (lh_CreatedAt h2)
  ∧ lh_CreatedBy h1 = lh_CreatedBy h2 ∧ lh_Comment h1 = lh_Comment h2 ∧ lh_EmptyLayer h1 = lh_EmptyLayer h2.
Definition same_layer (epoch : gotime) (l1 l2 : Layer) : Prop :=
  ly_Descriptor l1 = ly_Descriptor l2 ∧ ly_DiffID l1 = ly_DiffID l2 ∧ option_Forall2 (same_history epoch) (ly_History l1) (ly_History l2).

(** The results of two builds of the same at different times *)
Definition rebuilt (epoch : gotime) (a1 a2 : Artifact) : Prop :=
  set_layers [] a1 = set_layers [] a2 ∧ Forall2 (same_layer epoch) (ar_Layers a1) (ar_Layers a2).

Lemma clamp_history_same epoch h1 h2 : same_history epoch h1 h2 → clamp_history epoch h1 = clamp_history epoch h2.
Proof.
  destruct h1 as [t1 b1 c1 e1], h2 as [t2 b2 c2 e2]. intros (Ht & [= ->] & [= ->] & [= ->]). unfold clamp_history. simpl in *.
  destruct Ht as [->|[H1 H2]]; [done |]. destruct t1, t2; simpl in *; by rewrite ?H1, ?H2.
Qed.

Lemma clamp_layers_same epoch ls1 ls2 : Forall2 (same_layer epoch) ls1 ls2 → clamp_layer epoch <$> ls1 = clamp_layer epoch <$> ls2.
Proof.
  induction 1 as [|l1 l2 ls1 ls2 (H1 & H2 & H3) _ IH]; [done |]. rewrite !fmap_cons, IH. f_equal. unfold clamp_layer. rewrite H1, H2. f_equal.
  destruct H3 as [h1 h2 Hh|]; [| done]. simpl. f_equal. by apply clamp_history_same.
Qed.

Lemma clamp_history_clamped epoch h : ∃ t, lh_CreatedAt (clamp_history epoch h) = Some t ∧ t_After t epoch = false.
Proof. unfold clamp_history. destruct h as [[t|] b c e]; simpl; [destruct (t_After t epoch) eqn:E |]; eexists; (split; [done |]); by rewrite ?t_After_irrefl. Qed.

Lemma clamp_history_idem epoch h : clamp_history epoch (clamp_history epoch h) = clamp_history epoch h.
Proof. destruct (clamp_history_clamped epoch h) as (t & E & Ht). unfold clamp_history at 1. by rewrite E, Ht. Qed.

Lemma clamp_layer_idem epoch l : clamp_layer epoch (clamp_layer epoch l) = clamp_layer epoch l.
Proof. destruct l as [d i [h|]]; [| done]. unfold clamp_layer. simpl. by rewrite clamp_history_idem. Qed.

Lemma resolveEpoch_applied a epoch : resolveEpoch a = Ok (Some epoch) → resolveEpoch (apply_epoch epoch a) = Ok (Some epoch).
Proof.
  unfold resolveEpoch at 1. destruct (_ !! _) as [raw|]; [| done]. case_decide; [done |]. destruct (ParseInt _) as [secs|] eqn:Hs; [| done].
  intros [= <-]. apply ParseInt_range in Hs. unfold resolveEpoch, apply_epoch. cbn [ar_Metadata set_metadata].
  rewrite lookup_insert_eq, time_Unix_Unix by done. rewrite decide_False by (by apply strconv_Itoa_nonempty).
  by rewrite bytes_str_bytes, ParseInt_Itoa.
Qed.

Lemma apply_epoch_idem a epoch : apply_epoch epoch (apply_epoch epoch a) = apply_epoch epoch a.
Proof.
  unfold apply_epoch, set_metadata, set_layers. simpl. f_equal.
  - rewrite <-list_fmap_compose. apply list_fmap_ext. intros i l _. apply (clamp_layer_idem epoch l).
  - apply map_eq. intros k. rewrite !lookup_insert. repeat case_decide; done.
Qed.

(** The epoch makes builds reproducible.  When the metadata name an epoch, two artifacts that
    differ only in times which are missing or after it are transformed into the same artifact,
    whatever the clock shows; no layer of it is younger than the epoch, and transforming it
    again does not change it. *)
Theorem epoch_reproducible {S} `{Clock S} fallbackToNow a1 a2 epoch (s1 s2 : S) :
  resolveEpoch a1 = Ok (Some epoch) → rebuilt epoch a1 a2 →
  ∃ a, epoch_Transform fallbackToNow a1 s1 = (Ok (Some a), s1) ∧ epoch_Transform fallbackToNow a2 s2 = (Ok (Some a), s2)
  ∧ (∀ l h, l ∈ ar_Layers a → ly_History l = Some h → ∃ t, lh_CreatedAt h = Some t ∧ t_After t epoch = false)
  ∧ ∀ s : S, epoch_Transform fallbackToNow a s = (Ok (Some a), s).
Proof.
  intros He [Hrest Hlayers]. exists (apply_epoch epoch a1).
  assert (resolveEpoch a2 = Ok (Some epoch)) as He2.
  { rewrite <-He. unfold resolveEpoch. apply (f_equal ar_Metadata) in Hrest. simpl in Hrest. by rewrite Hrest. }
  assert (apply_epoch epoch a1 = apply_epoch epoch a2) as E.
  { unfold apply_epoch. rewrite (clamp_layers_same _ _ _ Hlayers). destruct a1, a2. unfold set_layers, set_metadata in *. simpl in *. congruence. }
  unfold epoch_Transform, io_bind, io_of. split_and!.
  - by rewrite He.
  - by rewrite He2, E.
  - intros l h Hl Hh. cbn in Hl. apply list_elem_of_fmap in Hl as (l0 & -> & _). destruct l0 as [d i [h0|]]; [| done]. injection Hh as <-. apply clamp_history_clamped.
  - intros s. by rewrite (resolveEpoch_applied a1 epoch He), apply_epoch_idem.
Qed.

(** ** Annotations *)

(** What a strategy makes of incoming and existing annotations *)
Definition merged (st : MergeStrategy) (incoming existing : gmap string string) : gmap string string :=
  match st with MergeStrategyOverwrite => incoming ∪ existing | _ => existing ∪ incoming end.

Lemma merged_insert st (inc m : gmap string string) k v : inc !! k = None → m !! k = None ∨ st = MergeStrategyOverwrite →
  merged st inc (<[k := v]> m) = merged st (<[k := v]> inc) m.
Proof.
  intros Hi Hm. apply map_eq. intros i. destruct st; unfold merged; rewrite !lookup_union, !lookup_insert; case_decide as E; try done; subst i; rewrite Hi;
    (destruct Hm as [Hm|Hm]; [rewrite ?Hm; done | try done]). by destruct (m !! k).
Qed.

Lemma merged_keep (inc m : gmap string string) k v w : m !! k = Some w → merged MergeStrategyPreserve inc m = merged MergeStrategyPreserve (<[k := v]> inc) m.
Proof. intros Hm. apply map_eq. intros i. unfold merged. rewrite !lookup_union, lookup_insert. case_decide as E; [subst i; rewrite Hm; by destruct (inc !! k) | done]. Qed.

Definition collides (st : MergeStrategy) (keys : list string) (m : gmap string string) : Prop :=
  st = MergeStrategyError ∧ ∃ k, k ∈ keys ∧ is_Some (m !! k).

Lemma collides_cons st k ks m : collides st (k :: ks) m ↔ st = MergeStrategyError ∧ is_Some (m !! k) ∨ collides st ks m.
Proof. unfold collides. setoid_rewrite elem_of_cons. naive_solver. Qed.

Lemma collides_insert st k v ks m : k ∉ ks → collides st ks (<[k := v]> m) ↔ collides st ks m.
Proof. intros Hk. unfold collides. apply and_iff_compat_l. split; intros (i & Hi & Hs); exists i; rewrite lookup_insert_ne in * by (by intros <-); done. Qed.

Lemma merge_loop_spec st l m : NoDup l.*1 →
  collides st l.*1 m ∧ (∃ e, merge_loop st l m = Err e) ∨ ¬ collides st l.*1 m ∧ merge_loop st l m = Ok (merged st (list_to_map l) m).
Proof.
  revert m. induction l as [|[k v] l IH]; intros m.
  { right. split; [by intros (_ & k & Hk%elem_of_nil & _) |]. simpl. f_equal. destruct st; simpl; by rewrite ?(left_id_L ∅ (∪)), ?(right_id_L ∅ (∪)). }
  rewrite fmap_cons, NoDup_cons. cbn [fst]. intros [Hk Hnd]. rewrite collides_cons. cbn [merge_loop list_to_map foldr fst snd].
  assert ((list_to_map l : gmap string string) !! k = None) as Hlk by (by apply not_elem_of_list_to_map).
  destruct (m !! k) as [w|] eqn:Em; [destruct st |].
  - destruct (IH (<[k := v]> m) Hnd) as [[[? _] _]|[_ ->]]; [done |]. right. split; [by intros [[? _]|[? _]] |]. f_equal. apply merged_insert; auto.
  - destruct (IH m Hnd) as [[[? _] _]|[_ ->]]; [done |]. right. split; [by intros [[? _]|[? _]] |]. f_equal. by eapply merged_keep.
  - left. split; [left; split; [done | by eexists] | by eexists].
  - destruct (IH (<[k := v]> m) Hnd) as [[Hc He]|[Hc ->]]; rewrite collides_insert in Hc by done.
    + left. split; [by right | by destruct st].
    + right. split; [intros [[_ []]|]; done |]. transitivity (Ok (merged st (list_to_map l) (<[k := v]> m))); [by destruct st |]. f_equal. apply merged_insert; auto.
Qed.

(** What the filter leaves of a map *)
Definition allowed_only (o : AnnotationTransformerOptions) (m : gmap string string) : gmap string string :=
  filter (λ kv, ao_AllowedPrefixes o = [] ∨ allowed o kv.1 = true) m.

Lemma filter_incoming_spec `{GoRange} o m : filter_incoming o m = allowed_only o m.
Proof.
  unfold filter_incoming, allowed_only. apply map_eq. intros k. apply option_eq. intros v. rewrite map_lookup_filter_Some. case_decide as Hp; [naive_solver |].
  rewrite <-elem_of_list_to_map.
  - rewrite list_elem_of_filter, elem_of_map_range. naive_solver.
  - eapply (sublist_NoDup _ (map_range m).*1); [apply map_range_NoDup_keys | apply fmap_sublist, sublist_filter].
Qed.

(** The annotations that a transformer injects merge with the ones of the artifact by the strategy,
    independently of the order of the maps; under the strict strategy a key of both is an error. *)
Lemma annotation_Transform_spec {S} `{Clock S, GoRange} fmt o a (s : S) :
  let inc := allowed_only o (buildIncoming fmt o a s) in
  collides (ao_Strategy o) (map_range inc).*1 (ar_Annotations a) ∧ (∃ e, annotation_Transform fmt o a s = (Err e, s))
  ∨ ¬ collides (ao_Strategy o) (map_range inc).*1 (ar_Annotations a)
    ∧ annotation_Transform fmt o a s = (Ok (Some (set_annotations (merged (ao_Strategy o) inc (ar_Annotations a)) a)), s).
Proof.
  intros inc. assert (inc = ∅ → merged (ao_Strategy o) inc (ar_Annotations a) = ar_Annotations a) as Hnone.
  { intros ->. destruct (ao_Strategy o); simpl; by rewrite ?(left_id_L ∅ (∪)), ?(right_id_L ∅ (∪)). }
  assert (inc = ∅ → ¬ collides (ao_Strategy o) (map_range inc).*1 (ar_Annotations a)) as Hno.
  { intros -> (_ & k & Hk & _). apply list_elem_of_fmap in Hk as ([? ?] & _ & Hk). apply elem_of_map_range in Hk. by rewrite lookup_empty in Hk. }
  assert (∀ a', set_annotations (ar_Annotations a') a' = a') as Hset by (by intros []).
  unfold annotation_Transform. case_decide as E1.
  { assert (inc = ∅) as Hi by (unfold inc; rewrite E1; apply map_filter_empty). right. split; [by apply Hno |]. by rewrite Hnone, Hset. }
  rewrite filter_incoming_spec. change (allowed_only o (buildIncoming fmt o a s)) with inc. case_decide as E2.
  { right. split; [by apply Hno |]. by rewrite Hnone, Hset. }
  destruct (merge_loop_spec (ao_Strategy o) (map_range inc) (ar_Annotations a) (map_range_NoDup_keys _)) as [[Hc [e ->]]|[Hc ->]].
  - left. split; [done | by eexists].
  - right. split; [done |]. assert (list_to_map (map_range inc) = inc) as ->; [| done].
    rewrite <-(list_to_map_to_list inc) at 2. apply list_to_map_proper; [apply map_range_NoDup_keys | apply map_range_perm].
Qed.

(** The epoch 0 is not taken for an epoch: the time of creation is then the one of the clock. *)
Lemma created_ignores_epoch_zero {S} `{Clock S} a (s : S) :
  ar_Metadata a !! MetaKeySourceDateEpoch = Some (str_bytes "0") → last_created (ar_Layers a) = None →
  resolveEpoch a = Ok (Some (time_Unix 0)) ∧ resolveCreatedAt a s = time_Now s.
Proof.
  intros Hm Hl. unfold resolveEpoch, resolveCreatedAt. rewrite Hm, Hl. split; [reflexivity |].
  rewrite decide_False; [done |]. intros [_ Hp]. rewrite bytes_str_bytes in Hp. vm_compute in Hp. discriminate Hp.
Qed.

(** ** Attestations *)

Section attestation.
Context (o : AttestationTransformerOptions).

Definition eligible (att : AttestationRecord) : bool := allowKind o (at_Kind att) && negb (denyPredicate o (at_PredicateType att)).

(** The attestations that are kept, after those with the paths [seen] *)
Fixpoint select (atts : list AttestationRecord) (seen : gset string) : list AttestationRecord :=
  match atts with
  | [] => []
  | att :: atts =>
      if eligible att && (negb (to_DeduplicateByPath o) || bool_decide (at_Path att ∉ seen))
      then att :: select atts ({[at_Path att]} ∪ seen) else select atts seen
  end.

Lemma select_all atts seen : to_DeduplicateByPath o = false → select atts seen = filter (λ att, eligible att = true) atts.
Proof.
  intros Hd. revert seen. induction atts as [|att atts IH]; intros seen; [done |]. cbn [select]. rewrite filter_cons, Hd. cbn [negb orb]. rewrite andb_true_r.
  destruct (eligible att); [rewrite decide_True by done; f_equal; apply IH | rewrite decide_False by done; apply IH].
Qed.

Lemma select_dedup atts seen : to_DeduplicateByPath o = true →
  NoDup (at_Path <$> select atts seen) ∧ select atts seen `sublist_of` filter (λ att, eligible att = true) atts
  ∧ ∀ p, p ∈ at_Path <$> select atts seen ↔ p ∈ at_Path <$> filter (λ att, eligible att = true) atts ∧ p ∉ seen.
Proof.
  intros Hd. revert seen. induction atts as [|att atts IH]; intros seen; [split_and!; [constructor | constructor | set_solver] |].
  cbn [select]. rewrite filter_cons, Hd. cbn [negb orb].
  destruct (eligible att); cbn [andb]; [rewrite decide_True by done | rewrite decide_False by done; apply IH].
  case_bool_decide as Hs.
  - destruct (IH ({[at_Path att]} ∪ seen)) as (Hnd & Hsub & Hp). rewrite !fmap_cons. split_and!.
    + constructor; [| done]. rewrite Hp. set_solver.
    + by apply sublist_skip.
    + intros p. rewrite !elem_of_cons, Hp. destruct (decide (p = at_Path att)) as [->|]; set_solver.
  - destruct (IH seen) as (Hnd & Hsub & Hp). split_and!; [done | by apply sublist_cons |]. intros p. rewrite Hp, fmap_cons, elem_of_cons. set_solver.
Qed.

Lemma attestation_loop_spec atts seen kept :
  (∃ att e, att ∈ atts ∧ validate o att = Some e ∧ attestation_loop o atts seen kept = Err e)
  ∨ Forall (λ att, validate o att = None) atts ∧ attestation_loop o atts seen kept = Ok (kept ++ select atts seen).
Proof.
  revert seen kept. induction atts as [|att atts IH]; intros seen kept; cbn [attestation_loop select].
  { right. by rewrite app_nil_r. }
  destruct (validate o att) as [e|] eqn:Hv; [left; exists att, e; split_and!; [left | done..] |].
  set (s' := {[at_Path att]} ∪ seen). unfold eligible.
  destruct (allowKind o (at_Kind att)), (denyPredicate o (at_PredicateType att)), (to_DeduplicateByPath o) eqn:Hd; cbn [negb andb orb];
    try case_decide as Hin; try case_bool_decide as Hno; try done.
  all: match goal with |- context [attestation_loop o ?l ?x ?y] => destruct (IH x y) as [(a & e & Ha & He & E)|[Hall E]] end; rewrite E;
    [left; exists a, e; split_and!; [by right | done | done] | right; split; [by constructor |]; by rewrite <-?app_assoc, ?(select_all _ _ Hd)].
Qed.

(** Either some attestation is not valid, or the kept ones are the eligible ones, in order, with
    deduplication the first of each path ([select_all], [select_dedup]). *)
Lemma attestation_Transform_spec {S} a (s : S) :
  (∃ att e, att ∈ ar_Attestations a ∧ validate o att = Some e ∧ attestation_Transform o a s = (Err e, s))
  ∨ Forall (λ att, validate o att = None) (ar_Attestations a)
    ∧ attestation_Transform o a s = (Ok (Some (set_attestations (select (ar_Attestations a) ∅) a)), s).
Proof.
  unfold attestation_Transform, io_bind, io_of, io_ret. case_decide as Hn; [right; rewrite Hn; split; [constructor | destruct a; simpl in *; by subst] |].
  destruct (attestation_loop_spec (ar_Attestations a) ∅ []) as [(att & e & H1 & H2 & ->)|[H1 ->]]; [left; by exists att, e | by right].
Qed.
End attestation.

(** Bundles, which need no path, are taken for duplicates of each other. *)
Lemma bundles_collapse pt1 pt2 p1 p2 i1 i2 m1 m2 :
  attestation_loop (mkAttestationOptions [] [] false true)
    [mkAttestation AttestationKindBundle pt1 EmptyString p1 i1 m1; mkAttestation AttestationKindBundle pt2 EmptyString p2 i2 m2] ∅ []
  = Ok [mkAttestation AttestationKindBundle pt1 EmptyString p1 i1 m1].
Proof. reflexivity. Qed.
