(* ===== verification/ExExport.v ===== *)
(** * ExExport: the options of the image exporter and what an export writes

    The options as a function of the map that gives them; an export writes the blobs that it
    would write to an empty store, and they are a complete image, down to the layers. *)
From S2P Require Import Prelude GoStd GoNum Sha256 ExTypes ExImage.
#[local] Open Scope io_scope.

(** ** Options *)

(** An option that is absent or does not parse has its default. *)
Definition opt_bool (m : Options) (k : string) (def : bool) : bool :=
  match m !! k with Some v => match parseBoolOrTrue v with Ok b => b | Err _ => def end | None => def end.
Definition opt_string (m : Options) (k : string) : string := default EmptyString (m !! k).

Definition config_of (m : Options) : Config := {|
  cf_ImageName := opt_string m OptKeyName;
  cf_Push := opt_bool m OptKeyPush false;
  cf_PushByDigest := opt_bool m OptKeyPushByDigest false;
  cf_Insecure := opt_bool m OptKeyInsecure false;
  cf_Store := opt_bool m OptKeyStore true;
  cf_OCITypes := opt_bool m OptKeyOCITypes true;
  cf_OCIArtifact := opt_bool m OptKeyOCIArtifact false;
  cf_Compression := match m !! OptKeyCompression with Some v => match parseCompression v with Ok t => t | Err _ => CompressionGzip end | None => CompressionGzip end;
  cf_CompressionLevel := match m !! OptKeyCompressionLevel with Some v => default 0%Z (ParseInt v) | None => 0%Z end;
  cf_ForceCompression := opt_bool m OptKeyForceCompression false;
  cf_RewriteTimestamp := opt_bool m OptKeyRewriteTimestamp false;
  cf_ForceInlineAttestations := opt_bool m OptKeyForceInlineAttest true;
  cf_PreferNondistributableLayers := opt_bool m OptKeyPreferNondistLayers false;
  cf_NameCanonical := opt_bool m OptKeyNameCanonical false;
  cf_DanglingPrefix := opt_string m OptKeyDanglingPrefix;
  cf_Unpack := opt_bool m OptKeyUnpack false;
|}.

Definition known_keys : list string :=
  [OptKeyName; OptKeyPush; OptKeyPushByDigest; OptKeyInsecure; OptKeyStore; OptKeyOCITypes; OptKeyOCIArtifact; OptKeyCompression; OptKeyCompressionLevel;
   OptKeyForceCompression; OptKeyRewriteTimestamp; OptKeyForceInlineAttest; OptKeyPreferNondistLayers; OptKeyNameCanonical; OptKeyDanglingPrefix; OptKeyUnpack].

(** The error of an option, whatever the other ones are *)
Definition option_error (k v : string) : option error := match config_case k v DefaultConfig with Some (Err e) => Some e | _ => None end.

Lemma parseBoolOrDefault_true v : parseBoolOrDefault v true = parseBoolOrTrue v.
Proof. unfold parseBoolOrDefault, parseBoolOrTrue. by case_decide. Qed.

Lemma parseInt_Ok k v n : parseInt k v = Ok n → ParseInt v = Some n.
Proof. unfold parseInt. destruct (ParseInt v); [by intros [= ->] | done]. Qed.

Lemma config_case_of m k v : m !! k = None →
  match config_case k v (config_of m) with
  | None => k ∉ known_keys ∧ option_error k v = None ∧ config_of (<[k := v]> m) = config_of m
  | Some (Ok c) => k ∈ known_keys ∧ option_error k v = None ∧ c = config_of (<[k := v]> m)
  | Some (Err e) => k ∈ known_keys ∧ option_error k v = Some e
  end.
Proof.
  intros Hm. unfold known_keys. cbv beta iota zeta delta [config_case option_error config_of DefaultConfig]. rewrite !parseBoolOrDefault_true.
  repeat match goal with |- context [decide (k = ?key)] => destruct (decide (k = key)) as [->|?] end.
  17: { split_and!; [rewrite !not_elem_of_cons; split_and!; try done; apply not_elem_of_nil | done |].
        unfold opt_bool, opt_string. rewrite !lookup_insert_ne by done. done. }
  all: try match goal with |- context [on_ok _ ?r] => destruct r eqn:E end;
    cbn [on_ok]; split_and?; try done; try (by apply (bool_decide_unpack _)).
  all: unfold opt_bool, opt_string; rewrite !lookup_insert;
    repeat match goal with |- context [decide (?a = ?b)] => first [rewrite (decide_False (P := a = b)) by done | rewrite (decide_True (P := a = b)) by done] end;
    try (apply parseInt_Ok in E); by rewrite ?E.
Qed.

Lemma config_loop_spec opts m u : NoDup opts.*1 → Forall (λ kv, m !! kv.1 = None ∧ u !! kv.1 = None) opts →
  (∃ k v e, (k, v) ∈ opts ∧ option_error k v = Some e ∧ config_loop opts (config_of m) u = Err e)
  ∨ Forall (λ kv, option_error kv.1 kv.2 = None) opts
    ∧ config_loop opts (config_of m) u = Ok (config_of (list_to_map opts ∪ m), filter (λ kv, kv.1 ∉ known_keys) (list_to_map opts) ∪ u).
Proof.
  revert m u. induction opts as [|[k v] opts IH]; intros m u.
  { intros _ _. right. split; [constructor |]. cbn. by rewrite map_filter_empty, !(left_id_L ∅ (∪)). }
  rewrite fmap_cons, NoDup_cons, Forall_cons. cbn [fst snd]. intros [Hk Hnd] [[Hm Hu] Hf]. cbn [config_loop].
  assert ((list_to_map opts : Options) !! k = None) as Hlk by (by apply not_elem_of_list_to_map).
  assert (∀ m' u', (m' = m ∨ m' = <[k := v]> m) → (u' = u ∨ u' = <[k := v]> u) → Forall (λ kv, m' !! kv.1 = None ∧ u' !! kv.1 = None) opts) as Hf'.
  { intros m' u' H1 H2. rewrite Forall_forall in Hf |- *. intros [k' v'] Hin. destruct (Hf _ Hin) as [F1 F2]. cbn [fst] in *.
    assert (k ≠ k') as Hne by (intros <-; apply Hk; by apply (list_elem_of_fmap_2 fst) in Hin).
    destruct H1 as [->| ->], H2 as [->| ->]; by rewrite ?lookup_insert_ne. }
  pose proof (config_case_of m k v Hm) as Hc. destruct (config_case k v (config_of m)) as [[c|e]|].
  - destruct Hc as (Hkn & He & ->). destruct (IH (<[k := v]> m) u Hnd) as [(k' & v' & e' & Hin & H1 & H2)|[H1 H2]]; [apply Hf'; auto | |].
    + left. exists k', v', e'. split_and!; [by right | done | done].
    + right. split; [by constructor |]. rewrite H2. cbn [list_to_map foldr fst snd]. do 3 f_equal.
      * apply map_eq. intros i. rewrite !lookup_union, !lookup_insert. case_decide; [subst i; by rewrite Hlk, Hm | done].
      * symmetry. apply map_filter_insert_not'; [by intros ? |]. intros y. by rewrite Hlk.
  - destruct Hc as [Hkn He]. left. exists k, v, e. split_and!; [left | done | done].
  - destruct Hc as (Hkn & He & Hcfg). rewrite <-Hcfg. destruct (IH (<[k := v]> m) (<[k := v]> u) Hnd) as [(k' & v' & e' & Hin & H1 & H2)|[H1 H2]]; [apply Hf'; auto | |].
    + left. exists k', v', e'. split_and!; [by right | done | done].
    + right. split; [by constructor |]. rewrite H2. cbn [list_to_map foldr fst snd]. f_equal. f_equal; [f_equal |].
      * apply map_eq. intros i. rewrite !lookup_union, !lookup_insert. case_decide; [subst i; by rewrite Hlk, Hm | done].
      * rewrite map_filter_insert_True by done. apply map_eq. intros i. rewrite !lookup_union, !lookup_insert. case_decide; [subst i | done].
        by rewrite map_lookup_filter, Hlk, Hu.
Qed.

(** The options of an image are read as a function of their map, whatever the order in which Go
    visits it: either some option does not parse, and the error is one of such an option; or
    every field has the value of its option, or its default, an OCI artifact having OCI media
    types, and exactly the options with unknown keys are left over. *)
Theorem ParseConfig_spec (R : GoRange) (opts : Options) :
  (∃ k v e, opts !! k = Some v ∧ option_error k v = Some e ∧ ParseConfig opts = Err e)
  ∨ (∀ k v, opts !! k = Some v → option_error k v = None)
    ∧ ParseConfig opts = Ok (with_oci_types (config_of opts), filter (λ kv, kv.1 ∉ known_keys) opts).
Proof.
  assert (list_to_map (map_range opts) = opts) as Hl.
  { rewrite <-(list_to_map_to_list opts) at 2. apply list_to_map_proper; [apply map_range_NoDup_keys | apply map_range_perm]. }
  unfold ParseConfig. change DefaultConfig with (config_of ∅).
  destruct (config_loop_spec (map_range opts) ∅ ∅) as [(k & v & e & Hin & He & ->)|[Hok ->]]; [apply map_range_NoDup_keys | by apply Forall_forall | |].
  - left. exists k, v, e. split_and!; [by apply elem_of_map_range | done | done].
  - right. split.
    + intros k v Hkv. rewrite Forall_forall in Hok. by apply (Hok (k, v)), elem_of_map_range.
    + by rewrite Hl, !(right_id_L ∅ (∪)).
Qed.

(** The documented option for the epoch is not one of the known ones: no exporter can be had with it. *)
Lemma epoch_option_rejected {S} `{ImageJSON, GoRange} (x : ContainerImageExporter S) opts v s :
  opts !! OptKeySourceDateEpoch = Some v → ∃ e, image_Resolve x opts s = (Err e, s).
Proof.
  intros Hv. unfold image_Resolve. destruct (ParseConfig_spec _ opts) as [(? & ? & ? & _ & _ & ->)|[_ ->]]; [by eexists |].
  destruct (map_range (filter _ opts)) as [|[k w] l] eqn:E; [| by eexists]. exfalso.
  assert ((OptKeySourceDateEpoch, v) ∈ map_range (filter (λ kv : string * string, kv.1 ∉ known_keys) opts)) as Hin.
  { apply elem_of_map_range, map_lookup_filter_Some. split; [done |]. by apply (bool_decide_unpack _). }
  rewrite E in Hin. by apply elem_of_nil in Hin.
Qed.
